(* ===== verification/_CoqProject ===== *)
-Q . S2P
Prelude.v
RustStr.v
RustStrFacts.v
Order.v
Glob.v
GlobFacts.v
Diff.v
DiffFacts.v
DiffProps.v
Substance.v
SubstanceProps.v
Paths.v
Scope.v
Coverage.v
CoverageProps.v
Time.v
Json.v
JsonFacts.v
JsonScan.v
JsonProps.v
Tables.v
Effects.v
Store.v
Records.v
Leases.v
Ready.v
LeaseHistory.v
LeaseSpec.v
RecordSpec.v
StoreCalls.v
LeaseProps.v
RecordProps.v
Wire.v
WireProps.v
ReadyProps.v
Regress.v
GitReads.v
Change.v
RegressFacts.v
Blobs.v
Blame.v
Suspects.v
Blast.v
ChangeText.v
ChangeProps.v
BlastProps.v
BlobProps.v
SuspectProps.v
CodeEdges.v
Bfs.v
Traversal.v
TraversalProps.v
Tarjan.v
TarjanProps.v
EdgeIndex.v
EdgeIndexFacts.v
EdgeIndexProps.v
Ranges.v
RangesFacts.v
Pending.v
GenStore.v
GenStoreFacts.v
GenStoreProps.v
Payloads.v
PendingProps.v
Redact.v
RedactProps.v
Rigor.v
RigorProps.v
Stdout.v
Gusset.v
Pdg.v
PdgFacts.v
PdgPaths.v
PdgData.v
PdgProps.v
EvidenceTypes.v
Evidence.v
EvidenceFacts.v
EvidenceProps.v
