(* ===== verification/Prelude.v ===== *)
(** * DevCouncil: a verification library

    DevCouncil runs coding agents against a plan and decides, by code and not by the
    agents' word, whether what they did may stand. The crates that decide are modelled
    here: what changed and whether the plan allowed it ([dc-verify], [dc-glob]), who may
    work on a task and on which files, and what is on record about it ([dc-store]),
    whether a recorded run proves its outcome ([dc-evidence]), which credentials a text gives
    away ([dc-redact]), and what a change can break
    or which commit broke something ([dc-regress]). Under the last is the map of the code:
    the store of its generations ([devmap-store]) and the analyses that walk it
    ([devmap-analyze]). Sources are under [src/rust].

    ** How the parts fit

    A change arrives as text of [git diff]. [parse_unified] reads it into files, hunks and
    numbered lines; [classify_scope] holds the changed paths against the plan through the
    fnmatch matcher of [dc-glob]; [measure] says how much of what was added is new work.
    Secret and test paths are classified by the same matcher's crate. Agents lease tasks
    from a SQLite store: leases expire by ISO timestamps, tasks carry JSON columns that are
    checked and merged as text, and several processes use one store at once. A run's
    evidence, a contract and a bundle of actions and observations, is judged by [verify];
    a coverage report is held against the lines the change added; what is quoted or recorded
    has its credentials withheld by [redact_secrets]; the rigor gates scan the added lines for
    credentials and stubs, and [check] of [dcverify] puts all of this into one reply; gaps, verification runs
    and reviews are written to the same store. Over a repository and its code graph,
    [blast_bounded] places a change in symbols and walks inbound, and [suspects_bounded]
    walks outbound from a symptom, blames the cone and ranks the commits of a window.
    The code graph comes from the map: edits wait in a queue of the store until a build or
    a drain has answered them; resolved edges are written into a store as
    generations, by difference; a query loads the latest generation into an index of
    ranked columns, and the bounded walk, the components and the dependence graphs of
    functions are computed over it.

    ** Files, by component

    - Shared: [Prelude] (results, integers, sorting, list lemmas and tactics), [RustStr] and
      [RustStrFacts] (the standard library's strings: scalars, UTF-8, splitting, numbers),
      [Order] (comparators as chains of keys, total and antisymmetric by instances of
      [LebOrder]), [Paths] (separator and dot-prefix folding).
    - fnmatch, [dc-glob/src/lib.rs]: [Glob] has [Pattern::compile] as [compile], its class
      reader as [parse_class] and [dashed_class], and [match_tokens] as [walk] over [turn];
      [reference] is the walker kept in the crate's tests. [GlobFacts] proves both instances
      of one machine and decides the inductive language [fnmatch]; [GlobClass], beside it, reads classes.
    - The matcher behind the Go boundary, [gusset-engine/src/lib.rs]: [Gusset] has the frames,
      the registry of prepared lists as threads reach it between its two locks, the answers
      and the opcodes, with the results beside them.
    - Path classes, [dc-glob/src/secret_paths.rs] and [test_paths.rs]: the Modules
      [SecretPaths] and [TestPaths] of [Paths], with their results in its Module [PathProps].
    - Diffs, [dc-verify/src/lib.rs]: [Diff] has [parse_unified] as a fold of [step] over
      lines, with [State] for its locals, then [finish]. [DiffFacts] has git's quoting of names,
      renders changes as git does and has the invariant, [DiffProps] has the results.
    - Scope, [classify_scope]: [Scope], against the interface [PathMatcher] that [Glob]
      implements, with its results in the Module [ScopeFacts].
    - Substance, [dc-verify/src/substance.rs]: [Substance], [SubstanceProps].
    - Coverage, [dc-verify/src/coverage.rs] and the gate of [rigor.rs]: [Coverage],
      [CoverageProps].
    - Credentials, [dc-redact/src/lib.rs]: [Redact] has the table of prefixed keys, the five
      detectors of context with the memories that keep them linear, and the redaction;
      [RedactProps] has their references without memory and the results.
    - Rigor gates, [dc-verify/src/rigor.rs] and [check] of [bin/dcverify.rs]: [Rigor] has the
      credential scan, the line checks, the allow-stub declarations, the file after the change
      and the stub pass, and composes them into the reply with the parser, the scope, the
      coverage gate and the substance measure; [RigorProps] has what a declaration covers as a
      specification, and the results.
    - Output, [dc-verify/src/json_stdout.rs] and the writing of the reply in [dcverify.rs]:
      the Modules [Stdout] and [ReplyText] of [Stdout], with their results beside them.
    - JSON text, [dc-store/src/json.rs] and [merge_json_arrays]: [Json] is the scanner,
      [JsonFacts] has the grammar it must accept, [JsonScan] and [JsonProps] the proofs.
    - Timestamps, [format_iso_utc] and [parse_iso_utc]: [Time], with the
      calendar's bijection in its Module [TimeFacts].
    - The store, [dc-store/src/lib.rs], [tasks.rs], [schema.rs]: [Effects] is a free monad of
      SQL statements, clock readings, random bytes and transactions; [Store] gives the tables
      each SQL statement and, in its Module [Tasks], what can be leased; [Leases] and [Ready]
      are the methods, in the order of their statements. [LeaseHistory] is about every interleaving, [LeaseSpec] has a
      weakest-precondition lemma per method, [LeaseProps] and [ReadyProps] the results.
    - Run records, [dc-store/src/records.rs]: [Tables] has the rows, [Records] the
      operations; [RecordSpec] has the abstract log of reports per task and relates each
      operation to it, [StoreCalls] is every call of the store as one step relation,
      [RecordProps] the results. [Wire] and [WireProps] are [commit_wire.rs], the framing in
      which a verification reaches the store.
    - Evidence, [dc-evidence/src]: [EvidenceTypes] ([types.rs], [strict_json.rs]),
      [Evidence] ([lib.rs], one definition per loop body), [EvidenceFacts] (its loops and
      report), [EvidenceProps] (artifact paths, bundle facts, the results).
    - Regressions, [dc-regress/src]: [Regress] ([lib.rs] and the line index of
      [devmap-extract]), [GitReads] ([history.rs], [budget.rs]), [Blobs] ([blob.rs]),
      [Blame] ([blame.rs], [join.rs]), [Suspects] ([rank.rs], [suspects.rs]), [Change]
      ([change.rs]) and [Blast] ([blast.rs]). Git, its processes and the clock are the class
      [Machine], whose world every call threads; the code graph is the class [CodeGraph],
      the trait of that name. [RegressFacts] has lines, ranges and the merging of ranges,
      [ChangeText] the reading of what git writes; [ChangeProps], [BlastProps],
      [SuspectProps], [BlameProps] of [Blame] and [BlobProps] the results.
    - Edges and walks, [devmap-analyze/src/traversal.rs]: [CodeEdges] has the kinds,
      confidences and resolutions of an edge, [Bfs] breadth-first levels of any relation,
      [Traversal] the walk over the interface [GraphIndex], [TraversalProps] the results.
    - Components, [dead_clusters.rs]: [Tarjan] has the explicit stack of
      [strongly_connected_components] as a machine of turns, [TarjanProps] the results.
    - Dependence graphs, [pdg.rs]: [Pdg] is [build_function_pdg], control flow, reaching
      definitions and taint; [PdgPaths] gives the statements an operational semantics in its
      Module [PdgRuns] and follows its runs in the graph, [PdgData] is the data flow; [PdgFacts] and
      [PdgProps].
    - The edge index, [devmap-store/src/edge_index.rs] and the read in [db/query.rs] that
      fills it: [EdgeIndex] has the interning builder, its ranking and the adjacency by
      counting sort, an instance of [GraphIndex]; [EdgeIndexFacts] and [EdgeIndexProps] have
      the proofs, the latter with the bits of confidences in its Module [FloatFacts].
    - Generations, [devmap-store/src/db.rs], [db/write.rs], [db/maintenance.rs]: [Ranges] is
      the delta of one ranged relation, for rows of any type: digests, buckets, the scan and
      the rows closed and inserted. [RangesFacts] proves it a difference of multisets.
      [GenStore] writes and prunes generations of edges and unresolved calls over it, with
      interned paths and texts, and gives the views. [GenStoreFacts] has what each operation
      does, [GenStoreProps] the refinement of a history and the results.
    - The payload window, [PayloadFeed] of [db/write.rs]: [Payloads], a step relation that
      interleaves the writing thread and its serializer threads, and its results.
    - The queue of edits, [devmap-store/src/db/pending.rs] and the path rules of [db.rs]:
      [Pending], whose Module [Discovery] has what a path is and which build cache it lies
      in ([devmap-extract/src/lib.rs]); [PendingProps] has every call of the queue as a step
      of a world that remembers edits and what became of them, and the results.

    ** What the theorems show

    - Parsing: a change written as git writes it, quoted names, left-out counts, headings,
      modes, similarities, binary notices and missing line endings included, is read back;
      every accepted diff is well formed; truncated, overlapping and contradictory diffs are refused; no counter
      overflows; quoting is inverted.
    - Matching: the compiled matcher answers, and answers the pattern's language, for every
      pattern and name within its caps.
    - Policy: every changed path is reported once; orphans and untouched entries are exactly
      those the plan says; relocated, repeated and structural lines are not counted as work.
    - Leases: in every interleaving of any number of clients, with statements failing at any
      point, a task has at most one active lease and a closed lease is final. Run alone,
      each method does exactly what its documentation says, errors included.
    - Records: a replacement of a task's gaps is one run in an abstract log that no
      interleaving shortens; a verification commits whole or not at all; what a host frames
      is what is stored, and a framing means one verification.
    - The boundary: just the frames a host writes are read; a prepared list answers as the
      list itself in every interleaving; the registry holds each list once, under its bounds.
    - Coverage: a clean gate means every added line of executable source was executed.
    - Credentials: a redacted text holds nothing the scan would stop; what is withheld shows
      in its length alone; the linear detectors find what quadratic ones do, but for the one
      prefix that is no key, where a credential can be missed (a finding).
    - Rigor: each credential on an added line, or in a binary file that was read, blocks, and
      no evidence shows one; a file that gained lines in a readable language was analysed or is
      named as degraded (what only removes adds nothing to read); a stub is
      excused by a marker with a reason that covers it and by nothing else; every stub finding
      quotes the change, or the line of the new text its tree names beside an added one. The words of a finding can show what its evidence withholds: a
      finding.
    - Output: a reply is one JSON object, whatever paths and texts it quotes, and reads back
      as what was written; what the store's scanner accepts the output scanner accepts; output
      after an object is refused where it starts.
    - Scope widening is a compare-and-swap under the live lease; task replies hold only
      JSON arrays.
    - Evidence: a passed run is bound to what was admitted, its journal is ordered, complete
      and observed, its artifacts are intact and its required criteria hold; the verdict is
      the worst of what was reported.
    - Regressions: a change git writes is read back; a complete blast radius placed every
      range; a complete suspect report left out no commit that git's blame, at the one id the
      revision resolved to, gives a line of the cone, nor any of those lines; every suspect is evidenced and
      ranked by evidence before size; blame, blobs and their answers are read as written;
      no revision or path becomes an option of git.
    - Walks: a walk that reports no limit lists exactly what is near, at its distance, and
      records exactly the edges it crossed; any walk is a lower bound. The components are the classes of mutual reachability.
    - Dependence graphs: every valid function gets one; every run whose exceptions go
      where the builder routes them is a path of the control graph, and a run with an exception
      it does not route, before the first statement of a guarded body or in a handler, need not
      be (a finding); the data edges are exactly the reaching definitions.
    - The index: a walk over it is the walk over the edges the floor admits; it holds every
      row once, in the order of its bytes. The evidence of a stored edge is misread exactly
      when the labels of a row set do not first come in byte order: that is proved as it is,
      and listed as a finding.
    - Generations: a store is its history, whatever writes, refusals and prunes happened;
      a write stores the difference and nothing else, and restores rows gone missing; an
      accepted write had none of the faults the code checks for, a refused one has the fault it
      names, and its generation has a row for each file given or carried; a prune takes what nothing can read; what was resolved
      is what the index of the latest generation serves.
    - The window: every interleaving inserts what serializing in turn inserts, and ends; at
      most a window of payloads is held.
    - The queue: in every interleaving of producers, drains, builds and sweeps no edit is
      lost, and no claim, watermark or sweep reaches an edit made after it; a path has one
      spelling; a claim takes the oldest work that may be retried; a sweep settles the queue
      in one pass, keeps the rows it does not rewrite and brings the others in under their
      one spelling.

    ** Fuel, bounds and parameters

    [walk] of [Glob] takes the matcher's own step budget as fuel; [GlobFacts] shows it is
    never reached within the size caps. The scanner's three mutual functions take fuel that
    [JsonScan] shows sufficient for every text. [active_lease_passes] takes the number of
    reads the source allows. [read_answers] takes a turn per byte, and every turn consumes
    one. The walk of [Traversal] takes its cap on nodes, Tarjan's machine the nodes and
    edges, both shown enough; [concat_loop] of [Rigor] and the scan of [Stdout] take the
    length of the text, shown enough; [hop_commas] of [Redact] takes the length of the line, and its
    passes are capped by the source; the passes of [Pdg] are bounded by the source's own ceiling,
    shown to be reached by no function; [follow] takes the length of the chain and one, and
    no chain is longer. The feed of [Payloads] has no fuel: its steps lower a measure.
    Everything else is structural. Integers are [Z]; where the source's width matters (line
    numbers, saturating clocks, byte totals, row ids, digests) the bound, the wrapping or
    the saturation is written and proved.

    Parameters are code outside the repository: the Unicode tables ([UnicodeTables], with
    their ASCII part fixed), SHA-256, [serde_json] ([JsonValue] and the decoding functions),
    SQLite's [unixepoch], what a debug form leaves unescaped ([DebugTable]), the hasher of
    the standard library ([Hashes], of which nothing is assumed), the processes
    and clocks of [dc-proc] ([Machine]), the code graph ([CodeGraph]), the modules found by
    walking for go.mod files and the canonical root, the grammars of an extraction
    ([Grammars]), the file system as the queue asks it
    ([Files]), the language tables ([is_indexable_source]), the serializer of payloads, the files of the working
    tree, and the widths and capacities of a registered list ([Layout]). What [stub_ast.rs] reads off a tree-sitter tree is a parameter of the gates as well.
    Two row
    sets of a file with one digest would be taken for the same; the theorems about
    generations name that as [collision_free], a condition on the sets of one write. The
    disclosure an index carries is a type parameter. The memo of a blob reader is threaded
    where the source holds a mutex, and a lane's reading thread is its list of answers.
    SQLite is taken to run each statement atomically, to roll a failed
    transaction back, to enforce its constraints and to keep a REAL as the [f64] it was
    given; the meaning of each SQL text is written in [Store], [Leases], [Ready], [Records],
    [GenStore] and [Pending].

    ** What is not modelled

    Reading files and arguments (the binaries, bounded reads), processes ([dc-proc]), opening and
    migrating the databases, and everything over a parser or an engine of another library
    ([stub_ast.rs], the tree walks of [devmap-extract]). Of a write of a generation, the
    nodes, full text, literals, coverage gaps and build history are present
    only as the paths they intern and the ids they hold, the payload of a file is the bytes its
    serializer gave, and failures of SQLite, locks and threads are left out. The queue's callers,
    the watcher and the drain, are scheduling around it and are left out too. Sources within reach of these
    techniques that are left out for their size alone: the workbench of [dc-store], whose
    bodies are JSON built inside SQLite; [task_requirements] of [records.rs]; the indexes of
    [dc-grep]; and the resolution and liveness of [devmap-resolve] and [devmap-analyze],
    cascades of rules per language and framework. *)

From stdpp Require Export base list numbers strings sorting gmap.
From Stdlib Require Export ZArith Lia.

#[export] Set Warnings "-clear-no-such-hyp".

(** ** Results

    Rust's [Result<T, E>] and its [?] operator. *)

Inductive result (A E : Type) : Type :=
  | Ok (a : A)
  | Err (e : E).
Arguments Ok {A E} _.
Arguments Err {A E} _.

Declare Scope dc_scope.
Delimit Scope dc_scope with dc.

Notation "'let?' x ':=' m 'in' k" :=
  (match m with Ok x => k | Err e => Err e end)
  (at level 10, x pattern, m at level 100, k at level 200) : dc_scope.

(** [let!] is [?] on an [Option]. *)
Notation "'let!' x ':=' m 'in' k" :=
  (match m with Some x => k | None => None end)
  (at level 10, x pattern, m at level 100, k at level 200) : dc_scope.

#[global] Open Scope dc_scope.

Definition is_ok {A E} (r : result A E) : bool :=
  match r with Ok _ => true | Err _ => false end.

(** [Option::ok_or]. *)
Definition ok_or {A E} (o : option A) (e : E) : result A E :=
  match o with Some a => Ok a | None => Err e end.

#[export] Instance result_eq_dec {A E} `{EqDecision A, EqDecision E} :
  EqDecision (result A E).
Proof. solve_decision. Defined.

(** ** Machine integers *)

Definition u32_max : Z := 4294967295.
Definition u64_max : Z := 18446744073709551615.
Definition usize_max : Z := u64_max.
Definition i64_max : Z := 9223372036854775807.
Definition i64_min : Z := -9223372036854775808.

Definition sat_add (m a b : Z) : Z := Z.min m (a + b).
Definition sat_mul (m a b : Z) : Z := Z.min m (a * b).

(** [i64::saturating_add]. *)
Definition sat_add_i64 (a b : Z) : Z :=
  Z.max i64_min (Z.min i64_max (a + b)).

(** ** Automation *)

#[global] Arguments Z.eqb : simpl never.
#[global] Arguments Z.leb : simpl never.
#[global] Arguments Z.ltb : simpl never.
#[global] Arguments Z.gtb : simpl never.
#[global] Arguments Z.geb : simpl never.

(** Case analysis on every boolean integer test of the goal and the context. *)
Ltac bool_to_prop :=
  repeat match goal with
  | H : andb _ _ = true |- _ => apply andb_prop in H; destruct H
  | H : orb _ _ = false |- _ => apply orb_false_iff in H; destruct H
  | H : negb _ = true |- _ => apply negb_true_iff in H
  | H : negb _ = false |- _ => apply negb_false_iff in H
  | H : Z.eqb _ _ = true |- _ => apply Z.eqb_eq in H
  | H : Z.eqb _ _ = false |- _ => apply Z.eqb_neq in H
  | H : Z.leb _ _ = true |- _ => apply Z.leb_le in H
  | H : Z.leb _ _ = false |- _ => apply Z.leb_gt in H
  | H : Z.ltb _ _ = true |- _ => apply Z.ltb_lt in H
  | H : Z.ltb _ _ = false |- _ => apply Z.ltb_ge in H
  | H : Nat.eqb _ _ = true |- _ => apply Nat.eqb_eq in H
  | H : Nat.eqb _ _ = false |- _ => apply Nat.eqb_neq in H
  | H : Nat.leb _ _ = true |- _ => apply Nat.leb_le in H
  | H : Nat.leb _ _ = false |- _ => apply Nat.leb_gt in H
  | H : Nat.ltb _ _ = true |- _ => apply Nat.ltb_lt in H
  | H : Nat.ltb _ _ = false |- _ => apply Nat.ltb_ge in H
  | H : bool_decide _ = true |- _ => apply bool_decide_eq_true_1 in H
  | H : bool_decide _ = false |- _ => apply bool_decide_eq_false_1 in H
  end.

(** Splits the first conditional of the goal on an integer or boolean test. *)
Ltac case_if :=
  match goal with
  | |- context [if ?b then _ else _] =>
      lazymatch type of b with bool => destruct b eqn:? | _ => destruct b end
  end.

Ltac case_if_in H :=
  match type of H with
  | context [if ?b then _ else _] =>
      lazymatch type of b with bool => destruct b eqn:? | _ => destruct b end
  end.

(** Splits the outermost match of a hypothesis. *)
Ltac case_match_in H :=
  match type of H with
  | context [match ?x with _ => _ end] =>
      lazymatch x with
      | context [match _ with _ => _ end] => fail
      | _ => destruct x eqn:?
      end
  end.

(** ** Stable sorting

    [slice::sort_by] is a stable sort; insertion sort is the executable stand-in
    (same result: a stable sort is determined by its input and the order). *)

Section Sort.
Context {A : Type} (leb : A → A → bool).

(** Inserts [x] before the first element it is strictly below or equal to. *)
Fixpoint insert_sorted (x : A) (l : list A) : list A :=
  match l with
  | [] => [x]
  | y :: l' => if leb x y then x :: l else y :: insert_sorted x l'
  end.

Definition sort_by (l : list A) : list A := foldr insert_sorted [] l.

Lemma insert_sorted_perm x l : insert_sorted x l ≡ₚ x :: l.
Proof.
  induction l as [|y l IH]; simpl; [done|].
  case_if; [done|]. rewrite IH. constructor.
Qed.

Lemma sort_by_perm l : sort_by l ≡ₚ l.
Proof.
  induction l as [|x l IH]; simpl; [done|].
  by rewrite insert_sorted_perm, IH.
Qed.

Hypothesis leb_total : ∀ x y, leb x y = true ∨ leb y x = true.

Lemma insert_sorted_sorted x l :
  Sorted (λ a b, leb a b = true) l →
  Sorted (λ a b, leb a b = true) (insert_sorted x l).
Proof.
  induction 1 as [|y l Hs IH Hhd]; simpl; [repeat constructor|].
  case_if.
  - repeat constructor; auto.
  - constructor; [done|].
    destruct l as [|z l]; simpl.
    + constructor. destruct (leb_total x y); congruence.
    + inversion Hhd; subst. case_if; constructor; [|done].
      destruct (leb_total x y); congruence.
Qed.

Lemma sort_by_sorted l : Sorted (λ a b, leb a b = true) (sort_by l).
Proof.
  induction l as [|x l IH]; simpl; [constructor|].
  by apply insert_sorted_sorted.
Qed.
End Sort.

(** ** Lists *)

Lemma Forall_sort_by {A} (leb : A → A → bool) (P : A → Prop) l :
  Forall P (sort_by leb l) ↔ Forall P l.
Proof. by rewrite (sort_by_perm leb l). Qed.

Lemma elem_of_sort_by {A} (leb : A → A → bool) x (l : list A) :
  x ∈ sort_by leb l ↔ x ∈ l.
Proof. by rewrite (sort_by_perm leb l). Qed.

Lemma length_sort_by {A} (leb : A → A → bool) (l : list A) :
  length (sort_by leb l) = length l.
Proof. by rewrite (sort_by_perm leb l). Qed.

(** Splits a list on a decidable test, keeping a permutation. *)
Lemma filter_negb_perm {A} (f : A → bool) (l : list A) :
  List.filter f l ++ List.filter (λ x, negb (f x)) l ≡ₚ l.
Proof.
  induction l as [|x l IH]; simpl; [done|].
  destruct (f x); simpl; [by rewrite IH|].
  by rewrite <- Permutation_middle, IH.
Qed.

(** Membership through the list functions the models use. *)

Lemma elem_of_rev {A} (x : A) l : x ∈ rev l ↔ x ∈ l.
Proof. by rewrite !list_elem_of_In, <- in_rev. Qed.

Lemma elem_of_map {A B} (f : A → B) l y : y ∈ map f l ↔ ∃ x, y = f x ∧ x ∈ l.
Proof.
  rewrite list_elem_of_In, in_map_iff. split; intros (x & ? & Hx); exists x; split; try done;
    by apply list_elem_of_In.
Qed.

Lemma omap_none {A B} (f : A → option B) l : (∀ x, x ∈ l → f x = None) → omap f l = [].
Proof.
  induction l as [|x l IH]; intros Hf; [done|]. cbn [omap list_omap]. rewrite Hf by (by left). apply IH. intros y Hy. apply Hf. by right.
Qed.

Lemma elem_of_flat_map {A B} (f : A → list B) l y : y ∈ flat_map f l ↔ ∃ x, x ∈ l ∧ y ∈ f x.
Proof. rewrite list_elem_of_In, in_flat_map. by setoid_rewrite list_elem_of_In. Qed.

Lemma elem_of_filter_bool {A} (p : A → bool) l x : x ∈ List.filter p l ↔ x ∈ l ∧ p x = true.
Proof. by rewrite list_elem_of_In, filter_In, <- list_elem_of_In. Qed.

#[export] Instance filter_bool_perm {A} (p : A → bool) : Proper ((≡ₚ) ==> (≡ₚ)) (List.filter p).
Proof.
  induction 1 as [|x l k _ IH|x y l|l k m _ IH1 _ IH2]; cbn [List.filter]; [done| | |by etrans].
  - destruct (p x); by rewrite IH.
  - destruct (p x), (p y); try done. constructor.
Qed.

Lemma filter_false {A} (p : A → bool) l : (∀ x, x ∈ l → p x = false) → List.filter p l = [].
Proof.
  induction l as [|x l IH]; intros H; [done|]. cbn [List.filter].
  rewrite (H x) by (by left). apply IH. intros y Hy. apply H. by right.
Qed.

Lemma existsb_false {A} (p : A → bool) l : existsb p l = false ↔ ∀ x, x ∈ l → p x = false.
Proof.
  rewrite <- not_true_iff_false, existsb_exists. split.
  - intros H x Hx. apply not_true_iff_false. intros Hp. apply H. exists x.
    by rewrite <- list_elem_of_In.
  - intros H (x & Hx & Hp). rewrite <- list_elem_of_In in Hx. by rewrite H in Hp.
Qed.

Lemma existsb_map {A B} (g : A → B) (f : B → bool) l :
  existsb f (map g l) = existsb (λ x, f (g x)) l.
Proof. induction l as [|x l IH]; cbn; [done|]. by rewrite IH. Qed.

Lemma filter_ext {A} (f g : A → bool) l :
  (∀ x, f x = g x) → List.filter f l = List.filter g l.
Proof. intros Hfg. induction l as [|x l IH]; cbn; [done|]. by rewrite Hfg, IH. Qed.

Lemma existsb_true {A} (p : A → bool) l : existsb p l = true ↔ ∃ x, x ∈ l ∧ p x = true.
Proof. rewrite existsb_exists. by setoid_rewrite <- list_elem_of_In. Qed.

Lemma forallb_true {A} (p : A → bool) l : forallb p l = true ↔ ∀ x, x ∈ l → p x = true.
Proof. rewrite forallb_forall. by setoid_rewrite <- list_elem_of_In. Qed.

Lemma sum_list_with_perm {A} (f : A → nat) l k : l ≡ₚ k → sum_list_with f l = sum_list_with f k.
Proof. induction 1; cbn; lia. Qed.

Create HintDb members.
#[export] Hint Rewrite @elem_of_rev @elem_of_map @elem_of_filter_bool @existsb_true @existsb_false
  @forallb_true @elem_of_app @list_elem_of_singleton : members.

(** [HashSet::insert] returning whether the value was new. *)
Definition set_insert {A} `{EqDecision A} (x : A) (s : list A) : bool * list A :=
  if bool_decide (x ∈ s) then (false, s) else (true, x :: s).
