(* ===== verification/RustStr.v ===== *)
(** * The Rust [str] and [char] the program uses

    A [char] is a Unicode scalar value, a [str] the list of its scalars, and a
    byte offset is resolved through each scalar's UTF-8 width, so a slice at an
    offset that is not on a character boundary is [None] as [str::get] has it.
    The functions below are the standard library's, as far as the modelled code
    calls them. The two Unicode tables the code consults ([to_lowercase],
    [is_alphanumeric]) are a class: every theorem holds for whatever table the
    toolchain ships, as long as it agrees with ASCII. *)

From S2P Require Import Prelude.
From Stdlib Require Import Ascii.

#[local] Open Scope Z_scope.

Abbreviation char := Z (only parsing).
Abbreviation str := (list Z).

(** An ASCII string literal. *)
Fixpoint lit (s : string) : str :=
  match s with
  | EmptyString => []
  | String a s' => Z.of_N (N_of_ascii a) :: lit s'
  end.

(** A character literal. *)
Definition chr (s : string) : char :=
  match lit s with c :: _ => c | [] => 0 end.

#[global] Arguments chr : simpl never.
#[global] Arguments lit : simpl never.

(** ** Characters *)

Definition in_range (lo hi c : Z) : bool := (lo <=? c) && (c <=? hi).

Definition is_scalar (c : char) : bool :=
  in_range 0 55295 c || in_range 57344 1114111 c.

Definition is_ascii_digit (c : char) : bool := in_range 48 57 c.
Definition is_ascii_lower (c : char) : bool := in_range 97 122 c.
Definition is_ascii_upper (c : char) : bool := in_range 65 90 c.
Definition is_ascii_alphabetic (c : char) : bool :=
  is_ascii_lower c || is_ascii_upper c.
Definition is_ascii_alphanumeric (c : char) : bool :=
  is_ascii_alphabetic c || is_ascii_digit c.
Definition is_ascii_hexdigit (c : char) : bool :=
  is_ascii_digit c || in_range 97 102 c || in_range 65 70 c.

(** [char::is_whitespace]: the Unicode [White_Space] property. *)
Definition is_whitespace (c : char) : bool :=
  in_range 9 13 c || (c =? 32) || (c =? 133) || (c =? 160) || (c =? 5760)
  || in_range 8192 8202 c || (c =? 8232) || (c =? 8233) || (c =? 8239)
  || (c =? 8287) || (c =? 12288).

(** [char::is_control]: general category [Cc]. *)
Definition is_control (c : char) : bool := in_range 0 31 c || in_range 127 159 c.

Definition to_ascii_lowercase (c : char) : char :=
  if is_ascii_upper c then c + 32 else c.
Definition to_ascii_uppercase (c : char) : char :=
  if is_ascii_lower c then c - 32 else c.
Definition ascii_lowercase (s : str) : str := map to_ascii_lowercase s.
Definition ascii_uppercase (s : str) : str := map to_ascii_uppercase s.
Definition eq_ignore_ascii_case (a b : str) : bool :=
  bool_decide (ascii_lowercase a = ascii_lowercase b).

(** The Unicode tables behind [char::to_lowercase], [str::to_lowercase] (which also
    looks at a final sigma) and [char::is_alphanumeric], abstract beyond ASCII. *)
Class UnicodeTables := {
  to_lowercase : char → list char;
  str_to_lowercase : str → str;
  is_alphanumeric : char → bool;
  to_lowercase_ascii : ∀ c, 0 ≤ c < 128 → to_lowercase c = [to_ascii_lowercase c];
  str_to_lowercase_ascii :
    ∀ s, forallb (λ c, c <? 128) s = true → str_to_lowercase s = ascii_lowercase s;
  is_alphanumeric_ascii :
    ∀ c, 0 ≤ c < 128 → is_alphanumeric c = is_ascii_alphanumeric c;
}.

(** The smallest such tables: nothing outside ASCII is cased or alphanumeric. *)
Definition ascii_tables : UnicodeTables.
Proof.
  refine {| to_lowercase c := [to_ascii_lowercase c];
            str_to_lowercase s := ascii_lowercase s;
            is_alphanumeric c := is_ascii_alphanumeric c |}; done.
Defined.

(** ** UTF-8 *)

Definition utf8_width (c : char) : Z :=
  if c <? 128 then 1 else if c <? 2048 then 2 else if c <? 65536 then 3 else 4.

(** [str::len], in bytes. *)
Fixpoint str_len (s : str) : Z :=
  match s with [] => 0 | c :: s' => utf8_width c + str_len s' end.

Definition utf8_encode_char (c : char) : list Z :=
  if c <? 128 then [c]
  else if c <? 2048 then [192 + c / 64; 128 + c mod 64]
  else if c <? 65536 then
    [224 + c / 4096; 128 + c / 64 mod 64; 128 + c mod 64]
  else
    [240 + c / 262144; 128 + c / 4096 mod 64; 128 + c / 64 mod 64;
     128 + c mod 64].

(** [str::as_bytes]. *)
Definition utf8_encode (s : str) : list Z := flat_map utf8_encode_char s.

Definition is_cont (b : Z) : bool := in_range 128 191 b.

(** The second bytes a three- and a four-byte lead admits. *)
Definition second_of_3 (b c : Z) : bool :=
  (b =? 224) && in_range 160 191 c
  || in_range 225 236 b && in_range 128 191 c
  || (b =? 237) && in_range 128 159 c
  || in_range 238 239 b && in_range 128 191 c.
Definition second_of_4 (b c : Z) : bool :=
  (b =? 240) && in_range 144 191 c
  || in_range 241 243 b && in_range 128 191 c
  || (b =? 244) && in_range 128 143 c.

Definition replacement : char := 65533.

(** [String::from_utf8_lossy]: every maximal invalid prefix of a sequence
    becomes one U+FFFD. *)
Fixpoint utf8_lossy (bs : list Z) : str :=
  match bs with
  | [] => []
  | b :: r1 =>
      if b <? 128 then b :: utf8_lossy r1
      else if in_range 194 223 b then
        match r1 with
        | c :: r2 =>
            if is_cont c then ((b - 192) * 64 + (c - 128)) :: utf8_lossy r2
            else replacement :: utf8_lossy r1
        | [] => [replacement]
        end
      else if in_range 224 239 b then
        match r1 with
        | c :: r2 =>
            if second_of_3 b c then
              match r2 with
              | d :: r3 =>
                  if is_cont d then
                    ((b - 224) * 4096 + (c - 128) * 64 + (d - 128)) :: utf8_lossy r3
                  else replacement :: utf8_lossy r2
              | [] => [replacement]
              end
            else replacement :: utf8_lossy r1
        | [] => [replacement]
        end
      else if in_range 240 244 b then
        match r1 with
        | c :: r2 =>
            if second_of_4 b c then
              match r2 with
              | d :: r3 =>
                  if is_cont d then
                    match r3 with
                    | e :: r4 =>
                        if is_cont e then
                          ((b - 240) * 262144 + (c - 128) * 4096 + (d - 128) * 64
                           + (e - 128)) :: utf8_lossy r4
                        else replacement :: utf8_lossy r3
                    | [] => [replacement]
                    end
                  else replacement :: utf8_lossy r2
              | [] => [replacement]
              end
            else replacement :: utf8_lossy r1
        | [] => [replacement]
        end
      else replacement :: utf8_lossy r1
  end.

(** [std::str::from_utf8]: the Unicode text these bytes are the encoding of. *)
Definition from_utf8 (bs : list Z) : option str :=
  let s := utf8_lossy bs in
  if forallb is_scalar s && bool_decide (utf8_encode s = bs) then Some s else None.

(** ** Slices and searches *)

(** [s.split_at_checked(n)]: [None] past the end or inside a character. *)
Fixpoint split_at_byte (n : Z) (s : str) : option (str * str) :=
  if n =? 0 then Some ([], s)
  else match s with
       | [] => None
       | c :: s' =>
           if n <? utf8_width c then None
           else let! (a, b) := split_at_byte (n - utf8_width c) s' in
                Some (c :: a, b)
       end.

(** [s.get(n..)]. *)
Definition get_from (n : Z) (s : str) : option str :=
  let! (_, b) := split_at_byte n s in Some b.

(** [s.get(a..b)]. *)
Definition get_range (a b : Z) (s : str) : option str :=
  if b <? a then None
  else let! rest := get_from a s in
       let! (x, _) := split_at_byte (b - a) rest in Some x.

Fixpoint strip_prefix (p s : str) : option str :=
  match p, s with
  | [], _ => Some s
  | c :: p', d :: s' => if c =? d then strip_prefix p' s' else None
  | _ :: _, [] => None
  end.


Definition starts_with (p s : str) : bool :=
  match strip_prefix p s with Some _ => true | None => false end.

Definition strip_suffix (p s : str) : option str :=
  let! r := strip_prefix (rev p) (rev s) in Some (rev r).

Definition ends_with (p s : str) : bool := starts_with (rev p) (rev s).

(** The first occurrence of [p]: what precedes it and what starts with it. *)
Fixpoint find_split (p s : str) : option (str * str) :=
  if starts_with p s then Some ([], s)
  else match s with
       | [] => None
       | c :: s' => let! (a, b) := find_split p s' in Some (c :: a, b)
       end.

(** The last occurrence of [p]. *)
Fixpoint rfind_split (p s : str) : option (str * str) :=
  match s with
  | [] => if starts_with p [] then Some ([], []) else None
  | c :: s' =>
      match rfind_split p s' with
      | Some (a, b) => Some (c :: a, b)
      | None => if starts_with p s then Some ([], s) else None
      end
  end.

(** [s.contains(p)]. *)
Definition str_contains (p s : str) : bool :=
  match find_split p s with Some _ => true | None => false end.

(** [s.split_once(c)] and [s.rsplit_once(c)] for a one-character pattern. *)
Fixpoint split_once (c : char) (s : str) : option (str * str) :=
  match s with
  | [] => None
  | d :: s' =>
      if d =? c then Some ([], s')
      else let! (a, b) := split_once c s' in Some (d :: a, b)
  end.

Fixpoint rsplit_once (c : char) (s : str) : option (str * str) :=
  match s with
  | [] => None
  | d :: s' =>
      match rsplit_once c s' with
      | Some (a, b) => Some (d :: a, b)
      | None => if d =? c then Some ([], s') else None
      end
  end.

(** [s.split(p)]: never empty, one piece more than separators. *)
Fixpoint split_on (p : char → bool) (s : str) : list str :=
  match s with
  | [] => [[]]
  | c :: s' =>
      if p c then [] :: split_on p s'
      else match split_on p s' with
           | w :: ws => (c :: w) :: ws
           | [] => [[c]]
           end
  end.

Fixpoint drop_while (p : char → bool) (s : str) : str :=
  match s with
  | [] => []
  | c :: s' => if p c then drop_while p s' else s
  end.

Definition trim_start_by (p : char → bool) (s : str) : str := drop_while p s.
Definition trim_end_by (p : char → bool) (s : str) : str :=
  rev (drop_while p (rev s)).
Definition trim_by (p : char → bool) (s : str) : str :=
  trim_end_by p (trim_start_by p s).
Definition trim (s : str) : str := trim_by is_whitespace s.

(** [s.split_whitespace()]. *)
Definition split_whitespace (s : str) : list str :=
  List.filter (λ w, negb (bool_decide (w = []))) (split_on is_whitespace s).

(** [s.replace(a, b)] for two characters. *)
Definition replace_char (a b : char) (s : str) : str :=
  map (λ c, if c =? a then b else c) s.

(** [slice.join(sep)]. *)
Fixpoint join (sep : str) (l : list str) : str :=
  match l with
  | [] => []
  | [w] => w
  | w :: l' => w ++ sep ++ join sep l'
  end.

Definition nl : char := 10.
Definition cr : char := 13.

(** One piece of [split_inclusive('\n')], its line ending removed. *)
Definition strip_cr (s : str) : str :=
  match strip_suffix [cr] s with Some r => r | None => s end.

(** [s.lines()]. A [\r] is dropped only before the [\n] that ends the line. *)
Fixpoint lines_acc (cur : str) (s : str) : list str :=
  match s with
  | [] => match cur with [] => [] | _ => [rev cur] end
  | c :: s' =>
      if c =? nl then strip_cr (rev cur) :: lines_acc [] s'
      else lines_acc (c :: cur) s'
  end.
Definition lines (s : str) : list str := lines_acc [] s.

(** Byte-wise order of [str], which UTF-8 makes the order of the scalars. *)
Fixpoint str_leb (a b : str) : bool :=
  match a, b with
  | [], _ => true
  | _ :: _, [] => false
  | x :: a', y :: b' => if x <? y then true else if y <? x then false else str_leb a' b'
  end.

Definition sort_strs : list str → list str := sort_by str_leb.

(** ** Numbers *)

(** Digits accumulated with [checked_mul] and [checked_add]. *)
Fixpoint parse_digits (max acc : Z) (s : str) : option Z :=
  match s with
  | [] => Some acc
  | c :: s' =>
      if is_ascii_digit c then
        let acc' := acc * 10 + (c - 48) in
        if acc' <=? max then parse_digits max acc' s' else None
      else None
  end.

(** [str::parse] at an unsigned type: one optional [+], then at least one
    digit. *)
Definition parse_unsigned (max : Z) (s : str) : option Z :=
  match s with
  | [] => None
  | c :: r =>
      if c =? 43 then match r with [] => None | _ => parse_digits max 0 r end
      else parse_digits max 0 s
  end.
Definition parse_u32 : str → option Z := parse_unsigned u32_max.
Definition parse_u64 : str → option Z := parse_unsigned u64_max.

(** [str::parse::<i64>]: an optional sign. *)
Definition parse_i64 (s : str) : option Z :=
  match s with
  | c :: r =>
      if c =? 45 then
        match r with
        | [] => None
        | _ => let! n := parse_digits (- i64_min) 0 r in Some (- n)
        end
      else parse_unsigned i64_max s
  | [] => None
  end.

(** Decimal formatting of a non-negative integer. *)
Fixpoint fmt_acc (fuel : nat) (n : Z) (acc : str) : str :=
  match fuel with
  | O => acc
  | S f =>
      let acc' := (48 + n mod 10) :: acc in
      if n / 10 =? 0 then acc' else fmt_acc f (n / 10) acc'
  end.
Definition fmt_u (n : Z) : str := fmt_acc (S (Z.to_nat (Z.log2 n))) n [].

(** [{n:0w$}] for a non-negative [n]. *)
Definition pad0 (w : nat) (s : str) : str :=
  replicate (w - length s) 48 ++ s.
