(* ===== verification/RustStrFacts.v ===== *)
(** * Facts about the string functions *)

From S2P Require Import Prelude RustStr.

#[local] Open Scope Z_scope.

(** ** Characters *)

Lemma in_range_spec lo hi c : in_range lo hi c = true ↔ lo ≤ c ≤ hi.
Proof. unfold in_range. rewrite andb_true_iff, !Z.leb_le. lia. Qed.

Lemma in_range_false lo hi c : in_range lo hi c = false ↔ c < lo ∨ hi < c.
Proof. unfold in_range. rewrite andb_false_iff, !Z.leb_gt. lia. Qed.

Ltac range_to_prop :=
  unfold is_ascii_digit, is_ascii_lower, is_ascii_upper, is_cont in *;
  repeat match goal with
  | H : in_range _ _ _ = true |- _ => apply in_range_spec in H
  | H : in_range _ _ _ = false |- _ => apply in_range_false in H
  end.

Lemma is_ascii_digit_spec c : is_ascii_digit c = true ↔ 48 ≤ c ≤ 57.
Proof. apply in_range_spec. Qed.

(** [forallb]-style side conditions. *)
Abbreviation all_chars := (@forallb Z).

Lemma all_chars_app p a b : all_chars p (a ++ b) = all_chars p a && all_chars p b.
Proof. apply forallb_app. Qed.

Lemma all_chars_rev p s : all_chars p (rev s) = all_chars p s.
Proof.
  induction s as [|c s IH]; simpl; [done|]. rewrite all_chars_app, IH. simpl.
  by rewrite andb_true_r, andb_comm.
Qed.

Lemma all_chars_impl (p q : char → bool) s :
  (∀ c, p c = true → q c = true) → all_chars p s = true → all_chars q s = true.
Proof. intros Hpq. rewrite !forallb_forall. auto. Qed.

(** ** Prefixes and suffixes *)

Lemma strip_prefix_app p s : strip_prefix p (p ++ s) = Some s.
Proof. induction p as [|c p IH]; simpl; [by destruct s|]. by rewrite Z.eqb_refl. Qed.

Lemma strip_prefix_Some p s r : strip_prefix p s = Some r ↔ s = p ++ r.
Proof.
  split; [|intros ->; apply strip_prefix_app].
  revert s. induction p as [|c p IH]; intros s; simpl; [by destruct s; intros; simplify_eq|].
  destruct s as [|d s]; [done|]. case_if; [|done]. bool_to_prop.
  intros H%IH. by subst.
Qed.

Lemma starts_with_spec p s : starts_with p s = true ↔ ∃ r, s = p ++ r.
Proof.
  unfold starts_with. destruct (strip_prefix p s) as [r|] eqn:E.
  - apply strip_prefix_Some in E. split; eauto.
  - split; [done|]. intros [r ->]. by rewrite strip_prefix_app in E.
Qed.

Lemma starts_with_app p s : starts_with p (p ++ s) = true.
Proof. apply starts_with_spec. eauto. Qed.

Lemma strip_prefix_None p s : strip_prefix p s = None ↔ starts_with p s = false.
Proof. unfold starts_with. by destruct (strip_prefix p s). Qed.

(** A literal prefix is refuted by the first differing character. *)
Lemma strip_prefix_head_ne c p d s : c ≠ d → strip_prefix (c :: p) (d :: s) = None.
Proof. intros H. simpl. apply Z.eqb_neq in H. by rewrite H. Qed.

Lemma strip_suffix_app p s : strip_suffix p (s ++ p) = Some s.
Proof. unfold strip_suffix. by rewrite rev_app_distr, strip_prefix_app, rev_involutive. Qed.

Lemma strip_suffix_Some p s r : strip_suffix p s = Some r ↔ s = r ++ p.
Proof.
  split; [|intros ->; apply strip_suffix_app].
  unfold strip_suffix. destruct (strip_prefix _ _) as [x|] eqn:E; [|done].
  intros [= <-]. apply strip_prefix_Some in E.
  by rewrite <- (rev_involutive s), E, rev_app_distr, rev_involutive.
Qed.

Lemma ends_with_spec p s : ends_with p s = true ↔ ∃ r, s = r ++ p.
Proof.
  unfold ends_with. rewrite starts_with_spec. split.
  - intros [r Hr]. exists (rev r).
    by rewrite <- (rev_involutive s), Hr, rev_app_distr, rev_involutive.
  - intros [r ->]. exists (rev r). by rewrite rev_app_distr.
Qed.

Lemma ends_with_snoc c s d : ends_with [c] (s ++ [d]) = Z.eqb c d.
Proof.
  unfold ends_with, starts_with. rewrite rev_app_distr. simpl.
  destruct (Z.eqb c d); [|done]. by destruct (rev s).
Qed.

(** ** Byte offsets *)

(** Writes every literal of the goal out as the list it is. *)
Ltac unlit :=
  repeat match goal with
  | |- context [lit ?s] => let l := eval vm_compute in (lit s) in change (lit s) with l
  | |- context [chr ?s] => let c := eval vm_compute in (chr s) in change (chr s) with c
  end.

(** Evaluates the byte length of every literal of the goal. *)
Ltac lit_len :=
  repeat match goal with
  | |- context [str_len (lit ?s)] =>
      let n := eval vm_compute in (str_len (lit s)) in change (str_len (lit s)) with n
  end.

Lemma utf8_width_pos c : 1 ≤ utf8_width c.
Proof. unfold utf8_width. repeat case_if; lia. Qed.

Lemma str_len_nonneg s : 0 ≤ str_len s.
Proof.
  induction s as [|c s IH]; cbn [str_len]; [done|].
  pose proof (utf8_width_pos c). lia.
Qed.

Lemma str_len_app a b : str_len (a ++ b) = str_len a + str_len b.
Proof. induction a as [|c a IH]; cbn [str_len app]; [done|]. lia. Qed.

Lemma split_at_byte_app a b : split_at_byte (str_len a) (a ++ b) = Some (a, b).
Proof.
  induction a as [|c a IH]; [by destruct b|].
  pose proof (utf8_width_pos c). pose proof (str_len_nonneg a).
  cbn [app str_len split_at_byte].
  destruct (Z.eqb_spec (utf8_width c + str_len a) 0); [lia|].
  destruct (Z.ltb_spec (utf8_width c + str_len a) (utf8_width c)); [lia|].
  by replace (utf8_width c + str_len a - utf8_width c) with (str_len a) by lia; rewrite IH.
Qed.

Lemma get_from_app n a b : n = str_len a → get_from n (a ++ b) = Some b.
Proof. intros ->. unfold get_from. by rewrite split_at_byte_app. Qed.

Lemma get_range_app n m a b c :
  n = str_len a → m = n + str_len b → get_range n m (a ++ b ++ c) = Some b.
Proof.
  intros Hn Hm. unfold get_range. pose proof (str_len_nonneg b).
  destruct (Z.ltb_spec m n); [lia|]. rewrite (get_from_app n a) by done.
  replace (m - n) with (str_len b) by lia. by rewrite split_at_byte_app.
Qed.

(** ** UTF-8 round trip *)

Lemma utf8_lossy_encode_char c bs :
  is_scalar c = true → utf8_lossy (utf8_encode_char c ++ bs) = c :: utf8_lossy bs.
Proof.
  unfold is_scalar. rewrite orb_true_iff, !in_range_spec. intros Hc.
  unfold utf8_encode_char.
  pose proof (Z.div_mod c 64 ltac:(lia)). pose proof (Z.mod_pos_bound c 64 ltac:(lia)).
  destruct (c <? 128) eqn:B1; bool_to_prop.
  { cbn [app utf8_lossy]. by rewrite (proj2 (Z.ltb_lt c 128) B1). }
  destruct (c <? 2048) eqn:B2; bool_to_prop.
  { cbn [app utf8_lossy].
    assert (2 ≤ c / 64 < 32) by lia.
    rewrite (proj2 (Z.ltb_ge _ _)) by lia.
    rewrite (proj2 (in_range_spec _ _ _)) by lia. unfold is_cont.
    rewrite (proj2 (in_range_spec _ _ _)) by lia. f_equal. lia. }
  pose proof (Z.div_mod (c / 64) 64 ltac:(lia)).
  pose proof (Z.mod_pos_bound (c / 64) 64 ltac:(lia)).
  assert (c / 4096 = c / 64 / 64) as E4 by (rewrite Z.div_div by lia; done).
  destruct (c <? 65536) eqn:B3; bool_to_prop.
  { cbn [app utf8_lossy]. rewrite E4.
    assert (0 ≤ c / 64 / 64 < 16) by lia.
    rewrite (proj2 (Z.ltb_ge _ _)) by lia.
    rewrite (proj2 (in_range_false 194 223 _)) by lia.
    rewrite (proj2 (in_range_spec 224 239 _)) by lia.
    assert (second_of_3 (224 + c / 64 / 64) (128 + c / 64 mod 64) = true) as ->.
    { unfold second_of_3. rewrite !orb_true_iff, !andb_true_iff, !in_range_spec, !Z.eqb_eq.
      lia. }
    unfold is_cont. rewrite (proj2 (in_range_spec _ _ _)) by lia. f_equal. lia. }
  pose proof (Z.div_mod (c / 4096) 64 ltac:(lia)).
  pose proof (Z.mod_pos_bound (c / 4096) 64 ltac:(lia)).
  assert (c / 262144 = c / 4096 / 64) as E5 by (rewrite Z.div_div by lia; done).
  cbn [app utf8_lossy]. rewrite E5.
  assert (0 ≤ c / 4096 / 64 < 5) by lia.
  rewrite (proj2 (Z.ltb_ge _ _)) by lia.
  rewrite (proj2 (in_range_false 194 223 _)) by lia.
  rewrite (proj2 (in_range_false 224 239 _)) by lia.
  rewrite (proj2 (in_range_spec 240 244 _)) by lia.
  assert (second_of_4 (240 + c / 4096 / 64) (128 + c / 4096 mod 64) = true) as ->.
  { unfold second_of_4. rewrite !orb_true_iff, !andb_true_iff, !in_range_spec, !Z.eqb_eq.
    lia. }
  unfold is_cont. rewrite !(proj2 (in_range_spec 128 191 _)) by lia. f_equal. lia.
Qed.

Lemma utf8_lossy_encode s :
  all_chars is_scalar s = true → utf8_lossy (utf8_encode s) = s.
Proof.
  induction s as [|c s IH]; simpl; [done|]. intros [Hc Hs]%andb_prop.
  unfold utf8_encode. simpl. rewrite utf8_lossy_encode_char by done. f_equal. by apply IH.
Qed.

Lemma utf8_encode_ascii s :
  all_chars (λ c, c <? 128) s = true → utf8_encode s = s.
Proof.
  induction s as [|c s IH]; simpl; [done|]. intros [Hc Hs]%andb_prop.
  unfold utf8_encode in *. simpl. unfold utf8_encode_char at 1. rewrite Hc. simpl.
  by rewrite IH.
Qed.

Lemma utf8_encode_app a b : utf8_encode (a ++ b) = utf8_encode a ++ utf8_encode b.
Proof. unfold utf8_encode. apply flat_map_app. Qed.

(** ** Searching and splitting *)

Lemma find_split_Some p s a b :
  find_split p s = Some (a, b) → s = a ++ b ∧ starts_with p b = true.
Proof.
  revert a. induction s as [|c s IH]; intros a; cbn [find_split].
  - case_if; [|done]. intros [= <- <-]. by split.
  - case_if; [intros [= <- <-]; by split|].
    destruct (find_split p s) as [[a' b']|] eqn:E; [|done].
    intros [= <- <-]. destruct (IH _ eq_refl) as [-> ?]. by split.
Qed.

Lemma find_split_first c p a b :
  all_chars (λ d, negb (d =? c)) a = true →
  find_split (c :: p) (a ++ (c :: p) ++ b) = Some (a, (c :: p) ++ b).
Proof.
  induction a as [|d a IH]; intros Ha.
  - cbn [app find_split]. replace (starts_with _ _) with true; [done|].
    symmetry. exact (starts_with_app (c :: p) b).
  - cbn in Ha. apply andb_prop in Ha as [Hd Ha]. bool_to_prop.
    cbn [app find_split]. unfold starts_with at 1.
    rewrite strip_prefix_head_ne by done. cbn iota.
    pose proof (IH Ha) as E. cbn [app] in E. by rewrite E.
Qed.

Lemma split_on_app_sep p w c s :
  all_chars (λ d, negb (p d)) w = true → p c = true →
  split_on p (w ++ c :: s) = w :: split_on p s.
Proof.
  intros Hw Hc. induction w as [|d w IH]; simpl; [by rewrite Hc|].
  cbn in Hw. apply andb_prop in Hw as [Hd Hw]. bool_to_prop. rewrite Hd, (IH Hw). done.
Qed.

Lemma split_on_none p w :
  all_chars (λ d, negb (p d)) w = true → split_on p w = [w].
Proof.
  induction w as [|d w IH]; simpl; [done|].
  intros [Hd Hw]%andb_prop. bool_to_prop. by rewrite Hd, (IH Hw).
Qed.

Lemma split_on_nonempty p s : split_on p s ≠ [].
Proof. destruct s as [|c s]; simpl; [done|]. case_if; [done|]. by destruct (split_on p s). Qed.

Lemma split_on_chars p s w c : w ∈ split_on p s → c ∈ w → c ∈ s.
Proof.
  revert w. induction s as [|d s IH]; intros w; cbn [split_on]; [intros ->%list_elem_of_singleton; by intros ?%not_elem_of_nil|].
  pose proof (split_on_nonempty p s) as Hne. destruct (p d).
  - intros [->|Hin]%elem_of_cons Hc; [by apply not_elem_of_nil in Hc|]. right. by eapply IH.
  - destruct (split_on p s) as [|v vs]; [done|]. intros [->|Hin]%elem_of_cons Hc.
    + apply elem_of_cons in Hc as [->|Hc]; [by left|]. right. eapply IH; [by left|done].
    + right. eapply IH; [by right|done].
Qed.

(** A [split] of a one-character separator and its [join] invert each other. *)
Lemma join_split_on c s :
  join [c] (split_on (Z.eqb c) s) = s ∧ Forall (λ w, ¬ c ∈ w) (split_on (Z.eqb c) s).
Proof.
  induction s as [|d s [Hj Hf]]; cbn [split_on].
  { split; [done|]. repeat constructor. apply not_elem_of_nil. }
  pose proof (split_on_nonempty (Z.eqb c) s) as Hne.
  destruct (split_on (Z.eqb c) s) as [|w ws]; [done|]. apply Forall_cons in Hf as [Hw Hf].
  destruct (Z.eqb_spec c d) as [->|Hd].
  - split; [by cbn [join app]; f_equal|]. constructor; [apply not_elem_of_nil|by constructor].
  - split; [rewrite <- Hj; by destruct ws|]. constructor; [|done].
    rewrite elem_of_cons. by intros [?|?].
Qed.

Lemma split_on_join c ws :
  ws ≠ [] → Forall (λ w, ¬ c ∈ w) ws → split_on (Z.eqb c) (join [c] ws) = ws.
Proof.
  intros Hne Hf. assert (Forall (λ w, all_chars (λ d, negb (c =? d)) w = true) ws) as Ha.
  { eapply Forall_impl; [exact Hf|]. intros w Hw. apply forallb_forall. intros d Hd.
    apply negb_true_iff, Z.eqb_neq. intros ->. by apply Hw, list_elem_of_In. }
  induction ws as [|w ws IH]; [done|]. apply Forall_cons in Hf as [_ Hf], Ha as [Hw Ha].
  destruct ws as [|v ws]; [by apply split_on_none|].
  cbn [join app] in *. rewrite split_on_app_sep; [|done|apply Z.eqb_refl]. f_equal. by apply IH.
Qed.

Lemma split_once_app c a b :
  all_chars (λ d, negb (d =? c)) a = true → split_once c (a ++ c :: b) = Some (a, b).
Proof.
  induction a as [|d a IH]; simpl; [by rewrite Z.eqb_refl|].
  intros [Hd Ha]%andb_prop. bool_to_prop. apply Z.eqb_neq in Hd. by rewrite Hd, IH.
Qed.

Lemma drop_while_none p s :
  match s with c :: _ => p c = false | [] => True end → drop_while p s = s.
Proof. destruct s as [|c s]; simpl; [done|]. by intros ->. Qed.

Lemma trim_end_by_none p s c : p c = false → trim_end_by p (s ++ [c]) = s ++ [c].
Proof.
  intros Hc. unfold trim_end_by. rewrite rev_app_distr. simpl. rewrite Hc. simpl.
  by rewrite rev_involutive.
Qed.

Lemma trim_end_by_all_not p s :
  all_chars (λ c, negb (p c)) s = true → trim_end_by p s = s.
Proof.
  destruct s as [|c s] using rev_ind; [done|].
  rewrite all_chars_app. intros [_ Hc]%andb_prop. cbn in Hc. bool_to_prop.
  by apply trim_end_by_none.
Qed.

(** ** Lines *)

Definition no_nl (s : str) : bool := all_chars (λ c, negb (c =? nl)) s.
Definition line_ok (s : str) : bool := no_nl s && negb (ends_with [cr] s).

Fixpoint unlines (ls : list str) : str :=
  match ls with [] => [] | l :: ls' => l ++ nl :: unlines ls' end.

Lemma strip_cr_id s : ends_with [cr] s = false → strip_cr s = s.
Proof.
  intros H. unfold strip_cr. destruct (strip_suffix [cr] s) as [r|] eqn:E; [|done].
  apply strip_suffix_Some in E. subst. by rewrite ends_with_snoc, Z.eqb_refl in H.
Qed.

Lemma lines_acc_app cur l rest :
  no_nl l = true →
  lines_acc cur (l ++ nl :: rest) = strip_cr (rev cur ++ l) :: lines_acc [] rest.
Proof.
  revert cur. induction l as [|c l IH]; intros cur; simpl.
  - by rewrite app_nil_r.
  - intros [Hc Hl]%andb_prop. bool_to_prop. apply Z.eqb_neq in Hc. rewrite Hc.
    rewrite IH by done. simpl. by rewrite <- app_assoc.
Qed.

Lemma lines_unlines ls : Forall (λ l, line_ok l = true) ls → lines (unlines ls) = ls.
Proof.
  unfold lines. induction 1 as [|l ls Hl _ IH]; simpl; [done|].
  apply andb_prop in Hl as [Hn Hc]. bool_to_prop.
  rewrite lines_acc_app by done. simpl. rewrite strip_cr_id by done. by rewrite IH.
Qed.

(** A carriage return before the end of a line is lost with it. *)
Lemma lines_unlines_cr ls : Forall (λ l, no_nl l = true) ls → lines (unlines ls) = map strip_cr ls.
Proof.
  unfold lines. induction 1 as [|l ls Hl _ IH]; [done|]. cbn [unlines map].
  by rewrite lines_acc_app, IH.
Qed.

Lemma strip_cr_line l : line_ok l = true → strip_cr l = l.
Proof. intros [_ Hl%negb_true_iff]%andb_prop. by apply strip_cr_id. Qed.

Lemma strip_cr_ok ls : Forall (λ l, line_ok l = true) ls → map strip_cr ls = ls.
Proof. induction 1 as [|l ls Hl _ IH]; [done|]. cbn [map]. by rewrite IH, strip_cr_line. Qed.

Lemma strip_cr_cons c l : c ≠ cr → ∃ l', strip_cr (c :: l) = c :: l'.
Proof.
  intros Hc. unfold strip_cr. destruct (strip_suffix [cr] (c :: l)) as [r|] eqn:E; [|by eexists].
  apply strip_suffix_Some in E. destruct r as [|d r]; [|injection E as -> _; by eexists].
  injection E as -> _. done.
Qed.

(** ** Order *)

Lemma str_leb_total a b : str_leb a b = true ∨ str_leb b a = true.
Proof.
  revert b. induction a as [|x a IH]; intros [|y b]; simpl; auto.
  destruct (Z.ltb_spec x y), (Z.ltb_spec y x); auto; lia.
Qed.

Lemma str_leb_trans a b c : str_leb a b = true → str_leb b c = true → str_leb a c = true.
Proof.
  revert b c. induction a as [|x a IH]; intros [|y b] [|z c]; cbn [str_leb]; try done.
  destruct (Z.ltb_spec x y), (Z.ltb_spec y x), (Z.ltb_spec y z), (Z.ltb_spec z y),
    (Z.ltb_spec x z), (Z.ltb_spec z x); try done; try lia; intros; try (by eapply IH).
Qed.

Lemma sort_strs_sorted l : Sorted (λ a b, str_leb a b = true) (sort_strs l).
Proof. apply sort_by_sorted, str_leb_total. Qed.

(** ** Numbers *)

Definition digits_value (acc : Z) (s : str) : Z :=
  fold_left (λ a c, a * 10 + (c - 48)) s acc.

Lemma digits_value_mono s acc :
  all_chars is_ascii_digit s = true → 0 ≤ acc → acc ≤ digits_value acc s.
Proof.
  revert acc. induction s as [|c s IH]; intros acc; simpl; [lia|].
  intros [Hc Hs]%andb_prop Hacc. range_to_prop.
  unfold digits_value in *. simpl. etrans; [|apply IH; [done|lia]]. lia.
Qed.

Lemma parse_digits_value max s acc :
  all_chars is_ascii_digit s = true → 0 ≤ acc → digits_value acc s ≤ max →
  parse_digits max acc s = Some (digits_value acc s).
Proof.
  revert acc. induction s as [|c s IH]; intros acc; cbn [parse_digits]; [done|].
  intros [Hc Hs]%andb_prop Hacc Hm. rewrite Hc.
  apply is_ascii_digit_spec in Hc.
  pose proof (digits_value_mono s (acc * 10 + (c - 48)) Hs ltac:(lia)).
  change (digits_value acc (c :: s)) with (digits_value (acc * 10 + (c - 48)) s) in *.
  destruct (Z.leb_spec (acc * 10 + (c - 48)) max); [|lia]. apply IH; [done|lia|done].
Qed.

Lemma fmt_acc_digits fuel n acc :
  0 ≤ n → all_chars is_ascii_digit acc = true →
  all_chars is_ascii_digit (fmt_acc fuel n acc) = true.
Proof.
  revert n acc. induction fuel as [|f IH]; intros n acc Hn Ha; cbn [fmt_acc]; [done|].
  pose proof (Z.mod_pos_bound n 10 ltac:(lia)).
  assert (all_chars is_ascii_digit ((48 + n mod 10) :: acc) = true).
  { cbn. rewrite Ha, andb_true_r. apply is_ascii_digit_spec. lia. }
  case_if; [done|]. apply IH; [|done]. apply Z.div_pos; lia.
Qed.

Lemma fmt_acc_value fuel n acc :
  0 ≤ n < 2 ^ Z.of_nat fuel →
  digits_value 0 (fmt_acc fuel n acc) = digits_value n acc.
Proof.
  revert n acc. induction fuel as [|f IH]; intros n acc Hn; cbn [fmt_acc].
  - replace n with 0; [done|]. simpl in Hn. lia.
  - pose proof (Z.div_mod n 10 ltac:(lia)).
    pose proof (Z.mod_pos_bound n 10 ltac:(lia)).
    case_if; bool_to_prop.
    + unfold digits_value. simpl. f_equal. lia.
    + rewrite IH.
      * unfold digits_value. simpl. f_equal. lia.
      * rewrite Nat2Z.inj_succ, Z.pow_succ_r in Hn by lia. lia.
Qed.

Lemma fmt_u_fuel n : 0 ≤ n → n < 2 ^ Z.of_nat (S (Z.to_nat (Z.log2 n))).
Proof.
  intros Hn. rewrite Nat2Z.inj_succ, Z2Nat.id by apply Z.log2_nonneg.
  destruct (Z.eq_dec n 0) as [->|]; [done|]. apply Z.log2_spec. lia.
Qed.

Lemma fmt_u_digits n : 0 ≤ n → all_chars is_ascii_digit (fmt_u n) = true.
Proof. intros. by apply fmt_acc_digits. Qed.

Lemma fmt_u_value n : 0 ≤ n → digits_value 0 (fmt_u n) = n.
Proof. intros Hn. unfold fmt_u. rewrite fmt_acc_value; [done|]. split; [done|by apply fmt_u_fuel]. Qed.

Lemma fmt_acc_length fuel n acc : (length acc ≤ length (fmt_acc fuel n acc))%nat.
Proof.
  revert n acc. induction fuel as [|f IH]; intros n acc; cbn [fmt_acc]; [done|].
  case_if; simpl; [lia|]. etrans; [|apply IH]. simpl. lia.
Qed.

Lemma fmt_u_nonempty n : fmt_u n ≠ [].
Proof.
  unfold fmt_u. cbn [fmt_acc]. case_if; [done|].
  intros H. apply (f_equal length) in H. simpl in H.
  pose proof (fmt_acc_length (Z.to_nat (Z.log2 n)) (n / 10) [48 + n mod 10]).
  simpl in *. lia.
Qed.

Lemma parse_unsigned_fmt max n : 0 ≤ n ≤ max → parse_unsigned max (fmt_u n) = Some n.
Proof.
  intros Hn. pose proof (fmt_u_digits n ltac:(lia)) as Hd.
  pose proof (fmt_u_value n ltac:(lia)) as Hv. pose proof (fmt_u_nonempty n).
  destruct (fmt_u n) as [|c s] eqn:E; [done|]. unfold parse_unsigned.
  destruct (Z.eqb_spec c 43) as [->|]; [by cbn in Hd|].
  rewrite parse_digits_value; [by rewrite Hv|done|lia|lia].
Qed.

Lemma parse_u32_fmt n : 0 ≤ n ≤ u32_max → parse_u32 (fmt_u n) = Some n.
Proof. apply parse_unsigned_fmt. Qed.

(** ** ASCII text *)

Lemma str_len_ascii s : all_chars (λ c, c <? 128) s = true → str_len s = Z.of_nat (length s).
Proof.
  induction s as [|c s IH]; [done|]. cbn [forallb]. intros [Hc Hs]%andb_true_iff.
  cbn [str_len length]. unfold utf8_width. rewrite Hc, IH by done. lia.
Qed.

Lemma trim_outer a s d :
  all_chars is_whitespace a = true → is_whitespace d = false →
  match s with [] => true | c :: _ => negb (is_whitespace c) end = true →
  trim (a ++ s ++ [d]) = s ++ [d].
Proof.
  intros Ha Hd Hs. unfold trim, trim_by, trim_start_by.
  assert (drop_while is_whitespace (a ++ s ++ [d]) = s ++ [d]) as ->.
  { induction a as [|c a IH].
    - destruct s as [|c s]; cbn; [by rewrite Hd|]. apply negb_true_iff in Hs. by rewrite Hs.
    - cbn [forallb app drop_while] in *. apply andb_true_iff in Ha as [-> Ha]. by apply IH. }
  by apply trim_end_by_none.
Qed.

(** ** Fixed-width decimal fields *)

Lemma fmt_acc_width fuel n acc w :
  (1 ≤ w)%nat → 0 ≤ n < 10 ^ Z.of_nat w →
  (length (fmt_acc fuel n acc) ≤ w + length acc)%nat.
Proof.
  revert n acc w. induction fuel as [|f IH]; intros n acc w Hw Hn; cbn [fmt_acc]; [lia|].
  destruct w as [|[|w]]; [lia| |].
  - change (10 ^ Z.of_nat 1) with 10 in Hn. rewrite Z.div_small, Z.eqb_refl by lia. cbn. lia.
  - case_if; [cbn; lia|]. rewrite Nat2Z.inj_succ, Z.pow_succ_r in Hn by lia.
    etrans; [apply (IH _ _ (S w)); [lia|]|cbn; lia].
    split; [apply Z.div_pos; lia|]. apply Z.div_lt_upper_bound; lia.
Qed.

Lemma pad0_length w n :
  (1 ≤ w)%nat → 0 ≤ n < 10 ^ Z.of_nat w → length (pad0 w (fmt_u n)) = w.
Proof.
  intros Hw Hn. unfold pad0. rewrite length_app, length_replicate.
  assert (length (fmt_u n) ≤ w)%nat; [|lia].
  pose proof (fmt_acc_width (S (Z.to_nat (Z.log2 n))) n [] w Hw Hn) as H.
  rewrite Nat.add_0_r in H. exact H.
Qed.

Lemma pad0_digits w n : 0 ≤ n → all_chars is_ascii_digit (pad0 w (fmt_u n)) = true.
Proof.
  intros Hn. unfold pad0. rewrite all_chars_app, fmt_u_digits by done.
  induction (w - length (fmt_u n))%nat as [|k IH]; [done|exact IH].
Qed.

Lemma digits_value_zeros k s : digits_value 0 (replicate k 48 ++ s) = digits_value 0 s.
Proof. induction k as [|k IH]; [done|exact IH]. Qed.

(** A non-empty run of digits reads as its value at either signedness. *)
Lemma parse_i64_digits s :
  s ≠ [] → all_chars is_ascii_digit s = true → digits_value 0 s ≤ i64_max →
  parse_i64 s = Some (digits_value 0 s).
Proof.
  intros Hne Hd Hm. destruct s as [|c s]; [done|]. pose proof Hd as Hc. cbn [forallb] in Hc.
  apply andb_true_iff in Hc as [Hc _]. apply is_ascii_digit_spec in Hc.
  unfold parse_i64, parse_unsigned.
  rewrite (proj2 (Z.eqb_neq c 45)), (proj2 (Z.eqb_neq c 43)) by lia.
  by apply parse_digits_value.
Qed.

Lemma parse_i64_pad0 w n : 0 ≤ n ≤ i64_max → parse_i64 (pad0 w (fmt_u n)) = Some n.
Proof.
  intros Hn. pose proof (fmt_u_nonempty n) as Hne. pose proof (fmt_u_value n ltac:(lia)) as Hv.
  assert (digits_value 0 (pad0 w (fmt_u n)) = n) as Hp
    by (unfold pad0; by rewrite digits_value_zeros).
  rewrite parse_i64_digits; [by rewrite Hp| |by apply pad0_digits; lia|lia].
  unfold pad0. intros [_ ?]%app_eq_nil. done.
Qed.

Lemma digits_ascii s :
  all_chars is_ascii_digit s = true → all_chars (λ c, c <? 128) s = true.
Proof.
  apply all_chars_impl. intros c Hc%is_ascii_digit_spec. apply Z.ltb_lt. lia.
Qed.

Lemma from_utf8_Some bs s :
  from_utf8 bs = Some s ↔ utf8_encode s = bs ∧ all_chars is_scalar s = true.
Proof.
  unfold from_utf8. split.
  - destruct (_ && _) eqn:E; [|done]. apply andb_true_iff in E as [E1 E2%bool_decide_eq_true].
    by intros [= <-].
  - intros [<- Hs]. rewrite utf8_lossy_encode by done. rewrite Hs. by rewrite bool_decide_eq_true_2.
Qed.

Lemma utf8_encode_length s : Z.of_nat (length (utf8_encode s)) = str_len s.
Proof.
  induction s as [|c s IH]; [done|]. cbn [str_len]. unfold utf8_encode in *. cbn [flat_map].
  rewrite length_app, Nat2Z.inj_add, IH. f_equal. unfold utf8_encode_char, utf8_width.
  by repeat case_if.
Qed.

(** [{n}] of an [i64]. *)
Definition fmt_i (n : Z) : str := if n <? 0 then chr "-" :: fmt_u (- n) else fmt_u n.

Lemma parse_i64_fmt n : i64_min ≤ n ≤ i64_max → parse_i64 (fmt_i n) = Some n.
Proof.
  unfold i64_min, i64_max. intros Hn. unfold fmt_i. destruct (Z.ltb_spec n 0).
  - pose proof (fmt_u_digits (- n) ltac:(lia)) as Hd.
    unfold parse_i64. rewrite Z.eqb_refl. pose proof (fmt_u_nonempty (- n)).
    destruct (fmt_u (- n)) as [|c s] eqn:E; [done|]. rewrite <- E in *.
    rewrite parse_digits_value; [|done|lia|rewrite fmt_u_value by lia; unfold i64_min; lia].
    rewrite fmt_u_value by lia. f_equal. lia.
  - pose proof (fmt_u_digits n ltac:(lia)) as Hd.
    rewrite parse_i64_digits; [by rewrite fmt_u_value|apply fmt_u_nonempty|done|].
    rewrite fmt_u_value by done. unfold i64_max. lia.
Qed.

(** ** Fields *)

Definition no_space (s : str) : bool := all_chars (λ c, negb (is_whitespace c)) s.

Lemma not_whitespace_ne (w : char) s :
  is_whitespace w = true → no_space s = true → all_chars (λ d, negb (d =? w)) s = true.
Proof.
  intros Hw. apply all_chars_impl. intros d Hd. apply negb_true_iff, Z.eqb_neq. intros ->.
  by rewrite Hw in Hd.
Qed.

Lemma digits_no_space s : all_chars is_ascii_digit s = true → no_space s = true.
Proof.
  apply all_chars_impl. intros c Hc%is_ascii_digit_spec. unfold is_whitespace.
  apply negb_true_iff. repeat (apply orb_false_iff; split); try (apply Z.eqb_neq; lia);
    apply in_range_false; lia.
Qed.

Lemma split_once_none c s : all_chars (λ d, negb (d =? c)) s = true → split_once c s = None.
Proof.
  induction s as [|d s IH]; [done|]. cbn. intros [Hd Hs]%andb_prop. apply negb_true_iff in Hd.
  by rewrite Hd, IH.
Qed.

Lemma digits_not c s : ¬ 48 ≤ c ≤ 57 → all_chars is_ascii_digit s = true → all_chars (λ d, negb (d =? c)) s = true.
Proof.
  intros Hc. apply all_chars_impl. intros d Hd%is_ascii_digit_spec. apply negb_true_iff, Z.eqb_neq. lia.
Qed.

Lemma fields_cons w s :
  w ≠ [] → no_space w = true → split_whitespace (w ++ 32 :: s) = w :: split_whitespace s.
Proof.
  intros Hne Hw. unfold split_whitespace. rewrite split_on_app_sep by done. cbn [List.filter].
  by rewrite bool_decide_eq_false_2.
Qed.

Lemma fields_last w : w ≠ [] → no_space w = true → split_whitespace w = [w].
Proof.
  intros Hne Hw. unfold split_whitespace. rewrite split_on_none by done. cbn [List.filter].
  by rewrite bool_decide_eq_false_2.
Qed.

Lemma trim_by_none p s : all_chars (λ c, negb (p c)) s = true → trim_by p s = s.
Proof.
  intros Hs. unfold trim_by, trim_start_by. rewrite drop_while_none; [by apply trim_end_by_all_not|].
  destruct s as [|c s]; [done|]. cbn in Hs. apply andb_prop in Hs as [Hc _]. by apply negb_true_iff.
Qed.

Lemma trim_by_around p c s d :
  p c = true → p d = true → all_chars (λ c, negb (p c)) s = true → trim_by p (c :: s ++ [d]) = s.
Proof.
  intros Hc Hd Hs. unfold trim_by, trim_start_by. cbn [drop_while]. rewrite Hc. destruct s as [|x s].
  - cbn. by rewrite Hd.
  - rewrite drop_while_none by (cbn in Hs; apply andb_prop in Hs as [Hx _]; by apply negb_true_iff).
    unfold trim_end_by. rewrite rev_app_distr. cbn [rev app drop_while]. rewrite Hd.
    change (rev s ++ [x]) with (rev (x :: s)). fold (trim_end_by p (x :: s)). by apply trim_end_by_all_not.
Qed.

(** ** ASCII bytes of an encoding *)

Lemma utf8_char_free b c :
  0 ≤ b < 128 → c ≠ b → is_scalar c = true → all_chars (λ d, negb (d =? b)) (utf8_encode_char c) = true.
Proof.
  unfold is_scalar. rewrite orb_true_iff, !in_range_spec. intros Hb Hc Hs.
  pose proof (Z.div_pos c 64). pose proof (Z.mod_pos_bound c 64).
  pose proof (Z.mod_pos_bound (c / 64) 64). pose proof (Z.mod_pos_bound (c / 4096) 64).
  pose proof (Z.div_pos c 4096). pose proof (Z.div_pos c 262144).
  apply forallb_forall. intros d Hd. apply negb_true_iff, Z.eqb_neq. unfold utf8_encode_char in Hd.
  repeat case_match; cbn in Hd; lia.
Qed.

(** An ASCII byte of an encoding is that character. *)
Lemma utf8_free b s :
  0 ≤ b < 128 → all_chars (λ d, negb (d =? b)) s = true → all_chars is_scalar s = true →
  all_chars (λ d, negb (d =? b)) (utf8_encode s) = true.
Proof.
  intros Hb. induction s as [|c s IH]; [done|]. cbn [forallb].
  intros [Hc Hs]%andb_prop [Hsc Hss]%andb_prop. unfold utf8_encode in *. cbn [flat_map].
  rewrite all_chars_app, IH by done. rewrite andb_true_r. apply utf8_char_free; [done| |done].
  by apply negb_true_iff, Z.eqb_neq in Hc.
Qed.
