(* ===== verification/Order.v ===== *)
(** * Orders for [sort_by]

    Rust writes a sort order as a chain [a.x.cmp(&b.x).then(..)]. The same chain is built
    here from its links, and the class [LebOrder] carries the laws of the links to the
    chain: totality, transitivity, and what two elements that tie have in common. *)

From S2P Require Import Prelude RustStr RustStrFacts.

#[local] Open Scope Z_scope.

Module Order.

Section Links.
Context {A : Type}.

(** [a.f.cmp(&b.f).then(rest)]. *)
Definition asc (f : A → Z) (rest : A → A → bool) (a b : A) : bool :=
  if f a <? f b then true else if f b <? f a then false else rest a b.

(** [b.f.cmp(&a.f).then(rest)]. *)
Definition desc (f : A → Z) (rest : A → A → bool) (a b : A) : bool :=
  if f b <? f a then true else if f a <? f b then false else rest a b.

(** The same on a text field, and the end of a chain at one. *)
Definition asc_str (f : A → str) (rest : A → A → bool) (a b : A) : bool :=
  if bool_decide (f a = f b) then rest a b else str_leb (f a) (f b).

Definition by_str (f : A → str) (a b : A) : bool := str_leb (f a) (f b).

Definition by_int (f : A → Z) (a b : A) : bool := f a <=? f b.

(** The laws, and the relation of two elements neither of which is before the other. *)
Class LebOrder (leb : A → A → bool) (tie : A → A → Prop) : Prop := {
  leb_total : ∀ a b, leb a b = true ∨ leb b a = true;
  leb_trans : ∀ a b c, leb a b = true → leb b c = true → leb a c = true;
  leb_tie : ∀ a b, leb a b = true → leb b a = true → tie a b;
}.

Lemma str_leb_refl a : str_leb a a = true.
Proof. destruct (str_leb_total a a); done. Qed.

Lemma str_leb_antisym a b : str_leb a b = true → str_leb b a = true → a = b.
Proof.
  revert b. induction a as [|x a IH]; intros [|y b]; cbn [str_leb]; try done.
  destruct (Z.ltb_spec x y), (Z.ltb_spec y x); try done; try lia. intros H1 H2.
  assert (x = y) by lia. subst. f_equal. by apply IH.
Qed.

#[export] Instance by_str_order f : LebOrder (by_str f) (λ a b, f a = f b).
Proof.
  split; unfold by_str; intros *; [apply str_leb_total|apply str_leb_trans|apply str_leb_antisym].
Qed.

#[export] Instance by_int_order f : LebOrder (by_int f) (λ a b, f a = f b).
Proof. split; unfold by_int; intros; rewrite ?Z.leb_le in *; lia. Qed.

#[export] Instance asc_order f rest tie :
  LebOrder rest tie → LebOrder (asc f rest) (λ a b, f a = f b ∧ tie a b).
Proof.
  intros [Ht Htr Ha]. split; unfold asc.
  - intros a b. destruct (Z.ltb_spec (f a) (f b)), (Z.ltb_spec (f b) (f a)); auto.
  - intros a b c.
    destruct (Z.ltb_spec (f a) (f b)), (Z.ltb_spec (f b) (f a)), (Z.ltb_spec (f b) (f c)),
      (Z.ltb_spec (f c) (f b)), (Z.ltb_spec (f a) (f c)), (Z.ltb_spec (f c) (f a));
      try done; try lia; apply Htr.
  - intros a b. destruct (Z.ltb_spec (f a) (f b)), (Z.ltb_spec (f b) (f a)); try done; try lia.
    intros H1 H2. split; [lia|by apply Ha].
Qed.

#[export] Instance desc_order f rest tie :
  LebOrder rest tie → LebOrder (desc f rest) (λ a b, f a = f b ∧ tie a b).
Proof.
  intros Hr. destruct (asc_order (λ a, - f a) rest tie Hr) as [Ht Htr Ha].
  assert (Hd : ∀ a b, desc f rest a b = asc (λ a, - f a) rest a b).
  { intros a b. unfold desc, asc.
    destruct (Z.ltb_spec (f b) (f a)), (Z.ltb_spec (f a) (f b)), (Z.ltb_spec (- f a) (- f b)),
      (Z.ltb_spec (- f b) (- f a)); try done; lia. }
  split; intros *; rewrite !Hd; [apply Ht|apply Htr|].
  intros H1 H2. destruct (Ha a b H1 H2). split; [lia|done].
Qed.

#[export] Instance asc_str_order f rest tie :
  LebOrder rest tie → LebOrder (asc_str f rest) (λ a b, f a = f b ∧ tie a b).
Proof.
  intros [Ht Htr Ha]. split; unfold asc_str.
  - intros a b. destruct (decide (f a = f b)) as [e|ne].
    + rewrite !bool_decide_eq_true_2 by done. apply Ht.
    + rewrite !bool_decide_eq_false_2 by congruence. apply str_leb_total.
  - intros a b c. repeat case_bool_decide; intros Hab Hba; try congruence.
    + by eapply Htr.
    + exfalso. apply H. apply str_leb_antisym; congruence.
    + by eapply str_leb_trans.
  - intros a b. repeat case_bool_decide; intros Hab Hba; try congruence.
    + split; [done|by apply Ha].
    + destruct H. by apply str_leb_antisym.
Qed.

(** ** Sorting by an order *)

Context (leb : A → A → bool) (tie : A → A → Prop) `{HO : LebOrder leb tie}.

Lemma sort_by_strongly l : StronglySorted (λ a b, leb a b = true) (sort_by leb l).
Proof.
  apply Sorted_StronglySorted; [intros a b c; apply leb_trans|]. apply sort_by_sorted, leb_total.
Qed.

(** Two listings of the same elements sort alike, when no two of them tie. *)
Lemma sort_by_unique l k :
  (∀ a b, a ∈ l → b ∈ l → tie a b → a = b) → l ≡ₚ k → sort_by leb l = sort_by leb k.
Proof.
  intros Hu Hp.
  apply (StronglySorted_unique_strong (λ a b, leb a b = true)); [| | |by rewrite !sort_by_perm].
  - intros a b Ha Hb H1 H2. rewrite elem_of_sort_by in Ha. rewrite elem_of_sort_by, <- Hp in Hb.
    apply Hu; [done..|]. by apply leb_tie.
  - apply sort_by_strongly.
  - apply sort_by_strongly.
Qed.
End Links.
End Order.
