(* ===== verification/Glob.v ===== *)
(** * The fnmatch matcher: [rust/dc-glob/src/lib.rs]

    [compile] turns a pattern into tokens once, [match_tokens] walks them against
    a name with one saved backtrack point and a step budget. The specification is
    the inductive [fnmatch] on the pattern text. *)

From S2P Require Import Prelude RustStr.

#[local] Open Scope Z_scope.

Module Glob.

(** ** Data *)

Definition MAX_UNITS : Z := 16384.

Record Name := { name_text : str }.

Record CharClass := {
  negated : bool;
  singles : list char;
  ranges : list (char * char);
}.

Inductive Token : Type :=
  | Star
  | Any
  | Class (c : CharClass)
  | Literal (c : char).

Record Pattern := {
  tokens : list Token;
  units : nat;
}.

(** ** Reading a name *)

Definition Name_new (name : str) : option Name :=
  if str_len name >? MAX_UNITS * 4 then None
  else if Z.of_nat (length name) >? MAX_UNITS then None
  else Some {| name_text := name |}.

(** ** Character classes *)

Definition contains (cls : CharClass) (c : char) : bool :=
  let hit := existsb (Z.eqb c) (singles cls)
             || existsb (λ '(lo, hi), (lo <=? c) && (c <=? hi)) (ranges cls) in
  xorb hit (negated cls).

(** [while i < pat.len() && p(pat[i]) { i += 1 }]. *)
Fixpoint run_length (p : char → bool) (l : str) : nat :=
  match l with
  | c :: l' => if p c then S (run_length p l') else O
  | [] => O
  end.
Definition scan (p : char → bool) (pat : str) (i : nat) : nat :=
  (i + run_length p (drop i pat))%nat.

(** [pat[a..b]]. *)
Definition slice (a b : nat) (pat : str) : str := take (b - a) (drop a pat).

(** [(k..stuff.len()).find(|&idx| stuff[idx] == c)]. *)
Definition find_from (c : char) (k : nat) (stuff : str) : option nat :=
  let idx := scan (λ d, negb (d =? c)) stuff k in
  if (idx <? length stuff)%nat then Some idx else None.

(** The first loop of [dashed_class]: cut at each [-] that can be a range. *)
Fixpoint dash_chunks (fuel : nat) (stuff : str) (start k : nat)
    (chunks : list str) : list str * nat :=
  match fuel with
  | O => (chunks, start)
  | S f =>
      match find_from (chr "-") k stuff with
      | None => (chunks, start)
      | Some idx =>
          dash_chunks f stuff (idx + 1) (idx + 3) (chunks ++ [slice start idx stuff])
      end
  end.

(** What follows the first loop: the rest of the set, or the trailing [-]. *)
Definition close_chunks (stuff : str) (chunks : list str) (start : nat) : list str :=
  if (start <? length stuff)%nat then chunks ++ [drop start stuff]
  else match last chunks with
       | Some w => take (length chunks - 1) chunks ++ [w ++ [chr "-"]]
       | None => chunks
       end.

(** The second loop: a backwards range takes both its endpoints with it. *)
Fixpoint merge_chunks (k : nat) (chunks : list str) : list str :=
  match k with
  | O => chunks
  | S j =>
      match j with
      | O => chunks
      | S i =>
          (* one turn, with the source's [k] now [j = S i] *)
          let chunks' :=
            match chunks !! i, chunks !! j with
            | Some lo, Some hi =>
                match last lo, head hi with
                | Some e, Some f =>
                    if e >? f then
                      delete j (<[i := take (length lo - 1) lo ++ drop 1 hi]> chunks)
                    else chunks
                | _, _ => chunks
                end
            | _, _ => chunks
            end in
          merge_chunks j chunks'
      end
  end.

(** The chunks joined by range operators. *)
Fixpoint chunk_tokens (first : bool) (chunks : list str) : list (char * bool) :=
  match chunks with
  | [] => []
  | w :: ws =>
      (if first then [] else [(chr "-", true)])
      ++ map (λ c, (c, false)) w ++ chunk_tokens false ws
  end.

(** The last loop: an operator between two members is a range. *)
Fixpoint class_of_tokens (ts : list (char * bool)) : list char * list (char * char) :=
  match ts with
  | (a, _) :: (((_, true) :: (c, _) :: rest)) =>
      let '(ss, rs) := class_of_tokens rest in (ss, (a, c) :: rs)
  | (a, _) :: rest =>
      let '(ss, rs) := class_of_tokens rest in (a :: ss, rs)
  | [] => ([], [])
  end.

Definition dashed_class (neg : bool) (body : str) : CharClass :=
  let stuff := (if neg then [chr "!"] else []) ++ body in
  let k := if neg then 2%nat else 1%nat in
  let '(chunks, start) := dash_chunks (length stuff) stuff 0 k [] in
  let chunks := close_chunks stuff chunks start in
  let chunks := merge_chunks (length chunks) chunks in
  let ts := chunk_tokens true chunks in
  match ts with
  | (b, false) :: rest =>
      if b =? chr "!" then
        let '(ss, rs) := class_of_tokens rest in
        {| negated := true; singles := ss; ranges := rs |}
      else
        let '(ss, rs) := class_of_tokens ts in
        {| negated := false; singles := ss; ranges := rs |}
  | _ =>
      let '(ss, rs) := class_of_tokens ts in
      {| negated := false; singles := ss; ranges := rs |}
  end.

Definition is_at (pat : str) (i : nat) (c : char) : bool :=
  bool_decide (pat !! i = Some c).

Definition parse_class (pat : str) (open : nat) : option (CharClass * nat) :=
  let i := (open + 1)%nat in
  let neg := is_at pat i (chr "!") in
  let i := if neg then (i + 1)%nat else i in
  let body_start := i in
  let i := if is_at pat i (chr "]") then (i + 1)%nat else i in
  let i := scan (λ c, negb (c =? chr "]")) pat i in
  if (length pat <=? i)%nat then None
  else
    let body := slice body_start i pat in
    if bool_decide (body = []) then None
    else if existsb (Z.eqb (chr "-")) body then Some (dashed_class neg body, i)
    else Some ({| negated := neg; singles := body; ranges := [] |}, i).

(** ** Compiling a pattern *)

(** The loop of [Pattern::compile]; every turn consumes at least one unit, so
    the pattern's length is enough fuel. *)
Fixpoint compile_loop (fuel : nat) (pat : str) (pi : nat) (out : list Token)
    : list Token :=
  match fuel with
  | O => out
  | S f =>
      match pat !! pi with
      | None => out
      | Some c =>
          if c =? chr "*" then
            compile_loop f pat (scan (Z.eqb (chr "*")) pat pi) (out ++ [Star])
          else if c =? chr "?" then compile_loop f pat (pi + 1) (out ++ [Any])
          else if c =? chr "[" then
            match parse_class pat pi with
            | Some (cls, close) => compile_loop f pat (close + 1) (out ++ [Class cls])
            | None => compile_loop f pat (pi + 1) (out ++ [Literal (chr "[")])
            end
          else compile_loop f pat (pi + 1) (out ++ [Literal c])
      end
  end.

Definition compile (pattern : str) : option Pattern :=
  if str_len pattern >? MAX_UNITS * 4 then None
  else if Z.of_nat (length pattern) >? MAX_UNITS then None
  else Some {| tokens := compile_loop (length pattern) pattern 0 [];
               units := length pattern |}.

(** ** Matching *)

Record Walk := {
  w_pi : nat;
  w_ti : nat;
  w_star : option (nat * nat);
}.

(** Whether a one-character token consumes [c]. *)
Definition token_eats (t : Token) (c : char) : bool :=
  match t with
  | Star => false
  | Any => true
  | Class cls => contains cls c
  | Literal d => c =? d
  end.

(** The tail of a turn: give the last star one more character and retry. *)
Definition backtrack (len : nat) (w : Walk) : Walk + bool :=
  match w_star w with
  | Some (star_pi, star_ti) =>
      if (star_ti <? len)%nat then
        inl {| w_pi := star_pi; w_ti := star_ti + 1;
               w_star := Some (star_pi, (star_ti + 1)%nat) |}
      else inr false
  | None => inr false
  end.

(** One turn of the loop of [match_tokens]. *)
Definition turn (toks : list Token) (text : str) (w : Walk) : Walk + bool :=
  match toks !! w_pi w with
  | Some Star =>
      inl {| w_pi := w_pi w + 1; w_ti := w_ti w;
             w_star := Some ((w_pi w + 1)%nat, w_ti w) |}
  | Some t =>
      let advanced := match text !! w_ti w with
                      | Some c => token_eats t c
                      | None => false
                      end in
      if advanced then
        inl {| w_pi := w_pi w + 1; w_ti := w_ti w + 1; w_star := w_star w |}
      else backtrack (length text) w
  | None =>
      if bool_decide (w_ti w = length text) then inr true
      else backtrack (length text) w
  end.

Fixpoint walk (fuel : nat) (toks : list Token) (text : str) (w : Walk)
    : option bool :=
  match fuel with
  | O => None
  | S f =>
      match turn toks text w with
      | inl w' => walk f toks text w'
      | inr b => Some b
      end
  end.

Definition step_limit (units len : nat) : Z :=
  sat_add usize_max
    (sat_mul usize_max
       (sat_mul usize_max (Z.of_nat units + 1) (Z.of_nat len + 1)) 4) 8.

Definition start_walk : Walk := {| w_pi := 0; w_ti := 0; w_star := None |}.

Definition match_tokens (toks : list Token) (units : nat) (text : str)
    : option bool :=
  walk (Z.to_nat (step_limit units (length text))) toks text start_walk.

Definition Pattern_try_matches (p : Pattern) (n : Name) : option bool :=
  match_tokens (tokens p) (units p) (name_text n).

Definition try_matches (pattern name : str) : option bool :=
  let! p := compile pattern in
  let! n := Name_new name in
  Pattern_try_matches p n.

Definition matches (pattern name : str) : bool :=
  default false (try_matches pattern name).

Definition matches_any (patterns : list str) (name : str) : bool :=
  existsb (λ p, matches p name) patterns.

(** ** The reference walker

    The pattern-text walker the compiled matcher replaced, which the crate's
    tests keep as an oracle. *)

Definition ref_turn (pat text : str) (w : Walk) : Walk + bool :=
  let pi := w_pi w in
  let ti := w_ti w in
  let next pi' := inl {| w_pi := pi'; w_ti := ti + 1; w_star := w_star w |} in
  match pat !! pi with
  | Some c =>
      if c =? chr "*" then
        let pi' := scan (Z.eqb (chr "*")) pat pi in
        inl {| w_pi := pi'; w_ti := ti; w_star := Some (pi', ti) |}
      else if (c =? chr "?") && (ti <? length text)%nat then next (pi + 1)%nat
      else if c =? chr "[" then
        match parse_class pat pi with
        | Some (cls, close) =>
            match text !! ti with
            | Some d => if contains cls d then next (close + 1)%nat
                        else backtrack (length text) w
            | None => backtrack (length text) w
            end
        | None =>
            if is_at text ti (chr "[") then next (pi + 1)%nat
            else backtrack (length text) w
        end
      else if is_at text ti c then next (pi + 1)%nat
      else backtrack (length text) w
  | None =>
      if bool_decide (ti = length text) then inr true
      else backtrack (length text) w
  end.

Fixpoint ref_walk (fuel : nat) (pat text : str) (w : Walk) : option bool :=
  match fuel with
  | O => None
  | S f =>
      match ref_turn pat text w with
      | inl w' => ref_walk f pat text w'
      | inr b => Some b
      end
  end.

Definition reference_match (pat text : str) : option bool :=
  ref_walk (Z.to_nat (step_limit (length pat) (length text))) pat text start_walk.

Definition reference (pattern name : str) : option bool :=
  if (str_len pattern >? MAX_UNITS * 4) || (str_len name >? MAX_UNITS * 4) then None
  else if (Z.of_nat (length pattern) >? MAX_UNITS)
          || (Z.of_nat (length name) >? MAX_UNITS) then None
  else reference_match pattern name.

(** ** Specification

    What a pattern means, read off its text: [*] is any run of characters, path
    separators included, [?] is any one, a terminated class one of its members,
    and everything else, an unterminated [[] included, itself. *)

Inductive fnmatch : str → str → Prop :=
  | fn_nil : fnmatch [] []
  | fn_star_skip p s : fnmatch p s → fnmatch (chr "*" :: p) s
  | fn_star_eat p c s : fnmatch (chr "*" :: p) s → fnmatch (chr "*" :: p) (c :: s)
  | fn_any p c s : fnmatch p s → fnmatch (chr "?" :: p) (c :: s)
  | fn_class p cls close c s :
      parse_class (chr "[" :: p) 0 = Some (cls, close) → contains cls c = true →
      fnmatch (drop close p) s → fnmatch (chr "[" :: p) (c :: s)
  | fn_bracket p s :
      parse_class (chr "[" :: p) 0 = None →
      fnmatch p s → fnmatch (chr "[" :: p) (chr "[" :: s)
  | fn_literal p c s :
      c ≠ chr "*" → c ≠ chr "?" → c ≠ chr "[" →
      fnmatch p s → fnmatch (c :: p) (c :: s).

End Glob.
