(* ===== verification/GlobFacts.v ===== *)
(** * The fnmatch matcher is correct and never runs out of budget

    Both walkers of [Glob] are instances of one machine, [gturn], that reads its
    pattern through a lookup function. The machine is proved once: it decides the
    inductive relation [gmatch], within a bounded number of turns. *)

From S2P Require Import Prelude RustStr RustStrFacts Glob.
Import Glob.

#[local] Open Scope nat_scope.

Module GlobFacts.

(** ** The machine *)

Inductive kind : Type :=
  | KStar
  | KOne (f : char → bool).

Section Machine.
Context (look : nat → option (nat * kind)) (N : nat).
Context (look_range : ∀ pi pi' k, look pi = Some (pi', k) → pi < pi' ≤ N).
Context (text : str).

(** What the pattern from position [pi] means. *)
Inductive gmatch : nat → str → Prop :=
  | gm_end pi : look pi = None → gmatch pi []
  | gm_skip pi pi' s :
      look pi = Some (pi', KStar) → gmatch pi' s → gmatch pi s
  | gm_eat pi pi' c s :
      look pi = Some (pi', KStar) → gmatch pi s → gmatch pi (c :: s)
  | gm_one pi pi' f c s :
      look pi = Some (pi', KOne f) → f c = true → gmatch pi' s →
      gmatch pi (c :: s).

Definition gturn (w : Walk) : Walk + bool :=
  match look (w_pi w) with
  | Some (pi', KStar) =>
      inl {| w_pi := pi'; w_ti := w_ti w; w_star := Some (pi', w_ti w) |}
  | Some (pi', KOne f) =>
      match text !! w_ti w with
      | Some c =>
          if f c then
            inl {| w_pi := pi'; w_ti := w_ti w + 1; w_star := w_star w |}
          else backtrack (length text) w
      | None => backtrack (length text) w
      end
  | None =>
      if bool_decide (w_ti w = length text) then inr true
      else backtrack (length text) w
  end.

Fixpoint gwalk (fuel : nat) (w : Walk) : option bool :=
  match fuel with
  | O => None
  | S f => match gturn w with inl w' => gwalk f w' | inr b => Some b end
  end.

(** [n] one-character positions lead from [p] to [q]. *)
Inductive ones : nat → nat → nat → Prop :=
  | ones_0 p : ones p 0 p
  | ones_S p n q q' f :
      ones p n q → look q = Some (q', KOne f) → ones p (S n) q'.

Lemma gmatch_inv_one pi pi' f s :
  gmatch pi s → look pi = Some (pi', KOne f) →
  ∃ c s', s = c :: s' ∧ f c = true ∧ gmatch pi' s'.
Proof. destruct 1; intros; simplify_eq; eauto. Qed.

Lemma gmatch_inv_none pi s : gmatch pi s → look pi = None → s = [].
Proof. by destruct 1; intros; simplify_eq. Qed.

Lemma gmatch_star_iff pi pi' s :
  look pi = Some (pi', KStar) →
  gmatch pi s ↔ ∃ j, j ≤ length s ∧ gmatch pi' (drop j s).
Proof.
  intros Hl. split.
  - induction 1; simplify_eq.
    + exists 0. split; [lia|]. by rewrite drop_0.
    + destruct (IHgmatch Hl) as (j & Hj & Hm). exists (S j). simpl. split; [lia|done].
  - intros (j & Hj & Hm). revert j Hj Hm.
    induction s as [|c s IH]; intros j Hj Hm; simpl in *.
    + rewrite drop_nil in Hm. by eapply gm_skip.
    + destruct j as [|j]; simpl in *; [by eapply gm_skip|].
      eapply gm_eat; [done|]. apply (IH j); [lia|done].
Qed.

Lemma gmatch_star_drop pi pi' i j s :
  look pi = Some (pi', KStar) → i ≤ j → j ≤ length s →
  gmatch pi (drop j s) → gmatch pi (drop i s).
Proof.
  intros Hl Hij Hjs (k & Hk & Hm)%(gmatch_star_iff _ _ _ Hl).
  apply (gmatch_star_iff _ _ _ Hl). exists ((j - i) + k).
  rewrite length_drop in *. split; [lia|].
  rewrite drop_drop in *. by replace (i + (j - i + k)) with (j + k) by lia.
Qed.

Lemma ones_gmatch p n q s :
  ones p n q → gmatch p s → n ≤ length s ∧ gmatch q (drop n s).
Proof.
  induction 1 as [|p n q q' f Ho IH Hl]; intros Hm.
  - split; [lia|]. by rewrite drop_0.
  - destruct (IH Hm) as [Hn Hq].
    destruct (gmatch_inv_one _ _ _ _ Hq Hl) as (c & s' & Hs & _ & Hs').
    assert (S n ≤ length s).
    { apply (f_equal length) in Hs. rewrite length_drop in Hs. simpl in Hs. lia. }
    split; [done|].
    replace (S n) with (n + 1) by lia.
    rewrite <- drop_drop, Hs. done.
Qed.

(** ** The invariant of the walk *)

Definition later_star (w : Walk) : Prop :=
  ∃ sp st k, w_star w = Some (sp, st) ∧ st < k ≤ length text
             ∧ gmatch sp (drop k text).

Record inv (w : Walk) : Prop := {
  inv_ti : w_ti w ≤ length text;
  inv_pi : w_pi w ≤ N;
  inv_star : ∀ sp st, w_star w = Some (sp, st) →
    st ≤ w_ti w ∧ sp ≤ N ∧ ones sp (w_ti w - st) (w_pi w);
  inv_goal : gmatch 0 text ↔ gmatch (w_pi w) (drop (w_ti w) text) ∨ later_star w;
}.

Definition star_ti (w : Walk) : nat :=
  match w_star w with Some (_, st) => st | None => 0 end.

(** Strictly decreasing at every turn. *)
Definition measure (w : Walk) : nat :=
  (length text - star_ti w) * (N + 2) + (N - w_pi w).

Lemma inv_start : inv start_walk.
Proof.
  split; simpl; [lia|lia|done|]. rewrite drop_0. split; [by left|].
  intros [?|(?&?&?&?&_)]; [done|simplify_eq].
Qed.

Lemma drop_lookup_cons (l : str) i c : l !! i = Some c → drop i l = c :: drop (S i) l.
Proof. intros H. by rewrite <- (drop_S _ _ _ H). Qed.

(** A turn that backtracks: what mismatched had no match from here. *)
Lemma backtrack_spec w :
  inv w → ¬ gmatch (w_pi w) (drop (w_ti w) text) →
  match backtrack (length text) w with
  | inl w' => inv w' ∧ measure w' < measure w
  | inr b => b = true ↔ gmatch 0 text
  end.
Proof.
  intros [Hti Hpi Hstar Hgoal] Hno. unfold backtrack.
  destruct (w_star w) as [[sp st]|] eqn:Hs.
  - destruct (Hstar _ _ eq_refl) as (Hst & Hsp & Ho).
    destruct (st <? length text) eqn:Hlt; bool_to_prop.
    + split.
      * split; simpl; [lia|lia| |].
        { intros ?? [= <- <-]. replace (st + 1 - (st + 1)) with 0 by lia.
          split_and!; [lia|lia|constructor]. }
        rewrite Hgoal. unfold later_star. rewrite Hs. simpl. split.
        { intros [?|(? & ? & k & [= <- <-] & Hk & Hm)]; [done|].
          destruct (decide (k = st + 1)) as [->|]; [by left|].
          right. exists sp, (st + 1), k. split_and!; [done|lia|lia|done]. }
        { intros [Hm|(? & ? & k & [= <- <-] & Hk & Hm)]; right.
          - exists sp, st, (st + 1). split_and!; [done|lia|lia|done].
          - exists sp, st, k. split_and!; [done|lia|lia|done]. }
      * unfold measure, star_ti. rewrite Hs. simpl. nia.
    + split; [done|]. rewrite Hgoal. unfold later_star. rewrite Hs.
      intros [?|(? & ? & k & [= <- <-] & Hk & _)]; [done|lia].
  - split; [done|]. rewrite Hgoal. unfold later_star. rewrite Hs.
    intros [?|(?&?&?&?&_)]; [done|simplify_eq].
Qed.

Lemma later_star_new w pi' :
  inv w → look (w_pi w) = Some (pi', KStar) → later_star w →
  gmatch (w_pi w) (drop (w_ti w) text).
Proof.
  intros [Hti Hpi Hstar Hgoal] Hl (sp & st & k & Hs & Hk & Hm).
  destruct (Hstar _ _ Hs) as (Hst & _ & Ho).
  destruct (ones_gmatch _ _ _ _ Ho Hm) as [Hn Hq].
  rewrite length_drop in Hn. rewrite drop_drop in Hq.
  eapply (gmatch_star_drop _ _ _ (k + (w_ti w - st))); [done|lia|lia|done].
Qed.

Lemma gturn_spec w :
  inv w →
  match gturn w with
  | inl w' => inv w' ∧ measure w' < measure w
  | inr b => b = true ↔ gmatch 0 text
  end.
Proof.
  intros Hinv. pose proof Hinv as [Hti Hpi Hstar Hgoal]. unfold gturn.
  destruct (look (w_pi w)) as [[pi' [|f]]|] eqn:Hl.
  - pose proof (look_range _ _ _ Hl). split.
    + split; simpl; [lia|lia| |].
      { intros ?? [= <- <-]. rewrite Nat.sub_diag.
        split_and!; [lia|lia|constructor]. }
      rewrite Hgoal. split.
      * intros [Hm|Hls]; [|apply (later_star_new _ _ Hinv Hl) in Hls as Hm];
        apply (gmatch_star_iff _ _ _ Hl) in Hm as (j & Hj & Hm);
        rewrite length_drop in Hj; rewrite drop_drop in Hm;
        (destruct j as [|j];
         [left; by rewrite Nat.add_0_r in Hm
         |right; exists pi', (w_ti w), (w_ti w + S j); split_and!; simpl; done || lia]).
      * intros [Hm|(? & ? & k & [= <- <-] & Hk & Hm)]; left.
        { by eapply gm_skip. }
        apply (gmatch_star_drop _ pi' _ k); [done|lia|lia|]. by eapply gm_skip.
    + unfold measure, star_ti. simpl. destruct (w_star w) as [[sp st]|] eqn:Hs; [|nia].
      destruct (Hstar _ _ eq_refl) as (? & _ & _). nia.
  - pose proof (look_range _ _ _ Hl).
    destruct (text !! w_ti w) as [c|] eqn:Ht.
    + destruct (f c) eqn:Hf.
      * pose proof (lookup_lt_Some _ _ _ Ht). split.
        { split; simpl; [lia|lia| |].
          - intros sp st Hs. destruct (Hstar _ _ Hs) as (? & ? & Ho).
            split_and!; [lia|lia|].
            replace (w_ti w + 1 - st) with (S (w_ti w - st)) by lia.
            by eapply ones_S.
          - rewrite Hgoal, (drop_lookup_cons _ _ _ Ht), Nat.add_1_r.
            f_equiv; [|done]. split; [|intros; by eapply gm_one].
            intros Hm. destruct (gmatch_inv_one _ _ _ _ Hm Hl) as (? & ? & ? & _ & ?).
            by simplify_eq. }
        unfold measure, star_ti. simpl. destruct (w_star w) as [[??]|]; nia.
      * apply backtrack_spec; [done|]. rewrite (drop_lookup_cons _ _ _ Ht).
        intros Hm. destruct (gmatch_inv_one _ _ _ _ Hm Hl) as (? & ? & ? & ? & _).
        simplify_eq. congruence.
    + apply backtrack_spec; [done|]. apply lookup_ge_None in Ht.
      rewrite drop_ge by done. intros Hm.
      destruct (gmatch_inv_one _ _ _ _ Hm Hl) as (? & ? & ? & _). done.
  - case_bool_decide as He.
    + split; [|done]. intros _. apply Hgoal. left. rewrite drop_ge by lia. by constructor.
    + apply backtrack_spec; [done|]. intros Hm.
      apply (gmatch_inv_none _ _) in Hm; [|done].
      apply (f_equal length) in Hm. rewrite length_drop in Hm. simpl in Hm. lia.
Qed.

Lemma gwalk_spec fuel w :
  inv w → measure w < fuel →
  ∃ b, gwalk fuel w = Some b ∧ (b = true ↔ gmatch 0 text).
Proof.
  revert w. induction fuel as [|fuel IH]; intros w Hinv Hfuel; [lia|]. simpl.
  pose proof (gturn_spec w Hinv) as H. destruct (gturn w) as [w'|b]; [|by eauto].
  destruct H as [Hinv' Hm]. apply IH; [done|lia].
Qed.

Lemma gwalk_start fuel :
  length text * (N + 2) + N < fuel →
  ∃ b, gwalk fuel start_walk = Some b ∧ (b = true ↔ gmatch 0 text).
Proof.
  intros H. apply gwalk_spec; [apply inv_start|].
  unfold measure, star_ti, start_walk. simpl. nia.
Qed.
End Machine.

(** The budget the code computes is past the machine's bound. *)
Lemma step_limit_enough (n units len : nat) :
  n ≤ units → (Z.of_nat units ≤ MAX_UNITS)%Z → (Z.of_nat len ≤ MAX_UNITS)%Z →
  len * (n + 2) + n < Z.to_nat (step_limit units len).
Proof.
  intros Hn Hu Hl. unfold step_limit, sat_add, sat_mul, usize_max, u64_max, MAX_UNITS in *.
  apply Nat2Z.inj_lt. rewrite Z2Nat.id by nia.
  rewrite !Nat2Z.inj_add, Nat2Z.inj_mul, Nat2Z.inj_add. simpl Z.of_nat at 2.
  assert ((Z.of_nat units + 1) * (Z.of_nat len + 1) ≤ 16385 * 16385)%Z by nia.
  rewrite !Z.min_r; nia.
Qed.

(** ** Scanning and classes *)

Lemma run_length_le p l : run_length p l ≤ length l.
Proof. induction l; simpl; [lia|]. case_if; lia. Qed.

Lemma scan_bounds p pat i : i ≤ length pat → i ≤ scan p pat i ≤ length pat.
Proof.
  unfold scan. pose proof (run_length_le p (drop i pat)) as H.
  rewrite length_drop in H. lia.
Qed.

Lemma scan_hit p pat i c : pat !! i = Some c → p c = true → i < scan p pat i.
Proof.
  intros Hc Hp. unfold scan. rewrite (drop_lookup_cons _ _ _ Hc). simpl.
  rewrite Hp. lia.
Qed.

Lemma is_at_true pat i c : is_at pat i c = true ↔ pat !! i = Some c.
Proof. apply bool_decide_eq_true. Qed.

Lemma parse_class_bounds pat open cls close :
  parse_class pat open = Some (cls, close) → open + 1 < close < length pat.
Proof.
  unfold parse_class.
  set (neg := is_at pat (open + 1) (chr "!")).
  set (i1 := if neg then open + 1 + 1 else open + 1).
  set (i2 := if is_at pat i1 (chr "]") then i1 + 1 else i1).
  set (i3 := scan _ pat i2).
  destruct (length pat <=? i3) eqn:Hlen; [done|]. bool_to_prop.
  case_bool_decide as Hbody; [done|].
  intros H. assert (i3 = close) as <- by (case_if_in H; by simplify_eq).
  split; [|done].
  assert (open + 1 ≤ i1) by (unfold i1; case_if; lia).
  assert (i1 ≤ i2) by (unfold i2; case_if; lia).
  assert (i2 ≤ i3) by (unfold i3, scan; lia).
  assert (i1 < i3); [|lia]. destruct (decide (i1 < i3)); [done|].
  exfalso. apply Hbody. unfold slice. by replace (i3 - i1) with 0 by lia.
Qed.

Lemma is_at_drop n pat i c : is_at (drop n pat) i c = is_at pat (n + i) c.
Proof. unfold is_at. by rewrite lookup_drop. Qed.

Lemma scan_drop p n pat i : scan p pat (n + i) = n + scan p (drop n pat) i.
Proof. unfold scan. rewrite drop_drop. lia. Qed.

Lemma parse_class_shift pat n :
  parse_class pat n =
  match parse_class (drop n pat) 0 with
  | Some (cls, close) => Some (cls, n + close)
  | None => None
  end.
Proof.
  unfold parse_class. rewrite !is_at_drop, Nat.add_0_l.
  set (neg := is_at pat (n + 1) (chr "!")).
  set (i1 := if neg then 1 + 1 else 1).
  replace (if neg then n + 1 + 1 else n + 1) with (n + i1) by (unfold i1; case_if; lia).
  set (b2 := is_at pat (n + i1) (chr "]")).
  set (i2 := if b2 then i1 + 1 else i1).
  replace (if b2 then n + i1 + 1 else n + i1) with (n + i2) by (unfold i2; case_if; lia).
  rewrite scan_drop. set (i3 := scan _ (drop n pat) i2).
  rewrite length_drop.
  assert (i2 ≤ i3) by (unfold i3, scan; lia).
  destruct (length pat <=? n + i3) eqn:Ha, (length pat - n <=? i3) eqn:Hb;
    bool_to_prop; try lia; [done|].
  assert (slice (n + i1) (n + i3) pat = slice i1 i3 (drop n pat)) as ->.
  { unfold slice. rewrite drop_drop. f_equal. lia. }
  case_bool_decide; [done|]. by case_if.
Qed.

(** ** The two walkers are the machine *)

Definition look_tok (toks : list Token) (pi : nat) : option (nat * kind) :=
  match toks !! pi with
  | Some Star => Some (pi + 1, KStar)
  | Some t => Some (pi + 1, KOne (token_eats t))
  | None => None
  end.

Definition look_text (pat : str) (pi : nat) : option (nat * kind) :=
  match pat !! pi with
  | None => None
  | Some c =>
      if Z.eqb c (chr "*") then Some (scan (Z.eqb (chr "*")) pat pi, KStar)
      else if Z.eqb c (chr "?") then Some (pi + 1, KOne (λ _, true))
      else if Z.eqb c (chr "[") then
        match parse_class pat pi with
        | Some (cls, close) => Some (close + 1, KOne (contains cls))
        | None => Some (pi + 1, KOne (λ d, Z.eqb d (chr "[")))
        end
      else Some (pi + 1, KOne (λ d, Z.eqb d c))
  end.

Lemma look_tok_range toks pi pi' k :
  look_tok toks pi = Some (pi', k) → pi < pi' ≤ length toks.
Proof.
  unfold look_tok. destruct (toks !! pi) as [t|] eqn:Ht; [|done].
  apply lookup_lt_Some in Ht. destruct t; intros; simplify_eq; lia.
Qed.

Lemma look_text_range pat pi pi' k :
  look_text pat pi = Some (pi', k) → pi < pi' ≤ length pat.
Proof.
  unfold look_text. destruct (pat !! pi) as [c|] eqn:Hc; [|done].
  pose proof (lookup_lt_Some _ _ _ Hc).
  repeat case_if; intros; simplify_eq; try lia.
  - split; [|apply scan_bounds; lia]. eapply scan_hit; [done|].
    bool_to_prop. by subst.
  - destruct (parse_class pat pi) as [[cls close]|] eqn:Hp; simplify_eq; [|lia].
    apply parse_class_bounds in Hp. lia.
Qed.

Lemma turn_gturn toks text w : turn toks text w = gturn (look_tok toks) text w.
Proof.
  unfold turn, gturn, look_tok. destruct (toks !! w_pi w) as [[]|]; [done|..|done];
    by destruct (text !! w_ti w).
Qed.

Lemma walk_gwalk fuel toks text w :
  walk fuel toks text w = gwalk (look_tok toks) text fuel w.
Proof.
  revert w. induction fuel as [|fuel IH]; intros w; simpl; [done|].
  rewrite turn_gturn. by destruct (gturn _ _ w).
Qed.

Lemma ref_turn_gturn pat text w : ref_turn pat text w = gturn (look_text pat) text w.
Proof.
  unfold ref_turn, gturn, look_text. destruct (pat !! w_pi w) as [c|]; [|done].
  destruct (Z.eqb c (chr "*")) eqn:E1; [done|].
  destruct (Z.eqb c (chr "?")) eqn:E2; simpl.
  - apply Z.eqb_eq in E2 as ->. unfold is_at.
    destruct (text !! w_ti w) eqn:Ht.
    + apply lookup_lt_Some in Ht. apply Nat.ltb_lt in Ht. by rewrite Ht.
    + pose proof Ht as Hg. apply lookup_ge_None in Hg.
      apply Nat.ltb_ge in Hg. by rewrite Hg.
  - destruct (Z.eqb c (chr "[")) eqn:E3.
    + destruct (parse_class pat (w_pi w)) as [[cls close]|]; [done|].
      unfold is_at. destruct (text !! w_ti w) as [d|]; [|done].
      destruct (Z.eqb_spec d (chr "[")); case_bool_decide; congruence.
    + unfold is_at. destruct (text !! w_ti w) as [d|]; [|done].
      destruct (Z.eqb_spec d c); case_bool_decide; congruence.
Qed.

Lemma ref_walk_gwalk fuel pat text w :
  ref_walk fuel pat text w = gwalk (look_text pat) text fuel w.
Proof.
  revert w. induction fuel as [|fuel IH]; intros w; simpl; [done|].
  rewrite ref_turn_gturn. by destruct (gturn _ _ w).
Qed.

(** ** Compiling keeps the meaning *)

Definition kind_of (t : Token) : kind :=
  match t with Star => KStar | t => KOne (token_eats t) end.

Lemma look_tok_kind toks i :
  look_tok toks i = match toks !! i with Some t => Some (i + 1, kind_of t) | None => None end.
Proof. unfold look_tok. by destruct (toks !! i) as [[]|]. Qed.

Lemma compile_loop_app f pat pi out :
  compile_loop f pat pi out = out ++ compile_loop f pat pi [].
Proof.
  revert pi out. induction f as [|f IH]; intros pi out; simpl; [by rewrite app_nil_r|].
  destruct (pat !! pi) as [c|]; [|by rewrite app_nil_r].
  repeat case_if; [|..|destruct (parse_class pat pi) as [[??]|]|];
    rewrite IH; symmetry; rewrite IH; by rewrite <- app_assoc.
Qed.

Lemma compile_loop_step pat pi c :
  pat !! pi = Some c →
  ∃ t pi', look_text pat pi = Some (pi', kind_of t)
           ∧ ∀ f, compile_loop (S f) pat pi [] = t :: compile_loop f pat pi' [].
Proof.
  intros Hc. unfold look_text. simpl compile_loop. rewrite Hc.
  repeat case_if; [|..|destruct (parse_class pat pi) as [[??]|]|];
    do 2 eexists; (split; [|intros f; rewrite compile_loop_app; reflexivity]);
    reflexivity.
Qed.

Lemma compile_loop_end f pat pi : pat !! pi = None → compile_loop f pat pi [] = [].
Proof. intros H. destruct f; simpl; [done|]. by rewrite H. Qed.

Lemma compile_loop_length f pat pi :
  length (compile_loop f pat pi []) ≤ length pat - pi.
Proof.
  revert pi. induction f as [|f IH]; intros pi; [simpl; lia|].
  destruct (pat !! pi) as [c|] eqn:Hc; [|rewrite compile_loop_end by done; simpl; lia].
  destruct (compile_loop_step _ _ _ Hc) as (t & pi' & Hl & Hs).
  apply look_text_range in Hl. rewrite Hs. simpl. specialize (IH pi').
  apply lookup_lt_Some in Hc. lia.
Qed.

Section Simulation.
Context (look1 look2 : nat → option (nat * kind)) (R : nat → nat → Prop).
Context (sim : ∀ p q, R p q →
  match look1 p with
  | None => look2 q = None
  | Some (p', k) => ∃ q', look2 q = Some (q', k) ∧ R p' q'
  end).

Lemma gmatch_sim p q s : R p q → gmatch look1 p s → gmatch look2 q s.
Proof.
  intros HR Hm. revert q HR.
  induction Hm as [p Hl|p p' s Hl _ IH|p p' c s Hl _ IH|p p' f c s Hl Hf _ IH];
    intros q HR; pose proof (sim _ _ HR) as Hsim; rewrite Hl in Hsim.
  - by constructor.
  - destruct Hsim as (q' & Hl2 & HR'). eapply gm_skip; eauto.
  - destruct Hsim as (q' & Hl2 & HR'). eapply gm_eat; eauto.
  - destruct Hsim as (q' & Hl2 & HR'). eapply gm_one; eauto.
Qed.
End Simulation.

Definition aligned (pat : str) (toks : list Token) (pi i : nat) : Prop :=
  ∃ f, length pat ≤ pi + f ∧ drop i toks = compile_loop f pat pi [].

Lemma aligned_step pat toks pi i :
  aligned pat toks pi i →
  match look_text pat pi with
  | None => look_tok toks i = None
  | Some (pi', k) => look_tok toks i = Some (i + 1, k) ∧ aligned pat toks pi' (i + 1)
  end.
Proof.
  intros (f & Hf & Hd). destruct (pat !! pi) as [c|] eqn:Hc.
  - destruct (compile_loop_step _ _ _ Hc) as (t & pi' & Hl & Hs). rewrite Hl.
    pose proof (look_text_range _ _ _ _ Hl). apply lookup_lt_Some in Hc.
    destruct f as [|f]; [lia|]. rewrite Hs in Hd. rewrite look_tok_kind.
    assert (toks !! i = Some t) as ->.
    { rewrite <- (Nat.add_0_r i), <- lookup_drop, Hd. done. }
    split; [done|]. exists f. split; [lia|].
    rewrite <- drop_drop, Hd. done.
  - rewrite compile_loop_end in Hd by done. unfold look_text. rewrite Hc, look_tok_kind.
    by rewrite <- (Nat.add_0_r i), <- lookup_drop, Hd.
Qed.

Lemma compile_gmatch pat s :
  gmatch (look_tok (compile_loop (length pat) pat 0 [])) 0 s ↔ gmatch (look_text pat) 0 s.
Proof.
  set (toks := compile_loop _ _ _ _).
  assert (aligned pat toks 0 0) as H0 by (exists (length pat); split; [lia|done]).
  split; [apply (gmatch_sim _ _ (flip (aligned pat toks)))
         |apply (gmatch_sim _ _ (aligned pat toks))]; try done.
  - intros i pi Ha%aligned_step.
    destruct (look_text pat pi) as [[pi' k]|]; [|by rewrite Ha].
    destruct Ha as [-> Ha]. exists pi'. by split.
  - intros pi i Ha%aligned_step.
    destruct (look_text pat pi) as [[pi' k]|]; [|done].
    destruct Ha as [-> Ha]. by exists (i + 1).
Qed.

(** ** The text the pattern is written in *)

Lemma fnmatch_run l s :
  fnmatch (drop (run_length (Z.eqb (chr "*")) l) l) s → fnmatch l s.
Proof.
  induction l as [|c l IH]; simpl; [done|].
  case_if; simpl; [|done]. apply Z.eqb_eq in Heqb as <-. intros H.
  by apply fn_star_skip, IH.
Qed.

Lemma gmatch_fnmatch pat pi s : gmatch (look_text pat) pi s → fnmatch (drop pi pat) s.
Proof.
  induction 1 as [pi Hl|pi pi' s Hl _ IH|pi pi' c s Hl _ IH|pi pi' f c s Hl Hf _ IH];
    unfold look_text in Hl; destruct (pat !! pi) as [d|] eqn:Hd; try done.
  - repeat case_if_in Hl; try done. by destruct (parse_class pat pi) as [[??]|].
  - rewrite drop_ge by (by apply lookup_ge_None). constructor.
  - repeat case_if_in Hl; simplify_eq.
    + apply fnmatch_run. unfold scan in IH. by rewrite <- drop_drop in IH.
    + by destruct (parse_class pat pi) as [[??]|].
  - repeat case_if_in Hl; simplify_eq.
    + apply Z.eqb_eq in Heqb as ->. rewrite (drop_lookup_cons _ _ _ Hd) in *.
      by apply fn_star_eat.
    + by destruct (parse_class pat pi) as [[??]|].
  - rewrite (drop_lookup_cons _ _ _ Hd). repeat case_if_in Hl; simplify_eq.
    + apply Z.eqb_eq in Heqb0 as ->. apply fn_any. by rewrite Nat.add_1_r in IH.
    + apply Z.eqb_eq in Heqb1 as ->. rewrite parse_class_shift in Hl.
      rewrite (drop_lookup_cons _ _ _ Hd) in Hl.
      destruct (parse_class (chr "[" :: _) 0) as [[cls close]|] eqn:Hp; simplify_eq.
      * eapply fn_class; [done|done|].
        rewrite drop_drop. by replace (S pi + close) with (pi + close + 1) by lia.
      * apply Z.eqb_eq in Hf as ->. apply fn_bracket; [done|]. by rewrite Nat.add_1_r in IH.
    + apply Z.eqb_eq in Hf as ->. bool_to_prop. apply fn_literal; [done..|].
      by rewrite Nat.add_1_r in IH.
Qed.

Lemma drop_cons_inv (l : str) i c p :
  drop i l = c :: p → l !! i = Some c ∧ drop (i + 1) l = p.
Proof.
  intros H. split; [by rewrite <- (Nat.add_0_r i), <- lookup_drop, H|].
  by rewrite <- drop_drop, H.
Qed.

Lemma scan_star_next pat pi :
  pat !! pi = Some (chr "*") →
  scan (Z.eqb (chr "*")) pat pi = scan (Z.eqb (chr "*")) pat (pi + 1).
Proof.
  intros H. unfold scan. rewrite (drop_lookup_cons _ _ _ H), Nat.add_1_r. simpl. lia.
Qed.

Lemma gmatch_star_skip pat pi s :
  pat !! pi = Some (chr "*") →
  gmatch (look_text pat) (pi + 1) s → gmatch (look_text pat) pi s.
Proof.
  intros Hc Hm.
  assert (look_text pat pi = Some (scan (Z.eqb (chr "*")) pat (pi + 1), KStar)) as Hl.
  { unfold look_text. rewrite Hc. simpl. by rewrite <- scan_star_next. }
  destruct (decide (pat !! (pi + 1) = Some (chr "*"))) as [Hn|Hn].
  - assert (look_text pat (pi + 1) = Some (scan (Z.eqb (chr "*")) pat (pi + 1), KStar)) as Hl'.
    { unfold look_text. by rewrite Hn. }
    apply (gmatch_star_iff _ _ _ _ Hl). by apply (gmatch_star_iff _ _ _ _ Hl').
  - eapply gm_skip; [done|].
    assert (scan (Z.eqb (chr "*")) pat (pi + 1) = pi + 1) as ->; [|done].
    unfold scan. destruct (pat !! (pi + 1)) as [d|] eqn:Hd.
    + rewrite (drop_lookup_cons _ _ _ Hd). simpl run_length.
      case_if; [bool_to_prop; subst; congruence|lia].
    + rewrite drop_ge by (by apply lookup_ge_None). simpl. lia.
Qed.

Lemma fnmatch_gmatch pat p s :
  fnmatch p s → ∀ pi, drop pi pat = p → gmatch (look_text pat) pi s.
Proof.
  induction 1 as [|p s _ IH|p c s _ IH|p c s _ IH|p cls close c s Hp Hc _ IH
                 |p s Hp _ IH|p c s H1 H2 H3 _ IH]; intros pi Hd;
    [|apply drop_cons_inv in Hd as Hd'; destruct Hd' as [Hat Hrest]..].
  - constructor. unfold look_text.
    apply (f_equal length) in Hd. rewrite length_drop in Hd. simpl in Hd.
    assert (pat !! pi = None) as -> by (apply lookup_ge_None; lia). done.
  - apply gmatch_star_skip; auto.
  - eapply gm_eat; [|by apply IH]. unfold look_text. by rewrite Hat.
  - eapply gm_one; [unfold look_text; by rewrite Hat|done|auto].
  - eapply gm_one; [unfold look_text; rewrite Hat|exact Hc|].
    { rewrite parse_class_shift, Hd. simpl. by rewrite Hp. }
    apply IH. rewrite <- Hrest, drop_drop. f_equal. lia.
  - eapply (gm_one _ _ _ (λ d, Z.eqb d (chr "[")));
      [unfold look_text; rewrite Hat|apply Z.eqb_refl|by apply IH].
    rewrite parse_class_shift, Hd. simpl. by rewrite Hp.
  - eapply (gm_one _ _ _ (λ d, Z.eqb d c));
      [unfold look_text; rewrite Hat|apply Z.eqb_refl|by apply IH].
    apply Z.eqb_neq in H1, H2, H3. by rewrite H1, H2, H3.
Qed.

Lemma gmatch_fnmatch_iff pat s : gmatch (look_text pat) 0 s ↔ fnmatch pat s.
Proof.
  split; [by intros ?%gmatch_fnmatch|]. intros H. by apply (fnmatch_gmatch _ _ _ H).
Qed.

(** ** Deciding *)

Lemma str_len_le s : (str_len s ≤ 4 * Z.of_nat (length s))%Z.
Proof.
  induction s as [|c s IH]; [done|]. cbn [str_len length].
  assert (utf8_width c ≤ 4)%Z by (unfold utf8_width; repeat case_if; lia). lia.
Qed.

Lemma over_cap_iff s :
  (if (str_len s >? MAX_UNITS * 4)%Z then true
   else (Z.of_nat (length s) >? MAX_UNITS)%Z) = (Z.of_nat (length s) >? MAX_UNITS)%Z.
Proof.
  pose proof (str_len_le s). destruct (str_len s >? MAX_UNITS * 4)%Z eqn:H1; [|done].
  symmetry. rewrite Z.gtb_ltb in *. bool_to_prop. apply Z.ltb_lt. lia.
Qed.

Lemma compile_eq pattern :
  compile pattern =
  if (Z.of_nat (length pattern) >? MAX_UNITS)%Z then None
  else Some {| tokens := compile_loop (length pattern) pattern 0 [];
               units := length pattern |}.
Proof. unfold compile. rewrite <- (over_cap_iff pattern). by repeat case_if. Qed.

Lemma Name_new_eq name :
  Name_new name =
  if (Z.of_nat (length name) >? MAX_UNITS)%Z then None else Some {| name_text := name |}.
Proof. unfold Name_new. rewrite <- (over_cap_iff name). by repeat case_if. Qed.

Lemma match_tokens_spec pat text :
  (Z.of_nat (length pat) ≤ MAX_UNITS)%Z → (Z.of_nat (length text) ≤ MAX_UNITS)%Z →
  ∃ b, match_tokens (compile_loop (length pat) pat 0 []) (length pat) text = Some b
       ∧ (b = true ↔ fnmatch pat text).
Proof.
  intros Hp Ht. unfold match_tokens. rewrite walk_gwalk.
  set (toks := compile_loop _ _ _ _).
  destruct (gwalk_start (look_tok toks) (length toks) (look_tok_range toks) text
              (Z.to_nat (step_limit (length pat) (length text)))) as (b & Hb & Hiff).
  { apply step_limit_enough; [|done..]. unfold toks.
    pose proof (compile_loop_length (length pat) pat 0). lia. }
  exists b. split; [done|]. rewrite Hiff. unfold toks.
  by rewrite compile_gmatch, gmatch_fnmatch_iff.
Qed.

Lemma reference_match_spec pat text :
  (Z.of_nat (length pat) ≤ MAX_UNITS)%Z → (Z.of_nat (length text) ≤ MAX_UNITS)%Z →
  ∃ b, reference_match pat text = Some b ∧ (b = true ↔ fnmatch pat text).
Proof.
  intros Hp Ht. unfold reference_match. rewrite ref_walk_gwalk.
  destruct (gwalk_start (look_text pat) (length pat) (look_text_range pat) text
              (Z.to_nat (step_limit (length pat) (length text)))) as (b & Hb & Hiff).
  { by apply step_limit_enough. }
  exists b. split; [done|]. by rewrite Hiff, gmatch_fnmatch_iff.
Qed.

Definition in_caps (s : str) : bool := (Z.of_nat (length s) <=? MAX_UNITS)%Z.

Lemma try_matches_in_caps pattern name :
  in_caps pattern = true → in_caps name = true →
  ∃ b, try_matches pattern name = Some b ∧ (b = true ↔ fnmatch pattern name).
Proof.
  unfold in_caps. intros Hp Hn. bool_to_prop.
  unfold try_matches. rewrite compile_eq, Name_new_eq.
  pose proof (proj2 (Z.ltb_ge _ _) Hp) as Hp'. pose proof (proj2 (Z.ltb_ge _ _) Hn) as Hn'.
  rewrite !Z.gtb_ltb, Hp', Hn'. by apply match_tokens_spec.
Qed.

Lemma try_matches_over_caps pattern name :
  in_caps pattern && in_caps name = false → try_matches pattern name = None.
Proof.
  unfold in_caps, try_matches. rewrite compile_eq, Name_new_eq, !Z.gtb_ltb.
  intros H. apply andb_false_iff in H as [H|H]; bool_to_prop; apply Z.ltb_lt in H;
    rewrite H; [done|]. by case_if.
Qed.

Lemma reference_eq pattern name :
  reference pattern name =
  if in_caps pattern && in_caps name then reference_match pattern name else None.
Proof.
  assert (∀ s, (str_len s >? MAX_UNITS * 4)%Z = true → in_caps s = false) as Hlong.
  { intros s Hs. pose proof (over_cap_iff s) as H. rewrite Hs in H. unfold in_caps.
    apply Z.leb_gt. by apply Z.gtb_lt. }
  assert (∀ s, (Z.of_nat (length s) >? MAX_UNITS)%Z = negb (in_caps s)) as Hshort.
  { intros s. unfold in_caps. by rewrite Z.gtb_ltb, <- Z.ltb_antisym. }
  unfold reference. rewrite !Hshort, <- negb_andb.
  destruct (_ || _) eqn:E; [|by destruct (_ && _)].
  apply orb_true_iff in E as [E|E]; apply Hlong in E; rewrite E; [done|].
  by rewrite andb_false_r.
Qed.

(** ** Properties *)

(** C5. [try_matches] decides the fnmatch language of the pattern text exactly.
    Within the unit caps it always answers, so the step budget never runs out,
    and it answers [true] just on the names the specification matches. Past a cap
    it refuses to answer instead of guessing. *)
Theorem try_matches_decides pattern name :
  match try_matches pattern name with
  | Some b => in_caps pattern && in_caps name = true ∧ (b = true ↔ fnmatch pattern name)
  | None => in_caps pattern && in_caps name = false
  end.
Proof.
  destruct (in_caps pattern && in_caps name) eqn:E.
  - apply andb_true_iff in E as [Hp Hn].
    by destruct (try_matches_in_caps pattern name Hp Hn) as (b & -> & Hb).
  - by rewrite try_matches_over_caps.
Qed.

(** the compiled matcher answers as the pattern-text walker it replaced does,
    on every pattern and every name, the undecided answers included. *)
Theorem compiled_is_reference pattern name :
  try_matches pattern name = reference pattern name.
Proof.
  rewrite reference_eq. destruct (in_caps pattern && in_caps name) eqn:E.
  - apply andb_true_iff in E as [Ep En].
    destruct (try_matches_in_caps pattern name Ep En) as (b & -> & Hb).
    unfold in_caps in Ep, En. bool_to_prop.
    destruct (reference_match_spec pattern name) as (b' & -> & Hb'); [done..|].
    f_equal. apply eq_true_iff_eq. by rewrite Hb, Hb'.
  - by rewrite try_matches_over_caps.
Qed.

End GlobFacts.

(** * What a character class means

    The dash-splitting routine behind [\[a-c\]] is an index loop over chunks, a
    backward merge and a token pass. Here a class is written from its items, and
    the parsed class is shown to hold exactly the members those items name. *)

Module GlobClass.

#[local] Open Scope Z_scope.

Inductive item : Type :=
  | Single (c : char)
  | Range (lo hi : char).

Definition item_text (it : item) : str :=
  match it with Single c => [c] | Range lo hi => [lo; chr "-"; hi] end.

Definition items_text (its : list item) : str := flat_map item_text its.

Definition item_has (c : char) (it : item) : bool :=
  match it with Single d => c =? d | Range lo hi => in_range lo hi c end.

Definition plain (c : char) : bool := negb (c =? chr "-") && negb (c =? chr "]").

Definition item_ok (it : item) : bool :=
  match it with
  | Single c => plain c
  | Range lo hi => plain lo && plain hi && (lo <=? hi)
  end.

(** ** The chunks a dash cuts the text into *)

Fixpoint chunks_of (cur : str) (its : list item) : list str :=
  match its with
  | [] => [cur]
  | Single c :: r => chunks_of (cur ++ [c]) r
  | Range lo hi :: r => (cur ++ [lo]) :: chunks_of [hi] r
  end.

Definition no_dash (s : str) : bool := all_chars (λ c, negb (c =? chr "-")) s.

Lemma no_dash_app a b : no_dash (a ++ b) = no_dash a && no_dash b.
Proof. apply all_chars_app. Qed.

Lemma run_length_all p s : all_chars p s = true → run_length p s = length s.
Proof.
  induction s as [|c s IH]; [done|]. cbn. intros H. apply andb_true_iff in H as [-> H].
  by rewrite IH.
Qed.

Lemma run_length_stop p a c b :
  all_chars p a = true → p c = false → run_length p (a ++ c :: b) = length a.
Proof.
  intros Ha Hc. induction a as [|d a IH]; cbn in *; [by rewrite Hc|].
  apply andb_true_iff in Ha as [-> Ha]. by rewrite IH.
Qed.

Lemma all_chars_drop p n s : all_chars p s = true → all_chars p (drop n s) = true.
Proof.
  revert n. induction s as [|c s IH]; intros [|n] H; cbn in *; try done.
  apply IH. by apply andb_true_iff in H as [_ ?].
Qed.

Lemma find_dash_hit pre a b k :
  (length pre ≤ k ≤ length pre + length a)%nat → no_dash a = true →
  find_from (chr "-") k (pre ++ a ++ chr "-" :: b) = Some (length pre + length a)%nat.
Proof.
  intros Hk Ha. unfold find_from, scan.
  rewrite drop_app_ge, drop_app_le by lia.
  rewrite run_length_stop; [|by apply all_chars_drop|by rewrite Z.eqb_refl].
  rewrite length_drop.
  replace (k + (length a - (k - length pre)))%nat with (length pre + length a)%nat by lia.
  destruct (Nat.ltb_spec (length pre + length a) (length (pre ++ a ++ chr "-" :: b)));
    [done|].
  rewrite !length_app in *; cbn in *; lia.
Qed.

Lemma find_dash_miss pre a k :
  (length pre ≤ k)%nat → no_dash a = true → find_from (chr "-") k (pre ++ a) = None.
Proof.
  intros Hk Ha. unfold find_from, scan. rewrite drop_app_ge by lia.
  rewrite run_length_all by (by apply all_chars_drop). rewrite length_drop, length_app.
  destruct (Nat.ltb_spec (k + (length a - (k - length pre))) (length pre + length a));
    [lia|done].
Qed.

Lemma plain_no_dash c : plain c = true → no_dash [c] = true.
Proof. unfold plain. cbn. by intros [-> _]%andb_true_iff. Qed.

(** The loop state between two items: [cur] is the chunk being collected, and the
    next dash is looked for no further than one past it. *)
Lemma dash_chunks_items its : ∀ fuel pre cur k acc,
  forallb item_ok its = true → no_dash cur = true → (its ≠ [] ∨ cur ≠ []) →
  (length pre ≤ k ≤ length pre + length cur + 1)%nat →
  (length cur + length (items_text its) < fuel + 1)%nat →
  let stuff := pre ++ cur ++ items_text its in
  let '(chunks, start) := dash_chunks fuel stuff (length pre) k acc in
  close_chunks stuff chunks start = acc ++ chunks_of cur its.
Proof.
  induction its as [|[c|lo hi] its IH]; intros fuel pre cur k acc Hok Hcur Hne Hk Hf stuff.
  - destruct Hne as [?|Hne]; [done|]. unfold stuff. cbn [items_text flat_map].
    rewrite app_nil_r.
    assert (dash_chunks fuel (pre ++ cur) (length pre) k acc = (acc, length pre)) as ->.
    { destruct fuel; [done|]. cbn [dash_chunks]. rewrite find_dash_miss; [done|lia|done]. }
    unfold close_chunks. rewrite length_app.
    destruct (Nat.ltb_spec (length pre) (length pre + length cur)) as [|H].
    + by rewrite drop_app_length.
    + destruct cur; [done|cbn in H; lia].
  - cbn in Hok. apply andb_true_iff in Hok as [Hc Hok].
    specialize (IH fuel pre (cur ++ [c]) k acc). revert IH. unfold stuff.
    cbn [items_text flat_map item_text]. rewrite <- (app_assoc cur [c]). cbn [app chunks_of].
    cbn in Hf. intros IH. apply IH; [done| |by right; destruct cur|..].
    + by rewrite no_dash_app, Hcur, plain_no_dash.
    + rewrite length_app. cbn. lia.
    + rewrite length_app. cbn. unfold items_text. lia.
  - cbn in Hok. apply andb_true_iff in Hok as [Hr Hok].
    apply andb_true_iff in Hr as [[Hlo Hhi]%andb_true_iff _].
    destruct fuel as [|fuel]; [cbn in Hf; lia|].
    unfold stuff. cbn [items_text flat_map item_text chunks_of].
    replace (pre ++ cur ++ [lo; chr "-"; hi] ++ flat_map item_text its)
      with (pre ++ (cur ++ [lo]) ++ chr "-" :: hi :: items_text its)
      by (rewrite <- !app_assoc; done).
    cbn [dash_chunks]. rewrite find_dash_hit;
      [|rewrite length_app; cbn; lia|by rewrite no_dash_app, Hcur, plain_no_dash].
    unfold slice. rewrite drop_app_length, take_app_length' by lia.
    specialize (IH fuel (pre ++ (cur ++ [lo]) ++ [chr "-"]) [hi]
                  (length pre + length (cur ++ [lo]) + 3)%nat (acc ++ [cur ++ [lo]])).
    revert IH. rewrite <- !(app_assoc pre), <- !(app_assoc (cur ++ [lo])).
    cbn [app]. rewrite !length_app. cbn [length].
    replace (length pre + (length cur + 1 + 1))%nat
      with (length pre + (length cur + 1) + 1)%nat by lia.
    intros IH. rewrite <- (app_assoc acc) in IH. cbn [app] in IH.
    cbn in Hf. apply IH; [done|by apply plain_no_dash|by right|lia|].
    unfold items_text. lia.
Qed.

(** ** The backward merge leaves ordered chunks alone *)

Definition ordered (chunks : list str) : Prop :=
  ∀ i lo hi, chunks !! i = Some lo → chunks !! S i = Some hi →
    ∃ e f, last lo = Some e ∧ head hi = Some f ∧ e ≤ f.

Lemma merge_chunks_ordered k chunks : ordered chunks → merge_chunks k chunks = chunks.
Proof.
  intros Ho. induction k as [|[|i] IH]; [done..|]. cbn [merge_chunks].
  destruct (chunks !! i) as [lo|] eqn:Hi; [|done].
  destruct (chunks !! S i) as [hi|] eqn:Hj; [|done].
  destruct (Ho _ _ _ Hi Hj) as (e & f & -> & -> & Hle).
  rewrite Z.gtb_ltb. by destruct (Z.ltb_spec f e); [lia|].
Qed.

Lemma chunks_of_head its cur c : head cur = Some c →
  ∃ w ws, chunks_of cur its = w :: ws ∧ head w = Some c.
Proof.
  revert cur. induction its as [|[d|lo hi] its IH]; intros cur Hc; cbn.
  - by exists cur, [].
  - apply IH. destruct cur; [done|]. exact Hc.
  - exists (cur ++ [lo]), (chunks_of [hi] its). by destruct cur.
Qed.

Lemma chunks_of_ordered its cur : forallb item_ok its = true → ordered (chunks_of cur its).
Proof.
  revert cur. induction its as [|[c|lo hi] its IH]; intros cur Hok; cbn in Hok |- *.
  - intros [|i] a b; cbn; by rewrite ?lookup_nil.
  - apply andb_true_iff in Hok as [_ Hok]. by apply IH.
  - apply andb_true_iff in Hok as [[_ Hle]%andb_true_iff Hok]. apply Z.leb_le in Hle.
    intros [|i] a b; cbn; [|by apply IH].
    destruct (chunks_of_head its [hi] hi eq_refl) as (w & ws & -> & Hw).
    intros [= <-] [= <-]. exists lo, hi. by rewrite last_snoc.
Qed.

(** ** The token pass *)

Definition item_tokens (it : item) : list (char * bool) :=
  match it with
  | Single c => [(c, false)]
  | Range lo hi => [(lo, false); (chr "-", true); (hi, false)]
  end.

Lemma chunk_tokens_of its : ∀ cur first,
  chunk_tokens first (chunks_of cur its)
  = (if first then [] else [(chr "-", true)])
    ++ map (λ c, (c, false)) cur ++ flat_map item_tokens its.
Proof.
  induction its as [|[c|lo hi] its IH]; intros cur first; cbn.
  - done.
  - rewrite IH, map_app, <- !app_assoc. done.
  - rewrite IH, map_app, <- !app_assoc. done.
Qed.

Definition item_single (it : item) : list char :=
  match it with Single c => [c] | Range _ _ => [] end.
Definition item_range (it : item) : list (char * char) :=
  match it with Single _ => [] | Range lo hi => [(lo, hi)] end.

Lemma class_of_item_tokens its :
  class_of_tokens (flat_map item_tokens its)
  = (flat_map item_single its, flat_map item_range its).
Proof.
  induction its as [|[c|lo hi] its IH]; [done| |].
  - cbn [flat_map item_tokens item_single item_range app].
    transitivity (let '(ss, rs) := class_of_tokens (flat_map item_tokens its) in
                  (c :: ss, rs)); [|by rewrite IH].
    destruct its as [|[d|lo hi] its]; done.
  - cbn [flat_map item_tokens item_single item_range app class_of_tokens].
    by rewrite IH.
Qed.

Lemma contains_items neg its c :
  contains {| negated := neg; singles := flat_map item_single its;
              ranges := flat_map item_range its |} c
  = xorb (existsb (item_has c) its) neg.
Proof.
  unfold contains. cbn [singles ranges negated]. f_equal.
  induction its as [|[d|lo hi] its IH]; [done|..]; cbn; rewrite <- IH.
  - by rewrite orb_assoc.
  - unfold in_range. rewrite !orb_assoc. f_equal. apply orb_comm.
Qed.

(** ** The whole class *)

(** A class that opens with [!] when not negated would be read as negated. *)
Definition opens_plain (its : list item) : bool :=
  match items_text its with c :: _ => negb (c =? chr "!") | [] => false end.

Lemma dashed_class_items neg its :
  forallb item_ok its = true → its ≠ [] → neg = true ∨ opens_plain its = true →
  dashed_class neg (items_text its)
  = {| negated := neg; singles := flat_map item_single its;
       ranges := flat_map item_range its |}.
Proof.
  intros Hok Hne Hfirst. unfold dashed_class.
  set (cur := if neg then [chr "!"] else []).
  pose proof (dash_chunks_items its (length (cur ++ items_text its)) [] cur
                (if neg then 2 else 1)%nat []) as H.
  cbn zeta in H. cbn [app length] in H.
  destruct (dash_chunks _ (cur ++ items_text its) 0 _ []) as [chunks start].
  rewrite H; [|done|by destruct neg|by left|by destruct neg; cbn; lia|].
  2:{ rewrite length_app. lia. }
  cbn [app].
  rewrite merge_chunks_ordered by (by apply chunks_of_ordered).
  rewrite chunk_tokens_of. cbn [app].
  pose proof (class_of_item_tokens its) as Hct.
  unfold cur. destruct neg; cbn [map app].
  - rewrite Z.eqb_refl. by rewrite Hct.
  - destruct Hfirst as [?|Hfirst]; [done|]. unfold opens_plain in Hfirst.
    destruct its as [|[c|lo hi] its']; [done|..]; cbn in Hfirst;
      apply negb_true_iff in Hfirst; cbn [flat_map item_tokens app] in Hct |- *;
      rewrite Hfirst; by rewrite Hct.
Qed.

Lemma no_range_items its :
  forallb item_ok its = true → no_dash (items_text its) = true →
  items_text its = flat_map item_single its ∧ flat_map item_range its = [].
Proof.
  induction its as [|[c|lo hi] its IH]; [done|..]; cbn; intros Hok Hd.
  - apply andb_true_iff in Hok as [_ Hok]. apply andb_true_iff in Hd as [_ Hd].
    destruct (IH Hok Hd) as [Ht Hr]. split; [by rewrite <- Ht|done].
  - apply andb_true_iff in Hd as [_ Hd]. by rewrite Z.eqb_refl in Hd.
Qed.

Lemma items_no_close its :
  forallb item_ok its = true → all_chars (λ c, negb (c =? chr "]")) (items_text its) = true.
Proof.
  induction its as [|it its IH]; [done|]. cbn. intros [Hit Hok]%andb_true_iff.
  change (flat_map item_text its) with (items_text its).
  rewrite all_chars_app, IH by done. rewrite andb_true_r.
  destruct it as [c|lo hi]; cbn in *; unfold plain in *.
  - apply andb_true_iff in Hit as [_ ->]. done.
  - apply andb_true_iff in Hit as [[[_ ->]%andb_true_iff [_ ->]%andb_true_iff]%andb_true_iff _].
    done.
Qed.

Lemma no_dash_existsb s : no_dash s = negb (existsb (Z.eqb (chr "-")) s).
Proof.
  induction s as [|c s IH]; [done|]. cbn. fold (no_dash s). rewrite IH, negb_orb.
  f_equal. by rewrite Z.eqb_sym.
Qed.

Lemma is_at_app a c s d : is_at (a ++ c :: s) (length a) d = (c =? d).
Proof.
  unfold is_at. rewrite list_lookup_middle by done.
  case_bool_decide as H; destruct (Z.eqb_spec c d); congruence.
Qed.

(** Where [parse_class] starts reading the body: past the bracket and a [!]. *)
Definition opener (neg : bool) : str := chr "[" :: (if neg then [chr "!"] else []).

(** The body up to the closing bracket, whatever it holds. *)
Lemma parse_class_body neg c t rest :
  all_chars (λ d, negb (d =? chr "]")) (c :: t) = true →
  neg = true ∨ (c =? chr "!") = false →
  parse_class (opener neg ++ (c :: t) ++ chr "]" :: rest) 0
  = Some (if existsb (Z.eqb (chr "-")) (c :: t) then dashed_class neg (c :: t)
          else {| negated := neg; singles := c :: t; ranges := [] |},
          (length (opener neg) + length (c :: t))%nat).
Proof.
  intros Hcl Hfirst.
  assert ((c =? chr "]") = false) as Hc.
  { cbn in Hcl. apply andb_true_iff in Hcl as [H _]. by apply negb_true_iff in H. }
  set (pat := opener neg ++ (c :: t) ++ chr "]" :: rest).
  assert (is_at pat 1 (chr "!") = neg) as Hneg.
  { unfold pat. destruct neg.
    - change (is_at ([chr "["] ++ chr "!" :: (c :: t) ++ chr "]" :: rest)
                (length [chr "["]) (chr "!") = true). by rewrite is_at_app, Z.eqb_refl.
    - change (is_at ([chr "["] ++ c :: t ++ chr "]" :: rest) (length [chr "["]) (chr "!")
              = false). rewrite is_at_app. by destruct Hfirst as [?|Hf]. }
  assert (is_at pat (length (opener neg)) (chr "]") = false) as Hbr.
  { unfold pat. cbn [app]. by rewrite is_at_app, Hc. }
  assert (scan (λ d, negb (d =? chr "]")%Z) pat (length (opener neg))
          = length (opener neg) + length (c :: t))%nat as Hscan.
  { unfold scan, pat.
    by rewrite drop_app_length, run_length_stop by (done || by rewrite Z.eqb_refl). }
  assert (slice (length (opener neg)) (length (opener neg) + length (c :: t)) pat = c :: t)
    as Hslice.
  { unfold slice, pat. by rewrite drop_app_length, take_app_length' by lia. }
  unfold parse_class. change (0 + 1)%nat with 1%nat. rewrite Hneg.
  replace (if neg then (1 + 1)%nat else 1%nat) with (length (opener neg)) by (by destruct neg).
  rewrite Hbr, Hscan, Hslice, bool_decide_eq_false_2 by done.
  destruct (Nat.leb_spec (length pat) (length (opener neg) + length (c :: t))) as [H|_].
  { unfold pat in H. rewrite !length_app in H. cbn in H. lia. }
  by destruct (existsb _ _).
Qed.

(** The text of a class, from its items. *)
Definition class_text (neg : bool) (its : list item) : str :=
  opener neg ++ items_text its ++ [chr "]"].

Lemma parse_class_items neg its rest :
  forallb item_ok its = true → its ≠ [] → neg = true ∨ opens_plain its = true →
  parse_class (class_text neg its ++ rest) 0
  = Some ({| negated := neg; singles := flat_map item_single its;
             ranges := flat_map item_range its |},
          (length (class_text neg its) - 1)%nat).
Proof.
  intros Hok Hne Hfirst.
  assert (∃ c t, items_text its = c :: t) as (c & t & Et).
  { destruct its as [|[c|lo hi] its]; [done|..]; cbn; eauto. }
  assert (class_text neg its ++ rest = opener neg ++ (c :: t) ++ chr "]" :: rest) as ->.
  { unfold class_text. rewrite Et, <- !app_assoc. done. }
  rewrite parse_class_body; [|by rewrite <- Et; apply items_no_close|].
  2:{ destruct Hfirst as [?|Hf]; [by left|right]. unfold opens_plain in Hf.
      rewrite Et in Hf. by apply negb_true_iff in Hf. }
  unfold class_text. rewrite !length_app, <- Et. cbn [length]. f_equal. f_equal; [|lia].
  destruct (existsb (Z.eqb (chr "-")) (items_text its)) eqn:Hd.
  - by rewrite dashed_class_items.
  - destruct (no_range_items its Hok) as [<- ->]; [by rewrite no_dash_existsb, Hd|done].
Qed.

(** ** Property *)

(** a bracket class means its items. Written as single members and forward
    ranges, with [!] in front or not, it parses to a class that ends at its own
    bracket and that contains exactly the characters some item names, or exactly
    the others when negated. *)
Theorem class_means_its_items neg its rest :
  forallb item_ok its = true → its ≠ [] → neg = true ∨ opens_plain its = true →
  ∃ cls, parse_class (class_text neg its ++ rest) 0
         = Some (cls, (length (class_text neg its) - 1)%nat)
         ∧ ∀ c, contains cls c = xorb (existsb (item_has c) its) neg.
Proof.
  intros Hok Hne Hf. eexists. split; [by apply parse_class_items|]. apply contains_items.
Qed.

Lemma class_means_its_items_witness :
  ∃ cls, parse_class (class_text true [Range 97 102; Single 95; Range 48 57] ++ lit "*.rs") 0
         = Some (cls, 9%nat)
         ∧ ∀ c, contains cls c
                = xorb (existsb (item_has c) [Range 97 102; Single 95; Range 48 57]) true.
Proof.
  apply (class_means_its_items true [Range 97 102; Single 95; Range 48 57] (lit "*.rs"));
    [reflexivity|discriminate|left; reflexivity].
Defined.

End GlobClass.
