(* ===== verification/Diff.v ===== *)
(** * The unified-diff parser: [rust/dc-verify/src/lib.rs]

    [parse_unified] is a fold of [step] over the lines of the diff. A step returns
    the next parser state or the [ParseError] the code returns, and [finish] makes
    the checks the code makes after its loop. *)

From S2P Require Import Prelude RustStr.

#[local] Open Scope Z_scope.

Module Diff.

(** ** Data *)

Inductive ChangeStatus : Type := Added | Modified | Deleted | Renamed.

#[export] Instance ChangeStatus_eq_dec : EqDecision ChangeStatus.
Proof. solve_decision. Defined.

Record FileDiff := {
  path : str;
  old_path : option str;
  status : ChangeStatus;
  added_lines : list (Z * str);
  removed_lines : list str;
}.

Definition added_line_numbers (f : FileDiff) : list Z := map fst (added_lines f).

(** [u32::try_from(len).unwrap_or(u32::MAX)]. *)
Definition removed_count (f : FileDiff) : Z :=
  let n := Z.of_nat (length (removed_lines f)) in
  if n <=? u32_max then n else u32_max.

Record ParseError := {
  line_number : nat;
  line : str;
  reason : string;
}.

(** Field updates of the mutable [FileDiff] the parser is filling. *)
Definition set_path (p : str) (f : FileDiff) : FileDiff :=
  {| path := p; old_path := old_path f; status := status f;
     added_lines := added_lines f; removed_lines := removed_lines f |}.
Definition set_old_path (o : option str) (f : FileDiff) : FileDiff :=
  {| path := path f; old_path := o; status := status f;
     added_lines := added_lines f; removed_lines := removed_lines f |}.
Definition set_status (s : ChangeStatus) (f : FileDiff) : FileDiff :=
  {| path := path f; old_path := old_path f; status := s;
     added_lines := added_lines f; removed_lines := removed_lines f |}.
Definition push_added (n : Z) (s : str) (f : FileDiff) : FileDiff :=
  {| path := path f; old_path := old_path f; status := status f;
     added_lines := added_lines f ++ [(n, s)]; removed_lines := removed_lines f |}.
Definition push_removed (s : str) (f : FileDiff) : FileDiff :=
  {| path := path f; old_path := old_path f; status := status f;
     added_lines := added_lines f; removed_lines := removed_lines f ++ [s] |}.

(** ** Paths *)

Definition is_octal (b : Z) : bool := in_range 48 55 b.

(** The escape a backslash introduces, other than an octal one. *)
Definition simple_escape (b : Z) : Z :=
  if b =? chr "a" then 7
  else if b =? chr "b" then 8
  else if b =? chr "f" then 12
  else if b =? chr "n" then 10
  else if b =? chr "r" then 13
  else if b =? chr "t" then 9
  else if b =? chr "v" then 11
  else b.

Definition backslash : Z := 92.
Definition dquote : Z := 34.

(** The byte loop of [unquote_path], after the opening quote. *)
Fixpoint unquote_bytes (bs : list Z) : list Z :=
  match bs with
  | [] => []
  | b :: r =>
      if b =? dquote then []
      else if b =? backslash then
        match r with
        | [] => [b]
        | d :: r1 =>
            if is_octal d then
              match r1 with
              | e :: r2 =>
                  if is_octal e then
                    match r2 with
                    | g :: r3 =>
                        if is_octal g then
                          Z.land (((d - 48) * 8 + (e - 48)) * 8 + (g - 48)) 255
                            :: unquote_bytes r3
                        else Z.land ((d - 48) * 8 + (e - 48)) 255 :: unquote_bytes r2
                    | [] => [Z.land ((d - 48) * 8 + (e - 48)) 255]
                    end
                  else Z.land (d - 48) 255 :: unquote_bytes r1
              | [] => [Z.land (d - 48) 255]
              end
            else simple_escape d :: unquote_bytes r1
        end
      else b :: unquote_bytes r
  end.

Definition unquote_path (raw : str) : str :=
  let raw := trim_end_by (Z.eqb cr) raw in
  match strip_prefix [dquote] raw with
  | None => match split_on (Z.eqb 9) raw with w :: _ => w | [] => raw end
  | Some body => utf8_lossy (unquote_bytes (utf8_encode body))
  end.

(** The scan of [quoted_token_end] from byte [i] on. *)
Fixpoint quote_close (bs : list Z) (i : nat) : option nat :=
  match bs with
  | [] => None
  | b :: r =>
      if b =? backslash then
        match r with [] => None | _ :: r' => quote_close r' (i + 2) end
      else if b =? dquote then Some (i + 1)%nat
      else quote_close r (i + 1)
  end.

Definition quoted_token_end (s : str) : option nat :=
  match utf8_encode s with
  | b :: r => if b =? dquote then quote_close r 1 else None
  | [] => None
  end.

Definition strip_marker (p : str) : str :=
  match strip_prefix (lit "a/") p with
  | Some rest => rest
  | None => match strip_prefix (lit "b/") p with Some rest => rest | None => p end
  end.

Definition strip_prefix_marker (p : str) : str := strip_marker (unquote_path p).

(** The search for where a quoted last token opens; [s] is what is left of the
    header, and every turn drops at least one character of it. *)
Fixpoint quoted_tail (fuel : nat) (s : str) : option str :=
  match fuel with
  | O => None
  | S f =>
      match find_split [chr " "; dquote] s with
      | Some (_, _ :: open) =>
          if bool_decide (quoted_token_end open = Some (Z.to_nat (str_len open))) then
            Some (strip_marker (unquote_path open))
          else quoted_tail f open
      | _ => None
      end
  end.

(** The split of [a/P b/P]: five bytes of markers around two copies of [P]. *)
Definition equal_names (rest : str) : option str :=
  let inner := str_len rest - 5 in
  if inner <? 0 then None
  else if inner mod 2 =? 0 then
    let half := inner / 2 in
    let! name := get_range 2 (2 + half) rest in
    let! tail := get_from (2 + half) rest in
    if starts_with (lit "a/") rest && bool_decide (tail = lit " b/" ++ name)
    then Some name else None
  else None.

Definition git_header_path (rest : str) : option str :=
  match quoted_token_end rest with
  | Some e =>
      let! tail := get_from (Z.of_nat e) rest in
      let! second := strip_prefix (lit " ") tail in
      Some (strip_marker (unquote_path second))
  | None =>
      if ends_with [dquote] rest then quoted_tail (S (length rest)) rest
      else match equal_names rest with
           | Some name => Some name
           | None =>
               match rfind_split (lit " b/") rest with
               | Some (_, tail) => Some (drop 3 tail)
               | None =>
                   match split_whitespace rest with
                   | _ :: b :: _ => Some (strip_marker b)
                   | _ => None
                   end
               end
           end
  end.

(** ** Hunk headers *)

Record Hunk := { new_start : Z; new_count : Z; old_count : Z }.

Definition MAX_HUNK_VALUE : Z := 1000000000.

Definition split_range (spec : str) : option (Z * Z) :=
  let! (start, count) :=
    match split_once (chr ",") spec with
    | Some (a, b) => let! s := parse_u32 a in let! c := parse_u32 b in Some (s, c)
    | None => let! s := parse_u32 spec in Some (s, 1)
    end in
  if (start >? MAX_HUNK_VALUE) || (count >? MAX_HUNK_VALUE) then None
  else Some (start, count).

Definition parse_hunk_header (l : str) : option Hunk :=
  let! body := strip_prefix (lit "@@") l in
  let! (inside, _) := find_split (lit "@@") body in
  match split_whitespace inside with
  | o :: n :: _ =>
      let! old := strip_prefix (lit "-") o in
      let! new := strip_prefix (lit "+") n in
      let! (_, oc) := split_range old in
      let! (ns, nc) := split_range new in
      Some {| new_start := ns; new_count := nc; old_count := oc |}
  | _ => None
  end.

(** [line.checked_add(1)] at [u32]. *)
Definition bump_line (n : Z) (lineno : nat) (raw : str) : result Z ParseError :=
  if n + 1 <=? u32_max then Ok (n + 1)
  else Err {| line_number := lineno; line := raw;
              reason := "line number overflowed while walking the hunk" |}.

(** ** The parser's state *)

Record State := {
  files : list FileDiff;
  current : option FileDiff;
  new_line : Z;
  new_remaining : Z;
  old_remaining : Z;
  in_hunk : bool;
  pending_rename_from : option str;
  prev_hunk_end : Z;
  saw_content : bool;
}.

Definition init : State :=
  {| files := []; current := None; new_line := 0; new_remaining := 0;
     old_remaining := 0; in_hunk := false; pending_rename_from := None;
     prev_hunk_end := 0; saw_content := false |}.

(** The file being filled is replaced; everything else stays. *)
Definition with_file (f : FileDiff) (st : State) : State :=
  {| files := files st; current := Some f; new_line := new_line st;
     new_remaining := new_remaining st; old_remaining := old_remaining st;
     in_hunk := in_hunk st; pending_rename_from := pending_rename_from st;
     prev_hunk_end := prev_hunk_end st; saw_content := saw_content st |}.

Definition with_pending (p : option str) (st : State) : State :=
  {| files := files st; current := current st; new_line := new_line st;
     new_remaining := new_remaining st; old_remaining := old_remaining st;
     in_hunk := in_hunk st; pending_rename_from := p;
     prev_hunk_end := prev_hunk_end st; saw_content := saw_content st |}.

Definition with_counters (nl nr orem : Z) (st : State) : State :=
  {| files := files st; current := current st; new_line := nl;
     new_remaining := nr; old_remaining := orem;
     in_hunk := in_hunk st; pending_rename_from := pending_rename_from st;
     prev_hunk_end := prev_hunk_end st; saw_content := saw_content st |}.

Definition err {A} (lineno : nat) (raw : str) (why : string) : result A ParseError :=
  Err {| line_number := lineno; line := raw; reason := why |}.

(** The [finish_hunk!] macro. *)
Definition finish_hunk (lineno : nat) (st : State) : result unit ParseError :=
  if negb (new_remaining st =? 0) || negb (old_remaining st =? 0) then
    err lineno [] "hunk ended before its declared line count"
  else Ok tt.

Definition close_file (st : State) : list FileDiff :=
  match current st with Some f => files st ++ [f] | None => files st end.

(** A [diff --git] line. *)
Definition file_header (lineno : nat) (raw rest : str) (st : State)
    : result State ParseError :=
  let? _ := finish_hunk (lineno - 1) st in
  let? p := ok_or (git_header_path rest)
              {| line_number := lineno; line := raw;
                 reason := "unreadable `diff --git` header" |} in
  Ok {| files := close_file st;
        current := Some {| path := p; old_path := None; status := Modified;
                           added_lines := []; removed_lines := [] |};
        new_line := new_line st; new_remaining := new_remaining st;
        old_remaining := old_remaining st; in_hunk := false;
        pending_rename_from := None; prev_hunk_end := 0;
        saw_content := saw_content st |}.

(** The extended header lines, recognised only outside a hunk. [None] when the
    line is none of them. *)
Definition extended_header (raw : str) (f : FileDiff) (st : State) : option State :=
  match strip_prefix (lit "rename from ") raw with
  | Some rest => Some (with_pending (Some (unquote_path rest)) st)
  | None =>
  match strip_prefix (lit "rename to ") raw with
  | Some rest =>
      Some (with_pending None
              (with_file (set_path (unquote_path rest)
                            (set_old_path (pending_rename_from st)
                               (set_status Renamed f))) st))
  | None =>
  if starts_with (lit "copy from ") raw then Some st
  else
  match strip_prefix (lit "copy to ") raw with
  | Some rest => Some (with_file (set_path (unquote_path rest) f) st)
  | None =>
  if starts_with (lit "new file mode") raw then Some (with_file (set_status Added f) st)
  else if starts_with (lit "deleted file mode") raw then
    Some (with_file (set_status Deleted f) st)
  else
  match strip_prefix (lit "--- ") raw with
  | Some rest =>
      Some (if bool_decide (rest = lit "/dev/null")
            then with_file (set_status Added f) st else st)
  | None =>
  match strip_prefix (lit "+++ ") raw with
  | Some rest =>
      Some (if bool_decide (rest = lit "/dev/null")
            then with_file (set_status Deleted f) st
            else with_file (set_path (strip_prefix_marker rest) f) st)
  | None => None
  end end end end end.

(** A [@@] line. *)
Definition hunk_header (lineno : nat) (raw : str) (st : State)
    : result State ParseError :=
  let? _ := finish_hunk (lineno - 1) st in
  let? h := ok_or (parse_hunk_header raw)
              {| line_number := lineno; line := raw;
                 reason := "malformed hunk header" |} in
  if new_start h <? prev_hunk_end st then
    err lineno raw "hunk overlaps the previous hunk of the same file"
  else
    Ok {| files := files st; current := current st; new_line := new_start h;
          new_remaining := new_count h; old_remaining := old_count h;
          in_hunk := true; pending_rename_from := pending_rename_from st;
          prev_hunk_end := new_start h + new_count h;
          saw_content := saw_content st |}.

(** A line that advances both sides: a space, or nothing at all. *)
Definition context_line (lineno : nat) (raw : str) (st : State)
    : result State ParseError :=
  if (new_remaining st =? 0) || (old_remaining st =? 0) then
    err lineno raw "context line beyond the counts the hunk header declared"
  else
    let? bumped := bump_line (new_line st) lineno raw in
    Ok (with_counters bumped (new_remaining st - 1) (old_remaining st - 1) st).

(** A line inside a hunk, by its first character. *)
Definition body_line (lineno : nat) (raw : str) (f : FileDiff) (st : State)
    : result State ParseError :=
  match raw with
  | [] => context_line lineno raw st
  | c :: rest =>
      if c =? chr "+" then
        if new_remaining st =? 0 then
          err lineno raw "body line beyond the count the hunk header declared"
        else
          let? bumped := bump_line (new_line st) lineno raw in
          Ok (with_counters bumped (new_remaining st - 1) (old_remaining st)
                (with_file (push_added (new_line st) rest f) st))
      else if c =? chr "-" then
        if old_remaining st =? 0 then
          err lineno raw "body line beyond the count the hunk header declared"
        else
          Ok (with_counters (new_line st) (new_remaining st) (old_remaining st - 1)
                (with_file (push_removed rest f) st))
      else if c =? chr " " then context_line lineno raw st
      else if c =? backslash then Ok st
      else err lineno raw "unrecognised line inside a hunk"
  end.

(** One turn of the loop of [parse_unified]. *)
Definition step (lineno : nat) (raw : str) (st : State) : result State ParseError :=
  match strip_prefix (lit "diff --git ") raw with
  | Some rest => file_header lineno raw rest st
  | None =>
      match current st with
      | None =>
          (* Preamble before the first file. *)
          Ok (if bool_decide (trim raw = []) then st
              else {| files := files st; current := current st;
                      new_line := new_line st; new_remaining := new_remaining st;
                      old_remaining := old_remaining st; in_hunk := in_hunk st;
                      pending_rename_from := pending_rename_from st;
                      prev_hunk_end := prev_hunk_end st; saw_content := true |})
      | Some f =>
          match (if in_hunk st then None else extended_header raw f st) with
          | Some st' => Ok st'
          | None =>
              if starts_with (lit "@@") raw then hunk_header lineno raw st
              else if in_hunk st then body_line lineno raw f st
              else Ok st
          end
      end
  end.

Fixpoint parse_lines (lineno : nat) (ls : list str) (st : State)
    : result State ParseError :=
  match ls with
  | [] => Ok st
  | raw :: ls' =>
      let? st' := step lineno raw st in
      parse_lines (lineno + 1) ls' st'
  end.

(** ** Every changed path, and the structure git never writes *)

Definition rename_source (f : FileDiff) : list str :=
  match status f, old_path f with
  | Renamed, Some old => if bool_decide (old = path f) then [] else [old]
  | _, _ => []
  end.

Definition changed_paths (fs : list FileDiff) : list str :=
  flat_map (λ f, path f :: rename_source f) fs.

(** The [HashSet] walk over the paths: the first one already seen. *)
Fixpoint first_repeat (seen : list str) (ps : list str) : option str :=
  match ps with
  | [] => None
  | p :: ps' =>
      let '(new, seen') := set_insert p seen in
      if new then first_repeat seen' ps' else Some p
  end.

Definition deleted_with_additions (f : FileDiff) : bool :=
  bool_decide (status f = Deleted) && negb (bool_decide (added_lines f = [])).

Definition reject_impossible (fs : list FileDiff) : result unit ParseError :=
  match List.find deleted_with_additions fs with
  | Some f => err 0 (path f) "a deleted file carries added lines"
  | None =>
      match first_repeat [] (changed_paths fs) with
      | Some p => err 0 p "one path appears more than once in the diff"
      | None => Ok tt
      end
  end.

(** What follows the loop. *)
Definition finish (all : list str) (st : State) : result (list FileDiff) ParseError :=
  let? _ := finish_hunk (length all) st in
  let fs := close_file st in
  let? _ := reject_impossible fs in
  if bool_decide (fs = []) && saw_content st then
    err 1 (default [] (head all))
      "input contains content but no `diff --git` header; this is not a unified diff"
  else Ok fs.

Definition parse_all (ls : list str) : result (list FileDiff) ParseError :=
  let? st := parse_lines 1 ls init in
  finish ls st.

Definition parse_unified (diff : str) : result (list FileDiff) ParseError :=
  parse_all (lines diff).

End Diff.
