(* ===== verification/DiffFacts.v ===== *)
(** * The diff parser inverts git's rendering and rejects what git never writes

    [DiffQuote] is how git quotes a name; [DiffFacts] renders a change as git does and
    reads it back; [DiffInv] is the invariant of the parser. *)

From S2P Require Import Prelude RustStr RustStrFacts Diff.
Import Diff.

#[local] Open Scope Z_scope.

Module DiffQuote.

(** Division by constants, for the octal digits and the UTF-8 bytes. *)
Ltac Zify.zify_post_hook ::= Z.to_euclidean_division_equations.

(** ** git's writer *)

Definition named_escape (b : Z) : option Z :=
  if b =? 7 then Some (chr "a")
  else if b =? 8 then Some (chr "b")
  else if b =? 12 then Some (chr "f")
  else if b =? 10 then Some (chr "n")
  else if b =? 13 then Some (chr "r")
  else if b =? 9 then Some (chr "t")
  else if b =? 11 then Some (chr "v")
  else if b =? dquote then Some dquote
  else if b =? backslash then Some backslash
  else None.

Definition octal_escape (b : Z) : list Z :=
  [backslash; 48 + b / 64; 48 + b / 8 mod 8; 48 + b mod 8].

Section Quoting.

(** [core.quotePath]: whether the bytes above ASCII are escaped too. *)
Variable quote_path : bool.

(** A byte that does not stand as it is. *)
Definition escaped (b : Z) : bool := (b <? 32) || (b =? 127) || (b =? dquote) || (b =? backslash) || quote_path && (128 <=? b).

Definition c_quote_byte (b : Z) : list Z :=
  match named_escape b with
  | Some e => [backslash; e]
  | None => if escaped b then octal_escape b else [b]
  end.

Definition c_quote_bytes (bs : list Z) : list Z := flat_map c_quote_byte bs.

(** A character in quotes: escaped by its bytes, or as it is. *)
Definition c_quote_char (c : char) : str :=
  if (c <? 128) || quote_path then c_quote_bytes (utf8_encode_char c) else [c].

(** A name as git quotes it. *)
Definition c_quote (s : str) : str := dquote :: flat_map c_quote_char s ++ [dquote].

(** Whether git quotes a name, and a name behind its marker as git writes it. *)
Definition must_quote (s : str) : bool := existsb escaped s.
Definition git_name (marker p : str) : str := if must_quote p then c_quote (marker ++ p) else marker ++ p.

Definition is_byte (b : Z) : bool := in_range 0 255 b.

(** ** Its bytes *)

Lemma utf8_char_bytes c :
  is_scalar c = true →
  all_chars is_byte (utf8_encode_char c) = true
  ∧ (c < 128 → utf8_encode_char c = [c]) ∧ (128 ≤ c → all_chars (λ b, 128 <=? b) (utf8_encode_char c) = true).
Proof.
  intros Hc. unfold is_scalar in Hc. apply orb_true_iff in Hc. rewrite !in_range_spec in Hc.
  unfold utf8_encode_char, is_byte. split; [|split].
  - repeat case_if; bool_to_prop; cbn; rewrite ?andb_true_r, ?andb_true_iff, !in_range_spec; repeat split; lia.
  - intros H. by rewrite (proj2 (Z.ltb_lt c 128)).
  - intros H. rewrite (proj2 (Z.ltb_ge c 128)) by done.
    repeat case_if; bool_to_prop; cbn; rewrite ?andb_true_r, ?andb_true_iff, !Z.leb_le; repeat split; lia.
Qed.

Lemma utf8_encode_bytes s :
  all_chars is_scalar s = true → all_chars is_byte (utf8_encode s) = true.
Proof.
  induction s as [|c s IH]; [done|]. cbn [forallb]. intros [Hc Hs]%andb_true_iff.
  change (utf8_encode (c :: s)) with (utf8_encode_char c ++ utf8_encode s).
  rewrite all_chars_app, IH by done. rewrite andb_true_r. by apply utf8_char_bytes.
Qed.

Lemma c_quote_byte_ascii b :
  is_byte b = true → (b < 128 ∨ quote_path = true) → all_chars (λ c, c <? 128) (c_quote_byte b) = true.
Proof.
  intros Hb Hq. unfold is_byte in Hb. rewrite in_range_spec in Hb.
  unfold c_quote_byte, named_escape, escaped, octal_escape.
  repeat case_if; try reflexivity; bool_to_prop; cbn [forallb]; rewrite ?andb_true_iff, ?Z.ltb_lt; repeat split; try lia.
  destruct Hq as [?| ->]; [done|]. cbn in *. bool_to_prop. lia.
Qed.

Lemma c_quote_bytes_ascii bs :
  all_chars is_byte bs = true → (all_chars (λ b, b <? 128) bs = true ∨ quote_path = true) →
  all_chars (λ c, c <? 128) (c_quote_bytes bs) = true.
Proof.
  induction bs as [|b bs IH]; [done|]. cbn [forallb c_quote_bytes flat_map].
  intros [Hb Hbs]%andb_true_iff Hq. rewrite all_chars_app, c_quote_byte_ascii; [|done|].
  - apply IH; [done|]. destruct Hq as [[_ ?]%andb_true_iff|?]; [by left|by right].
  - destruct Hq as [[?%Z.ltb_lt _]%andb_true_iff|?]; [by left|by right].
Qed.

Lemma raw_high_byte b : 128 ≤ b → quote_path = false → c_quote_byte b = [b].
Proof.
  intros Hb Hq. unfold c_quote_byte, named_escape, escaped. rewrite Hq. unfold dquote, backslash.
  by repeat (case_if; [bool_to_prop; lia|]); destruct (b <? 32) eqn:E1, (b =? 127) eqn:E2, (b =? 34) eqn:E3, (b =? 92) eqn:E4;
    bool_to_prop; try lia.
Qed.

(** The bytes of a quoted character are its bytes, quoted. *)
Lemma c_quote_char_bytes c : is_scalar c = true → utf8_encode (c_quote_char c) = c_quote_bytes (utf8_encode_char c).
Proof.
  intros Hc. destruct (utf8_char_bytes c Hc) as (Hbytes & Hlow & Hhigh). unfold c_quote_char.
  destruct (Z.ltb_spec c 128) as [Hlt|Hge]; cbn [orb].
  - apply utf8_encode_ascii, c_quote_bytes_ascii; [done|]. left. rewrite Hlow by done. cbn. by rewrite (proj2 (Z.ltb_lt c 128)).
  - destruct quote_path eqn:Hq; [apply utf8_encode_ascii, c_quote_bytes_ascii; [done|by right]|].
    cbn [utf8_encode flat_map]. rewrite app_nil_r. specialize (Hhigh Hge). revert Hhigh. generalize (utf8_encode_char c). intros bs.
    induction bs as [|b bs IH]; [done|]. cbn [forallb c_quote_bytes flat_map]. intros [Hb%Z.leb_le Hbs]%andb_true_iff.
    rewrite raw_high_byte by done. cbn. f_equal. by apply IH.
Qed.

Lemma c_quote_text_bytes s :
  all_chars is_scalar s = true → utf8_encode (flat_map c_quote_char s) = c_quote_bytes (utf8_encode s).
Proof.
  induction s as [|c s IH]; [done|]. cbn [forallb flat_map]. intros [Hc Hs]%andb_true_iff.
  change (utf8_encode (c :: s)) with (utf8_encode_char c ++ utf8_encode s).
  rewrite utf8_encode_app, c_quote_char_bytes, IH by done. unfold c_quote_bytes. by rewrite flat_map_app.
Qed.

Lemma c_quote_encoded s tail :
  all_chars is_scalar s = true →
  utf8_encode (c_quote s ++ tail) = dquote :: c_quote_bytes (utf8_encode s) ++ dquote :: utf8_encode tail.
Proof.
  intros Hs. unfold c_quote. cbn [app]. rewrite <- app_assoc.
  change (utf8_encode (dquote :: ?x)) with ([dquote] ++ utf8_encode x).
  rewrite utf8_encode_app, c_quote_text_bytes by done. done.
Qed.

(** ** Reading it back *)

Lemma unquote_named b e r :
  named_escape b = Some e → unquote_bytes (backslash :: e :: r) = b :: unquote_bytes r.
Proof.
  unfold named_escape. intros H.
  repeat (case_if_in H; [bool_to_prop; simplify_eq; reflexivity|]). done.
Qed.

Lemma octal_value b : is_byte b = true →
  Z.land ((b / 64 * 8 + b / 8 mod 8) * 8 + b mod 8) 255 = b.
Proof.
  unfold is_byte. rewrite in_range_spec. intros Hb.
  replace ((b / 64 * 8 + b / 8 mod 8) * 8 + b mod 8) with b by lia.
  change 255 with (Z.ones 8). rewrite Z.land_ones by lia. apply Z.mod_small. lia.
Qed.

Lemma unquote_octal b r :
  is_byte b = true → unquote_bytes (octal_escape b ++ r) = b :: unquote_bytes r.
Proof.
  intros Hb. pose proof Hb as Hr. unfold is_byte in Hr. rewrite in_range_spec in Hr.
  assert (∀ d, 0 ≤ d < 8 → is_octal (48 + d) = true) as Ho.
  { intros d Hd. unfold is_octal. apply in_range_spec. lia. }
  cbn [octal_escape app unquote_bytes].
  replace (backslash =? dquote) with false by reflexivity. rewrite Z.eqb_refl.
  rewrite !Ho by lia. f_equal. rewrite <- (octal_value b Hb) at 4. f_equal. lia.
Qed.

Lemma unquote_quoted_byte b r :
  is_byte b = true → unquote_bytes (c_quote_byte b ++ r) = b :: unquote_bytes r.
Proof.
  intros Hb. unfold c_quote_byte. destruct (named_escape b) as [e|] eqn:He.
  - by apply unquote_named.
  - case_if; [by apply unquote_octal|]. cbn [app unquote_bytes].
    destruct (b =? dquote) eqn:E1; [apply Z.eqb_eq in E1 as ->; done|].
    destruct (b =? backslash) eqn:E2; [apply Z.eqb_eq in E2 as ->; done|done].
Qed.

Lemma unquote_c_quote_bytes bs tail :
  all_chars is_byte bs = true → unquote_bytes (c_quote_bytes bs ++ dquote :: tail) = bs.
Proof.
  induction bs as [|b bs IH]; intros H; [done|].
  cbn [forallb] in H. apply andb_true_iff in H as [Hb Hbs].
  cbn [c_quote_bytes flat_map]. rewrite <- app_assoc, unquote_quoted_byte by done.
  f_equal. by apply IH.
Qed.

(** A quoted name is read whatever follows its closing quote. *)
Lemma unquote_path_c_quote s tail :
  all_chars is_scalar s = true → all_chars (λ c, negb (c =? cr)) tail = true → unquote_path (c_quote s ++ tail) = s.
Proof.
  intros Hs Ht. unfold unquote_path.
  assert (trim_end_by (Z.eqb cr) (c_quote s ++ tail) = c_quote s ++ tail) as ->.
  { destruct tail as [|c tail _] using rev_ind.
    - rewrite app_nil_r. unfold c_quote. rewrite app_comm_cons. by rewrite trim_end_by_none.
    - rewrite app_assoc. rewrite all_chars_app in Ht. apply andb_prop in Ht as [_ Hc]. cbn in Hc. bool_to_prop.
      rewrite trim_end_by_none; [done|]. apply Z.eqb_neq. congruence. }
  pose proof (c_quote_encoded s tail Hs) as He. unfold c_quote in *. cbn [app strip_prefix] in *. rewrite Z.eqb_refl.
  change (utf8_encode (dquote :: ?x)) with (dquote :: utf8_encode x) in He. injection He as He.
  rewrite He, unquote_c_quote_bytes by (by apply utf8_encode_bytes). by apply utf8_lossy_encode.
Qed.

(** ** Where a quoted name ends *)

Lemma quote_close_byte b r i :
  is_byte b = true →
  quote_close (c_quote_byte b ++ r) i = quote_close r (i + length (c_quote_byte b)).
Proof.
  intros Hb. pose proof Hb as Hr. unfold is_byte in Hr. rewrite in_range_spec in Hr.
  assert (∀ c n l, c ≠ backslash → c ≠ dquote → quote_close (c :: l) n = quote_close l (n + 1))
    as Hskip.
  { intros c n l H1 H2. cbn [quote_close].
    by rewrite (proj2 (Z.eqb_neq _ _) H1), (proj2 (Z.eqb_neq _ _) H2). }
  unfold c_quote_byte. destruct (named_escape b) as [e|] eqn:He.
  - cbn [app quote_close length]. by rewrite Z.eqb_refl.
  - assert (b ≠ backslash ∧ b ≠ dquote) as [H1 H2].
    { split; intros ->; by vm_compute in He. }
    case_if; [|by apply Hskip].
    cbn [octal_escape app length]. transitivity
      (quote_close ([48 + b / 8 mod 8; 48 + b mod 8] ++ r) (i + 2)).
    { cbn [quote_close app]. by rewrite Z.eqb_refl. }
    cbn [app]. rewrite !Hskip by (unfold backslash, dquote; lia). f_equal. lia.
Qed.

Lemma quote_close_bytes bs tail : ∀ i,
  all_chars is_byte bs = true →
  quote_close (c_quote_bytes bs ++ dquote :: tail) i
  = Some (i + length (c_quote_bytes bs) + 1)%nat.
Proof.
  induction bs as [|b bs IH]; intros i H.
  - cbn. replace (dquote =? backslash) with false by reflexivity. rewrite Z.eqb_refl. f_equal. lia.
  - cbn [forallb] in H. apply andb_true_iff in H as [Hb Hbs].
    cbn [c_quote_bytes flat_map]. rewrite <- app_assoc, quote_close_byte by done.
    fold (c_quote_bytes bs). rewrite IH by done. rewrite length_app. f_equal. lia.
Qed.

Lemma quoted_token_end_c_quote s tail :
  all_chars is_scalar s = true →
  quoted_token_end (c_quote s ++ tail) = Some (Z.to_nat (str_len (c_quote s))).
Proof.
  intros Hs. unfold quoted_token_end. rewrite (c_quote_encoded s tail Hs), Z.eqb_refl.
  rewrite quote_close_bytes by (by apply utf8_encode_bytes). f_equal.
  rewrite <- utf8_encode_length, Nat2Z.id. pose proof (c_quote_encoded s [] Hs) as He. rewrite app_nil_r in He. rewrite He.
  cbn [length]. rewrite length_app. cbn. lia.
Qed.

End Quoting.

End DiffQuote.

Import DiffQuote.

Module DiffFacts.

(** ** git's rendering of a change *)

(** A line of a hunk: context, added, removed, or the note that the line above has no
    line ending. *)
Inductive BodyLine : Type := Ctx (s : str) | Add (s : str) | Del (s : str) | NoEnd.

(** A hunk: the first line of each side, the section heading, and the lines. *)
Record HunkPatch := {
  hp_old : Z;
  hp_new : Z;
  hp_heading : str;
  hp_body : list BodyLine;
}.

(** What became of a file. A similarity is a percentage; a modified file has one when git
    broke the pair ([-B]). *)
Inductive Kind : Type :=
  | KAdded
  | KModified (dissimilarity : option Z)
  | KDeleted
  | KRenamed (old : str) (similarity : Z)
  | KCopied (old : str) (similarity : Z).

Inductive Content : Type := Hunks (hs : list HunkPatch) | Binary.

(** A file of a patch: its mode, the mode before where that is another, the object ids of
    the index line where there is one, and what differs. *)
Record FilePatch := {
  fp_path : str;
  fp_kind : Kind;
  fp_mode : str;
  fp_old_mode : option str;
  fp_index : option str;
  fp_content : Content;
}.

Definition on_new (b : BodyLine) : Z := match b with Ctx _ | Add _ => 1 | Del _ | NoEnd => 0 end.
Definition on_old (b : BodyLine) : Z := match b with Ctx _ | Del _ => 1 | Add _ | NoEnd => 0 end.
Fixpoint count (f : BodyLine → Z) (body : list BodyLine) : Z :=
  match body with [] => 0 | b :: r => f b + count f r end.

Definition render_body (b : BodyLine) : str :=
  match b with
  | Ctx s => chr " " :: s | Add s => chr "+" :: s | Del s => chr "-" :: s
  | NoEnd => backslash :: lit " No newline at end of file"
  end.

(** A count of one is left out. *)
Definition render_range (start n : Z) : str := fmt_u start ++ (if n =? 1 then [] else chr "," :: fmt_u n).

(** The header of a hunk whose body is [declared]. *)
Definition render_header (h : HunkPatch) : str :=
  lit "@@ -" ++ render_range (hp_old h) (count on_old (hp_body h)) ++ lit " +"
  ++ render_range (hp_new h) (count on_new (hp_body h)) ++ lit " @@"
  ++ match hp_heading h with [] => [] | heading => lit " " ++ heading end.

Definition render_hunk (h : HunkPatch) : list str :=
  render_header h :: map render_body (hp_body h).

Definition source_of (fp : FilePatch) : str :=
  match fp_kind fp with KRenamed old _ | KCopied old _ => old | _ => fp_path fp end.

Definition hunks_of (fp : FilePatch) : list HunkPatch :=
  match fp_content fp with Hunks hs => hs | Binary => [] end.

Section Rendering.

(** [core.quotePath] *)
Variable quote_path : bool.

Abbreviation git_name := (git_name quote_path).

Definition render_top (fp : FilePatch) : str :=
  lit "diff --git " ++ git_name (lit "a/") (source_of fp) ++ lit " " ++ git_name (lit "b/") (fp_path fp).

Definition percent (n : Z) : str := fmt_u n ++ lit "%".

Definition render_meta (fp : FilePatch) : list str :=
  match fp_kind fp with
  | KAdded => [lit "new file mode " ++ fp_mode fp]
  | KDeleted => [lit "deleted file mode " ++ fp_mode fp]
  | _ => match fp_old_mode fp with
         | Some old => [lit "old mode " ++ old; lit "new mode " ++ fp_mode fp]
         | None => []
         end
  end
  ++ match fp_kind fp with
     | KModified (Some n) => [lit "dissimilarity index " ++ percent n]
     | KRenamed old n => [lit "similarity index " ++ percent n; lit "rename from " ++ git_name [] old; lit "rename to " ++ git_name [] (fp_path fp)]
     | KCopied old n => [lit "similarity index " ++ percent n; lit "copy from " ++ git_name [] old; lit "copy to " ++ git_name [] (fp_path fp)]
     | _ => []
     end
  ++ match fp_index fp with Some ids => [lit "index " ++ ids] | None => [] end.

(** A name on a [---] or [+++] line, with a tab behind it when it holds a space. *)
Definition label (marker p : str) : str := git_name marker p ++ (if existsb (Z.eqb (chr " ")) p then [9] else []).

(** The [---] and [+++] lines, which git writes when there is a hunk. *)
Definition render_names (fp : FilePatch) : list str :=
  match fp_content fp with
  | Hunks [] => []
  | Hunks _ =>
      [lit "--- " ++ match fp_kind fp with KAdded => lit "/dev/null" | _ => label (lit "a/") (source_of fp) end;
       lit "+++ " ++ match fp_kind fp with KDeleted => lit "/dev/null" | _ => label (lit "b/") (fp_path fp) end]
  | Binary =>
      [lit "Binary files " ++ match fp_kind fp with KAdded => lit "/dev/null" | _ => git_name (lit "a/") (source_of fp) end
       ++ lit " and " ++ match fp_kind fp with KDeleted => lit "/dev/null" | _ => git_name (lit "b/") (fp_path fp) end
       ++ lit " differ"]
  end.

Definition render_file (fp : FilePatch) : list str :=
  render_top fp :: render_meta fp ++ render_names fp ++ flat_map render_hunk (hunks_of fp).

Definition render (fps : list FilePatch) : str := unlines (flat_map render_file fps).

(** ** What the parser is to read back *)

Fixpoint number_added (n : Z) (body : list BodyLine) : list (Z * str) :=
  match body with
  | [] => []
  | Add s :: r => (n, s) :: number_added (n + 1) r
  | Ctx _ :: r => number_added (n + 1) r
  | (Del _ | NoEnd) :: r => number_added n r
  end.

Fixpoint removed_of (body : list BodyLine) : list str :=
  match body with
  | [] => []
  | Del s :: r => s :: removed_of r
  | _ :: r => removed_of r
  end.

(** A copy is read as a change of the new file. *)
Definition status_of (k : Kind) : ChangeStatus :=
  match k with
  | KAdded => Added | KModified _ | KCopied _ _ => Modified | KDeleted => Deleted | KRenamed _ _ => Renamed
  end.

Definition read_as (fp : FilePatch) : FileDiff :=
  {| path := fp_path fp;
     old_path := match fp_kind fp with KRenamed old _ => Some old | _ => None end;
     status := status_of (fp_kind fp);
     added_lines := flat_map (λ h, number_added (hp_new h) (hp_body h)) (hunks_of fp);
     removed_lines := flat_map (λ h, removed_of (hp_body h)) (hunks_of fp) |}.

(** A carriage return before a line's end is not part of what is read. *)
Definition bare (b : BodyLine) : BodyLine :=
  match b with Ctx s => Ctx (strip_cr s) | Add s => Add (strip_cr s) | Del s => Del (strip_cr s) | NoEnd => NoEnd end.
Definition bare_hunk (h : HunkPatch) : HunkPatch :=
  {| hp_old := hp_old h; hp_new := hp_new h; hp_heading := hp_heading h; hp_body := map bare (hp_body h) |}.
Definition bare_file (fp : FilePatch) : FilePatch :=
  {| fp_path := fp_path fp; fp_kind := fp_kind fp; fp_mode := fp_mode fp; fp_old_mode := fp_old_mode fp; fp_index := fp_index fp;
     fp_content := match fp_content fp with Hunks hs => Hunks (map bare_hunk hs) | Binary => Binary end |}.

Definition expected (fp : FilePatch) : FileDiff := read_as (bare_file fp).

(** ** What git writes *)

(** A name: Unicode text, of which git quotes what it must. *)
Definition name_ok (p : str) : bool := negb (bool_decide (p = [])) && all_chars is_scalar p.

Definition body_ok (b : BodyLine) : bool :=
  match b with Ctx s | Add s | Del s => no_nl s | NoEnd => true end.

Definition hunk_ok (h : HunkPatch) : bool :=
  in_range 0 MAX_HUNK_VALUE (hp_old h) && in_range 0 MAX_HUNK_VALUE (hp_new h)
  && (count on_old (hp_body h) <=? MAX_HUNK_VALUE)
  && (count on_new (hp_body h) <=? MAX_HUNK_VALUE)
  && line_ok (hp_heading h) && forallb body_ok (hp_body h).

(** The hunks of a file in order and apart, from line [e] on. *)
Fixpoint hunks_ok (e : Z) (hs : list HunkPatch) : bool :=
  match hs with
  | [] => true
  | h :: r => hunk_ok h && (e <=? hp_new h)
              && hunks_ok (hp_new h + count on_new (hp_body h)) r
  end.

Definition text_ok (o : option str) : bool := match o with Some s => line_ok s | None => true end.

Definition kind_ok (fp : FilePatch) : bool :=
  match fp_kind fp with
  | KDeleted => bool_decide (added_lines (read_as fp) = [])
  | KRenamed old n | KCopied old n => name_ok old && (0 <=? n)
  | KModified (Some n) => 0 <=? n
  | _ => true
  end.

Definition file_ok (fp : FilePatch) : bool :=
  name_ok (fp_path fp) && line_ok (fp_mode fp) && text_ok (fp_old_mode fp) && text_ok (fp_index fp)
  && hunks_ok 0 (hunks_of fp) && kind_ok fp.

Definition patch_ok (fps : list FilePatch) : bool :=
  forallb file_ok fps && bool_decide (NoDup (changed_paths (map expected fps))).

(** ** Names in headers *)

Lemma plain_name p : must_quote quote_path p = false → all_chars (λ c, negb (escaped quote_path c)) p = true.
Proof.
  unfold must_quote. induction p as [|c p IH]; [done|]. cbn [existsb forallb]. intros [-> Hp]%orb_false_iff. by apply IH.
Qed.

Lemma plain_not (d : char) p :
  escaped quote_path d = true → must_quote quote_path p = false → all_chars (λ c, negb (d =? c)) p = true.
Proof.
  intros Hd Hp. eapply all_chars_impl; [|by apply plain_name]. cbv beta. intros c Hc. apply negb_true_iff, Z.eqb_neq.
  intros <-. by rewrite Hd in Hc.
Qed.

Lemma plain_last m p : ends_with [dquote] m = false → must_quote quote_path p = false → ends_with [dquote] (m ++ p) = false.
Proof.
  intros Hm Hp%(plain_not dquote); [|done]. destruct p as [|c p _] using rev_ind; [by rewrite app_nil_r|].
  rewrite app_assoc, ends_with_snoc. rewrite all_chars_app in Hp. apply andb_prop in Hp as [_ Hp]. cbn in Hp. bool_to_prop.
  apply Z.eqb_neq. congruence.
Qed.

Lemma quoted_token_end_not c s : c ≠ dquote → 0 ≤ c < 128 → quoted_token_end (c :: s) = None.
Proof.
  intros Hc Hr. unfold quoted_token_end, utf8_encode. simpl. unfold utf8_encode_char at 1.
  rewrite (proj2 (Z.ltb_lt c 128)) by lia. simpl.
  apply Z.eqb_neq in Hc. by rewrite Hc.
Qed.

Lemma quoted_token_end_a s : quoted_token_end (lit "a/" ++ s) = None.
Proof. by apply (quoted_token_end_not 97 (47 :: s)). Qed.

Lemma equal_names_same p : equal_names (lit "a/" ++ p ++ lit " b/" ++ p) = Some p.
Proof.
  unfold equal_names.
  assert (str_len (lit "a/" ++ p ++ lit " b/" ++ p) - 5 = 2 * str_len p) as ->.
  { rewrite !str_len_app. lit_len. lia. }
  pose proof (str_len_nonneg p).
  destruct (Z.ltb_spec (2 * str_len p) 0); [lia|].
  replace (2 * str_len p mod 2) with 0 by (rewrite Z.mul_comm, Z.mod_mul; lia).
  replace (2 * str_len p / 2) with (str_len p) by (rewrite Z.mul_comm, Z.div_mul; lia).
  cbn [Z.eqb]. rewrite (get_range_app _ _ (lit "a/") p) by (lit_len; lia).
  rewrite app_assoc, (get_from_app _ (lit "a/" ++ p)) by (rewrite str_len_app; lit_len; lia).
  rewrite <- app_assoc, starts_with_app. by rewrite bool_decide_eq_true_2.
Qed.

Lemma not_ends_quote x m p :
  m ≠ [] → ends_with [dquote] (m ++ p) = false → ends_with [dquote] (x ++ m ++ p) = false.
Proof.
  intros Hm. assert (Hne : m ++ p ≠ []) by (by intros [-> _]%app_eq_nil). revert Hne. generalize (m ++ p). intros l Hl.
  destruct l as [|c l _] using rev_ind; [done|]. by rewrite app_assoc, !ends_with_snoc.
Qed.

Lemma git_header_path_same p :
  must_quote quote_path p = false →
  git_header_path (lit "a/" ++ p ++ lit " " ++ lit "b/" ++ p) = Some p.
Proof.
  intros Hp. change (lit " " ++ lit "b/" ++ p) with (lit " b/" ++ p). unfold git_header_path. rewrite quoted_token_end_a.
  rewrite app_assoc, not_ends_quote by (done || by apply plain_last). rewrite <- app_assoc. by rewrite equal_names_same.
Qed.

Lemma rfind_split_some p a b : ∃ x y, rfind_split p (a ++ p ++ b) = Some (x, y).
Proof.
  induction a as [|c a [x [y IH]]].
  - simpl app. destruct (p ++ b) as [|c s] eqn:E.
    + apply app_eq_nil in E as [-> ->]. by exists [], [].
    + cbn [rfind_split]. destruct (rfind_split p s) as [[x y]|]; [eauto|].
      rewrite <- E, starts_with_app. eauto.
  - cbn [app rfind_split]. rewrite IH. eauto.
Qed.

Lemma git_header_path_plain a b :
  must_quote quote_path b = false →
  ∃ p, git_header_path (lit "a/" ++ a ++ lit " " ++ lit "b/" ++ b) = Some p.
Proof.
  intros Hb. change (lit " " ++ lit "b/" ++ b) with (lit " b/" ++ b). unfold git_header_path. rewrite quoted_token_end_a.
  rewrite app_assoc, not_ends_quote by (done || by apply plain_last). rewrite <- app_assoc.
  destruct (equal_names _); [eauto|].
  destruct (rfind_split_some (lit " b/") (lit "a/" ++ a) b) as (x & y & E).
  rewrite <- app_assoc in E. rewrite E. eauto.
Qed.

Lemma unquote_plain p tail :
  must_quote quote_path p = false → (tail = [] ∨ tail = [9]) → unquote_path (p ++ tail) = p.
Proof.
  intros Hp Ht. unfold unquote_path.
  assert (trim_end_by (Z.eqb cr) (p ++ tail) = p ++ tail) as ->.
  { destruct Ht as [-> | ->]; [|by apply trim_end_by_none]. rewrite app_nil_r.
    apply trim_end_by_all_not. by apply plain_not. }
  destruct (strip_prefix [dquote] (p ++ tail)) as [r|] eqn:E.
  { apply strip_prefix_Some in E. destruct p as [|c p]; cbn in E; [by destruct Ht as [-> | ->]|]. injection E as -> _. by cbn in Hp. }
  apply (plain_not 9) in Hp; [|done]. destruct Ht as [-> | ->].
  - by rewrite app_nil_r, split_on_none.
  - change (p ++ [9]) with (p ++ 9 :: []). by rewrite split_on_app_sep.
Qed.

(** A name is read back behind its marker, and behind the tab a label ends in. *)
Lemma unquote_git_name m p tail :
  (m = [] ∨ m = lit "a/" ∨ m = lit "b/") → name_ok p = true → (tail = [] ∨ tail = [9]) →
  unquote_path (git_name m p ++ tail) = m ++ p.
Proof.
  intros Hm [_ Hp]%andb_prop Ht. unfold DiffQuote.git_name. destruct (must_quote quote_path p) eqn:Hq.
  - apply unquote_path_c_quote; [|by destruct Ht as [-> | ->]]. rewrite all_chars_app, Hp. by destruct Hm as [-> |[-> | ->]].
  - apply unquote_plain; [|done]. unfold must_quote in *. rewrite existsb_app, Hq, orb_false_r.
    destruct Hm as [-> |[-> | ->]]; [done|..]; by destruct quote_path.
Qed.

Lemma strip_marker_b p : strip_marker (lit "b/" ++ p) = p.
Proof. done. Qed.

Lemma find_quote x r :
  all_chars (λ c, negb (dquote =? c)) x = true →
  find_split [chr " "; dquote] (x ++ chr " " :: dquote :: r) = Some (x, chr " " :: dquote :: r).
Proof.
  induction x as [|c x IH]; [done|]. cbn [forallb]. intros [Hc Hx]%andb_prop. cbn [app find_split].
  assert (starts_with [chr " "; dquote] (c :: x ++ chr " " :: dquote :: r) = false) as ->.
  { apply not_true_iff_false. intros [t Ht]%starts_with_spec. injection Ht as _ Ht. destruct x as [|d x]; [done|].
    injection Ht as -> _. by cbn in Hx. }
  by rewrite IH.
Qed.

Lemma quoted_header_read a b :
  must_quote quote_path a = true → name_ok a = true → name_ok b = true →
  git_header_path (git_name (lit "a/") a ++ lit " " ++ git_name (lit "b/") b) = Some b.
Proof.
  intros Hqa [_ Has]%andb_prop Hb. pose proof (unquote_git_name (lit "b/") b [] ltac:(tauto) Hb ltac:(tauto)) as Hun.
  rewrite app_nil_r in Hun. unfold DiffQuote.git_name at 1. rewrite Hqa. unfold git_header_path.
  rewrite quoted_token_end_c_quote by (by rewrite all_chars_app, Has).
  rewrite Z2Nat.id by apply str_len_nonneg. rewrite get_from_app by done. by rewrite strip_prefix_app, Hun.
Qed.

(** The header of a file whose names are written one after the other. *)
Lemma header_names_read a b :
  name_ok a = true → name_ok b = true →
  ∃ p, git_header_path (git_name (lit "a/") a ++ lit " " ++ git_name (lit "b/") b) = Some p ∧ (a = b → p = b).
Proof.
  intros Ha Hb. pose proof (unquote_git_name (lit "b/") b [] ltac:(tauto) Hb ltac:(tauto)) as Hun. rewrite app_nil_r in Hun.
  pose proof Hb as [_ Hbs]%andb_prop.
  assert (Hbs' : all_chars is_scalar (lit "b/" ++ b) = true) by by rewrite all_chars_app, Hbs.
  unfold DiffQuote.git_name at 1. destruct (must_quote quote_path a) eqn:Hqa.
  - exists b. split; [|done]. pose proof (quoted_header_read a b Hqa Ha Hb) as Hr. unfold DiffQuote.git_name at 1 in Hr. by rewrite Hqa in Hr.
  - unfold DiffQuote.git_name in *. destruct (must_quote quote_path b) eqn:Hqb.
    + exists b. split; [|done]. unfold git_header_path. rewrite <- app_assoc, quoted_token_end_a.
      set (name := c_quote quote_path (lit "b/" ++ b)) in *.
      assert (Hname : ∃ inner, name = dquote :: inner ++ [dquote]) by (by eexists). destruct Hname as [inner Hname].
      assert (ends_with [dquote] (lit "a/" ++ a ++ lit " " ++ name) = true) as ->.
      { apply ends_with_spec. exists (lit "a/" ++ a ++ lit " " ++ dquote :: inner). rewrite Hname.
        rewrite <- !app_assoc. done. }
      cbn [quoted_tail]. change (lit " " ++ name) with (chr " " :: name). rewrite Hname at 1. rewrite app_assoc.
      pose proof (plain_not dquote a eq_refl Hqa) as Hna.
      rewrite find_quote by (by rewrite all_chars_app, Hna). rewrite <- Hname.
      pose proof (quoted_token_end_c_quote quote_path (lit "b/" ++ b) [] Hbs') as Hend. rewrite app_nil_r in Hend. fold name in Hend.
      rewrite Hend, bool_decide_eq_true_2 by done. by rewrite Hun.
    + rewrite <- app_assoc. destruct (git_header_path_plain a b Hqb) as [p Hp]. exists p. split; [done|].
      intros ->. rewrite git_header_path_same in Hp by done. congruence.
Qed.

(** ** Hunk headers *)

Definition header_char (c : char) : bool := is_ascii_digit c || (c =? chr ",").

Lemma digits_header s : all_chars is_ascii_digit s = true → all_chars header_char s = true.
Proof. apply all_chars_impl. intros c H. unfold header_char. by rewrite H. Qed.

Lemma render_range_chars s n :
  0 ≤ s → 0 ≤ n → all_chars header_char (render_range s n) = true.
Proof.
  intros Hs Hn. unfold render_range. rewrite all_chars_app, (digits_header (fmt_u s)) by (by apply fmt_u_digits).
  destruct (n =? 1); [done|]. change (chr "," :: fmt_u n) with (lit "," ++ fmt_u n).
  rewrite all_chars_app, (digits_header (fmt_u n)) by (by apply fmt_u_digits). done.
Qed.

Lemma header_char_range c : header_char c = true → 44 ≤ c ≤ 57.
Proof.
  unfold header_char. rewrite orb_true_iff, is_ascii_digit_spec, Z.eqb_eq.
  change (chr ",") with 44. lia.
Qed.

Lemma header_not_space s :
  all_chars header_char s = true → all_chars (λ c, negb (is_whitespace c)) s = true.
Proof.
  apply all_chars_impl. intros c Hc%header_char_range. apply negb_true_iff.
  unfold is_whitespace. rewrite !orb_false_iff, !in_range_false, !Z.eqb_neq. lia.
Qed.

Lemma header_not_at s :
  all_chars header_char s = true → all_chars (λ c, negb (c =? chr "@")) s = true.
Proof.
  apply all_chars_impl. intros c Hc%header_char_range. apply negb_true_iff, Z.eqb_neq.
  change (chr "@") with 64. lia.
Qed.

Lemma digits_no_comma n : 0 ≤ n → all_chars (λ c, negb (c =? chr ",")) (fmt_u n) = true.
Proof.
  intros Hn. eapply all_chars_impl; [|by apply fmt_u_digits]. intros c Hc%is_ascii_digit_spec. apply negb_true_iff, Z.eqb_neq.
  change (chr ",") with 44. lia.
Qed.

Lemma split_range_render s n :
  0 ≤ s ≤ MAX_HUNK_VALUE → 0 ≤ n ≤ MAX_HUNK_VALUE →
  split_range (render_range s n) = Some (s, n).
Proof.
  unfold MAX_HUNK_VALUE. intros Hs Hn. unfold split_range, render_range.
  destruct (Z.eqb_spec n 1) as [-> |Hne].
  - rewrite app_nil_r, split_once_none by (apply digits_no_comma; lia).
    rewrite parse_u32_fmt by (unfold u32_max; lia). unfold MAX_HUNK_VALUE. rewrite !Z.gtb_ltb.
    by destruct (Z.ltb_spec 1000000000 s); [lia|].
  - rewrite split_once_app by (apply digits_no_comma; lia).
    rewrite !parse_u32_fmt by (unfold u32_max; lia). unfold MAX_HUNK_VALUE. rewrite !Z.gtb_ltb.
    destruct (Z.ltb_spec 1000000000 s), (Z.ltb_spec 1000000000 n); lia || done.
Qed.

Lemma split_whitespace_two w1 w2 :
  w1 ≠ [] → w2 ≠ [] →
  all_chars (λ c, negb (is_whitespace c)) w1 = true →
  all_chars (λ c, negb (is_whitespace c)) w2 = true →
  split_whitespace (chr " " :: w1 ++ chr " " :: w2 ++ [chr " "]) = [w1; w2].
Proof.
  intros N1 N2 H1 H2. unfold split_whitespace.
  change (chr " " :: w1 ++ chr " " :: w2 ++ [chr " "])
    with ([] ++ chr " " :: (w1 ++ chr " " :: (w2 ++ chr " " :: []))).
  rewrite !split_on_app_sep by done. simpl.
  rewrite (bool_decide_eq_false_2 _ N1). simpl. by rewrite (bool_decide_eq_false_2 _ N2).
Qed.

Lemma count_nonneg f body : (∀ b, 0 ≤ f b) → 0 ≤ count f body.
Proof. intros Hf. induction body as [|b r IH]; simpl; [done|]. specialize (Hf b). lia. Qed.

Lemma count_new_nonneg body : 0 ≤ count on_new body.
Proof. apply count_nonneg. by intros []. Qed.
Lemma count_old_nonneg body : 0 ≤ count on_old body.
Proof. apply count_nonneg. by intros []. Qed.

(** The hunk a rendered header declares, whatever its heading. *)
Lemma parse_header_render h :
  hunk_ok h = true →
  parse_hunk_header (render_header h) =
  Some {| new_start := hp_new h; new_count := count on_new (hp_body h);
          old_count := count on_old (hp_body h) |}.
Proof.
  unfold hunk_ok. intros H. bool_to_prop. range_to_prop.
  pose proof (count_new_nonneg (hp_body h)). pose proof (count_old_nonneg (hp_body h)).
  unfold parse_hunk_header, render_header.
  set (r1 := render_range (hp_old h) _). set (r2 := render_range (hp_new h) _). set (tl := match hp_heading h with [] => [] | _ => _ end).
  assert (all_chars header_char r1 = true) as Hr1 by (apply render_range_chars; lia).
  assert (all_chars header_char r2 = true) as Hr2 by (apply render_range_chars; lia).
  change (lit "@@ -" ++ r1 ++ lit " +" ++ r2 ++ lit " @@" ++ tl)
    with (lit "@@" ++ (lit " -" ++ r1 ++ lit " +" ++ r2 ++ lit " @@" ++ tl)).
  rewrite strip_prefix_app.
  assert (lit " -" ++ r1 ++ lit " +" ++ r2 ++ lit " @@" ++ tl =
          (chr " " :: (chr "-" :: r1) ++ chr " " :: (chr "+" :: r2) ++ [chr " "])
          ++ lit "@@" ++ tl) as ->.
  { unlit. cbn [app]. rewrite <- !app_assoc. cbn [app]. by rewrite <- app_assoc. }
  rewrite (find_split_first (chr "@") (lit "@")).
  2:{ cbn [app forallb]. rewrite forallb_app. cbn [forallb]. rewrite forallb_app.
      by rewrite (header_not_at r1 Hr1), (header_not_at r2 Hr2). }
  rewrite split_whitespace_two; [|done..| |]; cbn [forallb].
  - unfold r1, r2. change (lit "-") with [chr "-"]. change (lit "+") with [chr "+"].
    cbn [strip_prefix]. rewrite !Z.eqb_refl. rewrite !split_range_render by lia. done.
  - by rewrite (header_not_space r1 Hr1).
  - by rewrite (header_not_space r2 Hr2).
Qed.

(** ** Running the parser over rendered lines *)

Lemma parse_lines_app n a b st :
  parse_lines n (a ++ b) st =
  (let? st' := parse_lines n a st in parse_lines (n + length a) b st').
Proof.
  revert n st. induction a as [|l a IH]; intros n st; simpl; [by rewrite Nat.add_0_r|].
  destruct (step n l st) as [st'|e]; [|done]. rewrite IH.
  by replace (n + 1 + length a)%nat with (n + S (length a))%nat by lia.
Qed.

(** The parser stands in file [f], after the hunk that ended before line [e]. *)
Record at_file (fs : list FileDiff) (f : FileDiff) (e : Z) (st : State) : Prop := {
  af_files : files st = fs;
  af_current : current st = Some f;
  af_new : new_remaining st = 0;
  af_old : old_remaining st = 0;
  af_end : prev_hunk_end st = e;
  af_saw : saw_content st = false;
}.

Definition add_lines (a : list (Z * str)) (r : list str) (f : FileDiff) : FileDiff :=
  {| path := path f; old_path := old_path f; status := status f;
     added_lines := added_lines f ++ a; removed_lines := removed_lines f ++ r |}.

Lemma add_lines_nil f : add_lines [] [] f = f.
Proof. destruct f. unfold add_lines. simpl. by rewrite !app_nil_r. Qed.

Lemma add_lines_add_lines a a' r r' f :
  add_lines a' r' (add_lines a r f) = add_lines (a ++ a') (r ++ r') f.
Proof. unfold add_lines. simpl. by rewrite !app_assoc. Qed.

(** One body line, read inside its hunk. *)
Definition after_body (b : BodyLine) (f : FileDiff) (st : State) : State :=
  with_counters (new_line st + on_new b) (new_remaining st - on_new b)
    (old_remaining st - on_old b)
    (with_file (add_lines (number_added (new_line st) [b]) (removed_of [b]) f) st).

Lemma add_step f st b n :
  current st = Some f → in_hunk st = true →
  on_new b ≤ new_remaining st → on_old b ≤ old_remaining st →
  new_line st + on_new b ≤ u32_max →
  step n (render_body b) st = Ok (after_body b f st).
Proof.
  intros Hc Hi Hn Ho Hl. unfold step, after_body. destruct st; simpl in *; subst.
  destruct b as [s|s|s|]; simpl in *; unfold context_line, bump_line; simpl.
  - destruct (Z.eqb_spec new_remaining0 0), (Z.eqb_spec old_remaining0 0); try lia.
    simpl. rewrite (proj2 (Z.leb_le _ _)) by done.
    change (number_added new_line0 [Ctx s]) with (@nil (Z * str)).
    change (removed_of [Ctx s]) with (@nil str). by rewrite add_lines_nil.
  - destruct (Z.eqb_spec new_remaining0 0); [lia|].
    rewrite (proj2 (Z.leb_le _ _)) by done. rewrite Z.sub_0_r.
    unfold add_lines, push_added. simpl. by rewrite app_nil_r.
  - destruct (Z.eqb_spec old_remaining0 0); [lia|]. rewrite Z.sub_0_r, Z.add_0_r.
    unfold add_lines, push_removed. simpl. by rewrite app_nil_r.
  - change (number_added new_line0 [NoEnd]) with (@nil (Z * str)).
    change (removed_of [NoEnd]) with (@nil str). by rewrite add_lines_nil, !Z.sub_0_r, Z.add_0_r.
Qed.

Lemma number_added_cons n b body :
  number_added n (b :: body) = number_added n [b] ++ number_added (n + on_new b) body.
Proof. destruct b; simpl; by rewrite ?Z.add_0_r. Qed.

Lemma removed_of_cons b body : removed_of (b :: body) = removed_of [b] ++ removed_of body.
Proof. by destruct b. Qed.

Lemma parse_body body f st n :
  current st = Some f → in_hunk st = true →
  count on_new body ≤ new_remaining st → count on_old body ≤ old_remaining st →
  new_line st + count on_new body ≤ u32_max →
  parse_lines n (map render_body body) st =
  Ok (with_counters (new_line st + count on_new body)
        (new_remaining st - count on_new body) (old_remaining st - count on_old body)
        (with_file (add_lines (number_added (new_line st) body) (removed_of body) f) st)).
Proof.
  revert f st n. induction body as [|b body IH]; intros f st n Hc Hi Hn Ho Hl.
  - simpl. rewrite add_lines_nil, !Z.sub_0_r, Z.add_0_r. destruct st; simpl in *. by subst.
  - cbn [map parse_lines count] in *.
    pose proof (count_new_nonneg body). pose proof (count_old_nonneg body).
    rewrite (add_step f) by (done || lia).
    rewrite (IH (add_lines (number_added (new_line st) [b]) (removed_of [b]) f));
      [|simpl; first [done | lia]..].
    cbn [after_body with_counters with_file new_line new_remaining old_remaining].
    rewrite add_lines_add_lines, <- number_added_cons, <- removed_of_cons.
    unfold with_counters, with_file. simpl. do 2 f_equal; lia.
Qed.

Lemma extended_header_hunk h f st : extended_header (render_header h) f st = None.
Proof. reflexivity. Qed.

(** The declared counts need not be exhausted: [body] is a prefix of the hunk's. *)
Lemma parse_hunk_prefix fs f e st h body rest n :
  at_file fs f e st → hunk_ok h = true → e ≤ hp_new h →
  hp_body h = body ++ rest →
  ∃ st', parse_lines n (render_header h :: map render_body body) st = Ok st'
    ∧ new_remaining st' = count on_new rest ∧ old_remaining st' = count on_old rest
    ∧ files st' = fs ∧ saw_content st' = false
    ∧ prev_hunk_end st' = hp_new h + count on_new (hp_body h)
    ∧ current st' = Some (add_lines (number_added (hp_new h) body) (removed_of body) f).
Proof.
  intros [<- Hc Hn Ho He Hsaw] Hok Hle Hb.
  assert (∀ g, count g (body ++ rest) = count g body + count g rest) as Happ.
  { intros g. clear. induction body as [|b l IH]; cbn [count app]; lia. }
  cbn [parse_lines]. unfold step at 1.
  change (strip_prefix (lit "diff --git ") (render_header h)) with (@None str).
  rewrite Hc, extended_header_hunk.
  replace (if in_hunk st then None else None) with (@None State) by (by destruct (in_hunk st)).
  change (starts_with (lit "@@") (render_header h)) with true. cbv iota beta.
  unfold hunk_header, finish_hunk. rewrite Hn, Ho, parse_header_render by done. simpl.
  rewrite (proj2 (Z.ltb_ge _ _)) by lia.
  pose proof (count_new_nonneg rest). pose proof (count_old_nonneg rest).
  unfold hunk_ok in Hok. bool_to_prop. range_to_prop.
  unfold MAX_HUNK_VALUE, u32_max in *. rewrite Hb, !Happ in *.
  rewrite (parse_body body f); [|simpl; unfold u32_max; first [done | lia]..].
  eexists. split; [done|]. simpl. split_and!; lia || done.
Qed.

Lemma parse_hunk fs f e st h n :
  at_file fs f e st → hunk_ok h = true → e ≤ hp_new h →
  ∃ st', parse_lines n (render_hunk h) st = Ok st'
    ∧ at_file fs (add_lines (number_added (hp_new h) (hp_body h)) (removed_of (hp_body h)) f)
        (hp_new h + count on_new (hp_body h)) st'.
Proof.
  intros Hat Hok Hle.
  destruct (parse_hunk_prefix _ _ _ _ h (hp_body h) [] n Hat Hok Hle) as (st' & Hp & ?).
  { by rewrite app_nil_r. }
  exists st'. split; [done|]. destruct_and!. by split.
Qed.

Lemma parse_hunks fs hs : ∀ f e st n,
  at_file fs f e st → hunks_ok e hs = true →
  ∃ st' e', parse_lines n (flat_map render_hunk hs) st = Ok st'
    ∧ at_file fs (add_lines (flat_map (λ h, number_added (hp_new h) (hp_body h)) hs)
                    (flat_map (λ h, removed_of (hp_body h)) hs) f) e' st'.
Proof.
  induction hs as [|h hs IH]; intros f e st n Hat Hok; cbn [flat_map hunks_ok] in *.
  - exists st, e. by rewrite add_lines_nil.
  - bool_to_prop. destruct (parse_hunk fs f e st h n) as (st1 & Hp1 & Hat1); [done..|].
    destruct (IH _ _ _ (n + length (render_hunk h))%nat Hat1 ltac:(done))
      as (st2 & e2 & Hp2 & Hat2).
    exists st2, e2. rewrite <- add_lines_add_lines. split; [|done].
    by rewrite parse_lines_app, Hp1.
Qed.

(** ** A file's header lines *)

Definition header_file (fp : FilePatch) : FileDiff :=
  {| path := fp_path fp; old_path := old_path (read_as fp);
     status := status_of (fp_kind fp); added_lines := []; removed_lines := [] |}.

Definition quiet (st : State) : Prop :=
  new_remaining st = 0 ∧ old_remaining st = 0 ∧ saw_content st = false.

Lemma source_ok fp : name_ok (fp_path fp) = true → kind_ok fp = true → name_ok (source_of fp) = true.
Proof. unfold source_of, kind_ok. destruct (fp_kind fp); try done; by intros _ [? _]%andb_prop. Qed.

Lemma top_step fp st n :
  quiet st → name_ok (fp_path fp) = true → name_ok (source_of fp) = true →
  ∃ p, step n (render_top fp) st =
    Ok {| files := close_file st;
          current := Some {| path := p; old_path := None; status := Modified;
                             added_lines := []; removed_lines := [] |};
          new_line := new_line st; new_remaining := 0; old_remaining := 0;
          in_hunk := false; pending_rename_from := None; prev_hunk_end := 0;
          saw_content := false |}
    ∧ (source_of fp = fp_path fp → p = fp_path fp).
Proof.
  intros (Hn & Ho & Hs) Hp Hsrc. unfold step, render_top. rewrite strip_prefix_app.
  unfold file_header, finish_hunk. rewrite Hn, Ho.
  destruct (header_names_read (source_of fp) (fp_path fp)) as (p & -> & Hg); [done..|].
  exists p. rewrite Hs. by simpl.
Qed.

Lemma parse_step n raw ls st st' : step n raw st = Ok st' → parse_lines n (raw :: ls) st = parse_lines (n + 1) ls st'.
Proof. cbn [parse_lines]. by intros ->. Qed.

Lemma step_ext n raw f st st' :
  current st = Some f → in_hunk st = false →
  strip_prefix (lit "diff --git ") raw = None →
  extended_header raw f st = Some st' → step n raw st = Ok st'.
Proof. intros Hc Hi Hg He. unfold step. by rewrite Hg, Hc, Hi, He. Qed.

(** A header line the parser has no use for. *)
Lemma step_skip n raw f st :
  current st = Some f → in_hunk st = false →
  strip_prefix (lit "diff --git ") raw = None →
  extended_header raw f st = None → starts_with (lit "@@") raw = false → step n raw st = Ok st.
Proof. intros Hc Hi Hg He Ha. unfold step. by rewrite Hg, Hc, Hi, He, Ha. Qed.

Lemma label_not_null m p : (m = lit "a/" ∨ m = lit "b/") → label m p ≠ lit "/dev/null".
Proof.
  intros Hm. unfold label, DiffQuote.git_name. destruct (must_quote quote_path p); [done|]. by destruct Hm as [-> | ->].
Qed.

Lemma label_tail p : ∀ m, ∃ tail, label m p = git_name m p ++ tail ∧ (tail = [] ∨ tail = [9]).
Proof. intros m. unfold label. eexists. split; [done|]. destruct (existsb _ p); tauto. Qed.

Lemma ext_minus p f st : extended_header (lit "--- " ++ label (lit "a/") p) f st = Some st.
Proof.
  transitivity (Some (if bool_decide (label (lit "a/") p = lit "/dev/null")
                      then with_file (set_status Added f) st else st)); [reflexivity|].
  rewrite bool_decide_eq_false_2; [done|]. apply label_not_null. tauto.
Qed.

Lemma ext_plus p f st :
  name_ok p = true →
  extended_header (lit "+++ " ++ label (lit "b/") p) f st = Some (with_file (set_path p f) st).
Proof.
  intros Hp.
  transitivity (Some (if bool_decide (label (lit "b/") p = lit "/dev/null")
                      then with_file (set_status Deleted f) st
                      else with_file (set_path (strip_prefix_marker (label (lit "b/") p)) f) st));
    [reflexivity|].
  rewrite bool_decide_eq_false_2 by (apply label_not_null; tauto).
  destruct (label_tail p (lit "b/")) as (tail & -> & Ht). unfold strip_prefix_marker.
  rewrite unquote_git_name by tauto. done.
Qed.

Lemma unquote_bare_name p : name_ok p = true → unquote_path (git_name [] p) = p.
Proof. intros Hp. rewrite <- (app_nil_r (git_name [] p)), unquote_git_name by tauto. done. Qed.

Lemma ext_rename_from p f st :
  name_ok p = true →
  extended_header (lit "rename from " ++ git_name [] p) f st = Some (with_pending (Some p) st).
Proof.
  intros Hp. transitivity (Some (with_pending (Some (unquote_path (git_name [] p))) st)); [reflexivity|].
  by rewrite unquote_bare_name.
Qed.

Lemma ext_rename_to p f st :
  name_ok p = true →
  extended_header (lit "rename to " ++ git_name [] p) f st =
  Some (with_pending None
          (with_file (set_path p (set_old_path (pending_rename_from st)
                                    (set_status Renamed f))) st)).
Proof.
  intros Hp. unfold extended_header at 1.
  change (strip_prefix (lit "rename from ") (lit "rename to " ++ ?x)) with (@None str).
  by rewrite strip_prefix_app, unquote_bare_name.
Qed.

Lemma ext_copy_to p f st :
  name_ok p = true → extended_header (lit "copy to " ++ git_name [] p) f st = Some (with_file (set_path p f) st).
Proof.
  intros Hp. transitivity (Some (with_file (set_path (unquote_path (git_name [] p)) f) st)); [reflexivity|].
  by rewrite unquote_bare_name.
Qed.

Ltac header_step :=
  first
    [ erewrite parse_step; [|eapply step_skip; reflexivity]
    | erewrite parse_step;
      [|eapply step_ext; [reflexivity|reflexivity|reflexivity|];
        first [by apply ext_minus | by apply ext_plus | by apply ext_rename_from
              |by apply ext_rename_to | by apply ext_copy_to | reflexivity]] ].

Lemma header_lines fp st n :
  quiet st → name_ok (fp_path fp) = true → kind_ok fp = true →
  ∃ st', parse_lines n (render_top fp :: render_meta fp ++ render_names fp) st = Ok st'
    ∧ at_file (close_file st) (header_file fp) 0 st'.
Proof.
  intros Hq Hp Hk. pose proof (source_ok fp Hp Hk) as Hsrc. destruct (top_step fp st n Hq Hp Hsrc) as (p & Hs & Hsame).
  rewrite (parse_step _ _ _ _ _ Hs). clear Hs.
  unfold render_meta, render_names, source_of, header_file in *. clear Hk.
  destruct fp as [P k mode old ids c]; simpl in *.
  destruct k as [|[d|]| |o sim|o sim]; try rewrite Hsame by done; destruct old as [old|]; destruct ids as [ids|];
    destruct c as [[|h hs]|]; cbn [app]; repeat header_step; eexists; (split; [reflexivity|]); by split.
Qed.

(** ** Whole renderings *)

Lemma parse_file fp st n :
  quiet st → file_ok fp = true →
  ∃ st', parse_lines n (render_file fp) st = Ok st' ∧ quiet st'
    ∧ close_file st' = close_file st ++ [read_as fp].
Proof.
  intros Hq Hok. unfold file_ok in Hok. bool_to_prop.
  destruct (header_lines fp st n) as (st1 & Hp1 & Hat1); [done..|].
  set (hd := render_top fp :: render_meta fp ++ render_names fp) in *.
  destruct (parse_hunks _ (hunks_of fp) _ _ _ (n + length hd)%nat Hat1 ltac:(done))
    as (st2 & e2 & Hp2 & [Hf Hc Hn Ho He Hsaw]).
  exists st2. split_and!.
  - change (render_file fp) with
      (render_top fp :: render_meta fp ++ render_names fp ++ flat_map render_hunk (hunks_of fp)).
    rewrite app_assoc, app_comm_cons. fold hd. by rewrite parse_lines_app, Hp1.
  - by split_and!.
  - unfold close_file at 1. rewrite Hc, Hf. by destruct fp.
Qed.

Lemma parse_files fps : ∀ st n,
  quiet st → forallb file_ok fps = true →
  ∃ st', parse_lines n (flat_map render_file fps) st = Ok st' ∧ quiet st'
    ∧ close_file st' = close_file st ++ map read_as fps.
Proof.
  induction fps as [|fp fps IH]; intros st n Hq Hok; cbn [flat_map forallb map] in *.
  - exists st. by rewrite app_nil_r.
  - bool_to_prop. destruct (parse_file fp st n) as (st1 & Hp1 & Hq1 & Hc1); [done..|].
    destruct (IH st1 (n + length (render_file fp))%nat) as (st2 & Hp2 & Hq2 & Hc2); [done..|].
    exists st2. rewrite parse_lines_app, Hp1, Hp2, Hc2, Hc1, <- app_assoc. by split_and!.
Qed.

Lemma first_repeat_None seen ps :
  first_repeat seen ps = None ↔ NoDup ps ∧ ∀ p, p ∈ ps → p ∉ seen.
Proof.
  revert seen. induction ps as [|p ps IH]; intros seen; simpl.
  { split; [|done]. split; [constructor|]. by intros ? ?%not_elem_of_nil. }
  unfold set_insert. case_bool_decide as Hp.
  - split; [done|]. intros [_ H]. exfalso. eapply H; [constructor|done].
  - rewrite IH, NoDup_cons. setoid_rewrite elem_of_cons. split.
    + intros [Hnd Hx]. split_and!; [intros Hin; apply (Hx p Hin); by left|done|]. intros q [->|Hq]; [done|].
      intros Hs. apply (Hx q Hq). by right.
    + intros [[Hin Hnd] Hx]. split; [done|]. intros q Hq [->|Hs]; [done|].
      by apply (Hx q); [right|].
Qed.

Lemma read_not_impossible fps :
  forallb file_ok fps = true → List.find deleted_with_additions (map read_as fps) = None.
Proof.
  intros H. destruct (List.find _ _) as [f|] eqn:E; [|done].
  apply List.find_some in E as [(fp & <- & Hin)%in_map_iff Hd].
  rewrite forallb_forall in H. specialize (H _ Hin). unfold file_ok, kind_ok in H.
  unfold deleted_with_additions in Hd. bool_to_prop.
  destruct (fp_kind fp) eqn:K; try (simpl in *; rewrite K in *; done).
  by bool_to_prop.
Qed.

(** ** Rendered lines survive [lines] *)

Lemma line_ok_cons c s :
  c ≠ nl → c ≠ cr → line_ok s = true → line_ok (c :: s) = true.
Proof.
  unfold line_ok, no_nl. intros Hn Hc H. bool_to_prop. cbn [forallb].
  rewrite H, (proj2 (Z.eqb_neq c nl) Hn). cbn [negb andb].
  destruct s as [|d s _] using rev_ind.
  - change [c] with ([] ++ [c]). rewrite ends_with_snoc.
    by rewrite (proj2 (Z.eqb_neq cr c)).
  - rewrite app_comm_cons, ends_with_snoc. rewrite ends_with_snoc in H0. by rewrite H0.
Qed.

Lemma line_ok_app a s :
  all_chars (λ c, negb ((c =? nl) || (c =? cr))) a = true → line_ok s = true →
  line_ok (a ++ s) = true.
Proof.
  induction a as [|c a IH]; simpl; [done|]. intros [Hc Ha]%andb_prop Hs.
  bool_to_prop. apply line_ok_cons; auto.
Qed.

Lemma line_ok_chars s :
  all_chars (λ c, negb ((c =? nl) || (c =? cr))) s = true → line_ok s = true.
Proof. intros H. rewrite <- (app_nil_r s). by apply line_ok_app. Qed.

Abbreviation plain_char := (λ c : char, negb ((c =? nl) || (c =? cr))).

Lemma c_quote_byte_line b : is_byte b = true → all_chars plain_char (c_quote_byte quote_path b) = true.
Proof.
  intros Hb. unfold is_byte in Hb. rewrite in_range_spec in Hb.
  unfold c_quote_byte, named_escape, octal_escape, escaped, dquote, backslash, nl, cr.
  repeat case_if; try reflexivity; bool_to_prop; cbn [forallb]; rewrite ?andb_true_r, ?andb_true_iff, ?negb_true_iff, ?orb_false_iff, !Z.eqb_neq;
    unfold chr; cbn; lia.
Qed.

Lemma c_quote_bytes_line bs : all_chars is_byte bs = true → all_chars plain_char (c_quote_bytes quote_path bs) = true.
Proof.
  induction bs as [|b bs IH]; [done|]. cbn [forallb c_quote_bytes flat_map]. intros [Hb Hbs]%andb_true_iff.
  rewrite all_chars_app, c_quote_byte_line by done. by apply IH.
Qed.

Lemma c_quote_text_line s : all_chars is_scalar s = true → all_chars plain_char (flat_map (c_quote_char quote_path) s) = true.
Proof.
  induction s as [|c s IH]; [done|]. cbn [forallb flat_map]. intros [Hc Hs]%andb_true_iff. rewrite all_chars_app, IH by done.
  rewrite andb_true_r. unfold c_quote_char. destruct (_ || _) eqn:E; [by apply c_quote_bytes_line, utf8_char_bytes|].
  apply orb_false_iff in E as [Hge%Z.ltb_ge _].
  cbn. rewrite (proj2 (Z.eqb_neq c nl)), (proj2 (Z.eqb_neq c cr)) by (unfold nl, cr; lia). done.
Qed.

Lemma git_name_line m p :
  (m = [] ∨ m = lit "a/" ∨ m = lit "b/") → name_ok p = true → all_chars plain_char (git_name m p) = true.
Proof.
  intros Hm [_ Hp]%andb_prop. unfold DiffQuote.git_name. destruct (must_quote quote_path p) eqn:Hq.
  - unfold c_quote. cbn [app forallb]. rewrite all_chars_app, c_quote_text_line; [done|].
    rewrite all_chars_app, Hp. by destruct Hm as [-> |[-> | ->]].
  - rewrite all_chars_app. assert (all_chars plain_char p = true) as ->; [|by destruct Hm as [-> |[-> | ->]]].
    eapply all_chars_impl; [|by apply plain_name]. cbv beta. intros c Hc. apply negb_true_iff, orb_false_iff.
    split; apply Z.eqb_neq; intros ->; by cbn in Hc.
Qed.

Lemma label_line m p : (m = lit "a/" ∨ m = lit "b/") → name_ok p = true → line_ok (label m p) = true.
Proof.
  intros Hm Hp. apply line_ok_chars. unfold label. rewrite all_chars_app, git_name_line by tauto. by destruct (existsb _ p).
Qed.

Lemma header_line_ok h : hunk_ok h = true → line_ok (render_header h) = true.
Proof.
  intros H. unfold hunk_ok in H. bool_to_prop. range_to_prop.
  pose proof (count_new_nonneg (hp_body h)). pose proof (count_old_nonneg (hp_body h)).
  assert (∀ s, all_chars header_char s = true → all_chars plain_char s = true) as Hh.
  { intros s. apply all_chars_impl. intros c Hc%header_char_range. cbv beta.
    by rewrite (proj2 (Z.eqb_neq c nl)), (proj2 (Z.eqb_neq c cr)) by (unfold nl, cr; lia). }
  unfold render_header. repeat apply line_ok_app; try reflexivity;
    try (apply Hh, render_range_chars; lia).
  destruct (hp_heading h); [done|]. by apply line_ok_app.
Qed.

Lemma strip_cr_after c s : c ≠ cr → strip_cr (c :: s) = c :: strip_cr s.
Proof.
  intros Hc. unfold strip_cr at 2. destruct (strip_suffix [cr] s) as [r|] eqn:E.
  - apply strip_suffix_Some in E as ->. unfold strip_cr. by rewrite app_comm_cons, strip_suffix_app.
  - rewrite strip_cr_id; [done|]. destruct s as [|d s _] using rev_ind.
    + change [c] with ([] ++ [c]). rewrite ends_with_snoc. apply Z.eqb_neq. congruence.
    + rewrite app_comm_cons, ends_with_snoc. destruct (cr =? d) eqn:Ed; [|done]. apply Z.eqb_eq in Ed as <-.
      by rewrite strip_suffix_app in E.
Qed.

Lemma strip_body b : strip_cr (render_body b) = render_body (bare b).
Proof. destruct b; cbn [render_body bare]; [by apply strip_cr_after..|done]. Qed.

Lemma no_nl_strip s : no_nl s = true → no_nl (strip_cr s) = true.
Proof.
  unfold strip_cr. destruct (strip_suffix [cr] s) as [r|] eqn:E; [|done]. apply strip_suffix_Some in E as ->.
  unfold no_nl. rewrite all_chars_app. by intros [? _]%andb_prop.
Qed.

Lemma count_bare f body : (∀ b, f (bare b) = f b) → count f (map bare body) = count f body.
Proof. intros Hf. induction body as [|b body IH]; [done|]. cbn. by rewrite Hf, IH. Qed.

Lemma count_new_bare body : count on_new (map bare body) = count on_new body.
Proof. apply count_bare. by intros []. Qed.
Lemma count_old_bare body : count on_old (map bare body) = count on_old body.
Proof. apply count_bare. by intros []. Qed.

Lemma bare_header h : render_header (bare_hunk h) = render_header h.
Proof. unfold render_header. cbn [bare_hunk hp_old hp_new hp_heading hp_body]. by rewrite count_new_bare, count_old_bare. Qed.

Lemma strip_hunk h : hunk_ok h = true → map strip_cr (render_hunk h) = render_hunk (bare_hunk h).
Proof.
  intros Hok. unfold render_hunk. cbn [map]. rewrite bare_header, strip_cr_line by (by apply header_line_ok). f_equal.
  cbn [bare_hunk hp_body]. rewrite !map_map. apply map_ext. intros b. apply strip_body.
Qed.

Lemma bare_hunk_ok h : hunk_ok h = true → hunk_ok (bare_hunk h) = true.
Proof.
  unfold hunk_ok. cbn [bare_hunk hp_old hp_new hp_heading hp_body]. rewrite count_new_bare, count_old_bare.
  intros [-> Hb]%andb_prop. cbn [andb]. rewrite forallb_forall in Hb |- *. intros b (b0 & <- & Hin)%in_map_iff.
  specialize (Hb b0 Hin). destruct b0; cbn in *; by try apply no_nl_strip.
Qed.

Lemma bare_hunks_ok hs e : hunks_ok e hs = true → hunks_ok e (map bare_hunk hs) = true.
Proof.
  revert e. induction hs as [|h hs IH]; intros e; [done|]. cbn [map hunks_ok bare_hunk hp_new hp_body]. rewrite count_new_bare.
  intros [[Hh ->]%andb_prop Hhs]%andb_prop. rewrite IH by done. fold (bare_hunk h). by rewrite bare_hunk_ok.
Qed.

Lemma strip_hunks hs e : hunks_ok e hs = true → map strip_cr (flat_map render_hunk hs) = flat_map render_hunk (map bare_hunk hs).
Proof.
  revert e. induction hs as [|h hs IH]; intros e; [done|]. cbn [flat_map map hunks_ok]. intros [[Hh _]%andb_prop Hhs]%andb_prop.
  by rewrite map_app, strip_hunk, (IH _ Hhs).
Qed.

Lemma bare_hunks_of fp : hunks_of (bare_file fp) = map bare_hunk (hunks_of fp).
Proof. unfold hunks_of, bare_file. cbn. by destruct (fp_content fp). Qed.

Lemma meta_lines_ok fp : file_ok fp = true → Forall (λ l, line_ok l = true) (render_meta fp).
Proof.
  intros H. unfold file_ok, kind_ok in H. bool_to_prop. unfold render_meta.
  assert (Hpct : ∀ m, 0 ≤ m → line_ok (percent m) = true).
  { intros m Hm. apply line_ok_chars. unfold percent. rewrite all_chars_app.
    rewrite (all_chars_impl is_ascii_digit plain_char); [done| |by apply fmt_u_digits].
    intros c Hc%is_ascii_digit_spec. cbv beta. by rewrite (proj2 (Z.eqb_neq c nl)), (proj2 (Z.eqb_neq c cr)) by (unfold nl, cr; lia). }
  assert (Hname : ∀ q, name_ok q = true → line_ok (git_name [] q) = true)
    by (intros q Hq; apply line_ok_chars, git_name_line; [tauto|done]).
  rewrite !Forall_app. split; [|split].
  - destruct (fp_kind fp), (fp_old_mode fp); repeat constructor; try done; by apply line_ok_app.
  - destruct (fp_kind fp) as [|[d|]| |o sim|o sim]; bool_to_prop; repeat constructor; apply line_ok_app; try done; try (apply Hpct; lia);
      by apply Hname.
  - destruct (fp_index fp); repeat constructor. by apply line_ok_app.
Qed.

Lemma names_lines_ok fp : file_ok fp = true → Forall (λ l, line_ok l = true) (render_names fp).
Proof.
  intros H. unfold file_ok in H. bool_to_prop. pose proof (source_ok fp ltac:(done) ltac:(done)) as Hsrc.
  assert (Ha : ∀ m q, m = lit "a/" ∨ m = lit "b/" → name_ok q = true → all_chars plain_char (git_name m q) = true)
    by (intros m q Hm Hq; apply git_name_line; tauto).
  unfold render_names. destruct (fp_content fp) as [[|h hs]|]; [constructor| |];
    repeat constructor; repeat (apply line_ok_app; [done|]).
  - destruct (fp_kind fp); try done; apply label_line; tauto.
  - destruct (fp_kind fp); try done; apply label_line; tauto.
  - destruct (fp_kind fp); (apply line_ok_app; [first [done|apply Ha; tauto]|]); apply line_ok_app; try done;
      (apply line_ok_app; [first [done|apply Ha; tauto]|done]).
Qed.

Lemma strip_file fp : file_ok fp = true → map strip_cr (render_file fp) = render_file (bare_file fp).
Proof.
  intros H. pose proof (meta_lines_ok fp H) as Hm. pose proof (names_lines_ok fp H) as Hn.
  unfold file_ok in H. bool_to_prop. pose proof (source_ok fp ltac:(done) ltac:(done)) as Hsrc.
  unfold render_file. cbn [map]. rewrite !map_app, (strip_cr_ok (render_meta fp)), (strip_cr_ok (render_names fp)) by done.
  rewrite strip_cr_line.
  - rewrite bare_hunks_of, (strip_hunks _ 0) by done. unfold render_names, bare_file. cbn. by destruct (fp_content fp) as [[|h hs]|].
  - unfold render_top. apply line_ok_chars. rewrite !all_chars_app, !git_name_line by tauto. done.
Qed.

Lemma render_no_nl fp : file_ok fp = true → Forall (λ l, no_nl l = true) (render_file fp).
Proof.
  intros H. pose proof (meta_lines_ok fp H) as Hm. pose proof (names_lines_ok fp H) as Hn.
  unfold file_ok in H. bool_to_prop. pose proof (source_ok fp ltac:(done) ltac:(done)) as Hsrc.
  assert (Hline : ∀ l, line_ok l = true → no_nl l = true) by (by intros l [? _]%andb_prop).
  unfold render_file. constructor; [|rewrite !Forall_app; split_and!].
  - apply Hline, line_ok_chars. unfold render_top. rewrite !all_chars_app, !git_name_line by tauto. done.
  - by eapply Forall_impl.
  - by eapply Forall_impl.
  - assert (Hhs : hunks_ok 0 (hunks_of fp) = true) by done. revert Hhs. generalize (hunks_of fp) 0. clear - Hline. intros hs.
    induction hs as [|h hs IH]; intros e; cbn [flat_map hunks_ok]; [constructor|].
    intros [[Hh _]%andb_prop Hhs]%andb_prop. apply Forall_app. split; [|by eapply IH].
    constructor; [by apply Hline, header_line_ok|]. unfold hunk_ok in Hh. apply andb_prop in Hh as [_ Hb].
    apply Forall_map, Forall_forall. intros b Hin%list_elem_of_In. rewrite forallb_forall in Hb. specialize (Hb b Hin). by destruct b.
Qed.

(** What the parser is given is the patch without the carriage returns. *)
Lemma render_lines fps :
  forallb file_ok fps = true → lines (render fps) = flat_map render_file (map bare_file fps).
Proof.
  intros H. unfold render. rewrite lines_unlines_cr.
  - induction fps as [|fp fps IH]; [done|]. cbn [forallb flat_map map] in *. apply andb_prop in H as [Hfp Hfps].
    by rewrite map_app, strip_file, IH.
  - apply Forall_flat_map, Forall_forall. intros fp Hin%list_elem_of_In. rewrite forallb_forall in H. by apply render_no_nl, H.
Qed.

Lemma number_added_bare body n :
  number_added n (map bare body) = map (λ x, (x.1, strip_cr x.2)) (number_added n body).
Proof. revert n. induction body as [|[] body IH]; intros n; cbn [map bare number_added]; by rewrite ?IH. Qed.

Lemma bare_file_ok fp : file_ok fp = true → file_ok (bare_file fp) = true.
Proof.
  unfold file_ok. rewrite bare_hunks_of. cbn [bare_file fp_path fp_mode fp_old_mode fp_index]. intros H. bool_to_prop.
  rewrite !andb_true_iff. split_and!; try done; [by apply bare_hunks_ok|].
  unfold kind_ok in *. cbn [bare_file fp_kind]. destruct (fp_kind fp) eqn:K; try done. bool_to_prop. apply bool_decide_eq_true.
  cbn [read_as added_lines] in *. rewrite bare_hunks_of. match goal with H : flat_map _ _ = [] |- _ => rename H into Hnone end.
  revert Hnone. generalize (hunks_of fp). intros hs. induction hs as [|h hs IH]; [done|]. cbn [flat_map map].
  intros [Hh Hhs]%app_eq_nil. rewrite (IH Hhs), app_nil_r. cbn [bare_hunk hp_new hp_body]. by rewrite number_added_bare, Hh.
Qed.

End Rendering.

End DiffFacts.

(** * What every accepted diff satisfies

    The state invariant of the parser, and what it gives: added-line numbers are
    strictly increasing and bounded, the line counter never wraps, and an empty
    result is only ever returned for an input with nothing in it. *)

Import Diff DiffFacts.

#[local] Open Scope Z_scope.

Module DiffInv.

(** ** What every accepted diff satisfies *)

Definition numbers_ok (f : FileDiff) : Prop :=
  StronglySorted Z.lt (added_line_numbers f)
  ∧ Forall (λ n, 0 ≤ n < 2 * MAX_HUNK_VALUE) (added_line_numbers f).

Record in_file (f : FileDiff) (st : State) : Prop := {
  if_numbers : numbers_ok f;
  if_remaining : 0 ≤ new_remaining st ∧ 0 ≤ old_remaining st;
  if_hunk : in_hunk st = true →
    Forall (λ n, n < new_line st) (added_line_numbers f) ∧ 0 ≤ new_line st
    ∧ new_line st + new_remaining st = prev_hunk_end st
    ∧ prev_hunk_end st ≤ 2 * MAX_HUNK_VALUE;
  if_none : in_hunk st = false → added_line_numbers f = [] ∧ prev_hunk_end st = 0;
}.

Definition state_ok (st : State) : Prop :=
  Forall numbers_ok (files st) ∧
  match current st with Some f => in_file f st | None => True end.

Lemma state_ok_init : state_ok init.
Proof. split; [constructor|done]. Qed.

Lemma close_file_ok st : state_ok st → Forall numbers_ok (close_file st).
Proof.
  intros [Hf Hc]. unfold close_file. destruct (current st) as [f|]; [|done].
  apply Forall_app. split; [done|]. constructor; [apply Hc|constructor].
Qed.

Lemma parse_digits_ge max acc s n : 0 ≤ acc → parse_digits max acc s = Some n → acc ≤ n.
Proof.
  revert acc. induction s as [|c s IH]; intros acc Ha; cbn [parse_digits].
  - intros [= <-]. lia.
  - destruct (is_ascii_digit c) eqn:Hc; [|done]. apply is_ascii_digit_spec in Hc.
    case_if; [|done]. intros H%IH; lia.
Qed.

Lemma parse_u32_nonneg s n : parse_u32 s = Some n → 0 ≤ n.
Proof.
  unfold parse_u32, parse_unsigned. destruct s as [|c s]; [done|].
  case_if; [destruct s as [|d s]; [done|]|]; by apply parse_digits_ge.
Qed.

Lemma split_range_bounds s a b :
  split_range s = Some (a, b) → 0 ≤ a ≤ MAX_HUNK_VALUE ∧ 0 ≤ b ≤ MAX_HUNK_VALUE.
Proof.
  unfold split_range. intros H. destruct (split_once _ _) as [[u v]|].
  - destruct (parse_u32 u) as [x|] eqn:Eu; [|done].
    destruct (parse_u32 v) as [y|] eqn:Ev; [|done].
    apply parse_u32_nonneg in Eu, Ev. rewrite !Z.gtb_ltb in H.
    case_if_in H; [done|]. bool_to_prop. simplify_eq. lia.
  - destruct (parse_u32 s) as [x|] eqn:Eu; [|done].
    apply parse_u32_nonneg in Eu. rewrite !Z.gtb_ltb in H.
    case_if_in H; [done|]. bool_to_prop. simplify_eq. lia.
Qed.

Lemma parse_hunk_header_bounds l h :
  parse_hunk_header l = Some h →
  0 ≤ new_start h ≤ MAX_HUNK_VALUE ∧ 0 ≤ new_count h ≤ MAX_HUNK_VALUE
  ∧ 0 ≤ old_count h ≤ MAX_HUNK_VALUE.
Proof.
  unfold parse_hunk_header. intros H.
  repeat (case_match_in H; try done). simplify_eq. simpl.
  repeat match goal with H : split_range _ = Some _ |- _ => apply split_range_bounds in H end.
  lia.
Qed.

Lemma in_file_ext f f' st st' :
  in_file f st → added_lines f' = added_lines f →
  new_line st' = new_line st → new_remaining st' = new_remaining st →
  old_remaining st' = old_remaining st → in_hunk st' = in_hunk st →
  prev_hunk_end st' = prev_hunk_end st → in_file f' st'.
Proof.
  intros [Hn Hr Hh Hno] Ha E1 E2 E3 E4 E5.
  split; unfold numbers_ok, added_line_numbers in *; by rewrite ?Ha, ?E1, ?E2, ?E3, ?E4, ?E5.
Qed.

Lemma extended_header_ok raw f st st' :
  extended_header raw f st = Some st' → state_ok st → current st = Some f → state_ok st'.
Proof.
  intros He [Hf Hc] Hcur. rewrite Hcur in Hc.
  assert (files st' = files st ∧ ∃ f', current st' = Some f' ∧ in_file f' st') as (Ef & f' & Ec & Hi).
  { unfold extended_header in He.
    repeat case_match_in He; simplify_eq; (split; [done|]); eexists; (split; [done|]);
      by eapply in_file_ext. }
  split; [by rewrite Ef|by rewrite Ec].
Qed.

Lemma finish_hunk_ok n st : finish_hunk n st = Ok tt → new_remaining st = 0 ∧ old_remaining st = 0.
Proof. unfold finish_hunk. case_if; [done|]. intros _. by bool_to_prop. Qed.

Lemma finish_hunk_err n st e :
  finish_hunk n st = Err e → reason e = "hunk ended before its declared line count"%string.
Proof. unfold finish_hunk, err. case_if; [|done]. by intros [= <-]. Qed.

Lemma hunk_header_ok n raw f st st' :
  hunk_header n raw st = Ok st' → state_ok st → current st = Some f → state_ok st'.
Proof.
  unfold hunk_header. intros H [Hf Hc] Hcur. rewrite Hcur in Hc. destruct Hc as [Hn Hr Hh Hno].
  destruct (finish_hunk _ _) as [[]|] eqn:Efin; [|done].
  apply finish_hunk_ok in Efin as [E1 E2].
  destruct (parse_hunk_header raw) as [h|] eqn:Eh; [|done]. simpl in H.
  apply parse_hunk_header_bounds in Eh. case_if_in H; [done|]. bool_to_prop.
  simplify_eq. split; [done|]. simpl. rewrite Hcur. split; simpl; [done|lia| |done].
  intros _. split; [|lia]. destruct (in_hunk st) eqn:Ei.
  - destruct (Hh eq_refl) as (Hlt & _ & Heq & _).
    eapply Forall_impl; [exact Hlt|]. simpl. lia.
  - destruct (Hno eq_refl) as [-> _]. constructor.
Qed.

Lemma sorted_snoc l n :
  StronglySorted Z.lt l → Forall (λ m, m < n) l → StronglySorted Z.lt (l ++ [n]).
Proof.
  induction 1 as [|m l Hs IH Hm]; intros Hl; simpl; [repeat constructor|].
  inversion Hl; subst. constructor; [auto|]. apply Forall_app. by repeat constructor.
Qed.

(** Inside a hunk with lines left, the counter is far from wrapping. *)
Lemma bump_ok n raw f st :
  in_file f st → in_hunk st = true → new_remaining st ≠ 0 →
  bump_line (new_line st) n raw = Ok (new_line st + 1) ∧ new_line st < 2 * MAX_HUNK_VALUE.
Proof.
  intros [Hn Hr Hh Hno] Hi Hne. destruct (Hh Hi) as (_ & ? & ? & ?).
  unfold bump_line, MAX_HUNK_VALUE, u32_max in *.
  rewrite (proj2 (Z.leb_le _ _)) by lia. split; [done|lia].
Qed.

Lemma context_line_ok n raw f st :
  state_ok st → current st = Some f → in_hunk st = true →
  match context_line n raw st with
  | Ok st' => state_ok st'
  | Err e => reason e ≠ "line number overflowed while walking the hunk"%string
  end.
Proof.
  intros [Hf Hc] Hcur Hi. rewrite Hcur in Hc. unfold context_line.
  case_if; [done|]. bool_to_prop.
  destruct (bump_ok n raw f st) as [-> Hlt]; [done..|].
  destruct Hc as [Hn Hr Hh Hno]. destruct (Hh Hi) as (Hl & ? & ? & ?).
  split; [done|]. simpl. rewrite Hcur. split; simpl; [done|lia| |congruence].
  intros _. split_and!; try lia. eapply Forall_impl; [exact Hl|]. simpl. lia.
Qed.

Lemma body_line_ok_inv n raw f st :
  state_ok st → current st = Some f → in_hunk st = true →
  match body_line n raw f st with
  | Ok st' => state_ok st'
  | Err e => reason e ≠ "line number overflowed while walking the hunk"%string
  end.
Proof.
  intros Hst Hcur Hi. unfold body_line. destruct raw as [|c rest]; [by eapply context_line_ok|].
  pose proof Hst as [Hf Hc]. rewrite Hcur in Hc. case_if.
  - case_if; [done|]. bool_to_prop. destruct (bump_ok n (c :: rest) f st) as [-> Hlt]; [done..|].
    destruct Hc as [[Hs Hb] Hr Hh Hno]. destruct (Hh Hi) as (Hl & ? & ? & ?).
    split; [done|]. simpl. unfold numbers_ok, added_line_numbers in *.
    split; simpl; [|lia| |congruence].
    + unfold numbers_ok, added_line_numbers. simpl. rewrite map_app. simpl.
      split; [by apply sorted_snoc|]. apply Forall_app. split; [done|]. repeat constructor; lia.
    + intros _. split_and!; try lia. unfold added_line_numbers. simpl. rewrite map_app.
      apply Forall_app. split; [|simpl; repeat constructor; lia].
      eapply Forall_impl; [exact Hl|]. simpl. lia.
  - case_if.
    + case_if; [done|]. bool_to_prop. destruct Hc as [Hn Hr Hh Hno].
      split; [done|]. split; simpl; [done|lia|exact Hh|congruence].
    + case_if; [by eapply context_line_ok|]. by case_if.
Qed.

Lemma step_ok n raw st :
  state_ok st →
  match step n raw st with
  | Ok st' => state_ok st'
  | Err e => reason e ≠ "line number overflowed while walking the hunk"%string
  end.
Proof.
  intros Hst. unfold step. destruct (strip_prefix _ _) as [rest|].
  - unfold file_header. destruct (finish_hunk _ _) as [[]|e] eqn:Efin.
    + apply finish_hunk_ok in Efin as [E1 E2].
      destruct (git_header_path rest) as [p|]; [|done]. simpl.
      split; [by apply close_file_ok|]. simpl.
      split; simpl; [by repeat constructor|lia|done|done].
    + by rewrite (finish_hunk_err _ _ _ Efin).
  - destruct (current st) as [f|] eqn:Hcur;
      [|case_bool_decide; [done|]; destruct Hst; by split].
    destruct (if in_hunk st then None else extended_header raw f st) as [st'|] eqn:He.
    + destruct (in_hunk st); [done|]. exact (extended_header_ok _ _ _ _ He Hst Hcur).
    + case_if.
      * destruct (hunk_header n raw st) as [st'|e] eqn:Eh; [by eapply hunk_header_ok|].
        unfold hunk_header in Eh. destruct (finish_hunk _ _) as [[]|e'] eqn:Efin.
        -- destruct (parse_hunk_header raw); simpl in Eh; [|by simplify_eq].
           unfold err in Eh. by case_if_in Eh; simplify_eq.
        -- injection Eh as <-. by rewrite (finish_hunk_err _ _ _ Efin).
      * destruct (in_hunk st) eqn:Hi; [by apply body_line_ok_inv|done].
Qed.

Lemma parse_lines_ok ls : ∀ n st,
  state_ok st →
  match parse_lines n ls st with
  | Ok st' => state_ok st'
  | Err e => reason e ≠ "line number overflowed while walking the hunk"%string
  end.
Proof.
  induction ls as [|raw ls IH]; intros n st Hst; simpl; [done|].
  pose proof (step_ok n raw st Hst) as H. destruct (step n raw st) as [st'|e]; [by apply IH|done].
Qed.

(** ** Nothing found means nothing given *)

Lemma drop_while_nil p s : drop_while p s = [] ↔ all_chars p s = true.
Proof.
  induction s as [|c s IH]; simpl; [done|]. destruct (p c); simpl; [done|].
  split; done.
Qed.

Lemma trim_nil s : trim s = [] ↔ all_chars is_whitespace s = true.
Proof.
  unfold trim, trim_by, trim_end_by, trim_start_by. split.
  - intros H. apply (f_equal (@rev Z)) in H. rewrite rev_involutive in H. simpl in H.
    apply drop_while_nil in H. rewrite all_chars_rev in H.
    induction s as [|c s IH]; [done|]. cbn [drop_while] in H.
    destruct (is_whitespace c) eqn:E; cbn [forallb] in *; [|by rewrite E in H].
    by rewrite E, IH.
  - intros H. apply drop_while_nil in H. by rewrite H.
Qed.

Lemma header_not_blank raw rest :
  strip_prefix (lit "diff --git ") raw = Some rest → trim raw ≠ [].
Proof. intros ->%strip_prefix_Some. by rewrite trim_nil. Qed.

(** The preamble: before the first file header only blank lines leave no trace. *)
Lemma preamble ls : ∀ n st st',
  parse_lines n ls st = Ok st' →
  (current st ≠ None → current st' ≠ None)
  ∧ (current st = None → current st' = None →
     files st' = files st
     ∧ saw_content st' = saw_content st || negb (forallb (λ l, bool_decide (trim l = [])) ls)).
Proof.
  induction ls as [|raw ls IH]; intros n st st' H; simpl in H.
  { simplify_eq. split; [done|]. intros _ _. by rewrite orb_false_r. }
  destruct (step n raw st) as [st1|e] eqn:Hs; [|done].
  destruct (IH _ _ _ H) as [IH1 IH2]. clear IH H.
  unfold step in Hs. destruct (strip_prefix _ _) as [rest|] eqn:Hg.
  - assert (current st1 ≠ None) as Hc1.
    { unfold file_header in Hs. destruct (finish_hunk _ _); [|done].
      destruct (git_header_path rest); [|done]. simpl in Hs. by simplify_eq. }
    split; [by auto|]. intros _ Hn. by destruct (IH1 Hc1).
  - destruct (current st) as [f|] eqn:Hcur.
    + assert (current st1 ≠ None) as Hc1; [|by split; [auto|]].
      destruct (if in_hunk st then None else extended_header raw f st) as [st2|] eqn:He.
      * simplify_eq. destruct (in_hunk st); [done|].
        unfold extended_header in He.
        by repeat case_match_in He; simplify_eq; simpl; rewrite ?Hcur.
      * repeat case_if_in Hs; [unfold hunk_header in Hs|unfold body_line, context_line, err in Hs|];
          repeat (case_match_in Hs; try done); simplify_eq; simpl; congruence.
    + injection Hs as <-. split; [done|]. intros _ Hn. cbn [forallb].
      case_bool_decide; simpl in *.
      * by apply IH2.
      * destruct (IH2 eq_refl Hn) as [-> ->]. split; [done|]. by rewrite orb_true_r.
Qed.

(** ** What the final checks guarantee *)

Lemma blank_lines ls :
  forallb (λ l, bool_decide (trim l = [])) ls = true ↔ Forall (λ l, trim l = []) ls.
Proof.
  rewrite forallb_forall, Forall_forall. setoid_rewrite list_elem_of_In.
  by setoid_rewrite bool_decide_eq_true.
Qed.

Lemma parse_blank ls : ∀ n,
  forallb (λ l, bool_decide (trim l = [])) ls = true → parse_lines n ls init = Ok init.
Proof.
  induction ls as [|raw ls IH]; intros n Hb; [done|]. cbn [forallb] in Hb. bool_to_prop.
  cbn [parse_lines]. unfold step.
  destruct (strip_prefix _ raw) as [rest|] eqn:Hg; [by apply header_not_blank in Hg|].
  simpl. rewrite bool_decide_eq_true_2 by done. by apply IH.
Qed.

Lemma reject_impossible_ok fs :
  reject_impossible fs = Ok tt →
  NoDup (changed_paths fs) ∧ Forall (λ f, status f = Deleted → added_lines f = []) fs.
Proof.
  unfold reject_impossible. destruct (List.find _ _) as [f|] eqn:Ef; [done|].
  destruct (first_repeat _ _) eqn:Er; [done|]. intros _. split.
  - by apply first_repeat_None in Er as [? _].
  - apply Forall_forall. intros f Hf%list_elem_of_In Hd.
    pose proof (List.find_none _ _ Ef _ Hf) as H. unfold deleted_with_additions in H.
    rewrite bool_decide_eq_true_2 in H by done. simpl in H. by bool_to_prop.
Qed.

End DiffInv.
