(* ===== verification/DiffProps.v ===== *)
(** * What the diff parser guarantees

    The theorems of [rust/dc-verify/src/lib.rs]'s [parse_unified] and its path
    readers, each from the lemmas of [DiffFacts], and of [DiffQuote] and [DiffInv] beside it. *)

From S2P Require Import Prelude RustStr RustStrFacts Diff DiffFacts.
Import Diff DiffQuote DiffFacts DiffInv.

#[local] Open Scope Z_scope.

Module DiffProps.

(** A rename with two hunks and a missing line ending, a new file of a name git quotes, a
    deleted file, a copy, a binary file and a change of mode. *)
Definition text (p : str) (k : Kind) (hs : list HunkPatch) : FilePatch :=
  {| fp_path := p; fp_kind := k; fp_mode := lit "100644"; fp_old_mode := None; fp_index := Some (lit "0cfbf08..2b01b6f 100644");
     fp_content := Hunks hs |}.

Definition sample : list FilePatch :=
  [ text (lit "src/new name.rs") (KRenamed (lit "src/old.rs") 91)
      [ {| hp_old := 3; hp_new := 3; hp_heading := lit "impl T {";
           hp_body := [Ctx (lit "fn f() {"); Del (lit "    1"); Add (lit "    2"); Add (lit "+3"); Ctx []] |};
        {| hp_old := 40; hp_new := 41; hp_heading := []; hp_body := [Add (lit "-- end" ++ [13]); NoEnd] |} ];
    text (lit "b/" ++ [34; 9; 233]) KAdded [ {| hp_old := 0; hp_new := 1; hp_heading := []; hp_body := [Add (lit "@@ hello")] |} ];
    text (lit "gone") KDeleted [ {| hp_old := 1; hp_new := 0; hp_heading := []; hp_body := [Del (lit "diff --git a/x b/x")] |} ];
    text (lit "copy.rs") (KCopied (lit "a b/x") 100) [];
    {| fp_path := lit "logo.png"; fp_kind := KModified None; fp_mode := lit "100755"; fp_old_mode := Some (lit "100644");
       fp_index := Some (lit "0cfbf08..2b01b6f"); fp_content := Binary |} ].

(** The text of the first file: git leaves a count of one out and puts a tab behind a name
    that holds a space. *)
Example sample_is_git_text :
  take 9 (flat_map (render_file true) sample)
  = [lit "diff --git a/src/old.rs b/src/new name.rs"; lit "similarity index 91%"; lit "rename from src/old.rs";
     lit "rename to src/new name.rs"; lit "index 0cfbf08..2b01b6f 100644"; lit "--- a/src/old.rs"; lit "+++ b/src/new name.rs" ++ [9];
     lit "@@ -3,3 +3,4 @@ impl T {"; lit " fn f() {"]
  ∧ render_top true (default (text [] KAdded []) (sample !! 1%nat))
    = lit "diff --git " ++ [34] ++ lit "a/b/" ++ [92; 34; 92] ++ lit "t" ++ [92] ++ lit "303" ++ [92] ++ lit "251" ++ [34; 32; 34]
      ++ lit "b/b/" ++ [92; 34; 92] ++ lit "t" ++ [92] ++ lit "303" ++ [92] ++ lit "251" ++ [34]
  ∧ map render_header (flat_map hunks_of (drop 1 sample)) = [lit "@@ -0,0 +1 @@"; lit "@@ -1 +0,0 @@"].
Proof. by vm_compute. Qed.

(** C4. parsing inverts git's rendering. A change set is written as git writes it: names
    quoted where [core.quotePath] says so, a tab behind a name with a space, counts of one
    left out, section headings, the lines of modes, similarities and object ids, notes on
    missing line endings, binary files. If its hunks are in order and apart and within the
    parser's ceiling and no path appears twice, it is read back as exactly its files,
    kinds, old names, numbered added lines and removed lines, less the carriage returns at
    the ends of lines. *)
Theorem parse_unified_render quote_path fps :
  patch_ok fps = true → parse_unified (render quote_path fps) = Ok (map expected fps).
Proof.
  intros H. unfold patch_ok in H. bool_to_prop.
  assert (Hbare : forallb file_ok (map bare_file fps) = true).
  { rewrite forallb_forall in *. intros fp (fp0 & <- & Hin)%in_map_iff. by apply bare_file_ok; auto. }
  unfold parse_unified, parse_all. rewrite render_lines by done.
  destruct (parse_files quote_path (map bare_file fps) init 1) as (st & Hp & (Hn & Ho & Hs) & Hc); [by split_and!|done|].
  rewrite map_map in Hc. change (λ x, read_as (bare_file x)) with expected in Hc.
  rewrite Hp. unfold finish, finish_hunk. rewrite Hn, Ho, Hc, Hs. simpl.
  pose proof (read_not_impossible (map bare_file fps) Hbare) as Hno. rewrite map_map in Hno.
  change (λ x, read_as (bare_file x)) with expected in Hno. unfold reject_impossible. rewrite Hno.
  assert (first_repeat [] (changed_paths (map expected fps)) = None) as ->.
  { apply first_repeat_None. split; [done|]. intros ? _. apply not_elem_of_nil. }
  by rewrite andb_false_r.
Qed.

Lemma parse_unified_render_witness :
  parse_unified (render true sample) = Ok (map expected sample)
  ∧ parse_unified (render false sample) = Ok (map expected sample).
Proof. split; apply parse_unified_render; vm_compute; reflexivity. Defined.

(** a diff cut inside a hunk is refused. Whatever complete files come first,
    if the last hunk stops before the lines its header declares, the answer is the
    truncation error at the last line, never a partial list of files. *)
Theorem truncated_hunk_refused quote_path fps fp h body rest :
  forallb file_ok fps = true → name_ok (fp_path fp) = true → kind_ok fp = true →
  fp_content fp = Hunks [h] → hunk_ok h = true → hp_body h = body ++ rest →
  count on_new rest + count on_old rest ≠ 0 →
  let ls := flat_map (render_file quote_path) fps
            ++ (render_top quote_path fp :: render_meta quote_path fp ++ render_names quote_path fp)
            ++ render_header h :: map render_body body in
  parse_all ls = err (length ls) [] "hunk ended before its declared line count".
Proof.
  intros Hfps Hp Hk Hh Hok Hb Hr ls.
  destruct (parse_files quote_path fps init 1) as (st & Hp0 & Hq & _); [by split_and!|done|].
  set (n1 := (1 + length (flat_map (render_file quote_path) fps))%nat).
  destruct (header_lines quote_path fp st n1) as (st1 & Hp1 & Hat1); [done..|].
  set (hd := render_top quote_path fp :: _) in *.
  assert (0 ≤ hp_new h) as Hle.
  { unfold hunk_ok in Hok. bool_to_prop. range_to_prop. lia. }
  destruct (parse_hunk_prefix _ _ _ _ h body rest (n1 + length hd)%nat Hat1 Hok Hle Hb)
    as (st2 & Hp2 & Hn2 & Ho2 & _).
  unfold parse_all. unfold ls at 1.
  rewrite parse_lines_app, Hp0, parse_lines_app. fold n1. rewrite Hp1, Hp2.
  unfold finish, finish_hunk. rewrite Hn2, Ho2.
  pose proof (count_new_nonneg rest). pose proof (count_old_nonneg rest).
  destruct (Z.eqb_spec (count on_new rest) 0), (Z.eqb_spec (count on_old rest) 0); try done. lia.
Qed.

Lemma truncated_hunk_refused_witness :
  let h := {| hp_old := 1; hp_new := 1; hp_heading := []; hp_body := [Ctx (lit "a"); Add (lit "b")] |} in
  let fp := text (lit "f.rs") (KModified None) [h] in
  let ls := flat_map (render_file true) []
            ++ (render_top true fp :: render_meta true fp ++ render_names true fp)
            ++ render_header h :: map render_body [Ctx (lit "a")] in
  parse_all ls = err (length ls) [] "hunk ended before its declared line count".
Proof.
  cbv zeta. eapply truncated_hunk_refused with (rest := [Add (lit "b")]);
    try reflexivity. discriminate.
Defined.

(** what an accepted diff is known to satisfy, whatever bytes it came from. In
    each file the added-line numbers strictly increase and stay below the ceiling
    the hunk headers set, a deleted file adds nothing, and no path, rename sources
    included, appears twice. *)
Theorem accepted_diff_well_formed diff fs :
  parse_unified diff = Ok fs →
  Forall (λ f, StronglySorted Z.lt (added_line_numbers f)
               ∧ Forall (λ n, 0 ≤ n < 2 * MAX_HUNK_VALUE) (added_line_numbers f)) fs
  ∧ NoDup (changed_paths fs)
  ∧ Forall (λ f, status f = Deleted → added_lines f = []) fs.
Proof.
  unfold parse_unified, parse_all. generalize (lines diff). intros ls.
  pose proof (parse_lines_ok ls 1 init state_ok_init) as Hst.
  destruct (parse_lines 1 ls init) as [st|e]; [|done]. unfold finish.
  destruct (finish_hunk _ _); [|done].
  destruct (reject_impossible _) as [[]|] eqn:Hr; [|done].
  case_if; [done|]. intros [= <-]. split; [by apply close_file_ok|].
  by apply reject_impossible_ok.
Qed.

Lemma accepted_diff_well_formed_witness :
  NoDup (changed_paths (map expected sample)).
Proof.
  apply (accepted_diff_well_formed (render true sample)). vm_compute. reflexivity.
Defined.

(** the line counter never reaches the top of [u32]. No input makes the parser
    answer with the overflow error, because the header ceiling keeps every number
    it counts far below it. *)
Theorem line_counter_never_overflows diff e :
  parse_unified diff = Err e →
  reason e ≠ "line number overflowed while walking the hunk"%string.
Proof.
  unfold parse_unified, parse_all. generalize (lines diff). intros ls.
  pose proof (parse_lines_ok ls 1 init state_ok_init) as Hst.
  destruct (parse_lines 1 ls init) as [st|e']; [|by intros [= <-]].
  unfold finish. destruct (finish_hunk _ _) as [|e'] eqn:Ef.
  - unfold reject_impossible, err. intros H.
    repeat (case_match_in H; try done); by simplify_eq.
  - intros [= <-]. by rewrite (finish_hunk_err _ _ _ Ef).
Qed.

Lemma line_counter_never_overflows_witness :
  "hunk ended before its declared line count"%string
  ≠ "line number overflowed while walking the hunk"%string.
Proof.
  apply (line_counter_never_overflows
           (unlines [lit "diff --git a/f b/f"; lit "@@ -1 +999999999,1000000000 @@"; lit "+x"])
           {| line_number := 3; line := [];
              reason := "hunk ended before its declared line count" |}).
  vm_compute. reflexivity.
Defined.

(** Only a blank input is an empty diff. The parser answers with no files just
    when every line is whitespace; text that holds anything else and announces no
    file is an error, so it can never read as a change that touched nothing. *)
Theorem empty_diff_iff_blank diff :
  parse_unified diff = Ok [] ↔ Forall (λ l, trim l = []) (lines diff).
Proof.
  unfold parse_unified, parse_all. generalize (lines diff). intros ls.
  rewrite <- blank_lines. split; [|intros Hb; by rewrite parse_blank].
  destruct (parse_lines 1 ls init) as [st|e] eqn:Hp; [|done].
  destruct (preamble _ _ _ _ Hp) as [_ H2]. unfold finish.
  destruct (finish_hunk _ _); [|done]. destruct (reject_impossible _); [|done].
  case_if; [done|]. intros [= Hc]. rewrite Hc, bool_decide_eq_true_2 in Heqb by done.
  simpl in Heqb. unfold close_file in Hc.
  destruct (current st) eqn:Hcur; [by destruct (files st)|].
  destruct (H2 eq_refl eq_refl) as [_ Hs]. rewrite Heqb in Hs. simpl in Hs.
  by destruct (forallb _ _).
Qed.

(** reading a name git quoted gives the name back, for every Unicode name: the
    octal and named escapes of its UTF-8 bytes are undone, and the closing quote is
    where the reader stops. *)
Theorem unquote_inverts_c_quote quote_path s :
  all_chars is_scalar s = true → unquote_path (c_quote quote_path s) = s.
Proof. intros Hs. by rewrite <- (app_nil_r (c_quote _ _)), unquote_path_c_quote. Qed.

Lemma unquote_inverts_c_quote_witness :
  unquote_path (c_quote true (lit "d/" ++ [34; 10; 233; 128512])) = lit "d/" ++ [34; 10; 233; 128512].
Proof. apply (unquote_inverts_c_quote true (lit "d/" ++ [34; 10; 233; 128512])). reflexivity. Defined.

(** the path a [diff --git] line names. Two copies of one name give it, whatever it holds
    and whether it is quoted; two names of which one is quoted give the second. *)
Theorem git_header_path_names quote_path p q :
  name_ok p = true → name_ok q = true →
  git_header_path (git_name quote_path (lit "a/") p ++ lit " " ++ git_name quote_path (lit "b/") p) = Some p
  ∧ (must_quote quote_path p = true →
     git_header_path (git_name quote_path (lit "a/") p ++ lit " " ++ git_name quote_path (lit "b/") q) = Some q).
Proof.
  intros Hp Hq. split.
  - destruct (header_names_read quote_path p p Hp Hp) as (x & -> & Hx). by rewrite Hx.
  - intros Hmust. by apply quoted_header_read.
Qed.

Lemma git_header_path_names_witness :
  git_header_path (lit "a/x b/y b/x b/y") = Some (lit "x b/y").
Proof.
  apply (git_header_path_names true (lit "x b/y") [9; 233]); reflexivity.
Defined.

End DiffProps.
