(* ===== verification/Substance.v ===== *)
(** * The substance gate: [rust/dc-verify/src/substance.rs]

    [measure] walks every added line of a diff once, in order, with the set of the
    texts already added and the set of the texts the diff removed, and puts the
    line in one of five buckets. *)

From S2P Require Import Prelude RustStr Diff.
Import Diff.

#[local] Open Scope Z_scope.

Module Substance.

Section Tables.
Context `{UnicodeTables}.

(** ** Data *)

Inductive LineClass : Type := Substantive | Trivial | Moved | Repeated | Generated.

Record FileSubstance := {
  fs_path : str;
  fs_added_lines : nat;
  fs_substantive_lines : nat;
}.

Record SubstanceReport := {
  added_lines : nat;
  substantive_lines : nat;
  trivial : nat;
  moved : nat;
  repeated : nat;
  generated : nat;
  files : list FileSubstance;
}.

Definition empty_report : SubstanceReport :=
  {| added_lines := 0; substantive_lines := 0; trivial := 0; moved := 0;
     repeated := 0; generated := 0; files := [] |}.

Definition MIN_LINES_TO_JUDGE : nat := 20.
Definition LOW_SUBSTANCE_NUMERATOR : nat := 1.
Definition LOW_SUBSTANCE_DENOMINATOR : nat := 4.

Definition judged (r : SubstanceReport) : bool :=
  (MIN_LINES_TO_JUDGE <=? added_lines r)%nat.

Definition is_low (r : SubstanceReport) : bool :=
  judged r
  && (substantive_lines r * LOW_SUBSTANCE_DENOMINATOR
      <? added_lines r * LOW_SUBSTANCE_NUMERATOR)%nat.

(** ** Trivial lines *)

Definition STRUCTURAL_WORDS : list str :=
  map lit ["else"; "end"; "end;"; "endif"; "#endif"; "fi"; "done"; "esac";
           "endfunction"; "endmodule"; "endwhile"; "endfor"; "then"; "do"; "begin";
           "loop"; "}else{"]%string.

(** The alphanumeric characters, lower-cased. *)
Definition squeeze (s : str) : str :=
  flat_map to_lowercase (List.filter is_alphanumeric s).

(** The last loop of [is_trivial]: no run of three alphanumeric characters. *)
Fixpoint no_long_run (run : nat) (s : str) : bool :=
  match s with
  | [] => true
  | c :: s' =>
      if is_alphanumeric c then
        if (3 <=? run + 1)%nat then false else no_long_run (run + 1) s'
      else no_long_run 0 s'
  end.

Definition is_trivial (trimmed : str) : bool :=
  if bool_decide (trimmed = []) then true
  else
    let squeezed := squeeze trimmed in
    if negb (bool_decide (squeezed = []))
       && existsb (λ word, bool_decide (squeeze word = squeezed)) STRUCTURAL_WORDS
    then true
    else no_long_run 0 trimmed.

(** ** Generated files *)

Definition GENERATED_SEGMENTS : list str :=
  map lit ["vendor"; "node_modules"; "third_party"; "thirdparty"; "__pycache__";
           "__snapshots__"]%string.

Definition GENERATED_NAMES : list str :=
  map lit ["Cargo.lock"; "package-lock.json"; "pnpm-lock.yaml"; "yarn.lock"; "go.sum";
           "poetry.lock"; "Gemfile.lock"; "composer.lock"; "uv.lock"; "Pipfile.lock"]%string.

Definition GENERATED_SUFFIXES : list str :=
  map lit [".pb.go"; ".pb.cc"; ".pb.h"; "_pb2.py"; "_pb2_grpc.py"; "_generated.go";
           "_gen.go"; ".generated.ts"; ".generated.js"; ".g.dart"; ".freezed.dart";
           ".min.js"; ".min.css"; ".snap"]%string.

Definition is_separator (c : char) : bool := (c =? chr "/") || (c =? 92).

Definition is_generated_path (path : str) : bool :=
  let segments := split_on is_separator path in
  if existsb (λ segment, bool_decide (segment ∈ GENERATED_SEGMENTS)) segments then true
  else
    let name := default path (last segments) in
    if bool_decide (name ∈ GENERATED_NAMES) then true
    else existsb (λ suffix, ends_with suffix name) GENERATED_SUFFIXES.

(** ** Measuring *)

Definition classify_line (trimmed : str) (generated : bool) (removed : gset str)
    (first_occurrence : bool) : LineClass :=
  if generated then Generated
  else if is_trivial trimmed then Trivial
  else if bool_decide (trimmed ∈ removed) then Moved
  else if negb first_occurrence then Repeated
  else Substantive.

(** The trimmed text of every line the diff removes. *)
Definition removed_texts (fs : list FileDiff) : gset str :=
  list_to_set (flat_map (λ f, map trim (removed_lines f)) fs).

(** One bucket, and [added_lines], up by one. *)
Definition tally (c : LineClass) (r : SubstanceReport) : SubstanceReport :=
  {| added_lines := added_lines r + 1;
     substantive_lines := substantive_lines r
                          + match c with Substantive => 1 | _ => 0 end;
     trivial := trivial r + match c with Trivial => 1 | _ => 0 end;
     moved := moved r + match c with Moved => 1 | _ => 0 end;
     repeated := repeated r + match c with Repeated => 1 | _ => 0 end;
     generated := generated r + match c with Generated => 1 | _ => 0 end;
     files := files r |}.

Definition push_file (f : FileSubstance) (r : SubstanceReport) : SubstanceReport :=
  {| added_lines := added_lines r; substantive_lines := substantive_lines r;
     trivial := trivial r; moved := moved r; repeated := repeated r;
     generated := generated r; files := files r ++ [f] |}.

(** The state the two loops thread: the texts added so far, the report, and the
    current file's substantive count. *)
Record Measure := {
  seen_added : gset str;
  report : SubstanceReport;
  file_substantive : nat;
}.

(** The inner loop's body. *)
Definition measure_line (removed : gset str) (gen : bool) (m : Measure) (content : str)
    : Measure :=
  let trimmed := trim content in
  let first_occurrence := negb (bool_decide (trimmed ∈ seen_added m)) in
  let c := classify_line trimmed gen removed first_occurrence in
  {| seen_added := {[ trimmed ]} ∪ seen_added m;
     report := tally c (report m);
     file_substantive := file_substantive m
                         + match c with Substantive => 1 | _ => 0 end |}.

(** The outer loop's body. *)
Definition measure_file (removed : gset str) (m : Measure) (f : FileDiff) : Measure :=
  if bool_decide (Diff.added_lines f = []) then m
  else
    let m0 := {| seen_added := seen_added m; report := report m; file_substantive := 0 |} in
    let m1 := fold_left (measure_line removed (is_generated_path (path f)))
                (map snd (Diff.added_lines f)) m0 in
    {| seen_added := seen_added m1;
       report := push_file {| fs_path := path f;
                              fs_added_lines := length (Diff.added_lines f);
                              fs_substantive_lines := file_substantive m1 |} (report m1);
       file_substantive := file_substantive m1 |}.

Definition path_leb (a b : FileSubstance) : bool := str_leb (fs_path a) (fs_path b).

Definition measure (fs : list FileDiff) : SubstanceReport :=
  let m := fold_left (measure_file (removed_texts fs)) fs
             {| seen_added := ∅; report := empty_report; file_substantive := 0 |} in
  let r := report m in
  {| added_lines := added_lines r; substantive_lines := substantive_lines r;
     trivial := trivial r; moved := moved r; repeated := repeated r;
     generated := generated r; files := sort_by path_leb (files r) |}.

End Tables.

End Substance.
