(* ===== verification/SubstanceProps.v ===== *)
(** * The substance gate's arithmetic

    The five buckets partition the added lines, new work is a set of texts, and a
    pure relocation scores nothing. *)

From S2P Require Import Prelude RustStr RustStrFacts Diff Substance.
Import Diff Substance.

Module SubstanceFacts.

(** ** Growing the set of texts seen *)

Lemma sets_seen_other (S R seen : gset str) t :
  t ∉ S → S ∖ R ∖ seen = S ∖ R ∖ ({[ t ]} ∪ seen).
Proof. set_solver. Qed.

Lemma sets_known (S R seen : gset str) t :
  t ∈ R ∨ t ∈ seen → ({[ t ]} ∪ S) ∖ R ∖ seen = S ∖ R ∖ ({[ t ]} ∪ seen).
Proof. set_solver. Qed.

Lemma sets_empty (R seen : gset str) : ∅ ∖ R ∖ seen = (∅ : gset str).
Proof. set_solver. Qed.

Lemma sets_new_size (S R seen : gset str) t :
  t ∉ R → t ∉ seen →
  size (({[ t ]} ∪ S) ∖ R ∖ seen) = 1 + size (S ∖ R ∖ ({[ t ]} ∪ seen)).
Proof.
  intros HR Hs.
  assert (({[ t ]} ∪ S) ∖ R ∖ seen = {[ t ]} ∪ S ∖ R ∖ ({[ t ]} ∪ seen)) as ->.
  { apply set_eq. intros x. destruct (decide (x = t)); set_solver. }
  rewrite size_union by set_solver. by rewrite size_singleton.
Qed.

Section Facts.
Context `{UnicodeTables}.

#[export] Instance LineClass_eq_dec : EqDecision LineClass.
Proof. solve_decision. Defined.

(** ** The walk as a list of classes *)

(** Every added line of a diff in order: is its file generated, its trimmed text. *)
Definition file_lines (f : FileDiff) : list (bool * str) :=
  map (λ l, (is_generated_path (path f), trim (snd l))) (Diff.added_lines f).
Definition all_lines (fs : list FileDiff) : list (bool * str) := flat_map file_lines fs.

Fixpoint classes (removed seen : gset str) (ls : list (bool * str)) : list LineClass :=
  match ls with
  | [] => []
  | (g, t) :: r =>
      classify_line t g removed (negb (bool_decide (t ∈ seen)))
        :: classes removed ({[ t ]} ∪ seen) r
  end.

Fixpoint seen_after (seen : gset str) (ls : list (bool * str)) : gset str :=
  match ls with [] => seen | (_, t) :: r => seen_after ({[ t ]} ∪ seen) r end.

Definition count_class (c : LineClass) (cs : list LineClass) : nat :=
  length (List.filter (λ d, bool_decide (d = c)) cs).

Lemma classes_app removed seen a b :
  classes removed seen (a ++ b)
  = classes removed seen a ++ classes removed (seen_after seen a) b.
Proof. revert seen. induction a as [|[g t] a IH]; intros seen; cbn; [done|]. by rewrite IH. Qed.

Lemma seen_after_app seen a b : seen_after seen (a ++ b) = seen_after (seen_after seen a) b.
Proof. revert seen. induction a as [|[g t] a IH]; intros seen; cbn; [done|]. apply IH. Qed.

Lemma classes_length removed seen ls : length (classes removed seen ls) = length ls.
Proof. revert seen. induction ls as [|[g t] ls IH]; intros seen; cbn; [done|]. by rewrite IH. Qed.

Lemma count_class_app c a b : count_class c (a ++ b) = count_class c a + count_class c b.
Proof. unfold count_class. by rewrite List.filter_app, length_app. Qed.

Lemma count_class_cons c d cs :
  count_class c (d :: cs) = (if bool_decide (d = c) then 1 else 0) + count_class c cs.
Proof. unfold count_class. cbn. by case_bool_decide. Qed.

Lemma count_class_total cs :
  count_class Substantive cs + count_class Trivial cs + count_class Moved cs
  + count_class Repeated cs + count_class Generated cs = length cs.
Proof.
  induction cs as [|c cs IH]; [done|]. rewrite !count_class_cons. cbn [length].
  destruct c; repeat case_bool_decide; try done; lia.
Qed.

(** The report after a list of classes. *)
Definition counted (r : SubstanceReport) (cs : list LineClass) : SubstanceReport :=
  {| Substance.added_lines := Substance.added_lines r + length cs;
     substantive_lines := substantive_lines r + count_class Substantive cs;
     trivial := trivial r + count_class Trivial cs;
     moved := moved r + count_class Moved cs;
     repeated := repeated r + count_class Repeated cs;
     generated := generated r + count_class Generated cs;
     Substance.files := Substance.files r |}.

Lemma counted_nil r : counted r [] = r.
Proof. unfold counted, count_class. destruct r; cbn. f_equal; lia. Qed.

Lemma counted_cons r c cs : counted (tally c r) cs = counted r (c :: cs).
Proof.
  unfold counted, tally. rewrite !count_class_cons. destruct c; repeat case_bool_decide; try done;
    cbn [length]; f_equal; cbn; lia.
Qed.

(** The inner loop counts the classes of its file's lines. *)
Lemma measure_lines_spec removed gen contents : ∀ m,
  let ls := map (λ l, (gen, trim l)) contents in
  let cs := classes removed (seen_added m) ls in
  fold_left (measure_line removed gen) contents m
  = {| seen_added := seen_after (seen_added m) ls;
       report := counted (report m) cs;
       file_substantive := file_substantive m + count_class Substantive cs |}.
Proof.
  induction contents as [|l contents IH]; intros m; cbn zeta in *;
    cbn [fold_left map classes seen_after].
  - rewrite counted_nil. destruct m; cbn. f_equal. lia.
  - rewrite IH. cbn [measure_line seen_added report file_substantive].
    rewrite counted_cons, count_class_cons. f_equal.
    destruct (classify_line _ _ _ _); repeat case_bool_decide; try done; lia.
Qed.

(** ** The whole walk *)

Definition file_row (removed seen : gset str) (f : FileDiff) : FileSubstance :=
  {| fs_path := path f;
     fs_added_lines := length (Diff.added_lines f);
     fs_substantive_lines := count_class Substantive (classes removed seen (file_lines f)) |}.

Fixpoint rows (removed seen : gset str) (fs : list FileDiff) : list FileSubstance :=
  match fs with
  | [] => []
  | f :: r =>
      (if bool_decide (Diff.added_lines f = []) then [] else [file_row removed seen f])
      ++ rows removed (seen_after seen (file_lines f)) r
  end.

Definition with_files (r : SubstanceReport) (l : list FileSubstance) : SubstanceReport :=
  {| Substance.added_lines := Substance.added_lines r;
     substantive_lines := substantive_lines r; trivial := trivial r; moved := moved r;
     repeated := repeated r; generated := generated r; Substance.files := l |}.

Lemma counted_app r a b l :
  with_files (counted (counted r a) b) l = with_files (counted r (a ++ b)) l.
Proof.
  unfold with_files, counted. cbn. rewrite !count_class_app, length_app.
  f_equal; lia.
Qed.

Lemma counted_push f r cs l :
  with_files (counted (push_file f r) cs) l = with_files (counted r cs) l.
Proof. done. Qed.

Lemma measure_file_spec removed m f :
  let ls := file_lines f in
  let cs := classes removed (seen_added m) ls in
  let m' := measure_file removed m f in
  seen_added m' = seen_after (seen_added m) ls
  ∧ report m' = with_files (counted (report m) cs)
                  (Substance.files (report m)
                   ++ (if bool_decide (Diff.added_lines f = []) then []
                       else [file_row removed (seen_added m) f])).
Proof.
  unfold measure_file, file_row, file_lines. case_bool_decide as Hn.
  - rewrite Hn. cbn. rewrite counted_nil, app_nil_r. by destruct (report m).
  - rewrite measure_lines_spec, map_map. cbn. split; [done|]. done.
Qed.

Lemma measure_fold_spec removed fs : ∀ m,
  report (fold_left (measure_file removed) fs m)
  = with_files (counted (report m) (classes removed (seen_added m) (all_lines fs)))
      (Substance.files (report m) ++ rows removed (seen_added m) fs).
Proof.
  induction fs as [|f fs IH]; intros m; cbn [fold_left all_lines flat_map rows].
  - cbn. rewrite counted_nil, app_nil_r. by destruct (report m).
  - destruct (measure_file_spec removed m f) as [Hs Hr]. cbv zeta in Hs, Hr.
    rewrite IH, Hs, Hr, classes_app, <- counted_app, (app_assoc (Substance.files _)).
    done.
Qed.

Lemma measure_eq fs :
  measure fs
  = with_files (counted empty_report (classes (removed_texts fs) ∅ (all_lines fs)))
      (sort_by path_leb (rows (removed_texts fs) ∅ fs)).
Proof. unfold measure. by rewrite measure_fold_spec. Qed.

(** ** Sums over the rows *)

Lemma file_lines_nil f : Diff.added_lines f = [] → file_lines f = [].
Proof. unfold file_lines. by intros ->. Qed.

Lemma rows_sums removed fs : ∀ seen,
  sum_list_with fs_added_lines (rows removed seen fs)
  = sum_list_with (λ f, length (Diff.added_lines f)) fs
  ∧ sum_list_with fs_substantive_lines (rows removed seen fs)
    = count_class Substantive (classes removed seen (all_lines fs)).
Proof.
  induction fs as [|f fs IH]; intros seen; cbn [rows all_lines flat_map]; [done|].
  destruct (IH (seen_after seen (file_lines f))) as [H1 H2].
  rewrite classes_app, count_class_app. fold (all_lines fs).
  case_bool_decide as Hn; cbn [app sum_list_with].
  - rewrite H1, H2, (file_lines_nil _ Hn), Hn. done.
  - cbn [file_row fs_added_lines fs_substantive_lines sum_list_with]. by rewrite H1, H2.
Qed.

Lemma rows_paths removed fs : ∀ seen,
  map fs_path (rows removed seen fs)
  = map path (List.filter (λ f, negb (bool_decide (Diff.added_lines f = []))) fs).
Proof.
  induction fs as [|f fs IH]; intros seen; cbn; [done|].
  rewrite map_app, IH. by case_bool_decide.
Qed.

Lemma all_lines_length fs :
  length (all_lines fs) = sum_list_with (λ f, length (Diff.added_lines f)) fs.
Proof.
  induction fs as [|f fs IH]; cbn; [done|].
  rewrite length_app. unfold file_lines. rewrite length_map. by rewrite <- IH.
Qed.

Lemma path_leb_total a b : path_leb a b = true ∨ path_leb b a = true.
Proof. apply str_leb_total. Qed.

(** ** New work as a set of texts *)

(** The texts of the lines that are not structure. *)
Definition content_texts (ls : list (bool * str)) : gset str :=
  list_to_set (List.filter (λ t, negb (is_trivial t)) (map snd ls)).

Lemma content_texts_cons g t ls :
  content_texts ((g, t) :: ls)
  = if is_trivial t then content_texts ls else {[ t ]} ∪ content_texts ls.
Proof. unfold content_texts. cbn. by destruct (is_trivial t). Qed.

Lemma content_texts_nontrivial t ls : t ∈ content_texts ls → is_trivial t = false.
Proof.
  unfold content_texts. rewrite elem_of_list_to_set, list_elem_of_In, filter_In.
  intros [_ Ht]. by apply negb_true_iff in Ht.
Qed.

Lemma count_substantive_size removed ls : ∀ seen,
  Forall (λ l, fst l = false) ls →
  count_class Substantive (classes removed seen ls)
  = size (content_texts ls ∖ removed ∖ seen).
Proof.
  induction ls as [|[g t] ls IH]; intros seen Hg.
  { change (content_texts []) with (∅ : gset str). by rewrite sets_empty. }
  apply Forall_cons in Hg as [Hg Hls]. cbn in Hg. subst g.
  cbn [classes]. rewrite count_class_cons, IH by done. rewrite content_texts_cons.
  unfold classify_line. destruct (is_trivial t) eqn:Ht.
  { rewrite bool_decide_eq_false_2 by done. cbn [plus]. f_equal. symmetry.
    apply sets_seen_other. intros Hin. apply content_texts_nontrivial in Hin. congruence. }
  destruct (decide (t ∈ removed)) as [Hr|Hr].
  { rewrite (bool_decide_eq_true_2 (t ∈ removed)), bool_decide_eq_false_2 by done.
    cbn [plus]. f_equal. symmetry. apply sets_known. by left. }
  rewrite (bool_decide_eq_false_2 (t ∈ removed)) by done.
  destruct (decide (t ∈ seen)) as [Hs|Hs].
  { rewrite (bool_decide_eq_true_2 (t ∈ seen)) by done. cbn [negb].
    rewrite bool_decide_eq_false_2 by done.
    cbn [plus]. f_equal. symmetry. apply sets_known. by right. }
  rewrite (bool_decide_eq_false_2 (t ∈ seen)) by done. cbn [negb].
  rewrite bool_decide_eq_true_2 by done. by rewrite sets_new_size.
Qed.

(** Lines that are structure, generated or relocated are never new work. *)
Lemma count_substantive_zero removed ls : ∀ seen,
  Forall (λ '(g, t), g = true ∨ is_trivial t = true ∨ t ∈ removed) ls →
  count_class Substantive (classes removed seen ls) = 0.
Proof.
  induction ls as [|[g t] ls IH]; intros seen Hl; [done|].
  apply Forall_cons in Hl as [Ht Hl]. cbn [classes]. rewrite count_class_cons, IH by done.
  unfold classify_line. destruct g; [done|]. destruct (is_trivial t); [done|].
  destruct Ht as [?|[?|Ht]]; [done..|]. by rewrite (bool_decide_eq_true_2 (t ∈ removed)).
Qed.

Lemma all_lines_not_generated fs :
  Forall (λ f, is_generated_path (path f) = false) fs →
  Forall (λ l, fst l = false) (all_lines fs).
Proof.
  induction 1 as [|f fs Hf _ IH]; cbn; [constructor|]. apply Forall_app. split; [|done].
  apply Forall_map, Forall_forall. by intros.
Qed.

(** ** Trivial lines *)

(** Three alphanumeric characters in a row, the first [3 - run] of them here. *)
Lemma no_long_run_spec s : ∀ run, run < 3 →
  no_long_run run s = false ↔
  (∃ a x y z b, s = a ++ x :: y :: z :: b
     ∧ is_alphanumeric x = true ∧ is_alphanumeric y = true ∧ is_alphanumeric z = true)
  ∨ (∃ p b, s = p ++ b ∧ length p = 3 - run ∧ run ≠ 0 ∧ all_chars is_alphanumeric p = true).
Proof.
  induction s as [|c s IH]; intros run Hrun.
  { cbn. split; [done|]. intros [(a & x & y & z & b & E & _)|(p & b & E & Hp & _)].
    - by destruct a.
    - destruct p; [cbn in Hp; lia|done]. }
  cbn [no_long_run]. destruct (is_alphanumeric c) eqn:Hc.
  - destruct (Nat.leb_spec 3 (run + 1)) as [H3|H3].
    { split; [intros _; right|done]. exists [c], s. cbn. rewrite Hc. split_and!; try done; lia. }
    rewrite IH by lia. split.
    + intros [(a & x & y & z & b & -> & Hx)|(p & b & -> & Hp & _ & Ha)].
      * left. by exists (c :: a), x, y, z, b.
      * destruct (decide (run = 0)) as [->|Hne].
        -- left. destruct p as [|y [|z [|]]]; cbn in Hp; try lia. cbn in Ha.
           apply andb_true_iff in Ha as [Hy [Hz _]%andb_true_iff]. by exists [], c, y, z, b.
        -- right. exists (c :: p), b. cbn. rewrite Hc, Ha. split_and!; try done; lia.
    + intros [(a & x & y & z & b & E & Hx & Hy & Hz)|(p & b & E & Hp & Hne & Ha)].
      * destruct a as [|d a]; cbn in E; simplify_eq; [|left; by exists a, x, y, z, b].
        destruct (decide (run = 0)) as [->|Hne].
        -- right. exists [y; z], b. cbn. rewrite Hy, Hz. split_and!; done.
        -- assert (run = 1) as -> by lia. right. exists [y], (z :: b). cbn.
           rewrite Hy. split_and!; done.
      * destruct p as [|d p]; [cbn in Hp; lia|]. cbn in E, Hp, Ha. simplify_eq.
        apply andb_true_iff in Ha as [_ Ha]. right. exists p, b. split_and!; try done; lia.
  - rewrite IH by lia. split.
    + intros [(a & x & y & z & b & -> & Hx)|(p & b & _ & _ & ? & _)]; [|done].
      left. by exists (c :: a), x, y, z, b.
    + intros [(a & x & y & z & b & E & Hx & Hy & Hz)|(p & b & E & Hp & Hne & Ha)].
      * left. destruct a as [|d a]; cbn in E; simplify_eq; [congruence|]. by exists a, x, y, z, b.
      * destruct p as [|d p]; [cbn in Hp; lia|]. cbn in E, Ha. simplify_eq.
        apply andb_true_iff in Ha as [? _]. congruence.
Qed.

End Facts.

End SubstanceFacts.

(** * What the substance measurement guarantees *)

Import Diff Substance SubstanceFacts.

Module SubstanceProps.

Section Props.
Context `{UnicodeTables}.

(** The lines a diff adds, with whether a tool wrote their file. *)
Definition added_total (fs : list FileDiff) : nat :=
  sum_list_with (λ f, length (Diff.added_lines f)) fs.

(** the buckets partition the diff. The five counts sum to the added-line
    count, which is the number of lines the diff adds; the per-file rows sum to the
    same two totals; and the rows are the files that add a line, sorted by path. *)
Theorem buckets_partition fs :
  let r := measure fs in
  substantive_lines r + trivial r + moved r + repeated r + generated r
    = Substance.added_lines r
  ∧ Substance.added_lines r = added_total fs
  ∧ sum_list_with fs_added_lines (files r) = Substance.added_lines r
  ∧ sum_list_with fs_substantive_lines (files r) = substantive_lines r
  ∧ Sorted (λ a b, path_leb a b = true) (files r)
  ∧ map fs_path (files r)
    ≡ₚ map path (List.filter (λ f, negb (bool_decide (Diff.added_lines f = []))) fs).
Proof.
  intros r. unfold r. rewrite measure_eq. cbn.
  destruct (rows_sums (removed_texts fs) fs ∅) as [H1 H2].
  rewrite classes_length, all_lines_length, !(sum_list_with_perm _ _ _ (sort_by_perm _ _)), H1, H2.
  split_and!; try done.
  - rewrite count_class_total, classes_length. apply all_lines_length.
  - apply sort_by_sorted, path_leb_total.
  - by rewrite sort_by_perm, rows_paths.
Qed.

(** new work is a set of texts. With no generated file, the substantive count is
    the number of distinct trimmed texts that are not structure and that the diff
    does not also remove. The order of the lines, the files they sit in and how
    often each is pasted make no difference. *)
Theorem substantive_is_distinct_new_text fs :
  Forall (λ f, is_generated_path (path f) = false) fs →
  substantive_lines (measure fs)
  = size (content_texts (all_lines fs) ∖ removed_texts fs).
Proof.
  intros Hg. rewrite measure_eq. cbn.
  rewrite count_substantive_size by (by apply all_lines_not_generated).
  f_equal. apply set_eq. set_solver.
Qed.

(** a relocation measures nothing. If every line a diff adds is structure, sits
    in a generated file or is, re-indentation aside, a line the diff removes, then
    no line is substantive, and the diff is low as soon as it is large enough to
    judge. *)
Theorem relocation_scores_zero fs :
  (∀ f n s, f ∈ fs → (n, s) ∈ Diff.added_lines f →
     is_generated_path (path f) = true ∨ is_trivial (trim s) = true
     ∨ trim s ∈ removed_texts fs) →
  substantive_lines (measure fs) = 0
  ∧ is_low (measure fs) = (MIN_LINES_TO_JUDGE <=? added_total fs).
Proof.
  intros Hl. assert (substantive_lines (measure fs) = 0) as Hz.
  { rewrite measure_eq. cbn. apply count_substantive_zero, Forall_forall.
    intros [g t] Hin. unfold all_lines in Hin. apply list_elem_of_In, in_flat_map in Hin.
    destruct Hin as (f & Hf%list_elem_of_In & Hin). unfold file_lines in Hin.
    apply in_map_iff in Hin as ([n s] & [= <- <-] & Hin%list_elem_of_In). by eapply Hl. }
  split; [done|]. unfold is_low, judged. rewrite Hz.
  rewrite measure_eq. cbn [Substance.added_lines with_files counted empty_report plus].
  rewrite classes_length, all_lines_length. fold (added_total fs).
  unfold LOW_SUBSTANCE_NUMERATOR, MIN_LINES_TO_JUDGE. cbn [Nat.mul].
  destruct (Nat.leb_spec 20 (added_total fs)); [|done].
  cbn [andb]. apply Nat.ltb_lt. lia.
Qed.

(** a hand-written line whose text an earlier generated file also adds is filed
    as a repeat, not as new work: the insertion into the seen set runs for
    generated lines too. *)
Theorem generated_twin_hides_new_work p q c d m n :
  is_generated_path p = true → is_generated_path q = false →
  trim c = trim d → is_trivial (trim d) = false →
  let gen := {| path := p; old_path := None; status := Modified;
                Diff.added_lines := [(m, c)]; removed_lines := [] |} in
  let hand := {| path := q; old_path := None; status := Modified;
                 Diff.added_lines := [(n, d)]; removed_lines := [] |} in
  repeated (measure [gen; hand]) = 1 ∧ substantive_lines (measure [gen; hand]) = 0
  ∧ substantive_lines (measure [hand; gen]) = 1.
Proof.
  intros Hp Hq Ht Hd gen hand. rewrite !measure_eq. unfold all_lines, file_lines.
  cbn [flat_map map app snd path Diff.added_lines classes substantive_lines repeated
       with_files counted empty_report gen hand].
  rewrite Hp, Hq, Ht.
  unfold classify_line. rewrite Hd.
  rewrite (bool_decide_eq_true_2 (trim d ∈ {[ trim d ]} ∪ ∅)) by set_solver.
  rewrite !(bool_decide_eq_false_2 (trim d ∈ ∅)) by set_solver.
  rewrite (bool_decide_eq_false_2 (trim d ∈ removed_texts _)) by (cbn; set_solver).
  rewrite (bool_decide_eq_false_2 (trim d ∈ removed_texts _)) by (cbn; set_solver).
  done.
Qed.

(** Which lines are structure. A trimmed line counts as content exactly when it
    holds three alphanumeric characters in a row and its alphanumeric characters,
    lower-cased, do not spell a structural word. *)
Theorem is_trivial_iff t :
  is_trivial t = false ↔
  (∃ a x y z b, t = a ++ x :: y :: z :: b
     ∧ is_alphanumeric x = true ∧ is_alphanumeric y = true ∧ is_alphanumeric z = true)
  ∧ ¬ (squeeze t ≠ [] ∧ squeeze t ∈ map squeeze STRUCTURAL_WORDS).
Proof.
  unfold is_trivial. case_bool_decide as Hn.
  { subst. split; [done|]. intros [(a & x & y & z & b & E & _) _]. by destruct a. }
  pose proof (no_long_run_spec t 0 ltac:(lia)) as Hrun.
  assert (no_long_run 0 t = false ↔ ∃ a x y z b, t = a ++ x :: y :: z :: b
    ∧ is_alphanumeric x = true ∧ is_alphanumeric y = true ∧ is_alphanumeric z = true) as <-.
  { rewrite Hrun. split; [|by left]. intros [?|(p & b & _ & _ & ? & _)]; [done|lia]. }
  assert (existsb (λ word, bool_decide (squeeze word = squeeze t)) STRUCTURAL_WORDS = true
          ↔ squeeze t ∈ map squeeze STRUCTURAL_WORDS) as Hw.
  { rewrite existsb_exists, list_elem_of_In, in_map_iff.
    by setoid_rewrite bool_decide_eq_true; setoid_rewrite (comm and (_ = _)). }
  destruct (negb _ && _) eqn:E.
  - apply andb_true_iff in E as [Hs Hm%Hw]. apply negb_true_iff, bool_decide_eq_false in Hs.
    split; [done|]. intros [_ []]. done.
  - split; [|by intros [? _]]. intros Hr. split; [done|]. intros [Hs Hm%Hw].
    rewrite Hm, bool_decide_eq_false_2 in E by done. done.
Qed.

End Props.

(** ** Witnesses *)

#[local] Existing Instance ascii_tables.

Definition file_of (p : str) (added removed : list str) : FileDiff :=
  {| path := p; old_path := None; status := Modified;
     Diff.added_lines := map (λ s, (1%Z, s)) added; removed_lines := removed |}.

Lemma substantive_is_distinct_new_text_witness :
  let fs := [file_of (lit "a.rs") [lit "  let x = 1;"; lit "}"; lit "let x = 1;"] [];
             file_of (lit "b.rs") [lit "moved_fn()"; lit "fresh()"] [lit "  moved_fn()"]] in
  substantive_lines (measure fs) = size (content_texts (all_lines fs) ∖ removed_texts fs)
  ∧ substantive_lines (measure fs) = 2.
Proof.
  split; [|vm_compute; reflexivity].
  apply substantive_is_distinct_new_text. repeat constructor.
Defined.

Lemma relocation_scores_zero_witness :
  substantive_lines
    (measure [file_of (lit "a.rs") [lit "    fn moved() {"; lit "}"] [lit "fn moved() {"]]) = 0.
Proof.
  apply relocation_scores_zero. intros f n s Hf Hs.
  apply list_elem_of_singleton in Hf as ->. right.
  apply elem_of_cons in Hs as [[= _ ->]|Hs].
  - right. apply elem_of_list_to_set. vm_compute. constructor.
  - left. apply list_elem_of_singleton in Hs as [= _ ->]. vm_compute. reflexivity.
Defined.

Lemma generated_twin_hides_new_work_witness :
  let gen := file_of (lit "vendor/a.go") [lit "type Config struct"] [] in
  let hand := file_of (lit "src/b.go") [lit "type Config struct"] [] in
  repeated (measure [gen; hand]) = 1 ∧ substantive_lines (measure [gen; hand]) = 0
  ∧ substantive_lines (measure [hand; gen]) = 1.
Proof.
  apply (generated_twin_hides_new_work (lit "vendor/a.go") (lit "src/b.go")
           (lit "type Config struct") (lit "type Config struct") 1%Z 1%Z);
    vm_compute; reflexivity.
Defined.

End SubstanceProps.
