(* ===== verification/Paths.v ===== *)
(** * Path spelling shared by the classifiers

    [rust/dc-glob/src/secret_paths.rs] and [rust/dc-verify/src/lib.rs] both read a
    backslash as a separator and drop every leading [./]. *)

From S2P Require Import Prelude RustStr RustStrFacts Glob GlobFacts.
#[local] Open Scope Z_scope.

Module Paths.

Definition slash : char := 47.
Definition backslash : char := 92.

(** [path.replace('\\', "/")]. *)
Definition slashed (path : str) : str := replace_char backslash slash path.

(** [while let Some(rest) = p.strip_prefix("./") { p = rest }]. *)
Fixpoint strip_dot_slashes (s : str) : str :=
  match s with
  | c :: (d :: r) as s' => if (c =? 46) && (d =? slash) then strip_dot_slashes r else s
  | _ => s
  end.

(** ** The loop's equation *)

Lemma strip_dot_slashes_eq s :
  strip_dot_slashes s =
  match strip_prefix (lit "./") s with
  | Some rest => strip_dot_slashes rest
  | None => s
  end.
Proof.
  destruct s as [|c [|d r]]; [done| |].
  - change (lit "./") with [46; 47]. cbn [strip_prefix]. by destruct (46 =? c).
  - change (lit "./") with [46; 47]. cbn [strip_prefix strip_dot_slashes].
    rewrite (Z.eqb_sym c), (Z.eqb_sym d). unfold slash.
    destruct (46 =? c), (47 =? d); done.
Qed.

Lemma strip_dot_slashes_dot s : strip_dot_slashes (lit "./" ++ s) = strip_dot_slashes s.
Proof. by rewrite strip_dot_slashes_eq, strip_prefix_app. Qed.

(** Only whole [./] prefixes go: what is left is a suffix that has none. *)
Lemma strip_dot_slashes_spec s :
  ∃ n, s = concat (replicate n (lit "./")) ++ strip_dot_slashes s
       ∧ strip_prefix (lit "./") (strip_dot_slashes s) = None.
Proof.
  induction s as [s IH] using (well_founded_induction (well_founded_ltof _ (@length Z))).
  destruct (strip_prefix (lit "./") s) as [r|] eqn:E.
  - pose proof E as E'. apply strip_prefix_Some in E' as ->.
    destruct (IH r) as (n & Hr & Hn).
    { unfold ltof. rewrite length_app. change (length (lit "./")) with 2%nat. lia. }
    exists (S n). rewrite strip_dot_slashes_dot. split; [|done].
    cbn [replicate concat]. by rewrite <- app_assoc, <- Hr.
  - exists O. rewrite strip_dot_slashes_eq, E. done.
Qed.

Lemma strip_dot_slashes_none s :
  strip_prefix (lit "./") s = None → strip_dot_slashes s = s.
Proof. intros H. by rewrite strip_dot_slashes_eq, H. Qed.

Lemma strip_dot_slashes_idem s : strip_dot_slashes (strip_dot_slashes s) = strip_dot_slashes s.
Proof. destruct (strip_dot_slashes_spec s) as (n & _ & H). by apply strip_dot_slashes_none. Qed.

(** A component at the end survives, in a directory or alone. *)
Lemma strip_dot_slashes_last dir name :
  strip_prefix (lit "./") name = None →
  strip_dot_slashes (dir ++ slash :: name) = name
  ∨ ∃ dir', strip_dot_slashes (dir ++ slash :: name) = dir' ++ slash :: name.
Proof.
  intros Hn.
  induction dir as [dir IH] using (well_founded_induction (well_founded_ltof _ (@length Z))).
  destruct dir as [|c [|d dir]].
  - right. exists []. cbn. destruct name as [|e name]; done.
  - destruct (Z.eqb_spec c 46) as [->|Hc].
    + left. change ([46] ++ slash :: name) with (lit "./" ++ name).
      by rewrite strip_dot_slashes_dot, strip_dot_slashes_none.
    + right. exists [c]. cbn. by rewrite (proj2 (Z.eqb_neq _ _) Hc).
  - cbn [app strip_dot_slashes]. destruct (_ && _).
    + apply IH. unfold ltof. cbn. lia.
    + right. by exists (c :: d :: dir).
Qed.

(** ** Separators *)

Lemma slashed_app a b : slashed (a ++ b) = slashed a ++ slashed b.
Proof. unfold slashed, replace_char. apply map_app. Qed.

Lemma slashed_idem s : slashed (slashed s) = slashed s.
Proof.
  unfold slashed, replace_char. rewrite map_map. apply map_ext. intros c.
  destruct (Z.eqb_spec c backslash) as [|Hc]; [done|].
  by rewrite (proj2 (Z.eqb_neq _ _) Hc).
Qed.

Lemma strip_dot_slashes_slashed s :
  slashed (strip_dot_slashes (slashed s)) = strip_dot_slashes (slashed s).
Proof.
  destruct (strip_dot_slashes_spec (slashed s)) as (n & Hs & _).
  pose proof (slashed_idem s) as Hi. rewrite Hs in Hi at 1. rewrite slashed_app in Hi.
  rewrite Hs in Hi at 2.
  assert (∀ m, slashed (concat (replicate m (lit "./"))) = concat (replicate m (lit "./"))) as Hc.
  { intros m. induction m as [|m IH]; [done|]. cbn [replicate concat].
    by rewrite slashed_app, IH. }
  rewrite Hc in Hi. by apply app_inv_head in Hi.
Qed.

End Paths.

(** * The credential deny list: [rust/dc-glob/src/secret_paths.rs] *)

Import Glob Paths.

#[local] Open Scope Z_scope.

Module SecretPaths.

Definition SECRET_PATH_PATTERNS : list str :=
  map lit [".env"; ".env.*"; "**/.env"; "**/.env.*"; "credentials/**"; "**/credentials/**";
           "secrets/**"; "**/secrets/**"; "*.pem"; "*.key"; "**/id_rsa"; "**/id_dsa";
           "**/id_ecdsa"; "**/id_ed25519"; "id_rsa"; "id_dsa"; "id_ecdsa"; "id_ed25519";
           ".npmrc"; "**/.npmrc"; ".pypirc"; "**/.pypirc"; ".netrc"; "**/.netrc";
           ".aws/credentials"; "**/.aws/credentials"; ".envrc"; "**/.envrc";
           ".git-credentials"; "**/.git-credentials"; "*.p12"]%string.

Section Tables.
Context `{UnicodeTables}.

(** The long s folds to [s]; every other scalar to the first of its lower case. *)
Definition fold_char (c : char) : char :=
  if c =? 383 then chr "s" else default c (head (to_lowercase c)).

Definition fold (text : str) : str := map fold_char text.

Definition compiled : list (option Pattern) := map compile SECRET_PATH_PATTERNS.

Definition is_secret_path (path : str) : bool :=
  let folded := fold (strip_dot_slashes (slashed path)) in
  match Name_new folded with
  | None => true
  | Some name =>
      existsb
        (λ pattern,
           match pattern with
           | None => true
           | Some p => default true (Pattern_try_matches p name)
           end)
        compiled
  end.

End Tables.

End SecretPaths.

(** * Which paths are tests: [rust/dc-glob/src/test_paths.rs]

    The classifier, and the reader of the fixture that pins it. *)

Import Paths.

#[local] Open Scope Z_scope.

Module TestPaths.

Definition TEST_DIRECTORIES : list str :=
  map lit ["test"; "tests"; "spec"; "specs"; "__tests__"; "testing"; "e2e"; "testdata"]%string.

Section Tables.
Context `{UnicodeTables}.

Definition is_test_directory (segment : str) : bool :=
  bool_decide (str_to_lowercase segment ∈ TEST_DIRECTORIES).

Definition in_test_directory (path : str) : bool :=
  match rsplit_once slash (slashed path) with
  | Some (directories, _) => existsb is_test_directory (split_on (Z.eqb slash) directories)
  | None => false
  end.

(** [s.split('.').next().unwrap_or(s)]. *)
Definition stem_of (s : str) : str := default s (head (split_on (Z.eqb (chr ".")) s)).

Definition TEST_INFIXES : list str :=
  map lit [".test."; ".spec."; "_test."; "_spec."; "-test."; "-spec."]%string.
Definition TEST_STEMS : list str := map lit ["test"; "tests"; "spec"; "specs"]%string.
Definition TEST_SUFFIXES : list str := map lit ["Test"; "Tests"; "Spec"; "Specs"]%string.

Definition is_test_file_name (file_name : str) : bool :=
  let lowered := str_to_lowercase file_name in
  let stem := stem_of file_name in
  let lowered_stem := stem_of lowered in
  starts_with (lit "test_") lowered
  || starts_with (lit "spec_") lowered
  || existsb (λ infix, str_contains infix lowered) TEST_INFIXES
  || bool_decide (lowered_stem ∈ TEST_STEMS)
  || existsb (λ suffix, ends_with suffix stem) TEST_SUFFIXES.

Definition is_test_path (path : str) : bool :=
  let normalized := slashed path in
  let file_name := default normalized (last (split_on (Z.eqb slash) normalized)) in
  in_test_directory normalized || is_test_file_name file_name.

End Tables.

(** ** The fixture *)

(** The reader's refusals, with what their messages quote. *)
Inductive RowError : Type :=
  | PathWithoutTest
  | TestWithoutPath
  | NotBoolean (other : str)
  | LastPathWithoutTest
  | NoRows
  | NotAString (raw : str)
  | BadEscape (other : option char) (raw : str).

(** The loop of [unquote] over the body's characters. *)
Fixpoint unescape (raw : str) (body : str) : result str RowError :=
  match body with
  | [] => Ok []
  | c :: rest =>
      if negb (c =? 92) then let? out := unescape raw rest in Ok (c :: out)
      else match rest with
           | d :: rest' =>
               if (d =? 92) || (d =? 34) || (d =? 47) then
                 let? out := unescape raw rest' in Ok (d :: out)
               else Err (BadEscape (Some d) raw)
           | [] => Err (BadEscape None raw)
           end
  end.

Definition unquote (raw : str) : result str RowError :=
  match (let! rest := strip_prefix [34] raw in strip_suffix [34] rest) with
  | Some body => unescape raw body
  | None => Err (NotAString raw)
  end.

(** The member names, quoted as the fixture quotes them. *)
Definition path_member : str := [34] ++ lit "path" ++ [34] ++ lit ":".
Definition test_member : str := [34] ++ lit "test" ++ [34] ++ lit ":".

(** One turn of the loop: the rows so far and the path waiting for its test. *)
Definition row_step (line : str) (rows : list (str * bool)) (pending : option str)
    : result (list (str * bool) * option str) RowError :=
  let line := trim_end_by (Z.eqb (chr ",")) (trim line) in
  match strip_prefix path_member line with
  | Some raw =>
      match pending with
      | Some _ => Err PathWithoutTest
      | None => let? p := unquote (trim raw) in Ok (rows, Some p)
      end
  | None =>
      match strip_prefix test_member line with
      | Some flag =>
          match pending with
          | None => Err TestWithoutPath
          | Some p =>
              let flag := trim flag in
              if bool_decide (flag = lit "true") then Ok (rows ++ [(p, true)], None)
              else if bool_decide (flag = lit "false") then Ok (rows ++ [(p, false)], None)
              else Err (NotBoolean flag)
          end
      | None => Ok (rows, pending)
      end
  end.

Fixpoint row_loop (ls : list str) (rows : list (str * bool)) (pending : option str)
    : result (list (str * bool) * option str) RowError :=
  match ls with
  | [] => Ok (rows, pending)
  | l :: ls' => let? (rows', pending') := row_step l rows pending in row_loop ls' rows' pending'
  end.

Definition parse_test_path_rows (json : str) : result (list (str * bool)) RowError :=
  let? (rows, pending) := row_loop (lines json) [] None in
  match pending with
  | Some _ => Err LastPathWithoutTest
  | None => match rows with [] => Err NoRows | _ => Ok rows end
  end.

End TestPaths.

(** * The path classifiers against their rules

    A credential path is denied whatever its directory, separators, dot prefixes or
    case; a test path is read off the list of its components; the fixture reader
    inverts the fixture's layout. *)

Module PathFacts.
Import Glob GlobFacts Paths SecretPaths TestPaths.

(** ** Splitting at the last separator *)

Lemma rsplit_once_spec c s :
  match rsplit_once c s with
  | Some (a, b) => s = a ++ c :: b ∧ all_chars (λ d, negb (d =? c)) b = true
  | None => all_chars (λ d, negb (d =? c)) s = true
  end.
Proof.
  induction s as [|d s IH]; [done|]. cbn [rsplit_once].
  destruct (rsplit_once c s) as [[a b]|].
  - destruct IH as [-> Hb]. done.
  - destruct (Z.eqb_spec d c) as [->|Hd]; [done|]. cbn [forallb].
    by rewrite (proj2 (Z.eqb_neq _ _) Hd).
Qed.

Lemma split_on_snoc p a c b :
  p c = true → all_chars (λ d, negb (p d)) b = true →
  split_on p (a ++ c :: b) = split_on p a ++ [b].
Proof.
  intros Hc Hb. induction a as [|d a IH].
  - cbn. rewrite Hc. f_equal. by apply split_on_none.
  - cbn [app split_on]. destruct (p d); [by rewrite IH|].
    rewrite IH. pose proof (split_on_nonempty p a). by destruct (split_on p a).
Qed.

Lemma no_char_eqb c s :
  all_chars (λ d, negb (d =? c)) s = true → all_chars (λ d, negb (c =? d)) s = true.
Proof. apply all_chars_impl. intros d. by rewrite Z.eqb_sym. Qed.

Section Tables.
Context `{UnicodeTables}.

(** The components of a path, either separator accepted. *)
Definition components (path : str) : list str := split_on (Z.eqb slash) (slashed path).

Lemma in_test_directory_components path :
  in_test_directory path = true ↔
  ∃ dirs file, components path = dirs ++ [file] ∧ existsb is_test_directory dirs = true.
Proof.
  unfold in_test_directory, components. set (s := slashed path).
  pose proof (rsplit_once_spec slash s) as Hs.
  destruct (rsplit_once slash s) as [[a b]|].
  - destruct Hs as [-> Hb]. rewrite split_on_snoc; [|by rewrite Z.eqb_refl|by apply no_char_eqb].
    split; [intros Ht; by exists (split_on (Z.eqb slash) a), b|].
    by intros (dirs & file & [-> _]%app_inj_tail & Ht).
  - split; [done|]. intros (dirs & file & E & Ht).
    rewrite split_on_none in E by (by apply no_char_eqb).
    destruct dirs as [|d [|]]; done.
Qed.

Lemma components_slashed path : components (slashed path) = components path.
Proof. unfold components. by rewrite slashed_idem. Qed.

Lemma components_snoc path : ∃ dirs file, components path = dirs ++ [file].
Proof.
  unfold components. pose proof (split_on_nonempty (Z.eqb slash) (slashed path)) as Hne.
  destruct (split_on (Z.eqb slash) (slashed path)) as [|w ws _] using rev_ind.
  - done.
  - by exists ws, w.
Qed.

(** ** Folding *)

Lemma fold_char_ascii c :
  0 ≤ c < 128 → fold_char c = to_ascii_lowercase c.
Proof.
  intros Hc. unfold fold_char. rewrite (proj2 (Z.eqb_neq c 383)) by lia.
  by rewrite to_lowercase_ascii.
Qed.

Lemma fold_char_case c : fold_char (to_ascii_uppercase c) = fold_char c.
Proof.
  unfold to_ascii_uppercase. destruct (is_ascii_lower c) eqn:E; [|done].
  unfold is_ascii_lower in E. rewrite in_range_spec in E.
  rewrite !fold_char_ascii by lia. unfold to_ascii_lowercase, is_ascii_upper.
  rewrite (proj2 (in_range_spec _ _ _)) by lia.
  rewrite (proj2 (in_range_false _ _ _)) by lia. lia.
Qed.

Lemma fold_app a b : fold (a ++ b) = fold a ++ fold b.
Proof. apply map_app. Qed.

Definition is_ascii (c : char) : bool := in_range 0 127 c.

Lemma fold_lower name : all_chars is_ascii name = true → fold name = ascii_lowercase name.
Proof.
  intros Hn. unfold fold, ascii_lowercase. apply map_ext_in. intros c Hc.
  rewrite forallb_forall in Hn. specialize (Hn c Hc). unfold is_ascii in Hn.
  rewrite in_range_spec in Hn. apply fold_char_ascii. lia.
Qed.

(** ** The deny list *)

Lemma secret_eq path :
  let folded := fold (strip_dot_slashes (slashed path)) in
  is_secret_path path =
  negb (in_caps folded)
  || existsb (λ pat, default true (try_matches pat folded)) SECRET_PATH_PATTERNS.
Proof.
  intros folded. unfold is_secret_path. fold folded. unfold try_matches, compiled.
  rewrite Name_new_eq. unfold in_caps.
  rewrite Z.gtb_ltb, Z.leb_antisym, negb_involutive. destruct (Z.ltb _ _); [done|].
  cbn [negb orb]. induction SECRET_PATH_PATTERNS as [|pat pats IH]; [done|].
  cbn [map existsb]. rewrite IH. by destruct (compile pat).
Qed.

Lemma patterns_in_caps pat : pat ∈ SECRET_PATH_PATTERNS → in_caps pat = true.
Proof.
  intros Hp%list_elem_of_In. assert (forallb in_caps SECRET_PATH_PATTERNS = true) as Hf by done.
  rewrite forallb_forall in Hf. by apply Hf.
Qed.

Lemma secret_iff path :
  let folded := fold (strip_dot_slashes (slashed path)) in
  is_secret_path path = true ↔
  in_caps folded = false ∨ ∃ pat, pat ∈ SECRET_PATH_PATTERNS ∧ fnmatch pat folded.
Proof.
  intros folded. rewrite secret_eq. fold folded. rewrite orb_true_iff, negb_true_iff, existsb_exists.
  destruct (in_caps folded) eqn:Hn; [|by intuition].
  setoid_rewrite <- list_elem_of_In.
  assert (∀ pat, pat ∈ SECRET_PATH_PATTERNS →
            default true (try_matches pat folded) = true ↔ fnmatch pat folded) as Hpat.
  { intros pat Hp. destruct (try_matches_in_caps pat folded) as (b & -> & <-);
      [by apply patterns_in_caps|done|done]. }
  split; intros [?|(pat & Hp & Hm)]; [done| |done|]; right; exists pat; split; try done;
    by apply Hpat.
Qed.

(** The patterns listed both bare and under [**/] start with two plain characters
    that are not a dot and a separator. *)
Definition opens_name (base : str) : bool :=
  match base with
  | c :: d :: _ =>
      negb (existsb (Z.eqb c) (lit "*?[")) && negb (existsb (Z.eqb d) (lit "*?["))
      && negb ((c =? 46) && (d =? slash))
  | _ => false
  end.

Lemma paired_opens_name base :
  base ∈ SECRET_PATH_PATTERNS → lit "**/" ++ base ∈ SECRET_PATH_PATTERNS →
  opens_name base = true.
Proof.
  intros Hb%list_elem_of_In Hs.
  assert (forallb (λ b, negb (bool_decide (lit "**/" ++ b ∈ SECRET_PATH_PATTERNS))
                        || opens_name b) SECRET_PATH_PATTERNS = true) as Hf by (vm_compute; done).
  rewrite forallb_forall in Hf. specialize (Hf base Hb).
  by rewrite bool_decide_eq_true_2 in Hf.
Qed.

Lemma fnmatch_plain_head c p s :
  negb (existsb (Z.eqb c) (lit "*?[")) = true → fnmatch (c :: p) s →
  ∃ s', s = c :: s' ∧ fnmatch p s'.
Proof.
  intros Hc Hm. apply negb_true_iff in Hc. cbn in Hc. bool_to_prop.
  inversion Hm; subst; try (exfalso; vm_compute in *; congruence). eauto.
Qed.

Lemma opens_name_no_dot base s :
  opens_name base = true → fnmatch base (fold s) → strip_prefix (lit "./") s = None.
Proof.
  destruct base as [|c [|d base]]; [done..|]. cbn [opens_name].
  intros [[Hc Hd]%andb_true_iff Hcd]%andb_true_iff Hm.
  destruct (strip_prefix (lit "./") s) as [r|] eqn:E; [|done].
  apply strip_prefix_Some in E as ->. rewrite fold_app in Hm.
  change (fold (lit "./")) with [fold_char 46; fold_char slash] in Hm.
  rewrite !fold_char_ascii in Hm by (unfold slash; lia).
  apply fnmatch_plain_head in Hm as (s' & [= <- <-] & Hm); [|done].
  apply fnmatch_plain_head in Hm as (s'' & [= <- <-] & Hm); [|done]. done.
Qed.

Lemma fnmatch_star_app p a b : fnmatch p b → fnmatch (chr "*" :: p) (a ++ b).
Proof.
  intros Hm. induction a as [|c a IH]; [by apply fn_star_skip|by apply fn_star_eat].
Qed.

Lemma fnmatch_under base a b :
  fnmatch base b → fnmatch (lit "**/" ++ base) (a ++ slash :: b).
Proof.
  intros Hm. change (lit "**/" ++ base) with (chr "*" :: chr "*" :: slash :: base).
  apply fnmatch_star_app, fn_star_skip.
  by apply fn_literal; [unfold slash; vm_compute; congruence..|].
Qed.

(** ** Case and spelling *)

Lemma upper_dot c : (to_ascii_uppercase c =? 46) = (c =? 46).
Proof.
  unfold to_ascii_uppercase, is_ascii_lower. destruct (in_range 97 122 c) eqn:E; [|done].
  rewrite in_range_spec in E. destruct (Z.eqb_spec (c - 32) 46), (Z.eqb_spec c 46); lia.
Qed.

Lemma upper_slash c : (to_ascii_uppercase c =? slash) = (c =? slash).
Proof.
  unfold to_ascii_uppercase, is_ascii_lower, slash. destruct (in_range 97 122 c) eqn:E; [|done].
  rewrite in_range_spec in E. destruct (Z.eqb_spec (c - 32) 47), (Z.eqb_spec c 47); lia.
Qed.

Lemma slashed_upper s : slashed (ascii_uppercase s) = ascii_uppercase (slashed s).
Proof.
  unfold slashed, replace_char, ascii_uppercase. rewrite !map_map. apply map_ext. intros c.
  unfold to_ascii_uppercase, is_ascii_lower, backslash.
  destruct (Z.eqb_spec c 92) as [->|Hc]; [done|].
  destruct (in_range 97 122 c) eqn:E.
  - rewrite in_range_spec in E. destruct (Z.eqb_spec (c - 32) 92); [lia|done].
  - by rewrite (proj2 (Z.eqb_neq _ _) Hc).
Qed.

Lemma strip_dot_slashes_upper s :
  strip_dot_slashes (ascii_uppercase s) = ascii_uppercase (strip_dot_slashes s).
Proof.
  induction s as [s IH] using (well_founded_induction (well_founded_ltof _ (@length Z))).
  destruct s as [|c [|d r]]; [done..|].
  change (ascii_uppercase (c :: d :: r))
    with (to_ascii_uppercase c :: to_ascii_uppercase d :: ascii_uppercase r).
  cbn [strip_dot_slashes]. rewrite upper_dot, upper_slash.
  destruct (_ && _); [|done]. apply IH. unfold ltof. cbn. lia.
Qed.

Lemma fold_upper s : fold (ascii_uppercase s) = fold s.
Proof. unfold fold, ascii_uppercase. rewrite map_map. apply map_ext, fold_char_case. Qed.

End Tables.

(** ** The fixture's layout *)

(** A path as the fixture writes it: backslashes and quotes escaped. *)
Definition escape_char (c : char) : str := if (c =? 92) || (c =? 34) then [92; c] else [c].
Definition escape (s : str) : str := flat_map escape_char s.

Definition render_row (row : str * bool) : list str :=
  [ lit "  {";
    lit "   " ++ path_member ++ lit " " ++ [34] ++ escape (fst row) ++ [34] ++ lit ",";
    lit "   " ++ test_member ++ (if snd row then lit " true" else lit " false");
    lit "  }," ].

Definition render_fixture (rows : list (str * bool)) : str :=
  unlines ([lit "{"; [34] ++ lit "rows" ++ [34] ++ lit ": ["]
           ++ flat_map render_row rows ++ [lit " ]"; lit "}"]).

Lemma unescape_escape raw s : unescape raw (escape s) = Ok s.
Proof.
  induction s as [|c s IH]; [done|]. cbn [escape flat_map]. unfold escape_char at 1.
  destruct ((c =? 92) || (c =? 34)) eqn:E.
  - cbn [app unescape]. rewrite Z.eqb_refl. cbn [negb]. rewrite E. cbn [orb].
    change (flat_map escape_char s) with (escape s). by rewrite IH.
  - apply orb_false_iff in E as [E1 _]. cbn [app unescape]. rewrite E1. cbn [negb].
    change (flat_map escape_char s) with (escape s). by rewrite IH.
Qed.

Lemma row_step_path p rows :
  row_step (lit "   " ++ path_member ++ lit " " ++ [34] ++ escape p ++ [34] ++ lit ",") rows None
  = Ok (rows, Some p).
Proof.
  unfold row_step.
  replace (lit "   " ++ path_member ++ lit " " ++ [34] ++ escape p ++ [34] ++ lit ",")
    with (lit "   " ++ (path_member ++ lit " " ++ [34] ++ escape p ++ [34]) ++ [chr ","])
    by (rewrite <- !app_assoc; done).
  rewrite trim_outer by done.
  assert (∀ s, trim_end_by (Z.eqb (chr ",")) ((s ++ [34]) ++ [chr ","]) = s ++ [34]) as Hcomma.
  { intros s. unfold trim_end_by. rewrite rev_app_distr. cbn [rev app drop_while].
    rewrite Z.eqb_refl, rev_app_distr. cbn [rev app drop_while].
    replace (chr "," =? 34) with false by reflexivity. cbn [rev]. by rewrite rev_involutive. }
  replace (path_member ++ lit " " ++ [34] ++ escape p ++ [34])
    with ((path_member ++ lit " " ++ [34] ++ escape p) ++ [34])
    by (rewrite <- !app_assoc; done).
  rewrite Hcomma, <- app_assoc, strip_prefix_app.
  replace ((lit " " ++ [34] ++ escape p) ++ [34]) with (lit " " ++ ([34] ++ escape p) ++ [34])
    by (rewrite <- !app_assoc; done).
  rewrite trim_outer by done. unfold unquote. rewrite <- app_assoc, strip_prefix_app.
  by rewrite strip_suffix_app, unescape_escape.
Qed.

Lemma row_step_test p (b : bool) rows :
  row_step (lit "   " ++ test_member ++ (if b then lit " true" else lit " false")) rows (Some p)
  = Ok (rows ++ [(p, b)], None).
Proof. by destruct b. Qed.

Lemma row_loop_app a b : ∀ rows pending,
  row_loop (a ++ b) rows pending
  = let? (rows', pending') := row_loop a rows pending in row_loop b rows' pending'.
Proof.
  induction a as [|l a IH]; intros rows pending; cbn [app row_loop]; [done|].
  destruct (row_step l rows pending) as [[rows' pending']|]; [apply IH|done].
Qed.

Lemma row_loop_row row rows : row_loop (render_row row) rows None = Ok (rows ++ [row], None).
Proof.
  destruct row as [p b]. unfold render_row. cbn [row_loop fst snd].
  assert (∀ r, row_step (lit "  {") r None = Ok (r, None)) as -> by done.
  assert (∀ r, row_step (lit "  },") r None = Ok (r, None)) as Hclose by done.
  rewrite row_step_path. cbn match. rewrite row_step_test. cbn match. by rewrite Hclose.
Qed.

Lemma row_loop_rows rs : ∀ rows tail,
  row_loop (flat_map render_row rs ++ tail) rows None = row_loop tail (rows ++ rs) None.
Proof.
  induction rs as [|row rs IH]; intros rows tail; cbn [flat_map]; [by rewrite app_nil_r|].
  rewrite <- app_assoc, row_loop_app, row_loop_row, IH, <- app_assoc. done.
Qed.

Lemma escape_no_nl s : no_nl s = true → no_nl (escape s) = true.
Proof.
  unfold no_nl. induction s as [|c s IH]; [done|].
  change (escape (c :: s)) with (escape_char c ++ escape s). cbn [forallb].
  intros [Hc Hs]%andb_true_iff. rewrite all_chars_app, (IH Hs), andb_true_r.
  unfold escape_char. destruct (_ || _); cbn [forallb]; by rewrite Hc.
Qed.

Lemma line_ok_end s c :
  no_nl s = true → c ≠ nl → c ≠ cr → line_ok (s ++ [c]) = true.
Proof.
  intros Hs Hn Hc. unfold line_ok, no_nl in *. rewrite all_chars_app, Hs. cbn [forallb].
  rewrite (proj2 (Z.eqb_neq _ _) Hn). rewrite ends_with_snoc.
  by rewrite (proj2 (Z.eqb_neq cr c)) by congruence.
Qed.

Lemma render_row_ok row :
  no_nl (fst row) = true → Forall (λ l, line_ok l = true) (render_row row).
Proof.
  intros Hp. repeat constructor.
  - replace (lit "   " ++ path_member ++ lit " " ++ [34] ++ escape (fst row) ++ [34] ++ lit ",")
      with ((lit "   " ++ path_member ++ lit " " ++ [34] ++ escape (fst row) ++ [34]) ++ [chr ","])
      by (rewrite <- !app_assoc; done).
    apply line_ok_end; [|done..]. unfold no_nl. rewrite !all_chars_app.
    apply escape_no_nl in Hp. unfold no_nl in Hp. by rewrite Hp.
  - by destruct (snd row).
Qed.

End PathFacts.

(** * What the path classifiers guarantee *)

Import Glob GlobFacts Paths SecretPaths TestPaths PathFacts.

#[local] Open Scope Z_scope.

Module PathProps.

Section Tables.
Context `{UnicodeTables}.

(** the deny list denies by pattern and by size, and by nothing else. A path is
    secret exactly when its folded, normalised spelling is past the matcher's cap or
    in the language of one of the listed patterns, so a match the walker cannot
    decide is always a denial. *)
Theorem secret_path_iff path :
  let folded := fold (strip_dot_slashes (slashed path)) in
  is_secret_path path = true ↔
  MAX_UNITS < Z.of_nat (length folded)
  ∨ ∃ pat, pat ∈ SECRET_PATH_PATTERNS ∧ fnmatch pat folded.
Proof.
  cbv zeta. rewrite (secret_iff path). cbv zeta. unfold in_caps. by rewrite Z.leb_gt.
Qed.

(** a credential's name is denied in every directory. For each pattern the list
    holds both bare and under [**/], a name in its language is secret on its own and
    below any directory whatever, with either separator and in any case. *)
Theorem secret_in_every_directory base dir sep name :
  base ∈ SECRET_PATH_PATTERNS → lit "**/" ++ base ∈ SECRET_PATH_PATTERNS →
  sep = slash ∨ sep = backslash → fnmatch base (fold (slashed name)) →
  is_secret_path name = true ∧ is_secret_path (dir ++ sep :: name) = true.
Proof.
  intros Hb Hs Hsep Hm.
  pose proof (opens_name_no_dot _ _ (paired_opens_name _ Hb Hs) Hm) as Hdot.
  split; apply secret_iff; right.
  - exists base. by rewrite strip_dot_slashes_none.
  - replace (slashed (dir ++ sep :: name)) with (slashed dir ++ slash :: slashed name).
    2:{ rewrite slashed_app. f_equal. by destruct Hsep as [-> | ->]. }
    destruct (strip_dot_slashes_last (slashed dir) (slashed name) Hdot) as [-> |[dir' ->]].
    + by exists base.
    + exists (lit "**/" ++ base). split; [done|].
      rewrite fold_app. cbn [fold map]. fold (fold (slashed name)).
      rewrite (fold_char_ascii slash) by (unfold slash; lia). by apply fnmatch_under.
Qed.

(** Spelling does not step around the list. A leading [./], backslashes for
    separators and ASCII case leave the answer as it is. *)
Theorem secret_spelling path :
  is_secret_path (lit "./" ++ path) = is_secret_path path
  ∧ is_secret_path (slashed path) = is_secret_path path
  ∧ is_secret_path (ascii_uppercase path) = is_secret_path path.
Proof.
  unfold is_secret_path. split_and!.
  - by rewrite slashed_app, strip_dot_slashes_dot.
  - by rewrite slashed_idem.
  - by rewrite slashed_upper, strip_dot_slashes_upper, fold_upper.
Qed.

(** A test path is read off its components. It is one exactly when some
    component before the last is a test directory, compared in lower case, or the
    last one carries a test affix; a substring of a component never counts. *)
Theorem test_path_iff path :
  is_test_path path = true ↔
  ∃ dirs file, components path = dirs ++ [file]
    ∧ (existsb is_test_directory dirs = true ∨ is_test_file_name file = true).
Proof.
  unfold is_test_path. rewrite orb_true_iff, in_test_directory_components, components_slashed.
  fold (components path). destruct (components_snoc path) as (ds & f & Hc).
  rewrite Hc, last_snoc. cbn [default]. split.
  - intros [(dirs & file & E & Ht)|Hf].
    + exists dirs, file. by split; [|left].
    + exists ds, f. by split; [|right].
  - intros (dirs & file & E & Ht). apply app_inj_tail in E as [-> ->].
    destruct Ht as [Ht|Ht]; [left|by right]. by exists dirs, file.
Qed.

End Tables.

(** the fixture reader inverts the fixture's layout. Rows written one member per
    line, with backslashes and quotes escaped, are read back in order with their
    flags; nothing is skipped. *)
Theorem fixture_rows_read_back rows :
  rows ≠ [] → forallb (λ r, no_nl (fst r)) rows = true →
  parse_test_path_rows (render_fixture rows) = Ok rows.
Proof.
  intros Hne Hok. unfold parse_test_path_rows, render_fixture. rewrite lines_unlines.
  2:{ repeat (apply Forall_app; split); [repeat constructor| |repeat constructor].
      clear Hne. induction rows as [|r rows IH]; cbn [flat_map]; [constructor|].
      cbn [forallb] in Hok. apply andb_true_iff in Hok as [Hr Hok].
      apply Forall_app. split; [by apply render_row_ok|by apply IH]. }
  rewrite row_loop_app.
  assert (row_loop [lit "{"; [34] ++ lit "rows" ++ [34] ++ lit ": ["] [] None = Ok ([], None))
    as -> by done.
  rewrite row_loop_rows. by destruct rows.
Qed.

(** ** Witnesses *)

#[local] Existing Instance ascii_tables.

Lemma secret_in_every_directory_witness :
  is_secret_path (lit "id_RSA") = true
  ∧ is_secret_path (lit "C:\Users\me\.ssh" ++ backslash :: lit "id_RSA") = true.
Proof.
  apply (secret_in_every_directory (lit "id_rsa")).
  - apply list_elem_of_In. vm_compute. tauto.
  - apply list_elem_of_In. vm_compute. tauto.
  - by right.
  - change (fold (slashed (lit "id_RSA"))) with (lit "id_rsa").
    repeat (apply fn_literal; [vm_compute; congruence..|]). constructor.
Defined.

Lemma fixture_rows_read_back_witness :
  parse_test_path_rows (render_fixture [(lit "a\b.go", false); (lit "tests/a,", true)])
  = Ok [(lit "a\b.go", false); (lit "tests/a,", true)].
Proof. apply fixture_rows_read_back; [discriminate|reflexivity]. Defined.

End PathProps.
