(* ===== verification/Scope.v ===== *)
(** * Scope classification: [classify_scope] of [rust/dc-verify/src/lib.rs]

    The classifier uses the matcher through the interface [PathMatcher], which says
    what a pattern is to mean to it; the fnmatch matcher is an instance. *)

From S2P Require Import Prelude RustStr RustStrFacts Glob GlobFacts Diff Paths.
Import Glob GlobFacts Diff Paths.

Module Scope.

(** ** What the matcher promises *)

Class PathMatcher := {
  path_matches : str → str → bool;
  (** The language of a pattern, and the sizes on which the matcher decides it. *)
  in_language : str → str → Prop;
  decides : str → str → bool;
  path_matches_spec : ∀ pattern name,
    path_matches pattern name = true ↔ decides pattern name = true ∧ in_language pattern name;
}.

#[export] Instance glob_matcher : PathMatcher.
Proof.
  refine {| path_matches := matches; in_language := fnmatch;
            decides p n := in_caps p && in_caps n |}.
  intros p n. unfold matches. destruct (in_caps p && in_caps n) eqn:E.
  - apply andb_true_iff in E as [Hp Hn].
    destruct (try_matches_in_caps p n Hp Hn) as (b & -> & Hb). rewrite <- Hb. simpl.
    by destruct b; intuition.
  - rewrite try_matches_over_caps by done. simpl. by intuition.
Defined.

Section Classifier.
Context `{PathMatcher}.

(** ** The classifier *)

Definition normalize_candidate (path : str) : str := strip_dot_slashes (slashed path).

Record ScopeReport := {
  in_scope : list str;
  orphans : list str;
  untouched_planned : list str;
}.

Definition is_clean (r : ScopeReport) : bool := bool_decide (orphans r = []).

(** One candidate against one normalized pattern. *)
Definition covers (candidate pattern : str) : bool :=
  bool_decide (candidate = pattern) || path_matches pattern candidate.

(** The locals of [classify_scope]: the report's two lists and [matched_planned]. *)
Record ScopeState := {
  st_in_scope : list str;
  st_orphans : list str;
  matched_planned : list bool;
}.

(** The inner loop over [patterns]: the marks it leaves, and [hit]. *)
Fixpoint mark (candidate : str) (patterns : list str) (marks : list bool)
    : list bool * bool :=
  match patterns, marks with
  | p :: ps, m :: ms =>
      let '(ms', hit) := mark candidate ps ms in
      if covers candidate p then (true :: ms', true) else (m :: ms', hit)
  | _, _ => (marks, false)
  end.

Definition classify_path (patterns : list str) (st : ScopeState) (path : str) : ScopeState :=
  let candidate := normalize_candidate path in
  let '(marks, hit) := mark candidate patterns (matched_planned st) in
  if hit then
    {| st_in_scope := st_in_scope st ++ [candidate]; st_orphans := st_orphans st;
       matched_planned := marks |}
  else
    {| st_in_scope := st_in_scope st; st_orphans := st_orphans st ++ [candidate];
       matched_planned := marks |}.

(** The loop that collects the planned entries left unmarked, as written. *)
Definition untouched (planned : list str) (marks : list bool) : list str :=
  map fst (List.filter (λ '(_, m), negb m) (zip planned marks)).

Definition classify_scope (fs : list FileDiff) (planned : list str) : ScopeReport :=
  let patterns := map normalize_candidate planned in
  let st := fold_left (classify_path patterns) (changed_paths fs)
              {| st_in_scope := []; st_orphans := [];
                 matched_planned := map (λ _, false) planned |} in
  {| in_scope := sort_strs (st_in_scope st);
     orphans := sort_strs (st_orphans st);
     untouched_planned := sort_strs (untouched planned (matched_planned st)) |}.

End Classifier.

End Scope.

(** What scope classification guarantees: proved against the interface [PathMatcher], so
    for any matcher that keeps its promise; [glob_matcher] is the one the program uses. *)
Import Glob Diff Paths Scope.

Module ScopeFacts.

Section Classifier.
Context `{PathMatcher}.

(** ** The classifier in one pass per list *)

(** Some planned entry covers the candidate. *)
Definition authorised (planned : list str) (candidate : str) : bool :=
  existsb (λ p, covers candidate (normalize_candidate p)) planned.

(** Some changed path is covered by the planned entry. *)
Definition touched (candidates : list str) (p : str) : bool :=
  existsb (λ c, covers c (normalize_candidate p)) candidates.

Definition candidates (fs : list FileDiff) : list str :=
  map normalize_candidate (changed_paths fs).

Lemma mark_spec c ps : ∀ ms, length ms = length ps →
  mark c ps ms = (zip_with (λ p m, covers c p || m) ps ms, existsb (covers c) ps).
Proof.
  induction ps as [|p ps IH]; intros [|m ms] Hl; try done. cbn in Hl.
  cbn [mark]. rewrite IH by lia. cbn. by destruct (covers c p).
Qed.

Lemma classify_fold patterns paths : ∀ st, length (matched_planned st) = length patterns →
  let hit := λ c, existsb (covers c) patterns in
  let cs := map normalize_candidate paths in
  fold_left (classify_path patterns) paths st
  = {| st_in_scope := st_in_scope st ++ List.filter hit cs;
       st_orphans := st_orphans st ++ List.filter (λ c, negb (hit c)) cs;
       matched_planned := zip_with (λ p m, existsb (λ c, covers c p) cs || m)
                            patterns (matched_planned st) |}.
Proof.
  induction paths as [|path paths IH]; intros st Hl; cbn zeta in *; cbn [fold_left map].
  - cbn. rewrite !app_nil_r. destruct st as [a b ms]; cbn in *. f_equal.
    clear -Hl. revert ms Hl.
    induction patterns as [|p ps IH]; intros [|m ms] Hl; cbn in *; try done.
    f_equal. apply IH. lia.
  - unfold classify_path at 2. rewrite mark_spec by done.
    set (c := normalize_candidate path).
    assert (∀ ms, length ms = length patterns →
      zip_with (λ p m, existsb (λ c, covers c p) (map normalize_candidate paths) || m) patterns
        (zip_with (λ p m, covers c p || m) patterns ms)
      = zip_with (λ p m, existsb (λ c, covers c p) (c :: map normalize_candidate paths) || m)
          patterns ms) as Hz.
    { clear. induction patterns as [|p ps IH]; intros [|m ms] Hl; cbn in *; try done.
      rewrite IH by lia. f_equal. destruct (covers c p); cbn; [apply orb_true_r|done]. }
    cbn [List.filter]. destruct (existsb (covers c) patterns); rewrite IH; cbn;
      rewrite ?length_zip_with, ?Hz, <- ?app_assoc; done || lia.
Qed.

Lemma untouched_filter (g : str → bool) planned :
  untouched planned (zip_with (λ p m, g p || m) (map normalize_candidate planned)
                       (map (λ _, false) planned))
  = List.filter (λ p, negb (g (normalize_candidate p))) planned.
Proof.
  unfold untouched. induction planned as [|p ps IH]; [done|].
  cbn. rewrite orb_false_r. destruct (g (normalize_candidate p)); cbn; by rewrite IH.
Qed.

Lemma classify_scope_eq fs planned :
  classify_scope fs planned
  = {| in_scope := sort_strs (List.filter (authorised planned) (candidates fs));
       orphans := sort_strs (List.filter (λ c, negb (authorised planned c)) (candidates fs));
       untouched_planned :=
         sort_strs (List.filter (λ p, negb (touched (candidates fs) p)) planned) |}.
Proof.
  unfold classify_scope. rewrite classify_fold by (cbn; by rewrite !length_map).
  cbn [st_in_scope st_orphans matched_planned app].
  rewrite (untouched_filter (λ p, existsb (λ c, covers c p) (candidates fs))).
  unfold authorised. f_equal; f_equal; apply filter_ext; intros c; by rewrite existsb_map.
Qed.

(** ** Membership *)

Lemma covers_iff c p :
  covers c p = true ↔ c = p ∨ (decides p c = true ∧ in_language p c).
Proof. unfold covers. by rewrite orb_true_iff, bool_decide_eq_true, path_matches_spec. Qed.

(** What it is for a plan to authorise a path. *)
Definition authorises (planned : list str) (c : str) : Prop :=
  ∃ p, p ∈ planned
       ∧ (c = normalize_candidate p
          ∨ (decides (normalize_candidate p) c = true ∧ in_language (normalize_candidate p) c)).

Lemma authorised_iff planned c : authorised planned c = true ↔ authorises planned c.
Proof.
  unfold authorised, authorises. rewrite existsb_exists.
  setoid_rewrite <- list_elem_of_In. by setoid_rewrite covers_iff.
Qed.

Lemma elem_of_orphans fs planned c :
  c ∈ orphans (classify_scope fs planned)
  ↔ c ∈ candidates fs ∧ ¬ authorises planned c.
Proof.
  rewrite classify_scope_eq. cbn. unfold sort_strs.
  rewrite elem_of_sort_by, list_elem_of_In, filter_In, <- list_elem_of_In, negb_true_iff.
  by rewrite <- authorised_iff, not_true_iff_false.
Qed.

Lemma elem_of_in_scope fs planned c :
  c ∈ in_scope (classify_scope fs planned) ↔ c ∈ candidates fs ∧ authorises planned c.
Proof.
  rewrite classify_scope_eq. cbn. unfold sort_strs.
  by rewrite elem_of_sort_by, list_elem_of_In, filter_In, <- list_elem_of_In, authorised_iff.
Qed.

Lemma elem_of_candidates fs c :
  c ∈ candidates fs ↔
  ∃ f, f ∈ fs ∧ (c = normalize_candidate (path f)
                 ∨ ∃ old, status f = Renamed ∧ old_path f = Some old
                          ∧ c = normalize_candidate old).
Proof.
  unfold candidates, changed_paths. rewrite list_elem_of_In, in_map_iff.
  setoid_rewrite in_flat_map. setoid_rewrite <- list_elem_of_In. split.
  - intros (p & <- & f & Hf & Hp). exists f. split; [done|].
    apply elem_of_cons in Hp as [-> |Hp]; [by left|right].
    unfold rename_source in Hp. destruct (status f), (old_path f) as [old|]; try by apply not_elem_of_nil in Hp.
    case_bool_decide; [by apply not_elem_of_nil in Hp|].
    apply list_elem_of_singleton in Hp as ->. by exists old.
  - intros (f & Hf & [-> |(old & Hs & Ho & ->)]).
    + exists (path f). split; [done|]. exists f. split; [done|]. by left.
    + destruct (decide (old = path f)) as [-> |Hne].
      * exists (path f). split; [done|]. exists f. split; [done|]. by left.
      * exists old. split; [done|]. exists f. split; [done|]. right.
        unfold rename_source. rewrite Hs, Ho, bool_decide_eq_false_2 by done. by left.
Qed.

Lemma normalize_candidate_idem p :
  normalize_candidate (normalize_candidate p) = normalize_candidate p.
Proof.
  unfold normalize_candidate. by rewrite strip_dot_slashes_slashed, strip_dot_slashes_idem.
Qed.

(** ** Properties *)

(** every changed path lands in exactly one list. The in-scope and orphan lists
    together are the normalised changed paths, with their repetitions, a rename's
    source included; no path is in both; and all three lists are sorted. *)
Theorem scope_partitions_changes fs planned :
  let r := classify_scope fs planned in
  in_scope r ++ orphans r ≡ₚ map normalize_candidate (changed_paths fs)
  ∧ (∀ c, c ∈ in_scope r → c ∉ orphans r)
  ∧ Sorted (λ a b, str_leb a b = true) (in_scope r)
  ∧ Sorted (λ a b, str_leb a b = true) (orphans r)
  ∧ Sorted (λ a b, str_leb a b = true) (untouched_planned r).
Proof.
  intros r. split_and!.
  - unfold r. rewrite classify_scope_eq. cbn. unfold sort_strs. rewrite !sort_by_perm.
    apply filter_negb_perm.
  - intros c [_ Ha]%elem_of_in_scope [_ Hn]%elem_of_orphans. done.
  - apply sort_strs_sorted.
  - apply sort_strs_sorted.
  - apply sort_strs_sorted.
Qed.

(** an orphan is a change the plan did not authorise. A normalised changed path
    is an orphan exactly when no planned entry, normalised the same way, equals it or
    matches it; a planned entry is untouched exactly when it covers no changed path. *)
Theorem orphan_and_untouched_iff fs planned c p :
  let r := classify_scope fs planned in
  (c ∈ orphans r ↔ c ∈ map normalize_candidate (changed_paths fs) ∧ ¬ authorises planned c)
  ∧ (p ∈ untouched_planned r ↔
     p ∈ planned ∧ ∀ d, d ∈ map normalize_candidate (changed_paths fs) → ¬ authorises [p] d).
Proof.
  intros r. split; [apply elem_of_orphans|].
  unfold r. rewrite classify_scope_eq. cbn. unfold sort_strs.
  rewrite elem_of_sort_by, list_elem_of_In, filter_In, <- list_elem_of_In, negb_true_iff.
  assert (touched (candidates fs) p = true ↔
          ∃ d, d ∈ candidates fs ∧ authorises [p] d) as Ht.
  { unfold touched. rewrite existsb_exists. setoid_rewrite <- list_elem_of_In.
    setoid_rewrite <- authorised_iff. unfold authorised. cbn. by setoid_rewrite orb_false_r. }
  rewrite <- not_true_iff_false, Ht. unfold candidates. naive_solver.
Qed.

(** A clean report is a full authorisation. The report has no orphan exactly when
    the plan authorises the path of every changed file and, for every rename, the
    path it moved away from as well. *)
Theorem clean_iff_all_authorised fs planned :
  is_clean (classify_scope fs planned) = true ↔
  ∀ f, f ∈ fs →
    authorises planned (normalize_candidate (path f))
    ∧ (status f = Renamed → ∀ old, old_path f = Some old →
       authorises planned (normalize_candidate old)).
Proof.
  unfold is_clean. rewrite bool_decide_eq_true.
  assert (orphans (classify_scope fs planned) = [] ↔
          ∀ c, c ∈ candidates fs → authorises planned c) as ->.
  { setoid_rewrite <- authorised_iff. split.
    - intros Ho c Hin. destruct (authorised planned c) eqn:E; [done|]. exfalso.
      apply (not_elem_of_nil c). rewrite <- Ho. apply elem_of_orphans.
      by rewrite <- authorised_iff, E.
    - intros Hall. destruct (orphans _) as [|c l] eqn:E; [done|]. exfalso.
      assert (c ∈ orphans (classify_scope fs planned)) as Hc by (rewrite E; left).
      apply elem_of_orphans in Hc as [Hin Hn]. by apply Hn, authorised_iff, Hall. }
  split.
  - intros Hall f Hf. split.
    + apply Hall, elem_of_candidates. exists f. split; [done|by left].
    + intros Hs old Ho. apply Hall, elem_of_candidates. exists f. split; [done|right].
      by exists old.
  - intros Hall c (f & Hf & [-> |(old & Hs & Ho & ->)])%elem_of_candidates.
    + by apply Hall.
    + by apply (Hall f Hf).
Qed.

(** planning more never orphans more, and how an entry is spelled makes no
    difference to which changes it authorises: a leading [./] or a backslash in the
    plan leaves the two lists of changes as they are. *)
Theorem plan_monotone_and_spelling fs planned more :
  (∀ c, c ∈ orphans (classify_scope fs (planned ++ more)) →
        c ∈ orphans (classify_scope fs planned))
  ∧ in_scope (classify_scope fs (map normalize_candidate planned))
    = in_scope (classify_scope fs planned)
  ∧ orphans (classify_scope fs (map normalize_candidate planned))
    = orphans (classify_scope fs planned).
Proof.
  split.
  - intros c [Hc Hn]%elem_of_orphans. apply elem_of_orphans. split; [done|].
    intros (p & Hp & Hm). apply Hn. exists p. split; [|done]. apply elem_of_app. by left.
  - rewrite !classify_scope_eq. cbn.
    assert (∀ c, authorised (map normalize_candidate planned) c = authorised planned c) as He.
    { intros c. unfold authorised. rewrite existsb_map.
      induction planned as [|p ps IH]; cbn; [done|]. by rewrite IH, normalize_candidate_idem. }
    split; f_equal; apply filter_ext; intros c; by rewrite He.
Qed.

End Classifier.

End ScopeFacts.
