(* ===== verification/Coverage.v ===== *)
(** * Coverage: [rust/dc-verify/src/coverage.rs] and the gate of [rigor.rs]

    A report is read line by line into a map from path to the lines executed, which
    [finish] sorts; the gate asks it about each line a diff adds. The file system is a
    parameter: the Go modules found under the root, and the spellings of the root. *)

From S2P Require Import Prelude RustStr Diff Paths.
Import Paths.

#[local] Open Scope Z_scope.

Module Coverage.

Definition MAX_COVERED_SPAN : Z := 1000000.
Definition MAX_COVERED_LINES : Z := 4000000.

Record CoverageError := { line_number : nat; line : str; reason : string }.

Record FileCoverage := { path : str; covered_lines : list Z }.

(** ** What is gathered *)

(** [BTreeMap<String, Vec<u32>>]. *)
Abbreviation Covered := (gmap str (list Z)).

(** [covered.entry(path).or_default()]. *)
Definition or_default (p : str) (m : Covered) : Covered := <[p := default [] (m !! p)]> m.

Definition push (p : str) (ns : list Z) (m : Covered) : Covered := <[p := default [] (m !! p) ++ ns]> m.

(** [Vec::dedup]. *)
Fixpoint dedup (l : list Z) : list Z :=
  match l with
  | x :: ((y :: _) as rest) => if x =? y then dedup rest else x :: dedup rest
  | _ => l
  end.

Definition by_key (a b : str * list Z) : bool := str_leb a.1 b.1.

Definition finish (covered : Covered) : list FileCoverage :=
  map (λ e, {| path := e.1; covered_lines := dedup (sort_by Z.leb e.2) |})
    (sort_by by_key (map_to_list covered)).

(** ** Go profiles *)

Record GoModule := { m_path : str; m_dir : str }.

(** The [module] line of a [go.mod]. *)
Definition module_of_line (text : str) : option str :=
  let! rest := strip_prefix (lit "module") (trim text) in
  match rest with
  | c :: _ =>
      if is_whitespace c then
        let name := trim_by (λ c, c =? 34) (trim rest) in
        if bool_decide (name = []) then None else Some name
      else None
  | [] => None
  end.

Fixpoint find_map {A B} (f : A → option B) (l : list A) : option B :=
  match l with
  | [] => None
  | x :: l' => match f x with Some y => Some y | None => find_map f l' end
  end.

Definition module_of_text (text : str) : option str := find_map module_of_line (lines text).

(** Whether a module's path is the directory [path] starts with. *)
Definition claims (p : str) (m : GoModule) : bool :=
  match strip_prefix (m_path m) p with Some (c :: _) => c =? slash | _ => false end.

(** [max_by_key(|m| m.path.len())]: the last of the longest. *)
Definition longest (ms : list GoModule) : option GoModule :=
  fold_left (λ best m,
    match best with
    | None => Some m
    | Some b => if str_len (m_path b) <=? str_len (m_path m) then Some m else Some b
    end) ms None.

Definition normalise_go_path (p : str) (modules : list GoModule) : str :=
  match modules with
  | [] =>
      match split_once slash p with
      | Some (_, rest) =>
          if str_contains [slash] rest || ends_with (lit ".go") rest then rest else p
      | None => p
      end
  | _ =>
      match longest (List.filter (claims p) modules) with
      | Some m =>
          let rest := drop (length (m_path m) + 1) p in
          if bool_decide (m_dir m = []) then rest else m_dir m ++ slash :: rest
      | None => p
      end
  end.

(** One line of a profile: the lines of a block and how often it ran. *)
Record Block := { b_path : str; b_start : Z; b_end : Z; b_count : Z }.

Definition head_piece (c : char) (s : str) : str := default [] (head (split_on (λ d, d =? c) s)).

Definition read_block (text : str) : result Block string :=
  let? (location, counts) := ok_or (rsplit_once 32 text) "expected `location numStmts count`" in
  let? count := ok_or (parse_u64 counts) "execution count is not a number" in
  let? (location, _) :=
    ok_or (rsplit_once 32 location) "expected a statement count before the execution count" in
  let? (p, span) := ok_or (split_once (chr ":") location) "expected `path:span`" in
  let? (start, end_) := ok_or (split_once (chr ",") span) "expected `start,end` in the span" in
  let? start_line := ok_or (parse_u32 (head_piece (chr ".") start)) "start line is not a number" in
  let? end_line := ok_or (parse_u32 (head_piece (chr ".") end_)) "end line is not a number" in
  if end_line <? start_line then Err "the block ends before it starts"
  else if MAX_COVERED_SPAN <? end_line - start_line + 1
  then Err "the block spans more lines than any real source file"
  else Ok {| b_path := p; b_start := start_line; b_end := end_line; b_count := count |}.

Definition b_span (b : Block) : Z := b_end b - b_start b + 1.

Record Reading := { covered : Covered; seen_any : bool; materialised : Z; current : option str }.

Definition start_reading : Reading :=
  {| covered := ∅; seen_any := false; materialised := 0; current := None |}.

Definition record_block (modules : list GoModule) (b : Block) (st : Reading) : result Reading string :=
  let file := normalise_go_path (b_path b) modules in
  let covered1 := or_default file (covered st) in
  if 0 <? b_count b then
    let materialised1 := sat_add u64_max (materialised st) (b_span b) in
    if MAX_COVERED_LINES <? materialised1
    then Err "the profile's blocks together cover more lines than any real measurement"
    else
      Ok {| covered := push file (seqZ (b_start b) (b_span b)) covered1; seen_any := true;
            materialised := materialised1; current := current st |}
  else
    Ok {| covered := covered1; seen_any := true; materialised := materialised st;
          current := current st |}.

Definition go_ignored (text : str) : bool := bool_decide (text = []) || starts_with (lit "mode:") text.

Definition go_line (modules : list GoModule) (raw : str) (st : Reading) : result Reading string :=
  let text := trim raw in
  if go_ignored text then Ok st
  else let? b := read_block text in record_block modules b st.

(** [for (idx, line) in raw.lines().enumerate()], an error told with its line. *)
Fixpoint each_line (step : str → Reading → result Reading string) (n : nat) (ls : list str)
    (st : Reading) : result Reading CoverageError :=
  match ls with
  | [] => Ok st
  | l :: ls' =>
      match step l st with
      | Ok st' => each_line step (S n) ls' st'
      | Err why => Err {| line_number := n; line := trim l; reason := why |}
      end
  end.

Definition no_measurement (why : string) : CoverageError :=
  {| line_number := 0; line := []; reason := why |}.

Definition parse_go (raw : str) (modules : list GoModule) : result (list FileCoverage) CoverageError :=
  let? st := each_line (go_line modules) 1 (lines raw) start_reading in
  if negb (seen_any st)
  then Err (no_measurement "the profile has a header but no coverage blocks; the run measured nothing")
  else Ok (finish (covered st)).

(** ** LCOV reports *)

(** [std::path::Component], on Unix. *)
Inductive Component : Type :=
  | RootDir
  | CurDir
  | ParentDir
  | Normal (name : str).

#[export] Instance Component_eq_dec : EqDecision Component.
Proof. solve_decision. Defined.

Definition has_root (p : str) : bool := starts_with [slash] p.

Definition component_of (name : str) : list Component :=
  if bool_decide (name = []) || bool_decide (name = lit ".") then []
  else if bool_decide (name = lit "..") then [ParentDir] else [Normal name].

Definition components (p : str) : list Component :=
  let names := split_on (λ c, c =? slash) p in
  (if has_root p then [RootDir]
   else if bool_decide (head names = Some (lit ".")) then [CurDir] else [])
  ++ flat_map component_of names.

Definition component_str (c : Component) : str :=
  match c with
  | RootDir => [slash] | CurDir => lit "." | ParentDir => lit ".." | Normal name => name
  end.

(** [Path::strip_prefix]: what is left of a path below another. *)
Fixpoint strip_components (base p : list Component) : option (list Component) :=
  match base, p with
  | [], _ => Some p
  | b :: base', c :: p' => if decide (b = c) then strip_components base' p' else None
  | _ :: _, [] => None
  end.

(** [bases]: the root as given and as canonicalised, or the working directory's. *)
Definition normalise_lcov_path (p : str) (bases : list str) : str :=
  let trimmed := strip_dot_slashes p in
  if negb (has_root trimmed) then trimmed
  else
    default trimmed (find_map (λ base,
      match strip_components (components base) (components trimmed) with
      | Some ((_ :: _) as rest) => Some (join [slash] (map component_str rest))
      | _ => None
      end) bases).

Definition read_hit (record : str) : result (Z * Z) string :=
  let? (line_no, hits) := ok_or (split_once (chr ",") record) "expected `DA:line,hits`" in
  let? n := ok_or (parse_u32 (trim line_no)) "DA line number is not a number" in
  let? h := ok_or (parse_u64 (trim (head_piece (chr ",") hits))) "DA hit count is not a number" in
  Ok (n, h).

Definition record_hit (file : str) (n hits : Z) (st : Reading) : result Reading string :=
  if 0 <? hits then
    if MAX_COVERED_LINES <? materialised st + 1
    then Err "the report covers more lines than any real measurement"
    else
      Ok {| covered := push file [n] (covered st); seen_any := true;
            materialised := materialised st + 1; current := current st |}
  else
    Ok {| covered := covered st; seen_any := true; materialised := materialised st;
          current := current st |}.

Definition set_current (file : option str) (st : Reading) : Reading :=
  {| covered := match file with Some f => or_default f (covered st) | None => covered st end;
     seen_any := seen_any st; materialised := materialised st; current := file |}.

Definition lcov_line (bases : list str) (raw : str) (st : Reading) : result Reading string :=
  let text := trim raw in
  match strip_prefix (lit "SF:") text with
  | Some p =>
      let p := trim p in
      if bool_decide (p = []) then Err "SF record names no file"
      else Ok (set_current (Some (normalise_lcov_path p bases)) st)
  | None =>
      match strip_prefix (lit "DA:") text with
      | Some record =>
          let? file := ok_or (current st) "a DA record appeared before any SF record" in
          let? (n, hits) := read_hit record in
          record_hit file n hits st
      | None => if bool_decide (text = lit "end_of_record") then Ok (set_current None st) else Ok st
      end
  end.

Definition parse_lcov (raw : str) (bases : list str) : result (list FileCoverage) CoverageError :=
  let? st := each_line (lcov_line bases) 1 (lines raw) start_reading in
  if negb (seen_any st)
  then Err (no_measurement "the LCOV report has no DA records; the run measured no lines")
  else Ok (finish (covered st)).

(** [modules] and [bases] are what the file system holds for the root given. *)
Definition parse_with_root (raw : str) (modules : list GoModule) (bases : list str) :
    result (list FileCoverage) CoverageError :=
  let trimmed := trim_start_by is_whitespace raw in
  if bool_decide (trimmed = [])
  then Err (no_measurement "the coverage file is empty; no measurement was recorded")
  else if starts_with (lit "mode:") trimmed then parse_go raw modules
  else if starts_with (lit "TN:") trimmed || starts_with (lit "SF:") trimmed then parse_lcov raw bases
  else
    Err {| line_number := 1; line := default [] (head (lines trimmed));
           reason := "unrecognised coverage format (expected a Go coverprofile starting `mode:` or LCOV starting `TN:`/`SF:`)" |}.

(** ** The gate *)

Section Gate.
Context `{UnicodeTables}.

Definition EXECUTABLE : list str :=
  map lit [".go"; ".rs"; ".py"; ".ts"; ".tsx"; ".js"; ".jsx"; ".mjs"; ".cjs"; ".mts"; ".cts"; ".java";
    ".kt"; ".kts"; ".scala"; ".swift"; ".rb"; ".php"; ".cs"; ".c"; ".cc"; ".cpp"; ".h"; ".hpp";
    ".sh"; ".bash"; ".zsh"; ".ps1"; ".pl"; ".lua"]%string.

Definition is_executable_source (p : str) : bool :=
  negb (TestPaths.is_test_path p) && existsb (λ ext, ends_with ext p) EXECUTABLE.

Record CoverageGap := { gap_path : str; uncovered_lines : list Z; gap_added_lines : nat }.

Record CoverageReport := {
  gaps : list CoverageGap;
  unmeasured : list str;
  skipped_by_type : list str;
}.

Definition is_clean (r : CoverageReport) : bool :=
  bool_decide (gaps r = []) && bool_decide (unmeasured r = []).

(** [<[u32]>::is_sorted]. *)
Fixpoint is_sorted (l : list Z) : bool :=
  match l with
  | x :: ((y :: _) as rest) => (x <=? y) && is_sorted rest
  | _ => true
  end.

(** [slice::binary_search(&x).is_ok()], halving [l[lo..lo+size]]. *)
Fixpoint search (fuel : nat) (l : list Z) (x : Z) (lo size : nat) : bool :=
  match fuel with
  | O => false
  | S f =>
      match size with
      | O => false
      | _ =>
          let half := Nat.div size 2 in
          match l !! (lo + half)%nat with
          | Some y =>
              if y =? x then true
              else if y <? x then search f l x (lo + half + 1) (size - half - 1)
              else search f l x lo half
          | None => false
          end
      end
  end.

Definition binary_search (l : list Z) (x : Z) : bool := search (S (length l)) l x 0 (length l).

Definition searchable (l : list Z) : list Z := if is_sorted l then l else sort_by Z.leb l.

Definition uncovered (added covered : list Z) : list Z :=
  let sorted := searchable covered in List.filter (λ n, negb (binary_search sorted n)) added.

Definition is_deleted (f : Diff.FileDiff) : bool :=
  match Diff.status f with Diff.Deleted => true | _ => false end.

(** One file of the diff, in the bucket it falls into. *)
Definition place_file (coverage : list FileCoverage) (f : Diff.FileDiff) (r : CoverageReport) :
    CoverageReport :=
  let added := Diff.added_line_numbers f in
  if is_deleted f then r
  else if bool_decide (added = []) then r
  else if negb (is_executable_source (Diff.path f)) then
    {| gaps := gaps r; unmeasured := unmeasured r;
       skipped_by_type := skipped_by_type r ++ [Diff.path f] |}
  else
    match find (λ c, bool_decide (path c = Diff.path f)) coverage with
    | None =>
        {| gaps := gaps r; unmeasured := unmeasured r ++ [Diff.path f];
           skipped_by_type := skipped_by_type r |}
    | Some entry =>
        let missed := uncovered added (covered_lines entry) in
        if bool_decide (missed = []) then r
        else
          {| gaps := gaps r ++ [{| gap_path := Diff.path f; uncovered_lines := missed;
                                   gap_added_lines := length added |}];
             unmeasured := unmeasured r; skipped_by_type := skipped_by_type r |}
    end.

Definition place_files (coverage : list FileCoverage) (files : list Diff.FileDiff) : CoverageReport :=
  fold_left (λ r f, place_file coverage f r) files
    {| gaps := []; unmeasured := []; skipped_by_type := [] |}.

Definition intersect_coverage (files : list Diff.FileDiff) (coverage : list FileCoverage) :
    CoverageReport :=
  let r := place_files coverage files in
  {| gaps := sort_by (λ a b, str_leb (gap_path a) (gap_path b)) (gaps r);
     unmeasured := sort_strs (unmeasured r); skipped_by_type := sort_strs (skipped_by_type r) |}.

End Gate.

(** A profile of two blocks, read and asked about. *)
Example sample_go :
  parse_with_root (lit "mode: set" ++ [nl] ++ lit "m/pkg/a.go:2.1,3.9 1 4" ++ [nl]
    ++ lit "m/pkg/a.go:3.1,5.2 2 0" ++ [nl] ++ lit "m/b.go:7.1,7.2 1 1") [] []
  = Ok [{| path := lit "b.go"; covered_lines := [7] |};
        {| path := lit "pkg/a.go"; covered_lines := [2; 3] |}].
Proof. vm_compute. reflexivity. Qed.

Example sample_lcov :
  parse_with_root (lit "TN:" ++ [nl] ++ lit "SF:/repo//src/./a.rs" ++ [nl] ++ lit "DA:4,1" ++ [nl]
    ++ lit "DA:3,2,x" ++ [nl] ++ lit "DA:4,9" ++ [nl] ++ lit "DA:9,0" ++ [nl] ++ lit "end_of_record")
    [] [lit "/repo"]
  = Ok [{| path := lit "src/a.rs"; covered_lines := [3; 4] |}].
Proof. vm_compute. reflexivity. Qed.

End Coverage.
