(* ===== verification/CoverageProps.v ===== *)
(** * What a coverage report's lists hold *)

From S2P Require Import Prelude RustStr RustStrFacts Order Coverage Diff.
Import Order Coverage.

#[local] Open Scope Z_scope.

Module CoverageFacts.

(** ** Sorting and deduplication *)

Lemma elem_of_dedup n l : n ∈ dedup l ↔ n ∈ l.
Proof.
  induction l as [|x [|y l] IH]; [done|done|]. change (dedup (x :: y :: l))
    with (if x =? y then dedup (y :: l) else x :: dedup (y :: l)).
  destruct (Z.eqb_spec x y) as [->|].
  - rewrite IH, !elem_of_cons. tauto.
  - by rewrite elem_of_cons, IH, (elem_of_cons (y :: l)).
Qed.

Lemma dedup_sorted l : StronglySorted Z.le l → StronglySorted Z.lt (dedup l).
Proof.
  induction l as [|x [|y l] IH]; intros H; [constructor|repeat constructor|].
  change (dedup (x :: y :: l)) with (if x =? y then dedup (y :: l) else x :: dedup (y :: l)).
  inversion H as [|? ? Hs Hx]; subst. destruct (Z.eqb_spec x y) as [->|Hne]; [by apply IH|].
  constructor; [by apply IH|]. apply Forall_forall. rewrite Forall_forall in Hx. intros n Hn. rewrite elem_of_dedup in Hn.
  inversion Hs as [|? ? _ Hy]; subst. rewrite Forall_forall in Hy.
  specialize (Hx y ltac:(by left)). apply elem_of_cons in Hn as [->|Hn]; [lia|]. specialize (Hy n Hn). lia.
Qed.

Lemma sort_Z_sorted l : StronglySorted Z.le (sort_by Z.leb l).
Proof.
  apply Sorted_StronglySorted; [intros a b c; lia|].
  assert (∀ k, Sorted (λ a b, (a <=? b) = true) k → Sorted Z.le k) as Hm.
  { induction 1 as [|a k _ IH Ha]; constructor; [done|]. destruct Ha; constructor. by apply Z.leb_le. }
  apply Hm, sort_by_sorted. intros a b. rewrite !Z.leb_le. lia.
Qed.

(** ** What [finish] makes of a map *)

(** The report says the line ran. *)
Definition ran (cov : list FileCoverage) (p : str) (n : Z) : Prop :=
  ∃ f, f ∈ cov ∧ path f = p ∧ n ∈ covered_lines f.

Lemma elem_of_finish f m :
  f ∈ finish m ↔ ∃ l, m !! path f = Some l ∧ covered_lines f = dedup (sort_by Z.leb l).
Proof.
  unfold finish. rewrite elem_of_map. setoid_rewrite elem_of_sort_by. split.
  - intros ([p l] & -> & H%elem_of_map_to_list). by exists l.
  - intros (l & Hm & Hc). exists (path f, l). split; [|by apply elem_of_map_to_list].
    destruct f. cbn in *. by rewrite Hc.
Qed.

Lemma ran_finish m p n : ran (finish m) p n ↔ ∃ l, m !! p = Some l ∧ n ∈ l.
Proof.
  unfold ran. setoid_rewrite elem_of_finish. split.
  - intros (f & (l & Hm & Hc) & <- & Hn). rewrite Hc, elem_of_dedup, elem_of_sort_by in Hn. by exists l.
  - intros (l & Hm & Hn). exists {| path := p; covered_lines := dedup (sort_by Z.leb l) |}.
    split_and!; [by exists l|done|]. cbn. by rewrite elem_of_dedup, elem_of_sort_by.
Qed.

Lemma paths_finish m p : p ∈ map path (finish m) ↔ is_Some (m !! p).
Proof.
  rewrite elem_of_map. setoid_rewrite elem_of_finish. split.
  - intros (f & -> & l & Hm & _). by exists l.
  - intros [l Hm]. exists {| path := p; covered_lines := dedup (sort_by Z.leb l) |}.
    split; [done|]. by exists l.
Qed.

(** A report in order: its files by path, each once, and each file's lines ascending. *)
Record in_order (cov : list FileCoverage) : Prop := {
  io_paths : NoDup (map path cov);
  io_sorted : StronglySorted (λ a b, str_leb (path a) (path b) = true) cov;
  io_lines : Forall (λ f, StronglySorted Z.lt (covered_lines f)) cov;
}.

Lemma by_key_total a b : by_key a b = true ∨ by_key b a = true.
Proof. apply str_leb_total. Qed.

Lemma finish_in_order m : in_order (finish m).
Proof.
  constructor.
  - unfold finish. rewrite map_map. cbn. change (map (λ x : str * list Z, x.1)) with (fmap (M := list) (fst (A := str) (B := list Z))).
    rewrite (sort_by_perm by_key). apply NoDup_fst_map_to_list.
  - unfold finish. assert (StronglySorted (λ a b, by_key a b = true) (sort_by by_key (map_to_list m))) as Hs.
    { apply Sorted_StronglySorted; [intros a b c; apply str_leb_trans|].
      apply sort_by_sorted, by_key_total. }
    induction Hs as [|e l _ IH He]; constructor; [done|]. apply Forall_forall.
    intros f (e' & -> & He')%elem_of_map. rewrite Forall_forall in He. by apply He.
  - rewrite Forall_forall. intros f (l & _ & ->)%elem_of_finish. apply dedup_sorted, sort_Z_sorted.
Qed.

(** ** How many lines a map holds *)

Definition held (m : Covered) : nat := sum_list_with (λ e, length e.2) (map_to_list m).

Lemma held_insert m p l :
  (held (<[p := l]> m) + length (default [] (m !! p)) = held m + length l)%nat.
Proof.
  unfold held. destruct (m !! p) as [k|] eqn:E; cbn [default from_option].
  - rewrite <- (sum_list_with_perm _ _ _ (map_to_list_delete m p k E)).
    rewrite <- insert_delete_eq. rewrite (sum_list_with_perm _ _ _ (map_to_list_insert (delete p m) p l (lookup_delete_eq _ _))).
    cbn. change (length (Datatypes.id k)) with (length k). lia.
  - rewrite (sum_list_with_perm _ _ _ (map_to_list_insert m p l E)). cbn. lia.
Qed.

Lemma held_or_default m p : held (or_default p m) = held m.
Proof. unfold or_default. pose proof (held_insert m p (default [] (m !! p))). lia. Qed.

Lemma held_push m p ns : held (push p ns m) = (held m + length ns)%nat.
Proof.
  unfold push. pose proof (held_insert m p (default [] (m !! p) ++ ns)) as H.
  rewrite length_app in H. lia.
Qed.

Lemma dedup_length l : (length (dedup l) ≤ length l)%nat.
Proof.
  induction l as [|x [|y l] IH]; [done|done|]. change (dedup (x :: y :: l))
    with (if x =? y then dedup (y :: l) else x :: dedup (y :: l)). case_if; cbn [length] in *; lia.
Qed.

(** No more lines are reported than were gathered. *)
Lemma finish_size m : (sum_list_with (λ f, length (covered_lines f)) (finish m) ≤ held m)%nat.
Proof.
  unfold held, finish. rewrite <- (sum_list_with_perm _ _ _ (sort_by_perm by_key (map_to_list m))).
  induction (sort_by by_key (map_to_list m)) as [|e l IH]; [done|]. cbn.
  pose proof (dedup_length (sort_by Z.leb e.2)). rewrite length_sort_by in *. lia.
Qed.

(** ** Searching *)

(** A slice cut at its middle element. *)
Lemma slice_cut (l : list Z) lo half size y :
  (half < size)%nat → l !! (lo + half)%nat = Some y →
  take size (drop lo l)
  = take half (drop lo l) ++ y :: take (size - half - 1) (drop (lo + half + 1) l).
Proof.
  intros Hh Hy. replace size with (half + S (size - half - 1))%nat at 1 by lia.
  rewrite <- take_take_drop, drop_drop, (drop_S _ _ _ Hy). cbn [take].
  by replace (S (lo + half)) with (lo + half + 1)%nat by lia.
Qed.

Lemma search_spec fuel l x lo size :
  StronglySorted Z.le l → (size < fuel)%nat → (lo + size ≤ length l)%nat →
  search fuel l x lo size = bool_decide (x ∈ take size (drop lo l)).
Proof.
  intros Hs. revert lo size. induction fuel as [|f IH]; intros lo size Hf Hl; [lia|]. cbn [search].
  destruct size as [|size]; [done|]. set (n := S size) in *. set (half := Nat.div n 2).
  assert (half < n)%nat as Hh by (apply Nat.div_lt; unfold n; lia).
  destruct (lookup_lt_is_Some_2 l (lo + half)) as [y Hy]; [lia|]. rewrite Hy.
  assert (StronglySorted Z.le (take n (drop lo l))) as Hseg.
  { rewrite <- (take_drop lo l) in Hs. apply StronglySorted_app_1_r in Hs.
    rewrite <- (take_drop n (drop lo l)) in Hs. by apply StronglySorted_app_1_l in Hs. }
  rewrite (slice_cut l lo half n y) in Hseg |- * by done.
  apply StronglySorted_app in Hseg as (Hlr & _ & [Hyr _]%StronglySorted_cons).
  rewrite Forall_forall in Hyr. pose proof (λ z Hz, Hlr z y Hz (list_elem_of_here y _)) as Hly.
  destruct (Z.eqb_spec y x) as [->|Hne].
  { symmetry. apply bool_decide_eq_true. apply elem_of_app. right. by left. }
  destruct (Z.ltb_spec y x).
  - rewrite IH by lia. apply bool_decide_ext. rewrite elem_of_app, elem_of_cons. split; [tauto|].
    intros [Hx|[->|Hx]]; [|lia|done]. specialize (Hly x Hx). lia.
  - rewrite IH by lia. apply bool_decide_ext. rewrite elem_of_app, elem_of_cons. split; [tauto|].
    intros [Hx|[->|Hx]]; [done|lia|]. specialize (Hyr x Hx). lia.
Qed.

Lemma binary_search_spec l x :
  StronglySorted Z.le l → binary_search l x = bool_decide (x ∈ l).
Proof.
  intros Hs. unfold binary_search. rewrite search_spec by (done || lia).
  by rewrite drop_0, take_ge by lia.
Qed.

Lemma is_sorted_spec l : is_sorted l = true → StronglySorted Z.le l.
Proof.
  intros H. apply Sorted_StronglySorted; [intros a b c; lia|].
  induction l as [|x [|y l] IH]; [constructor|repeat constructor|].
  change ((x <=? y) && is_sorted (y :: l) = true) in H. apply andb_prop in H as [Hx H].
  constructor; [by apply IH|]. constructor. by apply Z.leb_le.
Qed.

Lemma searchable_sorted l : StronglySorted Z.le (searchable l).
Proof.
  unfold searchable. destruct (is_sorted l) eqn:E; [by apply is_sorted_spec|apply sort_Z_sorted].
Qed.

Lemma elem_of_searchable n l : n ∈ searchable l ↔ n ∈ l.
Proof. unfold searchable. case_if; [done|apply elem_of_sort_by]. Qed.

(** The lines of [added] outside [covered], in their order. *)
Lemma uncovered_spec added covered :
  uncovered added covered = List.filter (λ n, negb (bool_decide (n ∈ covered))) added.
Proof.
  unfold uncovered. apply filter_ext. intros n.
  rewrite binary_search_spec by apply searchable_sorted. f_equal. apply bool_decide_ext.
  apply elem_of_searchable.
Qed.

End CoverageFacts.

(** * What the coverage gate shows

    A report that parses says of a line that it ran exactly when a record of the report
    says so; the gate passes exactly when every added line it asks about ran. *)

Import Coverage CoverageFacts.

#[local] Open Scope Z_scope.

Module CoverageProps.

(** ** Reading a profile *)

Section Go.
Context (modules : list GoModule).

Definition block_of (l : str) : option Block :=
  if go_ignored (trim l) then None
  else match read_block (trim l) with Ok b => Some b | Err _ => None end.

(** The blocks of a profile, in its order. *)
Definition blocks (raw : str) : list Block := omap block_of (lines raw).

Definition readable (l : str) : Prop := go_ignored (trim l) = true ∨ is_Some (block_of l).

Definition file_of (b : Block) : str := normalise_go_path (b_path b) modules.

Definition counted (b : Block) : Z := if 0 <? b_count b then b_span b else 0.

Definition total (bs : list Block) : Z := foldr (λ b n, counted b + n) 0 bs.

(** What a block adds, the limit aside. *)
Definition recorded (st : Reading) (b : Block) : Reading :=
  let covered1 := or_default (file_of b) (covered st) in
  {| covered := if 0 <? b_count b
                then push (file_of b) (seqZ (b_start b) (b_span b)) covered1 else covered1;
     seen_any := true; materialised := materialised st + counted b; current := current st |}.

Lemma read_block_span l b : read_block l = Ok b → 1 ≤ b_span b ≤ MAX_COVERED_SPAN.
Proof.
  unfold read_block. destruct (rsplit_once 32 l) as [[loc counts]|]; [|done]. cbn [ok_or].
  destruct (parse_u64 counts) as [count|]; [|done]. cbn [ok_or].
  destruct (rsplit_once 32 loc) as [[loc' stmts]|]; [|done]. cbn [ok_or].
  destruct (split_once _ loc') as [[p span]|]; [|done]. cbn [ok_or].
  destruct (split_once _ span) as [[s e]|]; [|done]. cbn [ok_or].
  destruct (parse_u32 _) as [a|]; [|done]. cbn [ok_or]. destruct (parse_u32 _) as [z|]; [|done].
  cbn [ok_or]. destruct (Z.ltb_spec z a); [done|].
  destruct (Z.ltb_spec MAX_COVERED_SPAN (z - a + 1)); [done|]. intros [= <-]. unfold b_span. cbn. lia.
Qed.

Lemma block_of_span l b : block_of l = Some b → 1 ≤ b_span b ≤ MAX_COVERED_SPAN.
Proof.
  unfold block_of. case_if; [done|]. destruct (read_block _) eqn:E; [|done]. intros [= ->].
  by eapply read_block_span.
Qed.

Lemma counted_bound l b : block_of l = Some b → 0 ≤ counted b ≤ MAX_COVERED_SPAN.
Proof. intros H%block_of_span. unfold counted, MAX_COVERED_SPAN in *. case_if; lia. Qed.

Lemma total_nonneg ls : 0 ≤ total (omap block_of ls).
Proof.
  induction ls as [|l ls IH]; [done|]. cbn. destruct (block_of l) eqn:E; [|done].
  apply counted_bound in E. cbn. unfold total in IH. lia.
Qed.

(** The limit is the only thing that can refuse a block that reads. *)
Lemma record_block_spec l b st :
  block_of l = Some b → 0 ≤ materialised st ≤ MAX_COVERED_LINES →
  record_block modules b st
  = if MAX_COVERED_LINES <? materialised st + counted b
    then Err "the profile's blocks together cover more lines than any real measurement"
    else Ok (recorded st b).
Proof.
  intros Hb Hm. pose proof (counted_bound l b Hb) as Hc. unfold record_block, recorded.
  unfold counted in *. destruct (0 <? b_count b).
  - assert (sat_add u64_max (materialised st) (b_span b) = materialised st + b_span b) as ->; [|done].
    unfold sat_add, u64_max, MAX_COVERED_LINES, MAX_COVERED_SPAN in *. lia.
  - rewrite Z.add_0_r. destruct (Z.ltb_spec MAX_COVERED_LINES (materialised st)); [lia|done].
Qed.

Lemma each_go n ls st st' :
  0 ≤ materialised st ≤ MAX_COVERED_LINES →
  each_line (go_line modules) n ls st = Ok st' ↔
  Forall readable ls ∧ materialised st + total (omap block_of ls) ≤ MAX_COVERED_LINES
  ∧ st' = fold_left recorded (omap block_of ls) st.
Proof.
  revert n st. induction ls as [|l ls IH]; intros n st Hm; cbn [each_line omap list_omap].
  - cbn. split; [intros [= <-]; split_and!; [constructor|lia|done]|by intros (_ & _ & ->)].
  - rewrite Forall_cons. destruct (go_ignored (trim l)) eqn:Ei.
    { assert (block_of l = None) as Hb by (unfold block_of; by rewrite Ei).
      assert (go_line modules l st = Ok st) as -> by (unfold go_line; by rewrite Ei).
      rewrite Hb, IH by done. split; [intros (? & ? & ?); split_and!; [by left|done..]|].
      by intros ([_ ?] & ? & ?). }
    assert (go_line modules l st = let? b := read_block (trim l) in record_block modules b st) as ->
      by (unfold go_line; by rewrite Ei).
    destruct (read_block (trim l)) as [b|why] eqn:Er.
    2: { split; [done|]. intros ([[?|[b Hb]] _] & _); [congruence|].
         unfold block_of in Hb. by rewrite Ei, Er in Hb. }
    assert (block_of l = Some b) as Hb by (unfold block_of; by rewrite Ei, Er). rewrite Hb.
    rewrite (record_block_spec l) by done. pose proof (counted_bound l b Hb).
    pose proof (total_nonneg ls). cbn [total foldr fold_left]. fold (total (omap block_of ls)).
    destruct (Z.ltb_spec MAX_COVERED_LINES (materialised st + counted b)).
    + split; [done|]. intros (_ & ? & _). lia.
    + rewrite IH by (cbn; lia). cbn [materialised recorded]. rewrite Z.add_assoc. split.
      * intros (? & ? & ?). split_and!; [right; by exists b|done..].
      * by intros ([_ ?] & ? & ?).
Qed.

(** The lines a block marks. *)
Definition marks (b : Block) (p : str) (n : Z) : Prop :=
  file_of b = p ∧ 0 < b_count b ∧ b_start b ≤ n ≤ b_end b.

Definition holds (m : Covered) (p : str) (n : Z) : Prop := ∃ l, m !! p = Some l ∧ n ∈ l.

Lemma holds_or_default p q n m : holds (or_default q m) p n ↔ holds m p n.
Proof.
  unfold holds, or_default. destruct (decide (q = p)) as [->|Hne].
  - rewrite lookup_insert_eq. destruct (m !! p) as [l|]; cbn; [done|].
    split; intros (l & [= <-] & H); by apply not_elem_of_nil in H.
  - by rewrite lookup_insert_ne.
Qed.

Lemma holds_push p q ns n m : holds (push q ns m) p n ↔ holds m p n ∨ (q = p ∧ n ∈ ns).
Proof.
  unfold holds, push. destruct (decide (q = p)) as [->|Hne].
  - rewrite lookup_insert_eq. destruct (m !! p) as [l|]; cbn.
    + split.
      * intros (k & [= <-] & [H|H]%elem_of_app); [left; by exists l|by right].
      * intros [(k & [= ->] & H)|[_ H]]; eexists; (split; [done|]); apply elem_of_app; auto.
    + split; [intros (k & [= <-] & H); by right|]. intros [(k & [=] & _)|[_ H]]. by eexists.
  - rewrite lookup_insert_ne by done. split; [by left|]. by intros [H|[? _]].
Qed.

Lemma named_or_default (p q : str) (m : Covered) : is_Some (or_default q m !! p) ↔ is_Some (m !! p) ∨ q = p.
Proof.
  unfold or_default. destruct (decide (q = p)) as [->|Hne].
  - rewrite lookup_insert_eq. split; [by right|by eexists].
  - rewrite lookup_insert_ne by done. split; [by left|]. by intros [H|?].
Qed.

Lemma named_push (p q : str) (ns : list Z) (m : Covered) : is_Some (push q ns m !! p) ↔ is_Some (m !! p) ∨ q = p.
Proof.
  unfold push. destruct (decide (q = p)) as [->|Hne].
  - rewrite lookup_insert_eq. split; [by right|by eexists].
  - rewrite lookup_insert_ne by done. split; [by left|]. by intros [H|?].
Qed.

Lemma recorded_all bs st :
  let st' := fold_left recorded bs st in
  (∀ p n, holds (covered st') p n ↔ holds (covered st) p n ∨ ∃ b, b ∈ bs ∧ marks b p n)
  ∧ (∀ p, is_Some (covered st' !! p) ↔ is_Some (covered st !! p) ∨ ∃ b, b ∈ bs ∧ file_of b = p)
  ∧ (seen_any st' = true ↔ seen_any st = true ∨ bs ≠ [])
  ∧ (Forall (λ b, 0 ≤ b_span b) bs →
     Z.of_nat (held (covered st')) = Z.of_nat (held (covered st)) + total bs).
Proof.
  revert st. induction bs as [|b bs IH]; intros st; cbn [fold_left].
  - split_and!; try (intros; split; [by left|]; intros [?|(? & []%not_elem_of_nil & _)]; done).
    + split; [by left|]. by intros [?|?].
    + intros _. cbn. lia.
  - destruct (IH (recorded st b)) as (H1 & H2 & H3 & H4). split_and!.
    + intros p n. rewrite H1. cbn [covered recorded].
      assert (holds (if 0 <? b_count b
        then push (file_of b) (seqZ (b_start b) (b_span b)) (or_default (file_of b) (covered st))
        else or_default (file_of b) (covered st)) p n ↔ holds (covered st) p n ∨ marks b p n) as ->.
      { unfold marks, b_span. destruct (Z.ltb_spec 0 (b_count b)).
        - rewrite holds_push, holds_or_default, elem_of_seqZ. split; intros [?|?]; try (by left); right; lia || naive_solver lia.
        - rewrite holds_or_default. split; [by left|]. intros [?|(_ & ? & _)]; [done|lia]. }
      split.
      * intros [[?|?]|(b' & ? & ?)]; [by left|right; exists b; by split; [left|]|right; exists b'; by split; [right|]].
      * intros [?|(b' & [->|?]%elem_of_cons & ?)]; [by left; left|by left; right|right; by exists b'].
    + intros p. rewrite H2. cbn [covered recorded].
      assert (is_Some ((if 0 <? b_count b
        then push (file_of b) (seqZ (b_start b) (b_span b)) (or_default (file_of b) (covered st))
        else or_default (file_of b) (covered st)) !! p) ↔ is_Some (covered st !! p) ∨ file_of b = p) as ->.
      { case_if; rewrite ?named_push, named_or_default; tauto. }
      split.
      * intros [[?|?]|(b' & ? & ?)]; [by left|right; exists b; by split; [left|]|right; exists b'; by split; [right|]].
      * intros [?|(b' & [->|?]%elem_of_cons & ?)]; [by left; left|by left; right|right; by exists b'].
    + rewrite H3. cbn. split; [intros _; by right|]. intros _. by left.
    + intros [Hb Hbs]%Forall_cons. rewrite H4 by done. cbn [covered recorded total foldr].
      fold (total bs). unfold counted. case_if; rewrite ?held_push, held_or_default, ?length_seqZ; lia.
Qed.

End Go.

(** ** Reading an LCOV report *)

Section Lcov.
Context (bases : list str).

(** The file a report is speaking of after some lines. *)
Definition marker (cur : option str) (l : str) : option str :=
  match strip_prefix (lit "SF:") (trim l) with
  | Some p => Some (normalise_lcov_path (trim p) bases)
  | None => if bool_decide (trim l = lit "end_of_record") then None else cur
  end.

Definition open_file (before : list str) : option str := fold_left marker before None.

(** A [DA] record of [n] with [hits], in a section of the file [p]. *)
Definition hit_in (ls : list str) (p : str) (n hits : Z) : Prop :=
  ∃ before l after record,
    ls = before ++ l :: after ∧ strip_prefix (lit "DA:") (trim l) = Some record
    ∧ read_hit record = Ok (n, hits) ∧ open_file before = Some p.

(** What has been read when [before] has. *)
Record lcov_reading (before : list str) (st : Reading) : Prop := {
  lr_current : current st = open_file before;
  lr_covered : ∀ p n, holds (covered st) p n ↔ ∃ hits, hit_in before p n hits ∧ 0 < hits;
  lr_named : ∀ p, is_Some (covered st !! p) ↔ ∃ a l b, before = a ++ l :: b ∧ ∃ q,
      strip_prefix (lit "SF:") (trim l) = Some q ∧ normalise_lcov_path (trim q) bases = p;
  lr_open : ∀ f, current st = Some f → is_Some (covered st !! f);
  lr_seen : seen_any st = true ↔ ∃ p n hits, hit_in before p n hits;
  lr_size : Z.of_nat (held (covered st)) = materialised st ∧ materialised st ≤ MAX_COVERED_LINES;
}.

Lemma hit_in_snoc ls l p n hits :
  hit_in (ls ++ [l]) p n hits ↔
  hit_in ls p n hits
  ∨ ∃ record, strip_prefix (lit "DA:") (trim l) = Some record ∧ read_hit record = Ok (n, hits)
              ∧ open_file ls = Some p.
Proof.
  split.
  - intros (before & l' & after & record & E & Hr & Hh & Ho).
    destruct after as [|x after _] using rev_ind.
    + apply app_inj_tail in E as [-> ->]. right. by exists record.
    + left. rewrite app_comm_cons, app_assoc in E. apply app_inj_tail in E as [-> ->].
      by exists before, l', after, record.
  - intros [(before & l' & after & record & -> & Hr & Hh & Ho)|(record & Hr & Hh & Ho)].
    + exists before, l', (after ++ [l]), record. split_and!; [by rewrite <- app_assoc|done..].
    + by exists ls, l, [], record.
Qed.

Lemma split_snoc (ls : list str) l (P : str → Prop) :
  (∃ a x b, ls ++ [l] = a ++ x :: b ∧ P x) ↔ (∃ a x b, ls = a ++ x :: b ∧ P x) ∨ P l.
Proof.
  split.
  - intros (a & x & b & E & HP). destruct b as [|y b _] using rev_ind.
    + apply app_inj_tail in E as [-> ->]. by right.
    + left. rewrite app_comm_cons, app_assoc in E. apply app_inj_tail in E as [-> ->]. by exists a, x, b.
  - intros [(a & x & b & -> & HP)|HP]; [|by exists ls, l, []]. exists a, x, (b ++ [l]).
    split; [by rewrite <- app_assoc|done].
Qed.

Lemma open_file_snoc ls l : open_file (ls ++ [l]) = marker (open_file ls) l.
Proof. unfold open_file. by rewrite fold_left_app. Qed.

Lemma open_file_named ls p :
  open_file ls = Some p →
  ∃ a x b, ls = a ++ x :: b ∧ ∃ q,
    strip_prefix (lit "SF:") (trim x) = Some q ∧ normalise_lcov_path (trim q) bases = p.
Proof.
  induction ls as [|l ls IH] using rev_ind; [done|]. rewrite open_file_snoc. intros H.
  apply (split_snoc ls l (λ x, ∃ q, strip_prefix (lit "SF:") (trim x) = Some q
    ∧ normalise_lcov_path (trim q) bases = p)).
  unfold marker in H. destruct (strip_prefix (lit "SF:") (trim l)) as [q|].
  - injection H as <-. right. by exists q.
  - case_bool_decide; [done|]. left. by apply IH.
Qed.

Lemma sf_not_da l p : strip_prefix (lit "SF:") l = Some p → strip_prefix (lit "DA:") l = None.
Proof. by intros ->%strip_prefix_Some. Qed.

Lemma da_not_end l p : strip_prefix (lit "DA:") l = Some p → l ≠ lit "end_of_record".
Proof. by intros ->%strip_prefix_Some. Qed.

Lemma lcov_line_reads before l st st' :
  lcov_reading before st → lcov_line bases l st = Ok st' → lcov_reading (before ++ [l]) st'.
Proof.
  intros [Hc Hcov Hn Hop Hs [Hz Hm]] H. unfold lcov_line in H.
  assert (∀ q, (∃ a x b, before ++ [l] = a ++ x :: b ∧ ∃ q', strip_prefix (lit "SF:") (trim x) = Some q'
      ∧ normalise_lcov_path (trim q') bases = q)
    ↔ is_Some (covered st !! q) ∨ ∃ q', strip_prefix (lit "SF:") (trim l) = Some q'
      ∧ normalise_lcov_path (trim q') bases = q) as Hname
    by (intros q; rewrite (split_snoc before l (λ x, ∃ q', strip_prefix (lit "SF:") (trim x) = Some q'
          ∧ normalise_lcov_path (trim q') bases = q)); by rewrite Hn).
  destruct (strip_prefix (lit "SF:") (trim l)) as [p|] eqn:Esf.
  - apply sf_not_da in Esf as Eda. case_bool_decide; [done|]. injection H as <-.
    constructor; cbn [current covered seen_any materialised set_current].
    + by rewrite open_file_snoc; unfold marker; rewrite Esf.
    + intros q n. rewrite holds_or_default, Hcov. setoid_rewrite hit_in_snoc. rewrite Eda. naive_solver.
    + intros q. rewrite Hname, named_or_default. naive_solver.
    + intros f [= <-]. apply named_or_default. by right.
    + rewrite Hs. setoid_rewrite hit_in_snoc. rewrite Eda. naive_solver.
    + by rewrite held_or_default.
  - destruct (strip_prefix (lit "DA:") (trim l)) as [record|] eqn:Eda.
    + destruct (current st) as [file|] eqn:Ef; [|done]. cbn [ok_or] in H.
      destruct (read_hit record) as [[n hits]|] eqn:Eh; [|done].
      assert (marker (open_file before) l = open_file before) as Hmk.
      { unfold marker. rewrite Esf. apply da_not_end in Eda. by rewrite bool_decide_eq_false_2. }
      assert (∀ q m h, hit_in (before ++ [l]) q m h ↔ hit_in before q m h ∨ (q = file ∧ m = n ∧ h = hits))
        as Hhit.
      { intros q m h. rewrite hit_in_snoc, Eda, <- Hc. split.
        - intros [?|(? & [= <-] & E & [= ->])]; [by left|]. right. rewrite Eh in E. by injection E as -> ->.
        - intros [?|(-> & -> & ->)]; [by left|]. right. by exists record. }
      unfold record_hit in H. destruct (Z.ltb_spec 0 hits).
      * destruct (Z.ltb_spec MAX_COVERED_LINES (materialised st + 1)); [done|]. injection H as <-.
        constructor; cbn [current covered seen_any materialised].
        -- by rewrite open_file_snoc, Hmk, <- Hc.
        -- intros q m. rewrite holds_push, Hcov, list_elem_of_singleton. setoid_rewrite Hhit. naive_solver.
        -- intros q. rewrite Hname, named_push. split; [|naive_solver]. intros [?|<-]; [by left|].
           left. by apply Hop.
        -- intros f Hf. apply named_push. left. apply Hop. congruence.
        -- setoid_rewrite Hhit. naive_solver.
        -- rewrite held_push. cbn. lia.
      * injection H as <-. constructor; cbn [current covered seen_any materialised].
        -- by rewrite open_file_snoc, Hmk, <- Hc.
        -- intros q m. rewrite Hcov. setoid_rewrite Hhit. naive_solver lia.
        -- intros q. rewrite Hname. naive_solver.
        -- intros f Hf. apply Hop. congruence.
        -- setoid_rewrite Hhit. naive_solver.
        -- done.
    + assert (∀ q m h, hit_in (before ++ [l]) q m h ↔ hit_in before q m h) as Hhit
        by (intros q m h; rewrite hit_in_snoc, Eda; naive_solver).
      case_bool_decide as He; injection H as <-; constructor;
        cbn [current covered seen_any materialised set_current];
        rewrite ?open_file_snoc; unfold marker; rewrite ?Esf.
      all: try (intros q m; rewrite Hcov; by setoid_rewrite Hhit).
      all: try (rewrite Hs; by setoid_rewrite Hhit).
      all: try (intros q; rewrite Hname; naive_solver).
      * by rewrite bool_decide_eq_true_2.
      * done.
      * done.
      * by rewrite bool_decide_eq_false_2.
      * intros f Hf. apply Hop. congruence.
      * done.
Qed.

End Lcov.

Lemma each_line_reads (step : str → Reading → result Reading string) (I : list str → Reading → Prop) :
  (∀ before l st st', I before st → step l st = Ok st' → I (before ++ [l]) st') →
  ∀ before n ls st st', I before st → each_line step n ls st = Ok st' → I (before ++ ls) st'.
Proof.
  intros Hstep before n ls. revert before n. induction ls as [|l ls IH]; intros before n st st' HI.
  - intros [= <-]. by rewrite app_nil_r.
  - cbn [each_line]. destruct (step l st) as [st1|] eqn:E; [|done].
    replace (before ++ l :: ls) with ((before ++ [l]) ++ ls) by (by rewrite <- app_assoc).
    by apply IH, (Hstep before l st).
Qed.

Lemma lcov_reads bases raw st :
  each_line (lcov_line bases) 1 (lines raw) start_reading = Ok st → lcov_reading bases (lines raw) st.
Proof.
  apply (each_line_reads (lcov_line bases) (lcov_reading bases) (lcov_line_reads bases) []). constructor.
  - done.
  - intros p n. split; [by intros (l & [=] & _)|]. intros (h & (b & ? & ? & ? & ? & _) & _). by destruct b.
  - intros p. split; [by intros [? [=]]|]. by intros ([] & ? & ? & ? & _).
  - done.
  - split; [done|]. by intros (p & n & h & [] & ? & ? & ? & ? & _).
  - done.
Qed.

(** ** What is reported *)

Definition is_go (raw : str) : bool := starts_with (lit "mode:") (trim_start_by is_whitespace raw).

(** A record of the report says the line ran. *)
Definition executed (raw : str) (modules : list GoModule) (bases : list str) (p : str) (n : Z) : Prop :=
  if is_go raw then ∃ b, b ∈ blocks raw ∧ marks modules b p n
  else ∃ hits, hit_in bases (lines raw) p n hits ∧ 0 < hits.

Definition measured_lines (cov : list FileCoverage) : Z :=
  Z.of_nat (sum_list_with (λ f, length (covered_lines f)) cov).

Lemma parse_go_ok raw modules cov :
  parse_go raw modules = Ok cov ↔
  Forall readable (lines raw) ∧ blocks raw ≠ [] ∧ total (blocks raw) ≤ MAX_COVERED_LINES
  ∧ cov = finish (covered (fold_left (recorded modules) (blocks raw) start_reading)).
Proof.
  unfold parse_go.
  assert (∀ st, each_line (go_line modules) 1 (lines raw) start_reading = Ok st ↔
    Forall readable (lines raw) ∧ total (blocks raw) ≤ MAX_COVERED_LINES
    ∧ st = fold_left (recorded modules) (blocks raw) start_reading) as H.
  { intros st. rewrite each_go by done. change (materialised start_reading) with 0. by rewrite Z.add_0_l. }
  destruct (recorded_all modules (blocks raw) start_reading) as (_ & _ & Hseen & _). split.
  - destruct (each_line _ _ _ _) as [st|]; [|done]. pose proof (proj1 (H st) eq_refl) as (Hr & Ht & ->).
    destruct (seen_any _); [|done]. intros [= <-]. split_and!; [done| |done|done].
    by destruct (proj1 Hseen eq_refl).
  - intros (Hr & Hne & Ht & ->). rewrite (proj2 (H _)) by done.
    by rewrite (proj2 Hseen) by (by right).
Qed.

Lemma blocks_spans raw : Forall (λ b, 0 ≤ b_span b) (blocks raw).
Proof.
  apply Forall_forall. intros b (l & _ & Hl%block_of_span)%list_elem_of_omap. lia.
Qed.

Lemma finish_nonempty m (p : str) : is_Some (m !! p) → finish m ≠ [].
Proof. intros H%paths_finish E. rewrite E in H. by apply not_elem_of_nil in H. Qed.

Lemma report_parsed raw modules bases cov :
  parse_with_root raw modules bases = Ok cov →
  in_order cov ∧ cov ≠ [] ∧ measured_lines cov ≤ MAX_COVERED_LINES
  ∧ ∀ p n, ran cov p n ↔ executed raw modules bases p n.
Proof.
  unfold parse_with_root, executed, is_go, measured_lines. case_bool_decide; [done|].
  destruct (starts_with (lit "mode:") _).
  - intros (_ & Hne & Ht & ->)%parse_go_ok.
    destruct (recorded_all modules (blocks raw) start_reading) as (Hran & Hnamed & _ & Hheld).
    specialize (Hheld (blocks_spans raw)).
    set (m := covered (fold_left (recorded modules) (blocks raw) start_reading)) in *.
    split_and!; [apply finish_in_order| | |].
    + destruct (blocks raw) as [|b bs]; [done|]. apply (finish_nonempty m (file_of modules b)), Hnamed.
      right. exists b. split; [by left|done].
    + pose proof (finish_size m). change (held (covered start_reading)) with 0%nat in Hheld. lia.
    + intros p n. rewrite ran_finish. fold (holds m p n). rewrite Hran.
      split; [|by right]. by intros [(l & [=] & _)|?].
  - destruct (_ || _); [|done]. unfold parse_lcov.
    destruct (each_line _ _ _ _) as [st|] eqn:E; [|done]. apply lcov_reads in E as [_ Hcov Hn _ Hs [Hz Hm]].
    destruct (seen_any st); [|done]. cbn [negb]. intros [= <-].
    split_and!; [apply finish_in_order| | |].
    + destruct (proj1 Hs eq_refl) as (p & n & hits & before & l & after & record & El & _ & _ & Ho).
      apply (finish_nonempty _ p), Hn. apply open_file_named in Ho as (a & x & b & -> & Hx).
      exists a, x, (b ++ l :: after). by rewrite El, <- app_assoc.
    + pose proof (finish_size (covered st)). lia.
    + intros p n. rewrite ran_finish. apply Hcov.
Qed.

(** A report that parses is in order (its files by path and each once, its lines
    ascending), is not empty, holds at most four million lines, and says of a line that it
    ran exactly when one of its records does: a block that ran and spans it, or a hit. *)
Theorem report_says_what_ran raw modules bases cov :
  parse_with_root raw modules bases = Ok cov →
  in_order cov ∧ cov ≠ [] ∧ measured_lines cov ≤ MAX_COVERED_LINES
  ∧ ∀ p n, ran cov p n ↔ executed raw modules bases p n.
Proof. apply report_parsed. Qed.

(** A Go profile is refused for exactly three reasons: a line that is neither blank, nor
    a [mode:] line, nor a block of at most a million lines whose numbers fit; no block at
    all; or blocks that ran and together span more than four million lines. *)
Theorem go_profile_accepted raw modules :
  is_ok (parse_go raw modules) = true ↔
  Forall readable (lines raw) ∧ blocks raw ≠ [] ∧ total (blocks raw) ≤ MAX_COVERED_LINES.
Proof.
  split.
  - destruct (parse_go raw modules) as [cov|] eqn:E; [|done]. intros _. by apply parse_go_ok in E as (? & ? & ? & _).
  - intros (H1 & H2 & H3). by rewrite (proj2 (parse_go_ok raw modules _)) by done.
Qed.

(** ** The gate *)

Section Gate.
Context `{UnicodeTables}.

(** The gate has a question about the file. *)
Definition asked (f : Diff.FileDiff) : Prop :=
  Diff.status f ≠ Diff.Deleted ∧ Diff.added_line_numbers f ≠ []
  ∧ is_executable_source (Diff.path f) = true.

Definition entry_of (cov : list FileCoverage) (p : str) : option FileCoverage :=
  find (λ c, bool_decide (path c = p)) cov.

(** The added lines a measured file does not show as run. *)
Definition missed (f : Diff.FileDiff) (entry : FileCoverage) : list Z :=
  List.filter (λ n, negb (bool_decide (n ∈ covered_lines entry))) (Diff.added_line_numbers f).

Lemma is_deleted_spec f : is_deleted f = true ↔ Diff.status f = Diff.Deleted.
Proof. unfold is_deleted. by destruct (Diff.status f). Qed.

(** What one file adds to the report. *)
Lemma place_file_gaps cov f r g :
  g ∈ gaps (place_file cov f r) ↔ g ∈ gaps r ∨ ∃ entry, asked f ∧ entry_of cov (Diff.path f) = Some entry
    ∧ missed f entry ≠ []
    ∧ g = {| gap_path := Diff.path f; uncovered_lines := missed f entry;
             gap_added_lines := length (Diff.added_line_numbers f) |}.
Proof.
  unfold place_file, asked, entry_of. setoid_rewrite <- is_deleted_spec. destruct (is_deleted f); [naive_solver|].
  case_bool_decide as Ha; [naive_solver|]. destruct (is_executable_source _); cbn [negb]; [|naive_solver].
  destruct (find _ cov) as [entry|]; [|naive_solver]. rewrite uncovered_spec. fold (missed f entry).
  case_bool_decide as Hm; cbn [gaps]; [naive_solver|]. rewrite elem_of_app, list_elem_of_singleton. naive_solver.
Qed.

Lemma place_file_unmeasured cov f r p :
  p ∈ unmeasured (place_file cov f r) ↔
  p ∈ unmeasured r ∨ (asked f ∧ entry_of cov (Diff.path f) = None ∧ p = Diff.path f).
Proof.
  unfold place_file, asked, entry_of. setoid_rewrite <- is_deleted_spec. destruct (is_deleted f); [naive_solver|].
  case_bool_decide as Ha; [naive_solver|]. destruct (is_executable_source _); cbn [negb]; [|naive_solver].
  destruct (find _ cov) as [entry|].
  - case_bool_decide; naive_solver.
  - cbn [unmeasured]. rewrite elem_of_app, list_elem_of_singleton. naive_solver.
Qed.

Lemma place_file_skipped cov f r p :
  p ∈ skipped_by_type (place_file cov f r) ↔
  p ∈ skipped_by_type r
  ∨ (Diff.status f ≠ Diff.Deleted ∧ Diff.added_line_numbers f ≠ []
     ∧ is_executable_source (Diff.path f) = false ∧ p = Diff.path f).
Proof.
  unfold place_file. rewrite <- is_deleted_spec. destruct (is_deleted f); [naive_solver|].
  case_bool_decide as Ha; [naive_solver|]. destruct (is_executable_source _); cbn [negb].
  - destruct (find _ cov) as [entry|]; [case_bool_decide|]; naive_solver.
  - cbn [skipped_by_type]. rewrite elem_of_app, list_elem_of_singleton. naive_solver.
Qed.

(** A list of the report gathers what each file adds to it. *)
Lemma place_files_gather {A} (part : CoverageReport → list A) (adds : Diff.FileDiff → A → Prop) cov files r x :
  (∀ f r x, x ∈ part (place_file cov f r) ↔ x ∈ part r ∨ adds f x) →
  x ∈ part (fold_left (λ r f, place_file cov f r) files r) ↔ x ∈ part r ∨ ∃ f, f ∈ files ∧ adds f x.
Proof.
  intros Hadd. revert r. induction files as [|f files IH]; intros r; cbn [fold_left].
  - split; [by left|]. intros [?|(f & []%not_elem_of_nil & _)]; done.
  - rewrite IH, Hadd. setoid_rewrite elem_of_cons. naive_solver.
Qed.

Lemma report_gaps cov files g :
  g ∈ gaps (intersect_coverage files cov) ↔ ∃ f, f ∈ files ∧ ∃ entry, asked f
    ∧ entry_of cov (Diff.path f) = Some entry ∧ missed f entry ≠ []
    ∧ g = {| gap_path := Diff.path f; uncovered_lines := missed f entry;
             gap_added_lines := length (Diff.added_line_numbers f) |}.
Proof.
  cbn [intersect_coverage gaps]. rewrite elem_of_sort_by. unfold place_files.
  rewrite (place_files_gather gaps _ _ _ _ _ (λ f r g, place_file_gaps cov f r g)). cbn [gaps].
  split; [intros [[]%not_elem_of_nil|?]; done|by right].
Qed.

Lemma report_unmeasured cov files p :
  p ∈ unmeasured (intersect_coverage files cov) ↔
  ∃ f, f ∈ files ∧ asked f ∧ entry_of cov (Diff.path f) = None ∧ p = Diff.path f.
Proof.
  cbn [intersect_coverage unmeasured]. unfold sort_strs. rewrite elem_of_sort_by. unfold place_files.
  rewrite (place_files_gather unmeasured _ _ _ _ _ (λ f r g, place_file_unmeasured cov f r g)). cbn [unmeasured].
  split; [intros [[]%not_elem_of_nil|?]; done|by right].
Qed.

Lemma report_skipped cov files p :
  p ∈ skipped_by_type (intersect_coverage files cov) ↔
  ∃ f, f ∈ files ∧ Diff.status f ≠ Diff.Deleted ∧ Diff.added_line_numbers f ≠ []
    ∧ is_executable_source (Diff.path f) = false ∧ p = Diff.path f.
Proof.
  cbn [intersect_coverage skipped_by_type]. unfold sort_strs. rewrite elem_of_sort_by. unfold place_files.
  rewrite (place_files_gather skipped_by_type _ _ _ _ _ (λ f r g, place_file_skipped cov f r g)).
  cbn [skipped_by_type]. split; [intros [[]%not_elem_of_nil|?]; done|by right].
Qed.

(** The report leaves no changed file out and says of each what it is: skipped by type,
    unmeasured for want of an entry, or short of exactly the added lines its entry does not
    list; a file in none of the three had every added line run, or added none. *)
Theorem gate_report_is_exact files cov f :
  f ∈ files → Diff.status f ≠ Diff.Deleted → Diff.added_line_numbers f ≠ [] →
  if is_executable_source (Diff.path f) then
    match entry_of cov (Diff.path f) with
    | None => Diff.path f ∈ unmeasured (intersect_coverage files cov)
    | Some entry =>
        missed f entry = []
        ∨ {| gap_path := Diff.path f; uncovered_lines := missed f entry;
             gap_added_lines := length (Diff.added_line_numbers f) |} ∈ gaps (intersect_coverage files cov)
    end
  else Diff.path f ∈ skipped_by_type (intersect_coverage files cov).
Proof.
  intros Hf Hd Ha. destruct (is_executable_source _) eqn:Ee.
  - destruct (entry_of cov _) as [entry|] eqn:E.
    + destruct (decide (missed f entry = [])) as [|Hm]; [by left|right]. apply report_gaps.
      exists f. split; [done|]. by exists entry.
    + apply report_unmeasured. by exists f.
  - apply report_skipped. by exists f.
Qed.

Lemma entry_ran cov p n :
  NoDup (map path cov) →
  (∃ entry, entry_of cov p = Some entry ∧ n ∈ covered_lines entry) ↔ ran cov p n.
Proof.
  intros Hnd. unfold entry_of, ran. split.
  - intros (entry & [Hin Hp%bool_decide_eq_true]%find_some & Hn). exists entry.
    by rewrite list_elem_of_In.
  - intros (f & Hf & <- & Hn). exists f. split; [|done].
    induction cov as [|c cov IH]; [by apply not_elem_of_nil in Hf|]. cbn [map] in Hnd.
    apply NoDup_cons in Hnd as [Hc Hnd]. cbn [find]. apply elem_of_cons in Hf as [<-|Hf].
    + by rewrite bool_decide_eq_true_2.
    + rewrite bool_decide_eq_false_2; [by apply IH|]. intros E. apply Hc. apply elem_of_map. by exists f.
Qed.

Lemma missed_nil f entry :
  missed f entry = [] ↔ ∀ n, n ∈ Diff.added_line_numbers f → n ∈ covered_lines entry.
Proof.
  unfold missed. split.
  - intros E n Hn. destruct (decide (n ∈ covered_lines entry)) as [|Hne]; [done|]. exfalso.
    assert (n ∈ List.filter (λ n, negb (bool_decide (n ∈ covered_lines entry))) (Diff.added_line_numbers f)) as Hin.
    { apply elem_of_filter_bool. split; [done|]. by rewrite bool_decide_eq_false_2. }
    rewrite E in Hin. by apply not_elem_of_nil in Hin.
  - intros Hall. apply filter_false. intros n Hn. by rewrite bool_decide_eq_true_2 by (by apply Hall).
Qed.

Lemma is_clean_spec r : is_clean r = true ↔ (∀ g, ¬ g ∈ gaps r) ∧ (∀ p, ¬ p ∈ unmeasured r).
Proof.
  unfold is_clean. rewrite andb_true_iff, !bool_decide_eq_true. split.
  - intros [-> ->]. by split; intros ? ?%not_elem_of_nil.
  - intros [Hg Hu]. split.
    + destruct (gaps r) as [|g gs]; [done|]. by destruct (Hg g (list_elem_of_here _ _)).
    + destruct (unmeasured r) as [|p ps]; [done|]. by destruct (Hu p (list_elem_of_here _ _)).
Qed.

(** C39. The coverage gate passes a diff exactly when every line it adds to an executable
    source that is not a test was executed, by a record of the report read: a pass cannot
    come from a file never measured, nor from a report that says nothing. *)
Theorem clean_gate_means_executed raw modules bases cov files :
  parse_with_root raw modules bases = Ok cov →
  is_clean (intersect_coverage files cov) = true ↔
  ∀ f n, f ∈ files → Diff.status f ≠ Diff.Deleted → is_executable_source (Diff.path f) = true →
    n ∈ Diff.added_line_numbers f → executed raw modules bases (Diff.path f) n.
Proof.
  intros Hp. pose proof (report_parsed raw modules bases cov Hp) as ([Hnd _ _] & _ & _ & Hran).
  rewrite is_clean_spec. split.
  - intros [Hg Hu] f n Hf Hd He Hn. apply Hran, entry_ran; [done|].
    assert (asked f) as Hask by (split_and!; [done| |done]; by intros E; rewrite E in Hn; apply not_elem_of_nil in Hn).
    destruct (entry_of cov (Diff.path f)) as [entry|] eqn:Ee.
    + exists entry. split; [done|]. revert n Hn. apply missed_nil.
      destruct (decide (missed f entry = [])) as [|Hm]; [done|]. exfalso. eapply Hg, report_gaps.
      exists f. split; [done|]. by exists entry.
    + exfalso. eapply Hu, report_unmeasured. by exists f.
  - intros Hall. split.
    + intros g (f & Hf & entry & (Hd & Ha & He) & Hent & Hm & _)%report_gaps. apply Hm, missed_nil.
      intros n Hn. pose proof (Hall f n Hf Hd He Hn) as Hx. apply Hran, entry_ran in Hx as (e & He' & Hn'); [|done].
      by simplify_eq.
    + intros p (f & Hf & (Hd & Ha & He) & Hent & _)%report_unmeasured.
      destruct (Diff.added_line_numbers f) as [|n ns] eqn:E; [done|].
      assert (n ∈ Diff.added_line_numbers f) as Hn by (rewrite E; by left).
      pose proof (Hall f n Hf Hd He Hn) as Hx.
      apply Hran, entry_ran in Hx as (e & He' & _); [|done]. congruence.
Qed.

End Gate.

(** ** A profile of one block *)

Definition profile : str := lit "mode: set" ++ [nl] ++ lit "m/pkg/a.go:2.1,3.9 1 4".

Definition profile_coverage : list FileCoverage := [{| path := lit "pkg/a.go"; covered_lines := [2; 3] |}].

Definition touched : Diff.FileDiff :=
  {| Diff.path := lit "pkg/a.go"; Diff.old_path := None; Diff.status := Diff.Modified;
     Diff.added_lines := [(2, lit "x"); (4, lit "y")]; Diff.removed_lines := [] |}.

Lemma profile_parses : parse_with_root profile [] [] = Ok profile_coverage.
Proof. vm_compute. reflexivity. Qed.

Lemma report_says_what_ran_witness :
  in_order profile_coverage ∧ profile_coverage ≠ [] ∧ measured_lines profile_coverage ≤ MAX_COVERED_LINES
  ∧ ∀ p n, ran profile_coverage p n ↔ executed profile [] [] p n.
Proof. apply (report_says_what_ran profile [] [] profile_coverage), profile_parses. Defined.

#[local] Existing Instance ascii_tables.

Lemma gate_report_is_exact_witness :
  missed touched {| path := lit "pkg/a.go"; covered_lines := [2; 3] |} = []
  ∨ {| gap_path := lit "pkg/a.go"; uncovered_lines := [4]; gap_added_lines := 2 |}
    ∈ gaps (intersect_coverage [touched] profile_coverage).
Proof.
  pose proof (gate_report_is_exact [touched] profile_coverage touched (list_elem_of_here _ _)
    ltac:(discriminate) ltac:(discriminate)) as Hx.
  assert (is_executable_source (Diff.path touched) = true) as E by (vm_compute; reflexivity).
  rewrite E in Hx. exact Hx.
Defined.

Lemma clean_gate_means_executed_witness :
  is_clean (intersect_coverage [touched] profile_coverage) = true ↔
  ∀ f n, f ∈ [touched] → Diff.status f ≠ Diff.Deleted → is_executable_source (Diff.path f) = true →
    n ∈ Diff.added_line_numbers f → executed profile [] [] (Diff.path f) n.
Proof.
  apply (clean_gate_means_executed profile [] [] profile_coverage [touched]), profile_parses.
Defined.

End CoverageProps.
