(* ===== verification/Time.v ===== *)
(** * Timestamps: the ISO-8601 reader and writer of [rust/dc-store/src/lib.rs]

    [Time] has the operations; [TimeFacts] shows that the calendar is a bijection and that
    the text of a stamp reads back. *)

From S2P Require Import Prelude RustStr RustStrFacts.

#[local] Open Scope Z_scope.

Module Time.

(** The longest TTL the store mints, in seconds. *)
Definition MAX_TTL_SECONDS : Z := 30 * 24 * 60 * 60.

(** [validate_ttl]: [true] when it returns [Ok]. *)
Definition validate_ttl (ttl_seconds : Z) : bool :=
  negb ((ttl_seconds <=? 0) || (ttl_seconds >? MAX_TTL_SECONDS)).

(** ** The civil calendar

    Rust's [/] and [%] on [i64] truncate; [Z.quot] and [Z.rem] do too. *)

Definition epoch_from_civil (y m d : Z) : Z :=
  let y := if m <=? 2 then y - 1 else y in
  let era := Z.quot (if y >=? 0 then y else y - 399) 400 in
  let yoe := y - era * 400 in
  let mp := Z.rem (m + 9) 12 in
  let doy := Z.quot (153 * mp + 2) 5 + d - 1 in
  let doe := yoe * 365 + Z.quot yoe 4 - Z.quot yoe 100 + doy in
  era * 146097 + doe - 719468.

Record Civil := { c_year : Z; c_month : Z; c_day : Z; c_hour : Z; c_min : Z; c_sec : Z }.

Definition civil_from_epoch (epoch : Z) : Civil :=
  let days := epoch / 86400 in
  let secs := epoch mod 86400 in
  let z := days + 719468 in
  let era := Z.quot (if z >=? 0 then z else z - 146096) 146097 in
  let doe := z - era * 146097 in
  let yoe := Z.quot (doe - Z.quot doe 1460 + Z.quot doe 36524 - Z.quot doe 146096) 365 in
  let y := yoe + era * 400 in
  let doy := doe - (365 * yoe + Z.quot yoe 4 - Z.quot yoe 100) in
  let mp := Z.quot (5 * doy + 2) 153 in
  let d := doy - Z.quot (153 * mp + 2) 5 + 1 in
  let m := if mp <? 10 then mp + 3 else mp - 9 in
  let y := if m <=? 2 then y + 1 else y in
  {| c_year := y; c_month := m; c_day := d; c_hour := Z.quot secs 3600;
     c_min := Z.quot (Z.rem secs 3600) 60; c_sec := Z.rem secs 60 |}.

(** ** Writing *)

(** [{n:0w}]: zero padded to [w], a sign counting toward the width. *)
Definition fmt_pad (w : nat) (n : Z) : str :=
  if n <? 0 then chr "-" :: pad0 (w - 1) (fmt_u (- n)) else pad0 w (fmt_u n).

Definition format_iso_utc (epoch : Z) : str :=
  let c := civil_from_epoch epoch in
  fmt_pad 4 (c_year c) ++ lit "-" ++ fmt_pad 2 (c_month c) ++ lit "-" ++ fmt_pad 2 (c_day c)
  ++ lit "T" ++ fmt_pad 2 (c_hour c) ++ lit ":" ++ fmt_pad 2 (c_min c) ++ lit ":"
  ++ fmt_pad 2 (c_sec c) ++ lit "+00:00".

(** ** Reading *)

(** [text.get(a..b)?.parse::<i64>().ok()]. *)
Definition num (text : str) (a b : Z) : option Z :=
  let! s := get_range a b text in parse_i64 s.

Definition byte_is (bytes : list Z) (i : nat) (c : Z) : bool :=
  bool_decide (bytes !! i = Some c).

Definition within (lo hi n : Z) : bool := (lo <=? n) && (n <=? hi).

(** The text from the first [+] or [-] on, split at it. *)
Fixpoint find_sign (s : str) : option (char * str) :=
  match s with
  | [] => None
  | c :: r => if (c =? chr "+") || (c =? chr "-") then Some (c, r) else find_sign r
  end.

(** The offset in seconds after the fraction, [0] when there is none. *)
Definition offset_of (rest : str) : option Z :=
  match find_sign rest with
  | None => Some 0
  | Some (c, off) =>
      let sign := if c =? chr "+" then 1 else -1 in
      let! oh := (let! s := get_range 0 2 off in parse_i64 s) in
      let om := default 0
                  (let! s := match get_range 3 5 off with
                             | Some s => Some s
                             | None => get_range 2 4 off
                             end in parse_i64 s) in
      Some (sign * (oh * 3600 + om * 60))
  end.

Definition is_fraction (c : char) : bool := (c =? chr ".") || is_ascii_digit c.

Definition parse_iso_utc (value : str) : option Z :=
  let text := trim value in
  let bytes := utf8_encode text in
  if (length bytes <? 19)%nat then None
  else
    let! year := num text 0 4 in
    let! month := num text 5 7 in
    let! day := num text 8 10 in
    let! hour := num text 11 13 in
    let! minute := num text 14 16 in
    let! second := num text 17 19 in
    if negb (byte_is bytes 4 (chr "-")) || negb (byte_is bytes 7 (chr "-"))
       || (negb (byte_is bytes 10 (chr "T")) && negb (byte_is bytes 10 (chr " ")))
    then None
    else if negb (within 1 12 month) || negb (within 1 31 day) || (hour >? 23)
            || (minute >? 59) || (second >? 59)
    then None
    else
      let epoch := epoch_from_civil year month day * 86400 + hour * 3600 + minute * 60
                   + second in
      let! rest := get_from 19 text in
      let! offset := offset_of (trim_start_by is_fraction rest) in
      Some (epoch - offset).

End Time.

Module TimeFacts.
Import Time.

(** Division by constants throughout. *)
Ltac Zify.zify_post_hook ::= Z.to_euclidean_division_equations.

(** ** The calendar *)

Definition leap (y : Z) : bool :=
  (y mod 4 =? 0) && (negb (y mod 100 =? 0) || (y mod 400 =? 0)).

Definition days_in_month (y m : Z) : Z :=
  if m =? 2 then (if leap y then 29 else 28)
  else if (m =? 4) || (m =? 6) || (m =? 9) || (m =? 11) then 30 else 31.

Lemma days_in_month_bounds y m : 28 ≤ days_in_month y m ≤ 31.
Proof. unfold days_in_month. repeat case_if; lia. Qed.

Definition civil_ok (c : Civil) : Prop :=
  1 ≤ c_month c ≤ 12 ∧ 1 ≤ c_day c ≤ days_in_month (c_year c) (c_month c)
  ∧ 0 ≤ c_hour c ≤ 23 ∧ 0 ≤ c_min c ≤ 59 ∧ 0 ≤ c_sec c ≤ 59.

Definition epoch_of (c : Civil) : Z :=
  epoch_from_civil (c_year c) (c_month c) (c_day c) * 86400
  + c_hour c * 3600 + c_min c * 60 + c_sec c.

(** The days before year [y] of an era, counted from the first of March. *)
Definition year_start (y : Z) : Z := 365 * y + y / 4 - y / 100.

Definition year_of_day (doe : Z) : Z :=
  (doe - doe / 1460 + doe / 36524 - doe / 146096) / 365.

Lemma year_of_day_bounds doe :
  0 ≤ doe ≤ 146096 →
  0 ≤ year_of_day doe ≤ 399
  ∧ year_start (year_of_day doe) ≤ doe ≤ year_start (year_of_day doe) + 365
  ∧ (year_of_day doe < 399 → doe < year_start (year_of_day doe + 1)).
Proof.
  intros H. unfold year_of_day, year_start.
  assert (doe / 146096 = 0 ∨ doe = 146096) as [Hc| ->] by lia; [|vm_compute; intuition congruence].
  assert (doe / 36524 = 0 ∨ doe / 36524 = 1 ∨ doe / 36524 = 2 ∨ doe / 36524 = 3
          ∨ doe / 36524 = 4) as Hb by lia.
  rewrite Hc. destruct Hb as [Hb|[Hb|[Hb|[Hb|Hb]]]]; rewrite Hb; (split; [lia|]); (split; lia).
Qed.

Lemma year_start_mono a b : 0 ≤ a → a < b → year_start (a + 1) ≤ year_start b.
Proof. unfold year_start. lia. Qed.

(** A day of an era lies in one year only. *)
Lemma year_of_day_unique doe y :
  0 ≤ doe ≤ 146096 → 0 ≤ y ≤ 399 →
  year_start y ≤ doe → (y < 399 → doe < year_start (y + 1)) → year_of_day doe = y.
Proof.
  intros Hd Hy H1 H2. destruct (year_of_day_bounds doe Hd) as (Hb & [Hs _] & Hn).
  destruct (Z.lt_trichotomy (year_of_day doe) y) as [Hlt|[?|Hlt]]; [|done|].
  - pose proof (year_start_mono _ _ (proj1 Hb) Hlt). lia.
  - pose proof (year_start_mono _ _ (proj1 Hy) Hlt). lia.
Qed.

(** [civil_from_epoch] and [epoch_from_civil] with floor division. *)
Lemma civil_from_epoch_eq epoch :
  let z := epoch / 86400 + 719468 in
  let secs := epoch mod 86400 in
  let doe := z mod 146097 in
  let yoe := year_of_day doe in
  let doy := doe - year_start yoe in
  let mp := (5 * doy + 2) / 153 in
  let m := if mp <? 10 then mp + 3 else mp - 9 in
  let y := yoe + z / 146097 * 400 in
  civil_from_epoch epoch
  = {| c_year := if m <=? 2 then y + 1 else y; c_month := m;
       c_day := doy - (153 * mp + 2) / 5 + 1;
       c_hour := secs / 3600; c_min := secs mod 3600 / 60; c_sec := secs mod 60 |}.
Proof.
  cbv zeta. unfold civil_from_epoch. set (z := epoch / 86400 + 719468).
  assert (Z.quot (if z >=? 0 then z else z - 146096) 146097 = z / 146097) as ->
    by (rewrite Z.geb_leb; destruct (Z.leb_spec 0 z); lia).
  replace (z - z / 146097 * 146097) with (z mod 146097) by lia.
  set (doe := z mod 146097). assert (0 ≤ doe ≤ 146096) as Hdoe by (unfold doe; lia).
  destruct (year_of_day_bounds doe Hdoe) as (Hy & Hs & _).
  assert (Z.quot (doe - Z.quot doe 1460 + Z.quot doe 36524 - Z.quot doe 146096) 365
          = year_of_day doe) as ->.
  { unfold year_of_day. rewrite !(Z.quot_div_nonneg doe) by lia.
    apply Z.quot_div_nonneg; lia. }
  assert (365 * year_of_day doe + Z.quot (year_of_day doe) 4 - Z.quot (year_of_day doe) 100
          = year_start (year_of_day doe)) as ->.
  { unfold year_start. by rewrite !Z.quot_div_nonneg by lia. }
  rewrite (Z.quot_div_nonneg (5 * _ + 2)) by lia.
  set (mp := (5 * (doe - year_start (year_of_day doe)) + 2) / 153).
  assert (0 ≤ mp) by (unfold mp; lia).
  rewrite !(Z.quot_div_nonneg (153 * _ + 2)) by lia.
  f_equal; lia.
Qed.

Lemma epoch_from_civil_eq y m d :
  1 ≤ m ≤ 12 →
  let y' := if m <=? 2 then y - 1 else y in
  let mp := (m + 9) mod 12 in
  epoch_from_civil y m d
  = y' / 400 * 146097 + year_start (y' mod 400) + (153 * mp + 2) / 5 + d - 1 - 719468.
Proof.
  intros Hm. cbv zeta. unfold epoch_from_civil. set (y' := if m <=? 2 then y - 1 else y).
  assert (Z.quot (if y' >=? 0 then y' else y' - 399) 400 = y' / 400) as ->
    by (rewrite Z.geb_leb; destruct (Z.leb_spec 0 y'); lia).
  replace (y' - y' / 400 * 400) with (y' mod 400) by lia.
  unfold year_start. rewrite Z.rem_mod_nonneg, !Z.quot_div_nonneg by lia. lia.
Qed.

(** The month of a day of the year, counted from March. *)
Lemma month_bounds doy :
  0 ≤ doy ≤ 365 →
  let mp := (5 * doy + 2) / 153 in
  0 ≤ mp ≤ 11 ∧ 1 ≤ doy - (153 * mp + 2) / 5 + 1 ≤ 31
  ∧ (mp = 11 → doy - (153 * mp + 2) / 5 + 1 ≤ 29)
  ∧ (mp = 1 ∨ mp = 3 ∨ mp = 6 ∨ mp = 8 → doy - (153 * mp + 2) / 5 + 1 ≤ 30).
Proof. cbv zeta. lia. Qed.

Lemma epoch_civil epoch : epoch_of (civil_from_epoch epoch) = epoch.
Proof.
  rewrite civil_from_epoch_eq. cbv zeta. set (z := epoch / 86400 + 719468).
  set (doe := z mod 146097). assert (0 ≤ doe ≤ 146096) as Hdoe by (unfold doe; lia).
  destruct (year_of_day_bounds doe Hdoe) as (Hy & Hs & _).
  set (yoe := year_of_day doe) in *. set (doy := doe - year_start yoe).
  destruct (month_bounds doy ltac:(lia)) as (Hmp & _). set (mp := (5 * doy + 2) / 153) in *.
  unfold epoch_of. cbn [c_year c_month c_day c_hour c_min c_sec].
  assert (epoch_from_civil
            (if (if mp <? 10 then mp + 3 else mp - 9) <=? 2
             then yoe + z / 146097 * 400 + 1 else yoe + z / 146097 * 400)
            (if mp <? 10 then mp + 3 else mp - 9) (doy - (153 * mp + 2) / 5 + 1)
          = z - 719468) as ->; [|lia].
  rewrite epoch_from_civil_eq by (destruct (Z.ltb_spec mp 10); lia). cbv zeta.
  assert (((if mp <? 10 then mp + 3 else mp - 9) + 9) mod 12 = mp) as ->
    by (destruct (Z.ltb_spec mp 10); lia).
  destruct (Z.leb_spec (if mp <? 10 then mp + 3 else mp - 9) 2).
  - replace (yoe + z / 146097 * 400 + 1 - 1) with (yoe + z / 146097 * 400) by lia.
    replace ((yoe + z / 146097 * 400) / 400) with (z / 146097) by lia.
    replace ((yoe + z / 146097 * 400) mod 400) with yoe by lia. lia.
  - replace ((yoe + z / 146097 * 400) / 400) with (z / 146097) by lia.
    replace ((yoe + z / 146097 * 400) mod 400) with yoe by lia. lia.
Qed.

(** The last day of a year counted from March is a leap day just in leap years. *)
Lemma leap_year_length y :
  0 ≤ y ≤ 399 →
  (y < 399 → year_start (y + 1) = year_start y + if leap (y + 1) then 366 else 365).
Proof.
  intros Hy Hlt. unfold year_start, leap.
  destruct (Z.eqb_spec ((y + 1) mod 4) 0), (Z.eqb_spec ((y + 1) mod 100) 0),
    (Z.eqb_spec ((y + 1) mod 400) 0); cbn [andb orb negb]; lia.
Qed.

Lemma leap_era y k : leap (y + k * 400) = leap y.
Proof.
  unfold leap. replace ((y + k * 400) mod 4) with (y mod 4) by lia.
  replace ((y + k * 400) mod 100) with (y mod 100) by lia.
  by replace ((y + k * 400) mod 400) with (y mod 400) by lia.
Qed.

Lemma civil_from_epoch_ok epoch : civil_ok (civil_from_epoch epoch).
Proof.
  rewrite civil_from_epoch_eq. cbv zeta. set (z := epoch / 86400 + 719468).
  set (doe := z mod 146097). assert (0 ≤ doe ≤ 146096) as Hdoe by (unfold doe; lia).
  destruct (year_of_day_bounds doe Hdoe) as (Hy & Hs & Hn).
  set (yoe := year_of_day doe) in *. set (doy := doe - year_start yoe).
  pose proof (month_bounds doy ltac:(lia)) as (Hmp & Hd & H11 & H30).
  pose proof (leap_year_length yoe Hy) as Hlen.
  set (mp := (5 * doy + 2) / 153) in *.
  unfold civil_ok, days_in_month. cbn [c_year c_month c_day c_hour c_min c_sec].
  split; [destruct (Z.ltb_spec mp 10); lia|]. split; [|lia].
  assert (mp = 11 ∨ mp ≠ 11) as [E|E] by lia.
  - rewrite E in *. change (11 <? 10) with false. cbn match. change (11 - 9) with 2.
    change (2 <=? 2) with true. change (2 =? 2) with true. cbn match.
    replace (yoe + z / 146097 * 400 + 1) with (yoe + 1 + z / 146097 * 400) by lia.
    rewrite leap_era. destruct (leap (yoe + 1)) eqn:L; [lia|].
    assert (yoe ≠ 399) by (intros ->; by vm_compute in L). lia.
  - assert (((if mp <? 10 then mp + 3 else mp - 9) =? 2) = false) as ->.
    { apply Z.eqb_neq. destruct (Z.ltb_spec mp 10); lia. }
    split; [lia|]. destruct (_ || _) eqn:O; [|lia].
    apply orb_true_iff in O as [[[O|O]%orb_true_iff|O]%orb_true_iff|O]; apply Z.eqb_eq in O;
      destruct (Z.ltb_spec mp 10); lia.
Qed.

(** The day of the year, counted from March, that a valid month and day name. *)
Lemma day_of_year m d y :
  1 ≤ m ≤ 12 → 1 ≤ d ≤ days_in_month y m →
  let mp := (m + 9) mod 12 in
  let doy := (153 * mp + 2) / 5 + d - 1 in
  0 ≤ doy ≤ (if m <=? 2 then if leap y then 365 else 364 else 305)
  ∧ (5 * doy + 2) / 153 = mp ∧ (if mp <? 10 then mp + 3 else mp - 9) = m.
Proof.
  intros Hm Hd. cbv zeta.
  assert (m = 1 ∨ m = 2 ∨ m = 3 ∨ m = 4 ∨ m = 5 ∨ m = 6 ∨ m = 7 ∨ m = 8 ∨ m = 9 ∨ m = 10
          ∨ m = 11 ∨ m = 12) as Hc by lia.
  unfold days_in_month in Hd.
  repeat destruct Hc as [-> |Hc]; [..|subst m]; simpl in Hd |- *; destruct (leap y);
    vm_compute ((_ + 9) mod 12); vm_compute (_ <? 10); vm_compute (_ <=? 2); cbn match;
    split; lia.
Qed.

Lemma civil_epoch c : civil_ok c → civil_from_epoch (epoch_of c) = c.
Proof.
  intros (Hm & Hd & Hh & Hmi & Hs). destruct c as [y m d h mi s].
  cbn [c_year c_month c_day c_hour c_min c_sec] in *.
  destruct (day_of_year m d y Hm Hd) as (Hdoy & Hmp & Hmm). cbv zeta in *.
  unfold epoch_of. cbn [c_year c_month c_day c_hour c_min c_sec].
  rewrite epoch_from_civil_eq by done. cbv zeta.
  set (y' := if m <=? 2 then y - 1 else y). set (mp := (m + 9) mod 12) in *.
  set (doy := (153 * mp + 2) / 5 + d - 1) in *.
  set (yoe := y' mod 400). set (era := y' / 400).
  assert (0 ≤ yoe ≤ 399) as Hy by (unfold yoe; lia).
  assert (y' = yoe + era * 400) as Ey by (unfold yoe, era; lia).
  assert (0 ≤ doy ≤ 365 ∧ (yoe < 399 → year_start yoe + doy < year_start (yoe + 1)))
    as [Hle Hlt].
  { pose proof (leap_year_length yoe Hy) as Hlen. unfold y' in Ey.
    destruct (Z.leb_spec m 2); [|destruct (leap (yoe + 1)); lia].
    replace y with (yoe + 1 + era * 400) in Hdoy by lia.
    rewrite leap_era in Hdoy. destruct (leap (yoe + 1)); lia. }
  replace ((era * 146097 + year_start yoe + (153 * mp + 2) / 5 + d - 1 - 719468) * 86400
           + h * 3600 + mi * 60 + s)
    with ((era * 146097 + (year_start yoe + doy) - 719468) * 86400 + (h * 3600 + mi * 60 + s))
    by (unfold doy; lia).
  set (doe := year_start yoe + doy) in *. set (secs := h * 3600 + mi * 60 + s).
  assert (0 ≤ secs < 86400) as Hsecs by (unfold secs; lia).
  assert (0 ≤ doe ≤ 146096) as Hdoe by (unfold doe, year_start in *; lia).
  rewrite civil_from_epoch_eq. cbv zeta.
  replace (((era * 146097 + doe - 719468) * 86400 + secs) / 86400 + 719468)
    with (era * 146097 + doe) by lia.
  replace (((era * 146097 + doe - 719468) * 86400 + secs) mod 86400) with secs by lia.
  replace ((era * 146097 + doe) mod 146097) with doe by lia.
  replace ((era * 146097 + doe) / 146097) with era by lia.
  rewrite (year_of_day_unique doe yoe) by (done || (unfold doe; lia)).
  replace (doe - year_start yoe) with doy by (unfold doe; lia).
  rewrite Hmp, Hmm. rewrite <- Ey. unfold y', secs.
  f_equal; [destruct (Z.leb_spec m 2); lia|unfold doy; lia|lia..].
Qed.

(** The day count runs on across the end of a month. *)
Lemma month_rolls_over y m k :
  1 ≤ m < 12 →
  epoch_from_civil y m (days_in_month y m + k) = epoch_from_civil y (m + 1) k.
Proof.
  intros Hm. rewrite !epoch_from_civil_eq by lia. cbv zeta.
  assert (m = 2 ∨ m ≠ 2) as [-> |Hne] by lia.
  - change (2 <=? 2) with true. change (2 + 1 <=? 2) with false. cbn match.
    change (days_in_month y 2) with (if leap y then 29 else 28).
    pose proof (leap_year_length ((y - 1) mod 400) ltac:(lia)) as Hl.
    assert (leap y = leap ((y - 1) mod 400 + 1)) as Hleap.
    { transitivity (leap ((y - 1) mod 400 + 1 + (y - 1) / 400 * 400));
        [f_equal; lia|apply leap_era]. }
    rewrite Hleap. clear Hleap. assert (y mod 400 = 0 ∨ y mod 400 ≠ 0) as [E|E] by lia.
    + replace ((y - 1) mod 400) with 399 by lia. replace (y / 400) with ((y - 1) / 400 + 1) by lia.
      rewrite E. vm_compute (leap _). vm_compute (year_start _). cbn match. lia.
    + replace (y mod 400) with ((y - 1) mod 400 + 1) by lia.
      replace (y / 400) with ((y - 1) / 400) by lia. rewrite Hl by lia.
      destruct (leap _); lia.
  - assert ((m + 1 <=? 2) = (m <=? 2)) as ->
      by (destruct (Z.leb_spec (m + 1) 2), (Z.leb_spec m 2); lia).
    assert (m = 1 ∨ m = 3 ∨ m = 4 ∨ m = 5 ∨ m = 6 ∨ m = 7 ∨ m = 8 ∨ m = 9 ∨ m = 10 ∨ m = 11)
      as E by lia.
    destruct E as [-> |[-> |[-> |[-> |[-> |[-> |[-> |[-> |[-> | ->]]]]]]]]];
      unfold days_in_month; simpl; lia.
Qed.

(** ** The text *)

(** A timestamp as the store writes it, from its fields. *)
Definition stamp (c : Civil) : str :=
  fmt_pad 4 (c_year c) ++ lit "-" ++ fmt_pad 2 (c_month c) ++ lit "-" ++ fmt_pad 2 (c_day c)
  ++ lit "T" ++ fmt_pad 2 (c_hour c) ++ lit ":" ++ fmt_pad 2 (c_min c) ++ lit ":"
  ++ fmt_pad 2 (c_sec c) ++ lit "+00:00".

(** What the reader accepts in each field; the day may run past its month. *)
Definition fields_ok (c : Civil) : Prop :=
  0 ≤ c_year c ≤ 9999 ∧ 1 ≤ c_month c ≤ 12 ∧ 1 ≤ c_day c ≤ 31
  ∧ 0 ≤ c_hour c ≤ 23 ∧ 0 ≤ c_min c ≤ 59 ∧ 0 ≤ c_sec c ≤ 59.

(** A field of [w] digits. *)
Definition field_ok (w : nat) (n : Z) : Prop := 0 ≤ n < 10 ^ Z.of_nat w ∧ n ≤ i64_max.

Lemma fmt_pad_spec w n :
  (1 ≤ w)%nat → field_ok w n →
  length (fmt_pad w n) = w ∧ all_chars is_ascii_digit (fmt_pad w n) = true
  ∧ parse_i64 (fmt_pad w n) = Some n.
Proof.
  intros Hw [Hn Hm]. unfold fmt_pad. rewrite (proj2 (Z.ltb_ge n 0)) by lia.
  split_and!; [by apply pad0_length|by apply pad0_digits; lia|by apply parse_i64_pad0; lia].
Qed.

Lemma num_at a b c i j n :
  all_chars (λ d, d <? 128) a = true → all_chars (λ d, d <? 128) b = true →
  i = Z.of_nat (length a) → j = i + Z.of_nat (length b) → parse_i64 b = Some n →
  num (a ++ b ++ c) i j = Some n.
Proof.
  intros Ha Hb Hi Hj Hp. unfold num.
  rewrite (get_range_app i j a b c); [done| |]; by rewrite str_len_ascii.
Qed.

Lemma byte_is_at a c s i : i = length a → byte_is (a ++ c :: s) i c = true.
Proof. intros ->. unfold byte_is. apply bool_decide_eq_true_2. by apply list_lookup_middle. Qed.

Lemma offset_zero : offset_of (trim_start_by is_fraction (lit "+00:00")) = Some 0.
Proof. reflexivity. Qed.

(** [s] is [n] written in [w] digits. *)
Definition is_field (w : nat) (n : Z) (s : str) : Prop :=
  length s = w ∧ all_chars is_ascii_digit s = true ∧ parse_i64 s = Some n.

Record is_fields (y mo d h mi s : Z) (Y MO D HH MI SS : str) : Prop := {
  f_y : is_field 4 y Y; f_mo : is_field 2 mo MO; f_d : is_field 2 d D;
  f_h : is_field 2 h HH; f_mi : is_field 2 mi MI; f_s : is_field 2 s SS;
}.

(** The fields of a timestamp, whatever follows its seconds. *)
Section Fields.
Context {y mo d h mi s : Z} {Y MO D HH MI SS : str} (tail : str).
Context (F : is_fields y mo d h mi s Y MO D HH MI SS).

(** Opens the fields, with their digits known to be ASCII. *)
Ltac open_fields :=
  destruct F as [(? & ?%digits_ascii & ?) (? & ?%digits_ascii & ?) (? & ?%digits_ascii & ?)
    (? & ?%digits_ascii & ?) (? & ?%digits_ascii & ?) (? & ?%digits_ascii & ?)].

(** Rewrites with every known all-characters fact. *)
Ltac ascii_parts :=
  rewrite ?all_chars_app; cbn [forallb];
  repeat match goal with H : all_chars _ ?x = true |- context [all_chars _ ?x] =>
    rewrite H end.

Definition field_text : str :=
  Y ++ [45] ++ MO ++ [45] ++ D ++ [84] ++ HH ++ [58] ++ MI ++ [58] ++ SS ++ tail.

Definition prefix_date : str := Y ++ [45] ++ MO ++ [45] ++ D.

(** Regroups the text and closes the length and ASCII side conditions. *)
Ltac field_at A B C :=
  replace field_text with (A ++ B ++ C)
    by (unfold field_text; rewrite <- ?app_assoc; reflexivity);
  open_fields; apply num_at; rewrite ?length_app; cbn [length]; ascii_parts; done || lia.

Lemma field_nums :
  num field_text 0 4 = Some y ∧ num field_text 5 7 = Some mo ∧ num field_text 8 10 = Some d
  ∧ num field_text 11 13 = Some h ∧ num field_text 14 16 = Some mi
  ∧ num field_text 17 19 = Some s.
Proof.
  split_and!.
  - field_at ([] : str) Y ([45] ++ MO ++ [45] ++ D ++ [84] ++ HH ++ [58] ++ MI ++ [58] ++ SS ++ tail).
  - field_at (Y ++ [45]) MO ([45] ++ D ++ [84] ++ HH ++ [58] ++ MI ++ [58] ++ SS ++ tail).
  - field_at (Y ++ [45] ++ MO ++ [45]) D ([84] ++ HH ++ [58] ++ MI ++ [58] ++ SS ++ tail).
  - field_at (Y ++ [45] ++ MO ++ [45] ++ D ++ [84]) HH ([58] ++ MI ++ [58] ++ SS ++ tail).
  - field_at (Y ++ [45] ++ MO ++ [45] ++ D ++ [84] ++ HH ++ [58]) MI ([58] ++ SS ++ tail).
  - field_at (Y ++ [45] ++ MO ++ [45] ++ D ++ [84] ++ HH ++ [58] ++ MI ++ [58]) SS tail.
Qed.

Lemma field_marks :
  byte_is field_text 4 45 = true ∧ byte_is field_text 7 45 = true
  ∧ byte_is field_text 10 84 = true.
Proof.
  destruct F as [(LY & _) (LMO & _) (LD & _) _ _ _].
  assert (∀ A c C, field_text = A ++ c :: C → byte_is field_text (length A) c = true) as Hat.
  { intros A c C ->. by apply byte_is_at. }
  split_and!.
  - rewrite <- LY. eapply Hat. reflexivity.
  - replace 7%nat with (length (Y ++ [45] ++ MO)) by (rewrite !length_app; cbn; lia).
    eapply Hat. unfold field_text. rewrite <- !app_assoc. reflexivity.
  - replace 10%nat with (length (Y ++ [45] ++ MO ++ [45] ++ D))
      by (rewrite !length_app; cbn; lia).
    eapply Hat. unfold field_text. rewrite <- !app_assoc. reflexivity.
Qed.

Lemma field_tail : get_from 19 field_text = Some tail.
Proof.
  replace field_text
    with ((Y ++ [45] ++ MO ++ [45] ++ D ++ [84] ++ HH ++ [58] ++ MI ++ [58] ++ SS) ++ tail)
    by (unfold field_text; rewrite <- !app_assoc; reflexivity).
  apply get_from_app. open_fields. rewrite str_len_ascii.
  - rewrite !length_app. cbn [length]. lia.
  - ascii_parts. done.
Qed.

Lemma field_text_ascii :
  all_chars (λ c, c <? 128) tail = true → all_chars (λ c, c <? 128) field_text = true.
Proof.
  intros Ht. open_fields. unfold field_text. ascii_parts. done.
Qed.

Lemma field_text_length : (19 ≤ length field_text)%nat.
Proof.
  open_fields. unfold field_text. rewrite !length_app. cbn [length]. lia.
Qed.

(** A timestamp opens with a digit, so only its tail can be trimmed. *)
Lemma field_trim t e :
  tail = t ++ [e] → is_whitespace e = false → trim field_text = field_text.
Proof.
  intros Ht He. destruct F as [(LY & DY & _) _ _ _ _ _].
  replace field_text
    with ([] ++ (Y ++ [45] ++ MO ++ [45] ++ D ++ [84] ++ HH ++ [58] ++ MI ++ [58] ++ SS ++ t)
          ++ [e]).
  - apply trim_outer; [done|done|]. destruct Y as [|c Y']; [done|]. cbn [app].
    cbn [forallb] in DY. apply andb_true_iff in DY as [Hc%is_ascii_digit_spec _].
    unfold is_whitespace. rewrite !negb_orb.
    repeat (apply andb_true_iff; split); apply negb_true_iff;
      first [apply in_range_false; lia | apply Z.eqb_neq; lia].
  - unfold field_text. rewrite Ht. by rewrite <- ?(assoc_L app).
Qed.

End Fields.

Lemma fmt_fields c :
  fields_ok c →
  is_fields (c_year c) (c_month c) (c_day c) (c_hour c) (c_min c) (c_sec c)
    (fmt_pad 4 (c_year c)) (fmt_pad 2 (c_month c)) (fmt_pad 2 (c_day c))
    (fmt_pad 2 (c_hour c)) (fmt_pad 2 (c_min c)) (fmt_pad 2 (c_sec c)).
Proof.
  intros (Hy & Hmo & Hd & Hh & Hmi & Hs).
  split; apply fmt_pad_spec; try lia; (split; [|unfold i64_max; lia]).
  - change (10 ^ Z.of_nat 4) with 10000. lia.
  - change (10 ^ Z.of_nat 2) with 100. lia.
  - change (10 ^ Z.of_nat 2) with 100. lia.
  - change (10 ^ Z.of_nat 2) with 100. lia.
  - change (10 ^ Z.of_nat 2) with 100. lia.
  - change (10 ^ Z.of_nat 2) with 100. lia.
Qed.

Lemma parse_stamp c : fields_ok c → parse_iso_utc (stamp c) = Some (epoch_of c).
Proof.
  intros Hok. pose proof (fmt_fields c Hok) as F. set (tail := lit "+00:00").
  change (stamp c) with
    (field_text (Y := fmt_pad 4 (c_year c)) (MO := fmt_pad 2 (c_month c))
       (D := fmt_pad 2 (c_day c)) (HH := fmt_pad 2 (c_hour c)) (MI := fmt_pad 2 (c_min c))
       (SS := fmt_pad 2 (c_sec c)) tail).
  unfold parse_iso_utc. rewrite (field_trim tail F (lit "+00:0") 48) by done.
  rewrite utf8_encode_ascii by (by apply (field_text_ascii tail F)).
  rewrite (proj2 (Nat.ltb_ge _ _) (field_text_length tail F)).
  destruct (field_nums tail F) as (-> & -> & -> & -> & -> & ->).
  destruct (field_marks tail F) as (Hm1 & Hm2 & Hm3).
  unlit. rewrite Hm1, Hm2, Hm3. cbn [negb orb andb]. unfold within.
  destruct Hok as (Hy & Hmo & Hd & Hh & Hmi & Hs).
  rewrite !(proj2 (Z.leb_le _ _)) by lia. rewrite !Z.gtb_ltb, !(proj2 (Z.ltb_ge _ _)) by lia.
  cbn [negb orb andb]. rewrite (field_tail tail F). unfold tail. rewrite offset_zero.
  unfold epoch_of. f_equal. lia.
Qed.

(** The writer's text is the stamp of the instant's civil fields. *)
Lemma format_stamp epoch : format_iso_utc epoch = stamp (civil_from_epoch epoch).
Proof. reflexivity. Qed.

Lemma civil_ok_fields c : civil_ok c → 0 ≤ c_year c ≤ 9999 → fields_ok c.
Proof.
  intros (Hm & Hd & Hr) Hy. pose proof (days_in_month_bounds (c_year c) (c_month c)).
  unfold fields_ok. lia.
Qed.

(** ** Properties *)

(** The calendar arithmetic is a bijection between seconds and valid civil
    times. Every instant, before the epoch included, has fields that are a real
    date and time and that lead back to it; every real date and time is the fields of
    the instant it names. *)
Theorem civil_bijection :
  (∀ epoch, civil_ok (civil_from_epoch epoch) ∧ epoch_of (civil_from_epoch epoch) = epoch)
  ∧ (∀ c, civil_ok c → civil_from_epoch (epoch_of c) = c).
Proof.
  split; [intros epoch; split; [apply civil_from_epoch_ok|apply epoch_civil]|apply civil_epoch].
Qed.

(** The instants whose year has four digits. *)
Definition in_years (epoch : Z) : Prop := 0 ≤ c_year (civil_from_epoch epoch) ≤ 9999.

Lemma iso_reads_back epoch : in_years epoch → parse_iso_utc (format_iso_utc epoch) = Some epoch.
Proof.
  intros Hy. rewrite format_stamp, parse_stamp; [by rewrite epoch_civil|].
  by apply civil_ok_fields; [apply civil_from_epoch_ok|].
Qed.

(** a timestamp the store writes reads back as the instant it was written for, for
    every instant of the years 0 to 9999. *)
Theorem iso_round_trip epoch :
  0 ≤ c_year (civil_from_epoch epoch) ≤ 9999 →
  parse_iso_utc (format_iso_utc epoch) = Some epoch.
Proof. apply iso_reads_back. Qed.

Lemma iso_round_trip_witness :
  parse_iso_utc (format_iso_utc 1709251199) = Some 1709251199.
Proof. apply iso_round_trip. vm_compute. split; discriminate. Defined.

(** the reader takes a day past the end of its month for a day of the next one. A
    well-formed stamp whose day is [k] beyond the month's length, and at most 31, is
    read as day [k] of the following month instead of being refused. *)
Theorem day_past_month_end_rolls_over c k :
  fields_ok c → c_month c < 12 → 1 ≤ k → c_day c = days_in_month (c_year c) (c_month c) + k →
  parse_iso_utc (stamp c)
  = parse_iso_utc (stamp {| c_year := c_year c; c_month := c_month c + 1; c_day := k;
                            c_hour := c_hour c; c_min := c_min c; c_sec := c_sec c |}).
Proof.
  intros Hc Hm Hk Hd. pose proof (days_in_month_bounds (c_year c) (c_month c)).
  rewrite !parse_stamp by (unfold fields_ok in *; cbn [c_year c_month c_day c_hour c_min c_sec];
    lia || done).
  unfold epoch_of. cbn [c_year c_month c_day c_hour c_min c_sec]. rewrite Hd.
  rewrite month_rolls_over by (unfold fields_ok in Hc; lia). done.
Qed.

Lemma day_past_month_end_rolls_over_witness :
  let c := {| c_year := 2026; c_month := 2; c_day := 31; c_hour := 9; c_min := 0; c_sec := 0 |} in
  parse_iso_utc (stamp c)
  = parse_iso_utc (stamp {| c_year := 2026; c_month := 3; c_day := 3;
                            c_hour := 9; c_min := 0; c_sec := 0 |}).
Proof.
  apply (day_past_month_end_rolls_over
           {| c_year := 2026; c_month := 2; c_day := 31; c_hour := 9; c_min := 0; c_sec := 0 |} 3);
    [unfold fields_ok; cbn; lia|cbn; lia|lia|reflexivity].
Defined.

End TimeFacts.
