(* ===== verification/Json.v ===== *)
(** * The JSON scanner: [rust/dc-store/src/json.rs]

    [Scanner] walks a byte buffer with a cursor and answers only whether the text is
    well formed. The cursor is modelled as the bytes still ahead; its position is
    the total length less what is left. The three functions that call each other take
    fuel, which [JsonFacts] shows is always enough. *)

From S2P Require Import Prelude RustStr.

#[local] Open Scope Z_scope.

Module Json.

Abbreviation bytes := (list Z).

Definition MAX_DEPTH : nat := 32.

Definition is_json_ws (c : Z) : bool := (c =? 32) || (c =? 9) || (c =? 10) || (c =? 13).

Definition trim_ws (text : str) : str := trim_by is_json_ws text.

(** The refusals, one per message of the source. *)
Inductive JsonError : Type :=
  | IsEmpty
  | StartsWith (c open : Z)
  | NotAContainer (c : Z)
  | Trailing (pos more : nat)
  | TooDeep
  | Unexpected (c : Z) (pos : nat)
  | ValueUnterminated
  | BadEntry (pos : nat)
  | ArrayExpected (pos : nat) (c : Z)
  | ArrayUnterminated
  | ObjectExpected (pos : nat) (c : Z)
  | ObjectUnterminated
  | Expected (byte : Z) (pos : nat)
  | UnknownChange (value : str)
  | ChangeNotAString (pos : nat)
  | StringUnterminated
  | BadHex (pos : nat)
  | UnknownEscape (pos : nat)
  | ControlChar (c : Z) (pos : nat)
  | ExpectedWord (word : string) (pos : nat)
  | NoDigits (start : nat)
  | NoFraction (pos : nat)
  | NoExponent (pos : nat)
  | OutOfFuel.

(** ** Decoding the escapes of a well-formed string body *)

Definition hex_digit (c : Z) : option Z :=
  if is_ascii_digit c then Some (c - 48)
  else if in_range 97 102 c then Some (c - 87)
  else if in_range 65 70 c then Some (c - 55)
  else None.

Fixpoint hex_value (acc : Z) (s : str) : option Z :=
  match s with
  | [] => Some acc
  | c :: s' => let! d := hex_digit c in hex_value (acc * 16 + d) s'
  end.

(** [u32::from_str_radix(hex, 16)] on at most four characters. *)
Definition from_hex (s : str) : option Z :=
  match s with
  | [] => None
  | c :: r => if c =? 43 then match r with [] => None | _ => hex_value 0 r end
              else hex_value 0 s
  end.

(** [char::from_u32(unit).unwrap_or('\u{fffd}')]. *)
Definition char_of (unit : Z) : char := if is_scalar unit then unit else replacement.

Fixpoint unescape_fuel (fuel : nat) (raw : str) : str :=
  match fuel with
  | O => []
  | S f =>
      match raw with
      | [] => []
      | c :: r =>
          if negb (c =? 92) then c :: unescape_fuel f r
          else match r with
               | [] => []
               | e :: r' =>
                   if e =? chr "b" then 8 :: unescape_fuel f r'
                   else if e =? chr "f" then 12 :: unescape_fuel f r'
                   else if e =? chr "n" then 10 :: unescape_fuel f r'
                   else if e =? chr "r" then 13 :: unescape_fuel f r'
                   else if e =? chr "t" then 9 :: unescape_fuel f r'
                   else if e =? chr "u" then
                     char_of (default 65533 (from_hex (take 4 r')))
                       :: unescape_fuel f (drop 4 r')
                   else e :: unescape_fuel f r'
               end
      end
  end.

(** Every turn drops a character, so the length is enough. *)
Definition unescape (raw : str) : str := unescape_fuel (length raw) raw.

(** ** The scanner *)

Section Scanner.

(** The length of the buffer, and whether entries must be planned files. *)
Context (total : nat) (planned : bool).

Definition pos_of (rest : bytes) : nat := total - length rest.

Fixpoint skip_ws (rest : bytes) : bytes :=
  match rest with
  | c :: r => if is_json_ws c then skip_ws r else rest
  | [] => []
  end.

Definition expect (byte : Z) (rest : bytes) : result bytes JsonError :=
  match rest with
  | c :: r => if c =? byte then Ok r else Err (Expected byte (pos_of rest))
  | [] => Err (Expected byte (pos_of rest))
  end.

Fixpoint digits (rest : bytes) : bytes :=
  match rest with
  | c :: r => if is_ascii_digit c then digits r else rest
  | [] => []
  end.

(** [literal]: the word's bytes come next. *)
Definition literal (word : string) (rest : bytes) : result bytes JsonError :=
  match strip_prefix (lit word) rest with
  | Some r => Ok r
  | None => Err (ExpectedWord word (pos_of rest))
  end.

Definition starts_digit (rest : bytes) : bool :=
  match rest with c :: _ => is_ascii_digit c | [] => false end.

Definition starts_byte (byte : Z) (rest : bytes) : bool :=
  match rest with c :: _ => c =? byte | [] => false end.

(** [number] after its sign: the integer, then a fraction, then an exponent. *)
Definition number_int (start : nat) (rest : bytes) : result bytes JsonError :=
  match rest with
  | c :: r =>
      if c =? 48 then Ok r
      else if is_ascii_digit c then Ok (digits rest) else Err (NoDigits start)
  | [] => Err (NoDigits start)
  end.

Definition number_fraction (rest : bytes) : result bytes JsonError :=
  match rest with
  | c :: r =>
      if c =? 46 then if starts_digit r then Ok (digits r) else Err (NoFraction (pos_of r))
      else Ok rest
  | [] => Ok rest
  end.

Definition number_exponent (rest : bytes) : result bytes JsonError :=
  match rest with
  | c :: r =>
      if (c =? 101) || (c =? 69) then
        let r := match r with
                 | s :: r' => if (s =? 43) || (s =? 45) then r' else r
                 | [] => r
                 end in
        if starts_digit r then Ok (digits r) else Err (NoExponent (pos_of r))
      else Ok rest
  | [] => Ok rest
  end.

Definition number (rest : bytes) : result bytes JsonError :=
  let start := pos_of rest in
  let rest := match rest with c :: r => if c =? 45 then r else rest | [] => rest end in
  let? rest := number_int start rest in
  let? rest := number_fraction rest in
  number_exponent rest.

Definition simple_escapes : bytes := [34; 92; 47; 98; 102; 110; 114; 116].

(** The loop of [string], after the opening quote. *)
Fixpoint string_body (rest : bytes) : result bytes JsonError :=
  match rest with
  | [] => Err StringUnterminated
  | c :: r =>
      if c =? 34 then Ok r
      else if c =? 92 then
        match r with
        | e :: r1 =>
            if existsb (Z.eqb e) simple_escapes then string_body r1
            else if e =? 117 then
              match r1 with
              | h1 :: ((h2 :: ((h3 :: ((h4 :: r2) as t3)) as t2)) as t1) =>
                  if negb (is_ascii_hexdigit h1) then Err (BadHex (pos_of r1))
                  else if negb (is_ascii_hexdigit h2) then Err (BadHex (pos_of t1))
                  else if negb (is_ascii_hexdigit h3) then Err (BadHex (pos_of t2))
                  else if negb (is_ascii_hexdigit h4) then Err (BadHex (pos_of t3))
                  else string_body r2
              | _ => Err (BadHex (total - length (drop_while is_ascii_hexdigit r1)))
              end
            else Err (UnknownEscape (pos_of r))
        | [] => Err (UnknownEscape (pos_of r))
        end
      else if c <? 32 then Err (ControlChar c (pos_of rest))
      else string_body r
  end.

Definition scan_string (rest : bytes) : result bytes JsonError :=
  let? r := expect 34 rest in string_body r.

(** The text of a string just scanned: [bytes[at + 1..pos - 1]], decoded. *)
Definition string_text (at_rest after : bytes) : str :=
  unescape (utf8_lossy (take (length at_rest - length after - 2) (drop 1 at_rest))).

Definition ALLOWED_CHANGES : list str :=
  map lit ["create"; "modify"; "delete"; "read_only"]%string.

Definition allowed_change (rest : bytes) : result bytes JsonError :=
  let rest := skip_ws rest in
  match rest with
  | c :: _ =>
      if c =? chr "n" then literal "null" rest
      else if c =? 34 then
        let? after := scan_string rest in
        let value := string_text rest after in
        if bool_decide (value = []) || bool_decide (value ∈ ALLOWED_CHANGES) then Ok after
        else Err (UnknownChange value)
      else Err (ChangeNotAString (pos_of rest))
  | [] => Err (ChangeNotAString (pos_of rest))
  end.

Definition is_allowed_change_key (key : str) : bool :=
  eq_ignore_ascii_case key (lit "allowed_change").

(** [value], and the loops of [array] and [object] from their first entry on. *)
Fixpoint value (fuel depth : nat) (rest : bytes) : result bytes JsonError :=
  match fuel with
  | O => Err OutOfFuel
  | S f =>
      if (MAX_DEPTH <? depth)%nat then Err TooDeep
      else
        let rest := skip_ws rest in
        match rest with
        | [] => Err ValueUnterminated
        | c :: r =>
            if c =? chr "[" then
              let r := skip_ws r in
              if starts_byte (chr "]") r then Ok (drop 1 r) else array_loop f depth r
            else if c =? chr "{" then
              let r := skip_ws r in
              if starts_byte (chr "}") r then Ok (drop 1 r) else object_loop f depth r
            else if c =? 34 then scan_string rest
            else if c =? chr "t" then literal "true" rest
            else if c =? chr "f" then literal "false" rest
            else if c =? chr "n" then literal "null" rest
            else if (c =? 45) || is_ascii_digit c then number rest
            else Err (Unexpected c (pos_of rest))
        end
  end
with array_loop (fuel depth : nat) (rest : bytes) : result bytes JsonError :=
  match fuel with
  | O => Err OutOfFuel
  | S f =>
      let rest := if planned && (depth =? 0)%nat then skip_ws rest else rest in
      if planned && (depth =? 0)%nat && negb (starts_byte (chr "{") rest)
         && negb (starts_byte 34 rest)
      then Err (BadEntry (pos_of rest))
      else
        let? rest := value f (depth + 1) rest in
        let rest := skip_ws rest in
        match rest with
        | c :: r =>
            if c =? chr "," then array_loop f depth r
            else if c =? chr "]" then Ok r
            else Err (ArrayExpected (pos_of rest) c)
        | [] => Err ArrayUnterminated
        end
  end
with object_loop (fuel depth : nat) (rest : bytes) : result bytes JsonError :=
  match fuel with
  | O => Err OutOfFuel
  | S f =>
      let at_key := skip_ws rest in
      let? after := scan_string at_key in
      let key := string_text at_key after in
      let? rest := expect (chr ":") (skip_ws after) in
      let? rest :=
        (if planned && (depth =? 1)%nat && is_allowed_change_key key
         then allowed_change rest else value f (depth + 1) rest) in
      let rest := skip_ws rest in
      match rest with
      | c :: r =>
          if c =? chr "," then object_loop f depth r
          else if c =? chr "}" then Ok r
          else Err (ObjectExpected (pos_of rest) c)
      | [] => Err ObjectUnterminated
      end
  end.

End Scanner.

Definition scan_fuel (rest : bytes) : nat := 2 * length rest + 1.

Definition check_scan (text : str) (open : Z) (planned : bool) : result unit JsonError :=
  let all := utf8_encode text in
  let rest := skip_ws all in
  match rest with
  | [] => Err IsEmpty
  | c :: _ =>
      if negb (c =? open) then Err (StartsWith c open)
      else
        let? after := value (length all) planned (scan_fuel rest) 0 rest in
        let after := skip_ws after in
        if bool_decide (after = []) then Ok tt
        else Err (Trailing (pos_of (length all) after) (length after))
  end.

Definition check_top (text : str) (open : Z) : result unit JsonError :=
  check_scan text open false.

Definition check_array (text : str) : result unit JsonError := check_top text (chr "[").
Definition check_object (text : str) : result unit JsonError := check_top text (chr "{").
Definition is_array (text : str) : bool := is_ok (check_array text).

Definition check_container (text : str) : result unit JsonError :=
  match utf8_encode (trim_start_by is_json_ws text) with
  | c :: _ =>
      if c =? chr "{" then check_top text (chr "{")
      else if c =? chr "[" then check_top text (chr "[")
      else Err (NotAContainer c)
  | [] => Err IsEmpty
  end.

Definition check_planned_files (text : str) : result unit JsonError :=
  check_scan text (chr "[") true.

(** [merge_json_arrays] of [rust/dc-store/src/lib.rs]: two arrays joined as text. *)
Definition inner (s : str) : str :=
  trim_by is_json_ws
    (default [] (let! s1 := strip_prefix [91] s in strip_suffix [93] s1)).

Definition merge_json_arrays (base appended : str) : str :=
  let a := trim_ws base in
  let b := trim_ws appended in
  let ai := inner a in
  let bi := inner b in
  match ai, bi with
  | [], [] => lit "[]"
  | _, [] => a
  | [], _ => b
  | _, _ => lit "[" ++ ai ++ lit "," ++ bi ++ lit "]"
  end.

End Json.
