(* ===== verification/JsonFacts.v ===== *)
(** * The JSON grammar, as a specification of the scanner

    The productions are those of the JSON standard over bytes, with the scanner's
    nesting limit. With [planned] they also hold the entries of the outermost array
    to the planned-file shape. *)

From S2P Require Import Prelude RustStr RustStrFacts Json.
Import Json.

#[local] Open Scope Z_scope.

Module JsonGrammar.

Definition ws (s : bytes) : Prop := all_chars is_json_ws s = true.

(** The body of a string: plain bytes and escapes. *)
Inductive jchars : bytes → Prop :=
  | jc_nil : jchars []
  | jc_plain c s : c ≠ 34 → c ≠ 92 → 32 ≤ c → jchars s → jchars (c :: s)
  | jc_simple e s : e ∈ simple_escapes → jchars s → jchars (92 :: e :: s)
  | jc_hex h1 h2 h3 h4 s :
      all_chars is_ascii_hexdigit [h1; h2; h3; h4] = true →
      jchars s → jchars (92 :: 117 :: h1 :: h2 :: h3 :: h4 :: s).

Definition quoted (body : bytes) : bytes := 34 :: body ++ [34].

Inductive jstring : bytes → Prop :=
  | js_intro body : jchars body → jstring (quoted body).

Definition digit_run (s : bytes) : Prop := s ≠ [] ∧ all_chars is_ascii_digit s = true.

(** Sign, integer without a leading zero, fraction, exponent. *)
Inductive jsign : bytes → Prop := jsg_none : jsign [] | jsg_minus : jsign [45].
Inductive jint : bytes → Prop :=
  | ji_zero : jint [48]
  | ji_run c s : is_ascii_digit c = true → c ≠ 48 → all_chars is_ascii_digit s = true →
      jint (c :: s).
Inductive jfrac : bytes → Prop :=
  | jf_none : jfrac []
  | jf_some s : digit_run s → jfrac (46 :: s).
Inductive jexp : bytes → Prop :=
  | jx_none : jexp []
  | jx_plain e s : e = 101 ∨ e = 69 → digit_run s → jexp (e :: s)
  | jx_signed e g s : e = 101 ∨ e = 69 → g = 43 ∨ g = 45 → digit_run s → jexp (e :: g :: s).
Inductive jnumber : bytes → Prop :=
  | jn_intro a b c d : jsign a → jint b → jfrac c → jexp d → jnumber (a ++ b ++ c ++ d).

Definition words : list bytes := [lit "true"; lit "false"; lit "null"].

Section Planned.
Context (planned : bool).

(** What an entry of the outermost array must open with. *)
Definition entry_ok (d : nat) (v : bytes) : Prop :=
  planned = true → d = 0%nat → starts_byte (chr "{") v = true ∨ starts_byte 34 v = true.

(** A member whose value must name a change. *)
Definition change_member (d : nat) (body : bytes) : bool :=
  planned && (d =? 1)%nat && is_allowed_change_key (unescape (utf8_lossy body)).

Definition change_ok (v : bytes) : Prop :=
  v = lit "null"
  ∨ ∃ body, v = quoted body ∧ jchars body
      ∧ (unescape (utf8_lossy body) = [] ∨ unescape (utf8_lossy body) ∈ ALLOWED_CHANGES).

(** [jvalue d v]: [v] is a value whose outermost level is [d]. [jelems d es vs]: [es] is
    the text of the entries [vs] of an array at level [d], with the space around
    them and the commas between. *)
Inductive jvalue : nat → bytes → Prop :=
  | jv_string d s : (d ≤ MAX_DEPTH)%nat → jstring s → jvalue d s
  | jv_word d s : (d ≤ MAX_DEPTH)%nat → s ∈ words → jvalue d s
  | jv_number d s : (d ≤ MAX_DEPTH)%nat → jnumber s → jvalue d s
  | jv_array_empty d w : (d ≤ MAX_DEPTH)%nat → ws w → jvalue d (91 :: w ++ [93])
  | jv_array d es vs : (d ≤ MAX_DEPTH)%nat → jelems d es vs → jvalue d (91 :: es ++ [93])
  | jv_object_empty d w : (d ≤ MAX_DEPTH)%nat → ws w → jvalue d (123 :: w ++ [125])
  | jv_object d ms : (d ≤ MAX_DEPTH)%nat → jmembers d ms → jvalue d (123 :: ms ++ [125])
with jelems : nat → bytes → list bytes → Prop :=
  | je_one d a v b : ws a → ws b → entry_ok d v → jvalue (d + 1) v → jelems d (a ++ v ++ b) [v]
  | je_cons d a v b es vs : ws a → ws b → entry_ok d v → jvalue (d + 1) v → jelems d es vs →
      jelems d (a ++ v ++ b ++ 44 :: es) (v :: vs)
with jmembers : nat → bytes → Prop :=
  | jm_one d m : jmember d m → jmembers d m
  | jm_cons d m ms : jmember d m → jmembers d ms → jmembers d (m ++ 44 :: ms)
with jmember : nat → bytes → Prop :=
  | jm_plain d a k b c v e : ws a → jchars k → ws b → ws c → ws e →
      change_member d k = false → jvalue (d + 1) v →
      jmember d (a ++ quoted k ++ b ++ 58 :: c ++ v ++ e)
  | jm_change d a k b c v e : ws a → jchars k → ws b → ws c → ws e →
      change_member d k = true → change_ok v →
      jmember d (a ++ quoted k ++ b ++ 58 :: c ++ v ++ e).

End Planned.

Scheme jvalue_ind' := Minimality for jvalue Sort Prop
  with jelems_ind' := Minimality for jelems Sort Prop
  with jmembers_ind' := Minimality for jmembers Sort Prop
  with jmember_ind' := Minimality for jmember Sort Prop.
Combined Scheme json_ind from jvalue_ind', jelems_ind', jmembers_ind', jmember_ind'.

(** A whole text: one value opening with [open], with only space around it. *)
Definition document (planned : bool) (open : Z) (text : bytes) : Prop :=
  ∃ a v b, text = a ++ v ++ b ∧ ws a ∧ ws b ∧ jvalue planned 0 v
           ∧ starts_byte open v = true.

(** A whole text that is an array, with the texts of its entries. *)
Definition array_of (text : bytes) (vs : list bytes) : Prop :=
  ∃ a body b, text = a ++ (91 :: body ++ [93]) ++ b ∧ ws a ∧ ws b
    ∧ ((ws body ∧ vs = []) ∨ jelems false 0 body vs).

End JsonGrammar.

(** * The scanner accepts exactly the grammar *)

Import Json JsonGrammar.

#[local] Open Scope Z_scope.

Module JsonFacts.

(** ** Space *)

(** The head is not space, so a skip stops there. *)
Definition solid (s : bytes) : bool :=
  match s with c :: _ => negb (is_json_ws c) | [] => true end.

Lemma skip_ws_spec s : ∃ w, s = w ++ skip_ws s ∧ ws w ∧ solid (skip_ws s) = true.
Proof.
  induction s as [|c s (w & Hs & Hw & Hd)]; [by exists []|]. cbn [skip_ws].
  destruct (is_json_ws c) eqn:E.
  - exists (c :: w). split_and!; [by rewrite Hs at 1| |done]. unfold ws. cbn. by rewrite E.
  - exists []. split_and!; [done|done|]. cbn. by rewrite E.
Qed.

Lemma skip_ws_app w s : ws w → solid s = true → skip_ws (w ++ s) = s.
Proof.
  unfold ws. intros Hw Hs. induction w as [|c w IH].
  - destruct s as [|c s]; [done|]. cbn in *. by destruct (is_json_ws c).
  - cbn [forallb app skip_ws] in *. apply andb_true_iff in Hw as [-> Hw]. by apply IH.
Qed.

Lemma skip_ws_solid s : solid s = true → skip_ws s = s.
Proof. apply (skip_ws_app []). done. Qed.

Lemma skip_ws_app_ws w s : ws w → skip_ws (w ++ s) = skip_ws s.
Proof.
  intros Hw. destruct (skip_ws_spec s) as (w' & Hs & Hw' & Hd).
  rewrite Hs at 1. rewrite app_assoc, skip_ws_app; [done| |done].
  unfold ws in *. by rewrite all_chars_app, Hw, Hw'.
Qed.

Lemma ws_app a b : ws a → ws b → ws (a ++ b).
Proof. unfold ws. intros Ha Hb. by rewrite all_chars_app, Ha, Hb. Qed.

Lemma skip_ws_length s : (length (skip_ws s) ≤ length s)%nat.
Proof.
  destruct (skip_ws_spec s) as (w & Hs & _). rewrite Hs at 2. rewrite length_app. lia.
Qed.

(** ** Digits *)

Lemma digits_spec s :
  ∃ ds, s = ds ++ digits s ∧ all_chars is_ascii_digit ds = true ∧ starts_digit (digits s) = false.
Proof.
  induction s as [|c s (ds & Hs & Hd & Hn)]; [by exists []|]. cbn [digits].
  destruct (is_ascii_digit c) eqn:E.
  - exists (c :: ds). split_and!; [by rewrite Hs at 1| |done]. cbn. by rewrite E.
  - exists []. by split_and!.
Qed.

Lemma digits_app ds s :
  all_chars is_ascii_digit ds = true → starts_digit s = false → digits (ds ++ s) = s.
Proof.
  intros Hd Hs. induction ds as [|c ds IH].
  - destruct s as [|c s]; [done|]. cbn in *. by rewrite Hs.
  - cbn [forallb app digits] in *. apply andb_true_iff in Hd as [-> Hd]. by apply IH.
Qed.

Lemma starts_digit_run s :
  starts_digit s = true →
  ∃ ds, digit_run ds ∧ s = ds ++ digits s ∧ starts_digit (digits s) = false.
Proof.
  intros Hs. destruct (digits_spec s) as (ds & E & Hd & Hn). exists ds. split_and!; try done.
  split; [|done]. intros ->. cbn in E. rewrite E in Hs. congruence.
Qed.

Lemma digit_run_starts ds s : digit_run ds → starts_digit (ds ++ s) = true.
Proof. intros [Hne Hd]. destruct ds; [done|]. cbn in *. by apply andb_true_iff in Hd as [-> _]. Qed.

(** ** Strings *)

Section Scanner.
Context (total : nat).

Ltac split_head H :=
  match type of H with
  | context [if ?b then _ else _] => destruct b eqn:?
  end.

Lemma string_body_sound s : ∀ r,
  string_body total s = Ok r → ∃ b, s = b ++ 34 :: r ∧ jchars b.
Proof.
  induction s as [s IH] using (well_founded_induction (well_founded_ltof _ (@length Z))).
  intros r H. destruct s as [|c s]; [done|]. cbn [string_body] in H.
  destruct (Z.eqb_spec c 34) as [->|H34].
  { simplify_eq. exists []. split; [done|constructor]. }
  destruct (Z.eqb_spec c 92) as [->|H92].
  - destruct s as [|e s]; [done|]. destruct (existsb (Z.eqb e) simple_escapes) eqn:He.
    + apply IH in H as (b & -> & Hb); [|unfold ltof; cbn; lia].
      exists (92 :: e :: b). split; [done|]. apply jc_simple; [|done].
      apply existsb_exists in He as (x & Hx%list_elem_of_In & ->%Z.eqb_eq). done.
    + destruct (Z.eqb_spec e 117) as [->|]; [|done].
      destruct s as [|h1 [|h2 [|h3 [|h4 s]]]]; try done.
      repeat (split_head H; [done|]).
      repeat match goal with E : negb _ = false |- _ => apply negb_false_iff in E end.
      apply IH in H as (b & -> & Hb); [|unfold ltof; cbn; lia].
      exists (92 :: 117 :: h1 :: h2 :: h3 :: h4 :: b). split; [done|]. apply jc_hex; [|done].
      cbn. by repeat (apply andb_true_iff; split).
  - destruct (Z.ltb_spec c 32); [done|].
    apply IH in H as (b & -> & Hb); [|unfold ltof; cbn; lia].
    exists (c :: b). split; [done|]. by apply jc_plain.
Qed.

Lemma string_body_complete b r : jchars b → string_body total (b ++ 34 :: r) = Ok r.
Proof.
  induction 1 as [|c s H34 H92 H32 _ IH|e s He _ IH|h1 h2 h3 h4 s Hh _ IH]; [done|..].
  - cbn [app string_body]. rewrite (proj2 (Z.eqb_neq _ _) H34), (proj2 (Z.eqb_neq _ _) H92).
    by rewrite (proj2 (Z.ltb_ge _ _) H32).
  - cbn [app string_body]. replace (92 =? 34) with false by done. rewrite Z.eqb_refl.
    assert (existsb (Z.eqb e) simple_escapes = true) as ->; [|done].
    apply existsb_exists. exists e. split; [by apply list_elem_of_In|apply Z.eqb_refl].
  - cbn [forallb] in Hh.
    apply andb_true_iff in Hh as [H1 [H2 [H3 [H4 _]%andb_true_iff]%andb_true_iff]%andb_true_iff].
    cbn [app string_body]. replace (92 =? 34) with false by done. rewrite Z.eqb_refl.
    replace (existsb (Z.eqb 117) simple_escapes) with false by done. rewrite Z.eqb_refl.
    by rewrite H1, H2, H3, H4.
Qed.

Lemma scan_string_sound s r :
  scan_string total s = Ok r → ∃ b, s = quoted b ++ r ∧ jchars b.
Proof.
  unfold scan_string, expect, quoted. destruct s as [|c s]; [done|].
  destruct (Z.eqb_spec c 34) as [->|]; [|done]. intros (b & -> & Hb)%string_body_sound.
  exists b. split; [|done]. cbn. by rewrite <- app_assoc.
Qed.

Lemma scan_string_complete b r : jchars b → scan_string total (quoted b ++ r) = Ok r.
Proof.
  intros Hb. unfold scan_string, expect, quoted. cbn [app]. rewrite Z.eqb_refl, <- app_assoc.
  by apply string_body_complete.
Qed.

Lemma string_text_quoted b r : string_text (quoted b ++ r) r = unescape (utf8_lossy b).
Proof.
  unfold string_text, quoted. cbn [app drop length].
  rewrite <- app_assoc, !length_app. cbn [length].
  replace (S (length b + (1 + length r)) - length r - 2)%nat with (length b) by lia.
  by rewrite drop_0, take_app_length.
Qed.

(** ** Words and numbers *)

Lemma literal_sound word s r : literal total word s = Ok r → s = lit word ++ r.
Proof.
  unfold literal. destruct (strip_prefix (lit word) s) eqn:E; [|done].
  intros [= ->]. by apply strip_prefix_Some.
Qed.

Lemma literal_complete word r : literal total word (lit word ++ r) = Ok r.
Proof. unfold literal. by rewrite strip_prefix_app. Qed.

(** A character that would carry a number on. *)
Definition numeric (c : Z) : bool :=
  is_ascii_digit c || (c =? 46) || (c =? 101) || (c =? 69).

Definition stops (s : bytes) : bool := match s with c :: _ => negb (numeric c) | [] => true end.

Lemma stops_digit s : stops s = true → starts_digit s = false.
Proof.
  destruct s as [|c s]; [done|]. unfold stops, numeric. rewrite negb_true_iff, !orb_false_iff.
  by intros [[[? _] _] _].
Qed.

Lemma number_int_sound st s r : number_int st s = Ok r → ∃ b, s = b ++ r ∧ jint b.
Proof.
  unfold number_int. destruct s as [|c s]; [done|].
  destruct (Z.eqb_spec c 48) as [->|Hc].
  { intros [= ->]. exists [48]. split; [done|constructor]. }
  destruct (is_ascii_digit c) eqn:Hd; [|done]. cbn [digits]. rewrite Hd. intros [= <-].
  destruct (digits_spec s) as (ds & E & Hds & _). exists (c :: ds).
  split; [cbn; by rewrite <- E|by constructor].
Qed.

Lemma number_int_complete st b r :
  jint b → starts_digit r = false ∨ b = [48] → number_int st (b ++ r) = Ok r.
Proof.
  intros Hb Hr. unfold number_int. inversion Hb as [|c s Hc Hne Hs]; subst; [done|].
  cbn [app]. rewrite (proj2 (Z.eqb_neq _ _) Hne), Hc. destruct Hr as [Hr|[= -> _]]; [|done].
  change (c :: s ++ r) with ((c :: s) ++ r). rewrite digits_app; [done| |done].
  cbn. by rewrite Hc, Hs.
Qed.

Lemma number_fraction_sound s r : number_fraction total s = Ok r → ∃ b, s = b ++ r ∧ jfrac b.
Proof.
  unfold number_fraction. destruct s as [|c s].
  { intros [= <-]. exists []. split; [done|constructor]. }
  destruct (Z.eqb_spec c 46) as [->|Hc].
  - destruct (starts_digit s) eqn:Hs; [|done]. intros [= <-].
    destruct (starts_digit_run s Hs) as (ds & Hd & E & _).
    exists (46 :: ds). split; [cbn; by rewrite <- E|by constructor].
  - intros [= <-]. exists []. split; [done|constructor].
Qed.

Lemma number_fraction_complete b r :
  jfrac b → starts_digit r = false → starts_byte 46 r = false →
  number_fraction total (b ++ r) = Ok r.
Proof.
  intros Hb Hr Hdot. unfold number_fraction. inversion Hb as [|s Hs]; subst.
  - cbn [app]. destruct r as [|c r]; [done|]. cbn in Hdot. by rewrite Hdot.
  - cbn [app]. rewrite Z.eqb_refl, digit_run_starts by done.
    destruct Hs as [_ Hs]. by rewrite digits_app.
Qed.

Lemma number_exponent_sound s r : number_exponent total s = Ok r → ∃ b, s = b ++ r ∧ jexp b.
Proof.
  unfold number_exponent. destruct s as [|c s].
  { intros [= <-]. exists []. split; [done|constructor]. }
  destruct ((c =? 101) || (c =? 69)) eqn:Hc.
  2:{ intros [= <-]. exists []. split; [done|constructor]. }
  assert (c = 101 ∨ c = 69) as He.
  { by apply orb_true_iff in Hc as [?%Z.eqb_eq|?%Z.eqb_eq]; [left|right]. }
  destruct s as [|g s]; [done|]. destruct ((g =? 43) || (g =? 45)) eqn:Hg.
  - destruct (starts_digit s) eqn:Hs; [|done]. intros [= <-].
    destruct (starts_digit_run s Hs) as (ds & Hd & E & _).
    exists (c :: g :: ds). split; [cbn; by rewrite <- E|]. apply jx_signed; [done| |done].
    by apply orb_true_iff in Hg as [?%Z.eqb_eq|?%Z.eqb_eq]; [left|right].
  - destruct (starts_digit (g :: s)) eqn:Hs; [|done]. intros [= <-].
    destruct (starts_digit_run (g :: s) Hs) as (ds & Hd & E & _).
    exists (c :: ds). split; [exact (f_equal (cons c) E)|by apply jx_plain].
Qed.

Lemma number_exponent_complete b r :
  jexp b → stops r = true → number_exponent total (b ++ r) = Ok r.
Proof.
  intros Hb Hr. pose proof (stops_digit r Hr) as Hsd.
  assert (∀ e, e = 101 ∨ e = 69 → ((e =? 101) || (e =? 69)) = true) as He by
    (by intros e [-> | ->]).
  unfold number_exponent. inversion Hb as [|e s H1 [Hne Hs]|e g s H1 H2 Hs]; subst.
  - cbn [app]. destruct r as [|c r]; [done|]. unfold stops, numeric in Hr.
    apply negb_true_iff in Hr. rewrite !orb_false_iff in Hr.
    destruct Hr as [[_ ->] ->]. done.
  - cbn [app]. rewrite He by done. destruct s as [|g s]; [done|]. cbn [app].
    assert ((g =? 43) || (g =? 45) = false) as ->.
    { cbn in Hs. apply andb_true_iff in Hs as [Hg%is_ascii_digit_spec _].
      apply orb_false_iff. split; apply Z.eqb_neq; lia. }
    change (g :: s ++ r) with ((g :: s) ++ r).
    rewrite digit_run_starts by done. by rewrite digits_app.
  - cbn [app]. rewrite He by done.
    assert ((g =? 43) || (g =? 45) = true) as -> by (by destruct H2 as [-> | ->]).
    rewrite digit_run_starts by done. destruct Hs as [_ Hs]. by rewrite digits_app.
Qed.

Lemma number_sound s r : number total s = Ok r → ∃ v, s = v ++ r ∧ jnumber v.
Proof.
  unfold number. set (s1 := match s with [] => s | c :: r0 => if c =? 45 then r0 else s end).
  assert (∃ a, s = a ++ s1 ∧ jsign a) as (a & Ea & Ha).
  { unfold s1. destruct s as [|c s']; [by exists []; split; [|constructor]|].
    destruct (Z.eqb_spec c 45) as [->|]; [by exists [45]; split; [|constructor]|].
    by exists []; split; [|constructor]. }
  destruct (number_int _ s1) as [s2|] eqn:E1; [|done].
  destruct (number_fraction _ s2) as [s3|] eqn:E2; [|done]. intros E3.
  apply number_int_sound in E1 as (b & -> & Hb).
  apply number_fraction_sound in E2 as (c & -> & Hc).
  apply number_exponent_sound in E3 as (d & -> & Hd).
  exists (a ++ b ++ c ++ d). split; [by rewrite Ea, <- !app_assoc|by constructor].
Qed.

(** What follows an integer, and what follows a fraction, does not carry it on. *)
Lemma jexp_stops d r : jexp d → stops r = true →
  starts_digit (d ++ r) = false ∧ starts_byte 46 (d ++ r) = false.
Proof.
  intros Hd Hr. inversion Hd as [|e s [-> | ->] _|e g s [-> | ->] _ _]; subst; try done.
  cbn [app]. split; [by apply stops_digit|]. destruct r as [|c r]; [done|].
  unfold stops, numeric in Hr. apply negb_true_iff in Hr. rewrite !orb_false_iff in Hr.
  by destruct Hr as [[[_ ?] _] _].
Qed.

Lemma jfrac_stops c r : jfrac c → starts_digit r = false → starts_digit (c ++ r) = false.
Proof. intros Hc Hr. by inversion Hc; subst. Qed.

Lemma number_complete v r : jnumber v → stops r = true → number total (v ++ r) = Ok r.
Proof.
  intros [a b c d Ha Hb Hc Hd] Hr. destruct (jexp_stops d r Hd Hr) as [H1 H2].
  unfold number. rewrite <- !app_assoc.
  assert (∀ x, match a ++ b ++ x with [] => a ++ b ++ x
               | c0 :: r0 => if c0 =? 45 then r0 else a ++ b ++ x end = b ++ x) as Hsign.
  { intros x. inversion Ha; subst; [|done]. cbn [app].
    inversion Hb as [|e s He Hne _]; subst; [done|]. cbn [app].
    destruct (Z.eqb_spec e 45) as [->|]; [by apply is_ascii_digit_spec in He; lia|done]. }
  rewrite Hsign, number_int_complete;
    [|done|left; by apply jfrac_stops].
  rewrite number_fraction_complete by done. by apply number_exponent_complete.
Qed.

End Scanner.

End JsonFacts.
