(* ===== verification/JsonScan.v ===== *)
(** * The scanner's loops: sound, complete and never out of fuel *)

From S2P Require Import Prelude RustStr RustStrFacts Json JsonFacts.
Import Json JsonGrammar JsonFacts.

#[local] Open Scope Z_scope.

Module JsonScan.

Section Scanner.
Context (total : nat) (planned : bool).

(** ** The loops' equations *)

Lemma value_S f depth rest :
  value total planned (S f) depth rest =
      if (MAX_DEPTH <? depth)%nat then Err TooDeep
      else
        let rest := skip_ws rest in
        match rest with
        | [] => Err ValueUnterminated
        | c :: r =>
            if c =? chr "[" then
              let r := skip_ws r in
              if starts_byte (chr "]") r then Ok (drop 1 r) else array_loop total planned f depth r
            else if c =? chr "{" then
              let r := skip_ws r in
              if starts_byte (chr "}") r then Ok (drop 1 r) else object_loop total planned f depth r
            else if c =? 34 then scan_string total rest
            else if c =? chr "t" then literal total "true" rest
            else if c =? chr "f" then literal total "false" rest
            else if c =? chr "n" then literal total "null" rest
            else if (c =? 45) || is_ascii_digit c then number total rest
            else Err (Unexpected c (pos_of total rest))
        end.
Proof. reflexivity. Qed.

Lemma array_loop_S f depth rest :
  array_loop total planned (S f) depth rest =
      let rest := if planned && (depth =? 0)%nat then skip_ws rest else rest in
      if planned && (depth =? 0)%nat && negb (starts_byte (chr "{") rest)
         && negb (starts_byte 34 rest)
      then Err (BadEntry (pos_of total rest))
      else
        let? rest := value total planned f (depth + 1) rest in
        let rest := skip_ws rest in
        match rest with
        | c :: r =>
            if c =? chr "," then array_loop total planned f depth r
            else if c =? chr "]" then Ok r
            else Err (ArrayExpected (pos_of total rest) c)
        | [] => Err ArrayUnterminated
        end.
Proof. reflexivity. Qed.

Lemma object_loop_S f depth rest :
  object_loop total planned (S f) depth rest =
      let at_key := skip_ws rest in
      let? after := scan_string total at_key in
      let key := string_text at_key after in
      let? rest := expect total (chr ":") (skip_ws after) in
      let? rest :=
        (if planned && (depth =? 1)%nat && is_allowed_change_key key
         then allowed_change total rest else value total planned f (depth + 1) rest) in
      let rest := skip_ws rest in
      match rest with
      | c :: r =>
          if c =? chr "," then object_loop total planned f depth r
          else if c =? chr "}" then Ok r
          else Err (ObjectExpected (pos_of total rest) c)
      | [] => Err ObjectUnterminated
      end.
Proof. reflexivity. Qed.

Lemma starts_byte_true b s : starts_byte b s = true → ∃ r, s = b :: r.
Proof. destruct s as [|c s]; [done|]. cbn. intros ->%Z.eqb_eq. by exists s. Qed.

Lemma jelems_pad d w es vs : ws w → jelems planned d es vs → jelems planned d (w ++ es) vs.
Proof.
  intros Hw [d' a v b Ha Hb Hok Hv|d' a v b es' vs' Ha Hb Hok Hv Hes]; rewrite app_assoc.
  - apply je_one; try done. by apply ws_app.
  - apply je_cons; try done. by apply ws_app.
Qed.

Lemma jmember_pad d w m : ws w → jmember planned d m → jmember planned d (w ++ m).
Proof.
  intros Hw [d' a k b c v e Ha Hk Hb Hc He Hm Hv|d' a k b c v e Ha Hk Hb Hc He Hm Hv];
    rewrite app_assoc.
  - apply jm_plain; try done. by apply ws_app.
  - apply jm_change; try done. by apply ws_app.
Qed.

Lemma jmembers_pad d w ms : ws w → jmembers planned d ms → jmembers planned d (w ++ ms).
Proof.
  intros Hw [d' m Hm|d' m ms' Hm Hms].
  - by apply jm_one, jmember_pad.
  - rewrite app_assoc. by apply jm_cons; [apply jmember_pad|].
Qed.

(** ** Sound *)

Lemma allowed_change_sound s r :
  allowed_change total s = Ok r → ∃ w v, s = w ++ v ++ r ∧ ws w ∧ change_ok v.
Proof.
  unfold allowed_change. destruct (skip_ws_spec s) as (w & Hs & Hw & _).
  destruct (skip_ws s) as [|c t] eqn:E; [done|]. rewrite Hs. destruct (Z.eqb_spec c (chr "n")).
  - intros ->%literal_sound. exists w, (lit "null"). split_and!; [done..|by left].
  - destruct (Z.eqb_spec c 34) as [->|]; [|done].
    destruct (scan_string total (34 :: t)) as [after|] eqn:Es; [|done].
    apply scan_string_sound in Es as (b & Eb & Hb). rewrite Eb, string_text_quoted.
    destruct (_ || _) eqn:Ho; [|done]. intros [= <-].
    exists w, (quoted b). split_and!; [done..|right]. exists b. split_and!; [done..|].
    by apply orb_true_iff in Ho as [?%bool_decide_eq_true|?%bool_decide_eq_true]; [left|right].
Qed.

Definition value_sound (f : nat) : Prop := ∀ d s r,
  value total planned f d s = Ok r →
  ∃ w v, s = w ++ v ++ r ∧ ws w ∧ solid v = true ∧ v ≠ [] ∧ jvalue planned d v.
Definition array_sound (f : nat) : Prop := ∀ d s r,
  array_loop total planned f d s = Ok r →
  ∃ es vs, s = es ++ 93 :: r ∧ jelems planned d es vs.
Definition object_sound (f : nat) : Prop := ∀ d s r,
  object_loop total planned f d s = Ok r →
  ∃ ms, s = ms ++ 125 :: r ∧ jmembers planned d ms.

Lemma value_sound_step f : array_sound f → object_sound f → value_sound (S f).
Proof.
  intros IHa IHo d s r. rewrite value_S. cbv zeta.
  destruct (Nat.ltb_spec MAX_DEPTH d) as [|Hd]; [done|].
  destruct (skip_ws_spec s) as (w & Hs & Hw & Hsol).
  destruct (skip_ws s) as [|c t] eqn:E; [done|]. rewrite Hs. clear Hs E.
  intros H. exists w.
  destruct (Z.eqb_spec c (chr "[")) as [->|].
  { destruct (skip_ws_spec t) as (w' & Ht & Hw' & _).
    destruct (starts_byte (chr "]") (skip_ws t)) eqn:Eb.
    - apply starts_byte_true in Eb as [r' Eb]. rewrite Eb in H, Ht. simplify_eq.
      exists (91 :: w' ++ [93]). split_and!; [cbn; by rewrite <- app_assoc|done..|].
      by apply jv_array_empty.
    - apply IHa in H as (es & vs & Hes & Hj). rewrite Hes in Ht. subst t.
      exists (91 :: (w' ++ es) ++ [93]).
      split_and!; [cbn; by rewrite <- !app_assoc|done..|].
      apply (jv_array _ _ _ vs); [done|]. by apply jelems_pad. }
  destruct (Z.eqb_spec c (chr "{")) as [->|].
  { destruct (skip_ws_spec t) as (w' & Ht & Hw' & _).
    destruct (starts_byte (chr "}") (skip_ws t)) eqn:Eb.
    - apply starts_byte_true in Eb as [r' Eb]. rewrite Eb in H, Ht. simplify_eq.
      exists (123 :: w' ++ [125]). split_and!; [cbn; by rewrite <- app_assoc|done..|].
      by apply jv_object_empty.
    - apply IHo in H as (ms & Hms & Hj). rewrite Hms in Ht. subst t.
      exists (123 :: (w' ++ ms) ++ [125]).
      split_and!; [cbn; by rewrite <- !app_assoc|done..|].
      apply jv_object; [done|]. by apply jmembers_pad. }
  assert (∀ v, c :: t = v ++ r → v ≠ [] → jvalue planned d v →
    ∃ v, w ++ c :: t = w ++ v ++ r ∧ ws w ∧ solid v = true ∧ v ≠ [] ∧ jvalue planned d v)
    as Hdone.
  { intros v Hv Hne Hj. exists v. rewrite Hv. split_and!; try done.
    destruct v as [|e v]; [done|]. cbn in Hv. simplify_eq. exact Hsol. }
  destruct (Z.eqb_spec c 34) as [->|].
  { apply scan_string_sound in H as (b & Eb & Hb).
    apply (Hdone (quoted b)); [exact Eb|unfold quoted; discriminate|].
    by apply jv_string. }
  repeat match type of H with
  | (if ?b then literal _ ?word _ else _) = _ =>
      destruct b;
      [apply literal_sound in H; apply (Hdone (lit word)); [done..|];
       apply jv_word; [done|unfold words; set_solver]|]
  end.
  destruct (_ || _); [|done]. apply number_sound in H as (v & Ev & Hv).
  apply (Hdone v); [done| |by apply jv_number].
  destruct Hv as [a b e x _ Hb _ _]. inversion Hb; subst; by destruct a.
Qed.

Lemma array_sound_step f : value_sound f → array_sound f → array_sound (S f).
Proof.
  intros IHv IHa d s r. rewrite array_loop_S. cbv zeta.
  set (s1 := if planned && (d =? 0)%nat then skip_ws s else s).
  assert (∃ w, s = w ++ s1 ∧ ws w ∧ (planned && (d =? 0)%nat = true → solid s1 = true))
    as (w0 & Hs1 & Hw0 & Hsol).
  { unfold s1. destruct (planned && _).
    - destruct (skip_ws_spec s) as (w & ? & ? & ?). by exists w.
    - by exists []. }
  clearbody s1. destruct (_ && negb _) eqn:Hentry; [done|].
  destruct (value total planned f (d + 1) s1) as [s2|] eqn:Ev; [|done].
  apply IHv in Ev as (w & v & -> & Hw & Hvs & Hne & Hv).
  destruct (skip_ws_spec s2) as (w2 & Hs2 & Hw2 & _).
  assert (entry_ok planned d v) as Hok.
  { intros Hp Hd. rewrite Hp, Hd in Hentry, Hsol. cbn [andb Nat.eqb] in Hentry, Hsol.
    specialize (Hsol eq_refl). destruct w as [|e w].
    2:{ unfold ws in Hw. cbn in Hw, Hsol. by apply andb_true_iff in Hw as [Hw _]; rewrite Hw in Hsol. }
    cbn [app] in Hentry. destruct v as [|e v]; [done|]. cbn in Hentry |- *.
    by destruct (e =? chr "{"), (e =? 34); auto. }
  destruct (skip_ws s2) as [|c t]; [done|].
  destruct (Z.eqb_spec c (chr ",")) as [->|].
  - intros (es & vs & -> & Hes)%IHa.
    exists ((w0 ++ w) ++ v ++ w2 ++ 44 :: es), (v :: vs). split.
    + rewrite Hs1, Hs2, <- !app_assoc. done.
    + apply je_cons; try done. by apply ws_app.
  - destruct (Z.eqb_spec c (chr "]")) as [->|]; [|done]. intros [= <-].
    exists ((w0 ++ w) ++ v ++ w2), [v]. split.
    + rewrite Hs1, Hs2, <- !app_assoc. done.
    + apply je_one; try done. by apply ws_app.
Qed.

Lemma object_sound_step f : value_sound f → object_sound f → object_sound (S f).
Proof.
  intros IHv IHo d s r. rewrite object_loop_S. cbv zeta.
  destruct (skip_ws_spec s) as (w0 & Hs & Hw0 & _).
  destruct (scan_string total (skip_ws s)) as [after|] eqn:Es; [|done].
  apply scan_string_sound in Es as (k & Ek & Hk). rewrite Ek, string_text_quoted in *.
  destruct (skip_ws_spec after) as (w1 & Ha & Hw1 & _). unfold expect.
  destruct (skip_ws after) as [|c t]; [done|]. destruct (Z.eqb_spec c (chr ":")) as [->|]; [|done].
  fold (change_member planned d k).
  destruct (if change_member planned d k then _ else _) as [s2|] eqn:Ev; [|done].
  assert (∃ w2 v, t = w2 ++ v ++ s2 ∧ ws w2 ∧
    ∀ w3, ws w3 → jmember planned d (w0 ++ quoted k ++ w1 ++ 58 :: w2 ++ v ++ w3))
    as (w2 & v & Ht & Hw2 & Hm).
  { destruct (change_member planned d k) eqn:Ec.
    - apply allowed_change_sound in Ev as (w2 & v & -> & Hw2 & Hv).
      exists w2, v. split_and!; [done..|]. intros w3 Hw3. by apply jm_change.
    - apply IHv in Ev as (w2 & v & -> & Hw2 & _ & _ & Hv).
      exists w2, v. split_and!; [done..|]. intros w3 Hw3. by apply jm_plain. }
  destruct (skip_ws_spec s2) as (w3 & Hs2 & Hw3 & _). specialize (Hm w3 Hw3).
  set (m := w0 ++ quoted k ++ w1 ++ 58 :: w2 ++ v ++ w3) in *.
  assert (∀ x, s2 = w3 ++ x → s = m ++ x) as Hm'.
  { intros x Hx. rewrite Hs, Ha, Ht, Hx. unfold m. by repeat (rewrite <- ?app_assoc; cbn [app]). }
  destruct (skip_ws s2) as [|c t']; [done|]. rewrite (Hm' _ Hs2).
  destruct (Z.eqb_spec c (chr ",")) as [->|].
  - intros (ms & -> & Hms)%IHo. exists (m ++ 44 :: ms). split; [by rewrite <- app_assoc|].
    by apply jm_cons.
  - destruct (Z.eqb_spec c (chr "}")) as [->|]; [|done]. intros [= <-].
    exists m. split; [done|]. by apply jm_one.
Qed.

Lemma scan_sound f : value_sound f ∧ array_sound f ∧ object_sound f.
Proof.
  induction f as [|f (IHv & IHa & IHo)]; [split_and!; by intros ???|].
  split_and!; [by apply value_sound_step|by apply array_sound_step|by apply object_sound_step].
Qed.

(** ** Complete *)

(** A number is only over when something that cannot carry it on comes next. *)
Definition settled (v r : bytes) : Prop :=
  match v with c :: _ => (c =? 45) || is_ascii_digit c = true → stops r = true | [] => True end.

Lemma stops_after_ws w r : ws w → solid r = true → stops r = true → stops (w ++ r) = true.
Proof.
  intros Hw _ Hr. destruct w as [|c w]; [done|]. unfold ws in Hw. cbn [forallb] in Hw.
  apply andb_true_iff in Hw as [Hw _]. cbn [app stops].
  unfold is_json_ws in Hw. rewrite !orb_true_iff, !Z.eqb_eq in Hw.
  by destruct Hw as [[[-> | ->] | ->] | ->].
Qed.

Lemma settled_ws v w c r :
  ws w → is_json_ws c = false → numeric c = false → settled v (w ++ c :: r).
Proof.
  intros Hw Hc Hn. destruct v as [|e v]; [done|]. intros _.
  apply stops_after_ws; [done|cbn; by rewrite Hc|cbn; by rewrite Hn].
Qed.

Lemma jvalue_head d v :
  jvalue planned d v → ∃ c t, v = c :: t ∧ is_json_ws c = false ∧ c ≠ 93.
Proof.
  intros Hv.
  destruct Hv as [d s _ [b _]|d s _ Hw|d s _ [a b c e Ha Hb _ _]|d w _ _|d es vs _ _|d w _ _
                 |d ms _ _]; try (by eexists _, _).
  - unfold words in Hw. rewrite !elem_of_cons, elem_of_nil in Hw.
    destruct Hw as [-> |[-> |[-> |[]]]]; by eexists _, _.
  - inversion Ha; subst; [|by eexists _, _]. inversion Hb as [|x y Hx _ _]; subst.
    + by eexists _, _.
    + eexists x, _. split; [reflexivity|]. apply is_ascii_digit_spec in Hx.
      unfold is_json_ws. rewrite !orb_false_iff, !Z.eqb_neq. lia.
Qed.

Lemma jvalue_length d v : jvalue planned d v → (1 ≤ length v)%nat.
Proof. intros (c & t & -> & _ & _)%jvalue_head. cbn. lia. Qed.

Lemma allowed_change_complete w v r :
  ws w → change_ok v → allowed_change total (w ++ v ++ r) = Ok r.
Proof.
  intros Hw Hv. unfold allowed_change.
  destruct Hv as [-> |(b & -> & Hb & Hval)].
  - rewrite skip_ws_app by done. cbn match. apply literal_complete.
  - rewrite skip_ws_app by done. unfold quoted at 1. cbn [app].
    change (34 =? chr "n") with false. rewrite Z.eqb_refl. cbn match.
    change (34 :: (b ++ [34]) ++ r) with (quoted b ++ r).
    rewrite scan_string_complete by done. rewrite string_text_quoted.
    assert (bool_decide (unescape (utf8_lossy b) = [])
            || bool_decide (unescape (utf8_lossy b) ∈ ALLOWED_CHANGES) = true) as ->; [|done].
    apply orb_true_iff. rewrite !bool_decide_eq_true. done.
Qed.

Definition value_complete (d : nat) (v : bytes) : Prop := ∀ f w r,
  ws w → settled v r → (2 * length (v ++ r) + 1 ≤ f)%nat →
  value total planned f d (w ++ v ++ r) = Ok r.
Definition elems_complete (d : nat) (es : bytes) (_ : list bytes) : Prop := ∀ f r,
  (2 * length (es ++ 93%Z :: r) + 2 ≤ f)%nat →
  array_loop total planned f d (es ++ 93 :: r) = Ok r.
Definition members_complete (d : nat) (ms : bytes) : Prop := ∀ f r,
  (2 * length (ms ++ 125%Z :: r) + 2 ≤ f)%nat →
  object_loop total planned f d (ms ++ 125 :: r) = Ok r.
(** One member, up to the separator [c] after it. *)
Definition member_complete (d : nat) (m : bytes) : Prop := ∀ f c r,
  (2 * length (m ++ c :: r) + 2 ≤ S f)%nat → c = 44 ∨ c = 125 →
  object_loop total planned (S f) d (m ++ c :: r)
  = if c =? 44 then object_loop total planned f d r else Ok r.

Lemma value_open f d w c t :
  (d ≤ MAX_DEPTH)%nat → ws w → is_json_ws c = false →
  value total planned (S f) d (w ++ c :: t) = value total planned (S f) d (c :: t).
Proof.
  intros Hd Hw Hc. rewrite !value_S. cbv zeta.
  by rewrite skip_ws_app, (skip_ws_solid (c :: t)) by (done || (cbn; by rewrite Hc)).
Qed.

Lemma value_complete_string d s :
  (d ≤ MAX_DEPTH)%nat → jstring s → value_complete d s.
Proof.
  intros Hd [b Hb] f w r Hw _ Hf. destruct f as [|f]; [lia|].
  rewrite value_S. cbv zeta. rewrite (proj2 (Nat.ltb_ge _ _) Hd).
  rewrite skip_ws_app by done. unfold quoted at 1. cbn [app].
  change (34 =? chr "[") with false. change (34 =? chr "{") with false.
  rewrite Z.eqb_refl. cbn match. by apply (scan_string_complete total b r).
Qed.

Lemma value_complete_word d s : (d ≤ MAX_DEPTH)%nat → s ∈ words → value_complete d s.
Proof.
  intros Hd Hs f w r Hw _ Hf. destruct f as [|f]; [lia|].
  rewrite value_S. cbv zeta. rewrite (proj2 (Nat.ltb_ge _ _) Hd).
  unfold words in Hs. rewrite !elem_of_cons, elem_of_nil in Hs.
  destruct Hs as [-> |[-> |[-> |[]]]]; rewrite skip_ws_app by done; cbn match;
    apply literal_complete.
Qed.

Lemma jnumber_head c t : jnumber (c :: t) → (c =? 45) || is_ascii_digit c = true.
Proof.
  intros Hs. inversion Hs as [a b x e Ha Hb _ _ E].
  destruct Ha; cbn [app] in E; [|injection E as <- _; done].
  destruct Hb as [|y z Hy _ _]; cbn [app] in E; injection E as <- _; [done|].
  by rewrite Hy, orb_true_r.
Qed.

Lemma value_complete_number d s : (d ≤ MAX_DEPTH)%nat → jnumber s → value_complete d s.
Proof.
  intros Hd Hs f w r Hw Hset Hf. destruct f as [|f]; [lia|].
  destruct (jvalue_head d s) as (c & t & -> & Hc & _); [by apply jv_number|].
  pose proof (jnumber_head _ _ Hs) as Hn.
  specialize (Hset Hn). cbn [app]. rewrite value_open by done. rewrite value_S. cbv zeta.
  rewrite (proj2 (Nat.ltb_ge _ _) Hd), skip_ws_solid by (cbn; by rewrite Hc).
  assert (∀ x, (x < 45 ∨ 57 < x) → (c =? x) = false) as Hne.
  { intros x Hx. apply Z.eqb_neq. intros ->. apply orb_true_iff in Hn as [Hn|Hn].
    - apply Z.eqb_eq in Hn. lia.
    - apply is_ascii_digit_spec in Hn. lia. }
  rewrite !Hne by (vm_compute; intuition congruence). rewrite Hn.
  by apply (number_complete total (c :: t) r).
Qed.

(** The loops skip leading space themselves. *)
Lemma skip_ws_idem s : skip_ws (skip_ws s) = skip_ws s.
Proof. destruct (skip_ws_spec s) as (w & _ & _ & Hs). by apply skip_ws_solid. Qed.

Lemma value_skip f d s : value total planned f d (skip_ws s) = value total planned f d s.
Proof. destruct f as [|f]; [done|]. rewrite !value_S. cbv zeta. by rewrite skip_ws_idem. Qed.

Lemma array_loop_skip f d s :
  array_loop total planned f d (skip_ws s) = array_loop total planned f d s.
Proof.
  destruct f as [|f]; [done|]. rewrite !array_loop_S. cbv zeta.
  destruct (planned && (d =? 0)%nat); [by rewrite skip_ws_idem|]. cbn [andb].
  by rewrite value_skip.
Qed.

Lemma object_loop_skip f d s :
  object_loop total planned f d (skip_ws s) = object_loop total planned f d s.
Proof. destruct f as [|f]; [done|]. rewrite !object_loop_S. cbv zeta. by rewrite skip_ws_idem. Qed.

Lemma elems_head d es vs x :
  jelems planned d es vs → starts_byte 93 (skip_ws (es ++ x)) = false.
Proof.
  intros Hes. assert (∃ a v t, es = a ++ v ++ t ∧ ws a ∧ ∃ d', jvalue planned d' v)
    as (a & v & t & -> & Ha & d' & Hv).
  { destruct Hes as [d' a v b Ha _ _ Hv|d' a v b es' vs' Ha _ _ Hv _]; by eauto 10. }
  apply jvalue_head in Hv as (c & u & -> & Hc & Hne).
  rewrite <- !app_assoc. cbn [app]. rewrite skip_ws_app by (done || (cbn; by rewrite Hc)).
  by apply Z.eqb_neq.
Qed.

Lemma members_head d ms x :
  jmembers planned d ms → starts_byte 125 (skip_ws (ms ++ x)) = false.
Proof.
  intros Hms. assert (∃ a k t, ms = a ++ quoted k ++ t ∧ ws a) as (a & k & t & -> & Ha).
  { destruct Hms as [d' m [? a k b c v e ? ? ? ? ? ? ?|? a k b c v e ? ? ? ? ? ? ?]
                    |d' m ms' [? a k b c v e ? ? ? ? ? ? ?|? a k b c v e ? ? ? ? ? ? ?] _];
      eexists a, k, _; (split; [|eassumption]); rewrite <- ?app_assoc; reflexivity. }
  rewrite <- !app_assoc. unfold quoted. cbn [app]. by rewrite skip_ws_app.
Qed.

Lemma value_complete_array d body :
  (d ≤ MAX_DEPTH)%nat → ws body ∨ (∃ vs, elems_complete d body vs ∧ jelems planned d body vs) →
  value_complete d (91 :: body ++ [93]).
Proof.
  intros Hd Hb f w r Hw _ Hf. destruct f as [|f]; [lia|].
  cbn [app] in *. rewrite value_open by done. rewrite value_S. cbv zeta.
  rewrite (proj2 (Nat.ltb_ge _ _) Hd), skip_ws_solid by done.
  change (91 =? chr "[") with true. cbn match. rewrite <- app_assoc in *. cbn [app] in *.
  cbn [length] in Hf. change (chr "]") with 93.
  destruct Hb as [Hb|(vs & Hc & Hj)]; [by rewrite skip_ws_app|].
  rewrite (elems_head d body vs) by done. rewrite array_loop_skip. apply Hc. lia.
Qed.

Lemma value_complete_object d body :
  (d ≤ MAX_DEPTH)%nat → ws body ∨ (members_complete d body ∧ jmembers planned d body) →
  value_complete d (123 :: body ++ [125]).
Proof.
  intros Hd Hb f w r Hw _ Hf. destruct f as [|f]; [lia|].
  cbn [app] in *. rewrite value_open by done. rewrite value_S. cbv zeta.
  rewrite (proj2 (Nat.ltb_ge _ _) Hd), skip_ws_solid by done.
  change (123 =? chr "[") with false. change (123 =? chr "{") with true. cbn match.
  rewrite <- app_assoc in *. cbn [app] in *. cbn [length] in Hf. change (chr "}") with 125.
  destruct Hb as [Hb|(Hc & Hj)]; [by rewrite skip_ws_app|].
  rewrite (members_head d body) by done. rewrite object_loop_skip. apply Hc. lia.
Qed.

(** One entry and the space around it. *)
Lemma array_entry f d a v b c r :
  ws a → ws b → entry_ok planned d v → value_complete (d + 1) v →
  is_json_ws c = false → numeric c = false → (∃ d', jvalue planned d' v) →
  (2 * length (v ++ b ++ c :: r) + 1 ≤ f)%nat →
  array_loop total planned (S f) d (a ++ v ++ b ++ c :: r)
  = if c =? 44 then array_loop total planned f d r
    else if c =? 93 then Ok r else Err (ArrayExpected (pos_of total (c :: r)) c).
Proof.
  intros Ha Hb Hok Hv Hc Hn [d' Hj] Hf. rewrite <- array_loop_skip, array_loop_S. cbv zeta.
  apply jvalue_head in Hj as (e & t & -> & He & _).
  rewrite skip_ws_app by (done || (cbn; by rewrite He)).
  assert (skip_ws ((e :: t) ++ b ++ c :: r) = (e :: t) ++ b ++ c :: r) as Hsk
    by (apply skip_ws_solid; cbn; by rewrite He).
  assert ((if planned && (d =? 0)%nat then skip_ws ((e :: t) ++ b ++ c :: r)
           else (e :: t) ++ b ++ c :: r) = (e :: t) ++ b ++ c :: r) as -> by (by destruct (_ && _)).
  assert (planned && (d =? 0)%nat && negb (starts_byte (chr "{") ((e :: t) ++ b ++ c :: r))
          && negb (starts_byte 34 ((e :: t) ++ b ++ c :: r)) = false) as ->.
  { destruct (planned && (d =? 0)%nat) eqn:E; [|done]. cbn [andb].
    apply andb_true_iff in E as [Ep Ed%Nat.eqb_eq]. cbn [starts_byte app].
    destruct (Hok Ep Ed) as [H|H]; cbn [starts_byte] in H; rewrite H; [done|].
    by rewrite andb_false_r. }
  change ((e :: t) ++ b ++ c :: r) with ([] ++ (e :: t) ++ b ++ c :: r).
  rewrite (Hv f [] (b ++ c :: r)); [|done|by apply settled_ws|lia].
  rewrite skip_ws_app by (done || (cbn; by rewrite Hc)). done.
Qed.

(** One member and the space around it. *)
Lemma object_entry f d a k b x v e c r :
  ws a → jchars k → ws b → ws x → ws e →
  (if change_member planned d k then change_ok v
   else value_complete (d + 1) v ∧ ∃ d', jvalue planned d' v) →
  is_json_ws c = false → numeric c = false →
  (2 * length (v ++ e ++ c :: r) + 1 ≤ f)%nat →
  object_loop total planned (S f) d (a ++ quoted k ++ b ++ 58 :: x ++ v ++ e ++ c :: r)
  = if c =? 44 then object_loop total planned f d r
    else if c =? 125 then Ok r else Err (ObjectExpected (pos_of total (c :: r)) c).
Proof.
  intros Ha Hk Hb Hx He Hv Hc Hn Hf. rewrite object_loop_S. cbv zeta.
  rewrite (skip_ws_app a) by done. rewrite scan_string_complete by done.
  rewrite string_text_quoted. unfold expect. rewrite (skip_ws_app b) by done.
  change (58 =? chr ":") with true. cbn match. fold (change_member planned d k).
  destruct (change_member planned d k).
  - rewrite allowed_change_complete by done.
    rewrite skip_ws_app by (done || (cbn; by rewrite Hc)). done.
  - destruct Hv as [Hv [d' Hj]].
    rewrite (Hv f x (e ++ c :: r)); [|done|by apply settled_ws|lia].
    rewrite skip_ws_app by (done || (cbn; by rewrite Hc)). done.
Qed.

Lemma scan_complete :
  (∀ d v, jvalue planned d v → value_complete d v)
  ∧ (∀ d es vs, jelems planned d es vs → elems_complete d es vs)
  ∧ (∀ d ms, jmembers planned d ms → members_complete d ms)
  ∧ (∀ d m, jmember planned d m → member_complete d m).
Proof.
  apply json_ind.
  - by apply value_complete_string.
  - by apply value_complete_word.
  - by apply value_complete_number.
  - intros. apply value_complete_array; [done|by left].
  - intros d es vs Hd Hes IH. apply value_complete_array; [done|right]. by exists vs.
  - intros. apply value_complete_object; [done|by left].
  - intros d ms Hd Hms IH. apply value_complete_object; [done|right]. done.
  - intros d a v b Ha Hb Hok Hv IH f r Hf. rewrite <- !app_assoc in *. destruct f as [|f]; [lia|].
    rewrite array_entry; try done; [by eexists|]. rewrite length_app in Hf. lia.
  - intros d a v b es vs Ha Hb Hok Hv IH Hes IHes f r Hf.
    repeat (rewrite <- ?app_assoc in *; cbn [app] in * ). destruct f as [|f]; [lia|].
    rewrite !length_app in Hf. cbn [length] in Hf.
    rewrite array_entry; try done; [|by eexists|rewrite !length_app; cbn [length]; lia].
    apply IHes. lia.
  - intros d m Hm IH f r Hf. destruct f as [|f]; [lia|]. rewrite IH by (done || by right). done.
  - intros d m ms Hm IH Hms IHms f r Hf. rewrite <- app_assoc in *. cbn [app] in *.
    destruct f as [|f]; [lia|]. rewrite IH by (done || by left). cbn match.
    change (44 =? 44) with true. cbn match. apply IHms.
    rewrite length_app in Hf. cbn [length] in Hf. lia.
  - intros d a k b c v e Ha Hk Hb Hc He Hm Hv IH f s r Hf Hs.
    repeat (rewrite <- ?app_assoc in *; cbn [app] in * ).
    rewrite !length_app in Hf. cbn [length] in Hf. rewrite !length_app in Hf. cbn [length] in Hf.
    rewrite object_entry; try done; [by destruct Hs as [-> | ->]| |..].
    + rewrite Hm. split; [done|by eexists].
    + by destruct Hs as [-> | ->].
    + by destruct Hs as [-> | ->].
    + rewrite !length_app. cbn [length]. lia.
  - intros d a k b c v e Ha Hk Hb Hc He Hm Hv f s r Hf Hs.
    repeat (rewrite <- ?app_assoc in *; cbn [app] in * ).
    rewrite !length_app in Hf. cbn [length] in Hf. rewrite !length_app in Hf. cbn [length] in Hf.
    rewrite object_entry; try done; [by destruct Hs as [-> | ->]| |..].
    + by rewrite Hm.
    + by destruct Hs as [-> | ->].
    + by destruct Hs as [-> | ->].
    + rewrite !length_app. cbn [length]. lia.
Qed.

(** ** Enough fuel *)

Lemma string_body_fuel s : string_body total s ≠ Err OutOfFuel.
Proof.
  induction s as [s IH] using (well_founded_induction (well_founded_ltof _ (@length Z))).
  destruct s as [|c s]; [done|]. cbn [string_body].
  repeat (case_match; try done); apply IH; unfold ltof; simplify_eq; cbn; lia.
Qed.

Lemma scan_string_fuel s : scan_string total s ≠ Err OutOfFuel.
Proof.
  unfold scan_string, expect. destruct s as [|c s]; [done|]. case_if; [|done].
  apply string_body_fuel.
Qed.

Lemma literal_fuel word s : literal total word s ≠ Err OutOfFuel.
Proof. unfold literal. by case_match. Qed.

Lemma number_fuel s : number total s ≠ Err OutOfFuel.
Proof.
  unfold number, number_int, number_fraction, number_exponent.
  repeat (case_match; simplify_eq; try done).
Qed.

Lemma allowed_change_fuel s : allowed_change total s ≠ Err OutOfFuel.
Proof.
  unfold allowed_change. destruct (skip_ws s) as [|c t]; [done|].
  case_if; [apply literal_fuel|]. case_if; [|done].
  pose proof (scan_string_fuel (c :: t)). destruct (scan_string total _); [by case_if|congruence].
Qed.

Definition value_fuel (f : nat) : Prop := ∀ d s,
  (2 * length s + 1 ≤ f)%nat → value total planned f d s ≠ Err OutOfFuel.
Definition loops_fuel (f : nat) : Prop := ∀ d s,
  (2 * length s + 2 ≤ f)%nat →
  array_loop total planned f d s ≠ Err OutOfFuel ∧ object_loop total planned f d s ≠ Err OutOfFuel.

Lemma value_shorter f d s r : value total planned f d s = Ok r → (length r < length s)%nat.
Proof.
  intros H. apply (scan_sound f) in H as (w & v & -> & _ & _ & Hne & _).
  rewrite !length_app. destruct v; [done|cbn; lia].
Qed.

Lemma scan_fuel_enough f : value_fuel f ∧ loops_fuel f.
Proof.
  induction f as [|f [IHv IHl]]; [split; intros d s Hf; lia|]. split; intros d s Hf.
  - rewrite value_S. cbv zeta. case_if; [done|].
    pose proof (skip_ws_length s). destruct (skip_ws s) as [|c t]; [done|]. cbn [length] in *.
    pose proof (skip_ws_length t).
    case_if; [case_if; [done|apply IHl; lia]|]. case_if; [case_if; [done|apply IHl; lia]|].
    case_if; [apply scan_string_fuel|]. do 3 (case_if; [apply literal_fuel|]).
    case_if; [apply number_fuel|done].
  - split.
    + rewrite <- array_loop_skip, array_loop_S. cbv zeta. pose proof (skip_ws_length s).
      rewrite skip_ws_idem.
      assert ((if planned && (d =? 0)%nat then skip_ws s else skip_ws s) = skip_ws s) as ->
        by (by case_if).
      case_if; [done|]. pose proof (IHv (d + 1)%nat (skip_ws s) ltac:(lia)) as Hv.
      destruct (value total planned f (d + 1) (skip_ws s)) as [r|] eqn:E; [|congruence].
      apply value_shorter in E. pose proof (skip_ws_length r).
      destruct (skip_ws r) as [|c t]; [done|]. cbn [length] in *.
      case_if; [apply IHl; lia|]. by case_if.
    + rewrite object_loop_S. cbv zeta. pose proof (skip_ws_length s).
      pose proof (scan_string_fuel (skip_ws s)).
      destruct (scan_string total (skip_ws s)) as [after|] eqn:Es; [|congruence].
      apply scan_string_sound in Es as (k & Ek & _).
      assert (length after < length (skip_ws s))%nat
        by (rewrite Ek; unfold quoted; cbn [app length]; rewrite !length_app; lia).
      pose proof (skip_ws_length after). unfold expect.
      destruct (skip_ws after) as [|c t]; [done|]. case_if; [|done]. cbn [length] in *.
      destruct (if _ : bool then _ else _) as [r|e] eqn:Ev.
      2:{ case_if_in Ev; [pose proof (allowed_change_fuel t)|pose proof (IHv (d + 1)%nat t ltac:(lia))];
          congruence. }
      assert (length r < length t)%nat.
      { case_if_in Ev; [|by apply value_shorter in Ev].
        apply allowed_change_sound in Ev as (w & v & -> & _ & Hv). rewrite !length_app.
        destruct Hv as [-> |(b & -> & _)]; [change (length (lit "null")) with 4%nat|unfold quoted; cbn [length]]; lia. }
      pose proof (skip_ws_length r). destruct (skip_ws r) as [|c' t']; [done|]. cbn [length] in *.
      case_if; [apply IHl; lia|]. by case_if.
Qed.

End Scanner.

End JsonScan.
