(* ===== verification/JsonProps.v ===== *)
(** * What the JSON checks promise *)

From S2P Require Import Prelude RustStr RustStrFacts Json JsonFacts JsonScan.
Import Json JsonGrammar JsonFacts JsonScan.

#[local] Open Scope Z_scope.

Module JsonProps.

(** ** One scan over a whole text *)

Lemma starts_byte_app open v r : starts_byte open v = true → starts_byte open (v ++ r) = true.
Proof. by destruct v. Qed.

Lemma document_head planned open text :
  document planned open text → starts_byte open (skip_ws text) = true.
Proof.
  intros (a & v & b & -> & Ha & _ & Hv & Ho). apply jvalue_head in Hv as (c & t & -> & Hc & _).
  rewrite skip_ws_app by (done || (cbn; by rewrite Hc)). done.
Qed.

Lemma document_skip planned open text :
  document planned open text → document planned open (skip_ws text).
Proof.
  intros (a & v & b & -> & Ha & Hb & Hv & Ho). exists [], v, b. split_and!; try done.
  apply jvalue_head in Hv as (c & t & -> & Hc & _).
  rewrite skip_ws_app by (done || (cbn; by rewrite Hc)). done.
Qed.

Lemma document_scans planned open total f text :
  document planned open text → (2 * length text + 1 ≤ f)%nat →
  ∃ b, value total planned f 0 text = Ok b ∧ ws b.
Proof.
  intros (a & v & b & -> & Ha & Hb & Hv & Ho) Hf. exists b. split; [|done].
  apply (proj1 (scan_complete total planned) 0%nat v Hv f a b); [done| |].
  - destruct v as [|c v]; [done|]. intros _. destruct b as [|e b]; [done|].
    apply (stops_after_ws (e :: b) []) in Hb; [|done..]. by rewrite app_nil_r in Hb.
  - rewrite !length_app in *. lia.
Qed.

Lemma check_scan_unfold text open planned :
  check_scan text open planned =
  let all := utf8_encode text in
  let rest := skip_ws all in
  match rest with
  | [] => Err IsEmpty
  | c :: _ =>
      if negb (c =? open) then Err (StartsWith c open)
      else
        let? after := value (length all) planned (scan_fuel rest) 0 rest in
        let after := skip_ws after in
        if bool_decide (after = []) then Ok tt
        else Err (Trailing (pos_of (length all) after) (length after))
  end.
Proof. reflexivity. Qed.

Lemma skip_ws_nil s : skip_ws s = [] ↔ ws s.
Proof.
  split.
  - intros H. destruct (skip_ws_spec s) as (w & Hs & Hw & _). by rewrite Hs, H, app_nil_r.
  - intros Hs. rewrite <- (app_nil_r s). by apply skip_ws_app.
Qed.

(** C28. The JSON check accepts a text exactly when it is one value of the JSON grammar, nested
    at most 32 deep and opening with the byte asked for, with only space around it. *)
Theorem check_scan_iff_document text open planned :
  check_scan text open planned = Ok tt ↔ document planned open (utf8_encode text).
Proof.
  rewrite check_scan_unfold. cbv zeta. set (all := utf8_encode text).
  destruct (skip_ws_spec all) as (w & Hall & Hw & Hsol). split.
  - destruct (skip_ws all) as [|c t]; [done|].
    destruct (Z.eqb_spec c open) as [->|]; [|done]. cbn [negb].
    destruct (value _ _ _ _ _) as [b|] eqn:Ev; [|done]. case_bool_decide as Hb; [|done].
    intros _. apply (scan_sound _ _ _) in Ev as (w' & v & Ev & Hw' & Hs & Hne & Hv).
    apply skip_ws_nil in Hb. exists (w ++ w'), v, b.
    split_and!; [by rewrite Hall, Ev, <- app_assoc|by apply ws_app|done..|].
    destruct w' as [|e w'].
    + destruct v as [|e v]; [done|]. injection Ev as <- _. cbn. apply Z.eqb_refl.
    + injection Ev as <- _. cbn in Hsol. unfold ws in Hw'. cbn in Hw'.
      by apply andb_true_iff in Hw' as [Hw' _]; rewrite Hw' in Hsol.
  - intros Hd. pose proof (document_head _ _ _ Hd) as Ho.
    destruct (document_scans _ _ (length all) (scan_fuel (skip_ws all)) _ (document_skip _ _ _ Hd)
      ltac:(done)) as (b & Ev & Hb).
    destruct (skip_ws all) as [|c t]; [done|]. cbn [starts_byte] in Ho. rewrite Ho. cbn [negb].
    rewrite Ev. rewrite (proj2 (skip_ws_nil b) Hb). done.
Qed.

(** The scan always finishes: no text makes it run out of fuel, whatever it holds. *)
Theorem check_scan_terminates text open planned :
  check_scan text open planned ≠ Err OutOfFuel.
Proof.
  rewrite check_scan_unfold. cbv zeta. destruct (skip_ws (utf8_encode text)) as [|c t]; [done|].
  case_if; [done|].
  pose proof (proj1 (scan_fuel_enough (length (utf8_encode text)) planned _) 0%nat (c :: t)
    (le_n _)) as Hv. fold (scan_fuel (c :: t)) in Hv.
  destruct (value _ _ _ _ _) as [b|e]; [by case_if|congruence].
Qed.

(** ** Arrays *)

Lemma jvalue_open_array v :
  jvalue false 0 v → starts_byte 91 v = true →
  ∃ body vs, v = 91 :: body ++ [93] ∧ ((ws body ∧ vs = []) ∨ jelems false 0 body vs).
Proof.
  intros Hv Ho. inversion Hv as [d s _ [k _] E|d s _ Hw E|d s _ Hn E|d w _ Hw E|d es vs _ Hes E
                                |d w _ _ E|d ms _ _ E]; subst; try discriminate Ho.
  - unfold words in Hw. rewrite !elem_of_cons, elem_of_nil in Hw.
    by destruct Hw as [-> |[-> |[-> |[]]]].
  - apply starts_byte_true in Ho as [r ->]. by apply jnumber_head in Hn.
  - exists w, []. split; [done|by left].
  - exists es, vs. split; [done|by right].
Qed.

Lemma document_array_of text : document false 91 text ↔ ∃ vs, array_of text vs.
Proof.
  split.
  - intros (a & v & b & -> & Ha & Hb & Hv & Ho).
    destruct (jvalue_open_array v Hv Ho) as (body & vs & -> & Hvs). exists vs, a, body, b. done.
  - intros (vs & a & body & b & -> & Ha & Hb & Hvs). exists a, (91 :: body ++ [93]), b.
    split_and!; try done. destruct Hvs as [[Hw _]|Hes].
    + apply jv_array_empty; [unfold MAX_DEPTH; lia|done].
    + apply (jv_array _ _ _ vs); [unfold MAX_DEPTH; lia|done].
Qed.

Lemma check_array_iff text : check_array text = Ok tt ↔ ∃ vs, array_of (utf8_encode text) vs.
Proof. rewrite <- document_array_of. apply check_scan_iff_document. Qed.

(** ** A checked text inside another *)

Lemma array_of_document text vs : array_of text vs → document false 91 text.
Proof. intros H. apply document_array_of. by exists vs. Qed.

(** The two readings of one text stop at the same place. *)
Lemma array_prefix_space b s xs ys : array_of b xs → array_of (b ++ s) ys → ws s.
Proof.
  intros Hb Hs. apply array_of_document in Hs. destruct Hb as (a & body & e & -> & Ha & He & Hes).
  set (v := 91 :: body ++ [93]) in *.
  assert (jvalue false 0 v) as Hv.
  { destruct Hes as [[Hw _]|Hes]; [apply jv_array_empty; [unfold MAX_DEPTH; lia|done]|].
    apply (jv_array _ _ _ xs); [unfold MAX_DEPTH; lia|done]. }
  set (text := (a ++ v ++ e) ++ s) in *.
  destruct (document_scans _ _ 0 (scan_fuel text) text Hs (le_n _)) as (r & Hr & Hwr).
  assert (text = a ++ v ++ (e ++ s)) as E by (unfold text; by rewrite <- !app_assoc).
  rewrite E in Hr at 2.
  rewrite (proj1 (scan_complete 0 false) 0%nat v Hv _ a (e ++ s)) in Hr; [|done|done|].
  - injection Hr as <-. unfold ws in *. rewrite all_chars_app in Hwr.
    by apply andb_true_iff in Hwr as [_ ?].
  - rewrite E. unfold scan_fuel. rewrite !length_app. lia.
Qed.

(** Text written into a larger document cannot close its own array and go on: when a
    checked array is followed by anything and the whole still checks, what follows is only
    space. *)
Theorem checked_array_is_self_contained a s :
  check_array a = Ok tt → check_array (a ++ s) = Ok tt → all_chars is_json_ws (utf8_encode s) = true.
Proof.
  rewrite !check_array_iff, utf8_encode_app. intros [xs Ha] [ys Hs].
  exact (array_prefix_space _ _ _ _ Ha Hs).
Qed.

Lemma checked_array_is_self_contained_witness :
  all_chars is_json_ws (utf8_encode (lit " ")) = true.
Proof.
  apply (checked_array_is_self_contained (lit "[1, {}]") (lit " ")); vm_compute; reflexivity.
Defined.

(** ** Planned files *)

Lemma planned_is_plain :
  (∀ d v, jvalue true d v → jvalue false d v)
  ∧ (∀ d es vs, jelems true d es vs → jelems false d es vs)
  ∧ (∀ d ms, jmembers true d ms → jmembers false d ms)
  ∧ (∀ d m, jmember true d m → jmember false d m).
Proof.
  apply json_ind; try by econstructor.
  intros d a k b c v e Ha Hk Hb Hc He Hm Hv. apply jm_plain; try done.
  unfold change_member in Hm. rewrite !andb_true_iff in Hm. destruct Hm as [[_ Hd%Nat.eqb_eq] _].
  assert (d + 1 ≤ MAX_DEPTH)%nat by (unfold MAX_DEPTH; lia).
  destruct Hv as [-> |(body & -> & Hbody & _)]; [apply jv_word|apply jv_string]; try done.
  unfold words. set_solver.
Qed.

Lemma planned_entries es vs :
  jelems true 0 es vs → Forall (λ v, starts_byte (chr "{") v = true ∨ starts_byte 34 v = true) vs.
Proof.
  remember 0%nat as d eqn:Hd. remember true as p eqn:Hp.
  induction 1 as [d a v b _ _ Hok _|d a v b es vs _ _ Hok _ _ IH]; subst.
  - constructor; [by apply Hok|done].
  - constructor; [by apply Hok|by apply IH].
Qed.

(** A planned-files text that checks is a JSON array, and each of its entries opens as an
    object or as a path string. *)
Theorem planned_files_are_objects_or_paths text :
  check_planned_files text = Ok tt →
  check_array text = Ok tt
  ∧ ∃ vs, array_of (utf8_encode text) vs
      ∧ Forall (λ v, starts_byte (chr "{") v = true ∨ starts_byte 34 v = true) vs.
Proof.
  intros (a & v & b & Ht & Ha & Hb & Hv & Ho)%check_scan_iff_document.
  assert (∃ vs, array_of (utf8_encode text) vs
      ∧ Forall (λ v, starts_byte (chr "{") v = true ∨ starts_byte 34 v = true) vs) as H.
  { inversion Hv as [d s _ [k _] E|d s _ Hw E|d s _ Hn E|d w _ Hw E|d es vs _ Hes E
                    |d w _ _ E|d ms _ _ E]; subst; try discriminate Ho.
    - unfold words in Hw. rewrite !elem_of_cons, elem_of_nil in Hw.
      by destruct Hw as [-> |[-> |[-> |[]]]].
    - apply starts_byte_true in Ho as [r ->]. by apply jnumber_head in Hn.
    - exists []. split; [|done]. exists a, w, b. split_and!; try done. by left.
    - exists vs. split; [|by eapply planned_entries]. exists a, es, b. split_and!; try done.
      right. by apply planned_is_plain. }
  split; [|done]. apply check_array_iff. destruct H as (vs & H & _). by exists vs.
Qed.

Lemma planned_files_are_objects_or_paths_witness :
  check_array (lit "[{}, []]") = Ok tt ∧
  check_array (lit "[{}]") = Ok tt.
Proof.
  split; [vm_compute; reflexivity|].
  apply (planned_files_are_objects_or_paths (lit "[{}]")). vm_compute. reflexivity.
Defined.

End JsonProps.

(** * Joining two arrays as text *)

Import Json JsonGrammar JsonFacts JsonScan JsonProps.

#[local] Open Scope Z_scope.

Ltac Zify.zify_post_hook ::= Z.to_euclidean_division_equations.

Module JsonMerge.

(** ** From characters to bytes

    The delimiters are ASCII, so the merge does to the bytes what it does to the
    characters. *)

Lemma utf8_encode_char_cases c :
  (c < 128 ∧ utf8_encode_char c = [c])
  ∨ (∃ b bs, utf8_encode_char c = b :: bs ∧ 128 ≤ b)
    ∧ ∃ b bs, utf8_encode_char c = bs ++ [b] ∧ 128 ≤ b.
Proof.
  unfold utf8_encode_char. destruct (Z.ltb_spec c 128); [by left|right].
  case_if; [|case_if]; (split; [by eexists _, _; split; [reflexivity|lia]|]).
  - eexists _, [_]. split; [reflexivity|lia].
  - eexists _, [_; _]. split; [reflexivity|lia].
  - eexists _, [_; _; _]. split; [reflexivity|lia].
Qed.

Lemma is_json_ws_high b : 128 ≤ b → is_json_ws b = false.
Proof. intros H. unfold is_json_ws. rewrite !orb_false_iff, !Z.eqb_neq. lia. Qed.

Lemma encode_cons c s : utf8_encode (c :: s) = utf8_encode_char c ++ utf8_encode s.
Proof. reflexivity. Qed.

Lemma encode_snoc s c : utf8_encode (s ++ [c]) = utf8_encode s ++ utf8_encode_char c.
Proof. rewrite utf8_encode_app. cbn. by rewrite app_nil_r. Qed.

Lemma encode_trim_start s :
  utf8_encode (trim_start_by is_json_ws s) = trim_start_by is_json_ws (utf8_encode s).
Proof.
  unfold trim_start_by. induction s as [|c s IH]; [done|]. rewrite encode_cons. cbn [drop_while].
  destruct (utf8_encode_char_cases c) as [[Hc E]|[(b & bs & E & Hb) _]].
  - rewrite E. cbn [app drop_while]. case_if; [done|]. by rewrite encode_cons, E.
  - rewrite E. cbn [app drop_while]. rewrite (is_json_ws_high b Hb).
    destruct (is_json_ws c) eqn:Hc; [|by rewrite encode_cons, E].
    assert (c < 128) as Hlt.
    { unfold is_json_ws in Hc. rewrite !orb_true_iff, !Z.eqb_eq in Hc. lia. }
    unfold utf8_encode_char in E. rewrite (proj2 (Z.ltb_lt _ _) Hlt) in E. simplify_eq; lia.
Qed.

Lemma trim_end_snoc p s c :
  trim_end_by p (s ++ [c]) = if p c then trim_end_by p s else s ++ [c].
Proof.
  destruct (p c) eqn:E; [|by apply trim_end_by_none].
  unfold trim_end_by. rewrite rev_app_distr. cbn [rev app drop_while]. by rewrite E.
Qed.

Lemma encode_trim_end s :
  utf8_encode (trim_end_by is_json_ws s) = trim_end_by is_json_ws (utf8_encode s).
Proof.
  induction s as [|c s IH] using rev_ind; [done|]. rewrite encode_snoc, trim_end_snoc.
  destruct (utf8_encode_char_cases c) as [[Hc E]|[_ (b & bs & E & Hb)]]; rewrite E.
  - rewrite trim_end_snoc. case_if; [done|]. by rewrite encode_snoc, E.
  - rewrite app_assoc, trim_end_snoc, (is_json_ws_high b Hb).
    destruct (is_json_ws c) eqn:Hc; [|by rewrite encode_snoc, E, app_assoc].
    assert (c < 128) as Hlt.
    { unfold is_json_ws in Hc. rewrite !orb_true_iff, !Z.eqb_eq in Hc. lia. }
    unfold utf8_encode_char in E. rewrite (proj2 (Z.ltb_lt _ _) Hlt) in E.
    destruct bs as [|? [|]]; cbn [app] in E; simplify_eq; lia.
Qed.

Lemma encode_trim s : utf8_encode (trim_by is_json_ws s) = trim_by is_json_ws (utf8_encode s).
Proof. unfold trim_by. by rewrite encode_trim_end, encode_trim_start. Qed.

Lemma encode_strip_prefix d s :
  d < 128 → strip_prefix [d] (utf8_encode s) = utf8_encode <$> strip_prefix [d] s.
Proof.
  intros Hd. destruct s as [|c s]; [done|]. rewrite encode_cons. cbn [strip_prefix].
  destruct (utf8_encode_char_cases c) as [[Hc E]|[(b & bs & E & Hb) _]]; rewrite E.
  - cbn [app]. by destruct (d =? c).
  - cbn [app strip_prefix]. destruct (Z.eqb_spec d b); [lia|].
    destruct (Z.eqb_spec d c) as [->|]; [|done].
    unfold utf8_encode_char in E. rewrite (proj2 (Z.ltb_lt _ _) Hd) in E. simplify_eq; lia.
Qed.

Lemma strip_suffix_snoc d s c :
  strip_suffix [d] (s ++ [c]) = if d =? c then Some s else None.
Proof.
  unfold strip_suffix. rewrite rev_app_distr. cbn [rev app strip_prefix].
  destruct (d =? c); [|done]. by rewrite rev_involutive.
Qed.

Lemma encode_strip_suffix d s :
  d < 128 → strip_suffix [d] (utf8_encode s) = utf8_encode <$> strip_suffix [d] s.
Proof.
  intros Hd. induction s as [|c s _] using rev_ind; [done|].
  rewrite encode_snoc, strip_suffix_snoc.
  destruct (utf8_encode_char_cases c) as [[Hc E]|[_ (b & bs & E & Hb)]]; rewrite E.
  - rewrite strip_suffix_snoc. by destruct (d =? c).
  - rewrite app_assoc, strip_suffix_snoc. destruct (Z.eqb_spec d b); [lia|].
    destruct (Z.eqb_spec d c) as [->|]; [|done].
    unfold utf8_encode_char in E. rewrite (proj2 (Z.ltb_lt _ _) Hd) in E.
    destruct bs as [|? [|]]; cbn [app] in E; simplify_eq; lia.
Qed.

Lemma encode_nil s : utf8_encode s = [] ↔ s = [].
Proof.
  split; [|by intros ->]. destruct s as [|c s]; [done|]. rewrite encode_cons.
  by destruct (utf8_encode_char_cases c) as [[_ ->]|[(? & ? & -> & _) _]].
Qed.

Lemma encode_inner s : utf8_encode (inner s) = inner (utf8_encode s).
Proof.
  unfold inner. rewrite encode_trim, encode_strip_prefix by lia. f_equal.
  destruct (strip_prefix [91] s) as [s1|]; [|done]. cbn.
  rewrite encode_strip_suffix by lia. by destruct (strip_suffix [93] s1).
Qed.

Lemma encode_merge a b :
  utf8_encode (merge_json_arrays a b) = merge_json_arrays (utf8_encode a) (utf8_encode b).
Proof.
  unfold merge_json_arrays, trim_ws. cbv zeta. rewrite <- !encode_trim, <- !encode_inner.
  destruct (inner (trim_by is_json_ws a)) as [|c ai] eqn:Ea,
           (inner (trim_by is_json_ws b)) as [|d bi] eqn:Eb; try done.
  all: rewrite ?utf8_encode_app; change (utf8_encode []) with (@nil Z);
    repeat match goal with
    | |- context [match utf8_encode (?e :: ?t) with _ => _ end] =>
        let H := fresh in
        assert (utf8_encode (e :: t) ≠ []) as H by (by rewrite encode_nil);
        destruct (utf8_encode (e :: t)); [done|clear H]
    end; done.
Qed.

(** ** The entries, trimmed *)

Lemma trim_start_ws w s : ws w → trim_start_by is_json_ws (w ++ s) = trim_start_by is_json_ws s.
Proof.
  unfold ws, trim_start_by. induction w as [|c w IH]; [done|]. cbn [forallb app drop_while].
  intros [-> Hw]%andb_true_iff. by apply IH.
Qed.

Lemma trim_end_ws s w : ws w → trim_end_by is_json_ws (s ++ w) = trim_end_by is_json_ws s.
Proof.
  unfold ws. induction w as [|c w IH] using rev_ind; [by rewrite app_nil_r|].
  rewrite all_chars_app. intros [Hw Hc]%andb_true_iff. cbn in Hc. apply andb_true_iff in Hc as [Hc _].
  rewrite app_assoc, trim_end_snoc, Hc. by apply IH.
Qed.

Lemma trim_by_ws w : ws w → trim_by is_json_ws w = [].
Proof.
  intros Hw. unfold trim_by. rewrite <- (app_nil_r w), trim_start_ws by done. done.
Qed.

(** Nothing to trim: both ends are solid. *)
Definition tight (v : bytes) : Prop :=
  (∃ c t, v = c :: t ∧ is_json_ws c = false) ∧ ∃ t c, v = t ++ [c] ∧ is_json_ws c = false.

Lemma tight_trim_start v r : tight v → trim_start_by is_json_ws (v ++ r) = v ++ r.
Proof. intros [(c & t & -> & Hc) _]. unfold trim_start_by. cbn. by rewrite Hc. Qed.

Lemma tight_trim_end s v : tight v → trim_end_by is_json_ws (s ++ v) = s ++ v.
Proof. intros [_ (t & c & -> & Hc)]. by rewrite app_assoc, trim_end_snoc, Hc. Qed.

Lemma digit_not_ws c : is_ascii_digit c = true → is_json_ws c = false.
Proof.
  intros H%is_ascii_digit_spec. unfold is_json_ws. rewrite !orb_false_iff, !Z.eqb_neq. lia.
Qed.

(** A text of digits that is not empty ends in one. *)
Lemma digits_last s :
  s ≠ [] → all_chars is_ascii_digit s = true → ∃ t c, s = t ++ [c] ∧ is_json_ws c = false.
Proof.
  intros Hne Hs. destruct s as [|c t _] using rev_ind; [done|]. exists t, c. split; [done|].
  rewrite all_chars_app in Hs. apply andb_true_iff in Hs as [_ Hc]. cbn in Hc.
  apply andb_true_iff in Hc as [Hc _]. by apply digit_not_ws.
Qed.

Lemma last_app (a b : bytes) :
  (∃ t c, b = t ++ [c] ∧ is_json_ws c = false) → ∃ t c, a ++ b = t ++ [c] ∧ is_json_ws c = false.
Proof. intros (t & c & -> & Hc). exists (a ++ t), c. by rewrite <- app_assoc. Qed.

Lemma jnumber_last v : jnumber v → ∃ t c, v = t ++ [c] ∧ is_json_ws c = false.
Proof.
  intros [a b c d _ Hb Hc Hd]. apply last_app.
  destruct Hd as [|e s _ [Hne Hs]|e g s _ _ [Hne Hs]].
  - rewrite app_nil_r. destruct Hc as [|s [Hne Hs]].
    + rewrite app_nil_r. destruct Hb as [|e s He _ Hs]; [by exists [], 48|].
      apply digits_last; [done|]. cbn. by rewrite He, Hs.
    + apply last_app, (last_app [46]). by apply digits_last.
  - apply last_app, last_app, (last_app [e]). by apply digits_last.
  - apply last_app, last_app, (last_app [e; g]). by apply digits_last.
Qed.

Lemma jvalue_tight d v : jvalue false d v → tight v.
Proof.
  intros Hv. split; [apply jvalue_head in Hv as (c & t & -> & Hc & _); by exists c, t|].
  destruct Hv as [d s _ [b _]|d s _ Hw|d s _ Hn|d w _ _|d es vs _ _|d w _ _|d ms _ _].
  - by exists (34 :: b), 34.
  - unfold words in Hw. rewrite !elem_of_cons, elem_of_nil in Hw.
    destruct Hw as [-> |[-> |[-> |[]]]];
      [exists (lit "tru"), 101|exists (lit "fals"), 101|exists (lit "nul"), 108]; done.
  - by apply jnumber_last.
  - by exists (91 :: w), 93.
  - by exists (91 :: es), 93.
  - by exists (123 :: w), 125.
  - by exists (123 :: ms), 125.
Qed.

Lemma jelems_trim_start d es vs :
  jelems false d es vs →
  jelems false d (trim_start_by is_json_ws es) vs ∧ trim_start_by is_json_ws es ≠ [].
Proof.
  intros [d' a v b Ha Hb Hok Hv|d' a v b es' vs' Ha Hb Hok Hv Hes];
    pose proof (jvalue_tight _ _ Hv) as Ht;
    rewrite trim_start_ws, tight_trim_start by done;
    (split; [|by destruct Ht as [(c & t & -> & _) _]]).
  - by apply (je_one _ _ []).
  - by apply (je_cons _ _ []).
Qed.

Lemma jelems_trim_end d es vs :
  jelems false d es vs → jelems false d (trim_end_by is_json_ws es) vs
    ∧ ∃ s v, trim_end_by is_json_ws es = s ++ v ∧ tight v.
Proof.
  induction 1 as [d a v b Ha Hb Hok Hv|d a v b es vs Ha Hb Hok Hv Hes [IH (s & u & E & Hu)]].
  - pose proof (jvalue_tight _ _ Hv) as Ht.
    rewrite app_assoc, trim_end_ws, tight_trim_end by done. split; [|by exists a, v].
    pose proof (je_one false d a v [] Ha eq_refl Hok Hv) as H. by rewrite app_nil_r in H.
  - assert (trim_end_by is_json_ws (a ++ v ++ b ++ 44 :: es)
            = a ++ v ++ b ++ 44 :: trim_end_by is_json_ws es) as ->.
    { assert (∃ w, es = trim_end_by is_json_ws es ++ w ∧ ws w) as (w & Ew & Hw).
      { clear. induction es as [|c es (w & E & Hw)] using rev_ind; [by exists []|].
        rewrite trim_end_snoc. destruct (is_json_ws c) eqn:Hc; [|exists []; by rewrite app_nil_r].
        exists (w ++ [c]). rewrite app_assoc, <- E. split; [done|].
        apply ws_app; [done|]. unfold ws. cbn. by rewrite Hc. }
      rewrite Ew at 1. rewrite E.
      replace (a ++ v ++ b ++ 44 :: (s ++ u) ++ w) with ((a ++ v ++ b ++ 44 :: s) ++ u ++ w)
        by (by repeat (rewrite <- ?app_assoc; cbn [app])).
      rewrite app_assoc, trim_end_ws, tight_trim_end by done.
      by repeat (rewrite <- ?app_assoc; cbn [app]). }
    split; [by apply je_cons|]. exists (a ++ v ++ b ++ 44 :: s), u. rewrite E.
    split; [by repeat (rewrite <- ?app_assoc; cbn [app])|done].
Qed.

Lemma jelems_app d es vs fs us :
  jelems false d es vs → jelems false d fs us → jelems false d (es ++ 44 :: fs) (vs ++ us).
Proof.
  intros Hes Hfs. induction Hes as [d a v b Ha Hb Hok Hv|d a v b es vs Ha Hb Hok Hv Hes IH].
  - rewrite <- !app_assoc. by apply je_cons.
  - repeat (rewrite <- ?app_assoc; cbn [app]). apply je_cons; [done..|]. by apply IH.
Qed.

(** What [inner] leaves of an array: nothing, or its entries. *)
Lemma array_of_inner text vs :
  array_of text vs →
  array_of (trim_by is_json_ws text) vs
  ∧ ((inner (trim_by is_json_ws text) = [] ∧ vs = [])
     ∨ (inner (trim_by is_json_ws text) ≠ []
        ∧ jelems false 0 (inner (trim_by is_json_ws text)) vs)).
Proof.
  intros (a & body & b & -> & Ha & Hb & Hes).
  assert (tight (91 :: body ++ [93])) as Ht
    by (split; [by exists 91, (body ++ [93])|by exists (91 :: body), 93]).
  assert (trim_by is_json_ws (a ++ (91 :: body ++ [93]) ++ b) = 91 :: body ++ [93]) as ->.
  { unfold trim_by. rewrite trim_start_ws, tight_trim_start, trim_end_ws by done.
    by apply (tight_trim_end []). }
  split.
  { exists [], body, []. by rewrite app_nil_r. }
  assert (inner (91 :: body ++ [93]) = trim_by is_json_ws body) as ->.
  { unfold inner. cbn [strip_prefix]. rewrite Z.eqb_refl. cbn [mbind option_bind].
    by rewrite strip_suffix_app. }
  destruct Hes as [[Hw ->]|Hes]; [left; split; [by apply trim_by_ws|done]|right].
  unfold trim_by. apply jelems_trim_start in Hes as [Hes _].
  apply jelems_trim_end in Hes as [Hes (s & v & E & Hv)]. split; [|done].
  rewrite E. destruct Hv as [(c & t & -> & _) _]. by destruct s.
Qed.

Lemma merge_bytes a b xs ys :
  array_of a xs → array_of b ys → array_of (merge_json_arrays a b) (xs ++ ys).
Proof.
  intros Ha Hb. apply array_of_inner in Ha as [Ha Hai], Hb as [Hb Hbi].
  unfold merge_json_arrays, trim_ws. cbv zeta.
  destruct Hai as [[-> ->]|[Hne Hes]], Hbi as [[-> ->]|[Hne' Hfs]].
  - exists [], [], []. split_and!; try done. by left.
  - by destruct (inner (trim_by is_json_ws b)).
  - rewrite app_nil_r. by destruct (inner (trim_by is_json_ws a)).
  - destruct (inner (trim_by is_json_ws a)) as [|c ai]; [done|].
    destruct (inner (trim_by is_json_ws b)) as [|d bi]; [done|].
    exists [], ((c :: ai) ++ 44 :: d :: bi), []. split_and!; try done.
    + rewrite app_nil_r. change (lit "[") with [91]. change (lit ",") with [44].
      change (lit "]") with [93]. cbn [app]. by repeat (rewrite <- ?app_assoc; cbn [app]).
    + right. by apply jelems_app.
Qed.

Lemma merge_arrays a b xs ys :
  array_of (utf8_encode a) xs → array_of (utf8_encode b) ys →
  array_of (utf8_encode (merge_json_arrays a b)) (xs ++ ys).
Proof. intros Ha Hb. rewrite encode_merge. by apply merge_bytes. Qed.

(** Merging two checked arrays as text gives one checked array, holding the first one's
    entries and then the second's, each byte for byte. *)
Theorem merge_concatenates a b xs ys :
  array_of (utf8_encode a) xs → array_of (utf8_encode b) ys →
  array_of (utf8_encode (merge_json_arrays a b)) (xs ++ ys)
  ∧ check_array (merge_json_arrays a b) = Ok tt.
Proof.
  intros Ha Hb. split; [by apply merge_arrays|]. apply check_array_iff.
  exists (xs ++ ys). by apply merge_arrays.
Qed.

Lemma merge_concatenates_witness :
  merge_json_arrays (lit " [ 1 ]") (lit "[ [] ] ") = lit "[1,[]]"
  ∧ check_array (merge_json_arrays (lit " [ 1 ]") (lit "[ [] ] ")) = Ok tt.
Proof.
  split; [vm_compute; reflexivity|].
  apply (merge_concatenates _ _ [lit "1"] [lit "[]"]).
  - exists [32], [32; 49; 32], []. split_and!; try done. right.
    apply (je_one false 0 [32] [49] [32]); try done.
    apply jv_number; [unfold MAX_DEPTH; lia|].
    apply (jn_intro [] [49] [] []); constructor; done.
  - exists [], [32; 91; 93; 32], [32]. split_and!; try done. right.
    apply (je_one false 0 [32] [91; 93] [32]); try done.
    apply (jv_array_empty false 1 []); [unfold MAX_DEPTH; lia|done].
Defined.

End JsonMerge.
