(* ===== verification/Tables.v ===== *)
(** * Tables with a primary key

    A table is the list of its rows in insertion order. The statements on a key that the
    store sends are here once, with what each does to the row under every key. *)

From S2P Require Import Prelude.

Module Tables.

Section Keyed.
Context {R K : Type} `{EqDecision K} (key : R → K).

Definition under (k : K) (r : R) : bool := bool_decide (key r = k).

(** [SELECT … WHERE key = ?]. *)
Definition find_row (k : K) (rows : list R) : option R := head (List.filter (under k) rows).

Definition keyed (rows : list R) : Prop := NoDup (map key rows).

(** [INSERT … ON CONFLICT(key) DO UPDATE SET …]. *)
Definition upsert (k : K) (new : R) (update : R → R) (rows : list R) : list R :=
  if existsb (under k) rows
  then map (λ r, if under k r then update r else r) rows
  else rows ++ [new].

Lemma under_true k r : under k r = true ↔ key r = k.
Proof. unfold under. by rewrite bool_decide_eq_true. Qed.

Lemma under_key k r : under k r = true → key r = k.
Proof. apply under_true. Qed.

Lemma under_false k r : under k r = false ↔ key r ≠ k.
Proof. unfold under. by rewrite bool_decide_eq_false. Qed.

Lemma find_row_cons k r rows :
  find_row k (r :: rows) = if under k r then Some r else find_row k rows.
Proof. unfold find_row. cbn [List.filter]. by destruct (under k r). Qed.

Lemma find_row_Some k rows r : find_row k rows = Some r → r ∈ rows ∧ key r = k.
Proof.
  induction rows as [|x rows IH]; [done|]. rewrite find_row_cons. destruct (under k x) eqn:E.
  - intros [= <-]. apply under_true in E. split; [by left|done].
  - intros [? ?]%IH. split; [by right|done].
Qed.

Lemma find_row_None k rows : find_row k rows = None ↔ ¬ k ∈ map key rows.
Proof.
  induction rows as [|x rows IH]; [split; [intros _; apply not_elem_of_nil|done]|].
  rewrite find_row_cons. cbn [map]. rewrite not_elem_of_cons. destruct (under k x) eqn:E.
  - apply under_true in E. naive_solver.
  - apply under_false in E. rewrite IH. naive_solver.
Qed.

Lemma existsb_under k rows : existsb (under k) rows = bool_decide (k ∈ map key rows).
Proof.
  apply eq_true_iff_eq. rewrite bool_decide_eq_true, existsb_true, elem_of_map.
  setoid_rewrite under_true. naive_solver.
Qed.

Lemma existsb_find k rows : existsb (under k) rows = bool_decide (is_Some (find_row k rows)).
Proof.
  induction rows as [|x rows IH]; [done|]. rewrite find_row_cons. cbn [existsb]. rewrite IH.
  by destruct (under k x).
Qed.

Lemma find_row_in r rows : keyed rows → r ∈ rows → find_row (key r) rows = Some r.
Proof.
  unfold keyed. induction rows as [|x rows IH]; [by intros _ ?%not_elem_of_nil|]. cbn [map].
  rewrite find_row_cons. intros [Hx Hnd]%NoDup_cons [->|Hin]%elem_of_cons.
  - by rewrite (proj2 (under_true _ _)).
  - rewrite (proj2 (under_false _ _)); [by apply IH|]. intros E. apply Hx. rewrite E.
    apply elem_of_map. by exists r.
Qed.

Lemma find_row_app k a b :
  find_row k (a ++ b) = match find_row k a with Some r => Some r | None => find_row k b end.
Proof.
  induction a as [|x a IH]; [done|]. cbn [app]. rewrite !find_row_cons, IH. by destruct (under k x).
Qed.

(** An update that keeps keys acts on the row found. *)
Lemma find_row_map k u rows :
  (∀ r, key (u r) = key r) → find_row k (map u rows) = u <$> find_row k rows.
Proof.
  intros Hu. induction rows as [|x rows IH]; [done|]. cbn [map]. rewrite !find_row_cons, IH.
  unfold under. rewrite Hu. by case_bool_decide.
Qed.

Lemma keyed_map u rows : (∀ r, key (u r) = key r) → keyed rows → keyed (map u rows).
Proof. intros Hu. unfold keyed. rewrite map_map. by erewrite map_ext. Qed.

Lemma keyed_snoc r rows : find_row (key r) rows = None → keyed rows → keyed (rows ++ [r]).
Proof.
  intros Hn%find_row_None Hk. unfold keyed. rewrite map_app. apply NoDup_app.
  split_and!; [done| |by apply NoDup_singleton].
  intros k Hk' Hx%list_elem_of_singleton. by subst k.
Qed.

Lemma keyed_filter p rows : keyed rows → keyed (List.filter p rows).
Proof.
  unfold keyed. induction rows as [|x rows IH]; [done|]. cbn [map List.filter].
  intros [Hx Hnd]%NoDup_cons. destruct (p x); [|by apply IH]. cbn [map]. apply NoDup_cons.
  split; [|by apply IH]. rewrite elem_of_map in *. intros (r & E & [Hr _]%elem_of_filter_bool).
  apply Hx. by exists r.
Qed.

Context (k : K) (new : R) (update : R → R).
Context (Hnew : key new = k) (Hupdate : ∀ r, key r = k → key (update r) = k).

Let act (r : R) : R := if under k r then update r else r.

Lemma act_key r : key (act r) = key r.
Proof.
  unfold act. destruct (under k r) eqn:E; [|done]. apply under_true in E. by rewrite E, Hupdate.
Qed.

Lemma keyed_upsert rows : keyed rows → keyed (upsert k new update rows).
Proof using Hnew Hupdate.
  intros Hk. unfold upsert. rewrite existsb_find. case_bool_decide as E.
  - apply keyed_map; [apply act_key|done].
  - apply keyed_snoc; [|done]. rewrite Hnew. by apply eq_None_not_Some.
Qed.

Lemma find_upsert rows :
  find_row k (upsert k new update rows)
  = Some (match find_row k rows with Some r => update r | None => new end).
Proof using Hnew Hupdate.
  unfold upsert. rewrite existsb_find. case_bool_decide as E.
  - change (map _ rows) with (map act rows). rewrite (find_row_map k act rows act_key). destruct E as [r Er]. rewrite Er. cbn. unfold act.
    apply find_row_Some in Er as [_ Er%under_true]. by rewrite Er.
  - rewrite find_row_app. apply eq_None_not_Some in E. rewrite E. rewrite find_row_cons.
    by rewrite (proj2 (under_true _ _)).
Qed.

Lemma find_upsert_ne k' rows :
  k' ≠ k → find_row k' (upsert k new update rows) = find_row k' rows.
Proof using Hnew Hupdate.
  intros Hne. unfold upsert. rewrite existsb_find. case_bool_decide as E.
  - change (map _ rows) with (map act rows). rewrite (find_row_map k' act rows act_key). destruct (find_row k' rows) as [r|] eqn:Er; [|done].
    cbn. unfold act. apply find_row_Some in Er as [_ Er]. rewrite (proj2 (under_false _ _)); [done|].
    congruence.
  - rewrite find_row_app. destruct (find_row k' rows); [done|]. rewrite find_row_cons.
    rewrite (proj2 (under_false _ _)); [done|]. congruence.
Qed.

End Keyed.

End Tables.
