(* ===== verification/Effects.v ===== *)
(** * Programs over a shared store

    The store's methods run SQL statements one at a time, read a clock and draw
    random bytes; another process may write between any two statements. A method is
    a [prog]: a tree of those effects. [runs] says what one run alone may do, with
    any clock reading, any bytes and a failure of any statement; [exec] runs it on a
    given world; [pool_step] interleaves many. [wp] is the calculus the proofs use. *)

From S2P Require Import Prelude RustStr.

#[local] Open Scope Z_scope.

Module Effects.

(** [rusqlite::Error], as far as the code tells its cases apart. *)
Inductive SqlError : Type :=
  | ConstraintViolation
  | Failure (code : Z).

Section Programs.
Context {Db : Type}.

(** One statement, atomic on the database, with its rows or its error. *)
Definition stmt (B : Type) : Type := Db → Db * result B SqlError.

Inductive prog (A : Type) : Type :=
  | Ret (a : A)
  | Sql {B : Type} (s : stmt B) (k : result B SqlError → prog A)
  | Now (k : Z → prog A)
  | Rand (n : nat) (k : list Z → prog A)
  | Txn {B E : Type} (body : prog (result B E)) (fault : SqlError → E)
      (k : result B E → prog A).
Arguments Ret {A} _.
Arguments Sql {A B} _ _.
Arguments Now {A} _.
Arguments Rand {A} _ _.
Arguments Txn {A B E} _ _ _.

Fixpoint bind {A C} (p : prog A) (f : A → prog C) : prog C :=
  match p with
  | Ret a => f a
  | Sql s k => Sql s (λ r, bind (k r) f)
  | Now k => Now (λ z, bind (k z) f)
  | Rand n k => Rand n (λ bs, bind (k bs) f)
  | Txn body fault k => Txn body fault (λ r, bind (k r) f)
  end.

(** The [?] operator: an error ends the method. *)
Definition bind_ok {A C E} (p : prog (result A E)) (f : A → prog (result C E)) :
    prog (result C E) :=
  bind p (λ r, match r with Ok a => f a | Err e => Ret (Err e) end).

(** A transaction's state when its body ends: committed, or as it was. *)
Definition settle {B E} (r : result B E) (before after : Db) : Db :=
  match r with Ok _ => after | Err _ => before end.

Definition is_blob (n : nat) (bs : list Z) : Prop :=
  length bs = n ∧ Forall (λ b, 0 ≤ b < 256) bs.

(** Every statement of the program, reached in whatever state, moves the store along
    [R]. *)
Fixpoint keeps (R : Db → Db → Prop) {A} (p : prog A) {struct p} : Prop :=
  match p with
  | Ret _ => True
  | Sql s k => (∀ db, R db (s db).1) ∧ ∀ r, keeps R (k r)
  | Now k => ∀ z, keeps R (k z)
  | Rand _ k => ∀ bs, keeps R (k bs)
  | Txn body _ k => keeps R body ∧ ∀ r, keeps R (k r)
  end.

Section KeepsBind.
Context (R : Db → Db → Prop).

Lemma keeps_bind {A C} (p : prog A) (f : A → prog C) :
  keeps R p → (∀ a, keeps R (f a)) → keeps R (bind p f).
Proof.
  intros Hp Hf. induction p as [A x|A B s k IH|A k IH|A n k IH|A B E body _ fault k IH];
    cbn [bind keeps] in *; [done|..]; try (destruct Hp; split; [done|]); naive_solver.
Qed.

Lemma keeps_bind_ok {A C E} (p : prog (result A E)) (f : A → prog (result C E)) :
  keeps R p → (∀ a, keeps R (f a)) → keeps R (bind_ok p f).
Proof. intros Hp Hf. apply keeps_bind; [done|]. by intros [a|e]. Qed.

End KeepsBind.

(** ** What one run may do *)

Section Readings.
(** The instants the clock may show. *)
Context (reading : Z → Prop).

Fixpoint runs {A} (p : prog A) (db db' : Db) (a : A) {struct p} : Prop :=
  match p with
  | Ret x => db' = db ∧ a = x
  | Sql s k =>
      runs (k (s db).2) (s db).1 db' a ∨ ∃ e, runs (k (Err (Failure e))) db db' a
  | Now k => ∃ z, reading z ∧ runs (k z) db db' a
  | Rand n k => ∃ bs, is_blob n bs ∧ runs (k bs) db db' a
  | Txn body fault k =>
      (∃ db1 r, runs body db db1 r ∧ runs (k r) (settle r db db1) db' a)
      ∨ ∃ e, runs (k (Err (fault (Failure e)))) db db' a
  end.

(** Every run ends in [Q]. *)
Fixpoint wp {A} (p : prog A) (db : Db) (Q : Db → A → Prop) {struct p} : Prop :=
  match p with
  | Ret x => Q db x
  | Sql s k =>
      wp (k (s db).2) (s db).1 Q ∧ ∀ e, wp (k (Err (Failure e))) db Q
  | Now k => ∀ z, reading z → wp (k z) db Q
  | Rand n k => ∀ bs, is_blob n bs → wp (k bs) db Q
  | Txn body fault k =>
      wp body db (λ db1 r, wp (k r) (settle r db db1) Q)
      ∧ ∀ e, wp (k (Err (fault (Failure e)))) db Q
  end.

Lemma wp_mono {A} (p : prog A) db (Q R : Db → A → Prop) :
  wp p db Q → (∀ db' a, Q db' a → R db' a) → wp p db R.
Proof.
  revert db Q R. induction p as [A x|A B s k IH|A k IH|A n k IH|A B E body IHb fault k IH];
    intros db Q R H HQR; cbn [wp] in *.
  - by apply HQR.
  - destruct H as [H1 H2]. split; [by eapply IH|intros e; by eapply IH].
  - intros z Hz. by eapply IH; [apply H|].
  - intros bs Hbs. by eapply IH; [apply H|].
  - destruct H as [H1 H2]. split; [|intros e; by eapply IH].
    eapply IHb; [exact H1|]. cbn beta. intros db1 r H. eapply IH; [exact H|done].
Qed.

#[export] Instance wp_proper {A} (p : prog A) db :
  Proper (pointwise_relation Db (pointwise_relation A iff) ==> iff) (wp p db).
Proof. intros Q R H. split; intros HQ; (eapply wp_mono; [exact HQ|]); intros; by apply H. Qed.

Lemma wp_runs {A} (p : prog A) db (Q : Db → A → Prop) :
  wp p db Q ↔ ∀ db' a, runs p db db' a → Q db' a.
Proof.
  revert db Q. induction p as [A x|A B s k IH|A k IH|A n k IH|A B E body IHb fault k IH];
    intros db Q; cbn [wp runs].
  - split; [by intros H db' a [-> ->]|intros H; by apply H].
  - rewrite IH. split.
    + intros [H1 H2] db' a [H|[e H]]; [by apply H1|by apply (proj1 (IH _ _ _) (H2 e))].
    + intros H. split; [intros; apply H; by left|]. intros e. apply IH. intros. apply H. right. by exists e.
  - split.
    + intros H db' a (z & Hz & Hr). by apply (proj1 (IH _ _ _) (H z Hz)).
    + intros H z Hz. apply IH. intros. apply H. by exists z.
  - split.
    + intros H db' a (bs & Hz & Hr). by apply (proj1 (IH _ _ _) (H bs Hz)).
    + intros H bs Hz. apply IH. intros. apply H. by exists bs.
  - rewrite IHb. split.
    + intros [H1 H2] db' a [(db1 & r & Hb & Hr)|[e H]].
      * by apply (proj1 (IH _ _ _) (H1 db1 r Hb)).
      * by apply (proj1 (IH _ _ _) (H2 e)).
    + intros H. split; [|intros e; apply IH; intros; apply H; right; by exists e].
      intros db1 r Hb. apply IH. intros. apply H. left. by exists db1, r.
Qed.

Lemma wp_bind {A C} (p : prog A) (f : A → prog C) db Q :
  wp (bind p f) db Q ↔ wp p db (λ db' a, wp (f a) db' Q).
Proof.
  revert db. induction p as [A x|A B s k IH|A k IH|A n k IH|A B E body IHb fault k IH];
    intros db; cbn [bind wp]; [done|..].
  - rewrite IH. by setoid_rewrite IH.
  - by setoid_rewrite IH.
  - by setoid_rewrite IH.
  - by setoid_rewrite IH.
Qed.

Lemma wp_bind_ok {A C E} (p : prog (result A E)) (f : A → prog (result C E)) db Q :
  wp (bind_ok p f) db Q
  ↔ wp p db (λ db' r, match r with Ok a => wp (f a) db' Q | Err e => Q db' (Err e) end).
Proof.
  unfold bind_ok. rewrite wp_bind.
  split; intros H; (eapply wp_mono; [exact H|]); by intros db' [a|e].
Qed.

(** ** Many at once *)

(** One step of one program, whatever the others have done to the store since. *)
Definition pstep {A} (p : prog A) (db : Db) (p' : prog A) (db' : Db) : Prop :=
  match p with
  | Ret _ => False
  | Sql s k =>
      (p' = k (s db).2 ∧ db' = (s db).1) ∨ ∃ e, p' = k (Err (Failure e)) ∧ db' = db
  | Now k => ∃ z, reading z ∧ p' = k z ∧ db' = db
  | Rand n k => ∃ bs, is_blob n bs ∧ p' = k bs ∧ db' = db
  | Txn body fault k =>
      (∃ db1 r, runs body db db1 r ∧ p' = k r ∧ db' = settle r db db1)
      ∨ ∃ e, p' = k (Err (fault (Failure e))) ∧ db' = db
  end.

(** The running calls and the store they share. A call of [api] may start at any
    time; each step is one statement, one transaction, or one draw of some call. *)
Inductive pool_step {A} (api : prog A → Prop) : list (prog A) * Db → list (prog A) * Db → Prop :=
  | pool_call p ps db : api p → pool_step api (ps, db) (ps ++ [p], db)
  | pool_run i p p' ps db db' :
      ps !! i = Some p → pstep p db p' db' →
      pool_step api (ps, db) (<[i := p']> ps, db').

Section Keeps.
Context (R : Db → Db → Prop) `{!PreOrder R}.

Lemma keeps_runs {A} (p : prog A) db db' a : keeps R p → runs p db db' a → R db db'.
Proof.
  revert db db'. induction p as [A x|A B s k IH|A k IH|A n k IH|A B E body IHb fault k IH];
    intros db db' Hp H; cbn [keeps runs] in *.
  - by destruct H as [-> ->].
  - destruct Hp as [Hs Hk], H as [H|[e H]]; [|by eapply IH].
    etrans; [apply Hs|by eapply IH].
  - destruct H as (z & _ & H). by eapply IH.
  - destruct H as (bs & _ & H). by eapply IH.
  - destruct Hp as [Hb Hk], H as [(db1 & r & Hr & H)|[e H]]; [|by eapply IH].
    etrans; [|by eapply IH]. destruct r; [|done]. by eapply IHb.
Qed.

(** Every step the others can see moves the store along [R]: a statement on its own, a
    transaction from its start to its end. *)
Fixpoint steps {A} (p : prog A) {struct p} : Prop :=
  match p with
  | Ret _ => True
  | Sql s k => (∀ db, R db (s db).1) ∧ ∀ r, steps (k r)
  | Now k => ∀ z, steps (k z)
  | Rand _ k => ∀ bs, steps (k bs)
  | Txn body _ k =>
      (∀ db, wp body db (λ db1 r, R db (settle r db db1))) ∧ ∀ r, steps (k r)
  end.

Lemma keeps_steps {A} (p : prog A) : keeps R p → steps p.
Proof.
  induction p as [A x|A B s k IH|A k IH|A n k IH|A B E body IHb fault k IH];
    cbn [keeps steps]; [done|naive_solver..|].
  intros [Hb Hk]. split; [|naive_solver]. intros db. apply wp_runs. intros db1 r Hr.
  destruct r; [|done]. by eapply keeps_runs.
Qed.

Lemma steps_bind {A C} (p : prog A) (f : A → prog C) :
  steps p → (∀ a, steps (f a)) → steps (bind p f).
Proof.
  intros Hp Hf. induction p as [A x|A B s k IH|A k IH|A n k IH|A B E body _ fault k IH];
    cbn [bind steps] in *; [done|..]; try (destruct Hp; split; [done|]); naive_solver.
Qed.

Lemma steps_pstep {A} (p p' : prog A) db db' :
  steps p → pstep p db p' db' → R db db' ∧ steps p'.
Proof.
  intros Hp H. destruct p as [x|B s k|k|n k|B E body fault k]; cbn [steps pstep] in *; [done|..].
  - destruct Hp as [Hs Hk], H as [[-> ->]|(e & -> & ->)]; (split; [done|by apply Hk]).
  - by destruct H as (z & _ & -> & ->).
  - by destruct H as (bs & _ & -> & ->).
  - destruct Hp as [Hb Hk], H as [(db1 & r & Hr & -> & ->)|(e & -> & ->)];
      (split; [|by apply Hk]); [|done].
    by eapply (proj1 (wp_runs body db _) (Hb db)).
Qed.

(** Whatever interleaving of calls whose steps move along [R] happens, the store does. *)
Lemma pool_moves {A} (api : prog A → Prop) ps ps' db db' :
  (∀ p, api p → steps p) → Forall steps ps →
  rtc (pool_step api) (ps, db) (ps', db') → R db db' ∧ Forall steps ps'.
Proof.
  intros Hapi Hps H. remember (ps, db) as x eqn:Ex. remember (ps', db') as y eqn:Ey.
  revert ps db Ex Hps. induction H as [x|x y z Hxy _ IH]; intros ps db -> Hps; [by simplify_eq|].
  inversion Hxy as [p qs db0 Hp E1 E2|i p p' qs db0 db1 Hi Hs E1 E2]; subst.
  - eapply (IH eq_refl); [reflexivity|]. apply Forall_app. split; [done|].
    constructor; [by apply Hapi|constructor].
  - apply steps_pstep in Hs as [HR Hp']; [|by eapply Forall_lookup_1].
    destruct (IH eq_refl _ _ eq_refl) as [HR' Hps']; [by apply Forall_insert|].
    split; [by etrans|done].
Qed.

End Keeps.

Lemma steps_mono {A} (R R' : Db → Db → Prop) (p : prog A) :
  (∀ db db', R db db' → R' db db') → steps R p → steps R' p.
Proof.
  intros HR. induction p as [A x|A B s k IH|A k IH|A n k IH|A B E body _ fault k IH];
    cbn [steps]; [done|naive_solver..|].
  intros [Hb Hk]. split; [|naive_solver]. intros db. eapply wp_mono; [apply Hb|]. auto.
Qed.

End Readings.

(** ** Running on a given world *)

(** The clock's readings, the random bytes and the failures still to come. *)
Record World := { w_db : Db; w_clock : list Z; w_blobs : list (list Z) }.

Definition is_blob_b (n : nat) (bs : list Z) : bool :=
  (length bs =? n)%nat && forallb (λ b, (0 <=? b) && (b <? 256)) bs.

Lemma is_blob_b_true n bs : is_blob_b n bs = true → is_blob n bs.
Proof.
  unfold is_blob_b, is_blob. rewrite andb_true_iff, Nat.eqb_eq, forallb_forall.
  intros [? H]. split; [done|]. apply Forall_forall. intros b Hb%list_elem_of_In.
  specialize (H b Hb). lia.
Qed.

(** [None] when the world's supply ends first. No statement fails. *)
Fixpoint exec {A} (p : prog A) (w : World) {struct p} : option (World * A) :=
  match p with
  | Ret a => Some (w, a)
  | Sql s k =>
      let (db, r) := s (w_db w) in
      exec (k r) {| w_db := db; w_clock := w_clock w; w_blobs := w_blobs w |}
  | Now k =>
      match w_clock w with
      | [] => None
      | z :: zs => exec (k z) {| w_db := w_db w; w_clock := zs; w_blobs := w_blobs w |}
      end
  | Rand n k =>
      match w_blobs w with
      | [] => None
      | bs :: bss =>
          if is_blob_b n bs
          then exec (k bs) {| w_db := w_db w; w_clock := w_clock w; w_blobs := bss |}
          else None
      end
  | Txn body fault k =>
      let! (w1, r) := exec body w in
      exec (k r) {| w_db := settle r (w_db w) (w_db w1); w_clock := w_clock w1; w_blobs := w_blobs w1 |}
  end.

(** What a world makes of a program is one of its runs. *)
Lemma exec_runs (reading : Z → Prop) {A} (p : prog A) w w' a :
  Forall reading (w_clock w) → exec p w = Some (w', a) →
  runs reading p (w_db w) (w_db w') a ∧ Forall reading (w_clock w').
Proof.
  revert w w'. induction p as [A x|A B s k IH|A k IH|A n k IH|A B E body IHb fault k IH];
    intros w w' Hc; cbn [exec runs].
  - intros [= -> ->]. done.
  - destruct (s (w_db w)) as [db r] eqn:E. intros H. apply IH in H as [H ?]; [|done].
    split; [by left|done].
  - destruct (w_clock w) as [|z zs] eqn:E; [done|]. apply Forall_cons in Hc as [Hz Hc].
    intros H. apply IH in H as [H ?]; [|done]. split; [by exists z|done].
  - destruct (w_blobs w) as [|bs bss]; [done|]. destruct (is_blob_b n bs) eqn:E; [|done].
    intros H. apply IH in H as [H ?]; [|done]. split; [|done]. exists bs. split; [|done].
    by apply is_blob_b_true.
  - destruct (exec body w) as [[w1 r]|] eqn:E1; [|done]. apply IHb in E1 as [E1 Hc1]; [|done].
    intros H. apply IH in H as [H ?]; [|done]. split; [|done]. left. by exists (w_db w1), r.
Qed.

End Programs.

Arguments prog : clear implicits.
Arguments stmt : clear implicits.
Arguments World : clear implicits.
Arguments Ret {Db A} _.
Arguments Sql {Db A B} _ _.
Arguments Now {Db A} _.
Arguments Rand {Db A} _ _.
Arguments Txn {Db A B E} _ _ _.

End Effects.
