(* ===== verification/Store.v ===== *)
(** * The store's tables, statements and errors

    [rust/dc-store/src/lib.rs] and [schema.rs]. SQLite itself is not modelled: a table
    is the list of its rows in insertion order, and each statement the source sends is
    one [stmt] with the meaning of its SQL text. The two constraints the code relies
    on, the primary key of [task_leases] and its partial unique index on active rows,
    are checked where a row is inserted; no statement changes an id, a task or makes a
    row active. *)

From S2P Require Import Prelude RustStr Json Time Effects.
Import Effects.

#[local] Open Scope Z_scope.

Module Store.

(** ** Rows *)

Record Lease := {
  id : str;
  task_id : str;
  owner : str;
  agent : option str;
  client_id : option str;
  run_id : option str;
  branch : option str;
  token : str;
  status : str;
  created_at : str;
  expires_at : option str;
  released_at : option str;
}.

#[export] Instance Lease_eq_dec : EqDecision Lease.
Proof. solve_decision. Defined.

(** A [work_items] row: the columns and the body fields the store reads. *)
Record WorkItem := {
  i_id : str;
  i_title : str;
  i_status : str;
  i_deleted : Z;
  i_archived : Z;
  i_repository : str;
  i_priority : option Z;
  i_position : option Z;
  i_difficulty : option str;
  i_planned_files : option str;
  i_allowed_commands : option str;
  i_expected_tests : option str;
  i_forbidden_changes : option str;
  i_requirement_ids : option str;
  i_acceptance_criterion_ids : option str;
}.

(** A gap, with its [blocking] flag as an integer in the table and as a [bool] in
    [GapRow]. *)
Record GapOf (B : Type) := {
  g_id : str;
  g_severity : str;
  g_gap_type : str;
  g_requirement_id : option str;
  g_task_id : option str;
  g_description : str;
  g_evidence_json : str;
  g_recommended_fix : str;
  g_blocking : B;
  g_file : option str;
  g_line : option Z;
  g_suggested_command : option str;
  g_acceptance_criterion_id : option str;
  g_expected_verification_method : option str;
  g_stdout_path : option str;
  g_stderr_path : option str;
}.
Arguments g_id {B} _.
Arguments g_severity {B} _.
Arguments g_gap_type {B} _.
Arguments g_requirement_id {B} _.
Arguments g_task_id {B} _.
Arguments g_description {B} _.
Arguments g_evidence_json {B} _.
Arguments g_recommended_fix {B} _.
Arguments g_blocking {B} _.
Arguments g_file {B} _.
Arguments g_line {B} _.
Arguments g_suggested_command {B} _.
Arguments g_acceptance_criterion_id {B} _.
Arguments g_expected_verification_method {B} _.
Arguments g_stdout_path {B} _.
Arguments g_stderr_path {B} _.

Definition Gap : Type := GapOf Z.
Definition GapRow : Type := GapOf bool.

(** What became of one gap across a task's runs. *)
Record GapHistoryRow := {
  gh_task_id : str;
  gh_gap_id : str;
  gh_gap_type : str;
  gh_first_seen_run : Z;
  gh_last_seen_run : Z;
  gh_occurrences : Z;
  gh_resurfaces : Z;
}.

Record VerificationRun := {
  vr_id : str;
  vr_task_id : str;
  vr_sandbox : str;
  vr_environment_json : str;
  vr_commands_json : str;
  vr_status : str;
  vr_started_at : str;
  vr_finished_at : option str;
}.

Record AgentHandoff := {
  ho_id : str;
  ho_task_id : str;
  ho_from_agent : str;
  ho_to_agent : str;
  ho_run_id : str;
  ho_manifest_path : str;
  ho_status : str;
  ho_created_at : str;
}.

Record EvidenceRow := {
  ev_id : Z;
  ev_kind : str;
  ev_task_id : option str;
  ev_requirement_id : option str;
  ev_acceptance_criterion_id : option str;
  ev_data_json : str;
}.

Record ReviewRow := {
  rv_id : Z;
  rv_task_id : str;
  rv_acceptance_criterion_id : str;
  rv_subject_hash : str;
  rv_record_json : str;
  rv_recorded_at : str;
}.

(** A [task_scope_appends] row. *)
Record ScopeRow := {
  s_task_id : str;
  s_planned_files : str;
  s_allowed_commands : str;
  s_expected_tests : str;
}.

Record Db := {
  leases : list Lease;
  (** [None] when the profile tables do not exist. *)
  work_items : option (list WorkItem);
  gaps : list Gap;
  appends : list ScopeRow;
  (** The run each task has reached. *)
  gap_runs : list (str * Z);
  gap_history : list GapHistoryRow;
  verification_runs : list VerificationRun;
  agent_handoffs : list AgentHandoff;
  evidence : list EvidenceRow;
  (** The largest id [AUTOINCREMENT] ever gave out. *)
  evidence_sequence : Z;
  reviews : list ReviewRow;
  reviews_sequence : Z;
  (** Whether [gaps] has [stdout_path] and [stderr_path]: an old store may not. *)
  gap_output_columns : bool;
}.

Definition with_leases (ls : list Lease) (db : Db) : Db :=
  {| leases := ls; work_items := work_items db; gaps := gaps db; appends := appends db;
     gap_runs := gap_runs db; gap_history := gap_history db;
     verification_runs := verification_runs db; agent_handoffs := agent_handoffs db;
     evidence := evidence db; evidence_sequence := evidence_sequence db;
     reviews := reviews db; reviews_sequence := reviews_sequence db;
     gap_output_columns := gap_output_columns db |}.

Definition with_appends (ss : list ScopeRow) (db : Db) : Db :=
  {| leases := leases db; work_items := work_items db; gaps := gaps db; appends := ss;
     gap_runs := gap_runs db; gap_history := gap_history db;
     verification_runs := verification_runs db; agent_handoffs := agent_handoffs db;
     evidence := evidence db; evidence_sequence := evidence_sequence db;
     reviews := reviews db; reviews_sequence := reviews_sequence db;
     gap_output_columns := gap_output_columns db |}.

Definition with_gaps (gs : list Gap) (db : Db) : Db :=
  {| leases := leases db; work_items := work_items db; gaps := gs; appends := appends db;
     gap_runs := gap_runs db; gap_history := gap_history db;
     verification_runs := verification_runs db; agent_handoffs := agent_handoffs db;
     evidence := evidence db; evidence_sequence := evidence_sequence db;
     reviews := reviews db; reviews_sequence := reviews_sequence db;
     gap_output_columns := gap_output_columns db |}.

Definition with_gap_runs (rs : list (str * Z)) (db : Db) : Db :=
  {| leases := leases db; work_items := work_items db; gaps := gaps db; appends := appends db;
     gap_runs := rs; gap_history := gap_history db; verification_runs := verification_runs db;
     agent_handoffs := agent_handoffs db; evidence := evidence db;
     evidence_sequence := evidence_sequence db; reviews := reviews db;
     reviews_sequence := reviews_sequence db; gap_output_columns := gap_output_columns db |}.

Definition with_gap_history (hs : list GapHistoryRow) (db : Db) : Db :=
  {| leases := leases db; work_items := work_items db; gaps := gaps db; appends := appends db;
     gap_runs := gap_runs db; gap_history := hs; verification_runs := verification_runs db;
     agent_handoffs := agent_handoffs db; evidence := evidence db;
     evidence_sequence := evidence_sequence db; reviews := reviews db;
     reviews_sequence := reviews_sequence db; gap_output_columns := gap_output_columns db |}.

Definition with_verification_runs (rs : list VerificationRun) (db : Db) : Db :=
  {| leases := leases db; work_items := work_items db; gaps := gaps db; appends := appends db;
     gap_runs := gap_runs db; gap_history := gap_history db; verification_runs := rs;
     agent_handoffs := agent_handoffs db; evidence := evidence db;
     evidence_sequence := evidence_sequence db; reviews := reviews db;
     reviews_sequence := reviews_sequence db; gap_output_columns := gap_output_columns db |}.

Definition with_agent_handoffs (hs : list AgentHandoff) (db : Db) : Db :=
  {| leases := leases db; work_items := work_items db; gaps := gaps db; appends := appends db;
     gap_runs := gap_runs db; gap_history := gap_history db;
     verification_runs := verification_runs db; agent_handoffs := hs; evidence := evidence db;
     evidence_sequence := evidence_sequence db; reviews := reviews db;
     reviews_sequence := reviews_sequence db; gap_output_columns := gap_output_columns db |}.

Definition with_evidence (es : list EvidenceRow) (n : Z) (db : Db) : Db :=
  {| leases := leases db; work_items := work_items db; gaps := gaps db; appends := appends db;
     gap_runs := gap_runs db; gap_history := gap_history db;
     verification_runs := verification_runs db; agent_handoffs := agent_handoffs db;
     evidence := es; evidence_sequence := n; reviews := reviews db;
     reviews_sequence := reviews_sequence db; gap_output_columns := gap_output_columns db |}.

Definition with_reviews (rs : list ReviewRow) (n : Z) (db : Db) : Db :=
  {| leases := leases db; work_items := work_items db; gaps := gaps db; appends := appends db;
     gap_runs := gap_runs db; gap_history := gap_history db;
     verification_runs := verification_runs db; agent_handoffs := agent_handoffs db;
     evidence := evidence db; evidence_sequence := evidence_sequence db; reviews := rs;
     reviews_sequence := n; gap_output_columns := gap_output_columns db |}.

(** ** Errors *)

Inductive LeaseCode : Type := Valid | Expired | Invalid | HeldByOther.

#[export] Instance LeaseCode_eq_dec : EqDecision LeaseCode.
Proof. solve_decision. Defined.

(** What a [BadScope] says, before it is put in words. *)
Inductive ScopeFault : Type :=
  | TooLarge (bytes : nat)
  | NotPlannedFiles (text : str) (why : Json.JsonError)
  | NotAnArray (task_id column : str) (why : Json.JsonError)
  | StoredNotAnArray (task_id : str) (why : Json.JsonError)
  | NotWellFormed (field : str) (why : Json.JsonError)
  | Reason (text : str)
  | TooManyGaps (count : nat)
  | WrongTask (run run_task task : str)
  | NoTaskToReview (task_id : str).

Inductive StoreError : Type :=
  | LeaseHeld (task_id holder : str)
  | ESql (e : SqlError)
  | BadTimestamp (value : str)
  | BadScope (reason : ScopeFault)
  | JournalMode (mode : str)
  | MissingDatabase (path : str)
  | ExclusionIndex (detail : str)
  | BadTtl (ttl_seconds : Z)
  | SchemaTooNew (found known : Z)
  | SchemaVersion (detail : str)
  | TaskUnavailable (task_id code detail : str)
  | Workbench (code message : str).

(** ** Methods *)

(** A method of the store: effects that end in a [Result<T, StoreError>]. *)
Definition M (A : Type) : Type := prog Db (result A StoreError).

Definition ok {A} (a : A) : M A := Ret (Ok a).
Definition fail {A} (e : StoreError) : M A := Ret (Err e).

(** A statement whose failure [?] turns into [StoreError::Sql]. *)
Definition sql {B} (s : stmt Db B) : M B :=
  Sql s (λ r, Ret (match r with Ok b => Ok b | Err e => Err (ESql e) end)).

Definition now_epoch : M Z := Now (λ z, Ret (Ok z)).

(** [write_transaction]: commits on [Ok], rolls back on [Err]. *)
Definition write_transaction {B} (body : M B) : M B := Txn body ESql Ret.

Notation "'let*' x ':=' m 'in' k" := (bind_ok m (λ x, k))
  (at level 10, x name, m at level 100, k at level 200) : dc_scope.

(** ** Statements *)

Definition ACTIVE : str := lit "active".
Definition STALE : str := lit "stale".
Definition RELEASED : str := lit "released".

Definition is_active (l : Lease) : bool := bool_decide (status l = ACTIVE).

Definition active_for (task : str) (l : Lease) : bool :=
  bool_decide (task_id l = task) && is_active l.

Definition query {B} (f : Db → B) : stmt Db B := λ db, (db, Ok (f db)).

(** An [UPDATE] of [task_leases]: the rows that changed. *)
Definition update_leases (where_ : Lease → bool) (set : Lease → Lease) : stmt Db (list Lease) :=
  λ db, (with_leases (map (λ l, if where_ l then set l else l) (leases db)) db,
         Ok (map set (List.filter where_ (leases db)))).

(** [SELECT … WHERE task_id = ? AND status = 'active'], first row. *)
Definition select_active_stmt (task : str) : stmt Db (option Lease) :=
  query (λ db, head (List.filter (active_for task) (leases db))).

(** [SET status = …, released_at = …]. *)
Definition close (st at_ : str) (l : Lease) : Lease :=
  {| id := id l; task_id := task_id l; owner := owner l; agent := agent l;
     client_id := client_id l; run_id := run_id l; branch := branch l; token := token l;
     status := st; created_at := created_at l; expires_at := expires_at l;
     released_at := Some at_ |}.

Definition set_expiry (at_ : str) (l : Lease) : Lease :=
  {| id := id l; task_id := task_id l; owner := owner l; agent := agent l;
     client_id := client_id l; run_id := run_id l; branch := branch l; token := token l;
     status := status l; created_at := created_at l; expires_at := Some at_;
     released_at := released_at l |}.

(** [WHERE id = ? AND status = 'active' AND expires_at IS ?]. *)
Definition retire_where (lid : str) (expires : option str) (l : Lease) : bool :=
  bool_decide (id l = lid) && is_active l && bool_decide (expires_at l = expires).

(** [WHERE id = ? AND status = 'active']. *)
Definition active_id_where (lid : str) (l : Lease) : bool :=
  bool_decide (id l = lid) && is_active l.

(** [WHERE id = ? AND lease_token = ? AND status = 'active']. *)
Definition release_where (lid tok : str) (l : Lease) : bool :=
  bool_decide (id l = lid) && bool_decide (token l = tok) && is_active l.

(** [INSERT INTO task_leases]: refused by the primary key or by the partial unique
    index on the active row of a task. *)
Definition insert_lease (l : Lease) : stmt Db unit :=
  λ db,
    if existsb (λ r, bool_decide (id r = id l)) (leases db)
       || is_active l && existsb (active_for (task_id l)) (leases db)
    then (db, Err ConstraintViolation)
    else (with_leases (leases db ++ [l]) db, Ok tt).

(** [SELECT status … WHERE task_id = ? AND lease_token = ? ORDER BY created_at DESC]. *)
Definition prior_status_stmt (task tok : str) : stmt Db (option str) :=
  query (λ db,
    status <$> head (sort_by (λ a b, str_leb (created_at b) (created_at a))
      (List.filter (λ l, bool_decide (task_id l = task) && bool_decide (token l = tok))
         (leases db)))).

(** [SELECT DISTINCT task_id … WHERE status = 'active']. *)
Definition active_tasks_stmt : stmt Db (list str) :=
  query (λ db, remove_dups (task_id <$> List.filter is_active (leases db))).

Definition by_task (a b : Lease) : bool := str_leb (task_id a) (task_id b).

(** [SELECT … WHERE status = 'active' ORDER BY task_id]. *)
Definition observe_stmt : stmt Db (list Lease) :=
  query (λ db, sort_by by_task (List.filter is_active (leases db))).

End Store.

(** Which work items are tasks: [rust/dc-store/src/tasks.rs]. *)
Import Effects Store.

Module Tasks.

Definition LOCAL_REPOSITORY_ID : str := lit "this-repo".

Definition items_present : M bool :=
  sql (query (λ db, bool_decide (is_Some (work_items db)))).

Definition rows_of (db : Db) : list WorkItem := default [] (work_items db).

(** [WHERE id = ? AND deleted = 0 AND primary_repository_id = ?]. *)
Definition local_where (task : str) (i : WorkItem) : bool :=
  bool_decide (i_id i = task) && (i_deleted i =? 0)
  && bool_decide (i_repository i = LOCAL_REPOSITORY_ID).

Definition is_local_item (task : str) : M bool :=
  let* present := items_present in
  if negb present then ok false
  else sql (query (λ db, existsb (local_where task) (rows_of db))).

Definition item_state_stmt (task : str) : stmt Db (option (str * Z)) :=
  query (λ db, (λ i, (i_status i, i_archived i)) <$> head (List.filter (local_where task) (rows_of db))).

Definition workable (st : str) : bool :=
  bool_decide (st = lit "ready") || bool_decide (st = lit "in_progress").

(** The answer to the row found. *)
Definition judge_acquirable (task : str) (found : option (str * Z)) : result unit StoreError :=
  match found with
  | None =>
      Err (TaskUnavailable task (lit "no_such_task")
        (lit "task " ++ task ++ lit " is not a workbench item of this repository"))
  | Some (st, archived) =>
      if negb (archived =? 0) then
        Err (TaskUnavailable task (lit "task_archived")
          (lit "task " ++ task ++ lit " is archived and cannot be leased"))
      else if negb (workable st) then
        Err (TaskUnavailable task (lit "task_not_ready")
          (lit "task " ++ task ++ lit " is " ++ st
           ++ lit ", not ready or in progress, and cannot be leased"))
      else Ok tt
  end.

Definition require_acquirable (task : str) : M unit :=
  let* present := items_present in
  let* found := (if present : bool then sql (item_state_stmt task) else ok None) in
  Ret (judge_acquirable task found).

End Tasks.
