(* ===== verification/Records.v ===== *)
(** * Gaps, runs, handoffs, evidence and reviews: [rust/dc-store/src/records.rs]

    One definition per function, over the statements it sends. Lists are read up to one
    row past the cap, as the code does to tell that it cut them. *)

From S2P Require Import Prelude RustStr Json Tables Effects Store.
Import Tables Effects Store Tasks.

#[local] Open Scope Z_scope.

Module Records.

Definition MAX_LIST_ROWS : nat := Z.to_nat 10000.
Definition MAX_GAPS_PER_REPLACE : nat := 500.
Definition MAX_REVIEW_RECORD_BYTES : Z := 2 ^ 20.
Definition MAX_REVIEW_KEY_BYTES : Z := 256.

(** ** Refusals and loops *)

Definition require_json (field : string) (text : str) (check : str → result unit Json.JsonError) :
    result unit StoreError :=
  match check text with
  | Ok _ => Ok tt
  | Err why => Err (BadScope (NotWellFormed (lit field) why))
  end.

Definition refuse (b : bool) (reason : string) : result unit StoreError :=
  if b then Err (BadScope (Reason (lit reason))) else Ok tt.

Definition blank (s : str) : bool := bool_decide (trim s = []).

(** A [for] loop over a method. *)
Fixpoint for_each {A} (f : A → M unit) (l : list A) : M unit :=
  match l with
  | [] => ok tt
  | x :: l' => let* _done := f x in for_each f l'
  end.

(** A [for] loop over a check. *)
Fixpoint check_each {A} (f : A → result unit StoreError) (l : list A) : result unit StoreError :=
  match l with
  | [] => Ok tt
  | x :: l' => let? _ := f x in check_each f l'
  end.

(** [LIMIT MAX_LIST_ROWS + 1], then the cut. *)
Definition capped {A} (rows : list A) : list A * bool :=
  let read := take (MAX_LIST_ROWS + 1) rows in
  (take MAX_LIST_ROWS read, (MAX_LIST_ROWS <? length read)%nat).

(** The rows of one task, or all. *)
Definition of_task {A} (key : A → option str) (task : option str) (rows : list A) : list A :=
  match task with
  | Some t => List.filter (λ r, bool_decide (key r = Some t)) rows
  | None => rows
  end.

(** ** Evidence *)

(** [AUTOINCREMENT]: past every id in the table and every one ever given. *)
Definition next_id (sequence : Z) (ids : list Z) : Z := 1 + foldr Z.max sequence ids.

Definition insert_evidence (kind : str) (task requirement criterion : option str) (data : str) :
    stmt Db Z :=
  λ db,
    let n := next_id (evidence_sequence db) (map ev_id (evidence db)) in
    if i64_max <? n then (db, Err (Failure 13))
    else
      (with_evidence (evidence db ++
         [{| ev_id := n; ev_kind := kind; ev_task_id := task; ev_requirement_id := requirement;
             ev_acceptance_criterion_id := criterion; ev_data_json := data |}]) n db, Ok n).

Definition evidence_append (kind : str) (task requirement criterion : option str) (data : str) : M Z :=
  let* _kind := Ret (refuse (blank kind) "evidence type is empty") in
  let* _json := Ret (require_json "evidence data_json (an object or array)" data
                       Json.check_container) in
  sql (insert_evidence kind task requirement criterion data).

Definition evidence_list (task : option str) : M (list EvidenceRow * bool) :=
  let* rows := sql (query (λ db,
    take (MAX_LIST_ROWS + 1)
      (sort_by (λ a b, ev_id b <=? ev_id a) (of_task ev_task_id task (evidence db))))) in
  ok (capped rows).

(** ** Gap rows *)

Definition set_blocking {A B} (b : B) (g : GapOf A) : GapOf B :=
  {| g_id := g_id g; g_severity := g_severity g; g_gap_type := g_gap_type g;
     g_requirement_id := g_requirement_id g; g_task_id := g_task_id g;
     g_description := g_description g; g_evidence_json := g_evidence_json g;
     g_recommended_fix := g_recommended_fix g; g_blocking := b; g_file := g_file g;
     g_line := g_line g; g_suggested_command := g_suggested_command g;
     g_acceptance_criterion_id := g_acceptance_criterion_id g;
     g_expected_verification_method := g_expected_verification_method g;
     g_stdout_path := g_stdout_path g; g_stderr_path := g_stderr_path g |}.

Definition set_task {A} (task : option str) (g : GapOf A) : GapOf A :=
  {| g_id := g_id g; g_severity := g_severity g; g_gap_type := g_gap_type g;
     g_requirement_id := g_requirement_id g; g_task_id := task;
     g_description := g_description g; g_evidence_json := g_evidence_json g;
     g_recommended_fix := g_recommended_fix g; g_blocking := g_blocking g; g_file := g_file g;
     g_line := g_line g; g_suggested_command := g_suggested_command g;
     g_acceptance_criterion_id := g_acceptance_criterion_id g;
     g_expected_verification_method := g_expected_verification_method g;
     g_stdout_path := g_stdout_path g; g_stderr_path := g_stderr_path g |}.

Definition no_output_paths {A} (g : GapOf A) : GapOf A :=
  {| g_id := g_id g; g_severity := g_severity g; g_gap_type := g_gap_type g;
     g_requirement_id := g_requirement_id g; g_task_id := g_task_id g;
     g_description := g_description g; g_evidence_json := g_evidence_json g;
     g_recommended_fix := g_recommended_fix g; g_blocking := g_blocking g; g_file := g_file g;
     g_line := g_line g; g_suggested_command := g_suggested_command g;
     g_acceptance_criterion_id := g_acceptance_criterion_id g;
     g_expected_verification_method := g_expected_verification_method g;
     g_stdout_path := None; g_stderr_path := None |}.

Definition store_gap (g : GapRow) : Gap := set_blocking (if g_blocking g then 1 else 0) g.
Definition read_gap (g : Gap) : GapRow := set_blocking (negb (g_blocking g =? 0)) g.

Definition gap_of (task : str) (g : Gap) : bool := bool_decide (g_task_id g = Some task).

(** [INSERT INTO gaps]: refused by the primary key; an old table lacks two columns. *)
Definition insert_gap (g : GapRow) : stmt Db unit :=
  λ db,
    if negb (gap_output_columns db) then (db, Err (Failure 1))
    else if existsb (under g_id (g_id g)) (gaps db) then (db, Err ConstraintViolation)
    else (with_gaps (gaps db ++ [store_gap g]) db, Ok tt).

(** [ON CONFLICT(id) DO UPDATE SET …]: every other column is replaced. *)
Definition upsert_gap (g : GapRow) : stmt Db unit :=
  λ db,
    if negb (gap_output_columns db) then (db, Err (Failure 1))
    else (with_gaps (upsert g_id (g_id g) (store_gap g) (λ _, store_gap g) (gaps db)) db, Ok tt).

(** [DELETE FROM gaps WHERE task_id = ?]. *)
Definition delete_gaps (task : str) : stmt Db unit :=
  λ db, (with_gaps (List.filter (λ g, negb (gap_of task g)) (gaps db)) db, Ok tt).

(** ** Runs and sightings *)

(** [COALESCE(MAX(run), 0)]. *)
Definition max_run (task : str) (db : Db) : Z :=
  match map snd (List.filter (λ r, bool_decide (r.1 = task)) (gap_runs db)) with
  | [] => 0
  | n :: ns => foldr Z.max n ns
  end.

(** [INSERT INTO gap_runs … ON CONFLICT(task_id) DO UPDATE SET run = excluded.run]. *)
Definition set_run (task : str) (run : Z) : stmt Db unit :=
  λ db, (with_gap_runs (upsert fst task (task, run) (λ _, (task, run)) (gap_runs db)) db, Ok tt).

Definition advance_run (task : str) : M Z :=
  let* run := sql (query (λ db, max_run task db + 1)) in
  let* _set := sql (set_run task run) in
  ok run.

Definition current_run (task : str) : M Z :=
  let* run := sql (query (max_run task)) in
  if 0 <? run then ok run else advance_run task.

(** The primary key of [gap_history]. *)
Definition gh_key (h : GapHistoryRow) : str * str := (gh_task_id h, gh_gap_id h).

(** The [DO UPDATE] of a row already there. *)
Definition sight_again (gap_type : str) (run : Z) (h : GapHistoryRow) : GapHistoryRow :=
  {| gh_task_id := gh_task_id h; gh_gap_id := gh_gap_id h; gh_gap_type := gap_type;
     gh_first_seen_run := gh_first_seen_run h;
     gh_last_seen_run := Z.max (gh_last_seen_run h) run;
     gh_occurrences := gh_occurrences h + (if gh_last_seen_run h <? run then 1 else 0);
     gh_resurfaces := gh_resurfaces h + (if gh_last_seen_run h <? run - 1 then 1 else 0) |}.

Definition first_sighting (task gap gap_type : str) (run : Z) : GapHistoryRow :=
  {| gh_task_id := task; gh_gap_id := gap; gh_gap_type := gap_type; gh_first_seen_run := run;
     gh_last_seen_run := run; gh_occurrences := 1; gh_resurfaces := 0 |}.

Definition sighting_stmt (task gap gap_type : str) (run : Z) : stmt Db unit :=
  λ db,
    (with_gap_history
       (upsert gh_key (task, gap) (first_sighting task gap gap_type run)
          (sight_again gap_type run) (gap_history db)) db, Ok tt).

Definition record_sighting (task gap gap_type : str) (run : Z) : M unit :=
  sql (sighting_stmt task gap gap_type run).

(** ** Gaps *)

(** The task a gap is recorded against: its own, trimmed, if that leaves anything. *)
Definition sighted_task (g : GapRow) : option str :=
  match g_task_id g with
  | Some t => if blank t then None else Some (trim t)
  | None => None
  end.

Definition gap_upsert_in (g : GapRow) : M unit :=
  let* _sighted :=
    (match sighted_task g with
     | Some task =>
         let* run := current_run task in
         record_sighting task (g_id g) (g_gap_type g) run
     | None => ok tt
     end) in
  sql (upsert_gap g).

Definition gap_upsert (g : GapRow) : M unit :=
  let* _id := Ret (refuse (blank (g_id g)) "gap id is required") in
  let* _json := Ret (require_json "gap evidence_json (an array)" (g_evidence_json g)
                       Json.check_array) in
  write_transaction (gap_upsert_in g).

(** A row takes the place of an earlier one with its id, or comes last. *)
Definition place (row : GapRow) (out : list GapRow) : list GapRow :=
  upsert g_id (g_id row) row (λ _, row) out.

Fixpoint normalise_loop (task : str) (gs out : list GapRow) : result (list GapRow) StoreError :=
  match gs with
  | [] => Ok out
  | g :: gs' =>
      let? _ := refuse (blank (g_id g)) "gap id is required" in
      normalise_loop task gs' (place (set_task (Some task) g) out)
  end.

Definition normalise_gaps (task : str) (gs : list GapRow) : result (list GapRow) StoreError :=
  if (MAX_GAPS_PER_REPLACE <? length gs)%nat then Err (BadScope (TooManyGaps (length gs)))
  else normalise_loop task gs [].

Definition check_gap (g : GapRow) : result unit StoreError :=
  require_json "gap evidence_json (an array)" (g_evidence_json g) Json.check_array.

Definition gaps_replace_in (task : str) (gs : list GapRow) : M unit :=
  let* _task := Ret (refuse (blank task) "task_id is required to replace gaps") in
  let* rows := Ret (normalise_gaps task gs) in
  let* _json := Ret (check_each check_gap rows) in
  let* run := advance_run task in
  let* _sighted := for_each (λ g, record_sighting task (g_id g) (g_gap_type g) run) rows in
  let* _deleted := sql (delete_gaps task) in
  for_each (λ g, sql (insert_gap g)) rows.

Definition gaps_replace (task : str) (gs : list GapRow) : M unit :=
  write_transaction (gaps_replace_in task gs).

Definition by_resurfaces (a b : GapHistoryRow) : bool :=
  if gh_resurfaces b <? gh_resurfaces a then true
  else if gh_resurfaces a <? gh_resurfaces b then false
  else if bool_decide (gh_task_id a = gh_task_id b) then str_leb (gh_gap_id a) (gh_gap_id b)
  else str_leb (gh_task_id a) (gh_task_id b).

Definition gap_history_list (task : option str) : M (list GapHistoryRow * bool) :=
  let* rows := sql (query (λ db,
    take (MAX_LIST_ROWS + 1)
      (sort_by by_resurfaces (of_task (λ h, Some (gh_task_id h)) task (gap_history db))))) in
  ok (capped rows).

Definition gaps_list (task : option str) : M (list GapRow * bool) :=
  let* stdout := sql (query gap_output_columns) in
  let* columns := (if stdout : bool then sql (query gap_output_columns) else ok false) in
  let* rows := sql (query (λ db,
    take (MAX_LIST_ROWS + 1)
      (sort_by (λ a b, str_leb (g_id a) (g_id b)) (of_task g_task_id task (gaps db))))) in
  ok (capped (map (λ g, read_gap (if columns : bool then g else no_output_paths g)) rows)).

(** ** Verification runs *)

Definition upsert_run (r : VerificationRun) : stmt Db unit :=
  λ db,
    (with_verification_runs (upsert vr_id (vr_id r) r (λ _, r) (verification_runs db)) db, Ok tt).

Definition run_record (r : VerificationRun) : M unit :=
  let* _ids := Ret (refuse (blank (vr_id r) || blank (vr_task_id r))
                      "verification run id and task_id are required") in
  let* _env := Ret (require_json "run environment_json (an object)" (vr_environment_json r)
                      Json.check_object) in
  let* _cmds := Ret (require_json "run commands_json (an array)" (vr_commands_json r)
                       Json.check_array) in
  sql (upsert_run r).

Definition verification_commit (run : option VerificationRun) (task : str) (gs : list GapRow) :
    M unit :=
  let* _task := Ret (match run with
    | Some r =>
        if bool_decide (vr_task_id r = task) then Ok tt
        else Err (BadScope (WrongTask (vr_id r) (vr_task_id r) task))
    | None => Ok tt
    end) in
  write_transaction
    (let* _run := (match run with Some r => run_record r | None => ok tt end) in
     gaps_replace_in task gs).

Definition run_get (run : str) : M (option VerificationRun) :=
  sql (query (λ db, find_row vr_id run (verification_runs db))).

(** [ORDER BY started_at DESC, id DESC]. *)
Definition newest_first (a b : VerificationRun) : bool :=
  if bool_decide (vr_started_at a = vr_started_at b) then str_leb (vr_id b) (vr_id a)
  else str_leb (vr_started_at b) (vr_started_at a).

Definition runs_list (task : option str) : M (list VerificationRun * bool) :=
  let* rows := sql (query (λ db,
    take (MAX_LIST_ROWS + 1)
      (sort_by newest_first (of_task (λ r, Some (vr_task_id r)) task (verification_runs db))))) in
  ok (capped rows).

(** ** Handoffs *)

Definition upsert_handoff (h : AgentHandoff) : stmt Db unit :=
  λ db, (with_agent_handoffs (upsert ho_id (ho_id h) h (λ _, h) (agent_handoffs db)) db, Ok tt).

Definition handoff_record (h : AgentHandoff) : M unit :=
  let* _ids := Ret (refuse (blank (ho_id h) || blank (ho_task_id h))
                      "handoff id and task_id are required") in
  sql (upsert_handoff h).

Definition handoff_get (handoff : str) : M (option AgentHandoff) :=
  sql (query (λ db, find_row ho_id handoff (agent_handoffs db))).

(** ** Reviews *)

Definition require_review_key (field : string) (value : str) : result unit StoreError :=
  let? _ := refuse (blank value || (MAX_REVIEW_KEY_BYTES <? str_len value))
              ("review " ++ field ++ " must be 1-256 bytes and not blank")%string in
  refuse (existsb is_control value) ("review " ++ field ++ " carries a control character")%string.

Definition is_hash_byte (b : Z) : bool :=
  in_range 97 122 b || is_ascii_digit b || (b =? chr ":") || (b =? chr "-").

Definition insert_review (task criterion hash record at_ : str) : stmt Db Z :=
  λ db,
    let n := next_id (reviews_sequence db) (map rv_id (reviews db)) in
    if i64_max <? n then (db, Err (Failure 13))
    else
      (with_reviews (reviews db ++
         [{| rv_id := n; rv_task_id := task; rv_acceptance_criterion_id := criterion;
             rv_subject_hash := hash; rv_record_json := record; rv_recorded_at := at_ |}]) n db,
       Ok n).

(** What is refused of a review before the task is looked up. *)
Definition check_review (task criterion hash record : str) : result unit StoreError :=
  let? _ := require_review_key "task id" task in
  let? _ := require_review_key "acceptance criterion id" criterion in
  let? _ := require_review_key "subject hash" hash in
  let? _ := refuse (negb (forallb is_hash_byte (utf8_encode hash)))
              "review subject hash may hold only a-z, 0-9, ':' and '-'" in
  let? _ := refuse (MAX_REVIEW_RECORD_BYTES <? str_len record) "review record is over 1048576 bytes" in
  let? _ := require_json "review record" record Json.check_container in
  refuse (negb (starts_with (lit "{") (trim_start_by is_whitespace record)))
    "review record must be a JSON object".

Definition review_append (task criterion hash record at_ : str) : M Z :=
  let* _checked := Ret (check_review task criterion hash record) in
  let* local := is_local_item task in
  if negb local then fail (BadScope (NoTaskToReview task))
  else sql (insert_review task criterion hash record at_).

Definition reviews_list (task : str) (criterion : option str) : M (list ReviewRow * bool) :=
  let* rows := sql (query (λ db,
    take (MAX_LIST_ROWS + 1)
      (sort_by (λ a b, rv_id b <=? rv_id a)
         (of_task (λ r, Some (rv_acceptance_criterion_id r)) criterion
            (List.filter (λ r, bool_decide (rv_task_id r = task)) (reviews db)))))) in
  ok (capped rows).

End Records.
