(* ===== verification/Leases.v ===== *)
(** * Leases: [rust/dc-store/src/lib.rs]

    One definition per method of [Store]. The time source, the random bytes and the
    statements are the effects of [Effects]; everything between two statements is
    plain code. *)

From S2P Require Import Prelude RustStr Json Time Effects Store.
Import Effects Store Tasks.

#[local] Open Scope Z_scope.

Module Leases.

(** ** Codes *)

Definition as_str (c : LeaseCode) : str :=
  match c with
  | Valid => lit "valid"
  | Expired => lit "lease_expired"
  | Invalid => lit "invalid_lease"
  | HeldByOther => lit "lease_held_by_other"
  end.

Definition recovery (c : LeaseCode) : option (str * str) :=
  match c with
  | Valid => None
  | Expired | Invalid => Some (lit "checkout_again", lit "devcouncil_checkout_task")
  | HeldByOther => Some (lit "pick_other_task", lit "devcouncil_next_task")
  end.

Inductive LeaseState : Type :=
  | Live
  | LapsedState
  | BadExpiry (value : str).

Record AcquireRequest := {
  rq_task_id : str;
  rq_owner : str;
  rq_agent : option str;
  rq_client_id : option str;
  rq_run_id : option str;
  rq_branch : option str;
  rq_ttl_seconds : option Z;
  rq_force : bool;
}.

Record RetiredLease := { rt_lease_id : str; rt_owner : str; rt_expires_at : str }.

Record Sweep := { live : list Lease; unreadable : list Lease }.

Definition MAX_EXPIRY_PASSES : nat := 8.

(** ** Helpers *)

Definition holder_of (l : Lease) : str :=
  if negb (bool_decide (owner l = [])) then owner l
  else default (lit "another agent") (client_id l).

(** [format!("{b:02x}")] of each byte. *)
Definition hex_char (d : Z) : char := if d <? 10 then 48 + d else 87 + d.
Definition hex (bytes : list Z) : str :=
  flat_map (λ b, [hex_char (b / 16); hex_char (b mod 16)]) bytes.

Definition new_id : M str := Rand 16 (λ bs, Ret (Ok (hex bs))).
Definition new_token : M str := Rand 32 (λ bs, Ret (Ok (hex bs))).

Definition iso (epoch : Z) : str := Time.format_iso_utc epoch.

Definition check_ttl (ttl_seconds : Z) : result unit StoreError :=
  if Time.validate_ttl ttl_seconds then Ok tt else Err (BadTtl ttl_seconds).

(** ** Lazy expiry *)

Definition select_active (task : str) : M (option Lease) := sql (select_active_stmt task).

Definition retire (l : Lease) : M bool :=
  let* now := now_epoch in
  let* changed := sql (update_leases (retire_where (id l) (expires_at l)) (close STALE (iso now))) in
  ok (bool_decide (length changed = 1%nat)).

Definition retire_active (lid : str) : M unit :=
  let* now := now_epoch in
  let* _changed := sql (update_leases (active_id_where lid) (close STALE (iso now))) in
  ok tt.

Fixpoint active_lease_passes (passes : nat) (task : str) : M (option Lease) :=
  match passes with
  | O => fail (LeaseHeld task (lit "a concurrent renewal; the lease changed on every read"))
  | S n =>
      let* found := select_active task in
      match found with
      | None => ok None
      | Some lease =>
          match expires_at lease with
          | None => ok (Some lease)
          | Some expires =>
              match Time.parse_iso_utc expires with
              | None => fail (BadTimestamp expires)
              | Some epoch =>
                  let* now := now_epoch in
                  if now <=? epoch then ok (Some lease)
                  else
                    let* gone := retire lease in
                    if gone : bool then ok None else active_lease_passes n task
              end
          end
      end
  end.

Definition active_lease (task : str) : M (option Lease) :=
  active_lease_passes MAX_EXPIRY_PASSES task.

(** ** Acquiring *)

(** The incumbent, cleared: refused without force, and an unreadable one retired
    only by force. *)
Definition clear_incumbent (req : AcquireRequest) : M (option RetiredLease) :=
  bind (active_lease (rq_task_id req)) (λ found,
    match found with
    | Ok (Some active) =>
        if negb (rq_force req) then fail (LeaseHeld (rq_task_id req) (holder_of active))
        else let* _done := retire_active (id active) in ok None
    | Ok None => ok None
    | Err (BadTimestamp value) =>
        if rq_force req then
          let* bad := select_active (rq_task_id req) in
          match bad with
          | Some l =>
              let* _done := retire_active (id l) in
              ok (Some {| rt_lease_id := id l; rt_owner := owner l;
                          rt_expires_at := default value (expires_at l) |})
          | None => ok None
          end
        else
          fail (BadTimestamp (value ++ lit " (task " ++ rq_task_id req
            ++ lit "'s lease has an unreadable expiry; a forced acquire retires it)"))
    | Err e => fail e
    end).

Definition new_lease (req : AcquireRequest) (lid tok : str) (now : Z) : Lease :=
  {| id := lid; task_id := rq_task_id req; owner := rq_owner req; agent := rq_agent req;
     client_id := rq_client_id req; run_id := rq_run_id req; branch := rq_branch req;
     token := tok; status := ACTIVE; created_at := iso now;
     expires_at := (λ ttl, iso (sat_add_i64 now ttl)) <$> rq_ttl_seconds req;
     released_at := None |}.

(** The insert, a lost race told as the conflict it is. *)
Definition insert_or_held (task : str) (lease : Lease) (retired : option RetiredLease) :
    M (Lease * option RetiredLease) :=
  Sql (insert_lease lease) (λ inserted,
    match inserted with
    | Ok _ => ok (lease, retired)
    | Err ConstraintViolation =>
        let* found := select_active task in
        fail (LeaseHeld task
          (match found with Some l => holder_of l | None => lit "another agent" end))
    | Err e => fail (ESql e)
    end).

Definition check_request_ttl (req : AcquireRequest) : M unit :=
  match rq_ttl_seconds req with Some ttl => Ret (check_ttl ttl) | None => ok tt end.

Definition acquire_in_transaction (req : AcquireRequest) : M (Lease * option RetiredLease) :=
  let* _ttl := check_request_ttl req in
  let* _task := require_acquirable (rq_task_id req) in
  let* retired := clear_incumbent req in
  let* now := now_epoch in
  let* lid := new_id in
  let* tok := new_token in
  insert_or_held (rq_task_id req) (new_lease req lid tok now) retired.

Definition acquire_outcome (req : AcquireRequest) : M (Lease * option RetiredLease) :=
  let* _ttl := check_request_ttl req in
  write_transaction (acquire_in_transaction req).

Definition acquire (req : AcquireRequest) : M Lease :=
  let* out := acquire_outcome req in ok out.1.

(** ** Using a lease *)

Definition classify_prior (prior : option str) : LeaseCode :=
  match prior with
  | Some st => if bool_decide (st = STALE) || bool_decide (st = RELEASED) then Expired else Invalid
  | None => Invalid
  end.

Definition diagnose (task tok : str) : M LeaseCode :=
  let* found := active_lease task in
  match found with
  | Some active => ok (if bool_decide (token active = tok) then Valid else HeldByOther)
  | None =>
      let* prior := sql (prior_status_stmt task tok) in
      ok (classify_prior prior)
  end.

Definition validate (task tok : str) : M bool :=
  let* code := diagnose task tok in ok (bool_decide (code = Valid)).

Definition release (task tok : str) : M bool :=
  let* found := active_lease task in
  match found with
  | None => ok false
  | Some active =>
      if negb (bool_decide (token active = tok)) then ok false
      else
        let* now := now_epoch in
        let* changed := sql (update_leases (release_where (id active) tok) (close RELEASED (iso now))) in
        ok (bool_decide (length changed = 1%nat))
  end.

Section Unixepoch.
(** SQLite's [unixepoch()]: the epoch of a time text, [None] where it reads none. *)
Context (unixepoch : str → option Z).

(** [WHERE id = ? AND task_id = ? AND lease_token = ? AND status = 'active'
    AND (expires_at IS NULL OR unixepoch(expires_at) >= ?)]. *)
Definition renew_where (lid task tok : str) (now : Z) (l : Lease) : bool :=
  bool_decide (id l = lid) && bool_decide (task_id l = task) && bool_decide (token l = tok)
  && is_active l
  && match expires_at l with
     | None => true
     | Some e => match unixepoch e with Some z => now <=? z | None => false end
     end.

(** Whether the expiry just read has passed, an error where it cannot be read. *)
Definition lapsed (active : Lease) (now : Z) : result bool StoreError :=
  match expires_at active with
  | None => Ok false
  | Some expiry =>
      match Time.parse_iso_utc expiry with
      | None => Err (BadTimestamp expiry)
      | Some epoch => Ok (epoch <? now)
      end
  end.

Definition renew (task tok : str) (ttl_seconds : Z) : M (option Lease) :=
  let* _ttl := Ret (check_ttl ttl_seconds) in
  let* found := active_lease task in
  match found with
  | None => ok None
  | Some active =>
      if negb (bool_decide (token active = tok)) then ok None
      else
        let* now := now_epoch in
        let* over := Ret (lapsed active now) in
        if over : bool then ok None
        else
          let* renewed := sql (update_leases (renew_where (id active) task tok now)
                                (set_expiry (iso (sat_add_i64 now ttl_seconds)))) in
          ok (head renewed)
  end.

End Unixepoch.

(** ** Listings *)

Definition judge_lease (now : Z) (l : Lease) : LeaseState :=
  match expires_at l with
  | None => Live
  | Some expires =>
      match Time.parse_iso_utc expires with
      | Some epoch => if epoch <? now then LapsedState else Live
      | None => BadExpiry expires
      end
  end.

Definition observe_leases : M (list (Lease * LeaseState)) :=
  let* rows := sql observe_stmt in
  let* now := now_epoch in
  ok (map (λ l, (l, judge_lease now l)) rows).

(** One task of the sweep. *)
Definition sweep_task (out : Sweep) (task : str) : M Sweep :=
  bind (active_lease task) (λ found,
    match found with
    | Ok (Some l) => ok {| live := live out ++ [l]; unreadable := unreadable out |}
    | Ok None => ok out
    | Err (BadTimestamp _) =>
        let* bad := select_active task in
        ok match bad with
           | Some l => {| live := live out; unreadable := unreadable out ++ [l] |}
           | None => out
           end
    | Err e => fail e
    end).

Fixpoint sweep_loop (tasks : list str) (out : Sweep) : M Sweep :=
  match tasks with
  | [] => ok out
  | t :: ts => let* out := sweep_task out t in sweep_loop ts out
  end.

Definition sweep_expired : M Sweep :=
  let* tasks := sql active_tasks_stmt in
  sweep_loop tasks {| live := []; unreadable := [] |}.

Definition active_leases : M (list Lease) :=
  let* out := sweep_expired in ok (sort_by by_task (live out)).

Definition unreadable_leases : M (list Lease) :=
  let* out := sweep_expired in ok (sort_by by_task (unreadable out)).

End Leases.
