(* ===== verification/Ready.v ===== *)
(** * Ready work and a task's scope

    [ready_tasks] of [rust/dc-store/src/tasks.rs], and [task] and
    [set_agent_appended_planned_files] of [rust/dc-store/src/lib.rs]. *)

From S2P Require Import Prelude RustStr Json Time Effects Store Leases.
Import Effects Store Tasks Leases.

#[local] Open Scope Z_scope.

Module Ready.

(** ** Ready tasks *)

Inductive ReadyMode : Type := Enforce | Advisory | Off.

#[export] Instance ReadyMode_eq_dec : EqDecision ReadyMode.
Proof. solve_decision. Defined.

Definition parse_mode (raw : str) : option ReadyMode :=
  if bool_decide (raw = lit "enforce") then Some Enforce
  else if bool_decide (raw = lit "advisory") then Some Advisory
  else if bool_decide (raw = lit "off") then Some Off
  else None.

Definition mode_str (m : ReadyMode) : str :=
  match m with Enforce => lit "enforce" | Advisory => lit "advisory" | Off => lit "off" end.

Record ReadyTask := { r_id : str; r_blocking_gap_count : Z }.

Definition ready_to_checkout (t : ReadyTask) : bool := r_blocking_gap_count t =? 0.

(** The subquery that counts [gaps g WHERE g.task_id = i.id AND g.blocking = 1]. *)
Definition blocking_gaps (db : Db) (task : str) : Z :=
  Z.of_nat (length (List.filter
    (λ g, bool_decide (g_task_id g = Some task) && (g_blocking g =? 1)) (gaps db))).

(** The [WHERE] of the listing. *)
Definition ready_where (db : Db) (i : WorkItem) : bool :=
  (i_deleted i =? 0) && (i_archived i =? 0) && bool_decide (i_status i = lit "ready")
  && bool_decide (i_repository i = LOCAL_REPOSITORY_ID)
  && negb (existsb (active_for (i_id i)) (leases db)).

(** [blocking > 0, coalesce(priority, 2), coalesce(position, 0)], then the id: compared
    lexicographically, as text is. *)
Definition ready_key (db : Db) (i : WorkItem) : list Z :=
  [if 0 <? blocking_gaps db (i_id i) then 1 else 0; default 2 (i_priority i);
   default 0 (i_position i)].

Definition ready_leb (db : Db) (a b : WorkItem) : bool :=
  str_leb (ready_key db a ++ i_id a) (ready_key db b ++ i_id b).

Definition ready_row (db : Db) (i : WorkItem) : ReadyTask :=
  {| r_id := i_id i; r_blocking_gap_count := blocking_gaps db (i_id i) |}.

Definition ready_stmt : stmt Db (list ReadyTask) :=
  query (λ db, map (ready_row db)
    (sort_by (ready_leb db) (List.filter (ready_where db) (rows_of db)))).

(** The loop over the rows. *)
Definition offered (mode : ReadyMode) (t : ReadyTask) : bool :=
  negb (bool_decide (mode = Enforce) && negb (ready_to_checkout t)).

Definition ready_tasks (mode : ReadyMode) : M (list ReadyTask) :=
  let* _swept := sweep_expired in
  let* present := items_present in
  if negb present then ok []
  else let* rows := sql ready_stmt in ok (List.filter (offered mode) rows).

(** ** A task's scope *)

Record Task := {
  t_id : str;
  t_title : str;
  t_status : str;
  t_difficulty : option str;
  planned_files_json : str;
  allowed_commands_json : str;
  expected_tests_json : str;
  forbidden_changes_json : str;
  agent_appended_planned_files_json : str;
  requirement_ids_json : str;
  acceptance_criterion_ids_json : str;
  blocking_gap_count : Z;
}.

Definition COLUMNS : list str :=
  map lit ["scope.planned_files"; "task_scope_appends.planned_files_json";
           "scope.allowed_commands"; "task_scope_appends.allowed_commands_json";
           "scope.expected_tests"; "task_scope_appends.expected_tests_json";
           "scope.forbidden_changes"; "scope.requirement_ids";
           "scope.acceptance_criterion_ids"]%string.

Definition empty_array : str := lit "[]".

Definition append_row (db : Db) (task : str) : option ScopeRow :=
  head (List.filter (λ s, bool_decide (s_task_id s = task)) (appends db)).

(** The columns of the row, in the order of [COLUMNS]. *)
Definition scope_columns (i : WorkItem) (a : option ScopeRow) : list str :=
  [ default empty_array (i_planned_files i);
    default empty_array (s_planned_files <$> a);
    default empty_array (i_allowed_commands i);
    default empty_array (s_allowed_commands <$> a);
    default empty_array (i_expected_tests i);
    default empty_array (s_expected_tests <$> a);
    default empty_array (i_forbidden_changes i);
    default empty_array (i_requirement_ids i);
    default empty_array (i_acceptance_criterion_ids i) ].

Definition task_stmt (task : str) : stmt Db (option (WorkItem * list str * Z)) :=
  query (λ db,
    (λ i, (i, scope_columns i (append_row db (i_id i)), blocking_gaps db (i_id i)))
    <$> head (List.filter (local_where task) (rows_of db))).

(** The first column that is not a JSON array ends the read. *)
Fixpoint check_columns (task : str) (columns values : list str) : result unit StoreError :=
  match columns, values with
  | c :: cs, v :: vs =>
      match Json.check_array v with
      | Err why => Err (BadScope (NotAnArray task c why))
      | Ok _ => check_columns task cs vs
      end
  | _, _ => Ok tt
  end.

Definition column (values : list str) (n : nat) : str := nth n values [].

Definition task_of (i : WorkItem) (scope : list str) (blocking : Z) : Task :=
  {| t_id := i_id i; t_title := i_title i; t_status := i_status i;
     t_difficulty := i_difficulty i;
     planned_files_json := Json.merge_json_arrays (column scope 0) (column scope 1);
     allowed_commands_json := Json.merge_json_arrays (column scope 2) (column scope 3);
     expected_tests_json := Json.merge_json_arrays (column scope 4) (column scope 5);
     forbidden_changes_json := column scope 6;
     agent_appended_planned_files_json := column scope 1;
     requirement_ids_json := column scope 7;
     acceptance_criterion_ids_json := column scope 8;
     blocking_gap_count := blocking |}.

Definition task (task_id : str) : M (option Task) :=
  let* present := items_present in
  if negb present then ok None
  else
    let* row := sql (task_stmt task_id) in
    match row with
    | None => ok None
    | Some (i, scope, blocking) =>
        let* _checked := Ret (check_columns task_id COLUMNS scope) in
        ok (Some (task_of i scope blocking))
    end.

(** ** Widening a task's scope *)

Inductive ScopeWrite : Type :=
  | Written
  | NoTask
  | NotLeased (code : LeaseCode)
  | Stale (current : str).

Definition MAX_AGENT_APPENDED_SCOPE_BYTES : Z := 64 * 1024.

(** [INSERT OR IGNORE INTO task_scope_appends (task_id)]. *)
Definition ensure_append_row (task : str) : stmt Db unit :=
  λ db,
    if existsb (λ s, bool_decide (s_task_id s = task)) (appends db) then (db, Ok tt)
    else (with_appends (appends db ++
            [{| s_task_id := task; s_planned_files := empty_array;
                s_allowed_commands := empty_array; s_expected_tests := empty_array |}]) db, Ok tt).

Definition swap_where (task expected : str) (s : ScopeRow) : bool :=
  bool_decide (s_task_id s = task)
  && bool_decide (Json.trim_ws (s_planned_files s) = expected).

Definition set_planned (replacement : str) (s : ScopeRow) : ScopeRow :=
  {| s_task_id := s_task_id s; s_planned_files := replacement;
     s_allowed_commands := s_allowed_commands s; s_expected_tests := s_expected_tests s |}.

(** [UPDATE … SET planned_files_json = ? WHERE task_id = ? AND trim(…) = ?]. *)
Definition swap_stmt (task expected replacement : str) : stmt Db nat :=
  λ db,
    (with_appends
       (map (λ s, if swap_where task expected s then set_planned replacement s else s)
          (appends db)) db,
     Ok (length (List.filter (swap_where task expected) (appends db)))).

Definition current_stmt (task : str) : stmt Db str :=
  λ db, (db, match append_row db task with
             | Some s => Ok (s_planned_files s)
             | None => Err (Failure 0)
             end).

Definition swap_agent_appended (task tok expected replacement : str) : M ScopeWrite :=
  let* local := is_local_item task in
  if negb local then ok NoTask
  else
    let* code := diagnose task tok in
    if negb (bool_decide (code = Valid)) then ok (NotLeased code)
    else
      let* _row := sql (ensure_append_row task) in
      let* updated := sql (swap_stmt task expected replacement) in
      if (updated =? 0)%nat then
        let* current := sql (current_stmt task) in
        match Json.check_array current with
        | Err why => fail (BadScope (StoredNotAnArray task why))
        | Ok _ => ok (Stale current)
        end
      else ok Written.

(** The checks before the transaction. *)
Definition check_replacement (replacement : str) : result unit StoreError :=
  let len := length (utf8_encode replacement) in
  if MAX_AGENT_APPENDED_SCOPE_BYTES <? Z.of_nat len then Err (BadScope (TooLarge len))
  else
    match Json.check_planned_files replacement with
    | Err why => Err (BadScope (NotPlannedFiles replacement why))
    | Ok _ => Ok tt
    end.

Definition set_agent_appended_planned_files (task tok expected replacement : str) :
    M ScopeWrite :=
  let replacement := Json.trim_ws replacement in
  let expected := Json.trim_ws expected in
  let* _checked := Ret (check_replacement replacement) in
  write_transaction (swap_agent_appended task tok expected replacement).

End Ready.
