(* ===== verification/LeaseHistory.v ===== *)
(** * What no interleaving of calls can do to the lease table

    Every statement of every method moves the table along [history], wherever the
    method has got to and whatever the others wrote in between. *)

From S2P Require Import Prelude RustStr Json Time Effects Store Leases Ready.
Import Effects Store Tasks Leases Ready.

#[local] Open Scope Z_scope.

Module LeaseHistory.

(** ** The invariant *)

(** Ids are keys, and a task has at most one active row. *)
Definition exclusive (db : Db) : Prop :=
  NoDup (id <$> leases db) ∧ NoDup (task_id <$> List.filter is_active (leases db)).

(** ** How a row may change *)

Definition same_identity (l l' : Lease) : Prop :=
  id l' = id l ∧ task_id l' = task_id l ∧ owner l' = owner l ∧ agent l' = agent l
  ∧ client_id l' = client_id l ∧ run_id l' = run_id l ∧ branch l' = branch l
  ∧ token l' = token l ∧ created_at l' = created_at l.

Definition closed (l : Lease) : Prop :=
  (status l = STALE ∨ status l = RELEASED) ∧ is_Some (released_at l).

(** A row that is not active never changes. An active one may have its expiry moved,
    or be closed with the instant it was. *)
Definition evolves (l l' : Lease) : Prop :=
  l' = l ∨ (status l = ACTIVE ∧ same_identity l l'
            ∧ ((status l' = ACTIVE ∧ released_at l' = released_at l) ∨ closed l')).

#[export] Instance same_identity_preorder : PreOrder same_identity.
Proof.
  split; [by intros l|]. intros l l' l'' H H'. unfold same_identity in *.
  destruct_and!. split_and!; congruence.
Qed.

Lemma closed_not_active l : closed l → status l ≠ ACTIVE.
Proof. by intros [[-> | ->] _]. Qed.

#[export] Instance evolves_preorder : PreOrder evolves.
Proof.
  split; [by left|]. intros l l' l'' [->|(Ha & Hs & Hc)]; [done|].
  intros [->|(Ha' & Hs' & Hc')]; [by right|]. right. split_and!; [done|by etrans|].
  destruct Hc as [[_ Hr]|Hc]; [|by apply closed_not_active in Hc].
  destruct Hc' as [[? Hr']|]; [left; split; congruence|by right].
Qed.

(** Rows are never removed or reordered, and new ones come last. *)
Definition lease_rows (db db' : Db) : Prop :=
  ∃ old new, leases db' = old ++ new ∧ Forall2 evolves (leases db) old.

#[export] Instance lease_rows_preorder : PreOrder lease_rows.
Proof.
  split.
  - intros db. exists (leases db), []. split; [by rewrite app_nil_r|by apply reflexivity].
  - intros d1 d2 d3 (o & n & E & H) (o' & n' & E' & H'). rewrite E in H'.
    apply Forall2_app_inv_l in H' as (o1 & o2 & H1 & H2 & ->).
    exists o1, (o2 ++ n'). split; [by rewrite E', app_assoc|by etrans].
Qed.

(** Nothing of the store but leases and appended scope differs. *)
Definition elsewhere_same (db db' : Db) : Prop :=
  with_leases [] (with_appends [] db') = with_leases [] (with_appends [] db).

#[export] Instance elsewhere_same_preorder : PreOrder elsewhere_same.
Proof. unfold elsewhere_same. split; [by intros db|intros d1 d2 d3 H1 H2; by rewrite H2]. Qed.

Lemma same_items db db' : elsewhere_same db db' → work_items db' = work_items db.
Proof. intros H. exact (f_equal work_items H). Qed.

Lemma same_gaps db db' : elsewhere_same db db' → gaps db' = gaps db.
Proof. intros H. exact (f_equal gaps H). Qed.

Definition history (db db' : Db) : Prop := lease_rows db db' ∧ elsewhere_same db db'.

#[export] Instance history_preorder : PreOrder history.
Proof.
  split; [by intros db; split|]. intros d1 d2 d3 [H1 H2] [H3 H4]. split; by etrans.
Qed.

(** One step of any call. *)
Definition advances (db db' : Db) : Prop := exclusive db → exclusive db' ∧ history db db'.

#[export] Instance advances_preorder : PreOrder advances.
Proof.
  split; [by intros db H|]. intros d1 d2 d3 H1 H2 He.
  destruct (H1 He) as [He2 Hh]. destruct (H2 He2) as [He3 Hh']. split; [done|by etrans].
Qed.

(** ** The statements *)

(** A change an [UPDATE] may make to the rows it selects. *)
Definition tame (where_ : Lease → bool) (set : Lease → Lease) : Prop :=
  ∀ l, where_ l = true → evolves l (set l) ∧ id (set l) = id l ∧ task_id (set l) = task_id l.

Lemma is_active_true l : is_active l = true ↔ status l = ACTIVE.
Proof. unfold is_active. by rewrite bool_decide_eq_true. Qed.

Lemma evolves_active l l' : evolves l l' → is_active l' = true → is_active l = true.
Proof. rewrite !is_active_true. intros [-> |(? & _)]; done. Qed.

Lemma active_tasks_evolve ls ls' :
  Forall2 (λ l l', evolves l l' ∧ id l' = id l ∧ task_id l' = task_id l) ls ls' →
  id <$> ls' = id <$> ls
  ∧ sublist (task_id <$> List.filter is_active ls') (task_id <$> List.filter is_active ls).
Proof.
  induction 1 as [|l l' ls ls' (He & Hi & Ht) _ [IHi IHs]]; [done|].
  split; [cbn; by rewrite Hi, IHi|]. cbn [List.filter].
  destruct (is_active l') eqn:E; [rewrite (evolves_active l l') by done|];
    [cbn; rewrite Ht; by constructor|].
  destruct (is_active l); cbn; [by constructor|done].
Qed.

Lemma update_advances where_ set db :
  tame where_ set → advances db (update_leases where_ set db).1.
Proof.
  intros Hs [Hi Ht]. cbn.
  assert (Forall2 (λ l l', evolves l l' ∧ id l' = id l ∧ task_id l' = task_id l)
    (leases db) (map (λ l, if where_ l then set l else l) (leases db))) as H.
  { induction (leases db) as [|l ls IH]; [constructor|]. cbn [map]. constructor.
    - destruct (where_ l) eqn:E; [by apply Hs|by split; [left|]].
    - cbn in Hi, Ht. apply NoDup_cons in Hi as [_ Hi]. apply IH; [done|].
      destruct (is_active l); [by apply NoDup_cons in Ht as [_ Ht]|done]. }
  apply active_tasks_evolve in H as Hx. destruct Hx as [Ei Es]. split; [split|].
  - cbn. by rewrite Ei.
  - cbn. by eapply sublist_NoDup.
  - split; [|done]. eexists _, []. rewrite app_nil_r. split; [reflexivity|].
    eapply Forall2_impl; [exact H|]. by intros l l' [? _].
Qed.

Lemma close_tame where_ st at_ :
  (∀ l, where_ l = true → is_active l = true) → st = STALE ∨ st = RELEASED →
  tame where_ (close st at_).
Proof.
  intros Hw Hst l Hl. split; [|done]. right. split_and!; [by apply is_active_true, Hw|done|].
  right. split; [done|by eexists].
Qed.

Lemma set_expiry_tame where_ at_ :
  (∀ l, where_ l = true → is_active l = true) → tame where_ (set_expiry at_).
Proof.
  intros Hw l Hl. split; [|done]. apply Hw, is_active_true in Hl. right. split_and!; [done|done|].
  by left.
Qed.

Lemma insert_advances l db : advances db (insert_lease l db).1.
Proof.
  intros [Hi Ht]. unfold insert_lease. destruct (_ || _) eqn:E; [by split|].
  apply orb_false_iff in E as [Eid Eact]. cbn. split; [split|].
  - cbn. rewrite fmap_app. apply NoDup_app. split_and!; [done| |by apply NoDup_singleton].
    intros x Hx Hx'. cbn in Hx'. apply list_elem_of_singleton in Hx' as ->.
    apply list_elem_of_fmap in Hx as (r & Hr & Hin).
    rewrite existsb_false in Eid. specialize (Eid r Hin). by apply bool_decide_eq_false in Eid.
  - cbn. rewrite List.filter_app, fmap_app. cbn [List.filter].
    destruct (is_active l); [|by rewrite app_nil_r].
    apply NoDup_app. split_and!; [done| |by apply NoDup_singleton].
    intros x Hx Hx'. cbn in Hx'. apply list_elem_of_singleton in Hx' as ->.
    apply list_elem_of_fmap in Hx as (r & Hr & Hin).
    rewrite list_elem_of_In, filter_In, <- list_elem_of_In in Hin. destruct Hin as [Hin Hact].
    cbn in Eact. rewrite existsb_false in Eact. specialize (Eact r Hin).
    unfold active_for in Eact. rewrite Hact, andb_true_r in Eact.
    by apply bool_decide_eq_false in Eact.
  - split; [|done]. cbn. exists (leases db), [l]. split; [done|by apply reflexivity].
Qed.

(** A statement that leaves the table alone. *)
Lemma same_leases_advances db db' :
  leases db' = leases db → elsewhere_same db db' → advances db db'.
Proof.
  intros El Ew He. unfold exclusive, history, lease_rows. rewrite El. split; [done|]. split; [|done].
  exists (leases db), []. split; [by rewrite app_nil_r|by apply reflexivity].
Qed.

(** ** The methods *)

#[local] Abbreviation adv := (keeps advances).

Lemma adv_sql {B} (s : stmt Db B) : (∀ db, advances db (s db).1) → adv (sql s).
Proof. intros Hs. cbn. by split; [|intros [b|e]]. Qed.

Lemma adv_query {B} (f : Db → B) : adv (sql (query f)).
Proof. apply adv_sql. intros db. by apply reflexivity. Qed.

Lemma adv_let {A C} (p : M A) (f : A → M C) : adv p → (∀ a, adv (f a)) → adv (bind_ok p f).
Proof. intros. by apply keeps_bind_ok. Qed.

Lemma adv_now : adv now_epoch.
Proof. by intros z. Qed.

Lemma adv_ok {A} (a : A) : adv (ok a).
Proof. done. Qed.

Lemma adv_fail {A} e : adv (fail (A := A) e).
Proof. done. Qed.

Lemma adv_ret {A} (r : A) : adv (Ret r).
Proof. done. Qed.

Lemma adv_update where_ set : tame where_ set → adv (sql (update_leases where_ set)).
Proof. intros H. apply adv_sql. intros db. by apply update_advances. Qed.

Lemma adv_txn {B} (body : M B) : adv body → adv (write_transaction body).
Proof. intros H. cbn. by split. Qed.

Create HintDb adv.
#[local] Hint Resolve adv_query adv_now adv_ok adv_fail adv_ret adv_txn : adv.
#[local] Hint Resolve adv_let | 5 : adv.

(** Splits the matches of a method and steps over its statements. *)
Ltac adv_steps :=
  repeat first
    [ solve [auto 1 with adv]
    | apply adv_query
    | apply adv_let; [|intros]
    | match goal with
      | |- keeps _ (if ?b then _ else _) => destruct b
      | |- keeps _ (match ?x with _ => _ end) => destruct x
      end ].

Lemma adv_select task : adv (select_active task).
Proof. apply adv_query. Qed.
#[local] Hint Resolve adv_select : adv.

Lemma where_active l a b : a && is_active l && b = true → is_active l = true.
Proof. rewrite !andb_true_iff. by intros [[_ ?] _]. Qed.

Lemma adv_retire l : adv (retire l).
Proof.
  unfold retire. adv_steps. apply adv_update, close_tame; [|by left].
  intros r. apply where_active.
Qed.

Lemma adv_retire_active lid : adv (retire_active lid).
Proof.
  unfold retire_active. adv_steps. apply adv_update, close_tame; [|by left].
  intros r [_ ?]%andb_true_iff. done.
Qed.
#[local] Hint Resolve adv_retire adv_retire_active : adv.

Lemma adv_active_passes n task : adv (active_lease_passes n task).
Proof. induction n as [|n IH]; cbn [active_lease_passes]; adv_steps; done. Qed.

Lemma adv_active task : adv (active_lease task).
Proof. apply adv_active_passes. Qed.
#[local] Hint Resolve adv_active : adv.

Lemma adv_match {A C} (p : M A) (f : result A StoreError → M C) :
  adv p → (∀ r, adv (f r)) → adv (bind p f).
Proof. intros. by apply keeps_bind. Qed.

Lemma adv_acquirable task : adv (require_acquirable task).
Proof.
  unfold require_acquirable. adv_steps.
Qed.

Lemma adv_clear req : adv (clear_incumbent req).
Proof.
  unfold clear_incumbent. apply adv_match; [auto with adv|]. intros [[l|]|[]]; adv_steps.
Qed.

Lemma adv_insert task l retired : adv (insert_or_held task l retired).
Proof.
  cbn. split; [intros db; apply insert_advances|]. intros [[]|[|c]]; [done| |done].
  change (adv (bind_ok (select_active task)
    (λ found, fail (A := Lease * option RetiredLease) (LeaseHeld task
      match found with Some l => holder_of l | None => lit "another agent" end)))).
  adv_steps.
Qed.
#[local] Hint Resolve adv_acquirable adv_clear adv_insert : adv.

Lemma adv_ttl req : adv (check_request_ttl req).
Proof. unfold check_request_ttl. by destruct (rq_ttl_seconds req). Qed.
#[local] Hint Resolve adv_ttl : adv.

Lemma adv_new_id : adv new_id. Proof. done. Qed.
Lemma adv_new_token : adv new_token. Proof. done. Qed.
#[local] Hint Resolve adv_new_id adv_new_token : adv.

Lemma adv_acquire_outcome req : adv (acquire_outcome req).
Proof.
  unfold acquire_outcome. adv_steps. apply adv_txn. unfold acquire_in_transaction. adv_steps.
Qed.

Lemma adv_diagnose task tok : adv (diagnose task tok).
Proof. unfold diagnose. adv_steps. Qed.
#[local] Hint Resolve adv_diagnose : adv.

Lemma adv_release task tok : adv (release task tok).
Proof.
  unfold release. adv_steps. apply adv_update, close_tame; [|by right].
  intros r [_ ?]%andb_true_iff. done.
Qed.

Lemma adv_renew unixepoch task tok ttl : adv (renew unixepoch task tok ttl).
Proof.
  unfold renew. adv_steps. apply adv_update, set_expiry_tame. intros r. apply where_active.
Qed.

Lemma adv_sweep tasks out : adv (sweep_loop tasks out).
Proof.
  revert out. induction tasks as [|t ts IH]; intros out; cbn [sweep_loop]; [done|].
  apply adv_let; [|done]. unfold sweep_task. apply adv_match; [auto with adv|].
  intros [[l|]|[]]; adv_steps.
Qed.

Lemma adv_sweep_expired : adv sweep_expired.
Proof. unfold sweep_expired. adv_steps. apply adv_sweep. Qed.
#[local] Hint Resolve adv_sweep_expired : adv.

Lemma adv_ready mode : adv (ready_tasks mode).
Proof. unfold ready_tasks. adv_steps. Qed.

Lemma adv_local task : adv (is_local_item task).
Proof. unfold is_local_item. adv_steps. Qed.
#[local] Hint Resolve adv_local : adv.

Lemma adv_append_row task : adv (sql (ensure_append_row task)).
Proof.
  apply adv_sql. intros db. unfold ensure_append_row. case_if; [by apply reflexivity|].
  by apply same_leases_advances.
Qed.

Lemma adv_swap_stmt task e r : adv (sql (swap_stmt task e r)).
Proof. apply adv_sql. intros db. by apply same_leases_advances. Qed.

Lemma adv_current task : adv (sql (current_stmt task)).
Proof. apply adv_sql. intros db. by apply reflexivity. Qed.
#[local] Hint Resolve adv_append_row adv_swap_stmt adv_current : adv.

Lemma adv_set_appended task tok e r : adv (set_agent_appended_planned_files task tok e r).
Proof.
  unfold set_agent_appended_planned_files. adv_steps. apply adv_txn.
  unfold swap_agent_appended. adv_steps.
Qed.

Lemma adv_task t : adv (task t).
Proof. unfold task. adv_steps. Qed.

End LeaseHistory.
