(* ===== verification/LeaseSpec.v ===== *)
(** * What each lease method does when nothing runs beside it

    One [wp] lemma per method, over a table where [exclusive] holds, for any clock
    readings and any failing statement. *)

From S2P Require Import Prelude RustStr Json Time Effects Store Leases Ready LeaseHistory.
Import Effects Store Tasks Leases Ready LeaseHistory.

#[local] Open Scope Z_scope.

Module LeaseSpec.

(** ** Rows found and rows replaced *)

(** The active row of a task. *)
Definition current (db : Db) (task : str) : option Lease :=
  head (List.filter (active_for task) (leases db)).

(** The table with one row replaced by its successor. *)
Definition replace_lease (l' : Lease) (db : Db) : Db :=
  with_leases (map (λ l, if bool_decide (id l = id l') then l' else l) (leases db)) db.

(** A test that only one row of a keyed table can pass. *)
Lemma filter_one {K} (key : Lease → K) (p : Lease → bool) ls l :
  NoDup (key <$> ls) → l ∈ ls → p l = true → (∀ x, p x = true → key x = key l) →
  List.filter p ls = [l].
Proof.
  intros Hnd Hin Hp Hk. induction ls as [|x ls IH]; [by apply not_elem_of_nil in Hin|].
  cbn in Hnd. apply NoDup_cons in Hnd as [Hx Hnd]. cbn [List.filter].
  apply elem_of_cons in Hin as [<-|Hin].
  - rewrite Hp. f_equal. apply filter_false. intros y Hy.
    apply not_true_iff_false. intros Hpy. apply Hx. rewrite <- (Hk y Hpy).
    by apply list_elem_of_fmap_2.
  - destruct (p x) eqn:Hpx; [|by apply IH]. exfalso. apply Hx. rewrite (Hk x Hpx).
    by apply list_elem_of_fmap_2.
Qed.

Lemma map_one {K} `{EqDecision K} (key : Lease → K) (p : Lease → bool) (set : Lease → Lease) ls l :
  NoDup (key <$> ls) → l ∈ ls → p l = true → (∀ x, p x = true → key x = key l) →
  map (λ x, if p x then set x else x) ls
  = map (λ x, if bool_decide (key x = key l) then set l else x) ls.
Proof.
  intros Hnd Hin Hp Hk. apply map_ext_in. intros x Hx%list_elem_of_In.
  destruct (p x) eqn:Hpx.
  - rewrite bool_decide_eq_true_2 by (by apply Hk).
    assert (x ∈ List.filter p ls) as H by (by apply elem_of_filter_bool).
    rewrite (filter_one key p ls l) in H by done. by apply list_elem_of_singleton in H as ->.
  - case_bool_decide as Hxl; [|done].
    assert (x = l) as ->; [|congruence].
    apply list_elem_of_lookup in Hx as [i Hi], Hin as [j Hj].
    assert (i = j) as ->; [|congruence]. eapply NoDup_lookup; [exact Hnd|..];
      rewrite list_lookup_fmap, ?Hi, ?Hj; cbn; by rewrite ?Hxl.
Qed.

Lemma current_Some db task l :
  current db task = Some l → l ∈ leases db ∧ task_id l = task ∧ is_active l = true.
Proof.
  unfold current. intros H.
  assert (l ∈ List.filter (active_for task) (leases db)) as Hl.
  { destruct (List.filter _ _); [done|]. cbn in H. simplify_eq. by left. }
  apply elem_of_filter_bool in Hl as [Hl Ha]. unfold active_for in Ha.
  apply andb_true_iff in Ha as [Ht%bool_decide_eq_true Ha]. done.
Qed.

Lemma current_None db task :
  current db task = None ↔ ∀ l, l ∈ leases db → active_for task l = false.
Proof.
  unfold current. split.
  - intros H l Hl. apply not_true_iff_false. intros Ha.
    assert (l ∈ List.filter (active_for task) (leases db)) as Hf
      by (by apply elem_of_filter_bool).
    destruct (List.filter _ _); [by apply not_elem_of_nil in Hf|done].
  - intros H. by rewrite filter_false.
Qed.

Lemma current_unique db task l :
  exclusive db → l ∈ leases db → active_for task l = true → current db task = Some l.
Proof.
  intros [_ Ht] Hl Ha. unfold current.
  assert (List.filter (active_for task) (leases db)
          = List.filter (λ r, bool_decide (task_id r = task)) (List.filter is_active (leases db))) as ->.
  { clear. induction (leases db) as [|x ls IH]; [done|]. cbn [List.filter]. unfold active_for at 1.
    destruct (is_active x); cbn [List.filter]; [rewrite andb_true_r|rewrite andb_false_r];
      [by rewrite IH|done]. }
  unfold active_for in Ha. apply andb_true_iff in Ha as [Htk%bool_decide_eq_true Ha].
  erewrite (filter_one task_id); [done|exact Ht|by apply elem_of_filter_bool| |].
  - by apply bool_decide_eq_true.
  - intros x Hx%bool_decide_eq_true. congruence.
Qed.

(** An update that selects exactly the row [l]. *)
Lemma update_one where_ set db l :
  exclusive db → l ∈ leases db → where_ l = true → (∀ x, where_ x = true → id x = id l) →
  id (set l) = id l →
  update_leases where_ set db = (replace_lease (set l) db, Ok [set l]).
Proof.
  intros [Hi _] Hl Hw Hx Hs. unfold update_leases, replace_lease. f_equal.
  - f_equal. rewrite (map_one id where_ set (leases db) l) by done. by rewrite Hs.
  - by rewrite (filter_one id where_ (leases db) l) by done.
Qed.

(** ** The calculus on the store's vocabulary *)

Section Spec.
Context (reading : Z → Prop).
#[local] Abbreviation wp := (wp reading).

Lemma wp_sql {B} (s : stmt Db B) db (Q : Db → result B StoreError → Prop) :
  wp (sql s) db Q ↔
  Q (s db).1 (match (s db).2 with Ok b => Ok b | Err e => Err (ESql e) end)
  ∧ ∀ e, Q db (Err (ESql (Failure e))).
Proof. done. Qed.

Lemma wp_query {B} (f : Db → B) db (Q : Db → result B StoreError → Prop) :
  wp (sql (query f)) db Q ↔ Q db (Ok (f db)) ∧ ∀ e, Q db (Err (ESql (Failure e))).
Proof. done. Qed.

Lemma wp_now {B} (f : Z → M B) db Q :
  wp (bind_ok now_epoch f) db Q ↔ ∀ z, reading z → wp (f z) db Q.
Proof. done. Qed.

Lemma wp_let {A C} (p : M A) (f : A → M C) db Q :
  wp (bind_ok p f) db Q
  ↔ wp p db (λ db' r, match r with Ok a => wp (f a) db' Q | Err e => Q db' (Err e) end).
Proof. apply wp_bind_ok. Qed.

(** Only a failed statement is reported as [StoreError::Sql]. *)
Definition sql_failure (e : StoreError) : Prop := ∃ c, e = ESql (Failure c).

(** ** Lazy expiry *)

Definition lapsed_at (l : Lease) (now : Z) : Prop :=
  ∃ e z, expires_at l = Some e ∧ Time.parse_iso_utc e = Some z ∧ z < now.
Definition live_at (l : Lease) (now : Z) : Prop :=
  expires_at l = None ∨ ∃ e z, expires_at l = Some e ∧ Time.parse_iso_utc e = Some z ∧ now ≤ z.

(** The row is found past its expiry at a reading of the clock, and closed. *)
Definition expired_in (db db' : Db) (l : Lease) : Prop :=
  ∃ now now', reading now ∧ reading now' ∧ lapsed_at l now
    ∧ db' = replace_lease (close STALE (iso now') l) db.

Definition active_spec (task : str) (db db' : Db) (r : result (option Lease) StoreError) : Prop :=
  match r with
  | Ok (Some l) =>
      db' = db ∧ current db task = Some l
      ∧ (expires_at l = None ∨ ∃ now, reading now ∧ live_at l now)
  | Ok None =>
      (db' = db ∧ current db task = None)
      ∨ ∃ l, current db task = Some l ∧ expired_in db db' l
  | Err (BadTimestamp v) =>
      db' = db ∧ ∃ l, current db task = Some l ∧ expires_at l = Some v
                      ∧ Time.parse_iso_utc v = None
  | Err e => db' = db ∧ sql_failure e
  end.

Lemma wp_retire db l (Q : Db → result bool StoreError → Prop) :
  exclusive db → l ∈ leases db → is_active l = true →
  (∀ now, reading now → Q (replace_lease (close STALE (iso now) l) db) (Ok true)) →
  (∀ e, Q db (Err (ESql (Failure e)))) →
  wp (retire l) db Q.
Proof.
  intros He Hl Ha HQ Hf. unfold retire. rewrite wp_now. intros now Hnow.
  rewrite wp_let, wp_sql.
  rewrite (update_one _ _ db l); [split; [by apply HQ|done]|done|done| | |done].
  - unfold retire_where. rewrite Ha, !bool_decide_eq_true_2 by done. done.
  - intros x. unfold retire_where. rewrite !andb_true_iff. intros [[?%bool_decide_eq_true _] _]. done.
Qed.

Lemma wp_active_lease db task :
  exclusive db → wp (active_lease task) db (active_spec task db).
Proof.
  intros He. unfold active_lease, MAX_EXPIRY_PASSES. cbn [active_lease_passes].
  unfold select_active, select_active_stmt. rewrite wp_let, wp_query. split; [|intros e; split; [done|by eexists]].
  fold (current db task). destruct (current db task) as [l|] eqn:Hc; [|by left].
  destruct (expires_at l) as [e|] eqn:Hexp; [|by split_and!; [| |left]].
  destruct (Time.parse_iso_utc e) as [z|] eqn:Hz; [|split; [done|by exists l]].
  rewrite wp_now. intros now Hnow. destruct (Z.leb_spec now z) as [Hle|Hlt].
  - split_and!; [done..|]. right. exists now. split; [done|right]. by exists e, z.
  - rewrite wp_let. apply current_Some in Hc as Hc'. destruct Hc' as (Hl & _ & Ha).
    apply wp_retire; [done..| |intros c; split; [done|by eexists]].
    intros now' Hnow'. right. exists l. split; [done|]. exists now, now'. split_and!; [done..| |done].
    by exists e, z.
Qed.

(** ** Acquiring *)

Lemma wp_advances {A} (p : prog Db A) db (Q : Db → A → Prop) :
  keeps advances p → exclusive db → wp p db Q →
  wp p db (λ db' a, Q db' a ∧ exclusive db' ∧ history db db').
Proof.
  intros Hk He. rewrite !wp_runs. intros H db' a Hr. split; [by apply H|].
  by apply (keeps_runs reading advances p db db' a).
Qed.

Lemma wp_txn {B} (body : M B) db (Q : Db → result B StoreError → Prop) :
  wp (write_transaction body) db Q ↔
  wp body db (λ db1 r, Q (settle r db db1) r) ∧ ∀ e, Q db (Err (ESql (Failure e))).
Proof. done. Qed.

Lemma replace_lease_None db task l l' :
  exclusive db → current db task = Some l → id l' = id l → is_active l' = false →
  current (replace_lease l' db) task = None.
Proof.
  intros He Hc Hid Ha. apply current_None. intros x. cbn. rewrite list_elem_of_In, in_map_iff.
  intros (y & Hxy & Hy). destruct (decide (id y = id l')) as [Hyid|Hyid];
    [rewrite bool_decide_eq_true_2 in Hxy by done|rewrite bool_decide_eq_false_2 in Hxy by done].
  - subst x. unfold active_for. by rewrite Ha, andb_false_r.
  - subst y. apply not_true_iff_false. intros Hact.
    apply list_elem_of_In in Hy. pose proof (current_unique db task x He Hy Hact) as Hx.
    rewrite Hc in Hx. by simplify_eq.
Qed.

Lemma closed_inactive st a l : st = STALE ∨ st = RELEASED → is_active (close st a l) = false.
Proof. by intros [-> | ->]. Qed.

(** The incumbent a request finds, and what becomes of it. Without force it must have
    lapsed; an unreadable one is closed only by force, and reported. *)
Definition cleared (req : AcquireRequest) (db db1 : Db) (retired : option RetiredLease) : Prop :=
  match current db (rq_task_id req) with
  | None => db1 = db ∧ retired = None
  | Some l =>
      (∃ at_, db1 = replace_lease (close STALE at_ l) db)
      ∧ match expires_at l with
        | None => rq_force req = true ∧ retired = None
        | Some e =>
            match Time.parse_iso_utc e with
            | None => rq_force req = true
                ∧ retired = Some {| rt_lease_id := id l; rt_owner := owner l; rt_expires_at := e |}
            | Some z => retired = None ∧ (rq_force req = true ∨ ∃ now, reading now ∧ z < now)
            end
        end
  end.

Lemma wp_retire_active db task l (Q : Db → result unit StoreError → Prop) :
  exclusive db → current db task = Some l →
  (∀ now, Q (replace_lease (close STALE (iso now) l) db) (Ok tt)) →
  (∀ e, Q db (Err (ESql (Failure e)))) →
  wp (retire_active (id l)) db Q.
Proof.
  intros He Hc HQ Hf. apply current_Some in Hc as (Hl & _ & Ha).
  unfold retire_active. rewrite wp_now. intros now _. rewrite wp_let, wp_sql.
  rewrite (update_one _ _ db l); [split; [by apply HQ|done]|done|done| | |done].
  - unfold active_id_where. by rewrite Ha, bool_decide_eq_true_2.
  - intros x. unfold active_id_where. rewrite andb_true_iff. by intros [?%bool_decide_eq_true _].
Qed.

Lemma wp_clear req db :
  exclusive db →
  wp (clear_incumbent req) db (λ db1 r,
    match r with
    | Ok retired => cleared req db db1 retired ∧ current db1 (rq_task_id req) = None
    | Err _ => True
    end).
Proof.
  intros He. unfold clear_incumbent. rewrite wp_bind.
  eapply wp_mono; [by apply wp_active_lease|].
  intros db1 [[l|]|e]; cbn [active_spec].
  - intros (-> & Hc & Hlive). case_if; [done|]. bool_to_prop. rewrite wp_let.
    eapply wp_retire_active; [done|done| |done]. intros now. cbn.
    split; [|by eapply replace_lease_None; [..|apply closed_inactive; left]].
    unfold cleared. rewrite Hc. split; [by eexists|].
    destruct Hlive as [-> |(n & _ & [-> |(e & z & -> & -> & _)])]; auto.
  - intros [[-> Hc]|(l & Hc & now & now' & Hn & Hn' & (e & z & Hexp & Hz & Hlt) & ->)].
    + split; [|done]. unfold cleared. by rewrite Hc.
    + split; [|by eapply replace_lease_None; [..|apply closed_inactive; left]].
      unfold cleared. rewrite Hc, Hexp, Hz. split; [by eexists|]. split; [done|right]. by exists now.
  - destruct e as [| |v| | | | | | | | |]; try done.
    intros (-> & l & Hc & Hexp & Hz). case_if; [|done]. rewrite wp_let.
    unfold select_active, select_active_stmt. rewrite wp_query. split; [|done].
    fold (current db (rq_task_id req)). rewrite Hc, wp_let.
    eapply wp_retire_active; [done|done| |done]. intros now. cbn.
    split; [|by eapply replace_lease_None; [..|apply closed_inactive; left]].
    unfold cleared. rewrite Hc, Hexp, Hz. split; [by eexists|done].
Qed.

(** The row a granted request leaves, and the state around it. *)
Definition granted (req : AcquireRequest) (db db' : Db) (l : Lease) (retired : option RetiredLease) : Prop :=
  ∃ db1 lid tok now,
    cleared req db db1 retired ∧ reading now
    ∧ l = new_lease req lid tok now ∧ ¬ (lid ∈ (id <$> leases db))
    ∧ db' = with_leases (leases db1 ++ [l]) db1.

Definition acquirable (db : Db) (task : str) : Prop :=
  ∃ i, i ∈ rows_of db ∧ local_where task i = true ∧ i_archived i = 0 ∧ workable (i_status i) = true.

Definition acquire_spec (req : AcquireRequest) (db db' : Db)
    (r : result (Lease * option RetiredLease) StoreError) : Prop :=
  match r with
  | Ok (l, retired) => acquirable db (rq_task_id req) ∧ granted req db db' l retired
  | Err _ => db' = db
  end.

Lemma judge_ok db task :
  judge_acquirable task ((λ i, (i_status i, i_archived i))
    <$> head (List.filter (local_where task) (rows_of db))) = Ok tt → acquirable db task.
Proof.
  destruct (List.filter _ _) as [|i rest] eqn:E; [done|]. cbn.
  assert (i ∈ List.filter (local_where task) (rows_of db)) as Hi by (rewrite E; by left).
  apply elem_of_filter_bool in Hi as [Hi Hw].
  destruct (Z.eqb_spec (i_archived i) 0); [|done]. cbn.
  destruct (workable _) eqn:Hwk; [|done]. intros _. by exists i.
Qed.

Lemma wp_acquirable db task :
  wp (require_acquirable task) db (λ db' r,
    db' = db ∧ match r with Ok _ => acquirable db task | Err _ => True end).
Proof.
  unfold require_acquirable, items_present. rewrite wp_let, wp_query. split; [|done].
  rewrite wp_let. destruct (work_items db) as [rows|] eqn:E.
  - rewrite bool_decide_eq_true_2 by (by eexists). unfold item_state_stmt. rewrite wp_query.
    split; [|done]. cbn [wp]. split; [done|]. destruct (judge_acquirable _ _) as [[]|] eqn:Ej; [|done].
    by apply judge_ok in Ej.
  - rewrite bool_decide_eq_false_2 by (by intros []). done.
Qed.

Lemma cleared_ids req db db1 retired :
  cleared req db db1 retired → id <$> leases db1 = id <$> leases db.
Proof.
  unfold cleared. destruct (current db _) as [l|]; [|by intros [-> _]].
  intros [[a ->] _]. cbn. induction (leases db) as [|x ls IH]; [done|]. cbn. f_equal; [|done].
  by case_bool_decide.
Qed.

Lemma wp_insert req db0 db1 retired lid tok now :
  cleared req db0 db1 retired → current db1 (rq_task_id req) = None → reading now →
  wp (insert_or_held (rq_task_id req) (new_lease req lid tok now) retired) db1 (λ db' r,
    match r with Ok (l, ret) => granted req db0 db' l ret | Err _ => True end).
Proof.
  intros Hcl Hcur Hnow. split; [|done]. unfold insert_lease. destruct (_ || _) eqn:E.
  - cbn [fst snd]. change (wp (bind_ok (select_active (rq_task_id req)) (λ found,
      fail (A := Lease * option RetiredLease) (LeaseHeld (rq_task_id req)
        match found with Some l => holder_of l | None => lit "another agent" end))) db1
      (λ db' r, match r with Ok (l, ret) => granted req db0 db' l ret | Err _ => True end)).
    rewrite wp_let. unfold select_active, select_active_stmt. by rewrite wp_query.
  - cbn. exists db1, lid, tok, now. split_and!; try done.
    apply orb_false_iff in E as [E _]. rewrite existsb_false in E.
    rewrite <- (cleared_ids req db0 db1 retired) by done.
    intros (x & -> & Hx)%list_elem_of_fmap. specialize (E x Hx). cbn in E.
    by apply bool_decide_eq_false in E.
Qed.

Lemma wp_acquire_body req db :
  exclusive db →
  wp (acquire_in_transaction req) db (λ db' r,
    match r with Ok _ => acquire_spec req db db' r | Err _ => True end).
Proof.
  intros He. unfold acquire_in_transaction. rewrite wp_let.
  assert (wp (check_request_ttl req) db (λ db' _, db' = db)) as Httl
    by (unfold check_request_ttl; by destruct (rq_ttl_seconds req)).
  eapply wp_mono; [exact Httl|]. intros ? [[]|e] ->; [|done]. rewrite wp_let.
  eapply wp_mono; [apply wp_acquirable|]. intros ? [[]|e] [-> Hacq]; [|done]. rewrite wp_let.
  eapply wp_mono; [by apply wp_clear|]. intros db1 [retired|e]; [|done].
  intros [Hcl Hcur]. rewrite wp_now. intros now Hnow. cbn [bind_ok new_id new_token bind wp].
  intros bs _ bs' _. eapply wp_mono; [by eapply wp_insert|].
  intros db' [[l ret]|e]; [|done]. by intros Hg.
Qed.

Lemma wp_acquire_outcome req db :
  exclusive db → wp (acquire_outcome req) db (acquire_spec req db).
Proof.
  intros He. unfold acquire_outcome. rewrite wp_let.
  assert (wp (check_request_ttl req) db (λ db' _, db' = db)) as Httl
    by (unfold check_request_ttl; by destruct (rq_ttl_seconds req)).
  eapply wp_mono; [exact Httl|]. intros ? [[]|e] ->; [|done]. rewrite wp_txn. split; [|done].
  eapply wp_mono; [by apply wp_acquire_body|]. by intros db1 [[l ret]|e] H.
Qed.

(** ** Using a lease *)

(** The task's lease is this token's, and not yet found past its expiry. *)
Definition held_by (db : Db) (task tok : str) (l : Lease) : Prop :=
  current db task = Some l ∧ token l = tok.

Definition seen_live (l : Lease) : Prop :=
  expires_at l = None ∨ ∃ now, reading now ∧ live_at l now.

(** The rows carrying the token, newest first: the first one's status. *)
Definition newest_with (db : Db) (task tok : str) : option str :=
  status <$> head (sort_by (λ a b, str_leb (created_at b) (created_at a))
    (List.filter (λ l, bool_decide (task_id l = task) && bool_decide (token l = tok)) (leases db))).

Definition diagnose_spec (task tok : str) (db db' : Db) (r : result LeaseCode StoreError) : Prop :=
  match r with
  | Ok Valid => db' = db ∧ ∃ l, held_by db task tok l ∧ seen_live l
  | Ok HeldByOther => db' = db ∧ ∃ l, current db task = Some l ∧ token l ≠ tok ∧ seen_live l
  | Ok code =>
      (db' = db ∧ current db task = None
       ∨ ∃ l, current db task = Some l ∧ expired_in db db' l)
      ∧ code = classify_prior (newest_with db' task tok)
  | Err e => True
  end.

Lemma wp_diagnose db task tok :
  exclusive db → wp (diagnose task tok) db (diagnose_spec task tok db).
Proof.
  intros He. unfold diagnose. rewrite wp_let. eapply wp_mono; [by apply wp_active_lease|].
  intros db1 [[l|]|e]; cbn [active_spec]; [| |done].
  - intros (-> & Hc & Hlive). cbn [wp]. case_bool_decide as Ht; (split; [done|]); by exists l.
  - intros H. rewrite wp_let. unfold prior_status_stmt. rewrite wp_query. split; [|done].
    fold (newest_with db1 task tok). cbn [wp ok].
    destruct (classify_prior _) eqn:E; try (split; [exact H|done]);
      unfold classify_prior in E; destruct (newest_with _ _ _); try done; by destruct (_ || _).
Qed.

Definition release_spec (task tok : str) (db db' : Db) (r : result bool StoreError) : Prop :=
  match r with
  | Ok true => ∃ l now, held_by db task tok l ∧ seen_live l ∧ reading now
                 ∧ db' = replace_lease (close RELEASED (iso now) l) db
  | Ok false =>
      (db' = db ∧ ∀ l, ¬ held_by db task tok l)
      ∨ ∃ l, current db task = Some l ∧ expired_in db db' l
  | Err _ => True
  end.

Lemma wp_release db task tok :
  exclusive db → wp (release task tok) db (release_spec task tok db).
Proof.
  intros He. unfold release. rewrite wp_let. eapply wp_mono; [by apply wp_active_lease|].
  intros db1 [[l|]|e]; cbn [active_spec]; [| |done].
  - intros (-> & Hc & Hlive). case_bool_decide as Ht; cbn [negb].
    2:{ left. split; [done|]. intros l' [Hc' Ht']. congruence. }
    rewrite wp_now. intros now Hnow. rewrite wp_let, wp_sql.
    apply current_Some in Hc as Hl. destruct Hl as (Hl & _ & Ha).
    rewrite (update_one _ _ db l); [|done|done| | |done].
    + split; [|done]. by exists l, now.
    + unfold release_where. by rewrite Ha, !bool_decide_eq_true_2.
    + intros x. unfold release_where. rewrite !andb_true_iff.
      by intros [[?%bool_decide_eq_true _] _].
  - intros [[-> Hc]|H]; [left|by right]. split; [done|]. intros l [Hl _]. congruence.
Qed.

Section Renew.
Context (unixepoch : str → option Z).

(** The row a renewal leaves. *)
Definition renewed (l : Lease) (now ttl : Z) : Lease := set_expiry (iso (sat_add_i64 now ttl)) l.

Definition renew_spec (task tok : str) (ttl : Z) (db db' : Db)
    (r : result (option Lease) StoreError) : Prop :=
  match r with
  | Ok (Some l') => ∃ l now, held_by db task tok l ∧ seen_live l ∧ reading now
                      ∧ ¬ lapsed_at l now ∧ Time.validate_ttl ttl = true
                      ∧ l' = renewed l now ttl ∧ db' = replace_lease l' db
  | Ok None =>
      (db' = db ∧ ∀ l, held_by db task tok l →
         ∃ now e z, reading now ∧ expires_at l = Some e ∧ Time.parse_iso_utc e = Some z
                    ∧ (z < now ∨ ∀ u, unixepoch e = Some u → u < now))
      ∨ ∃ l, current db task = Some l ∧ expired_in db db' l
  | Err e => db' = db ∧ (e = BadTtl ttl ∨ sql_failure e
                         ∨ ∃ l v, current db task = Some l ∧ expires_at l = Some v
                                  ∧ Time.parse_iso_utc v = None)
  end.

Lemma lapsed_spec l now over :
  lapsed l now = Ok over → (over = true ↔ lapsed_at l now).
Proof.
  unfold lapsed, lapsed_at. destruct (expires_at l) as [e|]; [|intros [= <-]; naive_solver].
  destruct (Time.parse_iso_utc e) as [z|] eqn:Hz; [|done]. intros [= <-]. rewrite Z.ltb_lt.
  split; [by intros; exists e, z|]. intros (? & ? & ? & ? & ?). by simplify_eq.
Qed.

Lemma wp_renew db task tok ttl :
  exclusive db → wp (renew unixepoch task tok ttl) db (renew_spec task tok ttl db).
Proof.
  intros He. unfold renew. rewrite wp_let. cbn [wp]. unfold check_ttl.
  destruct (Time.validate_ttl ttl) eqn:Httl; [|by split; [|left]].
  rewrite wp_let. eapply wp_mono; [by apply wp_active_lease|].
  intros db1 [[l|]|e]; cbn [active_spec].
  - intros (-> & Hc & Hlive). case_bool_decide as Ht; cbn [negb].
    2:{ left. split; [done|]. intros l' [Hc' Ht']. congruence. }
    rewrite wp_now. intros now Hnow. rewrite wp_let. cbn [wp].
    destruct (lapsed l now) as [over|e] eqn:Hl.
    2:{ unfold lapsed in Hl. destruct (expires_at l) as [v|] eqn:Hv; [|done].
        destruct (Time.parse_iso_utc v) eqn:Hz; [done|]. split; [done|]. right; right.
        by exists l, v. }
    apply lapsed_spec in Hl. destruct over.
    { left. split; [done|]. intros l' [Hc' _]. rewrite Hc in Hc'. simplify_eq.
      destruct (proj1 Hl eq_refl) as (e & z & ? & ? & ?). exists now, e, z. auto. }
    rewrite wp_let, wp_sql. split; [|intros c; split; [done|right; left; by eexists]].
    apply current_Some in Hc as Hin. destruct Hin as (Hin & Htk & Ha).
    destruct (renew_where unixepoch (id l) task tok now l) eqn:Hw.
    + rewrite (update_one _ _ db l); [|done|done|done| |done].
      2:{ intros x. unfold renew_where. rewrite !andb_true_iff.
          by intros [[[[?%bool_decide_eq_true _] _] _] _]. }
      cbn. exists l, now. split_and!; try done. intros H. by apply Hl in H.
    + assert (∀ x, x ∈ leases db → renew_where unixepoch (id l) task tok now x = false) as Hno.
      { intros x Hx. apply not_true_iff_false. intros Hwx.
        assert (x = l) as ->; [|congruence]. unfold renew_where in Hwx.
        rewrite !andb_true_iff in Hwx. destruct Hwx as [[[[Hid%bool_decide_eq_true _] _] _] _].
        destruct He as [Hnd _]. apply list_elem_of_lookup in Hx as [i Hi], Hin as [j Hj].
        assert (i = j) as ->; [|congruence]. eapply NoDup_lookup; [exact Hnd|..];
          rewrite list_lookup_fmap, ?Hi, ?Hj; cbn; by rewrite ?Hid. }
      cbn. rewrite filter_false by done. cbn. left. split.
      * destruct db. unfold with_leases. cbn in *. f_equal. rewrite <- map_id. apply map_ext_in.
        intros x Hx%list_elem_of_In. by rewrite Hno.
      * intros l' [Hc' _]. rewrite Hc in Hc'. simplify_eq.
        unfold renew_where in Hw. rewrite Ha, !bool_decide_eq_true_2 in Hw by done.
        cbn [andb] in Hw. destruct (expires_at l') as [e|] eqn:Hexp; [|done].
        destruct Hlive as [|(n & _ & [Hn|(e' & z & Hn & Hz & _)])]; [congruence..|].
        rewrite Hexp in Hn. simplify_eq. exists now, e', z. split_and!; [done..|]. right.
        intros u Hu. rewrite Hu in Hw. by apply Z.leb_gt in Hw.
  - intros [[-> Hc]|H]; [left|by right]. split; [done|]. intros l [Hl _]. congruence.
  - destruct e; try (intros [? [? ?]]; done); try (intros [-> H]; split; [done|by right; left]).
    intros (-> & l & Hc & Hv & Hz). split; [done|]. right; right. by exists l, value.
Qed.

End Renew.

End Spec.
End LeaseSpec.
