(* ===== verification/RecordSpec.v ===== *)
(** * What the gap history is a record of

    A task's [Log] is what its verifications reported, run by run. Every number the store
    keeps of a gap is a function of that log; [gap_history] and [gap_runs] hold nothing
    but those numbers, and the statements of [Records] compute them from one another. *)

From S2P Require Import Prelude RustStr Tables Store Records Json Effects Leases Ready LeaseHistory LeaseSpec.
Import Tables Store Records.

#[local] Open Scope Z_scope.

Module RecordLog.

(** ** Logs *)

(** A gap's id and type, as reported. *)
Abbreviation Sighting := (str * str)%type.

(** The sightings of each run, oldest run first. *)
Abbreviation Log := (list (list (str * str))).

Definition len {A} (l : list A) : Z := Z.of_nat (length l).

Lemma len_snoc {A} (l : list A) x : len (l ++ [x]) = len l + 1.
Proof. unfold len. rewrite length_app. cbn. lia. Qed.

Definition reported (gap : str) (run : list Sighting) : bool :=
  existsb (λ x, bool_decide (x.1 = gap)) run.

(** The numbers of the runs that report a gap, from [n] on. *)
Fixpoint runs_from (gap : str) (n : Z) (log : Log) : list Z :=
  match log with
  | [] => []
  | run :: log' => (if reported gap run then [n] else []) ++ runs_from gap (n + 1) log'
  end.

Definition seen_runs (gap : str) (log : Log) : list Z := runs_from gap 1 log.

(** The type it was last given. *)
Definition last_type (gap : str) (log : Log) : option str :=
  snd <$> last (List.filter (λ x, bool_decide (x.1 = gap)) (concat log)).

(** How often a run that reports it follows one that does not, after a first sighting. *)
Fixpoint returns (runs : list Z) : Z :=
  match runs with
  | a :: ((b :: _) as rest) => (if a <? b - 1 then 1 else 0) + returns rest
  | _ => 0
  end.

Definition history_of (task gap : str) (log : Log) : option GapHistoryRow :=
  match seen_runs gap log, last_type gap log with
  | first :: rest, Some gap_type =>
      Some {| gh_task_id := task; gh_gap_id := gap; gh_gap_type := gap_type;
              gh_first_seen_run := first; gh_last_seen_run := List.last (first :: rest) first;
              gh_occurrences := len (first :: rest); gh_resurfaces := returns (first :: rest) |}
  | _, _ => None
  end.

(** ** Growing a log *)

Lemma runs_from_app gap n a b :
  runs_from gap n (a ++ b) = runs_from gap n a ++ runs_from gap (n + len a) b.
Proof.
  revert n. induction a as [|run a IH]; intros n; cbn [app runs_from].
  - unfold len. cbn. by rewrite Z.add_0_r.
  - rewrite IH, <- app_assoc. do 3 f_equal. unfold len. cbn [length]. lia.
Qed.

Lemma seen_runs_snoc gap log run :
  seen_runs gap (log ++ [run])
  = seen_runs gap log ++ (if reported gap run then [len log + 1] else []).
Proof.
  unfold seen_runs. rewrite runs_from_app. cbn [runs_from]. rewrite app_nil_r.
  by replace (1 + len log) with (len log + 1) by lia.
Qed.

Lemma seen_runs_bound gap log n : n ∈ seen_runs gap log → 1 ≤ n ≤ len log.
Proof.
  induction log as [|run log IH] using rev_ind; [by intros ?%not_elem_of_nil|].
  rewrite seen_runs_snoc, elem_of_app. unfold len in *. rewrite length_app. cbn.
  intros [?%IH|Hn]; [lia|]. destruct (reported gap run); [|by apply not_elem_of_nil in Hn].
  apply list_elem_of_singleton in Hn. lia.
Qed.

Lemma reported_app gap a b : reported gap (a ++ b) = reported gap a || reported gap b.
Proof. unfold reported. by rewrite existsb_app. Qed.

Lemma last_type_app gap log run :
  last_type gap (log ++ [run])
  = match last (List.filter (λ x : Sighting, bool_decide (x.1 = gap)) run) with
    | Some x => Some x.2
    | None => last_type gap log
    end.
Proof.
  unfold last_type. rewrite concat_app. cbn [concat]. rewrite app_nil_r, List.filter_app.
  rewrite last_app. by destruct (last _).
Qed.

(** A log that mentions a gap gives it a type. *)
Lemma last_type_seen gap log : last_type gap log = None ↔ seen_runs gap log = [].
Proof.
  induction log as [|run log IH] using rev_ind; [done|]. rewrite last_type_app, seen_runs_snoc.
  destruct (reported gap run) eqn:E; unfold reported in E.
  - apply existsb_true in E as (x & Hx & Hg).
    assert (x ∈ List.filter (λ x : Sighting, bool_decide (x.1 = gap)) run) as Hf
      by (by apply elem_of_filter_bool).
    destruct (last _) as [y|] eqn:El; [|apply last_None in El; rewrite El in Hf;
      by apply not_elem_of_nil in Hf].
    split; [done|]. by intros [_ ?]%app_eq_nil.
  - rewrite filter_false by (by apply existsb_false). cbn. by rewrite app_nil_r.
Qed.

(** A new run, nothing reported yet. *)
Lemma history_of_open task gap log : history_of task gap (log ++ [[]]) = history_of task gap log.
Proof.
  unfold history_of. rewrite seen_runs_snoc, last_type_app. cbn. by rewrite app_nil_r.
Qed.

Lemma last_snoc_list {A} (l : list A) x d : List.last (l ++ [x]) d = x.
Proof. apply last_last. Qed.

Lemma last_default_irrel (l : list Z) d d' : l ≠ [] → List.last l d = List.last l d'.
Proof.
  induction l as [|x [|y l] IH]; [done|done|]. intros _.
  change (List.last (y :: l) d = List.last (y :: l) d'). by apply IH.
Qed.

Lemma returns_snoc l n :
  l ≠ [] → returns (l ++ [n]) = returns l + (if List.last l n <? n - 1 then 1 else 0).
Proof.
  induction l as [|a [|b l] IH]; [done| |]; intros _.
  - cbn. lia.
  - change (returns ((a :: b :: l) ++ [n]))
      with ((if a <? b - 1 then 1 else 0) + returns ((b :: l) ++ [n])).
    rewrite IH by done. change (List.last (a :: b :: l) n) with (List.last (b :: l) n).
    change (returns (a :: b :: l)) with ((if a <? b - 1 then 1 else 0) + returns (b :: l)). lia.
Qed.

Lemma last_in (l : list Z) d : l ≠ [] → List.last l d ∈ l.
Proof.
  induction l as [|x [|y l] IH]; [done|by left|]. intros _. right. by apply IH.
Qed.

(** The row of a gap sighted in the last run, from the row before. *)
Lemma history_of_sight task gap gap_type log run :
  history_of task gap (log ++ [run ++ [(gap, gap_type)]])
  = Some match history_of task gap (log ++ [run]) with
         | Some h => sight_again gap_type (len log + 1) h
         | None => first_sighting task gap gap_type (len log + 1)
         end.
Proof.
  assert (last_type gap (log ++ [run ++ [(gap, gap_type)]]) = Some gap_type) as Ht.
  { rewrite last_type_app, List.filter_app. cbn [List.filter fst].
    rewrite bool_decide_eq_true_2 by done. by rewrite last_snoc. }
  unfold history_of. rewrite Ht. rewrite !seen_runs_snoc, reported_app.
  replace (reported gap [(gap, gap_type)]) with true
    by (unfold reported; cbn; by rewrite bool_decide_eq_true_2).
  rewrite orb_true_r.
  assert (∀ n, n ∈ seen_runs gap log → n ≤ len log) as Hb by (intros n ?%seen_runs_bound; lia).
  pose proof (last_type_seen gap (log ++ [run])) as Hl. rewrite seen_runs_snoc in Hl.
  destruct (reported gap run) eqn:Er.
  - (* already reported in this run *)
    destruct (last_type gap (log ++ [run])) as [ty|]; [|by destruct (app_eq_nil _ _ (proj1 Hl eq_refl))].
    destruct (seen_runs gap log ++ [len log + 1]) as [|first rest] eqn:Es;
      [by destruct (seen_runs gap log)|].
    unfold sight_again. cbn [gh_task_id gh_gap_id gh_gap_type gh_first_seen_run gh_last_seen_run
      gh_occurrences gh_resurfaces]. rewrite <- Es, last_snoc_list.
    rewrite Z.ltb_irrefl, (proj2 (Z.ltb_ge _ _)) by lia. rewrite Z.max_id, !Z.add_0_r. done.
  - rewrite app_nil_r in *. destruct (seen_runs gap log) as [|first rest] eqn:Es.
    + done.
    + destruct (last_type gap (log ++ [run])) as [ty|]; [|by discriminate (proj1 Hl eq_refl)].
      unfold sight_again. cbn [gh_task_id gh_gap_id gh_gap_type gh_first_seen_run gh_last_seen_run
        gh_occurrences gh_resurfaces].
      assert (List.last (first :: rest) first ≤ len log) as Hle by (by apply Hb, last_in).
      cbn [app]. change (first :: rest ++ [len log + 1]) with ((first :: rest) ++ [len log + 1]).
      rewrite last_snoc_list, returns_snoc by done.
      rewrite (last_default_irrel _ (len log + 1) first) by done.
      rewrite (proj2 (Z.ltb_lt _ (len log + 1))) by lia. rewrite Z.max_r by lia.
      by rewrite len_snoc.
Qed.

(** The rows of the other gaps stay. *)
Lemma history_of_sight_ne task gap other gap_type log run :
  other ≠ gap →
  history_of task other (log ++ [run ++ [(gap, gap_type)]]) = history_of task other (log ++ [run]).
Proof.
  intros Hne. unfold history_of. rewrite !seen_runs_snoc, !last_type_app, reported_app, List.filter_app.
  replace (reported other [(gap, gap_type)]) with false
    by (unfold reported; cbn; by rewrite bool_decide_eq_false_2).
  cbn [List.filter fst]. rewrite bool_decide_eq_false_2 by congruence.
  by rewrite orb_false_r, app_nil_r.
Qed.

(** A run counts by the last type it gives each gap. *)
Definition type_in (gap : str) (run : list Sighting) : option str :=
  snd <$> last (List.filter (λ x : Sighting, bool_decide (x.1 = gap)) run).

Lemma reported_type gap run : reported gap run = bool_decide (is_Some (type_in gap run)).
Proof.
  unfold type_in. destruct (reported gap run) eqn:E; unfold reported in E; symmetry.
  - apply bool_decide_eq_true. apply existsb_true in E as (x & Hx & Hg).
    assert (x ∈ List.filter (λ x : Sighting, bool_decide (x.1 = gap)) run) as Hf
      by (by apply elem_of_filter_bool).
    destruct (last _) as [y|] eqn:El; [by eexists|]. apply last_None in El. rewrite El in Hf.
    by apply not_elem_of_nil in Hf.
  - apply bool_decide_eq_false. rewrite filter_false by (by apply existsb_false). by intros [? [=]].
Qed.

Lemma history_of_run_ext task gap log run run' :
  type_in gap run = type_in gap run' →
  history_of task gap (log ++ [run]) = history_of task gap (log ++ [run']).
Proof.
  intros H. unfold history_of. rewrite !seen_runs_snoc, !last_type_app, !reported_type, H.
  unfold type_in in H.
  destruct (last (List.filter _ run)) as [x|], (last (List.filter _ run')) as [y|]; try done.
  cbn in H. injection H as ->. done.
Qed.

(** ** The tables that hold it *)

Record tracks (db : Db) (logs : str → Log) : Prop := {
  tr_runs_keyed : keyed fst (gap_runs db);
  tr_history_keyed : keyed gh_key (gap_history db);
  tr_runs : ∀ task, max_run task db = len (logs task);
  tr_history : ∀ task gap,
      find_row gh_key (task, gap) (gap_history db) = history_of task gap (logs task);
}.

(** What a log may become: runs are added at its end, and sightings to its last run. *)
Inductive grows : Log → Log → Prop :=
  | grows_refl log : grows log log
  | grows_run log log' : grows log log' → grows log (log' ++ [[]])
  | grows_sight log log' run x :
      grows log (log' ++ [run]) → grows log (log' ++ [run ++ [x]]).

Lemma grows_trans a b c : grows a b → grows b c → grows a c.
Proof.
  intros Hab Hbc. induction Hbc; [done|apply grows_run; auto|apply grows_sight; auto].
Qed.

#[export] Instance grows_preorder : PreOrder grows.
Proof. split; [intros log; constructor|intros a b c; apply grows_trans]. Qed.

Lemma grows_sights log run xs : grows (log ++ [run]) (log ++ [run ++ xs]).
Proof.
  induction xs as [|x xs IH] using rev_ind; [rewrite app_nil_r; constructor|].
  rewrite app_assoc. by apply grows_sight.
Qed.

Lemma grows_report log xs : grows log (log ++ [xs]).
Proof. etrans; [|apply (grows_sights log [] xs)]. apply grows_run. constructor. Qed.

Lemma max_run_keyed task db :
  keyed fst (gap_runs db) → max_run task db = default 0 (snd <$> find_row fst task (gap_runs db)).
Proof.
  unfold max_run, find_row. intros Hk.
  assert (keyed fst (List.filter (under fst task) (gap_runs db))) as Hf by (by apply keyed_filter).
  assert (∀ r, r ∈ List.filter (under fst task) (gap_runs db) → r.1 = task) as Ht.
  { intros r [_ Hu]%elem_of_filter_bool. by apply (under_true fst task r) in Hu. }
  change (λ r : str * Z, bool_decide (r.1 = task)) with (under (R := str * Z) fst task).
  destruct (List.filter _ _) as [|r [|r' rs]]; [done|done|]. exfalso.
  unfold keyed in Hf. cbn in Hf. apply NoDup_cons in Hf as [Hn _]. apply Hn.
  rewrite (Ht r), (Ht r') by (repeat constructor). cbn. by left.
Qed.

Definition open_run (log : Log) : Log := log ++ [[]].

(** [<[task := log]>] at the task, the rest as it was. *)
Definition with_log (task : str) (log : Log) (logs : str → Log) : str → Log :=
  λ t, if decide (t = task) then log else logs t.

Lemma set_run_tracks db logs task :
  tracks db logs →
  tracks (set_run task (max_run task db + 1) db).1 (with_log task (open_run (logs task)) logs).
Proof.
  intros [Hrk Hhk Hr Hh]. set (n := max_run task db + 1). unfold set_run.
  assert (keyed fst (upsert fst task (task, n) (λ _, (task, n)) (gap_runs db))) as Hk
    by (by apply keyed_upsert).
  constructor; cbn [fst gap_runs gap_history with_gap_runs]; [done|done| |].
  - intros t. rewrite max_run_keyed by done. cbn [gap_runs with_gap_runs]. unfold with_log.
    destruct (decide (t = task)) as [->|Hne].
    + rewrite find_upsert by done. destruct (find_row _ _ _); cbn; unfold n, open_run, len;
        rewrite length_app, Hr; cbn; unfold len; lia.
    + rewrite find_upsert_ne by done. by rewrite <- max_run_keyed, Hr.
  - intros t gap. rewrite Hh. unfold with_log, open_run.
    destruct (decide (t = task)) as [->|]; [by rewrite history_of_open|done].
Qed.

Lemma sighting_tracks db logs task gap gap_type log run :
  tracks db logs → logs task = log ++ [run] →
  tracks (sighting_stmt task gap gap_type (len log + 1) db).1
    (with_log task (log ++ [run ++ [(gap, gap_type)]]) logs).
Proof.
  intros [Hrk Hhk Hr Hh] Hlog. unfold sighting_stmt. set (new := first_sighting _ _ _ _).
  assert (∀ r, gh_key r = (task, gap) → gh_key (sight_again gap_type (len log + 1) r) = (task, gap))
    as Hu by done.
  constructor; cbn [fst gap_runs gap_history with_gap_history]; [done|by apply keyed_upsert| |].
  - intros t. change (max_run t _) with (max_run t db). rewrite Hr. unfold with_log.
    destruct (decide (t = task)) as [->|]; [|done]. rewrite Hlog. unfold len. by rewrite !length_app.
  - intros t g. unfold with_log. destruct (decide ((t, g) = (task, gap))) as [[= -> ->]|Hne].
    + rewrite find_upsert by done. rewrite decide_True by done. rewrite history_of_sight, Hh, Hlog. done.
    + rewrite find_upsert_ne by done. rewrite Hh. destruct (decide (t = task)) as [->|]; [|done].
      rewrite history_of_sight_ne by congruence. by rewrite Hlog.
Qed.

End RecordLog.

(** * What the record methods do when they run

    One [wp] lemma per method that writes, against the logs the tables track. *)

Import Tables Effects Store Tasks LeaseSpec Records RecordLog.

#[local] Open Scope Z_scope.

Module RecordSpec.

(** ** Replacement sets *)

Definition sighting (g : GapRow) : str * str := (g_id g, g_gap_type g).

(** What is refused of a replacement before anything is written. *)
Definition replace_checks (task : str) (gs : list GapRow) : result (list GapRow) StoreError :=
  let? _ := refuse (blank task) "task_id is required to replace gaps" in
  let? rows := normalise_gaps task gs in
  let? _ := check_each check_gap rows in
  Ok rows.

Lemma normalise_gaps_loop task gs rows :
  normalise_gaps task gs = Ok rows → normalise_loop task gs [] = Ok rows.
Proof. unfold normalise_gaps. by case_if. Qed.

(** The loop is a fold: it only stops at a blank id. *)
Lemma normalise_loop_fold task gs out rows :
  normalise_loop task gs out = Ok rows →
  rows = fold_left (λ out g, place (set_task (Some task) g) out) gs out.
Proof.
  revert out. induction gs as [|g gs IH]; intros out; cbn [normalise_loop fold_left]; [by intros [=]|].
  destruct (refuse _ _); [|done]. apply IH.
Qed.

Lemma place_keyed row out : keyed g_id out → keyed g_id (place row out).
Proof. intros H. unfold place. by apply keyed_upsert. Qed.

Lemma find_place i row out :
  find_row g_id i (place row out)
  = if bool_decide (g_id row = i) then Some row else find_row g_id i out.
Proof.
  unfold place. case_bool_decide as H; [subst i|].
  - rewrite find_upsert by done. by destruct (find_row _ _ _).
  - by rewrite find_upsert_ne by congruence.
Qed.

(** Ids in the order they first appear. *)
Definition first_seen (ids : list str) : list str :=
  fold_left (λ seen i, if bool_decide (i ∈ seen) then seen else seen ++ [i]) ids [].

Lemma place_ids row out :
  map g_id (place row out)
  = if bool_decide (g_id row ∈ map g_id out) then map g_id out else map g_id out ++ [g_id row].
Proof.
  unfold place, upsert. rewrite existsb_under. case_bool_decide; [|by rewrite map_app].
  rewrite map_map. apply map_ext. intros r. destruct (under g_id (g_id row) r) eqn:E; [|done].
  by apply under_key in E.
Qed.

Lemma normalise_fold_ids task gs out :
  map g_id (fold_left (λ out g, place (set_task (Some task) g) out) gs out)
  = fold_left (λ seen i, if bool_decide (i ∈ seen) then seen else seen ++ [i]) (map g_id gs)
      (map g_id out).
Proof.
  revert out. induction gs as [|g gs IH]; intros out; [done|]. cbn [fold_left map].
  by rewrite IH, place_ids.
Qed.

(** The last row given under an id, or the one there before. *)
Lemma normalise_fold_find task gs out i :
  find_row g_id i (fold_left (λ out g, place (set_task (Some task) g) out) gs out)
  = match last (List.filter (under g_id i) gs) with
    | Some g => Some (set_task (Some task) g)
    | None => find_row g_id i out
    end.
Proof.
  revert out. induction gs as [|g gs IH]; intros out; [done|]. cbn [fold_left List.filter].
  rewrite IH, find_place. unfold under at 2. change (g_id (set_task (Some task) g)) with (g_id g).
  case_bool_decide; [|done]. rewrite last_cons. by destruct (last _).
Qed.

Lemma normalise_fold_keyed task gs out :
  keyed g_id out → keyed g_id (fold_left (λ out g, place (set_task (Some task) g) out) gs out).
Proof.
  revert out. induction gs as [|g gs IH]; intros out H; [done|]. cbn [fold_left].
  by apply IH, place_keyed.
Qed.

Lemma normalise_fold_task task gs out :
  Forall (λ g, g_task_id g = Some task) out →
  Forall (λ g, g_task_id g = Some task)
    (fold_left (λ out g, place (set_task (Some task) g) out) gs out).
Proof.
  revert out. induction gs as [|g gs IH]; intros out H; [done|]. cbn [fold_left]. apply IH.
  unfold place, upsert. case_if.
  - apply Forall_forall. intros r (x & -> & Hx)%elem_of_map. rewrite Forall_forall in H.
    case_if; [done|by apply H].
  - apply Forall_app. split; [done|]. by repeat constructor.
Qed.

(** A normalised set: one row for each id, in the order ids first appear, each the last
    given, and all of the task. *)
Record normalised (task : str) (gs rows : list GapRow) : Prop := {
  nm_keyed : keyed g_id rows;
  nm_ids : map g_id rows = first_seen (map g_id gs);
  nm_last : ∀ i, find_row g_id i rows = set_task (Some task) <$> last (List.filter (under g_id i) gs);
  nm_task : Forall (λ g, g_task_id g = Some task) rows;
}.

Lemma normalise_gaps_ok task gs rows : normalise_gaps task gs = Ok rows → normalised task gs rows.
Proof.
  intros H. apply normalise_gaps_loop, normalise_loop_fold in H as ->. constructor.
  - apply normalise_fold_keyed. constructor.
  - apply normalise_fold_ids.
  - intros i. rewrite normalise_fold_find. by destruct (last _).
  - apply normalise_fold_task. constructor.
Qed.

(** ** Loops *)

Section Spec.
Context (reading : Z → Prop).
#[local] Abbreviation wp := (wp reading).

Lemma wp_for_each {A} (f : A → M unit) (I : list A → Db → Prop) (E : Db → StoreError → Prop) l db :
  (∀ done_ x rest db', l = done_ ++ x :: rest → I done_ db' →
     wp (f x) db' (λ db'' r, match r with Ok _ => I (done_ ++ [x]) db'' | Err e => E db'' e end)) →
  I [] db →
  wp (for_each f l) db (λ db' r, match r with Ok _ => I l db' | Err e => E db' e end).
Proof.
  intros Hf. assert (∀ done_ rest db', l = done_ ++ rest → I done_ db' →
    wp (for_each f rest) db' (λ db'' r, match r with Ok _ => I l db'' | Err e => E db'' e end)) as H;
    [|by apply (H [])].
  intros done_ rest. revert done_. induction rest as [|x rest IH]; intros done_ db' El HI; cbn [for_each].
  - cbn. rewrite El, app_nil_r. done.
  - rewrite wp_let. eapply wp_mono; [by eapply Hf|]. intros db'' [[]|e] Hr; [|done].
    apply (IH (done_ ++ [x])); [by rewrite <- app_assoc|done].
Qed.

(** ** Logs *)

Lemma tracks_ext db logs logs' : (∀ t, logs t = logs' t) → tracks db logs → tracks db logs'.
Proof.
  intros He [Hrk Hhk Hr Hh]. constructor; [done|done|..]; intros; by rewrite <- He.
Qed.

Lemma with_log_twice t a b logs : ∀ t', with_log t a (with_log t b logs) t' = with_log t a logs t'.
Proof. intros t'. unfold with_log. by destruct (decide _). Qed.

Lemma with_log_eq t a logs : with_log t a logs t = a.
Proof. unfold with_log. by rewrite decide_True. Qed.

(** Only the three gap tables differ. *)
Definition gaps_only (db db' : Db) : Prop :=
  with_gaps [] (with_gap_runs [] (with_gap_history [] db'))
  = with_gaps [] (with_gap_runs [] (with_gap_history [] db)).

(** Only the history and the counter differ. *)
Definition history_only (db db' : Db) : Prop :=
  with_gap_runs [] (with_gap_history [] db') = with_gap_runs [] (with_gap_history [] db).

Lemma history_only_gaps db db' : history_only db db' → gaps_only db db' ∧ gaps db' = gaps db.
Proof.
  intros H. split; [|exact (f_equal gaps H)]. unfold gaps_only. exact (f_equal (with_gaps []) H).
Qed.

(** The store has taken one more run of a task, with these sightings so far. *)
Definition took_run (task : str) (run : list (str * str)) (db db' : Db) : Prop :=
  history_only db db'
  ∧ ∀ logs, tracks db logs → tracks db' (with_log task (logs task ++ [run]) logs).

Lemma wp_advance task db (Q : Db → result Z StoreError → Prop) :
  (∀ db', took_run task [] db db' → Q db' (Ok (max_run task db + 1))) →
  (∀ c, Q db (Err (ESql (Failure c)))) →
  wp (advance_run task) db Q.
Proof.
  intros HQ Hf. unfold advance_run. rewrite wp_let, wp_query. split; [|done].
  rewrite wp_let, wp_sql. split; [|done]. cbn [set_run snd]. apply HQ. split; [done|].
  intros logs Ht. by apply set_run_tracks.
Qed.

Lemma took_sighting task run gap gap_type db db1 :
  took_run task run db db1 →
  took_run task (run ++ [(gap, gap_type)]) db
    (sighting_stmt task gap gap_type (max_run task db + 1) db1).1.
Proof.
  intros [Ho Ht]. split; [exact Ho|]. intros logs Hl. rewrite (tr_runs db logs Hl).
  eapply tracks_ext; [apply with_log_twice|]. apply sighting_tracks; [by apply Ht|apply with_log_eq].
Qed.

Lemma took_run_gaps task run db db' : took_run task run db db' → gaps db' = gaps db.
Proof. intros [H _]. by apply history_only_gaps. Qed.

Lemma wp_sightings task rows db db1 :
  took_run task [] db db1 →
  wp (for_each (λ g, record_sighting task (g_id g) (g_gap_type g) (max_run task db + 1)) rows) db1
    (λ db' r, match r with
              | Ok _ => took_run task (map sighting rows) db db'
              | Err e => ∃ c, e = ESql (Failure c)
              end).
Proof.
  intros H. apply (wp_for_each _ (λ read db', took_run task (map sighting read) db db')
    (λ _ e, ∃ c, e = ESql (Failure c))); [|exact H].
  intros done_ g rest db' _ Ht. unfold record_sighting. rewrite wp_sql. split; [|by eexists].
  rewrite map_app. by apply took_sighting.
Qed.

(** ** Replacing *)

(** A row of another task already holds an id of the set. *)
Definition clash (task : str) (rows : list GapRow) (db : Db) : Prop :=
  ∃ g r, g ∈ rows ∧ r ∈ gaps db ∧ g_id r = g_id g ∧ g_task_id r ≠ Some task.

Definition others (task : str) (gs : list Gap) : list Gap :=
  List.filter (λ g, negb (gap_of task g)) gs.

Lemma gap_of_true task g : gap_of task g = true ↔ g_task_id g = Some task.
Proof. unfold gap_of. by rewrite bool_decide_eq_true. Qed.

Lemma wp_inserts task rows base db :
  keyed g_id rows → base = others task (gaps db) →
  wp (for_each (λ g, sql (insert_gap g)) rows) (with_gaps base db)
    (λ db' r, match r with
              | Ok _ => db' = with_gaps (base ++ map store_gap rows) db
                        ∧ ∀ g, g ∈ rows → ¬ g_id g ∈ map g_id base
              | Err e => (∃ c, e = ESql (Failure c))
                         ∨ e = ESql ConstraintViolation ∧ clash task rows db
              end).
Proof.
  intros Hk Hb. apply (wp_for_each _
    (λ read db', db' = with_gaps (base ++ map store_gap read) db
                 ∧ ∀ g, g ∈ read → ¬ g_id g ∈ map g_id base)
    (λ _ e, (∃ c, e = ESql (Failure c)) ∨ e = ESql ConstraintViolation ∧ clash task rows db));
    [|split; [by rewrite app_nil_r|by intros g ?%not_elem_of_nil]].
  intros read g rest db' Hrows [-> Hfresh]. rewrite wp_sql. split; [|left; by eexists].
  unfold insert_gap. cbn [gap_output_columns gaps with_gaps].
  destruct (gap_output_columns db); cbn [negb]; [|left; by eexists].
  rewrite existsb_under. case_bool_decide as E; cbn [fst snd]; rewrite map_app, elem_of_app in E.
  - right. split; [done|]. destruct E as [(r & Hid & Hr)%elem_of_map|(r & Hid & Hr)%elem_of_map].
    + subst base. apply elem_of_filter_bool in Hr as [Hr Hn]. exists g, r.
      split_and!; [rewrite Hrows; apply elem_of_app; right; by left|done|done|].
      rewrite <- gap_of_true. by destruct (gap_of task r).
    + exfalso. apply elem_of_map in Hr as (g' & -> & Hg').
      unfold keyed in Hk. rewrite Hrows, map_app in Hk. cbn [map] in Hk.
      apply NoDup_app in Hk as (_ & Hk & _). apply (Hk (g_id g)); [|by left].
      apply elem_of_map. by exists g'.
  - split; [by rewrite map_app, app_assoc|]. intros g' [?|Hx%list_elem_of_singleton]%elem_of_app.
    + by apply Hfresh.
    + subst g'. naive_solver.
Qed.

(** What a replacement that went through did. *)
Record replaced (task : str) (gs rows : list GapRow) (db db' : Db) : Prop := {
  rpl_checked : replace_checks task gs = Ok rows;
  rpl_normalised : normalised task gs rows;
  rpl_fresh : ∀ g, g ∈ rows → ¬ g_id g ∈ map g_id (others task (gaps db));
  rpl_gaps : gaps db' = others task (gaps db) ++ map store_gap rows;
  rpl_logs : ∀ logs, tracks db logs →
      tracks db' (with_log task (logs task ++ [map sighting rows]) logs);
  rpl_elsewhere : gaps_only db db';
}.

(** Why a replacement did not go through. *)
Definition replace_refusal (task : str) (gs : list GapRow) (db : Db) (e : StoreError) : Prop :=
  replace_checks task gs = Err e
  ∨ (∃ rows, replace_checks task gs = Ok rows ∧ clash task rows db) ∧ e = ESql ConstraintViolation
  ∨ ∃ c, e = ESql (Failure c).

Lemma replace_checks_in task gs :
  gaps_replace_in task gs
  = let* rows := Ret (replace_checks task gs) in
    let* run := advance_run task in
    let* _sighted := for_each (λ g, record_sighting task (g_id g) (g_gap_type g) run) rows in
    let* _deleted := sql (delete_gaps task) in
    for_each (λ g, sql (insert_gap g)) rows.
Proof.
  unfold gaps_replace_in, replace_checks. cbn [bind_ok bind].
  destruct (refuse _ _) as [[]|e]; [|done]. cbn. destruct (normalise_gaps task gs) as [rows|e]; [|done].
  cbn. by destruct (check_each check_gap rows) as [[]|e].
Qed.

Lemma wp_gaps_replace_in task gs db :
  wp (gaps_replace_in task gs) db (λ db' r,
    match r with
    | Ok _ => ∃ rows, replaced task gs rows db db'
    | Err e => replace_refusal task gs db e
    end).
Proof.
  rewrite replace_checks_in, wp_let. cbn [Effects.wp].
  destruct (replace_checks task gs) as [rows|e] eqn:Ec; [|by left].
  assert (normalised task gs rows) as Hn.
  { apply normalise_gaps_ok. revert Ec. unfold replace_checks. destruct (refuse _ _); [|done].
    destruct (normalise_gaps task gs) as [rows'|]; [|done]. destruct (check_each _ _); [|done].
    by intros [= ->]. }
  assert (∀ c, replace_refusal task gs db (ESql (Failure c))) as Hf by (intros c; right; right; by eexists).
  rewrite wp_let. apply wp_advance; [|done]. intros db1 Hadv. rewrite wp_let.
  eapply wp_mono; [by apply wp_sightings|]. intros db2 [[]|e] Hs; [|destruct Hs as [c ->]; apply Hf].
  pose proof (took_run_gaps _ _ _ _ Hs) as Hg.
  rewrite wp_let, wp_sql. split; [|done]. cbn [delete_gaps fst snd].
  eapply wp_mono; [apply (wp_inserts task); [by destruct Hn|done]|].
  intros db3 [[]|e].
  - intros [-> Hfresh]. exists rows. destruct Hs as [Ho Ht]. constructor; [done|done| | | |].
    + unfold others in *. by rewrite <- Hg.
    + cbn [gaps with_gaps]. unfold others. by rewrite Hg.
    + intros logs Hl. destruct (Ht logs Hl) as [? ? ? ?]. by constructor.
    + apply history_only_gaps in Ho as [Ho _]. exact Ho.
  - intros [[c ->]|[-> (g & r & ? & Hr & ?)]]; [apply Hf|]. right. left. split; [|done].
    exists rows. split; [done|]. exists g, r. rewrite Hg in Hr. done.
Qed.

Lemma wp_gaps_replace task gs db :
  wp (gaps_replace task gs) db (λ db' r,
    match r with
    | Ok _ => ∃ rows, replaced task gs rows db db'
    | Err e => db' = db ∧ replace_refusal task gs db e
    end).
Proof.
  unfold gaps_replace. rewrite wp_txn. split; [|intros c; split; [done|right; right; by eexists]].
  eapply wp_mono; [apply wp_gaps_replace_in|]. by intros db' [[]|e] Hr.
Qed.

(** ** Upserting one gap *)

(** The log once a gap is sighted in the run in progress, the first if there is none. *)
Definition sighted (x : str * str) (log : Log) : Log :=
  match log with
  | [] => [[x]]
  | _ => removelast log ++ [List.last log [] ++ [x]]
  end.

Lemma sighted_snoc x log run : sighted x (log ++ [run]) = log ++ [run ++ [x]].
Proof.
  unfold sighted. destruct (log ++ [run]) as [|a rest] eqn:E; [by destruct log|].
  by rewrite <- E, removelast_last, last_last.
Qed.

(** The sighting an upsert leaves, against the task its gap names. *)
Definition upsert_logs (g : GapRow) (logs : str → Log) : str → Log :=
  match sighted_task g with
  | Some task => with_log task (sighted (sighting g) (logs task)) logs
  | None => logs
  end.

Record upserted (g : GapRow) (db db' : Db) : Prop := {
  ups_gaps : gaps db' = upsert g_id (g_id g) (store_gap g) (λ _, store_gap g) (gaps db);
  ups_logs : ∀ logs, tracks db logs → tracks db' (upsert_logs g logs);
  ups_elsewhere : gaps_only db db';
}.

Lemma wp_sight_now task x db :
  wp (bind_ok (current_run task) (λ run, record_sighting task x.1 x.2 run)) db (λ db' r,
    match r with
    | Ok _ => history_only db db'
        ∧ ∀ logs, tracks db logs → tracks db' (with_log task (sighted x (logs task)) logs)
    | Err e => ∃ c, e = ESql (Failure c)
    end).
Proof.
  rewrite wp_let. unfold current_run. rewrite wp_let, wp_query. split; [|intros c; by eexists].
  destruct (Z.ltb_spec 0 (max_run task db)) as [Hlt|Hle]; cbn [Effects.wp ok].
  - unfold record_sighting. rewrite wp_sql. split; [|intros c; by eexists]. split; [done|].
    intros logs Hl. rewrite (tr_runs db logs Hl) in *.
    destruct (logs task) as [|run log _] eqn:El using rev_ind; [unfold len in Hlt; cbn in Hlt; lia|].
    rewrite sighted_snoc, len_snoc. destruct x. by apply sighting_tracks.
  - apply wp_advance; [|intros c; by eexists]. intros db1 Hadv. unfold record_sighting. rewrite wp_sql.
    split; [|intros c; by eexists]. destruct x as [gap ty].
    destruct (took_sighting task [] gap ty db db1 Hadv) as [Ho Ht]. split; [exact Ho|].
    intros logs Hl. rewrite (tr_runs db logs Hl) in Hle.
    assert (logs task = []) as El by (destruct (logs task); [done|unfold len in Hle; cbn in Hle; lia]).
    specialize (Ht logs Hl). by rewrite El in *.
Qed.

Lemma upsert_gap_spec g db :
  (upsert_gap g db).2 = Ok tt ∧ (upsert_gap g db).1
    = with_gaps (upsert g_id (g_id g) (store_gap g) (λ _, store_gap g) (gaps db)) db
  ∨ (upsert_gap g db).2 = Err (Failure 1).
Proof. unfold upsert_gap. case_if; [by right|by left]. Qed.

Lemma wp_upsert_gap g db db1 :
  history_only db db1 → (∀ logs, tracks db logs → tracks db1 (upsert_logs g logs)) →
  wp (sql (upsert_gap g)) db1 (λ db' r,
    match r with Ok _ => upserted g db db' | Err e => ∃ c, e = ESql (Failure c) end).
Proof.
  intros Ho Ht. rewrite wp_sql. split; [|by eexists].
  destruct (upsert_gap_spec g db1) as [[-> ->]| ->]; [|by eexists].
  apply history_only_gaps in Ho as Hg. destruct Hg as [Hg Eg]. constructor.
  - cbn. by rewrite Eg.
  - intros logs Hl. destruct (Ht logs Hl). by constructor.
  - exact Hg.
Qed.

Lemma wp_gap_upsert_in g db :
  wp (gap_upsert_in g) db (λ db' r,
    match r with Ok _ => upserted g db db' | Err e => ∃ c, e = ESql (Failure c) end).
Proof.
  unfold gap_upsert_in. rewrite wp_let. destruct (sighted_task g) as [task|] eqn:Es.
  - eapply wp_mono; [apply (wp_sight_now task (sighting g))|]. intros db1 [[]|e] H; [|done].
    destruct H as [Ho Ht]. apply wp_upsert_gap; [done|]. unfold upsert_logs. by rewrite Es.
  - apply wp_upsert_gap; [done|]. unfold upsert_logs. by rewrite Es.
Qed.

Lemma wp_gap_upsert g db :
  wp (gap_upsert g) db (λ db' r,
    match r with
    | Ok _ => upserted g db db'
    | Err e => db' = db ∧ ((blank (g_id g) = true ∨ ∃ why, Json.check_array (g_evidence_json g) = Err why)
                           ∨ ∃ c, e = ESql (Failure c))
    end).
Proof.
  unfold gap_upsert. rewrite wp_let. cbn [Effects.wp]. unfold refuse.
  destruct (blank (g_id g)); [by split; [|left; left]|]. rewrite wp_let. cbn [Effects.wp].
  unfold require_json. destruct (Json.check_array _) as [[]|why]; [|split; [done|left; right; by eexists]].
  rewrite wp_txn. split; [|intros c; split; [done|right; by eexists]].
  eapply wp_mono; [apply wp_gap_upsert_in|]. intros db' [[]|e] Hr; [done|by split; [|right]].
Qed.

(** ** Verification runs *)

Definition run_upserted (r : VerificationRun) (db db' : Db) : Prop :=
  db' = with_verification_runs (upsert vr_id (vr_id r) r (λ _, r) (verification_runs db)) db.

(** What is refused of a run. *)
Definition run_checks (r : VerificationRun) : result unit StoreError :=
  let? _ := refuse (blank (vr_id r) || blank (vr_task_id r))
              "verification run id and task_id are required" in
  let? _ := require_json "run environment_json (an object)" (vr_environment_json r)
              Json.check_object in
  require_json "run commands_json (an array)" (vr_commands_json r) Json.check_array.

Lemma wp_run_record r db :
  wp (run_record r) db (λ db' a,
    match a with
    | Ok _ => run_checks r = Ok tt ∧ run_upserted r db db'
    | Err e => db' = db ∧ (run_checks r = Err e ∨ ∃ c, e = ESql (Failure c))
    end).
Proof.
  unfold run_record, run_checks. rewrite wp_let. cbn [Effects.wp].
  destruct (refuse _ _) as [[]|e]; [|by split; [|left]]. rewrite wp_let. cbn [Effects.wp].
  destruct (require_json _ (vr_environment_json r) _) as [[]|e]; [|by split; [|left]].
  rewrite wp_let. cbn [Effects.wp].
  destruct (require_json _ (vr_commands_json r) _) as [[]|e]; [|by split; [|left]].
  rewrite wp_sql. split; [done|]. intros c. split; [done|right; by eexists].
Qed.

(** A commit: the run's row, when one is given, and then the replacement. *)
Definition with_run (run : option VerificationRun) (db : Db) : Db :=
  match run with
  | Some r =>
      with_verification_runs (upsert vr_id (vr_id r) r (λ _, r) (verification_runs db)) db
  | None => db
  end.

Definition commit_refusal (run : option VerificationRun) (task : str) (gs : list GapRow) (db : Db)
    (e : StoreError) : Prop :=
  (∃ r, run = Some r ∧ (vr_task_id r ≠ task ∧ e = BadScope (WrongTask (vr_id r) (vr_task_id r) task)
                        ∨ run_checks r = Err e))
  ∨ replace_refusal task gs db e.

Lemma replace_refusal_run run task gs db e :
  replace_refusal task gs (with_run run db) e → replace_refusal task gs db e.
Proof. by destruct run. Qed.

Definition commit_body (run : option VerificationRun) (task : str) (gs : list GapRow) : M unit :=
  let* _run := (match run with Some r => run_record r | None => ok tt end) in
  gaps_replace_in task gs.

Lemma wp_commit_body run task gs db :
  wp (commit_body run task gs) db (λ db' a,
    match a with
    | Ok _ => ∃ rows, replaced task gs rows (with_run run db) db'
    | Err e => commit_refusal run task gs db e
    end).
Proof.
  unfold commit_body. rewrite wp_let. destruct run as [r|].
  - eapply wp_mono; [apply wp_run_record|]. intros db1 [[]|e].
    + intros [_ ->]. eapply wp_mono; [apply wp_gaps_replace_in|]. intros db' [[]|e] Hr; [done|].
      right. by apply (replace_refusal_run (Some r)).
    + intros [_ [He|[c ->]]]; [left; exists r; split; [done|by right]|right; right; right; by eexists].
  - cbn [Effects.wp ok]. eapply wp_mono; [apply wp_gaps_replace_in|]. intros db' [[]|e] Hr; [done|by right].
Qed.

Lemma wp_verification_commit run task gs db :
  wp (verification_commit run task gs) db (λ db' a,
    match a with
    | Ok _ => (∀ r, run = Some r → vr_task_id r = task)
              ∧ ∃ rows, replaced task gs rows (with_run run db) db'
    | Err e => db' = db ∧ commit_refusal run task gs db e
    end).
Proof.
  unfold verification_commit. rewrite wp_let. cbn [Effects.wp].
  destruct (match run with Some r => _ | None => _ end) as [[]|e] eqn:E.
  - rewrite wp_txn. split; [|intros c; split; [done|right; right; right; by eexists]].
    eapply wp_mono; [apply wp_commit_body|]. intros db' [[]|e] Hr; [|done]. split; [|done].
    intros r ->. by case_bool_decide.
  - split; [done|]. left. destruct run as [r|]; [|done]. exists r. split; [done|left].
    case_bool_decide; [done|]. by simplify_eq.
Qed.

End Spec.
End RecordSpec.
