(* ===== verification/StoreCalls.v ===== *)
(** * Every call a store serves, interleaved

    [call] is the store's interface; [reaches] runs any number of calls at once, a
    statement or a transaction at a time. Whatever they do, the store moves along
    [moves]: leases stay exclusive and closed ones final, the gap history stays the
    record of some runs, and the append-only tables only grow. *)

From S2P Require Import Prelude RustStr Json Time Tables Effects Store Leases Ready LeaseHistory LeaseSpec Records RecordSpec.
Import Tables Effects Store Tasks Leases Ready LeaseHistory LeaseSpec Records RecordLog RecordSpec.

#[local] Open Scope Z_scope.

Module StoreCalls.

Inductive Call : Type :=
  | CAcquire (req : AcquireRequest)
  | CActiveLease (task_id : str)
  | CDiagnose (task_id token : str)
  | CValidate (task_id token : str)
  | CRelease (task_id token : str)
  | CRenew (task_id token : str) (ttl_seconds : Z)
  | CObserve
  | CActiveLeases
  | CUnreadable
  | CReady (mode : ReadyMode)
  | CTask (task_id : str)
  | CWiden (task_id token expected replacement : str)
  | CEvidenceAppend (kind : str) (task requirement criterion : option str) (data : str)
  | CEvidenceList (task : option str)
  | CGapUpsert (gap : GapRow)
  | CGapsReplace (task_id : str) (gaps : list GapRow)
  | CCommit (run : option VerificationRun) (task_id : str) (gaps : list GapRow)
  | CGapHistory (task : option str)
  | CGaps (task : option str)
  | CRunRecord (run : VerificationRun)
  | CRunGet (id : str)
  | CRuns (task : option str)
  | CHandoffRecord (handoff : AgentHandoff)
  | CHandoffGet (id : str)
  | CReviewAppend (task_id criterion hash record : str)
  | CReviews (task_id : str) (criterion : option str).

(** A call with its answer handed to whoever made it. *)
Definition done_with {A} (p : prog Db A) : prog Db unit := bind p (λ _, Ret tt).

(** A review is stamped with the time it is appended at. *)
Definition review_now (task criterion hash record : str) : M Z :=
  let* now := now_epoch in review_append task criterion hash record (iso now).

Definition call (unixepoch : str → option Z) (c : Call) : prog Db unit :=
  match c with
  | CAcquire req => done_with (acquire req)
  | CActiveLease t => done_with (active_lease t)
  | CDiagnose t tok => done_with (diagnose t tok)
  | CValidate t tok => done_with (validate t tok)
  | CRelease t tok => done_with (release t tok)
  | CRenew t tok ttl => done_with (renew unixepoch t tok ttl)
  | CObserve => done_with observe_leases
  | CActiveLeases => done_with active_leases
  | CUnreadable => done_with unreadable_leases
  | CReady mode => done_with (ready_tasks mode)
  | CTask t => done_with (task t)
  | CWiden t tok e r => done_with (set_agent_appended_planned_files t tok e r)
  | CEvidenceAppend k t r c d => done_with (evidence_append k t r c d)
  | CEvidenceList t => done_with (evidence_list t)
  | CGapUpsert g => done_with (gap_upsert g)
  | CGapsReplace t gs => done_with (gaps_replace t gs)
  | CCommit run t gs => done_with (verification_commit run t gs)
  | CGapHistory t => done_with (gap_history_list t)
  | CGaps t => done_with (gaps_list t)
  | CRunRecord r => done_with (run_record r)
  | CRunGet i => done_with (run_get i)
  | CRuns t => done_with (runs_list t)
  | CHandoffRecord h => done_with (handoff_record h)
  | CHandoffGet i => done_with (handoff_get i)
  | CReviewAppend t c h r => done_with (review_now t c h r)
  | CReviews t c => done_with (reviews_list t c)
  end.

Definition api (unixepoch : str → option Z) (p : prog Db unit) : Prop :=
  ∃ c, p = call unixepoch c.

(** Store states that some interleaving of calls leads to. *)
Definition reaches (reading : Z → Prop) (unixepoch : str → option Z) (db db' : Db) : Prop :=
  ∃ ps, rtc (pool_step reading (api unixepoch)) ([], db) (ps, db').

(** ** How the store moves *)

Definition records_move (db db' : Db) : Prop :=
  (∀ logs, tracks db logs → ∃ logs', tracks db' logs' ∧ ∀ t, grows (logs t) (logs' t))
  ∧ evidence db `prefix_of` evidence db' ∧ reviews db `prefix_of` reviews db'.

Definition moves (db db' : Db) : Prop :=
  exclusive db →
  exclusive db' ∧ lease_rows db db' ∧ work_items db' = work_items db ∧ records_move db db'.

#[export] Instance records_move_preorder : PreOrder records_move.
Proof.
  split.
  - intros db. split_and!; [|done|done]. intros logs H. exists logs. split; [done|]. by intros t.
  - intros d1 d2 d3 (H1 & He1 & Hr1) (H2 & He2 & Hr2). split_and!; [|by etrans|by etrans].
    intros logs Ht. destruct (H1 logs Ht) as (logs1 & Ht1 & Hg1).
    destruct (H2 logs1 Ht1) as (logs2 & Ht2 & Hg2). exists logs2. split; [done|].
    intros t. etrans; [apply Hg1|apply Hg2].
Qed.

#[export] Instance moves_preorder : PreOrder moves.
Proof.
  split; [by intros db H|]. intros d1 d2 d3 H1 H2 He.
  destruct (H1 He) as (He2 & Hl & Hw & Hr). destruct (H2 He2) as (He3 & Hl' & Hw' & Hr').
  split_and!; [done|by etrans|by etrans|by etrans].
Qed.

(** Tables the tracking does not read may change. *)
Lemma tracks_same db db' logs :
  gap_runs db' = gap_runs db → gap_history db' = gap_history db → tracks db logs → tracks db' logs.
Proof.
  intros Er Eh [Hrk Hhk Hr Hh]. constructor; rewrite ?Er, ?Eh; try done.
  intros t. unfold max_run. rewrite Er. by apply Hr.
Qed.

Lemma same_records_move db db' :
  gap_runs db' = gap_runs db → gap_history db' = gap_history db →
  evidence db `prefix_of` evidence db' → reviews db `prefix_of` reviews db' → records_move db db'.
Proof.
  intros Er Eh He Hv. split_and!; [|done|done]. intros logs Ht. exists logs.
  split; [by eapply tracks_same|by intros t].
Qed.

Lemma advances_moves db db' : advances db db' → moves db db'.
Proof.
  intros H He. destruct (H He) as [He' [Hl Hs]]. split_and!; [done|done|by apply same_items|].
  apply same_records_move; [exact (f_equal gap_runs Hs)|exact (f_equal gap_history Hs)|..].
  - by rewrite (f_equal evidence Hs : evidence db' = evidence db).
  - by rewrite (f_equal reviews Hs : reviews db' = reviews db).
Qed.

(** A statement that leaves leases and items alone. *)
Lemma leaves_leases_moves db db' :
  leases db' = leases db → work_items db' = work_items db → records_move db db' → moves db db'.
Proof.
  intros El Ew Hr He. unfold exclusive, lease_rows in *. rewrite El. split_and!; try done; [by destruct He..|].
  exists (leases db), []. split; [by rewrite app_nil_r|by apply reflexivity].
Qed.

Lemma gaps_only_moves db db' :
  gaps_only db db' →
  (∀ logs, tracks db logs → ∃ logs', tracks db' logs' ∧ ∀ t, grows (logs t) (logs' t)) →
  moves db db'.
Proof.
  intros H Ht. apply leaves_leases_moves; [exact (f_equal leases H)|exact (f_equal work_items H)|].
  split_and!; [done|..].
  - by rewrite (f_equal evidence H : evidence db' = evidence db).
  - by rewrite (f_equal reviews H : reviews db' = reviews db).
Qed.

Lemma with_log_grows t log logs :
  grows (logs t) log → ∀ t', grows (logs t') (with_log t log logs t').
Proof. intros H t'. unfold with_log. by destruct (decide (t' = t)) as [->|]. Qed.

Lemma sighted_grows x log : grows log (sighted x log).
Proof.
  destruct log as [|run log _] using rev_ind.
  - apply (grows_report [] [x]).
  - rewrite sighted_snoc. apply grows_sights.
Qed.

Lemma replaced_moves task gs rows db db' : replaced task gs rows db db' → moves db db'.
Proof.
  intros [_ _ _ _ Hl He]. apply gaps_only_moves; [done|]. intros logs Ht.
  eexists. split; [by apply Hl|]. apply with_log_grows, grows_report.
Qed.

Lemma upserted_moves g db db' : upserted g db db' → moves db db'.
Proof.
  intros [_ Hl He]. apply gaps_only_moves; [done|]. intros logs Ht. eexists. split; [by apply Hl|].
  unfold upsert_logs. destruct (sighted_task g); [apply with_log_grows, sighted_grows|by intros t].
Qed.

(** ** The calls *)

Section Calls.
Context (reading : Z → Prop) (unixepoch : str → option Z).
#[local] Abbreviation mv := (steps reading moves).

Lemma mv_done {A} (p : prog Db A) : mv p → mv (done_with p).
Proof. intros H. apply steps_bind; [done|]. by intros. Qed.

Lemma mv_advances {A} (p : prog Db A) : keeps advances p → mv p.
Proof.
  intros H. eapply steps_mono; [apply advances_moves|]. apply keeps_steps; [apply advances_preorder|done].
Qed.

Lemma mv_let {A C} (p : M A) (f : A → M C) : mv p → (∀ a, mv (f a)) → mv (bind_ok p f).
Proof. intros Hp Hf. apply steps_bind; [done|]. by intros [a|e]. Qed.

Lemma mv_check {A C} (r : result A StoreError) (f : A → M C) : (∀ a, mv (f a)) → mv (bind_ok (Ret r) f).
Proof. intros Hf. by apply mv_let. Qed.

Lemma mv_sql {B} (s : stmt Db B) : (∀ db, moves db (s db).1) → mv (sql s).
Proof. intros Hs. cbn. by split; [|intros [b|e]]. Qed.

Lemma mv_query {B} (f : Db → B) : mv (sql (query f)).
Proof. apply mv_sql. intros db. by apply reflexivity. Qed.

Lemma mv_txn {B} (body : M B) :
  (∀ db, wp reading body db (λ db' r, match r with Ok _ => moves db db' | Err _ => True end)) →
  mv (write_transaction body).
Proof.
  intros H. cbn. split; [|done]. intros db. eapply wp_mono; [apply H|].
  intros db' [b|e] Hr; [done|by apply reflexivity].
Qed.

(** A read: one query, its answer shaped. *)
Lemma mv_read {A B} (f : Db → A) (g : A → B) : mv (bind_ok (sql (query f)) (λ a, ok (g a))).
Proof. apply mv_let; [apply mv_query|done]. Qed.

Lemma mv_evidence_append k t r c d : mv (evidence_append k t r c d).
Proof.
  unfold evidence_append. do 2 (apply mv_check; intros _). apply mv_sql. intros db.
  unfold insert_evidence. case_if; [by apply reflexivity|]. apply leaves_leases_moves; [done|done|].
  apply same_records_move; try done. by eexists.
Qed.

Lemma mv_review_now t c h r : mv (review_now t c h r).
Proof.
  unfold review_now. apply mv_let; [by intros z|]. intros now. unfold review_append.
  apply mv_check. intros _. apply mv_let; [apply mv_advances, adv_local|]. intros [|]; [|done].
  apply mv_sql. intros db. unfold insert_review. case_if; [by apply reflexivity|].
  apply leaves_leases_moves; [done|done|]. apply same_records_move; try done. by eexists.
Qed.

Lemma mv_gap_upsert g : mv (gap_upsert g).
Proof.
  unfold gap_upsert. do 2 (apply mv_check; intros _). apply mv_txn. intros db.
  eapply wp_mono; [apply wp_gap_upsert_in|]. intros db' [[]|e]; [apply upserted_moves|done].
Qed.

Lemma mv_gaps_replace t gs : mv (gaps_replace t gs).
Proof.
  apply mv_txn. intros db. eapply wp_mono; [apply wp_gaps_replace_in|].
  intros db' [[]|e]; [intros [rows H]; by eapply replaced_moves|done].
Qed.

Lemma with_run_moves run db : moves db (with_run run db).
Proof. destruct run; [|by apply reflexivity]. by apply leaves_leases_moves, same_records_move. Qed.

Lemma mv_commit run t gs : mv (verification_commit run t gs).
Proof.
  unfold verification_commit. apply mv_check. intros _. apply mv_txn. intros db.
  eapply wp_mono; [apply (wp_commit_body reading run t gs)|].
  intros db' [[]|e]; [|done]. intros [rows H]. etrans; [apply (with_run_moves run)|].
  by eapply replaced_moves.
Qed.

Lemma mv_run_record r : mv (run_record r).
Proof.
  unfold run_record. do 3 (apply mv_check; intros _). apply mv_sql. intros db.
  by apply leaves_leases_moves, same_records_move.
Qed.

Lemma mv_handoff_record h : mv (handoff_record h).
Proof.
  unfold handoff_record. apply mv_check; intros _. apply mv_sql. intros db.
  by apply leaves_leases_moves, same_records_move.
Qed.

Lemma mv_gaps_list t : mv (gaps_list t).
Proof.
  unfold gaps_list. apply mv_let; [apply mv_query|]. intros c. apply mv_let; [by destruct c|].
  intros d. apply mv_read.
Qed.

Lemma call_advances c :
  match c with
  | CAcquire _ | CActiveLease _ | CDiagnose _ _ | CValidate _ _ | CRelease _ _ | CRenew _ _ _
  | CObserve | CActiveLeases | CUnreadable | CReady _ | CTask _ | CWiden _ _ _ _ => True
  | _ => False
  end → keeps advances (call unixepoch c).
Proof.
  assert (∀ A (p : prog Db A), keeps advances p → keeps advances (done_with p)) as Hd.
  { intros A p H. apply keeps_bind; [done|]. by intros. }
  destruct c; try done; intros _; apply Hd.
  - apply adv_let; [apply adv_acquire_outcome|by intros].
  - apply adv_active.
  - apply adv_diagnose.
  - apply adv_let; [apply adv_diagnose|by intros].
  - apply adv_release.
  - apply adv_renew.
  - apply adv_let; [apply adv_query|]. intros ls. apply adv_let; [apply adv_now|by intros].
  - apply adv_let; [apply adv_sweep_expired|by intros].
  - apply adv_let; [apply adv_sweep_expired|by intros].
  - apply adv_ready.
  - apply adv_task.
  - apply adv_set_appended.
Qed.

Lemma call_moves c : mv (call unixepoch c).
Proof.
  destruct c; try (by apply mv_advances, call_advances); apply mv_done.
  - apply mv_evidence_append.
  - apply mv_read.
  - apply mv_gap_upsert.
  - apply mv_gaps_replace.
  - apply mv_commit.
  - apply mv_read.
  - apply mv_gaps_list.
  - apply mv_run_record.
  - apply mv_query.
  - apply mv_read.
  - apply mv_handoff_record.
  - apply mv_query.
  - apply mv_review_now.
  - apply mv_read.
Qed.

Lemma reaches_moves db db' : reaches reading unixepoch db db' → moves db db'.
Proof.
  intros [ps H]. eapply (pool_moves reading moves _ []); [|constructor|exact H].
  intros p [c ->]. apply call_moves.
Qed.

End Calls.
End StoreCalls.
