(* ===== verification/LeaseProps.v ===== *)
(** * What the lease table guarantees *)

From S2P Require Import Prelude RustStr Json Time Effects Store Leases Ready LeaseHistory LeaseSpec StoreCalls.
Import TimeFacts Effects Store Tasks Leases Ready LeaseHistory LeaseSpec StoreCalls.

#[local] Open Scope Z_scope.

Module LeaseProps.

Lemma active_rows_same (ls : list Lease) i j l l' :
  NoDup (task_id <$> List.filter is_active ls) → ls !! i = Some l → ls !! j = Some l' →
  is_active l = true → is_active l' = true → task_id l = task_id l' → i = j.
Proof.
  revert i j. induction ls as [|x ls IH]; intros i j Hnd Hi Hj Ha Ha' Ht; [done|].
  cbn [List.filter] in Hnd.
  assert (∀ r k, ls !! k = Some r → is_active r = true → is_active x = true →
    task_id r = task_id x → False) as Hx.
  { intros r k Hr Har Hax Htk. rewrite Hax in Hnd. cbn in Hnd. apply NoDup_cons in Hnd as [Hn _].
    apply Hn. rewrite <- Htk. apply list_elem_of_fmap_2, elem_of_filter_bool.
    split; [by eapply list_elem_of_lookup_2|done]. }
  destruct i as [|i], j as [|j]; cbn in Hi, Hj; simplify_eq; [done|..].
  - exfalso. by eapply Hx.
  - exfalso. by eapply Hx.
  - f_equal. eapply IH; try done. destruct (is_active x); [by apply NoDup_cons in Hnd as [_ ?]|done].
Qed.

(** C1. However the store's calls interleave, leases, listings, widenings and records
    alike, one statement or transaction at a time and with any of them failing, a task
    never has two active leases. *)
Theorem mutual_exclusion reading unixepoch db db' i j l l' :
  exclusive db → reaches reading unixepoch db db' →
  leases db' !! i = Some l → leases db' !! j = Some l' →
  is_active l = true → is_active l' = true → task_id l = task_id l' → i = j.
Proof.
  intros He Hr. apply reaches_moves in Hr. destruct (Hr He) as [[_ Hnd] _].
  by apply active_rows_same.
Qed.

(** In any interleaving a lease that is no longer active is never touched again, and an
    active one keeps its task, owner and token: it can only have its expiry moved or be
    closed with a stamp. No row is ever removed. *)
Theorem closed_leases_are_final reading unixepoch db db' i l :
  exclusive db → reaches reading unixepoch db db' → leases db !! i = Some l →
  ∃ l', leases db' !! i = Some l' ∧ evolves l l' ∧ (is_active l = false → l' = l).
Proof.
  intros He Hr Hi. apply reaches_moves in Hr. destruct (Hr He) as (_ & (old & new & E & H) & _).
  destruct (Forall2_lookup_l _ _ _ _ _ H Hi) as (l' & Hl' & Hev). exists l'.
  split_and!; [|done|].
  - rewrite E. by apply lookup_app_l_Some.
  - intros Ha. destruct Hev as [|(Hact & _)]; [done|]. apply is_active_true in Hact. congruence.
Qed.

(** C27. A refused acquire, whatever refused it and wherever a statement failed, leaves the
    store exactly as it was. A granted one adds one active row built from the request,
    for work that may be leased, after closing the task's previous lease if it had one;
    without force that lease must have lapsed. *)
Theorem acquire_all_or_nothing reading req db db' r :
  exclusive db → runs reading (acquire_outcome req) db db' r →
  match r with
  | Err _ => db' = db
  | Ok (l, retired) =>
      acquirable db (rq_task_id req) ∧ granted reading req db db' l retired
      ∧ current db' (rq_task_id req) = Some l
  end.
Proof.
  intros He Hr.
  pose proof (proj1 (wp_runs _ _ _ _) (wp_advances reading _ _ _ (adv_acquire_outcome req) He
    (wp_acquire_outcome reading req db He)) db' r Hr) as [Hs [He' _]].
  destruct r as [[l retired]|e]; [|done]. destruct Hs as [Hacq Hg]. split_and!; [done..|].
  destruct Hg as (db1 & lid & tok & now & _ & _ & -> & _ & ->).
  apply current_unique; [done| |].
  - cbn. apply elem_of_app. right. by apply list_elem_of_singleton.
  - unfold active_for. cbn. by rewrite bool_decide_eq_true_2.
Qed.

(** A lease that is live at every instant the clock may show cannot be taken without
    force: the acquire is refused and the holder's row is as it was. *)
Theorem live_lease_is_not_stolen reading req db db' r l :
  exclusive db → current db (rq_task_id req) = Some l → rq_force req = false →
  (∀ now, reading now → live_at l now) →
  runs reading (acquire_outcome req) db db' r → db' = db ∧ ∃ e, r = Err e.
Proof.
  intros He Hc Hf Hlive Hr.
  pose proof (proj1 (wp_runs _ _ _ _) (wp_acquire_outcome reading req db He) db' r Hr) as Hs.
  destruct r as [[l' retired]|e]; [|by split; [|eexists]]. exfalso.
  destruct Hs as [_ (db1 & lid & tok & now & Hcl & _)]. unfold cleared in Hcl.
  rewrite Hc, Hf in Hcl. destruct Hcl as [_ Hcl].
  destruct (expires_at l) as [e|] eqn:Hexp; [|by destruct Hcl].
  destruct (Time.parse_iso_utc e) as [z|] eqn:Hz; [|by destruct Hcl].
  destruct Hcl as [_ [|(n & Hn & Hlt)]]; [done|].
  destruct (Hlive n Hn) as [|(e' & z' & He' & Hz' & Hle)]; [congruence|].
  rewrite Hexp in He'. simplify_eq. lia.
Qed.

(** ** Using a lease *)

Definition known_statuses (db : Db) : Prop :=
  ∀ l, l ∈ leases db → status l = ACTIVE ∨ status l = STALE ∨ status l = RELEASED.

Lemma known_replace db l st a :
  known_statuses db → st = STALE ∨ st = RELEASED → known_statuses (replace_lease (close st a l) db).
Proof.
  intros Hk Hst x Hx. cbn in Hx. rewrite list_elem_of_In, in_map_iff in Hx.
  destruct Hx as (y & Hxy & Hy). apply list_elem_of_In in Hy.
  case_match; subst x; [|by apply Hk]. destruct Hst as [-> | ->]; auto.
Qed.

Lemma newest_spec db task tok :
  match newest_with db task tok with
  | Some st => ∃ l, l ∈ leases db ∧ task_id l = task ∧ token l = tok ∧ status l = st
  | None => ∀ l, l ∈ leases db → task_id l = task → token l ≠ tok
  end.
Proof.
  unfold newest_with. set (rows := List.filter _ (leases db)). set (leb := λ a b : Lease, _).
  pose proof (sort_by_perm leb rows) as Hp. destruct (sort_by leb rows) as [|l ls]; cbn.
  - intros l Hl Ht Htok. assert (l ∈ rows) as Hin; [|rewrite <- Hp in Hin; by apply not_elem_of_nil in Hin].
    apply elem_of_filter_bool. split; [done|]. by rewrite !bool_decide_eq_true_2.
  - assert (l ∈ rows) as Hin by (rewrite <- Hp; by left). apply elem_of_filter_bool in Hin as [Hin Hw].
    apply andb_true_iff in Hw as [?%bool_decide_eq_true ?%bool_decide_eq_true]. by exists l.
Qed.

Lemma expired_gone reading db db' task l :
  exclusive db → current db task = Some l → expired_in reading db db' l → current db' task = None.
Proof.
  intros He Hc (now & now' & _ & _ & _ & ->).
  eapply replace_lease_None; [done|done|done|]. apply closed_inactive. by left.
Qed.

(** A diagnosis names exactly how the token stands to the task once lapsed leases are
    closed: valid when it is the active lease's, held by other when another token is,
    and otherwise expired when the store once issued it for the task, invalid when it
    never did. *)
Theorem diagnose_classifies reading db db' task tok code :
  exclusive db → known_statuses db → runs reading (diagnose task tok) db db' (Ok code) →
  (code = Valid ↔ ∃ l, current db' task = Some l ∧ token l = tok)
  ∧ (code = HeldByOther ↔ ∃ l, current db' task = Some l ∧ token l ≠ tok)
  ∧ (code = Expired ↔ current db' task = None
       ∧ ∃ l, l ∈ leases db' ∧ task_id l = task ∧ token l = tok)
  ∧ (code = Invalid ↔ current db' task = None
       ∧ ∀ l, l ∈ leases db' → task_id l = task → token l ≠ tok)
  ∧ (db' = db ∨ ∃ l, current db task = Some l ∧ expired_in reading db db' l).
Proof.
  intros He Hk Hr.
  pose proof (proj1 (wp_runs _ _ _ _) (wp_diagnose reading db task tok He) db' _ Hr) as Hs.
  assert ((code = Valid ∨ code = HeldByOther) ∨
    ((db' = db ∧ current db task = None ∨ ∃ l, current db task = Some l ∧ expired_in reading db db' l)
      ∧ code = classify_prior (newest_with db' task tok))) as [Hcode|[Hd Hcode]]
    by (destruct code; auto).
  - destruct Hcode as [-> | ->]; cbn in Hs.
    + destruct Hs as (-> & l & [Hc Ht] & _). rewrite Hc. naive_solver.
    + destruct Hs as (-> & l & Hc & Ht & _). rewrite Hc. naive_solver.
  - assert (current db' task = None ∧ known_statuses db'
      ∧ (db' = db ∨ ∃ l, current db task = Some l ∧ expired_in reading db db' l)) as (Hn & Hk' & Hd').
    { destruct Hd as [[-> Hc]|(l & Hc & Hx)]; [by auto|].
      split_and!; [by eapply expired_gone| |by right; exists l].
      destruct Hx as (? & ? & _ & _ & _ & ->). apply known_replace; [done|by left]. }
    rewrite Hn. pose proof (newest_spec db' task tok) as Hnew.
    destruct (newest_with db' task tok) as [st|]; cbn in Hcode.
    + destruct Hnew as (l & Hl & Ht & Htok & Hst).
      assert (code = Expired) as ->; [|naive_solver].
      destruct (Hk' l Hl) as [Hact|[E|E]]; rewrite Hst in *; subst.
      * exfalso. rewrite current_None in Hn. specialize (Hn l Hl). unfold active_for, is_active in Hn.
        by rewrite !bool_decide_eq_true_2 in Hn.
      * by rewrite E.
      * by rewrite E.
    + subst code. naive_solver.
Qed.

(** Releasing succeeds only for the token of the task's lease, which it closes as
    released, so that the task has no lease; every other token changes nothing but a
    lease found past its expiry. *)
Theorem release_only_by_holder reading db db' task tok b :
  exclusive db → runs reading (release task tok) db db' (Ok b) →
  if b : bool then
    ∃ l now, current db task = Some l ∧ token l = tok ∧ reading now
      ∧ db' = replace_lease (close RELEASED (iso now) l) db ∧ current db' task = None
  else
    (db' = db ∧ ∀ l, current db task = Some l → token l ≠ tok)
    ∨ ∃ l, current db task = Some l ∧ expired_in reading db db' l.
Proof.
  intros He Hr.
  pose proof (proj1 (wp_runs _ _ _ _) (wp_release reading db task tok He) db' _ Hr) as Hs.
  destruct b; cbn in Hs.
  - destruct Hs as (l & now & [Hc Ht] & _ & Hn & ->). exists l, now. split_and!; try done.
    eapply replace_lease_None; [done|done|done|]. apply closed_inactive. by right.
  - destruct Hs as [[-> H]|H]; [left|by right]. split; [done|]. intros l Hc Ht. by apply (H l).
Qed.

(** A holder whose lease has not passed its expiry renews it: the row's expiry becomes
    now plus the ttl and nothing else changes, unless a statement fails, which changes
    nothing. No other call of renew can move an expiry. *)
Theorem renew_extends_only_live reading unixepoch db db' task tok ttl r :
  exclusive db → (∀ z, in_years z → unixepoch (iso z) = Some z) →
  runs reading (renew unixepoch task tok ttl) db db' r →
  match r with
  | Ok (Some l') => ∃ l now, held_by db task tok l ∧ reading now ∧ ¬ lapsed_at l now
                      ∧ Time.validate_ttl ttl = true
                      ∧ l' = renewed l now ttl ∧ db' = replace_lease l' db
  | Ok None =>
      (db' = db ∧ ∀ l z, held_by db task tok l → expires_at l = Some (iso z) → in_years z →
         ∃ now, reading now ∧ z < now)
      ∨ ∃ l, current db task = Some l ∧ expired_in reading db db' l
  | Err e => db' = db
  end.
Proof.
  intros He Hu Hr.
  pose proof (proj1 (wp_runs _ _ _ _) (wp_renew reading unixepoch db task tok ttl He) db' r Hr) as Hs.
  destruct r as [[l'|]|e]; cbn in Hs; [| |by destruct Hs].
  - destruct Hs as (l & now & ? & _ & ? & ? & ? & ? & ?). exists l, now. by split_and!.
  - destruct Hs as [[-> H]|H]; [left|by right]. split; [done|]. intros l z Hh Hexp Hz.
    destruct (H l Hh) as (now & e & z' & Hn & Hexp' & Hz' & Hlt). rewrite Hexp in Hexp'. simplify_eq.
    unfold iso in Hz'. rewrite iso_reads_back in Hz' by done. simplify_eq. exists now.
    split; [done|]. destruct Hlt as [|Hlt]; [done|]. by apply Hlt, Hu.
Qed.

(** ** A board with one task *)

Definition board_item : WorkItem :=
  {| i_id := lit "t1"; i_title := lit "Task"; i_status := lit "ready"; i_deleted := 0;
     i_archived := 0; i_repository := LOCAL_REPOSITORY_ID; i_priority := None;
     i_position := None; i_difficulty := None; i_planned_files := Some (lit "[{}]");
     i_allowed_commands := None; i_expected_tests := None; i_forbidden_changes := None;
     i_requirement_ids := None; i_acceptance_criterion_ids := None |}.

Definition board : Db :=
  {| leases := []; work_items := Some [board_item]; gaps := []; appends := []; gap_runs := [];
     gap_history := []; verification_runs := []; agent_handoffs := []; evidence := [];
     evidence_sequence := 0; reviews := []; reviews_sequence := 0; gap_output_columns := true |}.

Definition request (who : string) (force : bool) : AcquireRequest :=
  {| rq_task_id := lit "t1"; rq_owner := lit who; rq_agent := None; rq_client_id := None;
     rq_run_id := None; rq_branch := None; rq_ttl_seconds := Some 60; rq_force := force |}.

(** A world whose clock stands at 1000. *)
Definition at_1000 (db : Db) (b : Z) : World Db :=
  {| w_db := db; w_clock := repeat 1000 6; w_blobs := [repeat b 16; repeat b 32] |}.

Definition outcome {A} (p : prog Db A) (w : World Db) : option (Db * A) :=
  (λ x, (w_db x.1, x.2)) <$> exec p w.

Definition db_after {A} (p : prog Db A) (w : World Db) : Db := default (w_db w) (fst <$> outcome p w).

Definition leased : Db := db_after (acquire_outcome (request "ann" false)) (at_1000 board 7).
Definition held_row : Lease := new_lease (request "ann" false) (hex (repeat 7 16)) (hex (repeat 7 32)) 1000.
Definition ann : str := token held_row.

Lemma outcome_runs {A} (p : prog Db A) db b db' a :
  outcome p (at_1000 db b) = Some (db', a) → runs (eq 1000) p db db' a.
Proof.
  unfold outcome. destruct (exec p (at_1000 db b)) as [[w' a']|] eqn:E; [|done].
  cbn. intros [= <- <-]. apply (exec_runs (eq 1000)) in E as [H _]; [exact H|]. by repeat constructor.
Qed.

Lemma board_exclusive : exclusive board.
Proof. split; constructor. Qed.

Lemma leased_row : leases leased = [held_row].
Proof. vm_compute. reflexivity. Qed.

Lemma leased_exclusive : exclusive leased.
Proof. unfold exclusive. rewrite leased_row. split; vm_compute; repeat constructor; set_solver. Qed.

Lemma leased_known : known_statuses leased.
Proof. intros l. rewrite leased_row, list_elem_of_singleton. intros ->. by left. Qed.

Lemma leased_current : current leased (lit "t1") = Some held_row.
Proof. vm_compute. reflexivity. Qed.

(** Two agents ask for the same task at once: one is granted, one refused. *)
Lemma board_reaches_leased unixepoch : reaches (eq 1000) unixepoch board leased.
Proof.
  set (ca := call unixepoch (CAcquire (request "ann" false))).
  set (cb := call unixepoch (CAcquire (request "bob" false))).
  exists [Ret tt; Ret tt].
  eapply rtc_l; [apply (pool_call _ _ ca); by eexists|].
  eapply rtc_l; [apply (pool_call _ _ cb); by eexists|].
  eapply rtc_l.
  { apply (pool_run _ _ 0 ca (Ret tt) _ _ leased); [reflexivity|]. left.
    exists leased, (Ok (held_row, None)). split_and!; [|reflexivity|reflexivity].
    apply (outcome_runs (acquire_in_transaction (request "ann" false)) board 7).
    vm_compute. reflexivity. }
  apply rtc_once. apply (pool_run _ _ 1 cb (Ret tt) [Ret tt; cb] leased leased); [reflexivity|]. left.
  exists leased, (Err (LeaseHeld (lit "t1") (lit "ann"))). split_and!; [|reflexivity|reflexivity].
  apply (outcome_runs (acquire_in_transaction (request "bob" false)) leased 8).
  vm_compute. reflexivity.
Qed.

(** SQLite's reading of the stamps this store writes. *)
Definition unixepoch_iso (s : str) : option Z := Time.parse_iso_utc s.

Lemma unixepoch_iso_ok z : in_years z → unixepoch_iso (iso z) = Some z.
Proof. apply iso_reads_back. Qed.

Lemma mutual_exclusion_witness :
  leases leased !! 0%nat = Some held_row ∧ is_active held_row = true ∧ 0%nat = 0%nat.
Proof.
  split_and!; [rewrite leased_row; reflexivity|reflexivity|].
  apply (mutual_exclusion (eq 1000) (λ _, None) board leased 0 0 held_row held_row);
    [apply board_exclusive|apply board_reaches_leased|rewrite leased_row; reflexivity
    |rewrite leased_row; reflexivity|reflexivity|reflexivity|reflexivity].
Defined.

Lemma closed_leases_are_final_witness :
  ∃ l', leases leased !! 0%nat = Some l' ∧ evolves held_row l' ∧ (is_active held_row = false → l' = held_row).
Proof.
  apply (closed_leases_are_final (eq 1000) (λ _, None) leased leased 0 held_row);
    [apply leased_exclusive|by exists []; apply rtc_refl|rewrite leased_row; reflexivity].
Defined.

Lemma acquire_all_or_nothing_witness :
  acquirable board (lit "t1") ∧ granted (eq 1000) (request "ann" false) board leased held_row None
  ∧ current leased (lit "t1") = Some held_row.
Proof.
  apply (acquire_all_or_nothing (eq 1000) (request "ann" false) board leased (Ok (held_row, None)));
    [apply board_exclusive|].
  apply (outcome_runs _ board 7). vm_compute. reflexivity.
Defined.

Lemma live_lease_is_not_stolen_witness :
  leased = leased ∧ ∃ e, Err (A := Lease * option RetiredLease) (LeaseHeld (lit "t1") (lit "ann")) = Err e.
Proof.
  apply (live_lease_is_not_stolen (eq 1000) (request "bob" false) leased leased _ held_row);
    [apply leased_exclusive|apply leased_current|reflexivity| |].
  - intros now <-. right. exists (iso 1060), 1060. split_and!; [reflexivity|vm_compute; reflexivity|done].
  - apply (outcome_runs _ leased 8). vm_compute. reflexivity.
Defined.

Lemma diagnose_classifies_witness :
  (Valid = Valid ↔ ∃ l, current leased (lit "t1") = Some l ∧ token l = ann).
Proof.
  apply (diagnose_classifies (eq 1000) leased leased (lit "t1") ann Valid);
    [apply leased_exclusive|apply leased_known|].
  apply (outcome_runs _ leased 8). vm_compute. reflexivity.
Defined.

Lemma release_only_by_holder_witness :
  (leased = leased ∧ ∀ l, current leased (lit "t1") = Some l → token l ≠ lit "forged")
  ∨ ∃ l, current leased (lit "t1") = Some l ∧ expired_in (eq 1000) leased leased l.
Proof.
  apply (release_only_by_holder (eq 1000) leased leased (lit "t1") (lit "forged") false);
    [apply leased_exclusive|].
  apply (outcome_runs _ leased 8). vm_compute. reflexivity.
Defined.

Definition renewed_row : Lease := set_expiry (iso 1120) held_row.

Lemma renew_extends_only_live_witness :
  ∃ l now, held_by leased (lit "t1") ann l ∧ 1000 = now ∧ ¬ lapsed_at l now
    ∧ Time.validate_ttl 120 = true ∧ renewed_row = renewed l now 120
    ∧ replace_lease renewed_row leased = replace_lease renewed_row leased.
Proof.
  apply (renew_extends_only_live (eq 1000) unixepoch_iso leased (replace_lease renewed_row leased)
    (lit "t1") ann 120 (Ok (Some renewed_row))); [apply leased_exclusive|apply unixepoch_iso_ok|].
  apply (outcome_runs _ leased 8). vm_compute. reflexivity.
Defined.

End LeaseProps.

(** * Leases do not outlive their holders

    [LeaseProps] says what no run may do; here is what a run must do. In a world where
    no statement fails and the clock stands past a lease's expiry, the next acquire gets
    the task, whatever became of the process that held it. *)

Import Effects Store Tasks Leases Ready LeaseHistory LeaseSpec LeaseProps.

#[local] Open Scope Z_scope.

Module LeaseLive.

(** ** Worlds at one instant *)

Section Instant.
Context (now : Z).

(** A world whose clock shows [now] for [n] more readings. *)
Definition still (db : Db) (n : nat) (blobs : list (list Z)) : World Db :=
  {| w_db := db; w_clock := repeat now n; w_blobs := blobs |}.

(** With [c] readings to spare the program ends, in [Q], drawing no bytes. *)
Definition ends {A} (c : nat) (p : prog Db A) (db : Db) (Q : Db → A → Prop) : Prop :=
  ∀ n blobs, ∃ k db' a,
    exec p (still db (c + n) blobs) = Some (still db' (k + n) blobs, a) ∧ Q db' a.

Lemma exec_bind {A C} (p : prog Db A) (f : A → prog Db C) w :
  exec (bind p f) w = match exec p w with Some (w', a) => exec (f a) w' | None => None end.
Proof.
  revert w. induction p as [A x|A B s k IH|A k IH|A n k IH|A B E body _ fault k IH]; intros w;
    cbn [bind exec]; [done|..].
  - destruct (s (w_db w)) as [db r]. apply IH.
  - destruct (w_clock w); [done|apply IH].
  - destruct (w_blobs w) as [|bs bss]; [done|]. destruct (is_blob_b n bs); [apply IH|done].
  - destruct (exec body w) as [[w1 r]|]; [apply IH|done].
Qed.

Lemma ends_ret {A} (a : A) db (Q : Db → A → Prop) : Q db a → ends 0 (Ret a) db Q.
Proof. intros HQ n blobs. by exists 0%nat, db, a. Qed.

Lemma ends_sql {A B} (s : stmt Db B) (k : result B SqlError → prog Db A) c db Q :
  ends c (k (s db).2) (s db).1 Q → ends c (Sql s k) db Q.
Proof. intros H n blobs. cbn [exec w_db still]. destruct (s db) as [db1 r]. apply H. Qed.

Lemma ends_now {A} (k : Z → prog Db A) c db Q : ends c (k now) db Q → ends (S c) (Now k) db Q.
Proof. intros H n blobs. apply H. Qed.

Lemma ends_bind {A C} (p : prog Db A) (f : A → prog Db C) c c' db Q R :
  ends c p db Q → (∀ db' a, Q db' a → ends c' (f a) db' R) → ends (c + c') (bind p f) db R.
Proof.
  intros Hp Hf n blobs. destruct (Hp (c' + n)%nat blobs) as (k & db1 & a & E & HQ).
  rewrite <- Nat.add_assoc, exec_bind, E.
  replace (k + (c' + n))%nat with (c' + (k + n))%nat by lia.
  destruct (Hf db1 a HQ (k + n)%nat blobs) as (k' & db2 & a' & E' & HR).
  exists (k' + k)%nat, db2, a'. rewrite E'. split; [|done]. by rewrite Nat.add_assoc.
Qed.

Lemma ends_more {A} c c' (p : prog Db A) db (Q : Db → A → Prop) :
  (c ≤ c')%nat → ends c p db Q → ends c' p db Q.
Proof.
  intros Hc H n blobs. destruct (H (c' - c + n)%nat blobs) as (k & db' & a & E & HQ).
  exists (k + (c' - c))%nat, db', a. split; [|done].
  replace (c' + n)%nat with (c + (c' - c + n))%nat by lia.
  by replace (k + (c' - c) + n)%nat with (k + (c' - c + n))%nat by lia.
Qed.

Lemma ends_mono {A} c (p : prog Db A) db (Q R : Db → A → Prop) :
  ends c p db Q → (∀ db' a, Q db' a → R db' a) → ends c p db R.
Proof.
  intros H HQR n blobs. destruct (H n blobs) as (k & db' & a & E & HQ).
  exists k, db', a. auto.
Qed.

(** ** Clearing what stands in the way *)

(** Nothing the request must give way to: no lease, one that has lapsed, or force. *)
Definition yields (req : AcquireRequest) (db : Db) : Prop :=
  ∀ l, current db (rq_task_id req) = Some l → rq_force req = true ∨ lapsed_at l now.

Lemma ends_active_lease db task :
  exclusive db →
  ends 2 (active_lease task) db (λ db' r,
    match current db task with
    | None => db' = db ∧ r = Ok None
    | Some l =>
        (lapsed_at l now ∧ db' = replace_lease (close STALE (iso now) l) db ∧ r = Ok None)
        ∨ (db' = db ∧ live_at l now ∧ r = Ok (Some l))
        ∨ (db' = db ∧ ∃ v, expires_at l = Some v ∧ Time.parse_iso_utc v = None ∧ r = Err (BadTimestamp v))
    end).
Proof.
  intros He. unfold active_lease, MAX_EXPIRY_PASSES. cbn [active_lease_passes].
  apply ends_sql. cbn [select_active_stmt query fst snd bind bind_ok]. fold (current db task).
  destruct (current db task) as [l|] eqn:Hc; [|apply (ends_more 0); [lia|by apply ends_ret]].
  destruct (expires_at l) as [e|] eqn:Hexp.
  2: { apply (ends_more 0); [lia|]. apply ends_ret. right. left. split_and!; [done|by left|done]. }
  destruct (Time.parse_iso_utc e) as [z|] eqn:Hz.
  2: { apply (ends_more 0); [lia|]. apply ends_ret. right. right. split; [done|]. by exists e. }
  apply ends_now. cbn [bind]. destruct (Z.leb_spec now z) as [Hle|Hlt].
  - apply (ends_more 0); [lia|]. apply ends_ret. right. left. split_and!; [done| |done]. right. by exists e, z.
  - apply ends_now. apply ends_sql. apply current_Some in Hc as Hc'. destruct Hc' as (Hl & _ & Ha).
    rewrite (update_one _ _ db l); [|done|done| | |done].
    + apply ends_ret. left. split_and!; [by exists e, z|done|done].
    + unfold retire_where. by rewrite Ha, !bool_decide_eq_true_2.
    + intros x. unfold retire_where. rewrite !andb_true_iff. by intros [[?%bool_decide_eq_true _] _].
Qed.

Lemma ends_retire_active db task l :
  exclusive db → current db task = Some l →
  ends 1 (retire_active (id l)) db (λ db' r,
    db' = replace_lease (close STALE (iso now) l) db ∧ r = Ok tt).
Proof.
  intros He Hc. apply current_Some in Hc as (Hl & _ & Ha). apply ends_now, ends_sql.
  rewrite (update_one _ _ db l); [by apply ends_ret|done|done| | |done].
  - unfold active_id_where. by rewrite Ha, bool_decide_eq_true_2.
  - intros x. unfold active_id_where. rewrite andb_true_iff. by intros [?%bool_decide_eq_true _].
Qed.

Lemma retired_leaves db task l at_ :
  exclusive db → current db task = Some l →
  current (replace_lease (close STALE at_ l) db) task = None
  ∧ id <$> leases (replace_lease (close STALE at_ l) db) = id <$> leases db.
Proof.
  intros He Hc. split.
  - eapply replace_lease_None; [done|done|done|]. apply closed_inactive. by left.
  - cbn. change (map ?f (leases db)) with (f <$> leases db). rewrite <- list_fmap_compose.
    apply list_fmap_ext. intros i x _. cbn. by case_bool_decide.
Qed.

(** The way is clear, and no row was added. *)
Definition clear_of (task : str) (db db' : Db) : Prop :=
  current db' task = None ∧ id <$> leases db' = id <$> leases db.

Lemma ends_clear req db :
  exclusive db → yields req db →
  ends 3 (clear_incumbent req) db (λ db' r, clear_of (rq_task_id req) db db' ∧ is_ok r).
Proof.
  intros He Hy. unfold clear_incumbent. apply (ends_bind _ _ 2 1 _ _ _ (ends_active_lease db _ He)).
  intros db' r. destruct (current db (rq_task_id req)) as [l|] eqn:Hc.
  - pose proof (λ at_, retired_leaves db (rq_task_id req) l at_ He Hc) as Hr.
    assert (∀ x : option RetiredLease, ends 1 (let* _done := retire_active (id l) in ok x) db
      (λ db' r, clear_of (rq_task_id req) db db' ∧ is_ok r)) as Hforce.
    { intros x. apply (ends_bind _ _ 1 0 _ _ _ (ends_retire_active db _ l He Hc)).
      intros db1 r1 [-> ->]. apply ends_ret. split; [apply Hr|done]. }
    intros [(_ & -> & ->)|[(-> & Hlive & ->)|(-> & v & Hexp & Hv & ->)]].
    + apply (ends_more 0); [lia|]. apply ends_ret. split; [apply Hr|done].
    + destruct (Hy l Hc) as [-> |(e & z & He1 & Hz & Hlt)]; [apply Hforce|]. exfalso.
      destruct Hlive as [|(e' & z' & He2 & Hz2 & Hle)]; [congruence|]. simplify_eq. lia.
    + destruct (Hy l Hc) as [-> |(e & z & He1 & Hz & Hlt)]; [|congruence].
      apply ends_sql. cbn [select_active_stmt query fst snd bind bind_ok].
      fold (current db (rq_task_id req)). rewrite Hc. apply Hforce.
  - intros [-> ->]. apply (ends_more 0); [lia|]. by apply ends_ret.
Qed.

Lemma acquirable_judged db task :
  NoDup (i_id <$> rows_of db) → acquirable db task →
  ∃ rows, work_items db = Some rows
    ∧ judge_acquirable task ((λ i, (i_status i, i_archived i))
        <$> head (List.filter (local_where task) (rows_of db))) = Ok tt.
Proof.
  intros Hnd (i & Hi & Hw & Ha & Hk). unfold rows_of in *.
  destruct (work_items db) as [rows|]; [|by apply not_elem_of_nil in Hi]. exists rows. split; [done|].
  change (default [] (Some rows)) with rows in *.
  assert (i ∈ List.filter (local_where task) rows) as Hf by (by apply elem_of_filter_bool).
  destruct (List.filter _ _) as [|j rest] eqn:E; [by apply not_elem_of_nil in Hf|].
  assert (j ∈ List.filter (local_where task) rows) as Hj by (rewrite E; by left).
  apply elem_of_filter_bool in Hj as [Hj Hwj].
  assert (j = i) as ->.
  { assert (∀ x, local_where task x = true → i_id x = task) as Hid.
    { intros x. unfold local_where. rewrite !andb_true_iff.
      by intros [[?%bool_decide_eq_true _] _]. }
    apply list_elem_of_lookup in Hi as [a Hi], Hj as [b Hj].
    assert (a = b) as ->; [|congruence]. eapply NoDup_lookup; [exact Hnd|..];
      rewrite list_lookup_fmap, ?Hi, ?Hj; cbn; by rewrite Hid. }
  cbn. by rewrite Ha, Hk.
Qed.

Lemma ends_require_acquirable db task :
  NoDup (i_id <$> rows_of db) → acquirable db task →
  ends 0 (require_acquirable task) db (λ db' r, db' = db ∧ r = Ok tt).
Proof.
  intros Hnd Hacq. destruct (acquirable_judged db task Hnd Hacq) as (rows & Hrows & Hj).
  unfold require_acquirable, items_present. apply ends_sql.
  cbn [query fst snd bind bind_ok]. rewrite Hrows, bool_decide_eq_true_2 by (by eexists).
  apply ends_sql. cbn [item_state_stmt query fst snd bind bind_ok]. by apply ends_ret.
Qed.

Lemma insert_free req lid tok db :
  current db (rq_task_id req) = None → ¬ (lid ∈ (id <$> leases db)) →
  insert_lease (new_lease req lid tok now) db
  = (with_leases (leases db ++ [new_lease req lid tok now]) db, Ok tt).
Proof.
  intros Hc Hid. unfold insert_lease.
  rewrite (proj2 (existsb_false _ _)), (proj2 (existsb_false _ _)).
  - by rewrite andb_false_r.
  - by apply current_None.
  - intros x Hx. apply bool_decide_eq_false. intros E. apply Hid. cbn in E. rewrite <- E.
    by apply list_elem_of_fmap_2.
Qed.

Lemma current_of_new req lid tok db :
  current db (rq_task_id req) = None →
  current (with_leases (leases db ++ [new_lease req lid tok now]) db) (rq_task_id req)
  = Some (new_lease req lid tok now).
Proof.
  intros Hc. unfold current. cbn [leases with_leases]. rewrite List.filter_app.
  rewrite filter_false by (by apply current_None). cbn [app List.filter]. unfold active_for.
  cbn [task_id new_lease]. by rewrite bool_decide_eq_true_2.
Qed.

Lemma blob_exact n bs : is_blob n bs → is_blob_b n bs = true.
Proof.
  intros [Hl Hb]. unfold is_blob_b. rewrite andb_true_iff, Nat.eqb_eq, forallb_forall. split; [done|].
  intros b Hin%list_elem_of_In. rewrite Forall_forall in Hb. specialize (Hb b Hin). lia.
Qed.

Lemma ttl_accepted req :
  (∀ ttl, rq_ttl_seconds req = Some ttl → Time.validate_ttl ttl = true) → check_request_ttl req = ok tt.
Proof.
  intros H. unfold check_request_ttl, check_ttl. destruct (rq_ttl_seconds req) as [ttl|]; [|done].
  by rewrite (H ttl).
Qed.

(** The body of an acquire, run to its end. *)
Lemma exec_acquire req db id_bytes token_bytes n :
  exclusive db → NoDup (i_id <$> rows_of db) → acquirable db (rq_task_id req) →
  (∀ ttl, rq_ttl_seconds req = Some ttl → Time.validate_ttl ttl = true) → yields req db →
  is_blob 16 id_bytes → is_blob 32 token_bytes → ¬ (hex id_bytes ∈ (id <$> leases db)) →
  ∃ db' retired k,
    exec (acquire_in_transaction req) (still db (4 + n) [id_bytes; token_bytes])
    = Some (still db' k [], Ok (new_lease req (hex id_bytes) (hex token_bytes) now, retired))
    ∧ current db' (rq_task_id req) = Some (new_lease req (hex id_bytes) (hex token_bytes) now).
Proof.
  intros He Hnd Hacq Httl Hy Hb1 Hb2 Hfresh. unfold acquire_in_transaction.
  rewrite ttl_accepted by done.
  change (bind_ok (ok tt) ?f) with (f tt). cbv beta. unfold bind_ok at 1. rewrite exec_bind.
  destruct (ends_require_acquirable db _ Hnd Hacq (4 + n)%nat [id_bytes; token_bytes]) as (k1 & ? & ? & E1 & -> & ->).
  change (0 + (4 + n))%nat with (4 + n)%nat in E1. rewrite E1. unfold bind_ok at 1. rewrite exec_bind.
  destruct (ends_clear req db He Hy (k1 + (1 + n))%nat [id_bytes; token_bytes])
    as (k2 & db1 & [retired|] & E2 & [Hc Hids] & Hok); [|done].
  replace (k1 + (4 + n))%nat with (3 + (k1 + (1 + n)))%nat by lia. rewrite E2.
  replace (k2 + (k1 + (1 + n)))%nat with (S (k2 + k1 + n)) by lia.
  cbn [bind_ok now_epoch new_id new_token bind exec still w_clock w_blobs w_db repeat].
  rewrite (blob_exact 16) by done. cbn [exec w_clock w_blobs w_db]. rewrite (blob_exact 32) by done.
  cbn [exec w_clock w_blobs w_db insert_or_held].
  rewrite insert_free by (by rewrite ?Hids). cbn [exec ok].
  exists (with_leases (leases db1 ++ [new_lease req (hex id_bytes) (hex token_bytes) now]) db1), retired,
    (k2 + k1 + n)%nat. split; [done|]. by apply current_of_new.
Qed.

End Instant.

(** C37. No task stays locked by a holder that is gone: whenever the task may be leased and
    its current lease, if it has one, is past its expiry (or the request is forced), an
    acquire run to its end is granted under a fresh id and is then the task's current
    lease. The expiry may even be unreadable when the request is forced. *)
Theorem abandoned_lease_is_reclaimed now req db id_bytes token_bytes n :
  exclusive db → NoDup (i_id <$> rows_of db) → acquirable db (rq_task_id req) →
  (∀ ttl, rq_ttl_seconds req = Some ttl → Time.validate_ttl ttl = true) → yields now req db →
  is_blob 16 id_bytes → is_blob 32 token_bytes → ¬ (hex id_bytes ∈ (id <$> leases db)) →
  ∃ db' retired k,
    exec (acquire_outcome req) (still now db (4 + n) [id_bytes; token_bytes])
    = Some (still now db' k [], Ok (new_lease req (hex id_bytes) (hex token_bytes) now, retired))
    ∧ current db' (rq_task_id req) = Some (new_lease req (hex id_bytes) (hex token_bytes) now).
Proof.
  intros He Hnd Hacq Httl Hy Hb1 Hb2 Hfresh.
  destruct (exec_acquire now req db id_bytes token_bytes n) as (db' & retired & k & E & Hc); [done..|].
  exists db', retired, k. split; [|done]. unfold acquire_outcome.
  rewrite ttl_accepted by done.
  change (bind_ok (ok tt) ?f) with (f tt). cbv beta. unfold write_transaction. cbn [exec]. by rewrite E.
Qed.

(** ann's lease lapses at 1060; bob asks at 1061. *)
Lemma abandoned_lease_is_reclaimed_witness :
  ∃ db' retired k,
    exec (acquire_outcome (request "bob" false)) (still 1061 leased (4 + 0) [repeat 8 16; repeat 8 32])
    = Some (still 1061 db' k [],
        Ok (new_lease (request "bob" false) (hex (repeat 8 16)) (hex (repeat 8 32)) 1061, retired))
    ∧ current db' (lit "t1")
      = Some (new_lease (request "bob" false) (hex (repeat 8 16)) (hex (repeat 8 32)) 1061).
Proof.
  apply (abandoned_lease_is_reclaimed 1061 (request "bob" false) leased (repeat 8 16) (repeat 8 32) 0).
  - apply leased_exclusive.
  - vm_compute. apply NoDup_singleton.
  - exists board_item. split_and!; [vm_compute; by left|reflexivity|reflexivity|reflexivity].
  - intros ttl [= <-]. reflexivity.
  - intros l Hl. change (rq_task_id (request "bob" false)) with (lit "t1") in Hl.
    rewrite leased_current in Hl. injection Hl as <-. right. exists (iso 1060), 1060.
    split_and!; [reflexivity|vm_compute; reflexivity|reflexivity].
  - split; [reflexivity|]. by repeat constructor.
  - split; [reflexivity|]. by repeat constructor.
  - rewrite leased_row. by intros [[=]|[]%not_elem_of_nil]%elem_of_cons.
Defined.

End LeaseLive.
