(* ===== verification/RecordProps.v ===== *)
(** * What the store's records guarantee *)

From S2P Require Import Prelude RustStr RustStrFacts Json Tables Effects Store Leases Ready LeaseHistory LeaseSpec Records RecordSpec StoreCalls LeaseProps.
Import Tables Effects Store Tasks Leases LeaseHistory LeaseSpec Records RecordLog RecordSpec StoreCalls LeaseProps.

#[local] Open Scope Z_scope.

Module RecordProps.

(** ** A replacement and its history *)

(** C36. One replacement is one run. It goes through only for a named task with at most 500
    gaps, each with an id and a JSON array as evidence, and then the task's gaps are
    exactly the set given (one row per id, the last given, in first-seen order), every
    other task keeps its own, and the history and the run counter are those of the log
    with this run added. Anything else, a failed statement included, changes nothing. *)
Theorem replacement_is_one_run reading task gs db db' r logs :
  tracks db logs → runs reading (gaps_replace task gs) db db' r →
  match r with
  | Ok _ => ∃ rows,
      replace_checks task gs = Ok rows ∧ normalised task gs rows
      ∧ gaps db' = others task (gaps db) ++ map store_gap rows
      ∧ tracks db' (with_log task (logs task ++ [map sighting rows]) logs)
      ∧ gaps_only db db'
  | Err e => db' = db ∧ replace_refusal task gs db e
  end.
Proof.
  intros Ht. revert db' r. apply wp_runs. eapply wp_mono; [apply wp_gaps_replace|].
  intros db' [[]|e]; [|done]. intros (rows & [? ? _ ? Hl ?]). exists rows. by split_and!; try apply Hl.
Qed.

(** In every interleaving of the store's calls the history stays the record of what the
    runs reported: if it was the record of some logs, it is the record of logs those grew
    into, by new runs and by sightings in the last. Evidence and reviews are only ever
    appended to. *)
Theorem history_survives_interleaving reading unixepoch db db' logs :
  exclusive db → tracks db logs → reaches reading unixepoch db db' →
  (∃ logs', tracks db' logs' ∧ ∀ t, grows (logs t) (logs' t))
  ∧ evidence db `prefix_of` evidence db' ∧ reviews db `prefix_of` reviews db'.
Proof.
  intros He Ht Hr. apply reaches_moves in Hr. destruct (Hr He) as (_ & _ & _ & Hl & ? & ?).
  split_and!; [by apply Hl|done|done].
Qed.

(** A verification is recorded whole or not at all: the run's row and its task's gaps
    commit together, a run of another task is refused, and any refusal or failure leaves
    the store as it was. *)
Theorem commit_is_all_or_nothing reading run task gs db db' r :
  runs reading (verification_commit run task gs) db db' r →
  match r with
  | Ok _ =>
      (∀ v, run = Some v → vr_task_id v = task ∧ find_row vr_id (vr_id v) (verification_runs db') = Some v)
      ∧ ∃ rows, replace_checks task gs = Ok rows
                ∧ gaps db' = others task (gaps db) ++ map store_gap rows
  | Err e => db' = db ∧ commit_refusal run task gs db e
  end.
Proof.
  revert db' r. apply wp_runs. eapply wp_mono; [apply wp_verification_commit|].
  intros db' [[]|e]; [|done]. intros [Hr (rows & [Hc _ _ Hg _ He])]. split.
  - intros v ->. split; [by apply Hr|].
    rewrite (f_equal verification_runs He : verification_runs db' = _). cbn.
    rewrite find_upsert by done. by destruct (find_row _ _ _).
  - exists rows. split; [done|]. by destruct run.
Qed.

(** ** The host's way to replace *)

(** [gaps-clear], then one [gap-upsert] per gap: what the Go client sends. *)
Definition host_replace (task : str) (gs : list GapRow) : M unit :=
  let* _cleared := gaps_replace task [] in for_each gap_upsert gs.

Lemma set_task_same task (g : GapRow) : g_task_id g = Some task → set_task (Some task) g = g.
Proof. destruct g. cbn. by intros ->. Qed.

(** Upserts over rows that hold none of the ids build the normalised set after them. *)
Lemma upserts_place task gs out base :
  Forall (λ g, g_task_id g = Some task) gs →
  (∀ g, g ∈ out ∨ g ∈ gs → ¬ g_id g ∈ map g_id base) →
  fold_left (λ rows g, upsert g_id (g_id g) (store_gap g) (λ _, store_gap g) rows) gs
    (base ++ map store_gap out)
  = base ++ map store_gap (fold_left (λ out g, place (set_task (Some task) g) out) gs out).
Proof.
  revert out. induction gs as [|g gs IH]; intros out Ht Hf; [done|]. cbn [fold_left].
  apply Forall_cons in Ht as [Hg Ht]. rewrite (set_task_same task g Hg).
  assert (upsert g_id (g_id g) (store_gap g) (λ _, store_gap g) (base ++ map store_gap out)
          = base ++ map store_gap (place g out)) as ->.
  { unfold place, upsert. rewrite !existsb_under, map_app, map_map.
    assert (¬ g_id g ∈ map g_id base) as Hb by (apply Hf; right; by left).
    change (map (λ x : GapRow, g_id (store_gap x)) out) with (map g_id out).
    destruct (decide (g_id g ∈ map g_id out)) as [Hin|Hin].
    - rewrite !bool_decide_eq_true_2 by (try rewrite elem_of_app; auto).
      rewrite map_app, !map_map. f_equal.
      + rewrite <- (map_id base) at 2. apply map_ext_in. intros r Hr%list_elem_of_In.
        rewrite (proj2 (under_false _ _ _)); [done|]. intros E. apply Hb. rewrite <- E.
        apply elem_of_map. by exists r.
      + apply map_ext. intros r. unfold under. change (g_id (store_gap r)) with (g_id r).
        by case_bool_decide.
    - rewrite !bool_decide_eq_false_2 by (try rewrite elem_of_app; naive_solver).
      by rewrite map_app, app_assoc. }
  apply IH; [done|]. intros g' [Hg'|Hg']; [|apply Hf; right; by right].
  assert (g_id g' ∈ map g_id (place g out)) as Hin by (apply elem_of_map; by exists g').
  rewrite place_ids in Hin. case_bool_decide.
  - apply elem_of_map in Hin as (x & -> & Hx). apply Hf. by left.
  - apply elem_of_app in Hin as [(x & -> & Hx)%elem_of_map| ->%list_elem_of_singleton];
      apply Hf; [by left|right; by left].
Qed.

Lemma sighted_task_own task (g : GapRow) :
  trim task = task → blank task = false → g_task_id g = Some task → sighted_task g = Some task.
Proof. intros Ht Hb Hg. unfold sighted_task. by rewrite Hg, Hb, Ht. Qed.

(** What the host's sequence leaves when it goes through. *)
Lemma wp_host_replace reading task gs db logs :
  trim task = task → tracks db logs → Forall (λ g, g_task_id g = Some task) gs →
  wp reading (host_replace task gs) db (λ db' r,
    match r with
    | Ok _ =>
        gaps db' = fold_left (λ rows g, upsert g_id (g_id g) (store_gap g) (λ _, store_gap g) rows) gs
                     (others task (gaps db))
        ∧ tracks db' (with_log task (logs task ++ [map sighting gs]) logs)
    | Err _ => True
    end).
Proof.
  intros Htrim Ht Hgs. unfold host_replace. rewrite wp_let.
  eapply wp_mono; [apply wp_gaps_replace|]. intros db1 [[]|e] Hr; [|done].
  destruct Hr as (rows & [Hc _ _ Hg Hl _]).
  assert (blank task = false ∧ rows = []) as [Hb ->].
  { revert Hc. unfold replace_checks, refuse. destruct (blank task); [done|]. cbn. by intros [= <-]. }
  eapply wp_mono; [apply (wp_for_each reading gap_upsert (λ read db',
      gaps db' = fold_left (λ rows g, upsert g_id (g_id g) (store_gap g) (λ _, store_gap g) rows) read
                   (others task (gaps db))
      ∧ tracks db' (with_log task (logs task ++ [map sighting read]) logs)) (λ _ _, True))|
    by intros db' [[]|e]].
  - intros read g rest db' Hs [Hgaps Hlogs]. eapply wp_mono; [apply wp_gap_upsert|].
    intros db'' [[]|e]; [|done]. intros [Hu Hul _]. rewrite fold_left_app, Hu, Hgaps. split; [done|].
    assert (g_task_id g = Some task) as Hgt
      by (rewrite Forall_forall in Hgs; apply Hgs; rewrite Hs; apply elem_of_app; right; by left).
    specialize (Hul _ Hlogs). unfold upsert_logs in Hul.
    rewrite (sighted_task_own task) in Hul by done. rewrite with_log_eq, sighted_snoc in Hul.
    eapply tracks_ext; [|exact Hul]. intros t. by rewrite with_log_twice, map_app.
  - cbn. split; [by rewrite Hg, app_nil_r|]. by apply Hl.
Qed.

Lemma last_sighting gap gs :
  type_in gap (map sighting gs) = g_gap_type <$> last (List.filter (under g_id gap) gs).
Proof.
  unfold type_in. induction gs as [|g gs IH]; [done|]. cbn [map List.filter]. unfold under at 1.
  change (sighting g).1 with (g_id g). case_bool_decide; [|done]. rewrite !last_cons.
  revert IH. generalize (last (List.filter (under g_id gap) gs)) as b.
  match goal with |- context [last ?l] => generalize (last l) as a end.
  intros [x|] [y|] IH; cbn in IH |- *; [exact IH|done|done|done].
Qed.

Lemma keyed_last gap (rows : list GapRow) :
  keyed g_id rows → last (List.filter (under g_id gap) rows) = find_row g_id gap rows.
Proof.
  intros Hk. unfold find_row.
  assert (keyed g_id (List.filter (under g_id gap) rows)) as Hf by (by apply keyed_filter).
  destruct (List.filter (under g_id gap) rows) as [|a [|b l]] eqn:E; [done|done|]. exfalso.
  assert (∀ r, r ∈ a :: b :: l → g_id r = gap) as Hid.
  { intros r Hr. rewrite <- E in Hr. apply elem_of_filter_bool in Hr as [_ Hr]. by apply under_key in Hr. }
  unfold keyed in Hf. cbn [map] in Hf. apply NoDup_cons in Hf as [Hn _]. apply Hn.
  rewrite (Hid a), (Hid b) by (repeat constructor). by left.
Qed.

Lemma normalised_types task gs rows gap :
  normalised task gs rows → type_in gap (map sighting rows) = type_in gap (map sighting gs).
Proof.
  intros [Hk _ Hl _]. rewrite !last_sighting, keyed_last, Hl by done. by destruct (last _).
Qed.

(** Clearing a task and upserting its gaps one by one, as the host does, is replacing
    them at once: when both go through, the gaps, the run counters and the history come
    out the same. The task's id must not begin or end with space, since an upsert trims it
    and a replacement does not. *)
Theorem clear_then_upsert_is_replace reading task gs db db1 db2 logs :
  tracks db logs → trim task = task → Forall (λ g, g_task_id g = Some task) gs →
  runs reading (host_replace task gs) db db1 (Ok tt) →
  runs reading (gaps_replace task gs) db db2 (Ok tt) →
  gaps db1 = gaps db2
  ∧ ∀ t gap, max_run t db1 = max_run t db2
             ∧ find_row gh_key (t, gap) (gap_history db1) = find_row gh_key (t, gap) (gap_history db2).
Proof.
  intros Ht Htrim Hgs H1 H2.
  pose proof (proj1 (wp_runs _ _ _ _) (wp_host_replace reading task gs db logs Htrim Ht Hgs) _ _ H1)
    as [Hg1 Ht1].
  pose proof (proj1 (wp_runs _ _ _ _) (wp_gaps_replace reading task gs db) _ _ H2)
    as (rows & [Hc Hn Hf Hg2 Hl2 _]).
  specialize (Hl2 logs Ht). split.
  - assert (normalise_gaps task gs = Ok rows) as Hr.
    { revert Hc. unfold replace_checks. destruct (refuse _ _); [|done].
      destruct (normalise_gaps task gs); [|done]. destruct (check_each _ _); [|done]. by intros [= ->]. }
    apply normalise_gaps_loop, normalise_loop_fold in Hr.
    rewrite Hg1, Hg2, Hr. rewrite <- (app_nil_r (others task (gaps db))) at 1.
    apply (upserts_place task gs [] _ Hgs). intros g [Hg|Hg]; [by apply not_elem_of_nil in Hg|].
    assert (is_Some (find_row g_id (g_id g) rows)) as [g' Hg'].
    { rewrite (nm_last _ _ _ Hn). destruct (last _) eqn:El; [by eexists|]. apply last_None in El.
      assert (g ∈ List.filter (under g_id (g_id g)) gs) as Hin
        by (apply elem_of_filter_bool; split; [done|by apply under_true]).
      rewrite El in Hin. by apply not_elem_of_nil in Hin. }
    apply find_row_Some in Hg' as [Hin <-]. by apply Hf.
  - intros t gap. rewrite (tr_runs _ _ Ht1), (tr_runs _ _ Hl2), (tr_history _ _ Ht1), (tr_history _ _ Hl2).
    unfold with_log. destruct (decide (t = task)); [|done]. split; [by rewrite !len_snoc|].
    apply history_of_run_ext. symmetry. by apply (normalised_types task).
Qed.

(** ** Capped lists *)

Lemma by_resurfaces_total a b : by_resurfaces a b = true ∨ by_resurfaces b a = true.
Proof.
  unfold by_resurfaces. destruct (Z.ltb_spec (gh_resurfaces b) (gh_resurfaces a)); [by left|].
  destruct (Z.ltb_spec (gh_resurfaces a) (gh_resurfaces b)); [by right|].
  destruct (decide (gh_task_id a = gh_task_id b)) as [E|E].
  - rewrite !bool_decide_eq_true_2 by done. apply str_leb_total.
  - rewrite !bool_decide_eq_false_2 by congruence. apply str_leb_total.
Qed.

Lemma by_resurfaces_le a b : by_resurfaces a b = true → gh_resurfaces b ≤ gh_resurfaces a.
Proof.
  unfold by_resurfaces. destruct (Z.ltb_spec (gh_resurfaces b) (gh_resurfaces a)); [lia|].
  destruct (Z.ltb_spec (gh_resurfaces a) (gh_resurfaces b)); [done|lia].
Qed.

Lemma sorted_cut (l : list GapHistoryRow) n r o :
  StronglySorted (λ a b, gh_resurfaces b ≤ gh_resurfaces a) l →
  r ∈ take n l → o ∈ drop n l → gh_resurfaces o ≤ gh_resurfaces r.
Proof.
  revert n. induction l as [|x l IH]; intros n Hs Hr Ho; [by rewrite take_nil in Hr; apply not_elem_of_nil in Hr|].
  destruct n as [|n]; [by apply not_elem_of_nil in Hr|]. cbn in Hr, Ho.
  inversion Hs as [|? ? Hs' Hx]; subst. apply elem_of_cons in Hr as [->|Hr]; [|by apply (IH n)].
  rewrite Forall_forall in Hx. apply Hx. by apply (subseteq_drop n l).
Qed.

Lemma take_cut {A} n (all : list A) :
  take n (take (n + 1) (take (n + 1) all)) = take n all
  ∧ (n <? length (take (n + 1) (take (n + 1) all)))%nat = bool_decide (drop n all ≠ []).
Proof.
  rewrite !take_take. split; [f_equal; lia|]. rewrite length_take. apply eq_true_iff_eq.
  rewrite Nat.ltb_lt, bool_decide_eq_true, <- length_zero_iff_nil, length_drop. lia.
Qed.

Lemma capped_rows {A} (all : list A) :
  capped (take (MAX_LIST_ROWS + 1) all)
  = (take MAX_LIST_ROWS all, bool_decide (drop MAX_LIST_ROWS all ≠ [])).
Proof. unfold capped. cbv zeta. by destruct (take_cut MAX_LIST_ROWS all) as [-> ->]. Qed.

(** A history listing never drops a row that resurfaced more often than one it keeps:
    the rows of the task (or of all tasks) are the listed ones and some omitted ones, none
    of which resurfaced more; at most 10,000 are listed, and the answer says it was cut
    exactly when rows were omitted. *)
Theorem history_list_keeps_resurfaced reading task db db' rows truncated :
  runs reading (gap_history_list task) db db' (Ok (rows, truncated)) →
  db' = db ∧ ∃ omitted,
    rows ++ omitted ≡ₚ of_task (λ h, Some (gh_task_id h)) task (gap_history db)
    ∧ (∀ r o, r ∈ rows → o ∈ omitted → gh_resurfaces o ≤ gh_resurfaces r)
    ∧ (length rows ≤ MAX_LIST_ROWS)%nat ∧ (truncated = true ↔ omitted ≠ []).
Proof.
  intros Hr. eapply (proj1 (wp_runs reading _ db (λ db' r, match r with
    | Ok (rows, truncated) => _ | Err _ => True end)) _ _ (Ok (rows, truncated)) Hr).
  Unshelve. unfold gap_history_list. rewrite wp_let, wp_query. split; [|done].
  cbn [Effects.wp ok]. rewrite capped_rows. cbn [fst snd].
  set (all := sort_by by_resurfaces _). split; [done|]. exists (drop MAX_LIST_ROWS all).
  assert (StronglySorted (λ a b, gh_resurfaces b ≤ gh_resurfaces a) all) as Hs.
  { apply Sorted_StronglySorted; [intros a b c; lia|].
    assert (∀ l, Sorted (λ a b, by_resurfaces a b = true) l →
      Sorted (λ a b, gh_resurfaces b ≤ gh_resurfaces a) l) as Hm.
    { induction 1 as [|x l _ IH Hh]; constructor; [done|].
      destruct Hh; constructor; by apply by_resurfaces_le. }
    apply Hm, sort_by_sorted, by_resurfaces_total. }
  split_and!.
  - rewrite take_drop. apply sort_by_perm.
  - intros r o. by apply sorted_cut.
  - rewrite length_take. lia.
  - by rewrite bool_decide_eq_true.
Qed.

(** ** Reviews *)

Lemma next_id_above sequence ids : sequence < next_id sequence ids ∧ ∀ i, i ∈ ids → i < next_id sequence ids.
Proof.
  unfold next_id. induction ids as [|x ids [IH1 IH2]]; cbn [foldr].
  - split; [lia|]. by intros i ?%not_elem_of_nil.
  - split; [lia|]. intros i [->|Hi%IH2]%elem_of_cons; lia.
Qed.

(** A review is one new last row under an id above every id given before, for a live
    task of this repository, with bounded keys free of control characters, a subject hash
    of the host's alphabet and a record that is a JSON object; anything else is refused
    and changes nothing. *)
Theorem review_is_appended reading task criterion hash record at_ db db' r :
  runs reading (review_append task criterion hash record at_) db db' r →
  match r with
  | Ok n =>
      check_review task criterion hash record = Ok tt
      ∧ (∃ i, i ∈ rows_of db ∧ local_where task i = true)
      ∧ reviews_sequence db < n ≤ i64_max ∧ (∀ v, v ∈ reviews db → rv_id v < n)
      ∧ reviews db' = reviews db ++
          [{| rv_id := n; rv_task_id := task; rv_acceptance_criterion_id := criterion;
              rv_subject_hash := hash; rv_record_json := record; rv_recorded_at := at_ |}]
  | Err _ => db' = db
  end.
Proof.
  revert db' r. apply wp_runs. unfold review_append. rewrite wp_let. cbn [Effects.wp].
  destruct (check_review _ _ _ _) as [[]|e]; [|done]. rewrite wp_let. unfold is_local_item, items_present.
  rewrite wp_let, wp_query. split; [|done]. case_if; [done|]. rewrite wp_query. split; [|done].
  destruct (existsb _ _) eqn:E; [|done]. apply existsb_true in E as (i & Hi & Hw). cbn [negb].
  rewrite wp_sql. split; [|done]. unfold insert_review.
  pose proof (next_id_above (reviews_sequence db) (map rv_id (reviews db))) as [H1 H2].
  destruct (Z.ltb_spec i64_max (next_id (reviews_sequence db) (map rv_id (reviews db)))); cbn [fst snd]; [done|].
  split_and!; [done|by exists i|lia|lia| |done].
  intros v Hv. apply H2, elem_of_map. by exists v.
Qed.

(** ** A task with two gaps *)

Definition gap (id kind task : string) : GapRow :=
  {| g_id := lit id; g_severity := lit "high"; g_gap_type := lit kind; g_requirement_id := None;
     g_task_id := Some (lit task); g_description := lit "missing"; g_evidence_json := lit "[]";
     g_recommended_fix := []; g_blocking := true; g_file := None; g_line := None;
     g_suggested_command := None; g_acceptance_criterion_id := None;
     g_expected_verification_method := None; g_stdout_path := None; g_stderr_path := None |}.

Definition two_gaps (task : string) : list GapRow := [gap "g1" "test" task; gap "g2" "diff" task].

Definition a_run : VerificationRun :=
  {| vr_id := lit "r1"; vr_task_id := lit "t1"; vr_sandbox := lit "local";
     vr_environment_json := lit "{}"; vr_commands_json := lit "[]";
     vr_status := lit "done"; vr_started_at := lit "s"; vr_finished_at := None |}.

Definition replaced_board : Db := db_after (gaps_replace (lit "t1") (two_gaps "t1")) (at_1000 board 7).

Lemma board_tracks : tracks board (λ _, []).
Proof. constructor; [constructor|constructor|done|done]. Qed.

Lemma replaced_board_runs :
  runs (eq 1000) (gaps_replace (lit "t1") (two_gaps "t1")) board replaced_board (Ok tt).
Proof. apply (outcome_runs _ board 7). vm_compute. reflexivity. Qed.

(** One replacement, run alone. *)
Lemma reaches_replace reading unixepoch task gs db db' :
  runs reading (gaps_replace_in task gs) db db' (Ok tt) → reaches reading unixepoch db db'.
Proof.
  intros H. set (c := call unixepoch (CGapsReplace task gs)). exists [Ret tt].
  eapply rtc_l; [apply (pool_call _ _ c); by eexists|]. apply rtc_once.
  apply (pool_run _ _ 0 c (Ret tt) [c] _ db'); [reflexivity|]. left.
  exists db', (Ok tt). by split_and!.
Qed.

Lemma board_reaches_replaced unixepoch : reaches (eq 1000) unixepoch board replaced_board.
Proof.
  apply (reaches_replace _ _ (lit "t1") (two_gaps "t1")).
  apply (outcome_runs _ board 7). vm_compute. reflexivity.
Qed.

Lemma replacement_is_one_run_witness :
  ∃ rows, replace_checks (lit "t1") (two_gaps "t1") = Ok rows
    ∧ normalised (lit "t1") (two_gaps "t1") rows
    ∧ gaps replaced_board = others (lit "t1") (gaps board) ++ map store_gap rows
    ∧ tracks replaced_board (with_log (lit "t1") [map sighting rows] (λ _, []))
    ∧ gaps_only board replaced_board.
Proof.
  apply (replacement_is_one_run (eq 1000) (lit "t1") (two_gaps "t1") board replaced_board (Ok tt) (λ _, []));
    [apply board_tracks|apply replaced_board_runs].
Defined.

Lemma history_survives_interleaving_witness :
  (∃ logs', tracks replaced_board logs' ∧ ∀ t, grows [] (logs' t))
  ∧ evidence board `prefix_of` evidence replaced_board ∧ reviews board `prefix_of` reviews replaced_board.
Proof.
  apply (history_survives_interleaving (eq 1000) (λ _, None) board replaced_board (λ _, []));
    [apply board_exclusive|apply board_tracks|apply board_reaches_replaced].
Defined.

Lemma commit_is_all_or_nothing_witness :
  (∀ v, Some a_run = Some v → vr_task_id v = lit "t1"
     ∧ find_row vr_id (vr_id v)
         (verification_runs (with_run (Some a_run) replaced_board)) = Some v)
  ∧ ∃ rows, replace_checks (lit "t1") (two_gaps "t1") = Ok rows
            ∧ gaps (with_run (Some a_run) replaced_board) = others (lit "t1") (gaps board) ++ map store_gap rows.
Proof.
  apply (commit_is_all_or_nothing (eq 1000) (Some a_run) (lit "t1") (two_gaps "t1") board
    (with_run (Some a_run) replaced_board) (Ok tt)).
  apply (outcome_runs _ board 7). vm_compute. reflexivity.
Defined.

Lemma clear_then_upsert_is_replace_witness :
  let host := db_after (host_replace (lit "t1") (two_gaps "t1")) (at_1000 board 7) in
  gaps host = gaps replaced_board
  ∧ ∀ t gap, max_run t host = max_run t replaced_board
             ∧ find_row gh_key (t, gap) (gap_history host) = find_row gh_key (t, gap) (gap_history replaced_board).
Proof.
  apply (clear_then_upsert_is_replace (eq 1000) (lit "t1") (two_gaps "t1") board
    (db_after (host_replace (lit "t1") (two_gaps "t1")) (at_1000 board 7)) replaced_board (λ _, []));
    [apply board_tracks|reflexivity|by repeat constructor| |apply replaced_board_runs].
  apply (outcome_runs _ board 7). vm_compute. reflexivity.
Defined.

Lemma history_list_keeps_resurfaced_witness :
  replaced_board = replaced_board ∧ ∃ omitted : list GapHistoryRow,
    gap_history replaced_board ++ omitted ≡ₚ gap_history replaced_board
    ∧ (∀ r o, r ∈ gap_history replaced_board → o ∈ omitted → gh_resurfaces o ≤ gh_resurfaces r)
    ∧ (length (gap_history replaced_board) ≤ MAX_LIST_ROWS)%nat ∧ (false = true ↔ omitted ≠ []).
Proof.
  apply (history_list_keeps_resurfaced (eq 1000) None replaced_board replaced_board
    (gap_history replaced_board) false).
  apply (outcome_runs _ replaced_board 7). vm_compute. reflexivity.
Defined.

Lemma review_is_appended_witness :
  check_review (lit "t1") (lit "c1") (lit "sha256:0a") (lit "{}") = Ok tt
  ∧ (∃ i, i ∈ rows_of board ∧ local_where (lit "t1") i = true)
  ∧ 0 < 1 ≤ i64_max ∧ (∀ v, v ∈ reviews board → rv_id v < 1)
  ∧ reviews (db_after (review_append (lit "t1") (lit "c1") (lit "sha256:0a") (lit "{}") (iso 1000))
               (at_1000 board 7))
    = [{| rv_id := 1; rv_task_id := lit "t1"; rv_acceptance_criterion_id := lit "c1";
          rv_subject_hash := lit "sha256:0a"; rv_record_json := lit "{}"; rv_recorded_at := iso 1000 |}].
Proof.
  apply (review_is_appended (eq 1000) (lit "t1") (lit "c1") (lit "sha256:0a") (lit "{}") (iso 1000) board
    (db_after (review_append (lit "t1") (lit "c1") (lit "sha256:0a") (lit "{}") (iso 1000))
       (at_1000 board 7)) (Ok 1)).
  apply (outcome_runs _ board 7). vm_compute. reflexivity.
Defined.

(** A task id that ends in a space: a replacement files its history under the id as it is
    and each upsert under the trimmed id, so the host's sequence leaves two runs. *)
Lemma padded_task_splits_history :
  let gs := two_gaps "t1 " in
  let at_once := db_after (gaps_replace (lit "t1 ") gs) (at_1000 board 7) in
  let host := db_after (host_replace (lit "t1 ") gs) (at_1000 board 7) in
  map gh_task_id (gap_history at_once) = [lit "t1 "; lit "t1 "]
  ∧ map gh_task_id (gap_history host) = [lit "t1"; lit "t1"]
  ∧ gaps host = gaps at_once.
Proof. vm_compute. split_and!; reflexivity. Qed.

End RecordProps.
