(* ===== verification/Wire.v ===== *)
(** * The framing of a verification: [rust/dc-store/src/commit_wire.rs]

    A reader is a function of the bytes left; [?] is its bind. Text is bytes here, as in
    the source: a field's declared length may end inside a character. *)

From S2P Require Import Prelude RustStr Store Records.
Import Store Records.

#[local] Open Scope Z_scope.

Module Wire.

Definition WIRE_TAG : str := lit "DCVC1".
Definition MAX_FIELD_BYTES : Z := Z.shiftl 4 20.

Inductive WireError : Type :=
  | NoLengthPrefix
  | LengthNotText
  | LengthNotNumber (digits : str)
  | LengthOverflows
  | FieldTooLong (len : Z)
  | FieldTruncated (len remain : Z)
  | NotUtf8
  | UnknownVersion (tag : str)
  | BadRunMarker (other : str)
  | CountNotNumber
  | TooManyWireGaps (count : Z)
  | BadBlocking (other : str)
  | LineNotNumber (raw : str)
  | TrailingBytes (count : Z).

(** ** Readers *)

Definition Reader (A : Type) : Type := list Z → result (A * list Z) WireError.

Definition give {A} (a : A) : Reader A := λ rest, Ok (a, rest).
Definition stop {A} (e : WireError) : Reader A := λ _, Err e.
Definition and_then {A B} (m : Reader A) (f : A → Reader B) : Reader B :=
  λ rest, let? (a, rest') := m rest in f a rest'.

#[local] Notation "'let&' x ':=' m 'in' k" := (and_then m (λ x, k))
  (at level 10, x name, m at level 100, k at level 200).

(** [bytes.take(n).position(|b| b == c)]. *)
Fixpoint position_within (n : nat) (c : Z) (bs : list Z) : option nat :=
  match n, bs with
  | S n', b :: bs' => if b =? c then Some O else S <$> position_within n' c bs'
  | _, _ => None
  end.

Definition field : Reader str :=
  λ rest,
    match position_within 9 (chr ":") rest with
    | None => Err NoLengthPrefix
    | Some colon =>
        let? digits := ok_or (from_utf8 (take colon rest)) LengthNotText in
        if bool_decide (digits = []) || negb (forallb is_ascii_digit (utf8_encode digits))
        then Err (LengthNotNumber digits)
        else
          let? len := ok_or (parse_u64 digits) LengthOverflows in
          if MAX_FIELD_BYTES <? len then Err (FieldTooLong len)
          else
            let body := drop (colon + 1) rest in
            if Z.of_nat (length body) <? len
            then Err (FieldTruncated len (Z.of_nat (length body)))
            else
              let? text := ok_or (from_utf8 (take (Z.to_nat len) body)) NotUtf8 in
              Ok (text, drop (Z.to_nat len) body)
    end.

Definition opt : Reader (option str) :=
  λ rest,
    match rest with
    | b :: rest' => if b =? chr "-" then Ok (None, rest') else and_then field (λ s, give (Some s)) rest
    | [] => and_then field (λ s, give (Some s)) rest
    end.

(** ** The verification *)

Definition read_run : Reader (option VerificationRun) :=
  let& marker := field in
  if bool_decide (marker = lit "N") then give None
  else if bool_decide (marker = lit "R") then
    let& id := field in
    let& task_id := field in
    let& sandbox := field in
    let& environment_json := field in
    let& commands_json := field in
    let& status := field in
    let& started_at := field in
    let& finished_at := opt in
    give (Some {| vr_id := id; vr_task_id := task_id; vr_sandbox := sandbox;
                  vr_environment_json := environment_json; vr_commands_json := commands_json;
                  vr_status := status; vr_started_at := started_at; vr_finished_at := finished_at |})
  else stop (BadRunMarker marker).

Definition read_blocking : Reader bool :=
  let& raw := field in
  if bool_decide (raw = lit "1") then give true
  else if bool_decide (raw = lit "0") then give false
  else stop (BadBlocking raw).

Definition read_line : Reader (option Z) :=
  let& raw := opt in
  match raw with
  | Some text => match parse_i64 text with Some n => give (Some n) | None => stop (LineNotNumber text) end
  | None => give None
  end.

Definition read_wire_gap : Reader GapRow :=
  let& id := field in
  let& severity := field in
  let& gap_type := field in
  let& description := field in
  let& evidence_json := field in
  let& recommended_fix := field in
  let& blocking := read_blocking in
  let& requirement_id := opt in
  let& file := opt in
  let& line := read_line in
  let& suggested_command := opt in
  let& acceptance_criterion_id := opt in
  let& expected_verification_method := opt in
  let& stdout_path := opt in
  let& stderr_path := opt in
  give {| g_id := id; g_severity := severity; g_gap_type := gap_type;
          g_requirement_id := requirement_id; g_task_id := None; g_description := description;
          g_evidence_json := evidence_json; g_recommended_fix := recommended_fix;
          g_blocking := blocking; g_file := file; g_line := line;
          g_suggested_command := suggested_command;
          g_acceptance_criterion_id := acceptance_criterion_id;
          g_expected_verification_method := expected_verification_method;
          g_stdout_path := stdout_path; g_stderr_path := stderr_path |}.

Fixpoint read_gaps (count : nat) : Reader (list GapRow) :=
  match count with
  | O => give []
  | S n =>
      let& g := read_wire_gap in
      let& gs := read_gaps n in
      give (g :: gs)
  end.

Definition read_count : Reader Z :=
  let& raw := field in
  match parse_u64 raw with
  | None => stop CountNotNumber
  | Some count =>
      if Z.of_nat MAX_GAPS_PER_REPLACE <? count then stop (TooManyWireGaps count) else give count
  end.

Definition read_verification : Reader (option VerificationRun * list GapRow) :=
  let& tag := field in
  if negb (bool_decide (tag = WIRE_TAG)) then stop (UnknownVersion tag)
  else
    let& run := read_run in
    let& count := read_count in
    let& gaps := read_gaps (Z.to_nat count) in
    give (run, gaps).

Definition decode (text : str) : result (option VerificationRun * list GapRow) WireError :=
  let? (v, rest) := read_verification (utf8_encode text) in
  if negb (bool_decide (rest = [])) then Err (TrailingBytes (Z.of_nat (length rest))) else Ok v.

(** [dcstore gaps-replace]: a verification decoded and committed. *)
Definition gaps_replace_command (task wire : str) : result (M unit) WireError :=
  let? (run, gaps) := decode wire in Ok (verification_commit run task gaps).

End Wire.
