(* ===== verification/WireProps.v ===== *)
(** * What a framed verification means

    The grammar of the module's documentation, as relations between a value and its
    bytes. [decode] accepts exactly the framings, so what a host writes is what the store
    reads, and nothing can be hidden in, cut off or added to a framing. *)

From S2P Require Import Prelude RustStr RustStrFacts Json Tables Effects Store Leases Ready LeaseHistory LeaseSpec Records RecordSpec StoreCalls LeaseProps RecordProps Wire.
Import Tables Effects Store LeaseProps RecordProps Records RecordLog RecordSpec Wire.

#[local] Open Scope Z_scope.

Module WireProps.

(** ** The grammar *)

(** A field: at most eight digits giving the length of the text, [:], the text. *)
Definition field_text (s : str) (p : list Z) : Prop :=
  ∃ digits,
    digits ≠ [] ∧ all_chars is_ascii_digit digits = true ∧ (length digits ≤ 8)%nat
    ∧ digits_value 0 digits = Z.of_nat (length (utf8_encode s))
    ∧ Z.of_nat (length (utf8_encode s)) ≤ MAX_FIELD_BYTES
    ∧ all_chars is_scalar s = true
    ∧ p = digits ++ chr ":" :: utf8_encode s.

Definition opt_text (o : option str) (p : list Z) : Prop :=
  match o with Some s => field_text s p | None => p = [chr "-"] end.

Definition number_text (parse : str → option Z) (n : Z) (p : list Z) : Prop :=
  ∃ raw, parse raw = Some n ∧ field_text raw p.

Definition line_text (line : option Z) (p : list Z) : Prop :=
  match line with Some n => number_text parse_i64 n p | None => p = [chr "-"] end.

Definition blocking_text (b : bool) : list Z → Prop := field_text (lit (if b then "1" else "0")).

(** Pieces one after the other. *)
Inductive spells : list (list Z → Prop) → list Z → Prop :=
  | spells_nil : spells [] []
  | spells_cons (piece : list Z → Prop) pieces p q :
      piece p → spells pieces q → spells (piece :: pieces) (p ++ q).

Definition run_pieces (run : option VerificationRun) : list (list Z → Prop) :=
  match run with
  | None => [field_text (lit "N")]
  | Some r =>
      [field_text (lit "R"); field_text (vr_id r); field_text (vr_task_id r);
       field_text (vr_sandbox r); field_text (vr_environment_json r);
       field_text (vr_commands_json r); field_text (vr_status r); field_text (vr_started_at r);
       opt_text (vr_finished_at r)]
  end.

Definition gap_pieces (g : GapRow) : list (list Z → Prop) :=
  [field_text (g_id g); field_text (g_severity g); field_text (g_gap_type g);
   field_text (g_description g); field_text (g_evidence_json g); field_text (g_recommended_fix g);
   blocking_text (g_blocking g); opt_text (g_requirement_id g); opt_text (g_file g);
   line_text (g_line g); opt_text (g_suggested_command g); opt_text (g_acceptance_criterion_id g);
   opt_text (g_expected_verification_method g); opt_text (g_stdout_path g);
   opt_text (g_stderr_path g)].

Definition gap_text (g : GapRow) (p : list Z) : Prop := g_task_id g = None ∧ spells (gap_pieces g) p.

(** [wire := field("DCVC1") run gaps]. *)
Definition framing (v : option VerificationRun * list GapRow) (p : list Z) : Prop :=
  (length v.2 ≤ MAX_GAPS_PER_REPLACE)%nat
  ∧ spells ([field_text WIRE_TAG; spells (run_pieces v.1);
             number_text parse_u64 (Z.of_nat (length v.2))] ++ map gap_text v.2) p.

(** ** What readers read *)

(** [m] takes from the front exactly the texts [G] gives a value. *)
Definition reads {A} (m : Reader A) (G : A → list Z → Prop) : Prop :=
  ∀ bs a rest, m bs = Ok (a, rest) ↔ ∃ p, bs = p ++ rest ∧ G a p.

Lemma reads_ext {A} (m : Reader A) (G G' : A → list Z → Prop) :
  reads m G → (∀ a p, G a p ↔ G' a p) → reads m G'.
Proof. intros H HG bs a rest. etrans; [apply H|]. by setoid_rewrite HG. Qed.

Lemma reads_give {A} (a : A) : reads (give a) (λ b p, b = a ∧ p = []).
Proof.
  intros bs b rest. unfold give. split.
  - intros [= <- <-]. by exists [].
  - by intros (p & -> & -> & ->).
Qed.

Lemma reads_stop {A} (e : WireError) : reads (stop (A := A) e) (λ _ _, False).
Proof. intros bs b rest. split; [done|]. by intros (p & _ & []). Qed.

Lemma reads_bind {A B} (m : Reader A) (f : A → Reader B) (G : A → list Z → Prop)
    (H : A → B → list Z → Prop) :
  reads m G → (∀ a, reads (f a) (H a)) →
  reads (and_then m f) (λ b p, ∃ a p1 p2, p = p1 ++ p2 ∧ G a p1 ∧ H a b p2).
Proof.
  intros Hm Hf bs b rest. unfold and_then. split.
  - destruct (m bs) as [[a r]|] eqn:E; [|done]. intros Hb. apply Hm in E as (p1 & -> & HG).
    apply Hf in Hb as (p2 & -> & HH). exists (p1 ++ p2). rewrite <- app_assoc. split; [done|].
    by exists a, p1, p2.
  - intros (p & -> & a & p1 & p2 & -> & HG & HH).
    rewrite (proj2 (Hm _ a (p2 ++ rest))); [|exists p1; by rewrite <- app_assoc].
    apply Hf. by exists p2.
Qed.

(** ** Fields *)

Lemma position_within_Some n c bs k :
  position_within n c bs = Some k ↔
  ∃ a b, bs = a ++ c :: b ∧ length a = k ∧ (k < n)%nat ∧ ¬ c ∈ a.
Proof.
  revert bs k. induction n as [|n IH]; intros bs k; [split; [done|]; intros (a & b & _ & _ & ? & _); lia|].
  destruct bs as [|x bs]; [split; [done|]; by intros ([|? ?] & b & ? & _)|]. cbn [position_within].
  destruct (Z.eqb_spec x c) as [->|Hne].
  - split; [intros [= <-]; exists [], bs; split_and!; [done|done|lia|apply not_elem_of_nil]|].
    intros ([|y a] & b & E & <- & _ & Hc); [done|]. cbn in E. simplify_eq. exfalso. apply Hc. by left.
  - rewrite fmap_Some. setoid_rewrite IH. split.
    + intros (k' & (a & b & -> & <- & Hk & Hc) & ->). exists (x :: a), b. cbn. split_and!; [done|done|lia|].
      by intros [->|?]%elem_of_cons.
    + intros ([|y a] & b & E & <- & Hk & Hc); cbn in E; simplify_eq. exists (length a). split; [|done].
      exists a, b. cbn in Hk. split_and!; [done|done|lia|]. intros ?. apply Hc. by right.
Qed.

Lemma colon_not_digit digits :
  all_chars is_ascii_digit digits = true → ¬ chr ":" ∈ digits.
Proof.
  intros Hd Hin. by specialize (proj1 (forallb_true _ _) Hd _ Hin).
Qed.

(** Eight digits stay below [usize]. *)
Lemma digits_value_small digits :
  all_chars is_ascii_digit digits = true → (length digits ≤ 8)%nat →
  0 ≤ digits_value 0 digits ≤ 99999999.
Proof.
  intros Hd Hl. split; [by apply digits_value_mono|].
  assert (∀ s acc, all_chars is_ascii_digit s = true → 0 ≤ acc →
    digits_value acc s < (acc + 1) * 10 ^ Z.of_nat (length s)) as H.
  { clear. induction s as [|c s IH]; intros acc; cbn [length]; [unfold digits_value; cbn; lia|].
    intros [Hc Hs]%andb_prop Ha. apply is_ascii_digit_spec in Hc.
    change (digits_value acc (c :: s)) with (digits_value (acc * 10 + (c - 48)) s).
    specialize (IH (acc * 10 + (c - 48)) Hs ltac:(lia)).
    rewrite Nat2Z.inj_succ, Z.pow_succ_r by lia.
    assert (0 < 10 ^ Z.of_nat (length s)) by (apply Z.pow_pos_nonneg; lia). nia. }
  specialize (H digits 0 Hd ltac:(lia)).
  assert (10 ^ Z.of_nat (length digits) ≤ 10 ^ 8) by (apply Z.pow_le_mono_r; lia). lia.
Qed.

Lemma parse_u64_small digits :
  digits ≠ [] → all_chars is_ascii_digit digits = true → (length digits ≤ 8)%nat →
  parse_u64 digits = Some (digits_value 0 digits).
Proof.
  intros Hne Hd Hl. pose proof (digits_value_small digits Hd Hl).
  destruct digits as [|c s]; [done|]. unfold parse_u64, parse_unsigned.
  pose proof Hd as [Hc _]%andb_prop. apply is_ascii_digit_spec in Hc.
  rewrite (proj2 (Z.eqb_neq c 43)) by lia. apply parse_digits_value; [done|lia|]. unfold u64_max. lia.
Qed.

Lemma parse_u64_nonneg s n : parse_u64 s = Some n → 0 ≤ n.
Proof.
  assert (∀ max s acc n, 0 ≤ acc → parse_digits max acc s = Some n → 0 ≤ n) as H.
  { clear. intros max s. induction s as [|c s IH]; intros acc n Ha; cbn [parse_digits]; [by intros [= <-]|].
    destruct (is_ascii_digit c) eqn:Hc; [|done]. apply is_ascii_digit_spec in Hc.
    case_if; [|done]. apply IH. lia. }
  unfold parse_u64, parse_unsigned. destruct s as [|c r]; [done|]. case_if.
  - destruct r; [done|]. by apply H.
  - by apply H.
Qed.

Lemma digits_scalar digits : all_chars is_ascii_digit digits = true → all_chars is_scalar digits = true.
Proof.
  apply all_chars_impl. intros c Hc%is_ascii_digit_spec. unfold is_scalar.
  rewrite orb_true_iff, !in_range_spec. lia.
Qed.

Lemma ascii_utf8 digits :
  all_chars is_ascii_digit digits = true → from_utf8 digits = Some digits ∧ utf8_encode digits = digits.
Proof.
  intros Hd. assert (utf8_encode digits = digits) as E by (by apply utf8_encode_ascii, digits_ascii).
  split; [|done]. apply from_utf8_Some. split; [done|by apply digits_scalar].
Qed.

Lemma reads_field : reads field field_text.
Proof.
  intros bs s rest. split.
  - unfold field. destruct (position_within 9 _ bs) as [k|] eqn:Ek; [|done].
    apply position_within_Some in Ek as (digits & body & -> & <- & Hk & _).
    rewrite take_app_length. destruct (from_utf8 digits) as [ds|] eqn:Ed; [|done]. cbn [ok_or].
    apply from_utf8_Some in Ed as [<- _]. destruct (_ || _) eqn:Eb; [done|].
    apply orb_false_iff in Eb as [Hne%bool_decide_eq_false Hd%negb_false_iff].
    assert (ds = utf8_encode ds) as Hds.
    { symmetry. apply utf8_encode_ascii. clear -Hd. induction ds as [|c ds IH]; [done|].
      unfold utf8_encode in Hd. cbn [flat_map] in Hd. rewrite forallb_app in Hd.
      apply andb_true_iff in Hd as [H1 H2]. cbn. rewrite (IH H2), andb_true_r.
      revert H1. unfold utf8_encode_char. destruct (c <? 128) eqn:E; [done|]. intros H1. exfalso.
      destruct (c <? 2048) eqn:E2; [|destruct (c <? 65536) eqn:E3]; cbn in H1;
        rewrite !andb_true_iff in H1; decompose [and] H1; range_to_prop; bool_to_prop; lia. }
    rewrite <- Hds in *. rewrite parse_u64_small by (try done; lia). cbn [ok_or].
    destruct (Z.ltb_spec MAX_FIELD_BYTES (digits_value 0 ds)); [done|].
    assert (drop (length ds + 1) (ds ++ chr ":" :: body) = body) as ->.
    { rewrite drop_app_ge by lia. by replace (length ds + 1 - length ds)%nat with 1%nat by lia. }
    destruct (Z.ltb_spec (Z.of_nat (length body)) (digits_value 0 ds)); [done|].
    destruct (from_utf8 (take _ body)) as [text|] eqn:Et; [|done]. cbn. intros [= <- <-].
    apply from_utf8_Some in Et as [Et Hs].
    pose proof (digits_value_small ds Hd ltac:(lia)).
    assert (Z.of_nat (length (utf8_encode text)) = digits_value 0 ds) as El
      by (rewrite Et, length_take; lia).
    exists (ds ++ chr ":" :: utf8_encode text). rewrite <- app_assoc. cbn [app]. split.
    + rewrite Et. by rewrite take_drop.
    + exists ds. split_and!; try done; lia.
  - intros (p & -> & digits & Hne & Hd & Hl & Hv & Hm & Hs & ->).
    rewrite <- app_assoc. cbn [app]. unfold field.
    assert (position_within 9 (chr ":") (digits ++ chr ":" :: utf8_encode s ++ rest) = Some (length digits)) as ->.
    { apply position_within_Some. exists digits, (utf8_encode s ++ rest).
      split_and!; [done|done|lia|by apply colon_not_digit]. }
    rewrite take_app_length. destruct (ascii_utf8 digits Hd) as [-> Ea]. cbn [ok_or]. rewrite Ea.
    rewrite bool_decide_eq_false_2 by done. rewrite Hd. cbn [orb negb].
    rewrite parse_u64_small by (try done; lia). cbn [ok_or]. rewrite Hv.
    destruct (Z.ltb_spec MAX_FIELD_BYTES (Z.of_nat (length (utf8_encode s)))); [lia|].
    assert (drop (length digits + 1) (digits ++ chr ":" :: utf8_encode s ++ rest) = utf8_encode s ++ rest) as ->.
    { rewrite drop_app_ge by lia. by replace (length digits + 1 - length digits)%nat with 1%nat by lia. }
    rewrite length_app. destruct (Z.ltb_spec (Z.of_nat (length (utf8_encode s) + length rest))
      (Z.of_nat (length (utf8_encode s)))); [lia|].
    rewrite Nat2Z.id, take_app_length, drop_app_length.
    rewrite (proj2 (from_utf8_Some _ s)) by done. done.
Qed.

Lemma dash_not_field s p : ¬ field_text s (chr "-" :: p).
Proof.
  intros (digits & Hne & Hd & _ & _ & _ & _ & E). destruct digits as [|c digits]; [done|].
  cbn in E. injection E as <- _. done.
Qed.

Lemma reads_opt : reads opt opt_text.
Proof.
  assert (reads (and_then field (λ s, give (Some s)))
            (λ o p, ∃ s, o = Some s ∧ field_text s p)) as Hf.
  { eapply reads_ext; [apply reads_bind; [apply reads_field|intros s; apply reads_give]|].
    intros o p. split.
    - intros (s & p1 & p2 & -> & Hs & -> & ->). exists s. by rewrite app_nil_r.
    - intros (s & -> & Hs). exists s, p, []. by rewrite app_nil_r. }
  intros bs o rest. unfold opt. destruct bs as [|b bs].
  - etrans; [apply Hf|]. split; intros (p & E & H); symmetry in E; apply app_nil in E as [-> ->].
    + destruct H as (s & -> & H). by exists [].
    + exists []. split; [done|]. destruct o as [s|]; [by exists s|done].
  - case_if; bool_to_prop.
    + subst b. split.
      * intros [= <- <-]. by exists [chr "-"].
      * intros (p & E & H). destruct o as [s|]; cbn in H; [|subst p; cbn in E; by simplify_eq].
        exfalso. destruct p as [|x p]; [by destruct H as ([|? ?] & ? & _ & _ & _ & _ & _ & ?)|].
        cbn in E. simplify_eq. by eapply dash_not_field.
    + etrans; [apply Hf|]. split; intros (p & E & H).
      * destruct H as (s & -> & H). by exists p.
      * exists p. split; [done|]. destruct o as [s|]; [by exists s|]. cbn in H. subst p. cbn in E.
        by simplify_eq.
Qed.

(** ** The verification *)

(** A reader's parts, read off its definition. *)
Ltac reads_parts :=
  repeat first
    [ apply reads_field | apply reads_opt | apply reads_give | apply reads_stop
    | eapply reads_bind; [|intros ?] ].

Lemma reads_blocking : reads read_blocking blocking_text.
Proof.
  unfold read_blocking. eapply reads_ext.
  - eapply reads_bind; [apply reads_field|]. intros raw.
    instantiate (1 := λ raw b p, p = [] ∧ raw = lit (if b : bool then "1" else "0")). cbn beta.
    intros bs b rest. case_bool_decide as H1; [|case_bool_decide as H0].
    + subst raw. etrans; [apply reads_give|]. split; intros (p & -> & H & H'); exists []; destruct b; by subst.
    + subst raw. etrans; [apply reads_give|]. split; intros (p & -> & H & H'); exists []; destruct b; by subst.
    + split; [done|]. by intros (p & _ & -> & Hb); destruct b.
  - intros b p. unfold blocking_text. split.
    + intros (raw & p1 & p2 & -> & Hf & -> & ->). by rewrite app_nil_r.
    + intros Hf. eexists _, p, []. by rewrite app_nil_r.
Qed.

Lemma reads_line : reads read_line line_text.
Proof.
  unfold read_line. eapply reads_ext.
  - eapply reads_bind; [apply reads_opt|]. intros raw.
    instantiate (1 := λ raw line p, p = [] ∧ match raw, line with
      | Some text, Some n => parse_i64 text = Some n | None, None => True | _, _ => False end). cbn beta.
    intros bs line rest. destruct raw as [text|]; [destruct (parse_i64 text) as [n|] eqn:E|].
    + etrans; [apply reads_give|]. split; intros (p & -> & H & H'); exists []; destruct line; by simplify_eq.
    + split; [done|]. intros (p & _ & _ & H). by destruct line.
    + etrans; [apply reads_give|]. split; intros (p & -> & H & H'); exists []; destruct line; by simplify_eq.
  - intros line p. split.
    + intros (raw & p1 & p2 & -> & Hf & -> & H). rewrite app_nil_r.
      destruct raw as [text|], line as [n|]; try done. by exists text.
    + intros H. destruct line as [n|].
      * destruct H as (raw & Hr & Hf). exists (Some raw), p, []. by rewrite app_nil_r.
      * exists None, p, []. by rewrite app_nil_r.
Qed.

Lemma spells_cons_iff piece pieces p :
  spells (piece :: pieces) p ↔ ∃ p1 p2, p = p1 ++ p2 ∧ piece p1 ∧ spells pieces p2.
Proof.
  split; [intros H; inversion H; subst; eauto|]. intros (p1 & p2 & -> & ? & ?). by constructor.
Qed.

Lemma spells_nil_iff p : spells [] p ↔ p = [].
Proof. split; [by inversion 1|]. intros ->. constructor. Qed.

Lemma spells_one piece p : spells [piece] p ↔ piece p.
Proof.
  rewrite spells_cons_iff. setoid_rewrite spells_nil_iff. split.
  - intros (p1 & p2 & -> & H & ->). by rewrite app_nil_r.
  - intros H. exists p, []. by rewrite app_nil_r.
Qed.

Lemma spells_app a b p : spells (a ++ b) p ↔ ∃ p1 p2, p = p1 ++ p2 ∧ spells a p1 ∧ spells b p2.
Proof.
  revert p. induction a as [|piece a IH]; intros p; cbn [app].
  - setoid_rewrite spells_nil_iff. split; [intros H; by exists [], p|]. by intros (? & p2 & -> & -> & H).
  - rewrite spells_cons_iff. setoid_rewrite IH. setoid_rewrite spells_cons_iff. split.
    + intros (p1 & ? & -> & H & p2 & p3 & -> & Ha & Hb). exists (p1 ++ p2), p3.
      rewrite <- app_assoc. split; [done|]. split; [by exists p1, p2|done].
    + intros (? & p3 & -> & (p1 & p2 & -> & H & Ha) & Hb). exists p1, (p2 ++ p3).
      rewrite <- app_assoc. split; [done|]. split; [done|]. by exists p2, p3.
Qed.

(** Takes the parts of a bound reader apart, and puts the pieces back together. *)
Ltac take_apart := repeat match goal with
  | H : ∃ _, _ |- _ => destruct H
  | H : _ ∧ _ |- _ => destruct H
  end.
Ltac take_pieces := repeat match goal with
  | H : spells (_ :: _) _ |- _ => apply spells_cons_iff in H; take_apart
  | H : spells [] _ |- _ => apply spells_nil_iff in H
  end; subst.
Ltac give_pieces := repeat match goal with
  | |- spells (_ :: _) _ => apply spells_cons_iff; do 2 eexists; split_and!; [reflexivity|eassumption|]
  | |- spells [] _ => by constructor
  end.
Ltac give_parts := repeat match goal with
  | |- ∃ _ _ _, _ => do 3 eexists; split; [reflexivity|split; [eassumption|]]
  end.

Lemma reads_gap : reads read_wire_gap gap_text.
Proof.
  unfold read_wire_gap. eapply reads_ext.
  - repeat first [apply reads_field | apply reads_opt | apply reads_blocking | apply reads_line
      | apply reads_give | eapply reads_bind; [|intros ?]].
  - intros g p. unfold gap_text, gap_pieces. split.
    + intros H. take_apart. subst. cbn. split; [done|]. give_pieces.
    + intros [Ht H]. destruct g. cbn in *. subst. take_pieces. give_parts. by split.
Qed.

Lemma reads_run : reads read_run (λ run, spells (run_pieces run)).
Proof.
  unfold read_run. eapply reads_ext.
  - eapply reads_bind; [apply reads_field|]. intros marker.
    instantiate (1 := λ marker run p, spells (tail (run_pieces run)) p
      ∧ marker = lit (match run with None => "N" | Some _ => "R" end)). cbn beta.
    case_bool_decide as HN; [|case_bool_decide as HR].
    + subst marker. eapply reads_ext; [apply reads_give|]. intros run p. split.
      * intros [-> ->]. split; [constructor|done].
      * intros [H E]. destruct run; [done|]. cbn in H. by take_pieces.
    + subst marker. eapply reads_ext.
      * repeat first [apply reads_field | apply reads_opt | apply reads_give | eapply reads_bind; [|intros ?]].
      * intros run p. split.
        -- intros H. take_apart. subst. cbn. split; [give_pieces|done].
        -- intros [H E]. destruct run as [[]|]; [|done]. cbn in *. take_pieces. give_parts. by split.
    + intros bs b rest. split; [done|]. by intros (p & _ & _ & ->); destruct b.
  - intros run p. split.
    + intros (marker & p1 & p2 & -> & Hf & H & ->). by destruct run; apply spells_cons.
    + intros H. destruct run; cbn [run_pieces] in H; apply spells_cons_iff in H as (p1 & p2 & -> & Hf & H);
        by eexists _, p1, p2.
Qed.

Lemma reads_count :
  reads read_count (λ n p, number_text parse_u64 n p ∧ n ≤ Z.of_nat MAX_GAPS_PER_REPLACE).
Proof.
  unfold read_count. eapply reads_ext.
  - eapply reads_bind; [apply reads_field|]. intros raw.
    instantiate (1 := λ raw n p, p = [] ∧ parse_u64 raw = Some n ∧ n ≤ Z.of_nat MAX_GAPS_PER_REPLACE).
    cbn beta. destruct (parse_u64 raw) as [n|]; [|intros bs n rest; split; [done|naive_solver]].
    destruct (Z.ltb_spec (Z.of_nat MAX_GAPS_PER_REPLACE) n).
    + intros bs m rest. split; [done|]. intros (p & _ & _ & [= ->] & ?). lia.
    + eapply reads_ext; [apply reads_give|]. naive_solver.
  - intros n p. split.
    + intros (raw & p1 & p2 & -> & Hf & -> & Hp & Hn). rewrite app_nil_r. split; [by exists raw|done].
    + intros [(raw & Hp & Hf) Hn]. exists raw, p, []. by rewrite app_nil_r.
Qed.

Lemma reads_gaps n :
  reads (read_gaps n) (λ gs p, length gs = n ∧ spells (map gap_text gs) p).
Proof.
  induction n as [|n IH]; cbn [read_gaps].
  - eapply reads_ext; [apply reads_give|]. intros gs p. split.
    + intros [-> ->]. split; [done|constructor].
    + intros [Hl H]. destruct gs; [|done]. split; [done|]. by apply spells_nil_iff in H.
  - eapply reads_ext.
    + eapply reads_bind; [apply reads_gap|]. intros g.
      eapply reads_bind; [apply IH|]. intros gs. apply reads_give.
    + intros gs p. split.
      * intros (g & p1 & ? & -> & Hg & gs' & p2 & ? & -> & [<- Hs] & -> & ->). rewrite app_nil_r.
        split; [done|]. by apply spells_cons.
      * intros [Hl H]. destruct gs as [|g gs]; [done|]. cbn [map] in H.
        apply spells_cons_iff in H as (p1 & p2 & -> & Hg & Hs).
        exists g, p1, p2. split_and!; [done|done|]. exists gs, p2, []. rewrite app_nil_r.
        split_and!; [done|by injection Hl|done|done|done].
Qed.

Lemma reads_verification : reads read_verification framing.
Proof.
  unfold read_verification. eapply reads_ext.
  - eapply reads_bind; [apply reads_field|]. intros tag.
    instantiate (1 := λ tag v p, tag = WIRE_TAG ∧ (length v.2 ≤ MAX_GAPS_PER_REPLACE)%nat
      ∧ spells ([spells (run_pieces v.1); number_text parse_u64 (Z.of_nat (length v.2))]
                ++ map gap_text v.2) p). cbn beta.
    case_bool_decide as Ht; cbn [negb]; [|intros bs v rest; split; [done|naive_solver]]. eapply reads_ext.
    + eapply reads_bind; [apply reads_run|]. intros run.
      eapply reads_bind; [apply reads_count|]. intros n.
      eapply reads_bind; [apply reads_gaps|]. intros gs. apply reads_give.
    + intros [run gs] p. cbn [fst snd app]. split.
      * intros (run' & p1 & ? & -> & Hr & n & p2 & ? & -> & [Hn Hm] & gs' & p3 & ? & -> & [Hl Hs] & [= -> ->] & ->).
        rewrite app_nil_r. assert (n = Z.of_nat (length gs')) as ->.
        { assert (0 ≤ n); [|lia]. destruct Hn as (raw & Hraw & _). by eapply parse_u64_nonneg. }
        split_and!; [done|lia|]. apply spells_cons, spells_cons; done.
      * intros (_ & Hm & H). apply spells_cons_iff in H as (p1 & ? & -> & Hr & H).
        apply spells_cons_iff in H as (p2 & p3 & -> & Hn & Hs).
        exists run, p1, (p2 ++ p3). split_and!; [done|done|]. exists (Z.of_nat (length gs)), p2, p3.
        split_and!; [done|done|lia|]. exists gs, p3, []. rewrite app_nil_r, Nat2Z.id. by split_and!.
  - intros v p. unfold framing. cbn [app]. split.
    + intros (tag & p1 & p2 & -> & Hf & -> & Hm & H). split; [done|]. by apply spells_cons.
    + intros [Hm H]. apply spells_cons_iff in H as (p1 & p2 & -> & Hf & H). by exists WIRE_TAG, p1, p2.
Qed.

(** ** What [decode] accepts *)

Lemma decode_reads text v : decode text = Ok v ↔ framing v (utf8_encode text).
Proof.
  unfold decode. split.
  - destruct (read_verification _) as [[w rest]|] eqn:E; [|done]. case_bool_decide as Hr; [|done].
    cbn. intros [= ->]. subst rest. apply reads_verification in E as (p & -> & H). by rewrite app_nil_r.
  - intros H. rewrite (proj2 (reads_verification (utf8_encode text) v [])).
    + by rewrite bool_decide_eq_true_2.
    + exists (utf8_encode text). by rewrite app_nil_r.
Qed.

(** A text decodes exactly when it is a framing, and then to what it frames: every
    field is at most 4 MiB of valid UTF-8 and as long as it declares, there are at most 500
    gaps, and nothing is left over. *)
Theorem decode_accepts_framings text v : decode text = Ok v ↔ framing v (utf8_encode text).
Proof. apply decode_reads. Qed.

(** No framing is the beginning of another: adding anything to an accepted text, or
    cutting anything off its end, gets it refused. *)
Theorem framing_cannot_be_extended text more v :
  decode text = Ok v → more ≠ [] → is_ok (decode (text ++ more)) = false.
Proof.
  intros H Hm. apply decode_reads in H. unfold decode. rewrite utf8_encode_app.
  rewrite (proj2 (reads_verification (utf8_encode text ++ utf8_encode more) v (utf8_encode more)));
    [|by exists (utf8_encode text)].
  rewrite bool_decide_eq_false_2; [done|]. destruct more as [|c more]; [done|].
  unfold utf8_encode. cbn [flat_map]. unfold utf8_encode_char. by repeat case_if.
Qed.

(** ** Writing framings *)

Definition frame (s : str) : str := fmt_u (str_len s) ++ chr ":" :: s.
Definition frame_opt (o : option str) : str := match o with Some s => frame s | None => [chr "-"] end.
Definition encode_run (run : option VerificationRun) : str :=
  match run with
  | None => frame (lit "N")
  | Some r =>
      concat [frame (lit "R"); frame (vr_id r); frame (vr_task_id r); frame (vr_sandbox r);
              frame (vr_environment_json r); frame (vr_commands_json r); frame (vr_status r);
              frame (vr_started_at r); frame_opt (vr_finished_at r)]
  end.

Definition encode_gap (g : GapRow) : str :=
  concat [frame (g_id g); frame (g_severity g); frame (g_gap_type g); frame (g_description g);
          frame (g_evidence_json g); frame (g_recommended_fix g);
          frame (lit (if g_blocking g then "1" else "0")); frame_opt (g_requirement_id g);
          frame_opt (g_file g); frame_opt (fmt_i <$> g_line g); frame_opt (g_suggested_command g);
          frame_opt (g_acceptance_criterion_id g); frame_opt (g_expected_verification_method g);
          frame_opt (g_stdout_path g); frame_opt (g_stderr_path g)].

Definition encode (v : option VerificationRun * list GapRow) : str :=
  concat ([frame WIRE_TAG; encode_run v.1; frame (fmt_u (Z.of_nat (length v.2)))]
          ++ map encode_gap v.2).

(** What can be framed: Unicode text of at most 4 MiB. *)
Definition sendable (s : str) : Prop := all_chars is_scalar s = true ∧ str_len s ≤ MAX_FIELD_BYTES.
Definition sendable_opt (o : option str) : Prop := from_option sendable True o.

Record sendable_run (r : VerificationRun) : Prop := {
  sr_texts : Forall sendable [vr_id r; vr_task_id r; vr_sandbox r; vr_environment_json r;
                              vr_commands_json r; vr_status r; vr_started_at r];
  sr_finished : sendable_opt (vr_finished_at r);
}.

Record sendable_gap (g : GapRow) : Prop := {
  sg_texts : Forall sendable [g_id g; g_severity g; g_gap_type g; g_description g;
                              g_evidence_json g; g_recommended_fix g];
  sg_opts : Forall sendable_opt [g_requirement_id g; g_file g; g_suggested_command g;
                                 g_acceptance_criterion_id g; g_expected_verification_method g;
                                 g_stdout_path g; g_stderr_path g];
  sg_line : ∀ n, g_line g = Some n → i64_min ≤ n ≤ i64_max;
}.

Record sendable_all (v : option VerificationRun * list GapRow) : Prop := {
  sa_run : ∀ r, v.1 = Some r → sendable_run r;
  sa_gaps : Forall sendable_gap v.2;
  sa_count : (length v.2 ≤ MAX_GAPS_PER_REPLACE)%nat;
}.

Lemma frame_spells s : sendable s → field_text s (utf8_encode (frame s)).
Proof.
  intros [Hs Hl]. pose proof (str_len_nonneg s). exists (fmt_u (str_len s)).
  pose proof (fmt_u_digits (str_len s) ltac:(done)) as Hd. rewrite utf8_encode_length.
  split_and!; [apply fmt_u_nonempty|done| |by apply fmt_u_value|done|done|].
  - unfold MAX_FIELD_BYTES in Hl. change (Z.shiftl 4 20) with 4194304 in Hl.
    etrans; [apply (fmt_acc_width _ _ _ 7)|]; cbn; lia.
  - unfold frame. rewrite utf8_encode_app, (proj2 (ascii_utf8 _ Hd)). done.
Qed.

Lemma spells_concat pieces texts :
  Forall2 (λ piece s, piece (utf8_encode s)) pieces texts → spells pieces (utf8_encode (concat texts)).
Proof.
  induction 1 as [|piece s pieces texts H _ IH]; [constructor|]. cbn [concat].
  rewrite utf8_encode_app. by apply spells_cons.
Qed.

Lemma frame_opt_spells o : sendable_opt o → opt_text o (utf8_encode (frame_opt o)).
Proof. destruct o as [s|]; [apply frame_spells|done]. Qed.

Lemma short_sendable s : all_chars is_ascii_digit s = true → (length s ≤ 20)%nat → sendable s.
Proof.
  intros Hd Hl. split; [by apply digits_scalar|].
  rewrite str_len_ascii by (by apply digits_ascii). unfold MAX_FIELD_BYTES.
  change (Z.shiftl 4 20) with 4194304. lia.
Qed.

Lemma fmt_u_short n : 0 ≤ n ≤ 2 ^ 63 → (length (fmt_u n) ≤ 19)%nat.
Proof. intros Hn. etrans; [apply (fmt_acc_width _ _ _ 19)|]; cbn; lia. Qed.

Lemma fmt_i_read n : i64_min ≤ n ≤ i64_max → parse_i64 (fmt_i n) = Some n ∧ sendable (fmt_i n).
Proof.
  intros Hn. split; [by apply parse_i64_fmt|]. unfold i64_min, i64_max in Hn. unfold fmt_i.
  destruct (Z.ltb_spec n 0).
  - pose proof (fmt_u_digits (- n) ltac:(lia)) as Hd. pose proof (fmt_u_short (- n) ltac:(lia)) as Hl.
    destruct (short_sendable (fmt_u (- n)) Hd ltac:(lia)) as [Hs _]. split; [by cbn|].
    cbn [str_len]. rewrite str_len_ascii by (by apply digits_ascii).
    change (utf8_width (chr "-")) with 1. unfold MAX_FIELD_BYTES. change (Z.shiftl 4 20) with 4194304. lia.
  - pose proof (fmt_u_digits n ltac:(lia)) as Hd. pose proof (fmt_u_short n ltac:(lia)) as Hl.
    apply short_sendable; [done|lia].
Qed.

Lemma frame_line_spells line :
  (∀ n, line = Some n → i64_min ≤ n ≤ i64_max) → line_text line (utf8_encode (frame_opt (fmt_i <$> line))).
Proof.
  intros H. destruct line as [n|]; [|done]. destruct (fmt_i_read n) as [Hp Hs]; [by apply H|].
  exists (fmt_i n). split; [done|]. by apply frame_spells.
Qed.

Lemma short_word s : (all_chars (λ c, in_range 0 127 c) s && (length s <=? 20)%nat) = true → sendable s.
Proof.
  intros [Ha Hl%Nat.leb_le]%andb_prop. assert (str_len s = Z.of_nat (length s)) as E.
  { apply str_len_ascii. eapply all_chars_impl; [|exact Ha]. intros c ?%in_range_spec. apply Z.ltb_lt. lia. }
  split; [|rewrite E; unfold MAX_FIELD_BYTES; change (Z.shiftl 4 20) with 4194304; lia].
  eapply all_chars_impl; [|exact Ha]. intros c ?%in_range_spec. unfold is_scalar.
  rewrite orb_true_iff, !in_range_spec. lia.
Qed.

Lemma encode_run_spells run :
  (∀ r, run = Some r → sendable_run r) → spells (run_pieces run) (utf8_encode (encode_run run)).
Proof.
  intros H. destruct run as [r|].
  - destruct (H r eq_refl) as [Ht Hf]. rewrite !Forall_cons in Ht. apply spells_concat.
    repeat (apply Forall2_cons_2; [first [apply frame_spells|apply frame_opt_spells]|]); [|tauto..|done].
    by apply short_word.
  - by apply spells_one, frame_spells, short_word.
Qed.

Lemma encode_gap_spells g :
  sendable_gap g → gap_text (set_task None g) (utf8_encode (encode_gap g)).
Proof.
  intros [Ht Ho Hl]. rewrite !Forall_cons in Ht. rewrite !Forall_cons in Ho. split; [done|]. apply spells_concat.
  cbn [gap_pieces set_task g_id g_severity g_gap_type g_description g_evidence_json g_recommended_fix
    g_blocking g_requirement_id g_file g_line g_suggested_command g_acceptance_criterion_id
    g_expected_verification_method g_stdout_path g_stderr_path].
  repeat (apply Forall2_cons_2;
    [first [apply frame_spells|by apply frame_line_spells|apply frame_opt_spells]|]);
    try tauto; [|done].
  apply short_word. by destruct (g_blocking g).
Qed.

Lemma count_spells n : 0 ≤ n ≤ 500 → number_text parse_u64 n (utf8_encode (frame (fmt_u n))).
Proof.
  intros Hn. exists (fmt_u n). split.
  - apply parse_unsigned_fmt. unfold u64_max. lia.
  - apply frame_spells, short_sendable; [apply fmt_u_digits; lia|].
    pose proof (fmt_u_short n ltac:(lia)). lia.
Qed.

Lemma encode_framing v :
  sendable_all v → framing (v.1, map (set_task None) v.2) (utf8_encode (encode v)).
Proof.
  intros [Hr Hg Hc]. split; cbn [fst snd]; [by rewrite length_map|]. rewrite length_map.
  apply spells_concat, Forall2_app.
  - repeat (apply Forall2_cons_2; [|]); [by apply frame_spells, short_word|by apply encode_run_spells| |done].
    apply count_spells. split; [apply Nat2Z.is_nonneg|]. apply (Nat2Z.inj_le _ 500), Hc.
  - rewrite map_map. clear Hr Hc. induction Hg as [|g gs H _ IH]; [constructor|]. cbn [map].
    apply Forall2_cons_2; [by apply encode_gap_spells|done].
Qed.

(** ** From the host to the tables *)

(** What a verification sent by the host leaves of it: its gaps carry no task. *)
Definition received (v : option VerificationRun * list GapRow) : option VerificationRun * list GapRow :=
  (v.1, map (set_task None) v.2).

Lemma normalised_received task gs rows :
  normalised task (map (set_task None) gs) rows → normalised task gs rows.
Proof.
  intros [Hk Hi Hl Ht]. rewrite map_map in Hi. constructor; [done|exact Hi| |done].
  intros i. rewrite Hl. clear.
  assert (List.filter (under g_id i) (map (set_task None) gs)
          = map (set_task None) (List.filter (under g_id i) gs)) as ->.
  { induction gs as [|g gs IH]; [done|]. cbn [map List.filter].
    change (under g_id i (set_task None g)) with (under g_id i g).
    destruct (under g_id i g); cbn [map]; by rewrite IH. }
  change (map (set_task None)) with (fmap (M := list) (set_task (A := bool) None)). rewrite fmap_last.
  by destruct (last _).
Qed.

(** C38. What the host frames is what the store keeps. Any verification of Unicode fields of
    at most 4 MiB and at most 500 gaps decodes to itself, and the command that commits it
    leaves the task with exactly the gaps sent and the run on record, or nothing at all. *)
Theorem sent_is_stored reading task v :
  sendable_all v →
  decode (encode v) = Ok (received v)
  ∧ ∃ command, gaps_replace_command task (encode v) = Ok command
    ∧ ∀ db db' r, runs reading command db db' r →
      match r with
      | Ok _ =>
          (∀ run, v.1 = Some run → find_row vr_id (vr_id run) (verification_runs db') = Some run)
          ∧ ∃ rows, normalised task v.2 rows ∧ gaps db' = others task (gaps db) ++ map store_gap rows
      | Err _ => db' = db
      end.
Proof.
  intros Hv. assert (decode (encode v) = Ok (received v)) as Hd
    by (by apply decode_reads, encode_framing).
  split; [done|]. unfold gaps_replace_command. rewrite Hd. eexists. split; [reflexivity|].
  intros db db' r. revert db' r. apply wp_runs. eapply wp_mono; [apply wp_verification_commit|].
  intros db' [[]|e]; [|by intros [-> _]]. intros [Hr (rows & [_ Hn _ Hg _ He])]. split.
  - intros run Hrun. rewrite (f_equal verification_runs He : verification_runs db' = _).
    cbn [received fst]. rewrite Hrun. cbn. rewrite find_upsert by done. by destruct (find_row _ _ _).
  - exists rows. split; [by apply normalised_received|]. rewrite Hg. by destruct v as [[run|] gs].
Qed.

(** ** A run with one gap *)

Definition sample : option VerificationRun * list GapRow := (Some a_run, [gap "g1" "test" "t1"]).

Lemma sample_sendable : sendable_all sample.
Proof.
  assert (∀ s, (all_chars (λ c, in_range 0 127 c) s && (length s <=? 20)%nat) = true → sendable s) as Hs
    by apply short_word.
  constructor.
  - intros r [= <-]. constructor; [|done]. repeat (apply Forall_cons; split; [by apply Hs|]). constructor.
  - repeat constructor; try (by apply Hs). all: done.
  - cbn. unfold MAX_GAPS_PER_REPLACE. lia.
Qed.

Lemma sent_is_stored_witness :
  decode (encode sample) = Ok (received sample)
  ∧ ∃ command, gaps_replace_command (lit "t1") (encode sample) = Ok command
    ∧ ∀ db db' r, runs (eq 1000) command db db' r →
      match r with
      | Ok _ =>
          (∀ run, sample.1 = Some run → find_row vr_id (vr_id run) (verification_runs db') = Some run)
          ∧ ∃ rows, normalised (lit "t1") sample.2 rows
                    ∧ gaps db' = others (lit "t1") (gaps db) ++ map store_gap rows
      | Err _ => db' = db
      end.
Proof. apply (sent_is_stored (eq 1000) (lit "t1") sample), sample_sendable. Defined.

Lemma framing_cannot_be_extended_witness :
  is_ok (decode (encode (None, []) ++ lit "x")) = false.
Proof.
  apply (framing_cannot_be_extended (encode (None, [])) (lit "x") (None, [])); [|done].
  vm_compute. reflexivity.
Defined.

(** The bytes of the documentation: an empty set, and what is refused of it. *)
Example an_empty_set : decode (lit "5:DCVC11:N1:0") = Ok (None, []).
Proof. vm_compute. reflexivity. Qed.

Example zeros_may_lead_a_length : decode (lit "005:DCVC11:N1:0") = Ok (None, []).
Proof. vm_compute. reflexivity. Qed.

Example a_length_may_not_cut_a_character :
  decode (lit "5:DCVC11:R1:" ++ [233]) = Err NotUtf8.
Proof. vm_compute. reflexivity. Qed.

End WireProps.
