(* ===== verification/ReadyProps.v ===== *)
(** * What the sweep and the widening do when nothing runs beside them *)

From S2P Require Import Prelude RustStr RustStrFacts Json Time Effects Store Leases Ready LeaseHistory LeaseSpec JsonFacts JsonProps LeaseProps.
Import Effects Store Tasks Leases Ready LeaseHistory LeaseSpec.

#[local] Open Scope Z_scope.

Module ReadySpec.

(** ** Other tasks' leases *)

Lemma row_by_id db l x : exclusive db → l ∈ leases db → x ∈ leases db → id x = id l → x = l.
Proof.
  intros [Hi _] Hl Hx Hxl. apply list_elem_of_lookup in Hx as [i Hx], Hl as [j Hj].
  assert (i = j) as ->; [|congruence]. eapply NoDup_lookup; [exact Hi|..];
    rewrite list_lookup_fmap, ?Hx, ?Hj; cbn; by rewrite ?Hxl.
Qed.

Lemma current_replace_other db task task' l l' :
  exclusive db → current db task = Some l → id l' = id l → task_id l' = task_id l →
  task' ≠ task → current (replace_lease l' db) task' = current db task'.
Proof.
  intros He Hc Hid Htk Hne. apply current_Some in Hc as (Hl & Ht & _).
  unfold current. cbn. f_equal. rewrite Hid.
  assert (∀ x, x ∈ leases db → id x = id l → x = l) as Hone by (intros; by eapply row_by_id).
  clear He Hl. induction (leases db) as [|x ls IH]; [done|]. cbn [map List.filter].
  rewrite IH by (intros y Hy; apply Hone; by right).
  case_bool_decide as Hx; [|done]. rewrite (Hone x) by (by left || done).
  unfold active_for. by rewrite Htk, Ht, (bool_decide_eq_false_2 (task = task')) by congruence.
Qed.

(** ** The sweep *)

Section Sweep.
Context (reading : Z → Prop).
#[local] Abbreviation wp := (wp reading).

(** Each task keeps its lease, or loses one that was found past its expiry. *)
Definition swept (db db' : Db) : Prop :=
  ∀ t, current db' t = current db t
       ∨ ∃ l, current db t = Some l ∧ current db' t = None ∧ ∃ now, reading now ∧ lapsed_at l now.

(** A lease the sweep leaves: not seen past its expiry, or without a readable one. *)
Definition standing (l : Lease) : Prop :=
  seen_live reading l ∨ ∃ v, expires_at l = Some v ∧ Time.parse_iso_utc v = None.

#[export] Instance swept_preorder : PreOrder swept.
Proof.
  split; [by left|]. intros d1 d2 d3 H1 H2 t.
  destruct (H1 t) as [E1|(l & Hl & Hn & Hx)], (H2 t) as [E2|(l' & Hl' & Hn' & Hx')].
  - left. congruence.
  - right. exists l'. split_and!; [congruence|done..].
  - right. exists l. split_and!; [done|congruence|done].
  - congruence.
Qed.

Lemma swept_stands db db' t l : swept db db' → current db' t = Some l → current db t = Some l.
Proof. intros H Hl. destruct (H t) as [E|(l' & _ & Hn & _)]; congruence. Qed.

Lemma active_swept db db' task r :
  exclusive db → active_spec reading task db db' r →
  swept db db' ∧ match r with
                 | Ok _ | Err (BadTimestamp _) => ∀ l, current db' task = Some l → standing l
                 | _ => True
                 end.
Proof.
  intros He H. destruct r as [[l|]|e]; cbn in H.
  - destruct H as (-> & Hc & Hlive). split; [done|]. intros l' Hl'. rewrite Hc in Hl'. simplify_eq.
    by left.
  - destruct H as [[-> Hc]|(l & Hc & now & now' & Hn & _ & Hx & ->)].
    + split; [done|]. intros l. by rewrite Hc.
    + assert (current (replace_lease (close STALE (iso now') l) db) task = None) as Hnone.
      { eapply replace_lease_None; [done|done|done|]. apply closed_inactive. by left. }
      split; [|intros l'; by rewrite Hnone]. intros t.
      destruct (decide (t = task)) as [->|Hne].
      * right. exists l. split_and!; [done|done|]. by exists now.
      * left. by eapply current_replace_other.
  - destruct e; try (destruct H as [-> _]; done). destruct H as (-> & l & Hc & Hv & Hz).
    split; [done|]. intros l' Hl'. rewrite Hc in Hl'. simplify_eq. right. by exists value.
Qed.

Lemma wp_sweep_task db out task :
  exclusive db →
  wp (sweep_task out task) db (λ db' r,
    swept db db' ∧ exclusive db' ∧ history db db'
    ∧ match r with Ok _ => ∀ l, current db' task = Some l → standing l | Err _ => True end).
Proof.
  intros He. unfold sweep_task. rewrite wp_bind.
  eapply wp_mono; [apply wp_advances; [apply adv_active|done|by apply wp_active_lease]|].
  intros db1 r (Hs & He1 & Hh). apply active_swept in Hs as [Hs Hst]; [|done].
  destruct r as [[l|]|e]; cbn [wp ok]; [by split_and!..|].
  by destruct e; split_and!.
Qed.

Lemma wp_sweep_loop tasks db out :
  exclusive db →
  wp (sweep_loop tasks out) db (λ db' r,
    swept db db' ∧ exclusive db' ∧ history db db'
    ∧ match r with
      | Ok _ => ∀ t l, t ∈ tasks → current db' t = Some l → standing l
      | Err _ => True
      end).
Proof.
  revert db out. induction tasks as [|t ts IH]; intros db out He; cbn [sweep_loop].
  { cbn. split_and!; try done. intros t l Ht. by apply not_elem_of_nil in Ht. }
  rewrite wp_let. eapply wp_mono; [by apply wp_sweep_task|].
  intros db1 [out1|e] (Hs & He1 & Hh & Hst); [|by split_and!].
  eapply wp_mono; [by apply IH|]. intros db2 r (Hs2 & He2 & Hh2 & Hst2).
  split_and!; [by etrans|done|by etrans|]. destruct r; [|done].
  intros t' l [->|Ht]%elem_of_cons Hl; [|by eapply Hst2]. apply Hst. by eapply swept_stands.
Qed.

Lemma wp_sweep db :
  exclusive db →
  wp sweep_expired db (λ db' r,
    swept db db' ∧ exclusive db' ∧ history db db'
    ∧ match r with Ok _ => ∀ t l, current db' t = Some l → standing l | Err _ => True end).
Proof.
  intros He. unfold sweep_expired, active_tasks_stmt. rewrite wp_let, wp_query.
  split; [|intros e; by split_and!].
  eapply wp_mono; [by apply wp_sweep_loop|]. intros db' r (Hs & He' & Hh & Hst). split_and!; try done.
  destruct r; [|done]. intros t l Hl. eapply Hst; [|exact Hl].
  apply elem_of_remove_dups. apply (swept_stands _ _ _ _ Hs) in Hl.
  apply current_Some in Hl as (Hin & <- & Ha). apply list_elem_of_fmap_2, elem_of_filter_bool. done.
Qed.

(** ** Ready work *)

(** An item the listing may offer, its lease aside. *)
Definition ready_item (i : WorkItem) : Prop :=
  i_deleted i = 0 ∧ i_archived i = 0 ∧ i_status i = lit "ready" ∧ i_repository i = LOCAL_REPOSITORY_ID.

Lemma ready_where_iff db i :
  ready_where db i = true ↔ ready_item i ∧ current db (i_id i) = None.
Proof.
  unfold ready_where, ready_item.
  rewrite !andb_true_iff, !Z.eqb_eq, !bool_decide_eq_true, negb_true_iff, existsb_false, current_None.
  naive_solver.
Qed.

Lemma history_tables db db' i : history db db' → rows_of db' = rows_of db ∧ ready_row db' i = ready_row db i.
Proof.
  intros [_ H]. unfold rows_of, ready_row, blocking_gaps.
  by rewrite (same_items _ _ H), (same_gaps _ _ H).
Qed.

Lemma wp_ready mode db :
  exclusive db →
  wp (ready_tasks mode) db (λ db' r,
    match r with
    | Ok rows => swept db db' ∧ exclusive db' ∧ history db db'
        ∧ (∀ t l, current db' t = Some l → standing l)
        ∧ rows = List.filter (offered mode) (map (ready_row db')
            (sort_by (ready_leb db') (List.filter (ready_where db') (rows_of db'))))
    | Err _ => True
    end).
Proof.
  intros He. unfold ready_tasks. rewrite wp_let. eapply wp_mono; [by apply wp_sweep|].
  intros db' [out|e] (Hs & He' & Hh & Hst); [|done]. rewrite wp_let.
  unfold items_present. rewrite wp_query. split; [|done].
  case_bool_decide as Hp; cbn [negb].
  - rewrite wp_let. unfold ready_stmt. rewrite wp_query. split; [|done]. by split_and!.
  - cbn. split_and!; try done. unfold rows_of. destruct (work_items db'); [|done].
    exfalso. apply Hp. by eexists.
Qed.

End Sweep.

(** ** The order of the listing *)

Lemma ready_sorted db items :
  StronglySorted (λ a b, ready_leb db a b = true) (sort_by (ready_leb db) items).
Proof.
  apply Sorted_StronglySorted.
  - intros a b c. apply str_leb_trans.
  - apply sort_by_sorted. intros a b. apply str_leb_total.
Qed.

Definition is_blocked (t : ReadyTask) : Prop := 0 < r_blocking_gap_count t.

Lemma ready_leb_blocked db a b :
  ready_leb db a b = true → is_blocked (ready_row db a) → is_blocked (ready_row db b).
Proof.
  unfold ready_leb, ready_key, is_blocked. cbn [app str_leb r_blocking_gap_count ready_row].
  intros H Ha. destruct (Z.ltb_spec 0 (blocking_gaps db (i_id a))); [|lia].
  destruct (Z.ltb_spec 0 (blocking_gaps db (i_id b))); [done|].
  change (1 <? 0) with false in H. change (0 <? 1) with true in H. done.
Qed.

Lemma StronglySorted_map_filter {A B} (R : A → A → Prop) (S : B → B → Prop) (f : A → B) p l :
  (∀ a b, R a b → S (f a) (f b)) → StronglySorted R l →
  StronglySorted S (List.filter p (map f l)).
Proof.
  intros Hf. induction 1 as [|x l _ IH Hx]; [constructor|]. cbn. destruct (p (f x)); [|done].
  constructor; [done|]. apply Forall_forall. intros y Hy. apply elem_of_filter_bool in Hy as [Hy _].
  apply list_elem_of_In, in_map_iff in Hy as (z & <- & Hz%list_elem_of_In).
  apply Hf. by eapply Forall_forall.
Qed.

End ReadySpec.

(** * What the ready listing and a task's scope guarantee *)

Import JsonGrammar Effects Store Tasks Leases Ready LeaseHistory LeaseSpec ReadySpec LeaseProps.

#[local] Open Scope Z_scope.

Module ReadyProps.

(** ** The listing *)

(** The ready listing holds exactly the ready, live, local items that no lease holds
    once lapsed leases are closed, blocked ones last, or left out when the mode
    enforces. The sweep it runs first leaves no lapsed lease standing and closes only
    leases past their expiry, so a crashed holder never hides its task. *)
Theorem ready_lists_free_work reading mode db db' rows :
  exclusive db → runs reading (ready_tasks mode) db db' (Ok rows) →
  (∀ r, r ∈ rows ↔ ∃ i, i ∈ rows_of db ∧ ready_item i ∧ current db' (i_id i) = None
                        ∧ r = ready_row db i ∧ offered mode r = true)
  ∧ StronglySorted (λ a b, is_blocked a → is_blocked b) rows
  ∧ (∀ t l, current db' t = Some l → current db t = Some l ∧ standing reading l)
  ∧ (∀ t l, current db t = Some l → current db' t = None → ∃ now, reading now ∧ lapsed_at l now).
Proof.
  intros He Hr.
  pose proof (proj1 (wp_runs _ _ _ _) (wp_ready reading mode db He) db' _ Hr) as (Hs & He' & Hh & Hst & ->).
  split_and!.
  - intros r. rewrite elem_of_filter_bool, list_elem_of_In, in_map_iff. split.
    + intros [(i & <- & Hi) Ho]. apply list_elem_of_In in Hi. rewrite elem_of_sort_by, elem_of_filter_bool in Hi.
      destruct Hi as [Hi Hw%ready_where_iff]. destruct (history_tables db db' i Hh) as [Er Eb].
      rewrite Er in Hi. rewrite Eb in Ho |- *. exists i. naive_solver.
    + intros (i & Hi & Hri & Hc & -> & Ho). destruct (history_tables db db' i Hh) as [Er Eb].
      split; [|done]. exists i. split; [done|].
      apply list_elem_of_In. rewrite elem_of_sort_by, elem_of_filter_bool, Er. split; [done|].
      by apply ready_where_iff.
  - eapply StronglySorted_map_filter; [|apply ready_sorted]. intros a b. apply ready_leb_blocked.
  - intros t l Hl. split; [by eapply swept_stands|by eapply Hst].
  - intros t l Hl Hn. destruct (Hs t) as [E|(l' & Hl' & _ & Hx)]; [congruence|].
    rewrite Hl in Hl'. by simplify_eq.
Qed.

Lemma ready_lists_free_work_witness :
  StronglySorted (λ a b, is_blocked a → is_blocked b) [ready_row board board_item].
Proof.
  apply (ready_lists_free_work (eq 1000) Enforce board board); [apply board_exclusive|].
  apply (outcome_runs _ board 7). vm_compute. reflexivity.
Defined.

(** ** A task's scope *)

Lemma check_columns_ok t cs vs :
  check_columns t cs vs = Ok tt → length cs = length vs →
  ∀ v, v ∈ vs → ∃ xs, array_of (utf8_encode v) xs.
Proof.
  revert vs. induction cs as [|c cs IH]; intros [|v vs] Hc Hl; try done.
  { intros v Hv. by apply not_elem_of_nil in Hv. }
  cbn in Hc. destruct (Json.check_array v) as [[]|] eqn:E; [|done].
  intros x [->|Hx]%elem_of_cons; [by apply JsonProps.check_array_iff|].
  eapply IH; [done| |done]. by injection Hl.
Qed.

(** A task that reads has only JSON arrays in its reply, and each merged list is the
    planner's entries and then the appended ones, byte for byte: nothing stored can put
    another key in the reply. *)
Theorem task_reply_is_arrays reading db db' t T :
  runs reading (task t) db db' (Ok (Some T)) →
  db' = db
  ∧ (∃ i xs ys, i ∈ rows_of db ∧ local_where t i = true ∧ t_id T = i_id i
       ∧ array_of (utf8_encode (default empty_array (i_planned_files i))) xs
       ∧ array_of (utf8_encode (agent_appended_planned_files_json T)) ys
       ∧ array_of (utf8_encode (planned_files_json T)) (xs ++ ys))
  ∧ Forall (λ s, Json.check_array s = Ok tt)
      [planned_files_json T; allowed_commands_json T; expected_tests_json T;
       forbidden_changes_json T; agent_appended_planned_files_json T; requirement_ids_json T;
       acceptance_criterion_ids_json T].
Proof.
  revert db db'. assert (∀ db, wp reading (task t) db (λ db' r,
    match r with
    | Ok (Some T) => db' = db ∧ ∃ i b, i ∈ rows_of db ∧ local_where t i = true
        ∧ T = task_of i (scope_columns i (append_row db (i_id i))) b
        ∧ check_columns t COLUMNS (scope_columns i (append_row db (i_id i))) = Ok tt
    | _ => True
    end)) as Hwp.
  { intros db. unfold task, items_present. rewrite wp_let, wp_query. split; [|done].
    case_if; [done|]. unfold task_stmt. rewrite wp_let, wp_query. split; [|done].
    destruct (List.filter _ _) as [|i rest] eqn:E; [done|]. cbn [head fmap option_fmap option_map].
    rewrite wp_let. cbn [wp]. destruct (check_columns _ _ _) as [[]|] eqn:Ec; [|done].
    cbn [wp ok]. split; [done|]. exists i, (blocking_gaps db (i_id i)).
    assert (i ∈ List.filter (local_where t) (rows_of db)) as Hi by (rewrite E; by left).
    apply elem_of_filter_bool in Hi as [? ?]. by split_and!. }
  intros db db' Hr. pose proof (proj1 (wp_runs _ _ _ _) (Hwp db) db' _ Hr) as (-> & i & b & Hi & Hw & -> & Hc).
  set (a := append_row db (i_id i)) in *.
  pose proof (check_columns_ok t COLUMNS (scope_columns i a) Hc eq_refl) as Hcol.
  assert (∀ n, (n < 9)%nat → ∃ xs, array_of (utf8_encode (column (scope_columns i a) n)) xs) as Hn.
  { intros n Hn. apply Hcol. unfold column. apply list_elem_of_In, nth_In. exact Hn. }
  assert (∀ m n, (m < 9)%nat → (n < 9)%nat → Json.check_array
    (Json.merge_json_arrays (column (scope_columns i a) m) (column (scope_columns i a) n)) = Ok tt) as Hm.
  { intros m n Hlm Hln. destruct (Hn m Hlm) as [xs ?], (Hn n Hln) as [ys ?].
    apply JsonProps.check_array_iff. exists (xs ++ ys). by apply JsonMerge.merge_arrays. }
  split_and!; [done| |].
  - destruct (Hn 0%nat) as [xs Hxs]; [lia|]. destruct (Hn 1%nat) as [ys Hys]; [lia|].
    exists i, xs, ys. split_and!; try done. by apply JsonMerge.merge_arrays.
  - repeat constructor; try (apply Hm; lia); apply JsonProps.check_array_iff; apply Hn; lia.
Qed.

Definition board_task : Task := task_of board_item (scope_columns board_item None) 0.

Lemma task_reply_is_arrays_witness :
  Forall (λ s, Json.check_array s = Ok tt)
      [planned_files_json board_task; allowed_commands_json board_task; expected_tests_json board_task;
       forbidden_changes_json board_task; agent_appended_planned_files_json board_task;
       requirement_ids_json board_task; acceptance_criterion_ids_json board_task].
Proof.
  apply (task_reply_is_arrays (eq 1000) board board (lit "t1") board_task).
  apply (outcome_runs _ board 7). vm_compute. reflexivity.
Defined.

(** ** Widening *)

(** The appended files of a task, as stored. *)
Definition planned_of (db : Db) (t : str) : str :=
  default empty_array (s_planned_files <$> append_row db t).

Definition append_keys (db : Db) : Prop := NoDup (s_task_id <$> appends db).

Lemma append_row_other (f : ScopeRow → ScopeRow) rows t :
  (∀ s, s_task_id (f s) = s_task_id s) → (∀ s, s_task_id s = t → f s = s) →
  head (List.filter (λ s, bool_decide (s_task_id s = t)) (map f rows))
  = head (List.filter (λ s, bool_decide (s_task_id s = t)) rows).
Proof.
  intros Hid Hf. induction rows as [|s rows IH]; [done|]. cbn [map List.filter]. rewrite Hid.
  case_bool_decide as Ht; [|done]. cbn. by rewrite Hf.
Qed.

(** The row the swap compares with is there, and reads as before. *)
Lemma ensure_row db t :
  append_keys db →
  let db1 := (ensure_append_row t db).1 in
  append_keys db1 ∧ (∀ t', planned_of db1 t' = planned_of db t')
  ∧ (∃ s, append_row db1 t = Some s ∧ s ∈ appends db1 ∧ s_task_id s = t) ∧ leases db1 = leases db.
Proof.
  intros Hk. unfold ensure_append_row. destruct (existsb _ _) eqn:E; cbn.
  - split_and!; try done. apply existsb_exists in E as (s & Hs & Ht%bool_decide_eq_true).
    unfold append_row. destruct (List.filter _ (appends db)) as [|s' rest] eqn:Ef.
    + assert (s ∈ List.filter (λ s, bool_decide (s_task_id s = t)) (appends db)) as H
        by (apply elem_of_filter_bool; rewrite list_elem_of_In; by rewrite bool_decide_eq_true).
      rewrite Ef in H. by apply not_elem_of_nil in H.
    + assert (s' ∈ List.filter (λ s, bool_decide (s_task_id s = t)) (appends db)) as H
        by (rewrite Ef; by left).
      apply elem_of_filter_bool in H as [? ?%bool_decide_eq_true]. by exists s'.
  - rewrite existsb_false in E.
    assert (List.filter (λ s, bool_decide (s_task_id s = t)) (appends db) = []) as Hnone
      by (by apply filter_false).
    split_and!.
    + unfold append_keys in *. cbn. rewrite fmap_app. apply NoDup_app. split_and!; [done| |by apply NoDup_singleton].
      intros x (s & -> & Hs)%list_elem_of_fmap Hx. cbn in Hx. apply list_elem_of_singleton in Hx.
      specialize (E s Hs). by apply bool_decide_eq_false in E.
    + intros t'. unfold planned_of, append_row. cbn. rewrite List.filter_app. cbn [List.filter].
      destruct (decide (t' = t)) as [->|Hne].
      * rewrite Hnone. cbn. by rewrite bool_decide_eq_true_2.
      * cbn. rewrite bool_decide_eq_false_2 by congruence. by rewrite app_nil_r.
    + unfold append_row. cbn. rewrite List.filter_app, Hnone. cbn.
      rewrite bool_decide_eq_true_2 by done. eexists. split_and!; [done| |done].
      apply elem_of_app. right. by apply list_elem_of_singleton.
    + done.
Qed.

Lemma swap_row db t s expected replacement :
  append_keys db → append_row db t = Some s → s ∈ appends db → s_task_id s = t →
  let (db', n) := swap_stmt t expected replacement db in
  (∀ t', t' ≠ t → planned_of db' t' = planned_of db t')
  ∧ if bool_decide (Json.trim_ws (s_planned_files s) = expected)
    then n = Ok 1%nat ∧ planned_of db' t = replacement
    else n = Ok 0%nat ∧ planned_of db' t = planned_of db t.
Proof.
  intros Hk Hr Hs Ht. unfold swap_stmt. set (f := λ x, if swap_where _ _ x then _ else x).
  assert (∀ x, s_task_id (f x) = s_task_id x) as Hid by (intros x; unfold f; by case_if).
  assert (∀ x, x ∈ appends db → s_task_id x = t → x = s) as Hone.
  { intros x Hx Hxt. apply list_elem_of_lookup in Hx as [i Hx], Hs as [j Hj].
    assert (i = j) as ->; [|congruence]. eapply NoDup_lookup; [exact Hk|..];
      rewrite list_lookup_fmap, ?Hx, ?Hj; cbn; by rewrite ?Hxt, ?Ht. }
  split.
  - intros t' Hne. unfold planned_of, append_row. cbn. rewrite append_row_other; [done|done|].
    intros x Hx. unfold f, swap_where. rewrite bool_decide_eq_false_2 by congruence. done.
  - case_bool_decide as He.
    + assert (swap_where t expected s = true) as Hw
        by (unfold swap_where; by rewrite !bool_decide_eq_true_2).
      assert (∀ x, x ∈ appends db → f x = if bool_decide (s_task_id x = t) then set_planned replacement x else x) as Hf.
      { intros x Hx. unfold f. case_bool_decide as Hxt; [by rewrite (Hone x), Hw|].
        unfold swap_where. by rewrite bool_decide_eq_false_2. }
      split.
      * assert (List.filter (swap_where t expected) (appends db)
                = List.filter (λ x, bool_decide (s_task_id x = t)) (appends db)) as ->.
        { clear -Hone Hw Ht. induction (appends db) as [|x rows IH]; [done|]. cbn [List.filter].
          rewrite IH by (intros y Hy; apply Hone; by right).
          case_bool_decide as Hxt; [by rewrite (Hone x), Hw by (by left || done)|].
          unfold swap_where. by rewrite bool_decide_eq_false_2. }
        f_equal. clear -Hk Hs Ht Hone. unfold append_keys in Hk.
        assert (∀ rows : list ScopeRow, NoDup (s_task_id <$> rows) → s ∈ rows →
          length (List.filter (λ x, bool_decide (s_task_id x = t)) rows) = 1%nat) as H; [|by apply H].
        induction rows as [|x rows IH]; intros Hnd Hin; [by apply not_elem_of_nil in Hin|].
        cbn in Hnd. apply NoDup_cons in Hnd as [Hx Hnd]. cbn [List.filter].
        apply elem_of_cons in Hin as [<-|Hin].
        -- rewrite bool_decide_eq_true_2 by done. cbn. f_equal.
           rewrite filter_false; [done|]. intros y Hy. apply bool_decide_eq_false. intros Hyt.
           apply Hx. rewrite Ht, <- Hyt. by apply list_elem_of_fmap_2.
        -- rewrite bool_decide_eq_false_2; [by apply IH|]. intros Hxt. apply Hx.
           rewrite Hxt, <- Ht. by apply list_elem_of_fmap_2.
      * unfold planned_of, append_row in *. cbn.
        assert (∀ rows : list ScopeRow, (∀ x, x ∈ rows → x ∈ appends db) →
          head (List.filter (λ x, bool_decide (s_task_id x = t)) rows) = Some s →
          head (List.filter (λ x, bool_decide (s_task_id x = t)) (map f rows))
          = Some (set_planned replacement s)) as H; [|by rewrite (H (appends db))].
        induction rows as [|x rows IH]; intros Hsub Hh; [done|]. cbn [map List.filter] in *.
        rewrite Hid. rewrite Hf in * by (apply Hsub; by left).
        destruct (bool_decide (s_task_id x = t)) eqn:Ex.
        -- cbn in *. simplify_eq. done.
        -- apply IH; [|done]. intros y Hy. apply Hsub. by right.
    + assert (∀ x, x ∈ appends db → swap_where t expected x = false) as Hno.
      { intros x Hx. apply not_true_iff_false. unfold swap_where.
        rewrite andb_true_iff, !bool_decide_eq_true. intros [Hxt Hxe]. apply He. by rewrite <- (Hone x). }
      split; [by rewrite filter_false|]. unfold planned_of, append_row. cbn.
      assert (map f (appends db) = appends db) as ->; [|done].
      rewrite <- map_id. apply map_ext_in. intros x Hx%list_elem_of_In. unfold f. by rewrite Hno.
Qed.

Lemma diagnose_appends reading t tok db db' code :
  diagnose_spec reading t tok db db' (Ok code) → appends db' = appends db.
Proof.
  destruct code; cbn; try (by intros [-> _]);
    intros [[[-> _]|(l & _ & now & now' & _ & _ & _ & ->)] _]; done.
Qed.

Lemma planned_of_appends db db' t : appends db' = appends db → planned_of db' t = planned_of db t.
Proof. intros H. unfold planned_of, append_row. by rewrite H. Qed.

(** What a widening's answer says of the store it was asked of and the one it leaves. *)
Definition widen_spec (reading : Z → Prop) (t tok expected replacement : str) (db db' : Db)
    (r : result ScopeWrite StoreError) : Prop :=
  match r with
  | Ok Written =>
      (∃ l, held_by db t tok l ∧ seen_live reading l)
      ∧ Json.trim_ws (planned_of db t) = expected ∧ planned_of db' t = replacement
      ∧ ∀ t', t' ≠ t → planned_of db' t' = planned_of db t'
  | Ok (Stale now_there) =>
      now_there = planned_of db t ∧ Json.trim_ws now_there ≠ expected
      ∧ (∃ xs, array_of (utf8_encode now_there) xs)
      ∧ ∀ t', planned_of db' t' = planned_of db t'
  | Ok _ => ∀ t', planned_of db' t' = planned_of db t'
  | Err _ => True
  end.

Lemma wp_swap reading t tok expected replacement db :
  exclusive db → append_keys db →
  wp reading (swap_agent_appended t tok expected replacement) db
    (widen_spec reading t tok expected replacement db).
Proof.
  intros He Hk. unfold swap_agent_appended. rewrite wp_let.
  assert (wp reading (is_local_item t) db (λ db' _, db' = db)) as Hloc.
  { unfold is_local_item, items_present. rewrite wp_let, wp_query. split; [|done].
    case_if; [done|]. by rewrite wp_query. }
  eapply wp_mono; [exact Hloc|]. intros ? [[]|e] ->; [|done|done]. cbn [negb]. rewrite wp_let.
  eapply wp_mono; [by apply wp_diagnose|]. intros db1 [code|e] Hd; [|done].
  pose proof (diagnose_appends _ _ _ _ _ _ Hd) as Hap.
  case_bool_decide as Hcode; cbn [negb]; [subst code; cbn in Hd; destruct Hd as [-> Hheld]|].
  2:{ cbn. intros t'. by apply planned_of_appends. }
  rewrite wp_let, wp_sql. split; [|done].
  pose proof (ensure_row db t Hk) as H. cbv zeta in H.
  destruct (ensure_append_row t db) as [db1 r1] eqn:Er. cbn [fst snd] in *.
  assert (r1 = Ok tt) as -> by (unfold ensure_append_row in Er; case_if_in Er; by simplify_eq).
  destruct H as (Hk1 & Hpl & (s & Hrow & Hs & Ht) & Hl).
  pose proof (swap_row db1 t s expected replacement Hk1 Hrow Hs Ht) as Hsw.
  rewrite wp_let, wp_sql. split; [|done].
  destruct (swap_stmt t expected replacement db1) as [db2 n] eqn:Esw. cbn [fst snd] in *.
  destruct Hsw as [Hother Hsw].
  assert (planned_of db1 t = s_planned_files s) as Hps by (unfold planned_of; by rewrite Hrow).
  case_bool_decide as Htrim; destruct Hsw as [-> Hnew].
  - cbn. split_and!; [by destruct Hheld as (l & ? & ?); exists l|by rewrite <- Hpl, Hps|done|].
    intros t' Hne. by rewrite Hother, Hpl.
  - cbn match. change (0 =? 0)%nat with true. cbn match. rewrite wp_let, wp_sql. split; [|done].
    assert (∀ t', planned_of db2 t' = planned_of db t') as Hsame.
    { intros t'. destruct (decide (t' = t)) as [->|]; [by rewrite Hnew|by rewrite Hother]. }
    unfold current_stmt. cbn [fst snd].
    assert (∃ s2, append_row db2 t = Some s2) as [s2 Hs2].
    { unfold swap_stmt in Esw. apply (f_equal fst) in Esw. cbn in Esw. subst db2.
      unfold append_row in *. cbn.
      clear -Hrow. induction (appends db1) as [|x rows IH]; [done|]. cbn [map List.filter] in *.
      assert (s_task_id (if swap_where t expected x then set_planned replacement x else x) = s_task_id x)
        as -> by (by case_if).
      case_bool_decide; [by eexists|by apply IH]. }
    rewrite Hs2. assert (s_planned_files s2 = planned_of db t) as ->.
    { rewrite <- Hsame. unfold planned_of. by rewrite Hs2. }
    destruct (Json.check_array (planned_of db t)) as [[]|] eqn:Ec; [|done].
    cbn. split_and!; [done| |by apply JsonProps.check_array_iff|done].
    by rewrite <- Hpl, Hps.
Qed.

(** A widening is written only for the token of the task's live lease and only over the
    value its caller read; what is written is a checked list of planned files within the
    size limit, and no other task's scope moves. Every other answer leaves all appended
    scopes as they were, and an error leaves the whole store so. *)
Theorem widening_is_compare_and_swap reading db db' t tok expected replacement r :
  exclusive db → append_keys db →
  runs reading (set_agent_appended_planned_files t tok expected replacement) db db' r →
  match r with
  | Ok w =>
      widen_spec reading t tok (Json.trim_ws expected) (Json.trim_ws replacement) db db' (Ok w)
      ∧ Json.check_planned_files (Json.trim_ws replacement) = Ok tt
      ∧ Z.of_nat (length (utf8_encode (Json.trim_ws replacement))) ≤ MAX_AGENT_APPENDED_SCOPE_BYTES
  | Err _ => db' = db
  end.
Proof.
  intros He Hk. revert db' r. apply wp_runs. unfold set_agent_appended_planned_files. cbv zeta.
  rewrite wp_let. cbn [wp]. unfold check_replacement. cbv zeta.
  destruct (Z.ltb_spec MAX_AGENT_APPENDED_SCOPE_BYTES
    (Z.of_nat (length (utf8_encode (Json.trim_ws replacement))))); [done|].
  destruct (Json.check_planned_files _) as [[]|] eqn:Ep; [|done].
  rewrite wp_txn. split; [|done]. eapply wp_mono; [by apply wp_swap|].
  intros db1 [w|e] Hw; [|done]. by split_and!.
Qed.

Lemma widening_is_compare_and_swap_witness :
  planned_of leased (lit "t1") = empty_array
  ∧ widen_spec (eq 1000) (lit "t1") ann (lit "[]") (lit "[{}]") leased
      (db_after (set_agent_appended_planned_files (lit "t1") ann (lit " []") (lit "[{}] ")) (at_1000 leased 9))
      (Ok Written).
Proof.
  split; [vm_compute; reflexivity|].
  apply (widening_is_compare_and_swap (eq 1000) leased
    (db_after (set_agent_appended_planned_files (lit "t1") ann (lit " []") (lit "[{}] ")) (at_1000 leased 9))
    (lit "t1") ann (lit " []") (lit "[{}] ") (Ok Written)).
  - apply leased_exclusive.
  - constructor.
  - apply (outcome_runs _ leased 9). vm_compute. reflexivity.
Defined.

End ReadyProps.
