(* ===== verification/Regress.v ===== *)
(** * dc-regress: its data, the graph it asks and the lines it counts

    [rust/dc-regress/src/lib.rs], and the [LineIndex] of
    [rust/devmap-extract/src/model.rs] that turns byte offsets into lines. The code
    graph is a trait, and here a class: its methods are functions, and what a
    theorem needs of them it says. *)

From S2P Require Import Prelude RustStr.

#[local] Open Scope Z_scope.

Module Regress.

(** ** Formatting *)

(** An em dash, which some messages hold. *)
Definition dash : str := [8212].
Definition tick : str := lit "`".

(** [fmt_acc] again for an index or a width. *)
Definition fmt_n (n : nat) : str := fmt_u (Z.of_nat n).

(** ** The basis of a set of offsets *)

Inductive BlobIdentity : Type :=
  | Blob (oid : str)
  | Worktree (digest : str)
  | Unknown
  | Unreadable (reason : str).

#[export] Instance BlobIdentity_eq_dec : EqDecision BlobIdentity.
Proof. solve_decision. Defined.

Definition comparable_with (self other : BlobIdentity) : bool :=
  match self, other with
  | Blob a, Blob b => bool_decide (a = b)
  | Blob blob, Worktree digest | Worktree digest, Blob blob => bool_decide (blob = digest)
  | Worktree _, Worktree _ => false
  | Unknown, _ | Unreadable _, _ | _, Unknown | _, Unreadable _ => false
  end.

Definition describe_basis (b : BlobIdentity) : str :=
  match b with
  | Blob oid => lit "blob " ++ oid
  | Worktree digest => lit "worktree digest " ++ digest
  | Unknown => lit "an unrecorded basis"
  | Unreadable reason => lit "an unreadable basis (" ++ reason ++ lit ")"
  end.

(** ** What could not be done *)

Inductive Unavailable : Type :=
  | GraphEmpty (reason : str)
  | SymptomNotFound (symptom : str)
  | GitUnavailable (reason : str)
  | BlameRefused (path reason : str)
  | WindowCapped (considered cap : nat)
  | FilesCapped (blamed in_cone cap : nat)
  | BlobMismatch (path spans_taken_against lines_built_from : str)
  | ConeIncomplete (depth : Z) (reached : nat)
  | ChangeUnreadable (reason : str)
  | ChangeUnattributed (ranges : nat) (lines : Z)
  | ChangedFilesCapped (considered cap : nat)
  | SeedsCapped (seeded touched cap : nat)
  | ImpactIncomplete (depth : Z) (reached : nat)
  | AffectedTestsIncomplete (found : nat)
  | OwnersUnavailable (reason : str)
  | BudgetExhausted (reason : str) (completed total : nat).

(** [Unavailable::describe]. *)
Definition describe_unavailable (u : Unavailable) : str :=
  match u with
  | GraphEmpty reason => lit "the code graph answered nothing: " ++ reason
  | SymptomNotFound symptom => tick ++ symptom ++ lit "` matched no symbol in the graph"
  | GitUnavailable reason => lit "git could not be run: " ++ reason
  | BlameRefused path reason => lit "blame refused for " ++ path ++ lit ": " ++ reason
  | WindowCapped considered cap =>
      lit "the commit window hit its cap: " ++ fmt_n considered ++ lit " commits considered, cap "
        ++ fmt_n cap
  | FilesCapped blamed in_cone cap =>
      lit "the cone spans " ++ fmt_n in_cone ++ lit " file(s) but only " ++ fmt_n blamed
        ++ lit " were blamed (cap " ++ fmt_n cap ++ lit "); narrow the symptom to examine the rest"
  | BlobMismatch path taken built =>
      path ++ lit ": spans were taken against " ++ taken ++ lit " but the lines came from " ++ built
        ++ lit ", so no line can be attributed to a symbol"
  | ConeIncomplete depth reached =>
      lit "the cone walk stopped at depth " ++ fmt_u depth ++ lit " having reached " ++ fmt_n reached
        ++ lit " symbols; the suspect list is a lower bound"
  | ChangeUnreadable reason => lit "the change could not be read: " ++ reason
  | ChangeUnattributed ranges lines =>
      fmt_u lines ++ lit " changed line(s) in " ++ fmt_n ranges
        ++ lit " range(s) landed in no symbol the graph declares " ++ dash
        ++ lit " module-level code has no inbound edges to walk, so the impact below is a lower bound"
  | ChangedFilesCapped considered cap =>
      lit "the change spans more than " ++ fmt_n cap ++ lit " files (" ++ fmt_n considered
        ++ lit " seen); only the first " ++ fmt_n cap ++ lit " were read"
  | SeedsCapped seeded touched cap =>
      lit "the change touched " ++ fmt_n touched ++ lit " symbol(s) but only the " ++ fmt_n seeded
        ++ lit " most-changed seeded the walk (cap " ++ fmt_n cap
        ++ lit "); narrow the revision range to cover the rest"
  | ImpactIncomplete depth reached =>
      lit "the inbound walk stopped at depth " ++ fmt_u depth ++ lit " having reached "
        ++ fmt_n reached ++ lit " symbols; the impacted set is a lower bound"
  | AffectedTestsIncomplete found =>
      lit "the affected-test walk was trimmed at " ++ fmt_n found
        ++ lit " test file(s); the test list is a lower bound"
  | OwnersUnavailable reason =>
      lit "owners of the changed paths could not be fully read: " ++ reason
  | BudgetExhausted reason completed total =>
      reason ++ lit ", after " ++ fmt_n completed ++ lit " of " ++ fmt_n total
        ++ lit " unit(s) of work; everything past that point was not examined, so the report is a lower bound"
  end.

(** ** The graph *)

Record GraphSymbol := {
  qualified_name : str;
  file_path : str;
  span_start : Z;
  span_end : Z;
  body_exact : option Z;
}.

Record ConeEntry := { ce_name : str; ce_file : str; ce_distance : Z }.

Record AffectedTestFile := { at_path : str; at_distance : Z }.

(** The trait's methods but [blob_reader], which only saves reads. The boolean beside a
    walk is true when a cap stopped it. *)
Class CodeGraph := {
  symbols_in : str → list GraphSymbol * BlobIdentity;
  cone : str → Z → list ConeEntry * bool;
  impacted : list str → Z → list ConeEntry * bool;
  affected_tests : list str → Z → list AffectedTestFile * bool;
  resolve_symptom : str → list str;
  body_changed : str → str → option bool;
}.

(** ** Lines *)

(** [Iterator::enumerate] and the filter that keeps the newlines. *)
Fixpoint newlines_from (at_ : Z) (bytes : list Z) : list Z :=
  match bytes with
  | [] => []
  | b :: r => if b =? nl then at_ :: newlines_from (at_ + 1) r else newlines_from (at_ + 1) r
  end.

Record LineIndex := { li_len : Z; newlines : list Z }.

Definition line_index (source : str) : LineIndex :=
  {| li_len := str_len source; newlines := newlines_from 0 (utf8_encode source) |}.

(** [slice::partition_point], on a slice that is partitioned. *)
Fixpoint partition_point {A} (p : A → bool) (l : list A) : nat :=
  match l with
  | x :: l' => if p x then S (partition_point p l') else O
  | [] => O
  end.

Definition line_at (ix : LineIndex) (offset : Z) : Z :=
  let offset := Z.min offset (li_len ix) in
  Z.min (sat_add usize_max (Z.of_nat (partition_point (λ at_, at_ <? offset) (newlines ix))) 1)
    u32_max.

Definition line_range (ix : LineIndex) (start_byte end_byte : Z) : Z * Z :=
  (line_at ix start_byte, line_at ix end_byte).

(** The lines of a symbol, as [attribute] and [place_file] both take them: a span that
    ends before it starts is the one line it starts on. *)
Definition symbol_lines (ix : LineIndex) (s : GraphSymbol) : Z * Z :=
  let (start, end_) := line_range ix (span_start s) (span_end s) in
  if end_ <? start then (start, start) else (start, end_).

End Regress.
