(* ===== verification/GitReads.v ===== *)
(** * dc-regress: reading a repository through git

    [history.rs], [blob.rs] and [budget.rs] of [rust/dc-regress/src]. A machine is the
    class [Machine]: the world that commands and clocks are read from, threaded through
    every call. Starting a process and waiting for it are its operations; how their
    answers are judged is modelled. *)

From S2P Require Import Prelude RustStr Regress.
Import Regress.

#[local] Open Scope Z_scope.

Module GitReads.

(** ** The standard library's debug forms *)

(** [char::escape_debug] leaves a printable character alone; which ones beyond ASCII are
    printable is a Unicode table. *)
Class DebugTable := { printable_beyond_ascii : char → bool }.

Definition hex_digit (n : Z) : char := if n <? 10 then 48 + n else 87 + n.

Fixpoint hex_acc (fuel : nat) (n : Z) (acc : str) : str :=
  match fuel with
  | O => acc
  | S f =>
      let acc' := hex_digit (n mod 16) :: acc in
      if n / 16 =? 0 then acc' else hex_acc f (n / 16) acc'
  end.

Definition debug_char `{DebugTable} (c : char) : str :=
  if c =? 0 then [92; 48]
  else if c =? 9 then [92; 116]
  else if c =? cr then [92; 114]
  else if c =? nl then [92; 110]
  else if (c =? 92) || (c =? 34) then [92; c]
  else if (if c <? 128 then in_range 32 126 c else printable_beyond_ascii c) then [c]
  else [92; 117; 123] ++ hex_acc 6 c [] ++ [125].

(** [{s:?}]. *)
Definition debug_str `{DebugTable} (s : str) : str := [34] ++ flat_map debug_char s ++ [34].

(** A duration in nanoseconds, and [{d:?}] of it. *)
Abbreviation Duration := Z (only parsing).

Definition from_secs (n : Z) : Duration := n * 1000000000.

Definition with_unit (whole part divisor : Z) (width : nat) (unit : str) : str :=
  let digits := trim_end_by (Z.eqb (chr "0")) (pad0 width (fmt_u (part / divisor))) in
  fmt_u whole ++ (if bool_decide (digits = []) then [] else lit "." ++ digits) ++ unit.

Definition debug_duration (d : Duration) : str :=
  if 1000000000 <=? d then with_unit (d / 1000000000) (d mod 1000000000) 1 9 (lit "s")
  else if 1000000 <=? d then with_unit (d / 1000000) (d mod 1000000) 1 6 (lit "ms")
  else if 1000 <=? d then with_unit (d / 1000) (d mod 1000) 1 3 ([181] ++ lit "s")
  else fmt_u d ++ lit "ns".

(** ** The machine *)

(** [dc_proc::Captured], its exit status as the text and the verdict it gives. *)
Record Captured := {
  stdout : list Z;
  stdout_truncated : bool;
  status_success : bool;
  status_text : str;
  stderr : list Z;
}.

Definition stdout_lossy (c : Captured) : str := utf8_lossy (stdout c).
Definition stderr_trimmed (c : Captured) : str := trim (utf8_lossy (stderr c)).

(** [dc_proc::Failure]: the one kind its callers tell apart, and the text of the rest. *)
Inductive Failure : Type :=
  | FailDeadline (text : str)
  | FailOther (text : str).

Definition failure_text (f : Failure) : str :=
  match f with FailDeadline t | FailOther t => t end.

Record Bounds := { bd_deadline : Duration; stdout_cap : Z; stderr_cap : Z }.

(** What one [cat-file] process answers to the line it was sent. *)
Inductive Record_ : Type :=
  | Missing
  | Ambiguous
  | Object (oid kind : str) (size : Z) (body : option (list Z)).

Inductive Heard : Type :=
  | Said (r : Record_)
  | SaidUnreadably (message : str)
  | NotSent (error : str)
  | Silent
  | Disconnected.

Class Machine := {
  World : Type;
  Command : Type;
  (** [dc_proc::git_with_program] and [run_bounded]. *)
  git_with_program : str → str → list str → World → World * result Command Failure;
  run_bounded : Command → Bounds → World → World * result Captured Failure;
  (** A [cat-file] process: starting it, and one request with its answer. *)
  lane_start : str → str → bool → World → World * result unit Failure;
  lane_ask : bool → str → World → World * Heard;
  (** [Instant::now], and a caller's cancel hook. *)
  now : World → World * Z;
  cancelled : World → World * bool;
}.

(** ** Budgets *)

Inductive Exhausted : Type :=
  | ExDeadline (limit : Duration)
  | ExCancelled.

Definition describe_exhausted (e : Exhausted) : str :=
  match e with
  | ExDeadline limit =>
      lit "the analysis exceeded its " ++ debug_duration limit ++ lit " deadline"
  | ExCancelled => lit "the analysis was cancelled by its caller"
  end.

Record Budget := { limit : Duration; deadline : Z; hooked : bool }.

(** ** Refusals of a history read *)

Definition HISTORY_DEADLINE : Duration := from_secs 15.
Definition COMMIT_CAP : nat := Z.to_nat 2000.
Definition LOG_OUTPUT_CAP : Z := 4 * 1024 * 1024.
Definition CONTENT_CAP : Z := 8 * 1024 * 1024.

Inductive HistoryRefusal : Type :=
  | HGitUnavailable (reason : str)
  | HDeadline (what : str)
  | HOutputCapped (what : str) (cap : Z)
  | HGitRefused (what stderr : str)
  | HNotText (path : str)
  | HRevisionRefused (rev reason : str).

Definition describe_history `{DebugTable} (r : HistoryRefusal) : str :=
  match r with
  | HGitUnavailable reason => lit "git could not be run: " ++ reason
  | HDeadline what => what ++ lit " exceeded " ++ debug_duration HISTORY_DEADLINE ++ lit " and was killed"
  | HOutputCapped what cap =>
      what ++ lit " produced more than " ++ fmt_u cap
        ++ lit " bytes and was refused rather than truncated"
  | HGitRefused what stderr =>
      if bool_decide (stderr = []) then what ++ lit " was refused by git"
      else what ++ lit " was refused by git: " ++ stderr
  | HNotText path => path ++ lit " is not UTF-8 text, so it has no lines to attribute"
  | HRevisionRefused rev reason =>
      lit "the revision " ++ debug_str rev ++ lit " was refused: " ++ reason
  end.

(** A full object id: 40 hexadecimal digits, or 64. *)
Definition is_full_oid (rev : str) : bool :=
  ((str_len rev =? 40) || (str_len rev =? 64)) && forallb is_ascii_hexdigit (utf8_encode rev).

Definition no_commit : str := lit "an empty revision names no commit".
Definition an_option : str :=
  lit "it begins with '-', so git would read it as an option rather than a revision".

Record CommitWindow := { commits : list str; capped : bool }.

Record ResolvedBlob := { content : str; identity : BlobIdentity }.

(** ** Reads *)

Section Reads.
Context `{DebugTable} `{Machine}.

(** A call reads the world and leaves the next one. *)
Abbreviation io A := (World → World * A).

(** [Budget::check]: the caller's cancel comes before the deadline. *)
Definition budget_check (b : Budget) (w : World) : World * result unit Exhausted :=
  let (w, stop) := if hooked b then cancelled w else (w, false) in
  if stop then (w, Err ExCancelled)
  else
    let (w, t) := now w in
    (w, if deadline b <=? t then Err (ExDeadline (limit b)) else Ok tt).

(** [Budget::remaining]. *)
Definition budget_remaining (b : Budget) (w : World) : World * Duration :=
  let (w, t) := now w in (w, Z.max 0 (deadline b - t)).

(** A capped read is refused before its status is looked at. *)
Definition run_git_with_deadline (program repo : str) (args : list str) (what : str) (cap : Z)
    (deadline : Duration) (w : World) : World * result Captured HistoryRefusal :=
  let (w, r) := git_with_program program repo args w in
  match r with
  | Err failure => (w, Err (HGitUnavailable (failure_text failure)))
  | Ok command =>
      let bounds := {| bd_deadline := deadline; stdout_cap := cap; stderr_cap := 8 * 1024 |} in
      let (w, r) := run_bounded command bounds w in
      (w, match r with
          | Err (FailDeadline _) => Err (HDeadline what)
          | Err failure => Err (HGitUnavailable (failure_text failure))
          | Ok captured =>
              if stdout_truncated captured then Err (HOutputCapped what cap)
              else if negb (status_success captured) then Err (HGitRefused what (stderr_trimmed captured))
              else Ok captured
          end)
  end.

Definition run_git (program repo : str) (args : list str) (what : str) (cap : Z)
    : io (result Captured HistoryRefusal) :=
  run_git_with_deadline program repo args what cap HISTORY_DEADLINE.

Definition rev_parse_args (rev : str) : list str :=
  [lit "rev-parse"; lit "--verify"; lit "--quiet"; lit "--end-of-options"; rev ++ lit "^{commit}"].

Definition commit_oid (program repo rev : str) (w : World) : World * result str HistoryRefusal :=
  let refuse reason := HRevisionRefused rev reason in
  if bool_decide (rev = []) then (w, Err (refuse no_commit))
  else if starts_with (lit "-") rev then (w, Err (refuse an_option))
  else if is_full_oid rev then (w, Ok (ascii_lowercase rev))
  else
    let (w, r) :=
      run_git program repo (rev_parse_args rev) (lit "git rev-parse --verify") (4 * 1024) w in
    (w, match r with
        | Err (HGitRefused _ _) => Err (refuse (lit "git does not resolve it to a commit"))
        | Err other => Err other
        | Ok captured =>
            let oid := trim (stdout_lossy captured) in
            if negb (is_full_oid oid)
            then Err (refuse (lit "git rev-parse answered " ++ debug_str oid
                               ++ lit ", which is not an object id"))
            else Ok oid
        end).

(** [?] on a call: the rest runs unless this one refused. *)
Definition and_then {A B E} (p : io (result A E)) (k : A → io (result B E)) : io (result B E) :=
  λ w, let (w, r) := p w in
       match r with Ok a => k a w | Err e => (w, Err e) end.

Definition log_args (range : str) : list str :=
  [lit "log"; lit "--max-count=" ++ fmt_n (COMMIT_CAP + 1); lit "--format=%H"; lit "--no-merges"; range].

Definition non_empty_trimmed (ls : list str) : list str :=
  List.filter (λ line, negb (bool_decide (line = []))) (map trim ls).

Definition commit_window (program repo since until : str) : io (result CommitWindow HistoryRefusal) :=
  and_then (commit_oid program repo since) (λ since,
  and_then (commit_oid program repo until) (λ until,
  and_then (run_git program repo (log_args (since ++ lit ".." ++ until)) (lit "git log") LOG_OUTPUT_CAP)
    (λ captured w,
      let cs := non_empty_trimmed (lines (stdout_lossy captured)) in
      (w, Ok {| commits := take COMMIT_CAP cs; capped := (COMMIT_CAP <? length cs)%nat |})))).

Definition show_args (commit : str) : list str :=
  [lit "show"; lit "--name-only"; lit "--format="; lit "--no-renames"; lit "-z"; commit].

Definition files_changed (program repo commit : str) : io (result (list str) HistoryRefusal) :=
  and_then (commit_oid program repo commit) (λ commit,
  and_then (run_git program repo (show_args commit) (lit "git show --name-only") LOG_OUTPUT_CAP)
    (λ captured w, (w, Ok (non_empty_trimmed (split_on (Z.eqb 0) (stdout_lossy captured)))))).

(** [change.rs]: the commits a commit has above it. *)
Definition parent_count (program repo commit : str) : io (result nat HistoryRefusal) :=
  and_then (commit_oid program repo commit) (λ commit,
  and_then (run_git program repo [lit "rev-list"; lit "--parents"; lit "--max-count=1"; commit]
              (lit "git rev-list --parents") (8 * 1024))
    (λ captured w, (w, Ok (length (split_whitespace (stdout_lossy captured)) - 1)%nat))).

End Reads.
End GitReads.
