(* ===== verification/Change.v ===== *)
(** * dc-regress: what a change touched ([rust/dc-regress/src/change.rs])

    The hunk reader, the two listings of one diff and their pairing, and the location
    parser. Lines are one-based and ranges hold both ends, as in the source. *)

From S2P Require Import Prelude RustStr Order Regress GitReads.
Import Order Regress GitReads.

#[local] Open Scope Z_scope.

Module Change.

Definition DIFF_OUTPUT_CAP : Z := LOG_OUTPUT_CAP.
Definition MAX_CHANGED_FILES : nat := Z.to_nat 1000.

Inductive ChangeRefusal : Type :=
  | CGit (reason : str)
  | MergeCommit (commit : str) (parents : nat)
  | QuotedPath (raw : str)
  | CombinedDiff
  | UnparsableHunk (header : str)
  | DiffTooLarge (cap : Z).

Definition quoted (s : str) : str := [34] ++ s ++ [34].

Definition describe_change (r : ChangeRefusal) : str :=
  match r with
  | CGit reason => reason
  | MergeCommit commit parents =>
      commit ++ lit " is a merge with " ++ fmt_n parents ++ lit " parents; a merge has no single "
        ++ quoted (lit "what changed")
        ++ lit ", and diffing it against its first parent would attribute the whole merged branch to it "
        ++ dash ++ lit " ask about the branch's own commits instead"
  | QuotedPath raw =>
      lit "git reported the path " ++ raw
        ++ lit " in quoted form, so its real bytes are not recoverable here; this change cannot be mapped to an indexed path"
  | CombinedDiff =>
      lit "the diff is a combined (merge) diff, whose hunk headers carry one range per parent; reading them as two-way ranges would produce line numbers belonging to no revision"
  | UnparsableHunk header => lit "a hunk header could not be read: " ++ header
  | DiffTooLarge cap =>
      lit "the diff between these revisions is larger than " ++ fmt_u cap
        ++ lit " bytes and was refused rather than truncated " ++ dash
        ++ lit " a prefix of a diff is a change set missing exactly the files it did not reach. Ask about a narrower range; a range this wide would in any case seed the walk from a trimmed symbol set, so it buys a less precise answer rather than a fuller one"
  end.

Record ChangedRange := { r_start : Z; r_end : Z; deletion_only : bool }.

Inductive ChangeStatus : Type :=
  | Modified
  | Added
  | Deleted
  | Binary
  | UnreadableFile (reason : str).

Record FileChange := {
  fc_path : str;
  renamed_from : option str;
  status : ChangeStatus;
  ranges : list ChangedRange;
}.

Record ChangeSet := { files : list FileChange; cs_capped : bool }.

(** [end - start + 1], subtracted at 64 bits and not below zero. *)
Definition range_lines (first last : Z) : Z := Z.max 0 (last - first) + 1.

Definition sum_lines (l : list (Z * Z)) : Z := foldl (λ acc e, acc + range_lines e.1 e.2) 0 l.

(** [ChangeSet::touched_lines]. *)
Definition touched_lines (c : ChangeSet) : Z :=
  sum_lines (map (λ r, (r_start r, r_end r)) (flat_map ranges (files c))).

(** [ChangeSet::at]. *)
Definition change_at (path : str) (first last : Z) : ChangeSet :=
  {| files := [{| fc_path := path; renamed_from := None; status := Modified;
                  ranges := [{| r_start := first; r_end := last; deletion_only := false |}] |}];
     cs_capped := false |}.

(** ** Locations *)

Definition no_location : str := lit "a location needs a path, optionally followed by `:start-end`".
Definition no_line_zero : str := lit "line numbers are one-based; there is no line 0".
Definition no_path : str := lit "a location needs a path before the line range".
Definition not_a_line (field : str) : str :=
  tick ++ field
    ++ lit "` is not a line number; a location is `path`, `path:line` or `path:start-end`".
Definition backwards (first last : Z) : str :=
  lit "the range " ++ fmt_u first ++ lit "-" ++ fmt_u last
    ++ lit " runs backwards; a range that ends before it starts names no lines".

Definition parse_line (field : str) : result Z str :=
  let? value := ok_or (parse_u32 (trim field)) (not_a_line field) in
  if value =? 0 then Err no_line_zero else Ok value.

Definition parse_location (at_ : str) : result (str * Z * Z) str :=
  let at_ := trim at_ in
  if bool_decide (at_ = []) then Err no_location
  else
    match rsplit_once (chr ":") at_ with
    | None => Ok (at_, 1, u32_max)
    | Some (path, range) =>
        let? (first, last) :=
          match split_once (chr "-") range with
          | Some (first, last) =>
              let? first := parse_line first in let? last := parse_line last in Ok (first, last)
          | None => let? line := parse_line range in Ok (line, line)
          end in
        if last <? first then Err (backwards first last)
        else if bool_decide (path = []) then Err no_path
        else Ok (path, first, last)
    end.

(** ** The patch *)

(** A name of a header: the path, [None] for [/dev/null], or the text git quoted. *)
Abbreviation Side := (result (option str) str).

Definition side (rest : str) : Side :=
  let rest := default rest (strip_suffix [9] rest) in
  if bool_decide (rest = lit "/dev/null") then Ok None
  else if starts_with [34] rest then Err rest
  else
    let path :=
      match strip_prefix (lit "a/") rest with
      | Some p => p
      | None => default rest (strip_prefix (lit "b/") rest)
      end in
    if bool_decide (path = []) then Ok None else Ok (Some path).

(** The first field after a plus sign. *)
Fixpoint plus_field (fields : list str) : option str :=
  match fields with
  | [] => None
  | f :: fs => match strip_prefix (lit "+") f with Some p => Some p | None => plus_field fs end
  end.

Definition until_marker (body : str) : str :=
  match find_split (lit " @@") body with Some (b, _) => b | None => body end.

(** The range a post-image start and count name. *)
Definition hunk_range (start count : Z) : ChangedRange :=
  if count =? 0 then
    {| r_start := Z.max start 1; r_end := Z.max (sat_add u32_max start 1) 1; deletion_only := true |}
  else
    let first := Z.max start 1 in
    {| r_start := first; r_end := sat_add u32_max first (Z.max 0 (count - 1)); deletion_only := false |}.

Definition parse_hunk (header : str) : result ChangedRange ChangeRefusal :=
  let unparsable := UnparsableHunk header in
  let? body := ok_or (strip_prefix (lit "@@ ") header) unparsable in
  let? post := ok_or (plus_field (split_whitespace (until_marker body))) unparsable in
  let (start, count) := default (post, lit "1") (split_once (chr ",") post) in
  let? start := ok_or (parse_u32 start) unparsable in
  let? count := ok_or (parse_u32 count) unparsable in
  Ok (hunk_range start count).

Record Block := {
  pre : option Side;
  post : option Side;
  binary : bool;
  b_ranges : list ChangedRange;
}.

Definition empty_block : Block := {| pre := None; post := None; binary := false; b_ranges := [] |}.

(** The loop of [scan_blocks]: the blocks before the last, the last one, and whether its
    hunks have begun. *)
Record Scan := { closed : list Block; open : option Block; in_hunks : bool }.

Definition start_scan : Scan := {| closed := []; open := None; in_hunks := false |}.

Definition all_blocks (st : Scan) : list Block := closed st ++ option_list (open st).

Definition in_block (b : Block) (hunks : bool) (st : Scan) : Scan :=
  {| closed := closed st; open := Some b; in_hunks := hunks |}.

Definition is_binary_line (raw : str) : bool :=
  starts_with (lit "Binary files ") raw || starts_with (lit "GIT binary patch") raw.

Definition set_pre (s : Side) (b : Block) : Block :=
  {| pre := Some s; post := post b; binary := binary b; b_ranges := b_ranges b |}.
Definition set_post (s : Side) (b : Block) : Block :=
  {| pre := pre b; post := Some s; binary := binary b; b_ranges := b_ranges b |}.
Definition set_binary (b : Block) : Block :=
  {| pre := pre b; post := post b; binary := true; b_ranges := [] |}.
Definition add_range (r : ChangedRange) (b : Block) : Block :=
  {| pre := pre b; post := post b; binary := binary b; b_ranges := b_ranges b ++ [r] |}.

(** The tail of the loop's body: a hunk header, or content. *)
Definition hunk_line (raw : str) (b : Block) (st : Scan) : result Scan ChangeRefusal :=
  if starts_with (lit "@@ ") raw then
    let? r := parse_hunk raw in Ok (in_block (add_range r b) true st)
  else Ok st.

Definition header_line (raw : str) (b : Block) (st : Scan) : result Scan ChangeRefusal :=
  match strip_prefix (lit "--- ") raw with
  | Some rest => Ok (in_block (set_pre (side rest) b) false st)
  | None =>
      match strip_prefix (lit "+++ ") raw with
      | Some rest => Ok (in_block (set_post (side rest) b) false st)
      | None => hunk_line raw b st
      end
  end.

Definition scan_line (raw : str) (st : Scan) : result Scan ChangeRefusal :=
  if starts_with (lit "@@@") raw then Err CombinedDiff
  else if starts_with (lit "diff --git ") raw
  then Ok {| closed := all_blocks st; open := Some empty_block; in_hunks := false |}
  else
    match open st with
    | None => Ok st
    | Some b =>
        if in_hunks st then hunk_line raw b st
        else if is_binary_line raw then Ok (in_block (set_binary b) true st)
        else header_line raw b st
    end.

Fixpoint scan_loop (ls : list str) (st : Scan) : result Scan ChangeRefusal :=
  match ls with
  | [] => Ok st
  | raw :: ls' => let? st := scan_line raw st in scan_loop ls' st
  end.

Definition scan_blocks (diff : str) : result (list Block) ChangeRefusal :=
  let? st := scan_loop (lines diff) start_scan in Ok (all_blocks st).

(** ** Ranges *)

Definition range_leb : ChangedRange → ChangedRange → bool := asc r_start (by_int r_end).

(** The loop of [merge_ranges]; [last] is the range [merged] ends with. *)
Fixpoint merge_from (last : ChangedRange) (l : list ChangedRange) : list ChangedRange :=
  match l with
  | [] => [last]
  | r :: l' =>
      if r_start r <=? sat_add u32_max (r_end last) 1
      then merge_from {| r_start := r_start last; r_end := Z.max (r_end last) (r_end r);
                         deletion_only := deletion_only last && deletion_only r |} l'
      else last :: merge_from r l'
  end.

Definition merge_ranges (l : list ChangedRange) : list ChangedRange :=
  if (length l <? 2)%nat then l
  else match sort_by range_leb l with [] => [] | r :: l' => merge_from r l' end.

Definition has_lines (s : ChangeStatus) : bool :=
  match s with Modified | Added => true | _ => false end.

Definition file_change (path : str) (renamed_from : option str) (s : ChangeStatus) (b : Block) : FileChange :=
  let s := match s with Deleted => Deleted | _ => if binary b then Binary else s end in
  {| fc_path := path; renamed_from := renamed_from; status := s;
     ranges := if has_lines s then b_ranges b else [] |}.

Definition merge_file (f : FileChange) : FileChange :=
  {| fc_path := fc_path f; renamed_from := renamed_from f; status := status f;
     ranges := merge_ranges (ranges f) |}.

Definition finish (fs : list FileChange) : ChangeSet :=
  {| files := take MAX_CHANGED_FILES (map merge_file fs);
     cs_capped := (MAX_CHANGED_FILES <? length fs)%nat |}.

Definition named (s : Side) : result (option str) ChangeRefusal :=
  match s with Ok p => Ok p | Err raw => Err (QuotedPath raw) end.

(** [parse_diff]: one block, named by its own headers. *)
Definition diff_file (b : Block) : result (list FileChange) ChangeRefusal :=
  match pre b, post b with
  | Some before, Some after =>
      let? before := named before in
      let? after := named after in
      let '(path, from, s) :=
        match after with
        | None => (default [] before, None, Deleted)
        | Some path =>
            (path,
             match before with
             | Some p => if bool_decide (p = path) then None else Some p
             | None => None
             end,
             match before with None => Added | Some _ => Modified end)
        end in
      Ok (if bool_decide (path = []) then [] else [file_change path from s b])
  | _, _ => Ok []
  end.

Fixpoint diff_files (bs : list Block) : result (list FileChange) ChangeRefusal :=
  match bs with
  | [] => Ok []
  | b :: bs' => let? fs := diff_file b in let? rest := diff_files bs' in Ok (fs ++ rest)
  end.

Definition parse_diff (diff : str) : result ChangeSet ChangeRefusal :=
  let? bs := scan_blocks diff in
  let? fs := diff_files bs in
  Ok (finish fs).

(** ** The raw listing *)

Record RawEntry := { re_status : Z; re_old : list Z; re_new : option (list Z) }.

Definition raw_unreadable (what : string) : ChangeRefusal :=
  CGit (lit "git diff --raw -z output could not be read: " ++ lit what).

Definition raw_status (meta : list Z) : option Z :=
  let! field := last (split_on (Z.eqb 32) meta) in head field.

Definition has_second (s : Z) : bool := (s =? chr "R") || (s =? chr "C").

Fixpoint raw_entries (fields : list (list Z)) : result (list RawEntry) ChangeRefusal :=
  match fields with
  | [] => Ok []
  | [] :: fields' => raw_entries fields'
  | ((b :: _) as meta) :: fields' =>
      if negb (b =? chr ":") then Err (raw_unreadable "an entry without a metadata field")
      else
        match raw_status meta with
        | None => Err (raw_unreadable "an entry without a status")
        | Some s =>
            match fields' with
            | [] => Err (raw_unreadable "an entry without a path")
            | old :: fields'' =>
                if has_second s then
                  match fields'' with
                  | [] => Err (raw_unreadable "a rename without its second path")
                  | new :: fields''' =>
                      let? es := raw_entries fields''' in
                      Ok ({| re_status := s; re_old := old; re_new := Some new |} :: es)
                  end
                else
                  let? es := raw_entries fields'' in
                  Ok ({| re_status := s; re_old := old; re_new := None |} :: es)
            end
        end
  end.

Definition parse_raw (raw : list Z) : result (list RawEntry) ChangeRefusal :=
  raw_entries (split_on (Z.eqb 0) raw).

(** ** The two together *)

Section Pairing.
Context `{DebugTable}.

Definition lost (why : str) : ChangeRefusal :=
  CGit (lit "the raw and patch forms of the diff do not line up: " ++ why).

Definition is_type_change (e : RawEntry) : bool := re_status e =? chr "T".

Definition expected_blocks (es : list RawEntry) : nat :=
  sum_list_with (λ e, if is_type_change e then 2%nat else 1%nat) es.

(** A header that states a path states one of the entry's. *)
Definition check_header (e : RawEntry) (header : option Side) : result unit ChangeRefusal :=
  match header with
  | Some (Ok (Some stated)) =>
      if existsb (λ name, bool_decide (name = utf8_encode stated)) (re_old e :: option_list (re_new e))
      then Ok tt
      else Err (lost (lit "a patch header names " ++ debug_str stated
                        ++ lit ", which is none of this entry's paths"))
  | _ => Ok tt
  end.

Definition not_utf8 : str := lit "the path is not valid UTF-8, so it cannot name an indexed file".

Definition status_of (s : Z) : ChangeStatus :=
  if s =? chr "A" then Added else if s =? chr "D" then Deleted else Modified.

Definition entry_file (e : RawEntry) (b : Block) : FileChange :=
  let after := default (re_old e) (re_new e) in
  match from_utf8 after with
  | None =>
      {| fc_path := utf8_lossy after; renamed_from := None; status := UnreadableFile not_utf8; ranges := [] |}
  | Some path =>
      let from :=
        let! _ := re_new e in
        let! old := from_utf8 (re_old e) in
        if bool_decide (old = path) then None else Some old in
      file_change path from (status_of (re_status e)) b
  end.

(** The loop over the entries, each taking its block; a type change takes two and keeps
    the second. *)
Fixpoint pair_entries (es : list RawEntry) (bs : list Block) : result (list FileChange) ChangeRefusal :=
  match es with
  | [] => Ok []
  | e :: es' =>
      let b := default empty_block (head bs) in
      let bs' := tail bs in
      let (b, bs') :=
        if is_type_change e then (default empty_block (head bs'), tail bs') else (b, bs') in
      let? _ := check_header e (pre b) in
      let? _ := check_header e (post b) in
      let? fs := pair_entries es' bs' in
      Ok (entry_file e b :: fs)
  end.

Definition parse_changes (raw : list Z) (patch : str) : result ChangeSet ChangeRefusal :=
  let? es := parse_raw raw in
  let? bs := scan_blocks patch in
  if negb (expected_blocks es =? length bs)%nat
  then Err (lost (fmt_n (length es) ++ lit " raw entries expect " ++ fmt_n (expected_blocks es)
                    ++ lit " patch blocks, the patch has " ++ fmt_n (length bs)))
  else
    let? fs := pair_entries es bs in
    Ok (finish fs).

(** ** Running the diff *)

Context `{Machine}.

Definition DIFF_SHAPE : list str :=
  map lit ["--no-color"; "--src-prefix=a/"; "--dst-prefix=b/"; "--find-renames"]%string.

Definition raw_args (since until : str) : list str :=
  map lit ["diff"; "--raw"; "-z"]%string ++ DIFF_SHAPE ++ [since; until].
Definition patch_args (since until : str) : list str :=
  map lit ["-c"; "core.quotePath=false"; "diff"; "--unified=0"]%string ++ DIFF_SHAPE ++ [since; until].

Definition git_refusal (r : HistoryRefusal) : ChangeRefusal := CGit (describe_history r).

(** An error mapped as [map_err] maps it. *)
Definition map_err {A E F} (f : E → F) (p : World → World * result A E) (w : World) : World * result A F :=
  let (w, r) := p w in (w, match r with Ok a => Ok a | Err e => Err (f e) end).

Definition read_refusal (r : HistoryRefusal) : ChangeRefusal :=
  match r with
  | HOutputCapped _ cap => DiffTooLarge cap
  | other => git_refusal other
  end.

Definition read_diff (program repo : str) (args : list str) (what : str)
    : World → World * result Captured ChangeRefusal :=
  map_err read_refusal (run_git program repo args what DIFF_OUTPUT_CAP).

Definition changes_between (program repo since until : str) : World → World * result ChangeSet ChangeRefusal :=
  and_then (map_err git_refusal (commit_oid program repo since)) (λ since,
  and_then (map_err git_refusal (commit_oid program repo until)) (λ until,
  and_then (read_diff program repo (raw_args since until) (lit "git diff --raw")) (λ raw,
  and_then (read_diff program repo (patch_args since until) (lit "git diff")) (λ patch w,
    (w, parse_changes (stdout raw) (stdout_lossy patch)))))).

End Pairing.
End Change.
