(* ===== verification/RegressFacts.v ===== *)
(** * Offsets, lines and bases *)

From S2P Require Import Prelude RustStr RustStrFacts Regress Order GitReads Change.
Import Regress.

#[local] Open Scope Z_scope.

Module RegressFacts.

(** ** Lines *)

(** The newlines of some bytes. *)
Definition newline_count (bs : list Z) : Z := Z.of_nat (length (List.filter (Z.eqb nl) bs)).

Lemma newlines_above a bs at_ : at_ ∈ newlines_from a bs → a ≤ at_.
Proof.
  revert a. induction bs as [|b bs IH]; intros a; cbn [newlines_from]; [by intros ?%elem_of_nil|].
  destruct (b =? nl); [intros [->|H]%elem_of_cons; [lia|]|intros H]; apply IH in H; lia.
Qed.

Lemma partition_none {A} (p : A → bool) l : (∀ x, x ∈ l → p x = false) → partition_point p l = O.
Proof. destruct l as [|x l]; intros H; [done|]. cbn. by rewrite H by (by left). Qed.

Lemma partition_newlines a bs off :
  a ≤ off →
  Z.of_nat (partition_point (λ at_, at_ <? off) (newlines_from a bs))
  = newline_count (take (Z.to_nat (off - a)) bs).
Proof.
  revert a. induction bs as [|b bs IH]; intros a Ha; [by rewrite take_nil|].
  destruct (decide (a = off)) as [->|Hne].
  { rewrite Z.sub_diag. rewrite partition_none; [done|].
    intros x Hx%newlines_above. apply Z.ltb_ge. done. }
  replace (Z.to_nat (off - a)) with (S (Z.to_nat (off - (a + 1)))) by lia.
  cbn [newlines_from take]. unfold newline_count. cbn [List.filter].
  rewrite (Z.eqb_sym nl b). destruct (b =? nl).
  - cbn [partition_point]. rewrite (proj2 (Z.ltb_lt a off)) by lia. cbn [length].
    rewrite !Nat2Z.inj_succ, IH by lia. done.
  - rewrite IH by lia. done.
Qed.

(** The line of an offset: one, and the newlines before it or before the end. *)
Lemma line_at_counts s off :
  0 ≤ off → str_len s < usize_max →
  line_at (line_index s) off
  = Z.min (newline_count (take (Z.to_nat off) (utf8_encode s)) + 1) u32_max.
Proof.
  intros Hoff Hlen. pose proof (str_len_nonneg s). pose proof (utf8_encode_length s) as Hl.
  unfold line_at, line_index. cbn [li_len newlines]. rewrite partition_newlines by lia.
  rewrite Z.sub_0_r. unfold sat_add.
  assert (Ht : take (Z.to_nat (Z.min off (str_len s))) (utf8_encode s)
               = take (Z.to_nat off) (utf8_encode s)).
  { destruct (Z.min_spec off (str_len s)) as [[_ ->]|[? ->]]; [done|].
    rewrite !take_ge; [done|lia..]. }
  rewrite Ht. assert (newline_count (take (Z.to_nat off) (utf8_encode s)) <= str_len s).
  { rewrite <- Hl. unfold newline_count. apply Nat2Z.inj_le.
    etrans; [apply List.filter_length_le|]. rewrite length_take. lia. }
  lia.
Qed.

Lemma line_at_bounds ix off : 1 ≤ line_at ix off ≤ u32_max.
Proof. unfold line_at, sat_add, u32_max, usize_max, u64_max. lia. Qed.

Lemma partition_mono {A} (p q : A → bool) l :
  (∀ x, p x = true → q x = true) → (partition_point p l ≤ partition_point q l)%nat.
Proof.
  intros H. induction l as [|x l IH]; cbn; [done|]. destruct (p x) eqn:E; [|lia].
  rewrite (H _ E). lia.
Qed.

Lemma line_at_mono ix a b : a ≤ b → line_at ix a ≤ line_at ix b.
Proof.
  intros H. unfold line_at, sat_add.
  assert ((partition_point (λ at_, (at_ <? Z.min a (li_len ix))%Z) (newlines ix)
           ≤ partition_point (λ at_, (at_ <? Z.min b (li_len ix))%Z) (newlines ix))%nat).
  { apply partition_mono. intros x ?%Z.ltb_lt. apply Z.ltb_lt. lia. }
  lia.
Qed.

(** A symbol's lines are a range, whatever its span. *)
Lemma symbol_lines_range ix s start end_ :
  symbol_lines ix s = (start, end_) → 1 ≤ start ≤ end_ ∧ end_ ≤ u32_max.
Proof.
  unfold symbol_lines, line_range.
  pose proof (line_at_bounds ix (span_start s)). pose proof (line_at_bounds ix (span_end s)).
  case_if; bool_to_prop; intros [= <- <-]; lia.
Qed.

(** ** Bases *)

Lemma comparable_sym a b : comparable_with a b = comparable_with b a.
Proof. destruct a, b; cbn; try done; apply bool_decide_ext; naive_solver. Qed.

(** The content an identity names, when it names one. *)
Definition content_id (b : BlobIdentity) : option str :=
  match b with Blob oid => Some oid | Worktree digest => Some digest | _ => None end.

Definition is_worktree (b : BlobIdentity) : bool :=
  match b with Worktree _ => true | _ => false end.

(** Comparable bases name one content, and are not two readings of a working tree. *)
Lemma comparable_iff a b :
  comparable_with a b = true
  ↔ ∃ id, content_id a = Some id ∧ content_id b = Some id ∧ is_worktree a && is_worktree b = false.
Proof.
  destruct a, b; cbn; rewrite ?bool_decide_eq_true; naive_solver.
Qed.

End RegressFacts.

(** * Ranges: how they are read and merged *)

Import Order Regress GitReads Change.

#[local] Open Scope Z_scope.

Module ChangeFacts.

(** ** Well-formed ranges *)

Definition range_ok (r : ChangedRange) : Prop := 1 ≤ r_start r ≤ r_end r ∧ r_end r ≤ u32_max.

Definition in_range (n : Z) (r : ChangedRange) : Prop := r_start r ≤ n ≤ r_end r.

(** The line is one of the lines of a list of ranges. *)
Definition covered (n : Z) (l : list ChangedRange) : Prop := ∃ r, r ∈ l ∧ in_range n r.

(** In file order, with at least one line between two ranges. *)
Definition apart (a b : ChangedRange) : Prop := r_end a + 1 < r_start b.
Definition separated (l : list ChangedRange) : Prop := StronglySorted apart l.

Lemma parse_u32_bounds s n : parse_u32 s = Some n → 0 ≤ n ≤ u32_max.
Proof.
  assert (Hd : ∀ max s acc n, 0 ≤ acc ≤ max → parse_digits max acc s = Some n → 0 ≤ n ≤ max).
  { intros max t. induction t as [|c t IH]; intros acc m Hacc; cbn [parse_digits]; [by intros [= <-]|].
    destruct (is_ascii_digit c) eqn:E; [|done]. apply is_ascii_digit_spec in E.
    destruct (Z.leb_spec (acc * 10 + (c - 48)) max); [|done]. apply IH. lia. }
  unfold parse_u32, parse_unsigned. destruct s as [|c r]; [done|].
  destruct (c =? 43); [destruct r; [done|]|]; by apply Hd.
Qed.

Lemma hunk_range_ok start count :
  0 ≤ start ≤ u32_max → 0 ≤ count ≤ u32_max → range_ok (hunk_range start count).
Proof.
  unfold hunk_range, range_ok, sat_add, u32_max. intros Hs Hc.
  destruct (Z.eqb_spec count 0); cbn [r_start r_end]; lia.
Qed.

Lemma parse_hunk_ok header r : parse_hunk header = Ok r → range_ok r.
Proof.
  unfold parse_hunk. destruct (strip_prefix _ header) as [body|]; [|done]. cbn [ok_or].
  destruct (plus_field _) as [post|]; [|done]. cbn [ok_or].
  destruct (default _ _) as [start count].
  destruct (parse_u32 start) as [s|] eqn:Es; [|done]. cbn [ok_or].
  destruct (parse_u32 count) as [c|] eqn:Ec; [|done]. cbn [ok_or].
  intros [= <-]. apply hunk_range_ok; by eapply parse_u32_bounds.
Qed.

(** ** Merging *)

#[export] Instance range_order : LebOrder range_leb (λ a b, r_start a = r_start b ∧ r_end a = r_end b).
Proof. apply _. Qed.

Lemma range_leb_start a b : range_leb a b = true → r_start a ≤ r_start b.
Proof. unfold range_leb, asc. destruct (Z.ltb_spec (r_start a) (r_start b)), (Z.ltb_spec (r_start b) (r_start a)); try done; lia. Qed.

(** What [merge_from] makes of ranges that start no earlier than the one it holds. *)
Definition merged_well (last : ChangedRange) (l out : list ChangedRange) : Prop :=
  Forall range_ok out ∧ separated out ∧ Forall (λ r, r_start last ≤ r_start r) out
  ∧ (∀ n, covered n out ↔ in_range n last ∨ covered n l).

Lemma covered_cons n r l : covered n (r :: l) ↔ in_range n r ∨ covered n l.
Proof. unfold covered. setoid_rewrite elem_of_cons. naive_solver. Qed.

Lemma merge_from_well l : ∀ last,
  range_ok last → Forall range_ok l → StronglySorted (λ a b, r_start a ≤ r_start b) (last :: l) →
  merged_well last l (merge_from last l).
Proof.
  induction l as [|r l IH]; intros last Hlast Hl Hs.
  { split_and!; [by constructor|by repeat constructor|by repeat constructor|].
    intros n. cbn. rewrite covered_cons. naive_solver. }
  inversion Hs as [|? ? Hsl Hle]; subst. inversion Hsl as [|? ? Hsr Hler]; subst.
  apply Forall_cons in Hl as [Hr Hl]. apply Forall_cons in Hle as [Hst Hll]. cbn [merge_from].
  destruct (Z.leb_spec (r_start r) (sat_add u32_max (r_end last) 1)) as [Htouch|Hapart].
  - destruct (IH {| r_start := r_start last; r_end := Z.max (r_end last) (r_end r);
                    deletion_only := deletion_only last && deletion_only r |})
      as (Hok & Hsep & Hge & Hcov); [unfold range_ok in *; cbn; lia|done|by constructor|].
    split_and!; [done|done|done|]. intros n. rewrite Hcov, covered_cons.
    unfold in_range, range_ok, sat_add in *. cbn. split; [|naive_solver lia].
    intros [Hn|?]; [|by auto]. destruct (decide (n ≤ r_end last)); [left; lia|right; left; lia].
  - destruct (IH r) as (Hok & Hsep & Hge & Hcov); [done..|]. split_and!.
    + by constructor.
    + constructor; [done|]. eapply Forall_impl; [exact Hge|]. unfold apart, range_ok, sat_add in *.
      intros b Hb. cbn in Hb. lia.
    + constructor; [lia|]. eapply Forall_impl; [exact Hge|]. cbn. lia.
    + intros n. rewrite !covered_cons, Hcov. naive_solver.
Qed.

Lemma sorted_starts l : StronglySorted (λ a b, r_start a ≤ r_start b) (sort_by range_leb l).
Proof.
  pose proof (sort_by_strongly range_leb _ l) as H. induction H as [|r l' _ IH Hr]; constructor; [done|].
  eapply Forall_impl; [exact Hr|]. intros b. apply range_leb_start.
Qed.

(** Merging keeps the lines and leaves gaps between the ranges. *)
Lemma merge_ranges_well l :
  Forall range_ok l →
  Forall range_ok (merge_ranges l) ∧ separated (merge_ranges l)
  ∧ ∀ n, covered n (merge_ranges l) ↔ covered n l.
Proof.
  intros Hl. unfold merge_ranges. destruct (Nat.ltb_spec (length l) 2) as [Hshort|_].
  { destruct l as [|a [|b l]]; [..|cbn in Hshort; lia]; (split_and!; [done|by repeat constructor|done]). }
  assert (Hcov : ∀ n, covered n (sort_by range_leb l) ↔ covered n l).
  { intros n. unfold covered. by setoid_rewrite elem_of_sort_by. }
  pose proof (sorted_starts l) as Hs. rewrite <- (Forall_sort_by range_leb) in Hl.
  destruct (sort_by range_leb l) as [|r l']; [split_and!; [done|constructor|done]|].
  apply Forall_cons in Hl as [Hr Hl']. destruct (merge_from_well l' r Hr Hl' Hs) as (? & ? & _ & Hm).
  split_and!; [done|done|]. intros n. by rewrite Hm, <- Hcov, covered_cons.
Qed.

(** Lines counted range by range are lines counted once. *)
Lemma separated_lines l :
  Forall range_ok l → separated l →
  NoDup (flat_map (λ r, seqZ (r_start r) (r_end r - r_start r + 1)) l)
  ∧ sum_lines (map (λ r, (r_start r, r_end r)) l)
    = Z.of_nat (length (flat_map (λ r, seqZ (r_start r) (r_end r - r_start r + 1)) l)).
Proof.
  intros Hok Hs. split.
  - induction Hs as [|r l Hs IH Hr]; [constructor|]. apply Forall_cons in Hok as [Hrok Hok].
    cbn [flat_map]. apply NoDup_app. split_and!; [apply NoDup_seqZ| |by apply IH].
    intros n Hn%elem_of_seqZ Hin. rewrite list_elem_of_In, in_flat_map in Hin.
    destruct Hin as (b & Hb%list_elem_of_In & Hnb%list_elem_of_In%elem_of_seqZ).
    rewrite Forall_forall in Hr. specialize (Hr b Hb). unfold apart in Hr. lia.
  - unfold sum_lines. assert (Hg : ∀ k acc, Forall range_ok k →
      foldl (λ acc e, acc + range_lines e.1 e.2) acc (map (λ r, (r_start r, r_end r)) k)
      = acc + Z.of_nat (length (flat_map (λ r, seqZ (r_start r) (r_end r - r_start r + 1)) k))).
    { clear. induction k as [|r k IH]; intros acc Hk; cbn [map foldl flat_map]; [cbn; lia|].
      apply Forall_cons in Hk as [Hr Hk]. rewrite IH by done. rewrite length_app, length_seqZ. cbn [fst snd].
      unfold range_lines, range_ok in *. lia. }
    by rewrite Hg.
Qed.

End ChangeFacts.
