(* ===== verification/Blobs.v ===== *)
(** * dc-regress: the reader of blobs ([rust/dc-regress/src/blob.rs])

    Two [cat-file] processes answer one line each; [read_answers] is the thread that
    reads their output, and [BlobReader] the memo in front of them, its state threaded. *)

From S2P Require Import Prelude RustStr Regress GitReads.
Import Regress GitReads.

#[local] Open Scope Z_scope.

Module Blobs.

Definition MEMO_CAP : nat := Z.to_nat 100000.
Definition HEADER_LIMIT : nat := Z.to_nat 65536.

(** ** The answers of a process *)

(** [read_until] behind [take]: the line, without its end, and what follows. *)
Fixpoint read_line (limit : nat) (bs : list Z) : option (list Z * list Z) :=
  match limit, bs with
  | O, _ | _, [] => None
  | S n, b :: r =>
      if b =? nl then Some ([], r)
      else let! (line, rest) := read_line n r in Some (b :: line, rest)
  end.

Definition parse_header (header : str) : option (str * str * Z) :=
  match split_on (Z.eqb 32) header with
  | oid :: kind :: size :: more =>
      if negb (bool_decide (more = [])) || negb ((str_len oid =? 40) || (str_len oid =? 64)) then None
      else if negb (forallb is_ascii_hexdigit (utf8_encode oid)) then None
      else let! size := parse_u64 size in Some (ascii_lowercase oid, kind, size)
  | _ => None
  end.

Definition short_read : str := lit "failed to fill whole buffer".

(** [read_exact]. *)
Definition read_exact (n : Z) (bs : list Z) : result (list Z * list Z) str :=
  if Z.of_nat (length bs) <? n then Err short_read
  else Ok (take (Z.to_nat n) bs, drop (Z.to_nat n) bs).

Definition read_body (with_content : bool) (oid kind : str) (size : Z) (bs : list Z)
    : result (Record_ * list Z) str :=
  if negb with_content then Ok (Object oid kind size None, bs)
  else
    let? (body, rest) :=
      if size <=? CONTENT_CAP then
        let? (body, rest) := read_exact size bs in Ok (Some body, rest)
      else if Z.of_nat (length bs) <? size then Err (lit "a body shorter than its header said")
      else Ok (None, drop (Z.to_nat size) bs) in
    let? (newline, rest) := read_exact 1 rest in
    if negb (bool_decide (newline = [nl])) then Err (lit "a body not followed by a newline")
    else Ok (Object oid kind size body, rest).

Section Answers.
Context `{DebugTable}.

Definition read_record (with_content : bool) (header : str) (rest : list Z)
    : result (Record_ * list Z) str :=
  if ends_with (lit " missing") header then Ok (Missing, rest)
  else if ends_with (lit " ambiguous") header then Ok (Ambiguous, rest)
  else match parse_header header with
       | Some (oid, kind, size) => read_body with_content oid kind size rest
       | None => Err (lit "unrecognised header " ++ debug_str header)
       end.

(** One turn of [read_answers]; [None] is the end of the output. *)
Definition read_answer (with_content : bool) (bs : list Z) : option (result (Record_ * list Z) str) :=
  match bs with
  | [] => None
  | _ =>
      Some (match read_line HEADER_LIMIT bs with
            | None => Err (lit "a header line without an end")
            | Some (line, rest) => read_record with_content (utf8_lossy line) rest
            end)
  end.

(** The thread: it stops after the first answer it cannot read. *)
Fixpoint read_answers_fuel (fuel : nat) (with_content : bool) (bs : list Z) : list (result Record_ str) :=
  match fuel with
  | O => []
  | S f =>
      match read_answer with_content bs with
      | None => []
      | Some (Err e) => [Err e]
      | Some (Ok (r, rest)) => Ok r :: read_answers_fuel f with_content rest
      end
  end.

Definition read_answers (with_content : bool) (bs : list Z) : list (result Record_ str) :=
  read_answers_fuel (S (length bs)) with_content bs.

End Answers.

(** ** The reader *)

(** A lane that stopped answering keeps the refusal it stopped with. *)
Record Lane := { broken : option HistoryRefusal }.

Record State := {
  st_commits : gmap str str;
  st_identities : gmap (str * str) (result str HistoryRefusal);
  st_check : option (result Lane HistoryRefusal);
  st_content : option (result Lane HistoryRefusal);
}.

Definition empty_state : State :=
  {| st_commits := ∅; st_identities := ∅; st_check := None; st_content := None |}.

Record BlobReader := { br_program : str; br_repo : str; br_state : State }.

Definition new_reader (program repo : str) : BlobReader :=
  {| br_program := program; br_repo := repo; br_state := empty_state |}.

Definition reads (r : BlobReader) (program repo : str) : bool :=
  bool_decide (br_program r = program) && bool_decide (br_repo r = repo).

Definition with_state (s : State) (r : BlobReader) : BlobReader :=
  {| br_program := br_program r; br_repo := br_repo r; br_state := s |}.

(** A full memo is forgotten before it takes another entry. *)
Definition memo_insert {K A} `{Countable K} (k : K) (a : A) (m : gmap K A) : gmap K A :=
  <[k := a]> (if (MEMO_CAP <=? size m)%nat then ∅ else m).

Definition remember (key : str * str) (answer : result str HistoryRefusal)
    (memo : gmap (str * str) (result str HistoryRefusal)) : gmap (str * str) (result str HistoryRefusal) :=
  match answer with
  | Ok _ | Err (HGitRefused _ _) => memo_insert key answer memo
  | Err _ => memo
  end.

Definition set_commits (m : gmap str str) (s : State) : State :=
  {| st_commits := m; st_identities := st_identities s; st_check := st_check s; st_content := st_content s |}.
Definition set_identities (m : gmap (str * str) (result str HistoryRefusal)) (s : State) : State :=
  {| st_commits := st_commits s; st_identities := m; st_check := st_check s; st_content := st_content s |}.
Definition lane_slot (with_content : bool) (s : State) : option (result Lane HistoryRefusal) :=
  if with_content then st_content s else st_check s.
Definition set_lane (with_content : bool) (l : result Lane HistoryRefusal) (s : State) : State :=
  if with_content
  then {| st_commits := st_commits s; st_identities := st_identities s;
          st_check := st_check s; st_content := Some l |}
  else {| st_commits := st_commits s; st_identities := st_identities s;
          st_check := Some l; st_content := st_content s |}.

Section Reader.
Context `{DebugTable} `{Machine}.

Definition cat_file : str := lit "git cat-file".

Definition request (commit path : str) : result str HistoryRefusal :=
  if existsb (λ c, (c =? nl) || (c =? 0)) path
  then Err (HGitRefused cat_file
              (lit "the path " ++ debug_str path
                ++ lit " contains a newline or NUL, which a one-line request cannot carry"))
  else Ok (commit ++ lit ":" ++ path).

(** [Lane::ask]: a lane that broke repeats its refusal and is not asked again. *)
Definition ask (with_content : bool) (spec : str) (lane : Lane) (w : World)
    : World * Lane * result Record_ HistoryRefusal :=
  match broken lane with
  | Some refusal => (w, lane, Err refusal)
  | None =>
      let break refusal := ({| broken := Some refusal |}, Err refusal) in
      let (w, heard) := lane_ask with_content spec w in
      let '(lane, r) :=
        match heard with
        | Said record => (lane, Ok record)
        | SaidUnreadably message =>
            break (HGitUnavailable (lit "git cat-file answered unreadably: " ++ message))
        | NotSent error =>
            break (HGitUnavailable (lit "git cat-file stopped accepting requests: " ++ error))
        | Silent => break (HDeadline cat_file)
        | Disconnected => break (HGitUnavailable (lit "git cat-file ended before answering"))
        end in
      (w, lane, r)
  end.

(** [lane_of]: started at the first request, and a start that failed is kept. *)
Definition lane_of (with_content : bool) (r : BlobReader) (w : World)
    : World * result Lane HistoryRefusal :=
  match lane_slot with_content (br_state r) with
  | Some l => (w, l)
  | None =>
      let (w, started) := lane_start (br_program r) (br_repo r) with_content w in
      (w, match started with
          | Ok _ => Ok {| broken := None |}
          | Err failure => Err (HGitUnavailable (failure_text failure))
          end)
  end.

Definition blob_of (answer : result Record_ HistoryRefusal) (rev path : str)
    : result (str * Z * option (list Z)) HistoryRefusal :=
  let? record := answer in
  match record with
  | Missing => Err (HGitRefused cat_file (lit "path " ++ debug_str path ++ lit " does not exist in " ++ rev))
  | Ambiguous => Err (HGitRefused cat_file (debug_str path ++ lit " at " ++ rev ++ lit " is ambiguous"))
  | Object oid kind size body =>
      if bool_decide (kind = lit "blob") then Ok (oid, size, body)
      else Err (HGitRefused cat_file (debug_str path ++ lit " at " ++ rev ++ lit " is a " ++ kind
                                        ++ lit ", not a file"))
  end.

(** [BlobReader::commit]. *)
Definition commit (rev : str) (r : BlobReader) (w : World) : World * BlobReader * result str HistoryRefusal :=
  let s := br_state r in
  match st_commits s !! rev with
  | Some known => (w, r, Ok known)
  | None =>
      let (w, answer) := commit_oid (br_program r) (br_repo r) rev w in
      match answer with
      | Err refusal => (w, r, Err refusal)
      | Ok oid => (w, with_state (set_commits (memo_insert rev oid (st_commits s)) s) r, Ok oid)
      end
  end.

(** A request through a lane, with the lane it leaves behind. *)
Definition ask_lane (with_content : bool) (spec : str) (r : BlobReader) (w : World)
    : World * BlobReader * result (result Record_ HistoryRefusal) HistoryRefusal :=
  let (w, slot) := lane_of with_content r w in
  match slot with
  | Err refusal => (w, with_state (set_lane with_content slot (br_state r)) r, Err refusal)
  | Ok lane =>
      let '(w, lane, answer) := ask with_content spec lane w in
      (w, with_state (set_lane with_content (Ok lane) (br_state r)) r, Ok answer)
  end.

Definition oid_of (blob : result (str * Z * option (list Z)) HistoryRefusal) : result str HistoryRefusal :=
  let? (oid, _, _) := blob in Ok oid.

Definition remember_in (key : str * str) (answer : result str HistoryRefusal) (r : BlobReader) : BlobReader :=
  with_state (set_identities (remember key answer (st_identities (br_state r))) (br_state r)) r.

(** [BlobReader::identity]. *)
Definition identity (rev path : str) (r : BlobReader) (w : World)
    : World * BlobReader * result BlobIdentity HistoryRefusal :=
  let '(w, r, c) := commit rev r w in
  match c with
  | Err refusal => (w, r, Err refusal)
  | Ok c =>
      match st_identities (br_state r) !! (c, path) with
      | Some known => (w, r, let? oid := known in Ok (Blob oid))
      | None =>
          match request c path with
          | Err refusal => (w, r, Err refusal)
          | Ok spec =>
              let '(w, r, asked) := ask_lane false spec r w in
              match asked with
              | Err refusal => (w, r, Err refusal)
              | Ok answer =>
                  let oid := oid_of (blob_of answer rev path) in
                  (w, remember_in (c, path) oid r, let? oid := oid in Ok (Blob oid))
              end
          end
      end
  end.

(** What [read] makes of a blob: its text, if the body was kept and is text. *)
Definition text_of (path : str) (blob : result (str * Z * option (list Z)) HistoryRefusal)
    : result ResolvedBlob HistoryRefusal :=
  let? (oid, size, body) := blob in
  match body with
  | None => Err (HOutputCapped (lit "git cat-file (" ++ fmt_u size ++ lit " bytes)") CONTENT_CAP)
  | Some body =>
      match from_utf8 body with
      | Some content => Ok {| content := content; GitReads.identity := Blob oid |}
      | None => Err (HNotText path)
      end
  end.

(** [BlobReader::read]. *)
Definition read (rev path : str) (r : BlobReader) (w : World)
    : World * BlobReader * result ResolvedBlob HistoryRefusal :=
  let '(w, r, c) := commit rev r w in
  match c with
  | Err refusal => (w, r, Err refusal)
  | Ok c =>
      match request c path with
      | Err refusal => (w, r, Err refusal)
      | Ok spec =>
          let '(w, r, asked) := ask_lane true spec r w in
          match asked with
          | Err refusal => (w, r, Err refusal)
          | Ok answer =>
              let blob := blob_of answer rev path in
              (w, remember_in (c, path) (oid_of blob) r, text_of path blob)
          end
      end
  end.

End Reader.
End Blobs.
