(* ===== verification/Blame.v ===== *)
(** * dc-regress: blame and its attribution to symbols

    [blame.rs] and [join.rs] of [rust/dc-regress/src]: the porcelain reader, the call that
    runs [git blame], and the tally of each symbol's lines by commit. *)

From S2P Require Import Prelude RustStr RustStrFacts Order Regress GitReads RegressFacts.
Import Order Regress GitReads.

#[local] Open Scope Z_scope.

Module Blame.

Definition BLAME_DEADLINE : Duration := from_secs 20.
Definition BLAME_OUTPUT_CAP : Z := 32 * 1024 * 1024.
Definition BLAME_STDERR_CAP : Z := 8 * 1024.

Definition is_uncommitted_oid (oid : str) : bool :=
  negb (bool_decide (oid = [])) && forallb (Z.eqb (chr "0")) oid.

Record BlameLine := {
  line_no : Z;
  bl_commit : str;
  author : str;
  author_mail : str;
  author_time : Z;
  uncommitted : bool;
}.

Inductive BlameRefusal : Type :=
  | BGitUnavailable (reason : str)
  | BDeadline
  | BOutputCapped (cap : Z)
  | BGitRefused (status stderr : str)
  | BUnparsable (detail : str)
  | BRevisionRefused (reason : str).

Definition describe_blame (r : BlameRefusal) : str :=
  match r with
  | BGitUnavailable reason => lit "git could not be run: " ++ reason
  | BDeadline => lit "git blame exceeded " ++ debug_duration BLAME_DEADLINE ++ lit " and was killed"
  | BOutputCapped cap =>
      lit "git blame produced more than " ++ fmt_u cap
        ++ lit " bytes; a prefix of a blame is not a blame, because the lines it omits are exactly the ones that would read as untouched"
  | BGitRefused status stderr =>
      if bool_decide (stderr = []) then lit "git blame exited " ++ status
      else lit "git blame exited " ++ status ++ lit ": " ++ stderr
  | BUnparsable detail => lit "git blame output could not be read: " ++ detail
  | BRevisionRefused reason => reason
  end.

Record FileBlame := { bf_path : str; bf_lines : list BlameLine; bf_basis : BlobIdentity }.

(** ** The porcelain reader *)

Definition header_oid (line : str) : option (str * str) :=
  let! (candidate, rest) := split_once 32 line in
  if negb ((str_len candidate =? 40) || (str_len candidate =? 64)) then None
  else if negb (forallb is_ascii_hexdigit candidate) then None
  else
    let! field := head (split_whitespace rest) in
    let! _ := parse_u32 field in
    Some (candidate, rest).

Abbreviation Known := (gmap str (str * str * Z)).

Record Porcelain := {
  pc_lines : list BlameLine;
  pc_known : Known;
  pc_oid : option str;
  pc_line_no : option Z;
  pc_author : str;
  pc_mail : str;
  pc_time : Z;
}.

Definition start_porcelain : Porcelain :=
  {| pc_lines := []; pc_known := ∅; pc_oid := None; pc_line_no := None;
     pc_author := []; pc_mail := []; pc_time := 0 |}.

(** A content line closes the block. *)
Definition close_block (st : Porcelain) : result Porcelain BlameRefusal :=
  let? oid := ok_or (pc_oid st)
    (BUnparsable (lit "a content line arrived before any commit header")) in
  let? n := ok_or (pc_line_no st)
    (BUnparsable (lit "commit " ++ oid ++ lit " carried no result line number")) in
  let known :=
    if negb (bool_decide (pc_author st = [])) || negb (pc_time st =? 0)
    then <[oid := (pc_author st, pc_mail st, pc_time st)]> (pc_known st)
    else pc_known st in
  let '(author, mail, time) := default ([], [], 0) (known !! oid) in
  let line := {| line_no := n; bl_commit := oid; author := author; author_mail := mail;
                 author_time := time; uncommitted := is_uncommitted_oid oid |} in
  Ok {| pc_lines := pc_lines st ++ [line]; pc_known := known; pc_oid := None; pc_line_no := None;
        pc_author := []; pc_mail := []; pc_time := 0 |}.

Definition set_author (a : str) (st : Porcelain) : Porcelain :=
  {| pc_lines := pc_lines st; pc_known := pc_known st; pc_oid := pc_oid st; pc_line_no := pc_line_no st;
     pc_author := a; pc_mail := pc_mail st; pc_time := pc_time st |}.
Definition set_mail (m : str) (st : Porcelain) : Porcelain :=
  {| pc_lines := pc_lines st; pc_known := pc_known st; pc_oid := pc_oid st; pc_line_no := pc_line_no st;
     pc_author := pc_author st; pc_mail := m; pc_time := pc_time st |}.
Definition set_time (t : Z) (st : Porcelain) : Porcelain :=
  {| pc_lines := pc_lines st; pc_known := pc_known st; pc_oid := pc_oid st; pc_line_no := pc_line_no st;
     pc_author := pc_author st; pc_mail := pc_mail st; pc_time := t |}.
Definition set_header (oid : str) (n : Z) (st : Porcelain) : Porcelain :=
  {| pc_lines := pc_lines st; pc_known := pc_known st; pc_oid := Some oid; pc_line_no := Some n;
     pc_author := pc_author st; pc_mail := pc_mail st; pc_time := pc_time st |}.

Definition angle (c : char) : bool := (c =? chr "<") || (c =? chr ">").

Definition porcelain_line (raw : str) (st : Porcelain) : result Porcelain BlameRefusal :=
  match strip_prefix [9] raw with
  | Some _ => close_block st
  | None =>
  match strip_prefix (lit "author ") raw with
  | Some value => Ok (set_author value st)
  | None =>
  match strip_prefix (lit "author-mail ") raw with
  | Some value => Ok (set_mail (trim_by angle value) st)
  | None =>
  match strip_prefix (lit "author-time ") raw with
  | Some value => Ok (set_time (default 0 (parse_i64 (trim value))) st)
  | None =>
  match header_oid raw with
  | Some (oid, rest) =>
      match (let! field := split_whitespace rest !! 1%nat in parse_u32 field) with
      | Some final_line => Ok (set_header oid final_line st)
      | None => Err (BUnparsable (lit "commit header for " ++ oid ++ lit " carried no final line number"))
      end
  | None => Ok st
  end end end end end.

Fixpoint porcelain_loop (ls : list str) (st : Porcelain) : result Porcelain BlameRefusal :=
  match ls with
  | [] => Ok st
  | raw :: ls' => let? st := porcelain_line raw st in porcelain_loop ls' st
  end.

Definition parse_porcelain (stdout : str) : result (list BlameLine) BlameRefusal :=
  let? st := porcelain_loop (lines stdout) start_porcelain in Ok (pc_lines st).

(** ** Running blame *)

Section Run.
Context `{DebugTable} `{Machine}.

Definition blame_args (rev path : str) : list str :=
  [lit "blame"; lit "--line-porcelain"; lit "-w"; lit "-M"; rev; lit "--"; path].

Definition blame_revision (r : HistoryRefusal) : BlameRefusal :=
  match r with
  | HRevisionRefused _ _ => BRevisionRefused (describe_history r)
  | HDeadline _ => BDeadline
  | other => BGitUnavailable (describe_history other)
  end.

Definition blame_bounds : Bounds :=
  {| bd_deadline := BLAME_DEADLINE; stdout_cap := BLAME_OUTPUT_CAP; stderr_cap := BLAME_STDERR_CAP |}.

(** A capped read is refused before the status is looked at. *)
Definition blame_answer (path : str) (captured : Captured) : result FileBlame BlameRefusal :=
  if stdout_truncated captured then Err (BOutputCapped BLAME_OUTPUT_CAP)
  else if negb (status_success captured) then Err (BGitRefused (status_text captured) (stderr_trimmed captured))
  else
    let? ls := parse_porcelain (stdout_lossy captured) in
    Ok {| bf_path := path; bf_lines := ls; bf_basis := Unknown |}.

Definition blame_file_with_program (program repo rev path : str) (w : World)
    : World * result FileBlame BlameRefusal :=
  let (w, r) := commit_oid program repo rev w in
  match r with
  | Err refusal => (w, Err (blame_revision refusal))
  | Ok rev =>
      let (w, r) := git_with_program program repo (blame_args rev path) w in
      match r with
      | Err failure => (w, Err (BGitUnavailable (failure_text failure)))
      | Ok command =>
          let (w, r) := run_bounded command blame_bounds w in
          (w, match r with
              | Err (FailDeadline _) => Err BDeadline
              | Err failure => Err (BGitUnavailable (failure_text failure))
              | Ok captured => blame_answer path captured
              end)
      end
  end.

End Run.

(** ** The join *)

Record CommitTouch := { ct_commit : str; ct_author : str; ct_time : Z; ct_lines : Z }.

Record SymbolBlame := {
  sb_name : str;
  sb_file : str;
  start_line : Z;
  end_line : Z;
  sb_commits : list CommitTouch;
  uncommitted_lines : Z;
}.

Inductive Attribution : Type :=
  | Attributed (rows : list SymbolBlame)
  | BasisMismatch (path spans_taken_against lines_built_from : str).

(** The line numbers [start..=end]. *)
Definition lines_between (a b : Z) : list Z := seqZ a (b - a + 1).

(** [by_line]: a line named twice keeps its last blame. *)
Definition by_line (ls : list BlameLine) : gmap Z BlameLine :=
  foldl (λ m l, <[line_no l := l]> m) ∅ ls.

Abbreviation Tally := (gmap str (Z * BlameLine)).

Definition tally_line (m : gmap Z BlameLine) (acc : Tally * Z) (n : Z) : Tally * Z :=
  let (tally, uncommitted_lines) := acc in
  match m !! n with
  | None => acc
  | Some line =>
      if uncommitted line then (tally, uncommitted_lines + 1)
      else
        let (lines, first) := default (0, line) (tally !! bl_commit line) in
        (<[bl_commit line := (lines + 1, first)]> tally, uncommitted_lines)
  end.

(** Most lines first, then newest, then by id. *)
Definition footprint_leb : CommitTouch → CommitTouch → bool :=
  desc ct_lines (desc ct_time (by_str ct_commit)).

Definition touch_of (e : str * (Z * BlameLine)) : CommitTouch :=
  let '(commit, (lines, line)) := e in
  {| ct_commit := commit; ct_author := author line; ct_time := author_time line; ct_lines := lines |}.

Definition attribute_symbol (ix : LineIndex) (m : gmap Z BlameLine) (s : GraphSymbol) : SymbolBlame :=
  let (start, end_) := symbol_lines ix s in
  let (tally, uncommitted_lines) := foldl (tally_line m) (∅, 0) (lines_between start end_) in
  {| sb_name := qualified_name s; sb_file := file_path s; start_line := start; end_line := end_;
     sb_commits := sort_by footprint_leb (map touch_of (map_to_list tally));
     uncommitted_lines := uncommitted_lines |}.

Definition attribute (symbols : list GraphSymbol) (spans_basis : BlobIdentity) (blame : FileBlame)
    (content : str) : Attribution :=
  if negb (comparable_with spans_basis (bf_basis blame))
  then BasisMismatch (bf_path blame) (describe_basis spans_basis) (describe_basis (bf_basis blame))
  else Attributed (map (attribute_symbol (line_index content) (by_line (bf_lines blame))) symbols).

End Blame.

(** * What blame and its attribution promise *)

Module BlameProps.
Import RegressFacts Blame.

(** ** Tallies *)

Definition count {A} (p : A → bool) (l : list A) : Z := Z.of_nat (length (List.filter p l)).

Lemma count_snoc {A} (p : A → bool) l x : count p (l ++ [x]) = count p l + (if p x then 1 else 0).
Proof. unfold count. rewrite List.filter_app, length_app. cbn. case_if; cbn; lia. Qed.

Lemma tally_nonneg {A} (p : A → bool) l : 0 ≤ count p l.
Proof. unfold count. lia. Qed.

(** The line was last touched by the commit; or it is not committed. *)
Definition last_touched (m : gmap Z BlameLine) (c : str) (n : Z) : bool :=
  match m !! n with Some l => negb (uncommitted l) && bool_decide (bl_commit l = c) | None => false end.
Definition not_committed (m : gmap Z BlameLine) (n : Z) : bool :=
  match m !! n with Some l => uncommitted l | None => false end.

(** A line of the blame that names the commit. *)
Definition blamed (m : gmap Z BlameLine) (ns : list Z) (c : str) (l : BlameLine) : Prop :=
  ∃ n, n ∈ ns ∧ m !! n = Some l ∧ bl_commit l = c.

Lemma tally_spec m ns :
  let (tally, u) := foldl (tally_line m) (∅, 0) ns in
  u = count (not_committed m) ns
  ∧ ∀ c, match tally !! c with
         | Some (k, l) => k = count (last_touched m c) ns ∧ 0 < k ∧ blamed m ns c l
         | None => count (last_touched m c) ns = 0
         end.
Proof.
  induction ns as [|n ns IH] using rev_ind; [by split|]. rewrite foldl_snoc.
  destruct (foldl _ _ ns) as [tally u]. destruct IH as [-> IH]. unfold tally_line.
  assert (Hold : ∀ c l, blamed m ns c l → blamed m (ns ++ [n]) c l).
  { intros c l (k & ? & ?). exists k. split; [apply elem_of_app; by left|done]. }
  assert (Hnew : n ∈ ns ++ [n]) by (apply elem_of_app; right; by left).
  assert (Hc : not_committed m n = match m !! n with Some l => uncommitted l | None => false end) by done.
  assert (Hl : ∀ c, last_touched m c n
    = match m !! n with Some l => negb (uncommitted l) && bool_decide (bl_commit l = c) | None => false end) by done.
  destruct (m !! n) as [line|] eqn:E.
  2:{ rewrite count_snoc, Hc. split; [lia|]. intros c. rewrite count_snoc, Hl, Z.add_0_r. specialize (IH c).
      destruct (tally !! c) as [[k l]|]; [|done]. destruct IH as (? & ? & ?). auto. }
  destruct (uncommitted line) eqn:Eu; cbn [negb andb] in Hl.
  { rewrite count_snoc, Hc. split; [done|]. intros c. rewrite count_snoc, Hl, Z.add_0_r. specialize (IH c).
    destruct (tally !! c) as [[k l]|]; [|done]. destruct IH as (? & ? & ?). auto. }
  destruct (default (0, line) (tally !! bl_commit line)) as [k first] eqn:Ed.
  split. { rewrite count_snoc, Hc. lia. }
  intros c. rewrite count_snoc, Hl. specialize (IH c). destruct (decide (bl_commit line = c)) as [<-|Hne].
  - rewrite lookup_insert_eq, bool_decide_eq_true_2 by done.
    destruct (tally !! bl_commit line) as [[k' l']|]; cbn in Ed; injection Ed as <- <-.
    + destruct IH as (-> & ? & ?). split_and!; [done|lia|by apply Hold].
    + rewrite IH. split_and!; [done|lia|]. by exists n.
  - rewrite lookup_insert_ne, bool_decide_eq_false_2, Z.add_0_r by done.
    destruct (tally !! c) as [[k' l']|]; [|done]. destruct IH as (? & ? & ?). auto.
Qed.

#[export] Instance footprint_order :
  LebOrder footprint_leb (λ a b, ct_lines a = ct_lines b ∧ ct_time a = ct_time b ∧ ct_commit a = ct_commit b).
Proof. apply _. Qed.

(** A symbol's row: its own lines, each counted once for the commit that last touched it
    or as uncommitted. *)
Definition row_counts (ix : LineIndex) (m : gmap Z BlameLine) (s : GraphSymbol) (row : SymbolBlame) : Prop :=
  sb_name row = qualified_name s ∧ symbol_lines ix s = (start_line row, end_line row)
  ∧ uncommitted_lines row = count (not_committed m) (lines_between (start_line row) (end_line row))
  ∧ NoDup (map ct_commit (sb_commits row))
  ∧ StronglySorted (λ a b, footprint_leb a b = true) (sb_commits row)
  ∧ (∀ ct, ct ∈ sb_commits row →
       0 < ct_lines ct
       ∧ ct_lines ct = count (last_touched m (ct_commit ct)) (lines_between (start_line row) (end_line row))
       ∧ ∃ l, blamed m (lines_between (start_line row) (end_line row)) (ct_commit ct) l
              ∧ ct_author ct = author l ∧ ct_time ct = author_time l)
  ∧ ∀ c, 0 < count (last_touched m c) (lines_between (start_line row) (end_line row)) →
         c ∈ map ct_commit (sb_commits row).

Lemma attribute_symbol_counts ix m s : row_counts ix m s (attribute_symbol ix m s).
Proof.
  unfold attribute_symbol. destruct (symbol_lines ix s) as [start end_] eqn:Es.
  pose proof (tally_spec m (lines_between start end_)) as Ht.
  destruct (foldl _ _ _) as [tally u]. destruct Ht as [Hu Ht].
  assert (Hc : ∀ ct, ct ∈ sort_by footprint_leb (map touch_of (map_to_list tally)) ↔
    ∃ l, tally !! ct_commit ct = Some (ct_lines ct, l) ∧ ct_author ct = author l ∧ ct_time ct = author_time l).
  { intros ct. rewrite elem_of_sort_by, elem_of_map. split.
    - intros ([c [k l]] & -> & Hin%elem_of_map_to_list). by exists l.
    - intros (l & Hl & Ha & Htime). exists (ct_commit ct, (ct_lines ct, l)). rewrite elem_of_map_to_list.
      split; [|done]. cbn. rewrite <- Ha, <- Htime. by destruct ct. }
  split_and!; cbn [sb_name start_line end_line uncommitted_lines sb_commits]; [done|done|done|..].
  - rewrite sort_by_perm, map_map.
    replace (map _ _) with (map fst (map_to_list tally)); [apply NoDup_fst_map_to_list|].
    apply map_ext. by intros [c [k l]].
  - by eapply sort_by_strongly, footprint_order.
  - intros ct (l & Hl & Ha & Htime)%Hc. specialize (Ht (ct_commit ct)). rewrite Hl in Ht.
    destruct Ht as (? & ? & ?). split_and!; [done..|]. by exists l.
  - intros c Hpos. specialize (Ht c). destruct (tally !! c) as [[k l]|] eqn:E; [|lia].
    apply elem_of_map. exists (touch_of (c, (k, l))). split; [done|]. apply Hc. by exists l.
Qed.

(** Attribution goes ahead only when the spans and the blamed lines are about the same
    content, and then counts, for each symbol, each of its lines once. *)
Theorem attribution_counts_lines symbols basis blame content_ :
  match attribute symbols basis blame content_ with
  | Attributed rows =>
      (∃ id, content_id basis = Some id ∧ content_id (bf_basis blame) = Some id
             ∧ is_worktree basis && is_worktree (bf_basis blame) = false)
      ∧ Forall2 (row_counts (line_index content_) (by_line (bf_lines blame))) symbols rows
  | BasisMismatch path _ _ =>
      path = bf_path blame
      ∧ ∀ id, content_id basis = Some id → content_id (bf_basis blame) = Some id →
              is_worktree basis && is_worktree (bf_basis blame) = true
  end.
Proof.
  unfold attribute. destruct (comparable_with basis (bf_basis blame)) eqn:E; cbn [negb].
  - split; [by apply comparable_iff|]. induction symbols as [|s symbols IH]; cbn [map]; constructor; [|done].
    apply attribute_symbol_counts.
  - split; [done|]. intros id H1 H2. apply not_false_is_true. intros Hw.
    rewrite <- not_true_iff_false, comparable_iff in E. apply E. by exists id.
Qed.

(** ** Porcelain *)

(** A block of [git blame --line-porcelain]: the line, its number in the commit, the
    group's length where it is given, the metadata this reader skips, and the text. *)
Record BlockText := {
  bk_line : BlameLine;
  bk_orig : Z;
  bk_group : option Z;
  bk_meta : list str;
  bk_text : str;
}.

Definition number_field (n : Z) : str := lit " " ++ fmt_u n.

Definition block_header (b : BlockText) : str :=
  bl_commit (bk_line b) ++ number_field (bk_orig b) ++ number_field (line_no (bk_line b))
  ++ match bk_group b with Some g => number_field g | None => [] end.

Definition block_text (b : BlockText) : list str :=
  [block_header b; lit "author " ++ author (bk_line b);
   lit "author-mail <" ++ author_mail (bk_line b) ++ lit ">";
   lit "author-time " ++ fmt_i (author_time (bk_line b))]
  ++ bk_meta b ++ [9 :: bk_text b].

Definition skipped (l : str) : bool :=
  negb (starts_with [9] l || starts_with (lit "author ") l || starts_with (lit "author-mail ") l
        || starts_with (lit "author-time ") l)
  && match header_oid l with None => true | Some _ => false end.

Definition hex_oid (s : str) : bool :=
  ((str_len s =? 40) || (str_len s =? 64)) && all_chars is_ascii_hexdigit s.

Record block_written (b : BlockText) : Prop := {
  bk_oid : hex_oid (bl_commit (bk_line b)) = true;
  bk_uncommitted : uncommitted (bk_line b) = is_uncommitted_oid (bl_commit (bk_line b));
  bk_numbers : 0 ≤ bk_orig b ≤ u32_max ∧ 0 ≤ line_no (bk_line b) ≤ u32_max;
  bk_group_ok : ∀ g, bk_group b = Some g → 0 ≤ g;
  bk_author : author (bk_line b) ≠ [] ∨ author_time (bk_line b) ≠ 0;
  bk_time : i64_min ≤ author_time (bk_line b) ≤ i64_max;
  bk_mail : all_chars (λ c, negb (angle c)) (author_mail (bk_line b)) = true;
  bk_meta_ok : Forall (λ l, skipped l = true) (bk_meta b);
}.

(** The reader between two blocks: the lines so far, and no half of a block. *)
Definition between (st : Porcelain) : Prop :=
  pc_oid st = None ∧ pc_line_no st = None ∧ pc_author st = [] ∧ pc_mail st = [] ∧ pc_time st = 0.

Lemma hex_no_space s : all_chars is_ascii_hexdigit s = true → no_space s = true.
Proof.
  apply all_chars_impl. intros c Hc. unfold is_ascii_hexdigit, is_ascii_digit in Hc.
  rewrite !orb_true_iff, !in_range_spec in Hc. unfold is_whitespace. apply negb_true_iff.
  repeat (apply orb_false_iff; split); try (apply Z.eqb_neq; lia); apply in_range_false; lia.
Qed.

Lemma header_numbers b :
  block_written b →
  split_whitespace (fmt_u (bk_orig b) ++ number_field (line_no (bk_line b))
    ++ match bk_group b with Some g => number_field g | None => [] end)
  = fmt_u (bk_orig b) :: fmt_u (line_no (bk_line b)) :: option_list (fmt_u <$> bk_group b).
Proof.
  intros Hb. destruct (bk_numbers b Hb) as [Ho Hn].
  assert (Hd : ∀ n, 0 ≤ n → no_space (fmt_u n) = true) by (intros; by apply digits_no_space, fmt_u_digits).
  unfold number_field. change (lit " " ++ fmt_u (line_no (bk_line b))) with (32 :: fmt_u (line_no (bk_line b))).
  cbn [app]. rewrite fields_cons; [|apply fmt_u_nonempty|apply Hd; lia].
  destruct (bk_group b) as [g|] eqn:Eg.
  - change (lit " " ++ fmt_u g) with (32 :: fmt_u g). rewrite fields_cons; [|apply fmt_u_nonempty|apply Hd; lia].
    rewrite fields_last; [done|apply fmt_u_nonempty|by apply Hd, (bk_group_ok b Hb)].
  - rewrite app_nil_r. rewrite fields_last; [done|apply fmt_u_nonempty|apply Hd; lia].
Qed.

Lemma header_read b :
  block_written b →
  ∃ rest, header_oid (block_header b) = Some (bl_commit (bk_line b), rest)
          ∧ split_whitespace rest !! 1%nat = Some (fmt_u (line_no (bk_line b))).
Proof.
  intros Hb. pose proof (bk_oid b Hb) as [Hlen Hhex]%andb_prop. destruct (bk_numbers b Hb) as [Ho Hn].
  eexists. unfold header_oid, block_header, number_field at 1. change (lit " " ++ ?x) with (32 :: x).
  cbn [app]. rewrite split_once_app by (by apply (not_whitespace_ne 32), hex_no_space).
  rewrite Hlen, Hhex. cbn [negb]. rewrite header_numbers by done. cbn [head hd_error].
  rewrite parse_u32_fmt by done. split; [done|]. by rewrite header_numbers.
Qed.

(** A header is none of the lines that begin with a word. *)
Lemma header_prefix b p :
  block_written b → (length p ≤ 40)%nat → all_chars is_ascii_hexdigit p = false →
  strip_prefix p (block_header b) = None.
Proof.
  intros Hb Hp Hx. pose proof (bk_oid b Hb) as [Hlen Hhex]%andb_prop. apply strip_prefix_None.
  apply not_true_iff_false. intros [r E]%starts_with_spec. unfold block_header in E.
  assert (Hl : (length p ≤ length (bl_commit (bk_line b)))%nat).
  { rewrite str_len_ascii in Hlen.
    - rewrite orb_true_iff, !Z.eqb_eq in Hlen. lia.
    - eapply all_chars_impl; [|exact Hhex]. intros c Hc. unfold is_ascii_hexdigit, is_ascii_digit in Hc.
      rewrite !orb_true_iff, !in_range_spec in Hc. apply Z.ltb_lt. lia. }
  pose proof (f_equal (take (length p)) E) as E'.
  rewrite take_app_le, take_app_length in E' by done.
  rewrite <- (take_drop (length p) (bl_commit (bk_line b))), all_chars_app, E', Hx in Hhex. done.
Qed.

Lemma skip_meta ms rest st :
  Forall (λ l, skipped l = true) ms → porcelain_loop (ms ++ rest) st = porcelain_loop rest st.
Proof.
  induction 1 as [|l ms Hl _ IH]; [done|]. cbn [app porcelain_loop]. unfold porcelain_line.
  unfold skipped in Hl. apply andb_prop in Hl as [Hl Hh]. apply negb_true_iff in Hl. rewrite !orb_false_iff in Hl.
  destruct Hl as [[[E1%strip_prefix_None E2%strip_prefix_None] E3%strip_prefix_None] E4%strip_prefix_None].
  rewrite E1, E2, E3, E4. by destruct (header_oid l).
Qed.

Lemma fmt_i_no_space n : no_space (fmt_i n) = true.
Proof.
  unfold fmt_i. destruct (Z.ltb_spec n 0).
  - change (no_space (chr "-" :: ?x)) with (no_space x). apply digits_no_space, fmt_u_digits. lia.
  - by apply digits_no_space, fmt_u_digits.
Qed.

(** A block adds its line, and leaves the reader between two blocks. *)
Lemma read_block b rest st :
  block_written b → between st →
  ∃ st', between st' ∧ pc_lines st' = pc_lines st ++ [bk_line b]
         ∧ porcelain_loop (block_text b ++ rest) st = porcelain_loop rest st'.
Proof.
  intros Hb (Ho & Hn & Ha & Hm & Ht). destruct (header_read b Hb) as (r & Hh & Hf).
  unfold block_text. cbn [app]. cbn [porcelain_loop]. unfold porcelain_line at 1.
  rewrite !(header_prefix b) by (done || (vm_compute; lia)). rewrite Hh, Hf, parse_u32_fmt by apply (bk_numbers b Hb).
  cbn [porcelain_loop]. unfold porcelain_line at 1.
  change (strip_prefix [9] (lit "author " ++ ?x)) with (@None str). rewrite strip_prefix_app.
  cbn [porcelain_loop]. unfold porcelain_line at 1.
  change (strip_prefix [9] (lit "author-mail <" ++ ?x)) with (@None str).
  change (strip_prefix (lit "author ") (lit "author-mail <" ++ ?x)) with (@None str).
  change (lit "author-mail <" ++ ?x) with (lit "author-mail " ++ chr "<" :: x). rewrite strip_prefix_app.
  change (lit ">") with [62]. rewrite (trim_by_around angle) by (done || apply (bk_mail b Hb)).
  cbn [porcelain_loop]. unfold porcelain_line at 1.
  change (strip_prefix [9] (lit "author-time " ++ ?x)) with (@None str).
  change (strip_prefix (lit "author ") (lit "author-time " ++ ?x)) with (@None str).
  change (strip_prefix (lit "author-mail ") (lit "author-time " ++ ?x)) with (@None str).
  rewrite strip_prefix_app. unfold trim. rewrite trim_by_none by apply fmt_i_no_space.
  rewrite parse_i64_fmt by apply (bk_time b Hb). cbn [default]. unfold Datatypes.id.
  rewrite <- app_assoc, skip_meta by apply (bk_meta_ok b Hb). cbn [app porcelain_loop].
  unfold porcelain_line at 1. cbn [strip_prefix]. rewrite Z.eqb_refl.
  unfold close_block, set_time, set_mail, set_author, set_header. cbn.
  assert (Hk : negb (bool_decide (author (bk_line b) = [])) || negb (author_time (bk_line b) =? 0) = true).
  { rewrite orb_true_iff, !negb_true_iff, bool_decide_eq_false, Z.eqb_neq. apply (bk_author b Hb). }
  rewrite Hk, lookup_insert_eq. cbn. eexists. split; [|split; [|reflexivity]]; [done|]. cbn. f_equal.
  rewrite <- (bk_uncommitted b Hb). by destruct (bk_line b).
Qed.

(** Every line of a blame git wrote is read with its own commit and author, whatever the
    lines of the file say. *)
Theorem blame_reads_porcelain bs :
  Forall block_written bs →
  Forall (λ l, line_ok l = true) (flat_map block_text bs) →
  parse_porcelain (unlines (flat_map block_text bs)) = Ok (map bk_line bs).
Proof.
  intros Hbs Hl. unfold parse_porcelain. rewrite lines_unlines by done. clear Hl.
  assert (Hg : ∀ st, between st → ∃ st', porcelain_loop (flat_map block_text bs) st = Ok st'
                                         ∧ pc_lines st' = pc_lines st ++ map bk_line bs).
  { induction Hbs as [|b bs Hb _ IH]; intros st Hst; [exists st; by rewrite app_nil_r|]. cbn [flat_map map].
    destruct (read_block b (flat_map block_text bs) st Hb Hst) as (st1 & Hst1 & E1 & ->).
    destruct (IH st1 Hst1) as (st2 & -> & E2). exists st2. split; [done|]. by rewrite E2, E1, <- app_assoc. }
  destruct (Hg start_porcelain) as (st & -> & E); [done|]. by rewrite E.
Qed.

(** ** Witnesses *)

Definition sample_line (n : Z) (c : string) (who : string) (time : Z) : BlameLine :=
  {| line_no := n; bl_commit := replicate 40 (chr c); author := lit who; author_mail := lit "a@b";
     author_time := time; uncommitted := bool_decide (c = "0"%string) |}.

Definition sample (n : Z) (c : string) (who : string) (time : Z) (text : string) : BlockText :=
  {| bk_line := sample_line n c who time; bk_orig := 1; bk_group := Some 1;
     bk_meta := map lit ["author-tz +0000"; "summary author x"; "filename a.rs"]%string; bk_text := lit text |}.

(** Two commits and a line not committed, with texts that look like metadata. *)
Definition porcelain : list BlockText :=
  [sample 1 "a" "Ann" 100 "author Eve"; sample 2 "b" "Bob" (-1) "filename x"; sample 3 "0" "Not Committed Yet" 5 ""].

Lemma blame_reads_porcelain_witness :
  parse_porcelain (unlines (flat_map block_text porcelain))
  = Ok [sample_line 1 "a" "Ann" 100; sample_line 2 "b" "Bob" (-1); sample_line 3 "0" "Not Committed Yet" 5].
Proof.
  apply (blame_reads_porcelain porcelain).
  - repeat constructor; try (vm_compute; done); intros g [= <-]; done.
  - repeat constructor.
Defined.

End BlameProps.
