(* ===== verification/Suspects.v ===== *)
(** * dc-regress: suspects

    [rank.rs] and [suspects.rs] of [rust/dc-regress/src]: the cone of a symptom, the blame
    of the files it occupies, and the ranking of the commits that touched it. *)

From S2P Require Import Prelude RustStr Order Regress GitReads Blobs Blame.
Import Order Regress GitReads Blobs Blame.

#[local] Open Scope Z_scope.

Module Suspects.

(** ** Ranking *)

Definition SCALE : Z := 1000.

Record TouchedSymbol := {
  ts_name : str;
  ts_file : str;
  distance : Z;
  ts_lines : Z;
  ts_body_changed : option bool;
}.

Inductive EvidenceClass : Type := MovedOnly | UnknownBody | BodyChanged.

(** The derived order, by declaration. *)
Definition class_rank (c : EvidenceClass) : Z :=
  match c with MovedOnly => 0 | UnknownBody => 1 | BodyChanged => 2 end.

Record Suspect := {
  su_commit : str;
  su_author : str;
  su_time : Z;
  evidence : EvidenceClass;
  score : Z;
  nearest_distance : Z;
  touched : list TouchedSymbol;
}.

Record RankInputs := {
  ri_commit : str;
  ri_author : str;
  ri_time : Z;
  ri_touched : list TouchedSymbol;
}.

Definition touch_weight (t : TouchedSymbol) : Z :=
  let proximity := SCALE / sat_add u64_max (distance t) 1 in
  let base := sat_mul u64_max proximity (ts_lines t) in
  match ts_body_changed t with
  | Some true => base
  | Some false => base / 10
  | None => sat_mul u64_max base 6 / 10
  end.

(** [touched.sort_by]: distance, then more lines, then name. *)
Definition touch_leb : TouchedSymbol → TouchedSymbol → bool :=
  asc distance (desc ts_lines (by_str ts_name)).

Definition class_of (t : TouchedSymbol) : EvidenceClass :=
  match ts_body_changed t with
  | Some true => BodyChanged
  | None => UnknownBody
  | Some false => MovedOnly
  end.

(** [Iterator::max], which keeps the last of equals. *)
Definition class_max (a b : EvidenceClass) : EvidenceClass :=
  if class_rank b <? class_rank a then a else b.

Definition max_class (l : list TouchedSymbol) : EvidenceClass :=
  match map class_of l with
  | [] => UnknownBody
  | c :: cs => foldl class_max c cs
  end.

Definition min_distance (l : list TouchedSymbol) : Z :=
  match map distance l with
  | [] => u32_max
  | d :: ds => foldl Z.min d ds
  end.

Definition suspect_of (i : RankInputs) : Suspect :=
  let ts := sort_by touch_leb (ri_touched i) in
  {| su_commit := ri_commit i; su_author := ri_author i; su_time := ri_time i;
     evidence := max_class ts;
     score := foldl (sat_add u64_max) 0 (map touch_weight ts);
     nearest_distance := min_distance ts; touched := ts |}.

(** Stronger evidence, then score, then nearness, then the newer commit, then its id. *)
Definition suspect_leb : Suspect → Suspect → bool :=
  desc (λ s, class_rank (evidence s)) (desc score (asc nearest_distance (desc su_time (by_str su_commit)))).

Definition rank (inputs : list RankInputs) : list Suspect :=
  sort_by suspect_leb
    (map suspect_of (List.filter (λ i, negb (bool_decide (length (ri_touched i) = O))) inputs)).

(** ** The report *)

Record SuspectReport := {
  symptom : str;
  suspects : list Suspect;
  cone_size : nat;
  blamed_symbols : nat;
  unavailable : list Unavailable;
  complete : bool;
}.

Definition new_report (symptom : str) (suspects : list Suspect) (cone_size blamed : nat)
    (unavailable : list Unavailable) : SuspectReport :=
  {| symptom := symptom; suspects := suspects; cone_size := cone_size; blamed_symbols := blamed;
     unavailable := unavailable; complete := bool_decide (length unavailable = O) |}.

Definition refused (symptom : str) (unavailable : list Unavailable) : SuspectReport :=
  new_report symptom [] 0 0 unavailable.

(** ** The cone *)

Definition DEFAULT_CONE_DEPTH : Z := 3.
Definition MAX_BLAMED_FILES : nat := 200.

(** [BTreeMap<String, (String, u32)>]: a symbol's file and its distance. *)
Abbreviation Cone := (gmap str (str * Z)).

(** A symbol reached twice is as close as its closest route. *)
Definition cone_add (e : ConeEntry) (m : Cone) : Cone :=
  match m !! ce_name e with
  | Some held => if ce_distance e <? held.2 then <[ce_name e := (ce_file e, ce_distance e)]> m else m
  | None => <[ce_name e := (ce_file e, ce_distance e)]> m
  end.

Section Cone.
Context `{CodeGraph}.

Definition cone_target (depth : Z) (acc : Cone * bool) (target : str) : Cone * bool :=
  let (m, incomplete) := acc in
  let (entries, stopped) := cone target depth in
  (foldl (λ m e, cone_add e m) m entries, incomplete || stopped).

Definition cone_of (targets : list str) (depth : Z) : Cone * bool :=
  foldl (cone_target depth) (∅, false) targets.
End Cone.

(** The smallest distance of a file's symbols. *)
Definition nearest_add (e : str * Z) (m : gmap str Z) : gmap str Z :=
  <[e.1 := match m !! e.1 with Some held => Z.min held e.2 | None => e.2 end]> m.

Definition nearest_files (m : Cone) : gmap str Z :=
  foldl (λ acc e, nearest_add e acc) ∅ (map snd (map_to_list m)).

Definition file_leb : str * Z → str * Z → bool := asc snd (by_str fst).

Definition cone_files_nearest_first (m : Cone) : list str :=
  map fst (sort_by file_leb (map_to_list (nearest_files m))).

(** ** The walk over the files *)

(** [BTreeMap<String, (String, i64, Vec<TouchedSymbol>)>]. *)
Abbreviation Footprints := (gmap str (str * Z * list TouchedSymbol)).

Record Walk := {
  wk_reader : BlobReader;
  wk_unavailable : list Unavailable;
  wk_blamed : nat;
  wk_commits : Footprints;
}.

Definition lose (u : Unavailable) (st : Walk) : Walk :=
  {| wk_reader := wk_reader st; wk_unavailable := wk_unavailable st ++ [u];
     wk_blamed := wk_blamed st; wk_commits := wk_commits st |}.

Definition set_reader (r : BlobReader) (st : Walk) : Walk :=
  {| wk_reader := r; wk_unavailable := wk_unavailable st; wk_blamed := wk_blamed st;
     wk_commits := wk_commits st |}.

Section Analysis.
Context `{DebugTable} `{Machine} `{CodeGraph}.

Definition touch_row (in_window : str → bool) (row : SymbolBlame) (d : Z) (m : Footprints)
    (t : CommitTouch) : Footprints :=
  if negb (in_window (ct_commit t)) then m
  else
    let '(a, time, ts) := default (ct_author t, ct_time t, []) (m !! ct_commit t) in
    let touch := {| ts_name := sb_name row; ts_file := sb_file row; distance := d;
                    ts_lines := ct_lines t; ts_body_changed := body_changed (sb_name row) (ct_commit t) |} in
    <[ct_commit t := (a, time, ts ++ [touch])]> m.

Definition note_row (in_window : str → bool) (m : Cone) (acc : Footprints) (row : SymbolBlame) : Footprints :=
  match m !! sb_name row with
  | None => acc
  | Some (_, d) => foldl (touch_row in_window row d) acc (sb_commits row)
  end.

Definition attributed_file (in_window : str → bool) (m : Cone) (a : Attribution) (st : Walk) : Walk :=
  match a with
  | BasisMismatch path taken built => lose (BlobMismatch path taken built) st
  | Attributed rows =>
      {| wk_reader := wk_reader st; wk_unavailable := wk_unavailable st;
         wk_blamed := wk_blamed st + length rows;
         wk_commits := foldl (note_row in_window m) (wk_commits st) rows |}
  end.

(** The cone's symbols of a file. *)
Definition wanted_in (m : Cone) (symbols : list GraphSymbol) : list GraphSymbol :=
  List.filter (λ s, bool_decide (is_Some (m !! qualified_name s))) symbols.

Definition with_basis (b : BlobIdentity) (f : FileBlame) : FileBlame :=
  {| bf_path := bf_path f; bf_lines := bf_lines f; bf_basis := b |}.

(** One turn of the loop, past the budget. *)
Definition examine_file (program repo until_oid : str) (in_window : str → bool) (m : Cone)
    (file : str) (st : Walk) (w : World) : World * Walk :=
  let (symbols, spans_basis) := symbols_in file in
  let wanted := wanted_in m symbols in
  if bool_decide (length wanted = O) then (w, st)
  else
    match spans_basis with
    | Unreadable reason => (w, lose (BlameRefused file reason) st)
    | _ =>
        let '(w, r, resolved) := read until_oid file (wk_reader st) w in
        let st := set_reader r st in
        match resolved with
        | Err refusal => (w, lose (BlameRefused file (describe_history refusal)) st)
        | Ok resolved =>
            let (w, blame) := blame_file_with_program program repo until_oid file w in
            match blame with
            | Err refusal => (w, lose (BlameRefused file (describe_blame refusal)) st)
            | Ok blame =>
                let blame := with_basis (GitReads.identity resolved) blame in
                (w, attributed_file in_window m
                      (attribute wanted spans_basis blame (content resolved)) st)
            end
        end
    end.

(** The loop: [examined] files are behind it, and a spent budget ends it. *)
Fixpoint examine_files (program repo until_oid : str) (in_window : str → bool) (m : Cone)
    (budget : Budget) (total examined : nat) (files : list str) (st : Walk) (w : World) : World * Walk :=
  match files with
  | [] => (w, st)
  | file :: files' =>
      let (w, go) := budget_check budget w in
      match go with
      | Err stop => (w, lose (BudgetExhausted (describe_exhausted stop) examined total) st)
      | Ok _ =>
          let (w, st) := examine_file program repo until_oid in_window m file st w in
          examine_files program repo until_oid in_window m budget total (S examined) files' st w
      end
  end.

Definition input_of (e : str * (str * Z * list TouchedSymbol)) : RankInputs :=
  let '(commit, (author, time, ts)) := e in
  {| ri_commit := commit; ri_author := author; ri_time := time; ri_touched := ts |}.

Definition empty_cone_reason (symptom : str) (targets : nat) : str :=
  tick ++ symptom ++ lit "` resolved to " ++ fmt_n targets
    ++ lit " symbol(s) but the graph gives them no dependencies and not even themselves, which an unbuilt or empty index also reports".

(** The reader of one analysis: the graph's own where it reads this repository. *)
Definition reader_for (shared : option BlobReader) (program repo : str) : BlobReader :=
  match shared with
  | Some r => if reads r program repo then r else new_reader program repo
  | None => new_reader program repo
  end.

Definition window_refused (r : HistoryRefusal) : Unavailable :=
  match r with
  | HGitUnavailable reason => GitUnavailable reason
  | other => GitUnavailable (describe_history other)
  end.

(** The report over a cone and a window that were read. *)
Definition blame_cone (program repo symptom : str) (shared : option BlobReader) (until : str)
    (m : Cone) (before : list Unavailable) (window : CommitWindow) (budget : Budget) (w : World)
    : World * SuspectReport :=
  let before := before ++ (if capped window then [WindowCapped (length (commits window)) COMMIT_CAP] else []) in
  let in_window c := bool_decide (c ∈ commits window) in
  let files := cone_files_nearest_first m in
  let '(w, r, until_oid) := commit until (reader_for shared program repo) w in
  match until_oid with
  | Err refusal => (w, refused symptom [GitUnavailable (describe_history refusal)])
  | Ok until_oid =>
      let blamed := take MAX_BLAMED_FILES files in
      let st := {| wk_reader := r; wk_unavailable := before; wk_blamed := 0; wk_commits := ∅ |} in
      let (w, st) :=
        examine_files program repo until_oid in_window m budget
          (Nat.min (length files) MAX_BLAMED_FILES) 0 blamed st w in
      let after :=
        if (MAX_BLAMED_FILES <? length files)%nat
        then [FilesCapped MAX_BLAMED_FILES (length files) MAX_BLAMED_FILES] else [] in
      (w, new_report symptom (rank (map input_of (map_to_list (wk_commits st)))) (size m)
            (wk_blamed st) (wk_unavailable st ++ after))
  end.

Definition suspects_bounded (program repo : str) (shared : option BlobReader)
    (symptom since until : str) (depth : Z) (budget : Budget) (w : World) : World * SuspectReport :=
  let targets := resolve_symptom symptom in
  if bool_decide (length targets = O) then (w, refused symptom [SymptomNotFound symptom])
  else
    let (m, incomplete) := cone_of targets depth in
    if bool_decide (m = ∅)
    then (w, refused symptom [GraphEmpty (empty_cone_reason symptom (length targets))])
    else
      let before := if incomplete then [ConeIncomplete depth (size m)] else [] in
      let (w, window) := commit_window program repo since until w in
      match window with
      | Err refusal => (w, refused symptom [window_refused refusal])
      | Ok window => blame_cone program repo symptom shared until m before window budget w
      end.

End Analysis.
End Suspects.
