(* ===== verification/Blast.v ===== *)
(** * dc-regress: the blast radius of a change ([rust/dc-regress/src/blast.rs])

    Changed lines are placed in the symbols that span them, the graph is walked inbound
    from those, and what it reaches is rolled up by file and by directory. *)

From S2P Require Import Prelude RustStr Order Paths Regress GitReads Blobs Suspects Change.
Import Order Paths TestPaths Regress GitReads Blobs Change.

#[local] Open Scope Z_scope.

Module Blast.

Definition MAX_SEED_SYMBOLS : nat := 256.
Definition OWNER_COMMIT_CAP : nat := 32.
Definition OWNER_DEADLINE : Duration := from_secs 5.
Definition OWNER_OUTPUT_CAP : Z := 256 * 1024.

Record SeedSymbol := {
  sd_name : str;
  sd_file : str;
  sd_start : Z;
  sd_end : Z;
  changed_lines : Z;
  sd_deletion_only : bool;
}.

Inductive UnattributedReason : Type :=
  | OutsideEverySymbol (nearest_symbol : option str) (lines_away : option Z)
  | FileNotIndexed
  | NoPostImageLines (status : str)
  | SpansMismatch (spans_taken_against lines_built_from : str)
  | BeyondEndOfFile (last_line : Z)
  | ContentUnavailable (reason : str).

Definition module_level : str :=
  lit "module-level: inside no symbol the graph declares, so the inbound walk has nothing to start from "
    ++ dash ++ lit " imports, top-level constants, attributes and macro invocations all land here".

Definition describe_unattributed (r : UnattributedReason) : str :=
  match r with
  | OutsideEverySymbol nearest away =>
      match nearest, away with
      | Some s, Some n =>
          if n =? 0 then module_level ++ lit "; immediately adjacent to " ++ s
          else module_level ++ lit "; nearest symbol " ++ s ++ lit ", " ++ fmt_u n ++ lit " line(s) away"
      | Some s, None => module_level ++ lit "; nearest symbol " ++ s
      | None, _ => module_level
      end
  | FileNotIndexed => lit "the graph holds no symbols for this file, so nothing in it can seed a walk"
  | NoPostImageLines status =>
      lit "the file is " ++ status ++ lit " in the post-image, so it has no lines to place"
  | SpansMismatch taken built =>
      lit "spans were taken against " ++ taken ++ lit " but the content came from " ++ built
        ++ lit ", so no line can be placed in a symbol"
  | BeyondEndOfFile last =>
      lit "the change names lines past the end of the post-image content, which ends at line "
        ++ fmt_u last ++ lit "; the diff and the blob describe different revisions"
  | ContentUnavailable reason => lit "the post-image content could not be read: " ++ reason
  end.

Record UnattributedChange := { ua_path : str; ua_start : Z; ua_end : Z; ua_reason : UnattributedReason }.

Record ImpactedSymbol := { is_name : str; is_file : str; is_distance : Z }.

Record ImpactedFile := { if_path : str; if_symbols : Z; if_nearest : Z; if_changed : bool }.

Inductive TestSignal : Type := TestsChanged | TestsStale | NoTests | TestsNa | TestsUnavailable.

Record ImpactedModule := {
  im_path : str;
  im_files : Z;
  im_symbols : Z;
  im_nearest : Z;
  im_changed : bool;
  test_signal : TestSignal;
}.

Record Owner := { ow_name : str; ow_email : str }.

Record BlastReport := {
  br_change : str;
  changed_files : list FileChange;
  seeds : list SeedSymbol;
  unattributed : list UnattributedChange;
  impacted_symbols : list ImpactedSymbol;
  impacted_files : list ImpactedFile;
  impacted_modules : list ImpactedModule;
  tests : list AffectedTestFile;
  owners : list Owner;
  unavailable : list Unavailable;
  complete : bool;
}.

(** [BlastReport::new]. *)
Definition new_report (change : str) (changed : list FileChange) (seeds : list SeedSymbol)
    (unattributed : list UnattributedChange) (impacted : list ImpactedSymbol)
    (fs : list ImpactedFile) (ms : list ImpactedModule) (ts : list AffectedTestFile)
    (owners : list Owner) (unavailable : list Unavailable) : BlastReport :=
  {| br_change := change; changed_files := changed; seeds := seeds; unattributed := unattributed;
     impacted_symbols := impacted; impacted_files := fs; impacted_modules := ms; tests := ts;
     owners := owners; unavailable := unavailable; complete := bool_decide (length unavailable = O) |}.

Definition refused (change : str) (unavailable : list Unavailable) : BlastReport :=
  new_report change [] [] [] [] [] [] [] [] unavailable.

(** [path.rfind('/')], and the cases on where it is. *)
Definition module_of (path : str) : str :=
  match rsplit_once slash path with
  | Some ([], _) => [slash]
  | Some (dir, _) => dir
  | None => lit "."
  end.

(** ** Placing a file's ranges *)

Abbreviation Seeds := (gmap str SeedSymbol).
Abbreviation Placed := (Z * Z * GraphSymbol)%type.

Definition unplaced (path : str) (reason : UnattributedReason) (r : ChangedRange) : UnattributedChange :=
  {| ua_path := path; ua_start := r_start r; ua_end := r_end r; ua_reason := reason |}.

Definition push_all (path : str) (rs : list ChangedRange) (reason : UnattributedReason)
    : list UnattributedChange := map (unplaced path reason) rs.

Definition whole_file (path : str) (reason : UnattributedReason) : UnattributedChange :=
  {| ua_path := path; ua_start := 0; ua_end := 0; ua_reason := reason |}.

(** One turn of [nearest_to]. *)
Definition nearer (r : ChangedRange) (best : option (Z * bool * str)) (p : Placed)
    : option (Z * bool * str) :=
  let '(start, end_, s) := p in
  let '(gap, follows) :=
    if r_end r <? start then (start - r_end r - 1, true)
    else (Z.max 0 (Z.max 0 (r_start r - end_) - 1), false) in
  match best with
  | Some (held_gap, held_follows, _) =>
      if (held_gap <? gap) || ((held_gap =? gap) && held_follows) then best
      else Some (gap, follows, qualified_name s)
  | None => Some (gap, follows, qualified_name s)
  end.

Definition nearest_to (ps : list Placed) (r : ChangedRange) : option str * option Z :=
  match foldl (nearer r) None ps with
  | Some (gap, _, name) => (Some name, Some gap)
  | None => (None, None)
  end.

Definition overlaps (r : ChangedRange) (p : Placed) : bool :=
  let '(start, end_, _) := p in
  negb (Z.min end_ (r_end r) <? Z.max start (r_start r)).

(** The lines of the overlap, when there are any. *)
Definition overlap_lines (r : ChangedRange) (p : Placed) : Z :=
  let '(start, end_, _) := p in
  Z.min end_ (r_end r) - Z.max start (r_start r) + 1.

Definition seed_add (r : ChangedRange) (m : Seeds) (p : Placed) : Seeds :=
  if negb (overlaps r p) then m
  else
    let '(start, end_, s) := p in
    let seed :=
      match m !! qualified_name s with
      | Some held =>
          {| sd_name := sd_name held; sd_file := sd_file held; sd_start := sd_start held;
             sd_end := sd_end held;
             changed_lines := sat_add u32_max (changed_lines held) (overlap_lines r p);
             sd_deletion_only := sd_deletion_only held && deletion_only r |}
      | None =>
          {| sd_name := qualified_name s; sd_file := file_path s; sd_start := start; sd_end := end_;
             changed_lines := overlap_lines r p; sd_deletion_only := deletion_only r |}
      end in
    <[qualified_name s := seed]> m.

Definition place_range (path : str) (last_line : Z) (ps : list Placed)
    (acc : Seeds * list UnattributedChange) (r : ChangedRange) : Seeds * list UnattributedChange :=
  let (m, un) := acc in
  if last_line <? r_start r then (m, un ++ [unplaced path (BeyondEndOfFile last_line) r])
  else
    let m := foldl (seed_add r) m ps in
    if existsb (overlaps r) ps then (m, un)
    else
      let (nearest, away) := nearest_to ps r in
      (m, un ++ [unplaced path (OutsideEverySymbol nearest away) r]).

Definition placed_in (ix : LineIndex) (symbols : list GraphSymbol) : list Placed :=
  map (λ s, let (start, end_) := symbol_lines ix s in (start, end_, s)) symbols.

(** [content.matches('\n').count() as u32 + 1]. *)
Definition last_line_of (content : str) : Z :=
  (Z.of_nat (length (List.filter (Z.eqb nl) content)) mod 4294967296 + 1) mod 4294967296.

(** A file whose content was read, and whose spans may be counted in it. *)
Definition place_ranges (file : FileChange) (symbols : list GraphSymbol) (content : str)
    (acc : Seeds * list UnattributedChange) : Seeds * list UnattributedChange :=
  foldl (place_range (fc_path file) (last_line_of content) (placed_in (line_index content) symbols))
    acc (ranges file).

Section Blast.
Context `{UnicodeTables} `{DebugTable} `{Machine} `{CodeGraph}.

(** What [place_file] threads: the reader, the seeds and what reached none. *)
Record Placing := { pl_reader : BlobReader; pl_seeds : Seeds; pl_unattributed : list UnattributedChange }.

Definition unattribute (us : list UnattributedChange) (st : Placing) : Placing :=
  {| pl_reader := pl_reader st; pl_seeds := pl_seeds st; pl_unattributed := pl_unattributed st ++ us |}.

Definition set_reader (r : BlobReader) (st : Placing) : Placing :=
  {| pl_reader := r; pl_seeds := pl_seeds st; pl_unattributed := pl_unattributed st |}.

(** The second half: the file has ranges and the graph has symbols for it. *)
Definition place_indexed (until : str) (file : FileChange) (symbols : list GraphSymbol)
    (spans_basis : BlobIdentity) (st : Placing) (w : World) : World * Placing :=
  let all reason := unattribute (push_all (fc_path file) (ranges file) reason) in
  match spans_basis with
  | Unreadable reason => (w, all (ContentUnavailable reason) st)
  | _ =>
      let '(w, r, resolved) := read until (fc_path file) (pl_reader st) w in
      let st := set_reader r st in
      match resolved with
      | Err refusal => (w, all (ContentUnavailable (describe_history refusal)) st)
      | Ok resolved =>
          if negb (comparable_with spans_basis (GitReads.identity resolved))
          then (w, all (SpansMismatch (describe_basis spans_basis)
                          (describe_basis (GitReads.identity resolved))) st)
          else
            let (m, un) :=
              place_ranges file symbols (content resolved) (pl_seeds st, pl_unattributed st) in
            (w, {| pl_reader := pl_reader st; pl_seeds := m; pl_unattributed := un |})
      end
  end.

Definition place_file (until : str) (file : FileChange) (st : Placing) (w : World) : World * Placing :=
  match status file with
  | Deleted => (w, unattribute [whole_file (fc_path file) (NoPostImageLines (lit "deleted"))] st)
  | Binary => (w, unattribute [whole_file (fc_path file) (NoPostImageLines (lit "binary"))] st)
  | UnreadableFile reason => (w, unattribute [whole_file (fc_path file) (ContentUnavailable reason)] st)
  | _ =>
      if bool_decide (length (ranges file) = O) then (w, st)
      else
        let (symbols, spans_basis) := symbols_in (fc_path file) in
        if bool_decide (length symbols = O)
        then (w, unattribute (push_all (fc_path file) (ranges file) FileNotIndexed) st)
        else place_indexed until file symbols spans_basis st w
  end.

(** The loop: the world, the placing, and the exhaustion that ended it. *)
Fixpoint place_files (until : str) (budget : Budget) (total placed : nat) (fs : list FileChange)
    (st : Placing) (w : World) : World * Placing * option Unavailable :=
  match fs with
  | [] => (w, st, None)
  | file :: fs' =>
      let (w, go) := budget_check budget w in
      match go with
      | Err stop => (w, st, Some (BudgetExhausted (describe_exhausted stop) placed total))
      | Ok _ =>
          let (w, st) := place_file until file st w in
          place_files until budget total (S placed) fs' st w
      end
  end.

(** ** Rolling up *)

(** Most changed first. *)
Definition seed_leb : SeedSymbol → SeedSymbol → bool :=
  desc changed_lines (asc_str sd_file (by_str sd_name)).

Definition reach_add (seed_set : str → bool) (m : gmap str (str * Z)) (e : ConeEntry) : gmap str (str * Z) :=
  if seed_set (ce_name e) then m
  else match m !! ce_name e with
       | Some held => if ce_distance e <? held.2 then <[ce_name e := (held.1, ce_distance e)]> m else m
       | None => <[ce_name e := (ce_file e, ce_distance e)]> m
       end.

Definition symbol_leb : ImpactedSymbol → ImpactedSymbol → bool :=
  asc is_distance (asc_str is_file (by_str is_name)).

Definition roll_up_symbols (reached : list ConeEntry) (seed_set : str → bool) : list ImpactedSymbol :=
  sort_by symbol_leb
    (map (λ e : str * (str * Z), {| is_name := e.1; is_file := e.2.1; is_distance := e.2.2 |})
       (map_to_list (foldl (reach_add seed_set) ∅ reached))).

Definition file_seed (m : gmap str (Z * Z)) (s : SeedSymbol) : gmap str (Z * Z) :=
  let (n, d) := default (0, 0) (m !! sd_file s) in <[sd_file s := (sat_add u32_max n 1, d)]> m.

Definition file_symbol (m : gmap str (Z * Z)) (s : ImpactedSymbol) : gmap str (Z * Z) :=
  let (n, d) := default (0, u32_max) (m !! is_file s) in
  <[is_file s := (sat_add u32_max n 1, Z.min d (is_distance s))]> m.

Definition file_changed (m : gmap str (Z * Z)) (path : str) : gmap str (Z * Z) :=
  <[path := default (0, 0) (m !! path)]> m.

Definition file_of (changed_paths : list str) (e : str * (Z * Z)) : ImpactedFile :=
  let '(path, (symbols, distance)) := e in
  let changed := bool_decide (path ∈ changed_paths) in
  {| if_path := path; if_symbols := symbols;
     if_nearest := if changed || (distance =? u32_max) then 0 else distance; if_changed := changed |}.

Definition file_leb : ImpactedFile → ImpactedFile → bool :=
  asc if_nearest (desc if_symbols (by_str if_path)).

Definition files_by_path (impacted : list ImpactedSymbol) (seeds : list SeedSymbol)
    (changed_paths : list str) : gmap str (Z * Z) :=
  foldl file_changed (foldl file_symbol (foldl file_seed ∅ seeds) impacted) changed_paths.

Definition roll_up_files (impacted : list ImpactedSymbol) (seeds : list SeedSymbol)
    (changed_paths : list str) : list ImpactedFile :=
  sort_by file_leb
    (map (file_of changed_paths) (map_to_list (files_by_path impacted seeds changed_paths))).

Definition module_add (m : gmap str (Z * Z * Z * bool)) (f : ImpactedFile) : gmap str (Z * Z * Z * bool) :=
  let key := module_of (if_path f) in
  let '(fs, ss, d, c) := default (0, 0, u32_max, false) (m !! key) in
  <[key := (sat_add u32_max fs 1, sat_add u32_max ss (if_symbols f), Z.min d (if_nearest f), c || if_changed f)]> m.

Definition module_entry (e : str * (Z * Z * Z * bool)) : ImpactedModule :=
  let '(path, (fs, ss, d, c)) := e in
  {| im_path := path; im_files := fs; im_symbols := ss; im_nearest := if d =? u32_max then 0 else d;
     im_changed := c; test_signal := TestsUnavailable |}.

Definition module_leb : ImpactedModule → ImpactedModule → bool :=
  asc im_nearest (desc im_symbols (by_str im_path)).

Definition roll_up_modules (fs : list ImpactedFile) : list ImpactedModule :=
  sort_by module_leb (map module_entry (map_to_list (foldl module_add ∅ fs))).

(** A set of paths as [BTreeSet] lists it. *)
Definition sorted_set (l : list str) : list str := sort_strs (remove_dups l).

Definition owner_paths (changed : list FileChange) : list str :=
  sorted_set (flat_map (λ f, fc_path f :: option_list (renamed_from f)) changed).

(** ** Tests *)

(** [devmap_extract::wiring::is_test_path]. *)
Definition looks_like_test_path (path : str) : bool :=
  let norm := replace_char 92 slash path in
  let segments := split_on (Z.eqb slash) norm in
  let name := default norm (last segments) in
  let bare_name :=
    negb (existsb (Z.eqb (chr ".")) name)
    && bool_decide (str_to_lowercase name ∈ map lit ["test"; "tests"; "spec"; "specs"; "androidtest"]%string) in
  if (negb bare_name && is_test_file_name name) || eq_ignore_ascii_case name (lit "conftest.py") then true
  else if starts_with (lit ".") name then false
  else
    let directories := removelast segments in
    let outside :=
      flat_map (λ s, s ++ [slash])
        (List.filter (λ s, negb (eq_ignore_ascii_case s (lit "testdata"))) directories) in
    in_test_directory (outside ++ name)
    || existsb (λ s, eq_ignore_ascii_case s (lit "androidtest")) directories.

Definition touches_test (changed : list FileChange) : bool :=
  existsb (λ f, looks_like_test_path (fc_path f)
                || match renamed_from f with Some p => looks_like_test_path p | None => false end) changed.

Definition in_diff (changed : list FileChange) (t : AffectedTestFile) : bool :=
  existsb (λ f, bool_decide (fc_path f = at_path t) || bool_decide (renamed_from f = Some (at_path t))) changed.

Definition test_signal_for_module (m : ImpactedModule) (seeds : list SeedSymbol)
    (ts : list AffectedTestFile) (changed : list FileChange) (incomplete : bool) : TestSignal :=
  let has_seed := existsb (λ s, bool_decide (module_of (sd_file s) = im_path m)) seeds in
  if bool_decide (length seeds = O) || (negb has_seed && (im_symbols m =? 0)) then TestsNa
  else if incomplete then TestsUnavailable
  else if bool_decide (length ts = O)
  then (if touches_test changed then TestsUnavailable else NoTests)
  else if existsb (in_diff changed) ts then TestsChanged
  else TestsStale.

Definition set_signal (s : TestSignal) (m : ImpactedModule) : ImpactedModule :=
  {| im_path := im_path m; im_files := im_files m; im_symbols := im_symbols m;
     im_nearest := im_nearest m; im_changed := im_changed m; test_signal := s |}.

Definition annotate_test_signals (ms : list ImpactedModule) (seeds : list SeedSymbol)
    (ts : list AffectedTestFile) (changed : list FileChange) (incomplete : bool) : list ImpactedModule :=
  map (λ m, set_signal (test_signal_for_module m seeds ts changed incomplete) m) ms.

(** ** Owners *)

(** What the pass over the paths gathers. *)
Record OwnerPass := { op_owners : gset (str * str); op_empty : bool; op_gaps : list Unavailable }.

Definition owner_line (acc : gset (str * str) * bool) (line : str) : gset (str * str) * bool :=
  let (owners, empty) := acc in
  let line := trim_end_by (Z.eqb cr) line in
  if bool_decide (line = []) then acc
  else
    let (name, email) :=
      match split_once 0 line with
      | Some (name, email) => (trim name, trim email)
      | None => (trim line, [])
      end in
    if bool_decide (name = []) && bool_decide (email = []) then (owners, true)
    else ({[(name, email)]} ∪ owners, empty).

Definition owner_args (cap : nat) (path : str) : list str :=
  [lit "log"; lit "--max-count=" ++ fmt_n cap; lit "--format=%an%x00%ae"; lit "--"; path].

Definition owner_gap (reason : str) (p : OwnerPass) : OwnerPass :=
  {| op_owners := op_owners p; op_empty := op_empty p; op_gaps := op_gaps p ++ [OwnersUnavailable reason] |}.

Definition of_paths (n : nat) : str := lit " of " ++ fmt_n n ++ lit " path(s)".

Fixpoint owner_loop (program repo : str) (cap : nat) (deadline : Duration) (started : Z)
    (total examined : nat) (paths : list str) (p : OwnerPass) (w : World) : World * OwnerPass :=
  match paths with
  | [] => (w, p)
  | path :: paths' =>
      let (w, t) := now w in
      let remaining := Z.max 0 (deadline - (t - started)) in
      if remaining =? 0
      then (w, owner_gap (lit "owner lookup exceeded " ++ debug_duration deadline ++ lit " after "
                            ++ fmt_n examined ++ of_paths total) p)
      else
        let (w, r) :=
          run_git_with_deadline program repo (owner_args cap path) (lit "git log -- " ++ path)
            OWNER_OUTPUT_CAP remaining w in
        match r with
        | Ok captured =>
            let (owners, empty) :=
              foldl owner_line (op_owners p, op_empty p) (lines (stdout_lossy captured)) in
            owner_loop program repo cap deadline started total (S examined) paths'
              {| op_owners := owners; op_empty := empty; op_gaps := op_gaps p |} w
        | Err (HDeadline what) =>
            (w, owner_gap (what ++ lit " exceeded the remaining owner budget after " ++ fmt_n examined
                             ++ of_paths total) p)
        | Err refusal =>
            let p := owner_gap (describe_history refusal) p in
            match refusal with
            | HGitUnavailable _ => (w, p)
            | _ => owner_loop program repo cap deadline started total (S examined) paths' p w
            end
        end
  end.

Definition owner_leb : str * str → str * str → bool := asc_str fst (by_str snd).

Definition nameless : str := lit "at least one commit has an empty author name and email".

Definition owners_for_paths (program repo : str) (paths : list str) (cap : nat) (deadline : Duration)
    (w : World) : World * (list Owner * list Unavailable) :=
  if bool_decide (length paths = O) then (w, ([], []))
  else
    let (w, started) := now w in
    let (w, p) :=
      owner_loop program repo cap deadline started (length paths) 0 paths
        {| op_owners := ∅; op_empty := false; op_gaps := [] |} w in
    (w, (map (λ e : str * str, {| ow_name := e.1; ow_email := e.2 |})
           (sort_by owner_leb (elements (op_owners p))),
         op_gaps p ++ (if op_empty p then [OwnersUnavailable nameless] else []))).

(** ** The analysis *)

Definition when (b : bool) (u : Unavailable) : list Unavailable := if b then [u] else [].

Definition unattributed_lines (us : list UnattributedChange) : Z :=
  sum_lines (map (λ u, (ua_start u, ua_end u)) us).

Definition blast_change_bounded (program repo : str) (shared : option BlobReader) (change : ChangeSet)
    (label until : str) (depth : Z) (budget : Budget) (w : World) : World * BlastReport :=
  let fs := files change in
  let capped := when (cs_capped change) (ChangedFilesCapped (length fs) MAX_CHANGED_FILES) in
  let start := {| pl_reader := Suspects.reader_for shared program repo; pl_seeds := ∅; pl_unattributed := [] |} in
  let '(w, st, exhausted) := place_files until budget (length fs) 0 fs start w in
  let un := pl_unattributed st in
  let missed :=
    when (negb (bool_decide (length un = O))) (ChangeUnattributed (length un) (unattributed_lines un)) in
  let touched := sort_by seed_leb (map snd (map_to_list (pl_seeds st))) in
  let trimmed :=
    when (MAX_SEED_SYMBOLS <? length touched)%nat
      (SeedsCapped MAX_SEED_SYMBOLS (length touched) MAX_SEED_SYMBOLS) in
  let ordered := take MAX_SEED_SYMBOLS touched in
  let names := map sd_name ordered in
  let changed_paths := map fc_path fs in
  let (reached, walk_stopped) :=
    if bool_decide (length names = O) then ([], false) else impacted names depth in
  let walk := when walk_stopped (ImpactIncomplete depth (length reached)) in
  let symbols := roll_up_symbols reached (λ n, bool_decide (n ∈ names)) in
  let by_file := roll_up_files symbols ordered changed_paths in
  let (ts, tests_stopped) :=
    if bool_decide (length names = O) then ([], false) else affected_tests names depth in
  let untested := when tests_stopped (AffectedTestsIncomplete (length ts)) in
  let modules := annotate_test_signals (roll_up_modules by_file) ordered ts fs tests_stopped in
  let '(w, (owners, owner_gaps)) :=
    match exhausted with
    | Some _ => (w, ([], []))
    | None =>
        let (w, time_left) := budget_remaining budget w in
        owners_for_paths program repo (owner_paths fs) OWNER_COMMIT_CAP (Z.min OWNER_DEADLINE time_left) w
    end in
  (w, new_report label fs ordered un symbols by_file modules ts owners
        (capped ++ option_list exhausted ++ missed ++ trimmed ++ walk ++ untested ++ owner_gaps)).

Definition blast_bounded (program repo : str) (shared : option BlobReader) (since until : str)
    (depth : Z) (budget : Budget) (w : World) : World * BlastReport :=
  let label := since ++ lit ".." ++ until in
  let (w, change) := changes_between program repo since until w in
  match change with
  | Err refusal => (w, refused label [ChangeUnreadable (describe_change refusal)])
  | Ok change => blast_change_bounded program repo shared change label until depth budget w
  end.

End Blast.
End Blast.
