(* ===== verification/ChangeText.v ===== *)
(** * Patches as git writes them

    A patch with no context, as text: the blocks of [git diff --unified=0] and the entries
    of [git diff --raw -z], and what reading them back gives. *)

From S2P Require Import Prelude RustStr RustStrFacts Regress GitReads Change RegressFacts.
Import Regress GitReads Change ChangeFacts.

#[local] Open Scope Z_scope.

Module ChangeText.

(** ** Hunks *)

(** A hunk: its pre-image field, its post-image start and count, the count left out or
    not, the section heading, and the lines under the header. *)
Record HunkText := {
  h_old : str;
  h_start : Z;
  h_count : Z;
  h_short : bool;
  h_heading : str;
  h_body : list str;
}.

Definition post_field (h : HunkText) : str :=
  lit "+" ++ fmt_u (h_start h) ++ (if h_short h then [] else chr "," :: fmt_u (h_count h)).

Definition hunk_header (h : HunkText) : str :=
  lit "@@ " ++ h_old h ++ lit " " ++ post_field h ++ lit " @@" ++ h_heading h.

(** A line of content: added, removed, or git's note on a missing last newline. *)
Definition is_body (l : str) : bool :=
  match l with c :: _ => (c =? chr "+") || (c =? chr "-") || (c =? 92) | [] => false end.

Record hunk_written (h : HunkText) : Prop := {
  hw_start : 0 ≤ h_start h ≤ u32_max;
  hw_count : 0 ≤ h_count h ≤ u32_max;
  hw_short : h_short h = true → h_count h = 1;
  hw_old : h_old h ≠ [] ∧ no_space (h_old h) = true ∧ starts_with (lit "+") (h_old h) = false;
  hw_body : Forall (λ l, is_body l = true) (h_body h);
}.

Lemma find_split_skip c p a s x y :
  all_chars (λ d, negb (d =? c)) a = true → find_split (c :: p) s = Some (x, y) →
  find_split (c :: p) (a ++ s) = Some (a ++ x, y).
Proof.
  intros Ha Hs. induction a as [|d a IH]; [done|]. cbn in Ha. apply andb_prop in Ha as [Hd Ha].
  bool_to_prop. cbn [app find_split]. unfold starts_with at 1. rewrite strip_prefix_head_ne by done.
  cbn iota. by rewrite (IH Ha).
Qed.

Lemma post_field_plain h : hunk_written h → no_space (post_field h) = true.
Proof.
  intros Hh. pose proof (digits_no_space _ (fmt_u_digits _ (proj1 (hw_start h Hh)))) as H1.
  pose proof (digits_no_space _ (fmt_u_digits _ (proj1 (hw_count h Hh)))) as H2.
  unfold no_space in *. unfold post_field. rewrite !all_chars_app, H1.
  destruct (h_short h); [done|]. by change (chr "," :: ?x) with (lit "," ++ x); rewrite all_chars_app, H2.
Qed.

Lemma fields_two a b :
  a ≠ [] → b ≠ [] → no_space a = true → no_space b = true →
  split_whitespace (a ++ lit " " ++ b) = [a; b].
Proof. intros. change (lit " " ++ b) with (32 :: b). by rewrite fields_cons, fields_last. Qed.

Lemma find_split_step p x s a b :
  strip_prefix p (x :: s) = None → find_split p s = Some (a, b) → find_split p (x :: s) = Some (x :: a, b).
Proof. intros Hn Hs. cbn [find_split]. unfold starts_with at 1. rewrite Hn. cbn iota. by rewrite Hs. Qed.

Lemma until_marker_written old post heading :
  no_space old = true → no_space post = true → starts_with (lit "@") post = false →
  until_marker (old ++ lit " " ++ post ++ lit " @@" ++ heading) = old ++ lit " " ++ post.
Proof.
  intros Ho Hp Hat. unfold until_marker. change (lit " @@") with (32 :: lit "@@").
  erewrite find_split_skip; [reflexivity|by apply (not_whitespace_ne 32)|].
  change (lit " " ++ ?x) with (32 :: x). apply (find_split_step _ 32).
  - cbn [strip_prefix app]. rewrite Z.eqb_refl. apply strip_prefix_None in Hat.
    destruct post as [|c post]; [done|]. change (lit "@@") with (64 :: lit "@").
    change (lit "@") with [64] in Hat. cbn [strip_prefix app] in *. by destruct (64 =? c).
  - apply (find_split_first 32). by apply (not_whitespace_ne 32).
Qed.

(** Reading a header back gives the lines it names. *)
Lemma parse_hunk_written h :
  hunk_written h → parse_hunk (hunk_header h) = Ok (hunk_range (h_start h) (h_count h)).
Proof.
  intros Hh. destruct (hw_old h Hh) as (Hne & Hsp & Hpl). pose proof (post_field_plain h Hh) as Hpf.
  pose proof (hw_start h Hh). pose proof (hw_count h Hh).
  unfold parse_hunk, hunk_header. rewrite strip_prefix_app. cbn [ok_or].
  rewrite until_marker_written by done. rewrite fields_two by done. cbn [plus_field].
  apply strip_prefix_None in Hpl. rewrite Hpl. unfold post_field. rewrite strip_prefix_app. cbn [ok_or].
  pose proof (fmt_u_digits (h_start h) ltac:(lia)) as Hd. destruct (h_short h) eqn:Es.
  - rewrite app_nil_r. rewrite split_once_none by (by apply (digits_not 44); [lia|]).
    cbn [default]. rewrite parse_u32_fmt by done. cbn [ok_or]. by rewrite (hw_short h Hh Es).
  - rewrite split_once_app by (by apply (digits_not 44); [lia|]). cbn [default].
    unfold Datatypes.id. cbn iota beta. by rewrite !parse_u32_fmt.
Qed.

(** ** Headers *)

(** What a [---] or [+++] line names: a path under its marker, a tab after it when it
    holds a space; a path in git's quotes; or nothing. *)
Inductive HeaderText : Type :=
  | Named (path : str)
  | Quoted (text : str)
  | DevNull.

Definition header_text (marker : str) (t : HeaderText) : str :=
  match t with
  | Named path => marker ++ path ++ (if existsb (Z.eqb 32) path then [9] else [])
  | Quoted text => 34 :: text
  | DevNull => lit "/dev/null"
  end.

(** A path git writes without quotes. *)
Definition unquoted (path : str) : bool :=
  negb (bool_decide (path = [])) && all_chars (λ c, negb ((c <? 32) || (c =? 34) || (c =? 92) || (c =? 127))) path.

Definition header_written (t : HeaderText) : Prop :=
  match t with
  | Named path => unquoted path = true
  | Quoted text => ∃ body, text = body ++ [34]
  | DevNull => True
  end.

Definition names (t : HeaderText) : Side :=
  match t with
  | Named path => Ok (Some path)
  | Quoted text => Err (34 :: text)
  | DevNull => Ok None
  end.

Lemma strip_tab s c : c ≠ 9 → default (s ++ [c]) (strip_suffix [9] (s ++ [c])) = s ++ [c].
Proof.
  intros Hc. destruct (strip_suffix [9] (s ++ [c])) as [r|] eqn:E; [|done].
  apply strip_suffix_Some, app_inj_2 in E as [_ [= ->]]; done.
Qed.

Lemma side_written marker t :
  (marker = lit "a/" ∨ marker = lit "b/") → header_written t → side (header_text marker t) = names t.
Proof.
  intros Hm Ht. destruct t as [path|text|]; cbn [header_text names]; [| |done].
  - apply andb_prop in Ht as [Hne Hc]. bool_to_prop.
    assert (Hs : default (header_text marker (Named path)) (strip_suffix [9] (header_text marker (Named path)))
                 = marker ++ path).
    { cbn [header_text]. destruct (existsb _ path).
      - rewrite app_assoc, strip_suffix_app. done.
      - rewrite app_nil_r. destruct path as [|c path _] using rev_ind; [done|].
        rewrite app_assoc. apply strip_tab. rewrite all_chars_app in Hc. apply andb_prop in Hc as [_ Hc].
        intros ->. done. }
    cbn [header_text] in Hs. unfold side. rewrite Hs.
    destruct Hm as [-> | ->].
    + change (bool_decide (lit "a/" ++ path = lit "/dev/null")) with false.
      change (starts_with [34] (lit "a/" ++ path)) with false. cbn iota.
      rewrite strip_prefix_app. by rewrite bool_decide_eq_false_2.
    + change (bool_decide (lit "b/" ++ path = lit "/dev/null")) with false.
      change (starts_with [34] (lit "b/" ++ path)) with false. cbn iota.
      change (strip_prefix (lit "a/") (lit "b/" ++ path)) with (@None str).
      rewrite strip_prefix_app. cbn [default]. unfold Datatypes.id. by rewrite bool_decide_eq_false_2.
  - destruct Ht as [body ->]. unfold side. rewrite app_comm_cons, strip_tab by done. done.
Qed.

(** ** Blocks *)

(** A block: what follows [diff --git], the lines before the names, the two names if it
    has any, and either its hunks or the lines that say it is binary. *)
Record BlockText := {
  bt_line : str;
  bt_meta : list str;
  bt_names : option (HeaderText * HeaderText);
  bt_content : list HunkText + (str * list str);
}.

Definition name_lines (ns : option (HeaderText * HeaderText)) : list str :=
  match ns with
  | Some (before, after) =>
      [lit "--- " ++ header_text (lit "a/") before; lit "+++ " ++ header_text (lit "b/") after]
  | None => []
  end.

Definition hunk_lines (h : HunkText) : list str := hunk_header h :: h_body h.

Definition content_lines (c : list HunkText + (str * list str)) : list str :=
  match c with inl hs => flat_map hunk_lines hs | inr (said, payload) => said :: payload end.

Definition block_lines (b : BlockText) : list str :=
  (lit "diff --git " ++ bt_line b) :: bt_meta b ++ name_lines (bt_names b) ++ content_lines (bt_content b).

(** An extended header line, and a line of a binary patch: not the start of anything the
    reader looks for. *)
Definition opens (l : str) : bool :=
  starts_with (lit "@@@") l || starts_with (lit "diff --git ") l || starts_with (lit "@@ ") l.
Definition is_meta (l : str) : bool :=
  negb (opens l || is_binary_line l || starts_with (lit "--- ") l || starts_with (lit "+++ ") l).

Definition names_written (ns : option (HeaderText * HeaderText)) : Prop :=
  match ns with Some (before, after) => header_written before ∧ header_written after | None => True end.

Definition content_written (c : list HunkText + (str * list str)) : Prop :=
  match c with
  | inl hs => Forall hunk_written hs
  | inr (said, payload) => is_binary_line said = true ∧ opens said = false ∧ Forall (λ l, opens l = false) payload
  end.

Record block_written (b : BlockText) : Prop := {
  bw_meta : Forall (λ l, is_meta l = true) (bt_meta b);
  bw_names : names_written (bt_names b);
  bw_content : content_written (bt_content b);
}.

(** What a written block says. *)
Definition hunk_of (h : HunkText) : ChangedRange := hunk_range (h_start h) (h_count h).

Definition block_of (b : BlockText) : Block :=
  {| pre := (λ ns, names ns.1) <$> bt_names b;
     post := (λ ns, names ns.2) <$> bt_names b;
     binary := match bt_content b with inl _ => false | inr _ => true end;
     b_ranges := match bt_content b with inl hs => map hunk_of hs | inr _ => [] end |}.

(** ** Scanning a block *)

Lemma body_not_open l : is_body l = true → opens l = false.
Proof.
  destruct l as [|c l]; [done|]. cbn [is_body]. rewrite !orb_true_iff, !Z.eqb_eq.
  intros [[-> | ->] | ->]; done.
Qed.

(** Content is not read for names, whatever it says. *)
Lemma scan_content ls rest closed_ b :
  Forall (λ l, opens l = false) ls →
  scan_loop (ls ++ rest) {| closed := closed_; open := Some b; in_hunks := true |}
  = scan_loop rest {| closed := closed_; open := Some b; in_hunks := true |}.
Proof.
  induction 1 as [|l ls Hl _ IH]; [done|]. cbn [app scan_loop]. unfold scan_line.
  unfold opens in Hl. apply orb_false_iff in Hl as [[H1 H2]%orb_false_iff H3]. rewrite H1, H2.
  cbn [open in_hunks]. unfold hunk_line. by rewrite H3.
Qed.

Definition with_ranges (rs : list ChangedRange) (b : Block) : Block :=
  {| pre := pre b; post := post b; binary := binary b; b_ranges := b_ranges b ++ rs |}.

Lemma hunk_header_opens h l : starts_with (lit "@@@") (hunk_header h) = false
  ∧ starts_with (lit "diff --git ") (hunk_header h) = false
  ∧ starts_with (lit "@@ ") (hunk_header h ++ l) = true ∧ is_binary_line (hunk_header h) = false
  ∧ strip_prefix (lit "--- ") (hunk_header h) = None ∧ strip_prefix (lit "+++ ") (hunk_header h) = None.
Proof. unfold hunk_header. by split_and!. Qed.

Lemma scan_hunk h rest closed_ b inside :
  hunk_written h →
  scan_loop (hunk_lines h ++ rest) {| closed := closed_; open := Some b; in_hunks := inside |}
  = scan_loop rest {| closed := closed_; open := Some (with_ranges [hunk_of h] b); in_hunks := true |}.
Proof.
  intros Hh. destruct (hunk_header_opens h []) as (H1 & H2 & H3 & H4 & H5 & H6).
  rewrite app_nil_r in H3. unfold hunk_lines. cbn [app scan_loop]. unfold scan_line at 1.
  rewrite H1, H2. cbn [open in_hunks]. unfold header_line, hunk_line. rewrite H4, H5, H6, H3.
  rewrite parse_hunk_written by done. destruct inside.
  all: apply scan_content; eapply Forall_impl; [exact (hw_body h Hh)|]; apply body_not_open.
Qed.

Lemma scan_hunks hs rest closed_ : ∀ b inside,
  Forall hunk_written hs →
  scan_loop (flat_map hunk_lines hs ++ rest) {| closed := closed_; open := Some b; in_hunks := inside |}
  = scan_loop rest {| closed := closed_; open := Some (with_ranges (map hunk_of hs) b);
                      in_hunks := inside || negb (bool_decide (length hs = O)) |}.
Proof.
  induction hs as [|h hs IH]; intros b inside Hhs.
  { cbn [flat_map app map]. unfold with_ranges. rewrite app_nil_r, orb_false_r. by destruct b. }
  apply Forall_cons in Hhs as [Hh Hhs]. cbn [flat_map]. rewrite <- app_assoc, scan_hunk by done.
  rewrite IH by done. unfold with_ranges. cbn. rewrite <- app_assoc, orb_true_r. done.
Qed.

Lemma scan_meta ms rest closed_ b :
  Forall (λ l, is_meta l = true) ms →
  scan_loop (ms ++ rest) {| closed := closed_; open := Some b; in_hunks := false |}
  = scan_loop rest {| closed := closed_; open := Some b; in_hunks := false |}.
Proof.
  induction 1 as [|l ls Hl _ IH]; [done|]. cbn [app scan_loop]. unfold scan_line.
  unfold is_meta, opens in Hl. apply negb_true_iff in Hl. rewrite !orb_false_iff in Hl.
  destruct Hl as [[[[[H1 H2] H3] H4] H5%strip_prefix_None] H6%strip_prefix_None].
  rewrite H1, H2. cbn [open in_hunks]. unfold header_line, hunk_line. by rewrite H4, H5, H6, H3.
Qed.

Lemma scan_names ns rest closed_ b :
  names_written ns →
  scan_loop (name_lines ns ++ rest) {| closed := closed_; open := Some b; in_hunks := false |}
  = scan_loop rest
      {| closed := closed_;
         open := Some {| pre := match ns with Some (x, _) => Some (names x) | None => pre b end;
                         post := match ns with Some (_, y) => Some (names y) | None => post b end;
                         binary := binary b; b_ranges := b_ranges b |};
         in_hunks := false |}.
Proof.
  intros Hns. destruct ns as [[x y]|]; [|by destruct b]. destruct Hns as [Hx Hy].
  cbn [name_lines app scan_loop]. unfold scan_line at 1.
  change (starts_with (lit "@@@") (lit "--- " ++ ?t)) with false.
  change (starts_with (lit "diff --git ") (lit "--- " ++ ?t)) with false. cbn [open in_hunks].
  change (is_binary_line (lit "--- " ++ ?t)) with false. unfold header_line at 1.
  rewrite strip_prefix_app. cbn [scan_loop]. unfold scan_line at 1.
  change (starts_with (lit "@@@") (lit "+++ " ++ ?t)) with false.
  change (starts_with (lit "diff --git ") (lit "+++ " ++ ?t)) with false. cbn [open in_hunks in_block].
  change (is_binary_line (lit "+++ " ++ ?t)) with false. unfold header_line at 1.
  change (strip_prefix (lit "--- ") (lit "+++ " ++ ?t)) with (@None str).
  rewrite strip_prefix_app. rewrite !side_written by tauto. done.
Qed.

(** A block is read as what it says, and closes the one before it. *)
Lemma scan_block b rest st :
  block_written b →
  ∃ inside,
    scan_loop (block_lines b ++ rest) st
    = scan_loop rest {| closed := all_blocks st; open := Some (block_of b); in_hunks := inside |}.
Proof.
  intros [Hm Hn Hc]. unfold block_lines. cbn [app scan_loop]. unfold scan_line at 1.
  change (starts_with (lit "@@@") (lit "diff --git " ++ ?t)) with false. rewrite starts_with_app. cbn iota.
  rewrite <- !app_assoc, scan_meta, scan_names by done. unfold block_of.
  destruct (bt_content b) as [hs|[said payload]]; cbn [content_lines] in *.
  - rewrite scan_hunks by done. eexists. by destruct (bt_names b) as [[x y]|].
  - destruct Hc as (Hsaid & Hopen & Hp). exists true. cbn [app scan_loop]. unfold scan_line at 1.
    unfold opens in Hopen. rewrite !orb_false_iff in Hopen. destruct Hopen as [[H1 H2] _].
    rewrite H1, H2, Hsaid. cbn [open in_hunks closed]. unfold in_block. cbn [closed].
    rewrite scan_content by done.
    by destruct (bt_names b) as [[x y]|].
Qed.

Lemma scan_written bs : ∀ st,
  Forall block_written bs →
  ∃ st', scan_loop (flat_map block_lines bs) st = Ok st' ∧ all_blocks st' = all_blocks st ++ map block_of bs.
Proof.
  induction bs as [|b bs IH]; intros st Hbs; [exists st; by rewrite app_nil_r|].
  apply Forall_cons in Hbs as [Hb Hbs]. cbn [flat_map].
  destruct (scan_block b (flat_map block_lines bs) st Hb) as [inside ->].
  destruct (IH {| closed := all_blocks st; open := Some (block_of b); in_hunks := inside |} Hbs)
    as (st' & -> & E).
  exists st'. split; [done|]. rewrite E. unfold all_blocks at 1. cbn. by rewrite <- app_assoc.
Qed.

(** ** The text *)

Definition cr_free (b : BlockText) : BlockText :=
  {| bt_line := bt_line b; bt_meta := bt_meta b; bt_names := bt_names b;
     bt_content :=
       match bt_content b with
       | inl hs => inl (map (λ h, {| h_old := h_old h; h_start := h_start h; h_count := h_count h;
                                     h_short := h_short h; h_heading := h_heading h;
                                     h_body := map strip_cr (h_body h) |}) hs)
       | inr (said, payload) => inr (said, map strip_cr payload)
       end |}.

(** The lines git writes itself end where they end. *)
Definition own_lines (b : BlockText) : list str :=
  (lit "diff --git " ++ bt_line b) :: bt_meta b ++ name_lines (bt_names b)
  ++ match bt_content b with inl hs => map hunk_header hs | inr (said, _) => [said] end.

Definition text_lines (b : BlockText) : Prop :=
  Forall (λ l, line_ok l = true) (own_lines b) ∧ Forall (λ l, no_nl l = true) (block_lines b).

Lemma cr_free_lines b : text_lines b → map strip_cr (block_lines b) = block_lines (cr_free b).
Proof.
  intros [Ho _]. unfold own_lines in Ho. rewrite Forall_cons, !Forall_app in Ho.
  destruct Ho as (H1 & H2 & H3 & H4). unfold block_lines, cr_free. cbn [map bt_line bt_meta bt_names bt_content].
  rewrite !map_app, (strip_cr_ok (bt_meta b)), (strip_cr_ok (name_lines (bt_names b))) by done.
  rewrite (strip_cr_line _ H1). do 3 f_equal. destruct (bt_content b) as [hs|[said payload]]; cbn [content_lines].
  - induction hs as [|h hs IH]; [done|]. apply Forall_cons in H4 as [Hh Hhs].
    cbn [flat_map map]. rewrite map_app, IH by done. unfold hunk_lines. cbn [map h_body].
    by rewrite (strip_cr_line _ Hh).
  - cbn [map]. apply Forall_cons in H4 as [Hs _]. by rewrite (strip_cr_line _ Hs).
Qed.

Lemma opens_strip l : opens l = false → opens (strip_cr l) = false.
Proof.
  intros Hl. unfold strip_cr. destruct (strip_suffix [cr] l) as [r|] eqn:E; [|done].
  apply strip_suffix_Some in E. subst l. unfold opens in *. rewrite !orb_false_iff in *.
  assert (Hs : ∀ p, starts_with p (r ++ [cr]) = false → starts_with p r = false).
  { intros p Hp. apply not_true_iff_false. intros [t ->]%starts_with_spec.
    by rewrite <- app_assoc, starts_with_app in Hp. }
  destruct Hl as [[? ?] ?]. by split_and!; apply Hs.
Qed.

Lemma cr_free_written b : block_written b → block_written (cr_free b) ∧ block_of (cr_free b) = block_of b.
Proof.
  intros [Hm Hn Hc]. unfold cr_free, block_of. destruct (bt_content b) as [hs|[said payload]]; cbn in *.
  - split; [|f_equal; by rewrite map_map]. split; [done..|]. cbn. apply Forall_map. eapply Forall_impl; [exact Hc|].
    intros h [? ? ? ? Hb]. split; [done..|]. cbn. apply Forall_map. eapply Forall_impl; [exact Hb|].
    intros [|c l]; [done|]. cbn [is_body compose]. intros Hl.
    destruct (strip_cr_cons c l) as [l' E]; [by intros ->|]. unfold compose. by rewrite E.
  - split; [|done]. split; [done..|]. cbn. destruct Hc as (? & ? & Hp). split_and!; [done..|].
    apply Forall_map. eapply Forall_impl; [exact Hp|]. intros l. apply opens_strip.
Qed.

Definition patch_text (bs : list BlockText) : str := unlines (flat_map block_lines bs).

(** A patch is read as the blocks it was written from. *)
Lemma scan_patch bs :
  Forall block_written bs → Forall text_lines bs → scan_blocks (patch_text bs) = Ok (map block_of bs).
Proof.
  intros Hb Ht. unfold scan_blocks, patch_text. rewrite lines_unlines_cr.
  2:{ rewrite Forall_flat_map. eapply Forall_impl; [exact Ht|]. by intros b [_ ?]. }
  assert (E : map strip_cr (flat_map block_lines bs) = flat_map block_lines (map cr_free bs)).
  { clear Hb. induction Ht as [|b bs Hb _ IH]; [done|]. cbn [flat_map map].
    by rewrite map_app, cr_free_lines, IH. }
  assert (E' : map block_of (map cr_free bs) = map block_of bs).
  { rewrite map_map. apply map_ext_Forall. eapply Forall_impl; [exact Hb|]. intros b H. by apply cr_free_written. }
  rewrite E. destruct (scan_written (map cr_free bs) start_scan) as (st & -> & ->).
  { apply Forall_map. eapply Forall_impl; [exact Hb|]. intros b H. by apply cr_free_written. }
  by rewrite E'.
Qed.

End ChangeText.
