(* ===== verification/ChangeProps.v ===== *)
(** * Reading back a change that was written *)

From S2P Require Import Prelude RustStr RustStrFacts Regress GitReads Change RegressFacts ChangeText Order.
Import Regress GitReads Change ChangeFacts ChangeText.

#[local] Open Scope Z_scope.

Module ChangeRead.

(** ** The raw listing *)

(** An entry: what stands before its status, the status letter and its score, the path
    and the second one of a rename or a copy. *)
Record EntryText := {
  et_modes : list Z;
  et_status : Z;
  et_score : list Z;
  et_old : str;
  et_new : option str;
}.

Definition meta_field (e : EntryText) : list Z := chr ":" :: et_modes e ++ 32 :: et_status e :: et_score e.

Definition entry_fields (e : EntryText) : list (list Z) :=
  meta_field e :: utf8_encode (et_old e) :: option_list (utf8_encode <$> et_new e).

(** Every field ends in a NUL. *)
Definition entry_bytes (e : EntryText) : list Z := flat_map (λ f, f ++ [0]) (entry_fields e).

Definition free_of (c : Z) (bs : list Z) : bool := all_chars (λ d, negb (d =? c)) bs.

Definition path_written (p : str) : Prop := all_chars is_scalar p = true ∧ free_of 0 p = true.

Record entry_written (e : EntryText) : Prop := {
  ew_modes : free_of 0 (et_modes e) = true;
  ew_status : free_of 0 (et_status e :: et_score e) = true ∧ free_of 32 (et_status e :: et_score e) = true;
  ew_old : path_written (et_old e);
  ew_new : ∀ p, et_new e = Some p → path_written p;
  ew_second : has_second (et_status e) = true ↔ is_Some (et_new e);
}.

Lemma split_on_app p a c b : p c = true → split_on p (a ++ c :: b) = split_on p a ++ split_on p b.
Proof.
  intros Hc. induction a as [|x a IH]; cbn [app split_on]; [by rewrite Hc|].
  rewrite IH. destruct (p x); [done|]. pose proof (split_on_nonempty p a).
  by destruct (split_on p a).
Qed.

Lemma free_of_sep c bs : free_of c bs = true → all_chars (λ d, negb (c =? d)) bs = true.
Proof. apply all_chars_impl. intros d. by rewrite Z.eqb_sym. Qed.

Lemma raw_status_written e : entry_written e → raw_status (meta_field e) = Some (et_status e).
Proof.
  intros He. unfold raw_status, meta_field. rewrite app_comm_cons, split_on_app by done.
  rewrite (split_on_none _ (et_status e :: et_score e)) by (apply free_of_sep, ew_status; done).
  by rewrite last_snoc.
Qed.

Lemma utf8_nul s : free_of 0 s = true → all_chars is_scalar s = true → free_of 0 (utf8_encode s) = true.
Proof. by apply utf8_free. Qed.

Lemma entry_nuls e : entry_written e → Forall (λ f, free_of 0 f = true) (entry_fields e).
Proof.
  intros [Hm [Hs _] [Ho1 Ho2] Hn _]. unfold entry_fields. repeat constructor.
  - unfold meta_field, free_of in *. cbn [forallb]. rewrite all_chars_app, Hm. exact Hs.
  - by apply utf8_nul.
  - destruct (et_new e) as [p|]; [|constructor]. destruct (Hn p eq_refl). repeat constructor. by apply utf8_nul.
Qed.

Lemma split_fields fs rest :
  Forall (λ f, free_of 0 f = true) fs →
  split_on (Z.eqb 0) (flat_map (λ f, f ++ [0]) fs ++ rest) = fs ++ split_on (Z.eqb 0) rest.
Proof.
  induction 1 as [|f fs Hf _ IH]; [done|]. cbn [flat_map]. rewrite <- !app_assoc. cbn [app].
  rewrite split_on_app_sep; [by rewrite IH|by apply free_of_sep|done].
Qed.

Definition entry_of (e : EntryText) : RawEntry :=
  {| re_status := et_status e; re_old := utf8_encode (et_old e); re_new := utf8_encode <$> et_new e |}.

Lemma raw_entry e fields :
  entry_written e →
  raw_entries (entry_fields e ++ fields)
  = (let? es := raw_entries fields in Ok (entry_of e :: es)).
Proof.
  intros He. pose proof (raw_status_written e He) as Hs. pose proof (ew_second e He) as H2.
  unfold entry_fields. destruct (meta_field e) as [|b meta] eqn:E; [done|].
  assert (b = chr ":") as -> by (by injection E as <- _).
  cbn [app]. cbn [raw_entries].
  rewrite Hs. change (negb (chr ":" =? chr ":")) with false. cbn iota. unfold entry_of.
  destruct (et_new e) as [p|]; cbn.
  - rewrite (proj2 H2) by done. done.
  - destruct (has_second (et_status e)); [|done]. by destruct (proj1 H2 eq_refl).
Qed.

Lemma raw_written es :
  Forall entry_written es → parse_raw (flat_map entry_bytes es) = Ok (map entry_of es).
Proof.
  intros Hes. unfold parse_raw.
  assert (E : split_on (Z.eqb 0) (flat_map entry_bytes es) = flat_map entry_fields es ++ [[]]).
  { induction Hes as [|e es He _ IH]; [done|]. cbn [flat_map]. unfold entry_bytes at 1.
    rewrite split_fields by (by apply entry_nuls). by rewrite IH, app_assoc. }
  rewrite E. clear E. induction Hes as [|e es He _ IH]; [done|]. cbn [flat_map map].
  by rewrite <- app_assoc, raw_entry, IH.
Qed.

(** ** Entries and their blocks *)

(** A file of a change: its entry, the block its ranges come from, and before it, for a
    type change, the block of the file it was. *)
Record Told := { t_entry : EntryText; t_before : option BlockText; t_block : BlockText }.

Definition told_blocks (t : Told) : list BlockText := option_list (t_before t) ++ [t_block t].

Definition told_path (e : EntryText) : str := default (et_old e) (et_new e).

(** A header that states a path states one of the entry's. *)
Definition header_agrees (e : EntryText) (h : HeaderText) : Prop :=
  match h with Named p => p = et_old e ∨ et_new e = Some p | _ => True end.

Record told_written (t : Told) : Prop := {
  tw_entry : entry_written (t_entry t);
  tw_blocks : Forall (λ b, block_written b ∧ text_lines b) (told_blocks t);
  tw_type : et_status (t_entry t) = chr "T" ↔ is_Some (t_before t);
  tw_names : ∀ x y, bt_names (t_block t) = Some (x, y) → header_agrees (t_entry t) x ∧ header_agrees (t_entry t) y;
}.

(** The file a reader of the diff sees. *)
Definition told_status (t : Told) : ChangeStatus :=
  if et_status (t_entry t) =? chr "D" then Deleted
  else match bt_content (t_block t) with
       | inr _ => Binary
       | inl _ => if et_status (t_entry t) =? chr "A" then Added else Modified
       end.

Definition told_ranges (t : Told) : list ChangedRange :=
  match bt_content (t_block t), told_status t with
  | inl hs, (Modified | Added) => merge_ranges (map hunk_of hs)
  | _, _ => []
  end.

Definition told_file (t : Told) : FileChange :=
  {| fc_path := told_path (t_entry t);
     renamed_from :=
       match et_new (t_entry t) with
       | Some new => if bool_decide (et_old (t_entry t) = new) then None else Some (et_old (t_entry t))
       | None => None
       end;
     status := told_status t; ranges := told_ranges t |}.

Section Pairing.
Context `{DebugTable}.

Lemma check_told t h :
  entry_written (t_entry t) → header_agrees (t_entry t) h →
  check_header (entry_of (t_entry t)) (Some (names h)) = Ok tt.
Proof.
  intros He Ha. destruct h as [p|text|]; [|done|done]. cbn [names check_header].
  rewrite (proj2 (existsb_true _ _)); [done|]. exists (utf8_encode p). rewrite bool_decide_eq_true.
  split; [|done]. destruct Ha as [->|Hn]; [by left|]. right. cbn. rewrite Hn. cbn. by left.
Qed.

Lemma from_utf8_encode p : all_chars is_scalar p = true → from_utf8 (utf8_encode p) = Some p.
Proof. intros Hp. by apply from_utf8_Some. Qed.

Lemma entry_file_told t :
  told_written t → merge_file (entry_file (entry_of (t_entry t)) (block_of (t_block t))) = told_file t.
Proof.
  intros [[_ _ [Ho _] Hn Hsec] _ _ _]. unfold entry_file, entry_of. cbn [re_new re_old re_status].
  assert (Hp : default (utf8_encode (et_old (t_entry t))) (utf8_encode <$> et_new (t_entry t))
               = utf8_encode (told_path (t_entry t))).
  { unfold told_path. by destruct (et_new (t_entry t)). }
  rewrite Hp, from_utf8_encode.
  2:{ unfold told_path. destruct (et_new (t_entry t)) as [p|]; [by apply (Hn p)|done]. }
  assert (Hs : let s := et_status (t_entry t) in
    (s =? chr "A") = true ∧ (s =? chr "D") = false ∨ (s =? chr "A") = false ∧ (s =? chr "D") = true
    ∨ (s =? chr "A") = false ∧ (s =? chr "D") = false).
  { cbn zeta. destruct (Z.eqb_spec (et_status (t_entry t)) (chr "A")) as [->|]; [by left|].
    destruct (_ =? chr "D"); auto. }
  rewrite from_utf8_encode by done. unfold merge_file, file_change, told_file, told_ranges, told_status.
  cbn [fc_path renamed_from status ranges block_of binary b_ranges]. unfold status_of, told_path. f_equal.
  - by destruct (et_new (t_entry t)).
  - destruct (bt_content (t_block t)), Hs as [[E1 E2]|[[E1 E2]|[E1 E2]]]; by rewrite ?E1, ?E2.
  - destruct (bt_content (t_block t)), Hs as [[E1 E2]|[[E1 E2]|[E1 E2]]]; by rewrite ?E1, ?E2.
Qed.

Lemma pair_told ts :
  Forall told_written ts →
  ∃ fs, pair_entries (map (λ t, entry_of (t_entry t)) ts) (map block_of (flat_map told_blocks ts)) = Ok fs
        ∧ map merge_file fs = map told_file ts.
Proof.
  induction 1 as [|t ts Ht _ (fs & IH & E)]; [by exists []|].
  exists (entry_file (entry_of (t_entry t)) (block_of (t_block t)) :: fs).
  split; [|cbn; by rewrite E, entry_file_told]. cbn [map flat_map pair_entries].
  assert (Hb : is_type_change (entry_of (t_entry t)) = bool_decide (is_Some (t_before t))).
  { unfold is_type_change. cbn. destruct (Z.eqb_spec (et_status (t_entry t)) (chr "T")) as [e|ne].
    - symmetry. apply bool_decide_eq_true. by apply (tw_type t Ht).
    - symmetry. apply bool_decide_eq_false. intros Hs. by apply ne, (tw_type t Ht). }
  rewrite Hb. unfold told_blocks. destruct Ht as [He _ _ Hn].
  assert (Hc : check_header (entry_of (t_entry t)) (pre (block_of (t_block t))) = Ok tt
               ∧ check_header (entry_of (t_entry t)) (post (block_of (t_block t))) = Ok tt).
  { cbn. destruct (bt_names (t_block t)) as [[x y]|]; [|done]. destruct (Hn x y eq_refl).
    split; by apply check_told. }
  destruct Hc as [Hpre Hpost].
  rewrite <- app_assoc, map_app. unfold told_blocks in IH.
  destruct (t_before t) as [b0|];
    [change (option_list (Some b0)) with [b0]|change (option_list (@None BlockText)) with (@nil BlockText)];
    cbn [app map].
  - rewrite bool_decide_eq_true_2 by done. cbn [head hd_error tail default]. unfold Datatypes.id. cbn iota beta.
    by rewrite Hpre, Hpost, IH.
  - rewrite bool_decide_eq_false_2 by (by intros []). cbn [head hd_error tail default]. unfold Datatypes.id. cbn iota beta.
    by rewrite Hpre, Hpost, IH.
Qed.

Lemma expected_told ts :
  Forall told_written ts →
  expected_blocks (map (λ t, entry_of (t_entry t)) ts) = length (flat_map told_blocks ts).
Proof.
  induction 1 as [|t ts Ht _ IH]; [done|]. cbn [map flat_map]. rewrite length_app, <- IH.
  unfold expected_blocks. cbn [sum_list_with]. f_equal. unfold is_type_change, told_blocks. cbn.
  destruct (Z.eqb_spec (et_status (t_entry t)) (chr "T")) as [e|ne].
  - apply (tw_type t Ht) in e as [b ->]. done.
  - destruct (t_before t) eqn:E; [|done]. destruct ne. apply (tw_type t Ht). by rewrite E.
Qed.
End Pairing.
End ChangeRead.

(** * What a change set promises *)

Import Order Regress GitReads Change ChangeFacts ChangeText ChangeRead.

#[local] Open Scope Z_scope.

Module ChangeProps.

(** ** Every range of a scan was read from a hunk *)

Definition block_ok (b : Block) : Prop := Forall range_ok (b_ranges b).

Lemma all_blocks_in b h st :
  all_blocks (in_block b h st) = closed st ++ [b].
Proof. done. Qed.

Lemma in_block_ok b h b' st :
  open st = Some b → Forall block_ok (all_blocks st) → (block_ok b → block_ok b') →
  Forall block_ok (all_blocks (in_block b' h st)).
Proof.
  intros Ho Hall Hb. unfold all_blocks in *. rewrite Ho in Hall. cbn in *.
  rewrite Forall_app, Forall_singleton in *. naive_solver.
Qed.

Lemma hunk_line_ok raw b st st' :
  open st = Some b → Forall block_ok (all_blocks st) → hunk_line raw b st = Ok st' →
  Forall block_ok (all_blocks st').
Proof.
  intros Ho Hall. unfold hunk_line. case_if; [|by intros [= <-]].
  destruct (parse_hunk raw) as [r|] eqn:E; [|done]. intros [= <-].
  eapply in_block_ok; [done..|]. unfold block_ok. cbn. intros Hb. apply Forall_app. split; [done|].
  apply Forall_singleton. by eapply parse_hunk_ok.
Qed.

Lemma scan_line_ok raw st st' :
  Forall block_ok (all_blocks st) → scan_line raw st = Ok st' → Forall block_ok (all_blocks st').
Proof.
  intros Hall. unfold scan_line. case_if; [done|]. case_if.
  { intros [= <-]. unfold all_blocks at 1. cbn. apply Forall_app. split; [done|]. by repeat constructor. }
  destruct (open st) as [b|] eqn:Ho; [|by intros [= <-]].
  case_if; [by apply hunk_line_ok|]. case_if.
  { intros [= <-]. eapply in_block_ok; [done..|]. by constructor. }
  unfold header_line. destruct (strip_prefix _ raw) as [rest|].
  { intros [= <-]. by eapply in_block_ok. }
  destruct (strip_prefix _ raw) as [rest|]; [|by apply hunk_line_ok].
  intros [= <-]. by eapply in_block_ok.
Qed.

Lemma scan_blocks_ok diff bs : scan_blocks diff = Ok bs → Forall block_ok bs.
Proof.
  unfold scan_blocks. assert (Hg : ∀ ls st st', Forall block_ok (all_blocks st) →
    scan_loop ls st = Ok st' → Forall block_ok (all_blocks st')).
  { intros ls. induction ls as [|raw ls IH]; intros st st' Hst; cbn [scan_loop]; [by intros [= <-]|].
    destruct (scan_line raw st) as [st1|] eqn:E; [|done]. apply IH. by eapply scan_line_ok. }
  destruct (scan_loop _ _) as [st|] eqn:E; [|done]. intros [= <-]. eapply Hg; [|exact E]. constructor.
Qed.

(** ** What a change set is *)

(** One file of it: its ranges are ranges of lines, in order and apart, and a file
    without post-image lines has none. *)
Definition file_ok (f : FileChange) : Prop :=
  Forall range_ok (ranges f) ∧ separated (ranges f) ∧ (has_lines (status f) = false → ranges f = []).

(** A file as it is before its ranges are merged. *)
Definition raw_file_ok (f : FileChange) : Prop :=
  Forall range_ok (ranges f) ∧ (has_lines (status f) = false → ranges f = []).

Lemma file_change_ok path from s b : block_ok b → raw_file_ok (file_change path from s b).
Proof.
  intros Hb. unfold raw_file_ok, file_change. cbn.
  destruct (has_lines _); split; [exact Hb|done|constructor|done].
Qed.

Section Pairing.
Context `{DebugTable}.

Lemma entry_file_ok e b : block_ok b → raw_file_ok (entry_file e b).
Proof.
  intros Hb. unfold entry_file. destruct (from_utf8 _); [by apply file_change_ok|].
  by split; [constructor|].
Qed.

Lemma pair_entries_ok es : ∀ bs fs,
  Forall block_ok bs → pair_entries es bs = Ok fs → Forall raw_file_ok fs.
Proof.
  assert (Hh : ∀ bs, Forall block_ok bs → block_ok (default empty_block (head bs))).
  { intros [|b bs]; [by constructor|]. by intros [? _]%Forall_cons_1. }
  assert (Ht : ∀ bs : list Block, Forall block_ok bs → Forall block_ok (tail bs)).
  { intros [|b bs]; [done|]. by intros [_ ?]%Forall_cons_1. }
  induction es as [|e es IH]; intros bs fs Hbs; cbn [pair_entries]; [by intros [= <-]|].
  destruct (is_type_change e).
  all: destruct (check_header _ _) as [u|]; [|done]; destruct (check_header _ _) as [u'|]; [|done].
  all: destruct (pair_entries es _) as [fs'|] eqn:E; [|done]; intros [= <-]; constructor;
    [apply entry_file_ok; auto|eapply IH; [|exact E]; auto].
Qed.

Lemma merge_file_ok f : raw_file_ok f → file_ok (merge_file f).
Proof.
  intros [Hr Hn]. destruct (merge_ranges_well _ Hr) as (? & ? & _).
  split_and!; [done|done|]. intros Hs. cbn in *. by rewrite (Hn Hs).
Qed.

Lemma finish_ok fs : Forall raw_file_ok fs → Forall file_ok (files (finish fs)).
Proof.
  intros H'. cbn. apply Forall_take. apply Forall_map. eapply Forall_impl; [exact H'|]. apply merge_file_ok.
Qed.

(** The lines a file's ranges name. *)
Definition file_lines (f : FileChange) : list Z :=
  flat_map (λ r, seqZ (r_start r) (r_end r - r_start r + 1)) (ranges f).

Lemma touched_lines_sum fs k :
  Forall file_ok fs →
  touched_lines {| files := fs; cs_capped := k |} = Z.of_nat (sum_list_with (λ f, length (file_lines f)) fs).
Proof.
  unfold touched_lines. cbn [files]. intros H'. induction H' as [|f fs (Hr & Hs & _) _ IH]; [done|].
  cbn [flat_map sum_list_with]. rewrite map_app. unfold sum_lines in *. rewrite foldl_app.
  destruct (separated_lines (ranges f) Hr Hs) as [_ Hf]. unfold sum_lines in Hf. rewrite Hf.
  rewrite Nat2Z.inj_add, <- IH. fold (file_lines f). generalize (Z.of_nat (length (file_lines f))).
  generalize (map (λ r, (r_start r, r_end r)) (flat_map ranges fs)). clear.
  intros l a. rewrite <- (Z.add_0_r a) at 1. generalize 0. induction l as [|e l IH]; intros z; [done|].
  cbn [foldl]. rewrite <- IH. f_equal. lia.
Qed.

(** C40. A change set that was read has at most a thousand files; the ranges of each name
    lines from one on, in order, two ranges with a line between them; a file that is
    gone, binary or unreadable has no range; and the count of touched lines counts every
    line of every file once. *)
Theorem change_set_is_well_formed raw patch c :
  parse_changes raw patch = Ok c →
  Forall file_ok (files c) ∧ (length (files c) ≤ MAX_CHANGED_FILES)%nat
  ∧ Forall (λ f, NoDup (file_lines f)) (files c)
  ∧ touched_lines c = Z.of_nat (sum_list_with (λ f, length (file_lines f)) (files c)).
Proof.
  unfold parse_changes. destruct (parse_raw raw) as [es|]; [|done].
  destruct (scan_blocks patch) as [bs|] eqn:Eb; [|done]. case_if; [done|].
  destruct (pair_entries es bs) as [fs|] eqn:Ef; [|done]. intros [= <-].
  assert (Hok : Forall file_ok (files (finish fs))).
  { apply finish_ok. eapply pair_entries_ok; [|exact Ef]. by eapply scan_blocks_ok. }
  split_and!; [done| | |by apply touched_lines_sum].
  - cbn. rewrite length_take. apply Nat.le_min_l.
  - eapply Forall_impl; [exact Hok|]. intros f (Hr & Hs & _). by apply (separated_lines (ranges f)).
Qed.

(** ** Reading back *)

(** C6. A diff whose two forms git wrote is read as the files it is about, each under the name
    the raw listing gives it and with the lines of its own hunks, whatever the lines of
    content say: an added line may look like a header, or a removed one like a name. *)
Theorem written_change_is_read_back ts :
  Forall told_written ts →
  parse_changes (flat_map entry_bytes (map t_entry ts)) (patch_text (flat_map told_blocks ts))
  = Ok {| files := take MAX_CHANGED_FILES (map told_file ts);
          cs_capped := (MAX_CHANGED_FILES <? length ts)%nat |}.
Proof.
  intros Hts. unfold parse_changes. rewrite raw_written.
  2:{ apply Forall_map. eapply Forall_impl; [exact Hts|]. by intros t [? _ _ _]. }
  assert (Hb : Forall (λ b, block_written b ∧ text_lines b) (flat_map told_blocks ts)).
  { rewrite Forall_flat_map. eapply Forall_impl; [exact Hts|]. by intros t [_ ? _ _]. }
  apply Forall_and in Hb as [Hb Ht]. rewrite scan_patch by done. rewrite !map_map.
  rewrite expected_told, !length_map, Nat.eqb_refl by done. cbn [negb].
  destruct (pair_told ts Hts) as (fs & -> & Hm). unfold finish. do 2 f_equal; [by rewrite Hm|].
  by rewrite <- (length_map merge_file), Hm, length_map.
Qed.

(** ** A name that is not UTF-8 *)

(** The source means a file whose name is not UTF-8 to be lost alone. When git prints the
    name in a header as it is, which [core.quotePath=false] tells it to, the header decoded
    with replacement characters is no name of the entry, and the whole change is refused. *)
Theorem unquoted_bad_name_refuses_the_change e es b bs stated :
  is_type_change e = false → from_utf8 (re_old e) = None → re_new e = None →
  pre b = Some (Ok (Some stated)) → all_chars is_scalar stated = true →
  ∃ why, pair_entries (e :: es) (b :: bs) = Err (lost why).
Proof.
  intros Ht Hu Hn Hb Hs. cbn [pair_entries]. rewrite Ht. cbn [head default]. unfold Datatypes.id.
  rewrite Hb. unfold check_header at 1. rewrite Hn. rewrite (proj2 (existsb_false _ _)); [by eexists|].
  intros name [->|[]%elem_of_nil]%elem_of_cons. apply bool_decide_eq_false. intros E.
  rewrite (proj2 (from_utf8_Some (re_old e) stated)) in Hu; done.
Qed.
End Pairing.

(** ** Witnesses *)

Module Sample.

#[export] Instance table : DebugTable := {| printable_beyond_ascii := λ _, true |}.

Definition modes : list Z := lit "100644 100644 aaaaaaa bbbbbbb".

Definition hunk (old : string) (start count : Z) (short : bool) (body : list string) : HunkText :=
  {| h_old := lit old; h_start := start; h_count := count; h_short := short; h_heading := lit " fn f() {";
     h_body := map lit body |}.

Definition block (line : string) (names : option (HeaderText * HeaderText))
    (content : list HunkText + (str * list str)) : BlockText :=
  {| bt_line := lit line; bt_meta := [lit "index aaaaaaa..bbbbbbb 100644"]; bt_names := names; bt_content := content |}.

Definition entry (status : string) (old : string) (new : option string) : EntryText :=
  {| et_modes := modes; et_status := chr status; et_score := []; et_old := lit old; et_new := lit <$> new |}.

(** A change whose content holds a line for every kind of header. *)
Definition spoofing : Told :=
  {| t_entry := entry "M" "src/a b.rs" None; t_before := None;
     t_block := block "a/src/a b.rs b/src/a b.rs"
       (Some (Named (lit "src/a b.rs"), Named (lit "src/a b.rs")))
       (inl [hunk "-1,2" 1 2 false ["--- a/x"; "--- sql"; "+++ b/evil.rs"; "+diff --git a/x b/x"];
             hunk "-9" 10 1 true ["-@@ -1 +1 @@"; "+@@ -1 +1 @@"]; hunk "-40,12" 39 0 false ["-x"]]) |}.

Definition renamed : Told :=
  {| t_entry := entry "R" "old.rs" (Some "new.rs"); t_before := None;
     t_block := block "a/old.rs b/new.rs" (Some (Named (lit "old.rs"), Named (lit "new.rs")))
       (inl [hunk "-3,2" 3 2 false ["-a"; "-b"; "+c"; "+d"]]) |}.

Definition retyped : Told :=
  {| t_entry := entry "T" "lnk" None;
     t_before := Some (block "a/lnk b/lnk" (Some (Named (lit "lnk"), DevNull)) (inl [hunk "-1" 0 0 false ["-x"]]));
     t_block := block "a/lnk b/lnk" (Some (DevNull, Named (lit "lnk"))) (inl [hunk "-0,0" 1 1 true ["+y"]]) |}.

Definition image : Told :=
  {| t_entry := entry "M" "i.png" None; t_before := None;
     t_block := block "a/i.png b/i.png" None (inr (lit "Binary files a/i.png and b/i.png differ", [])) |}.

Definition change : list Told := [spoofing; renamed; retyped; image].

(** Splits a record of conditions on closed data down to computations. *)
Ltac written :=
  repeat lazymatch goal with
  | |- Forall _ ?l =>
      let l' := eval hnf in l in change l with l';
      lazymatch l' with [] => apply Forall_nil; exact I | _ => apply Forall_cons; split end
  | |- _ ∧ _ => split
  | |- told_written _ => split
  | |- entry_written _ => split
  | |- block_written _ => split
  | |- hunk_written _ => split
  | |- path_written _ => split
  | |- text_lines _ => split
  | |- names_written ?n => let n' := eval hnf in n in change n with n'; cbn [names_written]
  | |- content_written ?n => let n' := eval hnf in n in change n with n'; cbn [content_written]
  | |- header_written ?n => let n' := eval hnf in n in change n with n'; cbn [header_written]
  | |- header_agrees _ ?n => let n' := eval hnf in n in change n with n'; cbn [header_agrees]
  | |- True => exact I
  | |- _ = true => vm_compute; reflexivity
  | |- _ = false => vm_compute; reflexivity
  | |- _ <= _ => vm_compute; discriminate
  end.

Lemma change_written : Forall told_written change.
Proof.
  written.
  all: try discriminate; try reflexivity.
  all: try (intros H; vm_compute in H; discriminate H).
  all: try (intros p E; vm_compute in E; first [discriminate E|injection E as <-; split; vm_compute; reflexivity]).
  all: try (vm_compute; split; [first [discriminate|by eexists]|by intros [? [=]] || reflexivity]).
  all: intros x y E; first [discriminate E|injection E as <- <-; split; cbn; auto].
Qed.

Lemma written_change_is_read_back_witness :
  ∃ c, parse_changes (flat_map entry_bytes (map t_entry change)) (patch_text (flat_map told_blocks change)) = Ok c
       ∧ map fc_path (files c) = map lit ["src/a b.rs"; "new.rs"; "lnk"; "i.png"]%string
       ∧ map (λ f, map (λ r, (r_start r, r_end r)) (ranges f)) (files c) = [[(1, 2); (10, 10); (39, 40)]; [(3, 4)]; [(1, 1)]; []].
Proof.
  eexists. split; [apply (written_change_is_read_back change change_written)|]. by vm_compute.
Defined.

Lemma change_set_is_well_formed_witness :
  Forall file_ok (files {| files := map told_file change; cs_capped := false |}).
Proof.
  eapply (change_set_is_well_formed (flat_map entry_bytes (map t_entry change)) (patch_text (flat_map told_blocks change))).
  vm_compute. reflexivity.
Defined.


(** [bad\xff.py] changed beside [good.py], as git prints it. *)
Definition bad_name : list Z := lit "bad" ++ [255] ++ lit ".py".
Definition bad_entry : RawEntry := {| re_status := chr "M"; re_old := bad_name; re_new := None |}.
Definition bad_raw : list Z :=
  chr ":" :: modes ++ lit " M" ++ [0] ++ bad_name ++ [0] ++ chr ":" :: modes ++ lit " M" ++ [0] ++ lit "good.py" ++ [0].
Definition bad_patch : list Z :=
  lit "diff --git a/" ++ bad_name ++ lit " b/" ++ bad_name ++ [nl] ++ lit "--- a/" ++ bad_name ++ [nl]
  ++ lit "+++ b/" ++ bad_name ++ [nl] ++ lit "@@ -1 +1 @@" ++ [nl] ++ lit "diff --git a/good.py b/good.py" ++ [nl]
  ++ lit "--- a/good.py" ++ [nl] ++ lit "+++ b/good.py" ++ [nl] ++ lit "@@ -2 +2 @@" ++ [nl].

Example bad_name_loses_good : is_ok (parse_changes bad_raw (utf8_lossy bad_patch)) = false.
Proof. by vm_compute. Qed.

Lemma unquoted_bad_name_refuses_the_change_witness :
  ∃ e es b bs, parse_raw bad_raw = Ok (e :: es) ∧ scan_blocks (utf8_lossy bad_patch) = Ok (b :: bs)
               ∧ ∃ why, pair_entries (e :: es) (b :: bs) = Err (lost why).
Proof.
  do 4 eexists. split; [vm_compute; reflexivity|]. split; [vm_compute; reflexivity|].
  eapply unquoted_bad_name_refuses_the_change; [vm_compute; reflexivity..|]. by vm_compute.
Defined.

End Sample.
End ChangeProps.
