(* ===== verification/BlastProps.v ===== *)
(** * Placing changed ranges *)

From S2P Require Import Prelude RustStr RustStrFacts Order Regress RegressFacts GitReads Blobs Change Blast Suspects.
Import Order Regress RegressFacts GitReads Blobs Change Blast.

#[local] Open Scope Z_scope.

Module BlastFacts.

(** ** Seeds *)

(** A seed is filed under its own name. *)
Definition keyed (m : Seeds) : Prop := ∀ n s, m !! n = Some s → sd_name s = n.

(** Seeds are only added. *)
Definition seeds_grow (m m' : Seeds) : Prop := ∀ n, is_Some (m !! n) → is_Some (m' !! n).

#[export] Instance seeds_grow_preorder : PreOrder seeds_grow.
Proof. split; [by intros m n|]. intros a b c H1 H2 n Hn. by apply H2, H1. Qed.

Lemma seed_add_grows r m p : seeds_grow m (seed_add r m p).
Proof.
  intros n Hn. unfold seed_add. case_if; [done|]. destruct p as [[a b] s].
  destruct (decide (qualified_name s = n)) as [<-|Hne].
  - rewrite lookup_insert_eq. by eexists.
  - by rewrite lookup_insert_ne.
Qed.

Lemma seed_add_keyed r m p : keyed m → keyed (seed_add r m p).
Proof.
  intros Hk. unfold seed_add. case_if; [done|]. destruct p as [[a b] s]. intros n x.
  destruct (decide (qualified_name s = n)) as [<-|Hne].
  - rewrite lookup_insert_eq. intros [= <-]. destruct (m !! qualified_name s) as [held|] eqn:E; [|done].
    by apply (Hk _ held).
  - rewrite lookup_insert_ne by done. apply Hk.
Qed.

Lemma seed_add_hit r m (p : Placed) : overlaps r p = true → is_Some (seed_add r m p !! qualified_name p.2).
Proof.
  intros Ho. unfold seed_add. rewrite Ho. cbn [negb]. destruct p as [[a b] s].
  cbn [snd]. rewrite lookup_insert_eq. by eexists.
Qed.

Lemma seeds_fold r ps m :
  let m' := foldl (seed_add r) m ps in
  seeds_grow m m' ∧ (keyed m → keyed m') ∧ ∀ p, p ∈ ps → overlaps r p = true → is_Some (m' !! qualified_name p.2).
Proof.
  revert m. induction ps as [|p ps IH]; intros m; cbn [foldl]; cbn zeta.
  { split_and!; [done|done|by intros p ?%elem_of_nil]. }
  destruct (IH (seed_add r m p)) as (Hg & Hk & Hh). split_and!.
  - etrans; [apply seed_add_grows|done].
  - intros Hm. by apply Hk, seed_add_keyed.
  - intros q [->|Hq]%elem_of_cons Ho; [|by apply Hh]. apply Hg. by apply seed_add_hit.
Qed.

(** ** Ranges *)

(** An entry for this very range. *)
Definition told (un : list UnattributedChange) (path : str) (r : ChangedRange) : Prop :=
  ∃ u, u ∈ un ∧ ua_path u = path ∧ ua_start u = r_start r ∧ ua_end u = r_end r.

(** A symbol that shares a line with the range is among the seeds. *)
Definition hit (m : Seeds) (ps : list Placed) (r : ChangedRange) : Prop :=
  ∃ p, p ∈ ps ∧ overlaps r p = true ∧ is_Some (m !! qualified_name p.2).

Lemma told_app un un' path r : told un path r → told (un ++ un') path r.
Proof. intros (u & Hu & ?). exists u. split; [|done]. apply elem_of_app. by left. Qed.

Lemma hit_grows m m' ps r : seeds_grow m m' → hit m ps r → hit m' ps r.
Proof. intros Hg (p & ? & ? & ?). exists p. split_and!; [done..|]. by apply Hg. Qed.

Lemma place_range_spec path last ps m un r :
  let '(m', un') := place_range path last ps (m, un) r in
  seeds_grow m m' ∧ (keyed m → keyed m') ∧ (∃ more, un' = un ++ more) ∧ (told un' path r ∨ hit m' ps r).
Proof.
  unfold place_range. destruct (last <? r_start r).
  { split_and!; [done|done|by eexists|]. left. eexists. split; [apply elem_of_app; right; by left|]. done. }
  destruct (seeds_fold r ps m) as (Hg & Hk & Hh). destruct (existsb (overlaps r) ps) eqn:E.
  - split_and!; [done|done|exists []; by rewrite app_nil_r|]. right. apply existsb_true in E as (p & Hp & Ho).
    exists p. split_and!; [done..|]. by apply Hh.
  - destruct (nearest_to ps r). split_and!; [done|done|by eexists|]. left.
    eexists. split; [apply elem_of_app; right; by left|]. done.
Qed.

Lemma place_ranges_spec path last ps rs m un :
  let '(m', un') := foldl (place_range path last ps) (m, un) rs in
  seeds_grow m m' ∧ (keyed m → keyed m') ∧ (∃ more, un' = un ++ more)
  ∧ ∀ r, r ∈ rs → told un' path r ∨ hit m' ps r.
Proof.
  revert m un. induction rs as [|r rs IH]; intros m un; cbn [foldl].
  { split_and!; [done|done|exists []; by rewrite app_nil_r|by intros r ?%elem_of_nil]. }
  pose proof (place_range_spec path last ps m un r) as Hr.
  destruct (place_range path last ps (m, un) r) as [m1 un1]. destruct Hr as (Hg & Hk & (more & ->) & Hor).
  specialize (IH m1 (un ++ more)). destruct (foldl _ (m1, un ++ more) rs) as [m' un'].
  destruct IH as (Hg' & Hk' & (more' & ->) & Hor'). split_and!.
  - by etrans.
  - auto.
  - exists (more ++ more'). by rewrite app_assoc.
  - intros q [->|Hq]%elem_of_cons; [|by apply Hor']. destruct Hor as [Ht|Hh]; [left|right].
    + by apply told_app.
    + by eapply hit_grows.
Qed.

Lemma told_push_all un path rs reason r : r ∈ rs → told (un ++ push_all path rs reason) path r.
Proof.
  intros Hr. exists (unplaced path reason r). split; [|done]. apply elem_of_app. right.
  apply elem_of_map. by exists r.
Qed.

Section Files.
Context `{UnicodeTables} `{DebugTable} `{M : Machine} `{CodeGraph}.

(** The content was read from git at the revision, and is what the graph's spans are
    about. *)
Definition content_read (until path content_ : str) : Prop :=
  ∃ r w w' r' blob,
    read until path r w = (w', r', Ok blob) ∧ content_ = content blob
    ∧ comparable_with (symbols_in path).2 (GitReads.identity blob) = true.

(** The range shares a line with a symbol of its file, and the symbol is a seed. *)
Definition placed_range (until : str) (m : Seeds) (f : FileChange) (r : ChangedRange) : Prop :=
  ∃ content_, content_read until (fc_path f) content_
    ∧ hit m (placed_in (line_index content_) (symbols_in (fc_path f)).1) r.

Definition placing_grows (st st' : Placing) : Prop :=
  seeds_grow (pl_seeds st) (pl_seeds st') ∧ (keyed (pl_seeds st) → keyed (pl_seeds st'))
  ∧ ∃ more, pl_unattributed st' = pl_unattributed st ++ more.

#[export] Instance placing_grows_preorder : PreOrder placing_grows.
Proof.
  split.
  - intros st. split_and!; [done|done|exists []; by rewrite app_nil_r].
  - intros a b c (? & ? & x & Hx) (? & ? & y & Hy). split_and!; [by etrans|auto|].
    exists (x ++ y). by rewrite Hy, Hx, app_assoc.
Qed.

Lemma unattribute_grows us st : placing_grows st (unattribute us st).
Proof. split_and!; [done|done|by eexists]. Qed.

(** What becomes of a file: every range is named or placed, and a file without
    post-image lines is named. *)
Definition file_accounted (until : str) (f : FileChange) (st : Placing) : Prop :=
  (has_lines (status f) = true →
     ∀ r, r ∈ ranges f → told (pl_unattributed st) (fc_path f) r ∨ placed_range until (pl_seeds st) f r)
  ∧ (has_lines (status f) = false → ∃ u, u ∈ pl_unattributed st ∧ ua_path u = fc_path f).

Lemma file_accounted_grows until f st st' :
  placing_grows st st' → file_accounted until f st → file_accounted until f st'.
Proof.
  intros (Hg & _ & more & E) [Hyes Hno]. rewrite <- (app_nil_r (pl_unattributed st)) in E.
  split.
  - intros Hl r Hr. destruct (Hyes Hl r Hr) as [Ht|(c & Hc & Hh)]; [left|right].
    + rewrite E, app_nil_r. by apply told_app.
    + exists c. split; [done|]. by eapply hit_grows.
  - intros Hl. destruct (Hno Hl) as (u & Hu & ?). exists u. split; [|done].
    rewrite E, app_nil_r. apply elem_of_app. by left.
Qed.

Lemma all_told until f reason st :
  has_lines (status f) = true →
  file_accounted until f (unattribute (push_all (fc_path f) (ranges f) reason) st).
Proof. intros Hl. split; [|by rewrite Hl]. intros _ r Hr. left. by apply told_push_all. Qed.

Lemma place_indexed_spec until f st w w' st' :
  has_lines (status f) = true →
  place_indexed until f (symbols_in (fc_path f)).1 (symbols_in (fc_path f)).2 st w = (w', st') →
  placing_grows st st' ∧ file_accounted until f st'.
Proof.
  intros Hl. unfold place_indexed.
  assert (Hall : ∀ reason s, placing_grows s (unattribute (push_all (fc_path f) (ranges f) reason) s)
                             ∧ file_accounted until f (unattribute (push_all (fc_path f) (ranges f) reason) s)).
  { intros. split; [apply unattribute_grows|by apply all_told]. }
  destruct ((symbols_in (fc_path f)).2) eqn:Eb.
  4:{ intros [= <- <-]. apply Hall. }
  all: destruct (read until (fc_path f) (pl_reader st) w) as [[w1 r1] [blob|refusal]] eqn:Er;
    [|intros [= <- <-]; destruct (Hall (ContentUnavailable (describe_history refusal)) (set_reader r1 st)); by split].
  all: destruct (negb _) eqn:Ec; [intros [= <- <-]; apply (Hall _ (set_reader r1 st))|].
  all: unfold place_ranges;
    pose proof (place_ranges_spec (fc_path f) (last_line_of (content blob))
      (placed_in (line_index (content blob)) (symbols_in (fc_path f)).1) (ranges f)
      (pl_seeds (set_reader r1 st)) (pl_unattributed (set_reader r1 st))) as Hp;
    destruct (foldl _ _ (ranges f)) as [m un]; destruct Hp as (Hg & Hk & Hm & Hor);
    intros [= <- <-]; (split; [done|]); (split; [|by rewrite Hl]); intros _ r Hr;
    destruct (Hor r Hr) as [?|Hh]; [by left|right]; exists (content blob); (split; [|exact Hh]);
    do 5 eexists; (split; [exact Er|]); (split; [done|]); rewrite Eb; by apply negb_false_iff in Ec.
Qed.

Lemma place_file_spec until f st w w' st' :
  place_file until f st w = (w', st') → placing_grows st st' ∧ file_accounted until f st'.
Proof.
  unfold place_file.
  assert (Hwhole : ∀ reason, has_lines (status f) = false →
    let s := unattribute [whole_file (fc_path f) reason] st in
    placing_grows st s ∧ file_accounted until f s).
  { intros reason Hl. split; [apply unattribute_grows|]. split; [by rewrite Hl|]. intros _.
    eexists. split; [apply elem_of_app; right; by left|]. done. }
  assert (Htext : has_lines (status f) = true →
    (if bool_decide (length (ranges f) = O) then (w, st)
     else let (symbols, spans_basis) := symbols_in (fc_path f) in
          if bool_decide (length symbols = O)
          then (w, unattribute (push_all (fc_path f) (ranges f) FileNotIndexed) st)
          else place_indexed until f symbols spans_basis st w) = (w', st') →
    placing_grows st st' ∧ file_accounted until f st').
  { intros Hl. case_bool_decide as Hn.
    { intros [= <- <-]. split; [done|]. split; [|by rewrite Hl]. intros _ r Hr.
      apply length_zero_iff_nil in Hn. rewrite Hn in Hr. by apply elem_of_nil in Hr. }
    destruct (symbols_in (fc_path f)) as [symbols basis] eqn:Es. case_bool_decide.
    { intros [= <- <-]. split; [apply unattribute_grows|by apply all_told]. }
    pose proof (place_indexed_spec until f st w w' st' Hl) as Hi. rewrite Es in Hi. exact Hi. }
  destruct (status f) eqn:Es; [by apply Htext|by apply Htext|..]; intros [= <- <-]; by apply Hwhole.
Qed.

Lemma place_files_spec until budget total fs : ∀ placed st w w' st' ex,
  place_files until budget total placed fs st w = (w', st', ex) →
  placing_grows st st' ∧ (ex = None → Forall (λ f, file_accounted until f st') fs).
Proof.
  induction fs as [|f fs IH]; intros placed st w w' st' ex; cbn [place_files].
  { intros [= <- <- <-]. split; [done|by constructor]. }
  destruct (budget_check budget w) as [w1 [[]|stop]]; [|intros [= <- <- <-]; by split].
  destruct (place_file until f st w1) as [w2 st2] eqn:Ef. intros Hrest.
  destruct (place_file_spec _ _ _ _ _ _ Ef) as [Hg Hf]. destruct (IH _ _ _ _ _ _ Hrest) as [Hg' Hfs].
  split; [by etrans|]. intros He. constructor; [by eapply file_accounted_grows|by apply Hfs].
Qed.

End Files.
End BlastFacts.

(** * What a blast report promises *)

Import Order Regress RegressFacts GitReads Blobs Change ChangeFacts Blast BlastFacts.

#[local] Open Scope Z_scope.

Module BlastProps.

(** ** What the walk reached *)

#[export] Instance symbol_order :
  LebOrder symbol_leb (λ a b, is_distance a = is_distance b ∧ is_file a = is_file b ∧ is_name a = is_name b).
Proof. apply _. Qed.

Lemma reach_spec seed_set reached n :
  let m := foldl (reach_add seed_set) ∅ reached in
  (∀ x, m !! n = Some x → seed_set n = false ∧ ∃ e, e ∈ reached ∧ ce_name e = n ∧ ce_distance e = x.2)
  ∧ (∀ e, e ∈ reached → ce_name e = n → seed_set n = false → ∃ x, m !! n = Some x ∧ x.2 ≤ ce_distance e).
Proof.
  cbn zeta. induction reached as [|e reached [IH1 IH2]] using rev_ind.
  { split; [by intros x|by intros e ?%elem_of_nil]. }
  rewrite foldl_snoc. set (m := foldl _ _ _) in *.
  assert (Hlook : reach_add seed_set m e !! n
    = if bool_decide (ce_name e = n) && negb (seed_set n)
      then match m !! n with
           | Some held => if ce_distance e <? held.2 then Some (held.1, ce_distance e) else Some held
           | None => Some (ce_file e, ce_distance e)
           end
      else m !! n).
  { unfold reach_add. case_bool_decide as Hn; cbn [andb].
    - subst n. destruct (seed_set (ce_name e)); [done|]. cbn [negb].
      destruct (m !! ce_name e) as [held|] eqn:E; [|by rewrite lookup_insert_eq].
      case_if; [by rewrite lookup_insert_eq|done].
    - case_if; [done|]. destruct (m !! ce_name e) as [held|]; [case_if|]; by rewrite ?lookup_insert_ne. }
  rewrite Hlook. split.
  - intros x. destruct (bool_decide (ce_name e = n)) eqn:Hn; cbn [andb].
    2:{ intros Hx. destruct (IH1 x Hx) as (? & e' & ? & ?). split; [done|]. exists e'. rewrite elem_of_app. auto. }
    apply bool_decide_eq_true in Hn. destruct (seed_set n) eqn:Hs; cbn [negb].
    { intros Hx. by destruct (IH1 x Hx). }
    assert (Hin : e ∈ reached ++ [e]) by (apply elem_of_app; right; by left).
    destruct (m !! n) as [held|] eqn:E; [destruct (ce_distance e <? held.2)|]; intros [= <-];
      (split; [done|]).
    + by exists e.
    + destruct (IH1 held eq_refl) as (_ & e' & ? & ?). exists e'. rewrite elem_of_app. auto.
    + by exists e.
  - intros e' [He'|He'%list_elem_of_singleton]%elem_of_app Hn Hs.
    + destruct (IH2 e' He' Hn Hs) as (x & Hx & Hle). rewrite Hx. destruct (_ && _); [|by exists x].
      destruct (Z.ltb_spec (ce_distance e) x.2); eexists; (split; [done|]); cbn; lia.
    + subst e'. rewrite bool_decide_eq_true_2, Hs by done. cbn [andb negb].
      destruct (m !! n) as [held|]; [destruct (Z.ltb_spec (ce_distance e) held.2)|]; eexists; (split; [done|]); cbn; lia.
Qed.

(** Each symbol the walk reached from the seeds, and no other, is listed once, at the
    shortest distance it was reached at, the nearest first and the seeds left out. *)
Theorem radius_lists_each_symbol_once reached seed_set :
  let out := roll_up_symbols reached seed_set in
  NoDup (map is_name out) ∧ StronglySorted (λ a b, symbol_leb a b = true) out
  ∧ (∀ s, s ∈ out → seed_set (is_name s) = false
        ∧ (∃ e, e ∈ reached ∧ ce_name e = is_name s ∧ ce_distance e = is_distance s)
        ∧ ∀ e, e ∈ reached → ce_name e = is_name s → is_distance s ≤ ce_distance e)
  ∧ (∀ e, e ∈ reached → seed_set (ce_name e) = false → ce_name e ∈ map is_name out).
Proof.
  cbn zeta. unfold roll_up_symbols. set (m := foldl _ _ _).
  assert (Hin : ∀ s, s ∈ sort_by symbol_leb (map (λ e : str * (str * Z),
      {| is_name := e.1; is_file := e.2.1; is_distance := e.2.2 |}) (map_to_list m))
    ↔ m !! is_name s = Some (is_file s, is_distance s)).
  { intros s. rewrite elem_of_sort_by, elem_of_map. split.
    - intros ([n [f d]] & -> & He). by apply elem_of_map_to_list in He.
    - intros Hs. exists (is_name s, (is_file s, is_distance s)). rewrite elem_of_map_to_list.
      split; [by destruct s|done]. }
  split_and!.
  - rewrite sort_by_perm, map_map. cbn. apply NoDup_fst_map_to_list.
  - by eapply sort_by_strongly, symbol_order.
  - intros s Hs%Hin. destruct (reach_spec seed_set reached (is_name s)) as [R1 R2].
    destruct (R1 _ Hs) as (Hns & e & He & Hen & Hd). split_and!; [done|by exists e|].
    intros e' He' Hn'. destruct (R2 e' He' Hn' Hns) as (x & Hx & Hle).
    fold m in Hx. rewrite Hs in Hx. by injection Hx as <-.
  - intros e He Hs. destruct (reach_spec seed_set reached (ce_name e)) as [_ R2].
    destruct (R2 e He eq_refl Hs) as (x & Hx & _). apply elem_of_map.
    exists {| is_name := ce_name e; is_file := x.1; is_distance := x.2 |}. split; [done|].
    apply Hin. cbn. fold m in Hx. rewrite Hx. by destruct x.
Qed.

Section Report.
Context `{UnicodeTables} `{DebugTable} `{M : Machine} `{CodeGraph}.

(** A range of the change is among the report's seeds: it shares a line with a symbol
    the graph has for the file, counted in the content the graph's spans are about. *)
Definition seeded (until : str) (rep : BlastReport) (f : FileChange) (r : ChangedRange) : Prop :=
  ∃ content_ s seed,
    content_read until (fc_path f) content_ ∧ s ∈ (symbols_in (fc_path f)).1
    ∧ overlaps r (symbol_lines (line_index content_) s, s) = true
    ∧ seed ∈ seeds rep ∧ sd_name seed = qualified_name s.

Lemma placed_in_elem ix symbols p : p ∈ placed_in ix symbols → ∃ s, s ∈ symbols ∧ p = (symbol_lines ix s, s).
Proof.
  unfold placed_in. intros (s & -> & Hs)%elem_of_map. exists s. split; [done|].
  by destruct (symbol_lines ix s).
Qed.

Lemma when_nil b u : when b u = [] → b = false.
Proof. by destruct b. Qed.

(** C7. A report that calls itself complete names nothing it could not do, read the whole
    change, and has every range of every changed file among its seeds; the graph was
    walked from all of those and no walk was cut short. *)
Theorem complete_radius_covers_the_change program repo shared change label until depth budget w w' rep :
  blast_change_bounded program repo shared change label until depth budget w = (w', rep) →
  complete rep = true →
  unavailable rep = [] ∧ cs_capped change = false ∧ unattributed rep = []
  ∧ Forall (λ f, has_lines (status f) = true ∧ ∀ r, r ∈ ranges f → seeded until rep f r) (files change)
  ∧ (seeds rep ≠ [] → (impacted (map sd_name (seeds rep)) depth).2 = false
                      ∧ (affected_tests (map sd_name (seeds rep)) depth).2 = false).
Proof.
  unfold blast_change_bounded.
  destruct (place_files _ _ _ _ _ _ _) as [[w1 st] ex] eqn:Ep. 
  set (touched := sort_by seed_leb _). set (ordered := take MAX_SEED_SYMBOLS touched).
  destruct (if bool_decide (length (map sd_name ordered) = O) then _ else impacted _ _) as [reached walk_stopped] eqn:Ew.
  destruct (if bool_decide (length (map sd_name ordered) = O) then _ else affected_tests _ _) as [ts tests_stopped] eqn:Et.
  destruct (match ex with Some _ => _ | None => _ end) as [w2 [owners gaps]].
  intros [= <- <-] Hc. unfold new_report in *. cbn [complete unavailable unattributed seeds] in *.
  apply bool_decide_eq_true, length_zero_iff_nil in Hc.
  pose proof Hc as [Hcap [Hex [Hun [Htrim [Hwalk [Htest _]%app_nil]%app_nil]%app_nil]%app_nil]%app_nil]%app_nil.
  destruct ex as [u|]; [done|]. apply when_nil in Hcap, Hun, Htrim, Hwalk, Htest.
  apply negb_false_iff, bool_decide_eq_true, length_zero_iff_nil in Hun. apply Nat.ltb_ge in Htrim.
  assert (Hord : ordered = touched) by (by apply take_ge).
  destruct (place_files_spec _ _ _ _ _ _ _ _ _ _ Ep) as [(_ & Hkey & _) Hfs].
  specialize (Hfs eq_refl). specialize (Hkey ltac:(by intros n x)).
  split_and!; [done|done|done| |].
  - eapply Forall_impl; [exact Hfs|]. intros f [Hyes Hno]. destruct (has_lines (status f)) eqn:Hl.
    2:{ destruct (Hno eq_refl) as (u & Hu & _). rewrite Hun in Hu. by apply elem_of_nil in Hu. }
    split; [done|]. intros r Hr. destruct (Hyes eq_refl r Hr) as [(u & Hu & _)|(c & Hread & p & Hp & Ho & [seed Hs])].
    { rewrite Hun in Hu. by apply elem_of_nil in Hu. }
    destruct (placed_in_elem _ _ _ Hp) as (s & Hin & ->). exists c, s, seed. split_and!; [done..| |by apply (Hkey _ _ Hs)].
    rewrite Hord. unfold touched. apply elem_of_sort_by, elem_of_map. exists (qualified_name s, seed).
    by rewrite elem_of_map_to_list.
  - intros Hne. rewrite bool_decide_eq_false_2 in Ew, Et by (rewrite length_map; by destruct ordered).
    by rewrite Ew, Et.
Qed.
End Report.

(** ** A repository of one file *)

Module Sample.

#[export] Existing Instance ascii_tables.
#[export] Instance table : DebugTable := {| printable_beyond_ascii := λ _, true |}.

Definition text : str := lit "use x;" ++ [nl] ++ lit "const A: u8 = 1;" ++ [nl] ++ lit "fn f() {}" ++ [nl].
Definition until : str := replicate 40 (chr "a").
Definition blob_id : str := replicate 40 (chr "b").

Definition quiet : Captured :=
  {| stdout := []; stdout_truncated := false; status_success := true; status_text := lit "exit status: 0"; stderr := [] |}.

(** Every command answers, [cat-file] with the one file, and no time passes. *)
#[export] Instance machine : Machine := {|
  World := unit;
  Command := unit;
  git_with_program _ _ _ w := (w, Ok tt);
  run_bounded _ _ w := (w, Ok quiet);
  lane_start _ _ _ w := (w, Ok tt);
  lane_ask _ _ w := (w, Said (Object blob_id (lit "blob") (str_len text) (Some (utf8_encode text))));
  now w := (w, 0);
  cancelled w := (w, false);
|}.

Definition path : str := lit "a.rs".

(** The function is the third line; the graph has nothing for the two above it. *)
Definition f_symbol : GraphSymbol :=
  {| qualified_name := lit "a.rs::f"; file_path := path; span_start := 24; span_end := 33; body_exact := None |}.

#[export] Instance graph : CodeGraph := {|
  symbols_in p := if bool_decide (p = path) then ([f_symbol], Blob blob_id) else ([], Unknown);
  cone _ _ := ([], false);
  impacted seeds _ := (map (λ n, {| ce_name := n; ce_file := path; ce_distance := 0 |}) seeds, false);
  affected_tests _ _ := ([], false);
  resolve_symptom _ := [];
  body_changed _ _ := None;
|}.

Definition budget : Budget := {| limit := from_secs 120; deadline := from_secs 120; hooked := false |}.

Definition edit (first last : Z) : ChangeSet := change_at path first last.

Definition report (change : ChangeSet) : BlastReport :=
  (blast_change_bounded (lit "git") (lit ".") None change (lit "HEAD~1..HEAD") until 3 budget tt).2.

(** The whole file is edited by one hunk. *)
Definition whole_edit : ChangeSet := edit 1 3.

End Sample.

Import Sample.

Lemma complete_radius_covers_the_change_witness :
  ∃ w rep,
    blast_change_bounded (lit "git") (lit ".") None (Sample.edit 3 3) (lit "HEAD~1..HEAD") Sample.until 3
      Sample.budget (tt : @World machine) = (w, rep)
    ∧ complete rep = true ∧ unattributed rep = [] ∧ map sd_name (seeds rep) = [lit "a.rs::f"].
Proof.
  do 2 eexists. split; [apply surjective_pairing|]. split; [by vm_compute|]. split; [|by vm_compute].
  eapply (complete_radius_covers_the_change (lit "git") (lit ".") None (Sample.edit 3 3) (lit "HEAD~1..HEAD")
            Sample.until 3 Sample.budget (tt : @World machine)); [apply surjective_pairing|by vm_compute].
Defined.

(** The module's documentation says every changed line is inside a symbol or is listed as
    unattributed. It is the ranges that are: one hunk over an import, a constant and a
    function reaches the function, so the import and the constant are inside no symbol,
    are listed nowhere, and the report is complete. *)
Theorem changed_lines_can_go_unnamed :
  let rep := Sample.report Sample.whole_edit in
  complete rep = true ∧ unattributed rep = []
  ∧ ∃ f r, f ∈ files Sample.whole_edit ∧ r ∈ ranges f ∧ has_lines (status f) = true
      ∧ ∀ n, n = 1 ∨ n = 2 →
          in_range n r
          ∧ ∀ s, s ∈ (symbols_in (fc_path f)).1 →
              let (first, last) := symbol_lines (line_index Sample.text) s in ¬ first ≤ n ≤ last.
Proof.
  split; [by vm_compute|]. split; [by vm_compute|]. do 2 eexists.
  split; [by left|]. split; [by left|]. split; [done|]. intros n Hn. split.
  { unfold in_range. cbn. lia. }
  intros s Hs. assert (s = Sample.f_symbol) as -> by (by apply list_elem_of_singleton).
  replace (symbol_lines (line_index Sample.text) Sample.f_symbol) with (3, 3) by (by vm_compute). lia.
Qed.

Lemma radius_keeps_the_nearest :
  roll_up_symbols
    [{| ce_name := lit "g"; ce_file := lit "b.rs"; ce_distance := 3 |};
     {| ce_name := lit "f"; ce_file := lit "a.rs"; ce_distance := 0 |};
     {| ce_name := lit "g"; ce_file := lit "b.rs"; ce_distance := 1 |}] (λ n, bool_decide (n = lit "f"))
  = [{| is_name := lit "g"; is_file := lit "b.rs"; is_distance := 1 |}].
Proof. by vm_compute. Qed.

End BlastProps.
