(* ===== verification/BlobProps.v ===== *)
(** * What the reads of a repository promise *)

From S2P Require Import Prelude RustStr RustStrFacts Regress GitReads Blobs Blame Change.
Import Regress GitReads Blobs Blame Change.

#[local] Open Scope Z_scope.

Module BlobProps.

(** ** The answers of [cat-file --batch] *)

(** An answer as it is written: a request that names nothing, one that names several
    things, or an object with its bytes. *)
Inductive AnswerText : Type :=
  | NoObject (spec : str)
  | ManyObjects (spec : str)
  | AnObject (oid kind : str) (body : list Z).

Definition size_of (body : list Z) : Z := Z.of_nat (length body).

Definition header_of (a : AnswerText) : str :=
  match a with
  | NoObject spec => spec ++ lit " missing"
  | ManyObjects spec => spec ++ lit " ambiguous"
  | AnObject oid kind body => oid ++ lit " " ++ kind ++ lit " " ++ fmt_u (size_of body)
  end.

Definition answer_bytes (a : AnswerText) : list Z :=
  utf8_encode (header_of a) ++ [nl] ++ match a with AnObject _ _ body => body ++ [nl] | _ => [] end.

(** An object larger than the cap is told of without its bytes. *)
Definition answer_record (a : AnswerText) : Record_ :=
  match a with
  | NoObject _ => Missing
  | ManyObjects _ => Ambiguous
  | AnObject oid kind body =>
      Object oid kind (size_of body) (if size_of body <=? CONTENT_CAP then Some body else None)
  end.

Definition lower_hex (s : str) : bool :=
  all_chars (λ c, in_range 48 57 c || in_range 97 102 c) s.

Definition word (s : str) : bool := negb (bool_decide (s = [])) && all_chars (in_range 33 126) s.

Record answer_written (a : AnswerText) : Prop := {
  aw_line : no_nl (header_of a) = true ∧ all_chars is_scalar (header_of a) = true;
  aw_short : str_len (header_of a) < 65536;
  aw_object : match a with
              | AnObject oid kind body =>
                  (str_len oid = 40 ∨ str_len oid = 64) ∧ lower_hex oid = true ∧ word kind = true
                  ∧ size_of body ≤ u64_max
              | _ => True
              end;
}.

Lemma read_line_written line rest limit :
  all_chars (λ c, negb (c =? nl)) line = true → (length line < limit)%nat →
  read_line limit (line ++ nl :: rest) = Some (line, rest).
Proof.
  revert limit. induction line as [|c line IH]; intros [|limit] Hl Hn; cbn in Hn; try lia.
  - cbn [app read_line]. by rewrite Z.eqb_refl.
  - cbn in Hl. apply andb_prop in Hl as [Hc Hl]. apply negb_true_iff in Hc. cbn [app read_line].
    rewrite Hc, IH by (done || lia). done.
Qed.

Section Answers.
Context `{DebugTable}.

Lemma split_space a s : all_chars (in_range 33 126) a = true → split_on (Z.eqb 32) (a ++ 32 :: s) = a :: split_on (Z.eqb 32) s.
Proof.
  intros Ha. apply split_on_app_sep; [|done]. eapply all_chars_impl; [|exact Ha].
  intros c ?%in_range_spec. apply negb_true_iff, Z.eqb_neq. lia.
Qed.

Lemma lower_hex_word s : lower_hex s = true → all_chars (in_range 33 126) s = true.
Proof. apply all_chars_impl. intros c. rewrite orb_true_iff, !in_range_spec. lia. Qed.

Lemma lower_hex_digits s : lower_hex s = true → all_chars is_ascii_hexdigit s = true.
Proof.
  apply all_chars_impl. intros c. unfold is_ascii_hexdigit, is_ascii_digit.
  rewrite !orb_true_iff, !in_range_spec. lia.
Qed.

Lemma lower_hex_lowercase s : lower_hex s = true → ascii_lowercase s = s.
Proof.
  intros Hs. unfold ascii_lowercase. induction s as [|c s IH]; [done|]. cbn in Hs. apply andb_prop in Hs as [Hc Hs].
  cbn [map]. rewrite IH by done. f_equal. rewrite orb_true_iff, !in_range_spec in Hc.
  unfold to_ascii_lowercase, is_ascii_upper. destruct (in_range 65 90 c) eqn:E; [|done].
  apply in_range_spec in E. lia.
Qed.

Lemma digits_word s : all_chars is_ascii_digit s = true → all_chars (in_range 33 126) s = true.
Proof. apply all_chars_impl. intros c Hc%is_ascii_digit_spec. apply in_range_spec. lia. Qed.

Lemma object_header oid kind body :
  answer_written (AnObject oid kind body) →
  parse_header (header_of (AnObject oid kind body)) = Some (oid, kind, size_of body).
Proof.
  intros [_ _ (Hlen & Hhex & Hkind & Hsize)]. pose proof (lower_hex_word _ Hhex). pose proof (lower_hex_digits _ Hhex) as Hh.
  apply andb_prop in Hkind as [_ Hkind]. unfold parse_header, header_of.
  change (lit " " ++ ?x) with (32 :: x). rewrite split_space by done.
  change (lit " " ++ ?x) with (32 :: x). rewrite split_space by done.
  assert (Hs : 0 ≤ size_of body) by (unfold size_of; lia).
  rewrite split_on_none.
  2:{ eapply all_chars_impl; [|exact (digits_word _ (fmt_u_digits _ Hs))]. intros c ?%in_range_spec.
      apply negb_true_iff, Z.eqb_neq. lia. }
  rewrite bool_decide_eq_true_2 by done. cbn [negb orb].
  replace ((str_len oid =? 40) || (str_len oid =? 64)) with true
    by (symmetry; rewrite orb_true_iff, !Z.eqb_eq; done). cbn [negb].
  rewrite utf8_encode_ascii.
  2:{ eapply all_chars_impl; [|exact Hhex]. intros c. rewrite orb_true_iff, !in_range_spec, Z.ltb_lt. lia. }
  rewrite Hh. cbn [negb]. unfold parse_u64. rewrite parse_unsigned_fmt by done.
  by rewrite lower_hex_lowercase.
Qed.

Lemma header_lossy a :
  answer_written a → utf8_lossy (utf8_encode (header_of a)) = header_of a.
Proof. intros Ha. by apply utf8_lossy_encode, aw_line. Qed.

Lemma take_lines (body rest : list Z) :
  take (Z.to_nat (size_of body)) (body ++ rest) = body ∧ drop (Z.to_nat (size_of body)) (body ++ rest) = rest.
Proof. unfold size_of. rewrite Nat2Z.id. by rewrite take_app_length, drop_app_length. Qed.

Lemma object_body oid kind body rest :
  read_body true oid kind (size_of body) (body ++ nl :: rest)
  = Ok (answer_record (AnObject oid kind body), rest).
Proof.
  unfold read_body, answer_record. cbn [negb]. destruct (take_lines body (nl :: rest)) as [Ht Hd].
  assert (Hlen : (Z.of_nat (length (body ++ nl :: rest)) <? size_of body) = false).
  { apply Z.ltb_ge. rewrite length_app. unfold size_of. lia. }
  assert (Hnl : read_exact 1 (nl :: rest) = Ok ([nl], rest)).
  { unfold read_exact. rewrite (proj2 (Z.ltb_ge _ _)) by (cbn [length]; lia). done. }
  destruct (size_of body <=? CONTENT_CAP).
  - unfold read_exact at 1. rewrite Hlen, Ht, Hd. by rewrite Hnl.
  - rewrite Hlen, Hd. by rewrite Hnl.
Qed.

Lemma not_suffix (s p q : str) (c d : Z) :
  c ≠ d → ends_with (p ++ [c]) (s ++ q ++ [d]) = false.
Proof.
  intros Hne. apply not_true_iff_false. intros [r E]%ends_with_spec. rewrite !app_assoc in E.
  by apply app_inj_tail in E as [_ ->].
Qed.

Lemma read_written a rest :
  answer_written a → read_answer true (answer_bytes a ++ rest) = Some (Ok (answer_record a, rest)).
Proof.
  intros Ha. pose proof (aw_line a Ha) as [Hnl Hsc]. unfold answer_bytes. rewrite <- !app_assoc. cbn [app].
  assert (Hr : ∀ tail, read_answer true (utf8_encode (header_of a) ++ nl :: tail)
    = Some (read_record true (header_of a) tail)).
  { intros tail. unfold read_answer. destruct (utf8_encode (header_of a) ++ nl :: tail) as [|b bs] eqn:E.
    { by destruct (utf8_encode (header_of a)). }
    rewrite <- E, read_line_written; [by rewrite header_lossy| |].
    - by apply utf8_free.
    - pose proof (aw_short a Ha). pose proof (utf8_encode_length (header_of a)). unfold HEADER_LIMIT. lia. }
  rewrite Hr. f_equal. unfold read_record. destruct a as [spec|spec|oid kind body].
  - unfold header_of. rewrite (proj2 (ends_with_spec _ _)); [done|by exists spec].
  - unfold header_of. change (lit " missing") with (lit " missin" ++ [103]).
    change (lit " ambiguous") with (lit " ambiguou" ++ [115]). rewrite not_suffix by done.
    rewrite (proj2 (ends_with_spec _ _)); [done|by exists spec].
  - rewrite object_header by done. change (lit " missing") with (lit " missin" ++ [103]).
    change (lit " ambiguous") with (lit " ambiguou" ++ [115]).
    assert (∃ ds d, header_of (AnObject oid kind body) = (oid ++ lit " " ++ kind ++ lit " ") ++ ds ++ [d] ∧ 48 ≤ d ≤ 57)
      as (ds & d & -> & Hd).
    { assert (0 ≤ size_of body) by (unfold size_of; lia). pose proof (fmt_u_nonempty (size_of body)).
      pose proof (fmt_u_digits (size_of body) ltac:(done)) as Hf. unfold header_of.
      destruct (fmt_u (size_of body)) as [|d ds _] using rev_ind; [done|]. exists ds, d.
      split; [by rewrite <- !app_assoc|]. rewrite all_chars_app in Hf. apply andb_prop in Hf as [_ Hf].
      cbn in Hf. rewrite andb_true_r in Hf. by apply is_ascii_digit_spec. }
    rewrite (not_suffix _ _ _ 103 d), (not_suffix _ _ _ 115 d) by lia.
    rewrite <- app_assoc. apply object_body.
Qed.

(** Answers are read one by one, each as what was written, whatever the bytes of the
    objects are: a body is consumed whole, so the next header starts where it should. *)
Theorem answers_stay_in_step as_ :
  Forall answer_written as_ →
  read_answers true (flat_map answer_bytes as_) = map (λ a, Ok (answer_record a)) as_.
Proof.
  intros Has. unfold read_answers.
  assert (Hg : ∀ fuel, (length as_ < fuel)%nat →
    read_answers_fuel fuel true (flat_map answer_bytes as_) = map (λ a, Ok (answer_record a)) as_).
  { induction Has as [|a as_ Ha _ IH]; intros [|fuel] Hf; cbn in Hf; try lia; [done|].
    cbn [flat_map read_answers_fuel map]. rewrite read_written by done. by rewrite IH by lia. }
  apply Hg. apply le_n_S. clear. induction as_ as [|a as_ IH]; cbn [length flat_map]; [done|].
  unfold answer_bytes at 1. rewrite !length_app. cbn [length]. lia.
Qed.

End Answers.

(** ** The memo *)

Section Reader.
Context `{DebugTable} `{M : Machine}.

Lemma memo_insert_eq {K A} `{Countable K} (k : K) (a : A) m : memo_insert k a m !! k = Some a.
Proof. unfold memo_insert. apply lookup_insert_eq. Qed.

Lemma commit_known rev r w w' r' c :
  commit rev r w = (w', r', Ok c) → st_commits (br_state r') !! rev = Some c.
Proof.
  unfold commit. destruct (st_commits (br_state r) !! rev) as [known|] eqn:E; [by intros [= <- <- <-]|].
  destruct (commit_oid _ _ rev w) as [w1 [oid|]]; [|done]. intros [= <- <- <-]. cbn. apply memo_insert_eq.
Qed.

Lemma ask_lane_commits with_content spec r w w' r' a :
  ask_lane with_content spec r w = (w', r', a) →
  st_commits (br_state r') = st_commits (br_state r).
Proof.
  unfold ask_lane. destruct (lane_of with_content r w) as [w1 [lane|refusal]].
  - destruct (ask with_content spec lane w1) as [[w2 lane'] ans]. intros [= <- <- <-]. by destruct with_content.
  - intros [= <- <- <-]. by destruct with_content.
Qed.

(** Once a file was read, its identity at that revision is known: it is the identity the
    content came with, and finding it asks nothing of the machine. *)
Theorem identity_is_the_contents rev path r w w1 r1 blob w' :
  read rev path r w = (w1, r1, Ok blob) →
  identity rev path r1 w' = (w', r1, Ok (GitReads.identity blob)).
Proof.
  unfold read. destruct (commit rev r w) as [[w2 r2] [c|refusal]] eqn:Ec; [|done].
  apply commit_known in Ec. destruct (request c path) as [spec|]; [|done].
  destruct (ask_lane true spec r2 w2) as [[w3 r3] [answer|]] eqn:Ea; [|done].
  apply ask_lane_commits in Ea. intros [= -> <- Ht].
  unfold text_of in Ht. destruct (blob_of answer rev path) as [[[oid size] body]|] eqn:Eb; [|done].
  destruct body as [body|]; [|done]. destruct (from_utf8 body); [|done]. injection Ht as <-.
  unfold identity, commit. cbn [remember_in with_state set_identities br_state st_commits st_identities oid_of remember].
  rewrite Ea, Ec.
  assert (Hk : st_identities (br_state (remember_in (c, path) (Ok oid) r3)) !! (c, path) = Some (Ok oid)).
  { cbn. apply memo_insert_eq. }
  by rewrite Hk.
Qed.
End Reader.

(** ** Revisions and options *)

(** A machine that also keeps the arguments of every git command. *)
Definition logged (M : Machine) : Machine := {|
  World := @World M * list (list str);
  Command := @Command M;
  git_with_program program repo args w :=
    let (w1, r) := @git_with_program M program repo args w.1 in ((w1, w.2 ++ [args]), r);
  run_bounded command bounds w := let (w1, r) := @run_bounded M command bounds w.1 in ((w1, w.2), r);
  lane_start program repo with_content w :=
    let (w1, r) := @lane_start M program repo with_content w.1 in ((w1, w.2), r);
  lane_ask with_content spec w := let (w1, r) := @lane_ask M with_content spec w.1 in ((w1, w.2), r);
  now w := let (w1, t) := @now M w.1 in ((w1, w.2), t);
  cancelled w := let (w1, b) := @cancelled M w.1 in ((w1, w.2), b);
|}.

(** The options the reads pass, all of them written in the source. *)
Definition OPTIONS : list str :=
  map lit ["--verify"; "--quiet"; "--end-of-options"; "--max-count=2001"; "--format=%H"; "--no-merges";
           "--name-only"; "--format="; "--no-renames"; "-z"; "--parents"; "--max-count=1"; "--raw"; "-c";
           "--unified=0"; "--no-color"; "--src-prefix=a/"; "--dst-prefix=b/"; "--find-renames";
           "--line-porcelain"; "-w"; "-M"; "--"]%string.

(** The arguments before [--]: what git may read as an option. *)
Fixpoint before_dashes (args : list str) : list str :=
  match args with
  | [] => []
  | a :: rest => if bool_decide (a = lit "--") then [] else a :: before_dashes rest
  end.

Definition safe (args : list str) : Prop :=
  Forall (λ a, starts_with (lit "-") a = true → a ∈ OPTIONS) (before_dashes args).

Lemma Forall_safe (args : list str) : Forall (λ a, starts_with (lit "-") a = true → a ∈ OPTIONS) args → safe args.
Proof.
  intros Ha. unfold safe. induction Ha as [|a args Ha _ IH]; [constructor|]. cbn [before_dashes].
  case_if; [constructor|by constructor].
Qed.

(** Not a word git reads as an option. *)
Definition plain (s : str) : Prop := ∃ c s', s = c :: s' ∧ c ≠ 45.

Lemma plain_dash s : plain s → starts_with (lit "-") s = false.
Proof.
  intros (c & s' & -> & Hc). change (lit "-") with [45]. unfold starts_with. cbn [strip_prefix].
  by rewrite (proj2 (Z.eqb_neq 45 c)) by congruence.
Qed.

Lemma dash_plain s : s ≠ [] → starts_with (lit "-") s = false → plain s.
Proof.
  destruct s as [|c s]; [done|]. intros _ Hs. exists c, s. split; [done|]. intros ->. done.
Qed.

Lemma plain_app a b : plain a → plain (a ++ b).
Proof. intros (c & s & -> & Hc). by exists c, (s ++ b). Qed.

Lemma full_oid_plain s : is_full_oid s = true → plain s ∧ plain (ascii_lowercase s).
Proof.
  unfold is_full_oid. intros [Hl Hh]%andb_prop. destruct s as [|c s]; [done|].
  unfold utf8_encode in Hh. cbn [flat_map] in Hh. rewrite all_chars_app in Hh. apply andb_prop in Hh as [Hc _].
  assert (Hb : (48 ≤ c ≤ 57 ∨ 65 ≤ c ≤ 70 ∨ 97 ≤ c ≤ 102) ∨ 128 ≤ c).
  { unfold utf8_encode_char in Hc. destruct (Z.ltb_spec c 128); [left|by right].
    cbn in Hc. rewrite andb_true_r in Hc. unfold is_ascii_hexdigit, is_ascii_digit in Hc.
    rewrite !orb_true_iff, !in_range_spec in Hc. tauto. }
  split; [exists c, s; split; [done|lia]|]. exists (to_ascii_lowercase c), (ascii_lowercase s). split; [done|].
  unfold to_ascii_lowercase, is_ascii_upper. destruct (RustStr.in_range 65 90 c) eqn:E; [apply in_range_spec in E|]; lia.
Qed.

Lemma full_oid_digits s : is_full_oid s = true → all_chars is_ascii_hexdigit s = true.
Proof.
  unfold is_full_oid. intros [_ Hh]%andb_prop. induction s as [|c s IH]; [done|].
  unfold utf8_encode in Hh. cbn [flat_map] in Hh. rewrite all_chars_app in Hh. apply andb_prop in Hh as [Hc Hs].
  cbn [forallb]. rewrite IH, andb_true_r by done. unfold utf8_encode_char in Hc.
  destruct (Z.ltb_spec c 128); [by rewrite <- Hc; cbn [forallb]; rewrite andb_true_r|]. exfalso.
  assert (Hlow : ∀ b, is_ascii_hexdigit b = true → b < 192).
  { intros b Hb. unfold is_ascii_hexdigit, is_ascii_digit in Hb. rewrite !orb_true_iff, !in_range_spec in Hb. lia. }
  assert (Hpos : ∀ k, 0 < k → 0 ≤ c / k) by (intros; apply Z.div_pos; lia).
  destruct (c <? 2048); [|destruct (c <? 65536)]; cbn [forallb] in Hc; apply andb_prop in Hc as [Hc%Hlow _];
    [specialize (Hpos 64)|specialize (Hpos 4096)|specialize (Hpos 262144)]; lia.
Qed.

Lemma hexdigit_lowercase c : is_ascii_hexdigit c = true → is_ascii_hexdigit (to_ascii_lowercase c) = true.
Proof.
  unfold to_ascii_lowercase, is_ascii_upper, is_ascii_hexdigit, is_ascii_digit.
  rewrite !orb_true_iff, !in_range_spec. intros Hc.
  destruct (RustStr.in_range 65 90 c) eqn:E; [apply in_range_spec in E|]; lia.
Qed.

Lemma hexdigits_ascii s : all_chars is_ascii_hexdigit s = true → all_chars (λ c, c <? 128) s = true.
Proof.
  apply all_chars_impl. intros c. unfold is_ascii_hexdigit, is_ascii_digit.
  rewrite !orb_true_iff, !in_range_spec, Z.ltb_lt. lia.
Qed.

Lemma full_oid_lowercase s : is_full_oid s = true → is_full_oid (ascii_lowercase s) = true.
Proof.
  intros Hs. pose proof (full_oid_digits s Hs) as Hd.
  assert (Hl : all_chars is_ascii_hexdigit (ascii_lowercase s) = true).
  { clear Hs. unfold ascii_lowercase. induction s as [|c s IH]; [done|]. cbn in Hd |- *.
    apply andb_prop in Hd as [Hc Hd]. by rewrite hexdigit_lowercase, IH. }
  unfold is_full_oid in *. apply andb_prop in Hs as [Hs _].
  rewrite utf8_encode_ascii, Hl, andb_true_r by (by apply hexdigits_ascii).
  rewrite !str_len_ascii in * by (by apply hexdigits_ascii). unfold ascii_lowercase. by rewrite length_map.
Qed.

Lemma full_oid_is_revision s : is_full_oid s = true → s ≠ [] ∧ starts_with (lit "-") s = false.
Proof.
  intros Hs. destruct (full_oid_plain s Hs) as [Hp _]. split; [by destruct Hp as (c & s' & -> & _)|by apply plain_dash].
Qed.

(** ** Readers that remember only what git said *)

Section Honest.
Context `{DebugTable} `{M : Machine}.

(** What a reader remembers of revisions: object ids, and of a full id that id itself. A
    new reader remembers nothing, and its calls keep this. *)
Definition honest (r : BlobReader) : Prop :=
  ∀ rev oid, st_commits (br_state r) !! rev = Some oid →
    is_full_oid oid = true ∧ (is_full_oid rev = true → oid = ascii_lowercase rev).

Lemma honest_new program repo : honest (new_reader program repo).
Proof. intros rev oid. cbn. by rewrite lookup_empty. Qed.

Lemma commit_oid_full program repo rev w w' oid :
  commit_oid program repo rev w = (w', Ok oid) →
  is_full_oid oid = true ∧ (is_full_oid rev = true → oid = ascii_lowercase rev).
Proof.
  unfold commit_oid. case_bool_decide; [done|]. destruct (starts_with (lit "-") rev); [done|].
  destruct (is_full_oid rev) eqn:Hf; [intros [= <- <-]; split; [by apply full_oid_lowercase|done]|].
  destruct (run_git _ _ _ _ _ w) as [w1 [captured|[]]]; try done.
  destruct (is_full_oid (trim _)) eqn:Ho; cbn [negb]; [|done]. by intros [= <- <-].
Qed.

Lemma full_oid_is_itself program repo oid w :
  is_full_oid oid = true → commit_oid program repo oid w = (w, Ok (ascii_lowercase oid)).
Proof.
  intros Hf. destruct (full_oid_is_revision oid Hf) as [Hne Hd]. unfold commit_oid.
  by rewrite bool_decide_eq_false_2, Hd, Hf.
Qed.

Lemma commit_honest rev r w w' r' a :
  honest r → commit rev r w = (w', r', a) →
  honest r' ∧ ∀ oid, a = Ok oid → is_full_oid oid = true ∧ (is_full_oid rev = true → oid = ascii_lowercase rev).
Proof.
  intros Hr. unfold commit. destruct (st_commits (br_state r) !! rev) as [known|] eqn:E.
  { intros [= <- <- <-]. split; [done|]. intros oid [= <-]. by apply Hr. }
  destruct (commit_oid _ _ rev w) as [w1 [oid|]] eqn:Ec; intros [= <- <- <-]; [|done].
  apply commit_oid_full in Ec. split; [|by intros oid' [= <-]]. intros k v. cbn. unfold memo_insert.
  rewrite lookup_insert_Some. intros [[<- <-]|[_ Hk]]; [done|].
  destruct (MEMO_CAP <=? _)%nat; [by rewrite lookup_empty in Hk|by apply Hr].
Qed.

Lemma read_honest rev path r w w' r' a : honest r → read rev path r w = (w', r', a) → honest r'.
Proof.
  intros Hr. unfold read. destruct (commit rev r w) as [[w1 r1] c] eqn:Ec.
  apply commit_honest in Ec as [Hr1 _]; [|done]. destruct c as [c|]; [|by intros [= <- <- <-]].
  destruct (request c path) as [spec|]; [|by intros [= <- <- <-]].
  destruct (ask_lane true spec r1 w1) as [[w2 r2] asked] eqn:Ea. apply ask_lane_commits in Ea.
  assert (Hr2 : honest r2) by (intros k v; rewrite Ea; apply Hr1).
  destruct asked; by intros [= <- <- <-].
Qed.

(** What [read] returns of a full id is the blob git named for the path at that id. *)
Lemma read_said oid path r w w' r' blob :
  honest r → is_full_oid oid = true → read oid path r w = (w', r', Ok blob) →
  ∃ w1 w2 id size body,
    lane_ask true (ascii_lowercase oid ++ lit ":" ++ path) w1 = (w2, Said (Object id (lit "blob") size (Some body)))
    ∧ from_utf8 body = Some (content blob) ∧ GitReads.identity blob = Blob id.
Proof.
  intros Hr Hf. unfold read. destruct (commit oid r w) as [[w1 r1] c] eqn:Ec.
  apply commit_honest in Ec as [_ Hc]; [|done]. destruct c as [c|]; [|done].
  destruct (Hc c eq_refl) as [_ ->]; [|done]. unfold request. case_if; [done|].
  unfold ask_lane. destruct (lane_of true r1 w1) as [w2 [lane|]]; [|done].
  unfold ask. destruct (broken lane); [by intros [= _ _ Ht]|].
  destruct (lane_ask true _ w2) as [w3 heard] eqn:Ea. destruct heard as [record| | | |]; try by intros [= _ _ Ht].
  intros [= _ _ Ht]. destruct record as [| |id kind size body]; try done. cbn in Ht. case_bool_decide; [|done].
  subst kind. cbn in Ht. destruct body as [body|]; [|done]. destruct (from_utf8 body) as [text|] eqn:Eu; [|done].
  injection Ht as <-. by exists w2, w3, id, size, body.
Qed.

(** A blame of a full id is read from what git answered about that id and path. *)
Lemma blame_said program repo oid path w w' blame :
  is_full_oid oid = true → blame_file_with_program program repo oid path w = (w', Ok blame) →
  ∃ command w1 w2 w3 captured,
    git_with_program program repo (blame_args (ascii_lowercase oid) path) w1 = (w2, Ok command)
    ∧ run_bounded command blame_bounds w2 = (w3, Ok captured)
    ∧ stdout_truncated captured = false ∧ status_success captured = true
    ∧ parse_porcelain (stdout_lossy captured) = Ok (bf_lines blame).
Proof.
  intros Hf. unfold blame_file_with_program. rewrite full_oid_is_itself by done.
  destruct (git_with_program _ _ _ w) as [w1 [command|]] eqn:Eg; [|done].
  destruct (run_bounded command _ w1) as [w2 [captured|[]]] eqn:Er; try done.
  unfold blame_answer. destruct (stdout_truncated captured) eqn:Et; [done|].
  destruct (status_success captured) eqn:Es; cbn [negb]; [|done].
  destruct (parse_porcelain _) as [ls|] eqn:Ep; [|done]. intros [= <- <-]. by exists command, w, w1, w2, captured.
Qed.
End Honest.

(** Closes [safe] of a list of the source's words and plain ones. *)
Ltac words :=
  apply Forall_safe; repeat (apply Forall_cons; split); try apply List.Forall_nil; intros Hs;
  first [apply (bool_decide_eq_true_1 _); vm_compute; reflexivity|vm_compute in Hs; discriminate Hs
        |rewrite plain_dash in Hs by (done || by apply plain_app); discriminate Hs].

Section Options.
Context `{DebugTable} (M : Machine).
#[local] Instance log : Machine := logged M.

(** Every command of the call is safe, and its answer has the property. *)
Definition careful {A E} (p : @World log → @World log * result A E) (Q : A → Prop) : Prop :=
  ∀ w, ∃ more, (p w).1.2 = w.2 ++ more ∧ Forall safe more ∧ ∀ a, (p w).2 = Ok a → Q a.

Lemma careful_run program repo args what cap :
  safe args → careful (run_git program repo args what cap) (λ _, True).
Proof.
  intros Hs w. exists [args]. unfold run_git, run_git_with_deadline. cbn.
  destruct (git_with_program program repo args w.1) as [w1 [command|f]]; cbn.
  - destruct (run_bounded command _ w1) as [w2 r]. cbn. split_and!; [done|by constructor|done].
  - split_and!; [done|by constructor|done].
Qed.

Lemma careful_then {A B E} (p : @World log → @World log * result A E) (k : A → @World log → @World log * result B E) P Q :
  careful p P → (∀ a, P a → careful (k a) Q) → careful (and_then p k) Q.
Proof.
  intros Hp Hk w. destruct (Hp w) as (m1 & E1 & S1 & P1). unfold and_then.
  destruct (p w) as [w1 [a|e]]; cbn in *.
  - destruct (Hk a (P1 a eq_refl) w1) as (m2 & E2 & S2 & P2). exists (m1 ++ m2).
    split_and!; [|by apply Forall_app|done]. etrans; [exact E2|]. by rewrite E1, app_assoc.
  - by exists m1.
Qed.

Lemma careful_ret {A E} (f : @World log → result A E) (Q : A → Prop) :
  (∀ w a, f w = Ok a → Q a) → careful (λ w, (w, f w)) Q.
Proof. intros Hq w. exists []. cbn. rewrite app_nil_r. split_and!; [done|done|]. apply Hq. Qed.

Lemma careful_map_err {A E F} (f : E → F) p (Q : A → Prop) : careful p Q → careful (map_err f p) Q.
Proof.
  intros Hp w. destruct (Hp w) as (m & Em & S & P). exists m. unfold map_err.
  destruct (p w) as [w1 [a|e]]; cbn in *; split_and!; done || (intros a' [= <-]; by apply P).
Qed.

Lemma careful_commit_oid program repo rev : careful (commit_oid program repo rev) plain.
Proof.
  intros w. unfold commit_oid. case_bool_decide as Hne; [exists []; by rewrite app_nil_r|].
  destruct (starts_with (lit "-") rev) eqn:Hp; [exists []; by rewrite app_nil_r|].
  destruct (is_full_oid rev) eqn:Hf.
  { exists []. cbn. rewrite app_nil_r. split_and!; [done|done|]. intros a [= <-]. by apply full_oid_plain. }
  destruct (careful_run program repo (rev_parse_args rev) (lit "git rev-parse --verify") (4 * 1024)) with (w := w)
    as (m & Em & Sm & _).
  { pose proof (dash_plain rev Hne Hp). unfold rev_parse_args. words. }
  destruct (run_git _ _ _ _ _ w) as [w1 [captured|refusal]]; exists m; cbn in *.
  - split_and!; [done|done|]. case_if; [done|]. apply negb_false_iff in Heqb. intros a [= <-].
    by apply full_oid_plain.
  - split_and!; [done|done|]. by destruct refusal.
Qed.

Lemma careful_blame program repo rev path :
  careful (blame_file_with_program program repo rev path) (λ _, True).
Proof.
  intros w. destruct (careful_commit_oid program repo rev w) as (m & Em & Sm & Pm).
  unfold blame_file_with_program. destruct (commit_oid program repo rev w) as [w1 [oid|refusal]]; [|by exists m].
  cbn in Em. exists (m ++ [blame_args oid path]). specialize (Pm oid eq_refl).
  assert (Hsafe : safe (blame_args oid path)).
  { unfold safe, blame_args. cbn [before_dashes]. repeat case_bool_decide; try apply List.Forall_nil;
      repeat (apply Forall_cons; split); try apply List.Forall_nil; intros Hs;
      first [apply (bool_decide_eq_true_1 _); vm_compute; reflexivity|vm_compute in Hs; discriminate Hs
            |rewrite plain_dash in Hs by done; discriminate Hs|done]. }
  assert (Hall : Forall safe (m ++ [blame_args oid path])) by (apply Forall_app; split; [done|by constructor]).
  assert (E : w1.2 ++ [blame_args oid path] = w.2 ++ m ++ [blame_args oid path]) by (rewrite Em; by rewrite app_assoc).
  cbn. destruct (git_with_program program repo (blame_args oid path) w1.1) as [w2 [command|f]]; cbn; [|done].
  destruct (run_bounded command _ w2) as [w3 r]. cbn. done.
Qed.

(** A revision comes from outside, and git reads a word that begins with a dash as an
    option wherever it stands. Whatever the revisions and paths are, and whatever git
    answers, no command of these reads has a word that begins with a dash before its
    [--], but the options written in the source. *)
Theorem revisions_never_become_options program repo since until path :
  careful (commit_oid program repo since) plain
  ∧ careful (commit_window program repo since until) (λ _, True)
  ∧ careful (files_changed program repo since) (λ _, True)
  ∧ careful (parent_count program repo since) (λ _, True)
  ∧ careful (changes_between program repo since until) (λ _, True)
  ∧ careful (blame_file_with_program program repo since path) (λ _, True).
Proof.
  split_and!.
  - apply careful_commit_oid.
  - eapply careful_then; [apply careful_commit_oid|]. intros s Hs'.
    eapply careful_then; [apply careful_commit_oid|]. intros u Hu.
    eapply careful_then; [apply careful_run; unfold log_args; words|]. intros c _. by apply careful_ret.
  - eapply careful_then; [apply careful_commit_oid|]. intros s Hs'.
    eapply careful_then; [apply careful_run; unfold show_args; words|]. intros c _. by apply careful_ret.
  - eapply careful_then; [apply careful_commit_oid|]. intros s Hs'.
    eapply careful_then; [apply careful_run; words|]. intros c _. by apply careful_ret.
  - eapply careful_then; [apply careful_map_err, careful_commit_oid|]. intros s Hs'.
    eapply careful_then; [apply careful_map_err, careful_commit_oid|]. intros u Hu.
    eapply careful_then; [apply careful_map_err, careful_run; unfold raw_args; words|]. intros r _.
    eapply careful_then; [apply careful_map_err, careful_run; unfold patch_args; words|]. intros p _.
    by apply careful_ret.
  - apply careful_blame.
Qed.

End Options.

(** ** A repository of one file *)

Module Sample.

#[export] Instance table : DebugTable := {| printable_beyond_ascii := λ _, true |}.

Definition oid : str := replicate 40 (chr "a").

(** A body that looks like an answer. *)
Definition body : list Z := utf8_encode (lit "x missing" ++ [nl]).

Definition answers : list AnswerText :=
  [AnObject oid (lit "blob") body; NoObject (oid ++ lit ":gone.rs"); AnObject oid (lit "tree") [];
   ManyObjects (lit "aaaa")].

#[export] Instance machine : Machine := {|
  World := unit;
  Command := unit;
  git_with_program _ _ _ w := (w, Err (FailOther (lit "no git")));
  run_bounded _ _ w := (w, Err (FailOther (lit "no git")));
  lane_start _ _ _ w := (w, Ok tt);
  lane_ask with_content _ w := (w, Said (Object oid (lit "blob") 10 (if with_content then Some body else None)));
  now w := (w, 0);
  cancelled w := (w, false);
|}.

Definition reader : BlobReader := new_reader (lit "git") (lit ".").
Definition first_read := read oid (lit "a.rs") reader tt.

End Sample.

Import Sample.

Lemma answers_stay_in_step_witness :
  read_answers true (flat_map answer_bytes answers)
  = [Ok (Object oid (lit "blob") 10 (Some body)); Ok Missing; Ok (Object oid (lit "tree") 0 (Some [])); Ok Ambiguous].
Proof.
  rewrite (answers_stay_in_step answers); [by vm_compute|].
  repeat (apply List.Forall_cons || apply List.Forall_nil);
    (split; [split; by vm_compute|by vm_compute|]); cbn; try exact I;
    (split_and!; [left; by vm_compute|by vm_compute|by vm_compute|by vm_compute]).
Defined.

Lemma identity_is_the_contents_witness :
  (∃ w r b, first_read = (w, r, Ok b) ∧ content b = lit "x missing" ++ [nl])
  ∧ ∀ w r b, first_read = (w, r, Ok b) →
      identity oid (lit "a.rs") r tt = (tt, r, Ok (GitReads.identity b)).
Proof.
  split.
  - eexists _, _, _. split; [by vm_compute|by vm_compute].
  - intros w r b E. exact (identity_is_the_contents oid (lit "a.rs") reader tt w r b tt E).
Defined.

End BlobProps.
