(* ===== verification/SuspectProps.v ===== *)
(** * Ranking and gathering suspects *)

From S2P Require Import Prelude RustStr RustStrFacts Order Regress GitReads RegressFacts Blobs Blame Suspects BlobProps.
Import Order Regress GitReads Blobs Blame Suspects.

#[local] Open Scope Z_scope.

Module SuspectFacts.

(** ** Ranking *)

#[export] Instance suspect_order : LebOrder suspect_leb (λ a b,
  class_rank (evidence a) = class_rank (evidence b) ∧ score a = score b
  ∧ nearest_distance a = nearest_distance b ∧ su_time a = su_time b ∧ su_commit a = su_commit b).
Proof. apply _. Qed.

Lemma suspect_leb_evidence a b : suspect_leb a b = true → class_rank (evidence b) ≤ class_rank (evidence a).
Proof.
  unfold suspect_leb, desc. intros Hab.
  destruct (Z.ltb_spec (class_rank (evidence b)) (class_rank (evidence a))); [lia|].
  destruct (Z.ltb_spec (class_rank (evidence a)) (class_rank (evidence b))); [done|lia].
Qed.

Lemma class_max_spec a b :
  class_rank (class_max a b) = Z.max (class_rank a) (class_rank b).
Proof. by destruct a, b. Qed.

Lemma class_rank_inj a b : class_rank a = class_rank b → a = b.
Proof. by destruct a, b. Qed.

Lemma class_fold cs c k :
  class_rank (foldl class_max c cs) = k ↔
  (∀ x, x ∈ c :: cs → class_rank x ≤ k) ∧ ∃ x, x ∈ c :: cs ∧ class_rank x = k.
Proof.
  revert c. induction cs as [|x cs IH]; intros c; cbn [foldl].
  - split.
    + intros <-. split; [by intros x ->%list_elem_of_singleton|]. exists c. split; [by left|done].
    + by intros [_ (x & ->%list_elem_of_singleton & ?)].
  - rewrite IH. setoid_rewrite elem_of_cons. setoid_rewrite elem_of_cons. split.
    + intros [Hle (y & [->|Hy] & Hk)].
      * pose proof (class_max_spec c x) as Hm. split.
        -- intros z [->|[->|Hz]]; [..|by apply Hle; right]; lia.
        -- destruct (Z.max_spec (class_rank c) (class_rank x)) as [[_ E]|[_ E]]; [exists x|exists c];
             (split; [auto|lia]).
      * split; [|by exists y; auto]. intros z [->|[->|Hz]]; [| |by apply Hle; right].
        -- specialize (Hle _ (or_introl eq_refl)). rewrite class_max_spec in Hle. lia.
        -- specialize (Hle _ (or_introl eq_refl)). rewrite class_max_spec in Hle. lia.
    + intros [Hle (y & Hy & Hk)]. split.
      * intros z [->|Hz]; [rewrite class_max_spec; pose proof (Hle c (or_introl eq_refl));
          pose proof (Hle x (or_intror (or_introl eq_refl))); lia|by apply Hle; auto].
      * destruct Hy as [->|[->|Hy]]; [| |by exists y; auto]; eexists; (split; [by left|]);
          rewrite class_max_spec; pose proof (Hle c (or_introl eq_refl));
          pose proof (Hle x (or_intror (or_introl eq_refl))); lia.
Qed.

(** The strongest class is the strongest of the touches. *)
Lemma max_class_spec ts c :
  ts ≠ [] →
  max_class ts = c ↔ (∃ t, t ∈ ts ∧ class_of t = c) ∧ ∀ t, t ∈ ts → class_rank (class_of t) ≤ class_rank c.
Proof.
  intros Hne. unfold max_class. destruct ts as [|t ts]; [done|]. cbn [map].
  assert (E : foldl class_max (class_of t) (map class_of ts) = c
              ↔ class_rank (foldl class_max (class_of t) (map class_of ts)) = class_rank c).
  { split; [by intros ->|apply class_rank_inj]. }
  rewrite E, class_fold. change (class_of t :: map class_of ts) with (map class_of (t :: ts)).
  setoid_rewrite elem_of_map. split.
  - intros [Hle (x & (u & -> & Hu) & Hk)]. split; [exists u; split; [done|by apply class_rank_inj]|].
    intros v Hv. apply Hle. by exists v.
  - intros [(u & Hu & <-) Hle]. split; [intros x (v & -> & Hv); by apply Hle|].
    exists (class_of u). split; [by exists u|done].
Qed.

Lemma min_fold ds d k :
  foldl Z.min d ds = k ↔ k ∈ d :: ds ∧ ∀ x, x ∈ d :: ds → k ≤ x.
Proof.
  revert d. induction ds as [|y ds IH]; intros d; cbn [foldl].
  - rewrite list_elem_of_singleton. split; [intros <-; split; [done|]|by intros [-> _]].
    by intros x ->%list_elem_of_singleton.
  - rewrite IH, !elem_of_cons. setoid_rewrite elem_of_cons. setoid_rewrite elem_of_cons. split.
    + intros [Hin Hle]. pose proof (Hle _ (or_introl eq_refl)). split.
      * destruct Hin as [->|?]; [|auto]. destruct (Z.min_spec d y) as [[_ ->]|[_ ->]]; auto.
      * intros x [->|[->|?]]; [lia|lia|by apply Hle; right].
    + intros [Hin Hle]. pose proof (Hle d (or_introl eq_refl)).
      pose proof (Hle y (or_intror (or_introl eq_refl))). split; [|by intros x [->|?]; [lia|auto]].
      destruct Hin as [->|[->|?]]; [left; lia|left; lia|by right].
Qed.

Lemma min_distance_spec ts d :
  ts ≠ [] → min_distance ts = d ↔ (∃ t, t ∈ ts ∧ distance t = d) ∧ ∀ t, t ∈ ts → d ≤ distance t.
Proof.
  intros Hne. unfold min_distance. destruct ts as [|t ts]; [done|]. cbn [map]. rewrite min_fold.
  change (distance t :: map distance ts) with (map distance (t :: ts)). setoid_rewrite elem_of_map.
  naive_solver.
Qed.

Lemma touch_weight_nonneg t : 0 ≤ distance t → 0 ≤ ts_lines t → 0 ≤ touch_weight t.
Proof.
  intros Hd Hl. unfold touch_weight, sat_mul, sat_add, SCALE, u64_max.
  assert (0 ≤ 1000 / Z.min 18446744073709551615 (distance t + 1)) by (apply Z.div_pos; lia).
  destruct (ts_body_changed t) as [[]|]; try apply Z.div_pos; lia.
Qed.

Lemma sat_sum ws acc :
  0 ≤ acc ≤ u64_max → Forall (λ w, 0 ≤ w) ws →
  foldl (sat_add u64_max) acc ws = Z.min u64_max (acc + foldr Z.add 0 ws).
Proof.
  intros Hacc Hws. revert acc Hacc. induction Hws as [|w ws Hw Hws IH]; intros acc Hacc; cbn [foldl foldr].
  { unfold u64_max in *. lia. }
  assert (0 ≤ foldr Z.add 0 ws) by (clear -Hws; induction Hws; cbn; lia).
  rewrite IH by (unfold sat_add, u64_max in *; lia). unfold sat_add, u64_max in *. lia.
Qed.

(** ** Footprints *)

Section Footprints.
Context `{CodeGraph}.

(** What a row says of a commit: the symbol at its distance, with the lines. *)
Definition row_touches (in_window : str → bool) (m : Cone) (c : str) (row : SymbolBlame) : list TouchedSymbol :=
  match m !! sb_name row with
  | None => []
  | Some (_, d) =>
      flat_map (λ t, if bool_decide (ct_commit t = c) && in_window c
                     then [{| ts_name := sb_name row; ts_file := sb_file row; distance := d;
                              ts_lines := ct_lines t; ts_body_changed := body_changed (sb_name row) c |}]
                     else []) (sb_commits row)
  end.

Definition touches_in (fp : Footprints) (c : str) : list TouchedSymbol :=
  match fp !! c with Some (_, _, ts) => ts | None => [] end.

(** A commit is in the map only with a touch. *)
Definition inhabited (fp : Footprints) : Prop := ∀ c a t ts, fp !! c = Some (a, t, ts) → ts ≠ [].

Lemma touch_row_spec in_window row d fp t c :
  touches_in (touch_row in_window row d fp t) c
  = touches_in fp c
    ++ (if bool_decide (ct_commit t = c) && in_window c
        then [{| ts_name := sb_name row; ts_file := sb_file row; distance := d;
                 ts_lines := ct_lines t; ts_body_changed := body_changed (sb_name row) c |}] else []).
Proof.
  unfold touch_row, touches_in. case_bool_decide as Hc; cbn [andb].
  - subst c. destruct (in_window (ct_commit t)); cbn [negb]; [|by rewrite app_nil_r].
    destruct (default _ _) as [[a time] ts] eqn:E. rewrite lookup_insert_eq.
    destruct (fp !! ct_commit t) as [[[a' t'] ts']|]; cbn in E; by injection E as <- <- <-.
  - rewrite app_nil_r. case_if; [done|]. destruct (default _ _) as [[a time] ts].
    by rewrite lookup_insert_ne.
Qed.

Lemma touch_row_inhabited in_window row d fp t :
  inhabited fp → inhabited (touch_row in_window row d fp t).
Proof.
  intros Hi. unfold touch_row. case_if; [done|]. destruct (default _ _) as [[a time] ts].
  intros c a' t' ts'. destruct (decide (ct_commit t = c)) as [<-|Hne].
  - rewrite lookup_insert_eq. intros [= <- <- <-]. by destruct ts.
  - rewrite lookup_insert_ne by done. apply Hi.
Qed.

Lemma note_row_spec in_window m fp row c :
  touches_in (note_row in_window m fp row) c = touches_in fp c ++ row_touches in_window m c row.
Proof.
  unfold note_row, row_touches. destruct (m !! sb_name row) as [[f d]|]; [|by rewrite app_nil_r].
  generalize (sb_commits row) as cts. intros cts. revert fp. induction cts as [|t cts IH]; intros fp; cbn [foldl flat_map].
  { by rewrite app_nil_r. }
  by rewrite IH, touch_row_spec, <- app_assoc.
Qed.

Lemma note_row_inhabited in_window m fp row : inhabited fp → inhabited (note_row in_window m fp row).
Proof.
  intros Hi. unfold note_row. destruct (m !! sb_name row) as [[f d]|]; [|done].
  revert fp Hi. induction (sb_commits row) as [|t cts IH]; intros fp Hi; cbn [foldl]; [done|].
  by apply IH, touch_row_inhabited.
Qed.

Lemma note_rows_spec in_window m rows fp c :
  touches_in (foldl (note_row in_window m) fp rows) c
  = touches_in fp c ++ flat_map (row_touches in_window m c) rows.
Proof.
  revert fp. induction rows as [|row rows IH]; intros fp; cbn [foldl flat_map]; [by rewrite app_nil_r|].
  by rewrite IH, note_row_spec, <- app_assoc.
Qed.

Lemma note_rows_inhabited in_window m rows fp : inhabited fp → inhabited (foldl (note_row in_window m) fp rows).
Proof.
  revert fp. induction rows as [|row rows IH]; intros fp Hi; cbn [foldl]; [done|]. by apply IH, note_row_inhabited.
Qed.

Lemma elem_of_row_touches in_window m c row t :
  t ∈ row_touches in_window m c row ↔
  in_window c = true ∧ ts_name t = sb_name row ∧ ts_file t = sb_file row
  ∧ (∃ f, m !! sb_name row = Some (f, distance t))
  ∧ (∃ ct, ct ∈ sb_commits row ∧ ct_commit ct = c ∧ ct_lines ct = ts_lines t)
  ∧ ts_body_changed t = body_changed (sb_name row) c.
Proof.
  unfold row_touches. destruct (m !! sb_name row) as [[f d]|] eqn:E.
  2:{ split; [by intros ?%elem_of_nil|]. by intros (_ & _ & _ & [f Hf] & _). }
  rewrite list_elem_of_In, in_flat_map. setoid_rewrite <- list_elem_of_In. split.
  - intros (ct & Hct & Ht). case_bool_decide as Hc; [|by apply elem_of_nil in Ht].
    destruct (in_window c); [|by apply elem_of_nil in Ht]. apply list_elem_of_singleton in Ht. subst t. cbn.
    split_and!; eauto.
  - intros (Hw & Hn & Hf & [f' [= -> ->]] & (ct & Hct & Hc & Hl) & Hb). exists ct. split; [done|].
    rewrite bool_decide_eq_true_2, Hw by done. cbn. apply list_elem_of_singleton. destruct t; cbn in *. congruence.
Qed.
End Footprints.

(** ** The cone *)

Section Cones.
Context `{CodeGraph}.

(** The name is in the cone, no farther than this. *)
Definition within (m : Cone) (name : str) (d : Z) : Prop := ∃ f d', m !! name = Some (f, d') ∧ d' ≤ d.

Lemma cone_add_within e m name d :
  within m name d ∨ (name = ce_name e ∧ d = ce_distance e) → within (cone_add e m) name d.
Proof.
  unfold within, cone_add. destruct (decide (name = ce_name e)) as [->|Hne].
  - intros Hw. destruct (m !! ce_name e) as [[f d']|] eqn:E.
    + cbn [snd]. destruct (Z.ltb_spec (ce_distance e) d').
      * exists (ce_file e), (ce_distance e). rewrite lookup_insert_eq. split; [done|]. naive_solver lia.
      * exists f, d'. split; [done|]. naive_solver lia.
    + exists (ce_file e), (ce_distance e). rewrite lookup_insert_eq. split; [done|]. naive_solver lia.
  - intros [(f & d' & Hm & Hd)|[? _]]; [|done]. exists f, d'. split; [|done].
    destruct (m !! ce_name e) as [held|]; [destruct (ce_distance e <? held.2); [|done]|]; by rewrite lookup_insert_ne.
Qed.

Lemma cone_entries_within entries m name d :
  within m name d ∨ (∃ e, e ∈ entries ∧ name = ce_name e ∧ d = ce_distance e) →
  within (foldl (λ m e, cone_add e m) m entries) name d.
Proof.
  revert m. induction entries as [|e entries IH]; intros m; cbn [foldl].
  { intros [?|(e & ?%elem_of_nil & _)]; done. }
  intros Hw. apply IH. destruct Hw as [?|(x & [->|Hx]%elem_of_cons & ?)]; [left..|right; by exists x];
    apply cone_add_within; auto.
Qed.

Lemma cone_targets_within targets depth acc :
  (foldl (cone_target depth) acc targets).2 = false →
  acc.2 = false ∧ (∀ name d, within acc.1 name d → within (foldl (cone_target depth) acc targets).1 name d)
  ∧ ∀ target, target ∈ targets → (cone target depth).2 = false
      ∧ ∀ e, e ∈ (cone target depth).1 → within (foldl (cone_target depth) acc targets).1 (ce_name e) (ce_distance e).
Proof.
  revert acc. induction targets as [|target targets IH]; intros [m b]; cbn [foldl].
  { intros Hb. split_and!; [done|done|]. by intros ? ?%elem_of_nil. }
  intros (Hb & Hkeep & Hall)%IH. unfold cone_target at 1 in Hb.
  assert (Hone : ∀ name d, within m name d ∨ (∃ e, e ∈ (cone target depth).1 ∧ name = ce_name e ∧ d = ce_distance e) →
                 within (cone_target depth (m, b) target).1 name d).
  { unfold cone_target. destruct (cone target depth) as [entries stopped]. cbn. intros. by apply cone_entries_within. }
  destruct (cone target depth) as [entries stopped] eqn:Ec. cbn [snd] in Hb. apply orb_false_iff in Hb as [-> ->].
  split_and!; [done|auto|]. intros t [->|Ht]%elem_of_cons; [|by apply Hall]. rewrite Ec. split; [done|]. cbn [fst].
  intros e He. apply Hkeep, Hone. right. by exists e.
Qed.

(** A cone that is not cut has every symbol the graph gave for every target. *)
Lemma cone_of_within targets depth m :
  cone_of targets depth = (m, false) →
  ∀ target, target ∈ targets → (cone target depth).2 = false
    ∧ ∀ e, e ∈ (cone target depth).1 → within m (ce_name e) (ce_distance e).
Proof.
  unfold cone_of. intros E. pose proof (cone_targets_within targets depth (∅, false)) as Hall.
  rewrite E in Hall. by destruct (Hall eq_refl) as (_ & _ & ?).
Qed.

Lemma elem_of_nearest (l : list (str * Z)) acc f :
  is_Some (foldl (λ acc e, nearest_add e acc) acc l !! f) ↔ is_Some (acc !! f) ∨ f ∈ map fst l.
Proof.
  revert acc. induction l as [|[g d] l IH]; intros acc; cbn [foldl map].
  { split; [by left|intros [?|?%elem_of_nil]; done]. }
  rewrite IH, elem_of_cons. unfold nearest_add. cbn [fst]. destruct (decide (f = g)) as [->|Hne].
  - rewrite lookup_insert_eq. naive_solver.
  - rewrite lookup_insert_ne by done. naive_solver.
Qed.

(** The files of the cone are those of its symbols. *)
Lemma elem_of_cone_files m f : f ∈ cone_files_nearest_first m ↔ ∃ name d, m !! name = Some (f, d).
Proof.
  unfold cone_files_nearest_first. rewrite elem_of_map. setoid_rewrite elem_of_sort_by.
  transitivity (is_Some (nearest_files m !! f)).
  - split; [intros ([g d] & -> & Hg%elem_of_map_to_list); by exists d|].
    intros [d Hd]. exists (f, d). by rewrite elem_of_map_to_list.
  - unfold nearest_files. rewrite elem_of_nearest, lookup_empty, elem_of_map. split.
    + intros [[? [=]]|([g d] & -> & ([name [h e]] & [= -> ->] & He%elem_of_map_to_list)%elem_of_map)]. by exists name, e.
    + intros (name & d & Hm). right. exists (f, d). split; [done|]. apply elem_of_map. exists (name, (f, d)).
      by rewrite elem_of_map_to_list.
Qed.
End Cones.

(** ** Blamed lines *)

(** The line of an offset: one, and the newlines before it. *)
Definition line_number (text : str) (offset : Z) : Z :=
  RegressFacts.newline_count (take (Z.to_nat offset) (utf8_encode text)) + 1.

(** The lines of a symbol's span; of one that ends before it starts, the line it starts on. *)
Definition own_lines (text : str) (s : GraphSymbol) : list Z :=
  let first := line_number text (span_start s) in
  lines_between first (Z.max first (line_number text (span_end s))).

Lemma symbol_lines_own text s :
  0 ≤ span_start s → 0 ≤ span_end s → str_len text < u32_max →
  (let (a, b) := symbol_lines (line_index text) s in lines_between a b) = own_lines text s.
Proof.
  intros Ha Hb Hl. unfold symbol_lines, line_range, own_lines.
  assert (Hn : ∀ off, 0 ≤ off → line_at (line_index text) off = line_number text off).
  { intros off Hoff. rewrite RegressFacts.line_at_counts by (done || (unfold u32_max, usize_max, u64_max in *; lia)).
    unfold line_number. apply Z.min_l. pose proof (utf8_encode_length text).
    assert (RegressFacts.newline_count (take (Z.to_nat off) (utf8_encode text)) <= str_len text); [|lia].
    unfold RegressFacts.newline_count. rewrite <- utf8_encode_length. apply Nat2Z.inj_le.
    etrans; [apply List.filter_length_le|]. rewrite length_take. lia. }
  rewrite !Hn by done. destruct (Z.ltb_spec (line_number text (span_end s)) (line_number text (span_start s)));
    f_equal; lia.
Qed.

(** What a blame says of a line: the last it says. *)
Definition blame_of (ls : list BlameLine) (n : Z) : option BlameLine :=
  last (List.filter (λ l, line_no l =? n) ls).

Lemma by_line_lookup ls n : by_line ls !! n = blame_of ls n.
Proof.
  unfold by_line, blame_of. induction ls as [|l ls IH] using rev_ind; [done|].
  rewrite foldl_snoc, List.filter_app. cbn [List.filter]. destruct (Z.eqb_spec (line_no l) n) as [<-|Hne].
  - by rewrite lookup_insert_eq, last_snoc.
  - by rewrite lookup_insert_ne, app_nil_r.
Qed.

(** The line was last touched by the commit. *)
Definition touched_by (ls : list BlameLine) (c : str) (n : Z) : bool :=
  match blame_of ls n with
  | Some l => negb (uncommitted l) && bool_decide (bl_commit l = c)
  | None => false
  end.

Lemma count_touched ls c ns :
  BlameProps.count (BlameProps.last_touched (by_line ls) c) ns = BlameProps.count (touched_by ls c) ns.
Proof.
  unfold BlameProps.count. do 2 f_equal. apply List.filter_ext. intros n.
  unfold BlameProps.last_touched, touched_by. by rewrite by_line_lookup.
Qed.

(** The row of a symbol has, for each commit that last touched a line of it, how many. *)
Lemma row_has_touch text ls s c :
  0 ≤ span_start s → 0 ≤ span_end s → str_len text < u32_max →
  0 < BlameProps.count (touched_by ls c) (own_lines text s) →
  ∃ ct, ct ∈ sb_commits (attribute_symbol (line_index text) (by_line ls) s) ∧ ct_commit ct = c
        ∧ ct_lines ct = BlameProps.count (touched_by ls c) (own_lines text s).
Proof.
  intros Ha Hb Hl. pose proof (symbol_lines_own text s Ha Hb Hl) as Ho.
  destruct (BlameProps.attribute_symbol_counts (line_index text) (by_line ls) s) as (_ & Es & _ & _ & _ & Hct & Hall).
  rewrite Es in Ho. rewrite Ho in *. rewrite <- count_touched.
  intros (ct & -> & Hin)%Hall%elem_of_map. exists ct. split_and!; [done|done|]. by apply Hct.
Qed.

End SuspectFacts.

(** * What a suspect report promises *)

Import Order Regress GitReads Blobs Blame Suspects SuspectFacts.

#[local] Open Scope Z_scope.

Module SuspectProps.

(** ** Ranking *)

(** The touches of a commit, as a set of evidence. *)
Definition judged (i : RankInputs) (s : Suspect) : Prop :=
  su_commit s = ri_commit i ∧ touched s ≡ₚ ri_touched i
  ∧ ((∃ t, t ∈ ri_touched i ∧ class_of t = evidence s)
     ∧ ∀ t, t ∈ ri_touched i → class_rank (class_of t) ≤ class_rank (evidence s))
  ∧ ((∃ t, t ∈ ri_touched i ∧ distance t = nearest_distance s)
     ∧ ∀ t, t ∈ ri_touched i → nearest_distance s ≤ distance t)
  ∧ score s = Z.min u64_max (foldr Z.add 0 (map touch_weight (ri_touched i))).

Lemma sum_perm l k : l ≡ₚ k → foldr Z.add 0 l = foldr Z.add 0 k.
Proof. induction 1; cbn; lia. Qed.

Lemma suspect_of_judged i :
  ri_touched i ≠ [] → Forall (λ t, 0 ≤ distance t ∧ 0 ≤ ts_lines t) (ri_touched i) → judged i (suspect_of i).
Proof.
  intros Hne Hok. pose proof (sort_by_perm touch_leb (ri_touched i)) as Hp.
  assert (Hs : sort_by touch_leb (ri_touched i) ≠ []).
  { intros E. rewrite E in Hp. by apply Permutation_nil_l in Hp. }
  destruct (proj1 (max_class_spec _ _ Hs) eq_refl) as [(t1 & Ht1 & Hc1) Hall1].
  destruct (proj1 (min_distance_spec _ _ Hs) eq_refl) as [(t2 & Ht2 & Hc2) Hall2].
  rewrite elem_of_sort_by in Ht1. rewrite elem_of_sort_by in Ht2. setoid_rewrite elem_of_sort_by in Hall1.
  setoid_rewrite elem_of_sort_by in Hall2. unfold suspect_of, judged. cbn.
  split_and!; [done|done|by exists t1|done|by exists t2|done|].
  rewrite sat_sum; [|by unfold u64_max|].
  - rewrite Z.add_0_l. f_equal. apply sum_perm. by rewrite Hp.
  - apply Forall_map, Forall_sort_by. eapply Forall_impl; [exact Hok|].
    intros t [? ?]. by apply touch_weight_nonneg.
Qed.

Lemma elem_of_rank s inputs :
  s ∈ rank inputs ↔ ∃ i, i ∈ inputs ∧ ri_touched i ≠ [] ∧ s = suspect_of i.
Proof.
  unfold rank. rewrite elem_of_sort_by, elem_of_map. setoid_rewrite elem_of_filter_bool.
  setoid_rewrite negb_true_iff. setoid_rewrite bool_decide_eq_false. setoid_rewrite length_zero_iff_nil.
  naive_solver.
Qed.

Lemma filter_nodup_commits (p : RankInputs → bool) inputs :
  NoDup (map ri_commit inputs) → NoDup (map ri_commit (List.filter p inputs)).
Proof.
  intros Hn. induction inputs as [|i inputs IH]; [done|]. cbn in Hn. apply NoDup_cons in Hn as [Hi Hn].
  cbn [List.filter]. destruct (p i); [|by apply IH]. cbn [map]. constructor; [|by apply IH].
  intros (j & E & [Hj _]%elem_of_filter_bool)%elem_of_map. apply Hi, elem_of_map. by exists j.
Qed.

Lemma nodup_by_commit (l : list Suspect) a b :
  NoDup (map su_commit l) → a ∈ l → b ∈ l → su_commit a = su_commit b → a = b.
Proof.
  induction l as [|x l IH]; [by intros _ ?%elem_of_nil|]. cbn [map]. intros [Hx Hn]%NoDup_cons.
  rewrite !elem_of_cons. intros [->|Ha] [->|Hb] E; [done| | |by apply IH].
  - destruct Hx. rewrite E. apply elem_of_map. by exists b.
  - destruct Hx. rewrite <- E. apply elem_of_map. by exists a.
Qed.

Lemma rank_commits inputs :
  map su_commit (rank inputs) ≡ₚ map ri_commit (List.filter (λ i, negb (bool_decide (length (ri_touched i) = O))) inputs).
Proof. unfold rank. by rewrite sort_by_perm, map_map. Qed.

Lemma rank_perm inputs inputs' :
  NoDup (map ri_commit inputs) → inputs ≡ₚ inputs' → rank inputs' = rank inputs.
Proof.
  intros Hn Hp. symmetry. unfold rank. eapply sort_by_unique; [apply suspect_order| |by rewrite Hp].
  intros a b Ha Hb (_ & _ & _ & _ & Hc). eapply nodup_by_commit; [|exact Ha|exact Hb|done].
  rewrite map_map. by apply filter_nodup_commits.
Qed.

(** Commits are ranked by what their touches show. A commit is listed once, and only with
    a touch; one whose evidence is stronger comes first, however large the other; and the
    listing does not depend on the order the commits were gathered in. *)
Theorem ranking_is_by_evidence inputs :
  NoDup (map ri_commit inputs) →
  Forall (λ i, Forall (λ t, 0 ≤ distance t ∧ 0 ≤ ts_lines t) (ri_touched i)) inputs →
  NoDup (map su_commit (rank inputs))
  ∧ (∀ s, s ∈ rank inputs → ∃ i, i ∈ inputs ∧ ri_touched i ≠ [] ∧ judged i s)
  ∧ (∀ i, i ∈ inputs → ri_touched i ≠ [] → ∃ s, s ∈ rank inputs ∧ judged i s)
  ∧ StronglySorted (λ a b, class_rank (evidence b) ≤ class_rank (evidence a)) (rank inputs)
  ∧ ∀ inputs', inputs ≡ₚ inputs' → rank inputs' = rank inputs.
Proof.
  intros Hn Hok. rewrite Forall_forall in Hok. split_and!.
  - rewrite rank_commits. by apply filter_nodup_commits.
  - intros s (i & Hi & Hne & ->)%elem_of_rank. exists i. split_and!; [done..|]. by apply suspect_of_judged; [|apply Hok].
  - intros i Hi Hne. exists (suspect_of i). split; [apply elem_of_rank; by exists i|].
    by apply suspect_of_judged; [|apply Hok].
  - pose proof (sort_by_strongly suspect_leb _ (map suspect_of
      (List.filter (λ i, negb (bool_decide (length (ri_touched i) = O))) inputs))) as Hs.
    unfold rank. induction Hs as [|s l _ IH Hle]; constructor; [done|].
    eapply Forall_impl; [exact Hle|]. intros b. apply suspect_leb_evidence.
  - intros inputs'. by apply rank_perm.
Qed.

Section Report.
Context `{DebugTable} `{M : Machine} `{CodeGraph}.

(** A file was examined: its content was read and blamed at one commit, the graph's spans
    are about that content, and the rows are its symbols with their lines tallied. *)
Definition examined (program repo until_oid : str) (m : Cone) (file : str) (rows : list SymbolBlame) : Prop :=
  ∃ r w w1 r1 resolved blame w2 w3,
    BlobProps.honest r ∧ read until_oid file r w = (w1, r1, Ok resolved)
    ∧ blame_file_with_program program repo until_oid file w2 = (w3, Ok blame)
    ∧ attribute (wanted_in m (symbols_in file).1) (symbols_in file).2
        (with_basis (GitReads.identity resolved) blame) (content resolved) = Attributed rows.

(** What the walk has behind it: the files it examined, and what it lost. *)
Definition walked (program repo until_oid : str) (in_window : str → bool) (m : Cone) (files : list str)
    (st st' : Walk) : Prop :=
  BlobProps.honest (wk_reader st) → BlobProps.honest (wk_reader st') ∧ ∃ seen more,
    wk_commits st' = foldl (note_row in_window m) (wk_commits st) (concat (map snd seen))
    ∧ wk_unavailable st' = wk_unavailable st ++ more
    ∧ Forall (λ e, e.1 ∈ files ∧ examined program repo until_oid m e.1 e.2) seen
    ∧ (more = [] → ∀ file, file ∈ files → wanted_in m (symbols_in file).1 ≠ [] → file ∈ map fst seen).

Lemma walked_lost program repo until_oid in_window m files st r u :
  (BlobProps.honest (wk_reader st) → BlobProps.honest r) →
  walked program repo until_oid in_window m files st (lose u (set_reader r st)).
Proof. intros Hr Hst. split; [by apply Hr|]. exists [], [u]. by split_and!. Qed.

Lemma walked_one program repo until_oid in_window m file st w w' st' :
  examine_file program repo until_oid in_window m file st w = (w', st') →
  walked program repo until_oid in_window m [file] st st'.
Proof.
  unfold examine_file. destruct (symbols_in file) as [symbols basis] eqn:Es. case_bool_decide as Hn.
  { intros [= <- <-] Hst. split; [done|]. exists [], []. split_and!; [done|by rewrite app_nil_r|done|].
    intros _ f ->%list_elem_of_singleton Hw. rewrite Es in Hw. by apply length_zero_iff_nil in Hn. }
  assert (Hlost : ∀ u, walked program repo until_oid in_window m [file] st (lose u st)).
  { intros u Hst. split; [done|]. exists [], [u]. by split_and!. }
  destruct basis eqn:Eb.
  4:{ by intros [= <- <-]. }
  all: destruct (read until_oid file (wk_reader st) w) as [[w1 r1] resolved] eqn:Er.
  all: assert (Hr : BlobProps.honest (wk_reader st) → BlobProps.honest r1) by
    (intros Hst; by eapply BlobProps.read_honest).
  all: destruct resolved as [resolved|refusal]; [|intros [= <- <-]; by apply walked_lost].
  all: destruct (blame_file_with_program program repo until_oid file w1) as [w2 [blame|refusal]] eqn:Ebl;
    [|intros [= <- <-]; by apply walked_lost].
  all: destruct (attribute _ _ _ _) as [rows|p t b] eqn:Ea; intros [= <- <-]; [|by apply walked_lost].
  all: intros Hst; split; [by apply Hr|].
  all: exists [(file, rows)], []; cbn; rewrite !app_nil_r; (split_and!; [done|done| |by intros _ f ->%list_elem_of_singleton _; left]).
  all: apply Forall_singleton; (split; [by left|]); do 8 eexists; (split; [exact Hst|]); (split; [exact Er|]);
    (split; [exact Ebl|]); cbn [fst snd]; by rewrite Es.
Qed.

Lemma walked_trans program repo until_oid in_window m fs gs a b c :
  walked program repo until_oid in_window m fs a b → walked program repo until_oid in_window m gs b c →
  walked program repo until_oid in_window m (fs ++ gs) a c.
Proof.
  intros Hab Hbc (Hb & s1 & m1 & C1 & U1 & F1 & A1)%Hab. destruct (Hbc Hb) as (Hc & s2 & m2 & C2 & U2 & F2 & A2).
  split; [done|]. exists (s1 ++ s2), (m1 ++ m2). split_and!.
  - by rewrite C2, C1, map_app, concat_app, foldl_app.
  - by rewrite U2, U1, app_assoc.
  - apply Forall_app. split; (eapply Forall_impl; [eassumption|]); cbn; intros e [? ?];
      (split; [apply elem_of_app; auto|done]).
  - intros [-> ->]%app_nil f [Hf|Hf]%elem_of_app Hw; rewrite map_app, elem_of_app; auto.
Qed.

Lemma examine_files_walked program repo until_oid in_window m budget total files : ∀ n st w w' st',
  examine_files program repo until_oid in_window m budget total n files st w = (w', st') →
  walked program repo until_oid in_window m files st st'.
Proof.
  induction files as [|f files IH]; intros n st w w' st'; cbn [examine_files].
  { intros [= <- <-] Hst. split; [done|]. exists [], [].
    split_and!; [done|by rewrite app_nil_r|done|]. by intros _ f ?%elem_of_nil. }
  destruct (budget_check budget w) as [w1 [[]|stop]].
  2:{ intros [= <- <-] Hst. split; [done|]. exists [], [BudgetExhausted (describe_exhausted stop) n total].
      by split_and!. }
  destruct (examine_file _ _ _ _ _ f st w1) as [w2 st2] eqn:Ef. intros Hrest.
  change (f :: files) with ([f] ++ files). eapply walked_trans; [by eapply walked_one|by eapply IH].
Qed.

(** ** The report *)

(** A touch of a suspect: a file was examined, a symbol of the cone in it has lines whose
    last commit is the suspect, and the suspect is a commit of the window. *)
Definition evidenced (program repo since until symptom : str) (depth : Z) (w : World) (s : Suspect) (t : TouchedSymbol)
    : Prop :=
  ∃ oid file rows row ct f window w1,
    file ∈ cone_files_nearest_first (cone_of (resolve_symptom symptom) depth).1
    ∧ examined program repo oid (cone_of (resolve_symptom symptom) depth).1 file rows ∧ row ∈ rows
    ∧ ct ∈ sb_commits row ∧ ct_commit ct = su_commit s ∧ ts_name t = sb_name row ∧ ts_lines t = ct_lines ct
    ∧ (cone_of (resolve_symptom symptom) depth).1 !! sb_name row = Some (f, distance t)
    ∧ commit_window program repo since until w = (w1, Ok window) ∧ su_commit s ∈ commits window.

(** The reader an analysis begins with remembers only what git said. *)
Definition honest_shared (shared : option BlobReader) : Prop := ∀ r, shared = Some r → BlobProps.honest r.

Lemma reader_for_honest shared program repo :
  honest_shared shared → BlobProps.honest (reader_for shared program repo).
Proof.
  intros Hs. unfold reader_for. destruct shared as [r|]; [|apply BlobProps.honest_new].
  destruct (reads r program repo); [by apply Hs|apply BlobProps.honest_new].
Qed.

(** The report of an analysis that got as far as its walk. *)
Lemma suspects_walk program repo shared symptom since until depth budget w w' rep :
  honest_shared shared →
  suspects_bounded program repo shared symptom since until depth budget w = (w', rep) →
  (suspects rep = [] ∧ complete rep = false)
  ∨ ∃ m incomplete window w1 w2 r oid st st' more files n,
      cone_of (resolve_symptom symptom) depth = (m, incomplete)
      ∧ commit_window program repo since until w = (w1, Ok window)
      ∧ commit until (reader_for shared program repo) w1 = (w2, r, Ok oid) ∧ is_full_oid oid = true
      ∧ files = cone_files_nearest_first m ∧ wk_commits st = ∅
      ∧ walked program repo oid (λ c, bool_decide (c ∈ commits window)) m (take MAX_BLAMED_FILES files) st st'
      ∧ BlobProps.honest (wk_reader st)
      ∧ suspects rep = rank (map input_of (map_to_list (wk_commits st')))
      ∧ unavailable rep = wk_unavailable st' ++ more
      ∧ wk_unavailable st = (if incomplete then [ConeIncomplete depth n] else [])
                            ++ (if capped window then [WindowCapped (length (commits window)) COMMIT_CAP] else [])
      ∧ (more = [] → (length files ≤ MAX_BLAMED_FILES)%nat)
      ∧ complete rep = bool_decide (length (unavailable rep) = O).
Proof.
  intros Hsh. unfold suspects_bounded. case_bool_decide; [intros [= <- <-]; by left|].
  destruct (cone_of _ depth) as [m incomplete] eqn:Ec. case_bool_decide; [intros [= <- <-]; by left|].
  destruct (commit_window program repo since until w) as [w1 [window|refusal]] eqn:Ew; [|intros [= <- <-]; by left].
  unfold blame_cone.
  destruct (commit until _ w1) as [[w2 r] [oid|refusal]] eqn:Eo; [|intros [= <- <-]; by left].
  destruct (BlobProps.commit_honest _ _ _ _ _ _ (reader_for_honest shared program repo Hsh) Eo) as [Hr Hoid].
  destruct (examine_files _ _ _ _ _ _ _ _ _ _ _) as [w3 st'] eqn:Ex. intros [= <- <-]. right.
  apply examine_files_walked in Ex. eexists m, incomplete, window, w1, w2, r, oid, _, st', _, _, _.
  do 3 (split; [done|]). split; [by apply Hoid|]. split; [done|]. split; [|split; [exact Ex|]]; [done|].
  cbn. split_and!; [done..| |done]. case_if; [done|]. intros _. by apply Nat.ltb_ge.
Qed.

Lemma input_of_map (fp : Footprints) i :
  i ∈ map input_of (map_to_list fp) →
  ri_touched i = touches_in fp (ri_commit i) ∧ is_Some (fp !! ri_commit i).
Proof.
  intros ([c [[a t] ts]] & -> & Hi%elem_of_map_to_list)%elem_of_map. cbn. unfold touches_in. rewrite Hi.
  split; [done|by eexists].
Qed.

Lemma seen_row row (seen : list (str * list SymbolBlame)) :
  row ∈ concat (map snd seen) ↔ ∃ e, row ∈ e.2 ∧ e ∈ seen.
Proof.
  rewrite list_elem_of_In, in_concat. setoid_rewrite <- list_elem_of_In. setoid_rewrite elem_of_map. naive_solver.
Qed.

(** Every touch of every suspect is evidenced. *)
Theorem every_suspect_is_evidenced program repo shared symptom since until depth budget w w' rep :
  honest_shared shared →
  suspects_bounded program repo shared symptom since until depth budget w = (w', rep) →
  NoDup (map su_commit (suspects rep))
  ∧ ∀ s, s ∈ suspects rep → touched s ≠ []
      ∧ ∀ t, t ∈ touched s → evidenced program repo since until symptom depth w s t.
Proof.
  intros Hsh [[-> _]|(m & inc & window & w1 & w2 & r & oid & st & st' & more & files & n & Ec & Hw & _ & _ & -> & Est & Hwk & Hst & -> & _)]%suspects_walk; [| |done].
  { split; [constructor|]. by intros s ?%elem_of_nil. }
  split.
  { rewrite rank_commits. apply filter_nodup_commits. rewrite map_map.
    replace (map _ _) with (map fst (map_to_list (wk_commits st'))); [apply NoDup_fst_map_to_list|].
    apply map_ext. by intros [c [[a t] ts]]. }
  intros s (i & Hi & Hne & ->)%elem_of_rank. cbn [suspect_of touched su_commit].
  destruct (input_of_map _ _ Hi) as [Ht _]. split.
  { intros E. apply Hne. pose proof (sort_by_perm touch_leb (ri_touched i)) as Hp. rewrite E in Hp.
    by apply Permutation_nil_l in Hp. }
  intros t. rewrite elem_of_sort_by, Ht. destruct (Hwk Hst) as (_ & seen & lost & -> & _ & Hseen & _).
  rewrite note_rows_spec, Est. unfold touches_in at 1. rewrite lookup_empty. cbn [app].
  rewrite list_elem_of_In, in_flat_map.
  intros (row & (e & Hrow & He)%list_elem_of_In%seen_row & Htr%list_elem_of_In%elem_of_row_touches).
  destruct Htr as (Hwin & Hn & _ & [f Hf] & (ct & Hct & Hc & Hl) & _). apply bool_decide_eq_true in Hwin.
  rewrite Forall_forall in Hseen. destruct (Hseen e He) as [Hfile Hex].
  unfold evidenced. rewrite Ec. exists oid, e.1, e.2, row, ct, f, window, w1.
  assert (e.1 ∈ cone_files_nearest_first m).
  { rewrite <- (take_drop MAX_BLAMED_FILES (cone_files_nearest_first m)). apply elem_of_app. by left. }
  cbn [fst su_commit suspect_of]. rewrite Hc. by split_and!.
Qed.

(** What git said of a file at an object id: its text, which is the content the graph's
    spans are about, and the blame of its lines. *)
Definition git_said (program repo oid file text : str) (ls : list BlameLine) : Prop :=
  (∃ w w' id size body,
     lane_ask true (oid ++ lit ":" ++ file) w = (w', Said (Object id (lit "blob") size (Some body)))
     ∧ from_utf8 body = Some text ∧ comparable_with (symbols_in file).2 (Blob id) = true)
  ∧ ∃ command w1 w2 w3 captured,
      git_with_program program repo (blame_args oid file) w1 = (w2, Ok command)
      ∧ run_bounded command blame_bounds w2 = (w3, Ok captured)
      ∧ stdout_truncated captured = false ∧ status_success captured = true
      ∧ parse_porcelain (stdout_lossy captured) = Ok ls.

Lemma examined_said program repo oid m file rows :
  is_full_oid oid = true → examined program repo oid m file rows →
  ∃ text ls, git_said program repo (ascii_lowercase oid) file text ls
    ∧ rows = map (attribute_symbol (line_index text) (by_line ls)) (wanted_in m (symbols_in file).1).
Proof.
  intros Hf (r & w & w1 & r1 & resolved & blame & w2 & w3 & Hr & Hread & Hblame & Ha).
  destruct (BlobProps.read_said _ _ _ _ _ _ _ Hr Hf Hread) as (v1 & v2 & id & size & body & Hs & Ht & Hid).
  apply BlobProps.blame_said in Hblame; [|done]. unfold attribute in Ha. cbn [bf_basis with_basis bf_lines] in Ha.
  destruct (comparable_with _ _) eqn:Ecmp; [|done]. injection Ha as <-. rewrite Hid in Ecmp.
  exists (content resolved), (bf_lines blame). split; [|done]. split; [|done]. by exists v1, v2, id, size, body.
Qed.

(** A commit of the window in a row of a file that was examined is a suspect for it. *)
Lemma noted_is_suspect (in_window : str → bool) (m : Cone) (seen : list (str * list SymbolBlame)) (fp fp0 : Footprints) row ct f d :
  fp = foldl (note_row in_window m) fp0 (concat (map snd seen)) →
  row ∈ concat (map snd seen) → ct ∈ sb_commits row → m !! sb_name row = Some (f, d) → in_window (ct_commit ct) = true →
  ∃ s t, s ∈ rank (map input_of (map_to_list fp)) ∧ su_commit s = ct_commit ct ∧ t ∈ touched s
         ∧ ts_name t = sb_name row ∧ distance t = d ∧ ts_lines t = ct_lines ct.
Proof.
  intros Hfp Hrow Hct Hd Hin.
  set (t := {| ts_name := sb_name row; ts_file := sb_file row; distance := d; ts_lines := ct_lines ct;
               ts_body_changed := body_changed (sb_name row) (ct_commit ct) |}).
  assert (Ht : t ∈ touches_in fp (ct_commit ct)).
  { rewrite Hfp, note_rows_spec. apply elem_of_app. right. rewrite list_elem_of_In, in_flat_map.
    exists row. rewrite <- !list_elem_of_In. split; [done|]. apply elem_of_row_touches. cbn.
    split_and!; [done..|by exists f|by exists ct|done]. }
  unfold touches_in in Ht. destruct (fp !! ct_commit ct) as [[[a time] ts]|] eqn:E; [|by apply elem_of_nil in Ht].
  set (i := {| ri_commit := ct_commit ct; ri_author := a; ri_time := time; ri_touched := ts |}).
  exists (suspect_of i), t. split_and!; [|done|by apply elem_of_sort_by|done..].
  apply elem_of_rank. exists i.
  split_and!; [|intros Hnil; change (ts = []) in Hnil; rewrite Hnil in Ht; by apply elem_of_nil in Ht|done].
  apply elem_of_map. exists (ct_commit ct, (a, time, ts)). by rewrite elem_of_map_to_list.
Qed.

(** C35. A complete suspect report leaves out no commit that last touched a line of the cone.
    The cone has every symbol the graph gave for every target; the window is the whole one
    git gave; and [until] was resolved, after it, to one object id. For every file of the cone
    in which the graph lists a symbol of the cone, git gave the file's text and its blame at
    that id. Each commit of the window to which that blame gives some lines of such a symbol's
    span is a suspect, with that symbol at its distance and exactly that many lines among its
    touches. *)
Theorem complete_suspects_miss_nothing program repo shared symptom since until depth budget w w' rep :
  honest_shared shared →
  suspects_bounded program repo shared symptom since until depth budget w = (w', rep) →
  complete rep = true →
  ∃ m window w1 w2 r oid,
    cone_of (resolve_symptom symptom) depth = (m, false)
    ∧ (∀ target, target ∈ resolve_symptom symptom → (cone target depth).2 = false
         ∧ ∀ e, e ∈ (cone target depth).1 → within m (ce_name e) (ce_distance e))
    ∧ commit_window program repo since until w = (w1, Ok window) ∧ capped window = false
    ∧ commit until (reader_for shared program repo) w1 = (w2, r, Ok oid)
    ∧ ∀ file, (∃ name d, m !! name = Some (file, d)) →
      (∃ s, s ∈ (symbols_in file).1 ∧ is_Some (m !! qualified_name s)) →
      ∃ text ls, git_said program repo (ascii_lowercase oid) file text ls
        ∧ ∀ s f d c,
            s ∈ (symbols_in file).1 → m !! qualified_name s = Some (f, d) →
            0 ≤ span_start s → 0 ≤ span_end s → str_len text < u32_max →
            c ∈ commits window → 0 < BlameProps.count (touched_by ls c) (own_lines text s) →
            ∃ su t, su ∈ suspects rep ∧ su_commit su = c ∧ t ∈ touched su
              ∧ ts_name t = qualified_name s ∧ distance t = d
              ∧ ts_lines t = BlameProps.count (touched_by ls c) (own_lines text s).
Proof.
  intros Hsh [[_ ->]|(m & inc & window & w1 & w2 & r & oid & st & st' & more & files & n & Ec & Hw & Ho & Hfull & -> & Est & Hwk & Hst & Hs & Hu & Hb & Hm & ->)]%suspects_walk; [done| |done].
  intros Hz%bool_decide_eq_true%length_zero_iff_nil. rewrite Hu in Hz. apply app_nil in Hz as [Hz ->].
  destruct (Hwk Hst) as (_ & seen & lost & Hc & Hl & Hseen & Hall). rewrite Hl, Hb in Hz.
  apply app_nil in Hz as [[Hinc Hcap]%app_nil ->]. destruct inc; [done|]. destruct (capped window) eqn:Ecap; [done|].
  specialize (Hm eq_refl). rewrite take_ge in Hall by done.
  exists m, window, w1, w2, r, oid. split_and!; [done|by apply cone_of_within|done..|].
  intros file Hf%elem_of_cone_files (s0 & Hs0 & Hm0).
  assert (Hwant : ∀ s, s ∈ (symbols_in file).1 → is_Some (m !! qualified_name s) → s ∈ wanted_in m (symbols_in file).1).
  { intros s Hin Hsome. apply elem_of_filter_bool. by rewrite bool_decide_eq_true. }
  destruct (proj1 (elem_of_map fst seen file) (Hall eq_refl file Hf ltac:(intros E; specialize (Hwant s0 Hs0 Hm0);
    rewrite E in Hwant; by apply elem_of_nil in Hwant))) as (e & -> & He).
  rewrite Forall_forall in Hseen. destruct (Hseen e He) as [_ Hex].
  destruct (examined_said _ _ _ _ _ _ Hfull Hex) as (text & ls & Hgit & Hrows). exists text, ls. split; [done|].
  intros s f d c Hin Hd Ha He' Hlen Hc' Hpos.
  destruct (row_has_touch text ls s c Ha He' Hlen Hpos) as (ct & Hct & <- & <-). rewrite Hs.
  destruct (BlameProps.attribute_symbol_counts (line_index text) (by_line ls) s) as [Hname _]. rewrite <- Hname in *.
  refine (noted_is_suspect _ m seen _ _ _ ct f d Hc _ Hct Hd _); [|by apply bool_decide_eq_true].
  apply seen_row. exists e. split; [|done]. rewrite Hrows. apply elem_of_map. exists s. split; [done|].
  apply Hwant; [done|rewrite <- Hname; by eexists].
Qed.

End Report.

(** ** A repository of one file, with two commits *)

Module Sample.

#[export] Instance table : DebugTable := {| printable_beyond_ascii := λ _, true |}.

Definition oid (c : string) : str := replicate 40 (chr c).
Definition text : str := lit "fn f() {}" ++ [nl] ++ lit "fn g() {}" ++ [nl].

(** [f] was last touched by the commit [1..1], [g] by [2..2]. *)
Definition blame_block (c : string) (line : Z) (time : string) : str :=
  oid c ++ lit " 1 " ++ fmt_u line ++ lit " 1" ++ [nl] ++ lit "author A" ++ [nl]
  ++ lit "author-mail <a@b>" ++ [nl] ++ lit "author-time " ++ lit time ++ [nl]
  ++ lit "filename a.rs" ++ [nl] ++ [9] ++ lit "fn" ++ [nl].

Definition says (s : str) : Captured :=
  {| stdout := utf8_encode s; stdout_truncated := false; status_success := true;
     status_text := lit "exit status: 0"; stderr := [] |}.

Definition answer (args : list str) : Captured :=
  if bool_decide (head args = Some (lit "log")) then says (oid "2" ++ [nl] ++ oid "1" ++ [nl])
  else says (blame_block "1" 1 "100" ++ blame_block "2" 2 "200").

#[export] Instance machine : Machine := {|
  World := unit;
  Command := list str;
  git_with_program _ _ args w := (w, Ok args);
  run_bounded args _ w := (w, Ok (answer args));
  lane_start _ _ _ w := (w, Ok tt);
  lane_ask _ _ w := (w, Said (Object (oid "b") (lit "blob") (str_len text) (Some (utf8_encode text))));
  now w := (w, 0);
  cancelled w := (w, false);
|}.

Definition symbol (name : string) (start end_ : Z) : GraphSymbol :=
  {| qualified_name := lit name; file_path := lit "a.rs"; span_start := start; span_end := end_; body_exact := None |}.

(** [f] calls [g]. *)
#[export] Instance graph : CodeGraph := {|
  symbols_in _ := ([symbol "f" 0 9; symbol "g" 10 19], Blob (oid "b"));
  cone _ _ := ([{| ce_name := lit "f"; ce_file := lit "a.rs"; ce_distance := 0 |};
                {| ce_name := lit "g"; ce_file := lit "a.rs"; ce_distance := 1 |}], false);
  impacted _ _ := ([], false);
  affected_tests _ _ := ([], false);
  resolve_symptom s := [s];
  body_changed _ _ := None;
|}.

Definition budget : Budget := {| limit := from_secs 120; deadline := from_secs 120; hooked := false |}.

Definition run : World * SuspectReport :=
  suspects_bounded (lit "git") (lit ".") None (lit "f") (oid "c") (oid "a") 3 budget tt.

Definition touch (d n : Z) (b : option bool) : TouchedSymbol :=
  {| ts_name := lit "f"; ts_file := lit "a.rs"; distance := d; ts_lines := n; ts_body_changed := b |}.

(** A reformat of five hundred lines beside the symptom, and an edit of one line. *)
Definition footprints : list RankInputs :=
  [{| ri_commit := oid "1"; ri_author := lit "A"; ri_time := 2; ri_touched := [touch 0 500 (Some false)] |};
   {| ri_commit := oid "2"; ri_author := lit "B"; ri_time := 1; ri_touched := [touch 3 1 (Some true); touch 1 1 None] |}].

End Sample.

Import Sample.

Lemma every_suspect_is_evidenced_witness :
  (map su_commit (suspects run.2) = [oid "1"; oid "2"] ∧ unavailable run.2 = [])
  ∧ ∀ s, s ∈ suspects run.2 → touched s ≠ []
      ∧ ∀ t, t ∈ touched s → evidenced (lit "git") (lit ".") (oid "c") (oid "a") (lit "f") 3 (tt : @World machine) s t.
Proof.
  split; [by vm_compute|].
  apply (every_suspect_is_evidenced (lit "git") (lit ".") None (lit "f") (oid "c") (oid "a") 3 budget
           (tt : @World machine) run.1 run.2); [done|].
  unfold run. apply surjective_pairing.
Defined.

(** [f] is the first line of the file and [g] the second. *)
Lemma complete_suspects_miss_nothing_witness :
  (own_lines text (symbol "f" 0 9) = [1] ∧ own_lines text (symbol "g" 10 19) = [2]
   ∧ map (λ s, (su_commit s, map ts_name (touched s))) (suspects run.2) = [(oid "1", [lit "f"]); (oid "2", [lit "g"])])
  ∧ ∃ m window w1 w2 r o,
    cone_of (resolve_symptom (lit "f")) 3 = (m, false)
    ∧ (∀ target, target ∈ resolve_symptom (lit "f") → (cone target 3).2 = false
         ∧ ∀ e, e ∈ (cone target 3).1 → within m (ce_name e) (ce_distance e))
    ∧ commit_window (lit "git") (lit ".") (oid "c") (oid "a") (tt : @World machine) = (w1, Ok window) ∧ capped window = false
    ∧ commit (oid "a") (reader_for None (lit "git") (lit ".")) w1 = (w2, r, Ok o)
    ∧ ∀ file, (∃ name d, m !! name = Some (file, d)) →
      (∃ s, s ∈ (symbols_in file).1 ∧ is_Some (m !! qualified_name s)) →
      ∃ text ls, git_said (lit "git") (lit ".") (ascii_lowercase o) file text ls
        ∧ ∀ s f d c,
            s ∈ (symbols_in file).1 → m !! qualified_name s = Some (f, d) →
            0 ≤ span_start s → 0 ≤ span_end s → str_len text < u32_max →
            c ∈ commits window → 0 < BlameProps.count (touched_by ls c) (own_lines text s) →
            ∃ su t, su ∈ suspects run.2 ∧ su_commit su = c ∧ t ∈ touched su
              ∧ ts_name t = qualified_name s ∧ distance t = d
              ∧ ts_lines t = BlameProps.count (touched_by ls c) (own_lines text s).
Proof.
  split; [split_and!; by vm_compute|].
  apply (complete_suspects_miss_nothing (lit "git") (lit ".") None (lit "f") (oid "c") (oid "a") 3 budget
           (tt : @World machine) run.1 run.2); [done|unfold run; apply surjective_pairing|by vm_compute].
Defined.

Lemma ranking_is_by_evidence_witness :
  map su_commit (rank footprints) = [oid "2"; oid "1"] ∧ NoDup (map su_commit (rank footprints)).
Proof.
  split; [by vm_compute|]. apply (ranking_is_by_evidence footprints).
  - apply (bool_decide_eq_true_1 _). by vm_compute.
  - repeat constructor; vm_compute; discriminate.
Defined.

End SuspectProps.
