(* ===== verification/CodeEdges.v ===== *)
(** * The edges of the code graph

    [EdgeKind] and [Confidence] of [rust/devmap-extract/src/model.rs], [Resolution] and
    [ResolvedEdge] of [rust/devmap-resolve/src/model.rs]. A confidence is an [f32]; it is
    kept as the IEEE 754 value it is, and computed with as the hardware does. *)

From Stdlib Require Import SpecFloat.
From S2P Require Import Prelude RustStr.

#[local] Open Scope Z_scope.

Module CodeEdges.

(** ** Kinds *)

Inductive EdgeKind : Type :=
  | Imports | Calls | Contains | Defines | Instantiates | Extends | Implements | SubscribesTo
  | HandlesRoute | Registers | WiredTo | MemberOf | DependsOn | TaintFlow | References.

#[export] Instance EdgeKind_eq_dec : EqDecision EdgeKind.
Proof. solve_decision. Defined.

(** [format!("{kind:?}")]. *)
Definition kind_debug (k : EdgeKind) : str :=
  lit match k with
      | Imports => "Imports" | Calls => "Calls" | Contains => "Contains" | Defines => "Defines"
      | Instantiates => "Instantiates" | Extends => "Extends" | Implements => "Implements"
      | SubscribesTo => "SubscribesTo" | HandlesRoute => "HandlesRoute" | Registers => "Registers"
      | WiredTo => "WiredTo" | MemberOf => "MemberOf" | DependsOn => "DependsOn"
      | TaintFlow => "TaintFlow" | References => "References"
      end.

(** ** Confidence *)

(** [f32] and [f64] are the values of their formats. *)
Abbreviation f32 := spec_float (only parsing).
Abbreviation f64 := spec_float (only parsing).

Definition f64_of_Z (z : Z) : f64 := binary_normalize 53 1024 z 0 false.

(** [f64::from]: every [f32] is an [f64]. *)
Definition f64_of_f32 (v : f32) : f64 :=
  match v with
  | S754_finite s m e => binary_normalize 53 1024 (cond_Zopp s (Zpos m)) e s
  | _ => v
  end.

Definition is_finite (v : f32) : bool :=
  match v with S754_zero _ | S754_finite _ _ _ => true | _ => false end.

(** [f64::round], half away from zero, of a finite value. *)
Definition round_half_away (v : f64) : Z :=
  match v with
  | S754_finite s m e =>
      cond_Zopp s (if 0 <=? e then Zpos m * 2 ^ e
                   else (2 * Zpos m + 2 ^ (- e)) / (2 * 2 ^ (- e)))
  | _ => 0
  end.

Definition confidence_millis (value : f32) : Z :=
  if negb (is_finite value) then 0
  else Z.max 0 (Z.min 1000 (round_half_away (SFmul 53 1024 (f64_of_f32 value) (f64_of_Z 1000)))).

Definition f32_of_ratio (n d : Z) : f32 :=
  SFdiv 24 128 (binary_normalize 24 128 n 0 false) (binary_normalize 24 128 d 0 false).

Definition DETERMINISTIC : f32 := f32_of_ratio 1 1.
Definition HIGH : f32 := f32_of_ratio 9 10.
Definition MEDIUM : f32 := f32_of_ratio 7 10.
Definition LOW : f32 := f32_of_ratio 4 10.
Definition SPECULATIVE : f32 := f32_of_ratio 2 10.

(** ** Resolutions *)

Inductive LangFamily : Type :=
  | LangPython | LangJsTs | LangGo | LangRust | LangCStyle | LangSwift | LangKotlin | LangRuby
  | LangPhp | LangScala | LangLua | LangR | LangDart | LangErlang | LangNix | LangPascal
  | LangShell | LangSolidity | LangSql | LangGeneric.

Inductive Resolution : Type :=
  | SameFile (target_symbol target_file : str)
  | SamePackage (target_symbol target_file package_name : str)
  | ImportScoped (target_symbol target_file imported_from : str)
  | ReceiverType (target_symbol target_file receiver_type : str)
  | LanguageServer (target_symbol target_file server server_version : str)
  | UniqueGlobal (target_symbol target_file : str) (family : LangFamily)
  | AmbiguousGlobal (candidates : list (str * str)) (family : LangFamily)
  | LanguageServerDispatch (candidates : list (str * str)) (server server_version : str)
  | Dispatch (candidates : list (str * str)) (via_file via_symbol : str)
  | Unresolved (reason : str)
  | Structural (target_symbol target_file : str)
  | UniqueNamespaced (target_symbol target_file : str).

(** [Resolution::is_unproven_candidate_set]. *)
Definition is_unproven_candidate_set (r : Resolution) : bool :=
  match r with
  | AmbiguousGlobal _ _ | LanguageServerDispatch _ _ _ => true
  | Dispatch candidates _ _ => (1 <? length candidates)%nat
  | _ => false
  end.

Definition is_unresolved (r : Resolution) : bool :=
  match r with Unresolved _ => true | _ => false end.

(** ** Edges *)

(** The tier of a resolution, without what it names, and where it was read from. *)
Inductive ResolutionKind : Type :=
  | KindSameFile | KindSamePackage | KindImportScoped | KindReceiverType | KindLanguageServer
  | KindUniqueGlobal | KindAmbiguousGlobal | KindLanguageServerDispatch | KindDispatch
  | KindUnresolved | KindStructural.

(** [Resolution::kind]. *)
Definition kind_of (r : Resolution) : ResolutionKind :=
  match r with
  | SameFile _ _ => KindSameFile
  | SamePackage _ _ _ => KindSamePackage
  | ImportScoped _ _ _ => KindImportScoped
  | ReceiverType _ _ _ => KindReceiverType
  | LanguageServer _ _ _ _ => KindLanguageServer
  | UniqueGlobal _ _ _ => KindUniqueGlobal
  | AmbiguousGlobal _ _ => KindAmbiguousGlobal
  | LanguageServerDispatch _ _ _ => KindLanguageServerDispatch
  | Dispatch _ _ _ => KindDispatch
  | Unresolved _ => KindUnresolved
  | Structural _ _ => KindStructural
  | UniqueNamespaced _ _ => KindUniqueGlobal
  end.

Inductive ResolutionSource : Type := Resolver | Stored | Reconstructed.

Record Evidence := { ev_kind : ResolutionKind; ev_source : ResolutionSource }.

Record ResolvedEdge := {
  source_file : str;
  target_file : str;
  source_symbol : str;
  target_symbol : str;
  edge_kind : EdgeKind;
  confidence : f32;
  resolution : option Resolution;
  evidence : option Evidence;
  details : option str;
}.

Example tiers : map confidence_millis [DETERMINISTIC; HIGH; MEDIUM; LOW; SPECULATIVE; S754_nan]
  = [1000; 900; 700; 400; 200; 0].
Proof. by vm_compute. Qed.

End CodeEdges.
