(* ===== verification/Bfs.v ===== *)
(** * Breadth-first search

    The reference the walks of the code graph are held against: a queue, and the depth at
    which each node was discovered. [search_finds] says what it finds: every node within
    the depth limit, each at its least distance from a start. *)

From stdpp Require Import relations.
From S2P Require Import Prelude.

#[local] Open Scope Z_scope.

Module Bfs.

Section Bfs.
Context `{Countable A} (succ : A → list A) (max_depth : Z).

Record Search := { queue : list (A * Z); depths : gmap A Z }.

Definition discover (d : Z) (st : Search) (v : A) : Search :=
  match depths st !! v with
  | Some _ => st
  | None => {| queue := queue st ++ [(v, d)]; depths := <[v := d]> (depths st) |}
  end.

Definition expand (u : A) (d : Z) (st : Search) : Search :=
  if max_depth <=? d then st else foldl (discover (d + 1)) st (succ u).

Fixpoint search (fuel : nat) (st : Search) : Search :=
  match fuel with
  | O => st
  | S f =>
      match queue st with
      | [] => st
      | (u, d) :: q => search f (expand u d {| queue := q; depths := depths st |})
      end
  end.

Definition start_search (starts : list A) : Search :=
  foldl (discover 0) {| queue := []; depths := ∅ |} starts.

(** ** Distance *)

Definition step (u v : A) : Prop := v ∈ succ u.

Definition reached_in (starts : list A) (n : nat) (v : A) : Prop :=
  ∃ s, s ∈ starts ∧ nsteps step n s v.

Definition near (starts : list A) (v : A) : Prop :=
  ∃ n, reached_in starts n v ∧ Z.of_nat n ≤ max_depth.

Definition distance (starts : list A) (v : A) (d : Z) : Prop :=
  (∃ n, reached_in starts n v ∧ d = Z.of_nat n) ∧ ∀ n, reached_in starts n v → d ≤ Z.of_nat n.

Lemma distance_unique starts v d d' : distance starts v d → distance starts v d' → d = d'.
Proof.
  intros [(n & Hn & ->) Hl] [(m & Hm & ->) Hl']. specialize (Hl _ Hm). specialize (Hl' _ Hn). lia.
Qed.

Lemma reached_snoc starts n u v : reached_in starts n u → step u v → reached_in starts (S n) v.
Proof. intros (s & Hs & Hp) Huv. exists s. split; [done|]. by eapply nsteps_r. Qed.

(** ** The invariant *)

Variable starts : list A.

(** Depths in the queue rise by at most one, nothing discovered is deeper than the next
    depth, and what left the queue had its successors discovered. *)
Record searching (st : Search) : Prop := {
  sr_queued : ∀ u d, (u, d) ∈ queue st → depths st !! u = Some d;
  sr_nodup : NoDup (map fst (queue st));
  sr_sorted : StronglySorted (λ a b : A * Z, a.2 ≤ b.2) (queue st);
  sr_bound : ∀ u d v e, (u, d) ∈ queue st → depths st !! v = Some e → e ≤ d + 1;
  sr_sound : ∀ v d, depths st !! v = Some d →
    ∃ n, reached_in starts n v ∧ d = Z.of_nat n ∧ (n = O ∨ d ≤ max_depth);
  sr_starts : ∀ s, s ∈ starts → depths st !! s = Some 0;
  sr_done : ∀ u d, depths st !! u = Some d → (u, d) ∉ queue st → d < max_depth →
    ∀ v, v ∈ succ u → ∃ e, depths st !! v = Some e ∧ e ≤ d + 1;
}.

(** What [discover] does to a state in the middle of an expansion. *)
Lemma discover_mono d st v u e : depths st !! u = Some e → depths (discover d st v) !! u = Some e.
Proof.
  intros Hu. unfold discover. destruct (depths st !! v) eqn:E; [done|]. cbn.
  rewrite lookup_insert_ne; [done|]. intros ->. by rewrite Hu in E.
Qed.

Lemma discover_all d st v : ∃ e, depths (discover d st v) !! v = Some e ∧ (depths st !! v = Some e ∨ e = d).
Proof.
  unfold discover. destruct (depths st !! v) as [e|] eqn:E; [exists e; auto|].
  exists d. cbn. rewrite lookup_insert_eq. auto.
Qed.

(** An expansion in progress: [u] at depth [d] left the queue, and its successors are
    being discovered at [d + 1]. *)
Record expanding (u : A) (d : Z) (st : Search) : Prop := {
  ex_queued : ∀ w e, (w, e) ∈ queue st → depths st !! w = Some e ∧ d ≤ e ≤ d + 1;
  ex_nodup : NoDup (map fst (queue st));
  ex_sorted : StronglySorted (λ a b : A * Z, a.2 ≤ b.2) (queue st);
  ex_bound : ∀ v e, depths st !! v = Some e → e ≤ d + 1;
  ex_sound : ∀ v e, depths st !! v = Some e →
    ∃ n, reached_in starts n v ∧ e = Z.of_nat n ∧ (n = O ∨ e ≤ max_depth);
  ex_starts : ∀ s, s ∈ starts → depths st !! s = Some 0;
  ex_done : ∀ w e, depths st !! w = Some e → (w, e) ∉ queue st → w ≠ u → e < max_depth →
    ∀ v, v ∈ succ w → ∃ e', depths st !! v = Some e' ∧ e' ≤ e + 1;
}.

Lemma queue_sorted_snoc (q : list (A * Z)) v d :
  StronglySorted (λ a b : A * Z, a.2 ≤ b.2) q → (∀ w e, (w, e) ∈ q → e ≤ d) →
  StronglySorted (λ a b : A * Z, a.2 ≤ b.2) (q ++ [(v, d)]).
Proof.
  intros Hq. induction Hq as [|a q Hq IH Ha]; intros Hle; cbn [app]; [repeat constructor|].
  constructor.
  - apply IH. intros w e Hw. apply (Hle w e). by right.
  - apply Forall_app. split; [done|]. constructor; [|constructor]. destruct a as [w e]. apply (Hle w e). by left.
Qed.

Lemma discover_expanding u d st v :
  expanding u d st → depths st !! u = Some d → d < max_depth → step u v → expanding u d (discover (d + 1) st v).
Proof.
  intros Hst Hu Hd Huv. unfold discover. destruct (depths st !! v) as [e0|] eqn:E; [done|].
  assert (Hv : ∀ w e, (w, e) ∈ queue st → w ≠ v).
  { intros w e Hw ->. destruct (ex_queued _ _ _ Hst _ _ Hw) as [Hw' _]. congruence. }
  assert (Hkeep : ∀ w e, depths st !! w = Some e → <[v:=d + 1]> (depths st) !! w = Some e).
  { intros w e Hw. rewrite lookup_insert_ne; [done|]. intros ->. congruence. }
  split; cbn [queue depths].
  - intros w e [Hw|Hw]%elem_of_app.
    + destruct (ex_queued _ _ _ Hst _ _ Hw) as [Hw' ?]. split; [by apply Hkeep|done].
    + apply list_elem_of_singleton in Hw as [= -> ->]. rewrite lookup_insert_eq. split; [done|lia].
  - rewrite map_app. apply NoDup_app. split; [apply (ex_nodup _ _ _ Hst)|]. split; [|apply NoDup_singleton].
    intros w Hw Hw'. apply list_elem_of_singleton in Hw' as Hw'. cbn in Hw'. subst w. apply elem_of_map in Hw as ([w' e] & -> & Hw).
    by eapply Hv.
  - apply queue_sorted_snoc; [apply (ex_sorted _ _ _ Hst)|]. intros w e Hw. apply (ex_queued _ _ _ Hst) in Hw. lia.
  - intros w e. destruct (decide (w = v)) as [->|Hne].
    + rewrite lookup_insert_eq. intros [= <-]. lia.
    + rewrite lookup_insert_ne by done. apply (ex_bound _ _ _ Hst).
  - intros w e. destruct (decide (w = v)) as [->|Hne].
    + rewrite lookup_insert_eq. intros [= <-]. destruct (ex_sound _ _ _ Hst _ _ Hu) as (n & Hn & -> & _).
      exists (S n). split; [by eapply reached_snoc|]. split; lia.
    + rewrite lookup_insert_ne by done. apply (ex_sound _ _ _ Hst).
  - intros s Hs. apply Hkeep, (ex_starts _ _ _ Hst), Hs.
  - intros w e. destruct (decide (w = v)) as [->|Hne].
    + rewrite lookup_insert_eq. intros [= <-] Hin. destruct Hin. apply elem_of_app. right. by left.
    + rewrite lookup_insert_ne by done. intros Hw Hin Hwu Hlt x Hx.
      destruct (ex_done _ _ _ Hst _ _ Hw) with (v := x) as (e' & He' & ?); [|done..|].
      { intros Hq. apply Hin, elem_of_app. by left. }
      exists e'. split; [by apply Hkeep|done].
Qed.

Lemma foldl_discover u d vs st :
  expanding u d st → depths st !! u = Some d → d < max_depth → (∀ v, v ∈ vs → step u v) →
  let st' := foldl (discover (d + 1)) st vs in
  expanding u d st' ∧ depths st' !! u = Some d
  ∧ (∀ w e, depths st !! w = Some e → depths st' !! w = Some e)
  ∧ ∀ v, v ∈ vs → is_Some (depths st' !! v).
Proof.
  revert st. induction vs as [|v vs IH]; intros st Hst Hu Hd Hvs; cbn [foldl].
  { split_and!; try done. intros v Hv. by apply elem_of_nil in Hv. }
  assert (Hv : step u v) by (apply Hvs; by left).
  destruct (IH (discover (d + 1) st v)) as (H1 & H2 & H3 & H4).
  - by apply discover_expanding.
  - by apply discover_mono.
  - done.
  - intros w Hw. apply Hvs. by right.
  - split_and!; [done|done| |].
    + intros w e Hw. by apply H3, discover_mono.
    + intros w [->|Hw]%elem_of_cons; [|by apply H4].
      destruct (discover_all (d + 1) st v) as (e & He & _). exists e. by apply H3.
Qed.

Lemma expand_searching u d q m :
  searching {| queue := (u, d) :: q; depths := m |} → searching (expand u d {| queue := q; depths := m |}).
Proof.
  intros Hst. pose proof (sr_queued _ Hst u d ltac:(by left)) as Hu. cbn in Hu.
  pose proof (sr_nodup _ Hst) as Hnd. cbn in Hnd. apply NoDup_cons in Hnd as [Hnotin Hnd].
  pose proof (sr_sorted _ Hst) as Hsort. cbn in Hsort. apply StronglySorted_inv in Hsort as [Hsort Hle].
  rewrite Forall_forall in Hle.
  assert (Hbound : ∀ v e, m !! v = Some e → e ≤ d + 1).
  { intros v e Hv. eapply (sr_bound _ Hst u d v e); [by left|done]. }
  assert (Hq : ∀ w e, (w, e) ∈ q → m !! w = Some e ∧ d ≤ e ≤ d + 1).
  { intros w e Hw. assert (Hm : m !! w = Some e) by (apply (sr_queued _ Hst); by right).
    specialize (Hle _ Hw). cbn in Hle. split; [done|]. split; [done|]. by eapply Hbound. }
  assert (Hex : expanding u d {| queue := q; depths := m |}).
  { split; cbn [queue depths]; try done.
    - apply (sr_sound _ Hst).
    - apply (sr_starts _ Hst).
    - intros w e Hw Hin Hwu. apply (sr_done _ Hst _ _ Hw). intros Hin'. apply elem_of_cons in Hin' as [E|E]; [congruence|done]. }
  unfold expand. destruct (Z.leb_spec max_depth d) as [Hd|Hd].
  - split; cbn [queue depths]; try apply Hex.
    + intros w e v e' Hw Hv. destruct (Hq _ _ Hw) as [_ ?]. specialize (Hbound _ _ Hv). lia.
    + intros w e Hw Hin Hlt. destruct (decide (w = u)) as [->|Hne].
      * rewrite Hu in Hw. injection Hw as <-. lia.
      * by apply (ex_done _ _ _ Hex).
  - destruct (foldl_discover u d (succ u) _ Hex Hu Hd) as (H1 & H2 & H3 & H4); [done|].
    set (st' := foldl _ _ _) in *.
    split.
    + intros w e Hw. by apply (ex_queued _ _ _ H1).
    + apply H1.
    + apply H1.
    + intros w e v e' Hw Hv. destruct (ex_queued _ _ _ H1 _ _ Hw) as [_ ?].
      pose proof (ex_bound _ _ _ H1 _ _ Hv). lia.
    + apply H1.
    + apply H1.
    + intros w e Hw Hin Hlt v Hv. destruct (decide (w = u)) as [->|Hne].
      * rewrite H2 in Hw. injection Hw as <-. destruct (H4 v Hv) as [e' He'].
        exists e'. split; [done|]. by apply (ex_bound _ _ _ H1 v).
      * by eapply (ex_done _ _ _ H1).
Qed.

Lemma search_searching fuel st : searching st → searching (search fuel st).
Proof.
  revert st. induction fuel as [|f IH]; intros st Hst; cbn [search]; [done|].
  destruct st as [[|[u d] q] m]; [done|]. by apply IH, expand_searching.
Qed.

(** ** The start *)

Lemma start_searching : searching (start_search starts).
Proof.
  unfold start_search.
  assert (Hg : ∀ vs st, (∀ v, v ∈ vs → v ∈ starts) →
    (∀ u d, (u, d) ∈ queue st ↔ depths st !! u = Some d) → (∀ u d, depths st !! u = Some d → d = 0 ∧ u ∈ starts) →
    NoDup (map fst (queue st)) →
    let st' := foldl (discover 0) st vs in
    (∀ u d, (u, d) ∈ queue st' ↔ depths st' !! u = Some d) ∧ (∀ u d, depths st' !! u = Some d → d = 0 ∧ u ∈ starts)
    ∧ NoDup (map fst (queue st')) ∧ (∀ w e, depths st !! w = Some e → depths st' !! w = Some e)
    ∧ ∀ v, v ∈ vs → is_Some (depths st' !! v)).
  { induction vs as [|v vs IH]; intros st Hvs Hq Hz Hnd; cbn [foldl].
    { split_and!; try done. intros v Hv. by apply elem_of_nil in Hv. }
    destruct (IH (discover 0 st v)) as (H1 & H2 & H3 & H4 & H5).
    - intros w Hw. apply Hvs. by right.
    - intros u d. unfold discover. destruct (depths st !! v) eqn:E; [done|]. cbn.
      rewrite elem_of_app, list_elem_of_singleton, Hq. destruct (decide (u = v)) as [->|Hne].
      + rewrite lookup_insert_eq, E. split; [intros [?|[= ->]]; done|intros [= <-]; auto].
      + rewrite lookup_insert_ne by done. split; [intros [?|[= -> ->]]; done|auto].
    - intros u d. unfold discover. destruct (depths st !! v) eqn:E; [apply Hz|]. cbn.
      destruct (decide (u = v)) as [->|Hne].
      + rewrite lookup_insert_eq. intros [= <-]. split; [done|]. apply Hvs. by left.
      + rewrite lookup_insert_ne by done. apply Hz.
    - unfold discover. destruct (depths st !! v) eqn:E; [done|]. cbn. rewrite map_app.
      apply NoDup_app. split; [done|]. split; [|apply NoDup_singleton]. intros w Hw Hw'.
      apply list_elem_of_singleton in Hw' as Hw'. cbn in Hw'. subst w. apply elem_of_map in Hw as ([w' e] & -> & Hw).
      apply Hq in Hw. cbn in E. congruence.
    - split_and!; [done..| |].
      + intros w e Hw. by apply H4, discover_mono.
      + intros w [->|Hw]%elem_of_cons; [|by apply H5].
        destruct (discover_all 0 st v) as (e & He & _). exists e. by apply H4. }
  destruct (Hg starts {| queue := []; depths := ∅ |}) as (Hq & Hz & Hnd & _ & Hall).
  - done.
  - intros u d. cbn. split; [by intros ?%elem_of_nil|done].
  - done.
  - constructor.
  - set (st' := foldl _ _ _) in *. split.
    + intros u d. apply Hq.
    + done.
    + assert (Hf : Forall (λ a : A * Z, a.2 = 0) (queue st')).
      { apply Forall_forall. intros [u d] Hin. apply Hq in Hin. by apply (Hz u). }
      clear -Hf. induction Hf as [|a q Ha Hf IH]; [constructor|]. constructor; [done|].
      eapply Forall_impl; [exact Hf|]. cbn. lia.
    + intros u d v e Hu Hv. apply Hq in Hu. apply Hz in Hu as [-> _], Hv as [-> _]. lia.
    + intros v d Hv. apply Hz in Hv as [-> Hs]. exists O. split; [exists v; split; [done|constructor]|]. split; [done|by left].
    + intros s Hs. destruct (Hall s Hs) as [d Hd]. by destruct (Hz _ _ Hd) as [-> _].
    + intros u d Hu Hin. destruct Hin. by apply Hq.
Qed.

(** ** What a finished search found *)

Lemma finished_distance st v :
  searching st → queue st = [] → 0 ≤ max_depth →
  ∀ n, reached_in starts n v → Z.of_nat n ≤ max_depth → ∃ e, depths st !! v = Some e ∧ e ≤ Z.of_nat n.
Proof.
  intros Hst Hq Hmax n (s & Hs & Hp). revert v Hp. induction n as [|n IH]; intros v Hp Hn.
  - inversion Hp; subst. exists 0. split; [by apply (sr_starts _ Hst)|lia].
  - apply nsteps_inv_r in Hp as (u & Hp & Huv). destruct (IH u Hp) as (e & He & Hle); [lia|].
    destruct (sr_done _ Hst u e He) with (v := v) as (e' & He' & ?); [rewrite Hq; by intros ?%elem_of_nil|lia|done|].
    exists e'. split; [done|lia].
Qed.

Lemma finished_search st v d :
  searching st → queue st = [] → 0 ≤ max_depth →
  depths st !! v = Some d ↔ distance starts v d ∧ d ≤ max_depth.
Proof.
  intros Hst Hq Hmax. split.
  - intros Hv. destruct (sr_sound _ Hst _ _ Hv) as (n & Hn & -> & Hle).
    assert (Z.of_nat n ≤ max_depth) by (destruct Hle as [->|?]; lia). split; [|done].
    split; [by exists n|]. intros m Hm. destruct (Z.le_gt_cases (Z.of_nat m) max_depth) as [Hm'|Hm']; [|lia].
    destruct (finished_distance st v Hst Hq Hmax m Hm Hm') as (e & He & ?). congruence.
  - intros [[(n & Hn & ->) Hleast] Hle].
    destruct (finished_distance st v Hst Hq Hmax n Hn Hle) as (e & He & Hen). rewrite He. f_equal.
    destruct (sr_sound _ Hst _ _ He) as (m & Hm & -> & _). specialize (Hleast _ Hm). lia.
Qed.

(** ** Fuel: one turn per node *)

Variable universe : list A.
Hypothesis closed : ∀ u, u ∈ universe → ∀ v, v ∈ succ u → v ∈ universe.

(** Nodes in the queue or not yet discovered. *)
Definition pending (st : Search) : nat :=
  (length (queue st) + length (List.filter (λ v, bool_decide (depths st !! v = None)) (remove_dups universe)))%nat.

Definition inside (st : Search) : Prop := ∀ u d, (u, d) ∈ queue st → u ∈ universe.

Lemma filter_insert_le (m : gmap A Z) v d (l : list A) :
  NoDup l → m !! v = None → v ∈ l →
  (length (List.filter (λ w, bool_decide (<[v:=d]> m !! w = None)) l)
   < length (List.filter (λ w, bool_decide (m !! w = None)) l))%nat.
Proof.
  assert (Hle : ∀ l, (length (List.filter (λ w, bool_decide (<[v:=d]> m !! w = None)) l)
   ≤ length (List.filter (λ w, bool_decide (m !! w = None)) l))%nat).
  { intros k. induction k as [|w k IH]; [done|]. cbn [List.filter].
    destruct (decide (w = v)) as [->|Hne].
    - rewrite lookup_insert_eq, bool_decide_eq_false_2 by done. case_bool_decide; cbn; lia.
    - rewrite lookup_insert_ne by done. case_bool_decide; cbn; lia. }
  intros Hnd Hm. induction Hnd as [|w l Hw Hnd IH]; intros Hv; [by apply elem_of_nil in Hv|].
  cbn [List.filter]. apply elem_of_cons in Hv as [->|Hv].
  - rewrite lookup_insert_eq, bool_decide_eq_false_2 by done. rewrite bool_decide_eq_true_2 by done.
    cbn [length]. specialize (Hle l). lia.
  - specialize (IH Hv). rewrite lookup_insert_ne by congruence. case_bool_decide; cbn [length]; lia.
Qed.

Lemma discover_pending d st v :
  v ∈ universe → inside st → (pending (discover d st v) ≤ pending st)%nat ∧ inside (discover d st v).
Proof.
  intros Hv Hin. unfold discover. destruct (depths st !! v) eqn:E; [done|]. split.
  - unfold pending. cbn [queue depths]. rewrite length_app. cbn [length].
    pose proof (filter_insert_le (depths st) v d (remove_dups universe) (NoDup_remove_dups _) E) as Hf.
    rewrite elem_of_remove_dups in Hf. specialize (Hf Hv). lia.
  - intros u e [Hu|Hu]%elem_of_app; [by eapply Hin|]. apply list_elem_of_singleton in Hu as [= -> ->]. done.
Qed.

Lemma foldl_discover_pending d st vs :
  (∀ v, v ∈ vs → v ∈ universe) → inside st →
  (pending (foldl (discover d) st vs) ≤ pending st)%nat ∧ inside (foldl (discover d) st vs).
Proof.
  revert st. induction vs as [|v vs IH]; intros st Hvs Hin; cbn [foldl]; [done|].
  destruct (discover_pending d st v) as [H1 H2]; [apply Hvs; by left|done|].
  destruct (IH (discover d st v)) as [H3 H4]; [intros w Hw; apply Hvs; by right|done|]. split; [lia|done].
Qed.

Lemma search_finished fuel st : inside st → (pending st ≤ fuel)%nat → queue (search fuel st) = [].
Proof.
  revert st. induction fuel as [|f IH]; intros st Hin Hf.
  - cbn. unfold pending in Hf. destruct (queue st) eqn:E; [done|]. cbn in Hf. lia.
  - cbn [search]. destruct st as [[|[u d] q] m]; [done|]. cbn [queue depths].
    assert (Hu : u ∈ universe) by (apply (Hin u d); by left).
    assert (Hin' : inside {| queue := q; depths := m |}) by (intros w e Hw; apply (Hin w e); by right).
    assert (Hp : (pending (expand u d {| queue := q; depths := m |}) ≤ pending {| queue := q; depths := m |})%nat
                 ∧ inside (expand u d {| queue := q; depths := m |})).
    { unfold expand. destruct (max_depth <=? d); [done|]. apply foldl_discover_pending; [|done].
      intros v Hv. by apply (closed u). }
    destruct Hp as [Hp Hi]. apply IH; [done|]. unfold pending in *. cbn in *. lia.
Qed.

(** The search within a finite graph is finished after a turn per node, and holds the
    nodes within the limit at their least distance. *)
Lemma search_finds fuel v d :
  (∀ s, s ∈ starts → s ∈ universe) → (length (remove_dups universe) ≤ fuel)%nat → 0 ≤ max_depth →
  queue (search fuel (start_search starts)) = []
  ∧ (depths (search fuel (start_search starts)) !! v = Some d ↔ distance starts v d ∧ d ≤ max_depth).
Proof.
  intros Hs Hf Hmax.
  assert (Hin : inside {| queue := []; depths := ∅ |}) by (intros u e Hu; by apply elem_of_nil in Hu).
  destruct (foldl_discover_pending 0 _ starts Hs Hin) as [Hp Hi].
  assert (Hq : queue (search fuel (start_search starts)) = []).
  { apply search_finished; [done|]. unfold start_search. etrans; [exact Hp|]. unfold pending. cbn.
    etrans; [|exact Hf]. apply filter_length_le. }
  split; [done|]. apply finished_search; [|done..]. apply search_searching, start_searching.
Qed.

End Bfs.

Arguments Search A {_ _}.
End Bfs.
