(* ===== verification/Traversal.v ===== *)
(** * The bounded walk of the code graph ([rust/devmap-analyze/src/traversal.rs])

    [GraphIndex] is the trait of that name. [traverse_graph_indexed] is the walk over any
    index; [AdjacencyIndex] the index over a slice of edges. Ids are [u32] positions. *)

From Stdlib Require Import SpecFloat.
From S2P Require Import Prelude RustStr Order CodeEdges.
Import Order CodeEdges.

#[local] Open Scope Z_scope.

Module Traversal.

Record EdgeIdentity := { ei_source : str; ei_target : str; ei_kind : str; ei_line : Z; ei_col : Z }.

Record TraversalOptions := { max_depth : Z; max_nodes : Z; opt_reverse : bool }.

Record TraversalLimits := { lim_depth : Z; lim_nodes : Z }.

Definition default_options : TraversalOptions :=
  {| max_depth := 10; max_nodes := 1000; opt_reverse := false |}.

Definition limits (o : TraversalOptions) : TraversalLimits :=
  {| lim_depth := max_depth o; lim_nodes := max_nodes o |}.

(** What the walk gave up on. *)
Record TraversalStop := {
  starts_dropped : Z;
  depth_capped : bool;
  node_capped : bool;
  edges_unrecorded : Z;
}.

Definition no_stop : TraversalStop :=
  {| starts_dropped := 0; depth_capped := false; node_capped := false; edges_unrecorded := 0 |}.

Definition is_incomplete (s : TraversalStop) : bool :=
  (0 <? starts_dropped s) || depth_capped s || node_capped s || (0 <? edges_unrecorded s).

Definition stop_parts (s : TraversalStop) (depth nodes : Z) : list str :=
  (if depth_capped s then [lit "stopped at depth " ++ fmt_u depth] else [])
  ++ (if node_capped s then [lit "stopped at " ++ fmt_u nodes ++ lit " nodes"] else [])
  ++ (if 0 <? starts_dropped s then [fmt_u (starts_dropped s) ++ lit " start nodes dropped"] else [])
  ++ (if 0 <? edges_unrecorded s then [fmt_u (edges_unrecorded s) ++ lit " traversed edges unrecorded"] else []).

(** [TraversalStop::reason]. *)
Definition reason (s : TraversalStop) (depth nodes : Z) : option str :=
  if negb (is_incomplete s) then None
  else Some (lit "the walk did not complete: " ++ join (lit ", ") (stop_parts s depth nodes)
             ++ lit "; the result is a lower bound, not the full blast radius").

Record TraversalResult := {
  visited_nodes : gset str;
  traversed_edges : list EdgeIdentity;
  max_depth_reached : Z;
  stop : TraversalStop;
}.

Record EdgeView := {
  ev_source : str;
  ev_target : str;
  ev_source_file : str;
  ev_target_file : str;
  ev_kind : EdgeKind;
}.

Class GraphIndex := {
  reverse : bool;
  neighbors : str → list Z;
  edge : Z → EdgeView;
  kind_label : Z → str;
  index_admits : Z → bool;
}.

(** ** Symbols and files *)

Definition EXTENSIONS : list str :=
  map lit ["go"; "py"; "rs"; "ts"; "tsx"; "js"; "jsx"; "c"; "h"; "cc"; "cpp"; "cs"; "java"; "kt";
           "swift"; "rb"; "php"; "vue"; "svelte"]%string.

Definition has_char (c : char) (s : str) : bool := existsb (Z.eqb c) s.

Definition is_symbol_node (id : str) : bool :=
  str_contains (lit "::") id
  || (has_char 46 id && negb (has_char 47 id) && negb (has_char 92 id)
      && negb (bool_decide (default [] (last (split_on (Z.eqb 46) id)) ∈ EXTENSIONS))).

(** ** The walk *)

Section Walk.
Context `{GraphIndex}.

(** The policy of the stop probe and of the expansion, at a node. *)
Definition admits (curr : str) (id : Z) : bool :=
  if negb (index_admits id) then false
  else
    negb reverse
    || negb (match ev_kind (edge id) with
             | Contains | Defines => true
             | Imports | MemberOf => is_symbol_node curr
             | _ => false
             end).

Definition priority (k : EdgeKind) : Z :=
  match k with Contains | Defines => 0 | Calls => 1 | _ => 2 end.

(** Containment, then calls, then the rest, each by its ends. *)
Definition view_leb : EdgeView → EdgeView → bool :=
  asc (λ e, priority (ev_kind e))
    (asc_str ev_source (asc_str ev_target (asc_str ev_source_file (by_str ev_target_file)))).

Definition sorted_neighbors (curr : str) : list Z :=
  sort_by (λ a b, view_leb (edge a) (edge b)) (List.filter (admits curr) (neighbors curr)).

Definition next_node (id : Z) : str := if reverse then ev_source (edge id) else ev_target (edge id).

Definition identity (id : Z) : EdgeIdentity :=
  {| ei_source := ev_source (edge id); ei_target := ev_target (edge id); ei_kind := kind_label id;
     ei_line := 0; ei_col := 0 |}.

Record Walk := {
  visited : gset str;
  enqueued : gset str;
  queue : list (str * Z);
  recorded : list EdgeIdentity;
  deepest : Z;
  stopped : TraversalStop;
}.

Definition start_walk : Walk :=
  {| visited := ∅; enqueued := ∅; queue := []; recorded := []; deepest := 0; stopped := no_stop |}.

Definition set_stop (s : TraversalStop) (w : Walk) : Walk :=
  {| visited := visited w; enqueued := enqueued w; queue := queue w; recorded := recorded w;
     deepest := deepest w; stopped := s |}.

Definition enqueue (v : str) (d : Z) (w : Walk) : Walk :=
  {| visited := visited w; enqueued := {[v]} ∪ enqueued w; queue := queue w ++ [(v, d)];
     recorded := recorded w; deepest := deepest w; stopped := stopped w |}.

Definition count (s : gset str) : Z := Z.of_nat (size s).

(** One start: a repeat costs nothing, one over the cap is counted. *)
Definition seed (l : TraversalLimits) (w : Walk) (s : str) : Walk :=
  if bool_decide (s ∈ enqueued w) then w
  else if lim_nodes l <=? count (enqueued w) then
    set_stop {| starts_dropped := starts_dropped (stopped w) + 1; depth_capped := depth_capped (stopped w);
                node_capped := node_capped (stopped w); edges_unrecorded := edges_unrecorded (stopped w) |} w
  else enqueue s 0 w.

Definition cap_nodes (w : Walk) : Walk :=
  set_stop {| starts_dropped := starts_dropped (stopped w); depth_capped := depth_capped (stopped w);
              node_capped := true; edges_unrecorded := edges_unrecorded (stopped w) |} w.

Definition cap_depth (w : Walk) : Walk :=
  set_stop {| starts_dropped := starts_dropped (stopped w); depth_capped := true;
              node_capped := node_capped (stopped w); edges_unrecorded := edges_unrecorded (stopped w) |} w.

(** A crossed edge is recorded while there is room, and counted when there is none. *)
Definition record (l : TraversalLimits) (id : Z) (w : Walk) : Walk :=
  if Z.of_nat (length (recorded w)) <? Z.max 0 (lim_nodes l - 1) then
    {| visited := visited w; enqueued := enqueued w; queue := queue w; recorded := recorded w ++ [identity id];
       deepest := deepest w; stopped := stopped w |}
  else
    set_stop {| starts_dropped := starts_dropped (stopped w); depth_capped := depth_capped (stopped w);
                node_capped := node_capped (stopped w);
                edges_unrecorded := edges_unrecorded (stopped w) + 1 |} w.

(** One turn of the loop over the neighbours. *)
Definition cross (l : TraversalLimits) (depth : Z) (w : Walk) (id : Z) : Walk :=
  let next := next_node id in
  if negb (bool_decide (next ∈ enqueued w)) && (lim_nodes l <=? count (enqueued w)) then cap_nodes w
  else
    let w := record l id w in
    if bool_decide (next ∈ enqueued w) then w else enqueue next (depth + 1) w.

Definition visit (curr : str) (depth : Z) (w : Walk) : Walk :=
  {| visited := {[curr]} ∪ visited w; enqueued := enqueued w; queue := queue w; recorded := recorded w;
     deepest := Z.max (deepest w) depth; stopped := stopped w |}.

(** A node taken from the queue. *)
Definition turn (l : TraversalLimits) (curr : str) (depth : Z) (w : Walk) : Walk :=
  if bool_decide (curr ∈ visited w) then w
  else
    let w := visit curr depth w in
    let has_admitted := existsb (admits curr) (neighbors curr) in
    if lim_depth l <=? depth then (if has_admitted then cap_depth w else w)
    else if negb has_admitted then w
    else foldl (cross l depth) w (sorted_neighbors curr).

Definition set_queue (q : list (str * Z)) (w : Walk) : Walk :=
  {| visited := visited w; enqueued := enqueued w; queue := q; recorded := recorded w;
     deepest := deepest w; stopped := stopped w |}.

Fixpoint walk_loop (fuel : nat) (l : TraversalLimits) (w : Walk) : Walk :=
  match fuel with
  | O => w
  | S f =>
      match queue w with
      | [] => w
      | (curr, depth) :: q => walk_loop f l (turn l curr depth (set_queue q w))
      end
  end.

(** Each node is queued once, and no more than [max_nodes] are. *)
Definition walk_from (starts : list str) (l : TraversalLimits) : Walk :=
  walk_loop (Z.to_nat (lim_nodes l)) l (foldl (seed l) start_walk starts).

Definition traverse_graph_indexed (starts : list str) (l : TraversalLimits) : TraversalResult :=
  let w := walk_from starts l in
  {| visited_nodes := visited w; traversed_edges := recorded w; max_depth_reached := deepest w;
     stop := stopped w |}.

End Walk.

(** ** The index over a slice *)

Definition addressable (edges : list ResolvedEdge) : list ResolvedEdge :=
  if u32_max <? Z.of_nat (length edges) then take (Z.to_nat u32_max) edges else edges.

Definition endpoint (reverse : bool) (e : ResolvedEdge) : str :=
  if reverse then target_symbol e else source_symbol e.

Definition index_edge (reverse : bool) (m : gmap str (list Z)) (ie : Z * ResolvedEdge) : gmap str (list Z) :=
  let key := endpoint reverse ie.2 in <[key := default [] (m !! key) ++ [ie.1]]> m.

(** [edges.iter().enumerate()]. *)
Definition numbered (edges : list ResolvedEdge) : list (Z * ResolvedEdge) :=
  zip (seqZ 0 (Z.of_nat (length edges))) edges.

Definition adjacency (reverse : bool) (edges : list ResolvedEdge) : gmap str (list Z) :=
  foldl (index_edge reverse) ∅ (numbered edges).

Definition no_edge : ResolvedEdge :=
  {| source_file := []; target_file := []; source_symbol := []; target_symbol := []; edge_kind := Calls;
     confidence := S754_nan; resolution := None; evidence := None; details := None |}.

(** [&self.edges[id]]; an index the walk was handed is always in range. *)
Definition edge_at (edges : list ResolvedEdge) (id : Z) : ResolvedEdge :=
  default no_edge (edges !! Z.to_nat id).

Definition view_of (e : ResolvedEdge) : EdgeView :=
  {| ev_source := source_symbol e; ev_target := target_symbol e; ev_source_file := source_file e;
     ev_target_file := target_file e; ev_kind := edge_kind e |}.

Definition over_floor (floor : option f32) (e : ResolvedEdge) : bool :=
  match floor with None => true | Some f => SFleb f (confidence e) end.

(** [AdjacencyIndex::build] and [with_min_confidence]. *)
Definition AdjacencyIndex (edges : list ResolvedEdge) (rev : bool) (floor : option f32) : GraphIndex :=
  let usable := addressable edges in
  let m := adjacency rev usable in
  {| reverse := rev;
     neighbors node := default [] (m !! node);
     edge id := view_of (edge_at usable id);
     kind_label id := kind_debug (edge_kind (edge_at usable id));
     index_admits id := over_floor floor (edge_at usable id) |}.

Definition traverse_graph (starts : list str) (edges : list ResolvedEdge) (o : TraversalOptions) : TraversalResult :=
  @traverse_graph_indexed (AdjacencyIndex edges (opt_reverse o) None) starts (limits o).

(** ** The crate's tests *)

Module Tests.

Definition test_edge (s t : string) (k : EdgeKind) : ResolvedEdge :=
  {| source_file := lit "a.go"; target_file := lit "b.go"; source_symbol := lit s; target_symbol := lit t;
     edge_kind := k; confidence := DETERMINISTIC; resolution := None; evidence := None; details := None |}.

Definition opts (d n : Z) (r : bool) : TraversalOptions := {| max_depth := d; max_nodes := n; opt_reverse := r |}.

Example symbol_nodes :
  map is_symbol_node (map lit ["pkg/svc.go::Server.handle"; "app.py::helper"; "Server.handle"; "pkg/svc.go"; "svc.go";
                               "app.py"; "web\app.tsx"; "plain"]%string)
  = [true; true; true; false; false; false; false; false].
Proof. by vm_compute. Qed.

Definition chain := [test_edge "a" "b" Calls; test_edge "b" "c" Calls; test_edge "c" "d" Calls].

Example a_capped_walk :
  let r d n := traverse_graph [lit "a"] chain (opts d n false) in
  (sort_strs (elements (visited_nodes (r 2 1000))), depth_capped (stop (r 2 1000)), is_incomplete (stop (r 10 1000)),
   node_capped (stop (r 10 2))) = ([lit "a"; lit "b"; lit "c"], true, false, true).
Proof. by vm_compute. Qed.

Example in_priority_order :
  map ei_target (traversed_edges
    (traverse_graph [lit "f.go::start"]
       [test_edge "f.go::start" "f.go::a_ref" References; test_edge "f.go::start" "f.go::z_call" Calls;
        test_edge "f.go::start" "f.go::m_contains" Contains] (opts 1 100 false)))
  = [lit "f.go::m_contains"; lit "f.go::z_call"; lit "f.go::a_ref"].
Proof. by vm_compute. Qed.

End Tests.

End Traversal.
