(* ===== verification/TraversalProps.v ===== *)
(** * The invariant of the bounded walk

    [walking] holds of every state of the loop, whatever the caps; [following] relates an
    uncapped state to the search of [Bfs] over the same successors. *)

From stdpp Require Import relations.
From S2P Require Import Prelude RustStr Order CodeEdges Bfs Traversal.
Import Order CodeEdges Traversal.

#[local] Open Scope Z_scope.

Module TraversalFacts.

Section Walk.
Context `{GraphIndex}.

Definition succ (u : str) : list str := map next_node (sorted_neighbors u).

Lemma elem_of_sorted_neighbors u id : id ∈ sorted_neighbors u ↔ id ∈ neighbors u ∧ admits u id = true.
Proof. unfold sorted_neighbors. by rewrite elem_of_sort_by, elem_of_filter_bool. Qed.

Lemma elem_of_succ u v : v ∈ succ u ↔ ∃ id, id ∈ neighbors u ∧ admits u id = true ∧ v = next_node id.
Proof.
  unfold succ. rewrite elem_of_map. setoid_rewrite elem_of_sorted_neighbors. naive_solver.
Qed.

Lemma no_admitted u : existsb (admits u) (neighbors u) = false ↔ sorted_neighbors u = [].
Proof.
  rewrite existsb_false. split.
  - intros Hn. destruct (sorted_neighbors u) as [|id l] eqn:E; [done|].
    assert (Hid : id ∈ sorted_neighbors u) by (rewrite E; by left).
    apply elem_of_sorted_neighbors in Hid as [Hin Ha]. by rewrite Hn in Ha.
  - intros E id Hin. apply not_true_iff_false. intros Ha.
    assert (Hid : id ∈ sorted_neighbors u) by (by apply elem_of_sorted_neighbors).
    rewrite E in Hid. by apply elem_of_nil in Hid.
Qed.

Lemma admitted_some u : existsb (admits u) (neighbors u) = true ↔ succ u ≠ [].
Proof.
  rewrite <- not_false_iff_true, no_admitted. unfold succ. split; intros Hn E; apply Hn.
  - by destruct (sorted_neighbors u).
  - by rewrite E.
Qed.

Context (starts : list str) (l : TraversalLimits).
Hypothesis depth_nonneg : 0 ≤ lim_depth l.
Hypothesis nodes_nonneg : 0 ≤ lim_nodes l.

(** A node at a depth it can be reached in. *)
Definition at_depth (v : str) (d : Z) : Prop :=
  0 ≤ d ≤ lim_depth l ∧ Bfs.reached_in succ starts (Z.to_nat d) v.

Lemma at_depth_next u v d : at_depth u d → v ∈ succ u → d < lim_depth l → at_depth v (d + 1).
Proof.
  intros [Hd Hp] Hv Hlt. split; [lia|]. replace (Z.to_nat (d + 1)) with (S (Z.to_nat d)) by lia.
  by eapply Bfs.reached_snoc.
Qed.

Definition quiet (w : Walk) : Prop := depth_capped (stopped w) = false ∧ node_capped (stopped w) = false.

Record walking (w : Walk) : Prop := {
  wk_nodup : NoDup (map fst (queue w));
  wk_queued : ∀ v d, (v, d) ∈ queue w → v ∈ enqueued w ∧ (v ∉ visited w) ∧ at_depth v d;
  wk_visited : ∀ v, v ∈ visited w → v ∈ enqueued w ∧ ∃ d, at_depth v d;
  wk_enqueued : ∀ v, v ∈ enqueued w → v ∈ visited w ∨ v ∈ map fst (queue w);
  wk_size : count (enqueued w) ≤ lim_nodes l;
  wk_recorded : Z.of_nat (length (recorded w)) ≤ Z.max 0 (lim_nodes l - 1);
  wk_edges : ∀ e, e ∈ recorded w → ∃ u id, u ∈ visited w ∧ id ∈ sorted_neighbors u ∧ e = identity id;
  wk_deepest : 0 ≤ deepest w ≤ lim_depth l;
  wk_counts : 0 ≤ starts_dropped (stopped w) ∧ 0 ≤ edges_unrecorded (stopped w);
}.

(** What a state whose walk gave nothing up has of the nodes it visited, but [curr]. *)
Definition closed_but (curr : option str) (w : Walk) : Prop :=
  quiet w → ∀ u, u ∈ visited w → Some u ≠ curr → ∀ id, id ∈ sorted_neighbors u →
    next_node id ∈ enqueued w
    ∧ (edges_unrecorded (stopped w) = 0 → identity id ∈ recorded w).

Lemma count_insert (v : str) (s : gset str) : v ∉ s → count ({[v]} ∪ s) = count s + 1.
Proof. intros Hv. unfold count. rewrite size_union_alt, size_singleton.
  replace (s ∖ {[v]}) with s by set_solver. lia. Qed.

(** ** Seeds *)

Lemma enqueue_walking v d w :
  walking w → v ∉ enqueued w → count (enqueued w) < lim_nodes l → at_depth v d → walking (enqueue v d w).
Proof.
  intros Hw Hv Hc Hd. split; cbn [queue enqueued visited recorded deepest stopped enqueue]; try apply Hw.
  - rewrite map_app. apply NoDup_app. split; [apply Hw|]. split; [|apply NoDup_singleton].
    intros x Hx Hx'. apply list_elem_of_singleton in Hx' as Hx'. cbn in Hx'. subst x.
    apply elem_of_map in Hx as ([x e] & E & Hx). cbn in E. subst x. by apply (wk_queued _ Hw) in Hx as [? _].
  - intros x e [Hx|Hx]%elem_of_app.
    + destruct (wk_queued _ Hw _ _ Hx) as (? & ? & ?). split; [set_solver|done].
    + apply list_elem_of_singleton in Hx as [= -> ->]. split; [set_solver|]. split; [|done].
      intros Hin. by apply (wk_visited _ Hw) in Hin as [? _].
  - intros x Hx. destruct (wk_visited _ Hw _ Hx) as [? ?]. split; [set_solver|done].
  - intros x [->%elem_of_singleton|Hx]%elem_of_union.
    + right. rewrite map_app. apply elem_of_app. right. by left.
    + destruct (wk_enqueued _ Hw _ Hx) as [?|?]; [by left|right]. rewrite map_app. apply elem_of_app. by left.
  - rewrite count_insert by done. lia.
Qed.

Lemma seed_walking s w : walking w → s ∈ starts → walking (seed l w s).
Proof.
  intros Hw Hs. unfold seed. case_bool_decide as Hin; [done|].
  destruct (Z.leb_spec (lim_nodes l) (count (enqueued w))) as [Hc|Hc].
  - split; cbn; try apply Hw. destruct (wk_counts _ Hw). lia.
  - apply enqueue_walking; [done..|]. split; [lia|]. exists s. split; [done|constructor].
Qed.

Lemma start_walking : walking start_walk.
Proof.
  split; cbn; try done; try lia; try (constructor; done); intros *; try by intros ?%elem_of_nil.
Qed.

Lemma seeds_walking : walking (foldl (seed l) start_walk starts).
Proof.
  assert (Hg : ∀ ss w, walking w → (∀ s, s ∈ ss → s ∈ starts) → walking (foldl (seed l) w ss)).
  { induction ss as [|s ss IH]; intros w Hw Hs; cbn [foldl]; [done|].
    apply IH; [|intros x Hx; apply Hs; by right]. apply seed_walking; [done|]. apply Hs. by left. }
  apply Hg; [apply start_walking|done].
Qed.

(** ** A turn *)

Lemma record_fields id w :
  let w' := record l id w in
  visited w' = visited w ∧ enqueued w' = enqueued w ∧ queue w' = queue w ∧ deepest w' = deepest w
  ∧ depth_capped (stopped w') = depth_capped (stopped w) ∧ node_capped (stopped w') = node_capped (stopped w)
  ∧ starts_dropped (stopped w') = starts_dropped (stopped w)
  ∧ ((recorded w' = recorded w ++ [identity id] ∧ edges_unrecorded (stopped w') = edges_unrecorded (stopped w)
      ∧ Z.of_nat (length (recorded w)) < Z.max 0 (lim_nodes l - 1))
     ∨ (recorded w' = recorded w ∧ edges_unrecorded (stopped w') = edges_unrecorded (stopped w) + 1)).
Proof.
  unfold record. destruct (Z.ltb_spec (Z.of_nat (length (recorded w))) (Z.max 0 (lim_nodes l - 1))); cbn;
    split_and!; auto.
Qed.

Lemma record_walking u id w :
  walking w → u ∈ visited w → id ∈ sorted_neighbors u → walking (record l id w).
Proof.
  intros Hw Hu Hid. destruct (record_fields id w) as (Ev & Ee & Eq & Ed & _ & _ & Es & Hr).
  split; rewrite ?Ev, ?Ee, ?Eq, ?Ed; try apply Hw.
  - destruct Hr as [(-> & _ & Hlt)|[-> _]]; [|apply Hw]. rewrite length_app. cbn [length]. lia.
  - intros e. destruct Hr as [(-> & _ & _)|[-> _]]; [|apply Hw].
    intros [He|He]%elem_of_app; [by apply (wk_edges _ Hw)|]. apply list_elem_of_singleton in He as ->. eauto.
  - rewrite Es. destruct (wk_counts _ Hw). destruct Hr as [(_ & -> & _)|[_ ->]]; lia.
Qed.

Lemma cross_walking u d id w :
  walking w → u ∈ visited w → at_depth u d → d < lim_depth l → id ∈ sorted_neighbors u → walking (cross l d w id).
Proof.
  intros Hw Hu Hd Hlt Hid. unfold cross.
  destruct (negb _ && _) eqn:Hc; [split; cbn; apply Hw|].
  pose proof (record_walking u id w Hw Hu Hid) as Hr.
  destruct (record_fields id w) as (_ & Ee & _).
  destruct (decide (next_node id ∈ enqueued w)) as [Hin|Hin].
  { by rewrite bool_decide_eq_true_2 by (by rewrite Ee). }
  rewrite bool_decide_eq_false_2 by (by rewrite Ee).
  rewrite bool_decide_eq_false_2 in Hc by done. cbn in Hc. apply Z.leb_gt in Hc.
  apply enqueue_walking; [done|by rewrite Ee|by rewrite Ee|]. eapply at_depth_next; [done| |done].
  unfold succ. apply elem_of_map. eauto.
Qed.

Lemma cross_visited d id w : visited (cross l d w id) = visited w.
Proof.
  unfold cross. destruct (negb _ && _); [done|]. destruct (record_fields id w) as (Ev & _).
  case_bool_decide; cbn; done.
Qed.

(** No later cap is forgotten, and nothing enqueued or recorded is lost. *)
Lemma cross_grows d id w :
  let w' := cross l d w id in
  (quiet w' → quiet w) ∧ enqueued w ⊆ enqueued w'
  ∧ (∀ e, e ∈ recorded w → e ∈ recorded w')
  ∧ edges_unrecorded (stopped w) ≤ edges_unrecorded (stopped w').
Proof.
  cbn zeta. unfold cross. destruct (negb _ && _); [split_and!; cbn; try done; by intros [_ ?]|].
  destruct (record_fields id w) as (_ & Ee & _ & _ & Ed & En & _ & Hr).
  destruct Hr as [(Er & Eu & _)|[Er Eu]]; case_bool_decide; unfold quiet;
    cbn [enqueue stopped enqueued recorded]; rewrite ?Ed, ?En, ?Ee, ?Er, ?Eu; split_and!; try done; try lia; set_solver.
Qed.

Lemma cross_done d id w :
  quiet (cross l d w id) →
  next_node id ∈ enqueued (cross l d w id)
  ∧ (edges_unrecorded (stopped (cross l d w id)) = edges_unrecorded (stopped w) → identity id ∈ recorded (cross l d w id)).
Proof.
  unfold cross. destruct (negb _ && _); [by intros [_ ?]|]. intros _.
  destruct (record_fields id w) as (_ & Ee & _ & _ & _ & _ & _ & Hr). case_bool_decide as Hin.
  - split; [done|]. destruct Hr as [(-> & _)|[_ ->]]; [|lia]. intros _. apply elem_of_app. right. by left.
  - cbn. split; [set_solver|]. destruct Hr as [(-> & _)|[_ ->]]; [|lia]. intros _. apply elem_of_app. right. by left.
Qed.

Lemma crosses u d ids w :
  walking w → u ∈ visited w → at_depth u d → d < lim_depth l → (∀ id, id ∈ ids → id ∈ sorted_neighbors u) →
  let w' := foldl (cross l d) w ids in
  walking w' ∧ visited w' = visited w ∧ (quiet w' → quiet w) ∧ enqueued w ⊆ enqueued w'
  ∧ (∀ e, e ∈ recorded w → e ∈ recorded w')
  ∧ edges_unrecorded (stopped w) ≤ edges_unrecorded (stopped w')
  ∧ (quiet w' → ∀ id, id ∈ ids → next_node id ∈ enqueued w'
     ∧ (edges_unrecorded (stopped w') = edges_unrecorded (stopped w) → identity id ∈ recorded w')).
Proof.
  revert w. induction ids as [|id ids IH]; intros w Hw Hu Hd Hlt Hids; cbn [foldl].
  { split_and!; try done. intros _ id Hid. by apply elem_of_nil in Hid. }
  assert (Hid : id ∈ sorted_neighbors u) by (apply Hids; by left).
  destruct (cross_grows d id w) as (G1 & G2 & G3 & G4). pose proof (cross_done d id w) as G5.
  destruct (IH (cross l d w id)) as (I1 & I2 & I3 & I4 & I5 & I6 & I7).
  - by eapply cross_walking.
  - by rewrite cross_visited.
  - done.
  - done.
  - intros x Hx. apply Hids. by right.
  - split_and!; [done|by rewrite I2, cross_visited|by auto|set_solver|by auto|lia|].
    intros Hq x [->|Hx]%elem_of_cons.
    + destruct (G5 (I3 Hq)) as [Hn Hr]. split; [set_solver|]. intros He. apply I5, Hr. lia.
    + destruct (I7 Hq x Hx) as [Hn Hr]. split; [done|]. intros He. apply Hr. lia.
Qed.

Lemma visit_walking u d q w :
  walking w → queue w = (u, d) :: q → walking (visit u d (set_queue q w)) ∧ (u ∉ visited w) ∧ at_depth u d.
Proof.
  intros Hw Eq. destruct (wk_queued _ Hw u d) as (He & Hv & Hd); [rewrite Eq; by left|].
  pose proof (wk_nodup _ Hw) as Hn. rewrite Eq in Hn. cbn in Hn. apply NoDup_cons in Hn as [Hu Hn].
  split; [|done]. split; cbn [visit set_queue queue enqueued visited recorded deepest stopped]; try apply Hw.
  - done.
  - intros v e Hin. destruct (wk_queued _ Hw v e) as (? & ? & ?); [rewrite Eq; by right|]. split; [done|].
    split; [|done]. intros [->%elem_of_singleton|?]%elem_of_union; [|done]. apply Hu, elem_of_map. by exists (u, e).
  - intros v [->%elem_of_singleton|Hin]%elem_of_union; [by eauto|by apply Hw].
  - intros v Hin. destruct (wk_enqueued _ Hw v Hin) as [?|Hq]; [left; set_solver|]. rewrite Eq in Hq. cbn in Hq.
    apply elem_of_cons in Hq as [->|?]; [left; set_solver|by right].
  - intros e He'. destruct (wk_edges _ Hw e He') as (x & id & ? & ? & ?). exists x, id. split; [set_solver|done].
  - destruct Hd as [Hd _]. pose proof (wk_deepest _ Hw). lia.
Qed.

Lemma turn_walking u d q w :
  walking w → queue w = (u, d) :: q → closed_but None w →
  let w' := turn l u d (set_queue q w) in
  walking w' ∧ closed_but None w' ∧ visited w' = {[u]} ∪ visited w ∧ (quiet w' → quiet w).
Proof.
  intros Hw Eq Hc. destruct (visit_walking u d q w Hw Eq) as (Hv & Hnew & Hd). cbn zeta. unfold turn.
  rewrite bool_decide_eq_false_2 by done. set (w1 := visit u d (set_queue q w)) in *.
  assert (Hc1 : closed_but (Some u) w1).
  { intros Hq x Hx Hne id Hid. assert (Hx' : x ∈ visited w) by (cbn in Hx; set_solver).
    exact (Hc Hq x Hx' ltac:(done) id Hid). }
  destruct (existsb (admits u) (neighbors u)) eqn:Ha.
  - destruct (Z.leb_spec (lim_depth l) d) as [Hle|Hlt].
    + split_and!; [split; cbn; apply Hv|by intros [? _]|done|by intros [? _]].
    + cbn [negb]. destruct (crosses u d (sorted_neighbors u) w1) as (I1 & I2 & I3 & I4 & I5 & I6 & I7);
        [done|cbn; set_solver|done|done|done|].
      split_and!; [done| |by rewrite I2|by auto].
      intros Hq x Hx _ id Hid. destruct (decide (x = u)) as [->|Hne].
      * destruct (I7 Hq id Hid) as [Hn Hr]. split; [done|]. intros He. apply Hr.
        pose proof (proj2 (wk_counts _ Hv)). lia.
      * rewrite I2 in Hx. destruct (Hc1 (I3 Hq) x Hx ltac:(congruence) id Hid) as [Hn Hr].
        split; [set_solver|]. intros He. apply I5, Hr. pose proof (proj2 (wk_counts _ Hv)). lia.
  - apply no_admitted in Ha. assert (Hc2 : closed_but None w1).
    { intros Hq x Hx _ id Hid. destruct (decide (x = u)) as [->|Hne].
      - rewrite Ha in Hid. by apply elem_of_nil in Hid.
      - exact (Hc1 Hq x Hx ltac:(congruence) id Hid). }
    destruct (lim_depth l <=? d); by split_and!.
Qed.

Lemma walk_walking fuel w :
  walking w → closed_but None w →
  let w' := walk_loop fuel l w in
  walking w' ∧ closed_but None w' ∧ visited w ⊆ visited w'
  ∧ (queue w' = [] ∨ count (visited w') = count (visited w) + Z.of_nat fuel).
Proof.
  revert w. induction fuel as [|f IH]; intros w Hw Hc; cbn [walk_loop].
  { split_and!; [done..|]. right. lia. }
  destruct (queue w) as [|[u d] q] eqn:Eq; [split_and!; auto|].
  destruct (turn_walking u d q w Hw Eq Hc) as (H1 & H2 & H3 & _).
  destruct (IH _ H1 H2) as (I1 & I2 & I3 & I4). split_and!; [done|done|set_solver|].
  destruct I4 as [?|I4]; [by left|right]. rewrite I4, H3. rewrite count_insert; [lia|].
  by apply (visit_walking u d q w Hw Eq).
Qed.

(** The loop ends before its fuel does. *)
Lemma walk_ends : walking (walk_from starts l) ∧ closed_but None (walk_from starts l) ∧ queue (walk_from starts l) = [].
Proof.
  assert (Hc : closed_but None (foldl (seed l) start_walk starts)).
  { intros _ u Hu. exfalso. assert (Hg : ∀ ss w, visited (foldl (seed l) w ss) = visited w).
    { induction ss as [|s ss IH]; intros w; cbn [foldl]; [done|]. rewrite IH. unfold seed. by repeat case_if. }
    rewrite Hg in Hu. cbn in Hu. set_solver. }
  destruct (walk_walking (Z.to_nat (lim_nodes l)) _ seeds_walking Hc) as (Hw & Hc' & _ & Hq).
  split; [done|]. split; [done|]. destruct Hq as [Hq|Hq]; [done|].
  set (w' := walk_loop _ _ _) in *. change (walk_from starts l) with w'.
  destruct (queue w') as [|[u d] q] eqn:Eq; [done|]. exfalso.
  destruct (wk_queued _ Hw u d) as (He & Hv & _); [rewrite Eq; by left|].
  assert (Hs : count ({[u]} ∪ visited w') ≤ count (enqueued w')).
  { unfold count. apply Nat2Z.inj_le, subseteq_size. intros x [->%elem_of_singleton|Hx]%elem_of_union; [done|].
    by apply (wk_visited _ Hw). }
  rewrite count_insert in Hs by done. pose proof (wk_size _ Hw). unfold count in Hq at 2. lia.
Qed.

End Walk.
End TraversalFacts.

(** * What the bounded walk promises *)

Import Order CodeEdges Traversal TraversalFacts.

#[local] Open Scope Z_scope.

Module TraversalProps.

Section Walk.
Context `{GraphIndex} (starts : list str) (l : TraversalLimits).
Hypothesis depth_nonneg : 0 ≤ lim_depth l.
Hypothesis nodes_nonneg : 0 ≤ lim_nodes l.

(** ** Following the search *)

(** The walk and the search hold the same queue and know the same nodes; the walk's depth
    and its depth cap are those of the nodes it visited. *)
Record following (w : Walk) (st : Bfs.Search str) : Prop := {
  fo_queue : queue w = Bfs.queue st;
  fo_known : ∀ v, v ∈ enqueued w ↔ is_Some (Bfs.depths st !! v);
  fo_visited : ∀ v, v ∈ visited w → ∃ d, Bfs.depths st !! v = Some d ∧ d ≤ deepest w;
  fo_deepest : deepest w = 0 ∨ ∃ v, v ∈ visited w ∧ Bfs.depths st !! v = Some (deepest w);
  fo_capped : depth_capped (stopped w) = true
    ↔ ∃ u, u ∈ visited w ∧ Bfs.depths st !! u = Some (lim_depth l) ∧ succ u ≠ [];
}.

Definition uncapped (w : Walk) : Prop := node_capped (stopped w) = false ∧ starts_dropped (stopped w) = 0.

(** Only what is known and queued, and nothing of the nodes visited, depends on a discovery. *)
Lemma discover_following w w' st v d :
  following w st →
  queue w' = (if bool_decide (v ∈ enqueued w) then queue w else queue w ++ [(v, d)]) →
  (∀ x, x ∈ enqueued w' ↔ x = v ∨ x ∈ enqueued w) →
  visited w' = visited w → deepest w' = deepest w → depth_capped (stopped w') = depth_capped (stopped w) →
  (∀ x, x ∈ visited w → x ∈ enqueued w) →
  following w' (Bfs.discover d st v).
Proof.
  intros Hf Eq Ee Ev Ed Ec Hsub.
  assert (Hs : ∀ x, x ∈ visited w → Bfs.depths (Bfs.discover d st v) !! x = Bfs.depths st !! x).
  { intros x Hx. destruct (proj1 (fo_known _ _ Hf x) (Hsub x Hx)) as [e He]. rewrite He. by apply Bfs.discover_mono. }
  split; rewrite ?Ev, ?Ed, ?Ec.
  - rewrite Eq, (fo_queue _ _ Hf). unfold Bfs.discover. case_bool_decide as Hv.
    + apply (fo_known _ _ Hf) in Hv as [e He]. by rewrite He.
    + destruct (Bfs.depths st !! v) eqn:E; [|done]. destruct Hv. apply (fo_known _ _ Hf). by rewrite E.
  - intros x. rewrite Ee, (fo_known _ _ Hf). unfold Bfs.discover. destruct (Bfs.depths st !! v) eqn:E.
    + split; [intros [->|?]; [by rewrite E|done]|by right].
    + cbn. destruct (decide (x = v)) as [->|Hne].
      * rewrite lookup_insert_eq. split; [done|by left].
      * rewrite lookup_insert_ne by done. split; [by intros [?|?]|by right].
  - intros x Hx. destruct (fo_visited _ _ Hf x Hx) as (e & He & ?). exists e. by rewrite Hs.
  - destruct (fo_deepest _ _ Hf) as [?|(x & Hx & He)]; [by left|right]. exists x. by rewrite Hs.
  - rewrite (fo_capped _ _ Hf). split; intros (u & Hu & He & Hn); exists u; (split; [done|]);
      [rewrite Hs by done|rewrite Hs in He by done]; done.
Qed.

Lemma cross_uncapped d id w : uncapped (cross l d w id) → uncapped w.
Proof.
  unfold cross. destruct (negb _ && _); [by intros [? _]|].
  destruct (record_fields l id w) as (_ & _ & _ & _ & _ & En & Es & _). unfold uncapped.
  case_bool_decide; cbn [enqueue stopped]; by rewrite En, Es.
Qed.

Lemma cross_following d id w st :
  following w st → (∀ x, x ∈ visited w → x ∈ enqueued w) → uncapped (cross l d w id) →
  following (cross l d w id) (Bfs.discover (d + 1) st (next_node id)).
Proof.
  intros Hf Hsub. unfold cross. destruct (negb _ && _); [by intros [? _]|]. intros _.
  destruct (record_fields l id w) as (Ev & Ee & Eq & Ed & Ec & _).
  destruct (decide (next_node id ∈ enqueued w)) as [Hin|Hin].
  - rewrite bool_decide_eq_true_2 by (by rewrite Ee). eapply discover_following; try done.
    + by rewrite bool_decide_eq_true_2.
    + intros x. rewrite Ee. split; [by right|by intros [->|?]].
  - rewrite bool_decide_eq_false_2 by (by rewrite Ee). eapply discover_following; cbn [enqueue queue enqueued visited deepest stopped]; try done.
    + by rewrite bool_decide_eq_false_2, Eq.
    + intros x. rewrite Ee. set_solver.
Qed.

Lemma crosses_following d ids w st :
  following w st → (∀ x, x ∈ visited w → x ∈ enqueued w) → uncapped (foldl (cross l d) w ids) →
  following (foldl (cross l d) w ids) (foldl (Bfs.discover (d + 1)) st (map next_node ids)).
Proof.
  revert w st. induction ids as [|id ids IH]; intros w st Hf Hsub Hu; cbn [foldl map]; [done|].
  assert (Hu' : uncapped (cross l d w id)).
  { cbn [foldl] in Hu. clear -Hu. revert Hu. generalize (cross l d w id). induction ids as [|i ids IH]; intros w' Hu; [done|].
    cbn [foldl] in Hu. by eapply cross_uncapped, IH. }
  apply IH; [by apply cross_following| |done]. rewrite cross_visited. intros x Hx.
  destruct (cross_grows l depth_nonneg nodes_nonneg d id w) as (_ & Hgrow & _). by apply Hgrow, Hsub.
Qed.

Lemma turn_uncapped u d w : uncapped (turn l u d w) → uncapped w.
Proof.
  unfold turn. case_bool_decide; [done|]. destruct (existsb _ _).
  - destruct (lim_depth l <=? d); [done|]. cbn [negb]. intros Hu.
    assert (Hg : ∀ ids w, uncapped (foldl (cross l d) w ids) → uncapped w).
    { induction ids as [|i ids IH]; intros w' Hu'; [done|]. by eapply cross_uncapped, IH. }
    by apply Hg in Hu.
  - by destruct (lim_depth l <=? d).
Qed.

Lemma visit_following u d q w m :
  walking starts l w → following w {| Bfs.queue := (u, d) :: q; Bfs.depths := m |} → m !! u = Some d →
  d < lim_depth l →
  following (visit u d (set_queue q w)) {| Bfs.queue := q; Bfs.depths := m |}.
Proof.
  intros Hw Hf Hu Hlt. split; cbn [visit set_queue queue enqueued visited deepest stopped Bfs.queue Bfs.depths]; [done| | | |].
  - apply (fo_known _ _ Hf).
  - intros v [->%elem_of_singleton|Hv]%elem_of_union; [exists d; split; [done|lia]|].
    destruct (fo_visited _ _ Hf v Hv) as (e & He & ?). exists e. cbn in He. split; [done|lia].
  - destruct (Z.max_spec (deepest w) d) as [[_ ->]|[_ ->]].
    + right. exists u. split; [set_solver|done].
    + destruct (fo_deepest _ _ Hf) as [?|(v & Hv & He)]; [by left|right]. exists v. split; [set_solver|done].
  - rewrite (fo_capped _ _ Hf). cbn [Bfs.depths]. split.
    + intros (v & Hv & ?). exists v. split; [set_solver|done].
    + intros (v & [->%elem_of_singleton|Hv]%elem_of_union & He & ?); [|by exists v]. rewrite Hu in He. injection He. lia.
Qed.

(** At the limit the walk stops, and says so when the node led on. *)
Lemma limit_following u d q w m :
  walking starts l w → following w {| Bfs.queue := (u, d) :: q; Bfs.depths := m |} → m !! u = Some d →
  d = lim_depth l →
  let w1 := visit u d (set_queue q w) in
  following (if existsb (admits u) (neighbors u) then cap_depth w1 else w1) {| Bfs.queue := q; Bfs.depths := m |}.
Proof.
  intros Hw Hf Hu Hd w1. destruct (existsb (admits u) (neighbors u)) eqn:Ha.
  all: split; cbn [w1 cap_depth set_stop visit set_queue queue enqueued visited deepest stopped Bfs.queue Bfs.depths depth_capped];
    [done|apply (fo_known _ _ Hf)| | |].
  all: try (intros v [->%elem_of_singleton|Hv]%elem_of_union; [exists d; split; [done|lia]|];
    destruct (fo_visited _ _ Hf v Hv) as (e & He & ?); exists e; cbn in He; split; [done|lia]).
  all: try (destruct (Z.max_spec (deepest w) d) as [[_ ->]|[_ ->]];
    [right; exists u; split; [set_solver|done]
    |destruct (fo_deepest _ _ Hf) as [?|(v & Hv & He)]; [by left|right]; exists v; split; [set_solver|done]]).
  - split; [intros _|done]. exists u. split; [set_solver|]. split; [by rewrite Hu, Hd|by apply admitted_some].
  - rewrite (fo_capped _ _ Hf). cbn [Bfs.depths]. split.
    + intros (v & Hv & ?). exists v. split; [set_solver|done].
    + intros (v & [->%elem_of_singleton|Hv]%elem_of_union & He & Hs); [|by exists v].
      apply admitted_some in Hs. congruence.
Qed.

Lemma turn_following u d q w m :
  walking starts l w → following w {| Bfs.queue := (u, d) :: q; Bfs.depths := m |} → m !! u = Some d →
  uncapped (turn l u d (set_queue q w)) →
  following (turn l u d (set_queue q w)) (Bfs.expand succ (lim_depth l) u d {| Bfs.queue := q; Bfs.depths := m |}).
Proof.
  intros Hw Hf Hu Huc. pose proof (fo_queue _ _ Hf) as Eq. cbn in Eq.
  destruct (visit_walking starts l depth_nonneg nodes_nonneg u d q w Hw Eq) as (_ & Hnew & [Hd _]).
  unfold turn, Bfs.expand in *. rewrite bool_decide_eq_false_2 in Huc |- * by done.
  destruct (Z.leb_spec (lim_depth l) d) as [Hle|Hlt]; [apply limit_following; [done..|lia]|].
  pose proof (visit_following u d q w m Hw Hf Hu Hlt) as Hv.
  destruct (existsb (admits u) (neighbors u)) eqn:Ha; cbn [negb] in *.
  - apply crosses_following; [done| |done]. intros x Hx. cbn in Hx |- *.
    apply elem_of_union in Hx as [->%elem_of_singleton|Hx]; [|by apply (wk_visited _ _ _ Hw)].
    by apply (wk_queued _ _ _ Hw u d); rewrite Eq; left.
  - apply no_admitted in Ha. unfold succ. by rewrite Ha.
Qed.

Lemma loop_following fuel w st :
  walking starts l w → closed_but None w → following w st → Bfs.searching succ (lim_depth l) starts st →
  uncapped (walk_loop fuel l w) →
  following (walk_loop fuel l w) (Bfs.search succ (lim_depth l) fuel st)
  ∧ Bfs.searching succ (lim_depth l) starts (Bfs.search succ (lim_depth l) fuel st).
Proof.
  revert w st. induction fuel as [|f IH]; intros w st Hw Hc Hf Hs Hu; cbn [walk_loop Bfs.search] in *; [done|].
  rewrite (fo_queue _ _ Hf) in *. destruct st as [[|[u d] q] m]; cbn [Bfs.queue] in *; [done|].
  pose proof (fo_queue _ _ Hf) as Eq. cbn in Eq.
  assert (Hm : m !! u = Some d) by (apply (Bfs.sr_queued _ _ _ _ Hs); by left).
  destruct (turn_walking starts l depth_nonneg nodes_nonneg u d q w Hw Eq Hc) as (H1 & H2 & _).
  assert (Hu' : uncapped (turn l u d (set_queue q w))).
  { clear -Hu. revert Hu. generalize (turn l u d (set_queue q w)). induction f as [|f IH]; intros w' Hu; [done|].
    cbn [walk_loop] in Hu. destruct (queue w') as [|[x e] q']; [done|].
    apply IH in Hu. apply turn_uncapped in Hu. done. }
  apply IH; [done|done|by apply turn_following|by apply Bfs.expand_searching|done].
Qed.

Lemma seed_following w st s :
  walking starts l w → following w st → visited w = ∅ → uncapped (seed l w s) →
  following (seed l w s) (Bfs.discover 0 st s).
Proof.
  intros Hw Hf Hv Hu. unfold seed in *. destruct (decide (s ∈ enqueued w)) as [Hin|Hin].
  - rewrite bool_decide_eq_true_2 in * by done. eapply discover_following; try done.
    + by rewrite bool_decide_eq_true_2.
    + intros x. split; [by right|by intros [->|?]].
    + rewrite Hv. set_solver.
  - rewrite bool_decide_eq_false_2 in * by done. destruct (Z.leb_spec (lim_nodes l) (count (enqueued w))) as [Hc|Hc].
    + destruct Hu as [_ Hu]. cbn in Hu. pose proof (wk_counts _ _ _ Hw). lia.
    + eapply discover_following; cbn [enqueue queue enqueued visited deepest stopped]; try done.
      * by rewrite bool_decide_eq_false_2.
      * intros x. set_solver.
      * rewrite Hv. set_solver.
Qed.

Lemma seed_uncapped w s : walking starts l w → uncapped (seed l w s) → uncapped w.
Proof.
  intros Hw. unfold seed. case_bool_decide; [done|]. case_if; [|done]. intros [? Hu]. cbn in *.
  pose proof (wk_counts _ _ _ Hw). lia.
Qed.

Lemma seed_visited w s : visited (seed l w s) = visited w.
Proof. unfold seed. by repeat case_if. Qed.

Lemma seeds_following ss w st :
  walking starts l w → following w st → visited w = ∅ → (∀ s, s ∈ ss → s ∈ starts) → uncapped (foldl (seed l) w ss) →
  following (foldl (seed l) w ss) (foldl (Bfs.discover 0) st ss).
Proof.
  revert w st. induction ss as [|s ss IH]; intros w st Hw Hf Hv Hs Hu; cbn [foldl] in *; [done|].
  assert (Hw' : walking starts l (seed l w s)) by (apply seed_walking; [done..|]; apply Hs; by left).
  assert (Hss : ∀ x, x ∈ ss → x ∈ starts) by (intros x Hx; apply Hs; by right).
  assert (Hu' : uncapped (seed l w s)).
  { clear -Hu Hw' Hss depth_nonneg nodes_nonneg. revert Hu Hw'. generalize (seed l w s).
    induction ss as [|x ss IH]; intros w' Hu Hw'; [done|]. cbn [foldl] in Hu. eapply seed_uncapped; [done|].
    apply IH; [|done|apply seed_walking; [done..|apply Hss; by left]]. intros y Hy. apply Hss. by right. }
  apply IH; [done|by apply seed_following|by rewrite seed_visited|done..].
Qed.

Lemma start_following : following start_walk {| Bfs.queue := []; Bfs.depths := ∅ |}.
Proof.
  split; cbn [start_walk queue enqueued visited deepest stopped Bfs.queue Bfs.depths depth_capped no_stop].
  - done.
  - intros v. rewrite lookup_empty. split; [set_solver|by intros [? ?]].
  - set_solver.
  - by left.
  - split; [done|]. intros (u & Hu & _). set_solver.
Qed.

(** An uncapped walk is the search, and both are finished. *)
Lemma walk_following :
  uncapped (walk_from starts l) →
  ∃ st, following (walk_from starts l) st ∧ Bfs.searching succ (lim_depth l) starts st ∧ Bfs.queue st = [].
Proof.
  intros Hu. pose proof (walk_ends starts l depth_nonneg nodes_nonneg) as (_ & _ & Hq).
  unfold walk_from in *. set (w0 := foldl (seed l) start_walk starts) in *.
  assert (Hw0 : walking starts l w0) by (by apply seeds_walking).
  assert (Hv0 : visited w0 = ∅).
  { assert (Hg : ∀ ss w, visited (foldl (seed l) w ss) = visited w).
    { induction ss as [|s ss IH]; intros w; cbn [foldl]; [done|]. by rewrite IH, seed_visited. }
    unfold w0. by rewrite Hg. }
  assert (Hc0 : closed_but None w0) by (intros _ u Hin; rewrite Hv0 in Hin; set_solver).
  assert (Hu0 : uncapped w0).
  { clear -Hu. revert Hu. generalize w0. induction (Z.to_nat (lim_nodes l)) as [|f IH]; intros w Hu; [done|].
    cbn [walk_loop] in Hu. destruct (queue w) as [|[x e] q]; [done|]. apply IH, turn_uncapped in Hu. done. }
  assert (Hf0 : following w0 (Bfs.start_search starts)).
  { apply seeds_following; [by apply start_walking|apply start_following|done|done|done]. }
  destruct (loop_following (Z.to_nat (lim_nodes l)) w0 (Bfs.start_search starts)) as [Hf Hs]; [done..|by apply Bfs.start_searching|done|].
  eexists. split; [exact Hf|]. split; [done|]. by rewrite <- (fo_queue _ _ Hf).
Qed.

(** ** Results *)

(** An edge the walk may cross, by its ends. *)
Definition crossable (u v : str) : Prop := ∃ id, id ∈ neighbors u ∧ admits u id = true ∧ v = next_node id.

Lemma step_crossable u v : Bfs.step succ u v ↔ crossable u v.
Proof. apply elem_of_succ. Qed.

Lemma reached_crossable n v : Bfs.reached_in succ starts n v ↔ ∃ s, s ∈ starts ∧ nsteps crossable n s v.
Proof.
  assert (Hn : ∀ s, nsteps (Bfs.step succ) n s v ↔ nsteps crossable n s v).
  { revert v. induction n as [|n IH]; intros v s; split; inversion 1; subst; try constructor;
      (econstructor; [by apply step_crossable|]); by apply (IH _ _). }
  unfold Bfs.reached_in. by setoid_rewrite Hn.
Qed.

Lemma visited_enqueued v : v ∈ visited (walk_from starts l) ↔ v ∈ enqueued (walk_from starts l).
Proof.
  destruct (walk_ends starts l depth_nonneg nodes_nonneg) as (Hw & _ & Hq). split.
  - intros Hv. by apply (wk_visited _ _ _ Hw) in Hv as [? _].
  - intros Hv. destruct (wk_enqueued _ _ _ Hw v Hv) as [?|Hin]; [done|]. rewrite Hq in Hin. by apply elem_of_nil in Hin.
Qed.

(** A walk that dropped no start and never met the node cap lists exactly the nodes within
    the depth limit, says how deep the deepest is, and says it was cut at the limit
    exactly when a node at the limit leads on. *)
Theorem walk_lists_what_is_near :
  let r := traverse_graph_indexed starts l in
  node_capped (stop r) = false → starts_dropped (stop r) = 0 →
  (∀ v, v ∈ visited_nodes r ↔ ∃ n, Z.of_nat n ≤ lim_depth l ∧ ∃ s, s ∈ starts ∧ nsteps crossable n s v)
  ∧ (∀ v, v ∈ visited_nodes r → ∃ d, Bfs.distance succ starts v d ∧ d ≤ max_depth_reached r)
  ∧ (starts ≠ [] → ∃ v, v ∈ visited_nodes r ∧ Bfs.distance succ starts v (max_depth_reached r))
  ∧ (depth_capped (stop r) = true
     ↔ ∃ u v, u ∈ visited_nodes r ∧ Bfs.distance succ starts u (lim_depth l) ∧ crossable u v).
Proof.
  cbn zeta. unfold traverse_graph_indexed. cbn [visited_nodes stop max_depth_reached]. intros Hn Hd.
  destruct walk_following as (st & Hf & Hs & Hq); [done|].
  pose proof (λ v d, Bfs.finished_search succ (lim_depth l) starts st v d Hs Hq depth_nonneg) as Hdist.
  assert (Hv : ∀ v, v ∈ visited (walk_from starts l) ↔ is_Some (Bfs.depths st !! v)).
  { intros v. rewrite visited_enqueued. apply (fo_known _ _ Hf). }
  split_and!.
  - intros v. rewrite Hv. split.
    + intros [d Hd']. destruct (Bfs.sr_sound _ _ _ _ Hs _ _ Hd') as (n & Hr & -> & Hle).
      exists n. split; [destruct Hle as [->|?]; lia|]. by apply reached_crossable.
    + intros (n & Hle & Hr). apply reached_crossable in Hr.
      destruct (Bfs.finished_distance succ _ _ st v Hs Hq depth_nonneg n Hr Hle) as (e & He & _). by exists e.
  - intros v Hin. destruct (fo_visited _ _ Hf v Hin) as (d & Hd' & ?). exists d. split; [by apply Hdist|done].
  - intros Hne. destruct (fo_deepest _ _ Hf) as [E|(v & Hin & Hd')].
    + destruct starts as [|s ss] eqn:Es; [done|]. exists s.
      assert (H0 : Bfs.depths st !! s = Some 0) by (apply (Bfs.sr_starts _ _ _ _ Hs); by left).
      split; [apply Hv; by rewrite H0|]. rewrite E. by apply Hdist.
    + exists v. split; [done|]. by apply Hdist.
  - rewrite (fo_capped _ _ Hf). split.
    + intros (u & Hin & Hd' & Hsucc). destruct (succ u) as [|v vs] eqn:E; [done|]. exists u, v.
      split; [done|]. split; [by apply Hdist|]. apply step_crossable. unfold Bfs.step. rewrite E. by left.
    + intros (u & v & Hin & Hd' & Huv). exists u. split; [done|]. split; [by apply Hdist|].
      intros E. apply step_crossable in Huv. unfold Bfs.step in Huv. rewrite E in Huv. by apply elem_of_nil in Huv.
Qed.

Lemma complete_walk :
  let r := traverse_graph_indexed starts l in
  is_incomplete (stop r) = false →
  (∀ v, v ∈ visited_nodes r ↔ ∃ s, s ∈ starts ∧ rtc crossable s v)
  ∧ (∀ e, e ∈ traversed_edges r
     ↔ ∃ u id, u ∈ visited_nodes r ∧ id ∈ neighbors u ∧ admits u id = true ∧ e = identity id).
Proof.
  cbn zeta. unfold traverse_graph_indexed, is_incomplete. cbn [visited_nodes stop traversed_edges].
  destruct (walk_ends starts l depth_nonneg nodes_nonneg) as (Hw & Hc & _). pose proof visited_enqueued as Hve.
  intros Hi. assert (Hdrop : uncapped (walk_from starts l) ∧ quiet (walk_from starts l)
    ∧ edges_unrecorded (stopped (walk_from starts l)) = 0).
  { rewrite !orb_false_iff, !Z.ltb_ge in Hi. destruct Hi as [[[? ?] ?] ?]. pose proof (wk_counts _ _ _ Hw).
    unfold uncapped, quiet. split_and!; lia || done. }
  destruct Hdrop as (Hu & Hq & He). destruct (walk_following Hu) as (st & Hf & Hs & _).
  set (w := walk_from starts l) in *.
  assert (Hclosed : ∀ u v, u ∈ visited w → crossable u v → v ∈ visited w).
  { intros u v Hin (id & Hid & Ha & ->). apply Hve. apply (Hc Hq u Hin ltac:(done)). by apply elem_of_sorted_neighbors. }
  split.
  - intros v. split.
    + intros Hv. destruct (wk_visited _ _ _ Hw v Hv) as (_ & d & _ & Hr). apply reached_crossable in Hr as (s & Hs' & Hp).
      exists s. split; [done|]. by eapply rtc_nsteps_2.
    + intros (s & Hs' & Hp).
      assert (Hv0 : s ∈ visited w) by (apply Hve, (fo_known _ _ Hf); rewrite (Bfs.sr_starts _ _ _ _ Hs s Hs'); done).
      clear Hs'. induction Hp as [s|s x v Hsx _ IH]; [done|]. by apply IH, (Hclosed s).
  - intros e. split.
    + intros Hin. destruct (wk_edges _ _ _ Hw e Hin) as (u & id & Hin' & [? ?]%elem_of_sorted_neighbors & ->). by exists u, id.
    + intros (u & id & Hin & Hid & Ha & ->). apply (Hc Hq u Hin ltac:(done)); [by apply elem_of_sorted_neighbors|done].
Qed.

(** A walk that does not call itself incomplete visited exactly the nodes that can be
    reached, however far, and recorded exactly the edges that may be crossed from them. *)
Theorem complete_walk_is_reachability :
  let r := traverse_graph_indexed starts l in
  is_incomplete (stop r) = false →
  (∀ v, v ∈ visited_nodes r ↔ ∃ s, s ∈ starts ∧ rtc crossable s v)
  ∧ (∀ e, e ∈ traversed_edges r
     ↔ ∃ u id, u ∈ visited_nodes r ∧ id ∈ neighbors u ∧ admits u id = true ∧ e = identity id).
Proof. exact complete_walk. Qed.

(** Every walk ends, within its caps, and what it lists is a part of the answer: nodes
    that can be reached in the depth it allows, and edges that may be crossed. *)
Theorem every_walk_is_a_lower_bound :
  let r := traverse_graph_indexed starts l in
  queue (walk_from starts l) = []
  ∧ count (visited_nodes r) ≤ lim_nodes l
  ∧ Z.of_nat (length (traversed_edges r)) ≤ Z.max 0 (lim_nodes l - 1)
  ∧ 0 ≤ max_depth_reached r ≤ lim_depth l
  ∧ (∀ v, v ∈ visited_nodes r → ∃ n, Z.of_nat n ≤ lim_depth l ∧ ∃ s, s ∈ starts ∧ nsteps crossable n s v)
  ∧ (∀ e, e ∈ traversed_edges r → ∃ u id,
       u ∈ visited_nodes r ∧ id ∈ neighbors u ∧ admits u id = true ∧ e = identity id).
Proof.
  cbn zeta. unfold traverse_graph_indexed. cbn [visited_nodes max_depth_reached traversed_edges].
  destruct (walk_ends starts l depth_nonneg nodes_nonneg) as (Hw & _ & Hq). split_and!.
  - done.
  - etrans; [|apply (wk_size _ _ _ Hw)]. unfold count. apply Nat2Z.inj_le, subseteq_size.
    intros v. by rewrite visited_enqueued.
  - apply Hw.
  - apply Hw.
  - apply Hw.
  - intros v Hv. destruct (wk_visited _ _ _ Hw v Hv) as (_ & d & Hd & Hr). apply reached_crossable in Hr.
    exists (Z.to_nat d). split; [lia|done].
  - intros e Hin. destruct (wk_edges _ _ _ Hw e Hin) as (u & id & ? & [? ?]%elem_of_sorted_neighbors & ?). by exists u, id.
Qed.

End Walk.

(** ** Over a slice of edges *)

Lemma adjacency_lookup rev ies m k :
  default [] (foldl (index_edge rev) m ies !! k)
  = default [] (m !! k) ++ map fst (List.filter (λ ie, bool_decide (endpoint rev ie.2 = k)) ies).
Proof.
  revert m. induction ies as [|ie ies IH]; intros m; cbn [foldl List.filter]; [by rewrite app_nil_r|].
  rewrite IH. unfold index_edge at 1. case_bool_decide as Hk.
  - rewrite Hk, lookup_insert_eq. cbn [from_option id map]. by rewrite <- app_assoc.
  - by rewrite lookup_insert_ne by done.
Qed.

Lemma elem_of_numbered edges id e : (id, e) ∈ numbered edges ↔ 0 ≤ id ∧ edges !! Z.to_nat id = Some e.
Proof.
  unfold numbered. rewrite elem_of_lookup_zip_with. split.
  - intros (i & x & y & [= -> ->] & Hx & Hy). apply lookup_seqZ in Hx as [-> Hi]. split; [lia|].
    by replace (Z.to_nat (0 + Z.of_nat i)) with i by lia.
  - intros [Hid He]. exists (Z.to_nat id), id, e. split_and!; [done| |done].
    apply lookup_seqZ. apply lookup_lt_Some in He. lia.
Qed.

Lemma adjacency_elem rev edges id u :
  id ∈ default [] (adjacency rev edges !! u)
  ↔ 0 ≤ id ∧ ∃ e, edges !! Z.to_nat id = Some e ∧ endpoint rev e = u.
Proof.
  unfold adjacency. rewrite adjacency_lookup, lookup_empty. cbn [from_option app]. rewrite elem_of_map. split.
  - intros ([i e] & -> & [Hin Hk%bool_decide_eq_true_1]%elem_of_filter_bool). cbn in *.
    apply elem_of_numbered in Hin as [? ?]. split; [done|]. by exists e.
  - intros (Hid & e & He & Hk). exists (id, e). split; [done|]. apply elem_of_filter_bool.
    split; [by apply elem_of_numbered|by apply bool_decide_eq_true_2].
Qed.

(** Which edges a walk follows, from a node on: against the edges, containment leads to no
    caller, and from a symbol neither do imports and membership. *)
Definition leads_on (rev : bool) (u : str) (k : EdgeKind) : Prop :=
  rev = true → k ≠ Contains ∧ k ≠ Defines ∧ (is_symbol_node u = true → k ≠ Imports ∧ k ≠ MemberOf).

Definition follows (edges : list ResolvedEdge) (rev : bool) (floor : option f32) (u v : str) : Prop :=
  ∃ e, e ∈ edges ∧ endpoint rev e = u ∧ endpoint (negb rev) e = v ∧ over_floor floor e = true
       ∧ leads_on rev u (edge_kind e).

Lemma admits_leads edges rev floor u id :
  @admits (AdjacencyIndex edges rev floor) u id = true
  ↔ over_floor floor (edge_at (addressable edges) id) = true ∧ leads_on rev u (edge_kind (edge_at (addressable edges) id)).
Proof.
  unfold admits, leads_on. cbn [index_admits reverse AdjacencyIndex edge view_of ev_kind].
  destruct (over_floor _ _); cbn [negb]; [|split; [done|by intros [? _]]].
  destruct rev; cbn [negb orb]; [|by split].
  destruct (edge_kind _), (is_symbol_node u); cbn.
  all: split; [intros Hx; first [discriminate Hx|split; [done|]; intros _; split_and!; done]|].
  all: intros [_ Hx]; try done; destruct (Hx eq_refl) as (? & ? & Hs); try done; by destruct (Hs eq_refl).
Qed.

Lemma crossable_follows edges rev floor u v :
  Z.of_nat (length edges) ≤ u32_max →
  @crossable (AdjacencyIndex edges rev floor) u v ↔ follows edges rev floor u v.
Proof.
  intros Hlen. assert (Ha : addressable edges = edges).
  { unfold addressable. destruct (Z.ltb_spec u32_max (Z.of_nat (length edges))); [lia|done]. }
  unfold crossable, follows. setoid_rewrite admits_leads. rewrite Ha.
  cbn [neighbors AdjacencyIndex]. rewrite Ha. setoid_rewrite adjacency_elem.
  assert (Hn : ∀ id, @next_node (AdjacencyIndex edges rev floor) id = endpoint (negb rev) (edge_at edges id)).
  { intros id. unfold next_node. cbn. rewrite Ha. by destruct rev. }
  setoid_rewrite Hn. split.
  - intros (id & (_ & e & He & Hu) & [Hf Hl] & ->). unfold edge_at in *. rewrite He in *. cbn in *.
    exists e. split_and!; try done. by eapply list_elem_of_lookup_2.
  - intros (e & (i & Hi)%list_elem_of_lookup_1 & Hu & <- & Hf & Hl). exists (Z.of_nat i).
    unfold edge_at. rewrite Nat2Z.id, Hi. cbn. split_and!; try done; [lia|by exists e].
Qed.

(** An edge as the answer lists it. *)
Definition listed (e : ResolvedEdge) : EdgeIdentity :=
  {| ei_source := source_symbol e; ei_target := target_symbol e; ei_kind := kind_debug (edge_kind e); ei_line := 0; ei_col := 0 |}.

Lemma crossed_listed edges rev floor u x :
  Z.of_nat (length edges) ≤ u32_max →
  (∃ id, id ∈ @neighbors (AdjacencyIndex edges rev floor) u ∧ @admits (AdjacencyIndex edges rev floor) u id = true
     ∧ x = @identity (AdjacencyIndex edges rev floor) id)
  ↔ ∃ e, e ∈ edges ∧ endpoint rev e = u ∧ over_floor floor e = true ∧ leads_on rev u (edge_kind e) ∧ x = listed e.
Proof.
  intros Hlen. assert (Ha : addressable edges = edges).
  { unfold addressable. destruct (Z.ltb_spec u32_max (Z.of_nat (length edges))); [lia|done]. }
  setoid_rewrite admits_leads. rewrite Ha. cbn [neighbors AdjacencyIndex]. rewrite Ha. setoid_rewrite adjacency_elem. split.
  - intros (id & (_ & e & He & Hu) & [Hf Hl] & ->). exists e. unfold identity. cbn [edge kind_label AdjacencyIndex]. rewrite Ha.
    unfold edge_at in *. rewrite He in *. split; [by eapply list_elem_of_lookup_2|]. done.
  - intros (e & (i & Hi)%list_elem_of_lookup_1 & Hu & Hf & Hl & ->). exists (Z.of_nat i).
    unfold identity. cbn [edge kind_label AdjacencyIndex]. rewrite Ha. unfold edge_at. rewrite Nat2Z.id, Hi.
    split; [split; [lia|by exists e]|]. done.
Qed.

(** C30. Over the edges of a graph, a walk that does not call itself incomplete answers "what
    depends on this", or "what does this depend on", exactly: it visits what a chain of
    edges leads to from a start, all of them at or above the floor; and it lists, under
    their own ends and kinds, exactly the edges at or above the floor that lead on from a
    node it visited. *)
Theorem complete_answer_is_exact starts edges rev floor l :
  Z.of_nat (length edges) ≤ u32_max → 0 ≤ lim_depth l → 0 ≤ lim_nodes l →
  let r := @traverse_graph_indexed (AdjacencyIndex edges rev floor) starts l in
  is_incomplete (stop r) = false →
  (∀ v, v ∈ visited_nodes r ↔ ∃ s, s ∈ starts ∧ rtc (follows edges rev floor) s v)
  ∧ ∀ x, x ∈ traversed_edges r ↔
      ∃ e, e ∈ edges ∧ endpoint rev e ∈ visited_nodes r ∧ over_floor floor e = true
        ∧ leads_on rev (endpoint rev e) (edge_kind e) ∧ x = listed e.
Proof.
  cbn zeta. intros Hlen Hd Hn Hi.
  destruct (@complete_walk (AdjacencyIndex edges rev floor) starts l Hd Hn Hi) as [Hv He]. split.
  - intros v. rewrite Hv. split; intros (s & Hs & Hp); exists s; (split; [done|]); (eapply rtc_subrel; [|exact Hp]); intros x y;
      by apply crossable_follows.
  - intros x. rewrite He. split.
    + intros (u & id & Hu & Hx). destruct (proj1 (crossed_listed edges rev floor u x Hlen)) as (e & ? & <- & ? & ? & ?); [by exists id|]. by exists e.
    + intros (e & Hin & Hu & Hf & Hl & ->).
      destruct (proj2 (crossed_listed edges rev floor (endpoint rev e) (listed e) Hlen)) as (id & ?); [by exists e|]. by exists (endpoint rev e), id.
Qed.

(** ** The callers of [d] in the chain of the crate's tests *)

Module Sample.

Definition index : GraphIndex := AdjacencyIndex Tests.chain true None.
Definition starts : list str := [lit "d"; lit "d"].
Definition wide : TraversalLimits := {| lim_depth := 10; lim_nodes := 20 |}.
Definition shallow : TraversalLimits := {| lim_depth := 2; lim_nodes := 20 |}.
Definition narrow : TraversalLimits := {| lim_depth := 10; lim_nodes := 2 |}.

End Sample.

Import Sample.

Lemma walk_lists_what_is_near_witness :
  let r := @traverse_graph_indexed index starts shallow in
  (sort_strs (elements (visited_nodes r)) = [lit "b"; lit "c"; lit "d"] ∧ depth_capped (stop r) = true)
  ∧ ∀ v, v ∈ visited_nodes r ↔ ∃ n, Z.of_nat n ≤ 2 ∧ ∃ s, s ∈ starts ∧ nsteps (@crossable index) n s v.
Proof.
  split; [by vm_compute|].
  apply (@walk_lists_what_is_near index starts shallow); [cbn; lia|cbn; lia|by vm_compute|by vm_compute].
Defined.

Lemma complete_walk_is_reachability_witness :
  let r := @traverse_graph_indexed index starts wide in
  length (traversed_edges r) = 3%nat
  ∧ ∀ v, v ∈ visited_nodes r ↔ ∃ s, s ∈ starts ∧ rtc (@crossable index) s v.
Proof.
  split; [by vm_compute|].
  apply (@complete_walk_is_reachability index starts wide); [cbn; lia|cbn; lia|by vm_compute].
Defined.

Lemma every_walk_is_a_lower_bound_witness :
  let r := @traverse_graph_indexed index starts narrow in
  is_incomplete (stop r) = true ∧ count (visited_nodes r) ≤ 2.
Proof.
  split; [by vm_compute|].
  apply (@every_walk_is_a_lower_bound index starts narrow); cbn; lia.
Defined.

Lemma complete_answer_is_exact_witness :
  let r := @traverse_graph_indexed (AdjacencyIndex Tests.chain true (Some MEDIUM)) starts wide in
  sort_strs (elements (visited_nodes r)) = [lit "a"; lit "b"; lit "c"; lit "d"] ∧ length (traversed_edges r) = 3%nat
  ∧ (∀ v, v ∈ visited_nodes r ↔ ∃ s, s ∈ starts ∧ rtc (follows Tests.chain true (Some MEDIUM)) s v)
  ∧ listed (Tests.test_edge "b" "c" Calls) ∈ traversed_edges r.
Proof.
  split; [by vm_compute|]. split; [by vm_compute|].
  destruct (complete_answer_is_exact starts Tests.chain true (Some MEDIUM) wide) as [Hv He];
    [vm_compute; discriminate|cbn; lia|cbn; lia|by vm_compute|]. split; [exact Hv|].
  apply He. exists (Tests.test_edge "b" "c" Calls). split; [right; left|]. split; [by vm_compute|]. split; [by vm_compute|]. split; [|done].
  intros _. split_and!; done.
Defined.

End TraversalProps.
