(* ===== verification/Tarjan.v ===== *)
(** * Strongly connected components ([rust/devmap-analyze/src/dead_clusters.rs])

    [strongly_connected_components], Tarjan's algorithm with its recursion made explicit:
    the call stack holds a node and the position in its adjacency list. Both stacks are
    kept top first. A node is a position in the vectors, and its index an [u32]. *)

From S2P Require Import Prelude.

#[local] Open Scope Z_scope.

Module Tarjan.

Definition UNVISITED : Z := u32_max.

Record Search := {
  index : list Z;
  lowlink : list Z;
  on_stack : list bool;
  stack : list nat;
  components : list (list nat);
  next_index : Z;
  call_stack : list (nat * nat);
}.

Section Scc.
Variable adjacency : list (list nat).

Definition size : nat := length adjacency.

Definition start_search : Search :=
  {| index := replicate size UNVISITED; lowlink := replicate size 0; on_stack := replicate size false;
     stack := []; components := []; next_index := 0; call_stack := [] |}.

(** The reads [v[i]]; every node of the walk is in range. *)
Definition look (l : list Z) (v : nat) : Z := default 0 (l !! v).
Definition flag (l : list bool) (v : nat) : bool := default false (l !! v).
Definition children (v : nat) : list nat := default [] (adjacency !! v).

(** A node seen for the first time goes on both stacks. *)
Definition enter (v : nat) (st : Search) : Search :=
  {| index := <[v := next_index st]> (index st); lowlink := <[v := next_index st]> (lowlink st);
     on_stack := <[v := true]> (on_stack st); stack := v :: stack st; components := components st;
     next_index := next_index st + 1; call_stack := (v, O) :: call_stack st |}.

Definition set_calls (cs : list (nat * nat)) (st : Search) : Search :=
  {| index := index st; lowlink := lowlink st; on_stack := on_stack st; stack := stack st;
     components := components st; next_index := next_index st; call_stack := cs |}.

Definition lower (v : nat) (z : Z) (st : Search) : Search :=
  {| index := index st; lowlink := <[v := Z.min (look (lowlink st) v) z]> (lowlink st); on_stack := on_stack st;
     stack := stack st; components := components st; next_index := next_index st; call_stack := call_stack st |}.

(** The loop that pops a component: what it popped, what stays, and the flags. *)
Fixpoint pop_until (node : nat) (st : list nat) (flags : list bool) : list nat * list nat * list bool :=
  match st with
  | [] => ([], [], flags)
  | member :: rest =>
      let flags := <[member := false]> flags in
      if (member =? node)%nat then ([member], rest, flags)
      else let '(popped, rest, flags) := pop_until node rest flags in (member :: popped, rest, flags)
  end.

Definition emit (node : nat) (st : Search) : Search :=
  let '(component, rest, flags) := pop_until node (stack st) (on_stack st) in
  {| index := index st; lowlink := lowlink st; on_stack := flags; stack := rest;
     components := components st ++ [component]; next_index := next_index st; call_stack := call_stack st |}.

(** A node whose children are exhausted. *)
Definition close (node : nat) (cs : list (nat * nat)) (st : Search) : Search :=
  let st := set_calls cs st in
  let st := match cs with (parent, _) :: _ => lower parent (look (lowlink st) node) st | [] => st end in
  if look (lowlink st) node =? look (index st) node then emit node st else st.

Definition turn (node pos : nat) (cs : list (nat * nat)) (st : Search) : Search :=
  match children node !! pos with
  | Some child =>
      let st := set_calls ((node, S pos) :: cs) st in
      if look (index st) child =? UNVISITED then enter child st
      else if flag (on_stack st) child then lower node (look (index st) child) st
      else st
  | None => close node cs st
  end.

Fixpoint search (fuel : nat) (st : Search) : Search :=
  match fuel with
  | O => st
  | S f =>
      match call_stack st with
      | [] => st
      | (node, pos) :: cs => search f (turn node pos cs st)
      end
  end.

(** A turn for each node and each edge. *)
Definition turns : nat := (size + sum_list_with length adjacency)%nat.

Definition from_root (st : Search) (root : nat) : Search :=
  if negb (look (index st) root =? UNVISITED) then st else search turns (enter root st).

Definition strongly_connected_components : list (list nat) :=
  components (foldl from_root start_search (seq 0 size)).

End Scc.

Example two_cycles :
  strongly_connected_components [[1]; [2; 3]; [0]; [4]; [3]; [5]; []]%nat = [[4; 3]; [2; 1; 0]; [5]; [6]]%nat.
Proof. by vm_compute. Qed.

End Tarjan.
