(* ===== verification/TarjanProps.v ===== *)
(** * The invariant of the search for components

    The stack is cut into segments, one for each node of the call stack: the node, and
    above it the nodes finished since it was entered. [segment] says what is known of the
    edges of a segment, [shape] what the vectors hold; a component is a segment whose
    node has its own index as its lowlink. *)

From stdpp Require Import relations.
From S2P Require Import Prelude Tarjan.
Import Tarjan.

#[local] Open Scope Z_scope.

Module TarjanFacts.

Lemma look_insert l v w z : (v < length l)%nat → look (<[v := z]> l) w = if (v =? w)%nat then z else look l w.
Proof.
  intros Hv. unfold look. destruct (Nat.eqb_spec v w) as [->|Hne].
  - by rewrite list_lookup_insert_eq.
  - by rewrite list_lookup_insert_ne.
Qed.

Lemma mem_concat {A} (x : A) ls : x ∈ concat ls ↔ ∃ l, x ∈ l ∧ l ∈ ls.
Proof.
  rewrite list_elem_of_In, in_concat. split; intros (l & H1 & H2); exists l; rewrite !list_elem_of_In in *; done.
Qed.

Lemma flag_insert l v w b : (v < length l)%nat → flag (<[v := b]> l) w = if (v =? w)%nat then b else flag l w.
Proof.
  intros Hv. unfold flag. destruct (Nat.eqb_spec v w) as [->|Hne].
  - by rewrite list_lookup_insert_eq.
  - by rewrite list_lookup_insert_ne.
Qed.

Section Scc.
Context (adjacency : list (list nat)).

Definition edge (u v : nat) : Prop := v ∈ children adjacency u.
Definition reach : nat → nat → Prop := rtc edge.

Hypothesis in_range : ∀ u v, edge u v → (v < size adjacency)%nat.
Hypothesis addressable : Z.of_nat (size adjacency) ≤ u32_max.

Abbreviation idx st := (look (index st)).
Abbreviation low st := (look (lowlink st)).

Definition seen (st : Search) : list nat := stack st ++ concat (components st).

(** ** The invariant *)

Definition connected (c : list nat) : Prop := c ≠ [] ∧ ∀ u v, u ∈ c → v ∈ c → reach u v.

(** Every edge out of a component goes to one before it. *)
Definition ordered (cs : list (list nat)) : Prop :=
  ∀ l1 c l2, cs = l1 ++ c :: l2 → ∀ u v, u ∈ c → edge u v → v ∈ c ∨ v ∈ concat l1.

Record shape (st : Search) : Prop := {
  sh_lengths : length (index st) = size adjacency ∧ length (lowlink st) = size adjacency
               ∧ length (on_stack st) = size adjacency;
  sh_nodup : NoDup (seen st);
  sh_seen : ∀ v, v ∈ seen st ↔ (v < size adjacency)%nat ∧ idx st v ≠ UNVISITED;
  sh_next : next_index st = Z.of_nat (length (seen st));
  sh_index : ∀ v, v ∈ seen st → 0 ≤ idx st v < next_index st;
  sh_sorted : StronglySorted (λ a b, idx st b < idx st a) (stack st);
  sh_flags : ∀ v, flag (on_stack st) v = true ↔ v ∈ stack st;
  sh_low : ∀ v, v ∈ stack st → low st v ≤ idx st v ∧ ∃ w, w ∈ stack st ∧ idx st w = low st v ∧ reach v w;
  sh_connected : ∀ c, c ∈ components st → connected c;
  sh_ordered : ordered (components st);
}.

(** A processed edge from the segment of [c] to [y]. *)
Definition covers (st : Search) (c y : nat) : Prop :=
  y ∈ seen st ∧ (y ∈ stack st → low st c ≤ idx st y).

Record segment (st : Search) (c p : nat) (seg : list nat) : Prop := {
  sg_finished : ∀ x, x ∈ seg → reach c x ∧ low st x < idx st x;
  sg_edges : ∀ x y, x ∈ seg → edge x y → covers st c y;
  sg_done : ∀ y, y ∈ take p (children adjacency c) → covers st c y;
}.

Inductive segments (st : Search) : list (nat * nat) → list nat → Prop :=
  | segments_nil : segments st [] []
  | segments_cons c p cs seg s :
      segment st c p seg → segments st cs s →
      (∀ d q cs', cs = (d, q) :: cs' → edge d c) →
      segments st ((c, p) :: cs) (seg ++ c :: s).

Definition invariant (st : Search) : Prop := shape st ∧ segments st (call_stack st) (stack st).

Lemma segments_inv st c p cs s :
  segments st ((c, p) :: cs) s →
  ∃ seg s', s = seg ++ c :: s' ∧ segment st c p seg ∧ segments st cs s'
    ∧ (∀ d q cs', cs = (d, q) :: cs' → edge d c).
Proof. inversion 1; subst. eauto 10. Qed.

(** A segment looks at nothing but the indices and lowlinks of its part of the stack, and
    at what its edges reach. *)
Lemma segments_ext st st' cs s :
  segments st cs s →
  (∀ x, x ∈ s → low st' x = low st x ∧ idx st' x = idx st x) →
  (∀ c y, c ∈ s → covers st c y → covers st' c y) →
  segments st' cs s.
Proof.
  induction 1 as [|c p cs seg s [Hf He Hd] _ IH Hc]; intros Heq Hcov; [constructor|]. constructor; [| |done].
  - assert (c ∈ seg ++ c :: s) by (apply elem_of_app; right; by left). split.
    + intros x Hx. destruct (Heq x) as [-> ->]; [apply elem_of_app; by left|]. by apply Hf.
    + intros x y Hx Hxy. apply Hcov; [done|]. by eapply He.
    + intros y Hy. apply Hcov; [done|]. by apply Hd.
  - apply IH.
    + intros x Hx. apply Heq, elem_of_app. right. by right.
    + intros d y Hd'. apply Hcov, elem_of_app. right. by right.
Qed.

(** ** Facts of the shape *)

Lemma unseen st v : shape st → (v < size adjacency)%nat → idx st v = UNVISITED → v ∉ seen st.
Proof. intros Hs Hv Hi [_ Hn]%(sh_seen _ Hs). done. Qed.

Lemma length_seen st v : shape st → (v < size adjacency)%nat → v ∉ seen st → (length (seen st) < size adjacency)%nat.
Proof.
  intros Hs Hv Hn. assert (Hnd : NoDup (v :: seen st)) by (constructor; [done|apply Hs]).
  apply NoDup_submseteq with (k := seq 0 (size adjacency)) in Hnd.
  - apply submseteq_length in Hnd. cbn in Hnd. rewrite length_seq in Hnd. lia.
  - intros x [->|Hx]%elem_of_cons; apply elem_of_seq; [lia|]. apply (sh_seen _ Hs) in Hx as [? _]. lia.
Qed.

Lemma stack_seen st v : v ∈ stack st → v ∈ seen st.
Proof. intros Hv. apply elem_of_app. by left. Qed.

Lemma sorted_app (st : Search) s1 s2 :
  StronglySorted (λ a b, idx st b < idx st a) (s1 ++ s2) →
  StronglySorted (λ a b, idx st b < idx st a) s2 ∧ ∀ a b, a ∈ s1 → b ∈ s2 → idx st b < idx st a.
Proof.
  induction s1 as [|x s1 IH]; cbn [app].
  { intros Hs. split; [done|]. intros a b Ha. by apply elem_of_nil in Ha. }
  intros [Hs Hx]%StronglySorted_inv. rewrite Forall_forall in Hx. destruct (IH Hs) as [H2 H12]. split; [done|].
  intros a b [->|Ha]%elem_of_cons Hb; [|by apply H12]. apply Hx, elem_of_app. by right.
Qed.

(** ** Entering a node *)

Lemma enter_look st v x :
  shape st → (v < size adjacency)%nat →
  idx (enter v st) x = (if (v =? x)%nat then next_index st else idx st x)
  ∧ low (enter v st) x = (if (v =? x)%nat then next_index st else low st x)
  ∧ flag (on_stack (enter v st)) x = (if (v =? x)%nat then true else flag (on_stack st) x).
Proof.
  intros Hs Hv. destruct (sh_lengths _ Hs) as (H1 & H2 & H3). cbn [enter index lowlink on_stack].
  rewrite !look_insert, flag_insert by lia. done.
Qed.

Lemma enter_old st v x :
  shape st → (v < size adjacency)%nat → v ∉ seen st → x ∈ seen st →
  idx (enter v st) x = idx st x ∧ low (enter v st) x = low st x.
Proof.
  intros Hs Hv Hn Hx. destruct (enter_look st v x Hs Hv) as (-> & -> & _).
  assert (v ≠ x) by (intros ->; done). by destruct (Nat.eqb_spec v x).
Qed.

Lemma enter_shape st v :
  shape st → (v < size adjacency)%nat → idx st v = UNVISITED → shape (enter v st).
Proof.
  intros Hs Hv Hi. pose proof (unseen st v Hs Hv Hi) as Hn. pose proof (length_seen st v Hs Hv Hn) as Hlen.
  pose proof (λ x, enter_look st v x Hs Hv) as Hl. pose proof (λ x, enter_old st v x Hs Hv Hn) as Ho.
  assert (Hself : idx (enter v st) v = next_index st ∧ low (enter v st) v = next_index st).
  { destruct (Hl v) as (-> & -> & _). by rewrite Nat.eqb_refl. }
  assert (Hseen : seen (enter v st) = v :: seen st) by done.
  destruct (sh_lengths _ Hs) as (H1 & H2 & H3). pose proof (sh_next _ Hs) as Hnext. split.
  - cbn [enter index lowlink on_stack]. rewrite !length_insert. done.
  - rewrite Hseen. constructor; [done|apply Hs].
  - intros x. rewrite Hseen, elem_of_cons, (sh_seen _ Hs). destruct (Hl x) as (-> & _).
    destruct (Nat.eqb_spec v x) as [->|Hne]; [|split; [by intros [->|?]|by right]].
    split; [intros _|by left]. split; [done|]. unfold UNVISITED. lia.
  - rewrite Hseen. cbn [enter next_index length]. lia.
  - intros x. rewrite Hseen. cbn [enter next_index]. intros [->|Hx]%elem_of_cons.
    + destruct Hself as [-> _]. lia.
    + destruct (Ho x Hx) as [-> _]. pose proof (sh_index _ Hs x Hx). lia.
  - cbn [enter stack]. constructor.
    + assert (Hg : ∀ s, (∀ x, x ∈ s → x ∈ seen st) → StronglySorted (λ a b, idx st b < idx st a) s →
        StronglySorted (λ a b, idx (enter v st) b < idx (enter v st) a) s).
      { intros s Hsub. induction 1 as [|a s Hss IH Ha]; constructor.
        - apply IH. intros x Hx. apply Hsub. by right.
        - rewrite Forall_forall in Ha |- *. intros x Hx. destruct (Ho x) as [-> _]; [apply Hsub; by right|].
          destruct (Ho a) as [-> _]; [apply Hsub; by left|]. by apply Ha. }
      apply Hg; [intros x; apply stack_seen|apply Hs].
    + apply Forall_forall. intros x Hx%stack_seen. destruct Hself as [-> _]. destruct (Ho x Hx) as [-> _].
      apply (sh_index _ Hs x Hx).
  - intros x. destruct (Hl x) as (_ & _ & ->). cbn [enter stack]. rewrite elem_of_cons, <- (sh_flags _ Hs).
    destruct (Nat.eqb_spec v x) as [->|Hne]; [by split; [left|]|]. split; [by right|by intros [->|?]].
  - cbn [enter stack]. intros x [->|Hx]%elem_of_cons.
    + destruct Hself as [Ei El]. rewrite Ei, El. split; [lia|]. exists v. by split; [left|].
    + destruct (Ho x (stack_seen _ _ Hx)) as [-> ->]. destruct (sh_low _ Hs x Hx) as (? & w & Hw & Ew & ?).
      split; [done|]. exists w. split; [by right|]. by destruct (Ho w (stack_seen _ _ Hw)) as [-> _].
  - apply Hs.
  - apply Hs.
Qed.

Lemma enter_covers st v c y :
  shape st → (v < size adjacency)%nat → v ∉ seen st → c ∈ stack st → covers st c y → covers (enter v st) c y.
Proof.
  intros Hs Hv Hn Hc [Hy Hl]. split; [cbn; by right|]. cbn [enter stack].
  destruct (enter_old st v y Hs Hv Hn Hy) as [-> _]. destruct (enter_old st v c Hs Hv Hn (stack_seen _ _ Hc)) as [_ ->].
  intros [->|?]%elem_of_cons; [done|by apply Hl].
Qed.

(** The vectors of a state do not change with its call stack. *)
Lemma shape_calls st cs : shape st → shape (set_calls cs st).
Proof. intros Hs. split; apply Hs. Qed.

Lemma segments_calls st cs cs' s : segments st cs s → segments (set_calls cs' st) cs s.
Proof. intros Hs. eapply segments_ext; [exact Hs|done|done]. Qed.

Lemma take_S_elem {A} (l : list A) p x y : l !! p = Some x → y ∈ take (S p) l → y ∈ take p l ∨ y = x.
Proof. intros Hx. rewrite (take_S_r _ _ _ Hx), elem_of_app, list_elem_of_singleton. done. Qed.

Lemma enter_child st node pos cs child :
  invariant st → call_stack st = (node, pos) :: cs → children adjacency node !! pos = Some child →
  idx st child = UNVISITED →
  invariant (enter child (set_calls ((node, S pos) :: cs) st)).
Proof.
  intros [Hs Hg] Ec Hchild Hi. rewrite Ec in Hg. apply segments_inv in Hg as (seg & s & Est & Hseg & Hrest & Hedge).
  assert (Hnc : edge node child) by (by eapply list_elem_of_lookup_2). pose proof (in_range _ _ Hnc) as Hv.
  pose proof (unseen st child Hs Hv Hi) as Hn. set (st1 := set_calls ((node, S pos) :: cs) st).
  assert (Hs1 : shape st1) by (by apply shape_calls).
  assert (Hnode : node ∈ stack st) by (rewrite Est; apply elem_of_app; right; by left).
  split; [by apply enter_shape|]. change (call_stack (enter child st1)) with ((child, O) :: (node, S pos) :: cs).
  change (stack (enter child st1)) with ([] ++ child :: stack st). rewrite Est.
  constructor; [split; [intros x Hx|intros x y Hx|intros y Hx]; by apply elem_of_nil in Hx| |].
  - pose proof (λ c y Hc, enter_covers st1 child c y Hs1 Hv Hn Hc) as Hcov. change (stack st1) with (stack st) in Hcov.
    constructor; [| |done].
    + destruct Hseg as [Hf He Hd]. split.
      * intros x Hx. assert (x ∈ seen st1) by (apply elem_of_app; left; change (stack st1) with (stack st); rewrite Est;
          apply elem_of_app; by left). destruct (enter_old st1 child x Hs1 Hv Hn) as [-> ->]; [done|]. by apply Hf.
      * intros x y Hx Hxy. apply Hcov; [done|]. by eapply He.
      * intros y Hy. destruct (take_S_elem _ _ _ _ Hchild Hy) as [?| ->]; [by apply Hcov, Hd|].
        split; [cbn; by left|]. intros _. destruct (enter_look st1 child child Hs1 Hv) as (-> & _).
        rewrite Nat.eqb_refl. destruct (enter_old st1 child node Hs1 Hv Hn (stack_seen _ _ Hnode)) as [_ ->].
        change (low st1 node) with (low st node). change (next_index st1) with (next_index st).
        pose proof (proj1 (sh_low _ Hs node Hnode)). pose proof (sh_index _ Hs node (stack_seen _ _ Hnode)). lia.
    + eapply segments_ext; [exact Hrest| |].
      * intros x Hx. assert (x ∈ seen st1) by (apply elem_of_app; left; change (stack st1) with (stack st); rewrite Est;
          apply elem_of_app; right; by right). destruct (enter_old st1 child x Hs1 Hv Hn) as [-> ->]; done.
      * intros c y Hc Hcy. apply Hcov; [rewrite Est; apply elem_of_app; right; by right|done].
  - intros d q cs' [= <- <- <-]. done.
Qed.

(** ** An edge to a node already seen *)

Lemma lower_look st v z x :
  shape st → (v < size adjacency)%nat →
  low (lower v z st) x = if (v =? x)%nat then Z.min (low st v) z else low st x.
Proof. intros Hs Hv. destruct (sh_lengths _ Hs) as (_ & H2 & _). cbn [lower lowlink]. by rewrite look_insert by lia. Qed.

Lemma lower_shape st v z :
  shape st → v ∈ stack st → (∃ w, w ∈ stack st ∧ idx st w = z ∧ reach v w) → shape (lower v z st).
Proof.
  intros Hs Hv (w & Hw & Ew & Hr). assert (Hv' : (v < size adjacency)%nat) by (by apply (sh_seen _ Hs), stack_seen).
  split; try apply Hs.
  - destruct (sh_lengths _ Hs) as (? & ? & ?). cbn [lower index lowlink on_stack]. by rewrite length_insert.
  - intros x Hx. change (stack (lower v z st)) with (stack st) in *. change (index (lower v z st)) with (index st).
    rewrite lower_look by done. destruct (sh_low _ Hs x Hx) as (Hle & w' & Hw' & Ew' & Hr').
    destruct (Nat.eqb_spec v x) as [<-|Hne]; [|eauto]. split; [lia|].
    destruct (Z.min_spec (low st v) z) as [[_ ->]|[_ ->]]; eauto.
Qed.

Lemma lower_covers st v z c y :
  shape st → (v < size adjacency)%nat → covers st c y → covers (lower v z st) c y.
Proof.
  intros Hs Hv [Hy Hl]. split; [done|]. intros Hin. specialize (Hl Hin). change (index (lower v z st)) with (index st).
  rewrite lower_look by done. destruct (Nat.eqb_spec v c) as [<-|]; lia.
Qed.

(** Lowering the top of the call stack, or leaving it, keeps its segments when the edge is
    covered. *)
Lemma advance st st' node pos cs child :
  invariant st → call_stack st = (node, pos) :: cs → children adjacency node !! pos = Some child →
  shape st' → call_stack st' = (node, S pos) :: cs → stack st' = stack st → index st' = index st →
  (∀ x, x ≠ node → low st' x = low st x) → (∀ c y, covers st c y → covers st' c y) → covers st' node child →
  invariant st'.
Proof.
  intros [Hs Hg] Ec Hchild Hs' Ec' Est' Ei Hlow Hcov Hnew. split; [done|]. rewrite Ec', Est'.
  rewrite Ec in Hg. apply segments_inv in Hg as (seg & s & Est & [Hf He Hd] & Hrest & Hedge). rewrite Est.
  pose proof (sh_nodup _ Hs) as Hnd. unfold seen in Hnd. rewrite Est, <- app_assoc in Hnd. cbn [app] in Hnd.
  apply NoDup_app in Hnd as (_ & Hdis & Hnd). apply NoDup_cons in Hnd as [Hnode _].
  constructor; [| |done].
  - split.
    + intros x Hx. rewrite Hlow, Ei; [by apply Hf|]. intros ->. by apply (Hdis _ Hx); left.
    + intros x y Hx Hxy. apply Hcov. by eapply He.
    + intros y Hy. destruct (take_S_elem _ _ _ _ Hchild Hy) as [?| ->]; [by apply Hcov, Hd|done].
  - eapply segments_ext; [exact Hrest| |auto]. intros x Hx. rewrite Hlow, Ei; [done|]. intros ->.
    apply Hnode, elem_of_app. by left.
Qed.

Lemma visit_child st node pos cs child :
  invariant st → call_stack st = (node, pos) :: cs → children adjacency node !! pos = Some child →
  idx st child ≠ UNVISITED →
  let st1 := set_calls ((node, S pos) :: cs) st in
  invariant (if flag (on_stack st) child then lower node (idx st child) st1 else st1).
Proof.
  intros Hi Ec Hchild Hv st1. destruct Hi as [Hs Hg].
  assert (Hnc : edge node child) by (by eapply list_elem_of_lookup_2). pose proof (in_range _ _ Hnc) as Hlt.
  assert (Hseen : child ∈ seen st) by (by apply (sh_seen _ Hs)).
  assert (Hs1 : shape st1) by (by apply shape_calls).
  assert (Hnode : node ∈ stack st).
  { rewrite Ec in Hg. apply segments_inv in Hg as (seg & s & -> & _). apply elem_of_app. right. by left. }
  assert (Hn : (node < size adjacency)%nat) by (by apply (sh_seen _ Hs), stack_seen).
  destruct (flag (on_stack st) child) eqn:Hf.
  - apply (sh_flags _ Hs) in Hf. eapply advance; [split; [exact Hs|exact Hg]|done|done| |done..| | |].
    + apply lower_shape; [done|done|]. exists child. split; [done|]. split; [done|]. by apply rtc_once.
    + intros x Hx. rewrite lower_look by done. by destruct (Nat.eqb_spec node x).
    + intros c y Hcy. by apply (lower_covers st1).
    + split; [done|]. intros _. rewrite lower_look by done. rewrite Nat.eqb_refl.
      change (index (lower node (idx st child) st1)) with (index st). lia.
  - eapply advance; [split; [exact Hs|exact Hg]|done|done|done|done..|]. split; [done|].
    intros Hin. apply (sh_flags _ Hs) in Hin. congruence.
Qed.

(** ** Closing a node *)

Lemma pop_until_spec node seg s flags :
  node ∉ seg → (∀ x, x ∈ seg ++ [node] → (x < length flags)%nat) →
  ∃ flags', pop_until node (seg ++ node :: s) flags = (seg ++ [node], s, flags')
    ∧ length flags' = length flags
    ∧ ∀ x, flag flags' x = if bool_decide (x ∈ seg ++ [node]) then false else flag flags x.
Proof.
  revert flags. induction seg as [|y seg IH]; intros flags Hn Hr; cbn [app pop_until].
  - rewrite Nat.eqb_refl. eexists. split; [done|]. split; [apply length_insert|]. intros x.
    rewrite flag_insert by (apply Hr; by left). destruct (Nat.eqb_spec node x) as [<-|Hne].
    + by rewrite bool_decide_eq_true_2 by (by left).
    + rewrite bool_decide_eq_false_2; [done|]. by intros ->%list_elem_of_singleton.
  - apply not_elem_of_cons in Hn as [Hy Hn]. destruct (Nat.eqb_spec y node) as [->|_]; [done|].
    destruct (IH (<[y := false]> flags)) as (flags' & -> & Hlen & Hf).
    + done.
    + intros x Hx. rewrite length_insert. apply Hr. by right.
    + eexists. split; [done|]. split; [by rewrite Hlen, length_insert|]. intros x. rewrite Hf.
      rewrite flag_insert by (apply Hr; by left). destruct (decide (x ∈ seg ++ [node])) as [Hx|Hx].
      * by rewrite !bool_decide_eq_true_2 by (done || by right).
      * rewrite (bool_decide_eq_false_2 (x ∈ seg ++ [node])) by done. destruct (Nat.eqb_spec y x) as [<-|Hne].
        -- by rewrite bool_decide_eq_true_2 by (by left).
        -- rewrite bool_decide_eq_false_2; [done|]. intros [->|?]%elem_of_cons; done.
Qed.

Section Close.
Context (st : Search) (node pos : nat) (seg s : list nat) (cs : list (nat * nat)).
Hypothesis Hs : shape st.
Hypothesis Hstack : stack st = seg ++ node :: s.
Hypothesis Hseg : segment st node pos seg.
Hypothesis Hdone : children adjacency node !! pos = None.

Lemma all_done y : edge node y → covers st node y.
Proof.
  intros Hy. apply (sg_done _ _ _ _ Hseg). rewrite take_ge; [done|]. by apply lookup_ge_None_1.
Qed.

Lemma members_covered x y : x ∈ seg ++ [node] → edge x y → covers st node y.
Proof.
  intros [Hx| ->%list_elem_of_singleton]%elem_of_app; [by apply (sg_edges _ _ _ _ Hseg)|apply all_done].
Qed.

Lemma members_above x y : x ∈ seg ++ [node] → y ∈ s → idx st y < idx st x.
Proof.
  pose proof (sh_sorted _ Hs) as Hsort. rewrite Hstack in Hsort.
  replace (seg ++ node :: s) with ((seg ++ [node]) ++ s) in Hsort by (by rewrite <- app_assoc).
  apply sorted_app in Hsort as [_ Hlt]. by apply Hlt.
Qed.

Lemma on_stack_split x : x ∈ stack st ↔ x ∈ seg ++ [node] ∨ x ∈ s.
Proof. rewrite Hstack, !elem_of_app, elem_of_cons, list_elem_of_singleton. tauto. Qed.

Lemma node_on_stack : node ∈ stack st.
Proof. rewrite on_stack_split. left. apply elem_of_app. right. by left. Qed.

(** [node] is the lowest of its segment. *)
Hypothesis Hroot : low st node = idx st node.

Lemma members_closed x y : x ∈ seg ++ [node] → edge x y → y ∈ seg ++ [node] ∨ y ∈ concat (components st).
Proof.
  intros Hx Hxy. destruct (members_covered x y Hx Hxy) as [Hy Hl].
  apply elem_of_app in Hy as [Hy|Hy]; [left|by right]. specialize (Hl Hy).
  apply on_stack_split in Hy as [?|Hy]; [done|]. rewrite Hroot in Hl.
  assert (idx st y < idx st node) by (apply members_above; [apply elem_of_app; right; by left|done]). lia.
Qed.

Lemma components_closed x y : x ∈ concat (components st) → edge x y → y ∈ concat (components st).
Proof.
  intros (c & Hxc & Hc)%mem_concat Hxy. apply list_elem_of_split in Hc as (l1 & l2 & E).
  destruct (sh_ordered _ Hs l1 c l2 E x y Hxc Hxy) as [Hy|Hy]; rewrite E, concat_app; cbn [concat];
    rewrite !elem_of_app; auto.
Qed.

Lemma members_reach x y : reach x y → x ∈ seg ++ [node] ∨ x ∈ concat (components st) →
  y ∈ seg ++ [node] ∨ y ∈ concat (components st).
Proof.
  induction 1 as [|x z y Hxz _ IH]; [done|]. intros [Hx|Hx]; apply IH.
  - by eapply members_closed.
  - right. by eapply components_closed.
Qed.

Lemma member_back x : x ∈ seg ++ [node] → reach x node.
Proof.
  remember (Z.to_nat (idx st x)) as k eqn:Ek. revert x Ek.
  induction k as [k IH] using lt_wf_ind. intros x Ek Hx.
  apply elem_of_app in Hx as [Hx| ->%list_elem_of_singleton]; [|constructor].
  assert (Hst : x ∈ stack st) by (rewrite on_stack_split; left; apply elem_of_app; by left).
  destruct (sh_low _ Hs x Hst) as (_ & w & Hw & Ew & Hxw). destruct (sg_finished _ _ _ _ Hseg x Hx) as [_ Hlt].
  assert (Hin : w ∈ seg ++ [node]).
  { destruct (members_reach x w Hxw) as [?|Hc]; [left; apply elem_of_app; by left|done|].
    pose proof (sh_nodup _ Hs) as Hnd. apply NoDup_app in Hnd as (_ & Hdis & _). by destruct (Hdis w). }
  etrans; [exact Hxw|]. apply (IH (Z.to_nat (idx st w))); [|done|done].
  pose proof (sh_index _ Hs x (stack_seen _ _ Hst)). pose proof (sh_index _ Hs w (stack_seen _ _ Hw)). lia.
Qed.

Lemma members_connected : connected (seg ++ [node]).
Proof.
  split; [by destruct seg|]. intros u v Hu Hv. etrans; [by apply member_back|].
  apply elem_of_app in Hv as [Hv| ->%list_elem_of_singleton]; [|constructor]. by apply (sg_finished _ _ _ _ Hseg).
Qed.

Lemma emit_eq :
  ∃ flags, emit node st = {| index := index st; lowlink := lowlink st; on_stack := flags; stack := s;
      components := components st ++ [seg ++ [node]]; next_index := next_index st; call_stack := call_stack st |}
    ∧ length flags = size adjacency ∧ ∀ x, flag flags x = true ↔ x ∈ s.
Proof.
  pose proof (sh_nodup _ Hs) as Hnd. unfold seen in Hnd. rewrite Hstack in Hnd.
  apply NoDup_app in Hnd as (Hnd & _). replace (seg ++ node :: s) with ((seg ++ [node]) ++ s) in Hnd by (by rewrite <- app_assoc).
  apply NoDup_app in Hnd as (Hnd & Hdis & _).
  destruct (pop_until_spec node seg s (on_stack st)) as (flags & E & Hlen & Hf).
  - apply NoDup_app in Hnd as (_ & Hd & _). intros Hin. by apply (Hd _ Hin); left.
  - intros x Hx. destruct (sh_lengths _ Hs) as (_ & _ & ->). apply (sh_seen _ Hs), stack_seen, on_stack_split. by left.
  - exists flags. unfold emit. rewrite Hstack, E. split; [done|]. split; [rewrite Hlen; apply Hs|].
    intros x. rewrite Hf. case_bool_decide as Hx.
    + split; [done|]. intros Hin. by destruct (Hdis x).
    + rewrite (sh_flags _ Hs), on_stack_split. tauto.
Qed.

Lemma emit_invariant :
  segments st cs s → call_stack st = cs → invariant (emit node st).
Proof.
  intros Hrest Ec. destruct emit_eq as (flags & -> & Hlen & Hf). set (st' := {| index := _ |}).
  assert (Hperm : seen st' ≡ₚ seen st).
  { unfold seen. rewrite Hstack. cbn [st' stack components]. rewrite concat_app. cbn [concat]. rewrite app_nil_r.
    rewrite <- app_assoc. cbn [app]. rewrite (Permutation_app_comm (concat _)), app_assoc.
    rewrite (Permutation_app_comm s). rewrite <- !app_assoc. done. }
  assert (Hin : ∀ x, x ∈ seen st' ↔ x ∈ seen st) by (intros x; by rewrite Hperm).
  split; [|change (stack st') with s; rewrite <- Ec in Hrest; eapply segments_ext; [exact Hrest|done|]].
  - split.
    + destruct (sh_lengths _ Hs) as (? & ? & _). done.
    + rewrite Hperm. apply Hs.
    + intros x. rewrite Hin. apply Hs.
    + rewrite Hperm. apply Hs.
    + intros x Hx. apply Hin in Hx. by apply (sh_index _ Hs).
    + pose proof (sh_sorted _ Hs) as Hsort. rewrite Hstack in Hsort.
      replace (seg ++ node :: s) with ((seg ++ [node]) ++ s) in Hsort by (by rewrite <- app_assoc).
      by apply sorted_app in Hsort as [? _].
    + done.
    + intros x Hx. cbn [st' stack] in Hx. assert (Hst : x ∈ stack st) by (rewrite on_stack_split; by right).
      destruct (sh_low _ Hs x Hst) as (Hle & w & Hw & Ew & Hr). split; [done|]. exists w. split; [|done].
      apply on_stack_split in Hw as [Hw|Hw]; [|done]. pose proof (members_above w x Hw Hx). cbn in *. lia.
    + intros c [Hc| ->%list_elem_of_singleton]%elem_of_app; [by apply Hs|apply members_connected].
    + intros l1 c l2 E u v Hu Huv. cbn [st' components] in E. destruct l2 as [|x l2 _] using rev_ind.
      * apply app_inj_tail in E as [<- <-]. by eapply members_closed.
      * rewrite app_comm_cons, app_assoc in E. apply app_inj_tail in E as [E _].
        by eapply (sh_ordered _ Hs).
  - intros c y Hc [Hy Hl]. split; [by apply Hin|]. intros Hys. apply Hl. rewrite on_stack_split. by right.
Qed.

End Close.

Lemma close_invariant st node pos cs :
  invariant st → call_stack st = (node, pos) :: cs → children adjacency node !! pos = None →
  invariant (close node cs st).
Proof.
  intros [Hs Hg] Ec Hdone. rewrite Ec in Hg. apply segments_inv in Hg as (seg & s & Est & Hseg & Hrest & Hedge).
  assert (Hnode : node ∈ stack st) by (rewrite Est; apply elem_of_app; right; by left).
  assert (Hlt : (node < size adjacency)%nat) by (by apply (sh_seen _ Hs), stack_seen).
  set (st1 := set_calls cs st). assert (Hs1 : shape st1) by (by apply shape_calls).
  assert (Hseg1 : segment st1 node pos seg) by (destruct Hseg; by split).
  unfold close. fold st1. destruct cs as [|[parent q] cs'].
  - inversion Hrest; subst s.
    assert (Hroot : low st1 node = idx st1 node).
    { destruct (sh_low _ Hs node Hnode) as (Hle & w & Hw & Ew & _). change (low st node = idx st node).
      apply (on_stack_split st node seg []) in Hw as [Hw|Hw]; [|by apply elem_of_nil in Hw|done].
      apply elem_of_app in Hw as [Hw| ->%list_elem_of_singleton]; [|done].
      pose proof (sh_sorted _ Hs) as Hsort. rewrite Est in Hsort. apply sorted_app in Hsort as [_ Hab].
      specialize (Hab w node Hw ltac:(by left)). lia. }
    rewrite Hroot, Z.eqb_refl. eapply emit_invariant; [done|exact Est|done|done|done| |done]. constructor.
  - set (st2 := lower parent (low st1 node) st1).
    destruct (segments_inv _ _ _ _ _ Hrest) as (seg' & s' & Es & Hseg' & Hrest' & Hedge').
    assert (Hpar : parent ∈ s) by (rewrite Es; apply elem_of_app; right; by left).
    assert (Hpst : parent ∈ stack st) by (rewrite Est; apply elem_of_app; right; by right).
    assert (Hplt : (parent < size adjacency)%nat) by (by apply (sh_seen _ Hs), stack_seen).
    assert (Hpn : edge parent node) by (by eapply Hedge).
    assert (Hidx : idx st parent < idx st node).
    { pose proof (sh_sorted _ Hs) as Hsort. rewrite Est in Hsort. apply sorted_app in Hsort as [Hsort _].
      apply StronglySorted_inv in Hsort as [_ Ha]. rewrite Forall_forall in Ha. by apply Ha. }
    pose proof (sh_nodup _ Hs) as Hnd. unfold seen in Hnd. rewrite Est in Hnd. apply NoDup_app in Hnd as (Hnd & _ & _).
    assert (Hother : ∀ x, x ≠ parent → low st2 x = low st x).
    { intros x Hx. unfold st2. rewrite lower_look by done. by destruct (Nat.eqb_spec parent x). }
    assert (Hself : low st2 parent = Z.min (low st parent) (low st node)).
    { unfold st2. rewrite lower_look by done. by rewrite Nat.eqb_refl. }
    assert (Hcov : ∀ c y, covers st c y → covers st2 c y) by (intros c y Hcy; by apply (lower_covers st1)).
    assert (Hne : node ≠ parent) by (intros ->; lia).
    destruct (sh_low _ Hs node Hnode) as (Hle & w & Hw & Ew & Hr).
    assert (Hs2 : shape st2).
    { apply lower_shape; [done|done|]. exists w. split; [done|]. split; [done|]. by eapply rtc_l. }
    assert (Hidx2 : index st2 = index st) by done.
    rewrite Hother by done. destruct (Z.eqb_spec (low st node) (idx st2 node)) as [Hroot|Hroot]; rewrite Hidx2 in Hroot.
    + assert (Hsame : ∀ x, low st2 x = low st x).
      { intros x. destruct (decide (x = parent)) as [->|Hx]; [|by apply Hother]. rewrite Hself.
        pose proof (proj1 (sh_low _ Hs parent Hpst)). lia. }
      eapply (emit_invariant st2 node pos seg s); [done|exact Est| |done| | |done].
      * destruct Hseg as [Hf He Hd]. split; [|by eauto|by eauto]. intros x Hx. rewrite Hsame. by apply Hf.
      * by rewrite Hsame.
      * eapply segments_ext; [exact Hrest| |by eauto]. intros x _. by rewrite Hsame.
    + split; [done|]. change (call_stack st2) with ((parent, q) :: cs'). change (stack st2) with (stack st).
      rewrite Est, Es. replace (seg ++ node :: seg' ++ parent :: s') with ((seg ++ node :: seg') ++ parent :: s')
        by (by rewrite <- app_assoc). rewrite Es in Hnd.
      assert (Hnp : ∀ x, x ∈ seg ++ node :: seg' ∨ x ∈ s' → x ≠ parent).
      { intros x Hx ->. replace (seg ++ node :: seg' ++ parent :: s') with ((seg ++ node :: seg') ++ parent :: s') in Hnd
          by (by rewrite <- app_assoc). apply NoDup_app in Hnd as (_ & Hdis & Hnd). apply NoDup_cons in Hnd as [Hnd _].
        destruct Hx as [Hx|Hx]; [by apply (Hdis _ Hx); left|done]. }
      assert (Hmore : ∀ y, covers st node y → covers st2 parent y).
      { intros y [Hy Hl]. split; [done|]. intros Hin. rewrite Hself, Hidx2. specialize (Hl Hin). lia. }
      assert (Hdn : ∀ y, edge node y → covers st node y).
      { intros y Hy. apply (sg_done _ _ _ _ Hseg). rewrite take_ge; [done|]. by apply lookup_ge_None_1. }
      constructor; [|eapply segments_ext; [exact Hrest'| |by eauto]|done].
      * split.
        -- intros x Hx. rewrite Hother by (apply Hnp; by left). rewrite Hidx2.
           apply elem_of_app in Hx as [Hx|[->|Hx]%elem_of_cons].
           ++ destruct (sg_finished _ _ _ _ Hseg x Hx). split; [by eapply rtc_l|done].
           ++ split; [by apply rtc_once|lia].
           ++ by apply (sg_finished _ _ _ _ Hseg').
        -- intros x y Hx Hxy. apply elem_of_app in Hx as [Hx|[->|Hx]%elem_of_cons].
           ++ apply Hmore. by eapply (sg_edges _ _ _ _ Hseg).
           ++ by apply Hmore, Hdn.
           ++ apply Hcov. by eapply (sg_edges _ _ _ _ Hseg').
        -- intros y Hy. by apply Hcov, (sg_done _ _ _ _ Hseg').
      * intros x Hx. rewrite Hother by (apply Hnp; by right). done.
Qed.

Lemma turn_invariant st node pos cs :
  invariant st → call_stack st = (node, pos) :: cs → invariant (turn adjacency node pos cs st).
Proof.
  intros Hi Ec. unfold turn. destruct (children adjacency node !! pos) as [child|] eqn:Hc.
  - cbn [set_calls index on_stack]. destruct (Z.eqb_spec (look (index st) child) UNVISITED) as [Hu|Hu].
    + by apply enter_child.
    + by eapply visit_child.
  - by eapply close_invariant.
Qed.

End Scc.
End TarjanFacts.

(** * The strongly connected components are the components

    The search ends within its turns: [work] counts the nodes and edges it has not looked
    at, and every turn lowers it. When it ends its stacks are empty, so that the
    components hold every node, and the invariant says the rest. *)

Import Tarjan TarjanFacts.

#[local] Open Scope nat_scope.

Module TarjanProps.

(** ** Sums over the nodes *)

Lemma sum_ext {A} (f g : A → nat) l : (∀ x, x ∈ l → f x = g x) → sum_list_with f l = sum_list_with g l.
Proof.
  induction l as [|x l IH]; intros H; cbn [sum_list_with]; [done|]. rewrite (H x) by (by left).
  rewrite IH; [done|]. intros y Hy. apply H. by right.
Qed.

Lemma sum_le {A} (f g : A → nat) l : (∀ x, x ∈ l → f x ≤ g x) → sum_list_with f l ≤ sum_list_with g l.
Proof.
  induction l as [|x l IH]; intros H; cbn [sum_list_with]; [done|]. pose proof (H x ltac:(by left)).
  assert (sum_list_with f l ≤ sum_list_with g l) by (apply IH; intros y Hy; apply H; by right). lia.
Qed.

Lemma sum_update (f g : nat → nat) v l :
  NoDup l → v ∈ l → g v = 0 → (∀ x, x ≠ v → g x = f x) → sum_list_with f l = f v + sum_list_with g l.
Proof.
  intros Hnd Hv H0 Hne. induction Hnd as [|x l Hx Hnd IH]; [by apply elem_of_nil in Hv|].
  cbn [sum_list_with]. apply elem_of_cons in Hv as [<-|Hv].
  - rewrite H0. cbn [Nat.add]. f_equal. apply sum_ext. intros y Hy. rewrite Hne; [done|]. by intros ->.
  - rewrite IH, Hne by (done || by intros ->). lia.
Qed.

Section Scc.
Context (adjacency : list (list nat)).

Abbreviation edge := (edge adjacency).
Abbreviation reach := (reach adjacency).
Abbreviation idx st := (look (index st)).

Hypothesis in_range : ∀ u v, edge u v → (v < size adjacency).
Hypothesis addressable : (Z.of_nat (size adjacency) ≤ u32_max)%Z.

(** ** Termination *)

Definition degree (v : nat) : nat := length (children adjacency v).
Definition waiting (st : Search) (v : nat) : nat := if (idx st v =? UNVISITED)%Z then S (degree v) else 0.
Definition open (c : nat * nat) : nat := S (degree c.1 - c.2).

Definition work (st : Search) : nat :=
  sum_list_with (waiting st) (seq 0 (size adjacency)) + sum_list_with open (call_stack st).

Lemma enter_work st v :
  shape adjacency st → v < size adjacency → idx st v = UNVISITED → work (enter v st) = work st.
Proof.
  intros Hs Hv Hi. pose proof (enter_shape adjacency addressable st v Hs Hv Hi) as Hs'.
  assert (Hnew : idx (enter v st) v ≠ UNVISITED) by (apply (sh_seen _ _ Hs'); by left).
  unfold work. cbn [enter call_stack sum_list_with]. unfold open at 1. cbn [fst snd]. rewrite Nat.sub_0_r.
  rewrite (sum_update (waiting st) (waiting (enter v st)) v).
  - assert (Hwait : waiting st v = S (degree v)) by (unfold waiting; by rewrite Hi). lia.
  - apply NoDup_seq.
  - apply elem_of_seq. lia.
  - unfold waiting. by destruct (Z.eqb_spec (idx (enter v st) v) UNVISITED).
  - intros x Hx. unfold waiting. destruct (enter_look adjacency st v x Hs Hv) as (-> & _).
    by destruct (Nat.eqb_spec v x).
Qed.

Lemma emit_keeps st node : index (emit node st) = index st ∧ call_stack (emit node st) = call_stack st.
Proof. unfold emit. by destruct (pop_until _ _ _) as [[? ?] ?]. Qed.

Lemma close_keeps node cs st : index (close node cs st) = index st ∧ call_stack (close node cs st) = cs.
Proof.
  unfold close. destruct cs as [|[p q] cs]; case_if; rewrite ?(proj1 (emit_keeps _ _)), ?(proj2 (emit_keeps _ _)); done.
Qed.

Lemma index_work st st' : index st' = index st → work st' + sum_list_with open (call_stack st)
  = work st + sum_list_with open (call_stack st').
Proof. intros E. unfold work, waiting. rewrite E. lia. Qed.

Lemma turn_work st node pos cs :
  invariant adjacency st → call_stack st = (node, pos) :: cs →
  (work (turn adjacency node pos cs st) < work st) ∧ ∀ v, idx st v ≠ UNVISITED → v ∈ seen st →
    v ∈ seen (turn adjacency node pos cs st).
Proof.
  intros Hi Ec. pose proof Hi as [Hs _]. pose proof (turn_invariant adjacency in_range addressable _ _ _ _ Hi Ec) as [Hs' _].
  assert (Hopen : ∀ child, children adjacency node !! pos = Some child → open (node, S pos) < open (node, pos)).
  { intros child Hc%lookup_lt_Some. unfold open, degree. cbn [fst snd]. lia. }
  assert (Hsame : ∀ st', index st' = index st → shape adjacency st' → ∀ v, v ∈ seen st → v ∈ seen st').
  { intros st' Ei Hs2 v Hv. apply (sh_seen _ _ Hs2). rewrite Ei. by apply (sh_seen _ _ Hs). }
  unfold turn in *. destruct (children adjacency node !! pos) as [child|] eqn:Hc.
  - set (st1 := set_calls ((node, S pos) :: cs) st) in *.
    assert (Hw : work st1 < work st).
    { pose proof (index_work st st1 eq_refl) as E. rewrite Ec in E. cbn [st1 set_calls call_stack sum_list_with] in E.
      pose proof (Hopen _ eq_refl). lia. }
    cbn [set_calls index on_stack] in *. change (index st1) with (index st) in *.
    change (on_stack st1) with (on_stack st) in *.
    destruct (Z.eqb_spec (idx st child) UNVISITED) as [Hu|Hu].
    + assert (Hlt : child < size adjacency) by (eapply in_range, list_elem_of_lookup_2, Hc).
      rewrite enter_work; [|by apply shape_calls|done|done]. split; [done|]. intros v _ Hv. by right.
    + case_if; (split; [|intros v _ Hv; by eapply Hsame]); [|done].
      pose proof (index_work st1 (lower node (idx st child) st1) eq_refl) as E.
      change (call_stack (lower _ _ _)) with (call_stack st1) in E. lia.
  - destruct (close_keeps node cs st) as [Ei Ecs]. split; [|intros v _ Hv; by eapply Hsame].
    pose proof (index_work st (close node cs st) Ei) as E. rewrite Ec, Ecs in E. cbn [sum_list_with] in E.
    unfold open in E at 1. cbn [fst snd] in E. lia.
Qed.

Lemma search_finishes fuel st :
  invariant adjacency st → work st ≤ fuel →
  invariant adjacency (search adjacency fuel st) ∧ call_stack (search adjacency fuel st) = []
  ∧ ∀ v, v ∈ seen st → v ∈ seen (search adjacency fuel st).
Proof.
  revert st. induction fuel as [|f IH]; intros st Hi Hw; cbn [search]; (destruct (call_stack st) as [|[node pos] cs] eqn:Ec; [done|]).
  - unfold work in Hw. rewrite Ec in Hw. cbn [sum_list_with] in Hw. unfold open in Hw at 1. lia.
  - destruct (turn_work _ _ _ _ Hi Ec) as [Hlt Hseen].
    destruct (IH (turn adjacency node pos cs st)) as (H1 & H2 & H3);
      [by apply turn_invariant|lia|]. split; [done|]. split; [done|]. intros v Hv. apply H3, Hseen; [|done].
    by apply (sh_seen _ _ (proj1 Hi)).
Qed.

Lemma turns_enough st : call_stack st = [] → work st ≤ turns adjacency.
Proof.
  intros Ec. unfold work, turns. rewrite Ec. cbn [sum_list_with]. rewrite Nat.add_0_r.
  etrans; [apply (sum_le _ (λ v, S (degree v)))|].
  - intros v _. unfold waiting. case_if; lia.
  - unfold degree, size, children. clear. induction adjacency as [|l ls IH] using rev_ind; [done|].
    rewrite length_app, seq_app, !sum_list_with_app. cbn [length seq sum_list_with Nat.add].
    rewrite list_lookup_middle by done. cbn [from_option id].
    rewrite (sum_ext _ (λ v, S (length (default [] (ls !! v))))); [cbn in *; lia|].
    intros x Hx%elem_of_seq. by rewrite lookup_app_l by lia.
Qed.

(** ** The walk over the roots *)

Record walked (k : nat) (st : Search) : Prop := {
  wk_invariant : invariant adjacency st;
  wk_idle : call_stack st = [];
  wk_roots : ∀ v, v < k → v ∈ seen st;
}.

Lemma walked_stack k st : walked k st → stack st = [].
Proof. intros [[_ Hg] Ec _]. rewrite Ec in Hg. by inversion Hg. Qed.

Lemma start_walked : walked 0 (start_search adjacency).
Proof.
  assert (Hidx : ∀ v, v < size adjacency → idx (start_search adjacency) v = UNVISITED).
  { intros v Hv. unfold look. cbn [start_search index]. by rewrite lookup_replicate_2. }
  split; [|done|lia]. split; [|constructor]. split; cbn [start_search stack components seen concat app]; try done.
  - cbn [start_search index lowlink on_stack]. by rewrite !length_replicate.
  - constructor.
  - intros v. split; [by intros ?%elem_of_nil|]. intros [Hv Hn]. by rewrite Hidx in Hn.
  - intros v Hv. by apply elem_of_nil in Hv.
  - constructor.
  - intros v. split; [|by intros ?%elem_of_nil]. unfold flag. cbn [start_search on_stack].
    destruct (decide (v < size adjacency)).
    + by rewrite lookup_replicate_2.
    + rewrite lookup_ge_None_2; [done|]. rewrite length_replicate. lia.
  - intros v Hv. by apply elem_of_nil in Hv.
  - intros c Hc. by apply elem_of_nil in Hc.
  - intros l1 c l2 E. by destruct l1.
Qed.

Lemma from_root_walked k st : k < size adjacency → walked k st → walked (S k) (from_root adjacency st k).
Proof.
  intros Hk Hw. pose proof Hw as [Hi Ec Hr]. pose proof Hi as [Hs Hg]. unfold from_root.
  destruct (Z.eqb_spec (idx st k) UNVISITED) as [Hu|Hu]; cbn [negb].
  - assert (Hi' : invariant adjacency (enter k st)).
    { split; [by apply enter_shape|]. cbn [enter call_stack stack]. rewrite Ec, (walked_stack _ _ Hw).
      apply (segments_cons _ _ k 0 [] [] []); [|constructor|done].
      split; [intros x Hx|intros x y Hx|intros y Hy]; by apply elem_of_nil in Hx || by apply elem_of_nil in Hy. }
    destruct (search_finishes (turns adjacency) (enter k st)) as (H1 & H2 & H3); [done| |].
    { rewrite enter_work by done. by apply turns_enough. }
    split; [done|done|]. intros v Hv. apply H3. destruct (decide (v = k)) as [->|]; [by left|].
    right. apply Hr. lia.
  - split; [done|done|]. intros v Hv. destruct (decide (v = k)) as [->|]; [|apply Hr; lia].
    by apply (sh_seen _ _ Hs).
Qed.

Lemma roots_walked k : k ≤ size adjacency → walked k (foldl (from_root adjacency) (start_search adjacency) (seq 0 k)).
Proof.
  induction k as [|k IH]; intros Hk; [apply start_walked|]. rewrite seq_S, foldl_snoc. apply from_root_walked; [lia|].
  apply IH. lia.
Qed.

(** ** What the components are *)

Lemma prefix_closed cs l1 l2 x y :
  ordered adjacency cs → cs = l1 ++ l2 → reach x y → x ∈ concat l1 → y ∈ concat l1.
Proof.
  intros Ho ->. induction 1 as [|x z y Hxz _ IH]; [done|]. intros Hx. apply IH.
  apply mem_concat in Hx as (c & Hxc & Hc). apply list_elem_of_split in Hc as (a & b & ->).
  rewrite <- app_assoc in Ho. destruct (Ho a c (b ++ l2) eq_refl x z Hxc Hxz) as [Hz|Hz];
    rewrite concat_app; cbn [concat]; rewrite !elem_of_app; auto.
Qed.

Lemma same_component cs u v :
  NoDup (concat cs) → ordered adjacency cs → u ∈ concat cs → reach u v → reach v u →
  ∃ c, c ∈ cs ∧ u ∈ c ∧ v ∈ c.
Proof.
  intros Hnd Ho Hu Huv Hvu. apply mem_concat in Hu as (c & Huc & Hc). exists c. split; [done|]. split; [done|].
  apply list_elem_of_split in Hc as (l1 & l2 & E).
  assert (Hv : v ∈ concat (l1 ++ [c])).
  { eapply prefix_closed; [exact Ho| |exact Huv|].
    - rewrite E, <- app_assoc. done.
    - rewrite concat_app. apply elem_of_app. right. cbn [concat]. by rewrite app_nil_r. }
  rewrite concat_app in Hv. cbn [concat] in Hv. rewrite app_nil_r in Hv. apply elem_of_app in Hv as [Hv|?]; [|done].
  assert (Hul : u ∈ concat l1) by (eapply prefix_closed; [exact Ho|exact E|exact Hvu|exact Hv]).
  rewrite E, concat_app in Hnd. apply NoDup_app in Hnd as (_ & Hdis & _). exfalso. apply (Hdis u Hul).
  cbn [concat]. apply elem_of_app. by left.
Qed.

Lemma all_walked : walked (size adjacency) (foldl (from_root adjacency) (start_search adjacency) (seq 0 (size adjacency))).
Proof. by apply roots_walked. Qed.

(** C29. The components partition the nodes; two nodes are in one exactly when each reaches
    the other; and an edge that leaves a component goes to an earlier one. *)
Theorem components_are_strongly_connected :
  let found := strongly_connected_components adjacency in
  concat found ≡ₚ seq 0 (size adjacency)
  ∧ (∀ u v, (u < size adjacency)%nat → (∃ c, c ∈ found ∧ u ∈ c ∧ v ∈ c) ↔ reach u v ∧ reach v u)
  ∧ ∀ l1 c l2, found = l1 ++ c :: l2 → c ≠ [] ∧ ∀ u v, u ∈ c → edge u v → v ∈ c ∨ v ∈ concat l1.
Proof.
  pose proof all_walked as Hw. unfold strongly_connected_components. set (st := foldl _ _ _) in *. cbn zeta.
  pose proof (walked_stack _ _ Hw) as Est. pose proof Hw as [[Hs _] _ Hall].
  assert (Eseen : seen st = concat (components st)) by (unfold seen; by rewrite Est).
  pose proof (sh_nodup _ _ Hs) as Hnd. rewrite Eseen in Hnd, Hall. split; [|split].
  - apply NoDup_Permutation; [done|apply NoDup_seq|]. intros v. rewrite elem_of_seq. split.
    + intros Hv. rewrite <- Eseen in Hv. apply (sh_seen _ _ Hs) in Hv as [? _]. lia.
    + intros Hv. apply Hall. lia.
  - intros u v Hu. split.
    + intros (c & Hc & Huc & Hvc). destruct (sh_connected _ _ Hs c Hc) as [_ Hr]. by split; apply Hr.
    + intros [Huv Hvu]. apply same_component; auto. apply Hs.
  - intros l1 c l2 E. split; [|by eapply (sh_ordered _ _ Hs)]. apply (sh_connected _ _ Hs). rewrite E.
    apply elem_of_app. right. by left.
Qed.

End Scc.

(** The range of the entries, by evaluation. *)
Lemma edges_in_range g :
  forallb (forallb (λ v, v <? size g)) g = true → ∀ u v, edge g u v → v < size g.
Proof.
  intros Hall u v Huv. unfold edge, children in Huv. destruct (g !! u) as [l|] eqn:El; cbn [from_option id] in Huv;
    [|by apply not_elem_of_nil in Huv].
  rewrite forallb_forall in Hall. specialize (Hall l). rewrite <- list_elem_of_In in Hall.
  specialize (Hall (list_elem_of_lookup_2 _ _ _ El)). rewrite forallb_forall in Hall. specialize (Hall v).
  rewrite <- list_elem_of_In in Hall. by apply Nat.ltb_lt, Hall.
Qed.

Definition sample_graph : list (list nat) := [[1]; [2; 3]; [0]; [4]; [3]; [5]; []].

Lemma components_are_strongly_connected_witness :
  strongly_connected_components sample_graph = [[4; 3]; [2; 1; 0]; [5]; [6]]
  ∧ reach sample_graph 0 2 ∧ reach sample_graph 2 0.
Proof.
  assert (E : strongly_connected_components sample_graph = [[4; 3]; [2; 1; 0]; [5]; [6]]) by (by vm_compute).
  split; [done|].
  pose proof (edges_in_range sample_graph ltac:(by vm_compute)) as Hr.
  pose proof (components_are_strongly_connected sample_graph Hr ltac:(vm_compute; discriminate)) as (_ & Hiff & _).
  apply Hiff; [vm_compute; lia|]. rewrite E. exists [2; 1; 0]. split; [right; by left|].
  split; [right; right; by left|by left].
Defined.

End TarjanProps.
