(* ===== verification/EdgeIndex.v ===== *)
(** * The edge index ([rust/devmap-store/src/edge_index.rs])

    A generation's edges as columns of ranks over interned text, their adjacency by a
    counting sort, and the index over them that a walk consumes; with the read that fills
    it ([rust/devmap-store/src/db/query.rs]). A rank is a [u32]; where the source indexes a
    vector it would panic out of range, which the facts of EdgeIndexFacts rule out. *)

From Stdlib Require Import SpecFloat.
From S2P Require Import Prelude RustStr Order CodeEdges Traversal.
Import Order CodeEdges Traversal.

#[local] Open Scope Z_scope.

Module EdgeIndex.

Inductive IndexError : Type :=
  | UnknownEdgeKind (kind : str)
  | UnknownResolutionKind (kind : str)
  | MissingPath (id : Z)
  | TooManyEdges (count : Z).

(** [collect] of an iterator of results. *)
Fixpoint collect {A B E} (f : A → result B E) (l : list A) : result (list B) E :=
  match l with
  | [] => Ok []
  | x :: rest =>
      let? y := f x in
      let? ys := collect f rest in
      Ok (y :: ys)
  end.

Record StoredEdge := {
  se_source_file : str;
  se_target_file : str;
  se_source_symbol : str;
  se_target_symbol : str;
  se_edge_kind : str;
  se_confidence : f32;
  se_resolution : option str;
}.

(** ** Stored spellings *)

Definition KINDS : list EdgeKind :=
  [Imports; Calls; Contains; Defines; Instantiates; Extends; Implements; SubscribesTo; HandlesRoute;
   Registers; WiredTo; MemberOf; DependsOn; TaintFlow; References].

Definition edge_kind_from_stored (kind : str) : result EdgeKind IndexError :=
  match List.find (λ k, bool_decide (kind_debug k = kind)) KINDS with
  | Some k => Ok k
  | None => Err (UnknownEdgeKind kind)
  end.

(** [ResolutionKind::label], [ALL] and [from_label]. *)
Definition label (k : ResolutionKind) : str :=
  lit match k with
      | KindSameFile => "SameFile" | KindSamePackage => "SamePackage" | KindImportScoped => "ImportScoped"
      | KindReceiverType => "ReceiverType" | KindLanguageServer => "LanguageServer"
      | KindUniqueGlobal => "UniqueGlobal" | KindAmbiguousGlobal => "AmbiguousGlobal"
      | KindLanguageServerDispatch => "LanguageServerDispatch" | KindDispatch => "Dispatch"
      | KindUnresolved => "Unresolved" | KindStructural => "Structural"
      end.

Definition ALL : list ResolutionKind :=
  [KindSameFile; KindSamePackage; KindImportScoped; KindReceiverType; KindLanguageServer; KindUniqueGlobal;
   KindAmbiguousGlobal; KindLanguageServerDispatch; KindDispatch; KindUnresolved; KindStructural].

Definition from_label (text : str) : option ResolutionKind :=
  List.find (λ k, bool_decide (label k = text)) ALL.

Definition resolution_kind_from_stored (kind : str) : result ResolutionKind IndexError :=
  match from_label kind with Some k => Ok k | None => Err (UnknownResolutionKind kind) end.

(** [ResolutionKind::confidence]. *)
Definition entitled (k : ResolutionKind) : f32 :=
  match k with
  | KindSameFile | KindSamePackage | KindImportScoped | KindReceiverType | KindStructural => DETERMINISTIC
  | KindLanguageServer | KindUniqueGlobal => HIGH
  | KindDispatch => LOW
  | KindAmbiguousGlobal | KindLanguageServerDispatch | KindUnresolved => SPECULATIVE
  end.

Definition reconstructed_resolution (same_file : bool) : Evidence :=
  {| CodeEdges.ev_kind := if same_file then KindSameFile else KindUniqueGlobal; CodeEdges.ev_source := Reconstructed |}.

Definition edge_resolution (e : StoredEdge) : result Evidence IndexError :=
  match se_resolution e with
  | Some kind =>
      let? k := resolution_kind_from_stored kind in
      Ok {| CodeEdges.ev_kind := k; CodeEdges.ev_source := Stored |}
  | None => Ok (reconstructed_resolution (bool_decide (se_source_file e = se_target_file e)))
  end.

(** [stored_edge_to_resolved] of [rust/devmap-query/src/engine.rs]. *)
Definition stored_edge_to_resolved (e : StoredEdge) : result ResolvedEdge IndexError :=
  let? kind := edge_kind_from_stored (se_edge_kind e) in
  let? evidence := edge_resolution e in
  Ok {| source_file := se_source_file e; target_file := se_target_file e;
        source_symbol := se_source_symbol e; target_symbol := se_target_symbol e; edge_kind := kind;
        confidence := se_confidence e; resolution := None; evidence := Some evidence; details := None |}.

(** ** Confidence *)

(** [value as f32]. *)
Definition f32_of_f64 (v : f64) : f32 :=
  match v with
  | S754_finite s m e => binary_normalize 24 128 (cond_Zopp s (Zpos m)) e s
  | _ => v
  end.

Definition f32_thousand : f32 := binary_normalize 24 128 1000 0 false.

(** [value as i64], of an integral [f32]. *)
Definition saturate_i64 (v : f32) : Z :=
  match v with
  | S754_infinity s => if s then - 2 ^ 63 else 2 ^ 63 - 1
  | S754_finite _ _ _ => Z.max (- 2 ^ 63) (Z.min (2 ^ 63 - 1) (round_half_away v))
  | S754_zero _ | S754_nan => 0
  end.

(** [(v * 1000.0).round() as i64]. *)
Definition stored_millis (v : f32) : Z := saturate_i64 (SFmul 24 128 v f32_thousand).

Definition admits_confidence (confidence min_confidence : f32) : bool :=
  stored_millis min_confidence <=? stored_millis confidence.

(** The place of a value in [f64::total_cmp]: the sign, then the magnitude in units of
    the least positive [f64]. *)
Definition total_key (v : f64) : Z :=
  match v with
  | S754_zero s => if s then -1 else 0
  | S754_finite s m e => if s then - (Zpos m * 2 ^ (e + 1074)) - 1 else Zpos m * 2 ^ (e + 1074)
  | S754_infinity s => if s then - 2 ^ 2200 - 1 else 2 ^ 2200
  | S754_nan => 2 ^ 2201
  end.

(** ** Columns *)

Definition as_u32 (z : Z) : Z := z `mod` 2 ^ 32.

Definition NO_RESOLUTION : Z := u32_max.
Definition NO_RESOLUTION_ORDER : Z := 0.

(** [column[i]]. *)
Definition at_rank (column : list Z) (i : Z) : Z := default 0 (column !! Z.to_nat i).
Definition text_at (names : list str) (i : Z) : str := default [] (names !! Z.to_nat i).

(** A table of interned text with the map that finds its ranks. *)
Record Table := { names : list str; rank_of_text : gmap str Z }.

Definition empty_table : Table := {| names := []; rank_of_text := ∅ |}.

Definition intern (t : Table) (value : str) : Z * Table :=
  match rank_of_text t !! value with
  | Some rank => (rank, t)
  | None =>
      let rank := as_u32 (Z.of_nat (length (names t))) in
      (rank, {| names := names t ++ [value]; rank_of_text := <[value := rank]> (rank_of_text t) |})
  end.

Record GenerationEdgesBuilder := {
  b_symbols : Table;
  b_files : Table;
  b_kinds : Table;
  b_kind_values : list EdgeKind;
  b_resolutions : Table;
  b_source_symbol : list Z;
  b_target_symbol : list Z;
  b_source_file : list Z;
  b_target_file : list Z;
  b_kind : list Z;
  b_resolution : list Z;
  b_confidence : list f64;
}.

Definition with_capacity : GenerationEdgesBuilder :=
  {| b_symbols := empty_table; b_files := empty_table; b_kinds := empty_table; b_kind_values := [];
     b_resolutions := empty_table; b_source_symbol := []; b_target_symbol := []; b_source_file := [];
     b_target_file := []; b_kind := []; b_resolution := []; b_confidence := [] |}.

Definition set_files (t : Table) (b : GenerationEdgesBuilder) : GenerationEdgesBuilder :=
  {| b_symbols := b_symbols b; b_files := t; b_kinds := b_kinds b; b_kind_values := b_kind_values b;
     b_resolutions := b_resolutions b; b_source_symbol := b_source_symbol b;
     b_target_symbol := b_target_symbol b; b_source_file := b_source_file b;
     b_target_file := b_target_file b; b_kind := b_kind b; b_resolution := b_resolution b;
     b_confidence := b_confidence b |}.

Definition intern_file (b : GenerationEdgesBuilder) (path : str) : Z * GenerationEdgesBuilder :=
  let '(rank, t) := intern (b_files b) path in (rank, set_files t b).

(** [intern_kind], on the table of kinds and the values beside it. *)
Definition intern_kind (t : Table) (values : list EdgeKind) (kind : str)
    : result (Z * Table * list EdgeKind) IndexError :=
  match rank_of_text t !! kind with
  | Some rank => Ok (rank, t, values)
  | None =>
      let? value := edge_kind_from_stored kind in
      let '(rank, t) := intern t kind in
      Ok (rank, t, values ++ [value])
  end.

(** The rank of a stored resolution, which a row may lack. *)
Definition intern_resolution (t : Table) (text : option str) : Z * Table :=
  match text with Some text => intern t text | None => (NO_RESOLUTION, t) end.

(** What a row brings beside its two files. *)
Record RowText := {
  rt_source : str;
  rt_target : str;
  rt_kind : str;
  rt_confidence : f64;
  rt_resolution : option str;
}.

Definition push_ranked (source_file target_file : Z) (row : RowText) (b : GenerationEdgesBuilder)
    : result GenerationEdgesBuilder IndexError :=
  let? (kind, kinds, values) := intern_kind (b_kinds b) (b_kind_values b) (rt_kind row) in
  let '(source, symbols) := intern (b_symbols b) (rt_source row) in
  let '(target, symbols) := intern symbols (rt_target row) in
  let '(resolution, resolutions) := intern_resolution (b_resolutions b) (rt_resolution row) in
  Ok {| b_symbols := symbols; b_files := b_files b; b_kinds := kinds; b_kind_values := values;
        b_resolutions := resolutions; b_source_symbol := b_source_symbol b ++ [source];
        b_target_symbol := b_target_symbol b ++ [target]; b_source_file := b_source_file b ++ [source_file];
        b_target_file := b_target_file b ++ [target_file]; b_kind := b_kind b ++ [kind];
        b_resolution := b_resolution b ++ [resolution]; b_confidence := b_confidence b ++ [rt_confidence row] |}.

Definition rows_of (b : GenerationEdgesBuilder) : nat := length (b_kind b).

(** ** Ranking by bytes *)

(** The old ranks in the order of their text. *)
Definition byte_order (text : list str) : list Z :=
  sort_by (by_str (text_at text)) (seqZ 0 (Z.of_nat (length text))).

Definition set_rank (ranks : list Z) (ro : Z * Z) : list Z := <[Z.to_nat ro.2 := as_u32 ro.1]> ranks.

(** From an old rank to the new one. *)
Definition new_ranks (order : list Z) : list Z :=
  foldl set_rank (replicate (length order) 0) (zip (seqZ 0 (Z.of_nat (length order))) order).

Definition remap (order column : list Z) : list Z := map (at_rank (new_ranks order)) column.

Definition remap_resolution (order column : list Z) : list Z :=
  map (λ r, if r =? NO_RESOLUTION then r else at_rank (new_ranks order) r) column.

Definition reorder_names (order : list Z) (text : list str) : list str := map (text_at text) order.

Definition reorder_values (order : list Z) (values : list EdgeKind) : list EdgeKind :=
  map (λ i, default Calls (values !! Z.to_nat i)) order.

Record EdgeText := {
  symbols : list str;
  symbol_rank : gmap str Z;
  files : list str;
  kind_labels : list str;
  kind_values : list EdgeKind;
  resolution_labels : list str;
}.

(** [symbol_rank], rebuilt over the table in byte order. *)
Definition ranks_of (text : list str) : gmap str Z :=
  foldl (λ m ni, <[ni.2 := as_u32 ni.1]> m) ∅ (zip (seqZ 0 (Z.of_nat (length text))) text).

Record Columns := {
  source_symbol_rank : list Z;
  target_symbol_rank : list Z;
  source_file_rank : list Z;
  target_file_rank : list Z;
  kind_rank : list Z;
  resolution_rank : list Z;
}.

Definition rank_by_bytes (b : GenerationEdgesBuilder) : EdgeText * Columns :=
  let by_file := byte_order (names (b_files b)) in
  let by_symbol := byte_order (names (b_symbols b)) in
  let by_resolution := byte_order (names (b_resolutions b)) in
  let by_kind := byte_order (names (b_kinds b)) in
  let sorted_symbols := reorder_names by_symbol (names (b_symbols b)) in
  ({| symbols := sorted_symbols; symbol_rank := ranks_of sorted_symbols;
      files := reorder_names by_file (names (b_files b));
      kind_labels := reorder_names by_kind (names (b_kinds b));
      kind_values := reorder_values by_kind (b_kind_values b);
      resolution_labels := reorder_names by_resolution (names (b_resolutions b)) |},
   {| source_symbol_rank := remap by_symbol (b_source_symbol b);
      target_symbol_rank := remap by_symbol (b_target_symbol b);
      source_file_rank := remap by_file (b_source_file b);
      target_file_rank := remap by_file (b_target_file b);
      kind_rank := remap by_kind (b_kind b);
      resolution_rank := remap_resolution by_resolution (b_resolution b) |}).

(** ** The read order *)

Record EdgeSortKey := {
  k_confidence : f64;
  k_source_file : Z;
  k_target_file : Z;
  k_source_symbol : Z;
  k_target_symbol : Z;
  k_kind : Z;
  k_resolution : Z;
  k_row : Z;
}.

Definition edge_read_order : EdgeSortKey → EdgeSortKey → bool :=
  desc (λ k, total_key (k_confidence k)) (asc k_source_file (asc k_target_file
    (asc k_source_symbol (asc k_target_symbol (asc k_kind (by_int k_resolution)))))).

Definition sort_key (c : Columns) (confidence : list f64) (row : Z) : EdgeSortKey :=
  {| k_confidence := default S754_nan (confidence !! Z.to_nat row);
     k_source_file := at_rank (source_file_rank c) row; k_target_file := at_rank (target_file_rank c) row;
     k_source_symbol := at_rank (source_symbol_rank c) row; k_target_symbol := at_rank (target_symbol_rank c) row;
     k_kind := at_rank (kind_rank c) row;
     k_resolution := (let r := at_rank (resolution_rank c) row in
                      if r =? NO_RESOLUTION then NO_RESOLUTION_ORDER else as_u32 (r + 1));
     k_row := row |}.

Definition permute (column permutation : list Z) : list Z := map (at_rank column) permutation.

Definition permute_columns (c : Columns) (p : list Z) : Columns :=
  {| source_symbol_rank := permute (source_symbol_rank c) p; target_symbol_rank := permute (target_symbol_rank c) p;
     source_file_rank := permute (source_file_rank c) p; target_file_rank := permute (target_file_rank c) p;
     kind_rank := permute (kind_rank c) p; resolution_rank := permute (resolution_rank c) p |}.

Definition permute_confidence (confidence : list f64) (p : list Z) : list f64 :=
  map (λ row, default S754_nan (confidence !! Z.to_nat row)) p.

Inductive EdgeOrder : Type := AsPushed | ReadOrder.

(** The ids of [0..n]. *)
Definition all_ids (n : nat) : list Z := seqZ 0 (Z.of_nat n).

(** The sort is unstable: rows that tie agree in every column. *)
Definition read_permutation (c : Columns) (confidence : list f64) (n : nat) : list Z :=
  map k_row (sort_by edge_read_order (map (sort_key c confidence) (all_ids n))).

(** ** Adjacency *)

Record Adjacency := { offsets : list Z; run_ids : list Z }.

Definition count_key (counts : list Z) (key : Z) : list Z := alter (Z.add 1) (S (Z.to_nat key)) counts.

(** [offsets[rank + 1] += offsets[rank]]. *)
Definition add_before (sums : list Z) (rank : nat) : list Z :=
  alter (Z.add (default 0 (sums !! rank))) (S rank) sums.

Definition place_id (st : list Z * list Z) (ik : Z * Z) : list Z * list Z :=
  let '(cursor, ids) := st in
  let slot := at_rank cursor ik.2 in
  (alter (Z.add 1) (Z.to_nat ik.2) cursor, <[Z.to_nat slot := as_u32 ik.1]> ids).

Definition build_adjacency (keys : list Z) (ranks : nat) : Adjacency :=
  let counts := foldl count_key (replicate (S ranks) 0) keys in
  let sums := foldl add_before counts (seq 0 ranks) in
  let '(_, ids) := foldl place_id (sums, replicate (length keys) 0) (zip (all_ids (length keys)) keys) in
  {| offsets := sums; run_ids := ids |}.

(** [&ids[offsets[rank]..offsets[rank + 1]]]. *)
Definition run (a : Adjacency) (rank : Z) : list Z :=
  let start := Z.to_nat (at_rank (offsets a) rank) in
  let stop := Z.to_nat (at_rank (offsets a) (rank + 1)) in
  take (stop - start) (drop start (run_ids a)).

Definition ranks_in (a : Adjacency) : nat := pred (length (offsets a)).

(** ** The index *)

Section Index.
(** What the analysis disclosed of the generation; the index only carries it. *)
Context {Disclosure : Type}.

Record GenerationEdges := {
  text : EdgeText;
  columns : Columns;
  g_confidence : list f32;
  resolutions : list Evidence;
  confidence_mismatches : Z;
  analysis : option Disclosure;
  generation : option Z;
  by_source_symbol : Adjacency;
  by_target_symbol : Adjacency;
  by_source_file : Adjacency;
  by_target_file : Adjacency;
}.

(** The evidence of an edge: its stored tier, or the guess. *)
Definition evidence_at (stored_kinds : option (list ResolutionKind)) (c : Columns) (id : Z) : Evidence :=
  let label := at_rank (resolution_rank c) id in
  let guess := reconstructed_resolution (at_rank (source_file_rank c) id =? at_rank (target_file_rank c) id) in
  match stored_kinds with
  | Some kinds =>
      if label =? NO_RESOLUTION then guess
      else {| CodeEdges.ev_kind := default KindUnresolved (kinds !! Z.to_nat label); CodeEdges.ev_source := Stored |}
  | None => guess
  end.

Definition is_mismatch (ve : f32 * Evidence) : bool :=
  match CodeEdges.ev_source ve.2 with
  | Stored => negb (confidence_millis ve.1 =? confidence_millis (entitled (CodeEdges.ev_kind ve.2)))
  | _ => false
  end.

(** The columns of [order]. *)
Definition ordered (order : EdgeOrder) (c : Columns) (confidence : list f64) (n : nat) : Columns * list f64 :=
  match order with
  | AsPushed => (c, confidence)
  | ReadOrder =>
      let p := read_permutation c confidence n in (permute_columns c p, permute_confidence confidence p)
  end.

Definition finish_columns (disclosed : option Disclosure) (stored_kinds : option (list ResolutionKind))
    (t : EdgeText) (c : Columns) (confidence : list f64) (n : nat) : GenerationEdges :=
  let evidence := map (evidence_at stored_kinds c) (all_ids n) in
  let confidence := map f32_of_f64 confidence in
  let symbol_ranks := length (symbols t) in
  let file_ranks := length (files t) in
  {| text := t; columns := c; g_confidence := confidence; resolutions := evidence;
     confidence_mismatches := Z.of_nat (length (List.filter is_mismatch (zip confidence evidence)));
     analysis := disclosed; generation := None;
     by_source_symbol := build_adjacency (source_symbol_rank c) symbol_ranks;
     by_target_symbol := build_adjacency (target_symbol_rank c) symbol_ranks;
     by_source_file := build_adjacency (source_file_rank c) file_ranks;
     by_target_file := build_adjacency (target_file_rank c) file_ranks |}.

(** [stored_kinds] is read at the ranks the columns have once they are in byte order. The
    assertion that the ids fit a [u32] is a bound of the theorems. *)
Definition finish_with (disclosed : option Disclosure) (order : EdgeOrder)
    (stored_kinds : option (list ResolutionKind)) (b : GenerationEdgesBuilder) : GenerationEdges :=
  let '(t, c) := rank_by_bytes b in
  let '(c, confidence) := ordered order c (b_confidence b) (rows_of b) in
  finish_columns disclosed stored_kinds t c confidence (rows_of b).

Definition finish (disclosed : option Disclosure) (order : EdgeOrder) (b : GenerationEdgesBuilder) : GenerationEdges :=
  finish_with disclosed order None b.

(** The labels are decoded in the order they were interned. *)
Definition finish_with_stored_evidence (disclosed : option Disclosure) (order : EdgeOrder)
    (b : GenerationEdgesBuilder) : result GenerationEdges IndexError :=
  let? kinds := collect resolution_kind_from_stored (names (b_resolutions b)) in
  Ok (finish_with disclosed order (Some kinds) b).

Definition row_text (e : StoredEdge) : RowText :=
  {| rt_source := se_source_symbol e; rt_target := se_target_symbol e; rt_kind := se_edge_kind e;
     rt_confidence := f64_of_f32 (se_confidence e); rt_resolution := se_resolution e |}.

Fixpoint push_edges (edges : list StoredEdge) (b : GenerationEdgesBuilder)
    : result GenerationEdgesBuilder IndexError :=
  match edges with
  | [] => Ok b
  | e :: rest =>
      let '(source_file, b) := intern_file b (se_source_file e) in
      let '(target_file, b) := intern_file b (se_target_file e) in
      let? b := push_ranked source_file target_file (row_text e) b in
      push_edges rest b
  end.

Definition build (edges : list StoredEdge) (disclosed : option Disclosure) : result GenerationEdges IndexError :=
  let? b := push_edges edges with_capacity in
  Ok (finish disclosed AsPushed b).

(** ** Reading an edge *)

Variable idx : GenerationEdges.

Definition edge_count : nat := length (kind_rank (columns idx)).

Definition source_symbol_of (id : Z) : str := text_at (symbols (text idx)) (at_rank (source_symbol_rank (columns idx)) id).
Definition target_symbol_of (id : Z) : str := text_at (symbols (text idx)) (at_rank (target_symbol_rank (columns idx)) id).
Definition source_file_of (id : Z) : str := text_at (files (text idx)) (at_rank (source_file_rank (columns idx)) id).
Definition target_file_of (id : Z) : str := text_at (files (text idx)) (at_rank (target_file_rank (columns idx)) id).
Definition confidence_of (id : Z) : f32 := default S754_nan (g_confidence idx !! Z.to_nat id).
Definition kind_label_of (id : Z) : str := text_at (kind_labels (text idx)) (at_rank (kind_rank (columns idx)) id).

Definition kind_of_edge (id : Z) : EdgeKind :=
  default Calls (kind_values (text idx) !! Z.to_nat (at_rank (kind_rank (columns idx)) id)).

Definition resolution_label (id : Z) : option str :=
  let r := at_rank (resolution_rank (columns idx)) id in
  if r =? NO_RESOLUTION then None else Some (text_at (resolution_labels (text idx)) r).

(** [GenerationEdges::resolution]. *)
Definition resolution_of (id : Z) : Evidence :=
  default (reconstructed_resolution false) (resolutions idx !! Z.to_nat id).

Definition stored_edge (id : Z) : StoredEdge :=
  {| se_source_file := source_file_of id; se_target_file := target_file_of id;
     se_source_symbol := source_symbol_of id; se_target_symbol := target_symbol_of id;
     se_edge_kind := kind_label_of id; se_confidence := confidence_of id; se_resolution := resolution_label id |}.

Definition stored_edges : list StoredEdge := map stored_edge (all_ids edge_count).

Definition index_admits_edge (min_confidence : f32) (id : Z) : bool :=
  admits_confidence (confidence_of id) min_confidence.

(** ** Asking for a node *)

(** The names that have an edge, with its ids. *)
Definition listing (a : Adjacency) (text : list str) : list (str * list Z) :=
  flat_map (λ rank, match run a rank with [] => [] | ids => [(text_at text rank, ids)] end) (all_ids (ranks_in a)).

Definition symbols_with_edges (reverse : bool) : list (str * list Z) :=
  listing (if reverse then by_target_symbol idx else by_source_symbol idx) (symbols (text idx)).

Definition files_with_edges (reverse : bool) : list (str * list Z) :=
  listing (if reverse then by_target_file idx else by_source_file idx) (files (text idx)).

Definition from_source_symbol (symbol : str) : list Z :=
  match symbol_rank (text idx) !! symbol with Some rank => run (by_source_symbol idx) rank | None => [] end.

Definition into_target_symbol (symbol : str) : list Z :=
  match symbol_rank (text idx) !! symbol with Some rank => run (by_target_symbol idx) rank | None => [] end.

Definition edge_view (id : Z) : EdgeView :=
  {| ev_source := source_symbol_of id; ev_target := target_symbol_of id; ev_source_file := source_file_of id;
     ev_target_file := target_file_of id; Traversal.ev_kind := kind_of_edge id |}.

(** [directed]: the index a walk consumes. *)
Definition DirectedEdges (rev : bool) (min_confidence : f32) : GraphIndex :=
  {| Traversal.reverse := rev;
     neighbors node := if rev then into_target_symbol node else from_source_symbol node;
     edge := edge_view;
     kind_label := kind_label_of;
     index_admits := index_admits_edge min_confidence |}.

(** [Store::latest_edges], of the index of the latest generation. *)
Definition latest_edges (min_confidence : f32) : list StoredEdge :=
  map stored_edge (List.filter (index_admits_edge min_confidence) (all_ids edge_count)).

(** The edges of the whole-graph views of [rust/devmap-query/src/engine.rs]. *)
Definition resolved_edges (min_confidence : f32) : result (list ResolvedEdge) IndexError :=
  collect stored_edge_to_resolved (latest_edges min_confidence).

Definition with_generation (g : Z) : GenerationEdges :=
  {| text := text idx; columns := columns idx; g_confidence := g_confidence idx; resolutions := resolutions idx;
     confidence_mismatches := confidence_mismatches idx; analysis := analysis idx; generation := Some g;
     by_source_symbol := by_source_symbol idx; by_target_symbol := by_target_symbol idx;
     by_source_file := by_source_file idx; by_target_file := by_target_file idx |}.

End Index.

Arguments GenerationEdges : clear implicits.

(** ** Reading a generation from the store *)

(** The rows of [paths] in byte order, with the rank of each id. *)
Record PathRanks := { ordered_paths : list str; rank_by_id : gmap Z Z }.

Definition read_paths (rows : list (Z * str)) : PathRanks :=
  let rows := sort_by (by_str snd) rows in
  {| ordered_paths := map snd rows;
     rank_by_id := foldl (λ m nr, <[nr.2.1 := as_u32 nr.1]> m) ∅ (zip (all_ids (length rows)) rows) |}.

Definition rank_of (p : PathRanks) (id : Z) : result Z IndexError :=
  match rank_by_id p !! id with Some rank => Ok rank | None => Err (MissingPath id) end.

Definition path_of (p : PathRanks) (rank : Z) : str := text_at (ordered_paths p) rank.

(** A row of [generation_edges]. *)
Record EdgeRow := { er_source_file_id : Z; er_target_file_id : Z; er_text : RowText }.

(** Each path interned, in rank order, and the ranks that gave. *)
Definition intern_path (p : PathRanks) (st : list Z * GenerationEdgesBuilder) (rank : Z)
    : list Z * GenerationEdgesBuilder :=
  let '(r, b) := intern_file st.2 (path_of p rank) in (st.1 ++ [r], b).

Definition intern_paths (p : PathRanks) (b : GenerationEdgesBuilder) : list Z * GenerationEdgesBuilder :=
  foldl (intern_path p) ([], b) (all_ids (length (ordered_paths p))).

Fixpoint push_rows (p : PathRanks) (file_ranks : list Z) (rows : list EdgeRow) (b : GenerationEdgesBuilder)
    : result GenerationEdgesBuilder IndexError :=
  match rows with
  | [] => Ok b
  | row :: rest =>
      let? source := rank_of p (er_source_file_id row) in
      let? target := rank_of p (er_target_file_id row) in
      let? b := push_ranked (at_rank file_ranks source) (at_rank file_ranks target) (er_text row) b in
      push_rows p file_ranks rest b
  end.

(** [latest_edge_index_uncached], of the rows the snapshot of generation [gen] reads. *)
Definition read_index {Disclosure} (paths : list (Z * str)) (rows : list EdgeRow) (disclosed : option Disclosure)
    (gen : Z) : result (GenerationEdges Disclosure) IndexError :=
  let p := read_paths paths in
  if u32_max <? Z.of_nat (length rows) then Err (TooManyEdges (Z.of_nat (length rows)))
  else
    let '(file_ranks, b) := intern_paths p with_capacity in
    let? b := push_rows p file_ranks rows b in
    let? idx := finish_with_stored_evidence disclosed ReadOrder b in
    Ok (with_generation idx gen).

(** [checked_min_confidence]: a floor that is not a number is refused. *)
Definition checked_min_confidence (value : f32) : option f32 :=
  match value with S754_nan => None | _ => Some value end.

End EdgeIndex.
