(* ===== verification/EdgeIndexFacts.v ===== *)
(** * Facts of the edge index

    Interned tables, the ranking by bytes and what it preserves, and the counting sort. *)

From S2P Require Import Prelude RustStr RustStrFacts Order CodeEdges Traversal EdgeIndex.
Import Order CodeEdges EdgeIndex.

#[local] Open Scope Z_scope.

Module EdgeIndexFacts.

(** ** Lists *)

(** Sorting commutes with a map the two orders agree on. *)
Lemma sort_by_map {A B} (f : A → B) (leb : B → B → bool) (leb' : A → A → bool) (l : list A) :
  (∀ a b, a ∈ l → b ∈ l → leb (f a) (f b) = leb' a b) → sort_by leb (map f l) = map f (sort_by leb' l).
Proof.
  intros H. induction l as [|x l IH]; [done|].
  change (sort_by leb (map f (x :: l))) with (insert_sorted leb (f x) (sort_by leb (map f l))).
  change (sort_by leb' (x :: l)) with (insert_sorted leb' x (sort_by leb' l)).
  rewrite IH by (intros; apply H; by constructor).
  assert (Hx : ∀ y, y ∈ sort_by leb' l → leb (f x) (f y) = leb' x y).
  { intros y Hy. rewrite elem_of_sort_by in Hy. apply H; by constructor. }
  clear H IH. induction (sort_by leb' l) as [|y k IHk]; [done|]. cbn [map insert_sorted].
  rewrite Hx by constructor. case_if; [done|]. cbn [map]. f_equal. apply IHk. intros. apply Hx. by constructor.
Qed.

Lemma sorted_lookup_lt {A} (R : A → A → Prop) (l : list A) i j x y :
  StronglySorted R l → l !! i = Some x → l !! j = Some y → (i < j)%nat → R x y.
Proof.
  intros Hs. revert i j. induction Hs as [|z l _ IH Hz]; intros i j Hi Hj Hlt; [done|].
  destruct j as [|j]; [lia|]. destruct i as [|i]; cbn in *; [|by eapply (IH i j); [..|lia]].
  injection Hi as ->. rewrite Forall_forall in Hz. apply Hz. by eapply list_elem_of_lookup_2.
Qed.

Lemma filter_agree {A} (p q : A → bool) l : (∀ x, x ∈ l → p x = q x) → List.filter p l = List.filter q l.
Proof. intros H. apply List.filter_ext_in. intros x Hx. apply H. by apply list_elem_of_In. Qed.

Lemma filter_all {A} (p : A → bool) l : (∀ x, x ∈ l → p x = true) → List.filter p l = l.
Proof.
  intros H. induction l as [|x l IH]; [done|]. cbn [List.filter]. rewrite H by constructor.
  f_equal. apply IH. intros y Hy. apply H. by constructor.
Qed.

Lemma seqZ_lookup n i : (i < n)%nat → seqZ 0 (Z.of_nat n) !! i = Some (Z.of_nat i).
Proof. intros. rewrite lookup_seqZ_lt by lia. f_equal. Qed.

Lemma elem_of_all_ids n id : id ∈ all_ids n ↔ 0 ≤ id < Z.of_nat n.
Proof. unfold all_ids. rewrite elem_of_seqZ. lia. Qed.

Lemma length_all_ids n : length (all_ids n) = n.
Proof. unfold all_ids. rewrite length_seqZ. lia. Qed.

Lemma all_ids_snoc n : all_ids (S n) = all_ids n ++ [Z.of_nat n].
Proof. unfold all_ids. by rewrite seqZ_S, Z.add_0_l. Qed.

Lemma map_text_at (text : list str) : map (text_at text) (all_ids (length text)) = text.
Proof.
  apply list_eq. intros i. rewrite list_lookup_fmap. destruct (decide (i < length text)%nat) as [Hi|Hi].
  - unfold all_ids. rewrite seqZ_lookup by done. cbn. unfold text_at.
    rewrite Nat2Z.id. destruct (lookup_lt_is_Some_2 _ _ Hi) as [x ->]. done.
  - rewrite !lookup_ge_None_2; [done|lia|]. rewrite length_all_ids. lia.
Qed.

Lemma as_u32_small z : 0 ≤ z < 2 ^ 32 → as_u32 z = z.
Proof. apply Z.mod_small. Qed.

(** ** Tables *)

(** [r] is the rank of [x] in the table. *)
Definition ranked (text : list str) (r : Z) (x : str) : Prop := 0 ≤ r ∧ text !! Z.to_nat r = Some x.

Definition ranked_label (text : list str) (r : Z) (x : option str) : Prop :=
  match x with None => r = NO_RESOLUTION | Some x => r ≠ NO_RESOLUTION ∧ ranked text r x end.

Lemma ranked_at text r x : ranked text r x → text_at text r = x.
Proof. intros [_ H]. unfold text_at. by rewrite H. Qed.

Lemma ranked_app text r x l : ranked text r x → ranked (text ++ l) r x.
Proof. intros [? H]. split; [done|]. by apply lookup_app_l_Some. Qed.

Lemma ranked_label_app text r x l : ranked_label text r x → ranked_label (text ++ l) r x.
Proof. destruct x; [|done]. intros [? ?]. split; [done|by apply ranked_app]. Qed.

Lemma ranked_bound text r x : ranked text r x → 0 ≤ r < Z.of_nat (length text).
Proof. intros [? H%lookup_lt_Some]. lia. Qed.

Lemma ranked_inj text r r' x : NoDup text → ranked text r x → ranked text r' x → r = r'.
Proof. intros Hn [? H1] [? H2]. pose proof (NoDup_lookup _ _ _ _ Hn H1 H2). lia. Qed.

Record table_ok (t : Table) : Prop := {
  tb_nodup : NoDup (names t);
  tb_rank : ∀ x r, rank_of_text t !! x = Some r → ranked (names t) r x;
  tb_all : ∀ x, x ∈ names t → is_Some (rank_of_text t !! x);
}.

Lemma empty_table_ok : table_ok empty_table.
Proof. split; cbn; [constructor|by intros x r ?|by intros x ?%not_elem_of_nil]. Qed.

Lemma ranked_snoc text x : ranked (text ++ [x]) (Z.of_nat (length text)) x.
Proof. split; [lia|]. rewrite Nat2Z.id. by apply list_lookup_middle. Qed.

Lemma intern_ok t x r t' :
  table_ok t → Z.of_nat (length (names t)) < 2 ^ 32 → intern t x = (r, t') →
  table_ok t' ∧ ranked (names t') r x ∧ ∃ l, names t' = names t ++ l ∧ (length l ≤ 1)%nat.
Proof.
  intros [Hn Hr Ha] Hlen. unfold intern. destruct (rank_of_text t !! x) as [r0|] eqn:E.
  - intros [= <- <-]. split; [done|]. split; [by apply Hr|]. exists []. rewrite app_nil_r. split; [done|cbn; lia].
  - intros [= <- <-]. cbn [names rank_of_text]. rewrite as_u32_small by lia.
    assert (Hx : x ∉ names t) by (intros H; apply Ha in H as [? ?]; congruence).
    split; [|split; [apply ranked_snoc|by exists [x]]]. split; cbn [names rank_of_text].
    + apply NoDup_app. split; [done|]. split; [|apply NoDup_singleton].
      by intros y Hy ->%list_elem_of_singleton.
    + intros y r' Hy. destruct (decide (y = x)) as [->|Hne].
      * rewrite lookup_insert_eq in Hy. injection Hy as <-. apply ranked_snoc.
      * rewrite lookup_insert_ne in Hy by done. by apply ranked_app, Hr.
    + intros y Hy. destruct (decide (y = x)) as [->|Hne]; [rewrite lookup_insert_eq; by eexists|].
      rewrite lookup_insert_ne by done. apply Ha. apply elem_of_app in Hy as [?|?%list_elem_of_singleton]; done.
Qed.

(** ** Ranking by bytes *)

Lemma byte_order_perm text : byte_order text ≡ₚ all_ids (length text).
Proof. apply sort_by_perm. Qed.

Lemma reorder_names_sorts text : reorder_names (byte_order text) text = sort_strs text.
Proof.
  unfold reorder_names, byte_order, sort_strs. rewrite <- (map_text_at text) at 4. symmetry. by apply sort_by_map.
Qed.

Section NewRanks.
Variable order : list Z.
Hypothesis Hnodup : NoDup order.
Hypothesis Hrange : ∀ o, o ∈ order → 0 ≤ o < Z.of_nat (length order).
Hypothesis Hsmall : Z.of_nat (length order) < 2 ^ 32.

Lemma set_ranks l ranks :
  NoDup (map snd l) → (∀ ro, ro ∈ l → 0 ≤ ro.1 < 2 ^ 32 ∧ 0 ≤ ro.2 < Z.of_nat (length ranks)) →
  length (foldl set_rank ranks l) = length ranks
  ∧ (∀ ro, ro ∈ l → foldl set_rank ranks l !! Z.to_nat ro.2 = Some ro.1)
  ∧ ∀ o, 0 ≤ o → o ∉ map snd l → foldl set_rank ranks l !! Z.to_nat o = ranks !! Z.to_nat o.
Proof.
  revert ranks. induction l as [|[r o] l IH]; intros ranks Hn Hl; cbn [foldl].
  { split; [done|]. split; [by intros ro ?%not_elem_of_nil|done]. }
  apply NoDup_cons in Hn as [Ho Hn]. destruct (Hl (r, o)) as [Hr Hor]; [constructor|]. cbn [fst snd] in *.
  assert (Hlen : length (set_rank ranks (r, o)) = length ranks) by apply length_insert.
  destruct (IH (set_rank ranks (r, o))) as (H1 & H2 & H3); [done| |].
  { intros ro Hro. rewrite Hlen. apply Hl. by constructor. }
  split; [by rewrite H1|]. split.
  - intros ro [->|Hro]%elem_of_cons; [|by apply H2]. rewrite H3 by (cbn; done || lia). cbn [snd fst set_rank].
    unfold set_rank. cbn [fst snd]. rewrite list_lookup_insert_eq by lia. by rewrite as_u32_small.
  - intros o' Ho' Hno. cbn [map] in Hno. apply not_elem_of_cons in Hno as [Hne Hno]. rewrite H3 by done.
    unfold set_rank. cbn [fst snd]. cbn [snd] in Hne. rewrite list_lookup_insert_ne by lia. done.
Qed.

Lemma new_ranks_at (i : nat) o : order !! i = Some o → at_rank (new_ranks order) o = Z.of_nat i.
Proof.
  intros Hi. unfold new_ranks, at_rank. set (l := zip _ _).
  assert (Hsnd : map snd l = order).
  { subst l. apply snd_zip. rewrite length_seqZ. lia. }
  destruct (set_ranks l (replicate (length order) 0)) as (_ & H & _).
  - by rewrite Hsnd.
  - intros [r o'] Hro. subst l. pose proof (elem_of_zip_l _ _ _ _ Hro) as Hr. pose proof (elem_of_zip_r _ _ _ _ Hro) as Ho.
    apply elem_of_seqZ in Hr. rewrite length_replicate. cbn [fst snd]. split; [lia|by apply Hrange].
  - specialize (H (Z.of_nat i, o)). cbn [fst snd] in H. rewrite H; [done|]. apply list_elem_of_lookup. exists i. subst l.
    apply lookup_zip_with_Some. exists (Z.of_nat i), o. split; [done|]. split; [|done].
    apply seqZ_lookup. by apply lookup_lt_Some in Hi.
Qed.

End NewRanks.

Lemma remapped text r x :
  Z.of_nat (length text) < 2 ^ 32 → ranked text r x →
  ranked (sort_strs text) (at_rank (new_ranks (byte_order text)) r) x.
Proof.
  intros Hsmall Hr. pose proof (ranked_bound _ _ _ Hr) as Hb. pose proof (byte_order_perm text) as Hp.
  assert (Hlen : length (byte_order text) = length text) by (rewrite Hp; apply length_all_ids).
  assert (Hin : r ∈ byte_order text) by (rewrite Hp; by apply elem_of_all_ids).
  apply list_elem_of_lookup in Hin as [i Hi].
  rewrite (new_ranks_at (byte_order text)) with (i := i) (o := r); [|..|done].
  - split; [lia|]. rewrite Nat2Z.id, <- reorder_names_sorts. unfold reorder_names.
    rewrite list_lookup_fmap, Hi. cbn. by rewrite (ranked_at text r x).
  - rewrite Hp. apply NoDup_seqZ.
  - intros o Ho. rewrite Hp in Ho. rewrite Hlen. by apply elem_of_all_ids.
  - by rewrite Hlen.
Qed.

Lemma length_sort_strs text : length (sort_strs text) = length text.
Proof. apply length_sort_by. Qed.

Lemma sort_strs_nodup text : NoDup text → NoDup (sort_strs text).
Proof. intros H. unfold sort_strs. by rewrite sort_by_perm. Qed.

(** The order of ranks is the order of the text. *)
Lemma ranked_compare text r r' x y :
  NoDup text → ranked (sort_strs text) r x → ranked (sort_strs text) r' y →
  (r = r' ↔ x = y) ∧ (x ≠ y → (r <? r') = str_leb x y).
Proof.
  intros Hn%sort_strs_nodup Hx Hy. assert (Heq : r = r' ↔ x = y).
  { split; [intros ->; destruct Hx as [_ Hx], Hy as [_ Hy]; congruence|intros ->; by eapply ranked_inj]. }
  split; [done|]. intros Hne.
  assert (Hs : StronglySorted (λ a b, str_leb a b = true) (sort_strs text)).
  { apply Sorted_StronglySorted; [intros a b c; apply str_leb_trans|apply sort_strs_sorted]. }
  destruct Hx as [Hr0 Hx], Hy as [Hr0' Hy]. destruct (Z.ltb_spec r r') as [Hlt|Hge].
  - symmetry. eapply (sorted_lookup_lt (λ a b, str_leb a b = true) _ (Z.to_nat r) (Z.to_nat r')); [exact Hs|done..|lia].
  - symmetry. apply not_true_iff_false. intros Hle. apply Hne, str_leb_antisym; [done|].
    assert (r ≠ r') by (intros ->; apply Hne; by apply Heq).
    eapply (sorted_lookup_lt (λ a b, str_leb a b = true) _ (Z.to_nat r') (Z.to_nat r)); [exact Hs|done..|lia].
Qed.

(** One link of the read order: ranks compare as their text does. *)
Lemma asc_ranked {A B} (text : list str) (f : A → Z) (g : B → str) rest rest' a b a' b' :
  NoDup text → ranked (sort_strs text) (f a) (g a') → ranked (sort_strs text) (f b) (g b') →
  rest a b = rest' a' b' → asc f rest a b = asc_str g rest' a' b'.
Proof.
  intros Hn Ha Hb Hrest. destruct (ranked_compare _ _ _ _ _ Hn Ha Hb) as [Heq Hlt]. unfold asc, asc_str.
  case_bool_decide as Hab.
  - apply Heq in Hab. rewrite Hab, Z.ltb_irrefl. done.
  - rewrite <- Hlt by done. destruct (Z.ltb_spec (f a) (f b)); [done|].
    destruct (Z.ltb_spec (f b) (f a)); [done|]. destruct Hab. apply Heq. lia.
Qed.

(** The last link: no label before every label. *)
Definition by_label {A} (f : A → option str) : A → A → bool :=
  asc (λ a, match f a with None => 0 | Some _ => 1 end) (by_str (λ a, default [] (f a))).

Definition label_order (r : Z) : Z := if r =? NO_RESOLUTION then NO_RESOLUTION_ORDER else as_u32 (r + 1).

Lemma label_ranked {A B} (text : list str) (f : A → Z) (g : B → option str) a b a' b' :
  NoDup text → Z.of_nat (length text) < u32_max →
  ranked_label (sort_strs text) (f a) (g a') → ranked_label (sort_strs text) (f b) (g b') →
  by_int (λ k, label_order (f k)) a b = by_label g a' b'.
Proof.
  intros Hn Hlen Ha Hb. unfold by_int, by_label, label_order, asc, by_str, NO_RESOLUTION_ORDER.
  assert (Hbound : ∀ r x, ranked (sort_strs text) r x → 0 ≤ r < u32_max - 1).
  { intros r x Hr%ranked_bound. rewrite length_sort_strs in Hr. lia. }
  assert (Hu : u32_max = 2 ^ 32 - 1) by reflexivity. unfold ranked_label in Ha, Hb.
  destruct (g a') as [x|], (g b') as [y|]; cbn [default from_option id].
  - destruct Ha as [Hna Ha], Hb as [Hnb Hb]. pose proof (Hbound _ _ Ha). pose proof (Hbound _ _ Hb).
    rewrite !(proj2 (Z.eqb_neq _ _)) by done. rewrite !as_u32_small by lia.
    destruct (ranked_compare _ _ _ _ _ Hn Ha Hb) as [Heq Hlt]. destruct (decide (x = y)) as [->|Hne].
    + rewrite (proj2 Heq eq_refl). rewrite Z.leb_refl. cbn. symmetry. apply str_leb_refl.
    + cbn. rewrite <- Hlt by done. destruct (Z.ltb_spec (f a) (f b)) as [?|?]; [apply Z.leb_le; lia|].
      apply Z.leb_gt. assert (f a ≠ f b) by (intros ?; by apply Hne, Heq). lia.
  - destruct Ha as [Hna Ha]. rewrite (proj2 (Z.eqb_neq _ _)) by done. rewrite Hb, Z.eqb_refl.
    pose proof (Hbound _ _ Ha). rewrite as_u32_small by lia. cbn. apply Z.leb_gt. lia.
  - destruct Hb as [Hnb Hb]. rewrite Ha, Z.eqb_refl. rewrite (proj2 (Z.eqb_neq _ _)) by done.
    pose proof (Hbound _ _ Hb). rewrite as_u32_small by lia. cbn. apply Z.leb_le. lia.
  - by rewrite Ha, Hb, Z.eqb_refl.
Qed.

(** ** The builder *)

(** A row with the text of its files. *)
Record Row := { row_source_file : str; row_target_file : str; row_rest : RowText }.

(** The first of each, in the order they come. *)
Definition firsts (l : list str) : list str := foldl (λ seen x, if decide (x ∈ seen) then seen else seen ++ [x]) [] l.

Lemma firsts_snoc l x : firsts (l ++ [x]) = if decide (x ∈ firsts l) then firsts l else firsts l ++ [x].
Proof. unfold firsts. by rewrite foldl_app. Qed.

Lemma elem_of_firsts l x : x ∈ firsts l ↔ x ∈ l.
Proof.
  induction l as [|y l IH] using rev_ind; [done|]. rewrite firsts_snoc, elem_of_app, list_elem_of_singleton, <- IH.
  case_decide; [naive_solver|]. by rewrite elem_of_app, list_elem_of_singleton.
Qed.

Lemma firsts_nodup l : NoDup (firsts l).
Proof.
  induction l as [|x l IH] using rev_ind; [constructor|]. rewrite firsts_snoc. case_decide; [done|].
  apply NoDup_app. split; [done|]. split; [by intros y Hy ->%list_elem_of_singleton|apply NoDup_singleton].
Qed.

(** The columns have at each place the ranks of the text of the row there. *)
Record holds (b : GenerationEdgesBuilder) (rows : list Row) : Prop := {
  hd_symbols : table_ok (b_symbols b);
  hd_files : table_ok (b_files b);
  hd_kinds : table_ok (b_kinds b);
  hd_resolutions : table_ok (b_resolutions b);
  hd_values : Forall2 (λ text k, edge_kind_from_stored text = Ok k) (names (b_kinds b)) (b_kind_values b);
  hd_source : Forall2 (λ r row, ranked (names (b_symbols b)) r (rt_source (row_rest row))) (b_source_symbol b) rows;
  hd_target : Forall2 (λ r row, ranked (names (b_symbols b)) r (rt_target (row_rest row))) (b_target_symbol b) rows;
  hd_source_file : Forall2 (λ r row, ranked (names (b_files b)) r (row_source_file row)) (b_source_file b) rows;
  hd_target_file : Forall2 (λ r row, ranked (names (b_files b)) r (row_target_file row)) (b_target_file b) rows;
  hd_kind : Forall2 (λ r row, ranked (names (b_kinds b)) r (rt_kind (row_rest row))) (b_kind b) rows;
  hd_resolution : Forall2 (λ r row, ranked_label (names (b_resolutions b)) r (rt_resolution (row_rest row))) (b_resolution b) rows;
  hd_labels : names (b_resolutions b) = firsts (omap (λ row, rt_resolution (row_rest row)) rows);
  hd_confidence : b_confidence b = map (λ row, rt_confidence (row_rest row)) rows;
  hd_sizes : (length (names (b_symbols b)) ≤ 2 * length rows ∧ length (names (b_kinds b)) ≤ length rows
              ∧ length (names (b_resolutions b)) ≤ length rows)%nat;
}.

(** The rows the ranks of which do not wrap: each brings at most two symbols. *)
Definition few (n : nat) : Prop := 2 * Z.of_nat n < u32_max.

Lemma with_capacity_holds : holds with_capacity [].
Proof. split; cbn; try apply empty_table_ok; try constructor; cbn; lia. Qed.

Lemma column_grows {T} (R : list str → Z → T → Prop) (f : Row → T) text l column rows r row :
  (∀ r x, R text r x → R (text ++ l) r x) → Forall2 (λ r row, R text r (f row)) column rows → R (text ++ l) r (f row) →
  Forall2 (λ r row, R (text ++ l) r (f row)) (column ++ [r]) (rows ++ [row]).
Proof.
  intros Hg Hc Hr. apply Forall2_app; [|by repeat constructor]. eapply Forall2_impl; [exact Hc|]. intros; by apply Hg.
Qed.

Lemma intern_kind_spec t values kind :
  table_ok t → Z.of_nat (length (names t)) < 2 ^ 32 →
  Forall2 (λ text k, edge_kind_from_stored text = Ok k) (names t) values →
  match intern_kind t values kind with
  | Ok (r, t', values') => table_ok t' ∧ ranked (names t') r kind ∧ (∃ l, names t' = names t ++ l ∧ (length l ≤ 1)%nat)
      ∧ Forall2 (λ text k, edge_kind_from_stored text = Ok k) (names t') values'
      ∧ is_ok (edge_kind_from_stored kind) = true
  | Err e => edge_kind_from_stored kind = Err e
  end.
Proof.
  intros Ht Hlen Hv. unfold intern_kind. destruct (rank_of_text t !! kind) as [r|] eqn:E.
  - pose proof (tb_rank _ Ht _ _ E) as Hr. split; [done|]. split; [done|]. split; [exists []; rewrite app_nil_r; split; [done|cbn; lia]|].
    split; [done|]. destruct Hr as [_ Hr]. destruct (Forall2_lookup_l _ _ _ _ _ Hv Hr) as (k & _ & ->). done.
  - destruct (edge_kind_from_stored kind) as [k|e] eqn:Ek; [|done].
    destruct (intern t kind) as [r t'] eqn:Ei. destruct (intern_ok _ _ _ _ Ht Hlen Ei) as (Ht' & Hr & l & El & Hl).
    split; [done|]. split; [done|]. split; [by exists l|]. split; [|done].
    unfold intern in Ei. rewrite E in Ei. injection Ei as <- <-. cbn [names] in *. apply Forall2_app; [done|by repeat constructor].
Qed.

Lemma push_ranked_spec b rows sf tf row :
  holds b rows → few (S (length rows)) →
  ranked (names (b_files b)) sf (row_source_file row) → ranked (names (b_files b)) tf (row_target_file row) →
  match push_ranked sf tf (row_rest row) b with
  | Ok b' => holds b' (rows ++ [row]) ∧ b_files b' = b_files b ∧ is_ok (edge_kind_from_stored (rt_kind (row_rest row))) = true
  | Err e => edge_kind_from_stored (rt_kind (row_rest row)) = Err e
  end.
Proof.
  intros Hb Hfew Hsf Htf. destruct Hb as [Hs Hf Hk Hr Hv H1 H2 H3 H4 H5 H6 HL H7 (Z1 & Z2 & Z3)]. unfold few in Hfew.
  assert (Hu : u32_max = 2 ^ 32 - 1) by reflexivity. unfold push_ranked.
  pose proof (intern_kind_spec _ _ (rt_kind (row_rest row)) Hk ltac:(lia) Hv) as Hkind.
  destruct (intern_kind _ _ _) as [[[k kinds] values]|e]; [|done]. destruct Hkind as (Hk' & Hkr & (lk & Ek & Lk) & Hv' & Hok).
  destruct (intern (b_symbols b) _) as [s1 t1] eqn:E1. destruct (intern_ok _ _ _ _ Hs ltac:(lia) E1) as (Ht1 & Hr1 & l1 & L1 & ?).
  assert (length (names t1) ≤ 2 * length rows + 1)%nat by (rewrite L1, length_app; lia).
  destruct (intern t1 _) as [s2 t2] eqn:E2. destruct (intern_ok _ _ _ _ Ht1 ltac:(lia) E2) as (Ht2 & Hr2 & l2 & L2 & ?).
  destruct (intern_resolution _ _) as [r3 t3] eqn:E3.
  assert (Hres : table_ok t3 ∧ ranked_label (names t3) r3 (rt_resolution (row_rest row))
                 ∧ (∃ l, names t3 = names (b_resolutions b) ++ l ∧ (length l ≤ 1)%nat)
                 ∧ names t3 = firsts (omap (λ row, rt_resolution (row_rest row)) (rows ++ [row]))).
  { unfold intern_resolution in E3. rewrite omap_app. cbn [omap list_omap]. destruct (rt_resolution (row_rest row)) as [x|].
    - assert (Hnew : names t3 = firsts (omap (λ row, rt_resolution (row_rest row)) rows ++ [x])).
      { rewrite firsts_snoc, <- HL. unfold intern in E3. destruct (rank_of_text _ !! x) as [r0|] eqn:Ex; injection E3 as <- <-; cbn [names].
        - apply (tb_rank _ Hr) in Ex as [_ Ex]. by rewrite decide_True by (by eapply list_elem_of_lookup_2).
        - rewrite decide_False; [done|]. intros [? ?]%(tb_all _ Hr). congruence. }
      destruct (intern_ok _ _ _ _ Hr ltac:(lia) E3) as (? & Hx & l & El & Hl). split; [done|]. split; [|by split; [exists l|]].
      split; [|done]. pose proof (ranked_bound _ _ _ Hx) as Hb. rewrite El, length_app in Hb.
      unfold NO_RESOLUTION. lia.
    - injection E3 as <- <-. split; [done|]. split; [done|]. rewrite !app_nil_r. split; [|done]. exists []. rewrite app_nil_r. split; [done|cbn; lia]. }
  destruct Hres as (Ht3 & Hr3 & (l3 & L3 & ?) & Hnew). split; [|done].
  split; cbn [b_symbols b_files b_kinds b_kind_values b_resolutions b_source_symbol b_target_symbol b_source_file
              b_target_file b_kind b_resolution b_confidence]; try done.
  - rewrite L2, L1, <- app_assoc in *. apply (column_grows ranked (λ row, rt_source (row_rest row)) (names (b_symbols b))); [|done|].
    + intros; by apply ranked_app.
    + rewrite app_assoc. by apply ranked_app.
  - rewrite L2, L1, <- app_assoc in *. apply (column_grows ranked (λ row, rt_target (row_rest row)) (names (b_symbols b))); [|done..].
    intros; by apply ranked_app.
  - rewrite <- (app_nil_r (names (b_files b))) in *. apply (column_grows ranked row_source_file); [|rewrite app_nil_r in H3|]; try done.
    intros; by apply ranked_app.
  - rewrite <- (app_nil_r (names (b_files b))) in *. apply (column_grows ranked row_target_file); [|rewrite app_nil_r in H4|]; try done.
    intros; by apply ranked_app.
  - rewrite Ek in *. apply (column_grows ranked (λ row, rt_kind (row_rest row))); [|done..]. intros; by apply ranked_app.
  - rewrite L3 in *. apply (column_grows ranked_label (λ row, rt_resolution (row_rest row))); [|done..]. intros; by apply ranked_label_app.
  - by rewrite H7, map_app.
  - rewrite L2, L1, Ek, L3, !length_app. cbn [length]. lia.
Qed.

Lemma intern_file_spec b rows path r b' :
  holds b rows → Z.of_nat (length (names (b_files b))) < 2 ^ 32 → intern_file b path = (r, b') →
  holds b' rows ∧ ranked (names (b_files b')) r path
  ∧ ∃ l, names (b_files b') = names (b_files b) ++ l ∧ (length l ≤ 1)%nat.
Proof.
  intros Hb Hlen. unfold intern_file. destruct (intern (b_files b) path) as [r0 t] eqn:E. intros [= <- <-].
  destruct (intern_ok _ _ _ _ (hd_files _ _ Hb) Hlen E) as (Ht & Hr & l & El & Hl).
  destruct Hb. split; [|cbn; split; [done|by exists l]]. unfold set_files.
  split; cbn [b_symbols b_files b_kinds b_kind_values b_resolutions b_source_symbol b_target_symbol b_source_file
              b_target_file b_kind b_resolution b_confidence]; try done; rewrite El;
    (eapply Forall2_impl; [eassumption|]; intros; by apply ranked_app).
Qed.

(** ** Reading columns in byte order *)

(** The texts of [t] are interned once each, in byte order. *)
Record text_ok (t : EdgeText) : Prop := {
  tx_symbols : ∃ l, symbols t = sort_strs l ∧ NoDup l;
  tx_files : ∃ l, files t = sort_strs l ∧ NoDup l;
  tx_kinds : ∃ l, kind_labels t = sort_strs l ∧ NoDup l;
  tx_labels : ∃ l, resolution_labels t = sort_strs l ∧ NoDup l ∧ Z.of_nat (length l) < u32_max;
  tx_ranks : ∀ x r, symbol_rank t !! x = Some r ↔ ranked (symbols t) r x;
  tx_values : Forall2 (λ text k, edge_kind_from_stored text = Ok k) (kind_labels t) (kind_values t);
}.

Record row_at (t : EdgeText) (c : Columns) (confidence : list f64) (id : Z) (row : Row) : Prop := {
  ra_source : ranked (symbols t) (at_rank (source_symbol_rank c) id) (rt_source (row_rest row));
  ra_target : ranked (symbols t) (at_rank (target_symbol_rank c) id) (rt_target (row_rest row));
  ra_source_file : ranked (files t) (at_rank (source_file_rank c) id) (row_source_file row);
  ra_target_file : ranked (files t) (at_rank (target_file_rank c) id) (row_target_file row);
  ra_kind : ranked (kind_labels t) (at_rank (kind_rank c) id) (rt_kind (row_rest row));
  ra_label : ranked_label (resolution_labels t) (at_rank (resolution_rank c) id) (rt_resolution (row_rest row));
  ra_confidence : confidence !! Z.to_nat id = Some (rt_confidence (row_rest row));
}.

Record reads (t : EdgeText) (c : Columns) (confidence : list f64) (rows : list Row) : Prop := {
  rd_text : text_ok t;
  rd_source : length (source_symbol_rank c) = length rows;
  rd_target : length (target_symbol_rank c) = length rows;
  rd_source_file : length (source_file_rank c) = length rows;
  rd_target_file : length (target_file_rank c) = length rows;
  rd_kind : length (kind_rank c) = length rows;
  rd_confidence : length confidence = length rows;
  rd_row : ∀ i row, rows !! i = Some row → row_at t c confidence (Z.of_nat i) row;
}.

Lemma column_at {T} (R : Z → T → Prop) (g : Z → Z) column (rows : list Row) (f : Row → T) i row :
  Forall2 (λ r row, R (g r) (f row)) column rows → rows !! i = Some row →
  R (at_rank (map g column) (Z.of_nat i)) (f row).
Proof.
  intros Hc Hi. destruct (Forall2_lookup_r _ _ _ _ _ Hc Hi) as (r & Hr & HR).
  unfold at_rank. rewrite Nat2Z.id, list_lookup_fmap, Hr. done.
Qed.

Lemma remap_column text column (rows : list Row) (f : Row → str) i row :
  Z.of_nat (length text) < 2 ^ 32 → Forall2 (λ r row, ranked text r (f row)) column rows → rows !! i = Some row →
  ranked (sort_strs text) (at_rank (remap (byte_order text) column) (Z.of_nat i)) (f row).
Proof.
  intros Hlen Hc Hi. apply (column_at (ranked (sort_strs text)) _ column rows f i row); [|done].
  eapply Forall2_impl; [exact Hc|]. intros; by apply remapped.
Qed.

Lemma remap_labels text column (rows : list Row) (f : Row → option str) i row :
  Z.of_nat (length text) < u32_max → Forall2 (λ r row, ranked_label text r (f row)) column rows → rows !! i = Some row →
  ranked_label (sort_strs text) (at_rank (remap_resolution (byte_order text) column) (Z.of_nat i)) (f row).
Proof.
  intros Hlen Hc Hi. apply (column_at (ranked_label (sort_strs text)) (λ r, if r =? NO_RESOLUTION then r else at_rank _ r) column rows f i row); [|done].
  eapply Forall2_impl; [exact Hc|]. intros r rw Hr. cbn beta. unfold ranked_label in *. destruct (f rw) as [x|].
  - destruct Hr as [Hne Hr]. rewrite (proj2 (Z.eqb_neq _ _)) by done.
    assert (Hx : ranked (sort_strs text) (at_rank (new_ranks (byte_order text)) r) x).
    { apply remapped; [|done]. assert (u32_max = 2 ^ 32 - 1) by reflexivity. lia. }
    split; [|done]. pose proof (ranked_bound _ _ _ Hx) as Hb. rewrite length_sort_strs in Hb. unfold NO_RESOLUTION. lia.
  - by rewrite Hr.
Qed.

Lemma ranks_of_spec text x r :
  NoDup text → Z.of_nat (length text) < 2 ^ 32 → ranks_of text !! x = Some r ↔ ranked text r x.
Proof.
  intros Hn Hlen. unfold ranks_of. change (seqZ 0 (Z.of_nat (length text))) with (all_ids (length text)).
  revert r. induction text as [|y l IH] using rev_ind; intros r.
  { cbn. split; [done|]. by intros [_ ?]. }
  rewrite length_app in *. cbn [length] in *. replace (length l + 1)%nat with (S (length l)) in * by lia.
  apply NoDup_app in Hn as (Hn & Hy & _).
  rewrite all_ids_snoc, zip_with_app by apply length_all_ids. rewrite foldl_app. cbn [zip_with foldl fst snd].
  rewrite as_u32_small by lia. destruct (decide (x = y)) as [->|Hne].
  - rewrite lookup_insert_eq. split.
    + intros [= <-]. apply ranked_snoc.
    + intros [Hr Hl]. rewrite lookup_snoc_Some in Hl. destruct Hl as [[? Hl]|[Hl _]]; [|f_equal; lia].
      exfalso. apply (Hy y); [by eapply list_elem_of_lookup_2|by apply list_elem_of_singleton].
  - rewrite lookup_insert_ne by done. rewrite IH by (done || lia). split; [apply ranked_app|].
    intros [Hr Hl]. split; [done|]. apply lookup_snoc_Some in Hl as [[_ Hl]|[_ Hl]]; congruence.
Qed.

Lemma reordered_values text values :
  Forall2 (λ text k, edge_kind_from_stored text = Ok k) text values →
  Forall2 (λ text k, edge_kind_from_stored text = Ok k) (sort_strs text) (reorder_values (byte_order text) values).
Proof.
  intros Hv. rewrite <- reorder_names_sorts. unfold reorder_names, reorder_values.
  assert (Hin : Forall (λ o, 0 ≤ o < Z.of_nat (length text)) (byte_order text)).
  { apply Forall_forall. intros o Ho. rewrite byte_order_perm in Ho. by apply elem_of_all_ids. }
  induction Hin as [|o order [Ho Hlt] _ IH]; cbn [map]; constructor; [|done]. unfold text_at.
  destruct (lookup_lt_is_Some_2 text (Z.to_nat o) ltac:(lia)) as [x Hx].
  destruct (Forall2_lookup_l _ _ _ _ _ Hv Hx) as (k & Hk & Ek). by rewrite Hx, Hk.
Qed.

Lemma rank_by_bytes_reads b rows :
  holds b rows → few (length rows) → Z.of_nat (length (names (b_files b))) < 2 ^ 32 →
  reads (rank_by_bytes b).1 (rank_by_bytes b).2 (b_confidence b) rows.
Proof.
  intros [Hs Hf Hk Hr Hv H1 H2 H3 H4 H5 H6 _ H7 (Z1 & Z2 & Z3)] Hfew Hfiles. unfold few in Hfew.
  assert (Hu : u32_max = 2 ^ 32 - 1) by reflexivity. cbn [rank_by_bytes fst snd].
  split; cbn [source_symbol_rank target_symbol_rank source_file_rank target_file_rank kind_rank]; unfold remap; rewrite ?length_map;
    try (by eapply Forall2_length).
  - split; cbn [symbols files kind_labels resolution_labels symbol_rank kind_values]; rewrite ?reorder_names_sorts.
    + eexists. split; [done|apply Hs].
    + eexists. split; [done|apply Hf].
    + eexists. split; [done|apply Hk].
    + eexists. split; [done|]. split; [apply Hr|lia].
    + intros x r. apply ranks_of_spec; [apply sort_strs_nodup, Hs|rewrite length_sort_strs; lia].
    + by apply reordered_values.
  - by rewrite H7, length_map.
  - intros i row Hi. split; cbn [source_symbol_rank target_symbol_rank source_file_rank target_file_rank kind_rank resolution_rank
      symbols files kind_labels resolution_labels]; rewrite ?reorder_names_sorts.
    + apply (remap_column _ _ rows (λ row, rt_source (row_rest row))); [lia|done..].
    + apply (remap_column _ _ rows (λ row, rt_target (row_rest row))); [lia|done..].
    + apply (remap_column _ _ rows row_source_file); done.
    + apply (remap_column _ _ rows row_target_file); done.
    + apply (remap_column _ _ rows (λ row, rt_kind (row_rest row))); [lia|done..].
    + apply (remap_labels _ _ rows (λ row, rt_resolution (row_rest row))); [lia|done..].
    + rewrite H7, Nat2Z.id, list_lookup_fmap, Hi. done.
Qed.

(** ** The read order *)

(** The read order on text: the greatest confidence first, then paths, symbols, kind and
    label. *)
Definition row_leb : Row → Row → bool :=
  desc (λ r, total_key (rt_confidence (row_rest r)))
    (asc_str row_source_file (asc_str row_target_file (asc_str (λ r, rt_source (row_rest r))
      (asc_str (λ r, rt_target (row_rest r)) (asc_str (λ r, rt_kind (row_rest r))
        (by_label (λ r, rt_resolution (row_rest r)))))))).

Lemma sort_key_order t c confidence i j a b :
  text_ok t → row_at t c confidence i a → row_at t c confidence j b →
  edge_read_order (sort_key c confidence i) (sort_key c confidence j) = row_leb a b.
Proof.
  intros [(ls & Es & Ns) (lf & Ef & Nf) (lk & Ek & Nk) (ll & El & Nl & Ll) _ _] [A1 A2 A3 A4 A5 A6 A7] [B1 B2 B3 B4 B5 B6 B7].
  rewrite Es, Ef, Ek, El in *. unfold edge_read_order, row_leb.
  assert (Hrest : ∀ r1 r2 k1 k2, r1 k1 k2 = r2 a b → k1 = sort_key c confidence i → k2 = sort_key c confidence j →
    desc (λ k, total_key (k_confidence k)) r1 k1 k2 = desc (λ r, total_key (rt_confidence (row_rest r))) r2 a b).
  { intros r1 r2 k1 k2 Hr -> ->. unfold desc. cbn [sort_key k_confidence]. rewrite A7, B7. cbn [default from_option id]. by rewrite Hr. }
  apply Hrest; [|done..].
  apply (asc_ranked lf k_source_file row_source_file); [done..|].
  apply (asc_ranked lf k_target_file row_target_file); [done..|].
  apply (asc_ranked ls k_source_symbol (λ r, rt_source (row_rest r))); [done..|].
  apply (asc_ranked ls k_target_symbol (λ r, rt_target (row_rest r))); [done..|].
  apply (asc_ranked lk k_kind (λ r, rt_kind (row_rest r))); [done..|].
  apply (label_ranked ll (λ k, at_rank (resolution_rank c) (k_row k)) (λ r, rt_resolution (row_rest r))
           (sort_key c confidence i) (sort_key c confidence j)); done.
Qed.

Definition blank_row : Row :=
  {| row_source_file := []; row_target_file := [];
     row_rest := {| rt_source := []; rt_target := []; rt_kind := []; rt_confidence := SpecFloat.S754_nan; rt_resolution := None |} |}.

Definition row_of (rows : list Row) (id : Z) : Row := default blank_row (rows !! Z.to_nat id).

Lemma row_of_lookup rows id : id ∈ all_ids (length rows) → rows !! Z.to_nat id = Some (row_of rows id).
Proof.
  intros H%elem_of_all_ids. unfold row_of. destruct (lookup_lt_is_Some_2 rows (Z.to_nat id)) as [r ->]; [lia|done].
Qed.

Lemma map_row_of rows : map (row_of rows) (all_ids (length rows)) = rows.
Proof.
  apply list_eq. intros i. rewrite list_lookup_fmap. destruct (decide (i < length rows)%nat) as [Hi|Hi].
  - unfold all_ids. rewrite seqZ_lookup by done. cbn. unfold row_of. rewrite Nat2Z.id.
    destruct (lookup_lt_is_Some_2 _ _ Hi) as [x ->]. done.
  - rewrite !lookup_ge_None_2; [done|lia|]. rewrite length_all_ids. lia.
Qed.

Lemma read_permutation_sorts t c confidence rows :
  reads t c confidence rows →
  read_permutation c confidence (length rows) ≡ₚ all_ids (length rows)
  ∧ map (row_of rows) (read_permutation c confidence (length rows)) = sort_by row_leb rows.
Proof.
  intros Hr. unfold read_permutation. rewrite (sort_by_map (sort_key c confidence) edge_read_order
    (λ i j, row_leb (row_of rows i) (row_of rows j))).
  - rewrite map_map. cbn [sort_key k_row]. rewrite map_id. split; [apply sort_by_perm|].
    transitivity (sort_by row_leb (map (row_of rows) (all_ids (length rows)))); [|by rewrite map_row_of].
    symmetry. by apply sort_by_map.
  - intros i j Hi Hj. pose proof (row_of_lookup _ _ Hi) as Hri. pose proof (row_of_lookup _ _ Hj) as Hrj.
    apply elem_of_all_ids in Hi, Hj. apply (sort_key_order t); [apply Hr|..].
    + rewrite <- (Z2Nat.id i) at 1 by lia. by eapply rd_row.
    + rewrite <- (Z2Nat.id j) at 1 by lia. by eapply rd_row.
Qed.

Lemma permute_at column p i id : p !! i = Some id → at_rank (permute column p) (Z.of_nat i) = at_rank column id.
Proof. intros H. unfold permute. unfold at_rank at 1. rewrite Nat2Z.id, list_lookup_fmap, H. done. Qed.

(** The rows in the order of their ids. *)
Definition in_order (order : EdgeOrder) (rows : list Row) : list Row :=
  match order with AsPushed => rows | ReadOrder => sort_by row_leb rows end.

Lemma ordered_reads order t c confidence rows :
  reads t c confidence rows →
  reads t (ordered order c confidence (length rows)).1 (ordered order c confidence (length rows)).2 (in_order order rows).
Proof.
  intros Hr. destruct order; [done|]. destruct (read_permutation_sorts _ _ _ _ Hr) as [Hp Hrows].
  cbn [ordered in_order fst snd]. set (p := read_permutation _ _ _) in *.
  assert (Hlen : length p = length (sort_by row_leb rows)) by (rewrite Hp, length_all_ids, length_sort_by; done).
  split; unfold permute_confidence; cbn [permute_columns source_symbol_rank target_symbol_rank source_file_rank target_file_rank kind_rank];
    unfold permute; rewrite ?length_map; try done; [apply Hr|].
  intros i row Hi. rewrite <- Hrows, list_lookup_fmap in Hi. destruct (p !! i) as [id|] eqn:Ep; [|done]. injection Hi as <-.
  assert (Hid : id ∈ all_ids (length rows)) by (rewrite <- Hp; by eapply list_elem_of_lookup_2).
  pose proof (row_of_lookup _ _ Hid) as Hrow. apply elem_of_all_ids in Hid.
  destruct (rd_row _ _ _ _ Hr _ _ Hrow) as [A1 A2 A3 A4 A5 A6 A7]. rewrite Z2Nat.id in * by lia.
  split; cbn [permute_columns source_symbol_rank target_symbol_rank source_file_rank target_file_rank kind_rank resolution_rank];
    rewrite ?(permute_at _ _ _ _ Ep); try done.
  rewrite Nat2Z.id, list_lookup_fmap, Ep. cbn [fmap option_fmap option_map]. by rewrite A7.
Qed.

(** ** The counting sort *)

Section CountingSort.
Variables (keys : list Z) (ranks : nat).
Hypothesis Hkeys : ∀ k, k ∈ keys → 0 ≤ k < Z.of_nat ranks.
Hypothesis Hsmall : Z.of_nat (length keys) < 2 ^ 32.

(** The ids of [ks] with key [k], in order. *)
Definition ids_of (ks : list Z) (k : nat) : list Z :=
  List.filter (λ id, at_rank ks id =? Z.of_nat k) (all_ids (length ks)).

Lemma ids_of_snoc ks x k :
  ids_of (ks ++ [x]) k = ids_of ks k ++ (if x =? Z.of_nat k then [Z.of_nat (length ks)] else []).
Proof.
  unfold ids_of. rewrite length_app. cbn [length]. replace (length ks + 1)%nat with (S (length ks)) by lia.
  rewrite all_ids_snoc, List.filter_app. f_equal.
  - apply filter_agree. intros id Hid%elem_of_all_ids. unfold at_rank. by rewrite lookup_app_l by lia.
  - cbn [List.filter]. unfold at_rank. rewrite Nat2Z.id, list_lookup_middle by done. cbn. done.
Qed.

Definition count_of (ks : list Z) (k : nat) : Z := Z.of_nat (length (ids_of ks k)).

Fixpoint before (ks : list Z) (k : nat) : Z :=
  match k with O => 0 | S k => before ks k + count_of ks k end.

Lemma counts_spec ks :
  (∀ k, k ∈ ks → 0 ≤ k < Z.of_nat ranks) →
  foldl count_key (replicate (S ranks) 0) ks !! 0%nat = Some 0
  ∧ (∀ k, (k < ranks)%nat → foldl count_key (replicate (S ranks) 0) ks !! S k = Some (count_of ks k))
  ∧ length (foldl count_key (replicate (S ranks) 0) ks) = S ranks.
Proof.
  induction ks as [|x ks IH] using rev_ind; intros Hks.
  { cbn [foldl]. split; [done|]. split; [|apply length_replicate]. intros k Hk. by rewrite lookup_replicate_2 by lia. }
  rewrite foldl_snoc. destruct IH as (H0 & H1 & H2); [intros k Hk; apply Hks, elem_of_app; by left|].
  assert (Hx : 0 ≤ x < Z.of_nat ranks) by (apply Hks, elem_of_app; right; constructor).
  unfold count_key. split; [|split; [|by rewrite length_alter]].
  - by rewrite list_lookup_alter_ne by lia.
  - intros k Hk. unfold count_of. rewrite ids_of_snoc, length_app. destruct (Z.eqb_spec x (Z.of_nat k)) as [->|Hne].
    + rewrite Nat2Z.id, list_lookup_alter_eq, H1 by done. cbn [fmap option_fmap option_map length]. f_equal.
      unfold count_of. lia.
    + rewrite list_lookup_alter_ne by lia. rewrite H1 by done. cbn [length]. f_equal. unfold count_of. lia.
Qed.

Lemma sums_spec m :
  (m ≤ ranks)%nat →
  let sums := foldl add_before (foldl count_key (replicate (S ranks) 0) keys) (seq 0 m) in
  (∀ k, (k ≤ m)%nat → sums !! k = Some (before keys k))
  ∧ (∀ k, (m ≤ k < ranks)%nat → sums !! S k = Some (count_of keys k)) ∧ length sums = S ranks.
Proof.
  destruct (counts_spec keys Hkeys) as (H0 & H1 & H2). induction m as [|m IH]; intros Hm.
  - cbn [seq foldl]. split; [|split; [intros; apply H1; lia|done]]. intros k Hk. by replace k with 0%nat by lia.
  - cbn zeta. rewrite seq_S, foldl_snoc. cbn [plus]. destruct IH as (I1 & I2 & I3); [lia|].
    set (sums := foldl add_before _ (seq 0 m)) in *. unfold add_before at 1 2 3. rewrite (I1 m) by lia. cbn [default from_option id].
    split; [|split; [|by rewrite length_alter]].
    + intros k Hk. destruct (decide (k = S m)) as [->|Hne].
      * rewrite list_lookup_alter_eq, I2 by lia. cbn. done.
      * rewrite list_lookup_alter_ne by lia. apply I1. lia.
    + intros k Hk. rewrite list_lookup_alter_ne by lia. apply I2. lia.
Qed.

Definition sums : list Z := foldl add_before (foldl count_key (replicate (S ranks) 0) keys) (seq 0 ranks).

Lemma before_mono j k : (j ≤ k)%nat → before keys j ≤ before keys k.
Proof. induction 1; [lia|]. cbn [before]. unfold count_of. lia. Qed.

Lemma before_apart j k : (j < k)%nat → before keys j + count_of keys j ≤ before keys k.
Proof. intros H. apply (before_mono (S j)). lia. Qed.

Lemma before_nonneg k : 0 ≤ before keys k.
Proof. apply (before_mono 0). lia. Qed.

(** Every key is counted once. *)
Lemma before_total ks k : (∀ x, x ∈ ks → 0 ≤ x) → before ks k = Z.of_nat (length (List.filter (λ x, x <? Z.of_nat k) ks)).
Proof.
  induction ks as [|x ks IH] using rev_ind; intros Hk.
  - cbn. assert (Hz : ∀ k, before [] k = 0) by (clear; induction k as [|k IH]; [done|]; cbn [before]; by rewrite IH). apply Hz.
  - rewrite List.filter_app, length_app, Nat2Z.inj_add, <- IH by (intros; apply Hk, elem_of_app; by left).
    assert (Hx : 0 ≤ x) by (apply Hk, elem_of_app; right; constructor). clear IH Hk. cbn [List.filter].
    induction k as [|k IHk].
    + cbn [before]. destruct (Z.ltb_spec x (Z.of_nat 0)); cbn; lia.
    + cbn [before]. rewrite IHk. unfold count_of. rewrite ids_of_snoc, length_app.
      destruct (Z.ltb_spec x (Z.of_nat k)), (Z.eqb_spec x (Z.of_nat k)), (Z.ltb_spec x (Z.of_nat (S k))); cbn [length]; lia.
Qed.

Lemma before_all : before keys ranks = Z.of_nat (length keys).
Proof.
  rewrite before_total by (intros x Hx; apply Hkeys in Hx; lia). f_equal. f_equal.
  apply filter_all. intros x Hx. apply Hkeys in Hx. apply Z.ltb_lt. lia.
Qed.

Lemma count_of_app ks l k : count_of ks k ≤ count_of (ks ++ l) k.
Proof.
  induction l as [|x l IH] using rev_ind; [rewrite app_nil_r; lia|]. rewrite app_assoc. unfold count_of at 2.
  rewrite ids_of_snoc, length_app. unfold count_of in *. lia.
Qed.

Lemma before_bound k : (k < ranks)%nat → before keys k + count_of keys k ≤ Z.of_nat (length keys).
Proof. intros H. rewrite <- before_all. by apply before_apart. Qed.

Record placed (ks : list Z) (st : list Z * list Z) : Prop := {
  pl_cursor : ∀ k, (k < ranks)%nat → st.1 !! k = Some (before keys k + count_of ks k);
  pl_length : length st.2 = length keys;
  pl_ids : ∀ k j id, (k < ranks)%nat → ids_of ks k !! j = Some id → st.2 !! (Z.to_nat (before keys k) + j)%nat = Some id;
}.

Lemma place_next ks x rest st :
  keys = ks ++ x :: rest → placed ks st → placed (ks ++ [x]) (place_id st (Z.of_nat (length ks), x)).
Proof.
  intros Ek [Hc Hl Hi]. destruct st as [cursor ids]. cbn [fst snd place_id] in *.
  assert (Hx : 0 ≤ x < Z.of_nat ranks) by (apply Hkeys; rewrite Ek; apply elem_of_app; right; constructor).
  set (k0 := Z.to_nat x). assert (Ex : x = Z.of_nat k0) by (unfold k0; lia). assert (Hk0 : (k0 < ranks)%nat) by (unfold k0; lia).
  assert (Hslot : at_rank cursor x = before keys k0 + count_of ks k0) by (unfold at_rank; fold k0; by rewrite (Hc k0)).
  assert (Hcnt : ∀ l k, count_of (l ++ [x]) k = count_of l k + (if x =? Z.of_nat k then 1 else 0)).
  { intros l k. unfold count_of. rewrite ids_of_snoc, length_app. destruct (x =? Z.of_nat k); cbn [length]; lia. }
  assert (Hroom : ∀ k, count_of (ks ++ [x]) k ≤ count_of keys k).
  { intros k. rewrite Ek. change (ks ++ x :: rest) with (ks ++ [x] ++ rest). rewrite app_assoc. apply count_of_app. }
  assert (Hlt : count_of ks k0 < count_of keys k0).
  { pose proof (Hroom k0) as H. rewrite Hcnt, Ex, Z.eqb_refl in H. lia. }
  pose proof (before_bound k0 Hk0) as Hbound. pose proof (before_nonneg k0) as Hnn.
  split; cbn [fst snd].
  - intros k Hk. rewrite Hcnt. fold k0. destruct (Z.eqb_spec x (Z.of_nat k)) as [E|Hne].
    + assert (k = k0) as -> by (unfold k0; lia). rewrite list_lookup_alter_eq, Hc by done. cbn. f_equal. lia.
    + rewrite list_lookup_alter_ne by (unfold k0; lia). rewrite Hc by done. f_equal. lia.
  - by rewrite length_insert.
  - intros k j id Hk. rewrite Hslot, ids_of_snoc, as_u32_small by (rewrite Ek, length_app in Hsmall; lia).
    intros Hj. apply lookup_app_Some in Hj as [Hj|[Hge Hj]].
    + assert (Hjlt : Z.of_nat j < count_of ks k) by (apply lookup_lt_Some in Hj; unfold count_of; lia).
      rewrite list_lookup_insert_ne; [by apply Hi|]. pose proof (before_nonneg k). pose proof (Hroom k) as Hk'.
      assert (0 ≤ count_of ks k0) by (unfold count_of; lia). rewrite Hcnt in Hk'. destruct (Nat.lt_trichotomy k k0) as [Hlt'|[->|Hgt]].
      * pose proof (before_apart _ _ Hlt'). destruct (x =? Z.of_nat k); lia.
      * lia.
      * pose proof (before_apart _ _ Hgt). lia.
    + destruct (Z.eqb_spec x (Z.of_nat k)) as [E|Hne]; [|done]. assert (k = k0) as -> by (unfold k0; lia).
      destruct (j - length (ids_of ks k0))%nat as [|j'] eqn:Ej; [|done]. injection Hj as <-.
      replace (Z.to_nat (before keys k0) + j)%nat with (Z.to_nat (before keys k0 + count_of ks k0)).
      * apply list_lookup_insert_eq. unfold count_of in *. lia.
      * unfold count_of in *. lia.
Qed.

Lemma placing ks rest :
  keys = ks ++ rest → placed ks (foldl place_id (sums, replicate (length keys) 0) (zip (all_ids (length ks)) ks)).
Proof.
  destruct (sums_spec ranks (le_n _)) as (Hsums & _ & _). revert rest.
  induction ks as [|x ks IH] using rev_ind; intros rest Ek.
  - split; cbn.
    + intros k Hk. rewrite Z.add_0_r. apply Hsums. lia.
    + apply length_replicate.
    + intros k j id _ Hj. done.
  - rewrite length_app. cbn [length]. replace (length ks + 1)%nat with (S (length ks)) by lia.
    rewrite all_ids_snoc, zip_with_app by apply length_all_ids. rewrite foldl_app. cbn [zip_with foldl].
    rewrite <- app_assoc in Ek. apply (place_next ks x rest); [done|]. by apply (IH (x :: rest)).
Qed.

(** The run of a rank is the ids of the edges that have it, ascending. *)
Lemma run_is_ids (k : nat) : (k < ranks)%nat → run (build_adjacency keys ranks) (Z.of_nat k) = ids_of keys k.
Proof.
  intros Hk. unfold build_adjacency. fold sums. pose proof (placing keys [] (eq_sym (app_nil_r _))) as [_ Hl Hi].
  destruct (foldl place_id _ _) as [cursor ids]. cbn [fst snd] in *. unfold run. cbn [offsets run_ids].
  destruct (sums_spec ranks (le_n _)) as (Hsums & _ & _). unfold at_rank.
  replace (Z.to_nat (Z.of_nat k + 1)) with (S k) by lia. rewrite Nat2Z.id. fold sums in Hsums.
  rewrite !Hsums by lia. cbn [default from_option id before]. pose proof (before_nonneg k). pose proof (before_bound k Hk).
  assert (Hcount : (Z.to_nat (before keys k + count_of keys k) - Z.to_nat (before keys k) = length (ids_of keys k))%nat).
  { unfold count_of. lia. }
  apply list_eq. intros j. rewrite Hcount. destruct (decide (j < length (ids_of keys k))%nat) as [Hj|Hj].
  - rewrite lookup_take_lt, lookup_drop by done. destruct (lookup_lt_is_Some_2 _ _ Hj) as [id Hid].
    rewrite Hid. by apply Hi.
  - rewrite (lookup_ge_None_2 (ids_of keys k)) by lia. apply lookup_ge_None_2. rewrite length_take. lia.
Qed.

End CountingSort.

(** ** What is pushed *)

Definition known_kind (kind : str) : Prop := is_ok (edge_kind_from_stored kind) = true.

Lemma collect_ok {A B E} (f : A → result B E) l ys : collect f l = Ok ys → Forall2 (λ x y, f x = Ok y) l ys.
Proof.
  revert ys. induction l as [|x l IH]; intros ys; cbn [collect]; [intros [= <-]; constructor|].
  destruct (f x) as [y|] eqn:Ef; [|done]. destruct (collect f l) as [zs|]; [|done]. intros [= <-]. by constructor; [|apply IH].
Qed.

Lemma collect_err {A B E} (f : A → result B E) l e : collect f l = Err e → ∃ x, x ∈ l ∧ f x = Err e.
Proof.
  induction l as [|x l IH]; cbn [collect]; [done|]. destruct (f x) as [y|] eqn:Ef.
  - destruct (collect f l) as [zs|] eqn:Ec; [done|]. intros H. destruct IH as (z & Hz & Hf); [done|]. exists z. split; [by constructor|done].
  - intros [= <-]. exists x. split; [constructor|done].
Qed.

Definition row_of_edge (e : StoredEdge) : Row :=
  {| row_source_file := se_source_file e; row_target_file := se_target_file e; row_rest := row_text e |}.

Lemma push_edges_spec edges b rows :
  holds b rows → (length (names (b_files b)) ≤ 2 * length rows)%nat → few (length rows + length edges) →
  match push_edges edges b with
  | Ok b' => holds b' (rows ++ map row_of_edge edges) ∧ (length (names (b_files b')) ≤ 2 * (length rows + length edges))%nat
             ∧ Forall (λ e, known_kind (se_edge_kind e)) edges
  | Err err => ∃ pre e post, edges = pre ++ e :: post ∧ Forall (λ e, known_kind (se_edge_kind e)) pre
                             ∧ edge_kind_from_stored (se_edge_kind e) = Err err
  end.
Proof.
  revert b rows. induction edges as [|e edges IH]; intros b rows Hb Hf Hfew; cbn [push_edges map].
  { rewrite app_nil_r. split; [done|]. split; [lia|constructor]. }
  assert (Hu : u32_max = 2 ^ 32 - 1) by reflexivity. cbn [length] in Hfew.
  destruct (intern_file b _) as [sf b1] eqn:E1. unfold few in Hfew.
  destruct (intern_file_spec _ _ _ _ _ Hb ltac:(lia) E1) as (Hb1 & Hsf & l1 & L1 & ?).
  assert (length (names (b_files b1)) ≤ 2 * length rows + 1)%nat by (rewrite L1, length_app; lia).
  destruct (intern_file b1 _) as [tf b2] eqn:E2.
  destruct (intern_file_spec _ _ _ _ _ Hb1 ltac:(lia) E2) as (Hb2 & Htf & l2 & L2 & ?).
  assert (length (names (b_files b2)) ≤ 2 * length rows + 2)%nat by (rewrite L2, length_app; lia).
  assert (Hfew1 : few (S (length rows))) by (unfold few; lia).
  assert (Hsf2 : ranked (names (b_files b2)) sf (se_source_file e)) by (rewrite L2; by apply ranked_app).
  pose proof (push_ranked_spec b2 rows sf tf (row_of_edge e) Hb2 Hfew1 Hsf2 Htf) as Hpush. cbn [row_rest row_of_edge] in Hpush.
  destruct (push_ranked sf tf (row_text e) b2) as [b3|err].
  - destruct Hpush as (Hb3 & Hfiles & Hk).
    specialize (IH b3 (rows ++ [row_of_edge e]) Hb3). rewrite length_app in IH. cbn [length] in IH. rewrite Hfiles in IH.
    specialize (IH ltac:(lia)). unfold few in IH. specialize (IH ltac:(lia)). destruct (push_edges edges b3) as [b4|err].
    + destruct IH as (Hb4 & Hlen & Hks). rewrite <- app_assoc in Hb4. split; [done|]. cbn [length]. split; [lia|by constructor].
    + destruct IH as (pre & e' & post & -> & Hpre & He). exists (e :: pre), e', post. split; [done|]. split; [by constructor|done].
  - exists [], e, edges. split; [done|]. by split.
Qed.

(** ** Paths *)

Lemma ids_folded l m id r :
  foldl (λ (m : gmap Z Z) (nr : Z * (Z * str)), <[nr.2.1 := as_u32 nr.1]> m) m l !! id = Some r →
  m !! id = Some r ∨ ∃ n path, (n, (id, path)) ∈ l ∧ r = as_u32 n.
Proof.
  revert m. induction l as [|[n [i path]] l IH]; intros m; cbn [foldl fst snd]; [by left|]. intros [Hm|(n' & path' & Hin & ->)]%IH.
  - destruct (decide (i = id)) as [->|Hne].
    + rewrite lookup_insert_eq in Hm. injection Hm as <-. right. exists n, path. split; [constructor|done].
    + rewrite lookup_insert_ne in Hm by done. by left.
  - right. exists n', path'. split; [by constructor|done].
Qed.

Lemma ids_kept l m id :
  is_Some (m !! id) ∨ id ∈ map (λ nr, nr.2.1) l →
  is_Some (foldl (λ (m : gmap Z Z) (nr : Z * (Z * str)), <[nr.2.1 := as_u32 nr.1]> m) m l !! id).
Proof.
  revert m. induction l as [|[n [i path]] l IH]; intros m; cbn [foldl fst snd map]; [intros [?|?%not_elem_of_nil]; done|].
  intros H. apply IH. destruct (decide (i = id)) as [->|Hne]; [left; rewrite lookup_insert_eq; by eexists|].
  rewrite lookup_insert_ne by done. destruct H as [?|[?|?]%elem_of_cons]; [by left|congruence|by right].
Qed.

Lemma read_paths_spec paths :
  Z.of_nat (length paths) < 2 ^ 32 →
  (∀ id r, rank_of (read_paths paths) id = Ok r →
     0 ≤ r < Z.of_nat (length (ordered_paths (read_paths paths))) ∧ (id, path_of (read_paths paths) r) ∈ paths)
  ∧ (∀ id e, rank_of (read_paths paths) id = Err e → ∀ path, (id, path) ∉ paths)
  ∧ length (ordered_paths (read_paths paths)) = length paths.
Proof.
  intros Hlen. unfold read_paths, rank_of, path_of. cbn [ordered_paths rank_by_id]. set (L := sort_by _ paths).
  assert (HL : length L = length paths) by apply length_sort_by. rewrite length_map, HL. split; [|split; [|done]].
  - intros id r. destruct (_ !! id) as [r0|] eqn:E; [|done]. intros [= <-].
    apply ids_folded in E as [E|(n & path & Hin & ->)]; [by rewrite lookup_empty in E|].
    apply elem_of_lookup_zip_with in Hin as (i & n' & y & [= <- <-] & Hn & Hy).
    assert (Hi : (i < length L)%nat) by (by apply lookup_lt_Some in Hy).
    unfold all_ids in Hn. rewrite seqZ_lookup in Hn by lia. injection Hn as <-. rewrite as_u32_small by lia.
    split; [lia|]. unfold text_at. rewrite Nat2Z.id, list_lookup_fmap, Hy. cbn. apply (elem_of_sort_by (by_str snd)).
    by eapply list_elem_of_lookup_2.
  - intros id e. destruct (_ !! id) as [r0|] eqn:E; [done|]. intros _ path Hin. apply (elem_of_sort_by (by_str snd)) in Hin. fold L in Hin.
    assert (Hs : is_Some (None : option Z)); [|by destruct Hs]. rewrite <- E. apply ids_kept. right.
    apply elem_of_map. apply list_elem_of_lookup in Hin as [i Hi]. exists (Z.of_nat i, (id, path)). split; [done|].
    apply elem_of_lookup_zip_with. exists i, (Z.of_nat i), (id, path). split; [done|]. split; [|done].
    apply seqZ_lookup. apply lookup_lt_Some in Hi. lia.
Qed.

Lemma intern_paths_spec p n :
  Z.of_nat n < 2 ^ 32 →
  let st := foldl (intern_path p) ([], with_capacity) (all_ids n) in
  holds st.2 [] ∧ length st.1 = n ∧ (length (names (b_files st.2)) ≤ n)%nat
  ∧ ∀ r, 0 ≤ r < Z.of_nat n → ranked (names (b_files st.2)) (at_rank st.1 r) (path_of p r).
Proof.
  induction n as [|n IH]; intros Hn; cbn zeta.
  { split; [apply with_capacity_holds|]. split; [done|]. split; [done|]. intros r Hr. lia. }
  rewrite all_ids_snoc, foldl_app. cbn [foldl]. destruct (foldl (intern_path p) _ (all_ids n)) as [ranks b]. cbn [fst snd] in IH.
  destruct IH as (Hb & Hl & Hf & Hr); [lia|]. unfold intern_path. cbn [fst snd].
  destruct (intern_file b _) as [r b'] eqn:E. destruct (intern_file_spec _ _ _ _ _ Hb ltac:(lia) E) as (Hb' & Hrk & l & L & ?).
  cbn [fst snd]. split; [done|]. rewrite length_app. cbn [length]. split; [lia|]. split; [rewrite L, length_app; lia|].
  intros k Hk. unfold at_rank. destruct (decide (k = Z.of_nat n)) as [->|Hne].
  - rewrite Nat2Z.id, <- Hl, list_lookup_middle by done. by rewrite Hl.
  - rewrite lookup_app_l by lia. rewrite L. apply ranked_app. apply Hr. lia.
Qed.

(** The row of a stored row with the text of its paths. *)
Record joins (paths : list (Z * str)) (row : EdgeRow) (r : Row) : Prop := {
  jn_source : (er_source_file_id row, row_source_file r) ∈ paths;
  jn_target : (er_target_file_id row, row_target_file r) ∈ paths;
  jn_rest : row_rest r = er_text row;
}.

(** A row this binary can read. *)
Definition readable (paths : list (Z * str)) (row : EdgeRow) : Prop :=
  (∃ path, (er_source_file_id row, path) ∈ paths) ∧ (∃ path, (er_target_file_id row, path) ∈ paths)
  ∧ known_kind (rt_kind (er_text row))
  ∧ ∀ x, rt_resolution (er_text row) = Some x → is_Some (from_label x).

Lemma push_rows_spec paths ranks rows b done_rows :
  Z.of_nat (length paths) < 2 ^ 32 →
  (∀ r, 0 ≤ r < Z.of_nat (length paths) → ranked (names (b_files b)) (at_rank ranks r) (path_of (read_paths paths) r)) →
  holds b done_rows → few (length done_rows + length rows) →
  match push_rows (read_paths paths) ranks rows b with
  | Ok b' => ∃ js, Forall2 (joins paths) rows js ∧ holds b' (done_rows ++ js) ∧ b_files b' = b_files b
                   ∧ Forall (λ row, known_kind (rt_kind (er_text row))) rows
  | Err _ => ¬ Forall (readable paths) rows
  end.
Proof.
  intros Hlen. destruct (read_paths_spec paths Hlen) as (Hrank & Hmiss & Hordered). revert b done_rows.
  induction rows as [|row rows IH]; intros b done_rows Hr Hb Hfew; cbn [push_rows].
  { exists []. rewrite app_nil_r. split; [constructor|]. split; [done|]. split; [done|constructor]. }
  destruct (rank_of _ (er_source_file_id row)) as [s|e] eqn:Es.
  2: { intros (((path & Hp) & _) & _)%Forall_cons. by apply (Hmiss _ _ Es path). }
  destruct (rank_of _ (er_target_file_id row)) as [t|e] eqn:Et.
  2: { intros ((_ & (path & Hp) & _) & _)%Forall_cons. by apply (Hmiss _ _ Et path). }
  apply Hrank in Es as [Hs Hsp], Et as [Ht Htp]. rewrite Hordered in Hs, Ht.
  set (r := {| row_source_file := path_of (read_paths paths) s; row_target_file := path_of (read_paths paths) t; row_rest := er_text row |}).
  cbn [length] in Hfew. unfold few in *.
  pose proof (push_ranked_spec b done_rows (at_rank ranks s) (at_rank ranks t) r Hb ltac:(unfold few; lia) (Hr s Hs) (Hr t Ht)) as Hpush.
  cbn [row_rest r] in Hpush. destruct (push_ranked _ _ (er_text row) b) as [b'|e].
  - destruct Hpush as (Hb' & Hf & Hk). specialize (IH b' (done_rows ++ [r])). rewrite Hf, length_app in IH. cbn [length] in IH.
    specialize (IH Hr Hb' ltac:(lia)). destruct (push_rows _ _ rows b') as [b''|e].
    + destruct IH as (js & Hjs & Hb'' & Hfiles & Hks). exists (r :: js). rewrite <- app_assoc in Hb''.
      split; [constructor; [by split|done]|]. split; [done|]. split; [done|by constructor].
    + intros [_ Hrest]%Forall_cons. by apply IH.
  - intros ((_ & _ & Hk & _) & _)%Forall_cons. unfold known_kind in Hk. by rewrite Hpush in Hk.
Qed.

End EdgeIndexFacts.
