(* ===== verification/EdgeIndexProps.v ===== *)
(** * The edge index is right

    What is pushed is read back, in push order or in the order of its text; the adjacency
    lists exactly the edges of a node; a walk over the index is the walk over the edges it
    admits. *)

From Stdlib Require Import SpecFloat.
From S2P Require Import Prelude RustStr RustStrFacts Order CodeEdges Traversal TraversalProps EdgeIndex EdgeIndexFacts.
Import CodeEdges EdgeIndex.

#[local] Open Scope Z_scope.

(** Every [f32] survives as an [f64]: widening shifts the mantissa up, narrowing shifts it
    down again. *)
Module FloatFacts.

(** The values of [f32]: those whose mantissa and exponent are in their normal form. *)
Definition is_f32 (v : f32) : bool := valid_binary 24 128 v.

Definition shifted (m d : positive) : positive := Pos.iter xO m d.

Lemma shifted_succ m d : shifted m (Pos.succ d) = xO (shifted m d).
Proof. apply Pos.iter_succ. Qed.

Lemma digits_shifted m d : Zpos (digits2_pos (shifted m d)) = Zpos (digits2_pos m) + Zpos d.
Proof.
  induction d as [|d IH] using Pos.peano_ind; [cbn; lia|]. rewrite shifted_succ. cbn [digits2_pos]. lia.
Qed.

Lemma iter_pos_iter {A} (f : A → A) n x : SpecFloat.iter_pos f n x = Pos.iter f x n.
Proof.
  revert x. induction n as [n IH|n IH|]; intros x; cbn [SpecFloat.iter_pos Pos.iter]; [|by rewrite !IH|done].
  by rewrite !IH, !Pos.iter_swap.
Qed.

Definition exactly (z : Z) : shr_record := {| shr_m := z; shr_r := false; shr_s := false |}.

Lemma shift_down m d : Pos.iter shr_1 (exactly (Zpos (shifted m d))) d = exactly (Zpos m).
Proof.
  induction d as [|d IH] using Pos.peano_ind; [done|]. rewrite Pos.iter_succ_r, shifted_succ. apply IH.
Qed.

Section Format.
Variables (prec emax : Z).

Lemma shr_fexp_exact m e :
  fexp prec emax (Zpos (digits2_pos m) + e) = e → shr_fexp prec emax (Zpos m) e loc_Exact = (exactly (Zpos m), e).
Proof. intros H. unfold shr_fexp. cbn [Zdigits2]. by rewrite H, Z.sub_diag. Qed.

(** A value of the format rounds to itself. *)
Lemma round_exact s m e :
  bounded prec emax m e = true → binary_round_aux prec emax s (Zpos m) e loc_Exact = S754_finite s m e.
Proof.
  unfold bounded, canonical_mantissa. intros [Hc%Z.eqb_eq He]%andb_prop. unfold binary_round_aux.
  rewrite shr_fexp_exact by done. cbn [exactly shr_m loc_of_shr_record round_nearest_even].
  rewrite shr_fexp_exact by done. cbn [exactly shr_m]. by rewrite He.
Qed.

Lemma normalize_round s m e : binary_normalize prec emax (cond_Zopp s (Zpos m)) e s = binary_round prec emax s m e.
Proof. by destruct s. Qed.

End Format.

Lemma widen_value s m e :
  bounded 24 128 m e = true →
  ∃ d, e - Zpos d = fexp 53 1024 (Zpos (digits2_pos m) + e)
    ∧ f64_of_f32 (S754_finite s m e) = S754_finite s (shifted m d) (e - Zpos d).
Proof.
  unfold bounded, canonical_mantissa. intros [Hc%Z.eqb_eq He%Z.leb_le]%andb_prop.
  set (e1 := fexp 53 1024 (Zpos (digits2_pos m) + e)).
  assert (Hlt : e1 < e) by (unfold e1, fexp, emin in *; lia).
  destruct (e1 - e) as [|p|d] eqn:Ed; [lia|lia|]. exists d. assert (Hd : e - Zpos d = e1) by lia. split; [done|].
  cbn [f64_of_f32]. rewrite normalize_round. unfold binary_round, shl_align. fold e1. rewrite Ed, Hd.
  change (Pos.iter xO m d) with (shifted m d). apply round_exact. unfold bounded, canonical_mantissa.
  rewrite digits_shifted. replace (Zpos (digits2_pos m) + Zpos d + e1) with (Zpos (digits2_pos m) + e) by lia.
  fold e1. rewrite Z.eqb_refl. apply Z.leb_le. unfold e1, fexp, emin in *. lia.
Qed.

Theorem widen_narrow v : is_f32 v = true → f32_of_f64 (f64_of_f32 v) = v.
Proof.
  destruct v as [s|s| |s m e]; [done..|]. intros Hv. cbn [is_f32 valid_binary] in Hv.
  destruct (widen_value s m e Hv) as (d & _ & ->). cbn [f32_of_f64]. rewrite normalize_round.
  assert (Hc : fexp 24 128 (Zpos (digits2_pos m) + e) = e).
  { unfold is_f32 in Hv. cbn in Hv. unfold bounded, canonical_mantissa in Hv. by apply andb_prop in Hv as [?%Z.eqb_eq _]. }
  assert (Hs : Zpos (digits2_pos (shifted m d)) + (e - Zpos d) = Zpos (digits2_pos m) + e) by (rewrite digits_shifted; lia).
  unfold binary_round, shl_align. rewrite Hs, Hc. replace (e - (e - Zpos d)) with (Zpos d) by lia.
  unfold binary_round_aux, shr_fexp at 1. cbn [Zdigits2 shr_record_of_loc]. rewrite Hs, Hc.
  replace (e - (e - Zpos d)) with (Zpos d) by lia. unfold shr. rewrite iter_pos_iter.
  change {| shr_m := Z.pos (shifted m d); shr_r := false; shr_s := false |} with (exactly (Zpos (shifted m d))).
  rewrite shift_down. cbn [exactly shr_m loc_of_shr_record round_nearest_even].
  replace (e - Zpos d + Zpos d) with e by lia. rewrite shr_fexp_exact by done. cbn [exactly shr_m].
  unfold is_f32, valid_binary, bounded in Hv. apply andb_prop in Hv as [_ ->]. done.
Qed.

End FloatFacts.

Import Order Traversal EdgeIndexFacts FloatFacts.

Module EdgeIndexProps.

(** ** Indexes that show a walk the same edges *)

(** What a walk sees of an edge. *)
Definition item (G : GraphIndex) (id : Z) : EdgeView * str := (@edge G id, @kind_label G id).

(** What it sees at a node. *)
Definition shown (G : GraphIndex) (node : str) : list (EdgeView * str) :=
  map (item G) (List.filter (@index_admits G) (@neighbors G node)).

Section Alike.
Variables G H : GraphIndex.
Hypothesis Hrev : @reverse G = @reverse H.
Hypothesis Hshown : ∀ node, shown G node = shown H node.

(** The policy of [admits], of what is seen. *)
Definition policy (K : GraphIndex) (curr : str) (v : EdgeView) : bool :=
  negb (@reverse K)
  || negb (match Traversal.ev_kind v with
           | Contains | Defines => true
           | Imports | MemberOf => is_symbol_node curr
           | _ => false
           end).

Lemma admitted_items K curr :
  map (item K) (List.filter (@admits K curr) (@neighbors K curr))
  = List.filter (λ x, policy K curr x.1) (shown K curr).
Proof.
  unfold shown. induction (@neighbors K curr) as [|id l IH]; [done|]. cbn [List.filter]. unfold admits at 1.
  destruct (index_admits id); cbn [negb map List.filter]; [|done].
  change (item K id).1 with (@edge K id). unfold policy at 1. case_if; cbn [map]; by rewrite IH.
Qed.

Lemma policy_alike curr v : policy G curr v = policy H curr v.
Proof. unfold policy. by rewrite Hrev. Qed.

Lemma admitted_alike curr :
  map (item G) (List.filter (@admits G curr) (@neighbors G curr))
  = map (item H) (List.filter (@admits H curr) (@neighbors H curr)).
Proof. rewrite !admitted_items, Hshown. apply filter_agree. intros x _. apply policy_alike. Qed.

Lemma sorted_alike curr : map (item G) (@sorted_neighbors G curr) = map (item H) (@sorted_neighbors H curr).
Proof.
  assert (Hs : ∀ K, map (item K) (@sorted_neighbors K curr)
    = sort_by (λ x y, view_leb x.1 y.1) (map (item K) (List.filter (@admits K curr) (@neighbors K curr)))).
  { intros K. symmetry. by apply sort_by_map. }
  by rewrite !Hs, admitted_alike.
Qed.

Lemma some_alike curr :
  existsb (@admits G curr) (@neighbors G curr) = existsb (@admits H curr) (@neighbors H curr).
Proof.
  assert (Hs : ∀ K, existsb (@admits K curr) (@neighbors K curr)
    = negb (bool_decide (length (map (item K) (List.filter (@admits K curr) (@neighbors K curr))) = 0%nat))).
  { intros K. induction (@neighbors K curr) as [|id l IH]; [done|]. cbn [existsb List.filter].
    destruct (admits curr id); [done|]. by rewrite IH. }
  by rewrite !Hs, admitted_alike.
Qed.

Lemma cross_alike l depth w i j : item G i = item H j → @cross G l depth w i = @cross H l depth w j.
Proof.
  intros [= He Hk]. unfold cross, record. assert (Hn : @next_node G i = @next_node H j) by (unfold next_node; by rewrite Hrev, He).
  assert (Hi : @identity G i = @identity H j) by (unfold identity; by rewrite He, Hk). by rewrite Hn, Hi.
Qed.

Lemma crosses_alike l depth ids js w :
  map (item G) ids = map (item H) js → foldl (@cross G l depth) w ids = foldl (@cross H l depth) w js.
Proof.
  revert js w. induction ids as [|i ids IH]; intros [|j js] w; cbn [map foldl]; try done. intros [= He Hk Hr].
  rewrite (cross_alike l depth w i j) by (unfold item; congruence). by apply IH.
Qed.

Lemma turn_alike l curr depth w : @turn G l curr depth w = @turn H l curr depth w.
Proof. unfold turn. rewrite some_alike. do 3 (case_match; [done|]). apply crosses_alike, sorted_alike. Qed.

(** The walk is the same. *)
Lemma traverse_alike starts l : @traverse_graph_indexed G starts l = @traverse_graph_indexed H starts l.
Proof.
  unfold traverse_graph_indexed, walk_from.
  assert (Hloop : ∀ fuel w, @walk_loop G fuel l w = @walk_loop H fuel l w).
  { induction fuel as [|fuel IH]; intros w; cbn [walk_loop]; [done|].
    destruct (queue w) as [|[curr depth] q]; [done|]. by rewrite turn_alike, IH. }
  by rewrite Hloop.
Qed.

End Alike.

(** ** What an index holds *)

Section Indexed.
Context {D : Type}.

(** The index [idx] of [rows]. *)
Record indexes (idx : GenerationEdges D) (kinds : option (list ResolutionKind)) (rows : list Row) : Prop := {
  ix_few : few (length rows);
  ix_reads : ∃ confidence, reads (text idx) (columns idx) confidence rows ∧ g_confidence idx = map f32_of_f64 confidence;
  ix_evidence : resolutions idx = map (evidence_at kinds (columns idx)) (all_ids (length rows));
  ix_source : by_source_symbol idx = build_adjacency (source_symbol_rank (columns idx)) (length (symbols (text idx)));
  ix_target : by_target_symbol idx = build_adjacency (target_symbol_rank (columns idx)) (length (symbols (text idx)));
}.

Lemma finish_indexes disclosed order kinds b rows :
  holds b rows → few (length rows) → Z.of_nat (length (names (b_files b))) < 2 ^ 32 →
  indexes (finish_with disclosed order kinds b) kinds (in_order order rows).
Proof.
  intros Hb Hfew Hfiles. pose proof (rank_by_bytes_reads b rows Hb Hfew Hfiles) as Hr.
  unfold finish_with. destruct (rank_by_bytes b) as [t c]. cbn [fst snd] in Hr.
  assert (Hn : rows_of b = length rows) by (by eapply Forall2_length; eapply hd_kind).
  pose proof (ordered_reads order _ _ _ _ Hr) as Ho. rewrite Hn.
  destruct (ordered order c (b_confidence b) (length rows)) as [c' confidence]. cbn [fst snd] in Ho.
  assert (Hlen : length (in_order order rows) = length rows) by (destruct order; cbn [in_order]; rewrite ?length_sort_by; done).
  split; cbn [finish_columns text columns g_confidence resolutions by_source_symbol by_target_symbol]; rewrite ?Hlen; try done.
  by exists confidence.
Qed.

Variables (idx : GenerationEdges D) (kinds : option (list ResolutionKind)) (rows : list Row).
Hypothesis Hidx : indexes idx kinds rows.

(** The edge of a row. *)
Definition edge_of_row (r : Row) : StoredEdge :=
  {| se_source_file := row_source_file r; se_target_file := row_target_file r;
     se_source_symbol := rt_source (row_rest r); se_target_symbol := rt_target (row_rest r);
     se_edge_kind := rt_kind (row_rest r); se_confidence := f32_of_f64 (rt_confidence (row_rest r));
     se_resolution := rt_resolution (row_rest r) |}.

Lemma stored_edge_row i r : rows !! i = Some r → stored_edge idx (Z.of_nat i) = edge_of_row r.
Proof.
  destruct (ix_reads _ _ _ Hidx) as (confidence & Hr & Hc). intros Hi.
  destruct (rd_row _ _ _ _ Hr _ _ Hi) as [A1 A2 A3 A4 A5 A6 A7]. unfold stored_edge, edge_of_row, source_file_of,
    target_file_of, source_symbol_of, target_symbol_of, kind_label_of, confidence_of, resolution_label.
  rewrite (ranked_at _ _ _ A1), (ranked_at _ _ _ A2), (ranked_at _ _ _ A3), (ranked_at _ _ _ A4), (ranked_at _ _ _ A5).
  rewrite Hc, list_lookup_fmap, A7. cbn [fmap option_fmap option_map default from_option id].
  f_equal. unfold ranked_label in A6. destruct (rt_resolution (row_rest r)) as [x|].
  - destruct A6 as [Hne A6]. rewrite (proj2 (Z.eqb_neq _ _)) by done. by rewrite (ranked_at _ _ _ A6).
  - by rewrite A6, Z.eqb_refl.
Qed.

Lemma edge_count_rows : edge_count idx = length rows.
Proof. destruct (ix_reads _ _ _ Hidx) as (confidence & Hr & _). apply Hr. Qed.

Lemma map_by_row {B} (f : Z → B) (g : Row → B) :
  (∀ i r, rows !! i = Some r → f (Z.of_nat i) = g r) → map f (all_ids (length rows)) = map g rows.
Proof.
  intros H. rewrite <- (map_row_of rows) at 2. rewrite map_map. apply map_ext_in. intros id Hid.
  apply list_elem_of_In in Hid. pose proof (row_of_lookup _ _ Hid) as Hrow. apply elem_of_all_ids in Hid.
  rewrite <- (H _ _ Hrow). f_equal. lia.
Qed.

Lemma stored_edges_rows : stored_edges idx = map edge_of_row rows.
Proof. unfold stored_edges. rewrite edge_count_rows. apply map_by_row. intros; by apply stored_edge_row. Qed.

(** ** The edges of a node *)

Lemma run_lists column (f : Row → str) node :
  length column = length rows →
  (∀ i r, rows !! i = Some r → ranked (symbols (text idx)) (at_rank column (Z.of_nat i)) (f r)) →
  match symbol_rank (text idx) !! node with
  | Some rank => run (build_adjacency column (length (symbols (text idx)))) rank
  | None => []
  end = List.filter (λ id, bool_decide (text_at (symbols (text idx)) (at_rank column id) = node)) (all_ids (length rows)).
Proof.
  intros Hlen Hcol. destruct (ix_reads _ _ _ Hidx) as (confidence & Hr & _). pose proof (rd_text _ _ _ _ Hr) as Ht.
  destruct (tx_symbols _ Ht) as (l & El & Nl). assert (Hn : NoDup (symbols (text idx))) by (rewrite El; by apply sort_strs_nodup).
  assert (Hrow : ∀ id, id ∈ all_ids (length rows) → ranked (symbols (text idx)) (at_rank column id) (f (row_of rows id))).
  { intros id Hid. pose proof (row_of_lookup _ _ Hid) as Hl. apply elem_of_all_ids in Hid.
    replace id with (Z.of_nat (Z.to_nat id)) at 1 by lia. by apply Hcol. }
  destruct (symbol_rank (text idx) !! node) as [rank|] eqn:E.
  - apply (tx_ranks _ Ht) in E. pose proof (ranked_bound _ _ _ E) as Hb.
    rewrite <- (Z2Nat.id rank) at 1 by lia. rewrite run_is_ids.
    + unfold ids_of. rewrite Hlen. apply filter_agree. intros id Hid. rewrite (ranked_at _ _ _ (Hrow id Hid)).
      rewrite Z2Nat.id by lia. case_bool_decide as Hx.
      * rewrite Z.eqb_eq. eapply ranked_inj; [done| |done]. rewrite <- Hx. by apply Hrow.
      * apply Z.eqb_neq. intros Heq. apply Hx. pose proof (Hrow id Hid) as Hid'. rewrite Heq in Hid'.
        destruct Hid' as [_ H1], E as [_ H2]. congruence.
    + intros k Hk. apply list_elem_of_lookup in Hk as [i Hi].
      assert (Hlt : (i < length rows)%nat) by (rewrite <- Hlen; by apply lookup_lt_Some in Hi).
      destruct (lookup_lt_is_Some_2 _ _ Hlt) as [r Hri]. specialize (Hcol _ _ Hri). unfold at_rank in Hcol.
      rewrite Nat2Z.id, Hi in Hcol. by apply ranked_bound in Hcol.
    + rewrite Hlen. pose proof (ix_few _ _ _ Hidx) as Hfew. unfold few in Hfew. assert (u32_max = 2 ^ 32 - 1) by reflexivity. lia.
    + lia.
  - symmetry. apply filter_false. intros id Hid. apply bool_decide_eq_false_2. intros Hx.
    pose proof (Hrow id Hid) as Hid'. rewrite (ranked_at _ _ _ Hid') in Hx. rewrite Hx in Hid'.
    apply (tx_ranks _ Ht) in Hid'. congruence.
Qed.

Lemma neighbors_listed rev floor node :
  @neighbors (DirectedEdges idx rev floor) node
  = List.filter (λ id, bool_decide ((if rev then target_symbol_of idx id else source_symbol_of idx id) = node))
      (all_ids (length rows)).
Proof.
  destruct (ix_reads _ _ _ Hidx) as (confidence & Hr & _). cbn [neighbors DirectedEdges].
  unfold into_target_symbol, from_source_symbol. rewrite (ix_source _ _ _ Hidx), (ix_target _ _ _ Hidx).
  destruct rev.
  - apply (run_lists _ (λ r, rt_target (row_rest r))); [apply Hr|]. intros i r Hi. by apply (rd_row _ _ _ _ Hr).
  - apply (run_lists _ (λ r, rt_source (row_rest r))); [apply Hr|]. intros i r Hi. by apply (rd_row _ _ _ _ Hr).
Qed.

End Indexed.

(** ** Built and read indexes *)

Lemma read_order_sorted rows : StronglySorted (λ a b, row_leb a b = true) (sort_by row_leb rows).
Proof. eapply sort_by_strongly. unfold row_leb, by_label. apply _. Qed.

Lemma build_indexes {D} edges (disclosed : option D) :
  few (length edges) →
  match build edges disclosed with
  | Ok idx => indexes idx None (map row_of_edge edges)
  | Err err => ∃ pre e post, edges = pre ++ e :: post ∧ Forall (λ e, known_kind (se_edge_kind e)) pre
                             ∧ edge_kind_from_stored (se_edge_kind e) = Err err
  end.
Proof.
  intros Hfew. unfold build. pose proof (push_edges_spec edges with_capacity [] with_capacity_holds) as Hpush.
  specialize (Hpush (le_n _) Hfew). cbn [length plus app] in Hpush. destruct (push_edges edges with_capacity) as [b|err]; [|done].
  destruct Hpush as (Hb & Hf & _). apply (finish_indexes disclosed AsPushed None b (map row_of_edge edges)); [done|by rewrite length_map|].
  unfold few in Hfew. assert (u32_max = 2 ^ 32 - 1) by reflexivity. lia.
Qed.

(** The labels of [rows] that are decoded, in the order they came, and what they mean. *)
Definition decoded (rows : list Row) (labels : list str) (kinds : list ResolutionKind) : Prop :=
  labels = firsts (omap (λ row, rt_resolution (row_rest row)) rows)
  ∧ Forall2 (λ l k, resolution_kind_from_stored l = Ok k) labels kinds.

Lemma read_indexes {D} paths rows (disclosed : option D) gen :
  few (length rows) → Z.of_nat (length paths) < 2 ^ 32 →
  match read_index paths rows disclosed gen with
  | Ok idx => ∃ js labels kinds, Forall2 (joins paths) rows js ∧ indexes idx (Some kinds) (sort_by row_leb js)
                ∧ decoded js labels kinds ∧ resolution_labels (text idx) = sort_strs labels
                ∧ generation idx = Some gen ∧ analysis idx = disclosed
  | Err _ => ¬ Forall (readable paths) rows
  end.
Proof.
  intros Hfew Hpaths. unfold read_index. destruct (Z.ltb_spec u32_max (Z.of_nat (length rows))) as [H|_]; [unfold few in Hfew; lia|].
  unfold intern_paths. destruct (read_paths_spec paths Hpaths) as (_ & _ & ->).
  destruct (intern_paths_spec (read_paths paths) (length paths) Hpaths) as (Hb0 & _ & Hf & Hr).
  destruct (foldl (intern_path _) _ _) as [ranks b]. cbn [fst snd] in *.
  pose proof (push_rows_spec paths ranks rows b [] Hpaths Hr Hb0 Hfew) as Hpush.
  destruct (push_rows _ ranks rows b) as [b'|err]; [|done]. destruct Hpush as (js & Hjs & Hb & Hfiles & _).
  unfold finish_with_stored_evidence. destruct (collect _ _) as [kinds|err] eqn:Ec.
  - exists js, (names (b_resolutions b')), kinds. split; [done|].
    assert (Hlen : length rows = length js) by (by eapply Forall2_length).
    pose proof (finish_indexes disclosed ReadOrder (Some kinds) b' js Hb ltac:(by rewrite <- Hlen) ltac:(rewrite Hfiles; lia)) as Hidx.
    set (idx := finish_with _ _ _ _) in *. split; [by destruct Hidx|]. split; [split; [apply Hb|by apply collect_ok]|].
    split; [|done]. change (resolution_labels (text idx) = sort_strs (names (b_resolutions b'))). subst idx. unfold finish_with. cbn [rank_by_bytes]. destruct (ordered _ _ _ _). cbn. apply reorder_names_sorts.
  - apply collect_err in Ec as (x & Hx & Hbad). intros Hall. pose proof (hd_labels _ _ Hb) as Hsub.
    rewrite Hsub in Hx. pose proof (proj1 (elem_of_firsts _ _) Hx) as Hin.
    apply list_elem_of_omap in Hin as (r & Hrin & Hrx).
    apply list_elem_of_lookup in Hrin as [i Hi]. destruct (Forall2_lookup_r _ _ _ _ _ Hjs Hi) as (row & Hrow & [_ _ Hrest]).
    rewrite Forall_forall in Hall. destruct (Hall row) as (_ & _ & _ & Hlabel); [by eapply list_elem_of_lookup_2|].
    rewrite Hrest in Hrx. destruct (Hlabel x Hrx) as [k Hk]. unfold resolution_kind_from_stored in Hbad. by rewrite Hk in Hbad.
Qed.

(** Indexing edges and reading them back gives the edges, in their order; and it fails
    exactly on the first edge whose kind this binary does not know. *)
Theorem indexed_edges_read_back {D} edges (disclosed : option D) :
  few (length edges) → Forall (λ e, is_f32 (se_confidence e) = true) edges →
  match build edges disclosed with
  | Ok idx => stored_edges idx = edges
  | Err err => ∃ pre e post, edges = pre ++ e :: post ∧ Forall (λ e, known_kind (se_edge_kind e)) pre
                             ∧ edge_kind_from_stored (se_edge_kind e) = Err err
  end.
Proof.
  intros Hfew Hv. pose proof (build_indexes edges disclosed Hfew) as Hb. destruct (build edges disclosed) as [idx|err]; [|done].
  rewrite (stored_edges_rows _ _ _ Hb), map_map. clear Hb Hfew. induction Hv as [|e edges He _ IH]; cbn [map]; [done|].
  rewrite IH. f_equal. unfold edge_of_row, row_of_edge, row_text. cbn. rewrite widen_narrow by done. by destruct e.
Qed.

(** The index read from the store holds every row once, its paths resolved, in the read
    order of its text: the greatest confidence first, then paths, symbols, kind and label,
    byte by byte. Only a row it cannot read makes the read fail. *)
Theorem generation_is_in_read_order {D} paths rows (disclosed : option D) gen :
  few (length rows) → Z.of_nat (length paths) < 2 ^ 32 →
  match read_index paths rows disclosed gen with
  | Ok idx => ∃ js ordered, Forall2 (joins paths) rows js ∧ ordered ≡ₚ js
                ∧ StronglySorted (λ a b, row_leb a b = true) ordered ∧ stored_edges idx = map edge_of_row ordered
                ∧ generation idx = Some gen ∧ analysis idx = disclosed
  | Err _ => ¬ Forall (readable paths) rows
  end.
Proof.
  intros Hfew Hpaths. pose proof (read_indexes paths rows disclosed gen Hfew Hpaths) as Hr.
  destruct (read_index paths rows disclosed gen) as [idx|err]; [|done].
  destruct Hr as (js & labels & kinds & Hjs & Hidx & _ & _ & Hg & Ha). exists js, (sort_by row_leb js).
  split; [done|]. split; [apply sort_by_perm|]. split; [apply read_order_sorted|]. split; [|done].
  exact (stored_edges_rows _ _ _ Hidx).
Qed.

(** ** Walking *)

Lemma stored_kind_debug text k : edge_kind_from_stored text = Ok k → kind_debug k = text.
Proof.
  unfold edge_kind_from_stored. destruct (List.find _ KINDS) as [k'|] eqn:E; [|done]. intros [= <-].
  apply List.find_some in E as [_ E]. by apply bool_decide_eq_true_1 in E.
Qed.

Lemma kind_of_row {D} (idx : GenerationEdges D) kinds rows id :
  indexes idx kinds rows → id ∈ all_ids (length rows) →
  edge_kind_from_stored (kind_label_of idx id) = Ok (kind_of_edge idx id).
Proof.
  intros Hidx Hid. destruct (ix_reads _ _ _ Hidx) as (confidence & Hr & _). pose proof (row_of_lookup _ _ Hid) as Hrow.
  apply elem_of_all_ids in Hid. destruct (rd_row _ _ _ _ Hr _ _ Hrow) as [_ _ _ _ A5 _ _]. rewrite Z2Nat.id in A5 by lia.
  unfold kind_label_of, kind_of_edge. rewrite (ranked_at _ _ _ A5). destruct A5 as [_ A5].
  destruct (Forall2_lookup_l _ _ _ _ _ (tx_values _ (rd_text _ _ _ _ Hr)) A5) as (k & Hk & Ek). by rewrite Hk.
Qed.

Definition slice_item (e : ResolvedEdge) : EdgeView * str := (view_of e, kind_debug (edge_kind e)).

Lemma shown_slice es rev node :
  Z.of_nat (length es) ≤ u32_max →
  shown (AdjacencyIndex es rev None) node = map slice_item (List.filter (λ e, bool_decide (endpoint rev e = node)) es).
Proof.
  intros Hlen. unfold shown. rewrite filter_all by done. cbn [neighbors AdjacencyIndex].
  assert (Ha : addressable es = es) by (unfold addressable; destruct (Z.ltb_spec u32_max (Z.of_nat (length es))); [lia|done]).
  rewrite Ha. unfold adjacency. rewrite TraversalProps.adjacency_lookup, lookup_empty. cbn [default from_option id app].
  rewrite map_map. transitivity (map (λ ie, slice_item ie.2) (List.filter (λ ie, bool_decide (endpoint rev ie.2 = node)) (numbered es))).
  - apply map_ext_in. intros [i e] Hin%list_elem_of_In. apply elem_of_filter_bool in Hin as [Hin _].
    apply TraversalProps.elem_of_numbered in Hin as [_ He]. unfold item. cbn [edge kind_label AdjacencyIndex fst snd].
    rewrite Ha. unfold edge_at. by rewrite He.
  - assert (Hsnd : map snd (numbered es) = es) by (apply snd_zip; rewrite length_seqZ; lia).
    rewrite <- Hsnd at 2. clear Hsnd. induction (numbered es) as [|[i e] l IH]; [done|]. cbn [List.filter map snd].
    case_match; cbn [map snd]; by rewrite IH.
Qed.

Lemma resolved_item {D} (idx : GenerationEdges D) kinds rows rev floor id e :
  indexes idx kinds rows → id ∈ all_ids (length rows) → stored_edge_to_resolved (stored_edge idx id) = Ok e →
  item (DirectedEdges idx rev floor) id = slice_item e
  ∧ endpoint rev e = (if rev then target_symbol_of idx id else source_symbol_of idx id).
Proof.
  intros Hidx Hid. unfold stored_edge_to_resolved. cbn [stored_edge se_edge_kind]. pose proof (kind_of_row _ _ _ _ Hidx Hid) as Hk.
  rewrite Hk. destruct (edge_resolution _) as [ev|]; [|done]. intros [= <-]. split; [|by destruct rev].
  unfold item, slice_item. cbn. by rewrite (stored_kind_debug _ _ Hk).
Qed.

Lemma shown_index {D} (idx : GenerationEdges D) kinds rows rev floor es node :
  indexes idx kinds rows → resolved_edges idx floor = Ok es →
  shown (DirectedEdges idx rev floor) node = map slice_item (List.filter (λ e, bool_decide (endpoint rev e = node)) es).
Proof.
  intros Hidx Hes%collect_ok. unfold shown. rewrite (neighbors_listed idx kinds rows Hidx). cbn [index_admits DirectedEdges].
  unfold latest_edges in Hes. rewrite (edge_count_rows idx kinds rows Hidx) in Hes. apply Forall2_fmap_l in Hes.
  assert (Hin : Forall (λ id, id ∈ all_ids (length rows)) (all_ids (length rows))) by (by apply Forall_forall).
  revert es Hes. induction Hin as [|id ids Hid _ IH]; intros es Hes; cbn [List.filter] in *.
  - apply Forall2_nil_inv_l in Hes as ->. done.
  - destruct (index_admits_edge idx floor id) eqn:Ea.
    + apply Forall2_cons_inv_l in Hes as (e & es' & He & Hes & ->). cbn [List.filter].
      destruct (resolved_item _ _ _ rev floor _ _ Hidx Hid He) as [Hitem Hend]. rewrite Hend.
      case_bool_decide; cbn [List.filter map]; [rewrite Ea; cbn [map]; rewrite Hitem; f_equal|]; by apply IH.
    + case_bool_decide; cbn [List.filter]; [rewrite Ea|]; by apply IH.
Qed.

(** C31. A walk over the index, under a confidence floor, is the walk over the slice of the
    edges the floor admits: the counting sort, the ranks and the ids change nothing. *)
Theorem indexed_walk_is_slice_walk {D} paths rows (disclosed : option D) gen idx floor es rev starts l :
  few (length rows) → Z.of_nat (length paths) < 2 ^ 32 →
  read_index paths rows disclosed gen = Ok idx → resolved_edges idx floor = Ok es →
  @traverse_graph_indexed (DirectedEdges idx rev floor) starts l = @traverse_graph_indexed (AdjacencyIndex es rev None) starts l.
Proof.
  intros Hfew Hpaths Hread Hes. pose proof (read_indexes paths rows disclosed gen Hfew Hpaths) as Hr. rewrite Hread in Hr.
  destruct Hr as (js & labels & kinds & Hjs & Hidx & _). apply traverse_alike; [done|]. intros node.
  rewrite (shown_index _ _ _ rev floor es node Hidx Hes), shown_slice; [done|].
  apply collect_ok, Forall2_length in Hes. rewrite <- Hes. unfold latest_edges. rewrite length_map.
  rewrite (edge_count_rows _ _ _ Hidx), length_sort_by, <- (Forall2_length _ _ _ Hjs).
  pose proof (filter_length_le (index_admits_edge idx floor) (all_ids (length rows))) as Hle. rewrite length_all_ids in Hle.
  unfold few in Hfew. lia.
Qed.

(** ** Evidence *)

(** The labels of [rows] as the store hands them out. *)
Definition labels_of (rows : list EdgeRow) : list str := omap (λ row, rt_resolution (er_text row)) rows.

(** The labels in the order the store first hands them out. *)
Definition first_labels (rows : list EdgeRow) : list str := firsts (labels_of rows).

Lemma kind_of_label a b k : resolution_kind_from_stored a = Ok k → resolution_kind_from_stored b = Ok k → a = b.
Proof.
  unfold resolution_kind_from_stored. destruct (from_label a) as [ka|] eqn:Ha; [|done]. destruct (from_label b) as [kb|] eqn:Hb; [|done].
  intros [= ->] [= ->]. apply List.find_some in Ha as [_ Ha%bool_decide_eq_true_1], Hb as [_ Hb%bool_decide_eq_true_1]. congruence.
Qed.

(** The labels decode in the order they came, and an edge reads the decoded list at the
    place its own label has in the order of bytes. An edge without a label is given the
    reading it would be given alone. *)
Lemma evidence_by_place {D} paths rows (disclosed : option D) gen idx :
  few (length rows) → Z.of_nat (length paths) < 2 ^ 32 → read_index paths rows disclosed gen = Ok idx →
  ∃ kinds, Forall2 (λ l k, resolution_kind_from_stored l = Ok k) (first_labels rows) kinds
  ∧ (∀ x, x ∈ first_labels rows → ∃ id, id ∈ all_ids (length rows) ∧ se_resolution (stored_edge idx id) = Some x)
  ∧ ∀ id, id ∈ all_ids (length rows) →
      match se_resolution (stored_edge idx id) with
      | Some x => ∃ i k, sort_strs (first_labels rows) !! i = Some x ∧ kinds !! i = Some k
                    ∧ resolution_of idx id = {| CodeEdges.ev_kind := k; CodeEdges.ev_source := Stored |}
      | None => edge_resolution (stored_edge idx id) = Ok (resolution_of idx id)
      end.
Proof.
  intros Hfew Hpaths Hread. pose proof (read_indexes paths rows disclosed gen Hfew Hpaths) as Hr. rewrite Hread in Hr.
  destruct Hr as (js & labels & kinds & Hjs & Hidx & [Hlab Hkinds] & Hsorted & _).
  assert (Hsame : omap (λ row, rt_resolution (row_rest row)) js = labels_of rows).
  { clear -Hjs. induction Hjs as [|row r rows js [_ _ Hrest] _ IH]; [done|]. unfold labels_of in *. cbn. by rewrite Hrest, IH. }
  rewrite Hsame in Hlab. change (firsts (labels_of rows)) with (first_labels rows) in Hlab. subst labels. exists kinds. split; [done|].
  rewrite (Forall2_length _ _ _ Hjs), <- (length_sort_by row_leb js). set (ordered := sort_by row_leb js) in *. split.
  - intros x Hx. unfold first_labels in Hx. rewrite elem_of_firsts, <- Hsame in Hx. apply list_elem_of_omap in Hx as (r & Hr & Hx).
    assert (Hro : r ∈ ordered) by (by apply elem_of_sort_by). apply list_elem_of_lookup in Hro as [i Hi]. exists (Z.of_nat i).
    split; [apply elem_of_all_ids; apply lookup_lt_Some in Hi; lia|]. by rewrite (stored_edge_row _ _ _ Hidx i r Hi).
  - intros id Hid. pose proof (row_of_lookup _ _ Hid) as Hrow. pose proof Hid as Hid'. apply elem_of_all_ids in Hid'.
    destruct (ix_reads _ _ _ Hidx) as (confidence & Hr & _). pose proof (rd_row _ _ _ _ Hr _ _ Hrow) as Hat.
    rewrite Z2Nat.id in Hat by lia. destruct Hat as [_ _ A3 A4 _ A6 _]. unfold resolution_of. rewrite (ix_evidence _ _ _ Hidx).
    rewrite list_lookup_fmap. unfold all_ids. rewrite seqZ_lookup by lia. rewrite Z2Nat.id by lia. cbn.
    unfold edge_resolution, evidence_at. cbn [stored_edge se_resolution se_source_file se_target_file]. unfold resolution_label, source_file_of, target_file_of.
    unfold ranked_label in A6. destruct (rt_resolution (row_rest (row_of ordered id))) as [x|].
    + destruct A6 as [Hne A6]. rewrite (proj2 (Z.eqb_neq _ _)) by done. rewrite (ranked_at _ _ _ A6). destruct A6 as [_ A6]. rewrite Hsorted in A6.
      assert (Hlt : (Z.to_nat (at_rank (resolution_rank (columns idx)) id) < length kinds)%nat).
      { rewrite <- (Forall2_length _ _ _ Hkinds), <- length_sort_strs. by eapply lookup_lt_Some. }
      destruct (lookup_lt_is_Some_2 _ _ Hlt) as [k Hk]. eexists _, k. split; [exact A6|]. split; [exact Hk|]. by rewrite Hk.
    + assert (Hfiles : NoDup (files (text idx))) by (destruct (tx_files _ (rd_text _ _ _ _ Hr)) as (lf & -> & Nf); by apply sort_strs_nodup).
      rewrite A6, Z.eqb_refl, (ranked_at _ _ _ A3), (ranked_at _ _ _ A4). f_equal. f_equal. case_bool_decide as Heq.
      * symmetry. apply Z.eqb_eq. eapply ranked_inj; [done|exact A3|by rewrite Heq].
      * symmetry. apply Z.eqb_neq. intros Hranks. apply Heq. rewrite Hranks in A3. destruct A3 as [_ A3], A4 as [_ A4]. congruence.
Qed.

(** C32. The evidence of an edge is that of the label which came to the place its own label
    has in the order of bytes: the labels are decoded as they came and looked up as they
    are sorted. So every edge of a generation is given its own evidence exactly when the
    labels first came in byte order; else some edge is given another's. *)
Theorem stored_evidence_is_misread {D} paths rows (disclosed : option D) gen idx :
  few (length rows) → Z.of_nat (length paths) < 2 ^ 32 → read_index paths rows disclosed gen = Ok idx →
  (∀ id x, id ∈ all_ids (length rows) → se_resolution (stored_edge idx id) = Some x →
     ∃ i y k, sort_strs (first_labels rows) !! i = Some x ∧ first_labels rows !! i = Some y
       ∧ resolution_kind_from_stored y = Ok k
       ∧ resolution_of idx id = {| CodeEdges.ev_kind := k; CodeEdges.ev_source := Stored |})
  ∧ ((∀ id, id ∈ all_ids (length rows) → edge_resolution (stored_edge idx id) = Ok (resolution_of idx id))
     ↔ first_labels rows = sort_strs (first_labels rows)).
Proof.
  intros Hfew Hpaths Hread. destruct (evidence_by_place _ _ _ _ _ Hfew Hpaths Hread) as (kinds & Hk & Hall & Hev). split; [|split].
  - intros id x Hid Hx. specialize (Hev id Hid). rewrite Hx in Hev. destruct Hev as (i & k & Hi & Hki & Hr).
    destruct (Forall2_lookup_r _ _ _ _ _ Hk Hki) as (y & Hy & Hyk). by exists i, y, k.
  - intros Hright. apply list_eq_same_length with (length (first_labels rows)); [by rewrite length_sort_strs|done|].
    intros i y x _ Hy Hx. assert (Hin : x ∈ first_labels rows).
    { apply (elem_of_sort_by str_leb). apply list_elem_of_lookup. by exists i. }
    destruct (Hall x Hin) as (id & Hid & Hid'). specialize (Hev id Hid). rewrite Hid' in Hev. destruct Hev as (j & k & Hj & Hkj & Hr).
    assert (j = i) as ->. { eapply NoDup_lookup; [|exact Hj|exact Hx]. apply sort_strs_nodup, firsts_nodup. }
    specialize (Hright id Hid). unfold edge_resolution in Hright. rewrite Hid', Hr in Hright.
    destruct (resolution_kind_from_stored x) as [k'|] eqn:Hkx; [|done]. injection Hright as ->.
    destruct (Forall2_lookup_l _ _ _ _ _ Hk Hy) as (k'' & Hk'' & Hyk). assert (k'' = k) as -> by congruence. by eapply kind_of_label.
  - intros Hsame id Hid. specialize (Hev id Hid). destruct (se_resolution (stored_edge idx id)) as [x|] eqn:Hx; [|done].
    destruct Hev as (i & k & Hi & Hki & ->). rewrite <- Hsame in Hi. pose proof (Forall2_lookup_lr _ _ _ _ _ _ Hk Hi Hki) as Hkx.
    unfold edge_resolution. cbn beta in Hkx. by rewrite Hx, Hkx.
Qed.

(** ** A generation *)

Definition sample_row (source target : Z) (from to label : string) (confidence : f32) : EdgeRow :=
  {| er_source_file_id := source; er_target_file_id := target;
     er_text := {| rt_source := lit from; rt_target := lit to; rt_kind := lit "Calls";
                   rt_confidence := f64_of_f32 confidence; rt_resolution := Some (lit label) |} |}.

Definition sample_paths : list (Z * str) := [(7, lit "b.go"); (9, lit "a.go")].

Definition same_file : EdgeRow := sample_row 9 9 "a.go::g" "a.go::h" "SameFile" DETERMINISTIC.
Definition unique_global : EdgeRow := sample_row 7 9 "b.go::f" "a.go::g" "UniqueGlobal" HIGH.

Definition index_of (rows : list EdgeRow) : GenerationEdges unit :=
  match read_index sample_paths rows None 1 with Ok idx => idx | Err _ => finish None AsPushed with_capacity end.

(** Two honest rows whose labels come in descending order: each edge gets the tier of the
    other, and both are counted as contradicting their confidence. *)
Example two_rows_swap :
  let idx := index_of [unique_global; same_file] in
  let tier id := (se_resolution (stored_edge idx id), CodeEdges.ev_kind (resolution_of idx id)) in
  map tier (all_ids 2) = [(Some (lit "SameFile"), KindUniqueGlobal); (Some (lit "UniqueGlobal"), KindSameFile)]
  ∧ confidence_mismatches idx = 2.
Proof. split; vm_compute; reflexivity. Qed.

Lemma two_few : few 2.
Proof. unfold few. reflexivity. Qed.

Lemma stored_evidence_is_misread_witness :
  let rows := [unique_global; same_file] in
  read_index sample_paths rows None 1 = Ok (index_of rows)
  ∧ first_labels rows ≠ sort_strs (first_labels rows)
  ∧ ¬ ∀ id, id ∈ all_ids 2 → edge_resolution (stored_edge (index_of rows) id) = Ok (resolution_of (index_of rows) id).
Proof.
  cbn zeta. assert (Hr : read_index sample_paths [unique_global; same_file] None 1 = Ok (index_of [unique_global; same_file])) by (vm_compute; reflexivity).
  split; [exact Hr|]. assert (Hne : first_labels [unique_global; same_file] ≠ sort_strs (first_labels [unique_global; same_file])) by (vm_compute; discriminate).
  split; [exact Hne|]. intros Hall. apply Hne.
  destruct (stored_evidence_is_misread (D:=unit) sample_paths [unique_global; same_file] None 1 _ two_few eq_refl Hr) as [_ Hiff]. by apply Hiff.
Defined.

Definition edges_of (r : result (list ResolvedEdge) IndexError) : list ResolvedEdge := match r with Ok es => es | Err _ => [] end.

Lemma indexed_walk_is_slice_walk_witness :
  let rows := [unique_global; same_file] in
  read_index sample_paths rows None 1 = Ok (index_of rows)
  ∧ @traverse_graph_indexed (DirectedEdges (index_of rows) false LOW) [lit "b.go::f"] (limits default_options)
    = @traverse_graph_indexed (AdjacencyIndex (edges_of (resolved_edges (index_of rows) LOW)) false None) [lit "b.go::f"] (limits default_options).
Proof.
  cbn zeta. split; [vm_compute; reflexivity|].
  apply (indexed_walk_is_slice_walk sample_paths [unique_global; same_file] None 1); [exact two_few|reflexivity|vm_compute; reflexivity|vm_compute; reflexivity].
Defined.

Lemma generation_is_in_read_order_witness :
  let rows := [unique_global; same_file] in
  ∃ js ordered, ordered ≡ₚ js ∧ stored_edges (index_of rows) = map edge_of_row ordered ∧ length js = 2%nat.
Proof.
  cbn zeta. pose proof (generation_is_in_read_order (D:=unit) sample_paths [unique_global; same_file] None 1 two_few eq_refl) as H.
  destruct H as (js & ordered & Hjs & Hperm & _ & Hstored & _). exists js, ordered. split; [exact Hperm|]. split; [exact Hstored|].
  symmetry. exact (Forall2_length _ _ _ Hjs).
Defined.

Definition sample_edge : StoredEdge :=
  {| se_source_file := lit "a.go"; se_target_file := lit "b.go"; se_source_symbol := lit "a.go::g";
     se_target_symbol := lit "b.go::f"; se_edge_kind := lit "References"; se_confidence := LOW; se_resolution := None |}.

Lemma indexed_edges_read_back_witness :
  is_ok (build (Disclosure:=unit) [sample_edge] None) = true
  ∧ match build (Disclosure:=unit) [sample_edge] None with Ok idx => stored_edges idx = [sample_edge] | Err _ => False end.
Proof.
  split; [vm_compute; reflexivity|].
  apply (indexed_edges_read_back (D:=unit) [sample_edge] None); [reflexivity|].
  constructor; [vm_compute; reflexivity|constructor].
Defined.

End EdgeIndexProps.
