(* ===== verification/Ranges.v ===== *)
(** * Relations kept as ranges of generations ([rust/devmap-store/src/db.rs], [db/write.rs])

    A row is valid from one generation until another. A write compares what was resolved
    with the rows still open, as multisets: it closes the rows no longer resolved and
    inserts the ones missing. Files whose digest did not move are not compared. The same
    passes serve the edges and the ledger of unresolved calls; they are written here once,
    for rows of any type. *)

From S2P Require Import Prelude RustStr EdgeIndex.
Import EdgeIndex.

#[local] Open Scope Z_scope.

Module Ranges.

(** ** Digests *)

(** What [DefaultHasher::new] finishes with when a value is hashed, behind a [u64] if one
    is given. The standard library does not say what it is. *)
Class Hashes (T : Type) := hash_of : option Z → T → Z.

Definition as_u64 (z : Z) : Z := z `mod` 2 ^ 64.

(** [u64 as i64] *)
Definition as_i64 (z : Z) : Z := if z <? 2 ^ 63 then z else z - 2 ^ 64.

(** [u64::wrapping_add] *)
Definition wrapping_add (a b : Z) : Z := as_u64 (a + b).

Definition ROW_DIGEST_SALT : Z := 11400714819323198485.

Definition identity_digest {T} `{Hashes T} (identity : T) : Z := as_u64 (hash_of None identity).

(** [identity_digest(&(ROW_DIGEST_SALT, identity))] *)
Definition salted_digest {T} `{Hashes T} (identity : T) : Z := as_u64 (hash_of (Some ROW_DIGEST_SALT) identity).

Record RowSetDigest := { ds_rows : Z; ds_lo : Z; ds_hi : Z }.

#[export] Instance RowSetDigest_eq : EqDecision RowSetDigest.
Proof. solve_decision. Defined.

(** [RowSetDigest::default()] *)
Definition no_rows : RowSetDigest := {| ds_rows := 0; ds_lo := 0; ds_hi := 0 |}.

Definition absorb {T} `{Hashes T} (d : RowSetDigest) (identity : T) : RowSetDigest :=
  {| ds_rows := wrapping_add (ds_rows d) 1;
     ds_lo := wrapping_add (ds_lo d) (identity_digest identity);
     ds_hi := wrapping_add (ds_hi d) (salted_digest identity) |}.

Definition to_columns (d : RowSetDigest) : Z * Z * Z := (as_i64 (ds_rows d), as_i64 (ds_lo d), as_i64 (ds_hi d)).

Definition from_columns (columns : Z * Z * Z) : RowSetDigest :=
  {| ds_rows := as_u64 columns.1.1; ds_lo := as_u64 columns.1.2; ds_hi := as_u64 columns.2 |}.

(** ** Rows *)

Record RangeRow (T : Type) := { row_id : Z; tuple : T; valid_from : Z; valid_to : option Z }.
Arguments row_id {T} _.
Arguments tuple {T} _.
Arguments valid_from {T} _.
Arguments valid_to {T} _.

(** [valid_to IS NULL] *)
Definition live {T} (r : RangeRow T) : bool := match valid_to r with None => true | Some _ => false end.

(** The condition the views join [generations] on. *)
Definition valid_at {T} (g : Z) (r : RangeRow T) : bool :=
  (valid_from r <=? g) && match valid_to r with None => true | Some t => g <? t end.

(** What generation [g] reads, in the order of the row ids. *)
Definition relation_at {T} (g : Z) (rows : list (RangeRow T)) : list T :=
  map tuple (List.filter (valid_at g) rows).

(** The tuples of the live rows. *)
Definition live_tuples {T} (rows : list (RangeRow T)) : list T := map tuple (List.filter live rows).

(** ** Buckets *)

Definition NO_MORE_IN_BUCKET : Z := u32_max.

Section Buckets.

Context {T : Type} `{EqDecision T} `{Hashes T}.

(** The identity of an index, or [None] for an index that is not offered. *)
Variable identity_of : nat → option T.

(** The body of the loop of [bucket_identities]. *)
Definition put_in_bucket (st : gmap Z Z * list Z) (index : nat) : gmap Z Z * list Z :=
  match identity_of index with
  | None => st
  | Some identity =>
      let digest := identity_digest identity in
      let i := as_u32 (Z.of_nat index) in
      (<[digest := i]> st.1, <[Z.to_nat i := default NO_MORE_IN_BUCKET (st.1 !! digest)]> st.2)
  end.

Definition bucket_identities (count : nat) : gmap Z Z * list Z :=
  foldl put_in_bucket (∅, replicate count NO_MORE_IN_BUCKET) (seq 0 count).

(** The loop of [claim_matching_candidate]. An index out of range would be a panic. *)
Fixpoint follow (fuel : nat) (chain : list Z) (matched : list bool) (wanted : T) (cursor : Z) : bool * list bool :=
  match fuel with
  | O => (false, matched)
  | S fuel =>
      if cursor =? NO_MORE_IN_BUCKET then (false, matched)
      else
        let index := Z.to_nat cursor in
        let cursor := at_rank chain cursor in
        if default false (matched !! index) then follow fuel chain matched wanted cursor
        else
          match identity_of index with
          | None => follow fuel chain matched wanted cursor
          | Some candidate =>
              if decide (candidate = wanted) then (true, <[index := true]> matched)
              else follow fuel chain matched wanted cursor
          end
  end.

(** [claim_matching_candidate]: no chain visits an index twice. *)
Definition claim_matching_candidate (buckets : gmap Z Z) (chain : list Z) (matched : list bool) (wanted : T)
    : bool * list bool :=
  follow (S (length chain)) chain matched wanted (default NO_MORE_IN_BUCKET (buckets !! identity_digest wanted)).

End Buckets.

(** ** The difference of a write *)

Section Delta.

Context {T : Type} `{EqDecision T} `{Hashes T}.

(** The source file a row belongs to, by its id. *)
Variable file_of : T → Z.

(** [entry(file).or_default().absorb(tuple)] *)
Definition absorb_row (digests : gmap Z RowSetDigest) (x : T) : gmap Z RowSetDigest :=
  <[file_of x := absorb (default no_rows (digests !! file_of x)) x]> digests.

(** What was resolved: [None] where the index is not in this generation. *)
Definition fresh_digests (fresh : list (option T)) : gmap Z RowSetDigest :=
  foldl (λ m o, match o with Some x => absorb_row m x | None => m end) ∅ fresh.

(** [counts.get_mut(file).map(|count| *count += 1)] *)
Definition count_row (counts : gmap Z Z) (r : RangeRow T) : gmap Z Z :=
  if live r then alter (Z.add 1) (file_of (tuple r)) counts else counts.

Definition live_counts (scope_by_digest : bool) (digests : gmap Z RowSetDigest) (rows : list (RangeRow T)) : gmap Z Z :=
  let zeros := (λ _, 0) <$> digests in
  if scope_by_digest then foldl count_row zeros rows else zeros.

Definition unchanged_files (scope_by_digest : bool) (stored digests : gmap Z RowSetDigest) (counts : gmap Z Z) : gset Z :=
  if scope_by_digest
  then dom (filter (λ fd : Z * RowSetDigest, stored !! fd.1 = Some fd.2 ∧ counts !! fd.1 = Some (ds_rows fd.2)) digests)
  else ∅.

(** The closure [edge_identity]. *)
Definition identity_at (unchanged : gset Z) (fresh : list (option T)) (index : nat) : option T :=
  let! x := mjoin (fresh !! index) in
  if bool_decide (file_of x ∈ unchanged) then None else Some x.

(** The bits [matched] starts with. *)
Definition pre_claimed (unchanged : gset Z) (fresh : list (option T)) : list bool :=
  map (λ o : option T, match o with Some x => bool_decide (file_of x ∈ unchanged) | None => false end) fresh.

(** One row of the scan of the live rows: claimed, or to be closed. *)
Definition scan_row (unchanged : gset Z) (fresh : list (option T)) (buckets : gmap Z Z) (chain : list Z)
    (st : list bool * list Z) (r : RangeRow T) : list bool * list Z :=
  if negb (live r) then st
  else if bool_decide (file_of (tuple r) ∈ unchanged) then st
  else
    let '(still_valid, matched) :=
      claim_matching_candidate (identity_at unchanged fresh) buckets chain st.1 (tuple r) in
    (matched, if still_valid then st.2 else st.2 ++ [row_id r]).

(** [UPDATE … SET valid_to = gen WHERE id = close AND valid_to IS NULL] *)
Definition close_row (gen : Z) (rows : list (RangeRow T)) (close : Z) : list (RangeRow T) :=
  map (λ r, if bool_decide (row_id r = close) && live r
            then {| row_id := row_id r; tuple := tuple r; valid_from := valid_from r; valid_to := Some gen |}
            else r) rows.

(** The id SQLite gives the next row of an [INTEGER PRIMARY KEY]. *)
Definition next_row_id (rows : list (RangeRow T)) : Z := foldr (λ r, Z.max (row_id r)) 0 rows + 1.

Definition insert_row (gen : Z) (rows : list (RangeRow T)) (x : T) : list (RangeRow T) :=
  rows ++ [{| row_id := next_row_id rows; tuple := x; valid_from := gen; valid_to := None |}].

(** The tuples to insert: in this generation and not claimed, in the order they were resolved. *)
Fixpoint unclaimed (matched : list bool) (fresh : list (option T)) : list T :=
  match matched, fresh with
  | false :: matched, Some x :: fresh => x :: unclaimed matched fresh
  | _ :: matched, _ :: fresh => unclaimed matched fresh
  | _, _ => []
  end.

Definition scan (unchanged : gset Z) (fresh : list (option T)) (rows : list (RangeRow T)) : list bool * list Z :=
  let '(buckets, chain) := bucket_identities (identity_at unchanged fresh) (length fresh) in
  foldl (scan_row unchanged fresh buckets chain) (pre_claimed unchanged fresh, []) rows.

(** Everything a write does to one relation, but for recording its digests. *)
Definition write_delta (scope_by_digest : bool) (gen : Z) (stored : gmap Z RowSetDigest) (fresh : list (option T))
    (rows : list (RangeRow T)) : list (RangeRow T) :=
  let digests := fresh_digests fresh in
  let unchanged := unchanged_files scope_by_digest stored digests (live_counts scope_by_digest digests rows) in
  let '(matched, close) := scan unchanged fresh rows in
  foldl (insert_row gen) (foldl (close_row gen) rows close) (unclaimed matched fresh).

(** [DELETE … WHERE valid_to IS NOT NULL AND valid_to <= cutoff] *)
Definition drop_closed (cutoff : Z) (rows : list (RangeRow T)) : list (RangeRow T) :=
  List.filter (λ r, match valid_to r with Some t => negb (t <=? cutoff) | None => true end) rows.

End Delta.

End Ranges.
