(* ===== verification/RangesFacts.v ===== *)
(** * Facts of the ranged relations

    The buckets find what a search of every index finds, whatever the hash; the scan
    splits the live rows and the resolved ones into what they share and what either has
    alone; the digests are of multisets. *)

From S2P Require Import Prelude RustStr EdgeIndex EdgeIndexFacts Ranges.
Import EdgeIndex EdgeIndexFacts Ranges.

#[local] Open Scope Z_scope.

Module RangesFacts.

(** ** Claiming *)

Section Claim.

Context {T : Type} `{EqDecision T} `{Hashes T}.
Variable identity_of : nat → option T.

(** The index a claim looks for: not matched, and offering this value. *)
Definition claimable (matched : list bool) (wanted : T) (i : nat) : bool :=
  negb (default false (matched !! i)) && bool_decide (identity_of i = Some wanted).

(** The claim without hashes: of the indices that can be claimed, the last. *)
Definition claim_reference (count : nat) (matched : list bool) (wanted : T) : bool * list bool :=
  match last (List.filter (claimable matched wanted) (seq 0 count)) with
  | Some i => (true, <[i := true]> matched)
  | None => (false, matched)
  end.

(** [cursor] leads along [chain] through [l] to its end. *)
Fixpoint leads (chain : list Z) (cursor : Z) (l : list nat) : Prop :=
  match l with
  | [] => cursor = NO_MORE_IN_BUCKET
  | i :: l => cursor = Z.of_nat i ∧ Z.of_nat i < NO_MORE_IN_BUCKET ∧ leads chain (at_rank chain cursor) l
  end.

(** The indices whose identity digests to [digest], newest first. *)
Definition bucket (digest : Z) (n : nat) : list nat :=
  rev (List.filter (λ i, bool_decide (identity_digest <$> identity_of i = Some digest)) (seq 0 n)).

Lemma bucket_S digest n :
  bucket digest (S n)
  = if bool_decide (identity_digest <$> identity_of n = Some digest) then n :: bucket digest n else bucket digest n.
Proof.
  unfold bucket. rewrite seq_S, Nat.add_0_l, List.filter_app, rev_app_distr. cbn [List.filter].
  by case_bool_decide.
Qed.

Lemma bucket_below digest n i : i ∈ bucket digest n → (i < n)%nat.
Proof. unfold bucket. rewrite elem_of_rev, elem_of_filter_bool, elem_of_seq. lia. Qed.

Lemma leads_insert chain i v cursor l :
  (∀ j, j ∈ l → (j < i)%nat) → leads chain cursor l → leads (<[i := v]> chain) cursor l.
Proof.
  revert cursor. induction l as [|j l IH]; intros cursor Hl; cbn [leads]; [done|].
  intros (-> & Hj & Hrest). split; [done|]. split; [done|].
  assert (Hji : (j < i)%nat) by (apply Hl; by left).
  replace (at_rank (<[i := v]> chain) (Z.of_nat j)) with (at_rank chain (Z.of_nat j)).
  - apply IH; [|done]. intros k Hk. apply Hl. by right.
  - unfold at_rank. rewrite Nat2Z.id, list_lookup_insert_ne by lia. done.
Qed.

(** The buckets list the indices seen so far. *)
Lemma buckets_list (count n : nat) :
  Z.of_nat count ≤ u32_max → (n ≤ count)%nat →
  let st := foldl (put_in_bucket identity_of) (∅, replicate count NO_MORE_IN_BUCKET) (seq 0 n) in
  length st.2 = count ∧ ∀ digest, leads st.2 (default NO_MORE_IN_BUCKET (st.1 !! digest)) (bucket digest n).
Proof.
  intros Hcount. induction n as [|n IH]; intros Hn.
  { cbn. split; [by rewrite length_replicate|]. intros digest. by rewrite lookup_empty. }
  destruct (IH ltac:(lia)) as [Hlen Hleads]. clear IH. rewrite seq_S, foldl_snoc, Nat.add_0_l.
  set (st := foldl _ _ _) in *. unfold put_in_bucket. destruct (identity_of n) as [x|] eqn:E.
  2: { split; [done|]. intros digest. rewrite bucket_S, E. cbn [fmap option_fmap option_map]. by rewrite bool_decide_false. }
  assert (Hsmall : as_u32 (Z.of_nat n) = Z.of_nat n) by (apply as_u32_small; unfold u32_max in Hcount; lia).
  cbn [fst snd]. rewrite Hsmall, Nat2Z.id. split; [by rewrite length_insert|].
  intros digest. rewrite bucket_S, E. cbn [fmap option_fmap option_map].
  destruct (decide (identity_digest x = digest)) as [Hd|Hne].
  - rewrite bool_decide_true, Hd, lookup_insert_eq by by rewrite Hd. cbn [default from_option id leads].
    split; [done|]. split; [unfold NO_MORE_IN_BUCKET; lia|].
    unfold at_rank. rewrite Nat2Z.id, list_lookup_insert_eq by lia. cbn [default from_option id].
    apply leads_insert; [apply bucket_below|]. apply Hleads.
  - rewrite bool_decide_false, lookup_insert_ne by congruence. apply leads_insert; [apply bucket_below|]. apply Hleads.
Qed.

(** Following a chain finds its first index that can be claimed. *)
Lemma follow_finds fuel chain matched wanted cursor l :
  leads chain cursor l → (length l < fuel)%nat →
  follow identity_of fuel chain matched wanted cursor
  = match head (List.filter (claimable matched wanted) l) with
    | Some i => (true, <[i := true]> matched)
    | None => (false, matched)
    end.
Proof.
  revert cursor l. induction fuel as [|fuel IH]; intros cursor l Hl Hlen; [lia|]. cbn [follow].
  destruct l as [|i l]; cbn [leads] in Hl; [by subst|]. destruct Hl as (-> & Hi & Hl). cbn [length] in Hlen.
  rewrite (proj2 (Z.eqb_neq _ _)) by lia. rewrite Nat2Z.id. cbn [List.filter]. unfold claimable at 1.
  destruct (default false (matched !! i)); cbn [negb andb]; [apply IH; [done|lia]|].
  destruct (identity_of i) as [x|].
  - destruct (decide (x = wanted)) as [->|Hne]; [by rewrite bool_decide_true|].
    rewrite bool_decide_false by congruence. apply IH; [done|lia].
  - rewrite bool_decide_false by done. apply IH; [done|lia].
Qed.

Lemma head_rev {A} (l : list A) : head (rev l) = last l.
Proof.
  induction l as [|x l IH]; [done|]. cbn [rev]. destruct l as [|y l]; [done|].
  rewrite last_cons_cons, <- IH. cbn [rev]. destruct (rev l); done.
Qed.

Lemma filter_rev {A} (p : A → bool) l : List.filter p (rev l) = rev (List.filter p l).
Proof.
  induction l as [|x l IH]; [done|]. cbn [rev List.filter]. rewrite List.filter_app, IH. cbn [List.filter].
  destruct (p x); [done|by rewrite app_nil_r].
Qed.

Lemma filter_filter_absorb {A} (p q : A → bool) l :
  (∀ x, q x = true → p x = true) → List.filter q (List.filter p l) = List.filter q l.
Proof.
  intros Hpq. induction l as [|x l IH]; [done|]. cbn [List.filter]. destruct (p x) eqn:E.
  - cbn [List.filter]. by rewrite IH.
  - destruct (q x) eqn:Eq; [|done]. by rewrite Hpq in E.
Qed.

(** Whatever the hash, a claim is the search of every index. *)
Lemma claim_is_reference count matched wanted :
  Z.of_nat count ≤ u32_max →
  let '(buckets, chain) := bucket_identities identity_of count in
  claim_matching_candidate identity_of buckets chain matched wanted = claim_reference count matched wanted.
Proof.
  intros Hcount. unfold bucket_identities. pose proof (buckets_list count count Hcount ltac:(lia)) as [Hlen Hl].
  destruct (foldl _ _ _) as [buckets chain]. cbn [fst snd] in *. unfold claim_matching_candidate.
  assert (Hshort : (length (bucket (identity_digest wanted) count) < S (length chain))%nat).
  { unfold bucket. rewrite length_rev, Hlen. pose proof (List.filter_length_le (λ i, bool_decide (identity_digest <$> identity_of i = Some (identity_digest wanted))) (seq 0 count)) as Hle.
    rewrite length_seq in Hle. lia. }
  rewrite (follow_finds _ _ _ _ _ _ (Hl _) Hshort). unfold bucket, claim_reference.
  rewrite filter_rev, head_rev, filter_filter_absorb; [done|].
  intros i. unfold claimable. rewrite andb_true_iff, !bool_decide_eq_true. intros [_ ->]. done.
Qed.

End Claim.

(** ** Lists as multisets *)

Lemma filter_perm {A} (p : A → bool) l k : l ≡ₚ k → List.filter p l ≡ₚ List.filter p k.
Proof.
  induction 1 as [|x l k _ IH|x y l|l k j _ IH1 _ IH2]; cbn [List.filter]; [done| | |by etrans].
  - case_if; [by constructor|done].
  - do 2 case_if; try done. constructor.
Qed.

Lemma filter_split {A} (p : A → bool) l : l ≡ₚ List.filter p l ++ List.filter (λ x, negb (p x)) l.
Proof.
  induction l as [|x l IH]; [done|]. cbn [List.filter]. destruct (p x); cbn [negb app].
  - by constructor.
  - rewrite <- Permutation_middle. by constructor.
Qed.

Lemma nodup_map_filter {A B} (f : A → B) (p : A → bool) l : NoDup (map f l) → NoDup (map f (List.filter p l)).
Proof.
  induction l as [|x l IH]; [done|]. cbn [map List.filter]. intros [Hx Hn]%NoDup_cons.
  destruct (p x); [|by apply IH]. cbn [map]. constructor; [|by apply IH].
  intros (y & Heq & Hy)%elem_of_map. apply Hx. rewrite Heq. apply elem_of_map. exists y.
  split; [done|]. by apply elem_of_filter_bool in Hy as [? _].
Qed.

Section Copies.

Context {A : Type} `{EqDecision A}.

(** How many times [x] occurs. *)
Definition copies (l : list A) (x : A) : nat := count_occ (decide_rel eq) l x.

Lemma copies_app l k x : copies (l ++ k) x = (copies l x + copies k x)%nat.
Proof. apply count_occ_app. Qed.

Lemma copies_perm l k : l ≡ₚ k ↔ ∀ x, copies l x = copies k x.
Proof. apply Permutation_count_occ. Qed.

Lemma copies_absent l x : x ∉ l ↔ copies l x = 0%nat.
Proof. rewrite list_elem_of_In. apply count_occ_not_In. Qed.

Lemma copies_filter (p : A → bool) l x : copies (List.filter p l) x = if p x then copies l x else 0%nat.
Proof.
  unfold copies. induction l as [|y l IH]; cbn [List.filter count_occ]; [by destruct (p x)|].
  destruct (p y) eqn:E; cbn [count_occ]; rewrite IH; destruct (decide_rel eq y x) as [->|Hne]; try done.
  - by rewrite E.
  - by rewrite E.
Qed.

(** What two parts have in common can be counted. *)
Lemma copies_apart l k kept only_l only_k x :
  l ≡ₚ kept ++ only_l → k ≡ₚ kept ++ only_k → (x ∈ only_l → x ∈ only_k → False) →
  copies only_l x = (copies l x - copies k x)%nat ∧ copies only_k x = (copies k x - copies l x)%nat.
Proof.
  intros Hl Hk Hapart. rewrite copies_perm in Hl, Hk. specialize (Hl x). specialize (Hk x). rewrite copies_app in Hl, Hk.
  assert (copies only_l x = 0%nat ∨ copies only_k x = 0%nat) as [H|H].
  { destruct (decide (x ∈ only_l)) as [H|H]; [|left; by apply copies_absent].
    right. apply copies_absent. intros H'. by apply Hapart. }
  all: lia.
Qed.

End Copies.

(** ** Digests *)

Section Digests.

Context {T : Type} `{EqDecision T} `{Hashes T}.

(** The digest of the rows of one file. *)
Definition digest_of (l : list T) : RowSetDigest := foldl absorb no_rows l.

Definition total (f : T → Z) (l : list T) : Z := foldr (λ x, Z.add (f x)) 0 l.

Lemma total_perm f l k : l ≡ₚ k → total f l = total f k.
Proof. unfold total. induction 1; cbn [foldr]; lia. Qed.

Lemma wrapping_add_total a b : wrapping_add (as_u64 a) b = as_u64 (a + b).
Proof. unfold wrapping_add, as_u64. by rewrite Z.add_mod_idemp_l. Qed.

(** A digest is a sum over the rows, whatever their order. *)
Lemma digest_of_total l :
  digest_of l = {| ds_rows := as_u64 (Z.of_nat (length l)); ds_lo := as_u64 (total identity_digest l);
                   ds_hi := as_u64 (total salted_digest l) |}.
Proof.
  unfold digest_of. induction l as [|x l IH] using rev_ind; [done|]. rewrite foldl_snoc, IH. unfold absorb. cbn [ds_rows ds_lo ds_hi].
  rewrite !wrapping_add_total, length_app. cbn [length]. unfold total. rewrite !foldr_app. cbn [foldr].
  assert (Hs : ∀ (f : T → Z) c k, foldr (λ x, Z.add (f x)) c k = foldr (λ x, Z.add (f x)) 0 k + c).
  { intros f c k. induction k as [|y k IHk]; cbn [foldr]; lia. }
  rewrite (Hs _ (identity_digest x + 0)), (Hs _ (salted_digest x + 0)). f_equal; f_equal; lia.
Qed.

Lemma digest_of_perm l k : l ≡ₚ k → digest_of l = digest_of k.
Proof. intros Hp. rewrite !digest_of_total, (total_perm _ _ _ Hp), (total_perm salted_digest _ _ Hp). by rewrite Hp. Qed.

Lemma digest_rows l : Z.of_nat (length l) < 2 ^ 64 → ds_rows (digest_of l) = Z.of_nat (length l).
Proof. intros Hl. rewrite digest_of_total. cbn [ds_rows]. apply Z.mod_small. lia. Qed.

Lemma as_i64_as_u64 z : 0 ≤ z < 2 ^ 64 → as_u64 (as_i64 z) = z.
Proof.
  intros Hz. unfold as_i64, as_u64. case_if; bool_to_prop; [by rewrite Z.mod_small|].
  rewrite <- (Z.mod_small z (2 ^ 64)) at 2 by done. rewrite <- (Z_mod_plus_full (z - 2 ^ 64) 1 (2 ^ 64)). f_equal. lia.
Qed.

(** The columns keep a digest. *)
Lemma columns_keep l : from_columns (to_columns (digest_of l)) = digest_of l.
Proof.
  rewrite digest_of_total. unfold from_columns, to_columns. cbn [fst snd ds_rows ds_lo ds_hi].
  f_equal; apply as_i64_as_u64; apply Z.mod_pos_bound; lia.
Qed.

End Digests.

(** ** The scan *)

Section Scan.

Context {T : Type} `{EqDecision T} `{Hashes T}.
Variable file_of : T → Z.

(** What is in this generation, in the order it was resolved. *)
Definition resolved (fresh : list (option T)) : list T := omap (λ o, o) fresh.

(** The rows of one file. *)
Definition of_file (f : Z) (l : list T) : list T := List.filter (λ x, bool_decide (file_of x = f)) l.

Definition in_files (files : gset Z) (x : T) : bool := bool_decide (file_of x ∈ files).

Lemma elem_of_unclaimed matched fresh (x : T) :
  x ∈ unclaimed matched fresh ↔ ∃ i, matched !! i = Some false ∧ fresh !! i = Some (Some x).
Proof.
  revert fresh. induction matched as [|m matched IH]; intros fresh.
  { split; [intros Hx; destruct fresh; by apply not_elem_of_nil in Hx|intros (i & Hi & _); done]. }
  destruct fresh as [|o fresh].
  { split; [destruct m; intros Hx; by apply not_elem_of_nil in Hx|intros (i & _ & Hi); done]. }
  assert (Hstep : (∃ i, (m :: matched) !! i = Some false ∧ (o :: fresh) !! i = Some (Some x))
                  ↔ (m = false ∧ o = Some x) ∨ x ∈ unclaimed matched fresh).
  { rewrite IH. split.
    - intros ([|i] & Hm & Ho); cbn in Hm, Ho; [left; by split; congruence|right; eauto].
    - intros [[-> ->]|(i & Hm & Ho)]; [by exists 0%nat|by exists (S i)]. }
  rewrite Hstep. destruct m, o as [y|]; cbn [unclaimed]; try (rewrite elem_of_cons); naive_solver.
Qed.

Lemma unclaimed_claim matched fresh i (x : T) :
  matched !! i = Some false → fresh !! i = Some (Some x) →
  unclaimed matched fresh ≡ₚ x :: unclaimed (<[i := true]> matched) fresh.
Proof.
  revert fresh i. induction matched as [|m matched IH]; intros fresh i Hm Hf; [done|].
  destruct fresh as [|o fresh]; [done|]. destruct i as [|i]; cbn in Hm, Hf.
  - injection Hm as ->. by injection Hf as ->.
  - cbn [insert list_insert]. specialize (IH fresh i Hm Hf). destruct m, o as [y|]; cbn [unclaimed]; try done.
    rewrite IH. apply perm_swap.
Qed.

Lemma unclaimed_pre unchanged (fresh : list (option T)) :
  unclaimed (pre_claimed file_of unchanged fresh) fresh
  = List.filter (λ x, negb (in_files unchanged x)) (resolved fresh).
Proof.
  unfold resolved, pre_claimed, in_files. induction fresh as [|[x|] fresh IH]; [done| |exact IH].
  cbn [map omap list_omap List.filter unclaimed]. case_bool_decide; cbn [negb unclaimed]; by rewrite IH.
Qed.

Lemma identity_at_Some unchanged fresh i (x : T) :
  identity_at file_of unchanged fresh i = Some x ↔ fresh !! i = Some (Some x) ∧ file_of x ∉ unchanged.
Proof.
  unfold identity_at. destruct (fresh !! i) as [[y|]|]; cbn; [|naive_solver..].
  case_bool_decide; split; [done|intros [[= ->] ?]; done|intros [= ->]; done|naive_solver].
Qed.

(** A claim takes one value that is in the list, and fails only when there is none. *)
Lemma claim_spec unchanged fresh matched (wanted : T) :
  Z.of_nat (length fresh) ≤ u32_max → length matched = length fresh → file_of wanted ∉ unchanged →
  let '(buckets, chain) := bucket_identities (identity_at file_of unchanged fresh) (length fresh) in
  match claim_matching_candidate (identity_at file_of unchanged fresh) buckets chain matched wanted with
  | (true, matched') => length matched' = length fresh ∧ unclaimed matched fresh ≡ₚ wanted :: unclaimed matched' fresh
  | (false, matched') => matched' = matched ∧ wanted ∉ unclaimed matched fresh
  end.
Proof.
  intros Hcount Hlen Hin. pose proof (claim_is_reference (identity_at file_of unchanged fresh) (length fresh) matched wanted Hcount) as Hr.
  destruct (bucket_identities _ _) as [buckets chain]. rewrite Hr. unfold claim_reference.
  destruct (last _) as [i|] eqn:E.
  - apply last_Some_elem_of in E. rewrite elem_of_filter_bool, elem_of_seq in E. destruct E as [Hi Hc].
    unfold claimable in Hc. bool_to_prop. apply identity_at_Some in H1 as [Hf _]. rewrite length_insert. split; [done|].
    apply unclaimed_claim; [|done]. destruct (lookup_lt_is_Some_2 matched i ltac:(lia)) as [b Hb]. rewrite Hb in *.
    cbn in H0. by subst b.
  - split; [done|]. rewrite elem_of_unclaimed. intros (i & Hm & Hf). apply last_None in E.
    assert (Hi : i ∈ List.filter (claimable (identity_at file_of unchanged fresh) matched wanted) (seq 0 (length fresh))).
    { rewrite elem_of_filter_bool, elem_of_seq. split; [apply lookup_lt_Some in Hf; lia|].
      unfold claimable. rewrite Hm. cbn. apply bool_decide_eq_true, identity_at_Some. done. }
    rewrite E in Hi. by apply not_elem_of_nil in Hi.
Qed.

(** A live row that is compared. *)
Definition compared (unchanged : gset Z) (r : RangeRow T) : bool := live r && negb (in_files unchanged (tuple r)).

(** What a scan knows: the rows it compared are kept or to be closed, and what is unclaimed
    is what the kept ones have not taken. *)
Record scanned (unchanged : gset Z) (fresh : list (option T)) (rows kept closed : list (RangeRow T))
    (st : list bool * list Z) : Prop := {
  sc_rows : List.filter (compared unchanged) rows ≡ₚ kept ++ closed;
  sc_close : st.2 = map row_id closed;
  sc_matched : length st.1 = length fresh;
  sc_fresh : List.filter (λ x, negb (in_files unchanged x)) (resolved fresh) ≡ₚ map tuple kept ++ unclaimed st.1 fresh;
  sc_apart : ∀ r, r ∈ closed → (tuple r ∉ unclaimed st.1 fresh);
}.

Lemma scan_row_step unchanged fresh (rows kept closed : list (RangeRow T)) st r buckets chain :
  Z.of_nat (length fresh) ≤ u32_max →
  bucket_identities (identity_at file_of unchanged fresh) (length fresh) = (buckets, chain) →
  scanned unchanged fresh rows kept closed st →
  ∃ kept' closed', scanned unchanged fresh (rows ++ [r]) kept' closed' (scan_row file_of unchanged fresh buckets chain st r).
Proof.
  intros Hcount Hb [S1 S2 S3 S4 S5]. unfold scan_row.
  assert (Hskip : compared unchanged r = false → scanned unchanged fresh (rows ++ [r]) kept closed st).
  { intros Hc. split; try done. rewrite List.filter_app. cbn [List.filter]. by rewrite Hc, app_nil_r. }
  destruct (live r) eqn:Hlive; cbn [negb]; [|exists kept, closed; apply Hskip; unfold compared; by rewrite Hlive].
  case_bool_decide as Hin; [exists kept, closed; apply Hskip; unfold compared, in_files; by rewrite Hlive, bool_decide_true|].
  assert (Hc : compared unchanged r = true) by (unfold compared, in_files; by rewrite Hlive, bool_decide_false).
  pose proof (claim_spec unchanged fresh st.1 (tuple r) Hcount S3 Hin) as Hclaim. rewrite Hb in Hclaim.
  destruct (claim_matching_candidate _ _ _ _ _) as [[] matched]; destruct Hclaim as [Hm Hu].
  - exists (kept ++ [r]), closed. split; cbn [fst snd]; [|done|done| |].
    + rewrite List.filter_app. cbn [List.filter]. rewrite Hc, S1, <- !app_assoc. by rewrite (Permutation_app_comm closed [r]).
    + by rewrite S4, Hu, map_app, <- app_assoc.
    + intros q Hq Hx. apply (S5 q Hq). rewrite Hu. by right.
  - subst matched. exists kept, (closed ++ [r]). split; cbn [fst snd]; [| |done|done|].
    + rewrite List.filter_app. cbn [List.filter]. by rewrite Hc, S1, <- app_assoc.
    + by rewrite S2, map_app.
    + intros q. rewrite elem_of_app, list_elem_of_singleton. intros [Hq| ->]; [by apply S5|done].
Qed.

(** The scan of all rows. *)
Lemma scan_spec unchanged fresh (rows : list (RangeRow T)) :
  Z.of_nat (length fresh) ≤ u32_max →
  ∃ kept closed, scanned unchanged fresh rows kept closed (scan file_of unchanged fresh rows).
Proof.
  intros Hcount. unfold scan. destruct (bucket_identities _ _) as [buckets chain] eqn:Hb.
  induction rows as [|r rows IH] using rev_ind.
  - exists [], []. split; cbn; try done; [unfold pre_claimed; by rewrite length_map|by rewrite unclaimed_pre|by intros ? ?%not_elem_of_nil].
  - rewrite foldl_snoc. destruct IH as (kept & closed & Hs). by eapply scan_row_step.
Qed.

End Scan.

(** ** Closing and inserting *)

Section Updates.

Context {T : Type}.

(** The ranges a relation can hold when [latest] is the newest generation there has been. *)
Record ranged (latest : Z) (rows : list (RangeRow T)) : Prop := {
  rg_ids : NoDup (map row_id rows);
  rg_from : ∀ r, r ∈ rows → valid_from r ≤ latest;
  rg_to : ∀ r t, r ∈ rows → valid_to r = Some t → valid_from r < t ≤ latest;
}.

Definition close_if (gen : Z) (close : list Z) (r : RangeRow T) : RangeRow T :=
  if bool_decide (row_id r ∈ close) && live r
  then {| row_id := row_id r; tuple := tuple r; valid_from := valid_from r; valid_to := Some gen |} else r.

Lemma close_rows gen close rows : foldl (close_row gen) rows close = map (close_if gen close) rows.
Proof.
  revert rows. induction close as [|c close IH]; intros rows; cbn [foldl].
  { rewrite <- (map_id rows) at 1. apply map_ext. intros r. unfold close_if.
    by rewrite bool_decide_false by apply not_elem_of_nil. }
  rewrite IH. unfold close_row. rewrite map_map. apply map_ext. intros r. unfold close_if.
  destruct (decide (row_id r = c)) as [->|Hne].
  - rewrite (bool_decide_true (c = c)), (bool_decide_true (c ∈ c :: close)) by (done || by left). cbn [andb].
    destruct (live r) eqn:E; [cbn|by rewrite E, andb_false_r]. by rewrite andb_false_r.
  - rewrite (bool_decide_false (row_id r = c)) by done. cbn [andb].
    replace (bool_decide (row_id r ∈ c :: close)) with (bool_decide (row_id r ∈ close)); [done|].
    apply bool_decide_ext. rewrite elem_of_cons. naive_solver.
Qed.

Lemma close_if_id gen close r : row_id (close_if gen close r) = row_id r.
Proof. unfold close_if. by case_if. Qed.

Lemma close_if_tuple gen close r : tuple (close_if gen close r) = tuple r.
Proof. unfold close_if. by case_if. Qed.

Lemma next_row_id_above (rows : list (RangeRow T)) r : r ∈ rows → row_id r < next_row_id rows.
Proof.
  unfold next_row_id. induction rows as [|q rows IH]; [by intros ?%not_elem_of_nil|].
  rewrite elem_of_cons. cbn [foldr]. intros [->|Hr]; [lia|]. specialize (IH Hr). lia.
Qed.

(** The rows a write inserts. *)
Record inserted (gen : Z) (tuples : list T) (rows new : list (RangeRow T)) : Prop := {
  in_tuples : map tuple new = tuples;
  in_open : ∀ r, r ∈ new → valid_from r = gen ∧ valid_to r = None;
  in_ids : NoDup (map row_id rows) → NoDup (map row_id (rows ++ new));
}.

Lemma insert_rows gen tuples rows : ∃ new, foldl (insert_row gen) rows tuples = rows ++ new ∧ inserted gen tuples rows new.
Proof.
  induction tuples as [|x tuples IH] using rev_ind.
  { exists []. rewrite app_nil_r. split; [done|]. split; [done|by intros ? ?%not_elem_of_nil|by rewrite app_nil_r]. }
  destruct IH as (new & Hfold & Hn). rewrite foldl_snoc, Hfold. unfold insert_row at 1. rewrite <- app_assoc.
  eexists. split; [done|]. destruct Hn as [H1 H2 H3]. split.
  - by rewrite map_app, H1.
  - intros r. rewrite elem_of_app, list_elem_of_singleton. intros [Hr| ->]; [by apply H2|done].
  - intros Hn. rewrite app_assoc, map_app. apply NoDup_app. split; [by apply H3|]. cbn [map row_id].
    split; [|apply NoDup_singleton]. intros i Hi. rewrite list_elem_of_singleton. intros ->.
    apply elem_of_map in Hi as (r & Heq & Hr). apply next_row_id_above in Hr. lia.
Qed.

(** A row of before is read after as it was, unless this write closed it. *)
Lemma valid_before latest gen close rows r g :
  ranged latest rows → r ∈ rows → g ≤ latest → latest < gen → valid_at g (close_if gen close r) = valid_at g r.
Proof.
  intros Hr Hin Hg Hgen. unfold close_if. case_if; [|done]. unfold valid_at. cbn [valid_from valid_to]. bool_to_prop.
  unfold live in *. destruct (valid_to r); [done|]. rewrite (proj2 (Z.ltb_lt g gen)) by lia. done.
Qed.

Lemma valid_after latest gen close rows r :
  ranged latest rows → r ∈ rows → latest < gen →
  valid_at gen (close_if gen close r) = live r && negb (bool_decide (row_id r ∈ close)).
Proof.
  intros Hr Hin Hgen. pose proof (rg_from _ _ Hr r Hin) as Hf. unfold close_if, valid_at, live.
  destruct (valid_to r) as [t|] eqn:Et.
  - destruct (rg_to _ _ Hr r t Hin Et) as [_ Ht]. rewrite andb_false_r, Et, (proj2 (Z.ltb_ge gen t)) by lia. apply andb_false_r.
  - rewrite andb_true_r. case_if; cbn [valid_from valid_to negb andb]; [rewrite Z.ltb_irrefl; apply andb_false_r|].
    rewrite Et, andb_true_r. apply Z.leb_le. lia.
Qed.

Lemma tuples_map (f : RangeRow T → RangeRow T) rows (p p' : RangeRow T → bool) :
  (∀ r, r ∈ rows → p (f r) = p' r) → (∀ r, tuple (f r) = tuple r) →
  map tuple (List.filter p (map f rows)) = map tuple (List.filter p' rows).
Proof.
  intros Hp Ht. induction rows as [|r rows IH]; [done|]. cbn [map List.filter].
  rewrite Hp by by left. assert (IH' := IH ltac:(intros q Hq; apply Hp; by right)).
  destruct (p' r); cbn [map]; by rewrite ?Ht, IH'.
Qed.

Lemma filter_and (p q : RangeRow T → bool) rows : List.filter (λ r, p r && q r) rows = List.filter q (List.filter p rows).
Proof. induction rows as [|r rows IH]; [done|]. cbn [List.filter]. destruct (p r); cbn [andb List.filter]; by rewrite IH. Qed.

Lemma relation_new gen tuples rows new g :
  inserted gen tuples rows new → relation_at g new = if g <? gen then [] else tuples.
Proof.
  intros [<- Hopen _]. unfold relation_at.
  assert (Hv : ∀ r, r ∈ new → valid_at g r = negb (g <? gen)).
  { intros r Hr. destruct (Hopen r Hr) as [Hf Ht]. unfold valid_at. rewrite Hf, Ht, andb_true_r.
    destruct (Z.ltb_spec g gen); cbn; [apply Z.leb_gt|apply Z.leb_le]; lia. }
  case_if.
  - rewrite filter_false; [done|]. intros r Hr. by rewrite Hv.
  - rewrite filter_all; [done|]. intros r Hr. by rewrite Hv.
Qed.

(** With ids told apart, what is closed by id is what was to be closed. *)
Lemma filter_closed (rows kept closed : list (RangeRow T)) :
  NoDup (map row_id rows) → List.filter live rows ≡ₚ kept ++ closed →
  List.filter (λ r, live r && negb (bool_decide (row_id r ∈ map row_id closed))) rows ≡ₚ kept.
Proof.
  intros Hnd Hp. set (q := λ r : RangeRow T, negb (bool_decide (row_id r ∈ map row_id closed))).
  change (List.filter (λ r, live r && q r) rows ≡ₚ kept). rewrite filter_and, (filter_perm q _ _ Hp), List.filter_app.
  assert (Hids : NoDup (map row_id kept ++ map row_id closed)).
  { rewrite <- map_app, <- Hp. by apply nodup_map_filter. }
  apply NoDup_app in Hids as (_ & Hapart & _).
  rewrite (filter_all q kept), (filter_false q closed), app_nil_r; [done| |].
  - intros r Hr. unfold q. rewrite bool_decide_true; [done|]. apply elem_of_map. by exists r.
  - intros r Hr. unfold q. rewrite bool_decide_false; [done|]. apply Hapart. apply elem_of_map. by exists r.
Qed.

End Updates.

(** ** The difference *)

Section DeltaFacts.

Context {T : Type} `{EqDecision T} `{Hashes T}.
Variable file_of : T → Z.

Abbreviation of_file := (of_file file_of).
Abbreviation in_files := (in_files file_of).

Lemma resolved_short (fresh : list (option T)) : (length (resolved fresh) ≤ length fresh)%nat.
Proof. unfold resolved. induction fresh as [|[x|] fresh IH]; cbn; lia. Qed.

Lemma absorb_row_lookup digests x f :
  absorb_row file_of digests x !! f
  = if decide (file_of x = f) then Some (absorb (default no_rows (digests !! f)) x) else digests !! f.
Proof.
  unfold absorb_row. destruct (decide _) as [<-|Hne]; [by rewrite lookup_insert_eq|by rewrite lookup_insert_ne].
Qed.

Lemma fresh_digests_lookup fresh f :
  fresh_digests file_of fresh !! f
  = match of_file f (resolved fresh) with [] => None | x :: l => Some (digest_of (x :: l)) end.
Proof.
  unfold fresh_digests. induction fresh as [|o fresh IH] using rev_ind; [done|].
  rewrite foldl_snoc. unfold resolved in *. rewrite omap_app. unfold RangesFacts.of_file in *. rewrite List.filter_app.
  destruct o as [x|]; cbn [omap list_omap List.filter]; [|by rewrite app_nil_r]. rewrite absorb_row_lookup.
  destruct (decide (file_of x = f)) as [->|Hne].
  - rewrite bool_decide_true, IH by done. destruct (List.filter _ _) as [|y l]; [done|].
    cbn [default from_option id app]. unfold digest_of. rewrite app_comm_cons. by rewrite foldl_snoc.
  - by rewrite bool_decide_false, app_nil_r by done.
Qed.

Lemma live_counts_lookup digests rows f :
  live_counts file_of true digests rows !! f
  = (λ _, Z.of_nat (length (of_file f (live_tuples rows)))) <$> digests !! f.
Proof.
  unfold live_counts. induction rows as [|r rows IH] using rev_ind.
  { cbn. rewrite lookup_fmap. done. }
  rewrite foldl_snoc. unfold count_row, live_tuples in *. rewrite List.filter_app, map_app. unfold RangesFacts.of_file in *.
  rewrite List.filter_app, length_app. cbn [List.filter]. destruct (live r); cbn [map List.filter length].
  2: { rewrite IH. destruct (digests !! f); [|done]. cbn. f_equal. lia. }
  destruct (decide (file_of (tuple r) = f)) as [<-|Hne].
  - rewrite lookup_alter_eq, bool_decide_true, IH by done. destruct (digests !! _); [|done]. cbn. f_equal. lia.
  - rewrite lookup_alter_ne, bool_decide_false, IH by done. destruct (digests !! _); [|done]. cbn. f_equal. lia.
Qed.

(** The files a scan skips. *)
Lemma elem_of_unchanged scope stored fresh (rows : list (RangeRow T)) f :
  Z.of_nat (length fresh) < 2 ^ 64 →
  f ∈ unchanged_files scope stored (fresh_digests file_of fresh) (live_counts file_of scope (fresh_digests file_of fresh) rows)
  ↔ scope = true ∧ of_file f (resolved fresh) ≠ [] ∧ stored !! f = Some (digest_of (of_file f (resolved fresh)))
    ∧ length (of_file f (live_tuples rows)) = length (of_file f (resolved fresh)).
Proof.
  intros Hlen. unfold unchanged_files. destruct scope; [|set_solver].
  assert (Hshort : Z.of_nat (length (of_file f (resolved fresh))) < 2 ^ 64).
  { unfold RangesFacts.of_file. pose proof (List.filter_length_le (λ x, bool_decide (file_of x = f)) (resolved fresh)).
    pose proof (resolved_short fresh). lia. }
  rewrite elem_of_dom. unfold is_Some. setoid_rewrite map_lookup_filter_Some. cbn [fst snd].
  rewrite fresh_digests_lookup, live_counts_lookup, fresh_digests_lookup.
  pose proof (digest_rows _ Hshort) as Hrows. generalize dependent (of_file f (resolved fresh)). intros k Hk Hrows.
  replace (match k with [] => None | x :: l => Some (digest_of (x :: l)) end)
    with (if decide (k = []) then None else Some (digest_of k)) by by destruct k.
  destruct (decide (k = [])) as [->|Hne]; [naive_solver|]. cbn [fmap option_fmap option_map]. split.
  - intros (d & [= <-] & Hs & [= Hc]). rewrite Hrows in Hc. split; [done|]. split; [done|]. split; [done|lia].
  - intros (_ & _ & Hs & Hc). exists (digest_of k). split; [done|]. split; [done|]. rewrite Hrows. f_equal. lia.
Qed.

(** The digests tell the truth: a file of the recorded digest and the right number of
    rows holds the rows that were resolved. *)
Definition trusted (stored : gmap Z RowSetDigest) (fresh : list (option T)) (rows : list (RangeRow T)) : Prop :=
  ∀ f, stored !! f = Some (digest_of (of_file f (resolved fresh))) →
       length (of_file f (live_tuples rows)) = length (of_file f (resolved fresh)) →
       of_file f (live_tuples rows) ≡ₚ of_file f (resolved fresh).

Lemma copies_of_file l x : copies (of_file (file_of x) l) x = copies l x.
Proof. unfold RangesFacts.of_file. rewrite copies_filter. by rewrite bool_decide_true. Qed.

Lemma by_files_perm files l k :
  (∀ f, f ∈ files → of_file f l ≡ₚ of_file f k) → List.filter (in_files files) l ≡ₚ List.filter (in_files files) k.
Proof.
  intros Hf. apply copies_perm. intros x. rewrite !copies_filter. unfold RangesFacts.in_files. case_bool_decide as Hin; [|done].
  rewrite <- (copies_of_file l), <- (copies_of_file k). by apply copies_perm, Hf.
Qed.

Lemma live_is_latest latest (rows : list (RangeRow T)) : ranged latest rows → relation_at latest rows = live_tuples rows.
Proof.
  intros Hr. unfold relation_at, live_tuples. f_equal. apply filter_agree. intros r Hin. unfold valid_at, live.
  pose proof (rg_from _ _ Hr r Hin). rewrite (proj2 (Z.leb_le _ _)) by done. destruct (valid_to r) as [t|] eqn:Et; [|done].
  destruct (rg_to _ _ Hr r t Hin Et). cbn. apply Z.ltb_ge. lia.
Qed.

(** The rows generation [gen] opened, and those it closed. *)
Definition opened_at (gen : Z) (rows : list (RangeRow T)) : list T :=
  map tuple (List.filter (λ r, bool_decide (valid_from r = gen)) rows).
Definition closed_at (gen : Z) (rows : list (RangeRow T)) : list T :=
  map tuple (List.filter (λ r, bool_decide (valid_to r = Some gen)) rows).

(** What a write makes of a relation. *)
Record difference (latest gen : Z) (fresh : list (option T)) (rows rows' : list (RangeRow T)) : Prop := {
  df_ranged : ranged gen rows';
  df_now : relation_at gen rows' ≡ₚ resolved fresh;
  df_before : ∀ g, g ≤ latest → relation_at g rows' = relation_at g rows;
  df_parts : ∃ kept, live_tuples rows ≡ₚ kept ++ closed_at gen rows' ∧ resolved fresh ≡ₚ kept ++ opened_at gen rows';
  df_apart : ∀ x, x ∈ closed_at gen rows' → x ∈ opened_at gen rows' → False;
  df_order : opened_at gen rows' `sublist_of` resolved fresh;
  df_tuples : ∀ r, r ∈ rows' → (∃ q, q ∈ rows ∧ tuple q = tuple r) ∨ tuple r ∈ resolved fresh;
}.

Lemma unclaimed_sublist matched (fresh : list (option T)) : unclaimed matched fresh `sublist_of` resolved fresh.
Proof.
  unfold resolved. revert fresh. induction matched as [|m matched IH]; intros fresh; [apply sublist_nil_l|].
  destruct fresh as [|[x|] fresh]; [by destruct m| |destruct m; exact (IH fresh)].
  destruct m; [by apply sublist_cons, IH|by apply sublist_skip, IH].
Qed.

(** The live rows, and the resolved ones, are what is kept with what is closed or opened. *)
Lemma scan_parts unchanged fresh (rows kept closed : list (RangeRow T)) st :
  scanned file_of unchanged fresh rows kept closed st →
  (∀ f, f ∈ unchanged → of_file f (live_tuples rows) ≡ₚ of_file f (resolved fresh)) →
  ∃ all_kept, List.filter live rows ≡ₚ all_kept ++ closed ∧ resolved fresh ≡ₚ map tuple all_kept ++ unclaimed st.1 fresh.
Proof.
  intros [S1 S2 S3 S4 S5] Hsame. set (p := λ r : RangeRow T, in_files unchanged (tuple r)).
  assert (Hcompared : List.filter (λ r, negb (p r)) (List.filter live rows) = List.filter (compared file_of unchanged) rows).
  { symmetry. apply filter_and. }
  exists (List.filter p (List.filter live rows) ++ kept). split.
  - rewrite (filter_split p) at 1. by rewrite Hcompared, S1, app_assoc.
  - rewrite (filter_split (in_files unchanged)) at 1. rewrite S4, map_app, app_assoc. apply Permutation_app_tail, Permutation_app_tail.
    rewrite <- (by_files_perm _ _ _ Hsame). unfold live_tuples.
    assert (Hmap : ∀ l, List.filter (in_files unchanged) (map tuple l) = map tuple (List.filter p l)); [|by rewrite Hmap].
    clear. intros l. induction l as [|r l IH]; [done|]. cbn [map List.filter]. unfold p at 1. case_if; cbn [map]; by rewrite IH.
Qed.

(** The rows after a write: those before, some closed, and the new ones. *)
Lemma write_ranged latest gen close tuples (rows new : list (RangeRow T)) :
  ranged latest rows → latest < gen → inserted gen tuples (map (close_if gen close) rows) new →
  ranged gen (map (close_if gen close) rows ++ new).
Proof.
  intros Hr Hgen Hnew. split.
  - apply (in_ids _ _ _ _ Hnew). rewrite map_map. rewrite (map_ext _ _ (close_if_id gen close)). apply Hr.
  - intros r [(q & -> & Hq)%elem_of_map|Hin]%elem_of_app; [|destruct (in_open _ _ _ _ Hnew r Hin); lia].
    pose proof (rg_from _ _ Hr q Hq). unfold close_if. case_if; cbn [valid_from]; lia.
  - intros r t [(q & -> & Hq)%elem_of_map|Hin]%elem_of_app; [|destruct (in_open _ _ _ _ Hnew r Hin) as [_ ->]; done].
    pose proof (rg_from _ _ Hr q Hq). unfold close_if. case_if; cbn [valid_from valid_to]; [intros [= <-]; lia|].
    intros Ht. pose proof (rg_to _ _ Hr q t Hq Ht). lia.
Qed.

Lemma write_opened latest gen close tuples (rows new : list (RangeRow T)) :
  ranged latest rows → latest < gen → inserted gen tuples (map (close_if gen close) rows) new →
  opened_at gen (map (close_if gen close) rows ++ new) = tuples.
Proof.
  intros Hr Hgen Hnew. unfold opened_at. rewrite List.filter_app, map_app.
  rewrite filter_false, filter_all; [apply (in_tuples _ _ _ _ Hnew)| |].
  - intros r Hin. by apply bool_decide_eq_true, (in_open _ _ _ _ Hnew).
  - intros r (q & -> & Hq)%elem_of_map. apply bool_decide_eq_false. pose proof (rg_from _ _ Hr q Hq).
    unfold close_if. case_if; cbn [valid_from]; lia.
Qed.

Lemma write_closed latest gen tuples (rows new all_kept closed : list (RangeRow T)) :
  ranged latest rows → latest < gen → List.filter live rows ≡ₚ all_kept ++ closed →
  inserted gen tuples (map (close_if gen (map row_id closed)) rows) new →
  closed_at gen (map (close_if gen (map row_id closed)) rows ++ new) ≡ₚ map tuple closed.
Proof.
  intros Hr Hgen Hsplit Hnew. set (ids := map row_id closed). unfold closed_at. rewrite List.filter_app, map_app.
  rewrite (filter_false _ new), app_nil_r.
  2: { intros r Hin. apply bool_decide_eq_false. by destruct (in_open _ _ _ _ Hnew r Hin) as [_ ->]. }
  set (q := λ r : RangeRow T, negb (bool_decide (row_id r ∈ ids))).
  rewrite (tuples_map _ _ _ (λ r, live r && negb (q r))); [|intros r Hin|apply close_if_tuple].
  2: { assert (valid_to r ≠ Some gen) by (intros Ht; pose proof (rg_to _ _ Hr r gen Hin Ht); lia).
    unfold q, close_if. rewrite negb_involutive, andb_comm. destruct (bool_decide (row_id r ∈ ids)), (live r); cbn [andb valid_to].
    all: by rewrite ?bool_decide_true, ?bool_decide_false by done. }
  rewrite filter_and. apply Permutation_map. apply (Permutation_app_inv_l all_kept). rewrite <- Hsplit.
  pose proof (filter_closed rows all_kept closed (rg_ids _ _ Hr) Hsplit) as Hkept.
  change (List.filter (λ r, live r && q r) rows ≡ₚ all_kept) in Hkept. rewrite filter_and in Hkept.
  rewrite (filter_split q (List.filter live rows)) at 2. by rewrite Hkept.
Qed.

(** A write makes the difference, and no more. *)
Lemma write_delta_difference scope latest gen stored fresh rows :
  ranged latest rows → latest < gen → Z.of_nat (length fresh) ≤ u32_max →
  (scope = true → trusted stored fresh rows) →
  difference latest gen fresh rows (write_delta file_of scope gen stored fresh rows).
Proof.
  intros Hr Hgen Hlen Htrust. unfold write_delta.
  set (unchanged := unchanged_files _ _ _ _).
  destruct (scan_spec file_of unchanged fresh rows Hlen) as (kept & closed & Hs).
  destruct (scan file_of unchanged fresh rows) as [matched close] eqn:E. pose proof (sc_close _ _ _ _ _ _ _ Hs) as Hclose.
  cbn [snd] in Hclose. subst close. rewrite close_rows.
  destruct (insert_rows gen (unclaimed matched fresh) (map (close_if gen (map row_id closed)) rows)) as (new & -> & Hnew).
  assert (Hsame : ∀ f, f ∈ unchanged → of_file f (live_tuples rows) ≡ₚ of_file f (resolved fresh)).
  { intros f Hf. apply elem_of_unchanged in Hf as (Hscope & _ & Hd & Hn); [by apply (Htrust Hscope)|]. unfold u32_max in Hlen. lia. }
  destruct (scan_parts _ _ _ _ _ _ Hs Hsame) as (all_kept & Hlive & Hfresh). cbn [fst] in Hfresh.
  assert (Hopened := write_opened _ _ _ _ _ _ Hr Hgen Hnew). assert (Hclosed := write_closed _ _ _ _ _ _ _ Hr Hgen Hlive Hnew).
  split.
  - by eapply write_ranged.
  - unfold relation_at. rewrite List.filter_app, map_app. change (map tuple (List.filter (valid_at gen) ?l)) with (relation_at gen l).
    rewrite (relation_new _ _ _ _ _ Hnew), Z.ltb_irrefl, Hfresh. apply Permutation_app_tail.
    unfold relation_at. rewrite (tuples_map _ _ _ (λ r, live r && negb (bool_decide (row_id r ∈ map row_id closed)))).
    + apply Permutation_map, filter_closed; [apply Hr|done].
    + intros r Hin. by eapply valid_after.
    + apply close_if_tuple.
  - intros g Hg. unfold relation_at. rewrite List.filter_app, map_app. change (map tuple (List.filter (valid_at g) ?l)) with (relation_at g l).
    rewrite (relation_new _ _ _ _ _ Hnew), (proj2 (Z.ltb_lt _ _)), app_nil_r by lia.
    unfold relation_at. rewrite (tuples_map _ _ _ (valid_at g)); [done| |apply close_if_tuple]. intros r Hin. by eapply valid_before.
  - exists (map tuple all_kept). rewrite Hopened, Hclosed, <- map_app. split; [|done]. by apply Permutation_map.
  - intros x. rewrite Hopened, Hclosed. intros (r & -> & Hin)%elem_of_map. by apply (sc_apart _ _ _ _ _ _ _ Hs).
  - rewrite Hopened. apply unclaimed_sublist.
  - intros r [(q & -> & Hq)%elem_of_map|Hin]%elem_of_app; [left; exists q; by rewrite close_if_tuple|right].
    eapply elem_of_submseteq; [|apply sublist_submseteq, (unclaimed_sublist matched)].
    rewrite <- (in_tuples _ _ _ _ Hnew). apply elem_of_map. by exists r.
Qed.

End DeltaFacts.

(** ** Dropping what no retained generation reads *)

Section Dropping.

Context {T : Type}.

Lemma drop_closed_ranged latest cutoff (rows : list (RangeRow T)) : ranged latest rows → ranged latest (drop_closed cutoff rows).
Proof.
  intros Hr. unfold drop_closed. split.
  - apply nodup_map_filter, Hr.
  - intros r [Hin _]%elem_of_filter_bool. by apply Hr.
  - intros r t [Hin _]%elem_of_filter_bool. by apply Hr.
Qed.

Lemma drop_closed_live cutoff (rows : list (RangeRow T)) : live_tuples (drop_closed cutoff rows) = live_tuples rows.
Proof.
  unfold live_tuples, drop_closed. f_equal. apply filter_filter_absorb. intros r. unfold live. by destruct (valid_to r).
Qed.

Lemma drop_closed_reads cutoff g (rows : list (RangeRow T)) : cutoff ≤ g → relation_at g (drop_closed cutoff rows) = relation_at g rows.
Proof.
  intros Hg. unfold relation_at, drop_closed. f_equal. apply filter_filter_absorb. intros r. unfold valid_at.
  destruct (valid_to r) as [t|]; [|done]. intros [_ Ht]%andb_prop. apply Z.ltb_lt in Ht. apply negb_true_iff, Z.leb_gt. lia.
Qed.

(** A row goes exactly when its range had ended by the cutoff. *)
Lemma drop_closed_exact latest cutoff (rows : list (RangeRow T)) r :
  ranged latest rows → r ∈ rows →
  (r ∉ drop_closed cutoff rows) ↔ (∀ g, cutoff ≤ g → valid_at g r = false).
Proof.
  intros Hr Hin. unfold drop_closed. rewrite elem_of_filter_bool. unfold valid_at. destruct (valid_to r) as [t|] eqn:Et.
  - pose proof (rg_to _ _ Hr r t Hin Et). rewrite negb_true_iff, Z.leb_gt. split.
    + intros Hno g Hg. rewrite (proj2 (Z.ltb_ge g t)) by (destruct (decide (cutoff < t)); [by destruct Hno|lia]). apply andb_false_r.
    + intros Hall [_ Hlt]. specialize (Hall (Z.max cutoff (valid_from r)) ltac:(lia)).
      rewrite (proj2 (Z.leb_le _ _)), (proj2 (Z.ltb_lt _ _)) in Hall by lia. done.
  - split; [intros Hno; by destruct Hno|]. intros Hall. specialize (Hall (Z.max cutoff (valid_from r)) ltac:(lia)).
    rewrite (proj2 (Z.leb_le _ _)) in Hall by lia. done.
Qed.

End Dropping.

End RangesFacts.
