(* ===== verification/Pending.v ===== *)
(** * The queue of pending paths ([rust/devmap-store/src/db/pending.rs], [db.rs])

    Edits wait in a table of the store until a drain or a build has answered them.
    [Discovery] has what a path is: its components, its kind in the tree and the build
    cache it lies in ([devmap-extract/src/lib.rs]). [Pending] is the queue: every edit
    takes the next revision of the store, a claim is acknowledged only at the revision it
    was read at, and a sweep rewrites or drops what it saw unless that has moved on. *)

From Stdlib Require Import SpecFloat.
From S2P Require Import Prelude RustStr Order CodeEdges.
Import Order CodeEdges.

#[local] Open Scope Z_scope.

Module Discovery.

(** ** Paths *)

(** [std::path::Component], on Unix. *)
Inductive Component : Type := RootDir | CurDir | ParentDir | Normal (name : str).

#[export] Instance Component_eq : EqDecision Component.
Proof. solve_decision. Defined.

Definition slash : char := 47.

(** A piece between separators: the empty ones and [.] are not components. *)
Definition piece (s : str) : option Component :=
  if bool_decide (s = [] ∨ s = lit ".") then None
  else Some (if bool_decide (s = lit "..") then ParentDir else Normal s).

Definition is_absolute (path : str) : bool := starts_with [slash] path.

(** [Path::components]: a [.] is one only where it leads. *)
Definition components (path : str) : list Component :=
  let pieces := split_on (Z.eqb slash) path in
  (if is_absolute path then [RootDir]
   else match pieces with p :: _ => if bool_decide (p = lit ".") then [CurDir] else [] | [] => [] end)
  ++ omap piece pieces.

(** [Path::strip_prefix]: the components that remain. *)
Fixpoint strip_components (base path : list Component) : option (list Component) :=
  match base, path with
  | [], _ => Some path
  | c :: base, d :: path => if decide (c = d) then strip_components base path else None
  | _ :: _, [] => None
  end.

Definition path_starts_with (path base : str) : bool :=
  match strip_components (components base) (components path) with Some _ => true | None => false end.

(** [Path::join] *)
Definition path_join (root path : str) : str :=
  if is_absolute path then path
  else if bool_decide (root = []) || ends_with [slash] root then root ++ path
  else root ++ [slash] ++ path.

(** ** The tree *)

Inductive FileType : Type := IsFile | IsDir | IsSymlink | IsOther.
Inductive ErrorKind : Type := NotFound | NotADirectory | UnexpectedEof | InvalidData | OtherError.

#[export] Instance FileType_eq : EqDecision FileType.
Proof. solve_decision. Defined.
#[export] Instance ErrorKind_eq : EqDecision ErrorKind.
Proof. solve_decision. Defined.

(** An error and what it prints. *)
Record IoError := { error_kind : ErrorKind; error_text : str }.

Record Metadata := { file_type : FileType; len : Z; modified : result Z IoError; dev : Z; ino : Z }.

(** What the operating system answers, by the text of a path. [open_marker] is an open
    that follows no link, the metadata of the handle and what reading the first bytes of
    it gives. *)
Class Files := {
  symlink_metadata : str → result Metadata IoError;
  metadata : str → result Metadata IoError;
  canonicalize : str → result str IoError;
  absolute : str → result str IoError;
  open_marker : str → result (result Metadata IoError * result (list Z) IoError) IoError;
}.

Inductive DiscoverySkipReason : Type :=
  | NonSource
  | Oversized (bytes limit : Z)
  | NonUtf8Path
  | Unreadable (reason : str)
  | EscapesRoot (target : str).

Definition skip_text (r : DiscoverySkipReason) : str :=
  match r with
  | NonSource => lit "not an indexable source path"
  | Oversized bytes limit =>
      fmt_u bytes ++ lit " bytes exceeds the " ++ fmt_u limit
      ++ lit " byte source ceiling, so extraction can never succeed"
  | NonUtf8Path => lit "a path that is not representable as UTF-8"
  | Unreadable reason => lit "unreadable: " ++ reason
  | EscapesRoot target =>
      lit "a symlink the repository does not contain (" ++ target ++ lit "), which discovery refuses"
  end.

Inductive CandidateKind : Type :=
  | File (bytes : Z)
  | Directory
  | LinkedDirectory
  | Other
  | Refused (reason : DiscoverySkipReason)
  | Absent
  | Undecidable (reason : str).

Definition kind_of (m : Metadata) : CandidateKind :=
  match file_type m with IsDir => Directory | IsFile => File (len m) | IsSymlink | IsOther => Other end.

(** What an error of a stat says: only "not found" is an absence. *)
Definition absent_or_unknown (e : IoError) : CandidateKind :=
  if decide (error_kind e = NotFound) then Absent else Undecidable (error_text e).

Definition candidate_kind `{Files} (root path : str) : CandidateKind :=
  match symlink_metadata path with
  | Err e => absent_or_unknown e
  | Ok link =>
      if negb (bool_decide (file_type link = IsSymlink)) then kind_of link
      else
        let canonical_root := match canonicalize root with Ok r => r | Err _ => root end in
        match canonicalize path with
        | Err e =>
            if decide (error_kind e = NotFound) then Refused (EscapesRoot (lit "target could not be resolved: " ++ error_text e))
            else Undecidable (error_text e)
        | Ok target =>
            if negb (path_starts_with target canonical_root) then Refused (EscapesRoot target)
            else
              match metadata target with
              | Ok m => if decide (file_type m = IsDir) then LinkedDirectory else kind_of m
              | Err e => absent_or_unknown e
              end
        end
  end.

(** ** Build caches *)

Definition CACHEDIR_TAG_FILE : str := lit "CACHEDIR.TAG".
Definition CACHEDIR_TAG_SIGNATURE : list Z := utf8_encode (lit "Signature: 8a477f597d28d172789f06886806bc55").

Definition invalid_data (text : str) : IoError := {| error_kind := InvalidData; error_text := text |}.

Definition is_cache_directory `{Files} (dir : str) : result bool IoError :=
  let path := path_join dir CACHEDIR_TAG_FILE in
  match open_marker path with
  | Err e => if bool_decide (error_kind e = NotFound ∨ error_kind e = NotADirectory) then Ok false else Err e
  | Ok (before, head) =>
      let? before := before in
      if negb (bool_decide (file_type before = IsFile)) then Err (invalid_data (lit "cache marker is not a regular file"))
      else
        match head with
        | Err e => if decide (error_kind e = UnexpectedEof) then Ok false else Err e
        | Ok head =>
            let? current := symlink_metadata path in
            let changed := Err (invalid_data (lit "cache marker changed while being read")) in
            if negb (bool_decide (file_type current = IsFile)) || negb (len before =? len current) then changed
            else
              let? was := modified before in
              let? now := modified current in
              if negb (was =? now) then changed
              else if negb (dev before =? dev current) || negb (ino before =? ino current) then
                Err (invalid_data (lit "cache marker was replaced while being read"))
              else Ok (bool_decide (head = CACHEDIR_TAG_SIGNATURE))
        end
  end.

(** Its [Unreadable] is [UnreadableMarker] here. *)
Inductive CacheVerdict : Type :=
  | Inside (cache : str)
  | Outside
  | NotRepoRelative (why : str)
  | UnreadableMarker (directory reason : str).

(** The answers of one sweep, by directory. *)
Abbreviation CacheDirectoryCache := (gmap str (result bool str)) (only parsing).

Definition directory_verdict `{Files} (root : str) (memo : CacheDirectoryCache) (prefix : str) : result bool str * CacheDirectoryCache :=
  match memo !! prefix with
  | Some known => (known, memo)
  | None =>
      let known := match is_cache_directory (path_join root prefix) with Ok b => Ok b | Err e => Err (error_text e) end in
      (known, <[prefix := known]> memo)
  end.

Fixpoint tagged_parts `{Files} (root : str) (memo : CacheDirectoryCache) (prefix : str) (parts : list str)
    : CacheVerdict * CacheDirectoryCache :=
  match parts with
  | [] => (Outside, memo)
  | part :: parts =>
      if bool_decide (part = [] ∨ part = lit ".") then tagged_parts root memo prefix parts
      else if bool_decide (part = lit "..") then (NotRepoRelative (lit "contains a `..` component"), memo)
      else
        let prefix := match prefix with [] => part | _ => prefix ++ [slash] ++ part end in
        let '(tagged, memo) := directory_verdict root memo prefix in
        match tagged with
        | Ok true => (Inside prefix, memo)
        | Ok false => tagged_parts root memo prefix parts
        | Err reason => (UnreadableMarker prefix reason, memo)
        end
  end.

(** [CacheDirectoryCache::tagged_ancestor], of a cache that has met one root. *)
Definition tagged_ancestor `{Files} (root : str) (memo : CacheDirectoryCache) (relative : str) : CacheVerdict * CacheDirectoryCache :=
  if starts_with [slash] relative then (NotRepoRelative (lit "is an absolute path"), memo)
  else tagged_parts root memo [] (split_on (Z.eqb slash) relative).

End Discovery.

Module Pending.
Import Discovery.

(** ** Entries *)

Definition MAX_PENDING_ATTEMPTS : Z := 5.

Definition is_control_token (entry : str) : bool := starts_with [0] entry.

Inductive PendingEntry : Type :=
  | Canonical (path : str)
  | ControlToken (token : str)
  | OutsideRoot
  | UndecidableEntry (error : str).

(** The loop over the components: the parts of a path that stays where it is. *)
Fixpoint normal_parts (l : list Component) : option (list str) :=
  match l with
  | [] => Some []
  | Normal part :: l => let! parts := normal_parts l in Some (part :: parts)
  | CurDir :: l => normal_parts l
  | (ParentDir | RootDir) :: _ => None
  end.

Definition entry_of (relative : list Component) : PendingEntry :=
  match normal_parts relative with
  | None => OutsideRoot
  | Some [] => Canonical (lit ".")
  | Some parts => Canonical (join [slash] parts)
  end.

(** An entry is a Rust string, so its parts are. *)
Definition canonical_pending_entry `{Files} (root raw : str) : PendingEntry :=
  if is_control_token raw then ControlToken raw
  else if negb (is_absolute raw) then entry_of (components raw)
  else
    match strip_components (components root) (components raw) with
    | Some stripped => entry_of stripped
    | None =>
        match canonicalize root with
        | Ok canonical =>
            match strip_components (components canonical) (components raw) with
            | Some stripped => entry_of stripped
            | None => OutsideRoot
            end
        | Err e => UndecidableEntry (error_text e)
        end
    end.

(** The first entry not before [prefix], in the order of the set. *)
Definition still_claimed (canonical : str) (indexed : gset str) : bool :=
  bool_decide (canonical ∈ indexed)
  || let prefix := canonical ++ [slash] in
     match List.find (λ entry, str_leb prefix entry) (sort_strs (elements indexed)) with
     | Some entry => starts_with prefix entry
     | None => false
     end.

Section Classify.

Context `{Files}.

(** The language tables of [devmap-extract]: whether a path names a source. *)
Variable is_indexable_source : str → bool.

Definition classify_pending_entry (root canonical : str) (indexed : gset str) (caches : CacheDirectoryCache)
    : result unit str * CacheDirectoryCache :=
  if bool_decide (canonical = lit ".") then (Ok tt, caches)
  else
    let '(verdict, caches) := tagged_ancestor root caches canonical in
    let answer :=
      match verdict with
      | Inside cache => Err (lit "inside " ++ cache ++ lit ", a build cache marked with CACHEDIR.TAG")
      | NotRepoRelative why => Err (why ++ lit ", so it names nothing inside the repository")
      | UnreadableMarker _ _ => Ok tt
      | Outside =>
          match candidate_kind root (path_join root canonical) with
          | Directory => Ok tt
          | File _ => if is_indexable_source canonical then Ok tt else Err (skip_text NonSource)
          | LinkedDirectory =>
              Err (lit "a symlink to a directory, which discovery never descends; the files under it are queued under their own names")
          | Other => Err (lit "not a regular file or directory")
          | Refused reason => if still_claimed canonical indexed then Ok tt else Err (skip_text reason)
          | Absent =>
              if still_claimed canonical indexed then Ok tt
              else Err (lit "no longer exists under the root and is not in the stored graph")
          | Undecidable _ => Ok tt
          end
      end in
    (answer, caches).

End Classify.

(** ** The queue *)

Record PendingRow := { queued_at : f64; attempts : Z; revision : Z }.

(** The row of [pending_state], and [pending_paths] by its key. *)
Record Queue := { epoch : str; last_revision : Z; repo_root : option str; pending : gmap str PendingRow }.

Definition with_pending (q : Queue) (rows : gmap str PendingRow) : Queue :=
  {| epoch := epoch q; last_revision := last_revision q; repo_root := repo_root q; pending := rows |}.

Inductive PendingError : Type :=
  | BatchTooLarge
  | EmptyBatch
  | RevisionsExhausted
  | AnotherStore
  | UnresolvedRoot (error : str)
  | LiveOwner (owner root : str)
  | OwnerGone (owner root : str)
  | OwnerUnknown (owner root error : str)
  | NothingToRebind (owner root : str).

(** [reserve_pending_revisions]: the position before the range. *)
Definition reserve_pending_revisions (count : Z) (q : Queue) : result (Z * Queue) PendingError :=
  if i64_max <? count then Err BatchTooLarge
  else if count <=? 0 then Err EmptyBatch
  else if last_revision q <=? i64_max - count
  then Ok (last_revision q, {| epoch := epoch q; last_revision := last_revision q + count; repo_root := repo_root q; pending := pending q |})
  else Err RevisionsExhausted.

(** Each path of a batch in turn, at the next revision. *)
Fixpoint insert_edits (paths : list str) (now : f64) (at_revision : Z) (rows : gmap str PendingRow) : gmap str PendingRow :=
  match paths with
  | [] => rows
  | path :: paths =>
      let at_revision := at_revision + 1 in
      insert_edits paths now at_revision (<[path := {| queued_at := now; attempts := 0; revision := at_revision |}]> rows)
  end.

Definition upsert_pending (paths : list str) (now : f64) (q : Queue) : result Queue PendingError :=
  match paths with
  | [] => Ok q
  | _ =>
      let? (before, q) := reserve_pending_revisions (Z.of_nat (length paths)) q in
      Ok (with_pending q (insert_edits paths now before (pending q)))
  end.

Definition enqueue_pending_paths (paths : list str) (now : f64) (q : Queue) : result Queue PendingError := upsert_pending paths now q.

(** ** Who the store answers to *)

Inductive RepoRootOwner : Type := Unbound | Same | Live (owner : str) | Gone (owner : str).

Section Owner.

Context `{Files}.

Definition normalized_repo_root (root : str) : result str PendingError :=
  match canonicalize root with
  | Ok r => Ok r
  | Err e =>
      if decide (error_kind e = NotFound)
      then match absolute root with Ok r => Ok r | Err e => Err (UnresolvedRoot (error_text e)) end
      else Err (UnresolvedRoot (error_text e))
  end.

Definition repo_root_owner (q : Queue) (root : str) : result RepoRootOwner PendingError :=
  match repo_root q with
  | None => Ok Unbound
  | Some owner =>
      let? owner := normalized_repo_root owner in
      if decide (owner = root) then Ok Same
      else
        match symlink_metadata owner with
        | Ok _ => Ok (Live owner)
        | Err e => if decide (error_kind e = NotFound) then Ok (Gone owner) else Err (OwnerUnknown owner root (error_text e))
        end
  end.

Definition check_repo_root (q : Queue) (root : str) : result unit PendingError :=
  let? owner := repo_root_owner q root in
  match owner with
  | Unbound | Same => Ok tt
  | Live owner => Err (LiveOwner owner root)
  | Gone owner => Err (OwnerGone owner root)
  end.

Definition validate_repo_root (q : Queue) (root : str) : result unit PendingError :=
  let? root := normalized_repo_root root in
  check_repo_root q root.

Definition bound_to (q : Queue) (root : str) : Queue :=
  {| epoch := epoch q; last_revision := last_revision q; repo_root := Some root; pending := pending q |}.

(** The root a store was taken over from, if it was. *)
Definition bind_repo_root_in (root : str) (q : Queue) : result (option str * Queue) PendingError :=
  let? owner := repo_root_owner q root in
  match owner with
  | Same => Ok (None, q)
  | Unbound => Ok (None, bound_to q root)
  | Live owner => Err (LiveOwner owner root)
  | Gone owner =>
      match metadata root with
      | Ok m => if decide (file_type m = IsDir) then Ok (Some owner, bound_to q root) else Err (NothingToRebind owner root)
      | Err _ => Err (NothingToRebind owner root)
      end
  end.

Definition bind_repo_root (root : str) (q : Queue) : result (option str * Queue) PendingError :=
  let? root := normalized_repo_root root in
  bind_repo_root_in root q.

(** ** Admission *)

Record PendingEnqueueReport := { enqueued : list str; refused : list (str * str) }.

(** One path of a batch. *)
Definition admission (root : str) (st : gset str * list (str * str) * CacheDirectoryCache) (raw : str)
    : gset str * list (str * str) * CacheDirectoryCache :=
  let '(canonical, refused, caches) := st in
  let refuse reason := (canonical, refused ++ [(raw, reason)], caches) in
  match canonical_pending_entry root raw with
  | Canonical entry =>
      let '(verdict, caches) := tagged_ancestor root caches entry in
      let refuse reason := (canonical, refused ++ [(raw, reason)], caches) in
      match verdict with
      | Inside cache => refuse (lit "inside " ++ cache ++ lit ", a build cache marked with CACHEDIR.TAG")
      | NotRepoRelative why => refuse (why ++ lit ", so it names nothing inside the repository")
      | UnreadableMarker directory reason => refuse (lit "cannot examine " ++ directory ++ lit "/CACHEDIR.TAG: " ++ reason)
      | Outside => ({[entry]} ∪ canonical, refused, caches)
      end
  | ControlToken token => ({[token]} ∪ canonical, refused, caches)
  | OutsideRoot => refuse (lit "outside the repository root " ++ root)
  | UndecidableEntry error =>
      refuse (lit "could not be checked against the repository root " ++ root ++ lit ": " ++ error)
  end.

Definition enqueue_pending_paths_under_root (root : str) (paths : list str) (now : f64) (q : Queue)
    : result (PendingEnqueueReport * Queue) PendingError :=
  let '(canonical, refused, _) := foldl (admission root) (∅, [], ∅) paths in
  let entries := sort_strs (elements canonical) in
  match entries with
  | [] => Ok ({| enqueued := []; refused := refused |}, q)
  | _ =>
      let? owner := normalized_repo_root root in
      let? (_, q) := bind_repo_root_in owner q in
      let? q := upsert_pending entries now q in
      Ok ({| enqueued := entries; refused := refused |}, q)
  end.

End Owner.

(** ** Claims and acknowledgements *)

Record PendingWatermark := { w_epoch : str; w_revision : Z }.
Record PendingClaim := { c_path : str; c_queued_at : f64; c_watermark : PendingWatermark }.

Definition pending_watermark (q : Queue) : PendingWatermark := {| w_epoch := epoch q; w_revision := last_revision q |}.

Definition check_pending_epoch (q : Queue) (w : PendingWatermark) : result unit PendingError :=
  if decide (epoch q = w_epoch w) then Ok tt else Err AnotherStore.

(** The rows in the order of their key. *)
Definition rows_by_path (q : Queue) : list (str * PendingRow) := sort_by (by_str fst) (map_to_list (pending q)).

(** [… WHERE attempts < 5 ORDER BY revision ASC, path ASC] *)
Definition retryable (q : Queue) : list (str * PendingRow) :=
  sort_by (asc (λ r : str * PendingRow, revision r.2) (by_str fst))
    (List.filter (λ r, attempts r.2 <? MAX_PENDING_ATTEMPTS) (map_to_list (pending q))).

Definition sqlite_limit (limit : Z) : Z := Z.min limit i64_max.

Definition limited {A} (limit : Z) (l : list A) : list A :=
  if limit =? 0 then [] else take (Z.to_nat (sqlite_limit limit)) l.

Definition get_pending_paths_limited (limit : Z) (q : Queue) : list str := limited limit (map fst (retryable q)).

Definition get_pending_paths (q : Queue) : list str := get_pending_paths_limited usize_max q.

Definition claim_of (q : Queue) (r : str * PendingRow) : PendingClaim :=
  {| c_path := r.1; c_queued_at := queued_at r.2; c_watermark := {| w_epoch := epoch q; w_revision := revision r.2 |} |}.

Definition claim_pending_batch (limit : Z) (q : Queue) : list PendingClaim := limited limit (map (claim_of q) (retryable q)).

(** [DELETE FROM pending_paths WHERE path = ?1 AND revision = ?2], and whether a row went. *)
Definition delete_at (path : str) (at_revision : Z) (rows : gmap str PendingRow) : gmap str PendingRow * bool :=
  match rows !! path with
  | Some row => if revision row =? at_revision then (delete path rows, true) else (rows, false)
  | None => (rows, false)
  end.

Fixpoint clear_claimed_pending_paths (claims : list PendingClaim) (q : Queue) : result (Z * Queue) PendingError :=
  match claims with
  | [] => Ok (0, q)
  | claim :: claims =>
      let? _ := check_pending_epoch q (c_watermark claim) in
      let '(rows, gone) := delete_at (c_path claim) (w_revision (c_watermark claim)) (pending q) in
      let? (cleared, q) := clear_claimed_pending_paths claims (with_pending q rows) in
      Ok ((if gone then 1 else 0) + cleared, q)
  end.

(** [SET attempts = attempts + 1 WHERE path = ?1 AND revision = ?2 AND attempts < 5] *)
Definition charge_attempt (at_revision : Z) (row : PendingRow) : PendingRow :=
  if (revision row =? at_revision) && (attempts row <? MAX_PENDING_ATTEMPTS)
  then {| queued_at := queued_at row; attempts := attempts row + 1; revision := revision row |} else row.

Fixpoint bump_pending_attempts (claims : list PendingClaim) (q : Queue) : result Queue PendingError :=
  match claims with
  | [] => Ok q
  | claim :: claims =>
      let? _ := check_pending_epoch q (c_watermark claim) in
      bump_pending_attempts claims (with_pending q (alter (charge_attempt (w_revision (c_watermark claim))) (c_path claim) (pending q)))
  end.

Definition pending_attempts (path : str) (q : Queue) : option Z := attempts <$> pending q !! path.

Definition queued_path_count (q : Queue) : Z := Z.of_nat (size (pending q)).

(** ** Retirement *)

Inductive PendingSupersede : Type :=
  | WholeTreeThrough (through : PendingWatermark)
  | IndexedPathsThrough (paths : list str) (through : PendingWatermark).

Definition through_of (rule : PendingSupersede) : PendingWatermark :=
  match rule with WholeTreeThrough w | IndexedPathsThrough _ w => w end.

Definition answers (rule : PendingSupersede) (path : str) : bool :=
  match rule with WholeTreeThrough _ => true | IndexedPathsThrough paths _ => bool_decide (path ∈ paths) end.

Definition clear_pending_superseded (rule : PendingSupersede) (q : Queue) : result (list str * Queue) PendingError :=
  let through := through_of rule in
  let? _ := check_pending_epoch q through in
  let rows := List.filter (λ r, revision r.2 <=? w_revision through) (rows_by_path q) in
  let cleared := List.filter (answers rule) (map fst rows) in
  Ok (cleared, with_pending q (foldl (λ m path, delete path m) (pending q) cleared)).

Definition quarantined (row : PendingRow) : bool := MAX_PENDING_ATTEMPTS <=? attempts row.

(** [ORDER BY queued_at, path] *)
Definition earlier (a b : str * PendingRow) : bool :=
  SFltb (queued_at a.2) (queued_at b.2) || negb (SFltb (queued_at b.2) (queued_at a.2)) && str_leb a.1 b.1.

Definition drop_quarantined_pending_paths (q : Queue) : list str * Queue :=
  (map fst (sort_by earlier (List.filter (λ r, quarantined r.2) (map_to_list (pending q)))),
   with_pending q (filter (λ r : str * PendingRow, quarantined r.2 = false) (pending q))).

Definition clear_pending_paths (paths : list str) (q : Queue) : Queue :=
  with_pending q (foldl (λ m path, delete path m) (pending q) paths).

(** ** The sweep *)

Record PendingReconcile := { dropped : list (str * str); rewritten : list (str * str); retained : Z }.

(** A sweep between its read and its writes. *)
Record Sweep := {
  outcome : PendingReconcile;
  deletes : list (str * Z);
  rewrites : list (str * str * PendingRow);
}.

Definition no_sweep : Sweep := {| outcome := {| dropped := []; rewritten := []; retained := 0 |}; deletes := []; rewrites := [] |}.

Definition keep (p : PendingReconcile) : PendingReconcile :=
  {| dropped := dropped p; rewritten := rewritten p; retained := retained p + 1 |}.

Definition drop_row (stored reason : str) (row : PendingRow) (s : Sweep) : Sweep :=
  {| outcome := {| dropped := dropped (outcome s) ++ [(stored, reason)]; rewritten := rewritten (outcome s);
                   retained := retained (outcome s) |};
     deletes := deletes s ++ [(stored, revision row)]; rewrites := rewrites s |}.

Definition keep_row (s : Sweep) : Sweep := {| outcome := keep (outcome s); deletes := deletes s; rewrites := rewrites s |}.

Section Sweep.

Context `{Files}.
Variable is_indexable_source : str → bool.

(** One row of the sweep. *)
Definition sweep_row (root : str) (indexed : gset str) (st : Sweep * CacheDirectoryCache) (r : str * PendingRow)
    : Sweep * CacheDirectoryCache :=
  let '(s, caches) := st in
  let '(stored, row) := r in
  match canonical_pending_entry root stored with
  | ControlToken _ | UndecidableEntry _ => (keep_row s, caches)
  | OutsideRoot => (drop_row stored (lit "escapes the repository root " ++ root) row s, caches)
  | Canonical canonical =>
      let '(verdict, caches) := classify_pending_entry is_indexable_source root canonical indexed caches in
      match verdict with
      | Err reason => (drop_row stored reason row s, caches)
      | Ok _ =>
          (if decide (canonical = stored) then keep_row s
           else {| outcome := keep (outcome s); deletes := deletes s; rewrites := rewrites s ++ [(stored, canonical, row)] |},
           caches)
      end
  end.

(** What the sweep reads, once the store is bound to the root. [indexed] are the paths of
    the latest generation. *)
Definition sweep (root : str) (indexed : gset str) (q : Queue) : Sweep :=
  (foldl (sweep_row root indexed) (no_sweep, ∅) (rows_by_path q)).1.

End Sweep.

(** The deletes of a sweep; a row that has moved on is kept after all. *)
Definition apply_delete (st : PendingReconcile * gmap str PendingRow) (d : str * Z) : PendingReconcile * gmap str PendingRow :=
  let '(rows, gone) := delete_at d.1 d.2 st.2 in
  if gone then (st.1, rows)
  else ({| dropped := List.filter (λ p, negb (bool_decide (p.1 = d.1))) (dropped st.1); rewritten := rewritten st.1;
           retained := retained st.1 + 1 |}, rows).

(** [ON CONFLICT(path) DO UPDATE]: the later time, the new revision, the fewer attempts. *)
Definition merge_row (row : PendingRow) (at_revision : Z) (old : option PendingRow) : PendingRow :=
  match old with
  | None => {| queued_at := queued_at row; attempts := attempts row; revision := at_revision |}
  | Some old =>
      {| queued_at := if SFltb (queued_at old) (queued_at row) then queued_at row else queued_at old;
         attempts := Z.min (attempts old) (attempts row); revision := at_revision |}
  end.

Fixpoint apply_rewrites (l : list (str * str * PendingRow)) (p : PendingReconcile) (q : Queue)
    : result (PendingReconcile * Queue) PendingError :=
  match l with
  | [] => Ok (p, q)
  | (stored, canonical, row) :: l =>
      let '(rows, gone) := delete_at stored (revision row) (pending q) in
      if gone then
        let? (before, q) := reserve_pending_revisions 1 (with_pending q rows) in
        let q := with_pending q (<[canonical := merge_row row (before + 1) (pending q !! canonical)]> (pending q)) in
        apply_rewrites l {| dropped := dropped p; rewritten := rewritten p ++ [(stored, canonical)]; retained := retained p |} q
      else apply_rewrites l p q
  end.

(** The transaction that ends [reconcile_pending_paths]. *)
Definition apply_sweep (s : Sweep) (q : Queue) : result (PendingReconcile * Queue) PendingError :=
  let '(p, rows) := foldl apply_delete (outcome s, pending q) (deletes s) in
  apply_rewrites (rewrites s) p (with_pending q rows).

(** [reconcile_pending_paths], with nothing else between its transactions. *)
Definition reconcile_pending_paths `{Files} (is_indexable_source : str → bool) (root : str) (indexed : gset str) (q : Queue)
    : result (PendingReconcile * Queue) PendingError :=
  let? (_, q) := bind_repo_root root q in
  apply_sweep (sweep is_indexable_source root indexed q) q.

End Pending.
