(* ===== verification/GenStore.v ===== *)
(** * Generations in the map's store ([rust/devmap-store/src/db/write.rs], [db/maintenance.rs])

    A write of a generation as far as it concerns its files, the edges, the ledger of
    unresolved calls and what they refer to: [write_generation] is that part of
    [save_generation_tuned], with what it checks before and while it writes,
    [prune_generations] that part of the prune, and [generation_edges] and
    [generation_unresolved] are the views. A file of a generation is a row by its path, made
    from an extraction or carried from the generation before. The tables of nodes and full
    text are present as the paths they intern and the ids they hold. A write that is refused
    drops its transaction. Failures of SQLite, of a lock or of a thread are not among the
    refusals. *)

From Stdlib Require Import SpecFloat.
From S2P Require Import Prelude RustStr Order CodeEdges EdgeIndex GitReads Pending Ranges.
Import Order CodeEdges EdgeIndex Ranges.

#[local] Open Scope Z_scope.

Module GenStore.

(** ** What the resolver gives *)

(** [Resolution]'s debug form. *)
Definition family_debug (f : LangFamily) : str :=
  lit match f with
      | LangPython => "Python" | LangJsTs => "JsTs" | LangGo => "Go" | LangRust => "Rust" | LangCStyle => "CStyle"
      | LangSwift => "Swift" | LangKotlin => "Kotlin" | LangRuby => "Ruby" | LangPhp => "Php" | LangScala => "Scala"
      | LangLua => "Lua" | LangR => "R" | LangDart => "Dart" | LangErlang => "Erlang" | LangNix => "Nix"
      | LangPascal => "Pascal" | LangShell => "Shell" | LangSolidity => "Solidity" | LangSql => "Sql"
      | LangGeneric => "Generic"
      end.

Definition commas (l : list str) : str := List.concat (match l with [] => [] | x :: l => x :: map (app (lit ", ")) l end).

Definition debug_struct (name : str) (fields : list (str * str)) : str :=
  name ++ lit " { " ++ commas (map (λ nv, nv.1 ++ lit ": " ++ nv.2) fields) ++ lit " }".

Section Debug.

Context `{GitReads.DebugTable}.

Definition debug_candidates (candidates : list (str * str)) : str :=
  lit "[" ++ commas (map (λ c, lit "(" ++ GitReads.debug_str c.1 ++ lit ", " ++ GitReads.debug_str c.2 ++ lit ")") candidates)
  ++ lit "]".

Definition debug_resolution (r : Resolution) : str :=
  let s := GitReads.debug_str in
  match r with
  | SameFile sym file => debug_struct (lit "SameFile") [(lit "target_symbol", s sym); (lit "target_file", s file)]
  | SamePackage sym file package =>
      debug_struct (lit "SamePackage") [(lit "target_symbol", s sym); (lit "target_file", s file); (lit "package_name", s package)]
  | ImportScoped sym file from =>
      debug_struct (lit "ImportScoped") [(lit "target_symbol", s sym); (lit "target_file", s file); (lit "imported_from", s from)]
  | ReceiverType sym file type =>
      debug_struct (lit "ReceiverType") [(lit "target_symbol", s sym); (lit "target_file", s file); (lit "receiver_type", s type)]
  | LanguageServer sym file server version =>
      debug_struct (lit "LanguageServer") [(lit "target_symbol", s sym); (lit "target_file", s file); (lit "server", s server);
                                           (lit "server_version", s version)]
  | UniqueGlobal sym file family =>
      debug_struct (lit "UniqueGlobal") [(lit "target_symbol", s sym); (lit "target_file", s file); (lit "family", family_debug family)]
  | AmbiguousGlobal candidates family =>
      debug_struct (lit "AmbiguousGlobal") [(lit "candidates", debug_candidates candidates); (lit "family", family_debug family)]
  | LanguageServerDispatch candidates server version =>
      debug_struct (lit "LanguageServerDispatch") [(lit "candidates", debug_candidates candidates); (lit "server", s server);
                                                   (lit "server_version", s version)]
  | Dispatch candidates file sym =>
      debug_struct (lit "Dispatch") [(lit "candidates", debug_candidates candidates); (lit "via_file", s file); (lit "via_symbol", s sym)]
  | Unresolved reason => debug_struct (lit "Unresolved") [(lit "reason", s reason)]
  | Structural sym file => debug_struct (lit "Structural") [(lit "target_symbol", s sym); (lit "target_file", s file)]
  | UniqueNamespaced sym file => debug_struct (lit "UniqueNamespaced") [(lit "target_symbol", s sym); (lit "target_file", s file)]
  end.

End Debug.

Inductive UnresolvedClass : Type :=
  | Builtin
  | HostGlobal (environment : str)
  | LocalBinding
  | External (module : str)
  | UninferredReceiver
  | UnresolvedMember
  | NoNamesake
  | ModulePath
  | UnresolvedName.

(** [UnresolvedClass::label] *)
Definition class_label (c : UnresolvedClass) : str :=
  lit match c with
      | Builtin => "builtin" | HostGlobal _ => "host_global" | LocalBinding => "local_binding"
      | External _ => "external" | UninferredReceiver => "uninferred_receiver"
      | UnresolvedMember => "unresolved_member" | NoNamesake => "no_namesake" | ModulePath => "module_path"
      | UnresolvedName => "unresolved"
      end.

(** The fields of [UnresolvedReference] that are stored. *)
Record UnresolvedReference := {
  ur_source_file : str;
  ur_source_symbol : str;
  ur_callee_name : str;
  ur_resolution : Resolution;
  ur_class : UnresolvedClass;
  ur_receiver : option str;
}.

(** ** Identities *)

(** The confidence is the [f64] itself where the source holds its bits. *)
Record EdgeTuple := {
  et_source_file_id : Z;
  et_target_file_id : Z;
  et_source_symbol : str;
  et_target_symbol : str;
  et_edge_kind : str;
  et_confidence : f64;
  et_resolution : option str;
  et_candidate_total : option Z;
}.

Record UnresolvedTuple := {
  ut_source_file_id : Z;
  ut_source_symbol : str;
  ut_callee_name : str;
  ut_reason_id : Z;
  ut_classification_id : Z;
  ut_receiver : option str;
}.

#[export] Instance spec_float_eq_dec : EqDecision spec_float.
Proof. solve_decision. Defined.
#[export] Instance EdgeTuple_eq_dec : EqDecision EdgeTuple.
Proof. solve_decision. Defined.
#[export] Instance UnresolvedTuple_eq_dec : EqDecision UnresolvedTuple.
Proof. solve_decision. Defined.

(** [Confidence::persist_real] *)
Definition persist_real (confidence : f32) : f64 :=
  SFdiv 53 1024 (f64_of_Z (confidence_millis confidence)) (f64_of_Z 1000).

Definition ambiguous_candidate_total (r : option Resolution) : option Z :=
  match r with
  | Some (AmbiguousGlobal candidates _) | Some (LanguageServerDispatch candidates _ _) | Some (Dispatch candidates _ _) =>
      let total := Z.of_nat (length candidates) in if total <=? i64_max then Some total else None
  | _ => None
  end.

Definition edge_tuple (e : ResolvedEdge) (source_file_id target_file_id : Z) : EdgeTuple :=
  {| et_source_file_id := source_file_id;
     et_target_file_id := target_file_id;
     et_source_symbol := source_symbol e;
     et_target_symbol := target_symbol e;
     et_edge_kind := kind_debug (edge_kind e);
     et_confidence := persist_real (confidence e);
     et_resolution := (λ r, label (kind_of r)) <$> resolution e;
     et_candidate_total := ambiguous_candidate_total (resolution e) |}.

(** ** Interned text *)

(** A table of texts by [INTEGER PRIMARY KEY AUTOINCREMENT]: the rows and the last id given. *)
Record Pool := { entries : list (Z * str); sequence : Z }.

Definition empty_pool : Pool := {| entries := []; sequence := 0 |}.

(** [SELECT id … WHERE text = ?] *)
Definition select_id (p : Pool) (text : str) : option Z := fst <$> List.find (λ e, bool_decide (e.2 = text)) (entries p).

(** [SELECT text … WHERE id = ?] *)
Definition text_of (p : Pool) (id : Z) : option str := snd <$> List.find (λ e, e.1 =? id) (entries p).

Definition insert_text (p : Pool) (text : str) : Pool :=
  {| entries := entries p ++ [(sequence p + 1, text)]; sequence := sequence p + 1 |}.

(** [DELETE … WHERE id NOT IN held] *)
Definition retire (held : Z → bool) (p : Pool) : Pool :=
  {| entries := List.filter (λ e, held e.1) (entries p); sequence := sequence p |}.

Inductive WriteError : Type :=
  | NoThreads
  | StoreIsReadOnly
  | BadHeadSha
  | DuplicateExtraction (path : str)
  | UnaccountedPaths (count : Z) (first : str)
  | RootRefused (e : Pending.PendingError)
  | AnalysisNotSerialized (error : str)
  | GenerationsExhausted
  | CannotCarry (count : Z) (first : str)
  | PayloadRefused (error : str)
  | IdOutOfRange (id : Z)
  | NoSuchRow
  | EdgeCountMismatch (stored analysed : Z)
  | OverLimitMismatch (stored analysed : gset str)
  | RefusalsMismatch (stored analysed : option Z)
  | TooManyDeadSymbols
  | TextsExhausted
  | TextWithoutId.

(** A column read as [u32]. *)
Definition read_u32 (id : Z) : result Z WriteError :=
  if (0 <=? id) && (id <=? u32_max) then Ok id else Err (IdOutOfRange id).

Definition ensure_path_id (p : Pool) (path : str) : result (Z * Pool) WriteError :=
  match select_id p path with
  | Some id => let? id := read_u32 id in Ok (id, p)
  | None =>
      let p := insert_text p path in
      let? id := ok_or (select_id p path) NoSuchRow in
      let? id := read_u32 id in
      Ok (id, p)
  end.

(** The table of paths and the memo of one write. *)
Record Paths := { pool : Pool; memo : gmap str Z }.

Definition ensure_path_id_cached (st : Paths) (path : str) : result (Z * Paths) WriteError :=
  match memo st !! path with
  | Some id => Ok (id, st)
  | None =>
      let? (id, p) := ensure_path_id (pool st) path in
      Ok (id, {| pool := p; memo := <[path := id]> (memo st) |})
  end.

(** ** The edge pass *)

(** Which edges are in this generation, under which ids, and how many. *)
Fixpoint edge_ids (deleted : list str) (edges : list ResolvedEdge) (edge_ord : Z) (st : Paths)
    : result (list (option (Z * Z)) * Z * Paths) WriteError :=
  match edges with
  | [] => Ok ([], edge_ord, st)
  | e :: edges =>
      if bool_decide (source_file e ∈ deleted) || bool_decide (target_file e ∈ deleted) then
        let? (ids, edge_ord, st) := edge_ids deleted edges edge_ord st in
        Ok (None :: ids, edge_ord, st)
      else
        let? (src_f_id, st) := ensure_path_id_cached st (source_file e) in
        let? (tgt_f_id, st) := ensure_path_id_cached st (target_file e) in
        let? (ids, edge_ord, st) := edge_ids deleted edges (as_u32 (edge_ord + 1)) st in
        Ok (Some (src_f_id, tgt_f_id) :: ids, edge_ord, st)
  end.

Definition edge_tuples (edges : list ResolvedEdge) (ids : list (option (Z * Z))) : list (option EdgeTuple) :=
  zip_with (λ e o, (λ st, edge_tuple e st.1 st.2) <$> o) edges ids.

(** ** The ledger pass *)

(** The distinct texts of a write, by slot. *)
Record Slots := { slot_of_text : gmap str Z; slot_text : list str }.

Definition slot_for (st : Slots) (text : str) : result (Z * Slots) WriteError :=
  match slot_of_text st !! text with
  | Some slot => Ok (slot, st)
  | None =>
      let slot := Z.of_nat (length (slot_text st)) in
      if u32_max <? slot then Err TextsExhausted
      else Ok (slot, {| slot_of_text := <[text := slot]> (slot_of_text st); slot_text := slot_text st ++ [text] |})
  end.

(** One row of the ledger in the first pass: the slots of its texts and the id of its file. *)
Record Slotted := { sl_reason : Z; sl_class : Z; sl_file_id : Z }.

Section Ledger.

Context `{GitReads.DebugTable}.

(** The memos of the class labels and of the last path only repeat these answers. *)
Fixpoint slot_rows (rows : list UnresolvedReference) (st : Slots * Paths)
    : result (list Slotted * (Slots * Paths)) WriteError :=
  match rows with
  | [] => Ok ([], st)
  | row :: rows =>
      let? (reason, slots) := slot_for st.1 (debug_resolution (ur_resolution row)) in
      let? (class, slots) := slot_for slots (class_label (ur_class row)) in
      let? (file_id, paths) := ensure_path_id_cached st.2 (ur_source_file row) in
      let? (slotted, st) := slot_rows rows (slots, paths) in
      Ok ({| sl_reason := reason; sl_class := class; sl_file_id := file_id |} :: slotted, st)
  end.

(** [SELECT id, text FROM unresolved_texts] *)
Definition read_texts (texts : Pool) : gmap str Z := foldl (λ m e, <[e.2 := e.1]> m) ∅ (entries texts).

Definition insert_slot (st : gmap str Z * Pool) (text : str) : gmap str Z * Pool :=
  let texts := insert_text st.2 text in
  (<[text := sequence texts]> st.1, texts).

(** The texts the pool does not hold, inserted in the order of their bytes, and the id of each slot. *)
Definition slot_ids (slots : Slots) (texts : Pool) : result (list Z * Pool) WriteError :=
  let text_ids := read_texts texts in
  let new := List.filter (λ text, bool_decide (text_ids !! text = None)) (slot_text slots) in
  let '(text_ids, texts) := foldl insert_slot (text_ids, texts) (sort_strs new) in
  let? ids := collect (λ text, ok_or (text_ids !! text) TextWithoutId) (slot_text slots) in
  Ok (ids, texts).

Definition unresolved_tuple (ids : list Z) (row : UnresolvedReference) (s : Slotted) : UnresolvedTuple :=
  {| ut_source_file_id := sl_file_id s;
     ut_source_symbol := ur_source_symbol row;
     ut_callee_name := ur_callee_name row;
     ut_reason_id := at_rank ids (sl_reason s);
     ut_classification_id := at_rank ids (sl_class s);
     ut_receiver := ur_receiver row |}.

Definition ledger_pass (rows : list UnresolvedReference) (texts : Pool) (paths : Paths)
    : result (list UnresolvedTuple * Pool * Paths) WriteError :=
  let? (slotted, (slots, paths)) := slot_rows rows ({| slot_of_text := ∅; slot_text := [] |}, paths) in
  let? (ids, texts) := slot_ids slots texts in
  Ok (zip_with (unresolved_tuple ids) rows slotted, texts, paths).

End Ledger.

(** ** The store *)

(** What the write of files reads of an extraction. *)
Record Extraction := { file_path : str; language : str; content_hash : Z }.

(** A row of the view [generation_files] without its key and its documents. *)
Record FileRow := {
  fr_path : str;
  fr_language : str;
  fr_content_hash : Z;
  fr_grammar_version : option str;
  fr_analyzer_version : option str;
}.

(** A row of [generation_file_digests] without its key: the edges' columns and the ledger's. *)
Abbreviation DigestRow := ((Z * Z * Z) * (Z * Z * Z))%type (only parsing).

Record Db := {
  queue : Pending.Queue;
  generations : list Z;
  generation_sequence : Z;
  generation_files : gmap Z (list FileRow);
  paths : Pool;
  unresolved_texts : Pool;
  edge_rows : list (RangeRow EdgeTuple);
  unresolved_rows : list (RangeRow UnresolvedTuple);
  generation_file_digests : gmap Z (gmap Z DigestRow);
}.

Definition empty_db : Db :=
  {| queue := {| Pending.epoch := []; Pending.last_revision := 0; Pending.repo_root := None; Pending.pending := ∅ |};
     generations := []; generation_sequence := 0; generation_files := ∅; paths := empty_pool; unresolved_texts := empty_pool;
     edge_rows := []; unresolved_rows := []; generation_file_digests := ∅ |}.

(** The arguments of a write: what [GenerationWriteOpts], the resolution and the analysis
    say, whether the handle was opened to read only, and what the serializers make of the
    analysis and of an extraction. *)
Record Write := {
  w_threads : Z;
  w_read_only : bool;
  w_head_sha : str;
  w_repo_root : option str;
  w_extractions : list Extraction;
  w_affected : list str;
  w_deleted : list str;
  w_verify_every_row : bool;
  w_serialize_analysis : result unit str;
  w_serialize : Extraction → result unit str;
  w_edges : list ResolvedEdge;
  w_unresolved : list UnresolvedReference;
  w_total_edges : Z;
  w_discovery_refusals : option (list (str * str));
  w_analysed_refusals : option Z;
  w_over_limit : option (list (str * str));
  w_analysed_over_limit : option (list str);
  w_dead_symbols : Z;
}.

Definition extraction_paths (w : Write) : list str := map file_path (w_extractions w).

(** [SELECT max(id)] *)
Definition newest (ids : list Z) : option Z :=
  foldl (λ o id, Some (match o with Some m => Z.max m id | None => id end)) None ids.

(** [SELECT id … WHERE id < bound ORDER BY id DESC LIMIT 1] *)
Definition newest_below (bound : Z) (ids : list Z) : option Z := newest (List.filter (λ id, id <? bound) ids).

(** The first path given twice. *)
Fixpoint first_duplicate (seen : list str) (paths : list str) : option str :=
  match paths with
  | [] => None
  | path :: paths => if bool_decide (path ∈ seen) then Some path else first_duplicate (path :: seen) paths
  end.

(** [validate_head_sha] *)
Definition validate_head_sha (head_sha : str) : result unit WriteError :=
  if bool_decide (head_sha = []) || (128 <? str_len head_sha) || existsb is_whitespace head_sha then Err BadHeadSha else Ok tt.

(** The refusals before the transaction. *)
Definition check_write (w : Write) : result unit WriteError :=
  if w_threads w =? 0 then Err NoThreads
  else if w_read_only w then Err StoreIsReadOnly
  else
    let? _ := validate_head_sha (w_head_sha w) in
    match first_duplicate [] (extraction_paths w) with
    | Some path => Err (DuplicateExtraction path)
    | None =>
        match List.filter (λ path, negb (bool_decide (path ∈ extraction_paths w)) && negb (bool_decide (path ∈ w_deleted w)))
                (w_affected w) with
        | first :: rest => Err (UnaccountedPaths (1 + Z.of_nat (length rest)) first)
        | [] => Ok tt
        end
    end.

Definition full_rewrite (w : Write) : bool :=
  match w_affected w, w_deleted w with [], [] => true | _, _ => false end.

Definition scope_by_digest (w : Write) (prev_gen : option Z) : bool :=
  negb (w_verify_every_row w) && negb (full_rewrite w) && match prev_gen with Some _ => true | None => false end.

(** ** The files of a generation *)

(** The identity of the grammar linked for a language, and the version of this build
    ([CARGO_PKG_VERSION]). *)
Class Grammars := { stamped_grammar_identity : str → str; ANALYZER_VERSION : str }.

Definition EXTRACTION_SCHEMA_VERSION : str := lit "98".

(** A [u64] as the [i64] of the same bits. *)
Definition as_i64 (n : Z) : Z := if n <? 2 ^ 63 then n else n - 2 ^ 64.

Section Files.

Context `{Grammars}.

Definition current_payload_identity (language : str) : str * str :=
  (stamped_grammar_identity language, ANALYZER_VERSION ++ lit ":extract-v" ++ EXTRACTION_SCHEMA_VERSION).

Definition identity_matches (row : FileRow) : bool :=
  let '(grammar, analyzer) := current_payload_identity (fr_language row) in
  bool_decide (fr_grammar_version row = Some grammar) && bool_decide (fr_analyzer_version row = Some analyzer).

Definition current_hash (w : Write) (path : str) : option Z :=
  (λ ex, as_i64 (content_hash ex)) <$> List.find (λ ex, bool_decide (file_path ex = path)) (w_extractions w).

Definition content_matches (w : Write) (row : FileRow) : bool :=
  match current_hash w (fr_path row) with Some hash => hash =? fr_content_hash row | None => true end.

(** The rows of the previous generation that a differential write neither rewrites nor deletes. *)
Definition untouched_rows (db : Db) (w : Write) (prev_gen : option Z) : list FileRow :=
  match prev_gen with
  | Some prev =>
      if full_rewrite w then []
      else List.filter (λ row, negb (bool_decide (fr_path row ∈ w_deleted w)) && negb (bool_decide (fr_path row ∈ w_affected w)))
             (default [] (generation_files db !! prev))
  | None => []
  end.

Definition carry (db : Db) (w : Write) (prev_gen : option Z) : list str :=
  map fr_path (List.filter (λ row, identity_matches row && content_matches w row) (untouched_rows db w prev_gen)).

Definition stale_identity (db : Db) (w : Write) (prev_gen : option Z) : list str :=
  map fr_path (List.filter (λ row, negb (identity_matches row && content_matches w row)) (untouched_rows db w prev_gen)).

Definition unreplaceable (db : Db) (w : Write) (prev_gen : option Z) : list str :=
  List.filter (λ path, negb (bool_decide (path ∈ extraction_paths w))) (stale_identity db w prev_gen).

Definition check_carry (db : Db) (w : Write) (prev_gen : option Z) : result unit WriteError :=
  match unreplaceable db w prev_gen with
  | first :: rest => Err (CannotCarry (1 + Z.of_nat (length rest)) first)
  | [] => Ok tt
  end.

(** The extractions that get fresh rows. *)
Definition fresh (db : Db) (w : Write) (prev_gen : option Z) : list Extraction :=
  List.filter (λ ex, negb (negb (full_rewrite w) && bool_decide (file_path ex ∈ carry db w prev_gen))
                     && negb (bool_decide (file_path ex ∈ w_deleted w))) (w_extractions w).

Definition fresh_row (ex : Extraction) : FileRow :=
  let '(grammar, analyzer) := current_payload_identity (language ex) in
  {| fr_path := file_path ex; fr_language := language ex; fr_content_hash := as_i64 (content_hash ex);
     fr_grammar_version := Some grammar; fr_analyzer_version := Some analyzer |}.

(** The file rows of the new generation: the carried ones, then the fresh ones. *)
Definition file_rows (db : Db) (w : Write) (prev_gen : option Z) : list FileRow :=
  match prev_gen with
  | Some prev =>
      if full_rewrite w then []
      else List.filter (λ row, bool_decide (fr_path row ∈ carry db w prev_gen)) (default [] (generation_files db !! prev))
  | None => []
  end ++ map fresh_row (fresh db w prev_gen).

(** The documents of each fresh extraction and the id of its path, in turn. The paths of
    carried rows have their ids, and the nodes of a file name its path again. *)
Fixpoint write_payloads (serialize : Extraction → result unit str) (fresh : list Extraction) (st : Paths) : result Paths WriteError :=
  match fresh with
  | [] => Ok st
  | ex :: fresh =>
      match serialize ex with
      | Err error => Err (PayloadRefused error)
      | Ok _ =>
          let? (_, st) := ensure_path_id_cached st (file_path ex) in
          write_payloads serialize fresh st
      end
  end.

End Files.

(** ** What discovery turned away *)

(** The rows are keyed by path, so a path named twice counts once. *)
Definition measured_refusals (w : Write) : option Z :=
  (λ refusals : list (str * str), Z.of_nat (size (list_to_set (map fst refusals) : gset str))) <$> w_discovery_refusals w.

Definition over_limit_paths (w : Write) : gset str := list_to_set (map fst (default [] (w_over_limit w))).
Definition analysed_over_limit (w : Write) : gset str := list_to_set (default [] (w_analysed_over_limit w)).

Definition check_coverage (w : Write) : result unit WriteError :=
  if decide (over_limit_paths w = analysed_over_limit w) then
    if decide (measured_refusals w = w_analysed_refusals w) then Ok tt
    else Err (RefusalsMismatch (measured_refusals w) (w_analysed_refusals w))
  else Err (OverLimitMismatch (over_limit_paths w) (analysed_over_limit w)).

(** The ordinals of the dead symbols are [u32]. *)
Definition check_dead_symbols (w : Write) : result unit WriteError :=
  if u32_max + 1 <? w_dead_symbols w then Err TooManyDeadSymbols else Ok tt.

(** The digests the previous generation recorded, read only by a scoped write. *)
Definition stored_digests (side : DigestRow → Z * Z * Z) (scope : bool) (prev_gen : option Z) (db : Db) : gmap Z RowSetDigest :=
  match scope, prev_gen with
  | true, Some prev => (λ row, from_columns (side row)) <$> default ∅ (generation_file_digests db !! prev)
  | _, _ => ∅
  end.

(** The rows of [generation_file_digests] a write inserts. *)
Definition digest_rows (edges unresolved : gmap Z RowSetDigest) : gmap Z DigestRow :=
  (λ d, (to_columns d.1, to_columns d.2))
  <$> merge (λ e u, match e, u with None, None => None | _, _ => Some (default no_rows e, default no_rows u) end) edges unresolved.

Section Write.

Context `{GitReads.DebugTable} `{Hashes EdgeTuple} `{Hashes UnresolvedTuple} `{Discovery.Files} `{Grammars}.

(** The files and edges of a write as identities. *)
Definition edge_pass (db : Db) (w : Write) : result (list (option EdgeTuple) * Z * Paths) WriteError :=
  let prev_gen := newest_below (generation_sequence db + 1) (generations db) in
  let? st := write_payloads (w_serialize w) (fresh db w prev_gen) {| pool := paths db; memo := ∅ |} in
  let? (ids, edge_ord, st) := edge_ids (w_deleted w) (w_edges w) 0 st in
  Ok (edge_tuples (w_edges w) ids, edge_ord, st).

(** The store is bound to the root of the write, if it names one. *)
Definition bind_root (w : Write) (q : Pending.Queue) : result Pending.Queue WriteError :=
  match w_repo_root w with
  | None => Ok q
  | Some root =>
      match Pending.normalized_repo_root root with
      | Err e => Err (RootRefused e)
      | Ok root =>
          match Pending.bind_repo_root_in root q with
          | Err e => Err (RootRefused e)
          | Ok (_, q) => Ok q
          end
      end
  end.

Definition write_generation (db : Db) (w : Write) : result (Z * Db) WriteError :=
  let? _ := check_write w in
  let? queue := bind_root w (queue db) in
  match w_serialize_analysis w with
  | Err error => Err (AnalysisNotSerialized error)
  | Ok _ =>
      let gen := generation_sequence db + 1 in
      let? gen := if gen <=? u32_max then Ok gen else Err GenerationsExhausted in
      let prev_gen := newest_below gen (generations db) in
      let? _ := check_carry db w prev_gen in
      let scope := scope_by_digest w prev_gen in
      let? (edges, edge_ord, st) := edge_pass db w in
      let edge_rows := write_delta et_source_file_id scope gen (stored_digests fst scope prev_gen db) edges (edge_rows db) in
      if negb (edge_ord =? w_total_edges w) then Err (EdgeCountMismatch edge_ord (w_total_edges w))
      else
        let? _ := check_coverage w in
        let? _ := check_dead_symbols w in
        let? (ledger, texts, st) := ledger_pass (w_unresolved w) (unresolved_texts db) st in
        let unresolved_rows :=
          write_delta ut_source_file_id scope gen (stored_digests snd scope prev_gen db) (map Some ledger) (unresolved_rows db) in
        let digests := digest_rows (fresh_digests et_source_file_id edges) (fresh_digests ut_source_file_id (map Some ledger)) in
        Ok (gen, {| queue := queue; generations := generations db ++ [gen]; generation_sequence := gen;
                    generation_files := <[gen := file_rows db w prev_gen]> (generation_files db); paths := pool st;
                    unresolved_texts := texts; edge_rows := edge_rows; unresolved_rows := unresolved_rows;
                    generation_file_digests := <[gen := digests]> (generation_file_digests db) |})
  end.

End Write.

(** ** Retention *)

(** [SELECT id FROM generations ORDER BY id DESC] *)
Definition generations_desc (db : Db) : list Z := sort_by (by_int Z.opp) (generations db).

(** The ids of paths that the prune keeps: those still in a table. [held] are the ids that
    the tables of nodes, payloads and file rows name. *)
Definition names_path (held : Z → bool) (digests : gmap Z (gmap Z DigestRow)) (edge_rows : list (RangeRow EdgeTuple))
    (unresolved_rows : list (RangeRow UnresolvedTuple)) (id : Z) : bool :=
  held id || existsb (λ gm : Z * gmap Z DigestRow, bool_decide (is_Some (gm.2 !! id))) (map_to_list digests)
  || existsb (λ r, (et_source_file_id (tuple r) =? id) || (et_target_file_id (tuple r) =? id)) edge_rows
  || existsb (λ r, ut_source_file_id (tuple r) =? id) unresolved_rows.

Definition names_text (unresolved_rows : list (RangeRow UnresolvedTuple)) (id : Z) : bool :=
  existsb (λ r, (ut_reason_id (tuple r) =? id) || (ut_classification_id (tuple r) =? id)) unresolved_rows.

(** [prune_generations_except_latest] *)
Definition prune_generations (keep : nat) (held : Z → bool) (db : Db) : Z * Db :=
  let keep := Nat.max keep 1 in
  let gen_ids := generations_desc db in
  if (length gen_ids <=? keep)%nat then (0, db)
  else
    let to_prune := drop keep gen_ids in
    let digests := foldl (λ m g, delete g m) (generation_file_digests db) to_prune in
    let cutoff := at_rank gen_ids (Z.of_nat (keep - 1)) in
    let edge_rows := drop_closed cutoff (edge_rows db) in
    let unresolved_rows := drop_closed cutoff (unresolved_rows db) in
    (Z.of_nat (length to_prune),
     {| queue := queue db;
        generations := List.filter (λ g, negb (bool_decide (g ∈ to_prune))) (generations db);
        generation_sequence := generation_sequence db;
        generation_files := foldl (λ m g, delete g m) (generation_files db) to_prune;
        paths := retire (names_path held digests edge_rows unresolved_rows) (paths db);
        unresolved_texts := retire (names_text unresolved_rows) (unresolved_texts db);
        edge_rows := edge_rows; unresolved_rows := unresolved_rows; generation_file_digests := digests |}).

(** ** Reading *)

(** The view [generation_edges] at one generation. *)
Definition generation_edges (db : Db) (g : Z) : list EdgeTuple :=
  if bool_decide (g ∈ generations db) then relation_at g (edge_rows db) else [].

(** The columns the edge index selects from it. *)
Definition index_row (t : EdgeTuple) : EdgeRow :=
  {| er_source_file_id := et_source_file_id t; er_target_file_id := et_target_file_id t;
     er_text := {| rt_source := et_source_symbol t; rt_target := et_target_symbol t; rt_kind := et_edge_kind t;
                   rt_confidence := et_confidence t; rt_resolution := et_resolution t |} |}.

(** A row of the view [generation_unresolved]. *)
Record LedgerRow := {
  lr_source_file : str;
  lr_source_symbol : str;
  lr_callee_name : str;
  lr_reason : str;
  lr_classification : str;
  lr_receiver : option str;
}.

(** Its joins are inner joins: a row without its texts is not there. *)
Definition join_texts (paths texts : Pool) (t : UnresolvedTuple) : option LedgerRow :=
  let! file := text_of paths (ut_source_file_id t) in
  let! reason := text_of texts (ut_reason_id t) in
  let! class := text_of texts (ut_classification_id t) in
  Some {| lr_source_file := file; lr_source_symbol := ut_source_symbol t; lr_callee_name := ut_callee_name t;
          lr_reason := reason; lr_classification := class; lr_receiver := ut_receiver t |}.

Definition generation_unresolved (db : Db) (g : Z) : list LedgerRow :=
  if bool_decide (g ∈ generations db)
  then omap (join_texts (paths db) (unresolved_texts db)) (relation_at g (unresolved_rows db)) else [].

(** [latest_generation_id] and the index read at it. *)
Definition latest_generation (db : Db) : option Z := newest (generations db).

Definition latest_edge_index {Disclosure} (db : Db) (disclosed : option Disclosure)
    : result (option (GenerationEdges Disclosure)) IndexError :=
  match latest_generation db with
  | None => Ok None
  | Some gen =>
      let? idx := read_index (entries (paths db)) (map index_row (generation_edges db gen)) disclosed gen in
      Ok (Some idx)
  end.

End GenStore.
