(* ===== verification/GenStoreFacts.v ===== *)
(** * Facts of the store of generations

    Interned ids keep their text for ever; the two passes of a write turn what was
    resolved into identities that decode to it; [stored] is the invariant of the tables. *)

From Stdlib Require Import SpecFloat.
From S2P Require Import Prelude RustStr RustStrFacts Order CodeEdges EdgeIndex EdgeIndexFacts GitReads Pending Ranges RangesFacts GenStore.
Import Order CodeEdges EdgeIndex EdgeIndexFacts Ranges RangesFacts GenStore.

#[local] Open Scope Z_scope.

Module GenStoreFacts.

(** ** Interned text *)

Record pool_ok (p : Pool) : Prop := {
  pl_ids : NoDup (map fst (entries p));
  pl_texts : NoDup (map snd (entries p));
  pl_bound : ∀ e, e ∈ entries p → 0 < e.1 ≤ sequence p;
  pl_sequence : 0 ≤ sequence p;
}.

Lemma empty_pool_ok : pool_ok empty_pool.
Proof. split; cbn; [constructor|constructor|by intros e ?%not_elem_of_nil|lia]. Qed.

Lemma find_keyed {A B} `{EqDecision B} (f : A → B) (l : list A) (x : A) :
  NoDup (map f l) → x ∈ l → List.find (λ y, bool_decide (f y = f x)) l = Some x.
Proof.
  induction l as [|y l IH]; [by intros _ ?%not_elem_of_nil|]. cbn [map List.find]. intros [Hy Hn]%NoDup_cons.
  rewrite elem_of_cons. intros [->|Hx]; [by rewrite bool_decide_true|].
  rewrite bool_decide_false; [by apply IH|]. intros Heq. apply Hy. apply elem_of_map. by exists x.
Qed.

Lemma keyed_inj {A B} `{EqDecision B} (f : A → B) (l : list A) (x y : A) :
  NoDup (map f l) → x ∈ l → y ∈ l → f x = f y → x = y.
Proof.
  intros Hn Hx%(find_keyed f l x Hn) Hy%(find_keyed f l y Hn) Heq. rewrite Heq in Hx. congruence.
Qed.

Lemma find_decided {A B} `{EqDecision B} (f : A → B) (l : list A) (k : B) (x : A) :
  List.find (λ y, bool_decide (f y = k)) l = Some x → x ∈ l ∧ f x = k.
Proof. intros [Hx Hk]%List.find_some. by rewrite list_elem_of_In, bool_decide_eq_true in *. Qed.

Lemma select_id_spec p text id : pool_ok p → select_id p text = Some id ↔ (id, text) ∈ entries p.
Proof.
  intros Hp. unfold select_id. split.
  - intros Hs. destruct (List.find _ _) as [[i t]|] eqn:E; [|done]. apply find_decided in E as [Hin Ht]. cbn in *. congruence.
  - intros Hin. by rewrite (find_keyed snd (entries p) (id, text) (pl_texts _ Hp) Hin).
Qed.

Lemma select_id_None p text : pool_ok p → select_id p text = None → ∀ id, ((id, text) ∉ entries p).
Proof. intros Hp Hs id Hin%select_id_spec; [congruence|done]. Qed.

Lemma text_of_spec p text id : pool_ok p → text_of p id = Some text ↔ (id, text) ∈ entries p.
Proof.
  intros Hp. unfold text_of.
  assert (Hfind : List.find (λ e : Z * str, e.1 =? id) (entries p) = List.find (λ e, bool_decide (e.1 = id)) (entries p)).
  { clear. induction (entries p) as [|e l IH]; [done|]. cbn [List.find]. rewrite IH.
    destruct (Z.eqb_spec e.1 id); [by rewrite bool_decide_true|by rewrite bool_decide_false]. }
  rewrite Hfind. clear Hfind. split.
  - intros Hs. destruct (List.find _ _) as [[i t]|] eqn:E; [|done]. apply find_decided in E as [Hin Ht]. cbn in *. congruence.
  - intros Hin. by rewrite (find_keyed fst (entries p) (id, text) (pl_ids _ Hp) Hin).
Qed.

Lemma insert_text_ok p text : pool_ok p → (∀ id, ((id, text) ∉ entries p)) → pool_ok (insert_text p text).
Proof.
  intros [H1 H2 H3 H4] Hnew. split; cbn [insert_text entries sequence]; try rewrite map_app; [| | |lia].
  - apply NoDup_app. split; [done|]. split; [|apply NoDup_singleton].
    intros i (e & -> & He)%elem_of_map. cbn [map fst]. rewrite list_elem_of_singleton. specialize (H3 e He). lia.
  - apply NoDup_app. split; [done|]. split; [|apply NoDup_singleton].
    intros t ([i t'] & -> & He)%elem_of_map. cbn [map snd]. rewrite list_elem_of_singleton. intros ->. by apply (Hnew i).
  - intros e. rewrite elem_of_app, list_elem_of_singleton. intros [He| ->]; [specialize (H3 e He)|cbn]; lia.
Qed.

Lemma retire_ok held p : pool_ok p → pool_ok (retire held p).
Proof.
  intros [H1 H2 H3 H4].
  split; cbn [retire entries sequence]; [by apply nodup_map_filter|by apply nodup_map_filter| |done].
  intros e [He _]%elem_of_filter_bool. by apply H3.
Qed.

(** [p'] is [p] with rows added. *)
Definition extends (p p' : Pool) : Prop := ∃ l, entries p' = entries p ++ l.

#[export] Instance extends_preorder : PreOrder extends.
Proof.
  split; [intros p; exists []; by rewrite app_nil_r|].
  intros p q r [l Hl] [k Hk]. exists (l ++ k). by rewrite Hk, Hl, app_assoc.
Qed.

Lemma extends_in p p' e : extends p p' → e ∈ entries p → e ∈ entries p'.
Proof. intros [l ->] He. apply elem_of_app. by left. Qed.

Lemma extends_text p p' id text : pool_ok p → pool_ok p' → extends p p' → text_of p id = Some text → text_of p' id = Some text.
Proof. intros Hp Hp' He. rewrite !text_of_spec by done. by apply extends_in. Qed.

Lemma ensure_path_id_spec p path id p' :
  pool_ok p → ensure_path_id p path = Ok (id, p') → pool_ok p' ∧ extends p p' ∧ (id, path) ∈ entries p'.
Proof.
  intros Hp. unfold ensure_path_id, read_u32. destruct (select_id p path) as [i|] eqn:E.
  - case_if; [|done]. intros [= <- <-]. apply select_id_spec in E; done.
  - pose proof (insert_text_ok p path Hp (select_id_None p path Hp E)) as Hp'.
    destruct (select_id (insert_text p path) path) as [i|] eqn:E'; cbn [ok_or]; [|done].
    case_if; [|done]. intros [= <- <-]. apply select_id_spec in E'; [|done]. split; [done|]. split; [by eexists|done].
Qed.

(** The memo of a write agrees with the table. *)
Record paths_ok (st : Paths) : Prop := {
  pt_pool : pool_ok (pool st);
  pt_memo : ∀ path id, memo st !! path = Some id → (id, path) ∈ entries (pool st);
}.

Lemma cached_spec st path id st' :
  paths_ok st → ensure_path_id_cached st path = Ok (id, st') →
  paths_ok st' ∧ extends (pool st) (pool st') ∧ (id, path) ∈ entries (pool st').
Proof.
  intros [Hp Hm]. unfold ensure_path_id_cached. destruct (memo st !! path) as [i|] eqn:E.
  { intros [= <- <-]. split; [done|]. split; [done|by apply Hm]. }
  destruct (ensure_path_id (pool st) path) as [[i p']|] eqn:E'; [|done]. intros [= <- <-]. cbn [pool memo].
  apply ensure_path_id_spec in E' as (Hp' & He & Hin); [|done]. split; [|done]. split; [done|].
  intros q j. cbn [memo pool]. rewrite lookup_insert_Some. intros [[<- <-]|[_ Hq]]; [done|]. by eapply extends_in, Hm.
Qed.

Lemma write_payloads_spec serialize l st st' :
  paths_ok st → write_payloads serialize l st = Ok st' → paths_ok st' ∧ extends (pool st) (pool st').
Proof.
  revert st. induction l as [|ex l IH]; intros st Hst; cbn [write_payloads]; [by intros [= <-]|].
  destruct (serialize ex); [|done].
  destruct (ensure_path_id_cached st (file_path ex)) as [[i st1]|] eqn:E; [|done]. apply cached_spec in E as (H1 & He & _); [|done].
  intros Hl. apply IH in Hl as [H2 He2]; [|done]. split; [done|by etrans].
Qed.

(** ** Edges *)

(** A stored edge by its text. *)
Record Edge := {
  eg_source_file : str;
  eg_target_file : str;
  eg_text : RowText;
  eg_candidate_total : option Z;
}.

(** What the resolver's edge is, once stored. *)
Definition edge_of (e : ResolvedEdge) : Edge :=
  {| eg_source_file := source_file e; eg_target_file := target_file e;
     eg_text := {| rt_source := source_symbol e; rt_target := target_symbol e; rt_kind := kind_debug (edge_kind e);
                   rt_confidence := persist_real (confidence e);
                   rt_resolution := (λ r, label (kind_of r)) <$> resolution e |};
     eg_candidate_total := ambiguous_candidate_total (resolution e) |}.

Definition decode_edge (p : Pool) (t : EdgeTuple) : option Edge :=
  let! source := text_of p (et_source_file_id t) in
  let! target := text_of p (et_target_file_id t) in
  Some {| eg_source_file := source; eg_target_file := target; eg_text := er_text (index_row t);
          eg_candidate_total := et_candidate_total t |}.

Definition in_generation (deleted : list str) (e : ResolvedEdge) : bool :=
  negb (bool_decide (source_file e ∈ deleted) || bool_decide (target_file e ∈ deleted)).

(** The ids of an edge, if it is in the generation, are those of its files. *)
Definition edge_named (deleted : list str) (p : Pool) (e : ResolvedEdge) (o : option (Z * Z)) : Prop :=
  match o with
  | Some (s, t) => in_generation deleted e = true ∧ (s, source_file e) ∈ entries p ∧ (t, target_file e) ∈ entries p
  | None => in_generation deleted e = false
  end.

Lemma edge_named_extends deleted p p' e o : extends p p' → edge_named deleted p e o → edge_named deleted p' e o.
Proof.
  intros He. destruct o as [[s t]|]; [|done]. intros (Hin & Hs & Ht). split; [done|].
  split; by eapply extends_in.
Qed.

Lemma edge_ids_spec deleted edges ord st ids ord' st' :
  paths_ok st → 0 ≤ ord → ord + Z.of_nat (length edges) ≤ u32_max →
  edge_ids deleted edges ord st = Ok (ids, ord', st') →
  paths_ok st' ∧ extends (pool st) (pool st') ∧ Forall2 (edge_named deleted (pool st')) edges ids
  ∧ ord' = ord + Z.of_nat (length (List.filter (in_generation deleted) edges)).
Proof.
  revert ord st ids. induction edges as [|e edges IH]; intros ord st ids Hst Hord Hlen; cbn [edge_ids].
  { intros [= <- <- <-]. split; [done|]. split; [done|]. split; [constructor|cbn; lia]. }
  cbn [length List.filter] in *. destruct (bool_decide (source_file e ∈ deleted) || _) eqn:Hdel.
  - assert (Hin : in_generation deleted e = false) by (unfold in_generation; by rewrite Hdel).
    destruct (edge_ids deleted edges ord st) as [[[ids' ord1] st1]|] eqn:E; [|done]. intros [= <- <- <-].
    apply IH in E as (H1 & H2 & H3 & H4); [|done|done|lia]. rewrite Hin. split; [done|]. split; [done|]. split; [by constructor|done].
  - assert (Hin : in_generation deleted e = true) by (unfold in_generation; by rewrite Hdel).
    destruct (ensure_path_id_cached st (source_file e)) as [[s st1]|] eqn:E1; [|done].
    destruct (ensure_path_id_cached st1 (target_file e)) as [[t st2]|] eqn:E2; [|done].
    rewrite as_u32_small by (unfold u32_max in Hlen; lia).
    destruct (edge_ids deleted edges (ord + 1) st2) as [[[ids' ord1] st3]|] eqn:E; [|done]. intros [= <- <- <-].
    apply cached_spec in E1 as (H1 & He1 & Hs); [|done]. apply cached_spec in E2 as (H2 & He2 & Ht); [|done].
    apply IH in E as (H3 & He3 & Hids & Hord'); [|done|lia|lia]. rewrite Hin. cbn [length].
    split; [done|]. split; [by etrans; [|etrans]|]. split; [|lia]. constructor; [|done]. split; [done|].
    split; [eapply extends_in; [|exact Hs]; by etrans|by eapply extends_in].
Qed.

(** What the pass yields decodes to what was resolved, and refers to rows that are there. *)
Lemma edge_tuples_decode deleted p edges ids :
  pool_ok p → Forall2 (edge_named deleted p) edges ids →
  map (decode_edge p) (resolved (edge_tuples edges ids)) = map Some (map edge_of (List.filter (in_generation deleted) edges)).
Proof.
  intros Hp. induction 1 as [|e o edges ids Ho _ IH]; [done|]. unfold edge_tuples, resolved in *. cbn [zip_with List.filter].
  destruct o as [[s t]|]; cbn [fmap option_fmap option_map omap list_omap map fst snd].
  - destruct Ho as (-> & Hs & Ht). cbn [map]. rewrite IH. f_equal. unfold decode_edge. cbn [edge_tuple et_source_file_id et_target_file_id].
    by rewrite (proj2 (text_of_spec _ _ _ Hp) Hs), (proj2 (text_of_spec _ _ _ Hp) Ht).
  - by rewrite Ho.
Qed.

(** ** The ledger *)

Record slots_ok (s : Slots) : Prop := {
  so_slot : ∀ text slot, slot_of_text s !! text = Some slot ↔ 0 ≤ slot ∧ slot_text s !! Z.to_nat slot = Some text;
}.

Lemma slots_nodup s : slots_ok s → NoDup (slot_text s).
Proof.
  intros [Hs]. apply NoDup_alt. intros i j text Hi Hj.
  assert (H1 : slot_of_text s !! text = Some (Z.of_nat i)) by (apply Hs; rewrite Nat2Z.id; split; [lia|done]).
  assert (H2 : slot_of_text s !! text = Some (Z.of_nat j)) by (apply Hs; rewrite Nat2Z.id; split; [lia|done]).
  rewrite H1 in H2. injection H2. lia.
Qed.

Lemma slot_for_spec s text slot s' :
  slots_ok s → slot_for s text = Ok (slot, s') →
  slots_ok s' ∧ (∃ l, slot_text s' = slot_text s ++ l) ∧ 0 ≤ slot ∧ slot_text s' !! Z.to_nat slot = Some text.
Proof.
  intros Hs. unfold slot_for. destruct (slot_of_text s !! text) as [i|] eqn:E.
  { intros [= <- <-]. apply (so_slot _ Hs) in E as [H1 H2]. split; [done|]. split; [exists []; by rewrite app_nil_r|done]. }
  case_if; [done|]. intros [= <- <-]. cbn [slot_text].
  assert (Hat : (slot_text s ++ [text]) !! Z.to_nat (Z.of_nat (length (slot_text s))) = Some text) by (by rewrite Nat2Z.id, list_lookup_middle).
  split; [|split; [by eexists|split; [lia|done]]]. split. intros t i. cbn [slot_of_text slot_text].
  rewrite lookup_insert_Some, (so_slot _ Hs). split.
  - intros [[<- <-]|[_ [Hi Ht]]]; [split; [lia|done]|]. split; [done|]. by apply lookup_app_l_Some.
  - intros [Hi Ht]. apply lookup_app_Some in Ht as [Ht|[Hlen Ht]].
    + right. split; [|done]. intros <-. assert (slot_of_text s !! text = Some i) by (apply Hs; done). congruence.
    + left. apply list_lookup_singleton_Some in Ht as [H0 <-]. split; [done|]. lia.
Qed.

Section Ledger.

Context `{GitReads.DebugTable}.

(** The slots of a row are those of its texts, its id that of its file. *)
Definition row_slotted (texts : list str) (p : Pool) (row : UnresolvedReference) (s : Slotted) : Prop :=
  texts !! Z.to_nat (sl_reason s) = Some (debug_resolution (ur_resolution row))
  ∧ texts !! Z.to_nat (sl_class s) = Some (class_label (ur_class row))
  ∧ (sl_file_id s, ur_source_file row) ∈ entries p.

Lemma slot_rows_spec rows slots paths slotted slots' paths' :
  slots_ok slots → paths_ok paths → slot_rows rows (slots, paths) = Ok (slotted, (slots', paths')) →
  slots_ok slots' ∧ (∃ l, slot_text slots' = slot_text slots ++ l) ∧ paths_ok paths' ∧ extends (pool paths) (pool paths')
  ∧ Forall2 (row_slotted (slot_text slots') (pool paths')) rows slotted.
Proof.
  revert slots paths slotted. induction rows as [|row rows IH]; intros slots paths slotted Hs Hp; cbn [slot_rows fst snd].
  { intros [= <- <- <-]. split; [done|]. split; [exists []; by rewrite app_nil_r|]. split; [done|]. split; [done|constructor]. }
  destruct (slot_for slots (debug_resolution (ur_resolution row))) as [[r s1]|] eqn:E1; [|done].
  destruct (slot_for s1 (class_label (ur_class row))) as [[c s2]|] eqn:E2; [|done].
  destruct (ensure_path_id_cached paths (ur_source_file row)) as [[f p1]|] eqn:E3; [|done].
  destruct (slot_rows rows (s2, p1)) as [[sl [s3 p3]]|] eqn:E4; [|done]. intros [= <- <- <-].
  apply slot_for_spec in E1 as (H1 & [l1 Hl1] & _ & Hr); [|done]. apply slot_for_spec in E2 as (H2 & [l2 Hl2] & _ & Hc); [|done].
  apply cached_spec in E3 as (H3 & He3 & Hf); [|done]. apply IH in E4 as (H4 & [l4 Hl4] & H5 & He5 & Hrows); [|done|done].
  split; [done|]. split; [exists (l1 ++ l2 ++ l4); by rewrite Hl4, Hl2, Hl1, <- !app_assoc|]. split; [done|]. split; [by etrans|].
  constructor; [|done]. split; [|split]; cbn [sl_reason sl_class sl_file_id]; [| |by eapply extends_in].
  - rewrite Hl4, Hl2, <- app_assoc. by apply lookup_app_l_Some.
  - rewrite Hl4. by apply lookup_app_l_Some.
Qed.

(** The map of ids agrees with the table of texts. *)
Record linked (m : gmap str Z) (p : Pool) : Prop := {
  lk_pool : pool_ok p;
  lk_ids : ∀ text id, m !! text = Some id ↔ (id, text) ∈ entries p;
}.

Lemma read_texts_linked p : pool_ok p → linked (read_texts p) p.
Proof.
  intros Hp. split; [done|]. unfold read_texts. pose proof (pl_texts _ Hp) as Hnd. clear Hp.
  induction (entries p) as [|[i t] l IH] using rev_ind.
  { intros text id. cbn. rewrite lookup_empty. split; [done|by intros ?%not_elem_of_nil]. }
  rewrite map_app, NoDup_app in Hnd. destruct Hnd as (Hnd & Happ & _). intros text id.
  rewrite foldl_snoc. cbn [fst snd]. rewrite lookup_insert_Some, (IH Hnd), elem_of_app, list_elem_of_singleton. split.
  - intros [[<- <-]|[_ Hin]]; [by right|by left].
  - intros [Hin|[= -> ->]]; [|by left]. right. split; [|done]. intros ->. apply (Happ text).
    + apply elem_of_map. by exists (id, text).
    + cbn. by left.
Qed.

Lemma insert_slots_linked new m p :
  linked m p → NoDup new → (∀ text, text ∈ new → m !! text = None) →
  let st := foldl insert_slot (m, p) new in
  linked st.1 st.2 ∧ extends p st.2 ∧ ∀ text, text ∈ new ∨ is_Some (m !! text) → is_Some (st.1 !! text).
Proof.
  revert m p. induction new as [|text new IH]; intros m p Hl Hnd Hnew; cbn [foldl].
  { split; [done|]. split; [done|]. intros t [Hin|?]; [by apply not_elem_of_nil in Hin|done]. }
  apply NoDup_cons in Hnd as [Htext Hnd].
  assert (Hfresh : ∀ id, ((id, text) ∉ entries p)).
  { intros id Hin%(lk_ids _ _ Hl). rewrite Hnew in Hin; [done|by left]. }
  assert (Hl' : linked (insert_slot (m, p) text).1 (insert_slot (m, p) text).2).
  { unfold insert_slot. cbn [fst snd]. split; [apply insert_text_ok; [apply Hl|done]|]. intros t id.
    cbn [insert_text entries sequence]. rewrite lookup_insert_Some, (lk_ids _ _ Hl), elem_of_app, list_elem_of_singleton.
    split; [intros [[<- <-]|[_ Hin]]; [by right|by left]|].
    intros [Hin|[= -> ->]]; [|by left]. right. split; [|done]. intros ->. by apply (Hfresh id). }
  destruct (insert_slot (m, p) text) as [m' p'] eqn:E. injection E as <- <-. cbn [fst snd] in Hl'.
  destruct (IH _ _ Hl' Hnd) as (H1 & H2 & H3).
  { intros t Ht. rewrite lookup_insert_ne by (intros ->; done). apply Hnew. by right. }
  split; [done|]. split; [etrans; [|exact H2]; by eexists|]. intros t Ht. apply H3.
  destruct (decide (text = t)) as [<-|Hne]; [right; by rewrite lookup_insert_eq|].
  rewrite lookup_insert_ne by done. rewrite elem_of_cons in Ht. naive_solver.
Qed.

(** Every slot gets the id of its text. *)
Lemma slot_ids_spec slots texts :
  slots_ok slots → pool_ok texts →
  ∃ ids texts', slot_ids slots texts = Ok (ids, texts') ∧ pool_ok texts' ∧ extends texts texts'
    ∧ Forall2 (λ text id, (id, text) ∈ entries texts') (slot_text slots) ids.
Proof.
  intros Hs Ht. unfold slot_ids. set (new := List.filter _ (slot_text slots)).
  pose proof (insert_slots_linked (sort_strs new) (read_texts texts) texts (read_texts_linked _ Ht)) as Hins.
  destruct (foldl insert_slot _ _) as [m p']. cbn [fst snd] in Hins. destruct Hins as (Hl & He & Hall).
  { apply sort_strs_nodup. pose proof (slots_nodup _ Hs). rewrite <- (map_id new). apply nodup_map_filter. by rewrite map_id. }
  { intros text Hin%elem_of_sort_by. apply elem_of_filter_bool in Hin as [_ Hin]. by apply bool_decide_eq_true in Hin. }
  assert (Hsome : ∀ text, text ∈ slot_text slots → is_Some (m !! text)).
  { intros text Hin. apply Hall. destruct (read_texts texts !! text) eqn:E; [right; by eexists|left].
    apply elem_of_sort_by, elem_of_filter_bool. split; [done|by rewrite E]. }
  assert (Hc : ∃ ids, collect (λ text, ok_or (m !! text) TextWithoutId) (slot_text slots) = Ok ids).
  { clear - Hsome. induction (slot_text slots) as [|t l IH]; [by exists []|]. cbn [collect].
    destruct (Hsome t) as [i ->]; [by left|]. cbn [ok_or]. destruct IH as [ids ->]; [|by eexists].
    intros x Hx. apply Hsome. by right. }
  destruct Hc as [ids Hc]. rewrite Hc. exists ids, p'. split; [done|]. split; [apply Hl|]. split; [done|].
  apply collect_ok in Hc. eapply Forall2_impl; [exact Hc|]. cbn. intros text id Hid. apply (lk_ids _ _ Hl).
  destruct (m !! text); [|done]. cbn in Hid. congruence.
Qed.

(** A row of the ledger by its text. *)
Definition miss_of (row : UnresolvedReference) : LedgerRow :=
  {| lr_source_file := ur_source_file row; lr_source_symbol := ur_source_symbol row; lr_callee_name := ur_callee_name row;
     lr_reason := debug_resolution (ur_resolution row); lr_classification := class_label (ur_class row);
     lr_receiver := ur_receiver row |}.

Lemma ledger_pass_spec rows texts paths ledger texts' paths' :
  pool_ok texts → paths_ok paths → ledger_pass rows texts paths = Ok (ledger, texts', paths') →
  pool_ok texts' ∧ extends texts texts' ∧ paths_ok paths' ∧ extends (pool paths) (pool paths') ∧ length ledger = length rows
  ∧ map (join_texts (pool paths') texts') ledger = map (λ row, Some (miss_of row)) rows.
Proof.
  intros Ht Hp. unfold ledger_pass. destruct (slot_rows _ _) as [[slotted [slots paths1]]|] eqn:E1; [|done].
  apply slot_rows_spec in E1 as (Hslots & _ & Hp1 & He1 & Hrows); [| |done].
  2: { split. intros text slot. cbn. rewrite lookup_empty, lookup_nil. naive_solver. }
  destruct (slot_ids_spec slots texts Hslots Ht) as (ids & t' & -> & Ht' & Het & Hids). intros [= <- <- <-].
  split; [done|]. split; [done|]. split; [done|]. split; [done|].
  assert (Hid : ∀ slot text, slot_text slots !! Z.to_nat slot = Some text → text_of t' (at_rank ids slot) = Some text).
  { intros slot text Hslot. destruct (Forall2_lookup_l _ _ _ _ _ Hids Hslot) as (id & Hid & Hin). unfold at_rank. rewrite Hid.
    by apply text_of_spec. }
  induction Hrows as [|row s rows slotted (Hr & Hc & Hf) _ IH]; [done|]. cbn [zip_with map length]. destruct IH as [-> ->].
  split; [done|]. f_equal. unfold join_texts, miss_of. cbn [unresolved_tuple ut_source_file_id ut_reason_id ut_classification_id ut_source_symbol ut_callee_name ut_receiver].
  rewrite (proj2 (text_of_spec _ _ _ (pt_pool _ Hp1)) Hf). by rewrite (Hid _ _ Hr), (Hid _ _ Hc).
Qed.

End Ledger.

(** ** The newest generation *)

Lemma newest_of ids g : newest ids = Some g → g ∈ ids ∧ ∀ x, x ∈ ids → x ≤ g.
Proof.
  unfold newest. revert g. induction ids as [|x ids IH] using rev_ind; intros g; [done|]. rewrite foldl_snoc. intros [= <-].
  destruct (foldl _ None ids) as [m|] eqn:E.
  - destruct (IH m eq_refl) as [Hm Hle]. split.
    + rewrite elem_of_app, list_elem_of_singleton. destruct (Z.max_spec m x) as [[_ ->]|[_ ->]]; [by right|by left].
    + intros y. rewrite elem_of_app, list_elem_of_singleton. intros [Hy| ->]; [specialize (Hle y Hy)|]; lia.
  - assert (ids = []) as ->. { destruct ids as [|y ids] using rev_ind; [done|]. by rewrite foldl_snoc in E. }
    cbn. split; [by left|]. intros y. rewrite list_elem_of_singleton. lia.
Qed.

Lemma newest_is ids g : g ∈ ids → (∀ x, x ∈ ids → x ≤ g) → newest ids = Some g.
Proof.
  intros Hin Hle. destruct (newest ids) as [m|] eqn:E.
  - apply newest_of in E as [Hm Hmle]. f_equal. apply Z.le_antisymm; [by apply Hle|by apply Hmle].
  - exfalso. unfold newest in E. destruct ids as [|y ids] using rev_ind; [by apply not_elem_of_nil in Hin|]. by rewrite foldl_snoc in E.
Qed.

(** ** The invariant of the tables *)

(** Every row has a range within the generations given out and refers to texts that are there. *)
Record well_formed (db : Db) : Prop := {
  wf_generations : ∀ g, g ∈ generations db → 0 < g ≤ generation_sequence db;
  wf_distinct : NoDup (generations db);
  wf_sequence : 0 ≤ generation_sequence db;
  wf_paths : pool_ok (paths db);
  wf_texts : pool_ok (unresolved_texts db);
  wf_edges : ranged (generation_sequence db) (edge_rows db);
  wf_ledger : ranged (generation_sequence db) (unresolved_rows db);
  wf_edge_names : ∀ r, r ∈ edge_rows db → is_Some (decode_edge (paths db) (tuple r));
  wf_ledger_names : ∀ r, r ∈ unresolved_rows db → is_Some (join_texts (paths db) (unresolved_texts db) (tuple r));
}.

Lemma empty_well_formed : well_formed empty_db.
Proof.
  assert (Hnil : ∀ T, ranged 0 (@nil (RangeRow T))) by (split; [apply NoDup_nil_2|by intros ? ?%not_elem_of_nil|by intros ? ? ?%not_elem_of_nil]).
  split; cbn; try apply empty_pool_ok; try apply Hnil; try done; try apply NoDup_nil_2; by intros ? ?%not_elem_of_nil.
Qed.

Section Recorded.

Context `{Hashes EdgeTuple} `{Hashes UnresolvedTuple}.

(** The digests of the newest generation are those of these edges and calls. *)
Definition recorded (db : Db) (edges : list EdgeTuple) (calls : list UnresolvedTuple) : Prop :=
  ∀ g f row, newest (generations db) = Some g → default ∅ (generation_file_digests db !! g) !! f = Some row →
    from_columns row.1 = digest_of (of_file et_source_file_id f edges)
    ∧ from_columns row.2 = digest_of (of_file ut_source_file_id f calls).

(** The digests of what is live. *)
Definition recorded_live (db : Db) : Prop := recorded db (live_tuples (edge_rows db)) (live_tuples (unresolved_rows db)).

(** No file has the digest of different rows. *)
Definition told_apart {T} `{Hashes T} (file_of : T → Z) (old fresh : list T) : Prop :=
  ∀ f, digest_of (of_file file_of f old) = digest_of (of_file file_of f fresh) → of_file file_of f old ≡ₚ of_file file_of f fresh.

Lemma of_file_submseteq {T} (file_of : T → Z) f (l k : list T) : l ⊆+ k → of_file file_of f l ⊆+ of_file file_of f k.
Proof.
  intros [j Hj]%submseteq_Permutation. unfold of_file. rewrite (filter_perm _ _ _ Hj), List.filter_app.
  by apply submseteq_inserts_r.
Qed.

(** A digest found to match may be trusted, even when rows are missing since it was recorded. *)
Lemma trusted_digests {T} `{EqDecision T} `{Hashes T} (file_of : T → Z) old fresh rows (stored : gmap Z RowSetDigest) :
  (∀ f d, stored !! f = Some d → d = digest_of (of_file file_of f old)) →
  live_tuples rows ⊆+ old → told_apart file_of old (resolved fresh) → trusted file_of stored fresh rows.
Proof.
  intros Hstored Hlost Hapart f Hf Hlen. apply Hstored in Hf. symmetry in Hf. apply Hapart in Hf. rewrite <- Hf in Hlen |- *.
  apply submseteq_length_Permutation; [by apply of_file_submseteq|lia].
Qed.

Lemma stored_digests_spec side scope db f d :
  stored_digests side scope (newest (generations db)) db !! f = Some d →
  ∃ g row, newest (generations db) = Some g ∧ default ∅ (generation_file_digests db !! g) !! f = Some row ∧ d = from_columns (side row).
Proof.
  unfold stored_digests. destruct scope, (newest (generations db)) as [g|]; try by rewrite lookup_empty.
  rewrite lookup_fmap. destruct (default ∅ (generation_file_digests db !! g) !! f) as [row|] eqn:E; [|done].
  cbn. intros [= <-]. by exists g, row.
Qed.

Lemma stored_edges_spec scope db edges calls f d :
  recorded db edges calls → stored_digests fst scope (newest (generations db)) db !! f = Some d →
  d = digest_of (of_file et_source_file_id f edges).
Proof. intros Hr (g & row & Hg & Hrow & ->)%stored_digests_spec. by apply (Hr g f row). Qed.

Lemma stored_calls_spec scope db edges calls f d :
  recorded db edges calls → stored_digests snd scope (newest (generations db)) db !! f = Some d →
  d = digest_of (of_file ut_source_file_id f calls).
Proof. intros Hr (g & row & Hg & Hrow & ->)%stored_digests_spec. by apply (Hr g f row). Qed.

Lemma default_digest {T} `{EqDecision T} `{Hashes T} (file_of : T → Z) fresh f :
  default no_rows (fresh_digests file_of fresh !! f) = digest_of (of_file file_of f (resolved fresh)).
Proof. rewrite fresh_digests_lookup. by destruct (of_file file_of f (resolved fresh)). Qed.

Lemma digest_rows_spec edges calls f row :
  digest_rows (fresh_digests et_source_file_id edges) (fresh_digests ut_source_file_id calls) !! f = Some row →
  from_columns row.1 = digest_of (of_file et_source_file_id f (resolved edges))
  ∧ from_columns row.2 = digest_of (of_file ut_source_file_id f (resolved calls)).
Proof.
  unfold digest_rows. rewrite lookup_fmap, lookup_merge.
  rewrite <- (default_digest et_source_file_id), <- (default_digest ut_source_file_id).
  pose proof (default_digest et_source_file_id edges f) as He. pose proof (default_digest ut_source_file_id calls f) as Hc.
  destruct (fresh_digests _ edges !! f) as [e|], (fresh_digests _ calls !! f) as [c|]; cbn in He, Hc |- *; [..|done].
  all: intros [= <-]; cbn; rewrite He, Hc; split; apply columns_keep.
Qed.

Lemma of_file_perm {T} (file_of : T → Z) f (l k : list T) : l ≡ₚ k → of_file file_of f l ≡ₚ of_file file_of f k.
Proof. apply filter_perm. Qed.

End Recorded.

(** ** What a generation shows *)

Record Snapshot := { sn_edges : list Edge; sn_calls : list LedgerRow }.

(** The views of generation [g] hold these edges and calls, each as often, whatever the order. *)
Definition shows (db : Db) (g : Z) (s : Snapshot) : Prop :=
  map (decode_edge (paths db)) (generation_edges db g) ≡ₚ map Some (sn_edges s) ∧ generation_unresolved db g ≡ₚ sn_calls s.

Lemma omap_some {A B} (f : A → option B) l k : map f l ≡ₚ map Some k → omap f l ≡ₚ k.
Proof.
  intros Hp. assert (Hom : ∀ l, omap f l = omap (λ o : option B, o) (map f l)).
  { clear. intros l. induction l as [|x l IH]; [done|]. cbn [map omap list_omap]. by rewrite IH. }
  rewrite Hom, Hp. clear. induction k as [|x k IH]; [done|]. cbn [map omap list_omap]. by constructor.
Qed.

Lemma relation_tuples {T} g (rows : list (RangeRow T)) t : t ∈ relation_at g rows → ∃ r, r ∈ rows ∧ tuple r = t.
Proof. intros (r & -> & Hr)%elem_of_map. apply elem_of_filter_bool in Hr as [Hr _]. by exists r. Qed.

Lemma decode_edge_extends p p' t : pool_ok p → pool_ok p' → extends p p' → is_Some (decode_edge p t) → decode_edge p' t = decode_edge p t.
Proof.
  intros Hp Hp' He [e Hd]. unfold decode_edge in *. destruct (text_of p (et_source_file_id t)) as [a|] eqn:E1; [|done].
  destruct (text_of p (et_target_file_id t)) as [b|] eqn:E2; [|done].
  by rewrite (extends_text _ _ _ _ Hp Hp' He E1), (extends_text _ _ _ _ Hp Hp' He E2).
Qed.

Lemma join_texts_extends p p' q q' t :
  pool_ok p → pool_ok p' → extends p p' → pool_ok q → pool_ok q' → extends q q' →
  is_Some (join_texts p q t) → join_texts p' q' t = join_texts p q t.
Proof.
  intros Hp Hp' He Hq Hq' Heq [e Hd]. unfold join_texts in *. destruct (text_of p _) as [a|] eqn:E1; [|done].
  destruct (text_of q (ut_reason_id t)) as [b|] eqn:E2; [|done]. destruct (text_of q (ut_classification_id t)) as [c|] eqn:E3; [|done].
  by rewrite (extends_text _ _ _ _ Hp Hp' He E1), (extends_text _ _ _ _ Hq Hq' Heq E2), (extends_text _ _ _ _ Hq Hq' Heq E3).
Qed.

(** A generation is read as before when its rows and their texts are as before. *)
Lemma shows_again db db' g s :
  g ∈ generations db → g ∈ generations db' →
  relation_at g (edge_rows db') = relation_at g (edge_rows db) →
  relation_at g (unresolved_rows db') = relation_at g (unresolved_rows db) →
  (∀ t, t ∈ relation_at g (edge_rows db) → decode_edge (paths db') t = decode_edge (paths db) t) →
  (∀ t, t ∈ relation_at g (unresolved_rows db) →
        join_texts (paths db') (unresolved_texts db') t = join_texts (paths db) (unresolved_texts db) t) →
  shows db g s → shows db' g s.
Proof.
  intros Hg Hg' He Hu Hde Hdu [Hse Hsu]. unfold shows, generation_edges, generation_unresolved in *.
  rewrite !bool_decide_true in * by done. rewrite He, Hu. split.
  - rewrite <- Hse. apply Permutation_refl'. apply map_ext_in. intros t Ht. by apply Hde, list_elem_of_In.
  - rewrite <- Hsu. apply Permutation_refl'. revert Hdu. generalize (relation_at g (unresolved_rows db)). intros l Hdu.
    induction l as [|t l IH]; [done|]. cbn [omap list_omap]. rewrite Hdu by by left. rewrite IH; [done|]. intros x Hx. apply Hdu. by right.
Qed.

(** ** The files of a write *)

Section FileRows.

Context `{Grammars}.

Definition prior_rows (db : Db) (prev_gen : option Z) : list FileRow :=
  match prev_gen with Some prev => default [] (generation_files db !! prev) | None => [] end.

Lemma untouched_spec db w prev row :
  row ∈ untouched_rows db w prev ↔
    full_rewrite w = false ∧ row ∈ prior_rows db prev ∧ (fr_path row ∉ w_deleted w) ∧ (fr_path row ∉ w_affected w).
Proof.
  unfold untouched_rows, prior_rows. destruct prev as [g|]; [|split; [by intros ?%not_elem_of_nil|by intros (_ & ?%not_elem_of_nil & _)]].
  destruct (full_rewrite w); [split; [by intros ?%not_elem_of_nil|by intros [? _]]|].
  rewrite elem_of_filter_bool, andb_true_iff, !negb_true_iff, !bool_decide_eq_false. naive_solver.
Qed.

Lemma carry_spec db w prev path :
  path ∈ carry db w prev ↔
    ∃ row, row ∈ untouched_rows db w prev ∧ fr_path row = path ∧ identity_matches row = true ∧ content_matches w row = true.
Proof.
  unfold carry. split.
  - intros (row & -> & [Hrow Hc]%elem_of_filter_bool)%elem_of_map. bool_to_prop. by exists row.
  - intros (row & Hrow & <- & Hid & Hc). apply elem_of_map. exists row. split; [done|].
    apply elem_of_filter_bool. by rewrite Hid, Hc.
Qed.

Lemma current_hash_spec w path :
  match current_hash w path with
  | Some hash => ∃ ex, ex ∈ w_extractions w ∧ file_path ex = path ∧ hash = as_i64 (content_hash ex)
  | None => path ∉ extraction_paths w
  end.
Proof.
  unfold current_hash. destruct (List.find _ _) as [ex|] eqn:E; cbn.
  - apply find_decided in E as [Hin Hp]. by exists ex.
  - intros (ex & -> & Hex)%elem_of_map. apply list_elem_of_In in Hex. apply (List.find_none _ _ E) in Hex. by bool_to_prop.
Qed.

(** Of two extractions of one path there is but one. *)
Lemma same_extraction w ex ex' :
  NoDup (extraction_paths w) → ex ∈ w_extractions w → ex' ∈ w_extractions w → file_path ex = file_path ex' → ex = ex'.
Proof. intros Hn. by apply keyed_inj. Qed.

Lemma content_spec w row ex :
  NoDup (extraction_paths w) → content_matches w row = true → ex ∈ w_extractions w → file_path ex = fr_path row →
  fr_content_hash row = as_i64 (content_hash ex).
Proof.
  intros Hn Hc Hex Hp. unfold content_matches in Hc. pose proof (current_hash_spec w (fr_path row)) as Hh.
  destruct (current_hash w (fr_path row)) as [hash|].
  - destruct Hh as (ex' & Hex' & Hp' & ->). apply Z.eqb_eq in Hc. rewrite (same_extraction w ex ex') by (done || congruence). done.
  - exfalso. apply Hh, elem_of_map. by exists ex.
Qed.

(** A row no extraction replaces is refused only for the grammar or the extractor that made it. *)
Lemma unreplaceable_spec db w prev path :
  path ∈ unreplaceable db w prev ↔
    ∃ row, row ∈ untouched_rows db w prev ∧ fr_path row = path ∧ identity_matches row = false ∧ (path ∉ extraction_paths w).
Proof.
  unfold unreplaceable, stale_identity. rewrite elem_of_filter_bool, elem_of_map. setoid_rewrite elem_of_filter_bool. split.
  - intros [(row & -> & Hrow & Hs) Hx]. bool_to_prop. exists row. split; [done|]. split; [done|]. split; [|done].
    unfold content_matches in Hs. pose proof (current_hash_spec w (fr_path row)) as Hh. destruct (current_hash w (fr_path row)) as [hash|].
    + destruct Hh as (ex & Hex & Hp & _). exfalso. apply Hx. rewrite <- Hp. apply elem_of_map. by exists ex.
    + by rewrite andb_true_r in Hs.
  - intros (row & Hrow & <- & Hid & Hx). split; [|by apply negb_true_iff, bool_decide_eq_false]. exists row. by rewrite Hid.
Qed.

Lemma check_carry_spec db w prev :
  match check_carry db w prev with
  | Ok _ => ∀ row, row ∈ untouched_rows db w prev → identity_matches row = false → fr_path row ∈ extraction_paths w
  | Err e => ∃ count row, e = CannotCarry count (fr_path row) ∧ 1 ≤ count ∧ row ∈ untouched_rows db w prev
                          ∧ identity_matches row = false ∧ (fr_path row ∉ extraction_paths w)
  end.
Proof.
  unfold check_carry. destruct (unreplaceable db w prev) as [|first rest] eqn:E.
  - intros row Hrow Hid. destruct (decide (fr_path row ∈ extraction_paths w)) as [|Hx]; [done|].
    assert (Hin : fr_path row ∈ unreplaceable db w prev) by (apply unreplaceable_spec; by exists row).
    rewrite E in Hin. by apply not_elem_of_nil in Hin.
  - assert (Hin : first ∈ unreplaceable db w prev) by (rewrite E; by left).
    apply unreplaceable_spec in Hin as (row & Hrow & <- & Hid & Hx). exists (1 + Z.of_nat (length rest)), row.
    split; [done|]. split; [lia|done].
Qed.

Lemma fresh_spec db w prev ex :
  ex ∈ fresh db w prev ↔ ex ∈ w_extractions w ∧ (file_path ex ∉ carry db w prev) ∧ (file_path ex ∉ w_deleted w).
Proof.
  unfold fresh. rewrite elem_of_filter_bool, andb_true_iff, !negb_true_iff, bool_decide_eq_false, andb_false_iff, negb_false_iff, bool_decide_eq_false.
  split; [intros (Hex & Hc & Hd)|naive_solver]. split; [done|]. split; [|done]. destruct Hc as [Hfull|Hc]; [|done].
  intros (row & Hrow & _)%carry_spec. apply untouched_spec in Hrow as [Hf _]. congruence.
Qed.

Lemma fresh_row_path ex : fr_path (fresh_row ex) = file_path ex.
Proof. done. Qed.

Lemma fresh_row_current ex : identity_matches (fresh_row ex) = true.
Proof. unfold identity_matches. cbn. by rewrite !bool_decide_true. Qed.

(** Each file row is one that is carried or that of a fresh extraction. *)
Lemma file_rows_spec db w prev row :
  NoDup (map fr_path (prior_rows db prev)) →
  row ∈ file_rows db w prev ↔
    (row ∈ untouched_rows db w prev ∧ identity_matches row = true ∧ content_matches w row = true)
    ∨ ∃ ex, ex ∈ fresh db w prev ∧ row = fresh_row ex.
Proof.
  intros Hn. unfold file_rows. rewrite elem_of_app, elem_of_map.
  assert (Hcarried : row ∈ match prev with
    | Some g => if full_rewrite w then [] else List.filter (λ r, bool_decide (fr_path r ∈ carry db w prev)) (default [] (generation_files db !! g))
    | None => [] end ↔ row ∈ untouched_rows db w prev ∧ identity_matches row = true ∧ content_matches w row = true).
  { split.
    - intros Hrow. assert (Hc : row ∈ prior_rows db prev ∧ fr_path row ∈ carry db w prev).
      { destruct prev as [g|]; [|by apply not_elem_of_nil in Hrow]. destruct (full_rewrite w); [by apply not_elem_of_nil in Hrow|].
        apply elem_of_filter_bool in Hrow as [Hrow Hp]. by bool_to_prop. }
      destruct Hc as [Hin (row' & Hrow' & Hp & Hid & Hc)%carry_spec].
      assert (row' = row) as ->; [|done]. pose proof Hrow' as (_ & Hin' & _)%untouched_spec. by apply (keyed_inj fr_path (prior_rows db prev)).
    - intros (Hrow & Hid & Hc). pose proof Hrow as (Hfull & Hin & _)%untouched_spec.
      destruct prev as [g|]; [|by apply not_elem_of_nil in Hin]. rewrite Hfull. apply elem_of_filter_bool. split; [done|].
      apply bool_decide_eq_true, carry_spec. by exists row. }
  split; (intros [Hc|(ex & Hx & Hy)]; [left; by apply Hcarried|right; by exists ex]).
Qed.

(** A generation has one row for each of its files. *)
Lemma file_rows_nodup db w prev :
  NoDup (map fr_path (prior_rows db prev)) → NoDup (extraction_paths w) → NoDup (map fr_path (file_rows db w prev)).
Proof.
  intros Hn Hx. unfold file_rows. rewrite map_app, map_map. apply NoDup_app. split; [|split].
  - destruct prev as [g|]; [|constructor]. destruct (full_rewrite w); [constructor|]. by apply nodup_map_filter.
  - intros path Hin (ex & -> & Hex)%elem_of_map. apply fresh_spec in Hex as (_ & Hc & _). apply Hc. cbn in Hin.
    destruct prev as [g|]; [|by apply not_elem_of_nil in Hin]. destruct (full_rewrite w); [by apply not_elem_of_nil in Hin|].
    apply elem_of_map in Hin as (row & Hp & Hrow). apply elem_of_filter_bool in Hrow as [_ Hrow]. bool_to_prop. cbn in Hp. by rewrite Hp.
  - by apply nodup_map_filter.
Qed.

(** A file that was there or is given has a row, as every stale one is given again. *)
Lemma path_has_row db w prev path :
  NoDup (map fr_path (prior_rows db prev)) →
  (∀ path, path ∈ w_affected w → path ∈ extraction_paths w ∨ path ∈ w_deleted w) →
  (∀ row, row ∈ untouched_rows db w prev → identity_matches row = false → fr_path row ∈ extraction_paths w) →
  (path ∉ w_deleted w) → path ∈ extraction_paths w ∨ full_rewrite w = false ∧ path ∈ map fr_path (prior_rows db prev) →
  path ∈ map fr_path (file_rows db w prev).
Proof.
  intros Hn Haff Hstale Hdel Hor.
  assert (Hgiven : path ∈ extraction_paths w → path ∈ map fr_path (file_rows db w prev)).
  { intros (ex & -> & Hex)%elem_of_map. destruct (decide (file_path ex ∈ carry db w prev)) as [Hc|Hc].
    - apply carry_spec in Hc as (row & Hrow & Hp & Hid & Hcont). rewrite <- Hp. apply elem_of_map. exists row. split; [done|].
      apply file_rows_spec; [done|]. by left.
    - apply elem_of_map. exists (fresh_row ex). split; [done|]. apply file_rows_spec; [done|]. right. exists ex. split; [|done].
      by apply fresh_spec. }
  destruct Hor as [Hx|[Hfull Hin]]; [by apply Hgiven|]. destruct (decide (path ∈ extraction_paths w)) as [|Hx]; [by apply Hgiven|].
  apply elem_of_map in Hin as (row & -> & Hin). assert (Hrow : row ∈ untouched_rows db w prev).
  { apply untouched_spec. do 3 (split; [done|]). intros Ha. by destruct (Haff _ Ha). }
  apply elem_of_map. exists row. split; [done|]. apply file_rows_spec; [done|]. left. split; [done|]. split.
  - destruct (identity_matches row) eqn:Hid; [done|]. exfalso. by apply Hx, Hstale.
  - unfold content_matches. pose proof (current_hash_spec w (fr_path row)) as Hh. destruct (current_hash w (fr_path row)) as [hash|]; [|done].
    destruct Hh as (ex & Hex & Hp & _). exfalso. apply Hx. rewrite <- Hp. apply elem_of_map. by exists ex.
Qed.

End FileRows.

(** ** A write *)

Section Writing.

Context `{GitReads.DebugTable} `{Hashes EdgeTuple} `{Hashes UnresolvedTuple} `{Discovery.Files} `{Grammars}.

Definition snapshot_of (w : Write) : Snapshot :=
  {| sn_edges := map edge_of (List.filter (in_generation (w_deleted w)) (w_edges w));
     sn_calls := map miss_of (w_unresolved w) |}.

(** The sizes the row indices and counts have room for. *)
Definition small (w : Write) : Prop :=
  Z.of_nat (length (w_edges w)) ≤ u32_max ∧ Z.of_nat (length (w_unresolved w)) ≤ u32_max.

(** A write that compares only what digests say has moved meets no collision: no file has
    the digest of the rows recorded for it while its rows are others. *)
Definition collision_free (db : Db) (w : Write) (edges : list EdgeTuple) (calls : list UnresolvedTuple) : Prop :=
  scope_by_digest w (newest_below (generation_sequence db + 1) (generations db)) = true →
  ∀ fresh ord st ledger texts st', edge_pass db w = Ok (fresh, ord, st) →
    ledger_pass (w_unresolved w) (unresolved_texts db) st = Ok (ledger, texts, st') →
    told_apart et_source_file_id edges (resolved fresh) ∧ told_apart ut_source_file_id calls ledger.

Lemma edge_pass_spec db w fresh ord st :
  pool_ok (paths db) → small w → edge_pass db w = Ok (fresh, ord, st) →
  paths_ok st ∧ extends (paths db) (pool st) ∧ (length fresh ≤ length (w_edges w))%nat
  ∧ map (decode_edge (pool st)) (resolved fresh) = map Some (sn_edges (snapshot_of w))
  ∧ ord = Z.of_nat (length (sn_edges (snapshot_of w))).
Proof.
  intros Hp [Hlen _]. unfold edge_pass. destruct (write_payloads _ _ _) as [st0|] eqn:E0; [|done].
  apply write_payloads_spec in E0 as [Hst0 He0]; [|by split].
  destruct (edge_ids _ _ _ _) as [[[ids o] st1]|] eqn:E1; [|done]. intros [= <- <- <-].
  apply edge_ids_spec in E1 as (Hst1 & He1 & Hids & Hord); [|done|lia|lia]. split; [done|]. split; [by etrans|].
  split; [unfold edge_tuples; rewrite length_zip_with; lia|]. split; [|by rewrite Hord; cbn; rewrite length_map].
  by apply edge_tuples_decode with (deleted := w_deleted w); [apply Hst1|].
Qed.

(** What an accepted write leaves. *)
Record written (db : Db) (w : Write) (gen : Z) (db' : Db) : Prop := {
  wr_gen : gen = generation_sequence db + 1;
  wr_accepted : check_write w = Ok tt ∧ check_carry db w (newest (generations db)) = Ok tt;
  wr_generations : generations db' = generations db ++ [gen];
  wr_files : generation_files db' = <[gen := file_rows db w (newest (generations db))]> (generation_files db);
  wr_well_formed : well_formed db';
  wr_recorded : recorded_live db';
  wr_shows : shows db' gen (snapshot_of w);
  wr_before : ∀ g s, g ∈ generations db → shows db g s → shows db' g s;
  wr_total : w_total_edges w = Z.of_nat (length (sn_edges (snapshot_of w)));
  wr_edges : ∃ fresh ord st, edge_pass db w = Ok (fresh, ord, st)
             ∧ difference (generation_sequence db) gen fresh (edge_rows db) (edge_rows db');
  wr_calls : ∃ fresh ord st ledger texts st', edge_pass db w = Ok (fresh, ord, st)
             ∧ ledger_pass (w_unresolved w) (unresolved_texts db) st = Ok (ledger, texts, st')
             ∧ difference (generation_sequence db) gen (map Some ledger) (unresolved_rows db) (unresolved_rows db');
}.

Lemma resolved_all {T} (l : list T) : resolved (map Some l) = l.
Proof. unfold resolved. induction l as [|x l IH]; [done|]. cbn. by rewrite IH. Qed.

Lemma newest_below_all db : well_formed db → newest_below (generation_sequence db + 1) (generations db) = newest (generations db).
Proof.
  intros Hwf. unfold newest_below. rewrite filter_all; [done|]. intros g Hg. apply Z.ltb_lt.
  pose proof (wf_generations _ Hwf g Hg). lia.
Qed.

(** The rows of a relation after a write have their texts. *)
Lemma difference_named {T A} (decode decode' : T → option A) latest gen fresh (rows rows' : list (RangeRow T)) meant :
  difference latest gen fresh rows rows' → map decode' (resolved fresh) = map Some meant →
  (∀ r, r ∈ rows → is_Some (decode (tuple r))) → (∀ t, is_Some (decode t) → decode' t = decode t) →
  ∀ r, r ∈ rows' → is_Some (decode' (tuple r)).
Proof.
  intros Hd Hfresh Hnamed Hext r Hr. destruct (df_tuples _ _ _ _ _ Hd r Hr) as [(q & Hq & <-)|Hin].
  - rewrite Hext; by apply Hnamed.
  - assert (Hm : decode' (tuple r) ∈ map decode' (resolved fresh)) by (apply elem_of_map; by exists (tuple r)).
    rewrite Hfresh in Hm. apply elem_of_map in Hm as (a & -> & _). by eexists.
Qed.

Lemma live_perm {T} latest gen fresh (rows rows' : list (RangeRow T)) :
  difference latest gen fresh rows rows' → live_tuples rows' ≡ₚ resolved fresh.
Proof. intros Hd. rewrite <- (live_is_latest gen); [apply Hd|apply Hd]. Qed.

Lemma decode_again {T A} (decode decode' : T → option A) l meant :
  map decode l = map Some meant → (∀ t, is_Some (decode t) → decode' t = decode t) → map decode' l = map Some meant.
Proof.
  intros Hl Hext. rewrite <- Hl. apply map_ext_in. intros t Ht. apply Hext.
  assert (Hm : decode t ∈ map decode l) by (apply elem_of_map; exists t; split; [done|by apply list_elem_of_In]).
  rewrite Hl in Hm. apply elem_of_map in Hm as (a & -> & _). by eexists.
Qed.

(** The effect of a write, from a store in which rows may have gone missing since the
    digests were recorded. *)
Lemma write_spec db w gen db' edges calls :
  well_formed db → recorded db edges calls →
  live_tuples (edge_rows db) ⊆+ edges → live_tuples (unresolved_rows db) ⊆+ calls →
  collision_free db w edges calls → small w → write_generation db w = Ok (gen, db') → written db w gen db'.
Proof.
  intros Hwf Hrec Hle Hlc Hfree Hsmall. unfold collision_free in Hfree. unfold write_generation. destruct (check_write w) as [[]|] eqn:Ew; [|done].
  destruct (bind_root w _) as [q|]; [|done]. destruct (w_serialize_analysis w); [|done]. case_if; [|done]. rewrite (newest_below_all _ Hwf) in *. set (scope := scope_by_digest w (newest (generations db))) in *.
  destruct (check_carry db w _) as [[]|] eqn:Ec; [|done].
  destruct (edge_pass db w) as [[[fresh ord] st]|] eqn:Ee; [|done]. destruct (ord =? w_total_edges w) eqn:Eo; cbn [negb]; [|done].
  destruct (check_coverage w); [|done]. destruct (check_dead_symbols w); [|done]. destruct (ledger_pass _ _ _) as [[[ledger texts] st']|] eqn:El; [|done]. intros [= <- <-]. bool_to_prop.
  destruct (edge_pass_spec _ _ _ _ _ (wf_paths _ Hwf) Hsmall Ee) as (Hst & Hext & Hlen & Hdec & Hord).
  destruct (ledger_pass_spec _ _ _ _ _ _ (wf_texts _ Hwf) Hst El) as (Ht & Htext & Hst' & Hext' & Hlen' & Hjoin).
  destruct Hsmall as [Hs1 Hs2]. set (gen := generation_sequence db + 1).
  assert (Hgen : generation_sequence db < gen) by lia.
  assert (He := write_delta_difference et_source_file_id scope _ gen (stored_digests fst scope (newest (generations db)) db)
    fresh (edge_rows db) (wf_edges _ Hwf) Hgen ltac:(lia)).
  assert (Hc := write_delta_difference ut_source_file_id scope _ gen (stored_digests snd scope (newest (generations db)) db)
    (map Some ledger) (unresolved_rows db) (wf_ledger _ Hwf) Hgen ltac:(rewrite length_map; lia)).
  specialize (He ltac:(intros Hscope; eapply trusted_digests; [|exact Hle|exact (proj1 (Hfree Hscope _ _ _ _ _ _ eq_refl El))];
    intros f d; by eapply stored_edges_spec)).
  specialize (Hc ltac:(intros Hscope; eapply trusted_digests; [|exact Hlc|rewrite resolved_all; exact (proj2 (Hfree Hscope _ _ _ _ _ _ eq_refl El))];
    intros f d; by eapply stored_calls_spec)).
  set (erows := write_delta et_source_file_id _ _ _ _ _) in *. set (urows := write_delta ut_source_file_id _ _ _ _ _) in *.
  set (db' := Build_Db _ _ _ _ _ _ _ _ _).
  assert (Hpaths : extends (paths db) (pool st')) by by etrans.
  assert (Hde : ∀ t, is_Some (decode_edge (paths db) t) → decode_edge (pool st') t = decode_edge (paths db) t)
    by (intros t Hsome; apply decode_edge_extends; try done; [apply Hwf|apply Hst']).
  assert (Hju : ∀ t, is_Some (join_texts (paths db) (unresolved_texts db) t) →
    join_texts (pool st') texts t = join_texts (paths db) (unresolved_texts db) t)
    by (intros t Hsome; apply join_texts_extends; try done; [apply Hwf|apply Hst'|apply Hwf]).
  assert (Hdec' : map (decode_edge (pool st')) (resolved fresh) = map Some (sn_edges (snapshot_of w)))
    by (eapply decode_again; [exact Hdec|]; intros t Hsome; apply decode_edge_extends; try done; [apply Hst|apply Hst']).
  assert (Hjoin' : map (join_texts (pool st') texts) (resolved (map Some ledger)) = map Some (sn_calls (snapshot_of w)))
    by (rewrite resolved_all, Hjoin; cbn; by rewrite map_map).
  assert (Hgens : gen ∈ generations db') by (cbn; apply elem_of_app; right; by left).
  split.
  - done.
  - done.
  - done.
  - done.
  - split; cbn [db' generations generation_sequence paths unresolved_texts edge_rows unresolved_rows]; try done; try lia.
    + intros g [Hg|Hg]%elem_of_app; [pose proof (wf_generations _ Hwf g Hg)|apply list_elem_of_singleton in Hg as ->]; pose proof (wf_sequence _ Hwf); lia.
    + apply NoDup_app. split; [apply Hwf|]. split; [|apply NoDup_singleton].
      intros g Hg. rewrite list_elem_of_singleton. pose proof (wf_generations _ Hwf g Hg). lia.
    + pose proof (wf_sequence _ Hwf). lia.
    + apply Hst'.
    + apply He.
    + apply Hc.
    + eapply difference_named; [exact He|exact Hdec'|apply Hwf|exact Hde].
    + eapply difference_named; [exact Hc|exact Hjoin'|apply Hwf|exact Hju].
  - intros g f row Hnew Hrow. apply newest_of in Hnew as [Hg Hmax].
    assert (g = gen) as ->.
    { specialize (Hmax gen Hgens). apply elem_of_app in Hg as [Hg|Hg]; [|by apply list_elem_of_singleton in Hg].
      pose proof (wf_generations _ Hwf g Hg). lia. }
    cbn [db' generation_file_digests edge_rows unresolved_rows] in *. rewrite lookup_insert_eq in Hrow. cbn [default from_option id] in Hrow.
    apply digest_rows_spec in Hrow as [-> ->]. split; apply digest_of_perm, of_file_perm; symmetry; by eapply live_perm.
  - unfold shows, generation_edges, generation_unresolved. rewrite !bool_decide_true by done. cbn [db' paths unresolved_texts edge_rows unresolved_rows].
    split; [|apply omap_some]; rewrite ?(df_now _ _ _ _ _ He), ?(df_now _ _ _ _ _ Hc); by rewrite ?Hdec', ?Hjoin'.
  - intros g s Hg. assert (Hle' : g ≤ generation_sequence db) by (by apply (wf_generations _ Hwf)).
    apply shows_again; [done|apply elem_of_app; by left|by apply (df_before _ _ _ _ _ He)|by apply (df_before _ _ _ _ _ Hc)| |].
    + intros t Hin. apply Hde. apply relation_tuples in Hin as (r & Hr & <-). by apply (wf_edge_names _ Hwf).
    + intros t Hin. apply Hju. apply relation_tuples in Hin as (r & Hr & <-). by apply (wf_ledger_names _ Hwf).
  - by rewrite <- Eo.
  - by exists fresh, ord, st.
  - by exists fresh, ord, st, ledger, texts, st'.
Qed.

End Writing.

(** ** Retention *)

Lemma retire_text held p id : pool_ok p → held id = true → text_of (retire held p) id = text_of p id.
Proof.
  intros Hp Hheld. pose proof (retire_ok held p Hp) as Hp'.
  assert (Hsame : ∀ text, text_of (retire held p) id = Some text ↔ text_of p id = Some text).
  { intros text. rewrite !text_of_spec by done. cbn [retire entries]. rewrite elem_of_filter_bool. cbn. naive_solver. }
  destruct (text_of p id) as [text|]; [by apply Hsame|]. destruct (text_of (retire held p) id) as [text|]; [|done].
  specialize (Hsame text). naive_solver.
Qed.

Section Pruning.

Variables (keep : nat) (held : Z → bool) (db : Db).

Abbreviation kept_count := (Nat.max keep 1).
Abbreviation gen_ids := (generations_desc db).

(** The oldest generation a prune keeps. *)
Definition oldest_kept : Z := at_rank gen_ids (Z.of_nat (kept_count - 1)).

(** The generations a prune keeps: the newest ones. *)
Definition retained : list Z := take kept_count gen_ids.

Lemma gen_ids_perm : gen_ids ≡ₚ generations db.
Proof. apply sort_by_perm. Qed.

Lemma gen_ids_sorted : StronglySorted (λ a b, by_int Z.opp a b = true) gen_ids.
Proof. eapply sort_by_strongly. apply _. Qed.

Lemma retained_above g : (kept_count < length gen_ids)%nat → g ∈ retained → oldest_kept ≤ g.
Proof.
  intros Hlen [i Hi]%list_elem_of_lookup. apply lookup_take_Some in Hi as [Hi Hlt].
  unfold oldest_kept, at_rank. rewrite Nat2Z.id. destruct (lookup_lt_is_Some_2 gen_ids (kept_count - 1) ltac:(lia)) as [m Hm].
  rewrite Hm. cbn [default from_option id]. destruct (decide (i = kept_count - 1)%nat) as [->|Hne]; [rewrite Hm in Hi; injection Hi; lia|].
  pose proof (sorted_lookup_lt _ _ _ _ _ _ gen_ids_sorted Hi Hm ltac:(lia)) as Hle. unfold by_int in Hle. bool_to_prop. lia.
Qed.

Lemma retained_spec g :
  NoDup (generations db) → g ∈ List.filter (λ g, negb (bool_decide (g ∈ drop kept_count gen_ids))) (generations db) ↔ g ∈ retained.
Proof.
  intros Hnd. rewrite elem_of_filter_bool, negb_true_iff, bool_decide_eq_false, <- gen_ids_perm.
  rewrite <- gen_ids_perm in Hnd. unfold retained. revert Hnd. rewrite <- (take_drop kept_count gen_ids) at 1 2.
  intros (Hn1 & Happ & Hn2)%NoDup_app. rewrite elem_of_app. split; [naive_solver|]. intros Hg. split; [by left|by apply Happ].
Qed.

Lemma deleted_lookup {A} (digests : gmap Z A) l g : (g ∉ l) → foldl (λ m g, delete g m) digests l !! g = digests !! g.
Proof.
  revert digests. induction l as [|x l IH]; intros digests; [done|]. rewrite not_elem_of_cons. intros [Hne Hl]. cbn [foldl].
  by rewrite IH, lookup_delete_ne.
Qed.

Lemma names_edge digests erows urows r :
  r ∈ erows → names_path held digests erows urows (et_source_file_id (tuple r)) = true
              ∧ names_path held digests erows urows (et_target_file_id (tuple r)) = true.
Proof.
  intros Hr. unfold names_path. rewrite !orb_true_iff, !existsb_true. split; left; right; exists r; split; try done.
  all: rewrite orb_true_iff, !Z.eqb_eq; naive_solver.
Qed.

Lemma names_call digests erows urows r :
  r ∈ urows → names_path held digests erows urows (ut_source_file_id (tuple r)) = true
              ∧ names_text urows (ut_reason_id (tuple r)) = true ∧ names_text urows (ut_classification_id (tuple r)) = true.
Proof.
  intros Hr. unfold names_path, names_text. rewrite !orb_true_iff, !existsb_true. split; [right|split]; exists r; split; try done.
  all: rewrite ?orb_true_iff, !Z.eqb_eq; naive_solver.
Qed.

(** What a prune leaves. *)
Record pruned (db' : Db) : Prop := {
  pr_generations : ∀ g, g ∈ generations db' ↔ g ∈ retained;
  pr_well_formed : well_formed db';
  pr_sequence : generation_sequence db' = generation_sequence db;
  pr_edges : live_tuples (edge_rows db') = live_tuples (edge_rows db);
  pr_calls : live_tuples (unresolved_rows db') = live_tuples (unresolved_rows db);
  pr_shows : ∀ g s, g ∈ generations db' → shows db g s → shows db' g s;
  pr_digests : ∀ g, g ∈ generations db' → generation_file_digests db' !! g = generation_file_digests db !! g;
}.

Lemma prune_spec : well_formed db → pruned (prune_generations keep held db).2.
Proof.
  intros Hwf. unfold prune_generations. destruct (Nat.leb_spec (length gen_ids) kept_count) as [Hfew|Hmany]; cbn [snd].
  { split; try done. intros g. unfold retained. by rewrite take_ge, gen_ids_perm by done. }
  fold oldest_kept. set (digests := foldl _ (generation_file_digests db) _). set (erows := drop_closed oldest_kept (edge_rows db)).
  set (urows := drop_closed oldest_kept (unresolved_rows db)). set (np := names_path held digests erows urows).
  assert (Herows : ∀ r, r ∈ erows → r ∈ edge_rows db) by (by intros r [Hr _]%elem_of_filter_bool).
  assert (Hurows : ∀ r, r ∈ urows → r ∈ unresolved_rows db) by (by intros r [Hr _]%elem_of_filter_bool).
  assert (Hde : ∀ r, r ∈ erows → decode_edge (retire np (paths db)) (tuple r) = decode_edge (paths db) (tuple r)).
  { intros r Hr. destruct (names_edge digests erows urows r Hr) as [H1 H2]. unfold decode_edge. by rewrite !retire_text by (done || apply Hwf). }
  assert (Hju : ∀ r, r ∈ urows → join_texts (retire np (paths db)) (retire (names_text urows) (unresolved_texts db)) (tuple r)
                                 = join_texts (paths db) (unresolved_texts db) (tuple r)).
  { intros r Hr. destruct (names_call digests erows urows r Hr) as (H1 & H2 & H3). unfold join_texts. by rewrite !retire_text by (done || apply Hwf). }
  split; cbn [generations generation_sequence paths unresolved_texts edge_rows unresolved_rows generation_file_digests].
  - intros g. apply retained_spec, Hwf.
  - split; cbn [generations generation_sequence paths unresolved_texts edge_rows unresolved_rows generation_file_digests].
    + intros g [Hg _]%elem_of_filter_bool. by apply Hwf.
    + rewrite <- (map_id (List.filter _ _)). apply nodup_map_filter. rewrite map_id. apply (wf_distinct _ Hwf).
    + apply (wf_sequence _ Hwf).
    + apply retire_ok, Hwf.
    + apply retire_ok, Hwf.
    + apply drop_closed_ranged, Hwf.
    + apply drop_closed_ranged, Hwf.
    + intros r Hr. rewrite Hde by done. by apply (wf_edge_names _ Hwf), Herows.
    + intros r Hr. rewrite Hju by done. by apply (wf_ledger_names _ Hwf), Hurows.
  - done.
  - apply drop_closed_live.
  - apply drop_closed_live.
  - intros g s Hg Hs. assert (Habove := Hg). rewrite (retained_spec g (wf_distinct _ Hwf)) in Habove. apply (retained_above g Hmany) in Habove.
    pose proof Hg as [Hg0 _]%elem_of_filter_bool.
    assert (He := drop_closed_reads oldest_kept g (edge_rows db) Habove). assert (Hu := drop_closed_reads oldest_kept g (unresolved_rows db) Habove).
    revert Hs. apply shows_again; [done|done|exact He|exact Hu| |].
    + intros t Ht. rewrite <- He in Ht. apply relation_tuples in Ht as (r & Hr & <-). by apply Hde.
    + intros t Ht. rewrite <- Hu in Ht. apply relation_tuples in Ht as (r & Hr & <-). by apply Hju.
  - intros g [_ Hg]%elem_of_filter_bool. apply deleted_lookup. rewrite negb_true_iff, bool_decide_eq_false in Hg. done.
Qed.

Lemma retained_newest g : newest retained = Some g → newest (generations db) = Some g.
Proof.
  intros [Hin Hmax]%newest_of. destruct gen_ids as [|m l] eqn:E.
  { unfold retained in Hin. rewrite E in Hin. rewrite take_nil in Hin. by apply not_elem_of_nil in Hin. }
  assert (Hm : m ∈ retained) by (unfold retained; rewrite E; destruct kept_count eqn:Ek; [lia|by left]).
  assert (Hall : ∀ x, x ∈ generations db → x ≤ m).
  { intros x Hx. rewrite <- gen_ids_perm in Hx. pose proof gen_ids_sorted as Hs. rewrite E in Hx, Hs. apply elem_of_cons in Hx as [->|Hx]; [done|].
    apply StronglySorted_inv in Hs as [_ Hs]. rewrite Forall_forall in Hs. specialize (Hs x Hx). unfold by_int in Hs. bool_to_prop. lia. }
  assert (Hsub : ∀ x, x ∈ retained → x ∈ generations db).
  { intros x Hx. rewrite <- gen_ids_perm. unfold retained in Hx. rewrite <- (take_drop kept_count gen_ids). apply elem_of_app. by left. }
  assert (g = m) as ->; [|apply newest_is; [by apply Hsub|done]].
  apply Z.le_antisymm; [by apply Hall, Hsub|by apply Hmax].
Qed.

End Pruning.

(** ** What a write can be refused for *)

Section Totality.

Context `{GitReads.DebugTable}.

(** The interning of [n] more paths does not exhaust their ids. *)
Lemma cached_total st path n :
  paths_ok st → sequence (pool st) + 1 + n ≤ u32_max → 0 ≤ n →
  ∃ id st', ensure_path_id_cached st path = Ok (id, st') ∧ paths_ok st' ∧ sequence (pool st') + n ≤ u32_max.
Proof.
  intros Hst Hroom Hn. assert (Hread : ∀ p id, pool_ok p → sequence p ≤ u32_max → ∀ t, (id, t) ∈ entries p → read_u32 id = Ok id).
  { intros p id Hp Hs t Hin. pose proof (pl_bound _ Hp _ Hin) as Hb. cbn in Hb. unfold read_u32.
    rewrite (proj2 (Z.leb_le 0 id)), (proj2 (Z.leb_le id u32_max)) by lia. done. }
  destruct (ensure_path_id_cached st path) as [[id st']|e] eqn:E.
  - exists id, st'. split; [done|]. pose proof E as E'. apply cached_spec in E' as (Hst' & _ & _); [|done]. split; [done|].
    revert E. unfold ensure_path_id_cached, ensure_path_id. destruct (memo st !! path); [intros [= <- <-]; lia|].
    destruct (select_id (pool st) path) as [i|]; [destruct (read_u32 i); [intros [= <- <-]; cbn; lia|done]|].
    destruct (ok_or _ _) as [i|]; [|done]. destruct (read_u32 i); [|done]. intros [= <- <-]. cbn. lia.
  - exfalso. revert E. unfold ensure_path_id_cached, ensure_path_id. destruct (memo st !! path); [done|]. destruct Hst as [Hp Hm].
    destruct (select_id (pool st) path) as [i|] eqn:Es.
    + apply select_id_spec in Es; [|done]. rewrite (Hread _ _ Hp ltac:(lia) _ Es). done.
    + pose proof (insert_text_ok _ path Hp (select_id_None _ _ Hp Es)) as Hp'.
      assert (Hin : (sequence (pool st) + 1, path) ∈ entries (insert_text (pool st) path)) by (cbn; apply elem_of_app; right; by left).
      rewrite (proj2 (select_id_spec _ _ _ Hp') Hin). cbn [ok_or]. rewrite (Hread _ _ Hp' ltac:(cbn; lia) _ Hin). done.
Qed.

(** The documents are written unless one of them cannot be. *)
Lemma write_payloads_total serialize l st n :
  paths_ok st → sequence (pool st) + Z.of_nat (length l) + n ≤ u32_max → 0 ≤ n →
  match write_payloads serialize l st with
  | Ok st' => (∀ ex, ex ∈ l → serialize ex = Ok tt) ∧ paths_ok st' ∧ sequence (pool st') + n ≤ u32_max
  | Err e => ∃ ex error, ex ∈ l ∧ serialize ex = Err error ∧ e = PayloadRefused error
  end.
Proof.
  revert st. induction l as [|ex l IH]; intros st Hst Hroom Hn; cbn [write_payloads length] in *.
  { split; [by intros ? ?%not_elem_of_nil|]. split; [done|lia]. }
  destruct (serialize ex) as [[]|error] eqn:E; [|exists ex, error; split; [by left|done]].
  destruct (cached_total st (file_path ex) (Z.of_nat (length l) + n) Hst ltac:(lia) ltac:(lia)) as (id & st1 & -> & Hst1 & Hroom1).
  specialize (IH st1 Hst1 ltac:(lia) Hn). destruct (write_payloads serialize l st1) as [st'|e].
  - destruct IH as [Hall Hok]. split; [|done]. intros ex' [->|Hex]%elem_of_cons; [done|by apply Hall].
  - destruct IH as (ex' & error & Hex & Herr). exists ex', error. split; [by right|done].
Qed.

Lemma edge_ids_total deleted edges ord st n :
  paths_ok st → sequence (pool st) + 2 * Z.of_nat (length edges) + n ≤ u32_max → 0 ≤ n →
  ∃ ids ord' st', edge_ids deleted edges ord st = Ok (ids, ord', st') ∧ paths_ok st' ∧ sequence (pool st') + n ≤ u32_max.
Proof.
  revert ord st. induction edges as [|e edges IH]; intros ord st Hst Hroom Hn; cbn [edge_ids length] in *.
  { exists [], ord, st. split; [done|]. split; [done|lia]. }
  case_if.
  - destruct (IH ord st Hst ltac:(lia) Hn) as (ids & ord' & st' & -> & Hst' & Hroom'). by exists (None :: ids), ord', st'.
  - destruct (cached_total st (source_file e) (1 + 2 * Z.of_nat (length edges) + n) Hst ltac:(lia) ltac:(lia)) as (i & st1 & -> & Hst1 & Hroom1).
    destruct (cached_total st1 (target_file e) (2 * Z.of_nat (length edges) + n) Hst1 ltac:(lia) ltac:(lia)) as (j & st2 & -> & Hst2 & Hroom2).
    destruct (IH (as_u32 (ord + 1)) st2 Hst2 ltac:(lia) Hn) as (ids & ord' & st' & -> & Hst' & Hroom').
    by exists (Some (i, j) :: ids), ord', st'.
Qed.

Lemma slot_for_total s text n :
  slots_ok s → Z.of_nat (length (slot_text s)) + 1 + n ≤ u32_max → 0 ≤ n →
  ∃ slot s', slot_for s text = Ok (slot, s') ∧ slots_ok s' ∧ Z.of_nat (length (slot_text s')) + n ≤ u32_max.
Proof.
  intros Hs Hroom Hn. destruct (slot_for s text) as [[slot s']|e] eqn:E.
  - exists slot, s'. split; [done|]. pose proof E as E'. apply slot_for_spec in E' as (Hs' & _); [|done]. split; [done|].
    revert E. unfold slot_for. destruct (slot_of_text s !! text); [intros [= <- <-]; lia|]. case_if; [done|].
    intros [= <- <-]. cbn [slot_text]. rewrite length_app. cbn [length]. lia.
  - exfalso. revert E. unfold slot_for. destruct (slot_of_text s !! text); [done|]. case_if; [bool_to_prop; lia|done].
Qed.

Lemma slot_rows_total rows slots paths :
  slots_ok slots → paths_ok paths → Z.of_nat (length (slot_text slots)) + 2 * Z.of_nat (length rows) ≤ u32_max →
  sequence (pool paths) + Z.of_nat (length rows) ≤ u32_max →
  ∃ slotted slots' paths', slot_rows rows (slots, paths) = Ok (slotted, (slots', paths')) ∧ slots_ok slots'.
Proof.
  revert slots paths. induction rows as [|row rows IH]; intros slots paths Hs Hp Hslots Hpaths; cbn [slot_rows length fst snd] in *.
  { by exists [], slots, paths. }
  destruct (slot_for_total slots (debug_resolution (ur_resolution row)) (1 + 2 * Z.of_nat (length rows)) Hs ltac:(lia) ltac:(lia)) as (r & s1 & -> & Hs1 & Hr1).
  destruct (slot_for_total s1 (class_label (ur_class row)) (2 * Z.of_nat (length rows)) Hs1 ltac:(lia) ltac:(lia)) as (c & s2 & -> & Hs2 & Hr2).
  destruct (cached_total paths (ur_source_file row) (Z.of_nat (length rows)) Hp ltac:(lia) ltac:(lia)) as (f & p1 & -> & Hp1 & Hr3).
  destruct (IH s2 p1 Hs2 Hp1 ltac:(lia) ltac:(lia)) as (slotted & slots' & paths' & -> & Hs').
  by eexists _, slots', paths'.
Qed.

Lemma ledger_pass_total rows texts paths :
  pool_ok texts → paths_ok paths → 2 * Z.of_nat (length rows) ≤ u32_max → sequence (pool paths) + Z.of_nat (length rows) ≤ u32_max →
  ∃ r, ledger_pass rows texts paths = Ok r.
Proof.
  intros Ht Hp Hrows Hpaths. unfold ledger_pass.
  destruct (slot_rows_total rows {| slot_of_text := ∅; slot_text := [] |} paths) as (slotted & slots & paths' & -> & Hs); [|done|cbn; lia|done|].
  { split. intros text slot. cbn. rewrite lookup_empty, lookup_nil. naive_solver. }
  destruct (slot_ids_spec slots texts Hs Ht) as (ids & texts' & -> & _). by eexists.
Qed.

End Totality.

End GenStoreFacts.
