(* ===== verification/GenStoreProps.v ===== *)
(** * The store of generations is a history of what was resolved

    Every write that is accepted adds one generation, which reads as what was resolved for
    it; no later write changes it, and a prune only takes the oldest away. A write stores
    the difference and nothing else, restores rows that have gone missing, and what it
    stored is what the edge index reads. *)

From Stdlib Require Import SpecFloat.
From stdpp Require Import relations.
From S2P Require Import Prelude RustStr RustStrFacts Order CodeEdges EdgeIndex EdgeIndexFacts EdgeIndexProps GitReads Pending Ranges RangesFacts GenStore GenStoreFacts.
Import Order CodeEdges EdgeIndex EdgeIndexFacts EdgeIndexProps Ranges RangesFacts GenStore GenStoreFacts.

#[local] Open Scope Z_scope.

Module GenStoreProps.

Section Store.

Context `{GitReads.DebugTable} `{Hashes EdgeTuple} `{Hashes UnresolvedTuple} `{Discovery.Files} `{Grammars}.

(** ** What a write is checked for *)

Lemma first_duplicate_spec seen l :
  match first_duplicate seen l with
  | Some path => (path ∈ l ∧ path ∈ seen) ∨ ∃ a b c, l = a ++ path :: b ++ path :: c
  | None => NoDup l ∧ ∀ path, path ∈ l → (path ∉ seen)
  end.
Proof.
  revert seen. induction l as [|x l IH]; intros seen; cbn [first_duplicate]; [split; [constructor|by intros ? ?%not_elem_of_nil]|].
  case_bool_decide as Hx; [left; split; [by left|done]|].
  specialize (IH (x :: seen)). destruct (first_duplicate (x :: seen) l) as [path|].
  - destruct IH as [[Hin [->|Hs]%elem_of_cons]|(a & b & c & ->)].
    + right. apply list_elem_of_split in Hin as (b & c & ->). by exists [], b, c.
    + left. split; [by right|done].
    + right. by exists (x :: a), b, c.
  - destruct IH as [Hnd Hno]. setoid_rewrite not_elem_of_cons in Hno. rewrite NoDup_cons. split.
    + split; [|done]. intros Hin. by destruct (Hno x Hin).
    + intros path. rewrite elem_of_cons. intros [->|Hin]; [done|]. by apply Hno.
Qed.

(** A commit id as a write takes it: some text of at most 128 bytes without white space. *)
Definition plausible_sha (head_sha : str) : Prop :=
  head_sha ≠ [] ∧ str_len head_sha ≤ 128 ∧ ∀ c, c ∈ head_sha → is_whitespace c = false.

(** What is wrong with a write to a store, for each error it can be refused with. *)
Inductive faulty (db : Db) (w : Write) : WriteError → Prop :=
  | FThreads : w_threads w = 0 → faulty db w NoThreads
  | FReadOnly : w_read_only w = true → faulty db w StoreIsReadOnly
  | FHead : ¬ plausible_sha (w_head_sha w) → faulty db w BadHeadSha
  | FDuplicate path a b c : extraction_paths w = a ++ path :: b ++ path :: c → faulty db w (DuplicateExtraction path)
  | FUnaccounted path count :
      path ∈ w_affected w → (path ∉ extraction_paths w) → (path ∉ w_deleted w) → 1 ≤ count → faulty db w (UnaccountedPaths count path)
  | FUnresolved root e : w_repo_root w = Some root → Pending.normalized_repo_root root = Err e → faulty db w (RootRefused e)
  | FRoot root canonical e :
      w_repo_root w = Some root → Pending.normalized_repo_root root = Ok canonical →
      Pending.bind_repo_root_in canonical (queue db) = Err e → faulty db w (RootRefused e)
  | FAnalysis e : w_serialize_analysis w = Err e → faulty db w (AnalysisNotSerialized e)
  | FStale row count :
      row ∈ untouched_rows db w (latest_generation db) → identity_matches row = false →
      (fr_path row ∉ extraction_paths w) → 1 ≤ count → faulty db w (CannotCarry count (fr_path row))
  | FPayload ex e :
      ex ∈ fresh db w (latest_generation db) → w_serialize w ex = Err e → faulty db w (PayloadRefused e)
  | FEdges stored :
      stored = Z.of_nat (length (sn_edges (snapshot_of w))) → stored ≠ w_total_edges w →
      faulty db w (EdgeCountMismatch stored (w_total_edges w))
  | FOverLimit : over_limit_paths w ≠ analysed_over_limit w → faulty db w (OverLimitMismatch (over_limit_paths w) (analysed_over_limit w))
  | FRefusals : measured_refusals w ≠ w_analysed_refusals w → faulty db w (RefusalsMismatch (measured_refusals w) (w_analysed_refusals w))
  | FDead : u32_max + 1 < w_dead_symbols w → faulty db w TooManyDeadSymbols.

Lemma validate_head_sha_spec head_sha :
  match validate_head_sha head_sha with Ok _ => plausible_sha head_sha | Err e => e = BadHeadSha ∧ ¬ plausible_sha head_sha end.
Proof.
  unfold validate_head_sha, plausible_sha. destruct (bool_decide _ || _ || _) eqn:E.
  - split; [done|]. intros (Hne & Hlen & Hsp). rewrite !orb_true_iff, bool_decide_eq_true, Z.ltb_lt in E.
    destruct E as [[?|?]|(c & Hc & Hw)%existsb_true]; [done|lia|]. by rewrite (Hsp c Hc) in Hw.
  - bool_to_prop. split; [done|]. split; [done|]. intros c Hc. destruct (is_whitespace c) eqn:Ew; [|done].
    assert (Hx : existsb is_whitespace head_sha = true) by (apply existsb_true; by exists c). congruence.
Qed.

(** The checks before the transaction. *)
Lemma check_write_spec db w :
  match check_write w with
  | Ok _ => w_threads w ≠ 0 ∧ w_read_only w = false ∧ plausible_sha (w_head_sha w) ∧ NoDup (extraction_paths w)
            ∧ ∀ path, path ∈ w_affected w → path ∈ extraction_paths w ∨ path ∈ w_deleted w
  | Err e => faulty db w e
  end.
Proof.
  unfold check_write. destruct (Z.eqb_spec (w_threads w) 0); [by constructor|]. destruct (w_read_only w) eqn:Er; [by constructor|].
  pose proof (validate_head_sha_spec (w_head_sha w)) as Hh. destruct (validate_head_sha _) as [[]|]; [|destruct Hh as [-> ?]; by constructor].
  pose proof (first_duplicate_spec [] (extraction_paths w)) as Hdup. destruct (first_duplicate _ _) as [path|].
  { destruct Hdup as [[_ Hin]|(a & b & c & Heq)]; [by apply not_elem_of_nil in Hin|by eapply FDuplicate]. }
  set (p := λ path, _ && _). destruct (List.filter p (w_affected w)) as [|first rest] eqn:E.
  - do 3 (split; [done|]). split; [by destruct Hdup|]. intros path Hin. destruct (decide (path ∈ extraction_paths w)) as [|H1']; [by left|].
    destruct (decide (path ∈ w_deleted w)) as [|H2']; [by right|]. assert (Hp : path ∈ List.filter p (w_affected w)).
    { apply elem_of_filter_bool. split; [done|]. unfold p. by rewrite !bool_decide_false. }
    rewrite E in Hp. by apply not_elem_of_nil in Hp.
  - assert (Hp : first ∈ List.filter p (w_affected w)) by (rewrite E; by left).
    apply elem_of_filter_bool in Hp as [Hin Hp]. unfold p in Hp. bool_to_prop. constructor; try done. lia.
Qed.

Lemma bind_root_spec db w :
  match bind_root w (queue db) with
  | Ok _ => ∀ root, w_repo_root w = Some root →
              ∃ canonical, Pending.normalized_repo_root root = Ok canonical ∧ is_ok (Pending.bind_repo_root_in canonical (queue db)) = true
  | Err e => faulty db w e
  end.
Proof.
  unfold bind_root. destruct (w_repo_root w) as [root|] eqn:Er; [|done].
  destruct (Pending.normalized_repo_root root) as [canonical|e] eqn:En; [|by eapply FUnresolved].
  destruct (Pending.bind_repo_root_in canonical (queue db)) as [[? ?]|e] eqn:Eb; [|by eapply FRoot].
  intros ? [= <-]. exists canonical. by rewrite Eb.
Qed.

Lemma check_coverage_spec db w :
  match check_coverage w with
  | Ok _ => over_limit_paths w = analysed_over_limit w ∧ measured_refusals w = w_analysed_refusals w
  | Err e => faulty db w e
  end.
Proof. unfold check_coverage. do 2 (case_decide; [|by constructor]). done. Qed.

(** ** Histories *)

(** The generations a store retains, oldest first, each with what was resolved for it. *)
Abbreviation History := (list (Z * Snapshot)) (only parsing).

Definition keep_last (keep : nat) (h : History) : History := drop (length h - Nat.max keep 1) h.

(** The queue of the same store, whatever its own calls made of it. *)
Definition with_queue (q : Pending.Queue) (db : Db) : Db :=
  {| queue := q; generations := generations db; generation_sequence := generation_sequence db;
     generation_files := generation_files db; paths := paths db; unresolved_texts := unresolved_texts db;
     edge_rows := edge_rows db; unresolved_rows := unresolved_rows db; generation_file_digests := generation_file_digests db |}.

(** The calls of the store, beside a log of what was resolved. *)
Inductive step : Db * History → Db * History → Prop :=
  | Commits db h w gen db' :
      small w → collision_free db w (live_tuples (edge_rows db)) (live_tuples (unresolved_rows db)) →
      write_generation db w = Ok (gen, db') → step (db, h) (db', h ++ [(gen, snapshot_of w)])
  | Refuses db h w err : write_generation db w = Err err → step (db, h) (db, h)
  | Prunes db h keep held : step (db, h) ((prune_generations keep held db).2, keep_last keep h)
  | Queues db h q : step (db, h) (with_queue q db, h).

Definition reachable (db : Db) (h : History) : Prop := rtc step (empty_db, []) (db, h).

(** What holds of a store and its log. *)
Record agrees (db : Db) (h : History) : Prop := {
  ag_well_formed : well_formed db;
  ag_recorded : recorded_live db;
  ag_generations : generations db = map fst h;
  ag_ascending : StronglySorted Z.lt (generations db);
  ag_shows : ∀ g s, (g, s) ∈ h → shows db g s;
  ag_files : ∀ g rows, generation_files db !! g = Some rows → NoDup (map fr_path rows);
}.

Lemma ascending_desc l : StronglySorted Z.lt l → sort_by (by_int Z.opp) l = rev l.
Proof.
  intros Hs. apply (StronglySorted_unique_strong (λ a b, by_int Z.opp a b = true)).
  - intros a b _ _ Ha Hb. unfold by_int in *. bool_to_prop. lia.
  - eapply sort_by_strongly. apply _.
  - induction Hs as [|x l Hs IH Hx]; [constructor|]. cbn [rev].
    assert (Happ : ∀ k, StronglySorted (λ a b, by_int Z.opp a b = true) k → (∀ y, y ∈ k → x < y) →
      StronglySorted (λ a b, by_int Z.opp a b = true) (k ++ [x])).
    { clear. induction 1 as [|y k Hk IH Hy]; intros Hlt; cbn [app]; [repeat constructor|].
      constructor; [apply IH; intros z Hz; apply Hlt; by right|]. apply Forall_app. split; [done|].
      apply Forall_singleton. unfold by_int. apply Z.leb_le. specialize (Hlt y ltac:(by left)). lia. }
    apply Happ; [done|]. intros y Hy. rewrite elem_of_rev in Hy. rewrite Forall_forall in Hx.
    by apply Hx.
  - rewrite sort_by_perm. apply Permutation_rev.
Qed.

(** Leaving out the oldest leaves the newest. *)
Lemma filter_oldest (l : list Z) n : NoDup l → List.filter (λ g, negb (bool_decide (g ∈ take n l))) l = drop n l.
Proof.
  intros Hn. set (p := λ g, negb (bool_decide (g ∈ take n l))). transitivity (List.filter p (take n l ++ drop n l)); [by rewrite take_drop|].
  rewrite List.filter_app. rewrite <- (take_drop n l) in Hn. apply NoDup_app in Hn as (_ & Hn & _).
  rewrite filter_false, filter_all; [done| |].
  - intros g Hg. apply negb_true_iff, bool_decide_eq_false. intros Hin. by apply (Hn g).
  - intros g Hg. unfold p. by rewrite bool_decide_true.
Qed.

Lemma prune_generations_are db keep held h :
  agrees db h → generations (prune_generations keep held db).2 = map fst (keep_last keep h).
Proof.
  intros Ha. unfold prune_generations, keep_last. assert (Hg := ag_generations _ _ Ha).
  assert (Hlen : length (generations_desc db) = length h) by (unfold generations_desc; by rewrite length_sort_by, Hg, length_map).
  destruct (Nat.leb_spec (length (generations_desc db)) (Nat.max keep 1)) as [Hfew|Hmany]; cbn [snd generations].
  - rewrite Hg. f_equal. by replace (length h - Nat.max keep 1)%nat with 0%nat by lia.
  - unfold generations_desc in *. rewrite (ascending_desc _ (ag_ascending _ _ Ha)) in *. rewrite length_rev in *.
    rewrite <- (filter_agree (λ g, negb (bool_decide (g ∈ take (length h - Nat.max keep 1) (generations db))))).
    + rewrite filter_oldest by apply (wf_distinct _ (ag_well_formed _ _ Ha)). by rewrite Hg, <- skipn_map.
    + intros g _. do 2 f_equal. apply bool_decide_ext. rewrite <- Hlen, skipn_rev. by rewrite elem_of_rev.
Qed.

Lemma ascending_snoc l g : StronglySorted Z.lt l → (∀ x, x ∈ l → x < g) → StronglySorted Z.lt (l ++ [g]).
Proof.
  induction 1 as [|x l Hs IH Hx]; intros Hlt; cbn [app]; [repeat constructor|].
  constructor; [apply IH; intros y Hy; apply Hlt; by right|]. apply Forall_app. split; [done|].
  apply Forall_singleton, Hlt. by left.
Qed.

Lemma ascending_drop l n : StronglySorted Z.lt l → StronglySorted Z.lt (drop n l).
Proof. revert n. induction l as [|x l IH]; intros [|n] Hs; try done. apply StronglySorted_inv in Hs as [Hs _]. by apply IH. Qed.

Lemma prior_nodup db h prev : agrees db h → NoDup (map fr_path (prior_rows db prev)).
Proof.
  intros Ha. unfold prior_rows. destruct prev as [g|]; [|constructor].
  destruct (generation_files db !! g) as [rows|] eqn:E; [by apply (ag_files _ _ Ha g)|constructor].
Qed.

Lemma deleted_subset {A} (m : gmap Z A) l g x : foldl (λ m g, delete g m) m l !! g = Some x → m !! g = Some x.
Proof.
  revert m. induction l as [|k l IH]; intros m; [done|]. cbn [foldl]. intros Hg%IH. by apply lookup_delete_Some in Hg as [_ ?].
Qed.

Lemma prune_keeps_rows keep held db g rows :
  generation_files (prune_generations keep held db).2 !! g = Some rows → generation_files db !! g = Some rows.
Proof. unfold prune_generations. case_match; cbn [snd generation_files]; [done|apply deleted_subset]. Qed.

Lemma step_agrees db h db' h' : agrees db h → step (db, h) (db', h') → agrees db' h'.
Proof.
  intros Ha. inversion 1 as [? ? w gen ? Hsmall Hfree Hw|? ? w err Hw|? ? keep held|? ? q]; subst; [| done| |by destruct Ha as [[] ? ? ? ? ?]].
  - pose proof (write_spec db w gen db' _ _ (ag_well_formed _ _ Ha) (ag_recorded _ _ Ha) (reflexivity _) (reflexivity _) Hfree Hsmall Hw) as [W1 [W0 _] W2 Wf W3 W4 W5 W6 _ _ _].
    assert (Hfresh : ∀ g, g ∈ generations db → g < gen) by (intros g Hg; pose proof (wf_generations _ (ag_well_formed _ _ Ha) g Hg); lia).
    split; [done|done| | | |].
    + by rewrite W2, (ag_generations _ _ Ha), map_app.
    + rewrite W2. apply ascending_snoc; [apply Ha|done].
    + intros g s. rewrite elem_of_app, list_elem_of_singleton. intros [Hin|[= -> ->]]; [|done].
      apply W6; [|by apply Ha]. rewrite (ag_generations _ _ Ha). apply elem_of_map. by exists (g, s).
    + intros g rows. rewrite Wf. intros [[<- <-]|[_ Hg]]%lookup_insert_Some; [|by apply (ag_files _ _ Ha g)].
      apply file_rows_nodup; [by eapply prior_nodup|]. pose proof (check_write_spec db w) as Hc. rewrite W0 in Hc. apply Hc.
  - pose proof (prune_spec keep held db (ag_well_formed _ _ Ha)) as Hp. pose proof (prune_generations_are db keep held h Ha) as Hg.
    split; [apply Hp| |done| | |].
    + intros g f row Hnew Hrow. rewrite (pr_edges _ _ _ Hp), (pr_calls _ _ _ Hp).
      rewrite (pr_digests _ _ _ Hp) in Hrow by (by apply newest_of in Hnew as [? _]).
      apply (ag_recorded _ _ Ha g f row); [|done]. apply (retained_newest keep). apply newest_of in Hnew as [Hin Hmax].
      apply newest_is; [by apply (pr_generations _ _ _ Hp)|]. intros x Hx. apply Hmax. by apply (pr_generations _ _ _ Hp).
    + rewrite Hg. unfold keep_last. rewrite <- skipn_map, <- (ag_generations _ _ Ha). apply ascending_drop, Ha.
    + intros g s Hin. apply (pr_shows _ _ _ Hp); [rewrite Hg; apply elem_of_map; by exists (g, s)|].
      apply Ha. unfold keep_last in Hin. rewrite <- (take_drop (length h - Nat.max keep 1) h). apply elem_of_app. by right.
    + intros g rows Hrows%prune_keeps_rows. by apply (ag_files _ _ Ha g).
Qed.

Lemma empty_agrees : agrees empty_db [].
Proof.
  split; [apply empty_well_formed|by intros g f row|done|apply SSorted_nil|by intros g s ?%not_elem_of_nil|intros g rows; change (generation_files empty_db) with (∅ : gmap Z (list FileRow)); by rewrite lookup_empty].
Qed.

Lemma reachable_agrees db h : reachable db h → agrees db h.
Proof.
  unfold reachable. intros Hr. change (agrees (db, h).1 (db, h).2).
  refine (rtc_ind_r (λ c, agrees c.1 c.2) (empty_db, []) empty_agrees _ (db, h) Hr).
  intros [db1 h1] [db2 h2] _ Hstep Ha. by eapply step_agrees.
Qed.

(** ** What the store promises *)

(** C2. A store is its history: after any sequence of writes, refused writes and prunes, it
    holds the generations of the log, and the views of each give, edge for edge and call for
    call, what was resolved when it was written. *)
Theorem store_is_its_history db h :
  reachable db h → generations db = map fst h ∧ ∀ g s, (g, s) ∈ h → shows db g s.
Proof. intros Hr%reachable_agrees. split; apply Hr. Qed.

(** Rows of a store may go missing behind its back. *)
Record rows_lost (db db' : Db) : Prop := {
  rl_edges : edge_rows db' `sublist_of` edge_rows db;
  rl_calls : unresolved_rows db' `sublist_of` unresolved_rows db;
  rl_generations : generations db' = generations db;
  rl_sequence : generation_sequence db' = generation_sequence db;
  rl_paths : paths db' = paths db;
  rl_texts : unresolved_texts db' = unresolved_texts db;
  rl_digests : generation_file_digests db' = generation_file_digests db;
}.

Lemma sublist_in {A} (l k : list A) x : l `sublist_of` k → x ∈ l → x ∈ k.
Proof. intros Hs Hx. eapply elem_of_submseteq; [exact Hx|by apply sublist_submseteq]. Qed.

Lemma sublist_map {A B} (f : A → B) l k : l `sublist_of` k → map f l `sublist_of` map f k.
Proof. induction 1; cbn [map]; by constructor. Qed.

Lemma sublist_filter {A} (p : A → bool) l k : l `sublist_of` k → List.filter p l `sublist_of` List.filter p k.
Proof. induction 1 as [|x l k _ IH|x l k _ IH]; cbn [List.filter]; [done| |]; destruct (p x); try done; by constructor. Qed.

Lemma ranged_sublist {T} latest (rows rows' : list (RangeRow T)) : rows' `sublist_of` rows → ranged latest rows → ranged latest rows'.
Proof.
  intros Hs [Hr2 Hr3 Hr4]. split; [by eapply sublist_NoDup; [exact Hr2|apply sublist_map]|intros r Hr|intros r t Hr]; [apply Hr3|apply Hr4]; by eapply sublist_in.
Qed.

Lemma live_sublist {T} (rows rows' : list (RangeRow T)) : rows' `sublist_of` rows → live_tuples rows' ⊆+ live_tuples rows.
Proof.
  intros Hs. by apply sublist_submseteq, sublist_map, sublist_filter.
Qed.

Lemma lost_well_formed db db' : rows_lost db db' → well_formed db → well_formed db'.
Proof.
  intros [L1 L2 L3 L4 L5 L6 _] Hwf. destruct Hwf as [W1 W2 W3 W4 W5 W6 W7 W8 W9]. split; rewrite ?L3, ?L4, ?L5, ?L6; try done.
  - by eapply ranged_sublist.
  - by eapply ranged_sublist.
  - intros r Hr. apply W8. by eapply sublist_in.
  - intros r Hr. apply W9. by eapply sublist_in.
Qed.

(** C11. A write repairs: whatever rows have been deleted behind the store, the next accepted
    write leaves its generation reading as what was resolved, the skipped files included. *)
Theorem lost_rows_are_restored db h db' w gen db'' :
  reachable db h → rows_lost db db' → small w →
  collision_free db' w (live_tuples (edge_rows db)) (live_tuples (unresolved_rows db)) →
  write_generation db' w = Ok (gen, db'') → shows db'' gen (snapshot_of w).
Proof.
  intros Hr%reachable_agrees Hlost Hsmall Hfree Hw.
  refine (wr_shows _ _ _ _ (write_spec db' w gen db'' _ _ _ _ _ _ Hfree Hsmall Hw)).
  - eapply lost_well_formed; [done|apply Hr].
  - intros g f row. rewrite (rl_generations _ _ Hlost), (rl_digests _ _ Hlost). apply (ag_recorded _ _ Hr).
  - apply live_sublist, Hlost.
  - apply live_sublist, Hlost.
Qed.

(** The rows a write opens and closes are those that [wanted] has more of, or fewer of, than
    the live rows, and they are opened in the order of [wanted]. *)
Definition stores_difference {T} `{EqDecision T} (gen : Z) (wanted : list T) (rows rows' : list (RangeRow T)) : Prop :=
  (∀ x, copies (opened_at gen rows') x = (copies wanted x - copies (live_tuples rows) x)%nat
        ∧ copies (closed_at gen rows') x = (copies (live_tuples rows) x - copies wanted x)%nat)
  ∧ opened_at gen rows' `sublist_of` wanted.

Lemma difference_is_stored {T} `{EqDecision T} latest gen fresh (rows rows' : list (RangeRow T)) :
  difference latest gen fresh rows rows' → stores_difference gen (resolved fresh) rows rows'.
Proof.
  intros [_ _ _ (kept & Hlive & Hfresh) Hapart Hsub _]. split; [|done]. intros x.
  destruct (copies_apart _ _ _ _ _ x Hlive Hfresh (Hapart x)) as [Hc Ho]. done.
Qed.

(** C25. What a write adds is the difference: of every edge and every call it inserts exactly
    the copies missing from the rows already valid, in the order they were resolved, and
    closes exactly the copies too many. *)
Theorem only_the_difference_is_written db h w gen db' :
  reachable db h → small w → collision_free db w (live_tuples (edge_rows db)) (live_tuples (unresolved_rows db)) →
  write_generation db w = Ok (gen, db') →
  ∃ edges ord st calls texts st', edge_pass db w = Ok (edges, ord, st)
    ∧ ledger_pass (w_unresolved w) (unresolved_texts db) st = Ok (calls, texts, st')
    ∧ stores_difference gen (resolved edges) (edge_rows db) (edge_rows db')
    ∧ stores_difference gen calls (unresolved_rows db) (unresolved_rows db').
Proof.
  intros Hr%reachable_agrees Hsmall Hfree Hw.
  destruct (write_spec db w gen db' _ _ (ag_well_formed _ _ Hr) (ag_recorded _ _ Hr) (reflexivity _) (reflexivity _) Hfree Hsmall Hw)
    as [_ _ _ _ _ _ _ _ _ (fresh & ord & st & He & Hd) (fresh' & ord' & st1 & ledger & texts & st' & He' & Hl & Hd')].
  rewrite He in He'. injection He' as <- <- <-. exists fresh, ord, st, ledger, texts, st'.
  split; [done|]. split; [done|]. split; [by eapply difference_is_stored|].
  rewrite <- (resolved_all ledger). by eapply difference_is_stored.
Qed.

(** ** Refusals *)

(** There are ids left for a write. *)
Definition room (db : Db) (w : Write) : Prop :=
  generation_sequence db + 1 ≤ u32_max
  ∧ sequence (paths db) + Z.of_nat (length (w_extractions w)) + 2 * Z.of_nat (length (w_edges w)) + Z.of_nat (length (w_unresolved w)) ≤ u32_max
  ∧ 2 * Z.of_nat (length (w_unresolved w)) ≤ u32_max.

Lemma edge_pass_total db w :
  well_formed db →
  sequence (paths db) + Z.of_nat (length (w_extractions w)) + 2 * Z.of_nat (length (w_edges w)) + Z.of_nat (length (w_unresolved w)) ≤ u32_max →
  match edge_pass db w with
  | Ok (_, _, st) => (∀ ex, ex ∈ fresh db w (latest_generation db) → w_serialize w ex = Ok tt) ∧ paths_ok st
                     ∧ sequence (pool st) + Z.of_nat (length (w_unresolved w)) ≤ u32_max
  | Err e => ∃ ex error, ex ∈ fresh db w (latest_generation db) ∧ w_serialize w ex = Err error ∧ e = PayloadRefused error
  end.
Proof.
  intros Hwf Hroom. unfold edge_pass. rewrite (newest_below_all _ Hwf). change (newest (generations db)) with (latest_generation db).
  assert (Hlen : (length (fresh db w (latest_generation db)) ≤ length (w_extractions w))%nat) by apply List.filter_length_le.
  pose proof (write_payloads_total (w_serialize w) (fresh db w (latest_generation db)) {| pool := paths db; memo := ∅ |}
    (2 * Z.of_nat (length (w_edges w)) + Z.of_nat (length (w_unresolved w)))) as Hpay.
  specialize (Hpay ltac:(split; [apply Hwf|done]) ltac:(cbn [pool]; lia) ltac:(lia)).
  destruct (write_payloads _ _ _) as [st0|e]; [|done]. destruct Hpay as (Hser & Hst0 & Hs0).
  destruct (edge_ids_total (w_deleted w) (w_edges w) 0 st0 (Z.of_nat (length (w_unresolved w))) Hst0 ltac:(lia) ltac:(lia))
    as (ids & ord & st1 & -> & Hst1 & Hs1). done.
Qed.

(** C17. A write is refused for what is wrong with it and for nothing else: while ids are
    left, the error it fails with names a fault it has, and a write without faults is
    accepted. *)
Theorem refusals_are_exact db h w :
  reachable db h → small w → room db w →
  match write_generation db w with
  | Ok _ => ∀ e, ¬ faulty db w e
  | Err e => faulty db w e
  end.
Proof.
  intros Hr%reachable_agrees Hsmall (Hroom1 & Hroom2 & Hroom3). pose proof (ag_well_formed _ _ Hr) as Hwf.
  pose proof (check_write_spec db w) as Hcheck. unfold write_generation. destruct (check_write w) as [[]|e]; [|done].
  pose proof (bind_root_spec db w) as Hbind. destruct (bind_root w _) as [q|e]; [|done].
  destruct (w_serialize_analysis w) as [[]|e] eqn:Ea; [|by constructor].
  rewrite (proj2 (Z.leb_le _ _)), (newest_below_all _ Hwf) by done. change (newest (generations db)) with (latest_generation db).
  pose proof (check_carry_spec db w (latest_generation db)) as Hcarry.
  destruct (check_carry _ _ _) as [[]|e]; [|destruct Hcarry as (count & row & -> & ? & ? & ? & ?); by constructor].
  pose proof (edge_pass_total db w Hwf ltac:(lia)) as Hpass.
  destruct (edge_pass db w) as [[[edges ord] st]|e] eqn:He; [|destruct Hpass as (ex & error & Hex & Herr & ->); by eapply FPayload].
  destruct Hpass as (Hser & Hst & Hs). pose proof (edge_pass_spec _ _ _ _ _ (wf_paths _ Hwf) Hsmall He) as (_ & _ & _ & _ & Hord).
  destruct (Z.eqb_spec ord (w_total_edges w)) as [Heq|Hne]; cbn [negb]; [|by constructor].
  pose proof (check_coverage_spec db w) as Hcov. destruct (check_coverage w) as [[]|e]; [|done].
  unfold check_dead_symbols. destruct (Z.ltb_spec (u32_max + 1) (w_dead_symbols w)) as [|Hdead]; [by constructor|].
  destruct (ledger_pass_total (w_unresolved w) (unresolved_texts db) st) as [[[ledger texts] st'] ->]; [apply Hwf|done|lia|lia|].
  destruct Hcheck as (Hthreads & Hro & Hsha & Hnd & Haff), Hcov as [Hover Href].
  intros e Hf. destruct Hf as [| | |path a b c Hsplit|path count Hin Hx Hd ?|root e Hroot Hbad|root canonical e Hroot Hnorm Hbad|
    |row count Hrow Hid Hx ?|ex e Hex Hbad| | | |]; try done; try congruence; try lia.
  - rewrite Hsplit in Hnd. apply NoDup_app in Hnd as (_ & _ & [Hno _]%NoDup_cons). apply Hno, elem_of_app. right. by left.
  - by destruct (Haff path Hin).
  - destruct (Hbind root Hroot) as (canonical & Hnorm & _). congruence.
  - destruct (Hbind root Hroot) as (canonical' & Hnorm' & Hok). assert (canonical' = canonical) as -> by congruence.
    by rewrite Hbad in Hok.
  - apply Hx. by apply Hcarry.
  - specialize (Hser ex Hex). congruence.
Qed.

(** ** The files of a generation *)

(** A file in a generation: what the latest one has of a path. *)
Definition latest_files (db : Db) : list FileRow := prior_rows db (latest_generation db).

(** The generation an accepted write leaves has one row for each file it was given and for
    each file of the generation before that was not deleted, and no other: no file goes
    missing undeclared. Each row was made by this build, and is of the bytes extracted
    whenever its file was extracted. *)
Theorem no_file_goes_missing db h w gen db' :
  reachable db h → small w → collision_free db w (live_tuples (edge_rows db)) (live_tuples (unresolved_rows db)) →
  write_generation db w = Ok (gen, db') →
  let files := default [] (generation_files db' !! gen) in
  NoDup (map fr_path files)
  ∧ (∀ path, path ∈ map fr_path files ↔
       (path ∉ w_deleted w)
       ∧ (path ∈ extraction_paths w ∨ full_rewrite w = false ∧ path ∈ map fr_path (latest_files db)))
  ∧ ∀ row, row ∈ files → identity_matches row = true
      ∧ ∀ ex, ex ∈ w_extractions w → file_path ex = fr_path row → fr_content_hash row = as_i64 (content_hash ex).
Proof.
  intros Hr%reachable_agrees Hsmall Hfree Hw.
  destruct (write_spec db w gen db' _ _ (ag_well_formed _ _ Hr) (ag_recorded _ _ Hr) (reflexivity _) (reflexivity _) Hfree Hsmall Hw)
    as [_ [Hcheck Hcarry] _ Hfiles _ _ _ _ _ _ _].
  pose proof (check_write_spec db w) as Hc. rewrite Hcheck in Hc. destruct Hc as (_ & _ & _ & Hnd & Haff).
  pose proof (check_carry_spec db w (newest (generations db))) as Hs. rewrite Hcarry in Hs.
  unfold latest_files. change (latest_generation db) with (newest (generations db)). set (prev := newest (generations db)) in *.
  pose proof (prior_nodup db h prev Hr) as Hprior. rewrite Hfiles, lookup_insert_eq. cbn [default from_option id]. split; [by apply file_rows_nodup|].
  split; [intros path; split|].
  - intros (row & -> & Hrow)%elem_of_map. apply file_rows_spec in Hrow as [(Hrow & Hid & Hcont)|(ex & Hex & ->)]; [| |done].
    + apply untouched_spec in Hrow as (Hfull & Hin & Hdel & _). split; [done|]. right. split; [done|]. apply elem_of_map. by exists row.
    + apply fresh_spec in Hex as (Hex & _ & Hdel). rewrite fresh_row_path. split; [done|]. left. apply elem_of_map. by exists ex.
  - intros [Hdel Hor]. by apply path_has_row.
  - intros row Hrow. apply file_rows_spec in Hrow as [(Hrow & Hid & Hcont)|(ex & Hex & ->)]; [| |done].
    + split; [done|]. intros ex Hex Hp. by apply (content_spec w).
    + split; [apply fresh_row_current|]. intros ex' Hex' Hp. apply fresh_spec in Hex as (Hex & _).
      rewrite fresh_row_path in Hp. by rewrite (same_extraction w ex' ex Hnd Hex' Hex Hp).
Qed.

(** ** Retention *)

(** A prune takes only what nothing can read: a row goes exactly when no generation from
    the oldest kept one on reads it, a path or a text exactly when no table names it; and
    every row that stays has its texts. *)
Theorem prunes_take_only_the_unreadable db h keep held :
  reachable db h → (Nat.max keep 1 < length h)%nat →
  let db' := (prune_generations keep held db).2 in
  (∀ r, r ∈ edge_rows db → (r ∉ edge_rows db') ↔ ∀ g, oldest_kept keep db ≤ g → valid_at g r = false)
  ∧ (∀ r, r ∈ unresolved_rows db → (r ∉ unresolved_rows db') ↔ ∀ g, oldest_kept keep db ≤ g → valid_at g r = false)
  ∧ (∀ e, e ∈ entries (paths db') ↔ e ∈ entries (paths db)
          ∧ (held e.1 = true ∨ (∃ g row, generation_file_digests db' !! g = Some row ∧ is_Some (row !! e.1))
             ∨ (∃ r, r ∈ edge_rows db' ∧ (et_source_file_id (tuple r) = e.1 ∨ et_target_file_id (tuple r) = e.1))
             ∨ (∃ r, r ∈ unresolved_rows db' ∧ ut_source_file_id (tuple r) = e.1)))
  ∧ (∀ e, e ∈ entries (unresolved_texts db') ↔ e ∈ entries (unresolved_texts db)
          ∧ ∃ r, r ∈ unresolved_rows db' ∧ (ut_reason_id (tuple r) = e.1 ∨ ut_classification_id (tuple r) = e.1))
  ∧ well_formed db'.
Proof.
  intros Hr%reachable_agrees Hlen db'. pose proof (ag_well_formed _ _ Hr) as Hwf.
  pose proof (prune_spec keep held db Hwf) as Hp. fold db' in Hp.
  assert (Hmany : (Nat.max keep 1 < length (generations_desc db))%nat).
  { unfold generations_desc. by rewrite length_sort_by, (ag_generations _ _ Hr), length_map. }
  assert (Hdb : db' = (prune_generations keep held db).2) by done. clearbody db'. unfold prune_generations in Hdb.
  rewrite (proj2 (Nat.leb_gt _ _)) in Hdb by done. cbn [snd] in Hdb.
  assert (Hedges : edge_rows db' = drop_closed (oldest_kept keep db) (edge_rows db)) by by rewrite Hdb.
  assert (Hcalls : unresolved_rows db' = drop_closed (oldest_kept keep db) (unresolved_rows db)) by by rewrite Hdb.
  assert (Hpaths : paths db' = retire (names_path held (generation_file_digests db') (edge_rows db') (unresolved_rows db')) (paths db))
    by by rewrite Hdb.
  assert (Htexts : unresolved_texts db' = retire (names_text (unresolved_rows db')) (unresolved_texts db)) by by rewrite Hdb.
  split; [|split; [|split; [|split]]].
  - intros r Hin. rewrite Hedges. by eapply drop_closed_exact, Hin; apply Hwf.
  - intros r Hin. rewrite Hcalls. by eapply drop_closed_exact, Hin; apply Hwf.
  - intros e. rewrite Hpaths. cbn [retire entries]. rewrite elem_of_filter_bool. apply and_iff_compat_l. unfold names_path.
    rewrite !orb_true_iff, !existsb_true. setoid_rewrite orb_true_iff. setoid_rewrite Z.eqb_eq. split.
    + intros [[[?|([g row] & Hg & Hrow)]|?]|?]; [by left|right; left|right; right; left|right; right; right]; try done.
      apply elem_of_map_to_list in Hg. bool_to_prop. by exists g, row.
    + intros [?|[(g & row & Hg & Hrow)|[?|?]]]; [left; left; by left|left; left; right|left; by right|by right].
      exists (g, row). split; [by apply elem_of_map_to_list|by apply bool_decide_eq_true].
  - intros e. rewrite Htexts. cbn [retire entries]. rewrite elem_of_filter_bool. apply and_iff_compat_l. unfold names_text.
    rewrite existsb_true. setoid_rewrite orb_true_iff. by setoid_rewrite Z.eqb_eq.
  - apply Hp.
Qed.

(** ** From the resolver to the index *)

(** What the index serves of an edge the resolver gave. *)
Definition indexed_edge (e : ResolvedEdge) : StoredEdge :=
  {| se_source_file := source_file e; se_target_file := target_file e; se_source_symbol := source_symbol e;
     se_target_symbol := target_symbol e; se_edge_kind := kind_debug (edge_kind e);
     se_confidence := f32_of_f64 (persist_real (confidence e)); se_resolution := (λ r, label (kind_of r)) <$> resolution e |}.

(** The same of a stored edge. *)
Definition served (e : Edge) : StoredEdge :=
  {| se_source_file := eg_source_file e; se_target_file := eg_target_file e; se_source_symbol := rt_source (eg_text e);
     se_target_symbol := rt_target (eg_text e); se_edge_kind := rt_kind (eg_text e);
     se_confidence := f32_of_f64 (rt_confidence (eg_text e)); se_resolution := rt_resolution (eg_text e) |}.

Lemma joined_edge p t r e :
  pool_ok p → joins (entries p) (index_row t) r → decode_edge p t = Some e → edge_of_row r = served e.
Proof.
  intros Hp [Hj2 Hj3 Hj4]. cbn [index_row er_source_file_id er_target_file_id] in Hj2, Hj3. unfold decode_edge. apply text_of_spec in Hj2 as ->; [|done]. apply text_of_spec in Hj3 as ->; [|done].
  intros [= <-]. unfold edge_of_row. by rewrite Hj4.
Qed.

Lemma edge_readable p t e0 :
  pool_ok p → decode_edge p t = Some (edge_of e0) → readable (entries p) (index_row t).
Proof.
  intros Hp. unfold decode_edge. destruct (text_of p (et_source_file_id t)) as [a|] eqn:Ea; [|done].
  destruct (text_of p (et_target_file_id t)) as [b|] eqn:Eb; [|done]. intros [= _ _ Hsym Htgt Hkind _ Hres _].
  split; [exists a; by apply text_of_spec|]. split; [exists b; by apply text_of_spec|]. split.
  - unfold known_kind. cbn [index_row er_text rt_kind]. rewrite Hkind. by destruct (edge_kind e0).
  - cbn [index_row er_text rt_resolution]. rewrite Hres. intros x. destruct (resolution e0) as [r|]; [|done].
    intros [= <-]. destruct (kind_of r); by eexists.
Qed.

(** C18. What the resolver found is what a query walks: after a write is accepted, the index
    of the latest generation is read without error and serves exactly the edges resolved,
    less those that touch a deleted file. *)
Theorem resolved_edges_reach_the_index {D} db h w gen db' (disclosed : option D) :
  reachable db h → small w → collision_free db w (live_tuples (edge_rows db)) (live_tuples (unresolved_rows db)) →
  write_generation db w = Ok (gen, db') → few (length (w_edges w)) → Z.of_nat (length (entries (paths db'))) < 2 ^ 32 →
  ∃ idx, latest_edge_index db' disclosed = Ok (Some idx) ∧ generation idx = Some gen
    ∧ stored_edges idx ≡ₚ map indexed_edge (List.filter (in_generation (w_deleted w)) (w_edges w)).
Proof.
  intros Hr%reachable_agrees Hsmall Hfree Hw Hfew Hpaths.
  destruct (write_spec db w gen db' _ _ (ag_well_formed _ _ Hr) (ag_recorded _ _ Hr) (reflexivity _) (reflexivity _) Hfree Hsmall Hw)
    as [W1 _ W2 _ W3 _ [W5 _] _ _ _ _].
  assert (Hlatest : latest_generation db' = Some gen).
  { apply newest_is; [rewrite W2; apply elem_of_app; right; by left|]. intros x Hx.
    pose proof (wf_generations _ W3 x Hx). rewrite W2 in Hx. apply elem_of_app in Hx as [Hx|Hx]; [|apply list_elem_of_singleton in Hx; lia].
    pose proof (wf_generations _ (ag_well_formed _ _ Hr) x Hx). lia. }
  unfold latest_edge_index. rewrite Hlatest. pose proof (wf_paths _ W3) as Hp. cbn [snapshot_of sn_edges] in W5.
  set (meant := map edge_of (List.filter (in_generation (w_deleted w)) (w_edges w))) in *.
  set (ts := GenStore.generation_edges db' gen) in *.
  assert (Hlen : length ts = length meant) by (apply Permutation_length in W5; by rewrite !length_map in W5).
  assert (Hshort : (length meant ≤ length (w_edges w))%nat) by (unfold meant; rewrite length_map; apply List.filter_length_le).
  pose proof (read_indexes (entries (paths db')) (map index_row ts) disclosed gen) as Hread. rewrite length_map in Hread.
  specialize (Hread ltac:(unfold few in *; lia) Hpaths). destruct (read_index _ _ _ _) as [idx|err].
  - destruct Hread as (js & labels & kinds & Hjs & Hidx & _ & _ & Hg & _). exists idx. split; [done|]. split; [done|].
    rewrite (stored_edges_rows _ _ _ Hidx), sort_by_perm.
    assert (Hserved : map (λ r, Some (edge_of_row r)) js = map (λ o : option Edge, served <$> o) (map (decode_edge (paths db')) ts)).
    { assert (Hsome : ∀ t, t ∈ ts → is_Some (decode_edge (paths db') t)).
      { intros t Ht. assert (Hm : decode_edge (paths db') t ∈ map (decode_edge (paths db')) ts) by (apply elem_of_map; by exists t).
        rewrite W5 in Hm. apply elem_of_map in Hm as (x & -> & _). by eexists. }
      clearbody ts. clear - Hjs Hsome Hp. revert js Hjs. induction ts as [|t ts IH]; intros js Hjs; cbn [map] in Hjs.
      { by apply Forall2_nil_inv_l in Hjs as ->. }
      apply Forall2_cons_inv_l in Hjs as (r & js' & Hj & Hjs & ->). cbn [map]. rewrite (IH ltac:(intros x Hx; apply Hsome; by right) js' Hjs).
      destruct (Hsome t) as [e He]; [by left|]. rewrite He. cbn. by rewrite (joined_edge _ _ _ _ Hp Hj He). }
    assert (Hperm : map (λ r, Some (edge_of_row r)) js ≡ₚ map Some (map served meant)).
    { rewrite Hserved, W5, !map_map. done. }
    apply (omap_some (λ r, Some (edge_of_row r))) in Hperm.
    assert (Homap : omap (λ r, Some (edge_of_row r)) js = map edge_of_row js) by (clear; induction js as [|r js IH]; [done|cbn; by rewrite IH]).
    rewrite Homap in Hperm. rewrite Hperm. unfold meant. by rewrite map_map.
  - exfalso. apply Hread. apply Forall_forall. intros row (t & -> & Ht)%elem_of_map.
    assert (Hm : decode_edge (paths db') t ∈ map (decode_edge (paths db')) ts) by (apply elem_of_map; by exists t).
    rewrite W5 in Hm. apply elem_of_map in Hm as (e & He & Hin). apply elem_of_map in Hin as (e0 & -> & _). by eapply edge_readable.
Qed.

(** ** Checking a concrete write *)

Definition told_apart_check {T} `{EqDecision T} `{Hashes T} (file_of : T → Z) (old fresh : list T) : bool :=
  forallb (λ f, negb (bool_decide (digest_of (of_file file_of f old) = digest_of (of_file file_of f fresh)))
                || bool_decide (of_file file_of f old ≡ₚ of_file file_of f fresh)) (map file_of (old ++ fresh)).

Lemma told_apart_checked {T} `{EqDecision T} `{Hashes T} (file_of : T → Z) old fresh :
  told_apart_check file_of old fresh = true → told_apart file_of old fresh.
Proof.
  intros Hc f Hd. unfold told_apart_check in Hc. rewrite forallb_true in Hc.
  destruct (decide (f ∈ map file_of (old ++ fresh))) as [Hf|Hf].
  - specialize (Hc f Hf). apply orb_prop in Hc as [Hc|Hc]; bool_to_prop; done.
  - assert (Hnone : ∀ l, (∀ x, x ∈ l → x ∈ old ++ fresh) → of_file file_of f l = []).
    { intros l Hl. apply filter_false. intros x Hx. apply bool_decide_eq_false. intros <-. apply Hf. apply elem_of_map. exists x. split; [done|by apply Hl]. }
    rewrite !Hnone; [done| |]; intros x Hx; apply elem_of_app; [by right|by left].
Qed.

Definition collision_check (db : Db) (w : Write) (edges : list EdgeTuple) (calls : list UnresolvedTuple) : bool :=
  match edge_pass db w with
  | Ok (fresh, _, st) =>
      match ledger_pass (w_unresolved w) (unresolved_texts db) st with
      | Ok (ledger, _, _) => told_apart_check et_source_file_id edges (resolved fresh) && told_apart_check ut_source_file_id calls ledger
      | Err _ => true
      end
  | Err _ => true
  end.

Lemma collision_checked db w edges calls : collision_check db w edges calls = true → collision_free db w edges calls.
Proof.
  unfold collision_check. intros Hc _ fresh ord st ledger texts st' He Hl. rewrite He, Hl in Hc.
  apply andb_prop in Hc as [Hedges Hcalls]. split; by apply told_apart_checked.
Qed.

End Store.

(** ** A small store *)

Module Sample.

#[export] Instance table : GitReads.DebugTable := {| GitReads.printable_beyond_ascii := λ _, true |}.

(** A hash for the sample: the text and the ids, weighed. *)
Definition weigh (salt : option Z) (ids : list Z) (texts : list str) : Z :=
  foldr (λ c h, 31 * h + c) (default 7 salt) (ids ++ List.concat texts).
#[export] Instance edge_hash : Hashes EdgeTuple :=
  λ salt t, weigh salt [et_source_file_id t; et_target_file_id t] [et_source_symbol t; et_target_symbol t; et_edge_kind t].
#[export] Instance call_hash : Hashes UnresolvedTuple :=
  λ salt t, weigh salt [ut_source_file_id t; ut_reason_id t; ut_classification_id t] [ut_source_symbol t; ut_callee_name t].

Definition edge (file from target to : string) : ResolvedEdge :=
  {| source_file := lit file; target_file := lit target; source_symbol := lit from; target_symbol := lit to;
     edge_kind := Calls; confidence := HIGH; resolution := Some (ImportScoped (lit to) (lit target) (lit file));
     evidence := None; details := None |}.

Definition call (file from callee : string) : UnresolvedReference :=
  {| ur_source_file := lit file; ur_source_symbol := lit from; ur_callee_name := lit callee;
     ur_resolution := Unresolved (lit "no candidate"); ur_class := NoNamesake; ur_receiver := None |}.

(** A tree in which every path is its own, and the versions of this build. *)
#[export] Instance tree : Discovery.Files := {|
  Discovery.symlink_metadata _ := Err {| Discovery.error_kind := Discovery.NotFound; Discovery.error_text := lit "not found" |};
  Discovery.metadata _ := Err {| Discovery.error_kind := Discovery.NotFound; Discovery.error_text := lit "not found" |};
  Discovery.canonicalize path := Ok path;
  Discovery.absolute path := Ok path;
  Discovery.open_marker _ := Err {| Discovery.error_kind := Discovery.NotFound; Discovery.error_text := lit "not found" |};
|}.
#[export] Instance this_build : Grammars := {| stamped_grammar_identity := λ language, language ++ lit "-0.24"; ANALYZER_VERSION := lit "1.4.0" |}.

Definition extraction (path : string) (hash : Z) : Extraction :=
  {| file_path := lit path; language := lit "rust"; content_hash := hash |}.

(** A write that leaves everything else in order. *)
Definition write (extractions : list Extraction) (affected deleted : list str) (verify : bool) (edges : list ResolvedEdge)
    (calls : list UnresolvedReference) (total : Z) : Write :=
  {| w_threads := 4; w_read_only := false; w_head_sha := lit "5f3c2d1"; w_repo_root := Some (lit "/r"); w_extractions := extractions;
     w_affected := affected; w_deleted := deleted; w_verify_every_row := verify; w_serialize_analysis := Ok tt; w_serialize := λ _, Ok tt;
     w_edges := edges; w_unresolved := calls; w_total_edges := total; w_discovery_refusals := Some [(lit "c.bin", lit "too large")];
     w_analysed_refusals := Some 1; w_over_limit := None; w_analysed_over_limit := None; w_dead_symbols := 0 |}.

Definition cold : Write :=
  write [extraction "a.rs" 11; extraction "b.rs" 12] [] [] false
    [edge "a.rs" "f" "b.rs" "g"; edge "a.rs" "f" "b.rs" "g"; edge "b.rs" "g" "a.rs" "f"]
    [call "a.rs" "f" "open"; call "b.rs" "g" "close"] 3.

(** One file edited: an edge and a call of [b.rs] go, others come. *)
Definition edited : Write :=
  write [extraction "b.rs" 21] [lit "b.rs"] [] false
    [edge "a.rs" "f" "b.rs" "g"; edge "a.rs" "f" "b.rs" "g"; edge "b.rs" "h" "a.rs" "f"]
    [call "a.rs" "f" "open"; call "b.rs" "h" "sync"] 3.

Definition after (db : Db) (w : Write) : Db := match write_generation db w with Ok (_, db') => db' | Err _ => empty_db end.
Definition db1 : Db := after empty_db cold.
Definition db2 : Db := after db1 edited.
Definition db3 : Db := (prune_generations 1 (λ _, false) db2).2.

Lemma wrote1 : write_generation empty_db cold = Ok (1, db1).
Proof. by vm_compute. Qed.
Lemma wrote2 : write_generation db1 edited = Ok (2, db2).
Proof. by vm_compute. Qed.

(** The rows of the edges after the second write: two untouched, one closed, one new. *)
Example ranges_after_edit : map (λ r, (row_id r, valid_from r, valid_to r)) (edge_rows db2)
  = [(1, 1, None); (2, 1, None); (3, 1, Some 2); (4, 2, None)].
Proof. by vm_compute. Qed.

Lemma sizes w : (length (w_edges w) <= 3)%nat → (length (w_unresolved w) <= 2)%nat → small w.
Proof. unfold small, u32_max. lia. Qed.

Lemma free2 : collision_free db1 edited (live_tuples (edge_rows db1)) (live_tuples (unresolved_rows db1)).
Proof. apply collision_checked. by vm_compute. Qed.

Definition history : list (Z * Snapshot) := [(1, snapshot_of cold); (2, snapshot_of edited)].

Lemma reachable1 : reachable db1 [(1, snapshot_of cold)].
Proof. apply rtc_once. apply (Commits _ [] cold); [by apply sizes; vm_compute; lia|by apply collision_checked; vm_compute|exact wrote1]. Qed.

Lemma reachable2 : reachable db2 history.
Proof.
  eapply rtc_r; [exact reachable1|]. apply (Commits _ [(1, snapshot_of cold)] edited); [by apply sizes; vm_compute; lia|exact free2|exact wrote2].
Qed.

Lemma reachable3 : reachable db3 [(2, snapshot_of edited)].
Proof. eapply rtc_r; [exact reachable2|]. exact (Prunes _ history 1 (λ _, false)). Qed.

End Sample.

Import Sample.

Lemma store_is_its_history_witness :
  generations db3 = [2] ∧ shows db3 2 (snapshot_of edited) ∧ shows db2 1 (snapshot_of cold).
Proof.
  split; [by vm_compute|]. split.
  - apply (store_is_its_history db3 [(2, snapshot_of edited)] reachable3). by left.
  - apply (store_is_its_history db2 history reachable2). by left.
Defined.


(** One of the two equal edges of [a.rs] and the call of [b.rs] are gone. *)
Definition damaged : Db :=
  {| queue := queue db2; generations := generations db2; generation_sequence := generation_sequence db2;
     generation_files := generation_files db2; paths := paths db2; unresolved_texts := unresolved_texts db2;
     edge_rows := drop 1 (edge_rows db2); unresolved_rows := take 2 (unresolved_rows db2);
     generation_file_digests := generation_file_digests db2 |}.

Lemma damage : rows_lost db2 damaged.
Proof. split; cbn [damaged]; try done; [apply sublist_drop|apply sublist_take]. Qed.

Lemma lost_rows_are_restored_witness :
  length (live_tuples (edge_rows damaged)) = 2%nat ∧ shows (after damaged edited) 3 (snapshot_of edited).
Proof.
  split; [by vm_compute|].
  apply (lost_rows_are_restored db2 history damaged edited 3 (after damaged edited) reachable2 damage); [|  |by vm_compute].
  - apply sizes; vm_compute; lia.
  - apply collision_checked. by vm_compute.
Defined.

Lemma only_the_difference_is_written_witness :
  ∃ edges ord st calls texts st', edge_pass db1 edited = Ok (edges, ord, st)
    ∧ ledger_pass (w_unresolved edited) (unresolved_texts db1) st = Ok (calls, texts, st')
    ∧ stores_difference 2 (resolved edges) (edge_rows db1) (edge_rows db2)
    ∧ stores_difference 2 calls (unresolved_rows db1) (unresolved_rows db2).
Proof.
  apply (only_the_difference_is_written db1 [(1, snapshot_of cold)] edited 2 db2 reachable1); [|exact free2|exact wrote2].
  apply sizes; vm_compute; lia.
Defined.

(** An analysis of two edges does not go with three. *)
Definition miscounted : Write := write (w_extractions edited) [lit "b.rs"] [] true (w_edges edited) (w_unresolved edited) 2.

Lemma refusals_are_exact_witness :
  (∀ e, ¬ faulty db1 edited e)
  ∧ write_generation db1 miscounted = Err (EdgeCountMismatch 3 2) ∧ faulty db1 miscounted (EdgeCountMismatch 3 2).
Proof.
  split; [|split; [by vm_compute|]].
  - pose proof (refusals_are_exact db1 [(1, snapshot_of cold)] edited reachable1) as Hr. rewrite wrote2 in Hr. apply Hr.
    + apply sizes; vm_compute; lia.
    + unfold room. vm_compute. split; [|split]; congruence.
  - assert (Hw : write_generation db1 miscounted = Err (EdgeCountMismatch 3 2)) by by vm_compute.
    pose proof (refusals_are_exact db1 [(1, snapshot_of cold)] miscounted reachable1) as Hr. rewrite Hw in Hr. apply Hr.
    + apply sizes; vm_compute; lia.
    + unfold room. vm_compute. split; [|split]; congruence.
Defined.

(** A later build of the same tools cannot carry the row of [a.rs]. *)
Example later_build_cannot_carry :
  let later : Grammars := {| stamped_grammar_identity := stamped_grammar_identity; ANALYZER_VERSION := lit "1.5.0" |} in
  @write_generation _ _ _ _ later db1 edited = Err (CannotCarry 1 (lit "a.rs")).
Proof. by vm_compute. Qed.

Lemma no_file_goes_missing_witness :
  let files := default [] (generation_files db2 !! 2) in
  map (λ row, (fr_path row, fr_content_hash row)) files = [(lit "a.rs", 11); (lit "b.rs", 21)]
  ∧ NoDup (map fr_path files) ∧ ∀ row, row ∈ files → identity_matches row = true.
Proof.
  split; [by vm_compute|].
  destruct (no_file_goes_missing db1 [(1, snapshot_of cold)] edited 2 db2 reachable1) as (Hn & _ & Hrow); [|exact free2|exact wrote2|].
  - apply sizes; vm_compute; lia.
  - split; [exact Hn|]. intros row Hin. by apply Hrow.
Defined.

Lemma prunes_take_only_the_unreadable_witness :
  map row_id (edge_rows db3) = [1; 2; 4] ∧ map snd (entries (paths db3)) = [lit "a.rs"; lit "b.rs"] ∧ well_formed db3.
Proof.
  split; [by vm_compute|]. split; [by vm_compute|].
  apply (prunes_take_only_the_unreadable db2 history 1 (λ _, false) reachable2). cbn. lia.
Defined.

Lemma resolved_edges_reach_the_index_witness :
  ∃ idx, latest_edge_index db2 (@None unit) = Ok (Some idx) ∧ generation idx = Some 2
    ∧ stored_edges idx ≡ₚ map indexed_edge (List.filter (in_generation []) (w_edges edited)).
Proof.
  apply (resolved_edges_reach_the_index db1 [(1, snapshot_of cold)] edited 2 db2 None reachable1); [|exact free2|exact wrote2| |].
  - apply sizes; vm_compute; lia.
  - unfold few. vm_compute. done.
  - vm_compute. done.
Defined.

(** ** The calls of a deleted file *)

(** A resolution made before [b.rs] was deleted. *)
Definition stale : Write := write [] [] [lit "b.rs"] false (w_edges cold) (w_unresolved cold) 0.

(** The edges that touch the file go; its call in the ledger stays, and its digest with it. *)
Example deleted_file_keeps_its_calls :
  let db := after db1 stale in
  length (generation_edges db 2) = 0%nat
  ∧ map lr_source_file (generation_unresolved db 2) = [lit "a.rs"; lit "b.rs"]
  ∧ is_Some (default ∅ (generation_file_digests db !! 2) !! 2).
Proof. vm_compute. split; [done|]. split; [done|by eexists]. Qed.

End GenStoreProps.
