(* ===== verification/Payloads.v ===== *)
(** * The window over the serializer threads ([rust/devmap-store/src/db/write.rs])

    A write serializes its fresh payloads on other threads and inserts them in order.
    [step] interleaves the writing thread, inside [PayloadFeed::take] and the loop that
    calls it, with the serializer threads. Whatever the interleaving, the write inserts
    and reports what serializing in turn would, always ends, and holds a bounded amount. *)

From stdpp Require Import relations.
From S2P Require Import Prelude RustStr RustStrFacts.

#[local] Open Scope Z_scope.

Module Payloads.

(** ** Payloads *)

Record PayloadJson := { parse_outcome : str; engine : str; extraction : str }.

(** What a write refuses with: its message. *)
Abbreviation Outcome := (result PayloadJson str) (only parsing).

(** A serializer returns, or panics with a payload that may hold a message. *)
Inductive Serialized : Type :=
  | Returned (r : Outcome)
  | Panicked (message : option str).

(** The bytes of the documents; an error holds none. *)
Definition json_bytes (o : Outcome) : Z :=
  match o with
  | Ok documents => str_len (parse_outcome documents) + str_len (engine documents) + str_len (extraction documents)
  | Err _ => 0
  end.

Section Feed.

Context {Extraction : Type}.
Variables (file_path : Extraction → str) (serialize : Extraction → Serialized).

Definition serialize_guarded (e : Extraction) : Outcome :=
  match serialize e with
  | Returned r => r
  | Panicked message =>
      Err (lit "payload serialization panicked for " ++ file_path e ++ lit ": "
           ++ default (lit "a non-string panic payload") message)
  end.

(** The loop over a feed that serializes each extraction in its turn: what it inserted
    and how it ended. *)
Fixpoint insert_inline (fresh : list Extraction) : list PayloadJson * result unit str :=
  match fresh with
  | [] => ([], Ok tt)
  | e :: fresh =>
      match serialize_guarded e with
      | Ok documents => let '(inserted, r) := insert_inline fresh in (documents :: inserted, r)
      | Err message => ([], Err message)
      end
  end.

Variables (fresh : list Extraction) (threads window : nat) (budget : Z).

(** ** The window *)

(** The job channel, the jobs that threads are running, the channel of results, and the
    fields of [PayloadWindow]. A job is its number. *)
Record Window := {
  jobs : list nat;
  running : list nat;
  done_queue : list (nat * Outcome);
  next_dispatch : nat;
  held_bytes : Z;
  arrived : gmap nat Outcome;
}.

Definition empty_window : Window :=
  {| jobs := []; running := []; done_queue := []; next_dispatch := 0; held_bytes := 0; arrived := ∅ |}.

(** [recv] and [try_recv], with what follows them: the next result is taken in. *)
Definition receive (w : Window) : option Window :=
  match done_queue w with
  | [] => None
  | (i, outcome) :: rest =>
      Some {| jobs := jobs w; running := running w; done_queue := rest; next_dispatch := next_dispatch w;
              held_bytes := sat_add usize_max (held_bytes w) (json_bytes outcome);
              arrived := <[i := outcome]> (arrived w) |}
  end.

(** The condition of the loop that hands extractions out. *)
Definition may_dispatch (index : nat) (w : Window) : bool :=
  (next_dispatch w <? length fresh)%nat && (next_dispatch w - index <? window)%nat && (held_bytes w <=? budget).

Definition dispatch (w : Window) : Window :=
  {| jobs := jobs w ++ [next_dispatch w]; running := running w; done_queue := done_queue w;
     next_dispatch := S (next_dispatch w); held_bytes := held_bytes w; arrived := arrived w |}.

(** The head is removed from what has arrived. *)
Definition take_head (index : nat) (w : Window) : option (Outcome * Window) :=
  let! outcome := arrived w !! index in
  Some (outcome,
        {| jobs := jobs w; running := running w; done_queue := done_queue w; next_dispatch := next_dispatch w;
           held_bytes := Z.max 0 (held_bytes w - json_bytes outcome); arrived := delete index (arrived w) |}).

(** [payload_worker]: a thread takes the next job; a thread reports the one it ran. *)
Definition worker_takes (w : Window) : option Window :=
  match jobs w with
  | [] => None
  | job :: rest =>
      if (length (running w) <? threads)%nat
      then Some {| jobs := rest; running := running w ++ [job]; done_queue := done_queue w;
                   next_dispatch := next_dispatch w; held_bytes := held_bytes w; arrived := arrived w |}
      else None
  end.

Definition worker_reports (n : nat) (w : Window) : option Window :=
  let! job := running w !! n in
  let! e := fresh !! job in
  Some {| jobs := jobs w; running := delete n (running w); done_queue := done_queue w ++ [(job, serialize_guarded e)];
          next_dispatch := next_dispatch w; held_bytes := held_bytes w; arrived := arrived w |}.

(** ** The write *)

(** Where the writing thread is: in one of the loops of [take], or past the insert loop. *)
Inductive Phase : Type :=
  | Draining
  | Dispatching
  | Waiting
  | Finished (r : result unit str).

Record Write := { phase : Phase; index : nat; inserted : list PayloadJson; state : Window }.

Definition at_phase (p : Phase) (w : Window) (s : Write) : Write :=
  {| phase := p; index := index s; inserted := inserted s; state := w |}.

(** The insert loop with the next document: the next turn, or the end. *)
Definition insert_next (outcome : Outcome) (w : Window) (s : Write) : Write :=
  match outcome with
  | Ok documents =>
      {| phase := if (S (index s) <? length fresh)%nat then Draining else Finished (Ok tt);
         index := S (index s); inserted := inserted s ++ [documents]; state := w |}
  | Err message => at_phase (Finished (Err message)) w s
  end.

Definition start : Write :=
  {| phase := match fresh with [] => Finished (Ok tt) | _ => Draining end; index := 0; inserted := []; state := empty_window |}.

Inductive step (s : Write) : Write → Prop :=
  | ReceiveReady w : phase s = Draining → receive (state s) = Some w → step s (at_phase Draining w s)
  | NothingReady : phase s = Draining → receive (state s) = None → step s (at_phase Dispatching (state s) s)
  | HandOut : phase s = Dispatching → may_dispatch (index s) (state s) = true → step s (at_phase Dispatching (dispatch (state s)) s)
  | HoldBack : phase s = Dispatching → may_dispatch (index s) (state s) = false → step s (at_phase Waiting (state s) s)
  | ReceiveHead w : phase s = Waiting → take_head (index s) (state s) = None → receive (state s) = Some w →
      step s (at_phase Waiting w s)
  | InsertHead outcome w : phase s = Waiting → take_head (index s) (state s) = Some (outcome, w) → step s (insert_next outcome w s)
  | WorkerTakes w : worker_takes (state s) = Some w → step s (at_phase (phase s) w s)
  | WorkerReports n w : worker_reports n (state s) = Some w → step s (at_phase (phase s) w s).

End Feed.

End Payloads.

(** [feeding] is the invariant of every interleaving: the jobs handed out and not yet
    inserted are each in one place, at most a window of them, and only what came
    back of them is held. Every step lowers [work_left], and only a finished write is
    stuck. *)

Import Payloads.

Module PayloadProps.

Section Feed.

Context {Extraction : Type}.
Variables (file_path : Extraction → str) (serialize : Extraction → Serialized).
Variables (fresh : list Extraction) (threads window : nat) (budget : Z).

Abbreviation guarded := (serialize_guarded file_path serialize).
Abbreviation Step := (step file_path serialize fresh threads window budget).
Abbreviation Reachable := (rtc Step (start fresh)).

(** The documents of extraction [i]. *)
Definition outcome_at (i : nat) (o : result PayloadJson str) : Prop := guarded <$> fresh !! i = Some o.

(** The numbers of the jobs handed out and not yet inserted, wherever they are. *)
Definition outstanding (w : Window) : list nat := jobs w ++ running w ++ map fst (done_queue w) ++ map fst (map_to_list (arrived w)).

(** The bytes that have come back and are not inserted. *)
Definition arrived_bytes (w : Window) : Z := map_fold (λ _ o, Z.add (json_bytes o)) 0 (arrived w).

(** The largest payload, and the most the window may hold. *)
Definition largest : Z := foldr (λ e, Z.max (json_bytes (guarded e))) 0 fresh.

Definition most_held : Z := largest * Z.of_nat window.

Record window_ok (index : nat) (w : Window) : Prop := {
  wo_outstanding : outstanding w ≡ₚ seq index (next_dispatch w - index);
  wo_index : (index ≤ next_dispatch w ≤ length fresh)%nat;
  wo_window : (next_dispatch w - index ≤ window)%nat;
  wo_done : ∀ i o, (i, o) ∈ done_queue w → outcome_at i o;
  wo_arrived : ∀ i o, arrived w !! i = Some o → outcome_at i o;
  wo_held : 0 ≤ held_bytes w ≤ arrived_bytes w;
  wo_exact : most_held ≤ usize_max → held_bytes w = arrived_bytes w;
}.

(** What the serial loop has inserted before [index]. *)
Definition inserted_ok (s : Write) : Prop := map Ok (inserted s) = map guarded (take (index s) fresh).

Definition unfinished (s : Write) : Prop := match phase s with Finished _ => False | _ => True end.

Record feeding (s : Write) : Prop := {
  fd_inserted : inserted_ok s;
  fd_window : unfinished s → window_ok (index s) (state s) ∧ (index s < length fresh)%nat;
  fd_head : phase s = Waiting → (index s < next_dispatch (state s))%nat;
  fd_finished : ∀ r, phase s = Finished r → insert_inline file_path serialize fresh = (inserted s, r);
}.

Lemma json_bytes_nonneg o : 0 ≤ json_bytes o.
Proof. destruct o as [d|]; cbn; [|lia]. pose proof (str_len_nonneg (parse_outcome d)). pose proof (str_len_nonneg (engine d)). pose proof (str_len_nonneg (extraction d)). lia. Qed.

Lemma largest_bounds i o : outcome_at i o → json_bytes o ≤ largest.
Proof.
  unfold outcome_at, largest. revert i. induction fresh as [|e l IH]; intros [|i]; cbn; try done; [intros [= <-]; lia|].
  intros Hi. specialize (IH i Hi). lia.
Qed.

Lemma largest_nonneg : 0 ≤ largest.
Proof. unfold largest. induction fresh; cbn [foldr]; lia. Qed.

(** ** The window's steps *)

Lemma keys_insert (m : gmap nat (result PayloadJson str)) i o :
  m !! i = None → map fst (map_to_list (<[i := o]> m)) ≡ₚ i :: map fst (map_to_list m).
Proof. intros Hi. change (map fst) with (fmap (M := list) (@fst nat (result PayloadJson str))). by rewrite (map_to_list_insert _ _ _ Hi). Qed.

Lemma keys_delete (m : gmap nat (result PayloadJson str)) i o :
  m !! i = Some o → map fst (map_to_list m) ≡ₚ i :: map fst (map_to_list (delete i m)).
Proof.
  intros Hi. change (map fst) with (fmap (M := list) (@fst nat (result PayloadJson str))). by rewrite <- (map_to_list_delete _ _ _ Hi).
Qed.

Lemma bytes_insert m i o :
  m !! i = None →
  map_fold (λ _ o, Z.add (json_bytes o)) 0 (<[i := o]> m : gmap nat _) = json_bytes o + map_fold (λ _ o, Z.add (json_bytes o)) 0 m.
Proof. intros Hi. apply (map_fold_insert_L (λ _ o, Z.add (json_bytes o))); [intros; lia|done]. Qed.

Lemma bytes_delete m i o :
  m !! i = Some o →
  map_fold (λ _ o, Z.add (json_bytes o)) 0 (m : gmap nat _) = json_bytes o + map_fold (λ _ o, Z.add (json_bytes o)) 0 (delete i m).
Proof. intros Hi. apply (map_fold_delete_L (λ _ o, Z.add (json_bytes o))); [intros; lia|done]. Qed.

Lemma bytes_nonneg (m : gmap nat (result PayloadJson str)) : 0 ≤ map_fold (λ _ o, Z.add (json_bytes o)) 0 m.
Proof.
  apply (map_fold_weak_ind (λ r _, 0 ≤ r)); [done|]. intros i o m' r _ Hr. pose proof (json_bytes_nonneg o). lia.
Qed.

Lemma bytes_bounded (m : gmap nat (result PayloadJson str)) :
  (∀ i o, m !! i = Some o → outcome_at i o) →
  map_fold (λ _ o, Z.add (json_bytes o)) 0 m ≤ largest * Z.of_nat (length (map_to_list m)).
Proof.
  induction m as [|i o m Hi IH] using map_ind; intros Hm; [by rewrite map_fold_empty, map_to_list_empty; cbn; lia|].
  rewrite bytes_insert, map_to_list_insert by done. cbn [length]. pose proof (largest_bounds i o (Hm i o (lookup_insert_eq m i o))).
  enough (map_fold (λ _ o, Z.add (json_bytes o)) 0 m ≤ largest * Z.of_nat (length (map_to_list m))) by nia.
  apply IH. intros i' o' Hi'. apply Hm. rewrite lookup_insert_ne; [done|]. intros ->. by rewrite Hi in Hi'.
Qed.

Lemma outstanding_length index w : window_ok index w →
  (length (outstanding w) = next_dispatch w - index)%nat
  ∧ (length (map_to_list (arrived w)) + length (done_queue w) ≤ length (outstanding w))%nat.
Proof.
  intros Hok. split; [by rewrite (wo_outstanding _ _ Hok), length_seq|].
  unfold outstanding. rewrite !length_app, !length_map. lia.
Qed.

Lemma receive_ok index w w' : window_ok index w → receive w = Some w' → window_ok index w' ∧ next_dispatch w' = next_dispatch w.
Proof.
  intros Hok. pose proof (outstanding_length _ _ Hok) as [Hl1 Hl2]. destruct Hok as [Hout Hidx Hwin Hdone Harr Hheld Hex].
  pose proof (bytes_bounded _ Harr) as Hbb. unfold receive. destruct w as [j r [|[i o] d] nd h a]; cbn in *; [done|intros [= <-]; cbn].
  assert (Ho : outcome_at i o) by (apply Hdone; set_solver).
  assert (Hi : a !! i = None).
  { apply eq_None_not_Some. intros [o' Hi]. pose proof (NoDup_seq index (nd - index)) as Hnd. rewrite <- Hout in Hnd. unfold outstanding in Hnd; cbn in Hnd.
    rewrite (keys_delete a i o' Hi) in Hnd. rewrite !NoDup_app in Hnd. cbn in Hnd. rewrite NoDup_cons in Hnd. set_solver. }
  pose proof (json_bytes_nonneg o). pose proof (largest_bounds i o Ho). pose proof largest_nonneg.
  split; [|done]. unfold outstanding, arrived_bytes, sat_add in *; cbn in *. split; cbn; try done.
  - rewrite <- Hout. rewrite (keys_insert a i o Hi). solve_Permutation.
  - set_solver.
  - intros i' o'. destruct (decide (i' = i)) as [->|]; [rewrite lookup_insert_eq; by intros [= <-]|rewrite lookup_insert_ne by done; apply Harr].
  - unfold arrived_bytes; cbn. rewrite bytes_insert by done. unfold usize_max, u64_max in *. pose proof (bytes_nonneg a). lia.
  - intros Hm. specialize (Hex Hm). unfold arrived_bytes, most_held in *; cbn. rewrite bytes_insert by done.
    assert (largest * (Z.of_nat (length (map_to_list a)) + 1) ≤ largest * Z.of_nat window) by (apply Z.mul_le_mono_nonneg_l; [done|lia]). lia.
Qed.

Lemma dispatch_ok index w :
  window_ok index w → may_dispatch fresh window budget index w = true → window_ok index (dispatch w).
Proof.
  intros [Hout Hidx Hwin Hdone Harr Hheld Hex] Hm. unfold may_dispatch in Hm. bool_to_prop.
  destruct w as [j r d nd h a]; unfold dispatch, outstanding, arrived_bytes, most_held in *; cbn in *. split; cbn; try done; try lia.
  - unfold outstanding; cbn. replace (S nd - index)%nat with (S (nd - index)) by lia. rewrite seq_S.
    replace (index + (nd - index))%nat with nd by lia. rewrite <- Hout. solve_Permutation.
Qed.

Lemma take_head_ok index w o w' :
  window_ok index w → take_head index w = Some (o, w') → outcome_at index o ∧ window_ok (S index) w' ∧ (index < next_dispatch w)%nat.
Proof.
  intros [Hout Hidx Hwin Hdone Harr Hheld Hex]. unfold take_head. destruct (arrived w !! index) as [o'|] eqn:Ha; [|done]. cbn. intros [= -> <-].
  split; [by apply Harr|].
  pose proof (keys_delete _ _ _ Ha) as Hk. pose proof (bytes_delete _ _ _ Ha) as Hbd. pose proof (json_bytes_nonneg o).
  pose proof (bytes_nonneg (delete index (arrived w))).
  destruct w as [j r d nd h a]; unfold outstanding, arrived_bytes in *; cbn in *.
  assert (Hlt : (index < nd)%nat).
  { destruct (nd - index)%nat eqn:E; [|lia]. cbn in Hout. rewrite Hk in Hout. apply Permutation_nil_r in Hout.
    by apply app_eq_nil in Hout as [_ [_ [_ ?]%app_eq_nil]%app_eq_nil]. }
  split; [|done]. split; unfold outstanding, arrived_bytes; cbn; try done; try lia.
  - replace (nd - index)%nat with (S (nd - S index)) in Hout by lia. cbn in Hout. rewrite Hk in Hout.
    apply (Permutation_cons_inv (a := index)). rewrite <- Hout. solve_Permutation.
  - intros i o' Hi. apply lookup_delete_Some in Hi as [_ Hi]. by apply Harr.
Qed.

Lemma worker_takes_ok index w w' : window_ok index w → worker_takes threads w = Some w' → window_ok index w'.
Proof.
  intros [Hout Hidx Hwin Hdone Harr Hheld Hex]. unfold worker_takes. destruct w as [[|x j] r d nd h a]; cbn in *; [done|]. case_if; [|done].
  intros [= <-]. unfold outstanding in *; cbn in *. split; unfold outstanding; cbn; try done.
  rewrite <- Hout. solve_Permutation.
Qed.

Lemma worker_reports_ok index n w w' :
  window_ok index w → worker_reports file_path serialize fresh n w = Some w' → window_ok index w'.
Proof.
  intros [Hout Hidx Hwin Hdone Harr Hheld Hex]. unfold worker_reports. destruct w as [j r d nd h a]; cbn in *.
  destruct (r !! n) as [job|] eqn:Hr; [|done]. cbn. destruct (fresh !! job) as [e|] eqn:He; [|done]. cbn. intros [= <-].
  pose proof (delete_Permutation _ _ _ Hr) as Hp. pose proof (Permutation_length Hp) as Hl. cbn in Hl.
  revert Hp Hl. generalize (delete n r) as r'. intros r' Hp Hl.
  unfold outstanding in *; cbn in *. split; unfold outstanding; cbn; try done.
  - rewrite <- Hout, Hp, map_app. cbn. solve_Permutation.
  - intros i o. rewrite elem_of_app, list_elem_of_singleton. intros [Hi|[= -> ->]]; [by apply Hdone|]. unfold outcome_at. by rewrite He.
Qed.

(** ** Every interleaving *)

Lemma insert_inline_app l1 l2 ins :
  map Ok ins = map guarded l1 →
  insert_inline file_path serialize (l1 ++ l2) =
  let '(more, r) := insert_inline file_path serialize l2 in (ins ++ more, r).
Proof.
  revert ins. induction l1 as [|e l1 IH]; intros [|d ins]; cbn; try done; [by destruct (insert_inline _ _ l2)|].
  intros [= <- Hins]. rewrite (IH ins Hins). by destruct (insert_inline _ _ l2).
Qed.

Lemma take_outcome i o : outcome_at i o → map guarded (take (S i) fresh) = map guarded (take i fresh) ++ [o].
Proof.
  unfold outcome_at. destruct (fresh !! i) as [e|] eqn:He; [|done]. intros [= <-]. rewrite (take_S_r _ _ _ He). by rewrite map_app.
Qed.

Lemma feeding_start : (0 < window)%nat → 0 ≤ budget → feeding (start fresh).
Proof.
  intros Hw Hb. unfold start. split; unfold inserted_ok, unfinished; cbn; [done| | |].
  - destruct fresh as [|e l] eqn:Hf; [done|]. intros _. split; [|cbn; lia]. pose proof largest_nonneg. unfold most_held.
    split; unfold outstanding, arrived_bytes, most_held; cbn; try done; try set_solver; try lia; try nia.
  - by destruct fresh.
  - by destruct fresh; intros r [= <-].
Qed.

(** A step that moves inside the window keeps what it is to be fed. *)
Lemma feeding_moved p w s :
  feeding s → unfinished s → unfinished (at_phase p w s) → window_ok (index s) w →
  (p = Waiting → (index s < next_dispatch w)%nat) → feeding (at_phase p w s).
Proof.
  intros [Hi Hw Hh Hf] Hu Hu' Hok Hhead. destruct (Hw Hu) as [_ Hlt]. split; cbn; [done|done|done|].
  intros r ->. done.
Qed.

Lemma feeding_inserted o w s : feeding s → unfinished s → take_head (index s) (state s) = Some (o, w) → feeding (insert_next fresh o w s).
Proof.
  intros [Hi Hw Hh Hf] Hu Hth. destruct (Hw Hu) as [Hok Hlt]. apply take_head_ok in Hth as (Ho & Hok' & _); [|done].
  unfold inserted_ok in Hi. destruct o as [documents|message]; cbn [insert_next].
  - pose proof (take_outcome _ _ Ho) as Ht. rewrite <- Hi in Ht.
    assert (Hins : map Ok (inserted s ++ [documents]) = map guarded (take (S (index s)) fresh)) by (by rewrite Ht, map_app).
    split; unfold unfinished; cbn [phase index inserted state]; [exact Hins| | |]; case_if; bool_to_prop; try done; try (intros _; split; [exact Hok'|lia]).
    intros r [= <-]. rewrite firstn_all2 in Hins by lia. rewrite <- (app_nil_r fresh). rewrite (insert_inline_app _ [] _ Hins). cbn. by rewrite app_nil_r.
  - split; unfold unfinished; cbn; try done. intros r [= <-]. unfold outcome_at in Ho. destruct (fresh !! index s) as [e|] eqn:He; [|done].
    rewrite <- (take_drop_middle _ _ _ He), (insert_inline_app _ _ _ Hi). cbn. injection Ho as ->. by rewrite app_nil_r.
Qed.

(** A serializer thread touches only the window, before the write ends and after. *)
Lemma feeding_worker w s :
  feeding s → (window_ok (index s) (state s) → window_ok (index s) w) → next_dispatch w = next_dispatch (state s) →
  feeding (at_phase (phase s) w s).
Proof.
  intros [Hi Hw Hh Hf] Hok Hn. split; unfold unfinished; cbn; [done| |by rewrite Hn|done].
  intros Hu. destruct (Hw Hu). auto.
Qed.

(** Held back, the head has been handed out: with nothing out there is nothing held. *)
Lemma head_is_out index w :
  (0 < window)%nat → 0 ≤ budget → window_ok index w → (index < length fresh)%nat →
  may_dispatch fresh window budget index w = false → (index < next_dispatch w)%nat.
Proof.
  intros Hpos Hbud [Hout Hidx Hwin Hdone Harr Hheld Hex] Hlt Hm. unfold may_dispatch in Hm.
  destruct (decide (next_dispatch w = index)) as [He|]; [exfalso|lia].
  rewrite He, Nat.sub_diag in Hout. apply Permutation_nil_r in Hout. unfold outstanding in Hout.
  apply app_eq_nil in Hout as [_ [_ [_ Ha]%app_eq_nil]%app_eq_nil]. apply map_eq_nil, map_to_list_empty_iff in Ha.
  unfold arrived_bytes in Hheld. rewrite Ha, map_fold_empty in Hheld. rewrite He, Nat.sub_diag in Hm.
  apply andb_false_iff in Hm as [[Hm|Hm]%andb_false_iff|Hm]; [apply Nat.ltb_ge in Hm; lia|apply Nat.ltb_ge in Hm; lia|lia].
Qed.

Lemma phase_unfinished s p : phase s = p → match p with Finished _ => False | _ => True end → unfinished s.
Proof. intros Hp. unfold unfinished. by rewrite Hp. Qed.

Lemma feeding_step s s' : (0 < window)%nat → 0 ≤ budget → feeding s → Step s s' → feeding s'.
Proof.
  intros Hpos Hbud Hs Hst. destruct Hst as [w Hp Hr|Hp Hr|Hp Hm|Hp Hm|w Hp Ht Hr|o w Hp Ht|w Hw|n w Hw].
  all: try (pose proof (phase_unfinished _ _ Hp I) as Hu; destruct (fd_window _ Hs Hu) as [Hok Hlt]).
  - by apply feeding_moved; [| | |apply (receive_ok _ _ _ Hok Hr)|].
  - by apply feeding_moved.
  - by apply feeding_moved; [| | |apply dispatch_ok|].
  - apply feeding_moved; try done. intros _. by apply head_is_out.
  - destruct (receive_ok _ _ _ Hok Hr) as [Hok' Hn]. apply feeding_moved; try done. intros _. rewrite Hn. by apply (fd_head _ Hs).
  - by apply feeding_inserted.
  - apply feeding_worker; [done|by intros; eapply worker_takes_ok|]. unfold worker_takes in Hw.
    destruct (jobs (state s)); [done|]. case_if_in Hw; [|done]. by injection Hw as <-.
  - apply feeding_worker; [done|by intros; eapply worker_reports_ok|]. unfold worker_reports in Hw.
    destruct (running (state s) !! n) as [job|]; [|done]. cbn in Hw. destruct (fresh !! job); [|done]. by injection Hw as <-.
Qed.

Lemma reachable_feeding s : (0 < window)%nat → 0 ≤ budget → Reachable s → feeding s.
Proof.
  intros Hw Hb Hr. pose proof (feeding_start Hw Hb) as Hs. induction Hr as [|s1 s2 s3 Hst Hr IH]; [done|]. by apply IH, (feeding_step s1).
Qed.

(** ** Progress and the end *)

Lemma unfinished_steps s : (0 < threads)%nat → feeding s → unfinished s → ∃ s', Step s s'.
Proof.
  intros Hthr Hs Hu. destruct (fd_window _ Hs Hu) as [Hok Hlt]. unfold unfinished in Hu. destruct (phase s) eqn:Hp; [| | |done].
  - destruct (receive (state s)) eqn:Hr; eexists; [by eapply ReceiveReady|by eapply NothingReady].
  - destruct (may_dispatch fresh window budget (index s) (state s)) eqn:Hm; eexists; [by eapply HandOut|by eapply HoldBack].
  - destruct (take_head (index s) (state s)) as [[o w]|] eqn:Ht; [eexists; by eapply InsertHead|].
    destruct (receive (state s)) eqn:Hr; [eexists; by eapply ReceiveHead|].
    pose proof (fd_head _ Hs Hp) as Hh. destruct Hok as [Hout Hidx _ _ _ _ _].
    assert (Hin : index s ∈ outstanding (state s)) by (rewrite Hout, elem_of_seq; lia).
    assert (Hall : ∀ job, job ∈ running (state s) → (job < length fresh)%nat).
    { intros job Hj. assert (job ∈ outstanding (state s)) as Hj' by (unfold outstanding; set_solver). rewrite Hout, elem_of_seq in Hj'. lia. }
    destruct (running (state s)) as [|job l] eqn:Hrun.
    + destruct (jobs (state s)) as [|job l] eqn:Hj.
      * exfalso. unfold outstanding in Hin. rewrite Hj, Hrun in Hin. unfold receive in Hr. destruct (done_queue (state s)) as [|[]]; [|done].
        cbn in Hin. apply list_elem_of_fmap in Hin as [[i o] [Heq Ho%elem_of_map_to_list]]. cbn in Heq. unfold take_head in Ht. by rewrite Heq, Ho in Ht.
      * eexists. eapply WorkerTakes. unfold worker_takes. rewrite Hj, Hrun. cbn [length].
        apply Nat.ltb_lt in Hthr. by rewrite Hthr.
    + destruct (lookup_lt_is_Some_2 fresh job) as [e He]; [apply Hall; set_solver|].
      eexists. eapply (WorkerReports _ _ _ _ _ _ _ 0%nat). unfold worker_reports. rewrite Hrun. cbn. by rewrite He.
Qed.

Definition rank (p : Phase) : nat := match p with Draining => 3 | Dispatching => 2 | Waiting => 1 | Finished _ => 0 end.

(** What is left to do: to hand out, to run, to report, to take in, to insert. *)
Definition work_left (s : Write) : nat :=
  4 * (length fresh - next_dispatch (state s)) + 3 * length (jobs (state s)) + 2 * length (running (state s))
  + length (done_queue (state s)) + 4 * (length fresh - index s) + rank (phase s).

Lemma receive_left w w' : receive w = Some w' →
  next_dispatch w' = next_dispatch w ∧ jobs w' = jobs w ∧ running w' = running w ∧ length (done_queue w) = S (length (done_queue w')).
Proof. unfold receive. destruct (done_queue w) as [|[i o] l]; [done|]. by intros [= <-]. Qed.

Lemma step_works s s' : feeding s → Step s s' → (work_left s' < work_left s)%nat.
Proof.
  intros Hs Hst. unfold work_left. destruct Hst as [w Hp Hr|Hp Hr|Hp Hm|Hp Hm|w Hp Ht Hr|o w Hp Ht|w Hw|n w Hw]; cbn [phase state index at_phase rank].
  - apply receive_left in Hr as (-> & -> & -> & ->). rewrite Hp. cbn [rank]. lia.
  - rewrite Hp. cbn [rank]. lia.
  - rewrite Hp. unfold may_dispatch in Hm. bool_to_prop. unfold dispatch; cbn [next_dispatch jobs running done_queue]. rewrite length_app. cbn [length rank]. lia.
  - rewrite Hp. cbn [rank]. lia.
  - apply receive_left in Hr as (-> & -> & -> & ->). rewrite Hp. cbn [rank]. lia.
  - pose proof (phase_unfinished _ _ Hp I) as Hu. destruct (fd_window _ Hs Hu) as [_ Hlt]. rewrite Hp. unfold take_head in Ht.
    destruct (arrived (state s) !! index s) as [o'|]; [|done]. injection Ht as -> <-.
    destruct o; cbn [insert_next phase index state next_dispatch jobs running done_queue at_phase rank]; [case_if; cbn [rank]; lia|lia].
  - unfold worker_takes in Hw. destruct (jobs (state s)) as [|j l]; [done|]. case_if_in Hw; [|done]. injection Hw as <-.
    cbn [next_dispatch jobs running done_queue]. rewrite length_app. cbn [length]. lia.
  - unfold worker_reports in Hw. destruct (running (state s) !! n) as [job|] eqn:Hj; [|done]. cbn in Hw. destruct (fresh !! job); [|done]. injection Hw as <-.
    cbn [next_dispatch jobs running done_queue]. apply delete_Permutation, Permutation_length in Hj. cbn [length] in Hj. rewrite length_app. cbn [length]. lia.
Qed.

Lemma feeding_ends s : (0 < window)%nat → 0 ≤ budget → feeding s → sn Step s.
Proof.
  intros Hw Hb. remember (work_left s) as n eqn:Hn. revert s Hn. induction n as [n IH] using lt_wf_ind. intros s -> Hs.
  constructor. intros s' Hst. apply (IH (work_left s')); [by apply step_works|done|by apply (feeding_step s)].
Qed.

(** C13. However the serializer threads interleave with the writing thread, the write
    inserts the documents that serializing each extraction in its turn would: at any
    moment it has inserted a first part of them, a finished write has inserted all of
    them and reports the same end, the first failure in the order of the extractions.
    Some step can always be taken until the write is finished, and no run of steps goes
    on forever. *)
Theorem window_is_serializing_in_turn s :
  (0 < threads)%nat → (0 < window)%nat → 0 ≤ budget → Reachable s →
  (∃ more, (insert_inline file_path serialize fresh).1 = inserted s ++ more)
  ∧ (∀ r, phase s = Finished r → insert_inline file_path serialize fresh = (inserted s, r))
  ∧ (unfinished s → ∃ s', Step s s')
  ∧ sn Step s.
Proof.
  intros Hthr Hw Hb Hr. pose proof (reachable_feeding s Hw Hb Hr) as Hs. split; [|split; [apply Hs|split; [by apply unfinished_steps|by apply feeding_ends]]].
  rewrite <- (take_drop (index s) fresh), (insert_inline_app _ _ _ (fd_inserted _ Hs)).
  destruct (insert_inline _ _ (drop (index s) fresh)) as [more r]. by exists more.
Qed.

(** C26. While a write waits, at most a window of its extractions is handed out and not
    inserted, and what it holds is at most a window of the largest payloads: the budget,
    which is held against what has come back and not against what is out, does not raise
    the bound. What the window counts is exactly what has come back, unless that bound
    itself does not fit a [usize]. *)
Theorem window_holds_a_bounded_amount s :
  (0 < window)%nat → 0 ≤ budget → Reachable s → unfinished s →
  (length (outstanding (state s)) ≤ window)%nat
  ∧ arrived_bytes (state s) ≤ largest * Z.of_nat window
  ∧ 0 ≤ held_bytes (state s) ≤ arrived_bytes (state s)
  ∧ (largest * Z.of_nat window ≤ usize_max → held_bytes (state s) = arrived_bytes (state s)).
Proof.
  intros Hw Hb Hr Hu. destruct (fd_window _ (reachable_feeding s Hw Hb Hr) Hu) as [Hok _].
  destruct (outstanding_length _ _ Hok) as [Hl1 Hl2]. destruct Hok as [Hout Hidx Hwin Hdone Harr Hheld Hex].
  pose proof largest_nonneg as Hl. pose proof (bytes_bounded _ Harr) as Hbb. split; [lia|]. split; [|done].
  transitivity (largest * Z.of_nat (length (map_to_list (arrived (state s))))); [done|].
  apply Z.mul_le_mono_nonneg_l; [done|lia].
Qed.

End Feed.

(** ** A run *)

Module Sample.

(** Of two extractions the first is serialized and the second panics. *)
Definition documents : PayloadJson := {| parse_outcome := lit "{}"; engine := lit "[]"; extraction := lit "{}" |}.

Definition serialize (e : str) : Serialized :=
  if bool_decide (e = lit "a.rs") then Returned (Ok documents) else Panicked (Some (lit "boom")).

Definition fresh : list str := [lit "a.rs"; lit "b.rs"].

Abbreviation Run := (step (λ e, e) serialize fresh 1 4 0).

Definition stopped : Write :=
  {| phase := Finished (Err (lit "payload serialization panicked for b.rs: boom")); index := 1; inserted := [documents];
     state := {| jobs := []; running := []; done_queue := []; next_dispatch := 2; held_bytes := 0; arrived := ∅ |} |}.

(** Both are handed out before the first comes back. *)
Definition waiting : Write :=
  {| phase := Waiting; index := 0; inserted := [];
     state := {| jobs := [1%nat]; running := []; done_queue := [(0%nat, Ok documents)]; next_dispatch := 2; held_bytes := 0; arrived := ∅ |} |}.

Lemma run_waits : rtc Run (start fresh) waiting.
Proof.
  eapply rtc_l; [by eapply NothingReady|]. eapply rtc_l; [by eapply HandOut|]. eapply rtc_l; [by eapply HandOut|].
  eapply rtc_l; [by eapply HoldBack|]. eapply rtc_l; [by eapply WorkerTakes|]. eapply rtc_l; [by eapply (WorkerReports _ _ _ _ _ _ _ 0%nat)|]. apply rtc_refl.
Qed.

(** The first has come back and is still to be inserted. *)
Definition holding : Write :=
  {| phase := Waiting; index := 0; inserted := [];
     state := {| jobs := [1%nat]; running := []; done_queue := []; next_dispatch := 2; held_bytes := 6;
                 arrived := <[0%nat := Ok documents]> ∅ |} |}.

Lemma run_holds : rtc Run (start fresh) holding.
Proof. etransitivity; [apply run_waits|]. apply rtc_once. by eapply ReceiveHead. Qed.

Lemma run_stops : rtc Run (start fresh) stopped.
Proof.
  etransitivity; [apply run_waits|].
  eapply rtc_l; [by eapply ReceiveHead|]. eapply rtc_l; [by eapply InsertHead|]. eapply rtc_l; [by eapply NothingReady|].
  eapply rtc_l; [by eapply HoldBack|]. eapply rtc_l; [by eapply WorkerTakes|]. eapply rtc_l; [by eapply (WorkerReports _ _ _ _ _ _ _ 0%nat)|].
  eapply rtc_l; [by eapply ReceiveHead|]. eapply rtc_l; [by eapply InsertHead|]. apply rtc_refl.
Qed.

End Sample.

Lemma window_is_serializing_in_turn_witness :
  insert_inline (λ e, e) Sample.serialize Sample.fresh
  = ([Sample.documents], Err (lit "payload serialization panicked for b.rs: boom")).
Proof.
  destruct (window_is_serializing_in_turn (λ e, e) Sample.serialize Sample.fresh 1 4 0 Sample.stopped
              ltac:(lia) ltac:(lia) ltac:(lia) Sample.run_stops) as (_ & Hend & _).
  by apply Hend.
Defined.

Lemma window_holds_a_bounded_amount_witness :
  (length (outstanding (state Sample.holding)) ≤ 4)%nat ∧ held_bytes (state Sample.holding) = 6
  ∧ arrived_bytes (state Sample.holding) ≤ 6 * 4.
Proof.
  destruct (window_holds_a_bounded_amount (λ e, e) Sample.serialize Sample.fresh 1 4 0 Sample.holding
              ltac:(lia) ltac:(lia) Sample.run_holds I) as (Hl & Hb & _).
  exact (conj Hl (conj eq_refl Hb)).
Defined.

End PayloadProps.
