(* ===== verification/PendingProps.v ===== *)
(** * No edit waits in vain

    [step] interleaves every operation of the queue, by any number of processes: what one
    has read (claims, watermarks, sweeps) is used at any later time. The world logs the
    edits made and what became of them; [accounted] says an edit still stands in the queue,
    was retired by something that had seen it, or moved to another spelling that stands. *)

From stdpp Require Import relations.
From Stdlib Require Import SpecFloat.
From S2P Require Import Prelude RustStr RustStrFacts Order CodeEdges Pending.
Import Order CodeEdges Discovery Pending.

#[local] Open Scope Z_scope.

Module PendingProps.

(** ** Rows *)

Definition bounded (top : Z) (rows : gmap str PendingRow) : Prop := ∀ p row, rows !! p = Some row → revision row ≤ top.

(** The edits of a batch, each with its revision. *)
Fixpoint numbered (before : Z) (paths : list str) : list (str * Z) :=
  match paths with [] => [] | p :: paths => (p, before + 1) :: numbered (before + 1) paths end.

Lemma numbered_range before paths p v : (p, v) ∈ numbered before paths → before < v ≤ before + Z.of_nat (length paths).
Proof.
  revert before. induction paths as [|q paths IH]; intros before; cbn [numbered length]; [by intros ?%not_elem_of_nil|].
  rewrite elem_of_cons. intros [[= -> ->]|Hin]; [lia|]. apply IH in Hin. lia.
Qed.

Lemma insert_edits_newer paths now before rows p row :
  rows !! p = Some row → revision row ≤ before → ∃ row', insert_edits paths now before rows !! p = Some row' ∧ revision row ≤ revision row'.
Proof.
  revert before rows row. induction paths as [|q paths IH]; intros before rows row Hp Hr; cbn [insert_edits]; [by exists row|].
  destruct (decide (q = p)) as [->|Hne].
  - destruct (IH (before + 1) _ _ (lookup_insert_eq rows p {| queued_at := now; attempts := 0; revision := before + 1 |})) as (row' & Hrow' & Hle);
      [by cbn|]. exists row'. split; [done|]. cbn in Hle. lia.
  - apply IH; [|lia]. by rewrite lookup_insert_ne.
Qed.

Lemma insert_edits_bounded paths now before rows :
  bounded before rows → bounded (before + Z.of_nat (length paths)) (insert_edits paths now before rows).
Proof.
  revert before rows. induction paths as [|q paths IH]; intros before rows Hb; cbn [insert_edits length].
  - by rewrite Z.add_0_r.
  - replace (before + Z.of_nat (S (length paths))) with (before + 1 + Z.of_nat (length paths)) by lia. apply IH.
    intros p row. destruct (decide (q = p)) as [->|]; [rewrite lookup_insert_eq; intros [= <-]; cbn; lia|].
    rewrite lookup_insert_ne by done. intros Hrow%Hb. lia.
Qed.

Lemma insert_edits_stand paths now before rows p v :
  (p, v) ∈ numbered before paths → ∃ row, insert_edits paths now before rows !! p = Some row ∧ v ≤ revision row.
Proof.
  revert before rows. induction paths as [|q paths IH]; intros before rows; cbn [numbered insert_edits]; [by intros ?%not_elem_of_nil|].
  rewrite elem_of_cons. intros [[= -> ->]|Hin]; [|by apply IH].
  by apply (insert_edits_newer paths now _ _ _ _ (lookup_insert_eq rows q {| queued_at := now; attempts := 0; revision := before + 1 |})).
Qed.

(** What a batch does to the queue. *)
Lemma upsert_is paths now q q' :
  upsert_pending paths now q = Ok q' →
  last_revision q' = last_revision q + Z.of_nat (length paths)
  ∧ pending q' = insert_edits paths now (last_revision q) (pending q) ∧ epoch q' = epoch q.
Proof.
  unfold upsert_pending. destruct paths as [|p paths]; [intros [= <-]; cbn [length insert_edits]; split; [lia|done]|].
  unfold reserve_pending_revisions. repeat case_if; try done. by intros [= <-].
Qed.

Lemma delete_at_spec path r rows rows' gone p row :
  delete_at path r rows = (rows', gone) →
  (rows' !! p = Some row ↔ rows !! p = Some row ∧ ¬ (p = path ∧ revision row = r))
  ∧ gone = bool_decide (revision <$> rows !! path = Some r).
Proof.
  unfold delete_at. destruct (rows !! path) as [old|] eqn:Hold.
  - case_if; bool_to_prop; intros [= <- <-]; (split; [|cbn]).
    + rewrite lookup_delete_Some. split; [intros [Hne Hp]; split; [done|]; by intros [-> _]|].
      intros [Hp Hn]. split; [intros <-; rewrite Hold in Hp; injection Hp as <-; by apply Hn|done].
    + symmetry. apply bool_decide_eq_true. congruence.
    + split; [intros Hp; split; [done|]; intros [-> Hr]; congruence|by intros [? _]].
    + symmetry. apply bool_decide_eq_false. congruence.
  - intros [= <- <-]. split; [|done]. split; [intros Hp; split; [done|]; intros [-> _]; congruence|by intros [? _]].
Qed.

(** ** The world *)

(** What becomes of the edits of a path: retired up to a revision, or moved to another
    spelling by a sweep, at the revision the merged row takes. *)
Inductive Reason : Type := Acknowledged | Superseded | Quarantined | Unprocessable | Cleared.

Inductive Fate : Type :=
  | Retired (path : str) (upto : Z) (reason : Reason)
  | Moved (path to : str) (at_revision : Z).

Record World := {
  queue : Queue;
  edits : list (str * Z);
  fates : list Fate;
  claims : list PendingClaim;
  marks : list PendingWatermark;
  sweeps : list Sweep;
}.

Definition start (e : str) : World :=
  {| queue := {| epoch := e; last_revision := 1; repo_root := None; pending := ∅ |};
     edits := []; fates := []; claims := []; marks := []; sweeps := [] |}.

Definition after (w : World) (q : Queue) (made : list (str * Z)) (fate : list Fate) : World :=
  {| queue := q; edits := edits w ++ made; fates := fates w ++ fate; claims := claims w; marks := marks w; sweeps := sweeps w |}.

(** A row is still at the revision it was read at. *)
Definition unmoved (q : Queue) (path : str) (r : Z) : bool := bool_decide (revision <$> pending q !! path = Some r).

Definition acknowledged (q : Queue) (cs : list PendingClaim) : list Fate :=
  map (λ c, Retired (c_path c) (w_revision (c_watermark c)) Acknowledged)
    (List.filter (λ c, unmoved q (c_path c) (w_revision (c_watermark c))) cs).

(** The rows a sweep rewrote, at the revisions that follow. *)
Fixpoint moved (before : Z) (l : list (str * str)) : list Fate :=
  match l with [] => [] | (stored, canonical) :: l => Moved stored canonical (before + 1) :: moved (before + 1) l end.

Definition swept (q : Queue) (s : Sweep) (p : PendingReconcile) : list Fate :=
  map (λ d : str * Z, Retired d.1 d.2 Unprocessable) (List.filter (λ d, unmoved q d.1 d.2) (deletes s))
  ++ moved (last_revision q) (rewritten p).

(** Every call of the queue, by whichever process. *)
Inductive step (w : World) : World → Prop :=
  | Enqueues paths now q' : enqueue_pending_paths paths now (queue w) = Ok q' →
      step w (after w q' (numbered (last_revision (queue w)) paths) [])
  | Admits (F : Files) root paths now report q' : enqueue_pending_paths_under_root root paths now (queue w) = Ok (report, q') →
      step w (after w q' (numbered (last_revision (queue w)) (enqueued report)) [])
  | Binds (F : Files) root previous q' : bind_repo_root root (queue w) = Ok (previous, q') → step w (after w q' [] [])
  | Claims limit :
      step w {| queue := queue w; edits := edits w; fates := fates w; claims := claims w ++ claim_pending_batch limit (queue w);
                marks := marks w; sweeps := sweeps w |}
  | Acknowledges cs n q' : cs ⊆ claims w → clear_claimed_pending_paths cs (queue w) = Ok (n, q') →
      step w (after w q' [] (acknowledged (queue w) cs))
  | Charges cs q' : cs ⊆ claims w → bump_pending_attempts cs (queue w) = Ok q' → step w (after w q' [] [])
  | Marks :
      step w {| queue := queue w; edits := edits w; fates := fates w; claims := claims w;
                marks := marks w ++ [pending_watermark (queue w)]; sweeps := sweeps w |}
  | Supersedes rule cleared q' : through_of rule ∈ marks w → clear_pending_superseded rule (queue w) = Ok (cleared, q') →
      step w (after w q' [] (map (λ p, Retired p (w_revision (through_of rule)) Superseded) cleared))
  | DropsQuarantined gone q' : drop_quarantined_pending_paths (queue w) = (gone, q') →
      step w (after w q' [] (map (λ p, Retired p (last_revision (queue w)) Quarantined) gone))
  | Clears paths :
      step w (after w (clear_pending_paths paths (queue w)) [] (map (λ p, Retired p (last_revision (queue w)) Cleared) paths))
  | SweepReads (F : Files) source root indexed :
      step w {| queue := queue w; edits := edits w; fates := fates w; claims := claims w; marks := marks w;
                sweeps := sweeps w ++ [sweep source root indexed (queue w)] |}
  | SweepWrites s p q' : s ∈ sweeps w → apply_sweep s (queue w) = Ok (p, q') → step w (after w q' [] (swept (queue w) s p)).

Definition reachable (w : World) : Prop := ∃ e, rtc step (start e) w.

(** What became of the edits of [p] up to revision [v]. *)
Inductive accounted (rows : gmap str PendingRow) (fs : list Fate) (p : str) (v : Z) : Prop :=
  | StillQueued row : rows !! p = Some row → v ≤ revision row → accounted rows fs p v
  | WasRetired u reason : Retired p u reason ∈ fs → v ≤ u → accounted rows fs p v
  | WasMoved to r : Moved p to r ∈ fs → v < r → accounted rows fs to r → accounted rows fs p v.

(** The revisions of what a process holds. *)
Inductive observed (w : World) : Z → Prop :=
  | InClaim c : c ∈ claims w → observed w (w_revision (c_watermark c))
  | InMark m : m ∈ marks w → observed w (w_revision m)
  | InSweep s d : s ∈ sweeps w → d ∈ deletes s → observed w d.2
  | InRewrite s x : s ∈ sweeps w → x ∈ rewrites s → observed w (revision x.2).

(** ** Accounting for a step *)

Lemma accounted_lower rows fs p u v : accounted rows fs p u → v ≤ u → accounted rows fs p v.
Proof.
  intros [row Hrow Hu|u' reason Hin Hu|to r Hin Hr Hto] Hv; [eapply StillQueued|eapply WasRetired|eapply WasMoved]; try done; lia.
Qed.

(** Enough of a step: every row that stood is accounted for, and fates are not forgotten. *)
Definition accounts (rows : gmap str PendingRow) (rows' : gmap str PendingRow) (fs' : list Fate) : Prop :=
  ∀ p row, rows !! p = Some row → accounted rows' fs' p (revision row).

Lemma accounted_step rows rows' fs fs' p v :
  fs ⊆ fs' → accounts rows rows' fs' → accounted rows fs p v → accounted rows' fs' p v.
Proof.
  intros Hf Hrows Ha. induction Ha as [p v row Hrow Hv|p v u reason Hin Hv|p v to r Hin Hv Hto IH].
  - by eapply accounted_lower; [apply Hrows|].
  - eapply WasRetired; [by apply Hf|done].
  - eapply WasMoved; [by apply Hf|done|done].
Qed.

Lemma accounted_more rows fs fs' p v : fs ⊆ fs' → accounted rows fs p v → accounted rows fs' p v.
Proof. intros Hf. apply accounted_step; [done|]. intros q row Hrow. by eapply StillQueued. Qed.

Lemma accounts_refl rows fs : accounts rows rows fs.
Proof. intros p row Hrow. by eapply StillQueued. Qed.

(** Rows that keep their revisions are accounted for. *)
Lemma accounts_same rows rows' fs : (∀ p, revision <$> rows' !! p = revision <$> rows !! p) → accounts rows rows' fs.
Proof.
  intros Hs p row Hrow. specialize (Hs p). rewrite Hrow in Hs. destruct (rows' !! p) as [row'|] eqn:Hp; [|done].
  injection Hs as Hs. eapply StillQueued; [done|]. lia.
Qed.

Lemma upsert_accounts paths now q q' fs :
  bounded (last_revision q) (pending q) → upsert_pending paths now q = Ok q' →
  accounts (pending q) (pending q') fs ∧ bounded (last_revision q') (pending q') ∧ last_revision q ≤ last_revision q'
  ∧ ∀ p v, (p, v) ∈ numbered (last_revision q) paths → v ≤ last_revision q' ∧ accounted (pending q') fs p v.
Proof.
  intros Hb (Hl & Hp & _)%upsert_is. rewrite Hl, Hp. split; [|split; [by apply insert_edits_bounded|split; [lia|]]].
  - intros p row Hrow. destruct (insert_edits_newer paths now (last_revision q) _ _ _ Hrow (Hb _ _ Hrow)) as (row' & Hrow' & Hle).
    by eapply StillQueued.
  - intros p v Hin. split; [by apply numbered_range in Hin as [_ ?]|].
    destruct (insert_edits_stand paths now _ (pending q) _ _ Hin) as (row & Hrow & Hv). by eapply StillQueued.
Qed.

(** ** Acknowledging *)

Lemma clear_claimed_spec cs q n q' :
  clear_claimed_pending_paths cs q = Ok (n, q') →
  last_revision q' = last_revision q ∧ epoch q' = epoch q
  ∧ ∀ p row, pending q' !! p = Some row ↔
      pending q !! p = Some row ∧ ∀ c, c ∈ cs → ¬ (p = c_path c ∧ revision row = w_revision (c_watermark c)).
Proof.
  revert q n. induction cs as [|c cs IH]; intros q n; cbn [clear_claimed_pending_paths].
  - intros [= <- <-]. split; [done|]. split; [done|]. intros p row. split; [|by intros [? _]]. intros Hp. split; [done|]. by intros ? ?%not_elem_of_nil.
  - unfold check_pending_epoch. case_decide; [|done]. destruct (delete_at _ _ _) as [rows gone] eqn:Hd.
    destruct (clear_claimed_pending_paths cs _) as [[m q1]|] eqn:Hc; [|done]. intros [= <- <-].
    apply IH in Hc as (Hl & He & Hrows). split; [done|]. split; [done|]. intros p row. rewrite Hrows. cbn [with_pending pending].
    rewrite (proj1 (delete_at_spec _ _ _ _ _ p row Hd)). setoid_rewrite elem_of_cons. split.
    + intros [[Hp Hn] Hall]. split; [done|]. intros c' [->|Hin]; [done|by apply Hall].
    + intros [Hp Hall]. split; [split; [done|]|]; intros; apply Hall; auto.
Qed.

Lemma clear_claimed_accounts cs q n q' :
  clear_claimed_pending_paths cs q = Ok (n, q') → accounts (pending q) (pending q') (acknowledged q cs).
Proof.
  intros (_ & _ & Hrows)%clear_claimed_spec p row Hrow.
  destruct (decide (Exists (λ c, p = c_path c ∧ revision row = w_revision (c_watermark c)) cs)) as [Hex|Hne].
  - apply Exists_exists in Hex as (c & Hc & -> & Hr). eapply WasRetired; [|by rewrite Hr].
    unfold acknowledged. rewrite elem_of_map. exists c. split; [done|]. rewrite elem_of_filter_bool. split; [done|].
    unfold unmoved. apply bool_decide_eq_true. by rewrite Hrow, <- Hr.
  - eapply StillQueued; [|done]. apply Hrows. split; [done|]. intros c Hc Hm. apply Hne. apply Exists_exists. by exists c.
Qed.

Lemma charge_revision r row : revision (charge_attempt r row) = revision row.
Proof. unfold charge_attempt. by case_if. Qed.

Lemma bump_spec cs q q' :
  bump_pending_attempts cs q = Ok q' →
  last_revision q' = last_revision q ∧ ∀ p, revision <$> pending q' !! p = revision <$> pending q !! p.
Proof.
  revert q. induction cs as [|c cs IH]; intros q; cbn [bump_pending_attempts]; [by intros [= <-]|].
  unfold check_pending_epoch. case_decide; [|done]. intros (Hl & Hr)%IH. split; [done|]. intros p. rewrite Hr. cbn [with_pending pending].
  destruct (decide (c_path c = p)) as [<-|]; [|by rewrite lookup_alter_ne]. rewrite lookup_alter_eq.
  destruct (pending q !! c_path c); cbn; [by rewrite charge_revision|done].
Qed.

(** ** Retiring *)

Lemma delete_all_spec (paths : list str) (rows : gmap str PendingRow) p row :
  foldl (λ m path, delete path m) rows paths !! p = Some row ↔ rows !! p = Some row ∧ p ∉ paths.
Proof.
  revert rows. induction paths as [|q paths IH]; intros rows; cbn [foldl]; [split; [intros; split; [done|apply not_elem_of_nil]|by intros [? _]]|].
  rewrite IH, lookup_delete_Some, not_elem_of_cons. naive_solver.
Qed.

Lemma elem_of_rows_by_path q r : r ∈ rows_by_path q ↔ pending q !! r.1 = Some r.2.
Proof. unfold rows_by_path. rewrite elem_of_sort_by. destruct r as [p row]. apply elem_of_map_to_list. Qed.

Lemma superseded_spec rule q cleared q' :
  clear_pending_superseded rule q = Ok (cleared, q') →
  last_revision q' = last_revision q
  ∧ (∀ p, p ∈ cleared ↔ ∃ row, pending q !! p = Some row ∧ revision row ≤ w_revision (through_of rule) ∧ answers rule p = true)
  ∧ ∀ p row, pending q' !! p = Some row ↔ pending q !! p = Some row ∧ p ∉ cleared.
Proof.
  unfold clear_pending_superseded, check_pending_epoch. case_decide; [|done]. intros [= <- <-]. split; [done|]. split.
  - intros p. rewrite elem_of_filter_bool, elem_of_map. setoid_rewrite elem_of_filter_bool. setoid_rewrite elem_of_rows_by_path. split.
    + intros [((q' & row) & -> & Hrow & Hle) Ha]. bool_to_prop. by exists row.
    + intros (row & Hrow & Hle & Ha). split; [|done]. exists (p, row). split; [done|]. split; [done|]. by apply Z.leb_le.
  - intros p row. cbn [with_pending pending]. apply delete_all_spec.
Qed.

Lemma quarantine_spec q gone q' :
  drop_quarantined_pending_paths q = (gone, q') →
  last_revision q' = last_revision q
  ∧ (∀ p, p ∈ gone ↔ ∃ row, pending q !! p = Some row ∧ quarantined row = true)
  ∧ ∀ p row, pending q' !! p = Some row ↔ pending q !! p = Some row ∧ quarantined row = false.
Proof.
  unfold drop_quarantined_pending_paths. intros [= <- <-]. split; [done|]. split.
  - intros p. rewrite elem_of_map. setoid_rewrite elem_of_sort_by. setoid_rewrite elem_of_filter_bool. split.
    + intros ([p' row] & -> & Hin%elem_of_map_to_list & Hq). by exists row.
    + intros (row & Hrow & Hq). exists (p, row). split; [done|]. split; [by apply elem_of_map_to_list|done].
  - intros p row. cbn [with_pending pending]. by rewrite map_lookup_filter_Some.
Qed.

(** ** Sweeping *)

(** What a sweep holds it has read. *)
Record reads (rows : gmap str PendingRow) (s : Sweep) : Prop := {
  rd_deletes : ∀ d, d ∈ deletes s → ∃ row, rows !! d.1 = Some row ∧ revision row = d.2;
  rd_rewrites : ∀ x, x ∈ rewrites s → rows !! x.1.1 = Some x.2;
  rd_rewritten : rewritten (outcome s) = [];
}.

Lemma sweep_row_reads `{Files} source root indexed rows st r :
  reads rows st.1 → rows !! r.1 = Some r.2 → reads rows (sweep_row source root indexed st r).1.
Proof.
  destruct st as [s caches], r as [stored row]. cbn [fst snd]. intros Hs Hr. unfold sweep_row.
  assert (Hkeep : reads rows (keep_row s)) by (destruct Hs; by split).
  assert (Hdrop : ∀ reason, reads rows (drop_row stored reason row s)).
  { intros reason. destruct Hs as [Hd Hx Hn]. split; cbn; [|done|done]. intros d. rewrite elem_of_app, list_elem_of_singleton.
    intros [Hd1| ->]; [by apply Hd|by exists row]. }
  destruct (canonical_pending_entry root stored) as [canonical| | |]; [|exact Hkeep|apply Hdrop|exact Hkeep].
  destruct (classify_pending_entry source root canonical indexed caches) as [[ok|reason] memo]; [|apply Hdrop].
  case_decide; [exact Hkeep|]. destruct Hs as [Hd Hx Hn]. split; cbn; [done| |done]. intros x. rewrite elem_of_app, list_elem_of_singleton.
  intros [Hd1| ->]; [by apply Hx|done].
Qed.

Lemma sweep_reads `{Files} source root indexed q : reads (pending q) (sweep source root indexed q).
Proof.
  unfold sweep. assert (Hs : reads (pending q) (no_sweep, ∅ : gmap str (result bool str)).1) by (split; cbn; [by intros ? ?%not_elem_of_nil..|done]).
  revert Hs. generalize (no_sweep, ∅ : gmap str (result bool str)) as st. assert (Hrows : ∀ r, r ∈ rows_by_path q → pending q !! r.1 = Some r.2) by (intros r; by rewrite elem_of_rows_by_path).
  induction (rows_by_path q) as [|r l IH]; intros st Hs; cbn [foldl]; [done|].
  apply IH; [intros r' Hr'; apply Hrows; by right|]. apply sweep_row_reads; [done|]. apply Hrows. by left.
Qed.

(** The deletes of a sweep take the rows that have not moved. *)
Lemma apply_deletes_spec l st :
  let st' := foldl apply_delete st l in
  rewritten st'.1 = rewritten st.1
  ∧ ∀ p row, st'.2 !! p = Some row ↔ st.2 !! p = Some row ∧ ∀ d, d ∈ l → ¬ (p = d.1 ∧ revision row = d.2).
Proof.
  revert st. induction l as [|d l IH]; intros [o rows]; cbn [foldl fst snd].
  - split; [done|]. intros p row. split; [intros ?; split; [done|]; by intros ? ?%not_elem_of_nil|by intros [? _]].
  - destruct (IH (apply_delete (o, rows) d)) as [Hw Hrows]. unfold apply_delete in Hw, Hrows |- *; cbn [fst snd] in *.
    destruct (delete_at d.1 d.2 rows) as [rows1 gone] eqn:Hd. split; [rewrite Hw; by case_if|].
    intros p row. rewrite Hrows. destruct (delete_at_spec _ _ _ _ _ p row Hd) as [Hspec _].
    replace ((if gone then _ else _).2) with rows1 by by case_if. rewrite Hspec. setoid_rewrite elem_of_cons. split.
    + intros [[Hp Hn] Hall]. split; [done|]. intros d' [->|?]; [done|by apply Hall].
    + intros [Hp Hall]. split; [split; [done|]|]; intros; apply Hall; auto.
Qed.

(** The rewrites move rows to new revisions, one after another. *)
Lemma apply_rewrites_spec l o q o' q' :
  bounded (last_revision q) (pending q) → apply_rewrites l o q = Ok (o', q') →
  ∃ made, rewritten o' = rewritten o ++ made ∧ bounded (last_revision q') (pending q')
    ∧ last_revision q ≤ last_revision q' ∧ accounts (pending q) (pending q') (moved (last_revision q) made)
    ∧ ∀ to r stored, Moved stored to r ∈ moved (last_revision q) made → r ≤ last_revision q'.
Proof.
  revert o q. induction l as [|[[stored canonical] row] l IH]; intros o q Hb; cbn [apply_rewrites].
  - intros [= <- <-]. exists []. rewrite app_nil_r. cbn [moved]. split; [done|]. split; [done|]. split; [lia|].
    split; [apply accounts_refl|]. by intros ??? ?%not_elem_of_nil.
  - destruct (delete_at stored (revision row) (pending q)) as [rows gone] eqn:Hd. pose proof (λ p r, delete_at_spec _ _ _ _ _ p r Hd) as Hspec.
    destruct gone.
    2: { intros Hl. assert (rows = pending q) as ->.
         { unfold delete_at in Hd. destruct (pending q !! stored); [case_if_in Hd; congruence|congruence]. }
         destruct q; by apply IH in Hl. }
    unfold reserve_pending_revisions. repeat case_if; try done. cbn [last_revision epoch repo_root pending with_pending].
    bool_to_prop. intros Hl. apply IH in Hl as (made & Hm & Hb' & Hle & Hacc & Htop).
    2: { intros p r. destruct (decide (canonical = p)) as [<-|].
         - cbn. rewrite lookup_insert_eq. intros [= <-]. unfold merge_row. destruct (rows !! canonical); cbn; lia.
         - cbn. rewrite lookup_insert_ne by done. intros [Hr%Hb _]%Hspec. lia. }
    cbn [last_revision with_pending pending rewritten] in *. exists ((stored, canonical) :: made).
    split; [by rewrite Hm, <- app_assoc|]. split; [done|]. split; [lia|].
    set (rows1 := <[canonical := _]> rows) in Hacc. set (fs := moved (last_revision q) ((stored, canonical) :: made)).
    assert (Hnew : accounted rows1 fs canonical (last_revision q + 1)).
    { eapply StillQueued; [by apply lookup_insert_eq|]. unfold merge_row. destruct (rows !! canonical); cbn; lia. }
    split.
    + intros p r Hp. apply (accounted_step rows1 _ fs).
      * done.
      * intros p' r' Hp'. apply (accounted_more _ (moved (last_revision q + 1) made)); [intros f Hf; by right|]. by apply Hacc.
      * destruct (decide (p = canonical)) as [->|Hne]; [eapply accounted_lower; [done|]; specialize (Hb _ _ Hp); lia|].
        destruct (decide (p = stored ∧ revision r = revision row)) as [[-> Hr]|Hn].
        -- eapply WasMoved; [by left|specialize (Hb _ _ Hp); lia|done].
        -- eapply StillQueued; [|done]. unfold rows1. rewrite lookup_insert_ne by done. by apply Hspec.
    + intros to r st. unfold fs. cbn [moved]. rewrite elem_of_cons. intros [[= -> -> ->]|Hin]; [lia|by eapply Htop].
Qed.

Lemma apply_sweep_spec s q o q' :
  bounded (last_revision q) (pending q) → rewritten (outcome s) = [] → apply_sweep s q = Ok (o, q') →
  bounded (last_revision q') (pending q') ∧ last_revision q ≤ last_revision q'
  ∧ accounts (pending q) (pending q') (swept q s o).
Proof.
  intros Hb Hn. unfold apply_sweep. destruct (apply_deletes_spec (deletes s) (outcome s, pending q)) as [Hw Hrows].
  destruct (foldl apply_delete _ _) as [o1 rows]. cbn [fst snd] in *. rewrite Hn in Hw. intros Ha.
  apply apply_rewrites_spec in Ha as (made & Hm & Hb' & Hle & Hacc & _); [|intros p row [Hp _]%Hrows; exact (Hb _ _ Hp)].
  cbn [with_pending last_revision pending] in *. rewrite Hw in Hm. cbn in Hm. split; [done|]. split; [done|].
  intros p row Hp. unfold swept. rewrite Hm.
  destruct (decide (Exists (λ d, p = d.1 ∧ revision row = d.2) (deletes s))) as [Hex|Hno].
  - apply Exists_exists in Hex as (d & Hd & -> & Hr). eapply (WasRetired _ _ _ _ d.2); [|by rewrite Hr].
    apply elem_of_app. left. rewrite elem_of_map. exists d. split; [done|]. rewrite elem_of_filter_bool. split; [done|].
    unfold unmoved. apply bool_decide_eq_true. by rewrite Hp, <- Hr.
  - eapply accounted_more; [|apply Hacc, Hrows; split; [done|]; intros d Hd Hm'; apply Hno, Exists_exists; by exists d].
    intros f Hf. apply elem_of_app. by right.
Qed.

(** ** The invariant *)

Record tidy (w : World) : Prop := {
  td_bounded : bounded (last_revision (queue w)) (pending (queue w));
  td_edits : ∀ p v, (p, v) ∈ edits w → v ≤ last_revision (queue w);
  td_observed : ∀ r, observed w r → r ≤ last_revision (queue w);
  td_sweeps : ∀ s, s ∈ sweeps w → rewritten (outcome s) = [];
  td_accounted : ∀ p v, (p, v) ∈ edits w → accounted (pending (queue w)) (fates w) p v;
}.

Lemma tidy_start e : tidy (start e).
Proof.
  split; cbn.
  - by intros p row [=].
  - by intros p v ?%not_elem_of_nil.
  - intros r [c Hc|m Hm|s d Hs|s x Hs]; cbn in *; by apply not_elem_of_nil in Hc || apply not_elem_of_nil in Hm || apply not_elem_of_nil in Hs.
  - by intros s ?%not_elem_of_nil.
  - by intros p v ?%not_elem_of_nil.
Qed.

(** A world that may come next: its new edits are later than everything before. *)
Record follows (w w' : World) : Prop := {
  fl_tidy : tidy w';
  fl_last : last_revision (queue w) ≤ last_revision (queue w');
  fl_edits : ∀ p v, (p, v) ∈ edits w' → (p, v) ∈ edits w ∨ last_revision (queue w) < v;
}.

Lemma observed_after w q made fate r : observed (after w q made fate) r ↔ observed w r.
Proof. split; intros [c Hc|m Hm|s d Hs Hd|s x Hs Hx]; by econstructor. Qed.

(** Enough of a change of the queue: its rows stay in bounds and are accounted for, and
    what was made stands at revisions of its own. *)
Lemma tidy_after w q made fate :
  tidy w → bounded (last_revision q) (pending q) → last_revision (queue w) ≤ last_revision q →
  accounts (pending (queue w)) (pending q) fate →
  (∀ p v, (p, v) ∈ made → last_revision (queue w) < v ≤ last_revision q ∧ accounted (pending q) fate p v) →
  follows w (after w q made fate).
Proof.
  intros [Hb He Ho Hs Ha] Hb' Hle Hacc Hmade. split; [|done|].
  2: { intros p v [Hin|Hin]%elem_of_app; [by left|]. right. by apply Hmade in Hin as [[? _] _]. }
  assert (Hold : ∀ p v, accounted (pending (queue w)) (fates w) p v → accounted (pending q) (fates w ++ fate) p v).
  { intros p v. apply accounted_step; [intros f Hf; apply elem_of_app; by left|]. intros p' row Hrow.
    apply (accounted_more _ fate); [intros f Hf; apply elem_of_app; by right|]. by apply Hacc. }
  split; cbn; [done| | |done|].
  - intros p v [Hin|Hin]%elem_of_app; [apply He in Hin; lia|by apply Hmade in Hin as [[_ ?] _]].
  - intros r Hr%observed_after%Ho. lia.
  - intros p v [Hin|Hin]%elem_of_app; [by apply Hold, Ha|]. apply Hmade in Hin as [_ Hin].
    apply (accounted_more _ fate); [intros f Hf; apply elem_of_app; by right|done].
Qed.

Lemma nothing_made q (fs : list Fate) (top : Z) p v : (p, v) ∈ ([] : list (str * Z)) → top < v ≤ last_revision q ∧ accounted (pending q) fs p v.
Proof. by intros ?%not_elem_of_nil. Qed.

Lemma bind_keeps `{Files} root previous q q' :
  bind_repo_root_in root q = Ok (previous, q') → last_revision q' = last_revision q ∧ pending q' = pending q.
Proof.
  unfold bind_repo_root_in. destruct (repo_root_owner q root) as [[| |owner|owner]|]; try done; try by intros [= _ <-].
  destruct (metadata root); [case_decide|]; try done. by intros [= _ <-].
Qed.

Lemma admission_is `{Files} root paths now q report q' :
  enqueue_pending_paths_under_root root paths now q = Ok (report, q') →
  ∃ q1, last_revision q1 = last_revision q ∧ pending q1 = pending q ∧ upsert_pending (enqueued report) now q1 = Ok q'.
Proof.
  unfold enqueue_pending_paths_under_root. destruct (foldl _ _ paths) as [[canonical refused] caches].
  destruct (sort_strs (elements canonical)) as [|e l]; [intros [= <- <-]; by exists q|].
  destruct (normalized_repo_root root) as [owner|]; [|done]. destruct (bind_repo_root_in owner q) as [[previous q1]|] eqn:Hb; [|done].
  destruct (upsert_pending (e :: l) now q1) as [q2|] eqn:Hu; [|done]. intros [= <- <-]. exists q1.
  apply bind_keeps in Hb as [? ?]. done.
Qed.

Lemma tidy_batch w paths now q0 q' :
  tidy w → last_revision q0 = last_revision (queue w) → pending q0 = pending (queue w) → upsert_pending paths now q0 = Ok q' →
  follows w (after w q' (numbered (last_revision (queue w)) paths) []).
Proof.
  intros Ht Hl Hp Hu. destruct (upsert_accounts paths now q0 q' []) as (Hacc & Hb & Hle & Hmade); [rewrite Hl, Hp; apply Ht|done|].
  rewrite Hl, Hp in *. apply tidy_after; try done. intros p v Hin. destruct (Hmade p v Hin) as [Hv Ha]. apply numbered_range in Hin. split; [lia|done].
Qed.

Lemma claim_revisions q limit c : c ∈ claim_pending_batch limit q →
  ∃ row, pending q !! c_path c = Some row ∧ w_revision (c_watermark c) = revision row ∧ attempts row < MAX_PENDING_ATTEMPTS.
Proof.
  unfold claim_pending_batch, limited. case_if; [by intros ?%not_elem_of_nil|]. intros (i & Hin%list_elem_of_lookup_2 & _)%elem_of_take.
  apply elem_of_map in Hin as ([p row] & -> & Hin). unfold retryable in Hin. rewrite elem_of_sort_by, elem_of_filter_bool in Hin.
  destruct Hin as [Hin%elem_of_map_to_list Ha]. cbn in Ha. bool_to_prop. by exists row.
Qed.

(** A call that reads leaves the world tidy if it read no more than there is. *)
Lemma tidy_reading w cs ms ss :
  tidy w → (∀ c, c ∈ cs → w_revision (c_watermark c) ≤ last_revision (queue w)) →
  (∀ m, m ∈ ms → w_revision m ≤ last_revision (queue w)) → (∀ s, s ∈ ss → reads (pending (queue w)) s) →
  follows w {| queue := queue w; edits := edits w; fates := fates w; claims := claims w ++ cs; marks := marks w ++ ms; sweeps := sweeps w ++ ss |}.
Proof.
  intros [Hb He Ho Hs Ha] Hcs Hms Hss. split; [|done|by left]. split; cbn; try done.
  - intros r [c Hc|m Hm|s d Hin Hd|s x Hin Hx]; cbn in *.
    + apply elem_of_app in Hc as [Hc|Hc]; [by apply Ho, InClaim|by apply Hcs].
    + apply elem_of_app in Hm as [Hm|Hm]; [by apply Ho, InMark|by apply Hms].
    + apply elem_of_app in Hin as [Hin|Hin]; [by eapply Ho, InSweep|]. destruct (rd_deletes _ _ (Hss _ Hin) _ Hd) as (row & Hrow & <-).
      by apply Hb in Hrow.
    + apply elem_of_app in Hin as [Hin|Hin]; [by eapply Ho, InRewrite|]. pose proof (rd_rewrites _ _ (Hss _ Hin) _ Hx) as Hrow.
      by apply Hb in Hrow.
  - intros s [Hin|Hin]%elem_of_app; [by apply Hs|by apply Hss].
Qed.

(** Rows deleted for a reason are accounted for by it. *)
Lemma tidy_retired w q (gone : list str) upto reason :
  tidy w → last_revision q = last_revision (queue w) →
  (∀ p row, pending (queue w) !! p = Some row → pending q !! p = Some row ∨ p ∈ gone ∧ revision row ≤ upto) →
  (∀ p row, pending q !! p = Some row → pending (queue w) !! p = Some row) →
  follows w (after w q [] (map (λ p, Retired p upto reason) gone)).
Proof.
  intros Ht Hl Hgone Hrows. apply tidy_after; [done| |lia| |intros; by apply nothing_made].
  - intros p row Hp. rewrite Hl. by eapply (td_bounded _ Ht), Hrows.
  - intros p row Hp. destruct (Hgone p row Hp) as [Hq|[Hin Hle]]; [by eapply StillQueued|].
    eapply WasRetired; [|done]. rewrite elem_of_map. by exists p.
Qed.

Lemma step_follows w w' : tidy w → step w w' → follows w w'.
Proof.
  intros Ht Hst. pose proof (td_bounded _ Ht) as Hb.
  destruct Hst as [paths now q' Hq|F root paths now report q' Hq|F root previous q' Hq|limit|cs n q' Hcs Hq|cs q' Hcs Hq| |rule cleared q' Hm Hq|gone q' Hq|paths|F source root indexed|s p q' Hin Hq].
  - by eapply tidy_batch.
  - apply admission_is in Hq as (q1 & Hl & Hp & Hu). by eapply tidy_batch.
  - unfold bind_repo_root in Hq. destruct (normalized_repo_root root) as [r|]; [|done]. apply bind_keeps in Hq as [Hl Hp].
    apply tidy_after; [done|by rewrite Hl, Hp|lia|rewrite Hp; apply accounts_refl|intros; by apply nothing_made].
  - pose proof (tidy_reading w (claim_pending_batch limit (queue w)) [] [] Ht) as Hr. rewrite !app_nil_r in Hr. apply Hr.
    + intros c (row & Hrow & -> & _)%claim_revisions. by apply Hb in Hrow.
    + by intros ? ?%not_elem_of_nil.
    + by intros ? ?%not_elem_of_nil.
  - pose proof (clear_claimed_accounts _ _ _ _ Hq) as Hacc. apply clear_claimed_spec in Hq as (Hl & _ & Hrows).
    apply tidy_after; [done| |lia|done|intros; by apply nothing_made]. rewrite Hl. intros p row [Hp _]%Hrows. by apply Hb in Hp.
  - apply bump_spec in Hq as [Hl Hrows]. apply tidy_after; [done| |lia|by apply accounts_same|intros; by apply nothing_made].
    rewrite Hl. intros p row Hp. specialize (Hrows p). rewrite Hp in Hrows. destruct (pending (queue w) !! p) as [old|] eqn:Hold; [|done].
    injection Hrows as ->. by apply Hb in Hold.
  - pose proof (tidy_reading w [] [pending_watermark (queue w)] [] Ht) as Hr. rewrite !app_nil_r in Hr. apply Hr.
    + by intros ? ?%not_elem_of_nil.
    + intros m ->%list_elem_of_singleton. cbn. lia.
    + by intros ? ?%not_elem_of_nil.
  - apply superseded_spec in Hq as (Hl & Hc & Hrows). apply tidy_retired; [done|done| |by intros p row [Hp _]%Hrows].
    intros p row Hp. destruct (decide (p ∈ cleared)) as [Hin|Hn]; [right|left; by apply Hrows]. split; [done|].
    apply Hc in Hin as (row' & Hp' & Hle & _). congruence.
  - apply quarantine_spec in Hq as (Hl & Hg & Hrows). apply tidy_retired; [done|done| |by intros p row [Hp _]%Hrows].
    intros p row Hp. destruct (quarantined row) eqn:Hqr; [right|left; by apply Hrows]. split; [apply Hg; by exists row|by apply Hb in Hp].
  - apply tidy_retired; [done|done| |by intros p row [Hp _]%delete_all_spec]. intros p row Hp.
    destruct (decide (p ∈ paths)) as [Hin|Hn]; [right; split; [done|by apply Hb in Hp]|left; by apply delete_all_spec].
  - pose proof (tidy_reading w [] [] [sweep source root indexed (queue w)] Ht) as Hr. rewrite !app_nil_r in Hr. apply Hr.
    + by intros ? ?%not_elem_of_nil.
    + by intros ? ?%not_elem_of_nil.
    + intros s ->%list_elem_of_singleton. apply sweep_reads.
  - apply apply_sweep_spec in Hq as (Hb' & Hle & Hacc); [|done|by apply (td_sweeps _ Ht)].
    apply tidy_after; try done. intros; by apply nothing_made.
Qed.

Lemma steps_follow w w' : tidy w → rtc step w w' → follows w w'.
Proof.
  intros Ht Hr. revert Ht. induction Hr as [w|w1 w2 w3 Hst Hr IH]; intros Ht; [split; [done|lia|by left]|].
  destruct (step_follows _ _ Ht Hst) as [Ht2 Hl2 He2]. destruct (IH Ht2) as [Ht3 Hl3 He3]. split; [done|lia|].
  intros p v [Hin|Hin]%He3; [by apply He2|right; lia].
Qed.

Lemma reachable_tidy w : reachable w → tidy w.
Proof. intros [e Hr]. by apply (steps_follow _ _ (tidy_start e)). Qed.

(** C12. No edit waits in vain, whatever the interleaving: an edit once queued is still
    queued, under its path at its revision or a later one, or was retired up to a revision
    that covers it, or was moved by a sweep to another spelling of which the same holds.
    And what a process has read retires nothing that came after: an edit made later has a
    revision beyond every claim, watermark and sweep that was held before it. *)
Theorem no_edit_is_lost w w' :
  reachable w → rtc step w w' →
  (∀ p v, (p, v) ∈ edits w' → accounted (pending (queue w')) (fates w') p v)
  ∧ ∀ p v, (p, v) ∈ edits w' → (p, v) ∉ edits w → ∀ r, observed w r → r < v.
Proof.
  intros Ht%reachable_tidy Hr. destruct (steps_follow _ _ Ht Hr) as [Ht' Hl He]. split; [by apply td_accounted|].
  intros p v Hin Hn r Ho%(td_observed _ Ht). destruct (He p v Hin) as [?|?]; [done|lia].
Qed.

(** ** Spellings *)

(** A part of a path that is a name. *)
Definition is_name (s : str) : Prop := s ≠ [] ∧ s ≠ lit "." ∧ s ≠ lit ".." ∧ slash ∉ s.

(** The spelling of a path under the root, by its parts. *)
Definition spell (parts : list str) : str := match parts with [] => lit "." | _ => join [slash] parts end.

Lemma split_on_app_at p a c b : p c = true → split_on p (a ++ c :: b) = split_on p a ++ split_on p b.
Proof.
  intros Hc. induction a as [|d a IH]; cbn [app split_on]; [by rewrite Hc|]. rewrite IH.
  pose proof (split_on_nonempty p a) as Hne. destruct (p d); [done|]. by destruct (split_on p a).
Qed.

Lemma piece_name s n : slash ∉ s → piece s = Some (Normal n) → n = s ∧ is_name s.
Proof.
  intros Hs. unfold piece, is_name. case_bool_decide as Hd; [done|]. case_bool_decide as Hp; [done|]. intros [= <-].
  split; [done|]. split; [naive_solver|]. split; [naive_solver|done].
Qed.

Lemma name_piece s : is_name s → piece s = Some (Normal s).
Proof. intros (H1 & H2 & H3 & _). unfold piece. rewrite !bool_decide_false; naive_solver. Qed.

(** The names among the components of a path are parts of its text. *)
Lemma component_names path n : Normal n ∈ components path → is_name n ∧ ∀ c, c ∈ n → c ∈ path.
Proof.
  unfold components. rewrite elem_of_app. intros [Hin|Hin].
  - exfalso. destruct (is_absolute path); [by apply list_elem_of_singleton in Hin|].
    destruct (split_on _ _) as [|p l]; [by apply not_elem_of_nil in Hin|]. case_bool_decide; [by apply list_elem_of_singleton in Hin|by apply not_elem_of_nil in Hin].
  - apply list_elem_of_omap in Hin as (s & Hs & Hp). destruct (join_split_on slash path) as [_ Hf]. rewrite Forall_forall in Hf.
    apply piece_name in Hp as [-> Hn]; [|by apply Hf]. split; [done|]. intros c Hc. by eapply split_on_chars.
Qed.

Lemma pieces_of_spelling parts : Forall is_name parts → omap piece (split_on (Z.eqb slash) (spell parts)) = map Normal parts.
Proof.
  intros Hn. destruct parts as [|p parts]; [done|]. unfold spell. rewrite split_on_join; [|done|].
  - induction Hn as [|q l Hq Hl IH]; [done|]. cbn [omap list_omap map]. rewrite name_piece by done. by f_equal.
  - eapply Forall_impl; [exact Hn|]. by intros q (_ & _ & _ & ?).
Qed.

Lemma spelling_relative parts : Forall is_name parts → is_absolute (spell parts) = false.
Proof.
  intros Hn. destruct parts as [|p parts]; [done|]. apply Forall_cons in Hn as [(Hne & _ & _ & Hs) _].
  destruct p as [|c p]; [done|]. unfold is_absolute. apply not_true_iff_false. rewrite starts_with_spec. intros [r Hr].
  apply Hs. replace slash with c; [by left|]. cbn in Hr. by destruct parts; injection Hr.
Qed.

Lemma normal_parts_names parts : normal_parts (map Normal parts) = Some parts.
Proof. induction parts as [|p l IH]; [done|]. cbn [map normal_parts]. by rewrite IH. Qed.

Lemma entry_of_names parts : entry_of (map Normal parts) = Canonical (spell parts).
Proof. unfold entry_of. rewrite normal_parts_names. by destruct parts. Qed.

Lemma entry_of_spelling parts : Forall is_name parts → entry_of (components (spell parts)) = Canonical (spell parts).
Proof.
  intros Hn. unfold components. rewrite spelling_relative, pieces_of_spelling by done. destruct parts as [|p parts]; [done|].
  unfold spell. rewrite split_on_join; [|done|eapply Forall_impl; [exact Hn|]; by intros q (_ & _ & _ & ?)].
  rewrite bool_decide_false; [apply entry_of_names|]. apply Forall_cons in Hn as [(_ & ? & _) _]. done.
Qed.

Lemma entry_names l c : entry_of l = Canonical c → ∃ parts, c = spell parts ∧ ∀ n, n ∈ parts → Normal n ∈ l.
Proof.
  assert (Hin : ∀ parts, normal_parts l = Some parts → ∀ n, n ∈ parts → Normal n ∈ l).
  { induction l as [|[| | |m] l IH]; cbn [normal_parts]; try done; [intros parts [= <-]; by intros ? ?%not_elem_of_nil| |].
    - intros parts Hp n Hn. right. by eapply IH.
    - destruct (normal_parts l) as [ps|]; [|done]. intros parts [= <-] n [->|Hn]%elem_of_cons; [by left|]. right. by eapply IH. }
  unfold entry_of. destruct (normal_parts l) as [parts|]; [|done]. intros Hc. exists parts. split; [|by apply Hin]. by destruct parts; injection Hc.
Qed.

Lemma strip_components_suffix base path rest : strip_components base path = Some rest ↔ path = base ++ rest.
Proof.
  revert path. induction base as [|c base IH]; intros path; cbn [strip_components app]; [split; congruence|].
  destruct path as [|d path]; [done|]. case_decide as Hd; [subst d; rewrite IH; split; congruence|split; congruence].
Qed.

Lemma canonical_names `{Files} root raw c :
  canonical_pending_entry root raw = Canonical c →
  ∃ parts, c = spell parts ∧ Forall is_name parts ∧ ∀ n d, n ∈ parts → d ∈ n → d ∈ raw.
Proof.
  assert (Hof : ∀ l, (∀ x, x ∈ l → x ∈ components raw) → entry_of l = Canonical c →
            ∃ parts, c = spell parts ∧ Forall is_name parts ∧ ∀ n d, n ∈ parts → d ∈ n → d ∈ raw).
  { intros l Hl (parts & -> & Hparts)%entry_names. exists parts. split; [done|]. rewrite Forall_forall. split.
    - by intros n [? _]%Hparts%Hl%component_names.
    - intros n d [_ Hsub]%Hparts%Hl%component_names Hd. by apply Hsub. }
  assert (Hstrip : ∀ base rest, strip_components base (components raw) = Some rest → ∀ x, x ∈ rest → x ∈ components raw).
  { intros base rest Hs%strip_components_suffix x Hx. rewrite Hs. apply elem_of_app. by right. }
  unfold canonical_pending_entry. repeat case_if; [done|by apply Hof|].
  destruct (strip_components (components root) _) as [rest|] eqn:Hs; [by apply Hof, (Hstrip _ _ Hs)|].
  destruct (canonicalize root) as [r|]; [|done].
  destruct (strip_components (components r) _) as [rest|] eqn:Hs2; [by apply Hof, (Hstrip _ _ Hs2)|done].
Qed.

Lemma components_under root parts :
  is_absolute root = true → Forall is_name parts → components (path_join root (spell parts)) = components root ++ map Normal parts.
Proof.
  intros Hr Hn. unfold path_join. rewrite spelling_relative by done.
  assert (Habs : ∀ t, is_absolute (root ++ t) = true).
  { intros t. unfold is_absolute in *. apply starts_with_spec in Hr as [r ->]. apply starts_with_spec. exists (r ++ t). by rewrite app_assoc. }
  case_if; rename Heqb into Hend.
  - apply orb_true_iff in Hend as [Hend%bool_decide_eq_true|Hend]; [by subst|]. apply ends_with_spec in Hend as [r ->].
    unfold components. rewrite Habs, Hr. rewrite <- app_assoc. cbn [app]. rewrite !split_on_app_at by apply Z.eqb_refl. rewrite !omap_app.
    rewrite pieces_of_spelling by done. cbn. by rewrite app_nil_r.
  - unfold components. rewrite Habs, Hr. cbn [app]. rewrite split_on_app_at by apply Z.eqb_refl. rewrite omap_app. by rewrite pieces_of_spelling.
Qed.

Lemma spelling_no_token (parts : list str) (raw : str) :
  0 ∉ raw → Forall is_name parts → (∀ n d, n ∈ parts → d ∈ n → d ∈ raw) → is_control_token (spell parts) = false.
Proof.
  intros Hz Hn Hsub. unfold is_control_token. apply not_true_iff_false. rewrite starts_with_spec. intros [t Ht].
  destruct parts as [|[|d p] l]; [done|by apply Forall_cons in Hn as [(? & _) _]|].
  apply Hz. replace 0 with d; [apply (Hsub (d :: p)); by left|]. cbn in Ht. by destruct l; injection Ht.
Qed.

Lemma canonical_again `{Files} (root raw c : str) :
  0 ∉ raw → canonical_pending_entry root raw = Canonical c → canonical_pending_entry root c = Canonical c.
Proof.
  intros Hz (parts & -> & Hn & Hsub)%canonical_names. unfold canonical_pending_entry.
  rewrite (spelling_no_token _ _ Hz Hn Hsub), spelling_relative by done. cbn [negb]. by apply entry_of_spelling.
Qed.

(** One path has one spelling in the queue: the canonical entry of a path is its own
    canonical entry, the absolute path it stands for has the same one, and it lies under
    the root, through named parts alone. *)
Theorem one_spelling_per_path `{Files} root raw c :
  is_absolute root = true → 0 ∉ raw → canonical_pending_entry root raw = Canonical c →
  canonical_pending_entry root c = Canonical c
  ∧ canonical_pending_entry root (path_join root c) = Canonical c
  ∧ ∃ parts, Forall is_name parts ∧ components (path_join root c) = components root ++ map Normal parts.
Proof.
  intros Hr Hz Hcan. split; [by eapply canonical_again|]. apply canonical_names in Hcan as (parts & -> & Hn & Hsub).
  pose proof (components_under root parts Hr Hn) as Hc. split; [|by exists parts].
  assert (Habs : is_absolute (path_join root (spell parts)) = true).
  { unfold path_join. rewrite spelling_relative by done. unfold is_absolute in *. apply starts_with_spec in Hr as [r ->].
    apply starts_with_spec. case_if; cbn; by eexists. }
  unfold canonical_pending_entry. replace (is_control_token _) with false.
  2: { symmetry. unfold is_control_token, is_absolute in *. apply not_true_iff_false. rewrite starts_with_spec in Habs |- *.
       intros [t Ht]. destruct Habs as [u Hu]. rewrite Hu in Ht. cbn in Ht. by injection Ht. }
  rewrite Habs. cbn [negb]. rewrite (proj2 (strip_components_suffix (components root) _ (map Normal parts)) Hc). apply entry_of_names.
Qed.

(** ** Claiming *)

Lemma sorted_split {A} (R : A → A → Prop) n (l : list A) x y :
  StronglySorted R l → x ∈ take n l → y ∈ drop n l → R x y.
Proof.
  intros Hs. rewrite <- (take_drop n l) in Hs. revert Hs. generalize (take n l), (drop n l). intros a b Hs Hx Hy.
  induction a as [|z a IH]; [by apply not_elem_of_nil in Hx|]. cbn in Hs. apply StronglySorted_inv in Hs as [Hs Hz].
  apply elem_of_cons in Hx as [->|Hx]; [|by apply IH]. rewrite Forall_forall in Hz. apply Hz, elem_of_app. by right.
Qed.

(** A claim takes the oldest work first and no exhausted work: each claim is of a row
    as it stands that has failed fewer than five times, there are as many as asked for or
    as there are such rows, and none that is left out is older than one that is taken. *)
Theorem claims_take_the_oldest limit q :
  0 ≤ limit ≤ i64_max →
  let taken := claim_pending_batch limit q in
  (∀ c, c ∈ taken → ∃ row, pending q !! c_path c = Some row ∧ attempts row < MAX_PENDING_ATTEMPTS
    ∧ c = claim_of q (c_path c, row))
  ∧ Z.of_nat (length taken) = Z.min limit (Z.of_nat (length (retryable q)))
  ∧ ∀ c p row, c ∈ taken → pending q !! p = Some row → attempts row < MAX_PENDING_ATTEMPTS → p ∉ map c_path taken →
      w_revision (c_watermark c) ≤ revision row.
Proof.
  intros Hl taken.
  assert (Ht : taken = map (claim_of q) (take (Z.to_nat limit) (retryable q))).
  { unfold taken, claim_pending_batch, limited, sqlite_limit. rewrite Z.min_l by lia. rewrite <- firstn_map.
    case_if; bool_to_prop; [by replace limit with 0 by lia|done]. }
  assert (Hin : ∀ r, r ∈ retryable q ↔ pending q !! r.1 = Some r.2 ∧ attempts r.2 < MAX_PENDING_ATTEMPTS).
  { intros [p row]. unfold retryable. rewrite elem_of_sort_by, elem_of_filter_bool, elem_of_map_to_list. cbn. by rewrite Z.ltb_lt. }
  rewrite Ht. split; [|split].
  - intros c Hc. apply elem_of_map in Hc as ([p row] & -> & (i & Hr%list_elem_of_lookup_2 & _)%elem_of_take). apply Hin in Hr as [Hp Ha].
    by exists row.
  - rewrite length_map, length_take. lia.
  - intros c p row Hc Hp Ha Hn. apply elem_of_map in Hc as (r & -> & Hr).
    assert (Hd : (p, row) ∈ drop (Z.to_nat limit) (retryable q)).
    { assert (Hr' : (p, row) ∈ retryable q) by by apply Hin. rewrite <- (take_drop (Z.to_nat limit) (retryable q)) in Hr'.
      apply elem_of_app in Hr' as [Hr'|Hr']; [|done]. exfalso. apply Hn. rewrite map_map. rewrite elem_of_map. by exists (p, row). }
    pose proof (sorted_split _ _ _ _ _ (sort_by_strongly (asc (λ r : str * PendingRow, revision r.2) (by_str fst)) _ _) Hr Hd) as Hle.
    cbn [claim_of c_watermark w_revision]. unfold asc in Hle. cbn [snd] in Hle. repeat case_if_in Hle; bool_to_prop; lia.
Qed.

(** ** A sweep alone *)

Section Alone.

Context `{Files}.
Variables (source : str → bool) (root : str) (indexed : gset str).

(** The memo of a sweep holds answers of the tree. *)
Definition true_memo (memo : gmap str (result bool str)) : Prop :=
  ∀ d v, memo !! d = Some v → v = match is_cache_directory (path_join root d) with Ok b => Ok b | Err e => Err (error_text e) end.

Lemma directory_verdict_true memo d :
  true_memo memo →
  (directory_verdict root memo d).1 = match is_cache_directory (path_join root d) with Ok b => Ok b | Err e => Err (error_text e) end
  ∧ true_memo (directory_verdict root memo d).2.
Proof.
  intros Hm. unfold directory_verdict. destruct (memo !! d) as [v|] eqn:Hd; cbn [fst snd]; [split; [by apply Hm|done]|].
  split; [done|]. intros d' v. destruct (decide (d = d')) as [<-|]; [rewrite lookup_insert_eq; by intros [= <-]|].
  rewrite lookup_insert_ne by done. apply Hm.
Qed.

Lemma tagged_parts_true m1 m2 prefix parts :
  true_memo m1 → true_memo m2 →
  (tagged_parts root m1 prefix parts).1 = (tagged_parts root m2 prefix parts).1 ∧ true_memo (tagged_parts root m1 prefix parts).2.
Proof.
  revert m1 m2 prefix. induction parts as [|part parts IH]; intros m1 m2 prefix H1 H2; cbn [tagged_parts]; [done|].
  case_if; [by apply IH|]. case_if; [done|]. set (d := match prefix with [] => part | _ => _ end).
  destruct (directory_verdict_true m1 d H1) as [E1 T1], (directory_verdict_true m2 d H2) as [E2 T2].
  destruct (directory_verdict root m1 d) as [v1 n1], (directory_verdict root m2 d) as [v2 n2]. cbn [fst snd] in *. subst v1 v2.
  destruct (is_cache_directory (path_join root d)) as [[|]|]; [done|by apply IH|done].
Qed.

Lemma empty_memo_true : true_memo ∅.
Proof. by intros d v [=]. Qed.

(** What the sweep makes of a path. *)
Inductive Verdict : Type := Keeps | Drops (reason : str) | Respells (canonical : str).

Definition verdict (path : str) : Verdict :=
  match canonical_pending_entry root path with
  | ControlToken _ | UndecidableEntry _ => Keeps
  | OutsideRoot => Drops (lit "escapes the repository root " ++ root)
  | Canonical c =>
      match (classify_pending_entry source root c indexed ∅).1 with
      | Err reason => Drops reason
      | Ok _ => if decide (c = path) then Keeps else Respells c
      end
  end.

Definition judge (s : Sweep) (r : str * PendingRow) : Sweep :=
  match verdict r.1 with
  | Keeps => keep_row s
  | Drops reason => drop_row r.1 reason r.2 s
  | Respells c => {| outcome := keep (outcome s); deletes := deletes s; rewrites := rewrites s ++ [(r.1, c, r.2)] |}
  end.

Lemma classify_true memo c :
  true_memo memo →
  (classify_pending_entry source root c indexed memo).1 = (classify_pending_entry source root c indexed ∅).1
  ∧ true_memo (classify_pending_entry source root c indexed memo).2.
Proof.
  intros Hm. unfold classify_pending_entry. case_if; [done|]. unfold tagged_ancestor. case_if; [done|].
  destruct (tagged_parts_true memo ∅ [] (split_on (Z.eqb slash) c) Hm empty_memo_true) as [E T].
  destruct (tagged_parts root memo [] _) as [v1 n1], (tagged_parts root ∅ [] _) as [v2 n2]. cbn [fst snd] in *. by subst.
Qed.

Lemma sweep_row_judges s memo r :
  true_memo memo → (sweep_row source root indexed (s, memo) r).1 = judge s r ∧ true_memo (sweep_row source root indexed (s, memo) r).2.
Proof.
  intros Hm. unfold sweep_row, judge, verdict. destruct r as [p row]. cbn [fst snd].
  destruct (canonical_pending_entry root p) as [c| | |]; [|done..].
  destruct (classify_true memo c Hm) as [E T]. destruct (classify_pending_entry source root c indexed memo) as [v n]. cbn [fst snd] in *.
  rewrite <- E. destruct v; [|done]. by case_decide.
Qed.

Lemma sweep_judges q : sweep source root indexed q = foldl judge no_sweep (rows_by_path q).
Proof.
  unfold sweep. generalize no_sweep as s, empty_memo_true. generalize (∅ : gmap str (result bool str)) as memo.
  induction (rows_by_path q) as [|r l IH]; intros memo s Hm; cbn [foldl]; [done|].
  destruct (sweep_row_judges s memo r Hm) as [E T]. destruct (sweep_row source root indexed (s, memo) r) as [s' memo'].
  cbn [fst snd] in *. subst s'. by apply IH.
Qed.

Definition dropping (r : str * PendingRow) : option (str * str) := match verdict r.1 with Drops reason => Some (r.1, reason) | _ => None end.
Definition deleting (r : str * PendingRow) : option (str * Z) := match verdict r.1 with Drops _ => Some (r.1, revision r.2) | _ => None end.
Definition respelling (r : str * PendingRow) : option (str * str * PendingRow) :=
  match verdict r.1 with Respells c => Some (r.1, c, r.2) | _ => None end.

Lemma judges_are l s :
  let s' := foldl judge s l in
  deletes s' = deletes s ++ omap deleting l ∧ rewrites s' = rewrites s ++ omap respelling l
  ∧ dropped (outcome s') = dropped (outcome s) ++ omap dropping l ∧ rewritten (outcome s') = rewritten (outcome s)
  ∧ retained (outcome s') = retained (outcome s) + Z.of_nat (length l) - Z.of_nat (length (omap dropping l)).
Proof.
  revert s. induction l as [|r l IH]; intros s; cbn [foldl omap list_omap length].
  { rewrite !app_nil_r. repeat split; lia. }
  destruct (IH (judge s r)) as (-> & -> & -> & -> & ->). unfold deleting, respelling, dropping, judge.
  destruct (verdict r.1); cbn [deletes rewrites outcome dropped rewritten retained keep_row drop_row keep length]; rewrite <- ?app_assoc; cbn [app]; repeat split; lia.
Qed.

(** With nothing in between, every delete and every rewrite of a sweep meets its row. *)
Lemma apply_deletes_quiet l o rows :
  NoDup (map fst l) → (∀ d : str * Z, d ∈ l → revision <$> rows !! d.1 = Some d.2) → (foldl apply_delete (o, rows) l).1 = o.
Proof.
  revert rows. induction l as [|d l IH]; intros rows Hnd Hrows; cbn [foldl]; [done|].
  cbn [map] in Hnd. apply NoDup_cons in Hnd as [Hd Hnd]. pose proof (Hrows d ltac:(by left)) as Hrow.
  assert (Hgone : apply_delete (o, rows) d = (o, delete d.1 rows)).
  { unfold apply_delete, delete_at. cbn [fst snd]. destruct (rows !! d.1) as [row|]; [|done]. injection Hrow as ->. by rewrite Z.eqb_refl. }
  rewrite Hgone. apply IH; [done|]. intros d' Hin. rewrite lookup_delete_ne; [apply Hrows; by right|].
  intros Heq. apply Hd. rewrite Heq. rewrite elem_of_map. by exists d'.
Qed.

Lemma apply_rewrites_quiet l o q o' q' :
  NoDup (map (λ x, x.1.1) l) →
  (∀ x, x ∈ l → pending q !! x.1.1 = Some x.2 ∧ verdict x.1.2 = Keeps ∧ verdict x.1.1 ≠ Keeps) →
  (∀ p row, pending q !! p = Some row → verdict p = Keeps ∨ p ∈ map (λ x, x.1.1) l) →
  apply_rewrites l o q = Ok (o', q') →
  (∀ p row, pending q' !! p = Some row → verdict p = Keeps)
  ∧ o' = {| dropped := dropped o; rewritten := rewritten o ++ map fst l; retained := retained o |}.
Proof.
  revert o q. induction l as [|[[stored c] row] l IH]; intros o q Hnd Hl Hrows; cbn [apply_rewrites map].
  - intros [= <- <-]. split; [|rewrite app_nil_r; by destruct o]. intros p r Hp. destruct (Hrows p r Hp) as [?|Hin]; [done|by apply not_elem_of_nil in Hin].
  - cbn [map fst] in Hnd, Hrows. apply NoDup_cons in Hnd as [Hst Hnd]. destruct (Hl (stored, c, row) ltac:(by left)) as (Hp & Hc & Hs). cbn [fst snd] in Hp, Hc, Hs.
    unfold delete_at. rewrite Hp, Z.eqb_refl. unfold reserve_pending_revisions. repeat case_if; try done.
    cbn [with_pending pending last_revision epoch repo_root]. intros Ha. apply IH in Ha as [Hall ->]; [|done| |].
    + split; [done|]. cbn [dropped rewritten retained]. by rewrite <- app_assoc.
    + intros x Hx. cbn [with_pending pending]. destruct (Hl x ltac:(by right)) as (Hxp & Hxc & Hxs). split; [|done].
      rewrite lookup_insert_ne by (intros ->; done). rewrite lookup_delete_ne; [done|]. intros ->. apply Hst. rewrite elem_of_map. by exists x.
    + intros p r. cbn [with_pending pending]. destruct (decide (c = p)) as [<-|]; [by left|]. rewrite lookup_insert_ne by done.
      intros [Hne Hr]%lookup_delete_Some. destruct (Hrows p r Hr) as [?|[Heq|Hin]%elem_of_cons]; [by left|by subst|by right].
Qed.

(** What a path is left with: the later time and the fewer attempts of the row that
    stands there and of every row respelled to it, in the order of their paths. *)
Definition later (a b : f64) : f64 := if SFltb a b then b else a.

Definition facts (row : PendingRow) : f64 * Z := (queued_at row, attempts row).

Definition gather (old : option PendingRow) (l : list PendingRow) : option (f64 * Z) :=
  foldl (λ acc row, Some (match acc with
                          | None => facts row
                          | Some (time, tries) => (later time (queued_at row), Z.min tries (attempts row))
                          end)) (facts <$> old) l.

Definition to_path (p : str) (x : str * str * PendingRow) : option PendingRow := if decide (x.1.2 = p) then Some x.2 else None.

Definition standing (q : Queue) (p : str) : option PendingRow := match verdict p with Keeps => pending q !! p | _ => None end.
Definition arriving (q : Queue) (p : str) : list PendingRow := omap (to_path p) (omap respelling (rows_by_path q)).

(** The row that settles a path: what stood, or what was gathered at a revision of its own. *)
Definition settled (old : option PendingRow) (l : list PendingRow) (from upto : Z) (row : option PendingRow) : Prop :=
  match l with
  | [] => row = old
  | _ => ∃ r, row = Some r ∧ Some (facts r) = gather old l ∧ from < revision r ≤ upto
  end.

Lemma apply_rewrites_gathers l o q o' q' p :
  NoDup (map (λ x, x.1.1) l) →
  (∀ x, x ∈ l → pending q !! x.1.1 = Some x.2 ∧ verdict x.1.2 = Keeps ∧ verdict x.1.1 ≠ Keeps) →
  verdict p = Keeps → apply_rewrites l o q = Ok (o', q') →
  settled (pending q !! p) (omap (to_path p) l) (last_revision q) (last_revision q') (pending q' !! p) ∧ last_revision q ≤ last_revision q'.
Proof.
  intros Hnd Hl Hk. revert o q Hnd Hl. induction l as [|[[stored c] row] l IH]; intros o q Hnd Hl; cbn [apply_rewrites map].
  { by intros [= <- <-]. }
  cbn [map fst] in Hnd. apply NoDup_cons in Hnd as [Hst Hnd]. destruct (Hl (stored, c, row) ltac:(by left)) as (Hp & Hc & Hs). cbn [fst snd] in Hp, Hc, Hs.
  unfold delete_at. rewrite Hp, Z.eqb_refl. unfold reserve_pending_revisions. repeat case_if; try done.
  cbn [with_pending pending last_revision epoch repo_root]. intros Ha. apply IH in Ha as [Hset Hle]; [|done|].
  2: { intros x Hx. cbn [with_pending pending]. destruct (Hl x ltac:(by right)) as (Hxp & Hxc & Hxs). split; [|done].
       rewrite lookup_insert_ne by (intros ->; done). rewrite lookup_delete_ne; [done|]. intros ->. apply Hst. rewrite elem_of_map. by exists x. }
  cbn [with_pending pending last_revision] in Hset, Hle. split; [|lia].
  assert (Hne : stored ≠ p) by (intros ->; done).
  cbn [omap list_omap]. unfold to_path at 1. cbn [fst snd]. case_decide as Hcp.
  - subst c. rewrite lookup_insert_eq, lookup_delete_ne in Hset by done. unfold settled in *.
    assert (Hg : facts <$> Some (merge_row row (last_revision q + 1) (pending q !! p)) = gather (pending q !! p) [row]).
    { unfold gather, facts, merge_row, later. by destruct (pending q !! p). }
    destruct (omap (to_path p) l) as [|x rest] eqn:Hrest.
    + eexists. split; [exact Hset|]. split; [exact Hg|]. unfold merge_row. destruct (pending q !! p); cbn; lia.
    + destruct Hset as (r & Hr & Hf & Hrev). exists r. split; [done|]. split; [|lia]. rewrite Hf. unfold gather at 1. by rewrite Hg.
  - rewrite lookup_insert_ne, lookup_delete_ne in Hset by done. unfold settled in *. destruct (omap (to_path p) l); [done|].
    destruct Hset as (r & Hr & Hf & Hrev). exists r. split; [done|]. split; [done|lia].
Qed.

Lemma fst_rows_nodup q : NoDup (map fst (rows_by_path q)).
Proof.
  unfold rows_by_path. rewrite sort_by_perm. apply NoDup_fst_map_to_list.
Qed.

Lemma omap_keys {B} (f : str * PendingRow → option B) (key : B → str) l :
  (∀ r b, f r = Some b → key b = r.1) → NoDup (map fst l) → NoDup (map key (omap f l)).
Proof.
  intros Hf. induction l as [|r l IH]; cbn [map omap list_omap]; [done|]. intros [Hr Hl]%NoDup_cons.
  destruct (f r) as [b|] eqn:Hb; [|by apply IH]. cbn [map]. apply NoDup_cons. split; [|by apply IH].
  rewrite (Hf _ _ Hb). rewrite elem_of_map. intros (b' & Hk & (r' & Hr' & Hb')%list_elem_of_omap). apply Hr.
  rewrite elem_of_map. exists r'. split; [|done]. by rewrite Hk, (Hf _ _ Hb').
Qed.

Lemma respelled_keeps p c : is_control_token p = true ∨ 0 ∉ p → verdict p = Respells c → verdict c = Keeps.
Proof.
  intros Hz. unfold verdict. destruct (canonical_pending_entry root p) as [c'| | |] eqn:Hcan; try done.
  destruct (classify_pending_entry source root c' indexed ∅).1 eqn:Hcl; [|done]. case_decide; [done|]. intros [= <-].
  destruct Hz as [Ht|Hz]; [unfold canonical_pending_entry in Hcan; by rewrite Ht in Hcan|].
  rewrite (canonical_again _ _ _ Hz Hcan), Hcl. by rewrite decide_True.
Qed.

Lemma sweep_of_settled q :
  (∀ p row, pending q !! p = Some row → verdict p = Keeps) →
  apply_sweep (sweep source root indexed q) q
  = Ok ({| dropped := []; rewritten := []; retained := Z.of_nat (size (pending q)) |}, q).
Proof.
  intros Hall. assert (Hk : ∀ r, r ∈ rows_by_path q → verdict r.1 = Keeps) by (intros r Hr%elem_of_rows_by_path; by eapply Hall).
  rewrite sweep_judges. destruct (judges_are (rows_by_path q) no_sweep) as (Hd & Hx & Hdr & Hw & Hn).
  unfold apply_sweep. rewrite Hd, Hx. rewrite !omap_none in * by (intros r Hr; unfold deleting, respelling, dropping; by rewrite (Hk r Hr)).
  cbn [no_sweep deletes rewrites app foldl apply_rewrites outcome dropped rewritten retained length] in *. f_equal. f_equal; [|by destruct q].
  destruct (outcome _) as [d w n]. cbn [dropped rewritten retained] in *. subst. f_equal.
  unfold rows_by_path. rewrite length_sort_by, length_map_to_list. lia.
Qed.

(** The sweep with nothing in between: its deletes take the rows it drops, and its rewrites
    then meet every row they were read at. *)
Lemma quiet_sweep q o q' :
  (∀ p row, pending q !! p = Some row → is_control_token p = true ∨ 0 ∉ p) →
  apply_sweep (sweep source root indexed q) q = Ok (o, q') →
  let l := omap respelling (rows_by_path q) in
  ∃ n rows, apply_rewrites l {| dropped := omap dropping (rows_by_path q); rewritten := []; retained := n |} (with_pending q rows) = Ok (o, q')
    ∧ (∀ p row, rows !! p = Some row ↔ pending q !! p = Some row ∧ ∀ reason, verdict p ≠ Drops reason)
    ∧ NoDup (map (λ x, x.1.1) l)
    ∧ ∀ x, x ∈ l → rows !! x.1.1 = Some x.2 ∧ verdict x.1.2 = Keeps ∧ verdict x.1.1 ≠ Keeps.
Proof.
  intros Hz Ha l. assert (Hread : ∀ r, r ∈ rows_by_path q ↔ pending q !! r.1 = Some r.2) by apply elem_of_rows_by_path.
  rewrite sweep_judges in Ha. unfold apply_sweep in Ha. destruct (judges_are (rows_by_path q) no_sweep) as (Hd & Hx & Hdr & Hw & _).
  set (s := foldl judge no_sweep (rows_by_path q)) in *. cbn [no_sweep outcome dropped rewritten deletes rewrites app] in *.
  destruct (apply_deletes_spec (deletes s) (outcome s, pending q)) as [_ Hrows].
  pose proof (apply_deletes_quiet (deletes s) (outcome s) (pending q)) as Ho. rewrite Hd in Ho.
  specialize (Ho ltac:(apply (omap_keys deleting fst); [|apply fst_rows_nodup]; unfold deleting; intros r b; by destruct (verdict r.1); intros [= <-])).
  specialize (Ho ltac:(intros d (r & Hr%Hread & Hb)%list_elem_of_omap; unfold deleting in Hb; destruct (verdict r.1); try done; injection Hb as <-; cbn [fst snd]; by rewrite Hr)).
  rewrite Hd in Ha, Hrows. rewrite Hx in Ha. destruct (foldl apply_delete _ _) as [o1 rows]. cbn [fst snd] in *. subst o1.
  destruct (outcome s) as [d w n]. cbn [dropped rewritten] in *. subst d w.
  assert (Hleft : ∀ p row, rows !! p = Some row ↔ pending q !! p = Some row ∧ ∀ reason, verdict p ≠ Drops reason).
  { intros p row. rewrite Hrows. split; intros [Hp Hn]; (split; [done|]).
    - intros reason Hv. apply (Hn (p, revision row)); [|done]. apply list_elem_of_omap. exists (p, row). split; [by apply Hread|].
      unfold deleting. cbn. by rewrite Hv.
    - intros d (r & Hr & Hb)%list_elem_of_omap [-> _]. unfold deleting in Hb. destruct (verdict r.1) eqn:Hv; try done. injection Hb as <-.
      by apply (Hn _ Hv). }
  exists n, rows. split; [exact Ha|]. split; [exact Hleft|]. split.
  - apply (omap_keys respelling (λ x, x.1.1)); [|apply fst_rows_nodup]. unfold respelling. intros r b. by destruct (verdict r.1); intros [= <-].
  - intros x ([p row] & Hr%Hread & Hb)%list_elem_of_omap. unfold respelling in Hb. cbn [fst snd] in *.
    destruct (verdict p) as [| |c] eqn:Hv; try done. injection Hb as <-. cbn [fst snd]. split; [|split; [by eapply respelled_keeps; [eapply Hz|]|by rewrite Hv]].
    apply Hleft. split; [done|]. by rewrite Hv.
Qed.

Lemma arriving_kept q p row : (∀ p row, pending q !! p = Some row → is_control_token p = true ∨ 0 ∉ p) → row ∈ arriving q p → verdict p = Keeps.
Proof.
  intros Hz. unfold arriving. intros (x & ([p' r] & Hr%elem_of_rows_by_path & Hx)%list_elem_of_omap & Hto)%list_elem_of_omap.
  unfold respelling in Hx. cbn [fst snd] in *. destruct (verdict p') eqn:Hv; try done. injection Hx as <-. unfold to_path in Hto. cbn in Hto.
  case_decide; [|done]. subst. by eapply respelled_keeps; [eapply Hz|].
Qed.

(** C22. A sweep with nothing in between settles the queue and loses none of its work: it
    reports exactly the rows it drops and respells; a row it keeps stays as it was; a row it
    respells arrives under its canonical path, at a revision later than any before, with the
    later time and the fewer attempts of all that met there; nothing else is in the queue;
    every row it leaves is one it would keep, and sweeping again changes nothing. *)
Theorem sweep_settles_the_queue q o q' :
  (∀ p row, pending q !! p = Some row → is_control_token p = true ∨ 0 ∉ p) →
  apply_sweep (sweep source root indexed q) q = Ok (o, q') →
  dropped o = omap dropping (rows_by_path q)
  ∧ rewritten o = map fst (omap respelling (rows_by_path q))
  ∧ (∀ p, settled (standing q p) (arriving q p) (last_revision q) (last_revision q') (pending q' !! p))
  ∧ (∀ p row, pending q' !! p = Some row → verdict p = Keeps)
  ∧ apply_sweep (sweep source root indexed q') q'
    = Ok ({| dropped := []; rewritten := []; retained := Z.of_nat (size (pending q')) |}, q').
Proof.
  intros Hz Ha. destruct (quiet_sweep q o q' Hz Ha) as (n & rows & Hr & Hrows & Hnd & Hl).
  assert (Hres : ∀ p row, rows !! p = Some row → verdict p = Keeps ∨ p ∈ map (λ x, x.1.1) (omap respelling (rows_by_path q))).
  { intros p row [Hp Hn]%Hrows. destruct (verdict p) as [|reason|c] eqn:Hv; [by left|by destruct (Hn reason)|right].
    rewrite elem_of_map. exists (p, c, row). split; [done|]. apply list_elem_of_omap. exists (p, row). split; [by apply elem_of_rows_by_path|].
    unfold respelling. cbn. by rewrite Hv. }
  destruct (apply_rewrites_quiet _ _ (with_pending q rows) _ _ Hnd Hl Hres Hr) as [Hall ->].
  split; [done|]. split; [done|]. split; [|split; [done|by apply sweep_of_settled]]. intros p.
  assert (verdict p = Keeps ∨ verdict p ≠ Keeps) as [Hk|Hk] by (destruct (verdict p); [by left|by right..]).
  - destruct (apply_rewrites_gathers _ _ (with_pending q rows) _ _ p Hnd Hl Hk Hr) as [Hs _]. cbn [with_pending pending last_revision] in Hs.
    replace (standing q p) with (rows !! p); [exact Hs|]. unfold standing. rewrite Hk. apply option_eq. intros row. rewrite Hrows, Hk. naive_solver.
  - destruct (arriving q p) as [|row l] eqn:Harr; [|by destruct Hk; apply (arriving_kept q p row); [done|rewrite Harr; left]].
    cbn. transitivity (@None PendingRow); [|unfold standing; by destruct (verdict p)].
    destruct (pending q' !! p) as [row|] eqn:Hp; [|done]. by apply Hall in Hp.
Qed.

End Alone.

(** ** A run *)

Module Sample.

Definition missing : IoError := {| error_kind := NotFound; error_text := lit "No such file or directory (os error 2)" |}.

(** A repository at [/r] that holds [src/a.rs]. *)
Definition regular : Metadata := {| file_type := IsFile; len := 12; modified := Ok 0; dev := 1; ino := 2 |}.

#[export] Instance tree : Files := {|
  symlink_metadata path := if bool_decide (path = lit "/r/src/a.rs") then Ok regular else Err missing;
  metadata path := if bool_decide (path = lit "/r/src/a.rs") then Ok regular else Err missing;
  canonicalize path := if bool_decide (path = lit "/r") then Ok path else Err missing;
  absolute path := Ok path;
  open_marker _ := Err missing;
|}.

Definition noon : f64 := f64_of_Z 43200.

Definition answer {A} (d : A) (r : result A PendingError) : A := match r with Ok a => a | Err _ => d end.

(** An edit, a claim of it, the same path edited again, and the claim acknowledged. *)
Definition w0 : World := start (lit "5f").
Definition w1 : World := after w0 (answer (queue w0) (enqueue_pending_paths [lit "a.rs"] noon (queue w0))) (numbered 1 [lit "a.rs"]) [].
Definition w2 : World :=
  {| queue := queue w1; edits := edits w1; fates := fates w1; claims := claims w1 ++ claim_pending_batch 64 (queue w1);
     marks := marks w1; sweeps := sweeps w1 |}.
Definition w3 : World := after w2 (answer (queue w2) (enqueue_pending_paths [lit "a.rs"] noon (queue w2))) (numbered 2 [lit "a.rs"]) [].
Definition w4 : World :=
  after w3 (answer (0, queue w3) (clear_claimed_pending_paths (claims w3) (queue w3))).2 [] (acknowledged (queue w3) (claims w3)).

Lemma run_claims : rtc step w0 w2.
Proof. eapply rtc_l; [by eapply (Enqueues w0 [lit "a.rs"] noon)|]. eapply rtc_l; [apply (Claims w1 64)|]. apply rtc_refl. Qed.

Lemma run_acknowledges : rtc step w2 w4.
Proof.
  eapply rtc_l; [by eapply (Enqueues w2 [lit "a.rs"] noon)|]. eapply rtc_l; [by eapply (Acknowledges w3 (claims w3))|]. apply rtc_refl.
Qed.

(** The queue of a store that has seen three producers. *)
Definition mixed : Queue :=
  answer (queue w0) (enqueue_pending_paths [lit "/r/src/a.rs"; 0 :: lit "devmap:git-head-changed"; lit "/old/src/a.rs"] noon (queue w0)).

End Sample.

Import Sample.

Lemma no_edit_is_lost_witness :
  pending (queue w4) !! lit "a.rs" = Some {| queued_at := noon; attempts := 0; revision := 3 |}
  ∧ accounted (pending (queue w4)) (fates w4) (lit "a.rs") 3 ∧ 2 < 3.
Proof.
  destruct (no_edit_is_lost w2 w4 (ex_intro _ _ run_claims) run_acknowledges) as [Ha Hr].
  split; [reflexivity|]. split; [apply Ha; right; left|].
  apply (Hr (lit "a.rs") 3); [right; left|by apply (bool_decide_unpack _); vm_compute|].
  apply (InClaim w2 {| c_path := lit "a.rs"; c_queued_at := noon; c_watermark := {| w_epoch := lit "5f"; w_revision := 2 |} |}). left.
Defined.

Lemma one_spelling_per_path_witness :
  canonical_pending_entry (lit "/r") (lit "/r/./src//a.rs") = Canonical (lit "src/a.rs")
  ∧ canonical_pending_entry (lit "/r") (lit "/r/src/a.rs") = Canonical (lit "src/a.rs").
Proof.
  split; [reflexivity|].
  destruct (one_spelling_per_path (lit "/r") (lit "/r/./src//a.rs") (lit "src/a.rs") eq_refl
              ltac:(apply (bool_decide_unpack _); vm_compute; exact I) eq_refl) as (_ & Habs & _).
  exact Habs.
Defined.

Lemma claims_take_the_oldest_witness :
  map c_path (claim_pending_batch 2 mixed) = [lit "/r/src/a.rs"; 0 :: lit "devmap:git-head-changed"]
  ∧ Z.of_nat (length (claim_pending_batch 2 mixed)) = Z.min 2 3.
Proof.
  destruct (claims_take_the_oldest 2 mixed ltac:(unfold i64_max; lia)) as (_ & Hlen & _).
  exact (conj eq_refl Hlen).
Defined.

Lemma sweep_settles_the_queue_witness :
  ∃ o q', apply_sweep (sweep (λ _, true) (lit "/r") ∅ mixed) mixed = Ok (o, q')
    ∧ dropped o = [(lit "/old/src/a.rs", lit "escapes the repository root /r")]
    ∧ rewritten o = [(lit "/r/src/a.rs", lit "src/a.rs")]
    ∧ (∃ r, pending q' !! lit "src/a.rs" = Some r ∧ last_revision mixed < revision r)
    ∧ apply_sweep (sweep (λ _, true) (lit "/r") ∅ q') q'
      = Ok ({| dropped := []; rewritten := []; retained := Z.of_nat (size (pending q')) |}, q').
Proof.
  destruct (apply_sweep (sweep (λ _, true) (lit "/r") ∅ mixed) mixed) as [[o q']|] eqn:E; [|vm_compute in E; discriminate E].
  exists o, q'. split; [reflexivity|].
  destruct (sweep_settles_the_queue (λ _, true) (lit "/r") ∅ mixed o q') as (_ & _ & Hset & _ & Hagain).
  - intros p row Hp.
    assert (Hk : forallb (λ r, is_control_token r.1 || negb (bool_decide (0 ∈ r.1))) (map_to_list (pending mixed)) = true) by (vm_compute; reflexivity).
    rewrite forallb_true in Hk. specialize (Hk (p, row) ltac:(by apply elem_of_map_to_list)). cbn [fst] in Hk.
    apply orb_true_iff in Hk as [Hk|Hk]; [by left|right; bool_to_prop; done].
  - exact E.
  - assert (Hq : rewritten o = [(lit "/r/src/a.rs", lit "src/a.rs")] ∧ dropped o = [(lit "/old/src/a.rs", lit "escapes the repository root /r")]).
    { clear Hset Hagain. vm_compute in E. injection E as <- <-. split; reflexivity. }
    split; [apply Hq|]. split; [apply Hq|]. split; [|exact Hagain]. specialize (Hset (lit "src/a.rs")).
    assert (Harr : arriving (λ _, true) (lit "/r") ∅ mixed (lit "src/a.rs") ≠ []) by (vm_compute; discriminate).
    unfold settled in Hset. destruct (arriving _ _ _ _ _); [destruct (Harr eq_refl)|]. destruct Hset as (r & Hr & _ & Hrev & _). eauto.
Defined.

End PendingProps.
