(* ===== verification/Redact.v ===== *)
(** * Finding and withholding credentials ([rust/dc-redact/src/lib.rs])

    One table of vendor-prefixed keys and five detectors that read the context of a value
    say where the credentials of a line are; a pass replaces each of them by its prefix and
    its length, and passes are repeated until one finds nothing.

    A line is a list of scalar values and an offset counts them: every offset of the source
    is a character boundary, and the bytes it looks at one by one are ASCII or stand in no
    set it asks about. Where it compares or prints a length in bytes, so does the model
    ([str_len]). *)

From S2P Require Import Prelude RustStr.
From Stdlib Require Import Ascii.

#[local] Open Scope Z_scope.

Module Redact.

(** ** Text by offset *)

(** [s.find(p).unwrap_or(s.len())] *)
Fixpoint upto (p : char → bool) (s : str) : nat :=
  match s with [] => 0%nat | c :: s => if p c then 0%nat else S (upto p s) end.

Abbreviation Range := (nat * nat)%type (only parsing).

(** [&line[a..b]] *)
Definition slice (s : str) (a b : nat) : str := take (b - a) (drop a s).

(** [str::match_indices] of a pattern that is not empty: an occurrence is consumed whole. *)
Fixpoint match_from (pat : str) (i skip : nat) (s : str) : list nat :=
  match s with
  | [] => []
  | _ :: s' =>
      match skip with
      | S skip => match_from pat (S i) skip s'
      | O => if starts_with pat s then i :: match_from pat (S i) (length pat - 1) s' else match_from pat (S i) O s'
      end
  end.
Definition match_indices (pat s : str) : list nat := match_from pat 0 0 s.

(** [s.rfind(c)] *)
Definition rfind (c : char) (s : str) : option nat := let! (a, _) := rsplit_once c s in Some (length a).

(** [s.find(c)] *)
Definition find (c : char) (s : str) : option nat := let! (a, _) := split_once c s in Some (length a).

Definition one_of (set : string) (c : char) : bool := existsb (Z.eqb c) (lit set).
Definition is_ascii_graphic (c : char) : bool := in_range 33 126 c.
Definition quote : char := 34.
Definition ellipsis : char := 8230.
Definition is_member (w : str) (l : list string) : bool := existsb (λ x, bool_decide (lit x = w)) l.

(** ** Vendor prefixes *)

Record SecretPattern := { p_name : str; prefix : str; min_len : Z; alphanumeric_body : bool }.

Definition secret (n p : string) (floor : Z) (flat : bool) : SecretPattern :=
  {| p_name := lit n; prefix := lit p; min_len := floor; alphanumeric_body := flat |}.

Definition SECRET_PATTERNS : list SecretPattern :=
  [
    secret "anthropic api key" "sk-ant-" 24 false;
    secret "openai project api key" "sk-proj-" 24 false;
    secret "stripe live key" "sk_live_" 24 false;
    secret "stripe test key" "sk_test_" 24 false;
    secret "stripe restricted test key" "rk_test_" 24 false;
    secret "stripe restricted live key" "rk_live_" 24 false;
    secret "openai admin api key" "sk-admin-" 24 false;
    secret "openrouter api key" "sk-or-v1-" 40 false;
    secret "openai api key" "sk-" 45 true;
    secret "stripe webhook signing secret" "whsec_" 24 false;
    secret "xai api key" "xai-" 20 false;
    secret "google api key" "AIza" 30 false;
    secret "github personal access token" "ghp_" 30 false;
    secret "github oauth token" "gho_" 30 false;
    secret "github app server token" "ghs_" 30 false;
    secret "github app user token" "ghu_" 30 false;
    secret "github refresh token" "ghr_" 30 false;
    secret "github pat" "github_pat_" 40 false;
    secret "gitlab personal access token" "glpat-" 26 false;
    secret "gitlab deploy token" "gldt-" 26 false;
    secret "gitlab runner authentication token" "glrt-" 26 false;
    secret "gitlab runner registration-created token" "glrtr-" 26 false;
    secret "gitlab oauth application secret" "gloas-" 26 false;
    secret "gitlab ci job token" "glcbt-" 26 false;
    secret "gitlab trigger token" "glptt-" 26 false;
    secret "gitlab feed token" "glft-" 26 false;
    secret "gitlab incoming mail token" "glimt-" 26 false;
    secret "gitlab agent for kubernetes token" "glagent-" 26 false;
    secret "gitlab workspace token" "glwt-" 26 false;
    secret "gitlab scim token" "glsoat-" 26 false;
    secret "gitlab feature flags client token" "glffct-" 26 false;
    secret "slack bot token" "xoxb-" 30 false;
    secret "slack user token" "xoxp-" 30 false;
    secret "slack workspace token" "xoxa-" 30 false;
    secret "slack app-level token" "xapp-" 30 false;
    secret "slack incoming webhook" "https://hooks.slack.com/services/" 60 false;
    secret "sendgrid api key" "SG." 69 false;
    secret "shopify access token" "shpat_" 38 true;
    secret "shopify custom app token" "shpca_" 38 true;
    secret "shopify private app token" "shppa_" 38 true;
    secret "shopify shared secret" "shpss_" 38 true;
    secret "aws access key id" "AKIA" 20 true;
    secret "aws temporary access key id" "ASIA" 20 true;
    secret "huggingface token" "hf_" 30 false;
    secret "npm access token" "npm_" 36 false;
    secret "pypi api token" "pypi-" 90 false;
    secret "digitalocean personal access token" "dop_v1_" 32 false;
    secret "digitalocean oauth access token" "doo_v1_" 32 false;
    secret "digitalocean oauth refresh token" "dor_v1_" 32 false;
    secret "replicate api token" "r8_" 40 false;
    secret "linear api key" "lin_api_" 32 false;
    secret "linear oauth token" "lin_oauth_" 32 false;
    secret "notion api token" "ntn_" 30 false;
    secret "private key block" "-----BEGIN" 20 false
  ].

(** Whether what starts after [before] starts a token. *)
Definition starts_after (before : str) : bool :=
  match last before with None => true | Some c => negb (is_ascii_alphanumeric c || (c =? chr "_")) end.
Definition starts_a_token (content : str) (at_ : nat) : bool := starts_after (take at_ content).

Definition is_key_char (c : char) : bool := is_ascii_alphanumeric c || one_of "-_./+=" c.

Definition pem_private_header_end (content : str) (label_at : nat) : option nat :=
  let! _ := strip_prefix (lit " ") (drop label_at content) in
  let label_start := (label_at + 1)%nat in
  let label_len :=
    upto (λ c, (c =? chr "-") || negb ((c =? chr " ") || is_ascii_graphic c)) (drop label_start content) in
  let stop := (label_start + label_len)%nat in
  let label := slice content label_start stop in
  if starts_with (lit "-----") (drop stop content) && str_contains (lit "private key") (ascii_lowercase label)
  then Some (stop + 5)%nat else None.

(** What the scan of one pattern carries: the boundary it reuses, the end of the last
    match, the matches. *)
Record Scan := { token_end : nat; consumed : nat; found : list Range }.

Definition is_pem (p : SecretPattern) : bool := bool_decide (prefix p = lit "-----BEGIN").

(** The end of the token at [start] of a run that ends at [token_end], if it is a key. *)
Definition key_end (p : SecretPattern) (content : str) (start run_end : nat) : option nat :=
  let stop := (start + length (trim_end_by (Z.eqb (chr ".")) (slice content start run_end)))%nat in
  let token := slice content start stop in
  if (str_len token <? min_len p)
     || alphanumeric_body p && negb (forallb is_ascii_alphanumeric (drop (length (prefix p)) token))
  then None else Some stop.

(** The first character from [body] on that is no part of a key. *)
Definition run_end (content : str) (body : nat) : nat := (body + upto (λ c, negb (is_key_char c)) (drop body content))%nat.

(** One occurrence of the prefix. *)
Definition span_at (p : SecretPattern) (content : str) (st : Scan) (start : nat) : Scan :=
  if (start <? consumed st)%nat || negb (is_pem p || starts_a_token content start) then st
  else
    let body := (start + length (prefix p))%nat in
    if is_pem p then
      match pem_private_header_end content body with
      | None => st
      | Some stop => {| token_end := token_end st; consumed := stop; found := found st ++ [(start, stop)] |}
      end
    else
      let token_end := if (token_end st <=? start)%nat then run_end content body else token_end st in
      match key_end p content start token_end with
      | None => {| token_end := token_end; consumed := consumed st; found := found st |}
      | Some stop => {| token_end := token_end; consumed := stop; found := found st ++ [(start, stop)] |}
      end.

Definition spans (p : SecretPattern) (content : str) : list Range :=
  found (foldl (span_at p content) {| token_end := 0; consumed := 0; found := [] |} (match_indices (prefix p) content)).

(** ** Words *)

(** Whether a word ends before [c]. *)
Definition word_boundary (prev : option char) (c : char) (next : option char) : bool :=
  match prev with
  | None => false
  | Some p =>
      is_ascii_upper c
      && (is_ascii_lower p || (match next with Some n => is_ascii_lower n | None => false end) && is_ascii_upper p)
  end.

(** The words of one part; [word] is the one being read, in reverse. *)
Fixpoint camel_words (prev : option char) (word : str) (s : str) : list str :=
  match s with
  | [] => match word with [] => [] | _ => [rev word] end
  | c :: s' =>
      if word_boundary prev c (head s') && negb (bool_decide (word = []))
      then rev word :: camel_words (Some c) [to_ascii_lowercase c] s'
      else camel_words (Some c) (to_ascii_lowercase c :: word) s'
  end.

Definition words (identifier : str) : list str :=
  flat_map (camel_words None []) (split_on (λ c, negb (is_ascii_alphanumeric c)) identifier).

Definition SINGLE : list string :=
  [
    "password"; "passwd"; "passphrase"; "secret"; "token"; "apikey"; "credential";
    "credentials"; "auth"
  ]%string.
Definition PAIRS : list (string * string) :=
  [("api", "key"); ("access", "key"); ("private", "key"); ("account", "key"); ("signing", "key"); ("encryption", "key")]%string.
Definition ABOUT : list string :=
  [
    "name"; "names"; "id"; "ids"; "endpoint"; "url"; "uri"; "path"; "file"; "dir"; "ttl";
    "len"; "length"; "size"; "count"; "type"; "header"; "prefix"; "suffix"; "field"; "ref";
    "env"; "var"; "hint"; "policy"; "min"; "max"; "regex"; "pattern"; "label"; "format";
    "kind"; "mode"; "version"; "enabled"; "required"; "timeout"; "expiry"; "expires";
    "hash"; "digest"; "source"; "provider"; "method"; "scheme"; "strategy"; "flow";
    "mechanism"; "backend"; "helper"; "store"; "manager"; "handler"; "class"
  ]%string.
Definition FUSED : list string := ["password"; "passwd"; "passphrase"]%string.

Fixpoint some_pair (f : str → str → bool) (l : list str) : bool :=
  match l with a :: (b :: _) as l' => f a b || some_pair f l' | _ => false end.

Definition names_a_credential (key : str) : bool :=
  let w := words key in
  if match last w with Some w => is_member w ABOUT | None => false end then false
  else
    existsb (λ x, let x := trim_end_by is_ascii_digit x in
                  is_member x SINGLE || existsb (λ f, ends_with (lit f) x) FUSED) w
    || some_pair (λ a b, existsb (λ p, bool_decide (lit p.1 = a ∧ lit p.2 = b)) PAIRS) w.

Definition reads_as_words (text : str) (least : nat) : bool :=
  let w := words text in
  (least <=? length w)%nat && (length w <=? 4)%nat
  && forallb (λ x, (3 <=? length x)%nat && forallb is_ascii_alphabetic x) w.

(** ** Literals *)

Definition PLACEHOLDER_WORDS : list string :=
  [
    "fake"; "dummy"; "placeholder"; "changeme"; "change_me"; "your"; "redacted"; "sample"
  ]%string.

Definition is_placeholder (value : str) : bool :=
  let lowered := ascii_lowercase value in
  let slot := match split_once (chr "<") value with Some (_, rest) => existsb (Z.eqb (chr ">")) rest | None => false end in
  starts_with (lit "$") value
  || slot
  || existsb (λ t, str_contains (lit t) value) ["${"; "{{"; "$("; "%("]%string
  || existsb (λ w, str_contains (lit w) lowered) PLACEHOLDER_WORDS
  || match value with [] => true | first :: _ => forallb (Z.eqb first) value end
  || existsb (Z.eqb ellipsis) value.

Definition MIN_LITERAL_LEN : nat := 8.
Definition MAX_JUDGED_VALUE : Z := 512.

(** [judged_prefix]: the longest prefix of at most so many bytes. *)
Fixpoint prefix_of_len (budget : Z) (s : str) : str :=
  match s with
  | [] => []
  | c :: s => if utf8_width c <=? budget then c :: prefix_of_len (budget - utf8_width c) s else []
  end.
Definition judged_prefix (value : str) : str := prefix_of_len MAX_JUDGED_VALUE value.

(** Whether some two neighbours are as [f] wants. *)
Fixpoint some_neighbours (f : char → char → bool) (s : str) : bool :=
  match s with a :: (b :: _) as s' => f a b || some_neighbours f s' | _ => false end.

Definition is_literal_secret (value : str) (quoted : bool) : bool :=
  let value := judged_prefix value in
  let has c := existsb (Z.eqb (chr c)) value in
  let has_digit := existsb is_ascii_digit value in
  let reads_as_identifier :=
    negb has_digit
    && (existsb (one_of "_.-") value || some_neighbours (λ a b, is_ascii_lower a && is_ascii_upper b) value) in
  let stem := trim_end_by (one_of "_-") (trim_end_by is_ascii_digit value) in
  let numbered_name :=
    (length stem <? length value)%nat && negb (existsb is_ascii_digit stem) && reads_as_words stem 2 in
  let parts := split_on (Z.eqb (chr ".")) value in
  let qualified_name :=
    negb quoted && has "."%string
    && forallb (λ part, match part with c :: _ => is_ascii_alphabetic c | [] => false end
                        && forallb (λ c, is_ascii_alphanumeric c || (c =? chr "_")) part) parts
    && match last parts with Some w => reads_as_words w 1 | None => false end in
  let expression :=
    negb quoted && (existsb (one_of "([") value || has "."%string && negb has_digit || qualified_name) in
  let plain_word := forallb is_ascii_lower value && (str_len value <? 12) in
  (MIN_LITERAL_LEN <=? length value)%nat
  && negb (existsb is_whitespace value)
  && negb (str_contains (lit "://") value)
  && negb (forallb is_ascii_digit value)
  && negb reads_as_identifier
  && negb numbered_name
  && negb expression
  && negb plain_word
  && negb (is_placeholder value).

(** ** JSON web tokens *)

Definition in_jwt_run (c : char) : bool := is_ascii_alphanumeric c || one_of "-_." c.

(** The tokens of the run of [line] between [start] and [stop]. *)
Definition jwt_in_run (line : str) (start stop : nat) : list Range :=
  let run := slice line start stop in
  match rfind (chr ".") run with
  | None => []
  | Some last =>
      match rfind (chr ".") (take last run) with
      | None => []
      | Some middle =>
          let first := match rfind (chr ".") (take middle run) with None => 0%nat | Some d => (d + 1)%nat end in
          let payload := slice run (middle + 1) last in
          let signature := drop (last + 1) run in
          if negb (starts_with (lit "eyJ") payload) || (str_len payload <? 10) || (str_len signature <? 10) then []
          else
            omap (λ offset,
                    let at_ := (start + first + offset)%nat in
                    if (10 <=? start + middle - at_)%nat && starts_a_token line at_ then Some (at_, stop) else None)
              (match_indices (lit "eyJ") (slice run first middle))
      end
  end.

(** The runs of [line], from the offset [i] of [s] in it; [skip] is the rest of a run read. *)
Fixpoint jwt_from (line : str) (i skip : nat) (s : str) : list Range :=
  match s with
  | [] => []
  | c :: s' =>
      match skip with
      | S skip => jwt_from line (S i) skip s'
      | O =>
          if in_jwt_run c then
            let n := upto (λ c, negb (in_jwt_run c)) s in
            jwt_in_run line i (i + n) ++ jwt_from line (S i) (n - 1) s'
          else jwt_from line (S i) O s'
      end
  end.

Definition jwt_spans (line : str) : list Range := jwt_from line 0 0 line.

(** ** Authorization headers *)

(** Six bits at a time. *)
Fixpoint base64_bytes (acc bits : Z) (s : str) : option (list Z) :=
  match s with
  | [] => Some []
  | c :: s =>
      let! v :=
        if is_ascii_upper c then Some (c - 65)
        else if is_ascii_lower c then Some (c - 97 + 26)
        else if is_ascii_digit c then Some (c - 48 + 52)
        else if c =? chr "+" then Some 62
        else if c =? chr "/" then Some 63
        else None in
      let acc := Z.lor (Z.shiftl acc 6 mod 2 ^ 32) v in
      let bits := bits + 6 in
      if 8 <=? bits then
        let bits := bits - 8 in
        let! out := base64_bytes (Z.land acc (2 ^ bits - 1)) bits s in
        Some (Z.shiftr acc bits mod 256 :: out)
      else base64_bytes acc bits s
  end.

Definition decode_base64 (text : str) : option (list Z) :=
  let body := trim_end_by (Z.eqb (chr "=")) text in
  if (str_len body <? 4) || (2 <? str_len text - str_len body) then None else base64_bytes 0 0 body.

Definition is_auth_char (c : char) : bool := is_ascii_alphanumeric c || one_of "-._~+/=" c.

(** One occurrence of a scheme. *)
Definition auth_at (line : str) (scheme : string) (at_ : nat) : option Range :=
  if negb (starts_a_token line at_) then None
  else
    let start := (at_ + length (lit scheme))%nat in
    let start := (start + upto (λ c, negb (is_whitespace c)) (drop start line))%nat in
    let stop := (start + upto (λ c, negb (is_auth_char c)) (drop start line))%nat in
    let token := slice line start stop in
    let literal :=
      if bool_decide (scheme = "basic "%string) then
        match decode_base64 token with Some d => (3 <=? length d)%nat && existsb (Z.eqb (chr ":")) d | None => false end
      else (16 <=? str_len token) && existsb is_ascii_digit token && existsb is_ascii_alphabetic token in
    if literal then Some (start, stop) else None.

Definition auth_scheme_spans (line : str) : list Range :=
  flat_map (λ scheme, omap (auth_at line scheme) (match_indices (lit scheme) (ascii_lowercase line)))
    ["bearer "; "token "; "basic "]%string.

(** ** Passwords in URLs *)

Definition GENERIC : list string := ["pass"; "password"; "passwd"; "pwd"; "secret"; "test"]%string.

Definition url_password_at (line : str) (at_ : nat) : option Range :=
  let authority_start := (at_ + 3)%nat in
  let rest := drop authority_start line in
  let authority := take (upto (λ c, is_whitespace c || one_of "/?#'`" c || (c =? quote)) rest) rest in
  let! at_sign := rfind (chr "@") authority in
  let userinfo := take at_sign authority in
  let! colon := find (chr ":") userinfo in
  let user := take colon userinfo in
  let password := drop (colon + 1) userinfo in
  let start := (authority_start + colon + 1)%nat in
  let generic := is_member (ascii_lowercase password) GENERIC in
  if negb (bool_decide (password = [])) && negb generic && negb (bool_decide (password = user))
     && negb (is_placeholder password)
  then Some (start, (start + length password)%nat) else None.

Definition url_password_spans (line : str) : list Range := omap (url_password_at line) (match_indices (lit "://") line).

(** ** Assignments *)

Definition is_quote (c : char) : bool := (c =? quote) || (c =? chr "'").

Definition key_before (line : str) (sep : nat) : option str :=
  let head := trim_end_by is_whitespace (take sep line) in
  match last head with
  | Some q =>
      if is_quote q then
        let inner := take (length head - 1) head in
        let! open := rfind q inner in
        Some (drop (open + 1) inner)
      else
        let key := rev (take (upto (λ c, negb (is_ascii_alphanumeric c || one_of "_-." c)) (rev head)) (rev head)) in
        if bool_decide (key = []) then None else Some key
  | None => None
  end.

Definition looks_like_a_type (word : str) : bool :=
  is_member word ["str"; "string"; "bytes"; "byte"; "char"]%string
  || match word with c :: _ => is_ascii_upper c | [] => false end && existsb is_ascii_lower word.

Definition declared_name (line : str) (sep : nat) : option str :=
  let! key := key_before line sep in
  if negb (starts_with (lit "=") (drop sep line)) || negb (looks_like_a_type key) then Some key
  else
    let key_start := (length (trim_end_by is_whitespace (take sep line)) - length key)%nat in
    let head := trim_end_by is_whitespace (take key_start line) in
    let head := trim_end_by is_whitespace (trim_end_by (one_of "&*[]") head) in
    let head := trim_end_by is_whitespace (match strip_suffix (lit ":") head with Some h => h | None => head end) in
    match key_before line (length head) with Some k => Some k | None => Some key end.

(** A scan that remembers where it started and where it stopped. *)
Definition NextStop : Type := option (nat * nat).

Definition at_or_after (memo : NextStop) (line : str) (from : nat) (stop : char → bool) : nat * NextStop :=
  let scan := let at_ := (from + upto stop (drop from line))%nat in (at_, Some (from, at_)) in
  match memo with
  | Some (started, at_) => if (started <=? from)%nat && (from <=? at_)%nat then (at_, memo) else scan
  | None => scan
  end.

Record ValueEnds := {
  unquoted : NextStop;
  continued : NextStop;
  double_quote : NextStop;
  single_quote : NextStop;
  back_quote : NextStop;
  chain : NextStop;
}.

Definition no_ends : ValueEnds :=
  {| unquoted := None; continued := None; double_quote := None; single_quote := None; back_quote := None; chain := None |}.

Definition ends_value (c : char) : bool := is_whitespace c || one_of ",;)}]'" c || (c =? quote).

(** The hops of a chain of commas from [whole]; each moves on, so the length of the line is
    enough of them. *)
Fixpoint hop_commas (fuel : nat) (line : str) (whole : nat) (memo : NextStop) : nat * NextStop :=
  match fuel with
  | O => (whole, memo)
  | S fuel =>
      if negb (starts_with (lit ",") (drop whole line)) then (whole, memo)
      else
        let next := S whole in
        match drop next line with
        | [] => (whole, memo)
        | c :: _ =>
            if is_whitespace c then (whole, memo)
            else let '(whole, memo) := at_or_after memo line next ends_value in hop_commas fuel line whole memo
        end
  end.

Definition reach_past_commas (ends : ValueEnds) (line : str) (stop : nat) : nat * ValueEnds :=
  if negb (starts_with (lit ",") (drop stop line)) then (stop, ends)
  else
    let walk :=
      let '(whole, memo) := hop_commas (length line) line stop (continued ends) in
      (whole, {| unquoted := unquoted ends; continued := memo; double_quote := double_quote ends;
                 single_quote := single_quote ends; back_quote := back_quote ends; chain := Some (stop, whole) |}) in
    match chain ends with
    | Some (from, last) => if (from <=? stop)%nat && (stop <=? last)%nat then (last, ends) else walk
    | None => walk
    end.

Definition with_unquoted (m : NextStop) (e : ValueEnds) : ValueEnds :=
  {| unquoted := m; continued := continued e; double_quote := double_quote e; single_quote := single_quote e;
     back_quote := back_quote e; chain := chain e |}.

(** [ends.quotes[q]] for the quote [first], and the same with that memory replaced. *)
Definition quote_memo (first : char) (e : ValueEnds) : NextStop :=
  if first =? quote then double_quote e else if first =? chr "'" then single_quote e else back_quote e.
Definition with_quote_memo (first : char) (m : NextStop) (e : ValueEnds) : ValueEnds :=
  {| unquoted := unquoted e; continued := continued e;
     double_quote := if first =? quote then m else double_quote e;
     single_quote := if negb (first =? quote) && (first =? chr "'") then m else single_quote e;
     back_quote := if negb (first =? quote) && negb (first =? chr "'") then m else back_quote e;
     chain := chain e |}.

Definition literal_after (line : str) (from : nat) (ends : ValueEnds) : option Range * ValueEnds :=
  let start := (from + upto (λ c, negb (is_whitespace c)) (drop from line))%nat in
  match drop start line with
  | [] => (None, ends)
  | first :: _ =>
      if (first =? quote) || one_of "'`" first then
        let '(close, memo) := at_or_after (quote_memo first ends) line (S start) (λ c, c =? first) in
        let ends := with_quote_memo first memo ends in
        if (close =? length line)%nat then (None, ends)
        else if is_literal_secret (slice line (S start) close) true then (Some (S start, close), ends) else (None, ends)
      else
        let '(stop, memo) := at_or_after (unquoted ends) line start ends_value in
        let ends := with_unquoted memo ends in
        if negb (is_literal_secret (slice line start stop) false) then (None, ends)
        else let '(whole, ends) := reach_past_commas ends line stop in (Some (start, whole), ends)
  end.

(** Where the value of the separator [b] at [i] starts, if it is one. *)
Definition value_from (i : nat) (prev : option char) (b : char) (next : option char) : option nat :=
  let next_is set := match next with Some c => one_of set c | None => false end in
  let prev_is set := match prev with Some c => one_of set c | None => false end in
  if b =? chr "=" then if next_is "=>"%string || prev_is "=!<>:"%string then None else Some (i + 1)%nat
  else if b =? chr ":" then
    if next_is "="%string then Some (i + 2)%nat
    else if next_is ":/"%string || prev_is ":"%string then None
    else Some (i + 1)%nat
  else None.

(** The locals of the loop: the last [}] and the last opener before, the ends, the spans. *)
Record Assignments := { last_close : option nat; last_open : option nat; ends : ValueEnds; assigned : list Range }.

Definition opens_template (line : str) (j : nat) : bool :=
  starts_with (lit "${") (drop j line) || starts_with (lit "{{") (drop j line).

(** Whether a template that is open at [i] closes after it. *)
Definition in_template (last_close last_open final_close : option nat) (i : nat) : bool :=
  match last_open with
  | Some open => match last_close with None => true | Some close => (close <? open)%nat end
  | None => false
  end
  && match final_close with Some close => (i <? close)%nat | None => false end.

Definition assignment_at (line : str) (final_close : option nat) (st : Assignments) (i : nat) : Assignments :=
  let last_close := if (1 <=? i)%nat && bool_decide (line !! (i - 1)%nat = Some (chr "}")) then Some (i - 1)%nat else last_close st in
  let last_open := if (2 <=? i)%nat && opens_template line (i - 2) then Some (i - 2)%nat else last_open st in
  let next ends spans := {| last_close := last_close; last_open := last_open; ends := ends; assigned := spans |} in
  let continue := next (ends st) (assigned st) in
  let prev := if (1 <=? i)%nat then line !! (i - 1)%nat else None in
  match line !! i with
  | None => continue
  | Some b =>
      match value_from i prev b (line !! S i) with
      | None => continue
      | Some from =>
          if in_template last_close last_open final_close i then continue
          else
            match declared_name line i with
            | None => continue
            | Some key =>
                if negb (names_a_credential key) then continue
                else
                  let '(span, e) := literal_after line from (ends st) in
                  next e (match span with Some s => assigned st ++ [s] | None => assigned st end)
            end
      end
  end.

Definition assignment_spans (line : str) : list Range :=
  assigned (foldl (assignment_at line (rfind (chr "}") line))
              {| last_close := None; last_open := None; ends := no_ends; assigned := [] |} (seq 0 (length line))).

(** ** Command lines *)

Definition ATTACHED : list string := ["mysql"; "mysqldump"; "mysqladmin"; "mysqlimport"; "mariadb"; "mariadb-dump"]%string.
Definition LONG_FLAGS : list string := ["--password"; "--passwd"; "--passphrase"]%string.

(** [split_whitespace], each word with its offset. *)
Fixpoint words_from (i : nat) (s : str) : list (nat * str) :=
  match s with
  | [] => []
  | c :: s' =>
      if is_whitespace c then words_from (S i) s'
      else
        match s' with
        | d :: _ => if is_whitespace d then (i, [c]) :: words_from (S i) s'
                    else match words_from (S i) s' with (_, w) :: l => (i, c :: w) :: l | [] => [] end
        | [] => [(i, [c])]
        end
  end.

(** What follows the last slash. *)
Definition program_of (word : str) : str := List.last (split_on (Z.eqb (chr "/")) word) word.

(** The end of a shell word: white space outside quotes. *)
Fixpoint shell_word_len (open : option char) (s : str) : nat :=
  match s with
  | [] => 0%nat
  | c :: s =>
      match open with
      | Some q => S (shell_word_len (if c =? q then None else open) s)
      | None =>
          if is_quote c then S (shell_word_len (Some c) s)
          else if is_whitespace c then 0%nat
          else S (shell_word_len None s)
      end
  end.
Definition shell_word_end (line : str) (start : nat) : nat := (start + shell_word_len None (drop start line))%nat.

Definition is_word (w : str) (x : string) : bool := bool_decide (w = lit x).

(** A short flag with its value attached. *)
Definition attached_to (flag : string) (word : str) : bool :=
  (2 <? str_len word) && starts_with (lit flag) word && negb (starts_with (lit "--") word).

(** Where the value of the flag [word] at [at_] starts, after the client [client]. *)
Definition value_of (client : option str) (detached : bool) (next : option nat) (at_ : nat) (word : str) : option nat :=
  if detached then next
  else
    match client with
    | None => None
    | Some c =>
        if (is_word c "sshpass" || is_word c "docker login") && is_word word "-p" then next
        else if is_word c "docker login" && attached_to "-p" word then Some (at_ + 2)%nat
        else if is_word c "curl" && (is_word word "-u" || is_word word "--user") then next
        else if is_word c "curl" && starts_with (lit "--user=") word then Some (at_ + 7)%nat
        else if is_word c "curl" && attached_to "-u" word then Some (at_ + 2)%nat
        else if is_member c ATTACHED && attached_to "-p" word then Some (at_ + 2)%nat
        else None
    end.

(** The value at [start] of the flag [word], when it is a literal. *)
Definition cli_value (line : str) (client : option str) (detached : bool) (word : str) (start : nat) : option Range :=
  let stop := shell_word_end line start in
  let! start :=
    if bool_decide (client = Some (lit "curl")) && negb detached
    then let! colon := find (chr ":") (slice line start stop) in Some (start + colon + 1)%nat
    else Some start in
  let raw := slice line start stop in
  if bool_decide (raw = []) || is_member word LONG_FLAGS && starts_with (lit "-") raw then None
  else
    let value := List.filter (λ c, negb (is_quote c) && negb (is_whitespace c)) raw in
    if is_literal_secret value (existsb is_quote raw) then Some (start, stop) else None.

(** One word: the client after it, and the value it introduces. *)
Definition cli_word (line : str) (netrc_entry : bool) (client : option str) (at_ : nat) (word : str) (next : option (nat * str))
    : option str * option Range :=
  let program := program_of word in
  if is_member program ATTACHED || is_word program "sshpass" || is_word program "curl" then (Some program, None)
  else if is_word program "docker" && match next with Some (_, w) => is_word w "login" | None => false end
  then (Some (lit "docker login"), None)
  else if is_member word ["|"; "&&"; "||"; ";"]%string then (None, None)
  else
    let detached := is_member word LONG_FLAGS || netrc_entry && is_word word "password" in
    (client,
     let! start := value_of client detached (fst <$> next) at_ word in
     cli_value line client detached word start).

Fixpoint cli_from (line : str) (netrc_entry : bool) (client : option str) (l : list (nat * str)) : list Range :=
  match l with
  | [] => []
  | (at_, word) :: l =>
      let '(client, span) := cli_word line netrc_entry client at_ word (head l) in
      match span with Some s => s :: cli_from line netrc_entry client l | None => cli_from line netrc_entry client l end
  end.

Definition cli_password_spans (line : str) : list Range :=
  let l := words_from 0 line in
  let netrc_entry :=
    match l with (_, w) :: _ => is_word w "password" | [] => false end
    || existsb (λ w, is_member w.2 ["machine"; "login"; "default"]%string) l in
  cli_from line netrc_entry None l.

(** ** Detection *)

Record ContextPattern := { c_name : str; keep : nat; c_spans : str → list Range }.

Definition CONTEXT_PATTERNS : list ContextPattern :=
  [
    {| c_name := lit "json web token"; keep := 3; c_spans := jwt_spans |};
    {| c_name := lit "http authorization credential"; keep := 0; c_spans := auth_scheme_spans |};
    {| c_name := lit "password in a url"; keep := 0; c_spans := url_password_spans |};
    {| c_name := lit "password on a command line"; keep := 0; c_spans := cli_password_spans |};
    {| c_name := lit "credential assigned to a named key"; keep := 0; c_spans := assignment_spans |}
  ].

(** A name, a span and how much of it stays visible. *)
Definition Detection : Type := str * Range * nat.

Definition detections (line : str) : list Detection :=
  flat_map (λ p, map (λ s, (p_name p, s, length (prefix p))) (spans p line)) SECRET_PATTERNS
  ++ flat_map (λ p, map (λ s, (c_name p, s, keep p)) (c_spans p line)) CONTEXT_PATTERNS.

(** ** Redaction *)

(** What is kept is ASCII: as many characters as bytes. *)
Definition redact (token : str) (keep : nat) : str :=
  take keep token ++ [ellipsis] ++ lit " (" ++ fmt_u (str_len token) ++ lit " chars)".

Record SecretMatch := { m_name : str; redacted : str }.

Definition find_secret (line : str) : option SecretMatch :=
  match detections line with
  | [] => None
  | (n, (a, b), keep) :: _ => Some {| m_name := n; redacted := redact (slice line a b) keep |}
  end.

(** The order of the spans: by start, what shows more first, then the longer. *)
Definition span_leb (x y : Range * nat) : bool :=
  let '((a, b), k) := x in
  let '((c, d), j) := y in
  if (a =? c)%nat then if (k =? j)%nat then (d <=? b)%nat else (j <? k)%nat else (a <? c)%nat.

(** The merged spans, the last one first. *)
Definition merge_span (merged : list (Range * nat)) (x : Range * nat) : list (Range * nat) :=
  match merged with
  | ((a, b), k) :: l => if (x.1.1 <? b)%nat then ((a, Nat.max b x.1.2), k) :: l else x :: merged
  | [] => [x]
  end.

Definition merged_spans (text : str) : list (Range * nat) :=
  rev (foldl merge_span [] (sort_by span_leb (map (λ d : Detection, (d.1.2, d.2)) (detections text)))).

Fixpoint write_out (text : str) (copied : nat) (l : list (Range * nat)) : str :=
  match l with
  | [] => drop copied text
  | ((a, b), keep) :: l => slice text copied a ++ redact (slice text a b) keep ++ write_out text b l
  end.

Definition redact_pass (text : str) : str := write_out text 0 (merged_spans text).

Definition MAX_REDACTION_PASSES : nat := 16.

(** The passes that remain. *)
Fixpoint redact_again (passes : nat) (line text : str) : str :=
  match passes with
  | O => redact line 0
  | S passes => let next := redact_pass text in if decide (next = text) then text else redact_again passes line next
  end.

Definition redact_line (line : str) : str :=
  let text := redact_pass line in
  if decide (text = line) then text else redact_again (MAX_REDACTION_PASSES - 1) line text.

(** [split_inclusive('\n')] *)
Fixpoint split_inclusive (s : str) : list str :=
  match s with
  | [] => []
  | c :: s =>
      if c =? nl then [c] :: split_inclusive s
      else match split_inclusive s with w :: l => (c :: w) :: l | [] => [[c]] end
  end.

(** A segment without its line ending. *)
Definition line_of (segment : str) : str :=
  strip_cr (match strip_suffix [nl] segment with Some l => l | None => segment end).

Definition redact_segment (segment : str) : str :=
  let line := line_of segment in redact_line line ++ drop (length line) segment.

Definition redact_secrets (text : str) : str := concat (map redact_segment (split_inclusive text)).

Definition contains_secret (text : str) : bool := existsb (λ line, negb (bool_decide (detections line = []))) (lines text).

End Redact.
