(* ===== verification/Rigor.v ===== *)
(** * The rigor gates: [rust/dc-verify/src/rigor.rs] and the check of [dcverify.rs]

    The gates that read what a diff adds: the credential scan, the stub checks with their
    line rules, and the declarations that excuse a stub. What a syntax tree shows of a file
    ([analyze_outcome] of [stub_ast.rs], over tree-sitter) is a parameter, and so are the
    files of the working tree. Offsets count characters where the source counts bytes; what
    is looked for between them is ASCII. Counts of brackets are unbounded integers. *)

From S2P Require Import Prelude RustStr Diff Scope Coverage Substance Redact.
Import Diff Redact.

#[local] Open Scope Z_scope.

(** ** What the tree says: the types of [stub_ast.rs] *)

Module StubAst.

Definition MAX_SOURCE_BYTES : Z := Z.shiftl 2 20.

Inductive Lang : Type := Rust | Go | Python | TypeScript | Tsx | Java | CSharp.

#[export] Instance Lang_eq_dec : EqDecision Lang.
Proof. solve_decision. Defined.

Definition lang_of_extension (ext : str) : option Lang :=
  if is_member ext ["rs"]%string then Some Rust
  else if is_member ext ["go"]%string then Some Go
  else if is_member ext ["py"; "pyi"]%string then Some Python
  else if is_member ext ["ts"; "mts"; "cts"]%string then Some TypeScript
  else if is_member ext ["tsx"]%string then Some Tsx
  else if is_member ext ["java"]%string then Some Java
  else if is_member ext ["cs"]%string then Some CSharp
  else None.

Definition for_path (p : str) : option Lang :=
  let name := List.last (split_on (Z.eqb (chr "/")) p) p in
  let! (_, ext) := rsplit_once (chr ".") name in
  lang_of_extension ext.

Definition has_test_rigor (l : Lang) : bool :=
  match l with Java | CSharp => false | _ => true end.

Inductive Unparsed : Type :=
  | TooLarge | NoTree | OverBudget | SyntaxError | UnresolvedMacroImport | AliasInTokenTree
  | AliasWalkBudget | NoRoot | OutsideRoot | SourceMissing | NotRegular | ReadError | SourceStale.

#[export] Instance Unparsed_eq_dec : EqDecision Unparsed.
Proof. solve_decision. Defined.

Definition unparsed_str (u : Unparsed) : str :=
  lit match u with
      | TooLarge => "source too large to parse"
      | NoTree => "parser produced no tree"
      | OverBudget => "parse exceeded its time budget"
      | SyntaxError => "syntax error"
      | UnresolvedMacroImport => "macro imported from another file could not be resolved"
      | AliasInTokenTree => "alias-in-token-tree"
      | AliasWalkBudget => "alias-walk-budget"
      | NoRoot => "source not read: no working-tree root"
      | OutsideRoot => "source not read: path outside the working tree"
      | SourceMissing => "source not read: file missing"
      | NotRegular => "source not read: not a regular file"
      | ReadError => "source not read: unreadable"
      | SourceStale => "source does not match the diff"
      end.

Inductive Severity : Type := Blocking | Advisory.
Inductive Strength : Type := Proven | Observed | Derived.

#[export] Instance Severity_eq_dec : EqDecision Severity.
Proof. solve_decision. Defined.
#[export] Instance Strength_eq_dec : EqDecision Strength.
Proof. solve_decision. Defined.

Definition strength_str (s : Strength) : str :=
  lit match s with Proven => "proven" | Observed => "observed" | Derived => "derived" end.

Record AstFinding := {
  a_gate : str;
  a_severity : Severity;
  a_strength : Strength;
  a_line : Z;
  scope_line : option Z;
  a_message : str;
}.

End StubAst.

Module Rigor.
Import StubAst.

(** The letters of Unicode, beside the tables of [UnicodeTables]. *)
Class LetterTables := {
  is_alphabetic : char → bool;
  is_uppercase : char → bool;
  is_alphabetic_ascii : ∀ c, 0 ≤ c < 128 → is_alphabetic c = is_ascii_alphabetic c;
  is_uppercase_ascii : ∀ c, 0 ≤ c < 128 → is_uppercase c = is_ascii_upper c;
}.

Definition ascii_letters : LetterTables.
Proof. refine {| is_alphabetic := is_ascii_alphabetic; is_uppercase := is_ascii_upper |}; done. Defined.

Record Finding := {
  gate : str;
  severity : Severity;
  strength : Strength;
  f_path : str;
  f_line : Z;
  evidence : str;
  message : str;
}.

Definition STUB_MARKERS : list str :=
  map lit ["todo"; "fixme"; "xxx:"; "hack:"; "not implemented"; "notimplemented"; "unimplemented";
           "placeholder"; "for now"; "stub"]%string.

Definition EMPTY_BODIES : list str :=
  [lit "todo!()"; lit "unimplemented!()"; lit "panic!(" ++ [quote] ++ lit "todo" ++ [quote] ++ lit ")";
   lit "raise notimplementederror"; lit "pass  # todo"].

Definition STUB_DETECTION : str := lit "stub_detection".
Definition SECRET_SCAN : str := lit "secret_scan".
Definition GATE_STUB_ALLOWED : str := lit "stub_allowed".
Definition ALLOW_STUB_MARKER : str := lit "allow-stub".

Definition PLACEHOLDER_MESSAGES : list str :=
  map lit ["not implemented"; "not yet implemented"; "unimplemented"; "implement me"; "not supported yet";
           "todo"]%string.

(** A number that starts a lookup: nothing below zero is in a list. *)
Definition nth_z {A} (l : list A) (i : Z) : option A := if i <? 0 then None else l !! Z.to_nat i.

(** ** Evidence *)

Definition truncate (text : str) (n : nat) : str :=
  if (length text <=? n)%nat then text else take n text ++ [ellipsis].

Definition withheld (name : str) : str := lit "<contains a " ++ name ++ lit "; quoted text withheld>".

Definition safe_evidence (line : str) : str :=
  let trimmed := trim line in
  match find_secret trimmed with
  | Some secret => withheld (m_name secret)
  | None => truncate trimmed 120
  end.

Definition secret_message (name : str) : str :=
  lit "added line contains what looks like a " ++ name
  ++ lit "; a credential in a commit is compromised even after it is deleted, because the object stays in history".

(** The finding of one line, if it holds a credential. *)
Definition secret_finding (p : str) (n : Z) (content : str) : option Finding :=
  let! secret := find_secret content in
  Some {| gate := SECRET_SCAN; severity := Blocking; strength := Derived; f_path := p; f_line := n;
          evidence := redacted secret; message := secret_message (m_name secret) |}.

Definition scan_secrets (files : list FileDiff) : list Finding :=
  flat_map (λ file, omap (λ l : Z * str, secret_finding (path file) l.1 l.2) (added_lines file)) files.

(** ** Where the code of a line is *)

(** Whether position [at_] lies in code, reading the [at_] characters before it; a [//] is
    looked for in the whole line. *)
Fixpoint code_before (at_ : nat) (in_string escaped : bool) (s : str) : bool :=
  match at_, s with
  | O, _ | _, [] => negb in_string
  | S at_, c :: s' =>
      if in_string then
        if escaped then code_before at_ true false s'
        else if c =? backslash then code_before at_ true true s'
        else code_before at_ (negb (c =? quote)) false s'
      else if c =? quote then code_before at_ true false s'
      else if (c =? chr "/") && starts_with (lit "/") s' then false
      else code_before at_ false false s'
  end.

Definition is_code_at (line : str) (at_ : nat) : bool := code_before at_ false false line.

(** Opening minus closing parentheses outside strings and [//] comments. *)
Fixpoint paren_from (depth : Z) (in_string escaped : bool) (s : str) : Z :=
  match s with
  | [] => depth
  | c :: s' =>
      if in_string then
        if escaped then paren_from depth true false s'
        else if c =? backslash then paren_from depth true true s'
        else paren_from depth (negb (c =? quote)) false s'
      else if c =? quote then paren_from depth true false s'
      else if (c =? chr "/") && starts_with (lit "/") s' then depth
      else if c =? chr "(" then paren_from (depth + 1) false false s'
      else if c =? chr ")" then paren_from (depth - 1) false false s'
      else paren_from depth false false s'
  end.

Definition paren_balance (line : str) : Z := paren_from 0 false false line.

Definition MAX_STATEMENT_LINES : nat := 8.

(** The lines after the first of a statement: [first] is its number, [offset] how many
    lines are read, [depth] the parentheses open. *)
Fixpoint statement_rest (first offset depth : Z) (statement : str) (l : list (Z * str)) : str :=
  match l with
  | [] => statement
  | (n, line) :: l =>
      if (depth <=? 0) || negb (n =? first + offset) then statement
      else
        let lowered := ascii_lowercase line in
        statement_rest first (offset + 1) (depth + paren_balance lowered)
          (statement ++ lit " " ++ trim lowered) l
  end.

(** The statement that starts at the first of the added lines [l]. *)
Definition c_family_statement (l : list (Z * str)) : str :=
  match l with
  | [] => []
  | (n, line) :: rest =>
      let lowered := ascii_lowercase line in
      statement_rest n 1 (paren_balance lowered) (trim lowered) (take (MAX_STATEMENT_LINES - 1) rest)
  end.

Definition is_c_family_source (p : str) : bool := ends_with (lit ".java") p || ends_with (lit ".cs") p.

Definition throws_new_source (p : str) : bool :=
  let ext := match rsplit_once (chr ".") p with Some (_, e) => e | None => [] end in
  is_member ext ["js"; "jsx"; "mjs"; "cjs"; "ts"; "tsx"; "mts"; "cts"; "php"; "kt"; "kts"]%string.

(** ** The literals of a [concat!] *)

Definition not_hash (c : char) : bool := negb (c =? chr "#").

(** How many [#] stand before the quote, wherever they start. *)
Definition raw_hashes (b : str) (q : nat) : nat := upto not_hash (rev (take q b)).

(** The quote that opens a string literal at [at_], past its prefix. *)
Definition rust_string_at (b : str) (at_ : nat) : option nat :=
  let prefixed := existsb (λ c, bool_decide (b !! at_ = Some c)) [chr "b"; chr "c"] in
  let opens := existsb (λ c, bool_decide (b !! S at_ = Some c)) [quote; chr "r"] in
  if prefixed && negb opens then None
  else
    let j := if prefixed then S at_ else at_ in
    let j := if bool_decide (b !! j = Some (chr "r"))
             then (S j + upto not_hash (drop (S j) b))%nat else j in
    if bool_decide (b !! j = Some quote) then Some j else None.

(** How far the closing quote of a plain literal is, or the end. *)
Fixpoint plain_close (s : str) : nat :=
  match s with
  | [] => O
  | c :: s' =>
      if c =? quote then O
      else if c =? backslash then match s' with [] => 1%nat | _ :: s'' => S (S (plain_close s'')) end
      else S (plain_close s')
  end.

Definition skip_rust_string (b : str) (q : nat) : nat :=
  match raw_hashes b q with
  | O => Nat.min (q + 1 + plain_close (drop (q + 1) b) + 1) (length b)
  | hashes =>
      match find_split (quote :: replicate hashes (chr "#")) (drop (q + 1) b) with
      | Some (inner, _) => q + 1 + length inner + 1 + hashes
      | None => length b
      end
  end%nat.

(** The scan of a [concat!] body: where the argument starts, where it is, how deep. *)
Fixpoint concat_loop (fuel : nat) (b : str) (start i : nat) (depth : Z) : list str :=
  match fuel with
  | O => []
  | S fuel =>
      match b !! i with
      | None => []
      | Some c =>
          if (c =? chr "/") && bool_decide (b !! S i = Some (chr "/")) then
            concat_loop fuel b start (i + 2 + upto (Z.eqb nl) (drop (i + 2) b))%nat depth
          else if (c =? chr "/") && bool_decide (b !! S i = Some (chr "*")) then
            match find_split (lit "*/") (drop (i + 2) b) with
            | Some (inner, _) => concat_loop fuel b start (i + 2 + length inner + 2)%nat depth
            | None => []
            end
          else match rust_string_at b i with
          | Some q => concat_loop fuel b start (skip_rust_string b q) depth
          | None =>
              if one_of "([{" c then concat_loop fuel b start (S i) (depth + 1)
              else if one_of ")]}" c then
                if depth - 1 =? 0 then [slice b start i] else concat_loop fuel b start (S i) (depth - 1)
              else if (c =? chr ",") && (depth =? 1) then slice b start i :: concat_loop fuel b (S i) (S i) depth
              else concat_loop fuel b start (S i) depth
          end
      end
  end.

Definition concat_args (body : str) : list str := concat_loop (S (length body)) body 0 0 1.

Fixpoint trim_comments_loop (fuel : nat) (s : str) : str :=
  match fuel with
  | O => s
  | S fuel =>
      let s := trim_start_by is_whitespace s in
      match strip_prefix (lit "/*") s with
      | Some rest =>
          match find_split (lit "*/") rest with
          | Some (_, tail) => trim_comments_loop fuel (drop 2 tail)
          | None => s
          end
      | None =>
          match strip_prefix (lit "//") s with
          | Some rest => trim_comments_loop fuel (match split_once nl rest with Some (_, r) => r | None => [] end)
          | None => s
          end
      end
  end.

Definition trim_leading_ws_comments (s : str) : str := trim_comments_loop (S (length s)) s.

Definition sole_string_literal (arg : str) : option str :=
  let s := trim_leading_ws_comments arg in
  let! q := rust_string_at s 0 in
  let stop := skip_rust_string s q in
  if bool_decide (trim_leading_ws_comments (drop stop s) = []) then
    Some (slice s (q + 1) (Nat.max (stop - (1 + raw_hashes s q)) (q + 1)))
  else None.

(** The run of literals being joined, how many there are, and the phrase found. *)
Record Run := { run : str; pieces : nat; phrase : option str }.

Definition note_concat_run (r : Run) : Run :=
  {| run := []; pieces := 0;
     phrase := match phrase r with
               | Some p => Some p
               | None => if (2 <=? pieces r)%nat
                         then List.find (λ p, str_contains p (ascii_lowercase (run r))) PLACEHOLDER_MESSAGES
                         else None
               end |}.

Definition concat_arg (r : Run) (arg : str) : Run :=
  if bool_decide (trim arg = []) then r
  else match sole_string_literal arg with
       | Some content => {| run := run r ++ content; pieces := S (pieces r); phrase := phrase r |}
       | None => note_concat_run r
       end.

Definition concat_placeholder (args : str) : option str :=
  let! body := strip_prefix (lit "concat!(") (trim_start_by is_whitespace args) in
  phrase (note_concat_run (foldl concat_arg {| run := []; pieces := 0; phrase := None |} (concat_args body))).

Section Tables.
Context `{UnicodeTables} `{LetterTables}.

(** ** Placeholders *)

(** [s[..at_].chars().next_back()] and [s[at_..].chars().next()], asked of [p]. *)
Definition before_is (p : char → bool) (s : str) (at_ : nat) : bool :=
  match last (take at_ s) with Some c => p c | None => false end.
Definition after_is (p : char → bool) (s : str) (at_ : nat) : bool :=
  match s !! at_ with Some c => p c | None => false end.

Definition contains_word (text word : str) : bool :=
  existsb (λ at_, negb (before_is is_alphanumeric text at_)
                  && negb (after_is is_alphanumeric text (at_ + length word)))
    (match_indices word text).

Definition throws_message (said : str) : str :=
  lit "added code throws an exception saying `" ++ said ++ lit "`; the task is not implemented".

Definition bare_message : str :=
  lit "added code throws a bare `UnsupportedOperationException`: a placeholder, or a deliberate refusal such as an immutable collection's mutator "
  ++ [8212] ++ lit " nothing in the code tells which".

Definition thrown_placeholder (ty said : str) (bare : bool) : option (Severity * str) :=
  let ty := trim (List.last (split_on (Z.eqb (chr ".")) ty) ty) in
  if bool_decide (ty = lit "notimplementedexception") then
    Some (Blocking, lit "added code whose body throws `NotImplementedException`; the task is not implemented")
  else match List.find (contains_word said) PLACEHOLDER_MESSAGES with
  | Some p => Some (Blocking, throws_message p)
  | None =>
      if bool_decide (ty = lit "unsupportedoperationexception") && bare
      then Some (Advisory, bare_message) else None
  end.

Definition c_family_placeholder (lowered : str) : option (Severity * str) :=
  let! at_ := List.find (is_code_at lowered) (match_indices (lit "throw new ") lowered) in
  let thrown := drop (at_ + length (lit "throw new ")) lowered in
  let! (ty, rest) := split_once (chr "(") thrown in
  let args := trim (match rsplit_once (chr ")") rest with Some (inner, _) => inner | None => rest end) in
  thrown_placeholder (trim ty) args (bool_decide (args = [])).

Definition is_name_char (c : char) : bool := is_alphanumeric c || (c =? chr "_").
Definition word_start (statement : str) (at_ : nat) : bool :=
  negb (before_is (λ c, is_name_char c || (c =? chr ".")) statement at_).

(** The places where [name] is called: in code, and not the end of a longer word. *)
Definition calls (name statement : str) : list nat :=
  List.filter (λ at_, is_code_at statement at_ && word_start statement at_) (match_indices name statement).

Definition body_message (name : str) : str :=
  lit "added code whose body is `" ++ name ++ [ellipsis] ++ lit ")`; the task is not implemented".
Definition panic_message (said : str) : str :=
  lit "added code panics saying `" ++ said ++ lit "`; the task is not implemented".
Definition kotlin_message : str :=
  lit "added code whose body is Kotlin's `TODO(" ++ [ellipsis] ++ lit ")`; the task is not implemented".

(** What one panic says, if it opens with a placeholder's words. *)
Definition panic_says (args : str) : option str :=
  match strip_prefix [quote] args with
  | Some said => List.find (λ p, starts_with p said && negb (after_is is_alphanumeric said (length p))) PLACEHOLDER_MESSAGES
  | None => concat_placeholder args
  end.

Definition panic_placeholder (name statement : str) : option (Severity * str) :=
  Coverage.find_map (λ at_,
    let! said := panic_says (trim_start_by is_whitespace (drop (at_ + length name) statement)) in
    Some (Blocking, panic_message said)) (calls name statement).

Definition is_kotlin (p : str) : bool := ends_with (lit ".kt") p || ends_with (lit ".kts") p.

Definition macro_placeholder (name statement : str) : option (Severity * str) :=
  match calls name statement with [] => None | _ => Some (Blocking, body_message name) end.

Definition placeholder_call (p statement : str) : option (Severity * str) :=
  match Coverage.find_map (λ name, macro_placeholder (lit name) statement) ["todo!("; "unimplemented!("]%string with
  | Some found => Some found
  | None =>
  match Coverage.find_map (λ name, panic_placeholder (lit name) statement) ["panic!("; "panic("]%string with
  | Some found => Some found
  | None =>
      if is_kotlin p && negb (bool_decide (calls (lit "todo(") statement = [])) then Some (Blocking, kotlin_message)
      else if throws_new_source p then c_family_placeholder statement
      else None
  end
  end.

(** ** The line checks *)

Definition is_comment_or_string (trimmed : str) : bool :=
  existsb (λ p, starts_with (lit p) trimmed) ["//"; "#"; "/*"; "*"; "--"; "<!--"]%string
  || str_contains (quote :: lit " todo") trimmed || str_contains (lit "// todo") trimmed.

Definition marker_message (marker : str) : str := lit "added a `" ++ marker ++ lit "` marker".
Definition empty_body_message (marker : str) : str :=
  lit "added code whose body is `" ++ marker ++ lit "`; the task is not implemented".

(** What the checks say of the first of the added lines [l]. *)
Definition judge_line (p : str) (include_bodies : bool) (l : list (Z * str)) (content : str) :
    option (Severity * str) :=
  let trimmed := trim (ascii_lowercase content) in
  let statement := c_family_statement l in
  if str_contains ALLOW_STUB_MARKER trimmed then None
  else match (if include_bodies && is_c_family_source p then c_family_placeholder statement else None) with
  | Some found => Some found
  | None =>
  match List.find (λ m, include_bodies && str_contains m trimmed) EMPTY_BODIES with
  | Some marker => Some (Blocking, empty_body_message marker)
  | None =>
  match (if include_bodies then placeholder_call p statement else None) with
  | Some found => Some found
  | None =>
  match List.find (λ m, str_contains m trimmed) STUB_MARKERS with
  | Some marker => if is_comment_or_string trimmed then Some (Advisory, marker_message marker) else None
  | None => None
  end
  end
  end
  end.

Definition line_finding (p : str) (n : Z) (content : str) (judged : Severity * str) : Finding :=
  {| gate := STUB_DETECTION; severity := judged.1; strength := Derived; f_path := p; f_line := n;
     evidence := safe_evidence content; message := judged.2 |}.

Fixpoint substring_from (p : str) (include_bodies : bool) (l : list (Z * str)) : list Finding :=
  match l with
  | [] => []
  | (n, content) :: rest =>
      match judge_line p include_bodies l content with
      | Some judged => line_finding p n content judged :: substring_from p include_bodies rest
      | None => substring_from p include_bodies rest
      end
  end.

Definition substring_findings (file : FileDiff) (include_bodies : bool) : list Finding :=
  substring_from (path file) include_bodies (added_lines file).

(** ** Declarations of functions *)

Definition MODIFIERS : list string :=
  ["pub"; "pub(crate)"; "pub(super)"; "async"; "unsafe"; "const"; "extern"; "export"; "default"; "static";
   "public"; "private"; "protected"]%string.

Fixpoint after_modifiers (ws : list str) : option str :=
  match ws with
  | [] => None
  | w :: ws => if is_member w MODIFIERS then after_modifiers ws else Some w
  end.

Definition declares_function (trimmed : str) : bool :=
  match after_modifiers (split_whitespace trimmed) with
  | Some w => is_member w ["fn"; "def"; "func"; "function"]%string
  | None => false
  end.

Definition STATEMENT_WORDS : list string :=
  ["if"; "else"; "for"; "foreach"; "while"; "do"; "switch"; "case"; "catch"; "try"; "finally"; "using";
   "lock"; "return"; "throw"; "new"; "await"; "yield"; "var"; "fixed"; "checked"; "unchecked";
   "synchronized"; "assert"; "goto"; "break"; "continue"; "when"; "typeof"; "sizeof"; "nameof"; "default";
   "}"]%string.

Definition is_identifier (w : str) : bool :=
  match w with c :: _ => is_alphabetic c || (c =? chr "_") | [] => false end && forallb is_name_char w.

Definition declares_c_family_method (trimmed : str) : bool :=
  if ends_with (lit ";") trimmed then false
  else match split_once (chr "(") trimmed with
  | None => false
  | Some (head, _) =>
      if str_contains (lit "=") head then false
      else
        match List.filter (λ w, negb (starts_with (lit "@") w) && negb (starts_with (lit "[") w)) (split_whitespace head) with
        | [] => false
        | [name] =>
            is_identifier name && match name with c :: _ => is_uppercase c | [] => false end
            && ends_with (lit ")") (trim_end_by is_whitespace (trim_end_by (Z.eqb (chr "{")) trimmed))
        | first :: rest => is_identifier (List.last rest []) && negb (is_member first STATEMENT_WORDS)
        end
  end.

(** ** Declared stubs *)

Definition is_annotation_line (trimmed : str) (c_family : bool) : bool :=
  c_family && starts_with (lit "[") trimmed
  || existsb (λ p, starts_with (lit p) trimmed) ["//"; "#"; "/*"; "*"; "@"; "--"]%string.

Definition allow_stub_reason (line : str) : option str :=
  let! (before, _) := find_split ALLOW_STUB_MARKER (ascii_lowercase line) in
  let rest := drop (length before + length ALLOW_STUB_MARKER) line in
  Some (trim (trim_end_by (λ c, one_of "*/)>- " c || (c =? 9)) (trim_start_by (λ c, one_of ":( =" c || (c =? 9)) rest))).

Definition declared_allow_stub (line : str) : option str :=
  let! (lowered, _) := find_split ALLOW_STUB_MARKER (ascii_lowercase line) in
  let before := trim_end_by is_whitespace (take (length lowered) line) in
  if existsb (λ p, ends_with (lit p) before) ["//"; "#"; "/*"; "*"; "--"; "<!--"]%string
  then allow_stub_reason (trim line) else None.

Inductive Scope : Type := Known (line : option Z) | Infer.

Definition MAX_SCOPE_SEARCH_LINES : nat := 400.

Definition indent (s : str) : Z := str_len s - str_len (trim_start_by is_whitespace s).

(** The search upwards from the line above [n], over at most [k] lines. *)
Fixpoint function_above (line_at : Z → option str) (c_family : bool) (own : Z) (k : nat) (n : Z) : option Z :=
  match k with
  | O => None
  | S k =>
      let n := n - 1 in
      if n <? 1 then None
      else
        let! text := line_at n in
        let trimmed := trim text in
        if bool_decide (trimmed = []) then function_above line_at c_family own k n
        else if (indent text <? own) && (declares_function trimmed || (c_family && declares_c_family_method trimmed))
        then Some n
        else function_above line_at c_family own k n
  end.

Definition inferred_function_line (line : Z) (line_at : Z → option str) (c_family : bool) : option Z :=
  let! own := line_at line in
  function_above line_at c_family (indent own) MAX_SCOPE_SEARCH_LINES line.

(** The marker on line [n], or, when it has none and is not the [first], on the lines above
    it as long as they are annotations. *)
Fixpoint declared_from (line_at : Z → option str) (c_family first : bool) (n : nat) : option (Z * str) :=
  let! text := line_at (Z.of_nat n) in
  let trimmed := trim text in
  if negb first && negb (is_annotation_line trimmed c_family) then None
  else match allow_stub_reason trimmed with
  | Some r => Some (Z.of_nat n, r)
  | None => match n with S (S _ as m) => declared_from line_at c_family false m | _ => None end
  end.

Definition declared_at (line_at : Z → option str) (c_family : bool) (start : Z) : option (Z * str) :=
  declared_from line_at c_family true (Z.to_nat start).

Definition allowed_message (r was : str) : str := lit "stub allowed: " ++ r ++ lit " (was: " ++ was ++ lit ")".
Definition unreasoned_message (was : str) : str :=
  was ++ lit " (an " ++ ALLOW_STUB_MARKER ++ lit " marker covers this line but gives no reason, so it is not honoured)".

(** The finding once a marker with the reason [r] covers it. *)
Definition excuse (f : Finding) (r : str) : Finding :=
  if bool_decide (r = []) then
    {| gate := gate f; severity := severity f; strength := strength f; f_path := f_path f; f_line := f_line f;
       evidence := evidence f; message := unreasoned_message (message f) |}
  else
    {| gate := GATE_STUB_ALLOWED; severity := Advisory; strength := strength f; f_path := f_path f;
       f_line := f_line f; evidence := evidence f; message := allowed_message r (message f) |}.

(** The marker that covers a finding. *)
Definition covering_marker (line_at : Z → option str) (c_family : bool) (f : Finding) (s : Scope) : option (Z * str) :=
  if bool_decide (gate f = SECRET_SCAN) then None
  else
    let enclosing := match s with
                     | Known l => l
                     | Infer => inferred_function_line (f_line f) line_at c_family
                     end in
    match declared_at line_at c_family (f_line f) with
    | Some d => Some d
    | None => let! l := enclosing in declared_at line_at c_family l
    end.

Definition judge_finding (line_at : Z → option str) (c_family : bool) (fs : Finding * Scope) : Finding :=
  match covering_marker line_at c_family fs.1 fs.2 with
  | Some (_, r) => excuse fs.1 r
  | None => fs.1
  end.

Definition no_reason_message : str :=
  lit "added an " ++ ALLOW_STUB_MARKER
  ++ lit " declaration with no reason over code no stub check recognised; review what it declares".
Definition declared_message (r : str) : str :=
  lit "stub declared: " ++ r ++ lit " (an " ++ ALLOW_STUB_MARKER
  ++ lit " declaration over code no stub check recognised; review what it declares)".

(** The audit of one added line: a declaration that covers nothing. *)
Definition audit_line (p : str) (covering : list Z) (l : Z * str) : option Finding :=
  if bool_decide (l.1 ∈ covering) then None
  else
    let! r := declared_allow_stub l.2 in
    Some {| gate := GATE_STUB_ALLOWED; severity := Advisory; strength := Derived; f_path := p; f_line := l.1;
            evidence := safe_evidence l.2;
            message := if bool_decide (r = []) then no_reason_message else declared_message r |}.

Definition is_prose (p : str) : bool := existsb (λ e, ends_with (lit e) p) [".md"; ".rst"; ".txt"]%string.

(** The text of a line after the change: from the file, or else from what was added. *)
Definition line_of_change (file : FileDiff) (lns : option (list str)) (n : Z) : option str :=
  match lns with
  | Some l => nth_z l (n - 1)
  | None => (list_to_map (rev (added_lines file)) : gmap Z str) !! n
  end.

Definition apply_allow_stub (fs : list (Finding * Scope)) (file : FileDiff) (lns : option (list str)) : list Finding :=
  let line_at := line_of_change file lns in
  let c_family := is_c_family_source (path file) in
  let covering := omap (λ f, let! (n, _) := covering_marker line_at c_family f.1 f.2 in Some n) fs in
  map (judge_finding line_at c_family) fs
  ++ (if is_prose (path file) then [] else omap (audit_line (path file) covering) (added_lines file)).

(** ** The file after the change *)

Inductive PostImageMiss : Type := ImageTooLarge | ImageUnknown | ImageStale.

(** The added lines from the [i]th on are numbered from [i]. *)
Fixpoint numbered_from (i : Z) (l : list (Z * str)) : bool :=
  match l with [] => true | (n, _) :: l => (n =? i) && numbered_from (i + 1) l end.

Definition whole_file (file : FileDiff) : bool :=
  bool_decide (status file = Added) && numbered_from 1 (added_lines file).

Definition without_crs (s : str) : str := trim_end_by (Z.eqb cr) s.

Definition agrees (lns : list str) (l : Z * str) : bool :=
  match nth_z lns (l.1 - 1) with
  | Some text => bool_decide (without_crs text = without_crs l.2)
  | None => false
  end.

Definition post_image (source : FileDiff → option str) (file : FileDiff) : result str PostImageMiss :=
  let? text :=
    if whole_file file then Ok (concat (map (λ l : Z * str, l.2 ++ [nl]) (added_lines file)))
    else match source file with Some text => Ok text | None => Err ImageUnknown end in
  if MAX_SOURCE_BYTES <? str_len text then Err ImageTooLarge
  else if forallb (agrees (lines text)) (added_lines file) then Ok text
  else Err ImageStale.

(** ** The stub pass *)

Record UnparsedFile := { u_path : str; u_reason : str }.

Record StubReport := { findings : list Finding; parsed_files : nat; unparsed : list UnparsedFile }.

Definition empty_stub_report : StubReport := {| findings := []; parsed_files := 0; unparsed := [] |}.

Definition join_reports (r s : StubReport) : StubReport :=
  {| findings := findings r ++ findings s; parsed_files := parsed_files r + parsed_files s;
     unparsed := unparsed r ++ unparsed s |}.

Section Pass.
(** The analysis of [stub_ast.rs], and the source of a file when the caller has it. *)
Variable analyze_outcome : Lang → str → gset Z → result (list AstFinding) Unparsed.
Variable source : FileDiff → option str.

Definition added_set (file : FileDiff) : gset Z := list_to_set (added_line_numbers file).

Definition ast_finding (file : FileDiff) (lns : list str) (f : AstFinding) : Finding * Scope :=
  ({| gate := a_gate f; severity := a_severity f; strength := a_strength f; f_path := path file;
      f_line := a_line f; evidence := safe_evidence (default [] (nth_z lns (a_line f - 1)));
      message := a_message f |},
   Known (scope_line f)).

(** The findings of a file that was parsed: the tree's, then the comment markers. *)
Definition parsed_report (file : FileDiff) (lang : Lang) (text : str) (ast : list AstFinding) : StubReport :=
  let lns := lines text in
  let mine := map (ast_finding file lns) ast ++ map (λ f, (f, Known None)) (substring_findings file false) in
  {| findings := apply_allow_stub mine file (Some lns); parsed_files := if has_test_rigor lang then 1 else 0;
     unparsed := [] |}.

(** The findings of a file that was not, and why it was not if it could have been. *)
Definition line_report (file : FileDiff) (lns : option (list str)) (why : option Unparsed) : StubReport :=
  {| findings := apply_allow_stub (map (λ f, (f, Infer)) (substring_findings file true)) file lns; parsed_files := 0;
     unparsed := match why with
                 | Some u => [{| u_path := path file; u_reason := unparsed_str u |}]
                 | None => []
                 end |}.

Definition file_report (file : FileDiff) : StubReport :=
  let lang := for_path (path file) in
  match post_image source file with
  | Ok text =>
      match lang with
      | Some lang =>
          match analyze_outcome lang text (added_set file) with
          | Ok ast => parsed_report file lang text ast
          | Err why => line_report file (Some (lines text)) (Some why)
          end
      | None => line_report file (Some (lines text)) None
      end
  | Err ImageTooLarge => line_report file None (let! _ := lang in Some TooLarge)
  | Err ImageStale => line_report file None (let! _ := lang in Some SourceStale)
  | Err ImageUnknown => line_report file None None
  end.

Definition detect_stubs_report (files : list FileDiff) : StubReport :=
  foldl (λ r file, join_reports r (file_report file)) empty_stub_report files.

Definition detect_stubs_with (files : list FileDiff) : list Finding := findings (detect_stubs_report files).

End Pass.

(** The pass with no source given. *)
Definition detect_stubs (analyze : Lang → str → gset Z → result (list AstFinding) Unparsed) (files : list FileDiff) : list Finding :=
  detect_stubs_with analyze (λ _, None) files.

(** ** The check of [dcverify] *)

(** What is known of the section being read. *)
Record Section_ := { index : option nat; saw_hunk : bool; saw_binary : bool; saw_deleted : bool; sections : list nat }.

Definition flush (st : Section_) : list nat :=
  match index st with
  | Some i => if saw_binary st && negb (saw_hunk st) && negb (saw_deleted st) then sections st ++ [i] else sections st
  | None => sections st
  end.

Definition is_binary_marker (line : str) : bool :=
  starts_with (lit "Binary files ") line || starts_with (lit "GIT binary patch") line.

Definition section_line (st : Section_) (line : str) : Section_ :=
  if starts_with (lit "diff --git ") line then
    {| index := Some (match index st with Some i => S i | None => 0%nat end); saw_hunk := false; saw_binary := false;
       saw_deleted := false; sections := flush st |}
  else match index st with
  | None => st
  | Some _ =>
      let marker := is_binary_marker line in
      {| index := index st; saw_hunk := saw_hunk st || starts_with (lit "@@") line;
         saw_binary := saw_binary st || marker;
         saw_deleted := saw_deleted st || (negb (saw_binary st) && starts_with (lit "deleted file mode") line)
                        || (marker && ends_with (lit " and /dev/null differ") line);
         sections := sections st |}
  end.

Definition binary_sections_without_hunks (diff : str) : list nat :=
  flush (foldl section_line {| index := None; saw_hunk := false; saw_binary := false; saw_deleted := false; sections := [] |} (lines diff)).

Definition binary_scan_skipped (p reason : str) : str :=
  p ++ lit ": secret scan skipped (binary file not read: " ++ reason ++ lit ")".

Definition unparsed_entry (u : UnparsedFile) : str := u_path u ++ lit ": " ++ u_reason u.

(** [n + 1], held at the largest [u32]. *)
Definition saturate_u32 (n : Z) : Z := Z.min n u32_max.

Definition numbered (l : list str) : list (Z * str) := imap (λ i s, (saturate_u32 (Z.of_nat i + 1), s)) l.

Definition is_line_end (c : char) : bool := (c =? nl) || (c =? cr).

Definition whole_diff (p text : str) : FileDiff :=
  {| path := p; old_path := None; status := Added; added_lines := numbered (lines text); removed_lines := [] |}.

Section Check.
Variable analyze_outcome : Lang → str → gset Z → result (list AstFinding) Unparsed.
(** The files of the working tree: [read_binary_post_image] and [read_post_image] under the root. *)
Variable read_binary : str → result str str.
Variable read_source : str → result str Unparsed.

(** What is found in the text of a file whose diff is a binary marker, and what is degraded. *)
Definition scan_binary_text (p text : str) : list Finding * list str :=
  let secrets := omap (λ l, secret_finding p l.1 (trim_end_by is_line_end l.2)) (numbered (split_inclusive text)) in
  match for_path p with
  | None => (secrets, [])
  | Some _ =>
      if MAX_SOURCE_BYTES <? str_len text then (secrets, [p ++ lit ": " ++ unparsed_str TooLarge])
      else
        let report := detect_stubs_report analyze_outcome (λ _, None) [whole_diff p text] in
        (secrets ++ findings report, map unparsed_entry (unparsed report))
  end.

Definition scan_binary_section (files : list FileDiff) (in_scope : list str) (section : nat) : list Finding * list str :=
  match files !! section with
  | None => ([], [binary_scan_skipped (lit "a binary section") (lit "the diff parser did not name it")])
  | Some parsed =>
      let normalized := Scope.normalize_candidate (path parsed) in
      if negb (bool_decide (normalized ∈ in_scope)) then ([], [])
      else if negb (bool_decide (added_lines parsed = [])) then ([], [])
      else match read_binary normalized with
           | Ok text => scan_binary_text normalized text
           | Err reason => ([], [binary_scan_skipped normalized reason])
           end
  end.

Definition scan_binary_paths (diff : str) (files : list FileDiff) (in_scope : list str) : list Finding * list str :=
  let per := map (scan_binary_section files in_scope) (binary_sections_without_hunks diff) in
  (concat (map fst per), concat (map snd per)).

(** The source the stub pass is given, and why one could not be, when that matters. *)
Definition source_of (file : FileDiff) : option str :=
  match read_source (path file) with Ok text => Some text | Err _ => None end.

Definition source_miss (file : FileDiff) : option UnparsedFile :=
  if whole_file file then None
  else match read_source (path file) with
       | Ok _ => None
       | Err why =>
           if negb (bool_decide (status file = Deleted)) && negb (bool_decide (added_lines file = []))
              && bool_decide (is_Some (for_path (path file)))
           then Some {| u_path := path file; u_reason := unparsed_str why |} else None
       end.

Definition note_miss (l : list UnparsedFile) (u : UnparsedFile) : list UnparsedFile :=
  if existsb (λ v, bool_decide (u_path v = u_path u)) l then l else l ++ [u].

(** The reply before it is written out. *)
Record Reply := {
  r_files : nat;
  r_parsed_files : nat;
  r_scope : Scope.ScopeReport;
  r_findings : list Finding;
  r_coverage : Coverage.CoverageReport;
  r_substance : Substance.SubstanceReport;
  r_degraded : list str;
}.

Inductive CheckError : Type :=
  | BadDiff (line : nat) (reason : string)
  | BadCoverage (e : Coverage.CoverageError).

Context `{Scope.PathMatcher}.

(** [check], from the decoded diff and the decoded coverage file, with the Go modules and the
    spellings of the root that the coverage reader looks up. *)
Definition check (diff : str) (planned : list str) (coverage : option str) (modules : list Coverage.GoModule)
    (bases : list str) : result Reply CheckError :=
  let? files := match parse_unified diff with
                | Ok files => Ok files
                | Err e => Err (BadDiff (Diff.line_number e) (Diff.reason e))
                end in
  let scope := Scope.classify_scope files planned in
  let stubs := detect_stubs_report analyze_outcome source_of files in
  let missed := foldl note_miss (unparsed stubs) (omap source_miss files) in
  let '(binary, binary_degraded) := scan_binary_paths diff files (Scope.in_scope scope) in
  let? measurements := match coverage with
                       | None => Ok []
                       | Some text => match Coverage.parse_with_root text modules bases with
                                      | Ok m => Ok m
                                      | Err e => Err (BadCoverage e)
                                      end
                       end in
  Ok {| r_files := length (changed_paths files); r_parsed_files := parsed_files stubs; r_scope := scope;
        r_findings := scan_secrets files ++ findings stubs ++ binary;
        r_coverage := Coverage.intersect_coverage files measurements;
        r_substance := Substance.measure files;
        r_degraded := map unparsed_entry missed ++ binary_degraded |}.

End Check.
End Tables.

End Rigor.
