(* ===== verification/Stdout.v ===== *)
(** * What a command may print: [json_stdout.rs] and the reply of [dcverify.rs]

    [holds_exactly_one_value] scans a stream for one JSON value and nothing else, and
    [dcverify] writes its reply by hand. The scan's cursor is the bytes still ahead, as in
    [Json]; an offset is the length of the stream less what is left. *)

From S2P Require Import Prelude RustStr RustStrFacts Json JsonFacts JsonScan JsonProps Diff Scope Coverage Substance Redact Rigor.

#[local] Open Scope Z_scope.

Module Stdout.

Abbreviation bytes := (list Z).

Inductive ContractError : Type :=
  | Empty
  | NotJson (offset : nat) (found : str)
  | Trailing (offset : nat) (trailing : str)
  | Malformed (offset : nat) (reason : string)
  | OutOfFuel.

(** ** Excerpts *)

Definition LIMIT : nat := 60.
Definition ellipsis : char := 8230.

Definition excerpt (stream : str) (offset : nat) : str :=
  let tail := default [] (get_from (Z.of_nat offset) stream) in
  let line := default [] (head (lines tail)) in
  take LIMIT line ++ (if (LIMIT <? length line)%nat then [ellipsis] else []).

(** ** The scan *)

Definition is_ws (c : Z) : bool := (c =? 32) || (c =? 9) || (c =? 10) || (c =? 13).

Fixpoint skip_ws (rest : bytes) : bytes :=
  match rest with
  | c :: r => if is_ws c then skip_ws r else rest
  | [] => []
  end.

Fixpoint digits (rest : bytes) : bytes :=
  match rest with
  | c :: r => if is_ascii_digit c then digits r else rest
  | [] => []
  end.

Definition MAX_DEPTH : nat := 128.

(** The loop of [scan_string]: [skip] bytes of an escape are stepped over. *)
Fixpoint string_from (skip : nat) (rest : bytes) : option bytes :=
  match rest with
  | [] => None
  | c :: r =>
      match skip with
      | S skip => string_from skip r
      | O =>
          if c =? 34 then Some r
          else if c =? 92 then
            match r with
            | [] => None
            | e :: _ => string_from (if e =? chr "u" then 5%nat else 1%nat) r
            end
          else string_from O r
      end
  end.

Section Scan.
Context (stream : str).

Definition offset_of (rest : bytes) : nat := length (utf8_encode stream) - length rest.

Definition malformed {A} (rest : bytes) (reason : string) : result A ContractError := Err (Malformed (offset_of rest) reason).
Definition not_json {A} (rest : bytes) : result A ContractError :=
  Err (NotJson (offset_of rest) (excerpt stream (offset_of rest))).

(** [rest] begins with the opening quote. *)
Definition scan_string (rest : bytes) : result bytes ContractError :=
  match string_from 0 (drop 1 rest) with
  | Some r => Ok r
  | None => malformed rest "unterminated string"
  end.

Definition scan_literal (rest : bytes) (word : string) : result bytes ContractError :=
  match strip_prefix (lit word) rest with
  | Some r => Ok r
  | None => not_json rest
  end.

Definition starts_digit (rest : bytes) : bool :=
  match rest with c :: _ => is_ascii_digit c | [] => false end.

(** Past a sign, a fraction and an exponent, where each is there. *)
Definition skip_minus (rest : bytes) : bytes :=
  match rest with c :: r => if c =? 45 then r else rest | [] => [] end.

Definition scan_fraction (at_ rest : bytes) : result bytes ContractError :=
  match rest with
  | c :: r =>
      if c =? 46 then
        if starts_digit r then Ok (digits r) else malformed at_ "expected digits after a decimal point"
      else Ok rest
  | [] => Ok rest
  end.

Definition skip_sign (rest : bytes) : bytes :=
  match rest with c :: r => if (c =? 43) || (c =? 45) then r else rest | [] => [] end.

Definition scan_exponent (at_ rest : bytes) : result bytes ContractError :=
  match rest with
  | c :: r =>
      if (c =? 101) || (c =? 69) then
        if starts_digit (skip_sign r) then Ok (digits (skip_sign r)) else malformed at_ "expected digits in an exponent"
      else Ok rest
  | [] => Ok rest
  end.

Definition scan_number (rest : bytes) : result bytes ContractError :=
  let int := skip_minus rest in
  if starts_digit int then
    let? r := scan_fraction rest (digits int) in
    scan_exponent rest r
  else not_json rest.

Definition starts_byte (byte : Z) (rest : bytes) : bool :=
  match rest with c :: _ => c =? byte | [] => false end.

(** [scan_value_at_depth], and the loops of [scan_object] and [scan_array]. *)
Fixpoint scan_value_at_depth (fuel depth : nat) (rest : bytes) : result bytes ContractError :=
  match fuel with
  | O => Err OutOfFuel
  | S f =>
      if (MAX_DEPTH <? depth)%nat then malformed rest "nesting deeper than 128 levels"
      else match rest with
      | [] => malformed rest "stream ended where a value was expected"
      | c :: r =>
          if c =? chr "{" then
            let r := skip_ws r in
            if starts_byte (chr "}") r then Ok (drop 1 r) else object_loop f depth r
          else if c =? chr "[" then
            let r := skip_ws r in
            if starts_byte (chr "]") r then Ok (drop 1 r) else array_loop f depth r
          else if c =? 34 then scan_string rest
          else if c =? chr "t" then scan_literal rest "true"
          else if c =? chr "f" then scan_literal rest "false"
          else if c =? chr "n" then scan_literal rest "null"
          else if (c =? 45) || is_ascii_digit c then scan_number rest
          else not_json rest
      end
  end
with object_loop (fuel depth : nat) (rest : bytes) : result bytes ContractError :=
  match fuel with
  | O => Err OutOfFuel
  | S f =>
      let rest := skip_ws rest in
      if negb (starts_byte 34 rest) then malformed rest "expected a quoted object key"
      else
        let? rest := scan_string rest in
        let rest := skip_ws rest in
        if negb (starts_byte (chr ":") rest) then malformed rest "expected ':' after an object key"
        else
          let? rest := scan_value_at_depth f (depth + 1) (skip_ws (drop 1 rest)) in
          let rest := skip_ws rest in
          if starts_byte (chr ",") rest then object_loop f depth (drop 1 rest)
          else if starts_byte (chr "}") rest then Ok (drop 1 rest)
          else malformed rest "expected ',' or '}' in an object"
  end
with array_loop (fuel depth : nat) (rest : bytes) : result bytes ContractError :=
  match fuel with
  | O => Err OutOfFuel
  | S f =>
      let? rest := scan_value_at_depth f (depth + 1) (skip_ws rest) in
      let rest := skip_ws rest in
      if starts_byte (chr ",") rest then array_loop f depth (drop 1 rest)
      else if starts_byte (chr "]") rest then Ok (drop 1 rest)
      else malformed rest "expected ',' or ']' in an array"
  end.

Definition scan_fuel (rest : bytes) : nat := 2 * length rest + 1.

Definition scan_value (rest : bytes) : result bytes ContractError := scan_value_at_depth (scan_fuel rest) 0 rest.

Definition holds_exactly_one_value : result unit ContractError :=
  let start := skip_ws (utf8_encode stream) in
  match start with
  | [] => Err Empty
  | _ =>
      let? rest := scan_value start in
      let after := skip_ws rest in
      match after with
      | [] => Ok tt
      | _ => Err (Trailing (offset_of after) (excerpt stream (offset_of after)))
      end
  end.

End Scan.

(** ** Streams of lines *)

Definition shift (err : ContractError) (by_ : nat) : ContractError :=
  match err with
  | NotJson o f => NotJson (o + by_) f
  | Trailing o t => Trailing (o + by_) t
  | Malformed o r => Malformed (o + by_) r
  | Empty => Empty
  | OutOfFuel => OutOfFuel
  end.

Fixpoint lines_from (saw_one : bool) (offset : nat) (l : list str) : result unit ContractError :=
  match l with
  | [] => if saw_one then Ok tt else Err Empty
  | line :: l =>
      let trimmed := trim line in
      let next := (offset + length (utf8_encode line))%nat in
      if bool_decide (trimmed = []) then lines_from saw_one next l
      else
        let lead := (length (utf8_encode line) - length (utf8_encode (trim_start_by is_whitespace line)))%nat in
        match holds_exactly_one_value trimmed with
        | Ok _ => lines_from true next l
        | Err err => Err (shift err (offset + lead))
        end
  end.

Definition holds_json_lines (stream : str) : result unit ContractError :=
  lines_from false 0 (Redact.split_inclusive stream).

End Stdout.

(** * The reply of [dcverify], written out *)

Module ReplyText.
Import Rigor StubAst.

Definition backslash : char := 92.
Definition dquote : char := 34.

Definition hex_lower (n : Z) : char := if n <? 10 then 48 + n else 87 + n.

(** [format!("\\u{:04x}", c)] below 32. *)
Definition unicode_escape (c : char) : str := backslash :: lit "u00" ++ [hex_lower (c / 16); hex_lower (c mod 16)].

Definition escape_char (c : char) : str :=
  if c =? dquote then [backslash; dquote]
  else if c =? backslash then [backslash; backslash]
  else if c =? 10 then backslash :: lit "n"
  else if c =? 13 then backslash :: lit "r"
  else if c =? 9 then backslash :: lit "t"
  else if c <? 32 then unicode_escape c
  else [c].

Definition quote (value : str) : str := dquote :: flat_map escape_char value ++ [dquote].

Definition field (name : string) (value : str) : str := quote (lit name) ++ lit ":" ++ value.
Definition object (fields : list str) : str := lit "{" ++ join (lit ",") fields ++ lit "}".
Definition array (items : list str) : str := lit "[" ++ join (lit ",") items ++ lit "]".
Definition number (n : nat) : str := fmt_u (Z.of_nat n).
Definition boolean (b : bool) : str := lit (if b then "true" else "false").

Definition string_array (values : list str) : str := array (map quote values).

Definition coverage_gap (g : Coverage.CoverageGap) : str :=
  object [field "path" (quote (Coverage.gap_path g)); field "added_lines" (number (Coverage.gap_added_lines g));
          field "uncovered_lines" (array (map fmt_u (Coverage.uncovered_lines g)))].

Definition coverage_gaps (r : Coverage.CoverageReport) : str := array (map coverage_gap (Coverage.gaps r)).

Definition severity_str (s : Severity) : str := lit match s with Blocking => "blocking" | Advisory => "advisory" end.

Definition finding_text (f : Finding) : str :=
  object [field "gate" (quote (gate f)); field "severity" (quote (severity_str (severity f)));
          field "strength" (quote (strength_str (strength f))); field "path" (quote (f_path f));
          field "line" (fmt_u (f_line f)); field "evidence" (quote (evidence f)); field "message" (quote (message f))].

Definition findings_array (l : list Finding) : str := array (map finding_text l).

Definition file_substance (f : Substance.FileSubstance) : str :=
  object [field "path" (quote (Substance.fs_path f)); field "added_lines" (number (Substance.fs_added_lines f));
          field "substantive_lines" (number (Substance.fs_substantive_lines f))].

Definition substance_object (r : Substance.SubstanceReport) : str :=
  object [field "added_lines" (number (Substance.added_lines r)); field "substantive_lines" (number (Substance.substantive_lines r));
          field "trivial" (number (Substance.trivial r)); field "moved" (number (Substance.moved r));
          field "repeated" (number (Substance.repeated r)); field "generated" (number (Substance.generated r));
          field "judged" (boolean (Substance.judged r)); field "low" (boolean (Substance.is_low r));
          field "files" (array (map file_substance (Substance.files r)))].

Definition reply_text (r : Reply) : str :=
  object [field "ok" (boolean true); field "files" (number (r_files r));
          field "stub_ast_parsed_files" (number (r_parsed_files r));
          field "in_scope" (string_array (Scope.in_scope (r_scope r)));
          field "orphans" (string_array (Scope.orphans (r_scope r)));
          field "untouched_planned" (string_array (Scope.untouched_planned (r_scope r)));
          field "findings" (findings_array (r_findings r));
          field "coverage_unmeasured" (string_array (Coverage.unmeasured (r_coverage r)));
          field "coverage_gaps" (coverage_gaps (r_coverage r));
          field "coverage_skipped_by_type" (string_array (Coverage.skipped_by_type (r_coverage r)));
          field "substance" (substance_object (r_substance r));
          field "stub_ast_degraded" (string_array (r_degraded r))].

End ReplyText.

(** * What the scan promises *)

Module StdoutFacts.
Import Stdout.

(** ** It ends before its fuel does *)

Lemma ahead_length s : (length (skip_ws s) ≤ length s)%nat.
Proof. induction s as [|c s IH]; cbn [skip_ws length]; [done|]. case_match; cbn [length]; lia. Qed.

Lemma skip_ws_all a b : skip_ws a = [] → skip_ws (a ++ b) = skip_ws b.
Proof. induction a as [|c a IH]; cbn [skip_ws app]; [done|]. by case_match. Qed.

Lemma digits_length s : (length (digits s) ≤ length s)%nat.
Proof. induction s as [|c s IH]; cbn [digits length]; [done|]. case_match; cbn [length]; lia. Qed.

Lemma string_from_length k s r : string_from k s = Some r → (length r < length s)%nat.
Proof.
  revert k. induction s as [|c s IH]; intros k; cbn [string_from length]; [done|].
  destruct k as [|k]; [|intros ?%IH; lia]. case_match; [by intros [= <-]; lia|].
  case_match; [destruct s as [|e s]; [done|]; intros ?%IH; cbn [length] in *; lia|intros ?%IH; lia].
Qed.

Section Scan.
Context (stream : str).

(** A scan that leaves less than it was given. *)
Definition shortens (s : bytes) (x : result bytes ContractError) : Prop :=
  x ≠ Err OutOfFuel ∧ ∀ r, x = Ok r → (length r < length s)%nat.

Lemma scan_string_shortens s : shortens s (scan_string stream s).
Proof.
  unfold scan_string. split; [by destruct (string_from 0 (drop 1 s))|]. intros r.
  destruct (string_from 0 (drop 1 s)) as [r'|] eqn:Hs; [|done]. intros [= ->].
  apply string_from_length in Hs. rewrite length_drop in Hs. lia.
Qed.

Lemma scan_literal_shortens s w : lit w ≠ [] → shortens s (scan_literal stream s w).
Proof.
  intros Hw. unfold scan_literal. split; [by destruct (strip_prefix (lit w) s)|]. intros r.
  destruct (strip_prefix (lit w) s) as [r'|] eqn:Hs; [|done]. intros [= ->].
  apply strip_prefix_Some in Hs as ->. rewrite length_app. destruct (lit w); [done|]. cbn. lia.
Qed.

Lemma scan_number_shortens s : shortens s (scan_number stream s).
Proof.
  unfold scan_number. destruct (starts_digit (skip_minus s)) eqn:Hd; [|done].
  assert (Hi : (length (digits (skip_minus s)) < length s)%nat).
  { destruct s as [|c s]; [done|]. cbn [skip_minus] in *. destruct (c =? 45).
    - pose proof (digits_length s). cbn. lia.
    - cbn [starts_digit] in Hd. cbn [digits length]. rewrite Hd. pose proof (digits_length s). lia. }
  set (i := digits (skip_minus s)) in *.
  assert (Hf : scan_fraction stream s i ≠ Err OutOfFuel ∧ ∀ r, scan_fraction stream s i = Ok r → (length r ≤ length i)%nat).
  { unfold scan_fraction. destruct i as [|c r]; [split; [done|by intros ? [= <-]]|].
    case_match; [case_match|]; (split; [done|]); try done; intros ? [= <-]; [|done]. pose proof (digits_length r). cbn. lia. }
  destruct Hf as [Hf Hl]. destruct (scan_fraction stream s i) as [f|e]; cbn; [|by split; [intros [= ->]|]].
  specialize (Hl f eq_refl). unfold scan_exponent. destruct f as [|c r]; [split; [done|intros ? [= <-]; cbn [length] in *; lia]|].
  case_match; [case_match|]; (split; [done|]); try done; intros ? [= <-]; [|cbn [length] in *; lia].
  pose proof (digits_length (skip_sign r)). assert (length (skip_sign r) ≤ length r)%nat; [|cbn [length] in *; lia].
  unfold skip_sign. destruct r; [done|]. case_match; cbn; lia.
Qed.

Lemma starts_byte_cons b s : starts_byte b s = true → ∃ r, s = b :: r.
Proof. destruct s as [|c r]; [done|]. cbn. intros ->%Z.eqb_eq. by exists r. Qed.

Lemma starts_byte_length b s : starts_byte b s = true → (length (drop 1 s) < length s)%nat.
Proof. intros (r & ->)%starts_byte_cons. rewrite length_drop. cbn [length]. lia. Qed.

(** Fuel of twice the text is enough for a value; the loops need one less. *)
Lemma scan_ends f :
  (∀ d s, (2 * length s + 1 ≤ f)%nat → shortens s (scan_value_at_depth stream f d s))
  ∧ (∀ d s, (2 * length s + 2 ≤ f)%nat → shortens s (object_loop stream f d s))
  ∧ (∀ d s, (2 * length s + 2 ≤ f)%nat → shortens s (array_loop stream f d s)).
Proof.
  induction f as [|f (IHv & IHo & IHa)]; [split_and!; intros; lia|]. split_and!; intros d s Hf.
  - cbn [scan_value_at_depth]. case_match; [by split|]. destruct s as [|c r]; [by split|].
    assert (Hopen : ∀ b x, (∀ r', (length r' ≤ length r)%nat → shortens r' (x r')) →
      shortens (c :: r) (if starts_byte b (skip_ws r) then Ok (drop 1 (skip_ws r)) else x (skip_ws r))).
    { intros b x Hx. pose proof (ahead_length r). destruct (starts_byte b (skip_ws r)) eqn:Hb.
      - split; [done|]. intros ? [= <-]. apply starts_byte_length in Hb. cbn. lia.
      - destruct (Hx (skip_ws r)) as [? Hl]; [lia|]. split; [done|]. intros r' ?%Hl. cbn. lia. }
    cbn [length] in Hf. case_match; [apply Hopen; intros; apply IHo; lia|].
    case_match; [apply Hopen; intros; apply IHa; lia|]. case_match; [apply scan_string_shortens|].
    do 3 (case_match; [by apply scan_literal_shortens|]). case_match; [apply scan_number_shortens|by split].
  - cbn [object_loop]. pose proof (ahead_length s) as Hw. case_match; [by split|].
    destruct (scan_string_shortens (skip_ws s)) as [Hs Hsl]. destruct (scan_string stream (skip_ws s)) as [r1|e]; cbn; [|by split; [intros [= ->]|]].
    specialize (Hsl r1 eq_refl). pose proof (ahead_length r1). destruct (starts_byte (chr ":") (skip_ws r1)) eqn:Hc; cbn [negb]; [|by split].
    apply starts_byte_length in Hc. pose proof (ahead_length (drop 1 (skip_ws r1))).
    destruct (IHv (d + 1)%nat (skip_ws (drop 1 (skip_ws r1)))) as [Hv Hvl]; [lia|].
    destruct (scan_value_at_depth _ _ _ _) as [r2|e]; cbn; [|by split; [intros [= ->]|]].
    specialize (Hvl r2 eq_refl). pose proof (ahead_length r2). destruct (starts_byte (chr ",") (skip_ws r2)) eqn:Hm.
    { apply starts_byte_length in Hm. destruct (IHo d (drop 1 (skip_ws r2))) as [? Hl]; [lia|]. split; [done|]. intros r ?%Hl. lia. }
    destruct (starts_byte (chr "}") (skip_ws r2)) eqn:He; [|by split]. apply starts_byte_length in He. split; [done|]. intros ? [= <-]. lia.
  - cbn [array_loop]. pose proof (ahead_length s) as Hw.
    destruct (IHv (d + 1)%nat (skip_ws s)) as [Hv Hvl]; [lia|].
    destruct (scan_value_at_depth _ _ _ _) as [r2|e]; cbn; [|by split; [intros [= ->]|]].
    specialize (Hvl r2 eq_refl). pose proof (ahead_length r2). destruct (starts_byte (chr ",") (skip_ws r2)) eqn:Hm.
    { apply starts_byte_length in Hm. destruct (IHa d (drop 1 (skip_ws r2))) as [? Hl]; [lia|]. split; [done|]. intros r ?%Hl. lia. }
    destruct (starts_byte (chr "]") (skip_ws r2)) eqn:He; [|by split]. apply starts_byte_length in He. split; [done|]. intros ? [= <-]. lia.
Qed.

Lemma scan_value_ends s : shortens s (scan_value stream s).
Proof. by apply (proj1 (scan_ends _)). Qed.

(** More fuel than was enough changes nothing. *)
Lemma scan_more f :
  (∀ f' d s r, (f ≤ f')%nat → scan_value_at_depth stream f d s = Ok r → scan_value_at_depth stream f' d s = Ok r)
  ∧ (∀ f' d s r, (f ≤ f')%nat → object_loop stream f d s = Ok r → object_loop stream f' d s = Ok r)
  ∧ (∀ f' d s r, (f ≤ f')%nat → array_loop stream f d s = Ok r → array_loop stream f' d s = Ok r).
Proof.
  induction f as [|f (IHv & IHo & IHa)]; [done|]. split_and!; intros f' d s r Hf; (destruct f' as [|f']; [lia|]).
  - cbn [scan_value_at_depth]. case_match; [done|]. destruct s as [|c s]; [done|].
    destruct (c =? chr "{"); [case_match; [done|]; apply IHo; lia|]. destruct (c =? chr "["); [case_match; [done|]; apply IHa; lia|done].
  - cbn [object_loop]. case_match; [done|]. destruct (scan_string stream (skip_ws s)) as [r1|e]; [|done].
    case_match; [done|]. destruct (scan_value_at_depth stream f (d + 1) _) as [r2|e] eqn:Hv; [|done].
    rewrite (IHv f' _ _ _ ltac:(lia) Hv). case_match; [apply IHo; lia|done].
  - cbn [array_loop]. destruct (scan_value_at_depth stream f (d + 1) _) as [r2|e] eqn:Hv; [|done].
    rewrite (IHv f' _ _ _ ltac:(lia) Hv). case_match; [apply IHa; lia|done].
Qed.

Lemma scan_value_more f s r : (f ≤ scan_fuel s)%nat → scan_value_at_depth stream f 0 s = Ok r → scan_value stream s = Ok r.
Proof. apply (proj1 (scan_more f)). Qed.

(** ** It accepts what the store's scanner accepts *)

Lemma same_skip_ws s : Json.skip_ws s = skip_ws s.
Proof. reflexivity. Qed.

Lemma same_digits s : Json.digits s = digits s.
Proof. reflexivity. Qed.

Lemma string_body_accepted total s r : Json.string_body total s = Ok r → string_from 0 s = Some r.
Proof.
  remember (length s) as n eqn:Hn. revert s Hn. induction n as [n IH] using lt_wf_ind. intros s ->.
  destruct s as [|c s]; [done|]. cbn [Json.string_body string_from]. destruct (c =? 34); [by intros [= ->]|].
  destruct (c =? 92); [|destruct (c <? 32); [done|]; apply (IH (length s)); [cbn; lia|done]].
  destruct s as [|e s1]; [done|]. destruct (existsb (Z.eqb e) Json.simple_escapes) eqn:He.
  - intros Hs. replace (e =? chr "u") with false.
    2:{ symmetry. apply Z.eqb_neq. intros ->. by vm_compute in He. }
    cbn [string_from]. apply (IH (length s1)); [cbn; lia|done|done].
  - destruct (e =? 117) eqn:Hu; [|done]. apply Z.eqb_eq in Hu as ->. change (117 =? chr "u") with true. cbn [string_from].
    destruct s1 as [|h1 [|h2 [|h3 [|h4 s2]]]]; try done. repeat (case_match; [done|]).
    intros Hs. cbn [string_from]. apply (IH (length s2)); [cbn; lia|done|done].
Qed.

Lemma scan_string_accepted total s r : Json.scan_string total s = Ok r → scan_string stream s = Ok r.
Proof.
  unfold Json.scan_string, Json.expect, scan_string. destruct s as [|c s]; [done|]. destruct (c =? 34); [|done].
  cbn. rewrite drop_0. by intros ->%string_body_accepted.
Qed.

Lemma literal_accepted total w s r : Json.literal total w s = Ok r → scan_literal stream s w = Ok r.
Proof. unfold Json.literal, scan_literal. destruct (strip_prefix (lit w) s); [by intros [= ->]|done]. Qed.

Lemma fraction_accepted total a s r : Json.number_fraction total s = Ok r → scan_fraction stream a s = Ok r.
Proof.
  unfold Json.number_fraction, scan_fraction. destruct s as [|c s]; [by intros [= ->]|]. destruct (c =? 46); [|by intros [= ->]].
  change (Json.starts_digit s) with (starts_digit s). destruct (starts_digit s); [by intros [= <-]|done].
Qed.

Lemma exponent_accepted total a s r : Json.number_exponent total s = Ok r → scan_exponent stream a s = Ok r.
Proof.
  unfold Json.number_exponent, scan_exponent. destruct s as [|c s]; [by intros [= ->]|]. destruct ((c =? 101) || (c =? 69)); [|by intros [= ->]].
  destruct s as [|x s]; [done|]. cbn [skip_sign]. set (v := if (x =? 43) || (x =? 45) then s else x :: s).
  change (Json.starts_digit v) with (starts_digit v). destruct (starts_digit v); [by intros [= <-]|done].
Qed.

(** A number is read further only where a digit follows a leading zero. *)
Lemma number_accepted total s r : Json.number total s = Ok r → starts_digit r = false → scan_number stream s = Ok r.
Proof.
  unfold Json.number, scan_number. cbv zeta.
  replace (match s with [] => s | c :: r0 => if c =? 45 then r0 else s end) with (skip_minus s) by (by destruct s).
  set (i := skip_minus s). unfold Json.number_int. destruct i as [|c i']; [done|].
  assert (Hrest : ∀ x, (let? y := Json.number_fraction total x in Json.number_exponent total y) = Ok r →
    (let? y := scan_fraction stream s x in scan_exponent stream s y) = Ok r).
  { intros x. destruct (Json.number_fraction total x) as [y|e] eqn:Hf; [|done]. cbn.
    rewrite (fraction_accepted _ s _ _ Hf). apply exponent_accepted. }
  destruct (Z.eqb_spec c 48) as [->|Hc].
  - cbn [starts_digit digits]. change (is_ascii_digit 48) with true. cbv iota.
    intros Hn Hr. assert (starts_digit i' = false) as Hi.
    { destruct i' as [|d i']; [done|]. cbn [starts_digit]. destruct (is_ascii_digit d) eqn:Hd; [|done].
      revert Hn. unfold Json.number_fraction, Json.number_exponent. unfold is_ascii_digit, in_range in Hd.
      apply andb_true_iff in Hd as [Hd1%Z.leb_le Hd2%Z.leb_le].
      rewrite (proj2 (Z.eqb_neq d 46)) by lia. cbn. rewrite (proj2 (Z.eqb_neq d 101)), (proj2 (Z.eqb_neq d 69)) by lia. cbn.
      intros [= <-]. revert Hr. cbn. unfold is_ascii_digit, in_range. rewrite andb_false_iff, !Z.leb_gt. lia. }
    replace (digits i') with i' by (destruct i' as [|d i']; [done|]; cbn in *; by rewrite Hi). by apply Hrest.
  - destruct (is_ascii_digit c) eqn:Hd; [|done]. cbn [starts_digit]. rewrite Hd. intros Hn _. by apply Hrest.
Qed.

Lemma skip_ws_not_digit s c r : skip_ws s = c :: r → is_ascii_digit c = false → starts_digit s = false.
Proof.
  destruct s as [|x s]; [done|]. cbn [skip_ws starts_digit]. destruct (is_ascii_digit x) eqn:Hx; [|done].
  replace (is_ws x) with false; [by intros [= -> _]; congruence|].
  symmetry. revert Hx. unfold is_ascii_digit, in_range, is_ws.
  rewrite andb_true_iff, !orb_false_iff, !Z.leb_le, !Z.eqb_neq. lia.
Qed.

Lemma scan_accepted total f :
  (∀ d s r, Json.value total false f d s = Ok r → starts_digit r = false → scan_value_at_depth stream f d (skip_ws s) = Ok r)
  ∧ (∀ d s r, Json.object_loop total false f d s = Ok r → object_loop stream f d s = Ok r)
  ∧ (∀ d s r, Json.array_loop total false f d s = Ok r → array_loop stream f d s = Ok r).
Proof.
  induction f as [|f (IHv & IHo & IHa)]; [done|].
  split_and!; intros d s r.
  - rewrite JsonScan.value_S. cbn [scan_value_at_depth]. destruct (Json.MAX_DEPTH <? d)%nat eqn:Hd; [done|].
    apply Nat.ltb_ge in Hd. replace (MAX_DEPTH <? d)%nat with false by (symmetry; apply Nat.ltb_ge; unfold MAX_DEPTH, Json.MAX_DEPTH in *; lia).
    cbv zeta. change (Json.skip_ws s) with (skip_ws s). destruct (skip_ws s) as [|c t]; [done|].
    destruct (Z.eqb_spec c (chr "[")) as [->|Ha].
    { change (chr "[" =? chr "{") with false. cbv iota. change (Json.skip_ws t) with (skip_ws t).
      change (Json.starts_byte (chr "]") (skip_ws t)) with (starts_byte (chr "]") (skip_ws t)).
      destruct (starts_byte (chr "]") (skip_ws t)); [by intros [= ->]|]. intros Hr _. by apply IHa. }
    destruct (Z.eqb_spec c (chr "{")) as [->|Ho].
    { change (Json.skip_ws t) with (skip_ws t).
      change (Json.starts_byte (chr "}") (skip_ws t)) with (starts_byte (chr "}") (skip_ws t)).
      destruct (starts_byte (chr "}") (skip_ws t)); [by intros [= ->]|]. intros Hr _. by apply IHo. }
    destruct (c =? 34); [intros Hr _; by eapply scan_string_accepted|].
    do 3 (case_match; [intros Hr _; by eapply literal_accepted|]).
    destruct ((c =? 45) || is_ascii_digit c); [by apply number_accepted|done].
  - rewrite JsonScan.object_loop_S. cbn [object_loop]. cbv zeta. change (Json.skip_ws s) with (skip_ws s).
    destruct (Json.scan_string total (skip_ws s)) as [r1|e] eqn:Hs; [|done].
    assert (starts_byte 34 (skip_ws s) = true) as ->.
    { unfold Json.scan_string, Json.expect in Hs. destruct (skip_ws s) as [|c t]; [done|]. cbn. by destruct (c =? 34). }
    cbn [negb]. rewrite (scan_string_accepted _ _ _ Hs). change (Json.skip_ws r1) with (skip_ws r1).
    unfold Json.expect. destruct (skip_ws r1) as [|c1 t1]; [done|]. cbn [starts_byte]. destruct (c1 =? chr ":"); [|done].
    cbn [negb drop andb]. rewrite drop_0. destruct (Json.value total false f (d + 1) t1) as [r2|e] eqn:Hv; [|done].
    change (Json.skip_ws r2) with (skip_ws r2). destruct (skip_ws r2) as [|c2 t2] eqn:Hw; [done|]. cbn [starts_byte].
    destruct (Z.eqb_spec c2 (chr ",")) as [->|Hc]; [|destruct (Z.eqb_spec c2 (chr "}")) as [->|]; [|done]].
    all: rewrite (IHv _ _ _ Hv) by (by eapply skip_ws_not_digit); rewrite Hw; cbn; rewrite drop_0.
    + apply IHo.
    + by intros [= ->].
  - rewrite JsonScan.array_loop_S. cbn [array_loop andb]. cbv zeta.
    destruct (Json.value total false f (d + 1) s) as [r2|e] eqn:Hv; [|done].
    change (Json.skip_ws r2) with (skip_ws r2). destruct (skip_ws r2) as [|c2 t2] eqn:Hw; [done|].
    destruct (Z.eqb_spec c2 (chr ",")) as [->|Hc]; [|destruct (Z.eqb_spec c2 (chr "]")) as [->|]; [|done]].
    all: rewrite (IHv _ _ _ Hv) by (by eapply skip_ws_not_digit); rewrite Hw; cbn; rewrite drop_0.
    + apply IHa.
    + by intros [= ->].
Qed.

End Scan.

(** ** Text after a value does not change how it is read *)

Section Extends.
Context (stream stream' : str) (t : bytes).

Lemma skip_ws_extends s c r : skip_ws s = c :: r → skip_ws (s ++ t) = (c :: r) ++ t.
Proof. induction s as [|x s IH]; [done|]. cbn [app skip_ws]. case_match; [done|by intros [= -> ->]]. Qed.

Lemma starts_byte_extends b s : starts_byte b s = true → starts_byte b (s ++ t) = true.
Proof. by destruct s. Qed.

Lemma string_from_extends k s r : string_from k s = Some r → string_from k (s ++ t) = Some (r ++ t).
Proof.
  revert k. induction s as [|c s IH]; intros k; cbn [string_from app]; [done|]. destruct k as [|k]; [|apply IH].
  destruct (c =? 34); [by intros [= ->]|]. destruct (c =? 92); [|apply IH]. destruct s as [|e s]; [done|]. apply IH.
Qed.

Lemma scan_string_extends s r : scan_string stream s = Ok r → scan_string stream' (s ++ t) = Ok (r ++ t).
Proof.
  unfold scan_string. destruct s as [|c s]; [done|]. cbn [drop app]. rewrite !drop_0.
  destruct (string_from 0 s) as [r'|] eqn:Hs; [|done]. intros [= ->]. by rewrite (string_from_extends _ _ _ Hs).
Qed.

Lemma scan_literal_extends s w r : scan_literal stream s w = Ok r → scan_literal stream' (s ++ t) w = Ok (r ++ t).
Proof.
  unfold scan_literal. destruct (strip_prefix (lit w) s) as [r'|] eqn:Hs; [|done]. intros [= ->].
  apply strip_prefix_Some in Hs as ->. by rewrite <- app_assoc, strip_prefix_app.
Qed.

Lemma digits_extends s : digits s ≠ [] → digits (s ++ t) = digits s ++ t.
Proof. induction s as [|c s IH]; [done|]. cbn [digits app]. case_match; [apply IH|done]. Qed.

Lemma starts_digit_extends s : starts_digit s = true → starts_digit (s ++ t) = true.
Proof. by destruct s. Qed.

Lemma scan_fraction_extends a a' s r :
  scan_fraction stream a s = Ok r → r ≠ [] → scan_fraction stream' a' (s ++ t) = Ok (r ++ t).
Proof.
  unfold scan_fraction. destruct s as [|c s]; [by intros [= <-]|]. cbn [app]. destruct (c =? 46); [|by intros [= <-]].
  destruct (starts_digit s) eqn:Hd; [|done]. intros [= <-] Hr. by rewrite starts_digit_extends, digits_extends.
Qed.

Lemma scan_exponent_extends a a' s r :
  scan_exponent stream a s = Ok r → r ≠ [] → scan_exponent stream' a' (s ++ t) = Ok (r ++ t).
Proof.
  unfold scan_exponent. destruct s as [|c s]; [by intros [= <-]|]. cbn [app]. destruct ((c =? 101) || (c =? 69)); [|by intros [= <-]].
  destruct (starts_digit (skip_sign s)) eqn:Hd; [|done]. intros [= <-] Hr.
  assert (skip_sign (s ++ t) = skip_sign s ++ t) as ->.
  { destruct s as [|x s]; [discriminate Hd|]. cbn [skip_sign app]. by destruct ((x =? 43) || (x =? 45)). }
  by rewrite starts_digit_extends, digits_extends.
Qed.

Lemma scan_number_extends s r : scan_number stream s = Ok r → r ≠ [] → scan_number stream' (s ++ t) = Ok (r ++ t).
Proof.
  unfold scan_number. destruct (starts_digit (skip_minus s)) eqn:Hd; [|done]. intros Hr Hne.
  assert (skip_minus (s ++ t) = skip_minus s ++ t) as ->.
  { destruct s as [|x s]; [discriminate Hd|]. cbn [skip_minus app]. by destruct (x =? 45). }
  rewrite starts_digit_extends by done. destruct (scan_fraction stream s (digits (skip_minus s))) as [y|e] eqn:Hf; [|done].
  assert (Hy : y ≠ []) by (intros ->; cbn in Hr; by simplify_eq).
  assert (digits (skip_minus s) ≠ []) by (intros Hn; rewrite Hn in Hf; cbn in Hf; by simplify_eq).
  rewrite digits_extends, (scan_fraction_extends _ (s ++ t) _ _ Hf) by done. by eapply scan_exponent_extends.
Qed.

(** The value is closed by its last byte, unless it is a number at the end. *)
Definition closed (s r : bytes) : Prop := r ≠ [] ∨ starts_byte (chr "{") s = true ∨ starts_byte (chr "[") s = true.

Lemma scan_value_nil f d r : scan_value_at_depth stream f d [] = Ok r → False.
Proof. destruct f as [|f]; [done|]. cbn [scan_value_at_depth]. by case_match. Qed.

Lemma scan_extends f :
  (∀ d s r, scan_value_at_depth stream f d s = Ok r → closed s r → scan_value_at_depth stream' f d (s ++ t) = Ok (r ++ t))
  ∧ (∀ d s r, object_loop stream f d s = Ok r → object_loop stream' f d (s ++ t) = Ok (r ++ t))
  ∧ (∀ d s r, array_loop stream f d s = Ok r → array_loop stream' f d (s ++ t) = Ok (r ++ t)).
Proof.
  induction f as [|f (IHv & IHo & IHa)]; [done|].
  (* what follows an element: a comma or the closing byte *)
  assert (Hnext : ∀ (loop loop' : bytes → result bytes ContractError) s r b e,
    (∀ x r, loop x = Ok r → loop' (x ++ t) = Ok (r ++ t)) →
    (if starts_byte (chr ",") (skip_ws s) then loop (drop 1 (skip_ws s))
     else if starts_byte b (skip_ws s) then Ok (drop 1 (skip_ws s)) else e) = Ok r → e ≠ Ok r →
    s ≠ [] ∧ ∀ e', (if starts_byte (chr ",") (skip_ws (s ++ t)) then loop' (drop 1 (skip_ws (s ++ t)))
     else if starts_byte b (skip_ws (s ++ t)) then Ok (drop 1 (skip_ws (s ++ t))) else e') = Ok (r ++ t)).
  { intros loop loop' s r b e Hloop Hr He. destruct (skip_ws s) as [|c x] eqn:Hw; [done|].
    split; [by intros ->|]. intros e'. rewrite (skip_ws_extends _ _ _ Hw). cbn [starts_byte app drop] in *. rewrite drop_0 in Hr.
    rewrite drop_0. destruct (c =? chr ","); [by apply Hloop|]. destruct (c =? b); [by simplify_eq|done]. }
  split_and!; intros d s r.
  - cbn [scan_value_at_depth]. case_match; [done|]. destruct s as [|c s]; [done|]. cbn [app].
    assert (Hopen : ∀ (loop loop' : bytes → result bytes ContractError) b,
      (∀ x r, loop x = Ok r → loop' (x ++ t) = Ok (r ++ t)) → (∀ r, loop [] ≠ Ok r) →
      (if starts_byte b (skip_ws s) then Ok (drop 1 (skip_ws s)) else loop (skip_ws s)) = Ok r →
      (if starts_byte b (skip_ws (s ++ t)) then Ok (drop 1 (skip_ws (s ++ t))) else loop' (skip_ws (s ++ t))) = Ok (r ++ t)).
    { intros loop loop' b Hloop Hnil Hr. destruct (skip_ws s) as [|x y] eqn:Hw; [by apply Hnil in Hr|].
      rewrite (skip_ws_extends _ _ _ Hw). cbn [app drop starts_byte] in *. rewrite drop_0 in *.
      destruct (x =? b); [by simplify_eq|]. change (x :: y ++ t) with ((x :: y) ++ t). by apply Hloop. }
    destruct (c =? chr "{") eqn:Ho; [intros Hr _; apply (Hopen (object_loop stream f d)); [apply IHo| |done]; by destruct f|].
    destruct (c =? chr "[") eqn:Ha; [intros Hr _; apply (Hopen (array_loop stream f d)); [apply IHa| |done]|].
    { intros r'. destruct f as [|f]; [done|]. cbn [array_loop skip_ws]. destruct (scan_value_at_depth stream f (d + 1) []) eqn:Hv; [by apply scan_value_nil in Hv|done]. }
    intros Hr Hcl. assert (Hne : r ≠ []).
    { destruct Hcl as [?|[Hx|Hx]]; [done| |]; cbn in Hx; congruence. }
    change (c :: s ++ t) with ((c :: s) ++ t). revert Hr. destruct (c =? 34); [apply scan_string_extends|].
    destruct (c =? chr "t"); [apply scan_literal_extends|]. destruct (c =? chr "f"); [apply scan_literal_extends|].
    destruct (c =? chr "n"); [apply scan_literal_extends|].
    destruct ((c =? 45) || is_ascii_digit c); [intros Hr; by apply scan_number_extends|done].
  - cbn [object_loop]. destruct (skip_ws s) as [|c x] eqn:Hw; [done|]. rewrite (skip_ws_extends _ _ _ Hw).
    destruct (starts_byte 34 (c :: x)) eqn:Hq; [|done]. rewrite (starts_byte_extends _ _ Hq). cbn [negb].
    destruct (scan_string stream (c :: x)) as [r1|e] eqn:Hs; [|done]. rewrite (scan_string_extends _ _ Hs).
    destruct (skip_ws r1) as [|c1 x1] eqn:Hw1; [done|]. rewrite (skip_ws_extends _ _ _ Hw1).
    destruct (starts_byte (chr ":") (c1 :: x1)) eqn:Hc; [|done]. rewrite (starts_byte_extends _ _ Hc). cbn [negb].
    cbn [app drop]. rewrite !drop_0.
    destruct (scan_value_at_depth stream f (d + 1) (skip_ws x1)) as [r2|e] eqn:Hv; [|done]. intros Hr.
    destruct (Hnext _ (object_loop stream' f d) _ _ _ _ (IHo d) Hr) as [Hne Hgo]; [done|].
    destruct (skip_ws x1) as [|c2 x2] eqn:Hw2; [by apply scan_value_nil in Hv|].
    rewrite (skip_ws_extends _ _ _ Hw2), (IHv _ _ _ Hv) by by left. apply Hgo.
  - cbn [array_loop]. destruct (scan_value_at_depth stream f (d + 1) (skip_ws s)) as [r2|e] eqn:Hv; [|done]. intros Hr.
    destruct (Hnext _ (array_loop stream' f d) _ _ _ _ (IHa d) Hr) as [Hne Hgo]; [done|].
    destruct (skip_ws s) as [|c2 x2] eqn:Hw2; [by apply scan_value_nil in Hv|].
    rewrite (skip_ws_extends _ _ _ Hw2), (IHv _ _ _ Hv) by by left. apply Hgo.
Qed.

End Extends.

End StdoutFacts.

(** * The reply as JSON *)

Module ReplyFacts.
Import Rigor StubAst Json JsonGrammar ReplyText.

(** ** Strings *)

(** A text of Unicode scalars, as every [String] is. *)
Definition scalar (s : str) : Prop := all_chars is_scalar s = true.

Lemma scalar_app a b : scalar (a ++ b) ↔ scalar a ∧ scalar b.
Proof. unfold scalar. by rewrite all_chars_app, andb_true_iff. Qed.

Lemma lit_scalar s : scalar (lit s).
Proof.
  unfold scalar. apply forallb_true. induction s as [|a s IH]; intros c; cbn [lit]; [by intros ?%not_elem_of_nil|].
  intros [->|Hc]%elem_of_cons; [|by apply IH]. unfold is_scalar, in_range.
  pose proof (Ascii.N_ascii_bounded a). apply orb_true_iff. left. apply andb_true_iff. rewrite !Z.leb_le. lia.
Qed.

Lemma jchars_app a b : jchars a → jchars b → jchars (a ++ b).
Proof.
  intros Ha Hb. induction Ha; cbn [app]; [done|by apply jc_plain|by apply jc_simple|by apply jc_hex].
Qed.

Lemma jchars_high s : (∀ b, b ∈ s → 128 ≤ b) → jchars s.
Proof.
  induction s as [|b s IH]; intros Hs; [constructor|]. assert (128 ≤ b) by (apply Hs; by left).
  constructor; [lia|lia|lia|]. apply IH. intros x Hx. apply Hs. by right.
Qed.

Lemma encode_high c b : 128 ≤ c → b ∈ utf8_encode_char c → 128 ≤ b.
Proof.
  intros Hc. unfold utf8_encode_char. rewrite (proj2 (Z.ltb_ge c 128)) by lia.
  assert (H64 : ∀ x, 0 ≤ x mod 64) by (intros; apply Z.mod_pos_bound; lia).
  pose proof (H64 c). pose proof (H64 (c / 64)). pose proof (H64 (c / 4096)).
  pose proof (Z.div_pos c 64). pose proof (Z.div_pos c 4096). pose proof (Z.div_pos c 262144).
  repeat case_match; rewrite !elem_of_cons, elem_of_nil; intuition lia.
Qed.

(** The escapes of the control characters, one by one. *)
Lemma control_escapes c : 0 ≤ c < 32 →
  all_chars is_ascii_hexdigit [48; 48; hex_lower (c / 16); hex_lower (c mod 16)] = true
  ∧ char_of (default 65533 (from_hex [48; 48; hex_lower (c / 16); hex_lower (c mod 16)])) = c.
Proof.
  intros Hc. assert (Hin : c ∈ seqZ 0 32) by (apply elem_of_seqZ; lia).
  assert (Hall : forallb (λ c, all_chars is_ascii_hexdigit [48; 48; hex_lower (c / 16); hex_lower (c mod 16)]
    && (char_of (default 65533 (from_hex [48; 48; hex_lower (c / 16); hex_lower (c mod 16)])) =? c)) (seqZ 0 32) = true)
    by (vm_compute; reflexivity).
  rewrite forallb_true in Hall. specialize (Hall c Hin). apply andb_true_iff in Hall as [H1 H2%Z.eqb_eq]. done.
Qed.

(** What one character is written as: an escape that reads back as it, or itself. *)
Lemma escape_char_cases c :
  is_scalar c = true →
  (∃ e, escape_char c = [92; e] ∧ e ∈ simple_escapes ∧ ∀ f rest, unescape_fuel (S f) (92 :: e :: rest) = c :: unescape_fuel f rest)
  ∨ (∃ h h', escape_char c = [92; 117; 48; 48; h; h'] ∧ all_chars is_ascii_hexdigit [48; 48; h; h'] = true
     ∧ ∀ f rest, unescape_fuel (S f) (92 :: 117 :: 48 :: 48 :: h :: h' :: rest) = c :: unescape_fuel f rest)
  ∨ escape_char c = [c] ∧ c ≠ 34 ∧ c ≠ 92 ∧ 32 ≤ c.
Proof.
  intros Hc. assert (0 ≤ c).
  { revert Hc. unfold is_scalar, in_range. rewrite orb_true_iff, !andb_true_iff, !Z.leb_le. lia. }
  unfold escape_char, dquote, backslash.
  destruct (Z.eqb_spec c 34) as [->|]; [left; exists 34; split; [done|]; split; [by left|done]|].
  destruct (Z.eqb_spec c 92) as [->|]; [left; exists 92; split; [done|]; split; [right; by left|done]|].
  destruct (Z.eqb_spec c 10) as [->|]; [left; exists 110; split; [done|]; split; [do 5 right; by left|done]|].
  destruct (Z.eqb_spec c 13) as [->|]; [left; exists 114; split; [done|]; split; [do 6 right; by left|done]|].
  destruct (Z.eqb_spec c 9) as [->|]; [left; exists 116; split; [done|]; split; [do 7 right; by left|done]|].
  destruct (Z.ltb_spec c 32); [|right; right; done].
  right. left. exists (hex_lower (c / 16)), (hex_lower (c mod 16)). split; [done|].
  destruct (control_escapes c ltac:(lia)) as [Hh Hv]. split; [exact Hh|]. intros f rest.
  change (char_of (default 65533 (from_hex [48; 48; hex_lower (c / 16); hex_lower (c mod 16)])) :: unescape_fuel f rest = c :: unescape_fuel f rest).
  by rewrite Hv.
Qed.

Definition escaped (s : str) : str := flat_map escape_char s.

Lemma escaped_jchars s : scalar s → jchars (utf8_encode (escaped s)) ∧ scalar (escaped s).
Proof.
  unfold scalar. induction s as [|c s IH]; cbn [forallb escaped flat_map]; [split; [constructor|done]|].
  intros [Hc [Hj Hs]%IH]%andb_true_iff. rewrite utf8_encode_app, all_chars_app. fold (escaped s).
  destruct (escape_char_cases c Hc) as [(e & -> & He & _)|[(h & h' & -> & Hh & _)|(-> & H34 & H92 & H32)]].
  - split; [|rewrite Hs, andb_true_r]; [|revert He; unfold simple_escapes; rewrite !elem_of_cons, elem_of_nil; intuition (subst; reflexivity)].
    apply jchars_app; [|done]. rewrite utf8_encode_ascii; [by apply jc_simple; [|constructor]|].
    revert He. unfold simple_escapes. rewrite !elem_of_cons, elem_of_nil. intuition (subst; reflexivity).
  - assert (Hd : ∀ x, is_ascii_hexdigit x = true → 0 ≤ x < 128).
    { intros x. unfold is_ascii_hexdigit, is_ascii_digit, in_range. rewrite !orb_true_iff, !andb_true_iff, !Z.leb_le. lia. }
    assert (0 ≤ h < 128 ∧ 0 ≤ h' < 128) as [Hh1 Hh2].
    { cbn [forallb] in Hh. rewrite !andb_true_iff in Hh. destruct Hh as (_ & _ & ? & ? & _). split; by apply Hd. }
    assert (Hsc : ∀ x, 0 ≤ x < 128 → is_scalar x = true).
    { intros x ?. unfold is_scalar, in_range. apply orb_true_iff. left. apply andb_true_iff. rewrite !Z.leb_le. lia. }
    split; [|rewrite Hs; cbn [forallb]; rewrite (Hsc h), (Hsc h') by done; done].
    apply jchars_app; [|done]. rewrite utf8_encode_ascii; [by apply jc_hex; [|constructor]|].
    cbn [forallb]. rewrite (proj2 (Z.ltb_lt h 128)), (proj2 (Z.ltb_lt h' 128)) by lia. done.
  - split; [|rewrite Hs; cbn [forallb]; by rewrite Hc]. apply jchars_app; [|done]. unfold utf8_encode. cbn [flat_map]. rewrite app_nil_r.
    destruct (Z.ltb_spec c 128) as [Hlt|Hge].
    + unfold utf8_encode_char. rewrite (proj2 (Z.ltb_lt c 128)) by done. constructor; [done|done|done|constructor].
    + apply jchars_high. intros b. by apply encode_high.
Qed.

Lemma escaped_reads_back s f : scalar s → (length (escaped s) ≤ f)%nat → unescape_fuel f (escaped s) = s.
Proof.
  unfold scalar. revert f. induction s as [|c s IH]; intros f; cbn [forallb escaped flat_map]; [by destruct f|].
  intros [Hc Hs]%andb_true_iff. rewrite length_app. fold (escaped s).
  destruct (escape_char_cases c Hc) as [(e & -> & _ & Hr)|[(h & h' & -> & _ & Hr)|(-> & _ & H92 & _)]];
    cbn [length app]; intros Hf; destruct f as [|f]; try lia.
  - rewrite Hr. by rewrite IH by (done || lia).
  - rewrite Hr. by rewrite IH by (done || lia).
  - cbn [unescape_fuel]. rewrite (proj2 (Z.eqb_neq c 92)) by done. cbn [negb]. by rewrite IH by (done || lia).
Qed.

(** A quoted text is a string of JSON, and reads back as the text. *)
Lemma quote_reads_back s :
  scalar s → ∃ body, utf8_encode (quote s) = quoted body ∧ jchars body ∧ unescape (utf8_lossy body) = s.
Proof.
  intros Hs. exists (utf8_encode (escaped s)). destruct (escaped_jchars s Hs) as [Hj Hsc]. split; [|split; [done|]].
  - unfold quote, quoted. change (dquote :: flat_map escape_char s ++ [dquote]) with ([dquote] ++ escaped s ++ [dquote]).
    by rewrite !utf8_encode_app.
  - rewrite utf8_lossy_encode by done. by apply escaped_reads_back.
Qed.

(** ** Numbers *)

Lemma fmt_acc_head fuel n acc :
  0 < n < 2 ^ Z.of_nat fuel → ∃ c s, fmt_acc fuel n acc = c :: s ∧ is_ascii_digit c = true ∧ c ≠ 48.
Proof.
  revert n acc. induction fuel as [|f IH]; intros n acc Hn; [cbn in Hn; lia|]. cbn [fmt_acc].
  pose proof (Z.div_mod n 10 ltac:(lia)). pose proof (Z.mod_pos_bound n 10 ltac:(lia)).
  destruct (Z.eqb_spec (n / 10) 0) as [Hz|Hz].
  - eexists _, _. split; [reflexivity|]. split; [apply is_ascii_digit_spec; lia|lia].
  - apply IH. rewrite Nat2Z.inj_succ, Z.pow_succ_r in Hn by lia. pose proof (Z.div_pos n 10). lia.
Qed.

Lemma fmt_u_number n : 0 ≤ n → jnumber (fmt_u n).
Proof.
  intros Hn. rewrite <- (app_nil_r (fmt_u n)), <- (app_nil_r (fmt_u n)), <- app_assoc.
  change (fmt_u n ++ [] ++ []) with ([] ++ fmt_u n ++ [] ++ []).
  constructor; [constructor| |constructor|constructor].
  destruct (Z.eq_dec n 0) as [->|Hne]; [apply ji_zero|].
  destruct (fmt_acc_head (S (Z.to_nat (Z.log2 n))) n []) as (c & s & Hs & Hc & H48).
  { pose proof (fmt_u_fuel n Hn). lia. }
  pose proof (fmt_u_digits n Hn) as Hd. unfold fmt_u in *. rewrite Hs in *. cbn [forallb] in Hd.
  apply andb_true_iff in Hd as [_ Hd]. by constructor.
Qed.

(** ** Values *)

(** [s] is a value whose outermost level is [d]. *)
Definition is_value (d : nat) (s : str) : Prop := jvalue false d (utf8_encode s).

Definition shallow (d : nat) : Prop := (d ≤ Json.MAX_DEPTH)%nat.

Lemma quote_value d s : shallow d → scalar s → is_value d (quote s).
Proof. intros Hd (body & Hb & Hj & _)%quote_reads_back. unfold is_value. rewrite Hb. by apply jv_string; [|constructor]. Qed.

Lemma number_value d n : shallow d → 0 ≤ n → is_value d (fmt_u n).
Proof.
  intros Hd Hn. unfold is_value. rewrite utf8_encode_ascii; [apply jv_number; [done|by apply fmt_u_number]|].
  pose proof (fmt_u_digits n Hn) as Hs. revert Hs. rewrite !forallb_true. intros Hs c Hc.
  specialize (Hs c Hc). apply is_ascii_digit_spec in Hs. apply Z.ltb_lt. lia.
Qed.

Lemma nat_value d n : shallow d → is_value d (number n).
Proof. intros Hd. apply number_value; [done|lia]. Qed.

Lemma boolean_value d b : shallow d → is_value d (boolean b).
Proof.
  intros Hd. unfold is_value. destruct b; apply jv_word; [done| |done|]; [by left|right; by left].
Qed.

Lemma join_cons2 sep x y l : join sep (x :: y :: l) = x ++ sep ++ join sep (y :: l).
Proof. reflexivity. Qed.

Lemma array_value d items : shallow d → Forall (is_value (d + 1)) items → is_value d (array items).
Proof.
  intros Hd Hitems. unfold is_value, array. rewrite !utf8_encode_app.
  change (utf8_encode (lit "[")) with [91]. change (utf8_encode (lit "]")) with [93]. cbn [app].
  destruct items as [|x items]; [by apply (jv_array_empty _ d [])|].
  assert (∃ vs, jelems false d (utf8_encode (join (lit ",") (x :: items))) vs) as [vs Hvs]; [|by eapply jv_array].
  revert x Hitems. induction items as [|y items IH]; intros x [Hx Hitems]%Forall_cons.
  - exists [utf8_encode x]. cbn [join]. rewrite <- (app_nil_r (utf8_encode x)) at 1.
    by apply (je_one _ d [] (utf8_encode x) []).
  - destruct (IH y Hitems) as [vs Hvs]. exists (utf8_encode x :: vs). rewrite join_cons2, !utf8_encode_app.
    by apply (je_cons _ d [] (utf8_encode x) []).
Qed.

Lemma object_value d fields :
  shallow d → Forall (λ p : string * str, is_value (d + 1) p.2) fields →
  is_value d (object (map (λ p, field p.1 p.2) fields)).
Proof.
  intros Hd Hfields. unfold is_value, object. rewrite !utf8_encode_app.
  change (utf8_encode (lit "{")) with [123]. change (utf8_encode (lit "}")) with [125]. cbn [app].
  destruct fields as [|p fields]; [by apply (jv_object_empty _ d [])|].
  assert (Hmember : ∀ p : string * str, is_value (d + 1) p.2 → jmember false d (utf8_encode (field p.1 p.2))).
  { intros q Hq. destruct (quote_reads_back (lit q.1) (lit_scalar q.1)) as (body & Hb & Hj & _).
    unfold field. rewrite !utf8_encode_app, Hb. rewrite <- (app_nil_r (utf8_encode q.2)).
    by apply (jm_plain _ d [] body [] [] (utf8_encode q.2) []). }
  apply jv_object; [done|]. revert p Hfields. induction fields as [|q fields IH]; intros p [Hp Hfields]%Forall_cons.
  - by apply jm_one, Hmember.
  - cbn [map]. rewrite join_cons2, !utf8_encode_app. apply jm_cons; [by apply Hmember|]. by apply IH.
Qed.

(** ** Replies *)

(** Every text of the reply is of scalars, and its numbers are not negative. *)
Record wf_reply (r : Reply) : Prop := {
  wf_scope : Forall scalar (Scope.in_scope (r_scope r) ++ Scope.orphans (r_scope r) ++ Scope.untouched_planned (r_scope r));
  wf_findings : Forall (λ f, scalar (gate f) ∧ scalar (f_path f) ∧ scalar (evidence f) ∧ scalar (message f) ∧ 0 ≤ f_line f) (r_findings r);
  wf_coverage : Forall scalar (Coverage.unmeasured (r_coverage r) ++ Coverage.skipped_by_type (r_coverage r));
  wf_gaps : Forall (λ g, scalar (Coverage.gap_path g) ∧ Forall (Z.le 0) (Coverage.uncovered_lines g)) (Coverage.gaps (r_coverage r));
  wf_substance : Forall (λ f, scalar (Substance.fs_path f)) (Substance.files (r_substance r));
  wf_degraded : Forall scalar (r_degraded r);
}.

Ltac values := repeat (apply Forall_cons; split; cbn [fst snd]); try (by apply Forall_nil).

Lemma string_array_value d l : shallow d → shallow (d + 1) → Forall scalar l → is_value d (string_array l).
Proof. intros Hd Hd' Hl. apply array_value; [done|]. apply Forall_map. eapply Forall_impl; [done|]. intros s Hs. by apply quote_value. Qed.

Lemma finding_value d f :
  shallow d → shallow (d + 1) → scalar (gate f) ∧ scalar (f_path f) ∧ scalar (evidence f) ∧ scalar (message f) ∧ 0 ≤ f_line f →
  is_value d (finding_text f).
Proof.
  intros Hd Hd' (Hg & Hp & He & Hm & Hl).
  apply (object_value d [("gate", quote (gate f)); ("severity", quote (severity_str (severity f)));
    ("strength", quote (strength_str (strength f))); ("path", quote (f_path f)); ("line", fmt_u (f_line f));
    ("evidence", quote (evidence f)); ("message", quote (message f))]%string); [done|].
  values; try (by apply quote_value); try (by apply number_value); by apply quote_value, lit_scalar.
Qed.

Lemma coverage_gap_value d g :
  shallow d → shallow (d + 1) → shallow (d + 1 + 1) →
  scalar (Coverage.gap_path g) ∧ Forall (Z.le 0) (Coverage.uncovered_lines g) → is_value d (coverage_gap g).
Proof.
  intros Hd Hd' Hd'' (Hp & Hl).
  apply (object_value d [("path", quote (Coverage.gap_path g)); ("added_lines", number (Coverage.gap_added_lines g));
    ("uncovered_lines", array (map fmt_u (Coverage.uncovered_lines g)))]%string); [done|].
  values; [by apply quote_value|by apply nat_value|]. apply array_value; [done|]. apply Forall_map.
  eapply Forall_impl; [done|]. intros n Hn. by apply number_value.
Qed.

Lemma file_substance_value d f : shallow d → shallow (d + 1) → scalar (Substance.fs_path f) → is_value d (file_substance f).
Proof.
  intros Hd Hd' Hp.
  apply (object_value d [("path", quote (Substance.fs_path f)); ("added_lines", number (Substance.fs_added_lines f));
    ("substantive_lines", number (Substance.fs_substantive_lines f))]%string); [done|].
  values; [by apply quote_value|by apply nat_value|by apply nat_value].
Qed.

Lemma substance_value r : Forall (λ f, scalar (Substance.fs_path f)) (Substance.files r) → is_value 1 (substance_object r).
Proof.
  intros Hf.
  apply (object_value 1 [("added_lines", number (Substance.added_lines r)); ("substantive_lines", number (Substance.substantive_lines r));
    ("trivial", number (Substance.trivial r)); ("moved", number (Substance.moved r)); ("repeated", number (Substance.repeated r));
    ("generated", number (Substance.generated r)); ("judged", boolean (Substance.judged r)); ("low", boolean (Substance.is_low r));
    ("files", array (map file_substance (Substance.files r)))]%string); [unfold shallow, Json.MAX_DEPTH; cbn; lia|].
  values; try (by apply nat_value; unfold shallow, Json.MAX_DEPTH; cbn; lia); try (by apply boolean_value; unfold shallow, Json.MAX_DEPTH; cbn; lia).
  apply array_value; [unfold shallow, Json.MAX_DEPTH; cbn; lia|]. apply Forall_map. eapply Forall_impl; [done|].
  intros f Hp. by apply file_substance_value; [unfold shallow, Json.MAX_DEPTH; cbn; lia..|].
Qed.

Lemma reply_value r : wf_reply r → is_value 0 (reply_text r).
Proof.
  intros [Hs Hf Hc Hg Hsub Hd]. rewrite !Forall_app in Hs. rewrite Forall_app in Hc. destruct Hs as (Hin & Hor & Hun), Hc as [Hum Hsk].
  assert (Hshallow : ∀ d, (d ≤ 5)%nat → shallow d) by (intros; unfold shallow, Json.MAX_DEPTH; lia).
  apply (object_value 0 [("ok", boolean true); ("files", number (r_files r)); ("stub_ast_parsed_files", number (r_parsed_files r));
    ("in_scope", string_array (Scope.in_scope (r_scope r))); ("orphans", string_array (Scope.orphans (r_scope r)));
    ("untouched_planned", string_array (Scope.untouched_planned (r_scope r))); ("findings", findings_array (r_findings r));
    ("coverage_unmeasured", string_array (Coverage.unmeasured (r_coverage r))); ("coverage_gaps", coverage_gaps (r_coverage r));
    ("coverage_skipped_by_type", string_array (Coverage.skipped_by_type (r_coverage r)));
    ("substance", substance_object (r_substance r)); ("stub_ast_degraded", string_array (r_degraded r))]%string); [by apply Hshallow; lia|].
  values; try (by apply boolean_value, Hshallow; lia); try (by apply nat_value, Hshallow; lia);
    try (by apply string_array_value; [apply Hshallow; lia..|]).
  - apply array_value; [apply Hshallow; lia|]. apply Forall_map. eapply Forall_impl; [done|]. intros f Hwf.
    apply finding_value; [apply Hshallow; lia..|done].
  - apply array_value; [apply Hshallow; lia|]. apply Forall_map. eapply Forall_impl; [done|]. intros g Hwf.
    apply coverage_gap_value; [apply Hshallow; lia..|done].
  - by apply substance_value.
Qed.

End ReplyFacts.

Import Json JsonGrammar Rigor StubAst Stdout StdoutFacts ReplyText ReplyFacts.

Module StdoutProps.

Lemma scan_fuel_same (s : list Z) : Json.scan_fuel s = Stdout.scan_fuel s.
Proof. reflexivity. Qed.

(** A text of one object in the grammar is one value. *)
Lemma document_is_one_value stream open :
  document false open (utf8_encode stream) → holds_exactly_one_value stream = Ok tt.
Proof.
  intros Hd%JsonProps.document_skip. unfold holds_exactly_one_value. cbv zeta.
  change (Stdout.skip_ws (utf8_encode stream)) with (Json.skip_ws (utf8_encode stream)).
  set (s := Json.skip_ws (utf8_encode stream)) in *.
  destruct (JsonProps.document_scans false open 0 (Json.scan_fuel s) s Hd) as (b & Hv & Hb); [done|].
  assert (Hs : Stdout.skip_ws s = s) by (apply (JsonScan.skip_ws_idem (utf8_encode stream))).
  apply JsonProps.skip_ws_nil in Hb. change (Json.skip_ws b) with (Stdout.skip_ws b) in Hb.
  assert (Hr : scan_value stream s = Ok b).
  { unfold scan_value. rewrite <- Hs at 2. apply (proj1 (scan_accepted stream 0 _)); [by rewrite <- scan_fuel_same|].
    destruct b as [|c b]; [done|]. cbn [Stdout.skip_ws Stdout.starts_digit] in *. destruct (is_ascii_digit c) eqn:Hc; [|done].
    replace (is_ws c) with false in Hb; [done|]. symmetry. revert Hc. unfold is_ascii_digit, in_range, is_ws.
    rewrite andb_true_iff, !orb_false_iff, !Z.leb_le, !Z.eqb_neq. lia. }
  destruct s as [|c s']; [|by rewrite Hr, Hb]. by apply scan_value_nil in Hr.
Qed.

(** C23. A reply is one JSON object, whatever it quotes: for every reply whose texts are of
    Unicode scalars, the text that is written is a document of the grammar that opens with
    a brace, and the scan of the output contract accepts it. No path, evidence or message
    can close a string early: each quoted text is a JSON string that reads back as it. *)
Theorem reply_is_one_object r :
  wf_reply r →
  document false (chr "{") (utf8_encode (reply_text r))
  ∧ holds_exactly_one_value (reply_text r) = Ok tt
  ∧ ∀ s, scalar s → ∃ body, utf8_encode (quote s) = quoted body ∧ jchars body ∧ unescape (utf8_lossy body) = s.
Proof.
  intros Hr. assert (Hd : document false (chr "{") (utf8_encode (reply_text r))).
  { exists [], (utf8_encode (reply_text r)), []. rewrite app_nil_r. split; [done|]. split; [done|]. split; [done|].
    split; [by apply reply_value|]. unfold reply_text, object. rewrite utf8_encode_app. done. }
  split; [done|]. split; [by eapply document_is_one_value|]. intros s. apply quote_reads_back.
Qed.

(** Output around a value is refused where it starts. The scan always ends; after a
    stream that is one object or array, whatever is printed that is not space makes the
    whole trailing at its first byte; and a stream whose first byte that is not space
    opens no value is not JSON at that byte. *)
Theorem output_around_a_value_is_refused p s c rest :
  Stdout.skip_ws (utf8_encode s) = c :: rest →
  (∀ stream, holds_exactly_one_value stream ≠ Err OutOfFuel)
  ∧ (holds_exactly_one_value p = Ok tt →
     Stdout.starts_byte (chr "{") (Stdout.skip_ws (utf8_encode p)) = true ∨ Stdout.starts_byte (chr "[") (Stdout.skip_ws (utf8_encode p)) = true →
     let at_ := (length (utf8_encode (p ++ s)) - length (c :: rest))%nat in
     (length (utf8_encode p) ≤ at_)%nat ∧ holds_exactly_one_value (p ++ s) = Err (Trailing at_ (excerpt (p ++ s) at_)))
  ∧ (existsb (Z.eqb c) (lit "{[tfn-" ++ [34]) = false → is_ascii_digit c = false →
     let at_ := (length (utf8_encode s) - length (c :: rest))%nat in
     holds_exactly_one_value s = Err (NotJson at_ (excerpt s at_))).
Proof.
  intros Hc. split; [|split].
  - intros stream. unfold holds_exactly_one_value. cbv zeta. destruct (Stdout.skip_ws (utf8_encode stream)) as [|x y]; [done|].
    destruct (scan_value_ends stream (x :: y)) as [He _]. destruct (scan_value stream (x :: y)) as [r|e]; [by case_match|congruence].
  - intros Hp Hopen at_. assert (Hlen : (length (c :: rest) ≤ length (utf8_encode s))%nat) by (rewrite <- Hc; apply ahead_length).
    split; [unfold at_; rewrite utf8_encode_app, length_app; lia|].
    revert Hp Hopen. unfold holds_exactly_one_value. cbv zeta.
    destruct (Stdout.skip_ws (utf8_encode p)) as [|x y] eqn:Hx; [done|].
    destruct (scan_value p (x :: y)) as [r|e] eqn:Hv; [|done]. intros Hr Hopen.
    destruct (Stdout.skip_ws r) as [|c' r'] eqn:Hw; [|done].
    rewrite utf8_encode_app, (skip_ws_extends _ _ _ _ Hx). cbn [app].
    assert (Hext : scan_value (p ++ s) (x :: y ++ utf8_encode s) = Ok (r ++ utf8_encode s)).
    { change (x :: y ++ utf8_encode s) with ((x :: y) ++ utf8_encode s). apply (scan_value_more _ (Stdout.scan_fuel (x :: y))).
      - unfold Stdout.scan_fuel. rewrite length_app. lia.
      - apply (proj1 (scan_extends p (p ++ s) (utf8_encode s) _)); [done|by right]. }
    rewrite Hext. assert (Stdout.skip_ws (r ++ utf8_encode s) = c :: rest) as ->.
    { rewrite <- Hc. apply skip_ws_all. by rewrite Hw. }
    reflexivity.
  - intros Hno Hd at_. unfold holds_exactly_one_value. cbv zeta. rewrite Hc. unfold scan_value, Stdout.scan_fuel.
    replace (2 * length (c :: rest) + 1)%nat with (S (2 * length (c :: rest))) by lia. cbn [scan_value_at_depth].
    replace (MAX_DEPTH <? 0)%nat with false by reflexivity. revert Hno.
    change (lit "{[tfn-" ++ [34]) with [chr "{"; chr "["; chr "t"; chr "f"; chr "n"; 45; 34]. cbn [existsb].
    rewrite !orb_false_iff. intros (H1 & H2 & H3 & H4 & H5 & H6 & H7 & _).
    rewrite H1, H2, H3, H4, H5, H6, H7, Hd. reflexivity.
Qed.

(** ** A sample reply, and what the scan lets through *)

Module Sample.

(** A finding whose evidence quotes, escapes and breaks its line. *)
Definition hostile : str := lit "a" ++ [34; 125; 92; 10; 7; 233] ++ lit "b".

Definition finding : Finding :=
  {| gate := lit "todo"; severity := Blocking; strength := Observed; f_path := lit "src/a.rs"; f_line := 12;
     evidence := hostile; message := lit "left behind" |}.

Definition reply : Reply :=
  {| r_files := 1; r_parsed_files := 0;
     r_scope := {| Scope.in_scope := [lit "src/a.rs"]; Scope.orphans := [hostile]; Scope.untouched_planned := [] |};
     r_findings := [finding];
     r_coverage := {| Coverage.gaps := [{| Coverage.gap_path := lit "src/a.rs"; Coverage.uncovered_lines := [12; 13]; Coverage.gap_added_lines := 2 |}];
                      Coverage.unmeasured := []; Coverage.skipped_by_type := [] |};
     r_substance := Substance.empty_report; r_degraded := [] |}.

Example reply_wf : wf_reply reply.
Proof. split; repeat constructor; cbn; lia. Qed.

(** The text of a finding as the host reads it. *)
Example hostile_is_escaped :
  quote hostile = [34] ++ lit "a" ++ [92; 34] ++ lit "}\\\n\u0007" ++ [233] ++ lit "b" ++ [34].
Proof. reflexivity. Qed.

(** Escapes that are none, a quote inside [\u], a raw line end in a string and a leading
    zero are no JSON, and the scan accepts each. *)
Example scan_accepts_more_than_json :
  Forall (λ s, holds_exactly_one_value s = Ok tt)
    [[34] ++ lit "\uzzzz" ++ [34]; [34] ++ lit "\q" ++ [34]; [34] ++ lit "\u" ++ [34] ++ lit "abc" ++ [34];
     [34; 10; 34]; lit "01"]
  ∧ Forall (λ s, ¬ ∃ open, document false open (utf8_encode s)) [[34] ++ lit "\q" ++ [34]; lit "01"].
Proof.
  split; [repeat constructor|]. repeat apply Forall_cons_2; [| |apply Forall_nil_2]; intros [open Hd%JsonProps.document_skip];
    (destruct (JsonProps.document_scans false open 0 10 _ Hd) as (b & Hv & Hb); [vm_compute; lia|vm_compute in Hv]); try discriminate Hv;
    injection Hv as <-; apply JsonProps.skip_ws_nil in Hb; discriminate Hb.
Qed.

Example banner_is_refused :
  holds_exactly_one_value (lit "{}" ++ lit " done") = Err (Trailing 3 (lit "done")) ∧ holds_exactly_one_value (lit "run: {}") = Err (NotJson 0 (lit "run: {}")).
Proof. split; vm_compute; reflexivity. Qed.

End Sample.

Lemma reply_is_one_object_witness : wf_reply Sample.reply ∧ holds_exactly_one_value (reply_text Sample.reply) = Ok tt.
Proof.
  split; [exact Sample.reply_wf|]. destruct (reply_is_one_object Sample.reply Sample.reply_wf) as (_ & Hr & _). exact Hr.
Defined.

Lemma output_around_a_value_is_refused_witness :
  holds_exactly_one_value (lit "{}") = Ok tt
  ∧ holds_exactly_one_value (lit "{}" ++ lit " done") = Err (Trailing 3 (lit "done")).
Proof.
  split; [vm_compute; reflexivity|].
  destruct (output_around_a_value_is_refused (lit "{}") (lit " done") 100 (lit "one")) as (_ & H & _); [reflexivity|].
  destruct H as [_ H]; [vm_compute; reflexivity|left; reflexivity|]. exact H.
Defined.

End StdoutProps.
