(* ===== verification/Gusset.v ===== *)
(** * The matcher behind the Go boundary: [gusset-engine/src/lib.rs]

    A frame of length-prefixed fields asks one name against patterns, or against lists
    prepared earlier. The registry of prepared lists is shared by every thread; a
    preparation looks it up under a read lock and registers under a write lock, and other
    threads may go between. A cursor into a frame is the bytes still ahead. *)

From stdpp Require Import list_numbers.
From S2P Require Import Prelude RustStr RustStrFacts Glob GlobFacts.
Import Glob.

#[local] Open Scope Z_scope.

Module Gusset.

Abbreviation bytes := (list Z).

Inductive EngineError : Type :=
  | Truncated (what : string)
  | FieldTooLong (what : string) (len : Z)
  | NotUtf8 (what : string)
  | CountTooLarge (what : string) (count : Z)
  | LengthMismatch (frame : string)
  | BadSelector (which : Z)
  | NeverPrepared (id : Z)
  | Cancelled (reason : str).

(** ** Constants *)

Definition MAX_FIELD : Z := 16384 * 4.
Definition NO_MATCH : Z := 0.
Definition MATCH : Z := 1.
Definition UNDECIDED : Z := 2.
Definition MAX_PATTERNS : Z := 1024.
Definition MAX_SETS : nat := 4096.
Definition MAX_REGISTRY_BYTES : Z := Z.shiftl 16 20.
Definition REGISTRY_FULL : Z := u32_max.

Definition OPCODE_MATCH_ANY : Z := 1.
Definition OPCODE_PREPARE : Z := 2.
Definition OPCODE_MATCH_PREPARED : Z := 3.
Definition OPCODE_SELF_TEST_PANIC : Z := 2147418113.

(** ** Fields *)

(** [u32::from_le_bytes] and [u32::to_le_bytes]. *)
Definition from_le_bytes (b0 b1 b2 b3 : Z) : Z := b0 + 256 * b1 + 65536 * b2 + 16777216 * b3.
Definition to_le_bytes (n : Z) : bytes := [n mod 256; n / 256 mod 256; n / 65536 mod 256; n / 16777216 mod 256].

Definition read_u32 (what : string) (rest : bytes) : result (Z * bytes) EngineError :=
  match rest with
  | b0 :: b1 :: b2 :: b3 :: r => Ok (from_le_bytes b0 b1 b2 b3, r)
  | _ => Err (Truncated what)
  end.

Definition field (what : string) (rest : bytes) : result (str * bytes) EngineError :=
  let? (len, r) := read_u32 (what ++ " length") rest in
  if MAX_FIELD <? len then Err (FieldTooLong what len)
  else if Z.of_nat (length r) <? len then Err (Truncated what)
  else
    let? text := ok_or (from_utf8 (take (Z.to_nat len) r)) (NotUtf8 what) in
    Ok (text, drop (Z.to_nat len) r).

(** The loop [for _ in 0..count] over pattern fields. *)
Fixpoint read_patterns (count : nat) (rest : bytes) : result (list str * bytes) EngineError :=
  match count with
  | O => Ok ([], rest)
  | S n =>
      let? (pattern, r) := field "pattern" rest in
      let? (patterns, r) := read_patterns n r in
      Ok (pattern :: patterns, r)
  end.

Definition read_count (what : string) (rest : bytes) : result (nat * bytes) EngineError :=
  let? (count, r) := read_u32 what rest in
  if MAX_PATTERNS <? count then Err (CountTooLarge what count) else Ok (Z.to_nat count, r).

(** [if at != input.len()]. *)
Definition at_end (frame : string) (rest : bytes) : result unit EngineError :=
  match rest with [] => Ok tt | _ => Err (LengthMismatch frame) end.

Definition answer (decided : option bool) : Z :=
  match decided with
  | Some true => MATCH
  | Some false => NO_MATCH
  | None => UNDECIDED
  end.

(** ** One name against a list *)

(** A list compiled once; [None] is a pattern past the matcher's cap. *)
Record PreparedSet := { patterns : list (option Pattern) }.

Section Check.
(** [check] asks whether the job was cancelled; it is called with its own state. *)
Context {C : Type} (check : C → result unit EngineError * C).

(** The loops of [match_any_frame] and [PreparedSet::answer]. *)
Fixpoint answer_from (undecided : bool) (ps : list (option Pattern)) (name : Name) (c : C) : result Z EngineError * C :=
  match ps with
  | [] => (Ok (if undecided then UNDECIDED else NO_MATCH), c)
  | p :: ps =>
      match check c with
      | (Err e, c) => (Err e, c)
      | (Ok _, c) =>
          match (let! p := p in Pattern_try_matches p name) with
          | Some true => (Ok MATCH, c)
          | Some false => answer_from undecided ps name c
          | None => answer_from true ps name c
          end
      end
  end.

Definition set_answer (set : PreparedSet) (name : Name) (c : C) : result Z EngineError * C :=
  answer_from false (patterns set) name c.

Definition read_any (input : bytes) : result (str * list str) EngineError :=
  let? (name, r) := field "name" input in
  let? (count, r) := read_count "pattern count" r in
  let? (patterns, r) := read_patterns count r in
  let? _ := at_end "match-any" r in
  Ok (name, patterns).

Definition match_any_frame (input : bytes) (c : C) : result bytes EngineError * C :=
  match read_any input with
  | Err e => (Err e, c)
  | Ok (name, patterns) =>
      match Name_new name with
      | None => (Ok [UNDECIDED], c)
      | Some name =>
          match answer_from false (map compile patterns) name c with
          | (Ok a, c) => (Ok [a], c)
          | (Err e, c) => (Err e, c)
          end
      end
  end.

End Check.

(** ** The registry *)

Record RegistryInner := {
  sets : list PreparedSet;
  by_content : gmap bytes Z;
  held : Z;
}.

Definition Registry_new : RegistryInner := {| sets := []; by_content := ∅; held := 0 |}.

(** [inner.sets.get(id as usize)]. *)
Definition Registry_get (reg : RegistryInner) (id : Z) : option PreparedSet := sets reg !! Z.to_nat id.

(** The vectors a prepared list owns. Each kind is grown in its own way, so each ends with a
    capacity of its own for a length. *)
Inductive Owned : Type := Patterns | Tokens | Singles | Ranges.

(** What the compiler and the allocator decide: the width of the types, and the capacity
    a vector of some length ended with. *)
Class Layout := {
  size_of_key : Z;
  size_of_slot : Z;
  size_of_pattern : Z;
  size_of_token : Z;
  capacity : Owned → nat → Z;
  size_of_key_nonneg : 0 ≤ size_of_key;
  size_of_slot_nonneg : 0 ≤ size_of_slot;
  size_of_pattern_nonneg : 0 ≤ size_of_pattern;
  size_of_token_nonneg : 0 ≤ size_of_token;
  capacity_holds : ∀ o n, Z.of_nat n ≤ capacity o n;
}.

Section Footprint.
Context `{Layout}.

(** [Pattern::heap_bytes] of dc-glob: a [char] is four bytes, a pair of them eight. *)
Definition token_heap (t : Token) : Z :=
  match t with
  | Class cls => capacity Singles (length (singles cls)) * 4 + capacity Ranges (length (ranges cls)) * 8
  | Star | Any | Literal _ => 0
  end.

Fixpoint sum_of {A} (f : A → Z) (l : list A) : Z :=
  match l with [] => 0 | x :: l => f x + sum_of f l end.

Definition heap_bytes (p : Pattern) : Z :=
  capacity Tokens (length (tokens p)) * size_of_token + sum_of token_heap (tokens p).

Definition footprint (frame_len : nat) (set : PreparedSet) : Z :=
  (Z.of_nat frame_len + size_of_key) + size_of_slot
  + (capacity Patterns (length (patterns set)) * size_of_pattern
     + sum_of (λ p, match p with Some p => heap_bytes p | None => 0 end) (patterns set)).

Definition read_list (input : bytes) : result (list str) EngineError :=
  let? (count, r) := read_count "pattern count" input in
  let? (patterns, r) := read_patterns count r in
  let? _ := at_end "prepare" r in
  Ok patterns.

Definition compile_list (patterns : list str) : PreparedSet := {| patterns := map compile patterns |}.

(** What [prepare_frame] does under the write lock. *)
Definition register (reg : RegistryInner) (input : bytes) (set : PreparedSet) : bytes * RegistryInner :=
  match by_content reg !! input with
  | Some id => (to_le_bytes id, reg)
  | None =>
      let cost := footprint (length input) set in
      if (MAX_SETS <=? length (sets reg))%nat || (MAX_REGISTRY_BYTES <? sat_add usize_max (held reg) cost)
      then (to_le_bytes REGISTRY_FULL, reg)
      else
        let id := Z.of_nat (length (sets reg)) in
        (to_le_bytes id,
         {| sets := sets reg ++ [set]; by_content := <[input := id]> (by_content reg); held := held reg + cost |})
  end.

(** Where a call of [prepare_frame] stands between its two locks. *)
Inductive Prepared : Type :=
  | Replied (reply : result bytes EngineError)
  | Missed (set : PreparedSet).

(** The call up to the end of the read lock. *)
Definition look_up (reg : RegistryInner) (input : bytes) : Prepared :=
  match read_list input with
  | Err e => Replied (Err e)
  | Ok patterns =>
      match by_content reg !! input with
      | Some id => Replied (Ok (to_le_bytes id))
      | None => Missed (compile_list patterns)
      end
  end.

Definition prepare_frame (reg : RegistryInner) (input : bytes) : result bytes EngineError * RegistryInner :=
  match look_up reg input with
  | Replied reply => (reply, reg)
  | Missed set => let (reply, reg) := register reg input set in (Ok reply, reg)
  end.

End Footprint.
(** ** Asking prepared lists *)

(** One [u32le id | u8 which], resolved while the frame is read. *)
Definition read_ask (reg : RegistryInner) (rest : bytes) : result ((PreparedSet * Z) * bytes) EngineError :=
  let? (id, r) := read_u32 "list id" rest in
  match r with
  | [] => Err (Truncated "list name selector")
  | which :: r =>
      if 1 <? which then Err (BadSelector which)
      else
        let? set := ok_or (Registry_get reg id) (NeverPrepared id) in
        Ok ((set, which), r)
  end.

Fixpoint read_asks (reg : RegistryInner) (count : nat) (rest : bytes) : result (list (PreparedSet * Z) * bytes) EngineError :=
  match count with
  | O => Ok ([], rest)
  | S n =>
      let? (ask, r) := read_ask reg rest in
      let? (asks, r) := read_asks reg n r in
      Ok (ask :: asks, r)
  end.

Definition read_prepared (reg : RegistryInner) (input : bytes) : result (str * str * list (PreparedSet * Z)) EngineError :=
  let? (name, r) := field "name" input in
  let? (folded, r) := field "folded name" r in
  let? (count, r) := read_count "list count" r in
  let? (asks, r) := read_asks reg count r in
  let? _ := at_end "match-prepared" r in
  Ok (name, folded, asks).

Section Prepared.
Context {C : Type} (check : C → result unit EngineError * C).

Fixpoint answer_asks (name folded : option Name) (asks : list (PreparedSet * Z)) (c : C) : result bytes EngineError * C :=
  match asks with
  | [] => (Ok [], c)
  | (set, which) :: asks =>
      match (match (if which =? 0 then name else folded) with
             | Some n => set_answer check set n c
             | None => (Ok UNDECIDED, c)
             end) with
      | (Err e, c) => (Err e, c)
      | (Ok a, c) =>
          match answer_asks name folded asks c with
          | (Ok out, c) => (Ok (a :: out), c)
          | (Err e, c) => (Err e, c)
          end
      end
  end.

Definition match_prepared_frame (reg : RegistryInner) (input : bytes) (c : C) : result bytes EngineError * C :=
  match read_prepared reg input with
  | Err e => (Err e, c)
  | Ok (name, folded, asks) => answer_asks (Name_new name) (Name_new folded) asks c
  end.

End Prepared.

(** ** A single pattern, and the opcodes *)

Definition read_match (input : bytes) : result (str * str) EngineError :=
  let? (pattern, r) := field "pattern" input in
  let? (name, r) := field "name" r in
  let? _ := at_end "match" r in
  Ok (pattern, name).

Definition match_frame (input : bytes) : result bytes EngineError :=
  let? (pattern, name) := read_match input in
  Ok [answer (try_matches pattern name)].

(** What a submitted job comes to. *)
Inductive Job : Type :=
  | Finished (reply : result bytes EngineError)
  | Panicked.

Definition ENGINES : list Z := [OPCODE_MATCH_ANY; OPCODE_PREPARE; OPCODE_MATCH_PREPARED; OPCODE_SELF_TEST_PANIC].

(** [register_engine] is the host library's; the count of refusals is returned. *)
Definition devcouncil_gusset_init (register_engine : Z → result unit string) : Z :=
  Z.of_nat (length (List.filter (λ opcode, negb (is_ok (register_engine opcode))) ENGINES)).

Section Submit.
Context `{Layout} {C : Type} (check : C → result unit EngineError * C).

Definition checked_first (c : C) (run : C → Job * RegistryInner * C) (reg : RegistryInner) : Job * RegistryInner * C :=
  match check c with
  | (Err e, c) => (Finished (Err e), reg, c)
  | (Ok _, c) => run c
  end.

(** A registered opcode runs its engine, every other one the global handler. *)
Definition submit (opcode : Z) (reg : RegistryInner) (input : bytes) (c : C) : Job * RegistryInner * C :=
  if opcode =? OPCODE_MATCH_ANY then
    checked_first c (λ c, let (reply, c) := match_any_frame check input c in (Finished reply, reg, c)) reg
  else if opcode =? OPCODE_PREPARE then
    checked_first c (λ c, let (reply, reg) := prepare_frame reg input in (Finished reply, reg, c)) reg
  else if opcode =? OPCODE_MATCH_PREPARED then
    checked_first c (λ c, let (reply, c) := match_prepared_frame check reg input c in (Finished reply, reg, c)) reg
  else if opcode =? OPCODE_SELF_TEST_PANIC then (Panicked, reg, c)
  else checked_first c (λ c, (Finished (match_frame input), reg, c)) reg.

End Submit.

(** ** Threads that prepare at once *)

Section Threads.
Context `{Layout}.

Inductive Thread : Type :=
  | Calling (input : bytes)
  | Between (input : bytes) (set : PreparedSet)
  | Returned (input : bytes) (reply : result bytes EngineError).

Record System := { registry : RegistryInner; threads : list Thread }.

(** One thread runs to the end of its next lock. *)
Definition advance (reg : RegistryInner) (t : Thread) : RegistryInner * Thread :=
  match t with
  | Calling input =>
      (reg, match look_up reg input with
            | Replied reply => Returned input reply
            | Missed set => Between input set
            end)
  | Between input set => let (reply, reg) := register reg input set in (reg, Returned input (Ok reply))
  | Returned _ _ => (reg, t)
  end.

Definition step (sys : System) (i : nat) : System :=
  match threads sys !! i with
  | Some t => let (reg, t) := advance (registry sys) t in {| registry := reg; threads := <[i := t]> (threads sys) |}
  | None => sys
  end.

(** Threads that have only been called, and a schedule of them. *)
Definition start (inputs : list bytes) : System := {| registry := Registry_new; threads := map Calling inputs |}.
Definition run_threads (schedule : list nat) (inputs : list bytes) : System := foldl step (start inputs) schedule.

End Threads.

End Gusset.

(** * Frames as the host writes them *)

Module GussetFacts.
Import GlobFacts.GlobFacts Gusset.

Definition byte (b : Z) : Prop := 0 ≤ b < 256.

(** A text a field can carry. *)
Definition fits (s : str) : Prop := all_chars is_scalar s = true ∧ str_len s ≤ MAX_FIELD.

Definition put (text : str) : bytes := to_le_bytes (str_len text) ++ utf8_encode text.
Definition put_list (patterns : list str) : bytes := to_le_bytes (Z.of_nat (length patterns)) ++ flat_map put patterns.
Definition match_text (pattern name : str) : bytes := put pattern ++ put name.
Definition any_text (name : str) (patterns : list str) : bytes := put name ++ put_list patterns.
Definition ask_text (ask : Z * Z) : bytes := to_le_bytes ask.1 ++ [ask.2].
Definition prepared_text (name folded : str) (asks : list (Z * Z)) : bytes :=
  put name ++ put folded ++ to_le_bytes (Z.of_nat (length asks)) ++ flat_map ask_text asks.

Definition fits_list (patterns : list str) : Prop := Forall fits patterns ∧ Z.of_nat (length patterns) ≤ MAX_PATTERNS.

(** ** Integers *)

Lemma le_bytes_read n : 0 ≤ n ≤ u32_max → from_le_bytes (n mod 256) (n / 256 mod 256) (n / 65536 mod 256) (n / 16777216 mod 256) = n.
Proof. unfold from_le_bytes, u32_max. intros. Z.to_euclidean_division_equations. lia. Qed.

Lemma le_bytes_written b0 b1 b2 b3 : byte b0 → byte b1 → byte b2 → byte b3 →
  to_le_bytes (from_le_bytes b0 b1 b2 b3) = [b0; b1; b2; b3] ∧ 0 ≤ from_le_bytes b0 b1 b2 b3 ≤ u32_max.
Proof.
  unfold to_le_bytes, from_le_bytes, byte, u32_max. intros. split; [|lia].
  repeat f_equal; Z.to_euclidean_division_equations; lia.
Qed.

Lemma read_u32_put what n r : 0 ≤ n ≤ u32_max → read_u32 what (to_le_bytes n ++ r) = Ok (n, r).
Proof. intros Hn. unfold to_le_bytes, read_u32. cbn [app]. by rewrite le_bytes_read. Qed.

Lemma read_u32_inv what s n r : Forall byte s → read_u32 what s = Ok (n, r) → s = to_le_bytes n ++ r ∧ 0 ≤ n ≤ u32_max ∧ Forall byte r.
Proof.
  intros Hs. destruct s as [|b0 [|b1 [|b2 [|b3 s]]]]; try done. cbn [read_u32]. intros [= <- <-].
  rewrite !Forall_cons in Hs. destruct Hs as (H0 & H1 & H2 & H3 & Hs).
  destruct (le_bytes_written b0 b1 b2 b3) as [-> ?]; done.
Qed.

(** ** Fields and counts *)

Lemma length_utf8_encode s : Z.of_nat (length (utf8_encode s)) = str_len s.
Proof.
  induction s as [|c s IH]; [done|]. unfold utf8_encode in *. cbn [flat_map str_len]. rewrite length_app, Nat2Z.inj_add, IH.
  f_equal. unfold utf8_encode_char, utf8_width. by repeat case_if.
Qed.

Lemma field_put what s r : fits s → field what (put s ++ r) = Ok (s, r).
Proof.
  intros [Hs Hl]. unfold field, put. rewrite <- app_assoc.
  pose proof (str_len_nonneg s). rewrite read_u32_put by (unfold MAX_FIELD, u32_max in *; lia).
  rewrite (proj2 (Z.ltb_ge _ _) Hl), length_app, <- length_utf8_encode.
  rewrite (proj2 (Z.ltb_ge _ _)) by lia. rewrite Nat2Z.id, take_app_length, drop_app_length.
  by rewrite (proj2 (from_utf8_Some _ s)).
Qed.

Lemma field_inv what s text r : Forall byte s → field what s = Ok (text, r) → s = put text ++ r ∧ fits text ∧ Forall byte r.
Proof.
  intros Hs. unfold field. destruct (read_u32 _ s) as [[len r0]|] eqn:Hu; [|done].
  apply read_u32_inv in Hu as (-> & Hlen & Hr); [|done].
  destruct (Z.ltb_spec MAX_FIELD len); [done|]. destruct (Z.ltb_spec (Z.of_nat (length r0)) len); [done|].
  destruct (from_utf8 _) as [text'|] eqn:Ht; [|done]. intros [= <- <-].
  apply from_utf8_Some in Ht as [Ht Hsc].
  assert (Hl : str_len text' = len) by (rewrite <- length_utf8_encode, Ht, length_take; lia).
  split; [|split; [split; [done|lia]|by apply Forall_drop]].
  unfold put. by rewrite Hl, Ht, <- app_assoc, take_drop.
Qed.

Lemma read_patterns_put ps r : Forall fits ps → read_patterns (length ps) (flat_map put ps ++ r) = Ok (ps, r).
Proof.
  induction 1 as [|p ps Hp _ IH]; [done|]. cbn [length read_patterns flat_map].
  by rewrite <- app_assoc, field_put, IH.
Qed.

Lemma read_patterns_inv n s ps r : Forall byte s → read_patterns n s = Ok (ps, r) →
  s = flat_map put ps ++ r ∧ length ps = n ∧ Forall fits ps ∧ Forall byte r.
Proof.
  revert s ps. induction n as [|n IH]; intros s ps Hs; cbn [read_patterns]; [by intros [= <- <-]|].
  destruct (field "pattern" s) as [[p r1]|] eqn:Hf; [|done]. apply field_inv in Hf as (-> & Hp & Hr1); [|done].
  destruct (read_patterns n r1) as [[ps' r2]|] eqn:Hn; [|done]. intros [= <- <-].
  apply IH in Hn as (-> & <- & Hps & Hr2); [|done]. cbn [flat_map]. rewrite <- app_assoc. auto.
Qed.

Lemma read_count_put what n r : Z.of_nat n ≤ MAX_PATTERNS → read_count what (to_le_bytes (Z.of_nat n) ++ r) = Ok (n, r).
Proof.
  intros Hn. unfold read_count. rewrite read_u32_put by (unfold MAX_PATTERNS, u32_max in *; lia).
  by rewrite (proj2 (Z.ltb_ge _ _) Hn), Nat2Z.id.
Qed.

Lemma read_count_inv what s n r : Forall byte s → read_count what s = Ok (n, r) →
  s = to_le_bytes (Z.of_nat n) ++ r ∧ Z.of_nat n ≤ MAX_PATTERNS ∧ Forall byte r.
Proof.
  intros Hs. unfold read_count. destruct (read_u32 what s) as [[k r0]|] eqn:Hu; [|done].
  apply read_u32_inv in Hu as (-> & Hk & Hr); [|done]. destruct (Z.ltb_spec MAX_PATTERNS k); [done|].
  intros [= <- <-]. by rewrite Z2Nat.id by lia.
Qed.

Lemma at_end_Ok frame r : at_end frame r = Ok tt ↔ r = [].
Proof. by destruct r. Qed.

(** ** Frames: what is written is read, and only that is read. *)

Lemma read_match_written pattern name : fits pattern → fits name → read_match (match_text pattern name) = Ok (pattern, name).
Proof.
  intros Hp Hn. unfold read_match, match_text. rewrite field_put by done.
  rewrite <- (app_nil_r (put name)), field_put by done. done.
Qed.

Lemma read_match_inv s pattern name : Forall byte s → read_match s = Ok (pattern, name) →
  s = match_text pattern name ∧ fits pattern ∧ fits name.
Proof.
  intros Hs. unfold read_match. destruct (field "pattern" s) as [[p r]|] eqn:Hp; [|done].
  apply field_inv in Hp as (-> & Hp & Hr); [|done]. destruct (field "name" r) as [[n r']|] eqn:Hn; [|done].
  apply field_inv in Hn as (-> & Hn & Hr'); [|done]. destruct r'; [|done]. intros [= <- <-].
  unfold match_text. by rewrite app_nil_r.
Qed.

Lemma read_list_written ps : fits_list ps → read_list (put_list ps) = Ok ps.
Proof.
  intros [Hf Hl]. unfold read_list, put_list. rewrite read_count_put by done.
  rewrite <- (app_nil_r (flat_map put ps)), read_patterns_put by done. done.
Qed.

Lemma read_list_inv s ps : Forall byte s → read_list s = Ok ps → s = put_list ps ∧ fits_list ps.
Proof.
  intros Hs. unfold read_list. destruct (read_count _ s) as [[n r]|] eqn:Hn; [|done].
  apply read_count_inv in Hn as (-> & Hn & Hr); [|done]. destruct (read_patterns n r) as [[ps' r']|] eqn:Hps; [|done].
  apply read_patterns_inv in Hps as (-> & <- & Hps & _); [|done]. destruct r'; [|done]. intros [= <-].
  unfold put_list. rewrite app_nil_r. done.
Qed.

Lemma read_any_written name ps : fits name → fits_list ps → read_any (any_text name ps) = Ok (name, ps).
Proof.
  intros Hn [Hf Hl]. unfold read_any, any_text, put_list. rewrite field_put, read_count_put by done.
  rewrite <- (app_nil_r (flat_map put ps)), read_patterns_put by done. done.
Qed.

Lemma read_any_inv s name ps : Forall byte s → read_any s = Ok (name, ps) → s = any_text name ps ∧ fits name ∧ fits_list ps.
Proof.
  intros Hs. unfold read_any. destruct (field "name" s) as [[nm r]|] eqn:Hf; [|done].
  apply field_inv in Hf as (-> & Hnm & Hr); [|done]. destruct (read_count _ r) as [[n r1]|] eqn:Hn; [|done].
  apply read_count_inv in Hn as (-> & Hn & Hr1); [|done]. destruct (read_patterns n r1) as [[ps' r']|] eqn:Hps; [|done].
  apply read_patterns_inv in Hps as (-> & <- & Hps & _); [|done]. destruct r'; [|done]. intros [= <- <-].
  unfold any_text, put_list. rewrite app_nil_r. done.
Qed.

(** An ask and the list it names in a registry. *)
Definition resolves (reg : RegistryInner) (ask : Z * Z) (x : PreparedSet * Z) : Prop :=
  0 ≤ ask.1 ≤ u32_max ∧ 0 ≤ ask.2 ≤ 1 ∧ Registry_get reg ask.1 = Some x.1 ∧ x.2 = ask.2.

Lemma read_asks_put reg asks xs r : Forall2 (resolves reg) asks xs →
  read_asks reg (length asks) (flat_map ask_text asks ++ r) = Ok (xs, r).
Proof.
  induction 1 as [|[id which] [set w] asks xs (Hid & Hw & Hg & Heq) _ IH]; [done|]. cbn [fst snd] in *. subst w.
  cbn [length read_asks flat_map]. unfold ask_text at 1. cbn [fst snd]. unfold read_ask.
  rewrite <- !app_assoc, read_u32_put by done. cbn [app]. rewrite (proj2 (Z.ltb_ge _ _)) by lia.
  rewrite Hg. cbn [ok_or]. by rewrite IH.
Qed.

Lemma read_asks_inv reg n s xs r : Forall byte s → read_asks reg n s = Ok (xs, r) →
  ∃ asks, s = flat_map ask_text asks ++ r ∧ length asks = n ∧ Forall2 (resolves reg) asks xs ∧ Forall byte r.
Proof.
  revert s xs. induction n as [|n IH]; intros s xs Hs; cbn [read_asks]; [intros [= <- <-]; by exists []|].
  unfold read_ask. destruct (read_u32 _ s) as [[id r0]|] eqn:Hu; [|done].
  apply read_u32_inv in Hu as (-> & Hid & Hr); [|done]. destruct r0 as [|w r0]; [done|].
  apply Forall_cons in Hr as [Hw Hr]. destruct (Z.ltb_spec 1 w); [done|].
  destruct (Registry_get reg id) as [set|] eqn:Hg; [|done]. cbn [ok_or].
  destruct (read_asks reg n r0) as [[xs' r2]|] eqn:Hn; [|done]. intros [= <- <-].
  apply IH in Hn as (asks & -> & <- & Has & Hr2); [|done]. exists ((id, w) :: asks).
  cbn [flat_map]. unfold ask_text at 2. cbn [fst snd]. rewrite <- !app_assoc. split; [done|]. split; [done|]. split; [|done].
  constructor; [|done]. unfold byte in Hw. repeat split; cbn; (done || lia).
Qed.

Lemma read_prepared_written reg name folded asks xs :
  fits name → fits folded → Z.of_nat (length asks) ≤ MAX_PATTERNS → Forall2 (resolves reg) asks xs →
  read_prepared reg (prepared_text name folded asks) = Ok (name, folded, xs).
Proof.
  intros Hn Hf Hl Has. unfold read_prepared, prepared_text. rewrite !field_put, read_count_put by done.
  rewrite <- (app_nil_r (flat_map ask_text asks)), (read_asks_put _ _ xs) by done. done.
Qed.

Lemma read_prepared_inv reg s name folded xs : Forall byte s → read_prepared reg s = Ok (name, folded, xs) →
  ∃ asks, s = prepared_text name folded asks ∧ fits name ∧ fits folded ∧ Z.of_nat (length asks) ≤ MAX_PATTERNS
    ∧ Forall2 (resolves reg) asks xs.
Proof.
  intros Hs. unfold read_prepared. destruct (field "name" s) as [[nm r]|] eqn:Hf; [|done].
  apply field_inv in Hf as (-> & Hnm & Hr); [|done]. destruct (field "folded name" r) as [[fd r1]|] eqn:Hf; [|done].
  apply field_inv in Hf as (-> & Hfd & Hr1); [|done]. destruct (read_count _ r1) as [[n r2]|] eqn:Hn; [|done].
  apply read_count_inv in Hn as (-> & Hn & Hr2); [|done]. destruct (read_asks reg n r2) as [[xs' r']|] eqn:Ha; [|done].
  apply read_asks_inv in Ha as (asks & -> & <- & Ha & _); [|done]. destruct r'; [|done]. intros [= <- <- <-].
  exists asks. unfold prepared_text. rewrite app_nil_r. done.
Qed.

(** ** What an answer means *)

Section Answers.
Context {C : Type} (check : C → result unit EngineError * C).

(** A pattern within the cap is decided; one past it is not. *)
Definition matched (ps : list str) (name : str) : Prop := ∃ p, p ∈ ps ∧ in_caps p = true ∧ fnmatch p name.

Definition meaning (ps : list str) (name : str) (a : Z) : Prop :=
  (a = MATCH ∧ in_caps name = true ∧ matched ps name)
  ∨ (a = NO_MATCH ∧ in_caps name = true ∧ ¬ matched ps name ∧ ∀ p, p ∈ ps → in_caps p = true)
  ∨ (a = UNDECIDED ∧ (in_caps name = false ∨ ¬ matched ps name ∧ ∃ p, p ∈ ps ∧ in_caps p = false)).

(** The call came to an answer, or [check] stopped it. *)
Definition answered_or_cancelled {A} (r : result A EngineError) (P : A → Prop) : Prop :=
  (∃ a, r = Ok a ∧ P a) ∨ (∃ e c, r = Err e ∧ (check c).1 = Err e).

Lemma meaning_unique ps name a b : meaning ps name a → meaning ps name b → a = b.
Proof.
  unfold meaning. intros Ha Hb. destruct Ha as [(-> & Hn & Hm)|[(-> & Hn & Hm & Hc)|(-> & Hu)]],
    Hb as [(-> & Hn' & Hm')|[(-> & Hn' & Hm' & Hc')|(-> & Hu')]]; try done; exfalso;
    repeat match goal with H : _ ∨ _ |- _ => destruct H as [H|H] | H : _ ∧ _ |- _ => destruct H | H : ∃ _, _ |- _ => destruct H end;
    try congruence; naive_solver congruence.
Qed.

Lemma Name_new_in_caps name : Name_new name = if in_caps name then Some {| name_text := name |} else None.
Proof. rewrite Name_new_eq. unfold in_caps. rewrite Z.gtb_ltb, Z.ltb_antisym. by destruct (_ <=? _). Qed.

Lemma compiled_try p name : in_caps name = true →
  (let! q := compile p in Pattern_try_matches q {| name_text := name |}) = try_matches p name.
Proof. intros Hn. unfold try_matches. rewrite Name_new_in_caps, Hn. done. Qed.

Lemma matched_cons p ps name : matched (p :: ps) name ↔ (in_caps p = true ∧ fnmatch p name) ∨ matched ps name.
Proof. unfold matched. setoid_rewrite elem_of_cons. naive_solver. Qed.

Lemma answer_from_meaning u ps name c : in_caps name = true →
  answered_or_cancelled (answer_from check u (map compile ps) {| name_text := name |} c).1 (λ a,
    (a = MATCH ∧ matched ps name)
    ∨ (¬ matched ps name ∧ a = if u || existsb (λ p, negb (in_caps p)) ps then UNDECIDED else NO_MATCH)).
Proof.
  intros Hn. revert u c. induction ps as [|p ps IH]; intros u c; cbn [map answer_from existsb].
  { left. eexists. split; [done|]. right. split; [intros (? & []%elem_of_nil & _)|]. by rewrite orb_false_r. }
  destruct (check c) as [[[]|e] c'] eqn:Hc; [|right; exists e, c; by rewrite Hc].
  rewrite compiled_try by done. destruct (in_caps p) eqn:Hp.
  - destruct (try_matches_in_caps p name Hp Hn) as ([] & -> & Hb).
    + left. eexists. split; [done|]. left. split; [done|]. apply matched_cons. left. split; [done|]. by apply Hb.
    + destruct (IH u c') as [(a & -> & Ha)|?]; [left; exists a; split; [done|]|by right].
      rewrite matched_cons. cbn [negb orb]. destruct Ha as [[-> ?]|[Hm ->]]; [left; auto|right].
      split; [|done]. intros [[_ Hf]|?]; [|done]. by apply Hb in Hf.
  - rewrite try_matches_over_caps by (by rewrite Hp). cbn [negb orb].
    destruct (IH true c') as [(a & -> & Ha)|?]; [left; exists a; split; [done|]|by right].
    rewrite matched_cons, orb_true_r. destruct Ha as [[-> ?]|[Hm ->]]; [left; auto|right].
    split; [|done]. intros [[? _]|?]; [congruence|done].
Qed.

Lemma set_answer_meaning ps name c : in_caps name = true →
  answered_or_cancelled (answer_from check false (map compile ps) {| name_text := name |} c).1 (meaning ps name).
Proof.
  intros Hn. destruct (answer_from_meaning false ps name c Hn) as [(a & Ha & Hm)|?]; [left; exists a; split; [done|]|by right].
  unfold meaning. destruct Hm as [[-> Hm]|[Hm ->]]; [by left|right]. cbn [orb].
  destruct (existsb _ ps) eqn:He.
  - right. split; [done|]. right. split; [done|]. apply existsb_true in He as (p & Hp & He). exists p. split; [done|].
    by destruct (in_caps p).
  - left. split; [done|]. split; [done|]. split; [done|]. intros p Hp.
    pose proof (proj1 (existsb_false _ _) He p Hp) as Hc. cbn beta in Hc. by destruct (in_caps p).
Qed.

End Answers.

(** ** The registry as a list of lists *)

Section Registry.
Context `{Layout}.

Definition set_heap (set : PreparedSet) : Z := sum_of (λ p, match p with Some p => heap_bytes p | None => 0 end) (patterns set).

(** What the registry stands for: the frames it has taken, each once and in turn. *)
Record represents (reg : RegistryInner) (log : list bytes) : Prop := {
  rep_once : NoDup log;
  rep_sets : Forall2 (λ f set, ∃ ps, read_list f = Ok ps ∧ set = compile_list ps) log (sets reg);
  rep_ids : ∀ f id, by_content reg !! f = Some id ↔ ∃ i, id = Z.of_nat i ∧ log !! i = Some f;
  rep_held : held reg = sum_of (λ x, footprint (length x.1) x.2) (zip log (sets reg));
  rep_bytes : held reg ≤ MAX_REGISTRY_BYTES;
  rep_size : (length log ≤ MAX_SETS)%nat;
}.

(** No room for the list of a frame. *)
Definition full (log : list bytes) (input : bytes) : Prop :=
  ∃ ps reg, read_list input = Ok ps ∧ represents reg log
    ∧ ((MAX_SETS ≤ length log)%nat ∨ MAX_REGISTRY_BYTES < held reg + footprint (length input) (compile_list ps)).

(** What a call that returned [reply] can say of the frames taken so far. *)
Inductive outcome (log : list bytes) (input : bytes) : result bytes EngineError → Prop :=
  | outcome_unread e : read_list input = Err e → outcome log input (Err e)
  | outcome_id i : log !! i = Some input → outcome log input (Ok (to_le_bytes (Z.of_nat i)))
  | outcome_full before : before `prefix_of` log → input ∉ before → full before input →
      outcome log input (Ok (to_le_bytes REGISTRY_FULL)).

Definition thread_ok (log : list bytes) (t : Thread) : Prop :=
  match t with
  | Calling _ => True
  | Between input set => ∃ ps, read_list input = Ok ps ∧ set = compile_list ps
  | Returned input reply => outcome log input reply
  end.

Lemma sum_of_app {A} (f : A → Z) l k : sum_of f (l ++ k) = sum_of f l + sum_of f k.
Proof. induction l as [|x l IH]; [done|]. cbn in *. lia. Qed.

Lemma sum_of_nonneg {A} (f : A → Z) l : (∀ x, 0 ≤ f x) → 0 ≤ sum_of f l.
Proof. intros Hf. induction l as [|x l IH]; [done|]. cbn in *. specialize (Hf x). lia. Qed.

Lemma heap_bytes_nonneg p : 0 ≤ heap_bytes p.
Proof.
  unfold heap_bytes. pose proof (capacity_holds Tokens (length (tokens p))). pose proof size_of_token_nonneg.
  enough (0 ≤ sum_of token_heap (tokens p)) by nia. apply sum_of_nonneg. intros []; cbn [token_heap]; try lia.
  pose proof (capacity_holds Singles (length (singles c))). pose proof (capacity_holds Ranges (length (ranges c))). lia.
Qed.

Lemma footprint_covers n set : set_heap set + Z.of_nat n ≤ footprint n set ∧ 0 ≤ set_heap set.
Proof.
  unfold footprint, set_heap. pose proof size_of_key_nonneg. pose proof size_of_slot_nonneg. pose proof size_of_pattern_nonneg.
  pose proof (capacity_holds Patterns (length (patterns set))). split; [nia|]. apply sum_of_nonneg. intros [p|]; [apply heap_bytes_nonneg|lia].
Qed.

Lemma held_nonneg reg log : represents reg log → 0 ≤ held reg.
Proof.
  intros Hr. rewrite (rep_held _ _ Hr). apply sum_of_nonneg. intros [f set]. cbn.
  destruct (footprint_covers (length f) set). lia.
Qed.

Lemma represents_new : represents Registry_new [].
Proof.
  split; cbn; [constructor|constructor| |done|done|lia].
  intros f id. rewrite lookup_empty. split; [done|]. by intros (i & _ & Hi).
Qed.

Lemma represents_length reg log : represents reg log → length (sets reg) = length log.
Proof. intros Hr. symmetry. apply (Forall2_length _ _ _ (rep_sets _ _ Hr)). Qed.

(** The write lock finds the frame, finds no room, or takes it at the end. *)
Lemma register_step reg log input ps : represents reg log → read_list input = Ok ps →
  (∃ i, log !! i = Some input ∧ register reg input (compile_list ps) = (to_le_bytes (Z.of_nat i), reg))
  ∨ (¬ input ∈ log ∧ full log input ∧ register reg input (compile_list ps) = (to_le_bytes REGISTRY_FULL, reg))
  ∨ (∃ reg', represents reg' (log ++ [input]) ∧ register reg input (compile_list ps) = (to_le_bytes (Z.of_nat (length log)), reg')).
Proof.
  intros Hr Hps. pose proof (represents_length _ _ Hr) as Hlen. unfold register.
  destruct (by_content reg !! input) as [id|] eqn:Hid.
  { left. apply (rep_ids _ _ Hr) in Hid as (i & -> & Hi). by exists i. }
  right. assert (Hnew : input ∉ log).
  { intros [i Hi]%list_elem_of_lookup. assert (by_content reg !! input = Some (Z.of_nat i)) as Hs by (apply (rep_ids _ _ Hr); eauto). congruence. }
  set (cost := footprint _ _). pose proof (held_nonneg _ _ Hr). pose proof (rep_bytes _ _ Hr).
  assert (Hsat : (MAX_REGISTRY_BYTES <? sat_add usize_max (held reg) cost) = (MAX_REGISTRY_BYTES <? held reg + cost)).
  { apply eq_true_iff_eq. rewrite !Z.ltb_lt. unfold sat_add, usize_max, u64_max, MAX_REGISTRY_BYTES. change (Z.shiftl 16 20) with 16777216. lia. }
  rewrite Hsat, Hlen. destruct ((MAX_SETS <=? length log)%nat || _) eqn:Hfull.
  { left. split; [done|]. split; [|done]. exists ps, reg. split; [done|]. split; [done|].
    apply orb_true_iff in Hfull as [Hf|Hf]; [left; by apply Nat.leb_le|right; by apply Z.ltb_lt]. }
  right. apply orb_false_iff in Hfull as [Hsize%Nat.leb_gt Hbytes%Z.ltb_ge]. eexists. split; [|done]. destruct Hr as [Ho Hs Hi Hh Hm Hz].
  split; cbn.
  - apply NoDup_app. split; [done|]. split; [by intros x Hx ->%list_elem_of_singleton|apply NoDup_singleton].
  - apply Forall2_app; [done|]. constructor; [eauto|constructor].
  - intros f id. rewrite lookup_insert_Some, Hi. split.
    + intros [[<- <-]|(Hne & i & -> & Hx)]; [exists (length log)|exists i]; (split; [done|]).
      * by rewrite lookup_app_r, Nat.sub_diag by done.
      * by apply lookup_app_l_Some.
    + intros (i & -> & Hx). apply lookup_app_Some in Hx as [Hx|[Hge Hx]].
      * right. split; [|eauto]. intros ->. by apply Hnew, (list_elem_of_lookup_2 _ i).
      * apply list_lookup_singleton_Some in Hx as [Hx <-]. left. split; [done|]. f_equal. lia.
  - rewrite zip_with_app by lia. rewrite sum_of_app, <- Hh. cbn. lia.
  - done.
  - rewrite length_app. cbn. lia.
Qed.

Lemma outcome_grows log log' input reply : log `prefix_of` log' → outcome log input reply → outcome log' input reply.
Proof.
  intros Hp. destruct 1 as [e He|i Hi|before Hb Hn Hf]; [by constructor| |].
  - apply outcome_id. by eapply prefix_lookup_Some.
  - apply (outcome_full _ _ before); [by etransitivity|done|done].
Qed.

Lemma thread_ok_grows log log' t : log `prefix_of` log' → thread_ok log t → thread_ok log' t.
Proof. intros Hp. destruct t; [done..|]. by apply outcome_grows. Qed.

Lemma advance_ok reg log t : represents reg log → thread_ok log t →
  ∃ log', log `prefix_of` log' ∧ represents (advance reg t).1 log' ∧ thread_ok log' (advance reg t).2.
Proof.
  intros Hr Ht. destruct t as [input|input set|input reply]; cbn [advance].
  - exists log. split; [done|]. split; [done|]. unfold look_up. destruct (read_list input) as [ps|e] eqn:Hl; [|by constructor].
    destruct (by_content reg !! input) as [id|] eqn:Hid; [|by exists ps].
    apply (rep_ids _ _ Hr) in Hid as (i & -> & Hi). by apply outcome_id.
  - destruct Ht as (ps & Hl & ->).
    destruct (register_step _ _ _ _ Hr Hl) as [(i & Hi & ->)|[(Hn & Hf & ->)|(reg' & Hr' & ->)]]; cbn [fst snd].
    + exists log. split; [done|]. split; [done|]. by apply outcome_id.
    + exists log. split; [done|]. split; [done|]. by apply (outcome_full _ _ log).
    + exists (log ++ [input]). split; [by apply prefix_app_r|]. split; [done|]. apply outcome_id.
      by rewrite lookup_app_r, Nat.sub_diag by done.
  - exists log. done.
Qed.

(** What holds of the threads and the registry together. *)
Definition system_ok (sys : System) (log : list bytes) : Prop :=
  represents (registry sys) log ∧ Forall (thread_ok log) (threads sys).

Lemma turn_keeps_system sys log i : system_ok sys log → ∃ log', log `prefix_of` log' ∧ system_ok (step sys i) log'.
Proof.
  intros [Hr Ht]. unfold step. destruct (threads sys !! i) as [t|] eqn:Hi; [|by exists log].
  destruct (advance_ok _ _ t Hr) as (log' & Hp & Hr' & Ht'); [by eapply Forall_lookup_1|].
  destruct (advance (registry sys) t) as [reg t']. exists log'. split; [done|]. split; [done|]. cbn in *.
  apply Forall_insert; [|done]. eapply Forall_impl; [done|]. intros x. by apply thread_ok_grows.
Qed.

Lemma turns_keep_system schedule sys log : system_ok sys log →
  ∃ log', log `prefix_of` log' ∧ system_ok (foldl step sys schedule) log'.
Proof.
  revert sys log. induction schedule as [|i schedule IH]; intros sys log Hs; [by exists log|]. cbn [foldl].
  destruct (turn_keeps_system _ _ i Hs) as (log1 & Hp1 & Hs1). destruct (IH _ _ Hs1) as (log2 & Hp2 & Hs2).
  exists log2. split; [by etransitivity|done].
Qed.

Lemma start_ok inputs : system_ok (start inputs) [].
Proof. split; [apply represents_new|]. apply Forall_map. by apply Forall_true. Qed.

(** What a list of the registry answers by its id. *)
Lemma represents_get reg log i input : represents reg log → log !! i = Some input →
  ∃ ps, read_list input = Ok ps ∧ Registry_get reg (Z.of_nat i) = Some (compile_list ps).
Proof.
  intros Hr Hi. unfold Registry_get. rewrite Nat2Z.id.
  destruct (Forall2_lookup_l _ _ _ _ _ (rep_sets _ _ Hr) Hi) as (set & -> & ps & Hl & ->). eauto.
Qed.

Lemma heap_is_bounded reg log : represents reg log → sum_of set_heap (sets reg) ≤ held reg.
Proof.
  intros Hr. rewrite (rep_held _ _ Hr). pose proof (represents_length _ _ Hr) as Hl. clear Hr.
  revert Hl. generalize (sets reg). induction log as [|f log IH]; intros [|set l] Hl; try done. cbn in *.
  destruct (footprint_covers (length f) set). specialize (IH l ltac:(lia)). lia.
Qed.

Lemma to_le_bytes_inj a b : 0 ≤ a ≤ u32_max → 0 ≤ b ≤ u32_max → to_le_bytes a = to_le_bytes b → a = b.
Proof. intros Ha Hb Heq. pose proof (read_u32_put "" a [] Ha) as H1. rewrite Heq, read_u32_put in H1 by done. congruence. Qed.

Lemma outcome_Ok log input out : outcome log input (Ok out) →
  (∃ i, log !! i = Some input ∧ out = to_le_bytes (Z.of_nat i)) ∨ out = to_le_bytes REGISTRY_FULL.
Proof. remember (Ok out) as reply eqn:He. destruct 1; try done; injection He as <-; eauto. Qed.

(** A list a thread was given an id for is the list that id answers for. *)
Lemma returned_id sys log ps id : system_ok sys log → fits_list ps → 0 ≤ id < REGISTRY_FULL →
  Returned (put_list ps) (Ok (to_le_bytes id)) ∈ threads sys → Registry_get (registry sys) id = Some (compile_list ps).
Proof.
  intros [Hr Ht] Hps Hid Hin. rewrite Forall_forall in Ht. specialize (Ht _ Hin).
  destruct (outcome_Ok _ _ _ Ht) as [(i & Hi & Heq)|Heq].
  - assert (id = Z.of_nat i) as ->.
    { apply to_le_bytes_inj; [unfold REGISTRY_FULL in *; lia| |done]. apply lookup_lt_Some in Hi. pose proof (rep_size _ _ Hr).
      unfold MAX_SETS, u32_max in *. lia. }
    destruct (represents_get _ _ _ _ Hr Hi) as (ps' & Hl & ->). rewrite read_list_written in Hl by done. by injection Hl as <-.
  - apply to_le_bytes_inj in Heq; unfold REGISTRY_FULL, u32_max in *; lia.
Qed.

(** How far a thread has come. *)
Definition turns (t : Thread) : nat := match t with Calling _ => 2 | Between _ _ => 1 | Returned _ _ => 0 end.

Definition input_of (t : Thread) : bytes := match t with Calling input => input | Between input _ => input | Returned input _ => input end.

Lemma advance_turns reg t : (turns (advance reg t).2 ≤ turns t - 1)%nat ∧ input_of (advance reg t).2 = input_of t.
Proof.
  destruct t as [input|input set|input reply]; cbn [advance].
  - destruct (look_up reg input); cbn; auto.
  - destruct (register reg input set); cbn; auto.
  - auto.
Qed.

(** Every thread keeps its input and returns once it has had two turns. *)
Lemma turns_taken schedule sys i t : threads sys !! i = Some t →
  ∃ t', threads (foldl step sys schedule) !! i = Some t' ∧ input_of t' = input_of t
    ∧ (turns t' ≤ turns t - length (List.filter (Nat.eqb i) schedule))%nat.
Proof.
  revert sys t. induction schedule as [|j schedule IH]; intros sys t Ht; cbn [foldl List.filter].
  { exists t. split; [done|]. split; [done|]. cbn. lia. }
  assert (∃ t1, threads (step sys j) !! i = Some t1 ∧ input_of t1 = input_of t
            ∧ (turns t1 ≤ turns t - (if (i =? j)%nat then 1 else 0))%nat) as (t1 & Ht1 & Hi1 & Hn1).
  { unfold step. destruct (threads sys !! j) as [u|] eqn:Hj.
    - destruct (advance_turns (registry sys) u) as [Ha Hb]. destruct (advance (registry sys) u) as [reg u']. cbn in *.
      destruct (Nat.eqb_spec i j) as [<-|Hne].
      + rewrite Ht in Hj. injection Hj as ->. exists u'. rewrite list_lookup_insert_eq by (by eapply lookup_lt_Some). done.
      + exists t. rewrite list_lookup_insert_ne by done. split; [done|]. split; [done|]. lia.
    - exists t. split; [done|]. split; [done|]. destruct (Nat.eqb_spec i j) as [<-|]; [congruence|lia]. }
  destruct (IH _ _ Ht1) as (t' & Ht' & Hi' & Hn'). exists t'. split; [done|]. split; [congruence|].
  destruct (i =? j)%nat; cbn [length] in *; lia.
Qed.

Lemma turns_taken_returned schedule sys i input reply : threads sys !! i = Some (Returned input reply) →
  threads (foldl step sys schedule) !! i = Some (Returned input reply).
Proof.
  revert sys. induction schedule as [|j schedule IH]; intros sys Ht; cbn [foldl]; [done|]. apply IH. unfold step.
  destruct (threads sys !! j) as [u|] eqn:Hj; [|done]. destruct (decide (i = j)) as [<-|Hne].
  - assert (u = Returned input reply) as -> by congruence. cbn. apply list_lookup_insert_eq. by eapply lookup_lt_Some.
  - destruct (advance (registry sys) u) as [reg u']. cbn. by rewrite list_lookup_insert_ne.
Qed.

End Registry.

(** ** Asking several lists *)

Section Asks.
Context {C : Type} (check : C → result unit EngineError * C).

Definition asked (name folded : str) (which : Z) : str := if which =? 0 then name else folded.

Lemma answer_asks_meaning name folded (lists : list (list str * Z)) c :
  answered_or_cancelled check
    (answer_asks check (Name_new name) (Name_new folded) (map (λ x, (compile_list x.1, x.2)) lists) c).1
    (Forall2 (λ x a, meaning x.1 (asked name folded x.2) a) lists).
Proof.
  revert c. induction lists as [|[ps which] lists IH]; intros c; cbn [map answer_asks fst snd]; [left; eauto|].
  assert (Hone : answered_or_cancelled check
    (match (if which =? 0 then Name_new name else Name_new folded) with
     | Some n => set_answer check (compile_list ps) n c | None => (Ok UNDECIDED, c) end).1 (meaning ps (asked name folded which))).
  { unfold asked. rewrite !Name_new_in_caps.
    assert (∀ s, answered_or_cancelled check
      (match (if in_caps s then Some {| name_text := s |} else None) with
       | Some n => set_answer check (compile_list ps) n c | None => (Ok UNDECIDED, c) end).1 (meaning ps s)) as Hs.
    { intros s. destruct (in_caps s) eqn:Hc; [by apply set_answer_meaning|].
      left. eexists. split; [done|]. right. right. auto. }
    destruct (which =? 0); apply Hs. }
  destruct (match (if which =? 0 then _ else _) with Some _ => _ | None => _ end) as [[a|e] c'].
  - destruct Hone as [(a' & [= <-] & Ha)|(e & c'' & He & _)]; [|done]. destruct (IH c') as [(out & Ho & Hout)|(e & c'' & He & Hc)].
    + destruct (answer_asks _ _ _ _ c') as [[out'|e] c2]; [|done]. cbn in Ho. injection Ho as ->. left. exists (a :: out). auto.
    + destruct (answer_asks _ _ _ _ c') as [[out'|e'] c2]; [done|]. cbn in He. injection He as ->. right. eauto.
  - destruct Hone as [(a' & He & _)|(e' & c'' & He & Hc)]; [done|]. cbn in He. injection He as ->. right. exists e', c''. auto.
Qed.

Lemma match_any_meaning name ps c : fits name → fits_list ps →
  answered_or_cancelled check (match_any_frame check (any_text name ps) c).1 (λ out, ∃ a, out = [a] ∧ meaning ps name a).
Proof.
  intros Hn Hps. unfold match_any_frame. rewrite read_any_written, Name_new_in_caps by done.
  destruct (in_caps name) eqn:Hc; [|left; eexists; split; [done|]; eexists; split; [done|]; right; right; auto].
  destruct (set_answer_meaning check ps name c Hc) as [(a & Ha & Hm)|(e & c' & He & Hc')];
    destruct (answer_from _ _ _ _ _) as [[a'|e'] c2]; cbn in *; try done.
  - injection Ha as ->. left. eauto.
  - injection He as ->. right. eauto.
Qed.

End Asks.

End GussetFacts.

Import GlobFacts.GlobFacts Gusset GussetFacts.

Module GussetProps.

(** C24. A frame is read exactly when it is one a host would write: of all byte strings,
    each of the four readers takes just the frames of fields that fit, in number and in
    length, and gives back the fields; a list is asked by an id the registry knows and a
    selector that is 0 or 1. A short, long or trailing frame, a field past its cap and text
    that is not UTF-8 are refused. *)
Theorem frames_are_read_exactly reg input :
  Forall byte input →
  (∀ pattern name, read_match input = Ok (pattern, name) ↔ input = match_text pattern name ∧ fits pattern ∧ fits name)
  ∧ (∀ name ps, read_any input = Ok (name, ps) ↔ input = any_text name ps ∧ fits name ∧ fits_list ps)
  ∧ (∀ ps, read_list input = Ok ps ↔ input = put_list ps ∧ fits_list ps)
  ∧ (∀ name folded xs, read_prepared reg input = Ok (name, folded, xs) ↔
       ∃ asks, input = prepared_text name folded asks ∧ fits name ∧ fits folded
         ∧ Z.of_nat (length asks) ≤ MAX_PATTERNS ∧ Forall2 (resolves reg) asks xs).
Proof.
  intros Hb. split; [|split; [|split]].
  - intros p n. split; [by apply read_match_inv|]. intros (-> & ? & ?). by apply read_match_written.
  - intros n ps. split; [by apply read_any_inv|]. intros (-> & ? & ?). by apply read_any_written.
  - intros ps. split; [by apply read_list_inv|]. intros (-> & ?). by apply read_list_written.
  - intros n f xs. split; [by apply read_prepared_inv|]. intros (asks & -> & ? & ? & ? & ?). by apply (read_prepared_written _ _ _ asks).
Qed.

(** C15. A prepared list answers as the list itself. However the preparations of all
    threads interleaved: a name is judged by a list it was given an id for exactly by
    what the patterns of that list match, undecided answers included, unless the call is
    cancelled; and no other answer comes from sending the name and the list in one frame. *)
Theorem prepared_lists_answer_as_match_any {C} (check : C → result unit EngineError * C) `{Layout}
    schedule inputs name folded (lists : list (list str * Z * Z)) c :
  let sys := run_threads schedule inputs in
  fits name → fits folded → Z.of_nat (length lists) ≤ MAX_PATTERNS →
  Forall (λ x, fits_list x.1.1 ∧ 0 ≤ x.1.2 < REGISTRY_FULL ∧ 0 ≤ x.2 ≤ 1
               ∧ Returned (put_list x.1.1) (Ok (to_le_bytes x.1.2)) ∈ threads sys) lists →
  let reply := (match_prepared_frame check (registry sys) (prepared_text name folded (map (λ x, (x.1.2, x.2)) lists)) c).1 in
  answered_or_cancelled check reply (Forall2 (λ x a, meaning x.1.1 (asked name folded x.2) a) lists)
  ∧ ∀ out k ps id which a c' b,
      reply = Ok out → lists !! k = Some (ps, id, which) → out !! k = Some a →
      (match_any_frame check (any_text (asked name folded which) ps) c').1 = Ok b → b = [a].
Proof.
  intros sys Hn Hf Hl Hlists reply.
  destruct (turns_keep_system schedule _ _ (start_ok inputs)) as (log & _ & Hsys). fold (run_threads schedule inputs) in Hsys. fold sys in Hsys.
  assert (Hreply : reply = (answer_asks check (Name_new name) (Name_new folded)
            (map (λ x, (compile_list x.1, x.2)) (map (λ x, (x.1.1, x.2)) lists)) c).1).
  { unfold reply, match_prepared_frame.
    rewrite (read_prepared_written _ _ _ _ (map (λ x, (compile_list x.1.1, x.2)) lists)); [by rewrite map_map|done|done|by rewrite length_map|].
    clear Hl. induction Hlists as [|[[ps id] which] lists (Hps & Hid & Hw & Hin) _ IH]; constructor; [|done]. cbn in *.
    unfold resolves. cbn. split; [unfold REGISTRY_FULL in *; lia|]. split; [done|]. split; [|done]. by eapply returned_id. }
  pose proof (answer_asks_meaning check name folded (map (λ x, (x.1.1, x.2)) lists) c) as Hm. rewrite <- Hreply in Hm.
  assert (Hm' : answered_or_cancelled check reply (Forall2 (λ x a, meaning x.1.1 (asked name folded x.2) a) lists)).
  { destruct Hm as [(out & Ho & Hout)|?]; [left|by right]. exists out. split; [done|]. by apply Forall2_fmap_l in Hout. }
  split; [done|]. intros out k ps id which a c' b Ho Hk Ha Hb.
  destruct Hm' as [(out' & Ho' & Hout)|(? & ? & ? & _)]; [|congruence]. assert (out' = out) as -> by congruence.
  pose proof (Forall2_lookup_lr _ _ _ _ _ _ Hout Hk Ha) as Hma. cbn in Hma.
  destruct (Forall_lookup_1 _ _ _ _ Hlists Hk) as [Hps _]. cbn in Hps.
  destruct (match_any_meaning check (asked name folded which) ps c') as [(o & Ho2 & a2 & -> & Hm2)|(? & ? & ? & _)];
    [unfold asked; by case_if|done| |congruence].
  assert (b = [a2]) as -> by congruence. f_equal. by eapply meaning_unique.
Qed.

(** C16. The registry is the list of the frames it took, each once and in turn. Whatever the
    interleaving: what was taken stays at its place; every thread that had two turns has
    returned, with the error of an unreadable frame, the place of its frame, or the notice
    that there was no room, which is given only when there was none; and the compiled
    patterns held stay under the bound on bytes. *)
Theorem registry_takes_each_list_once `{Layout} schedule more inputs :
  let sys := run_threads schedule inputs in
  let later := foldl step sys more in
  ∃ log log',
    represents (registry sys) log ∧ represents (registry later) log' ∧ log `prefix_of` log'
    ∧ sum_of set_heap (sets (registry later)) ≤ MAX_REGISTRY_BYTES
    ∧ ∀ i input, inputs !! i = Some input → (2 ≤ length (List.filter (Nat.eqb i) schedule))%nat →
        ∃ reply, threads sys !! i = Some (Returned input reply) ∧ outcome log input reply
          ∧ threads later !! i = Some (Returned input reply).
Proof.
  intros sys later. destruct (turns_keep_system schedule _ _ (start_ok inputs)) as (log & _ & Hsys).
  destruct (turns_keep_system more _ _ Hsys) as (log' & Hp & Hlater). exists log, log'.
  split; [apply Hsys|]. split; [apply Hlater|]. split; [done|]. split.
  { etransitivity; [by eapply heap_is_bounded, Hlater|by eapply rep_bytes, Hlater]. }
  intros i input Hi Hturns.
  assert (Hstart : threads (start inputs) !! i = Some (Calling input)) by (cbn; by rewrite list_lookup_fmap, Hi).
  destruct (turns_taken schedule _ _ _ Hstart) as (t & Ht & Hin & Hn). cbn in Hn.
  destruct t as [input'|input' set|input' reply]; cbn in Hn, Hin; [lia|lia|]. subst input'.
  exists reply. split; [done|]. split; [apply (Forall_lookup_1 _ _ _ _ (proj2 Hsys) Ht)|].
  by apply turns_taken_returned.
Qed.

(** ** A sample: two threads prepare one list at once *)

Module Sample.

#[export] Instance layout : Layout.
Proof. refine {| size_of_key := 32; size_of_slot := 48; size_of_pattern := 32; size_of_token := 56; capacity := λ _, Z.of_nat |}; lia. Defined.

Definition globs : list str := [lit "*.rs"; lit "*.py"].
Definition inputs : list bytes := [put_list globs; put_list globs; put_list []; [1; 0; 0]].
Definition schedule : list nat := [0; 1; 1; 0; 2; 3; 2]%nat.
Definition system : System := run_threads schedule inputs.
Definition never (c : unit) : result unit EngineError * unit := (Ok tt, c).

Example both_get_one_id : threads system =
  [Returned (put_list globs) (Ok (to_le_bytes 0)); Returned (put_list globs) (Ok (to_le_bytes 0));
   Returned (put_list []) (Ok (to_le_bytes 1)); Returned [1; 0; 0] (Err (Truncated "pattern count"))].
Proof. vm_compute. reflexivity. Qed.

(** Opcodes: the matcher, a cancelled job, the panic on purpose, an unknown opcode. *)
Example opcodes :
  (submit never OPCODE_MATCH_ANY Registry_new (any_text (lit "a.py") globs) tt).1.1 = Finished (Ok [MATCH])
  ∧ (submit (λ c : unit, (Err (Cancelled (lit "late")), c)) OPCODE_PREPARE Registry_new (put_list globs) tt).1.1 = Finished (Err (Cancelled (lit "late")))
  ∧ (submit never OPCODE_SELF_TEST_PANIC Registry_new [] tt).1.1 = Panicked
  ∧ (submit never 77 Registry_new (match_text (lit "*.py") (lit "a.js")) tt).1.1 = Finished (Ok [NO_MATCH])
  ∧ devcouncil_gusset_init (λ _, Err "already registered"%string) = 4.
Proof. repeat split; vm_compute; reflexivity. Qed.

Definition lists : list (list str * Z * Z) := [(globs, 0, 0); ([], 1, 1); (globs, 0, 1)].

Example sample_reply :
  (match_prepared_frame never (registry system) (prepared_text (lit "a.PY") (lit "a.py") (map (λ x, (x.1.2, x.2)) lists)) tt).1
  = Ok [NO_MATCH; NO_MATCH; MATCH].
Proof. vm_compute. reflexivity. Qed.

End Sample.

#[local] Existing Instance Sample.layout.

Lemma fits_computed s : all_chars is_scalar s && (str_len s <=? MAX_FIELD) = true → fits s.
Proof. intros [? ?%Z.leb_le]%andb_true_iff. by split. Qed.

Lemma globs_fit : fits_list Sample.globs.
Proof. split; [|vm_compute; discriminate]. apply Forall_cons. split; [|apply Forall_cons; split; [|by apply Forall_nil]]; by apply fits_computed. Qed.

Lemma bytes_computed l : forallb (λ b, (0 <=? b) && (b <? 256)) l = true → Forall byte l.
Proof.
  rewrite forallb_true. intros Hl. apply Forall_forall. intros b Hb%Hl. unfold byte.
  apply andb_true_iff in Hb as [?%Z.leb_le ?%Z.ltb_lt]. done.
Qed.

Lemma frames_are_read_exactly_witness :
  let input := any_text (lit "a.py") Sample.globs in
  Forall byte input ∧ read_any input = Ok (lit "a.py", Sample.globs).
Proof.
  cbv zeta. assert (Hb : Forall byte (any_text (lit "a.py") Sample.globs)) by (apply bytes_computed; vm_compute; reflexivity).
  split; [exact Hb|]. destruct (frames_are_read_exactly Registry_new _ Hb) as (_ & Hany & _). apply Hany.
  split; [reflexivity|]. split; [apply fits_computed; reflexivity|exact globs_fit].
Defined.

Lemma prepared_lists_answer_as_match_any_witness :
  meaning Sample.globs (lit "a.py") MATCH
  ∧ ∀ b, (match_any_frame Sample.never (any_text (lit "a.py") Sample.globs) tt).1 = Ok b → b = [MATCH].
Proof.
  destruct (prepared_lists_answer_as_match_any Sample.never Sample.schedule Sample.inputs (lit "a.PY") (lit "a.py") Sample.lists tt) as [Hm Hany].
  - apply fits_computed. reflexivity.
  - apply fits_computed. reflexivity.
  - vm_compute. discriminate.
  - pose proof Sample.both_get_one_id as Ht. unfold Sample.system in Ht. rewrite Ht.
    pose proof globs_fit as Hg.
    assert (He : fits_list []) by (split; [constructor|vm_compute; discriminate]).
    unfold Sample.lists. repeat (apply Forall_cons; split); [..|apply Forall_nil; exact I]; cbn [fst snd];
      (split; [assumption|split; [unfold REGISTRY_FULL, u32_max; lia|split; [lia|]]]).
    + left.
    + right; right; left.
    + left.
  - split.
    + destruct Hm as [(out & Ho & Hout)|(e & c & He & Hc)]; [|discriminate Hc].
      assert (out = [NO_MATCH; NO_MATCH; MATCH]) as -> by (pose proof Sample.sample_reply as Hs; unfold Sample.system in Hs; congruence).
      exact (Forall2_lookup_lr _ _ _ 2%nat _ _ Hout eq_refl eq_refl).
    + intros b Hb. exact (Hany _ 2%nat Sample.globs 0 1 MATCH tt b Sample.sample_reply eq_refl eq_refl Hb).
Defined.

Lemma registry_takes_each_list_once_witness :
  ∃ log, represents (registry Sample.system) log ∧ outcome log (put_list []) (Ok (to_le_bytes 1)).
Proof.
  destruct (registry_takes_each_list_once Sample.schedule [] Sample.inputs) as (log & log' & Hr & _ & _ & _ & Hthreads).
  exists log. split; [exact Hr|]. destruct (Hthreads 2%nat (put_list [])) as (reply & Ht & Ho & _); [reflexivity|vm_compute; lia|].
  assert (reply = Ok (to_le_bytes 1)) as ->; [|exact Ho].
  pose proof Sample.both_get_one_id as Hs. unfold Sample.system in Hs. rewrite Hs in Ht. injection Ht as <-. reflexivity.
Defined.

End GussetProps.
