(* ===== verification/Pdg.v ===== *)
(** * Program dependence graphs ([rust/devmap-analyze/src/pdg.rs])

    [build_function_pdg] checks a statement tree, threads control through it and adds the
    data, parameter and taint edges. A [BTreeMap] is a [gmap] read in the order of its
    sorted keys. The recursion of the walks is on [levels], the nesting levels that the
    cap still allows: the code's [depth] is [LEVELS - levels]. *)

From S2P Require Import Prelude RustStr Order.
Import Order.

#[local] Open Scope Z_scope.

Module Pdg.

Definition MAX_PDG_NESTING_DEPTH : nat := 64.
Definition MAX_PDG_STATEMENTS : Z := 2000.
Definition LEVELS : nat := S MAX_PDG_NESTING_DEPTH.

Inductive CfgNodeKind : Type :=
  | NodeEntry | NodeExit | NodeBlock | NodeBranch | NodeLoop | NodeTry | NodeReturn | NodeRaise | ExceptionDispatch.

#[export] Instance CfgNodeKind_eq_dec : EqDecision CfgNodeKind.
Proof. solve_decision. Defined.

Record CfgNode := { cn_id : str; cn_kind : CfgNodeKind; cn_symbol : str; leader_line : Z; line_range : Z * Z }.

Record PdgEdge := { source_node : str; target_node : str; edge_kind : str; variable : option str }.

#[export] Instance PdgEdge_eq_dec : EqDecision PdgEdge.
Proof. solve_decision. Defined.

Record FunctionPdg := {
  pdg_function_name : str;
  pdg_generation_id : Z;
  pdg_content_hash : Z;
  pdg_nodes : gmap str CfgNode;
  pdg_edges : list PdgEdge;
}.

(** The facts of one point of control: a statement, or the test of an [elif]. *)
Record Point := { pt_line : Z; definitions : list str; uses : list str; taint_sinks : list str }.

(** [PdgStatement] and [PdgStatementKind]; an [ElifArm] is its test and its body. *)
Inductive PdgStatement : Type :=
  | Statement (point : Point) (kind : PdgStatementKind)
with PdgStatementKind : Type :=
  | Basic
  | Branch (then_body : list PdgStatement) (elif_arms : list (Point * list PdgStatement))
      (else_body : list PdgStatement)
  | Loop (body : list PdgStatement)
  | Try (body : list PdgStatement) (handlers : list (list PdgStatement)) (finally_body : list PdgStatement)
  | Return
  | Raise.

Definition point_of (s : PdgStatement) : Point := let 'Statement p _ := s in p.
Definition kind_of (s : PdgStatement) : PdgStatementKind := let 'Statement _ k := s in k.

Record FunctionPdgInput := {
  function_name : str;
  generation_id : Z;
  content_hash : Z;
  start_line : Z;
  end_line : Z;
  params : list str;
  body : list PdgStatement;
}.

Inductive PdgError : Type :=
  | EmptyName
  | BadRange
  | BadParams
  | StatementCap
  | LineOutside (line : Z)
  | EmptyVariable
  | SinkNotUsed
  | DepthCap
  | DefinitionsUnsettled (ceiling nodes : nat)
  | TaintUnsettled (ceiling nodes : nat).

(** ** Validation *)

Definition blank (s : str) : bool := bool_decide (trim s = []).

(** [validate_point]: what is left of the budget, or the refusal. *)
Definition validate_point (p : Point) (first last budget : Z) : result Z PdgError :=
  if budget <? 1 then Err StatementCap
  else if negb ((first <=? pt_line p) && (pt_line p <=? last)) then Err (LineOutside (pt_line p))
  else if existsb blank (definitions p ++ uses p ++ taint_sinks p) then Err EmptyVariable
  else if existsb (λ sink, negb (bool_decide (sink ∈ uses p))) (taint_sinks p) then Err SinkNotUsed
  else Ok (budget - 1).

Section Validate.
Variables (first last : Z) (inner : list PdgStatement → Z → result Z PdgError).

Fixpoint validate_arms (arms : list (Point * list PdgStatement)) (budget : Z) : result Z PdgError :=
  match arms with
  | [] => Ok budget
  | (test, arm_body) :: rest =>
      let? budget := validate_point test first last budget in
      let? budget := inner arm_body budget in
      validate_arms rest budget
  end.

Fixpoint validate_handlers (handlers : list (list PdgStatement)) (budget : Z) : result Z PdgError :=
  match handlers with
  | [] => Ok budget
  | handler :: rest => let? budget := inner handler budget in validate_handlers rest budget
  end.

Definition validate_kind (k : PdgStatementKind) (budget : Z) : result Z PdgError :=
  match k with
  | Branch then_body elif_arms else_body =>
      let? budget := inner then_body budget in
      let? budget := validate_arms elif_arms budget in
      inner else_body budget
  | Loop loop_body => inner loop_body budget
  | Try try_body handlers finally_body =>
      let? budget := inner try_body budget in
      let? budget := validate_handlers handlers budget in
      inner finally_body budget
  | Basic | Return | Raise => Ok budget
  end.

Fixpoint validate_list (statements : list PdgStatement) (budget : Z) : result Z PdgError :=
  match statements with
  | [] => Ok budget
  | s :: rest =>
      let? budget := validate_point (point_of s) first last budget in
      let? budget := validate_kind (kind_of s) budget in
      validate_list rest budget
  end.

End Validate.

Fixpoint validate_statements (levels : nat) (first last : Z) (statements : list PdgStatement) (budget : Z)
    : result Z PdgError :=
  match levels with
  | O => Err DepthCap
  | S l => validate_list first last (validate_statements l first last) statements budget
  end.

(** Parameters are unique and not blank. *)
Fixpoint check_params (seen : gset str) (ps : list str) : result unit PdgError :=
  match ps with
  | [] => Ok tt
  | p :: rest => if blank p || bool_decide (p ∈ seen) then Err BadParams else check_params ({[p]} ∪ seen) rest
  end.

(** ** Control flow *)

Record NodeFacts := { nf_definitions : gset str; nf_uses : gset str; nf_sinks : gset str }.

Definition no_facts : NodeFacts := {| nf_definitions := ∅; nf_uses := ∅; nf_sinks := ∅ |}.

Definition node_facts (p : Point) : NodeFacts :=
  {| nf_definitions := list_to_set (definitions p); nf_uses := list_to_set (uses p);
     nf_sinks := list_to_set (taint_sinks p) |}.

Record Incoming := { in_node : str; in_kind : str }.

#[export] Instance Incoming_eq_dec : EqDecision Incoming.
Proof. solve_decision. Defined.

Record Flow := { normal : list Incoming; abrupt : list Incoming }.

Definition absorb (a b : Flow) : Flow := {| normal := normal a ++ normal b; abrupt := abrupt a ++ abrupt b |}.

(** [Vec::dedup]: of each run of equal elements, one. *)
Fixpoint dedup_runs {A} `{EqDecision A} (l : list A) : list A :=
  match l with
  | x :: (y :: _) as rest => if decide (x = y) then dedup_runs rest else x :: dedup_runs rest
  | _ => l
  end.

Definition incoming_leb : Incoming → Incoming → bool := asc_str in_node (by_str in_kind).

Definition dedup (f : Flow) : Flow :=
  {| normal := dedup_runs (sort_by incoming_leb (normal f)); abrupt := dedup_runs (sort_by incoming_leb (abrupt f)) |}.

Record PdgBuilder := {
  nodes : gmap str CfgNode;
  facts : gmap str NodeFacts;
  edges : list PdgEdge;
  next_node : Z;
  created : list str;
}.

Definition add_control (source target kind : str) (b : PdgBuilder) : PdgBuilder :=
  {| nodes := nodes b; facts := facts b;
     edges := edges b ++ [{| source_node := source; target_node := target; edge_kind := kind; variable := None |}];
     next_node := next_node b; created := created b |}.

(** An edge into [target] from each of [sources]. *)
Definition wire (sources : list Incoming) (target : str) (b : PdgBuilder) : PdgBuilder :=
  foldl (λ b i, add_control (in_node i) target (in_kind i) b) b sources.

Section Build.
Variable input : FunctionPdgInput.

Definition entry : str := function_name input ++ lit ":entry".
Definition exit : str := function_name input ++ lit ":exit".

Definition new_builder : PdgBuilder :=
  {| nodes := <[exit := {| cn_id := exit; cn_kind := NodeExit; cn_symbol := function_name input;
                           leader_line := end_line input; line_range := (end_line input, end_line input) |}]>
      (<[entry := {| cn_id := entry; cn_kind := NodeEntry; cn_symbol := function_name input;
                     leader_line := start_line input; line_range := (start_line input, start_line input) |}]> ∅);
     facts := {[entry := {| nf_definitions := list_to_set (params input); nf_uses := ∅; nf_sinks := ∅ |}]};
     edges := []; next_node := 0; created := [] |}.

Definition node_id (line k : Z) : str :=
  function_name input ++ lit ":" ++ fmt_u line ++ lit ":n" ++ fmt_u k.

Definition add_node (line : Z) (kind : CfgNodeKind) (fs : NodeFacts) (b : PdgBuilder) : str * PdgBuilder :=
  let id := node_id line (next_node b) in
  (id, {| nodes := <[id := {| cn_id := id; cn_kind := kind; cn_symbol := function_name input;
                              leader_line := line; line_range := (line, line) |}]> (nodes b);
          facts := <[id := fs]> (facts b); edges := edges b; next_node := next_node b + 1;
          created := created b ++ [id] |}).

Definition statement_kind (k : PdgStatementKind) : CfgNodeKind :=
  match k with
  | Basic => NodeBlock
  | Branch _ _ _ => NodeBranch
  | Loop _ => NodeLoop
  | Try _ _ _ => NodeTry
  | Return => NodeReturn
  | Raise => NodeRaise
  end.

Definition add_statement_node (s : PdgStatement) : PdgBuilder → str * PdgBuilder :=
  add_node (pt_line (point_of s)) (statement_kind (kind_of s)) (node_facts (point_of s)).

Definition from (node : str) (kind : string) : Incoming := {| in_node := node; in_kind := lit kind |}.

Definition flow_to (node : str) (kind : string) : Flow := {| normal := [from node kind]; abrupt := [] |}.

Section Statement.
(** [build_sequence] one level further in. *)
Variable inner : list PdgStatement → list Incoming → PdgBuilder → result (Flow * PdgBuilder) PdgError.

Fixpoint build_arms (arms : list (Point * list PdgStatement)) (otherwise : Incoming) (out : Flow) (b : PdgBuilder)
    : result (Incoming * Flow * PdgBuilder) PdgError :=
  match arms with
  | [] => Ok (otherwise, out, b)
  | (test, arm_body) :: rest =>
      let '(node, b) := add_node (pt_line test) NodeBranch (node_facts test) b in
      let b := add_control (in_node otherwise) node (in_kind otherwise) b in
      let? (arm, b) := inner arm_body [from node "control:true"] b in
      build_arms rest (from node "control:false") (absorb out arm) b
  end.

Fixpoint build_handlers (handlers : list (list PdgStatement)) (header dispatch : str) (out : Flow) (b : PdgBuilder)
    : result (Flow * PdgBuilder) PdgError :=
  match handlers with
  | [] => Ok (out, b)
  | handler :: rest =>
      let? (caught, b) := inner handler [from header "control:exception"; from dispatch "control:exception"] b in
      build_handlers rest header dispatch (absorb out caught) b
  end.

Definition build_finally (finally_body : list PdgStatement) (out : Flow) (b : PdgBuilder)
    : result (Flow * PdgBuilder) PdgError :=
  let into := map (λ i, from (in_node i) "control:finally") (normal out ++ abrupt out) in
  let? (fin, b) := inner finally_body into b in
  Ok ({| normal := match normal out with [] => [] | _ => normal fin end;
         abrupt := abrupt fin ++ match abrupt out with
                                 | [] => []
                                 | _ => map (λ i, from (in_node i) "control:terminate") (normal fin)
                                 end |}, b).

(** What surrounds a body with handlers or a [finally]. *)
Definition build_guards (line : Z) (header : str) (raisers : list str) (handlers : list (list PdgStatement))
    (finally_body : list PdgStatement) (out : Flow) (b : PdgBuilder) : result (Flow * PdgBuilder) PdgError :=
  let '(dispatch, b) := add_node line ExceptionDispatch no_facts b in
  let b := wire (map (λ r, from r "control:exception") raisers) dispatch b in
  let? (out, b) := build_handlers handlers header dispatch out b in
  let out := {| normal := normal out; abrupt := abrupt out ++ [from dispatch "control:unhandled"] |} in
  match finally_body with
  | [] => Ok (out, b)
  | _ => build_finally finally_body out b
  end.

Definition build_try (line : Z) (header : str) (try_body : list PdgStatement) (handlers : list (list PdgStatement))
    (finally_body : list PdgStatement) (b : PdgBuilder) : result (Flow * PdgBuilder) PdgError :=
  let first_body_node := length (created b) in
  let? (out, b) := inner try_body [from header "control:try"] b in
  match handlers, finally_body with
  | [], [] => Ok (out, b)
  | _, _ => build_guards line header (drop first_body_node (created b)) handlers finally_body out b
  end.

Definition build_kind (s : PdgStatement) (node : str) (b : PdgBuilder) : result (Flow * PdgBuilder) PdgError :=
  match kind_of s with
  | Basic => Ok (flow_to node "control:fallthrough", b)
  | Return | Raise => Ok ({| normal := []; abrupt := [from node "control:terminate"] |}, b)
  | Branch then_body elif_arms else_body =>
      let? (out, b) := inner then_body [from node "control:true"] b in
      let? (otherwise, out, b) := build_arms elif_arms (from node "control:false") out b in
      let? (last, b) := inner else_body [otherwise] b in
      Ok (absorb out last, b)
  | Loop loop_body =>
      let? (tails, b) := inner loop_body [from node "control:true"] b in
      Ok ({| normal := [from node "control:false"]; abrupt := abrupt tails |},
          wire (map (λ i, from (in_node i) "control:loop") (normal tails)) node b)
  | Try try_body handlers finally_body =>
      build_try (pt_line (point_of s)) node try_body handlers finally_body b
  end.

Fixpoint build_list (statements : list PdgStatement) (flow : Flow) (b : PdgBuilder)
    : result (Flow * PdgBuilder) PdgError :=
  match statements with
  | [] => Ok (flow, b)
  | s :: rest =>
      match normal flow with
      | [] => Ok (flow, b)
      | _ =>
          let '(node, b) := add_statement_node s b in
          let b := wire (normal flow) node b in
          let? (after, b) := build_kind s node b in
          build_list rest {| normal := normal after; abrupt := abrupt flow ++ abrupt after |} b
      end
  end.

End Statement.

Fixpoint build_sequence (levels : nat) (statements : list PdgStatement) (incoming : list Incoming) (b : PdgBuilder)
    : result (Flow * PdgBuilder) PdgError :=
  match levels with
  | O => Err DepthCap
  | S l =>
      let? (flow, b) := build_list (build_sequence l) statements {| normal := incoming; abrupt := [] |} b in
      Ok (dedup flow, b)
  end.

(** The first half of [finish]: the graph of control. *)
Definition control_graph : result PdgBuilder PdgError :=
  let? (flow, b) := build_sequence LEVELS (body input) [from entry "control:entry"] new_builder in
  Ok (wire (normal flow ++ abrupt flow) exit b).

End Build.

(** ** Data flow *)

Definition sorted_keys {V} (m : gmap str V) : list str := sort_strs (map fst (map_to_list m)).
Definition in_order (s : gset str) : list str := sort_strs (elements s).

(** For each variable the nodes, with their lines, whose definition of it arrives. *)
Abbreviation Definitions := (gmap str (gset (str * Z))).

Definition merge_definitions (destination source : Definitions) : Definitions :=
  map_fold (λ x ds acc, <[x := default ∅ (acc !! x) ∪ ds]> acc) destination source.

Record Arriving := { inbound : gmap str Definitions; outbound : gmap str Definitions }.

Section DataFlow.
Variable b : PdgBuilder.

Definition is_control (e : PdgEdge) : bool := starts_with (lit "control:") (edge_kind e).

Definition add_predecessor (m : gmap str (gset str)) (e : PdgEdge) : gmap str (gset str) :=
  <[target_node e := {[source_node e]} ∪ default ∅ (m !! target_node e)]> m.

Definition predecessors : gmap str (gset str) :=
  foldl add_predecessor ((λ _, ∅) <$> nodes b) (List.filter is_control (edges b)).

Definition fixpoint_pass_ceiling : nat := (size (nodes b) + 2)%nat.

Definition arriving (a : Arriving) (node : str) : Definitions :=
  foldl (λ acc p, merge_definitions acc (default ∅ (outbound a !! p))) ∅
    (in_order (default ∅ (predecessors !! node))).

Definition leaving (node : str) (line : Z) (new_in : Definitions) : Definitions :=
  match facts b !! node with
  | Some fs => foldl (λ acc x, <[x := {[(node, line)]}]> acc) new_in (in_order (nf_definitions fs))
  | None => new_in
  end.

(** One node of a pass: its new sets, and whether they changed. *)
Definition visit (st : Arriving * bool) (node : str) : Arriving * bool :=
  let '(a, changed) := st in
  match nodes b !! node with
  | None => st
  | Some cfg_node =>
      let new_in := arriving a node in
      let new_out := leaving node (leader_line cfg_node) new_in in
      if bool_decide (inbound a !! node = Some new_in) && bool_decide (outbound a !! node = Some new_out)
      then (a, changed)
      else ({| inbound := <[node := new_in]> (inbound a); outbound := <[node := new_out]> (outbound a) |}, true)
  end.

Definition pass (a : Arriving) : Arriving * bool := foldl visit (a, false) (sorted_keys (nodes b)).

Fixpoint settle (passes : nat) (a : Arriving) : result Arriving PdgError :=
  match passes with
  | O => Err (DefinitionsUnsettled fixpoint_pass_ceiling (size (nodes b)))
  | S k => let '(a, changed) := pass a in if changed then settle k a else Ok a
  end.

Definition reaching_definitions : result (gmap str Definitions) PdgError :=
  let none : gmap str Definitions := (λ _, ∅) <$> nodes b in
  let? a := settle fixpoint_pass_ceiling {| inbound := none; outbound := none |} in
  Ok (inbound a).

(** The definitions of [x] that arrive at [node]. *)
Definition reaching (ins : gmap str Definitions) (node x : str) : list (str * Z) :=
  elements (default ∅ (default ∅ (ins !! node) !! x)).

Definition consumes_taint (ins : gmap str Definitions) (tainted : gset (str * str)) (node : str) (fs : NodeFacts)
    : bool :=
  existsb (λ x, existsb (λ d, bool_decide ((d.1, x) ∈ tainted)) (reaching ins node x)) (elements (nf_uses fs)).

(** [changed |= tainted.insert(..)]. *)
Definition taint_definition (node : str) (st : gset (str * str) * bool) (x : str) : gset (str * str) * bool :=
  ({[(node, x)]} ∪ st.1, st.2 || negb (bool_decide ((node, x) ∈ st.1))).

Definition taint_node (ins : gmap str Definitions) (st : gset (str * str) * bool) (node : str)
    : gset (str * str) * bool :=
  match facts b !! node with
  | None => st
  | Some fs =>
      if consumes_taint ins st.1 node fs
      then foldl (taint_definition node) st (in_order (nf_definitions fs))
      else st
  end.

Definition taint_pass (ins : gmap str Definitions) (tainted : gset (str * str)) : gset (str * str) * bool :=
  foldl (taint_node ins) (tainted, false) (sorted_keys (facts b)).

Fixpoint spread (ins : gmap str Definitions) (passes : nat) (tainted : gset (str * str))
    : result (gset (str * str)) PdgError :=
  match passes with
  | O => Err (TaintUnsettled fixpoint_pass_ceiling (size (nodes b)))
  | S k => let '(tainted, changed) := taint_pass ins tainted in if changed then spread ins k tainted else Ok tainted
  end.

Definition data_edge (start node x : str) (d : str * Z) : PdgEdge :=
  {| source_node := d.1; target_node := node;
     edge_kind := if bool_decide (d.1 = start) then lit "param" else lit "data"; variable := Some x |}.

Definition taint_edge (node x : str) (d : str * Z) : PdgEdge :=
  {| source_node := d.1; target_node := node; edge_kind := lit "taint"; variable := Some x |}.

Definition node_edges (ins : gmap str Definitions) (tainted : gset (str * str)) (start node : str) : list PdgEdge :=
  match facts b !! node with
  | None => []
  | Some fs =>
      flat_map (λ x, map (data_edge start node x) (reaching ins node x)) (in_order (nf_uses fs))
      ++ flat_map (λ x, map (taint_edge node x)
             (List.filter (λ d, bool_decide ((d.1, x) ∈ tainted)) (reaching ins node x))) (in_order (nf_sinks fs))
  end.

Definition add_data_edges (start : str) (ps : list str) : result (list PdgEdge) PdgError :=
  let? ins := reaching_definitions in
  let? tainted := spread ins fixpoint_pass_ceiling (list_to_set (map (λ p, (start, p)) ps)) in
  Ok (edges b ++ flat_map (node_edges ins tainted start) (sorted_keys (facts b))).

End DataFlow.

(** [None] before every [Some], and these by their text. *)
Definition edge_leb : PdgEdge → PdgEdge → bool :=
  asc_str source_node (asc_str target_node (asc_str edge_kind
    (asc (λ e, match variable e with None => 0 | Some _ => 1 end) (by_str (λ e, default [] (variable e)))))).

Definition finish (input : FunctionPdgInput) : result FunctionPdg PdgError :=
  let? b := control_graph input in
  let? all := add_data_edges b (entry input) (params input) in
  Ok {| pdg_function_name := function_name input; pdg_generation_id := generation_id input;
        pdg_content_hash := content_hash input; pdg_nodes := nodes b;
        pdg_edges := dedup_runs (sort_by edge_leb all) |}.

Definition validate (input : FunctionPdgInput) : result unit PdgError :=
  if blank (function_name input) then Err EmptyName
  else if (start_line input =? 0) || (end_line input <? start_line input) then Err BadRange
  else
    let? _unit := check_params ∅ (params input) in
    let? _budget := validate_statements LEVELS (start_line input) (end_line input) (body input) MAX_PDG_STATEMENTS in
    Ok tt.

Definition build_function_pdg (input : FunctionPdgInput) : result FunctionPdg PdgError :=
  let? _unit := validate input in
  finish input.

End Pdg.
