(* ===== verification/PdgFacts.v ===== *)
(** * What the builder keeps

    Node names are fresh, the builder only grows, every edge joins two nodes and is an
    edge of control; and a tree that validates is never refused by the builder. *)

From S2P Require Import Prelude RustStr RustStrFacts Order Pdg.
Import Pdg.

#[local] Open Scope Z_scope.

Module PdgFacts.

(** ** Lists *)

Lemma elem_of_dedup_runs {A} `{EqDecision A} (x : A) l : x ∈ dedup_runs l ↔ x ∈ l.
Proof.
  induction l as [|a [|c l] IH]; [done..|].
  change (dedup_runs (a :: c :: l)) with (if decide (a = c) then dedup_runs (c :: l) else a :: dedup_runs (c :: l)).
  destruct (decide (a = c)) as [->|]; [|by rewrite !(elem_of_cons _ x a), IH].
  rewrite IH, (elem_of_cons (c :: l)). split; [by right|]. intros [->|?]; [by left|done].
Qed.

Lemma elem_of_sorted_dedup i l : i ∈ dedup_runs (sort_by incoming_leb l) ↔ i ∈ l.
Proof. by rewrite elem_of_dedup_runs, elem_of_sort_by. Qed.

(** ** Names *)

Lemma fmt_acc_all_digits fuel n acc :
  all_chars is_ascii_digit acc = true → all_chars is_ascii_digit (fmt_acc fuel n acc) = true.
Proof.
  revert n acc. induction fuel as [|f IH]; intros n acc Ha; cbn [fmt_acc]; [done|].
  pose proof (Z.mod_pos_bound n 10 ltac:(lia)).
  assert (all_chars is_ascii_digit ((48 + n mod 10) :: acc) = true).
  { cbn. rewrite Ha, andb_true_r. apply is_ascii_digit_spec. lia. }
  case_if; [done|by apply IH].
Qed.

Lemma fmt_u_all_digits n : all_chars is_ascii_digit (fmt_u n) = true.
Proof. by apply fmt_acc_all_digits. Qed.

Section Names.
Variable input : FunctionPdgInput.

Lemma node_id_inj l1 k1 l2 k2 : 0 ≤ k1 → 0 ≤ k2 → node_id input l1 k1 = node_id input l2 k2 → k1 = k2.
Proof.
  intros H1 H2 E. unfold node_id in E. apply app_inv_head, app_inv_head in E.
  apply (f_equal (split_once (chr ":"))) in E. change (lit ":n") with (chr ":" :: lit "n") in E.
  cbn [app] in E. assert (Hd : ∀ l, all_chars (λ d, negb (d =? chr ":")) (fmt_u l) = true)
    by (intros l; apply digits_not; [by vm_compute; intros []|apply fmt_u_all_digits]).
  rewrite !split_once_app in E by apply Hd. injection E as _ E.
  apply (f_equal (digits_value 0)) in E. by rewrite !fmt_u_value in E.
Qed.

Lemma node_id_head line k : ∃ d r, node_id input line k = function_name input ++ chr ":" :: d :: r ∧ 48 ≤ d ≤ 57.
Proof.
  unfold node_id. pose proof (fmt_u_all_digits line) as Hd. pose proof (fmt_u_nonempty line) as Hn.
  destruct (fmt_u line) as [|d r]; [done|]. exists d. eexists. split; [done|].
  cbn in Hd. apply andb_prop in Hd as [Hd _]. by apply is_ascii_digit_spec.
Qed.

Lemma entry_not_node line k : entry input ≠ node_id input line k.
Proof.
  destruct (node_id_head line k) as (d & r & -> & Hd). intros E. apply app_inv_head in E. injection E as <- _. destruct Hd as [_ Hd]. by destruct Hd.
Qed.

Lemma exit_not_node line k : exit input ≠ node_id input line k.
Proof.
  destruct (node_id_head line k) as (d & r & -> & Hd). intros E. apply app_inv_head in E. injection E as <- _. destruct Hd as [_ Hd]. by destruct Hd.
Qed.

Lemma entry_not_exit : entry input ≠ exit input.
Proof. intros E. by apply app_inv_head in E. Qed.

(** ** The builder grows *)

Record grown (b b' : PdgBuilder) : Prop := {
  gr_nodes : ∀ id n, nodes b !! id = Some n → nodes b' !! id = Some n;
  gr_facts : ∀ id f, facts b !! id = Some f → facts b' !! id = Some f;
  gr_edges : ∀ e, e ∈ edges b → e ∈ edges b';
  gr_created : ∃ l, created b' = created b ++ l;
}.

#[export] Instance grown_preorder : PreOrder grown.
Proof.
  split.
  - intros b. split; auto. exists []. by rewrite app_nil_r.
  - intros b1 b2 b3 [N1 F1 E1 [l1 C1]] [N2 F2 E2 [l2 C2]]. split; auto. exists (l1 ++ l2). by rewrite C2, C1, app_assoc.
Qed.

Lemma grown_trans b1 b2 b3 : grown b1 b2 → grown b2 b3 → grown b1 b3.
Proof. intros. by transitivity b2. Qed.

(** A node of the graph, an edge of control. *)
Definition known (b : PdgBuilder) (id : str) : Prop := is_Some (nodes b !! id).
Definition control_kind (k : str) : Prop := starts_with (lit "control:") k = true.

Record built (b : PdgBuilder) : Prop := {
  bt_next : 0 ≤ next_node b;
  bt_created : ∀ id, id ∈ created b → ∃ line k, id = node_id input line k ∧ 0 ≤ k < next_node b;
  bt_nodes : ∀ id, known b id ↔ id = entry input ∨ id = exit input ∨ id ∈ created b;
  bt_facts : ∀ id, is_Some (facts b !! id) ↔ id = entry input ∨ id ∈ created b;
  bt_edges : ∀ e, e ∈ edges b →
    variable e = None ∧ control_kind (edge_kind e) ∧ known b (source_node e) ∧ known b (target_node e);
  bt_entry : facts b !! entry input = Some {| nf_definitions := list_to_set (params input); nf_uses := ∅; nf_sinks := ∅ |};
}.

Definition sourced (b : PdgBuilder) (l : list Incoming) : Prop :=
  ∀ i, i ∈ l → known b (in_node i) ∧ control_kind (in_kind i).

Lemma known_grown b b' id : grown b b' → known b id → known b' id.
Proof. intros Hg [n Hn]. exists n. by apply Hg. Qed.

Lemma sourced_grown b b' l : grown b b' → sourced b l → sourced b' l.
Proof. intros Hg Hl i Hi. destruct (Hl i Hi). split; [by eapply known_grown|done]. Qed.

Lemma sourced_app b l k : sourced b (l ++ k) ↔ sourced b l ∧ sourced b k.
Proof.
  split.
  - intros H. split; intros i Hi; apply H, elem_of_app; auto.
  - intros [Hl Hk] i [Hi|Hi]%elem_of_app; auto.
Qed.

Lemma sourced_nil b : sourced b [].
Proof. intros i Hi. by apply elem_of_nil in Hi. Qed.

Lemma sourced_one b id kind : known b id → control_kind (lit kind) → sourced b [from id kind].
Proof. intros Hk Hc i ->%list_elem_of_singleton. done. Qed.

Lemma sourced_map b kind l : control_kind (lit kind) → sourced b l → sourced b (map (λ i, from (in_node i) kind) l).
Proof. intros Hc Hl i (j & -> & Hj)%elem_of_map. by destruct (Hl j Hj). Qed.

Lemma new_builder_built : built (new_builder input).
Proof.
  pose proof entry_not_exit as Hee. split; cbn [new_builder nodes facts edges next_node created].
  - done.
  - intros id Hid. by apply elem_of_nil in Hid.
  - intros id. unfold known. cbn [new_builder nodes]. rewrite !lookup_insert_is_Some', lookup_empty, elem_of_nil.
    split; [intros [<-|[<-|[? [=]]]]|intros [->|[->|[]]]]; auto.
  - intros id. rewrite elem_of_nil. split.
    + intros [f [-> _]%lookup_singleton_Some]. by left.
    + intros [->|[]]. by rewrite lookup_singleton_eq.
  - intros e He. by apply elem_of_nil in He.
  - by rewrite lookup_singleton_eq.
Qed.

Lemma add_control_grown s t k b : grown b (add_control s t k b).
Proof.
  split; cbn; [done|done| |exists []; by rewrite app_nil_r]. intros e He. apply elem_of_app. by left.
Qed.

Lemma add_control_built s t k b :
  built b → known b s → known b t → control_kind k → built (add_control s t k b).
Proof.
  intros [H1 H2 H3 H4 H5 H6] Hs Ht Hk. split; try done.
  intros e [He| ->%list_elem_of_singleton]%elem_of_app; [by apply H5|done].
Qed.

Lemma wire_grown l t b : grown b (wire l t b).
Proof.
  unfold wire. revert b. induction l as [|i l IH]; intros b; cbn [foldl]; [done|].
  etrans; [apply add_control_grown|apply IH].
Qed.

Lemma wire_built l t b : built b → sourced b l → known b t → built (wire l t b).
Proof.
  unfold wire. revert b. induction l as [|i l IH]; intros b Hb Hl Ht; cbn [foldl]; [done|].
  destruct (Hl i) as [Hi Hk]; [by left|]. apply IH.
  - by apply add_control_built.
  - intros j Hj. apply (Hl j). by right.
  - done.
Qed.

Lemma wire_edge l t b i : i ∈ l →
  {| source_node := in_node i; target_node := t; edge_kind := in_kind i; variable := None |} ∈ edges (wire l t b).
Proof.
  revert b. induction l as [|j l IH]; intros b Hi; [by apply elem_of_nil in Hi|].
  apply elem_of_cons in Hi as [->|Hi]; [|by apply IH]. apply (gr_edges _ _ (wire_grown l t _)).
  cbn. apply elem_of_app. right. by left.
Qed.

Lemma add_node_spec line kind fs b id b' :
  built b → add_node input line kind fs b = (id, b') →
  built b' ∧ grown b b' ∧ known b' id ∧ facts b' !! id = Some fs ∧ created b' = created b ++ [id]
  ∧ (id ∉ created b)
  ∧ nodes b' !! id = Some {| cn_id := id; cn_kind := kind; cn_symbol := function_name input; leader_line := line;
                            line_range := (line, line) |}.
Proof.
  intros Hb [= <- <-]. set (id := node_id input line (next_node b)).
  assert (Hfresh : id ∉ created b).
  { intros (l & k & E & Hk)%(bt_created _ Hb). apply node_id_inj in E; [lia|apply Hb|lia]. }
  assert (Hnew : nodes b !! id = None).
  { apply eq_None_not_Some. intros [E|[E|?]]%(bt_nodes _ Hb); [|by symmetry in E; apply exit_not_node in E|done].
    by symmetry in E; apply entry_not_node in E. }
  assert (Hnewf : facts b !! id = None).
  { apply eq_None_not_Some. intros [E|?]%(bt_facts _ Hb); [by symmetry in E; apply entry_not_node in E|done]. }
  assert (Hg : grown b {| nodes := <[id := {| cn_id := id; cn_kind := kind; cn_symbol := function_name input;
      leader_line := line; line_range := (line, line) |}]> (nodes b); facts := <[id := fs]> (facts b); edges := edges b;
      next_node := next_node b + 1; created := created b ++ [id] |}).
  { split; cbn; [| |done|by eexists].
    - intros j n Hj. rewrite lookup_insert_ne; [done|]. intros <-. congruence.
    - intros j f Hj. rewrite lookup_insert_ne; [done|]. intros <-. congruence. }
  split; [|split; [done|]].
  - split; cbn [nodes facts edges next_node created].
    + pose proof (bt_next _ Hb). lia.
    + intros j [Hj| ->%list_elem_of_singleton]%elem_of_app.
      * destruct (bt_created _ Hb j Hj) as (l & k & -> & ?). exists l, k. split; [done|lia].
      * exists line, (next_node b). split; [done|]. pose proof (bt_next _ Hb). lia.
    + intros j. unfold known. cbn [nodes]. rewrite lookup_insert_is_Some', elem_of_app, list_elem_of_singleton.
      change (is_Some (nodes b !! j)) with (known b j). rewrite (bt_nodes _ Hb). intuition congruence.
    + intros j. rewrite lookup_insert_is_Some', elem_of_app, list_elem_of_singleton, (bt_facts _ Hb).
      intuition congruence.
    + intros e He. destruct (bt_edges _ Hb e He) as (? & ? & ? & ?). split; [done|]. split; [done|].
      split; by eapply known_grown.
    + rewrite lookup_insert_ne by (symmetry; apply entry_not_node). apply Hb.
  - unfold known. cbn [nodes facts created]. rewrite !lookup_insert_eq. repeat split; [by eexists|done].
Qed.

(** ** Every step of the walk keeps this *)

Definition grows (b : PdgBuilder) (flow : Flow) (b' : PdgBuilder) : Prop :=
  built b' ∧ grown b b' ∧ sourced b' (normal flow) ∧ sourced b' (abrupt flow).

Definition keeps (inner : list PdgStatement → list Incoming → PdgBuilder → result (Flow * PdgBuilder) PdgError) : Prop :=
  ∀ stmts inc b flow b', built b → sourced b inc → inner stmts inc b = Ok (flow, b') → grows b flow b'.

Lemma grows_absorb b out1 b1 out2 b2 : grows b out1 b1 → grows b1 out2 b2 → grows b (absorb out1 out2) b2.
Proof.
  intros (_ & G1 & N1 & A1) (B2 & G2 & N2 & A2). split; [done|]. split; [eauto using grown_trans|].
  cbn [absorb normal abrupt]. rewrite !sourced_app. split; (split; [by eapply sourced_grown|done]).
Qed.

Lemma grows_later b0 b flow b' : grown b0 b → grows b flow b' → grows b0 flow b'.
Proof. intros G (B & G' & H). split; [done|]. split; [eauto using grown_trans|done]. Qed.

Section Inner.
Variable inner : list PdgStatement → list Incoming → PdgBuilder → result (Flow * PdgBuilder) PdgError.
Hypothesis Hinner : keeps inner.

Lemma build_arms_keeps arms o out b o' out' b0 b' :
  grows b0 out b → sourced b [o] → built b → build_arms input inner arms o out b = Ok (o', out', b') →
  grows b0 out' b' ∧ sourced b' [o'] ∧ grown b b'.
Proof.
  revert o out b. induction arms as [|[test arm] rest IH]; intros o out b Hg Ho Hb; cbn [build_arms].
  { intros [= <- <- <-]. done. }
  destruct (add_node _ _ _ _ _) as [node b1] eqn:E1. destruct (add_node_spec _ _ _ _ _ _ Hb E1) as (B1 & G1 & K1 & _).
  destruct (Ho o) as [Ko Co]; [by left|].
  set (b2 := add_control (in_node o) node (in_kind o) b1).
  assert (G2 : grown b1 b2) by apply add_control_grown.
  assert (B2 : built b2) by (apply add_control_built; [done|by eapply known_grown|done..]).
  assert (K2 : known b2 node) by (by eapply known_grown).
  destruct (inner arm _ b2) as [[arm_flow b3]|] eqn:E3; [|done]. intros E.
  assert (H3 : grows b2 arm_flow b3) by (eapply Hinner; [exact B2| |exact E3]; by apply sourced_one).
  assert (Gb : grown b b3) by (etrans; [exact G1|]; etrans; [exact G2|apply H3]).
  destruct (IH (from node "control:false") (absorb out arm_flow) b3) as (R1 & R2 & R3); [| | |done|].
  - eapply grows_absorb; [exact Hg|]. eapply grows_later; [|exact H3]. eauto using grown_trans.
  - apply sourced_one; [|done]. eapply known_grown; [apply H3|done].
  - apply H3.
  - split; [done|]. split; [done|]. eauto using grown_trans.
Qed.

Lemma build_handlers_keeps handlers header dispatch out b0 b out' b' :
  grows b0 out b → known b header → known b dispatch →
  build_handlers inner handlers header dispatch out b = Ok (out', b') → grows b0 out' b' ∧ grown b b'.
Proof.
  revert out b. induction handlers as [|h rest IH]; intros out b Hg Kh Kd; cbn [build_handlers].
  { by intros [= <- <-]. }
  destruct (inner h _ b) as [[caught b1]|] eqn:E1; [|done]. intros E.
  assert (H1 : grows b caught b1).
  { eapply Hinner; [apply Hg| |exact E1]. intros i [->|[->|Hi]%elem_of_cons]%elem_of_cons; [done..|by apply elem_of_nil in Hi]. }
  assert (Gb : grown b b1) by apply H1.
  destruct (IH (absorb out caught) b1) as [R1 R2]; [by eapply grows_absorb|by eapply known_grown..|done|].
  split; [done|eauto using grown_trans].
Qed.

Lemma build_finally_keeps fin out b0 b out' b' :
  grows b0 out b → build_finally inner fin out b = Ok (out', b') → grows b0 out' b'.
Proof.
  intros (Hb & Hg & Hn & Ha). unfold build_finally. destruct (inner fin _ b) as [[f b1]|] eqn:E1; [|done].
  intros [= <- <-]. assert (H1 : grows b f b1).
  { eapply Hinner; [exact Hb| |exact E1]. by apply sourced_map, sourced_app. }
  destruct H1 as (B1 & G1 & N1 & A1). split; [done|]. split; [eauto using grown_trans|]. split; cbn [normal abrupt].
  - destruct (normal out); [apply sourced_nil|done].
  - apply sourced_app. split; [done|]. destruct (abrupt out); [apply sourced_nil|by apply sourced_map].
Qed.

Lemma raisers_known b n : built b → sourced b (map (λ r, from r "control:exception") (drop n (created b))).
Proof.
  intros Hb i (r & -> & Hr)%elem_of_map. split; [|done]. apply (bt_nodes _ Hb). right. right.
  apply list_elem_of_In in Hr. apply list_elem_of_In. rewrite <- (take_drop n (created b)). apply in_app_iff. by right.
Qed.

Lemma build_guards_keeps line header raisers handlers fin b0 out b flow b' :
  grows b0 out b → known b header → sourced b (map (λ r, from r "control:exception") raisers) →
  build_guards input inner line header raisers handlers fin out b = Ok (flow, b') → grows b0 flow b'.
Proof.
  intros (B1 & G1 & N1 & A1) Kh Hr. unfold build_guards. destruct (add_node _ _ _ _ b) as [d b2] eqn:E2.
  destruct (add_node_spec _ _ _ _ _ _ B1 E2) as (B2 & G2 & K2 & _). set (b3 := wire _ d b2).
  assert (G3 : grown b2 b3) by apply wire_grown.
  assert (B3 : built b3) by (apply wire_built; [done|by eapply sourced_grown|done]).
  assert (Kd : known b3 d) by (by eapply known_grown). assert (G : grown b b3) by (eauto using grown_trans).
  assert (H3 : grows b0 out b3).
  { split; [done|]. split; [eauto using grown_trans|]. split; by eapply sourced_grown. }
  destruct (build_handlers _ _ _ _ _ _) as [[out4 b4]|] eqn:E4; [|done].
  destruct (build_handlers_keeps _ _ _ _ _ _ _ _ H3 (known_grown _ _ _ G Kh) Kd E4) as [H4 G4].
  assert (H5 : grows b0 {| normal := normal out4; abrupt := abrupt out4 ++ [from d "control:unhandled"] |} b4).
  { destruct H4 as (B4 & G4' & N4 & A4). split; [done|]. split; [done|]. split; [done|]. cbn [abrupt]. apply sourced_app.
    split; [done|]. apply sourced_one; [by eapply known_grown|done]. }
  destruct fin; [by intros [= <- <-]|]. by apply build_finally_keeps.
Qed.

Lemma build_try_keeps line header try_body handlers fin b flow b' :
  built b → known b header → build_try input inner line header try_body handlers fin b = Ok (flow, b') →
  grows b flow b'.
Proof.
  intros Hb Kh. unfold build_try. destruct (inner try_body _ b) as [[out b1]|] eqn:E1; [|done].
  assert (H1 : grows b out b1) by (eapply Hinner; [exact Hb| |exact E1]; by apply sourced_one).
  assert (Kh1 : known b1 header) by (eapply known_grown; [apply H1|done]).
  pose proof (raisers_known b1 (length (created b)) (proj1 H1)) as Hr.
  destruct handlers, fin; [by intros [= <- <-]|by apply build_guards_keeps..].
Qed.

Lemma build_kind_keeps s node b flow b' :
  built b → known b node → build_kind input inner s node b = Ok (flow, b') → grows b flow b'.
Proof.
  intros Hb Kn. unfold build_kind. destruct (kind_of s) as [|th arms el|lp|tb hs fin| |].
  - intros [= <- <-]. split; [done|]. split; [done|]. split; [by apply sourced_one|apply sourced_nil].
  - destruct (inner th _ b) as [[out b1]|] eqn:E1; [|done].
    assert (H1 : grows b out b1) by (eapply Hinner; [exact Hb| |exact E1]; by apply sourced_one).
    destruct (build_arms _ _ _ _ _ _) as [[[o out2] b2]|] eqn:E2; [|done].
    assert (S1 : sourced b1 [from node "control:false"]) by (apply sourced_one; [eapply known_grown; [apply H1|done]|done]).
    destruct (build_arms_keeps _ _ _ _ _ _ _ _ H1 S1 (proj1 H1) E2) as (H2 & Ho & _).
    destruct (inner el _ b2) as [[last b3]|] eqn:E3; [|done]. intros [= <- <-].
    eapply grows_absorb; [exact H2|]. eapply Hinner; [apply H2|exact Ho|exact E3].
  - destruct (inner lp _ b) as [[tails b1]|] eqn:E1; [|done]. intros [= <- <-].
    assert (H1 : grows b tails b1) by (eapply Hinner; [exact Hb| |exact E1]; by apply sourced_one).
    destruct H1 as (B1 & G1 & N1 & A1). assert (K1 : known b1 node) by (by eapply known_grown).
    set (b2 := wire _ node b1). assert (G2 : grown b1 b2) by apply wire_grown.
    split; [by apply wire_built; [|apply sourced_map|]|]. split; [eauto using grown_trans|]. split; cbn [normal abrupt].
    + apply sourced_one; [by eapply known_grown|done].
    + by eapply sourced_grown.
  - by apply build_try_keeps.
  - intros [= <- <-]. split; [done|]. split; [done|]. split; [apply sourced_nil|by apply sourced_one].
  - intros [= <- <-]. split; [done|]. split; [done|]. split; [apply sourced_nil|by apply sourced_one].
Qed.

Lemma build_list_keeps stmts flow b0 b flow' b' :
  grows b0 flow b → build_list input inner stmts flow b = Ok (flow', b') → grows b0 flow' b'.
Proof.
  revert flow b. induction stmts as [|s rest IH]; intros flow b Hg; cbn [build_list]; [by intros [= <- <-]|].
  destruct (normal flow) as [|i l] eqn:En; [by intros [= <- <-]|]. rewrite <- En. clear i l En.
  destruct (add_statement_node _ _ _) as [node b1] eqn:E1. pose proof Hg as (B0 & G0 & N0 & A0).
  destruct (add_node_spec _ _ _ _ _ _ B0 E1) as (B1 & G1 & K1 & _). set (b2 := wire _ node b1).
  assert (G2 : grown b1 b2) by apply wire_grown.
  assert (B2 : built b2) by (apply wire_built; [done|by eapply sourced_grown|done]).
  destruct (build_kind _ _ _ _ b2) as [[after b3]|] eqn:E3; [|done].
  assert (H3 : grows b2 after b3) by (eapply build_kind_keeps; [exact B2|by eapply known_grown|exact E3]).
  apply IH. destruct H3 as (B3 & G3 & N3 & A3). assert (G : grown b b3) by (etrans; [exact G1|]; eauto using grown_trans).
  split; [done|]. split; [eauto using grown_trans|]. split; [done|]. cbn [abrupt]. apply sourced_app. split; [by eapply sourced_grown|done].
Qed.

End Inner.

Lemma sourced_dedup b l : sourced b (dedup_runs (sort_by incoming_leb l)) ↔ sourced b l.
Proof. unfold sourced. by setoid_rewrite elem_of_sorted_dedup. Qed.

Lemma build_sequence_keeps levels : keeps (build_sequence input levels).
Proof.
  induction levels as [|l IH]; intros stmts inc b flow b' Hb Hi; cbn [build_sequence]; [done|].
  destruct (build_list _ _ _ _ _) as [[f b1]|] eqn:E; [|done]. intros [= <- <-].
  assert (H : grows b f b1).
  { eapply build_list_keeps; [exact IH| |exact E]. split; [done|]. split; [done|]. split; [done|apply sourced_nil]. }
  destruct H as (? & ? & ? & ?). split; [done|]. split; [done|]. cbn [dedup normal abrupt]. by rewrite !sourced_dedup.
Qed.

(** The graph of control, whole. *)
Lemma control_graph_built b : control_graph input = Ok b → built b.
Proof.
  unfold control_graph. destruct (build_sequence _ _ _ _ _) as [[flow b1]|] eqn:E; [|done]. intros [= <-].
  pose proof new_builder_built as H0. assert (K0 : known (new_builder input) (entry input)).
  { apply (bt_nodes _ H0). by left. }
  destruct (build_sequence_keeps _ _ _ _ _ _ H0 (sourced_one _ _ "control:entry" K0 eq_refl) E) as (B & G & N & A).
  apply wire_built; [done|by apply sourced_app|]. apply (bt_nodes _ B). by right; left.
Qed.

End Names.

(** ** A tree that validates is built *)

Section Accepted.
Variable input : FunctionPdgInput.
Variables (first last : Z).

Definition accepts (check : list PdgStatement → Z → result Z PdgError)
    (inner : list PdgStatement → list Incoming → PdgBuilder → result (Flow * PdgBuilder) PdgError) : Prop :=
  ∀ stmts n n', check stmts n = Ok n' → ∀ inc b, ∃ flow b', inner stmts inc b = Ok (flow, b').

Section Inner.
Variable check : list PdgStatement → Z → result Z PdgError.
Variable inner : list PdgStatement → list Incoming → PdgBuilder → result (Flow * PdgBuilder) PdgError.
Hypothesis Hinner : accepts check inner.

Lemma arms_accepted arms n n' :
  validate_arms first last check arms n = Ok n' →
  ∀ o out b, ∃ r, build_arms input inner arms o out b = Ok r.
Proof.
  revert n. induction arms as [|[test arm] rest IH]; intros n; cbn [validate_arms build_arms]; [by eauto|].
  destruct (validate_point _ _ _ _); [|done]. destruct (check arm _) eqn:E; [|done]. intros Hr o out b.
  destruct (add_node _ _ _ _ _) as [node b1]. destruct (Hinner _ _ _ E [from node "control:true"]
    (add_control (in_node o) node (in_kind o) b1)) as (flow & b2 & ->). by eapply IH.
Qed.

Lemma handlers_accepted handlers n n' :
  validate_handlers check handlers n = Ok n' →
  ∀ header dispatch out b, ∃ r, build_handlers inner handlers header dispatch out b = Ok r.
Proof.
  revert n. induction handlers as [|h rest IH]; intros n; cbn [validate_handlers build_handlers]; [by eauto|].
  destruct (check h _) eqn:E; [|done]. intros Hr header dispatch out b.
  destruct (Hinner _ _ _ E [from header "control:exception"; from dispatch "control:exception"] b) as (flow & b2 & ->).
  by eapply IH.
Qed.

Lemma kind_accepted s n n' :
  validate_kind first last check (kind_of s) n = Ok n' → ∀ node b, ∃ r, build_kind input inner s node b = Ok r.
Proof.
  unfold build_kind. destruct (kind_of s) as [|th arms el|lp|tb hs fin| |]; cbn [validate_kind]; intros Hv node b; eauto.
  - destruct (check th _) eqn:E1; [|done]. destruct (validate_arms _ _ _ _ _) eqn:E2; [|done].
    destruct (Hinner _ _ _ E1 [from node "control:true"] b) as (f1 & b1 & ->).
    destruct (arms_accepted _ _ _ E2 (from node "control:false") f1 b1) as [[[o out] b2] ->].
    destruct (Hinner _ _ _ Hv [o] b2) as (f3 & b3 & ->). eauto.
  - destruct (Hinner _ _ _ Hv [from node "control:true"] b) as (f1 & b1 & ->). eauto.
  - destruct (check tb _) eqn:E1; [|done]. destruct (validate_handlers _ _ _) eqn:E2; [|done]. unfold build_try.
    destruct (Hinner _ _ _ E1 [from node "control:try"] b) as (f1 & b1 & ->).
    assert (Hg : ∃ r, build_guards input inner (pt_line (point_of s)) node (drop (length (created b)) (created b1)) hs fin f1 b1
      = Ok r); [|destruct hs, fin; eauto].
    unfold build_guards. destruct (add_node _ _ _ _ b1) as [d b2].
    destruct (handlers_accepted _ _ _ E2 node d f1 (wire (map (λ r, from r "control:exception")
      (drop (length (created b)) (created b1))) d b2)) as [[f3 b3] ->].
    destruct fin as [|x fin]; [by eauto|]. unfold build_finally.
    match goal with |- context [inner (x :: fin) ?l ?c] => destruct (Hinner _ _ _ Hv l c) as (f & b4 & ->) end. eauto.
Qed.

Lemma list_accepted stmts n n' :
  validate_list first last check stmts n = Ok n' → ∀ flow b, ∃ r, build_list input inner stmts flow b = Ok r.
Proof.
  revert n. induction stmts as [|s rest IH]; intros n; cbn [validate_list build_list]; [by eauto|].
  destruct (validate_point _ _ _ _); [|done]. destruct (validate_kind _ _ _ _ _) eqn:E; [|done]. intros Hr flow b.
  destruct (normal flow) eqn:En; [by eauto|]. rewrite <- En. destruct (add_statement_node _ _ _) as [node b1].
  destruct (kind_accepted _ _ _ E node (wire (normal flow) node b1)) as [[after b2] ->]. by eapply IH.
Qed.

End Inner.

Lemma statements_accepted levels : accepts (validate_statements levels first last) (build_sequence input levels).
Proof.
  induction levels as [|l IH]; intros stmts n n' Hv inc b; cbn [validate_statements build_sequence] in *; [done|].
  destruct (list_accepted _ _ IH _ _ _ Hv {| normal := inc; abrupt := [] |} b) as [[f b'] ->]. eauto.
Qed.

End Accepted.

Lemma validate_builds_control input : validate input = Ok tt → ∃ b, control_graph input = Ok b.
Proof.
  unfold validate. case_if; [done|]. case_if; [done|]. destruct (check_params _ _); [|done].
  destruct (validate_statements _ _ _ _ _) eqn:E; [|done]. intros _. unfold control_graph.
  destruct (statements_accepted input _ _ _ _ _ _ E [from (entry input) "control:entry"] (new_builder input))
    as (flow & b & ->). eauto.
Qed.

End PdgFacts.
