(* ===== verification/PdgPaths.v ===== *)
(** * Runs of a function, and the graph that follows them

    A natural semantics of the statement trees, whose steps are the points of control a
    run passes. An exception may follow any step. The graph of control has no way for two
    of them: into a [finally] before the first statement of its body, and into a [finally]
    out of a handler. The runs without those two are [Routed], the others are runs of [Any]
    alone; [runs_have_paths] is the simulation of the first. *)

From S2P Require Import Prelude RustStr RustStrFacts Order Pdg PdgFacts.
Import Pdg PdgFacts.

#[local] Open Scope Z_scope.

#[local] Set Warnings "-register-all".

Module PdgRuns.

Record Step := { step_kind : CfgNodeKind; step_line : Z; step_facts : NodeFacts }.

Definition step_of (s : PdgStatement) : Step :=
  {| step_kind := statement_kind (kind_of s); step_line := pt_line (point_of s); step_facts := node_facts (point_of s) |}.

Definition test_step (p : Point) : Step :=
  {| step_kind := NodeBranch; step_line := pt_line p; step_facts := node_facts p |}.

(** Where the exceptions of a [try] body are dispatched. *)
Definition dispatch_step (s : PdgStatement) : Step :=
  {| step_kind := ExceptionDispatch; step_line := pt_line (point_of s); step_facts := no_facts |}.

(** How a run of a statement ends: on to the next one, out of the function through the
    [finally] blocks around it, or with an exception that follows its last step. *)
Inductive outcome : Type := Onward | Outward | Thrown.

(** Which exceptions a run may meet: those the graph has edges for, or any. *)
Inductive Exceptions : Type := Routed | Any.

Section Shapes.
Variable exceptions : Exceptions.
(** The runs of one statement, after its own step. *)
Variable R : PdgStatement → list Step → outcome → Prop.

Inductive runs : list PdgStatement → list Step → outcome → Prop :=
  | runs_nil : runs [] [] Onward
  | runs_next s rest t1 t2 o : R s t1 Onward → runs rest t2 o → runs (s :: rest) (step_of s :: t1 ++ t2) o
  | runs_stop s rest t o : R s t o → o ≠ Onward → runs (s :: rest) (step_of s :: t) o.

(** The tests of the [elif] arms, then the [else]. *)
Inductive tests (else_body : list PdgStatement) : list (Point * list PdgStatement) → list Step → outcome → Prop :=
  | tests_else t o : runs else_body t o → tests else_body [] t o
  | tests_take p arm rest t o : runs arm t o → tests else_body ((p, arm) :: rest) (test_step p :: t) o
  | tests_skip p arm rest t o : tests else_body rest t o → tests else_body ((p, arm) :: rest) (test_step p :: t) o
  | tests_throw p arm rest : tests else_body ((p, arm) :: rest) [test_step p] Thrown.

Inductive turns (head : Step) (loop_body : list PdgStatement) : list Step → outcome → Prop :=
  | turns_done : turns head loop_body [] Onward
  | turns_throw : turns head loop_body [] Thrown
  | turns_again t1 t2 o : runs loop_body t1 Onward → turns head loop_body t2 o →
      turns head loop_body (t1 ++ head :: t2) o
  | turns_out t o : runs loop_body t o → o ≠ Onward → turns head loop_body t o.

(** A body and its handlers. An exception of the body is caught by some handler, or by
    none and leaves; one raised before the first step of the body is caught too. *)
Inductive tried (dispatch : Step) (try_body : list PdgStatement) (handlers : list (list PdgStatement))
    : list Step → outcome → Prop :=
  | tried_body t o : runs try_body t o → o ≠ Thrown → tried dispatch try_body handlers t o
  | tried_early h t o : h ∈ handlers → runs h t o → tried dispatch try_body handlers t o
  | tried_caught h t1 t2 o : runs try_body t1 Thrown → h ∈ handlers → runs h t2 o →
      tried dispatch try_body handlers (t1 ++ dispatch :: t2) o
  | tried_unhandled t o : runs try_body t Thrown → o ≠ Onward → tried dispatch try_body handlers (t ++ [dispatch]) o.

(** The [finally] runs after everything that leaves the rest. The last four are the
    exceptions without edges: before the first statement of the body, and out of a handler. *)
Inductive guarded (dispatch : Step) (try_body : list PdgStatement) (handlers : list (list PdgStatement))
    : list PdgStatement → list Step → outcome → Prop :=
  | guarded_plain t o : tried dispatch try_body handlers t o → guarded dispatch try_body handlers [] t o
  | guarded_onward fin t1 t2 : fin ≠ [] → tried dispatch try_body handlers t1 Onward → runs fin t2 Onward →
      guarded dispatch try_body handlers fin (t1 ++ t2) Onward
  | guarded_outward fin t1 t2 o : fin ≠ [] → tried dispatch try_body handlers t1 Outward → runs fin t2 Onward →
      o ≠ Onward → guarded dispatch try_body handlers fin (t1 ++ t2) o
  | guarded_finally fin t1 t2 o1 o : fin ≠ [] → tried dispatch try_body handlers t1 o1 → o1 ≠ Thrown → runs fin t2 o →
      o ≠ Onward → guarded dispatch try_body handlers fin (t1 ++ t2) o
  | guarded_early fin t o : exceptions = Any → fin ≠ [] → runs fin t Onward → o ≠ Onward →
      guarded dispatch try_body handlers fin t o
  | guarded_early_finally fin t o : exceptions = Any → fin ≠ [] → runs fin t o → o ≠ Onward →
      guarded dispatch try_body handlers fin t o
  | guarded_rethrown fin t1 t2 o : exceptions = Any → fin ≠ [] → tried dispatch try_body handlers t1 Thrown → runs fin t2 Onward →
      o ≠ Onward → guarded dispatch try_body handlers fin (t1 ++ t2) o
  | guarded_rethrown_finally fin t1 t2 o : exceptions = Any → fin ≠ [] → tried dispatch try_body handlers t1 Thrown →
      runs fin t2 o → o ≠ Onward → guarded dispatch try_body handlers fin (t1 ++ t2) o.

End Shapes.

Section Runs.
Variable exceptions : Exceptions.

Inductive exec : PdgStatement → list Step → outcome → Prop :=
  | exec_throw s : exec s [] Thrown
  | exec_basic s : kind_of s = Basic → exec s [] Onward
  | exec_leave s : kind_of s = Return ∨ kind_of s = Raise → exec s [] Outward
  | exec_then s th arms el t o : kind_of s = Branch th arms el → runs exec th t o → exec s t o
  | exec_else s th arms el t o : kind_of s = Branch th arms el → tests exec el arms t o → exec s t o
  | exec_loop s lp t o : kind_of s = Loop lp → turns exec (step_of s) lp t o → exec s t o
  | exec_bare s tb t o : kind_of s = Try tb [] [] → runs exec tb t o → exec s t o
  | exec_try s tb hs fin t o : kind_of s = Try tb hs fin → hs ≠ [] ∨ fin ≠ [] →
      guarded exceptions exec (dispatch_step s) tb hs fin t o → exec s t o.

End Runs.

(** ** Routed runs are runs *)

Section Widen.
Variables R R' : PdgStatement → list Step → outcome → Prop.
Hypothesis HR : ∀ s t o, R s t o → R' s t o.

Fixpoint runs_widen stmts t o (H : runs R stmts t o) {struct H} : runs R' stmts t o :=
  match H with
  | runs_nil _ => runs_nil R'
  | runs_next _ s rest t1 t2 o Hs Hr => runs_next R' s rest t1 t2 o (HR _ _ _ Hs) (runs_widen _ _ _ Hr)
  | runs_stop _ s rest t o Hs Ho => runs_stop R' s rest t o (HR _ _ _ Hs) Ho
  end.

Fixpoint tests_widen el arms t o (H : tests R el arms t o) {struct H} : tests R' el arms t o :=
  match H with
  | tests_else _ _ t o Hr => tests_else R' _ t o (runs_widen _ _ _ Hr)
  | tests_take _ _ p arm rest t o Hr => tests_take R' _ p arm rest t o (runs_widen _ _ _ Hr)
  | tests_skip _ _ p arm rest t o Ht => tests_skip R' _ p arm rest t o (tests_widen _ _ _ _ Ht)
  | tests_throw _ _ p arm rest => tests_throw R' _ p arm rest
  end.

Fixpoint turns_widen head lp t o (H : turns R head lp t o) {struct H} : turns R' head lp t o :=
  match H with
  | turns_done _ _ _ => turns_done R' _ _
  | turns_throw _ _ _ => turns_throw R' _ _
  | turns_again _ _ _ t1 t2 o Hr Ht => turns_again R' _ _ t1 t2 o (runs_widen _ _ _ Hr) (turns_widen _ _ _ _ Ht)
  | turns_out _ _ _ t o Hr Ho => turns_out R' _ _ t o (runs_widen _ _ _ Hr) Ho
  end.

Definition tried_widen d tb hs t o (H : tried R d tb hs t o) : tried R' d tb hs t o :=
  match H with
  | tried_body _ _ _ _ t o Hr Ho => tried_body R' _ _ _ t o (runs_widen _ _ _ Hr) Ho
  | tried_early _ _ _ _ h t o Hh Hr => tried_early R' _ _ _ h t o Hh (runs_widen _ _ _ Hr)
  | tried_caught _ _ _ _ h t1 t2 o H1 Hh H2 => tried_caught R' _ _ _ h t1 t2 o (runs_widen _ _ _ H1) Hh (runs_widen _ _ _ H2)
  | tried_unhandled _ _ _ _ t o Hr Ho => tried_unhandled R' _ _ _ t o (runs_widen _ _ _ Hr) Ho
  end.

Definition guarded_widen d tb hs fin t o (H : guarded Routed R d tb hs fin t o) : guarded Any R' d tb hs fin t o :=
  match H with
  | guarded_plain _ _ _ _ _ t o Ht => guarded_plain Any R' _ _ _ t o (tried_widen _ _ _ _ _ Ht)
  | guarded_onward _ _ _ _ _ fin t1 t2 Hf Ht Hr =>
      guarded_onward Any R' _ _ _ fin t1 t2 Hf (tried_widen _ _ _ _ _ Ht) (runs_widen _ _ _ Hr)
  | guarded_outward _ _ _ _ _ fin t1 t2 o Hf Ht Hr Ho =>
      guarded_outward Any R' _ _ _ fin t1 t2 o Hf (tried_widen _ _ _ _ _ Ht) (runs_widen _ _ _ Hr) Ho
  | guarded_finally _ _ _ _ _ fin t1 t2 o1 o Hf Ht Ho1 Hr Ho =>
      guarded_finally Any R' _ _ _ fin t1 t2 o1 o Hf (tried_widen _ _ _ _ _ Ht) Ho1 (runs_widen _ _ _ Hr) Ho
  | guarded_early _ _ _ _ _ fin t o _ Hf Hr Ho => guarded_early Any R' _ _ _ fin t o eq_refl Hf (runs_widen _ _ _ Hr) Ho
  | guarded_early_finally _ _ _ _ _ fin t o _ Hf Hr Ho =>
      guarded_early_finally Any R' _ _ _ fin t o eq_refl Hf (runs_widen _ _ _ Hr) Ho
  | guarded_rethrown _ _ _ _ _ fin t1 t2 o _ Hf Ht Hr Ho =>
      guarded_rethrown Any R' _ _ _ fin t1 t2 o eq_refl Hf (tried_widen _ _ _ _ _ Ht) (runs_widen _ _ _ Hr) Ho
  | guarded_rethrown_finally _ _ _ _ _ fin t1 t2 o _ Hf Ht Hr Ho =>
      guarded_rethrown_finally Any R' _ _ _ fin t1 t2 o eq_refl Hf (tried_widen _ _ _ _ _ Ht) (runs_widen _ _ _ Hr) Ho
  end.

End Widen.

Fixpoint exec_widen s t o (H : exec Routed s t o) {struct H} : exec Any s t o :=
  match H with
  | exec_throw _ s => exec_throw Any s
  | exec_basic _ s Hk => exec_basic Any s Hk
  | exec_leave _ s Hk => exec_leave Any s Hk
  | exec_then _ s th arms el t o Hk Hr => exec_then Any s th arms el t o Hk (runs_widen _ _ exec_widen _ _ _ Hr)
  | exec_else _ s th arms el t o Hk Ht => exec_else Any s th arms el t o Hk (tests_widen _ _ exec_widen _ _ _ _ Ht)
  | exec_loop _ s lp t o Hk Ht => exec_loop Any s lp t o Hk (turns_widen _ _ exec_widen _ _ _ _ Ht)
  | exec_bare _ s tb t o Hk Hr => exec_bare Any s tb t o Hk (runs_widen _ _ exec_widen _ _ _ Hr)
  | exec_try _ s tb hs fin t o Hk Hne Hg => exec_try Any s tb hs fin t o Hk Hne (guarded_widen _ _ exec_widen _ _ _ _ _ _ Hg)
  end.

Lemma routed_runs_are_runs stmts t o : runs (exec Routed) stmts t o → runs (exec Any) stmts t o.
Proof. exact (runs_widen _ _ exec_widen stmts t o). Qed.

Lemma thrown_nonempty R stmts t : runs R stmts t Thrown → t ≠ [].
Proof. by inversion 1. Qed.

(** ** Paths *)

Definition control_edge (b : PdgBuilder) (u v : str) : Prop :=
  ∃ k, {| source_node := u; target_node := v; edge_kind := k; variable := None |} ∈ edges b.

Fixpoint linked (b : PdgBuilder) (u : str) (ids : list str) : Prop :=
  match ids with [] => True | v :: rest => control_edge b u v ∧ linked b v rest end.

Fixpoint last_from (u : str) (ids : list str) : str :=
  match ids with [] => u | v :: rest => last_from v rest end.

Lemma last_from_app u l k : last_from u (l ++ k) = last_from (last_from u l) k.
Proof. revert u. by induction l as [|v l IH]; intros u; cbn [app last_from]. Qed.

Lemma linked_app b u l k : linked b u (l ++ k) ↔ linked b u l ∧ linked b (last_from u l) k.
Proof. revert u. induction l as [|v l IH]; intros u; cbn [app linked last_from]; [tauto|]. rewrite IH. tauto. Qed.

Lemma last_from_Forall (Q : str → Prop) u ids : Forall Q ids → ids ≠ [] → Q (last_from u ids).
Proof.
  intros HQ. revert u. induction HQ as [|v ids Hv _ IH]; intros u Hn; [done|]. cbn [last_from].
  destruct ids; [done|by apply IH].
Qed.

Definition labelled (b : PdgBuilder) (id : str) (st : Step) : Prop :=
  (∃ n, nodes b !! id = Some n ∧ cn_kind n = step_kind st ∧ leader_line n = step_line st)
  ∧ facts b !! id = Some (step_facts st).

Lemma linked_grown b b' u ids : grown b b' → linked b u ids → linked b' u ids.
Proof.
  intros Hg. revert u. induction ids as [|v ids IH]; intros u; cbn [linked]; [done|].
  intros [[k Hk] Hl]. split; [exists k; by apply Hg|by apply IH].
Qed.

Lemma labelled_grown b b' id st : grown b b' → labelled b id st → labelled b' id st.
Proof. intros Hg [(n & Hn & ? & ?) Hf]. split; [|by apply Hg]. exists n. split; [by apply Hg|done]. Qed.

Lemma labels_grown b b' ids t : grown b b' → Forall2 (labelled b) ids t → Forall2 (labelled b') ids t.
Proof. intros Hg Hl. eapply Forall2_impl; [exact Hl|]. intros id st. by apply labelled_grown. Qed.

(** Created between [b] and [b']. *)
Definition fresh (b b' : PdgBuilder) (id : str) : Prop := ∃ l, created b' = created b ++ l ∧ id ∈ l.

Lemma fresh_later b b1 b2 id : fresh b b1 id → grown b1 b2 → fresh b b2 id.
Proof.
  intros (l & E1 & Hid) [_ _ _ [k E2]]. exists (l ++ k). split; [by rewrite E2, E1, app_assoc|].
  apply elem_of_app. by left.
Qed.

Lemma fresh_earlier b0 b b' id : fresh b b' id → grown b0 b → fresh b0 b' id.
Proof.
  intros (l & E1 & Hid) [_ _ _ [k E2]]. exists (k ++ l). split; [by rewrite E1, E2, app_assoc|].
  apply elem_of_app. by right.
Qed.

Lemma fresh_raiser b b' id : fresh b b' id → id ∈ drop (length (created b)) (created b').
Proof. intros (l & -> & Hid). by rewrite drop_app_length. Qed.

(** Where a run that ended with [o] has left control. *)
Definition lands (out : Flow) (o : outcome) (id : str) : Prop :=
  match o with
  | Onward => ∃ i, i ∈ normal out ∧ in_node i = id
  | Outward => ∃ i, i ∈ abrupt out ∧ in_node i = id
  | Thrown => True
  end.

Definition below (out out' : Flow) : Prop :=
  (∀ i, i ∈ normal out → i ∈ normal out') ∧ (∀ i, i ∈ abrupt out → i ∈ abrupt out').

Lemma lands_below out out' o id : below out out' → lands out o id → lands out' o id.
Proof. intros [Hn Ha]. destruct o; cbn; [intros (i & ? & ?); eauto..|done]. Qed.

Lemma below_trans o1 o2 o3 : below o1 o2 → below o2 o3 → below o1 o3.
Proof. intros [? ?] [? ?]. split; auto. Qed.

Lemma below_absorb_l a b : below a (absorb a b).
Proof. split; intros i Hi; apply elem_of_app; by left. Qed.

Lemma below_absorb_r a b : below b (absorb a b).
Proof. split; intros i Hi; apply elem_of_app; by right. Qed.

(** The run with steps [t] is a path from [u], through nodes that [Q] holds. *)
Definition path_of (Q : str → Prop) (b' : PdgBuilder) (out : Flow) (u : str) (t : list Step) (o : outcome) : Prop :=
  ∃ ids, linked b' u ids ∧ Forall2 (labelled b') ids t ∧ Forall Q ids ∧ lands out o (last_from u ids).

Lemma path_of_mono (Q Q' : str → Prop) b1 b2 out out' u t o :
  grown b1 b2 → below out out' → (∀ id, Q id → Q' id) → path_of Q b1 out u t o → path_of Q' b2 out' u t o.
Proof.
  intros Hg Hb HQ (ids & H1 & H2 & H3 & H4). exists ids. split; [by eapply linked_grown|].
  split; [by eapply labels_grown|]. split; [by eapply Forall_impl|]. by eapply lands_below.
Qed.

Lemma path_of_nil (Q : str → Prop) b' out u o : lands out o u → path_of Q b' out u [] o.
Proof. intros Hl. exists []. repeat split; [constructor|constructor|done]. Qed.

Lemma path_of_cons (Q : str → Prop) b' out u id st t o :
  control_edge b' u id → labelled b' id st → Q id → path_of Q b' out id t o → path_of Q b' out u (st :: t) o.
Proof.
  intros He Hl HQ (ids & H1 & H2 & H3 & H4). exists (id :: ids). split; [done|]. split; [by constructor|].
  split; [by constructor|done].
Qed.

(** A path, then one from where it ends. *)
Lemma path_of_app (Q : str → Prop) b' out1 out u t1 t2 o1 o :
  path_of Q b' out1 u t1 o1 →
  (∀ ids, Forall Q ids → length ids = length t1 → lands out1 o1 (last_from u ids) → path_of Q b' out (last_from u ids) t2 o) →
  path_of Q b' out u (t1 ++ t2) o.
Proof.
  intros (ids & H1 & H2 & H3 & H4) Hnext. destruct (Hnext ids H3 (Forall2_length _ _ _ H2) H4) as (ids2 & K1 & K2 & K3 & K4).
  exists (ids ++ ids2). split; [by apply linked_app|]. split; [by apply Forall2_app|]. split; [by apply Forall_app|].
  by rewrite last_from_app.
Qed.

End PdgRuns.

(** * Every run has a path

    The simulation of [PdgRuns] by the builder, construct by construct. *)

Import Pdg PdgFacts PdgRuns.


Module PdgPaths.

Section Input.
Variable input : FunctionPdgInput.

Abbreviation built := (built input).
Abbreviation builder := (list PdgStatement → list Incoming → PdgBuilder → result (Flow * PdgBuilder) PdgError).

Definition simulates (inner : builder) : Prop :=
  ∀ stmts inc b out b', built b → sourced b inc → inner stmts inc b = Ok (out, b') →
  ∀ t o i, runs (exec Routed) stmts t o → i ∈ inc → path_of (fresh b b') b' out (in_node i) t o.

Lemma wire_control l t b i : i ∈ l → control_edge (wire l t b) (in_node i) t.
Proof. intros Hi. exists (in_kind i). by apply wire_edge. Qed.

Lemma control_grown b b' u v : grown b b' → control_edge b u v → control_edge b' u v.
Proof. intros Hg [k Hk]. exists k. by apply Hg. Qed.

Lemma add_control_edge s t k b : control_edge (add_control s t k b) s t.
Proof. exists k. cbn. apply elem_of_app. right. by left. Qed.

Lemma new_node line kind fs b id b' :
  built b → add_node input line kind fs b = (id, b') →
  built b' ∧ grown b b' ∧ known b' id ∧ fresh b b' id
  ∧ labelled b' id {| step_kind := kind; step_line := line; step_facts := fs |}.
Proof.
  intros Hb E. destruct (add_node_spec _ _ _ _ _ _ _ Hb E) as (B & G & K & F & C & _ & N).
  split; [done|]. split; [done|]. split; [done|]. split; [exists [id]; split; [done|by left]|].
  split; [|done]. by eexists.
Qed.

Section Inner.
Variable inner : builder.
Hypothesis Hkeeps : keeps input inner.
Hypothesis Hsim : simulates inner.

(** [inner] in one step: what it keeps, and its paths. *)
Lemma inner_spec stmts inc b out b' :
  built b → sourced b inc → inner stmts inc b = Ok (out, b') →
  grows input b out b' ∧
  ∀ t o i, runs (exec Routed) stmts t o → i ∈ inc → path_of (fresh b b') b' out (in_node i) t o.
Proof. intros Hb Hi E. split; [by eapply Hkeeps|by eapply Hsim]. Qed.

(** ** [elif] chains *)

(** The run is done within the arms, or goes on to the [else] from their last test. *)
Definition arms_path (b b' : PdgBuilder) (out' : Flow) (u : str) (o' : Incoming) (el : list PdgStatement)
    (t : list Step) (oc : outcome) : Prop :=
  path_of (fresh b b') b' out' u t oc
  ∨ ∃ ids t1 t2, t = t1 ++ t2 ∧ linked b' u ids ∧ Forall2 (labelled b') ids t1 ∧ Forall (fresh b b') ids
      ∧ last_from u ids = in_node o' ∧ runs (exec Routed) el t2 oc.

Lemma arms_path_cons b0 b b' out' u id st o' el t oc :
  grown b0 b → control_edge b' u id → labelled b' id st → fresh b0 b' id → arms_path b b' out' id o' el t oc →
  arms_path b0 b' out' u o' el (st :: t) oc.
Proof.
  intros Hg He Hl Hf [Hp|(ids & t1 & t2 & -> & H1 & H2 & H3 & H4 & H5)].
  - left. eapply path_of_cons; [done..|]. eapply path_of_mono; [reflexivity|by split| |exact Hp]. intros x Hx. eauto using fresh_earlier.
  - right. exists (id :: ids), (st :: t1), t2. split; [done|]. split; [done|]. split; [by constructor|].
    split; [|done]. constructor; [done|]. eapply Forall_impl; [exact H3|]. intros x Hx. eauto using fresh_earlier.
Qed.

Lemma arms_simulate arms o out b o' out' b' :
  built b → sourced b [o] → sourced b (normal out) → sourced b (abrupt out) →
  build_arms input inner arms o out b = Ok (o', out', b') →
  below out out' ∧ ∀ el t oc, tests (exec Routed) el arms t oc → arms_path b b' out' (in_node o) o' el t oc.
Proof.
  intros Hb Ho Hn Ha E. revert o out b Hb Ho Hn Ha E. induction arms as [|[p arm] rest IH]; intros o out b Hb Ho Hn Ha;
    cbn [build_arms].
  { intros [= <- <- <-]. split; [by split|]. intros el t oc Ht. right. exists [], [], t. inversion Ht; subst.
    repeat split; [constructor|constructor|done]. }
  destruct (add_node _ _ _ _ _) as [node b1] eqn:E1. destruct (new_node _ _ _ _ _ _ Hb E1) as (B1 & G1 & K1 & F1 & L1).
  destruct (Ho o) as [Ko Co]; [by left|]. set (b2 := add_control (in_node o) node (in_kind o) b1).
  assert (G2 : grown b1 b2) by apply add_control_grown.
  assert (B2 : built b2) by (apply add_control_built; [done|eauto using known_grown|done..]).
  assert (K2 : known b2 node) by (eauto using known_grown).
  assert (G12 : grown b b2) by (eauto using grown_trans).
  destruct (inner arm _ b2) as [[af b3]|] eqn:E3; [|done]. intros E.
  destruct (inner_spec _ _ _ _ _ B2 (sourced_one _ _ "control:true" K2 eq_refl) E3) as [(B3 & G3 & N3 & A3) P3].
  assert (Kn : known b3 node) by (eauto using known_grown).
  assert (Gb : grown b b3) by (eauto using grown_trans).
  assert (S3 : sourced b3 (normal (absorb out af)) ∧ sourced b3 (abrupt (absorb out af))).
  { cbn [absorb normal abrupt]. rewrite !sourced_app. split; (split; [by apply (sourced_grown b b3)|done]). }
  pose proof (sourced_one b3 node "control:false" Kn eq_refl) as So.
  destruct (IH _ _ _ B3 So (proj1 S3) (proj2 S3) E) as [Hbelow IHt].
  assert (Gr : grown b3 b').
  { eapply (build_arms_keeps input inner Hkeeps rest _ (absorb out af) b3); [|exact So|done|exact E].
    split; [done|]. split; [reflexivity|done]. }
  assert (G2' : grown b2 b') by (eauto using grown_trans).
  split; [eapply below_trans; [apply below_absorb_l|exact Hbelow]|]. intros el t oc Ht.
  assert (Hhead : control_edge b' (in_node o) node ∧ labelled b' node (test_step p) ∧ fresh b b' node).
  { split; [eapply control_grown; [exact G2'|apply add_control_edge]|].
    split; [eapply labelled_grown; [|exact L1]; eauto using grown_trans|].
    eapply fresh_later; [exact F1|]. eauto using grown_trans. }
  destruct Hhead as (He & Hl & Hf). inversion Ht; subst.
  - left. eapply path_of_cons; [done..|]. eapply path_of_mono; [exact Gr| | |exact (P3 _ _ (from node "control:true") ltac:(eassumption) ltac:(by left))].
    + eapply below_trans; [apply below_absorb_r|exact Hbelow].
    + intros x Hx. eapply fresh_earlier; [|exact G12]. eauto using fresh_later.
  - eapply arms_path_cons; [exact Gb|done..|]. by apply IHt.
  - left. eapply path_of_cons; [done..|]. by apply path_of_nil.
Qed.

(** ** Loops *)

Lemma loop_simulates lp node head tails b b1 t o :
  built b → known b node → labelled b node head → inner lp [from node "control:true"] b = Ok (tails, b1) →
  turns (exec Routed) head lp t o →
  let b2 := wire (map (λ i, from (in_node i) "control:loop") (normal tails)) node b1 in
  path_of (λ x, x = node ∨ fresh b b2 x) b2 {| normal := [from node "control:false"]; abrupt := abrupt tails |} node t o.
Proof.
  intros Hb Kn Hl E Ht b2. destruct (inner_spec _ _ _ _ _ Hb (sourced_one _ _ "control:true" Kn eq_refl) E) as [H1 P1].
  assert (G2 : grown b1 b2) by apply wire_grown. assert (G : grown b b2) by (etrans; [apply H1|exact G2]).
  assert (Hbody : ∀ t o, runs (exec Routed) lp t o → path_of (λ x, x = node ∨ fresh b b2 x) b2 tails node t o).
  { intros t' o' Hr. eapply path_of_mono; [exact G2|by split| |exact (P1 _ _ (from node "control:true") Hr ltac:(by left))].
    intros x Hx. right. eauto using fresh_later. }
  assert (Hdone : lands {| normal := [from node "control:false"]; abrupt := abrupt tails |} Onward node).
  { exists (from node "control:false"). split; [by left|done]. }
  induction Ht as [| |t1 t2 o Hr _ IH|t o Hr Ho].
  - by apply path_of_nil.
  - by apply path_of_nil.
  - eapply path_of_app; [exact (Hbody _ _ Hr)|]. intros ids _ _ (i & Hi & <-).
    eapply path_of_cons; [| |by left|exact IH].
    + apply (wire_control _ _ _ (from (in_node i) "control:loop")). apply elem_of_map. eauto.
    + eauto using labelled_grown.
  - destruct (Hbody _ _ Hr) as (ids & H2 & H3 & H4 & H5). exists ids. split; [done|]. split; [done|]. split; [done|].
    destruct o; [done|exact H5|done].
Qed.

(** ** Handlers and [finally] *)

Lemma handlers_simulate handlers header dispatch out b out' b' :
  built b → known b header → known b dispatch → sourced b (normal out) → sourced b (abrupt out) →
  build_handlers inner handlers header dispatch out b = Ok (out', b') →
  grown b b' ∧ below out out' ∧
  ∀ h t o u, h ∈ handlers → runs (exec Routed) h t o → u = header ∨ u = dispatch → path_of (fresh b b') b' out' u t o.
Proof.
  intros Hb Kh Kd Hn Ha E. revert out b Hb Kh Kd Hn Ha E. induction handlers as [|h rest IH]; intros out b Hb Kh Kd Hn Ha;
    cbn [build_handlers].
  { intros [= <- <-]. split; [done|]. split; [by split|]. intros h t o u Hh. by apply elem_of_nil in Hh. }
  destruct (inner h _ b) as [[caught b1]|] eqn:E1; [|done]. intros E.
  assert (Si : sourced b [from header "control:exception"; from dispatch "control:exception"]).
  { intros i [->|[->|Hi]%elem_of_cons]%elem_of_cons; [done..|by apply elem_of_nil in Hi]. }
  destruct (inner_spec _ _ _ _ _ Hb Si E1) as [(B1 & G1 & N1 & A1) P1].
  assert (S1 : sourced b1 (normal (absorb out caught)) ∧ sourced b1 (abrupt (absorb out caught))).
  { cbn [absorb normal abrupt]. rewrite !sourced_app. split; (split; [by apply (sourced_grown b b1)|done]). }
  destruct (IH _ _ B1 (known_grown _ _ _ G1 Kh) (known_grown _ _ _ G1 Kd) (proj1 S1) (proj2 S1) E) as (G2 & Hbelow & P2).
  split; [eauto using grown_trans|]. split; [eapply below_trans; [apply below_absorb_l|exact Hbelow]|].
  intros h' t o u [->|Hh]%elem_of_cons Hr Hu.
  - assert (Hp : path_of (fresh b b1) b1 caught u t o).
    { destruct Hu as [->| ->]; [apply (P1 _ _ (from header "control:exception"))|apply (P1 _ _ (from dispatch "control:exception"))];
        [done|by left|done|by right; left]. }
    eapply path_of_mono; [exact G2| | |exact Hp].
    + eapply below_trans; [apply below_absorb_r|exact Hbelow].
    + intros x Hx. eauto using fresh_later.
  - eapply path_of_mono; [reflexivity|by split| |by eapply P2]. intros x Hx. eauto using fresh_earlier.
Qed.

Lemma finally_simulates fin out b out' b' u t1 o1 (Q : str → Prop) :
  built b → sourced b (normal out) → sourced b (abrupt out) → build_finally inner fin out b = Ok (out', b') →
  path_of Q b out u t1 o1 → o1 ≠ Thrown → (∀ x, fresh b b' x → Q x) →
  ∀ t2 o2 o, runs (exec Routed) fin t2 o2 →
    (o2 = Onward ∧ (o = o1 ∨ o1 = Outward ∧ o ≠ Onward)) ∨ (o2 ≠ Onward ∧ o = o2) →
    path_of Q b' out' u (t1 ++ t2) o.
Proof.
  intros Hb Hn Ha E Hp Ho1 HQ t2 o2 o Hr Ho. unfold build_finally in E.
  destruct (inner fin _ b) as [[f b1]|] eqn:E1; [|done]. injection E as <- <-.
  assert (Si : sourced b (map (λ i, from (in_node i) "control:finally") (normal out ++ abrupt out))).
  { apply sourced_map; [done|]. by apply sourced_app. }
  destruct (inner_spec _ _ _ _ _ Hb Si E1) as [(B1 & G1 & N1 & A1) P1].
  eapply path_of_app; [eapply path_of_mono; [exact G1|by split|intros x Hx; exact Hx|exact Hp]|].
  intros ids _ _ Hland.
  assert (Hi : ∃ i, i ∈ normal out ++ abrupt out ∧ in_node i = last_from u ids).
  { destruct o1; [| |done]; destruct Hland as (i & Hi & Ei); exists i; rewrite elem_of_app; auto. }
  destruct Hi as (i & Hi & <-). assert (Hin : from (in_node i) "control:finally" ∈ map (λ i, from (in_node i) "control:finally") (normal out ++ abrupt out)).
  { apply elem_of_map. eauto. }
  destruct (P1 _ _ _ Hr Hin) as (ids2 & H1 & H2 & H3 & H4). exists ids2. split; [done|]. split; [done|].
  split; [by eapply Forall_impl|]. cbn [in_node from] in H4.
  destruct Ho as [[-> Ho]|[Hne ->]].
  - destruct H4 as (j & Hj & Ej). destruct o; [| |done].
    + destruct Ho as [Ho|[_ Ho]]; [|done]. subst o1. destruct Hland as (k & Hk & _). exists j. split; [|done]. cbn [normal].
      destruct (normal out); [by apply elem_of_nil in Hk|done].
    + assert (o1 = Outward) as -> by (destruct Ho as [<-|[? _]]; done). destruct Hland as (k & Hk & _).
      exists (from (in_node j) "control:terminate"). split; [|done]. cbn [abrupt]. apply elem_of_app. right.
      destruct (abrupt out); [by apply elem_of_nil in Hk|]. apply elem_of_map. eauto.
  - destruct o2; [done| |done]. destruct H4 as (j & Hj & Ej). exists j. split; [|done]. cbn [abrupt]. apply elem_of_app. by left.
Qed.

Lemma guards_simulate s header raisers handlers fin tb out b b1 flow b' :
  built b → known b header → built b1 → grown b b1 → sourced b1 (normal out) → sourced b1 (abrupt out) →
  sourced b1 (map (λ r, from r "control:exception") raisers) →
  (∀ id, fresh b b1 id → id ∈ raisers) →
  (∀ t o, runs (exec Routed) tb t o → path_of (fresh b b1) b1 out header t o) →
  build_guards input inner (pt_line (point_of s)) header raisers handlers fin out b1 = Ok (flow, b') →
  ∀ t o, guarded Routed (exec Routed) (dispatch_step s) tb handlers fin t o → path_of (fresh b b') b' flow header t o.
Proof.
  intros Hb Kh B1 G1 N1 A1 Sr Hfr Hbody. unfold build_guards. destruct (add_node _ _ _ _ b1) as [d b2] eqn:E2.
  destruct (new_node _ _ _ _ _ _ B1 E2) as (B2 & G2 & K2 & F2 & L2). set (b3 := wire _ d b2).
  assert (G3 : grown b2 b3) by apply wire_grown. assert (G13 : grown b1 b3) by (eauto using grown_trans).
  assert (B3 : built b3) by (apply wire_built; [done|by apply (sourced_grown b1 b2)|done]).
  assert (Kd : known b3 d) by (eauto using known_grown). assert (Kh1 : known b1 header) by (by apply (known_grown b b1)).
  assert (Kh3 : known b3 header) by (by apply (known_grown b1 b3)).
  destruct (build_handlers inner handlers header d out b3) as [[out4 b4]|] eqn:E4; [|done].
  pose proof (sourced_grown _ _ _ G13 N1) as N3. pose proof (sourced_grown _ _ _ G13 A1) as A3.
  destruct (handlers_simulate _ _ _ _ _ _ _ B3 Kh3 Kd N3 A3 E4) as (G4 & Hbelow & Hhandlers).
  assert (G34 : grows input b3 out4 b4).
  { eapply (build_handlers_keeps input inner Hkeeps handlers header d out b3 b3); [|done..]. by split; [|split]. }
  set (out5 := {| normal := normal out4; abrupt := abrupt out4 ++ [from d "control:unhandled"] |}).
  assert (Hb5 : below out4 out5) by (split; [done|]; intros i Hi; apply elem_of_app; by left).
  assert (G14 : grown b1 b4) by (eauto using grown_trans). assert (Gb3 : grown b b3) by (eauto using grown_trans).
  assert (Hdisp : ∀ r, r ∈ raisers → control_edge b4 r d).
  { intros r Hr. eapply control_grown; [exact G4|]. apply (wire_control _ _ _ (from r "control:exception")).
    apply elem_of_map. eauto. }
  assert (Ld : labelled b4 d (dispatch_step s)) by (eapply labelled_grown; [|exact L2]; eauto using grown_trans).
  assert (Fd : fresh b b4 d) by (eapply fresh_earlier; [|exact G1]; eapply fresh_later; [exact F2|]; eauto using grown_trans).
  assert (Hb4 : ∀ t o, runs (exec Routed) tb t o → path_of (fresh b b4) b4 out5 header t o).
  { intros t o Hr. eapply path_of_mono; [exact G14| | |by apply Hbody].
    - eapply below_trans; [exact Hbelow|exact Hb5].
    - intros x Hx. eauto using fresh_later. }
  assert (Hcaught : ∀ h t o u, h ∈ handlers → runs (exec Routed) h t o → u = header ∨ u = d → path_of (fresh b b4) b4 out5 u t o).
  { intros h t o u Hh Hr Hu. eapply path_of_mono; [reflexivity|exact Hb5| |by eapply Hhandlers].
    intros x Hx. eauto using fresh_earlier. }
  assert (Hraise : ∀ t1 t2 o, runs (exec Routed) tb t1 Thrown → path_of (fresh b b4) b4 out5 d t2 o →
    path_of (fresh b b4) b4 out5 header (t1 ++ dispatch_step s :: t2) o).
  { intros t1 t2 o Hr Hp. destruct (Hbody _ _ Hr) as (ids & H1 & H2 & H3 & _).
    assert (Hlast : control_edge b4 (last_from header ids) d).
    { apply Hdisp, Hfr, last_from_Forall; [done|]. intros ->. inversion H2; subst. by apply thrown_nonempty in Hr. }
    destruct (path_of_cons _ _ _ _ _ _ _ _ Hlast Ld Fd Hp) as (ids2 & K1 & K2' & K3 & K4).
    exists (ids ++ ids2). split; [apply linked_app; split; [eauto using linked_grown|done]|].
    split; [apply Forall2_app; [eauto using labels_grown|done]|].
    split; [apply Forall_app; split; [eapply Forall_impl; [exact H3|]; intros x Hx; eauto using fresh_later|done]|].
    by rewrite last_from_app. }
  assert (Htried : ∀ t o, tried (exec Routed) (dispatch_step s) tb handlers t o → path_of (fresh b b4) b4 out5 header t o).
  { intros t o [t' o' Hr _|h t' o' Hh Hr|h t1 t2 o' Hr Hh Hr2|t' o' Hr Ho]; [by apply Hb4|by eapply Hcaught; [| |left]| |].
    - apply Hraise; [done|]. eapply Hcaught; [done..|]. by right.
    - apply Hraise; [done|]. apply path_of_nil. destruct o'; [done| |done].
      exists (from d "control:unhandled"). split; [|done]. apply elem_of_app. right. by left. }
  assert (S5 : sourced b4 (normal out5) ∧ sourced b4 (abrupt out5)).
  { destruct G34 as (_ & _ & N4 & A4). split; [done|]. apply sourced_app. split; [done|].
    apply sourced_one; [eauto using known_grown|done]. }
  intros E t o Hg. destruct Hg as [t o Ht|fin t1 t2 Hfin Ht Hr|fin t1 t2 o Hfin Ht Hr Ho|fin t1 t2 o1 o Hfin Ht Ho1 Hr Ho|? ? ? He|? ? ? He|? ? ? ? He|? ? ? ? He]; try discriminate He;
    [injection E as <- <-; by apply Htried|..]; (destruct fin as [|x fin]; [done|]).
  all: assert (Gf : grown b4 b') by (eapply (build_finally_keeps input inner Hkeeps (x :: fin) out5 b4 b4); [|exact E];
    split; [apply G34|]; split; [reflexivity|done]).
  all: assert (Hmono : ∀ y, fresh b4 b' y → fresh b b' y) by (intros y Hy; eapply fresh_earlier; [exact Hy|]; etrans; [exact Gb3|exact G4]).
  all: assert (Gb4 : grown b b4) by (etrans; [exact Gb3|exact G4]).
  all: eapply (finally_simulates (x :: fin) out5 b4 flow b' header t1 _ (fresh b b')); [apply G34|apply S5|apply S5|exact E|
    destruct (Htried _ _ Ht) as (ids & H1 & H2 & H3 & H4); exists ids; split; [exact H1|]; split; [exact H2|];
    split; [eapply Forall_impl; [exact H3|]; intros y Hy; eauto using fresh_later|exact H4]|try done|exact Hmono|exact Hr|auto].
Qed.

Lemma try_simulates s header tb handlers fin b flow b' t o :
  built b → known b header → kind_of s = Try tb handlers fin →
  build_try input inner (pt_line (point_of s)) header tb handlers fin b = Ok (flow, b') →
  (handlers = [] ∧ fin = [] ∧ runs (exec Routed) tb t o)
  ∨ ((handlers ≠ [] ∨ fin ≠ []) ∧ guarded Routed (exec Routed) (dispatch_step s) tb handlers fin t o) →
  path_of (fresh b b') b' flow header t o.
Proof.
  intros Hb Kh Ek E Hr. unfold build_try in E. destruct (inner tb _ b) as [[out b1]|] eqn:E1; [|done].
  destruct (inner_spec _ _ _ _ _ Hb (sourced_one _ _ "control:try" Kh eq_refl) E1) as [(B1 & G1 & N1 & A1) P1].
  assert (Hbody : ∀ t o, runs (exec Routed) tb t o → path_of (fresh b b1) b1 out header t o).
  { intros t' o' H. apply (P1 _ _ (from header "control:try") H). by left. }
  destruct Hr as [(-> & -> & Hr)|[Hne Hg]]; [injection E as <- <-; by apply Hbody|].
  assert (E' : build_guards input inner (pt_line (point_of s)) header (drop (length (created b)) (created b1)) handlers fin out b1
    = Ok (flow, b')) by (destruct handlers, fin; [by destruct Hne|done..]).
  eapply guards_simulate; [exact Hb|done|done|done|done|done|by apply (raisers_known input)| |exact Hbody|exact E'|exact Hg].
  intros id. apply fresh_raiser.
Qed.

(** ** Statements and lists of them *)

Lemma kind_simulates s node b out b' t o :
  built b → known b node → labelled b node (step_of s) → build_kind input inner s node b = Ok (out, b') → exec Routed s t o →
  path_of (λ x, x = node ∨ fresh b b' x) b' out node t o.
Proof.
  intros Hb Kn Hl E He. unfold build_kind in E.
  destruct He as [s|s Ek|s Ek|s th arms el t o Ek Hr|s th arms el t o Ek Ht|s lp t o Ek Ht|s tb t o Ek Hr|s tb hs fin t o Ek Hne Hg].
  - by apply path_of_nil.
  - rewrite Ek in E. injection E as <- <-. apply path_of_nil. exists (from node "control:fallthrough"). split; [by left|done].
  - assert (Eo : out = {| normal := []; abrupt := [from node "control:terminate"] |}) by (destruct Ek as [Ek|Ek]; rewrite Ek in E; congruence).
    subst out. apply path_of_nil. exists (from node "control:terminate"). split; [by left|done].
  - rewrite Ek in E. destruct (inner th _ b) as [[out1 b1]|] eqn:E1; [|done].
    destruct (build_arms _ _ _ _ _ _) as [[[o' out2] b2]|] eqn:E2; [|done].
    destruct (inner el _ b2) as [[out3 b3]|] eqn:E3; [|done]. injection E as <- <-.
    destruct (inner_spec _ _ _ _ _ Hb (sourced_one _ _ "control:true" Kn eq_refl) E1) as [H1 P1].
    assert (S1 : sourced b1 [from node "control:false"]) by (apply sourced_one; [eapply known_grown; [apply H1|done]|done]).
    pose proof H1 as (B1 & G1 & N1 & A1). destruct (arms_simulate _ _ _ _ _ _ _ B1 S1 N1 A1 E2) as [Hbelow _].
    destruct (build_arms_keeps _ _ Hkeeps _ _ _ _ _ _ _ _ H1 S1 B1 E2) as (H2 & So & G2).
    assert (G3 : grown b2 b3) by (eapply Hkeeps; [apply H2|exact So|exact E3]).
    eapply path_of_mono; [|eapply below_trans; [exact Hbelow|apply below_absorb_l]| |exact (P1 _ _ (from node "control:true") Hr ltac:(by left))].
    + by etrans.
    + intros x Hx. right. eapply fresh_later; [exact Hx|]. by etrans.
  - rewrite Ek in E. destruct (inner th _ b) as [[out1 b1]|] eqn:E1; [|done].
    destruct (build_arms _ _ _ _ _ _) as [[[o' out2] b2]|] eqn:E2; [|done].
    destruct (inner el _ b2) as [[out3 b3]|] eqn:E3; [|done]. injection E as <- <-.
    destruct (inner_spec _ _ _ _ _ Hb (sourced_one _ _ "control:true" Kn eq_refl) E1) as [H1 P1].
    assert (S1 : sourced b1 [from node "control:false"]) by (apply sourced_one; [eapply known_grown; [apply H1|done]|done]).
    pose proof H1 as (B1 & G1 & N1 & A1). destruct (arms_simulate _ _ _ _ _ _ _ B1 S1 N1 A1 E2) as [_ Harms].
    destruct (build_arms_keeps _ _ Hkeeps _ _ _ _ _ _ _ _ H1 S1 B1 E2) as (H2 & So & G2).
    destruct (inner_spec _ _ _ _ _ (proj1 H2) So E3) as [(B3 & G3 & N3 & A3) P3].
    assert (Gb2 : grown b b2) by (by etrans).
    destruct (Harms _ _ _ Ht) as [Hp|(ids & t1 & t2 & -> & L1 & L2 & L3 & L4 & Hr)].
    + eapply path_of_mono; [exact G3|apply below_absorb_l| |exact Hp]. intros x Hx. right.
      eapply fresh_later; [|exact G3]. eauto using fresh_earlier.
    + destruct (P3 _ _ o' Hr ltac:(by left)) as (ids2 & K1 & K2 & K3 & K4). cbn [in_node from] in L1, L4. rewrite <- L4 in K1, K4.
      exists (ids ++ ids2). split; [apply linked_app; split; [eauto using linked_grown|done]|].
      split; [apply Forall2_app; [eauto using labels_grown|done]|]. split.
      * apply Forall_app. split; (eapply Forall_impl; [eassumption|]); intros x Hx; right.
        -- eapply fresh_later; [|exact G3]. eauto using fresh_earlier.
        -- eauto using fresh_earlier.
      * rewrite last_from_app. eapply lands_below; [apply below_absorb_r|exact K4].
  - rewrite Ek in E. destruct (inner lp _ b) as [[tails b1]|] eqn:E1; [|done]. injection E as <- <-.
    by eapply loop_simulates.
  - rewrite Ek in E. eapply path_of_mono; [reflexivity|by split| |].
    + intros x Hx. right. exact Hx.
    + eapply try_simulates; [done|done|exact Ek|exact E|]. by left.
  - rewrite Ek in E. eapply path_of_mono; [reflexivity|by split| |].
    + intros x Hx. right. exact Hx.
    + eapply try_simulates; [done|done|exact Ek|exact E|]. by right.
Qed.

Lemma list_simulates stmts flow b flow' b' :
  built b → sourced b (normal flow) → sourced b (abrupt flow) → build_list input inner stmts flow b = Ok (flow', b') →
  (∀ i, i ∈ abrupt flow → i ∈ abrupt flow') ∧ grown b b' ∧
  ∀ t o i, runs (exec Routed) stmts t o → i ∈ normal flow → path_of (fresh b b') b' flow' (in_node i) t o.
Proof.
  revert flow b. induction stmts as [|s rest IH]; intros flow b Hb Hn Ha; cbn [build_list].
  { intros [= <- <-]. split; [done|]. split; [done|]. intros t o i Hr Hi. inversion Hr; subst. apply path_of_nil. by exists i. }
  destruct (normal flow) as [|i0 l0] eqn:En.
  { intros [= <- <-]. split; [done|]. split; [done|]. intros t o i _ Hi. by apply elem_of_nil in Hi. }
  rewrite <- En in *. clear i0 l0 En. destruct (add_statement_node _ _ _) as [node b1] eqn:E1.
  destruct (new_node _ _ _ _ _ _ Hb E1) as (B1 & G1 & K1 & F1 & L1). set (b2 := wire _ node b1).
  assert (G2 : grown b1 b2) by apply wire_grown.
  assert (B2 : built b2) by (apply wire_built; [done|eauto using sourced_grown|done]).
  assert (K2 : known b2 node) by (eauto using known_grown).
  assert (L2 : labelled b2 node (step_of s)) by (eauto using labelled_grown).
  destruct (build_kind _ _ _ _ b2) as [[after b3]|] eqn:E3; [|done]. intros E.
  destruct (build_kind_keeps input inner Hkeeps _ _ _ _ _ B2 K2 E3) as (B3 & G3 & N3 & A3).
  assert (Gb2 : grown b b2) by (by etrans). assert (G : grown b b3) by (by etrans).
  destruct (IH {| normal := normal after; abrupt := abrupt flow ++ abrupt after |} b3 B3 N3) as (Ha' & G' & Hpath); [|exact E|].
  { cbn [abrupt]. apply sourced_app. split; [by apply (sourced_grown b b3)|done]. }
  split; [intros i Hi; apply Ha', elem_of_app; by left|]. split; [by etrans|]. intros t o i Hr Hi.
  assert (G2' : grown b2 b') by (by etrans).
  assert (He : control_edge b' (in_node i) node) by (eapply control_grown; [exact G2'|by apply wire_control]).
  assert (Hl : labelled b' node (step_of s)) by (eauto using labelled_grown).
  assert (Hf : fresh b b' node) by (eapply fresh_later; [exact F1|]; by etrans).
  assert (Hhead : ∀ t1 o1, exec Routed s t1 o1 → path_of (fresh b b') b' after node t1 o1).
  { intros t1 o1 Hx. eapply path_of_mono; [exact G'|by split| |exact (kind_simulates _ _ _ _ _ _ _ B2 K2 L2 E3 Hx)].
    intros x [->|Hx']; [done|]. eapply fresh_later; [|exact G']. eauto using fresh_earlier. }
  inversion Hr as [|s' rest' t1 t2 o' H1 H2|s' rest' t1 o' H1 Ho]; subst.
  - eapply path_of_cons; [done..|]. eapply path_of_app; [by apply Hhead|]. intros ids _ _ (j & Hj & <-).
    eapply path_of_mono; [reflexivity|by split| |by apply Hpath]. intros x Hx. eauto using fresh_earlier.
  - eapply path_of_cons; [done..|]. destruct (Hhead _ _ H1) as (ids & H2 & H3 & H4 & H5). exists ids. split; [done|].
    split; [done|]. split; [done|]. destruct o; [done| |done]. destruct H5 as (j & Hj & Ej). exists j. split; [|done].
    apply Ha', elem_of_app. by right.
Qed.

End Inner.

Lemma sequence_simulates levels : simulates (build_sequence input levels).
Proof.
  induction levels as [|l IH]; intros stmts inc b out b' Hb Hi; cbn [build_sequence]; [done|].
  destruct (build_list _ _ _ _ _) as [[f b1]|] eqn:E; [|done]. intros [= <- <-] t o i Hr Hin.
  destruct (list_simulates _ (build_sequence_keeps input l) IH stmts {| normal := inc; abrupt := [] |} _ _ _ Hb Hi
    (sourced_nil b) E) as (_ & _ & Hp).
  eapply path_of_mono; [reflexivity| |done|by apply Hp]. split; intros j Hj; cbn [dedup normal abrupt]; by rewrite elem_of_sorted_dedup.
Qed.

(** A routed run to the end is a path from the entry to the exit. *)
Lemma runs_have_paths b t o :
  control_graph input = Ok b → runs (exec Routed) (body input) t o → 
  ∃ ids, linked b (entry input) ids ∧ Forall2 (labelled b) ids t
    ∧ (o ≠ Thrown → control_edge b (last_from (entry input) ids) (exit input)).
Proof.
  unfold control_graph. destruct (build_sequence _ _ _ _ _) as [[flow b1]|] eqn:E; [|done]. intros [= <-] Hr.
  pose proof (new_builder_built input) as H0. assert (K0 : known (new_builder input) (entry input)).
  { apply (bt_nodes _ _ H0). by left. }
  destruct (sequence_simulates _ _ _ _ _ _ H0 (sourced_one _ _ "control:entry" K0 eq_refl) E _ _ (from (entry input) "control:entry") Hr
    ltac:(by left)) as (ids & H1 & H2 & _ & H4).
  exists ids. assert (Hg := wire_grown (normal flow ++ abrupt flow) (exit input) b1).
  split; [eauto using linked_grown|]. split; [eauto using labels_grown|]. intros Ho. cbn [in_node from] in H4.
  destruct o; [| |done]; destruct H4 as (i & Hi & <-); apply wire_control, elem_of_app; auto.
Qed.

End Input.
End PdgPaths.
