(* ===== verification/PdgData.v ===== *)
(** * Reaching definitions and taint, as fixpoints

    [passes] says which definitions leave a node, by paths of control on which the
    variable is not defined again. The passes over the nodes reach exactly these within
    the ceiling, and the taint that spreads over them is the least one. *)

From stdpp Require Import relations.
From S2P Require Import Prelude RustStr RustStrFacts Order Pdg PdgFacts PdgPaths.
Import Pdg PdgFacts PdgPaths.PdgRuns.

#[local] Open Scope nat_scope.

Module PdgData.

(** ** Definitions as sets *)

Definition mem (D : Definitions) (x : str) (p : str * Z) : Prop := p ∈ default ∅ (D !! x).
Definition tidy (D : Definitions) : Prop := ∀ x s, D !! x = Some s → s ≠ ∅.

Lemma mem_empty x p : ¬ mem ∅ x p.
Proof. unfold mem. rewrite lookup_empty. cbn [from_option id]. set_solver. Qed.

Lemma tidy_empty : tidy ∅.
Proof. intros x s. by rewrite lookup_empty. Qed.

Lemma tidy_eq D1 D2 : tidy D1 → tidy D2 → (∀ x p, mem D1 x p ↔ mem D2 x p) → D1 = D2.
Proof.
  intros H1 H2 Hm. apply map_eq. intros x. specialize (Hm x). unfold mem in Hm.
  assert (Hsome : ∀ (D D' : Definitions) s, tidy D → D !! x = Some s → (∀ p, p ∈ default ∅ (D !! x) ↔ p ∈ default ∅ (D' !! x)) →
    ∃ s', D' !! x = Some s').
  { intros D D' s Ht E H. destruct (set_choose_L s (Ht _ _ E)) as [p Hp]. specialize (H p). rewrite E in H. cbn in H.
    destruct (D' !! x) eqn:E'; [eauto|]. cbn in H. set_solver. }
  destruct (D1 !! x) as [s1|] eqn:E1, (D2 !! x) as [s2|] eqn:E2; cbn [from_option id] in Hm.
  - f_equal. apply set_eq. done.
  - destruct (Hsome D1 D2 s1) as [? ?]; [done|done| |congruence]. rewrite E1, E2. done.
  - destruct (Hsome D2 D1 s2) as [? ?]; [done|done| |congruence]. rewrite E1, E2. done.
  - done.
Qed.

Lemma mem_insert (D : Definitions) x s y p : mem (<[x := s]> D) y p ↔ (if decide (x = y) then p ∈ s else mem D y p).
Proof. unfold mem. destruct (decide (x = y)) as [->|?]; [by rewrite lookup_insert_eq|by rewrite lookup_insert_ne]. Qed.

Lemma merge_spec D S :
  tidy D → tidy S → tidy (merge_definitions D S) ∧ ∀ x p, mem (merge_definitions D S) x p ↔ mem D x p ∨ mem S x p.
Proof.
  intros HD. unfold merge_definitions.
  apply (map_fold_weak_ind (λ acc S, tidy S → tidy acc ∧ ∀ x p, mem acc x p ↔ mem D x p ∨ mem S x p)).
  - intros _. split; [done|]. intros x p. pose proof (mem_empty x p). tauto.
  - intros y ds S' acc Hy IH HS. assert (HS' : tidy S').
    { intros x s E. apply (HS x). rewrite lookup_insert_ne; [done|]. intros <-. congruence. }
    destruct (IH HS') as [Ht Hm]. assert (Hds : ds ≠ ∅) by (apply (HS y); by rewrite lookup_insert_eq). split.
    + intros x s. destruct (decide (y = x)) as [->|?].
      * rewrite lookup_insert_eq. intros [= <-]. set_solver.
      * rewrite lookup_insert_ne by done. apply Ht.
    + intros x p. rewrite !mem_insert. destruct (decide (y = x)) as [->|?]; [|apply Hm].
      rewrite elem_of_union. change (p ∈ default ∅ (acc !! x)) with (mem acc x p). rewrite Hm.
      assert (¬ mem S' x p) by (unfold mem; rewrite Hy; cbn; set_solver). tauto.
Qed.

Lemma elem_of_in_order x s : x ∈ in_order s ↔ x ∈ s.
Proof. unfold in_order, sort_strs. by rewrite elem_of_sort_by, elem_of_elements. Qed.

Lemma elem_of_sorted_keys {V} (m : gmap str V) x : x ∈ sorted_keys m ↔ is_Some (m !! x).
Proof.
  unfold sorted_keys, sort_strs. rewrite elem_of_sort_by, elem_of_map. split.
  - intros ([k v] & -> & H%elem_of_map_to_list). by eexists.
  - intros [v H]. exists (x, v). split; [done|]. by apply elem_of_map_to_list.
Qed.

Section Data.
Variable input : FunctionPdgInput.
Variable b : PdgBuilder.
Hypothesis Hb : built input b.

Definition defs (n : str) : gset str := match facts b !! n with Some fs => nf_definitions fs | None => ∅ end.
Definition line (n : str) : Z := match nodes b !! n with Some c => leader_line c | None => 0%Z end.

(** ** Which definitions reach which nodes *)

Inductive passes (x d : str) : nat → str → Prop :=
  | passes_here : x ∈ defs d → known b d → passes x d 0 d
  | passes_on k m n : passes x d k m → control_edge b m n → (x ∉ defs n) → passes x d (S k) n.

Definition reaches (x d n : str) : Prop := ∃ k m, passes x d k m ∧ control_edge b m n.

Lemma edge_known u v : control_edge b u v → known b u ∧ known b v.
Proof. intros [k Hk]. by apply (bt_edges _ _ Hb) in Hk as (_ & _ & ? & ?). Qed.

Lemma passes_known x d k n : passes x d k n → known b n.
Proof. induction 1 as [|k m n _ _ He _]; [done|by destruct (edge_known _ _ He)]. Qed.

(** The nodes of a path can be taken distinct. *)
Lemma passes_short x d k n : passes x d k n → ∃ k', k' < size (nodes b) ∧ passes x d k' n.
Proof.
  intros Hp. induction k as [k IH] using lt_wf_ind. destruct (decide (k < size (nodes b))) as [|Hk]; [eauto|].
  assert (Hlist : ∀ j m, passes x d j m → ∃ l, length l = S j ∧ (∀ v, v ∈ l → known b v)
    ∧ ∀ i v, l !! i = Some v → ∀ j' , j' ≤ j → i = j - j' → passes x d j' v ∧
        ∀ c, passes x d c v → passes x d (c + i) m).
  { induction 1 as [Hx Hd|j m w Hm (l & Hl & Hkn & Hi) He Hw].
    - exists [d]. split; [done|]. split; [intros v ->%list_elem_of_singleton; done|].
      intros i v Hv j' Hj ->. assert (j' = 0) as -> by lia. injection Hv as <-. split; [by constructor|].
      intros c Hc. by rewrite Nat.add_0_r.
    - exists (w :: l). split; [cbn; lia|]. split.
      { intros v [->|Hv]%elem_of_cons; [by destruct (edge_known _ _ He)|by apply Hkn]. }
      intros i v Hv j' Hj ->. destruct (decide (j' = S j)) as [->|Hne].
      + rewrite Nat.sub_diag in Hv. injection Hv as <-. split; [by econstructor|]. intros c Hc. by rewrite Nat.sub_diag, Nat.add_0_r.
      + replace (S j - j') with (S (j - j')) in * by lia. cbn in Hv. destruct (Hi _ _ Hv j' ltac:(lia) eq_refl) as [H1 H2].
        split; [done|]. intros c Hc. replace (c + S (j - j')) with (S (c + (j - j'))) by lia. econstructor; [by apply H2|done..]. }
  destruct (Hlist _ _ Hp) as (l & Hl & Hkn & Hi).
  assert (Hdup : ¬ NoDup l).
  { intros Hnd. assert (Hsub : l ⊆+ map fst (map_to_list (nodes b))).
    { apply NoDup_submseteq; [done|]. intros v Hv%Hkn. destruct Hv as [c Hc]. apply elem_of_map. exists (v, c).
      split; [done|]. by apply elem_of_map_to_list. }
    apply submseteq_length in Hsub. rewrite length_map, length_map_to_list in Hsub. lia. }
  assert (Hij : ∃ i j v, i < j ∧ l !! i = Some v ∧ l !! j = Some v).
  { clear -Hdup. induction l as [|w l IH]; [destruct Hdup; constructor|]. destruct (decide (w ∈ l)) as [Hw|Hw].
    - apply list_elem_of_lookup in Hw as [j Hj]. exists 0, (S j), w. split; [lia|done].
    - destruct IH as (i & j & v & ? & ? & ?); [intros Hnd; apply Hdup; by constructor|]. exists (S i), (S j), v. split; [lia|done]. }
  destruct Hij as (i & j & v & Hlt & Hvi & Hvj). pose proof (lookup_lt_Some _ _ _ Hvj).
  destruct (Hi i v Hvi (k - i) ltac:(lia) ltac:(lia)) as [_ Happ].
  destruct (Hi j v Hvj (k - j) ltac:(lia) ltac:(lia)) as [Hpj _].
  apply (IH (k - j + i)); [lia|]. by apply Happ.
Qed.

(** ** One pass *)

Abbreviation ins a n := (default ∅ (inbound a !! n)).
Abbreviation outs a n := (default ∅ (outbound a !! n)).

Lemma add_predecessors_spec (l : list PdgEdge) (m : gmap str (gset str)) (n u : str) :
  is_Some (m !! n) →
  u ∈ default ∅ (foldl add_predecessor m l !! n) ↔
    u ∈ default ∅ (m !! n) ∨ ∃ e, e ∈ l ∧ source_node e = u ∧ target_node e = n.
Proof.
  intros Hm. induction l as [|e l IH] using rev_ind.
  { cbn [foldl]. split; [by left|]. intros [?|(e & He & _)]; [done|by apply elem_of_nil in He]. }
  rewrite foldl_snoc. unfold add_predecessor at 1. setoid_rewrite elem_of_app. setoid_rewrite list_elem_of_singleton.
  destruct (decide (target_node e = n)) as [<-|Hne].
  - rewrite lookup_insert_eq. cbn [from_option id]. rewrite elem_of_union, elem_of_singleton, IH. split.
    + intros [->|[?|(e' & ? & ?)]]; [right; exists e; auto|by left|right; exists e'; auto].
    + intros [?|(e' & [?| ->] & Hs & Ht)]; [auto|right; right; exists e'; auto|by left].
  - rewrite lookup_insert_ne, IH by done. split.
    + intros [?|(e' & ? & ?)]; [by left|right; exists e'; auto].
    + intros [?|(e' & [?| ->] & Hs & Ht)]; [by left|right; exists e'; auto|done].
Qed.

Lemma all_control : List.filter is_control (edges b) = edges b.
Proof.
  assert (H : ∀ e, e ∈ edges b → is_control e = true) by (intros e He; by destruct (bt_edges _ _ Hb e He) as (_ & Hk & _)).
  induction (edges b) as [|e l IH]; cbn [List.filter]; [done|]. rewrite H by (by left). f_equal. apply IH.
  intros e' He'. apply H. by right.
Qed.

Lemma predecessors_spec n u : known b n → u ∈ default ∅ (predecessors b !! n) ↔ control_edge b u n.
Proof.
  intros [c Hc]. unfold predecessors. rewrite all_control, add_predecessors_spec; rewrite lookup_fmap, Hc; [|by eexists].
  cbn [fmap option_fmap option_map from_option id]. split.
  - intros [?|(e & He & <- & <-)]; [set_solver|]. exists (edge_kind e).
    destruct (bt_edges _ _ Hb e He) as (Hv & _). destruct e; cbn in *; by subst.
  - intros [k Hk]. right. by eexists.
Qed.

Lemma arriving_spec a n :
  known b n → (∀ u, tidy (outs a u)) →
  tidy (arriving b a n) ∧ ∀ x p, mem (arriving b a n) x p ↔ ∃ u, control_edge b u n ∧ mem (outs a u) x p.
Proof.
  intros Hn Ht. unfold arriving.
  assert (H : ∀ us acc, tidy acc →
    let r := foldl (λ acc p, merge_definitions acc (outs a p)) acc us in
    tidy r ∧ ∀ x p, mem r x p ↔ mem acc x p ∨ ∃ u, u ∈ us ∧ mem (outs a u) x p).
  { induction us as [|u us IH]; intros acc Hacc; cbn [foldl].
    - split; [done|]. intros x p. split; [by left|]. intros [?|(u & Hu & _)]; [done|by apply elem_of_nil in Hu].
    - destruct (merge_spec acc (outs a u) Hacc (Ht u)) as [H1 H2]. destruct (IH _ H1) as [H3 H4]. split; [done|].
      intros x p. rewrite H4, H2. setoid_rewrite elem_of_cons. split.
      + intros [[?|?]|(v & ? & ?)]; [by left|right; exists u; auto|right; exists v; auto].
      + intros [?|(v & [->|?] & ?)]; [by left; left|by left; right|right; eauto]. }
  destruct (H (in_order (default ∅ (predecessors b !! n))) ∅ tidy_empty) as [H1 H2]. split; [done|]. intros x p. rewrite H2.
  setoid_rewrite elem_of_in_order. setoid_rewrite (predecessors_spec n _ Hn). split; [|by right].
  intros [?%mem_empty|?]; done.
Qed.

Lemma leaving_spec n l D :
  tidy D → tidy (leaving b n l D)
  ∧ ∀ x p, mem (leaving b n l D) x p ↔ (if decide (x ∈ defs n) then p = (n, l) else mem D x p).
Proof.
  intros HD. unfold leaving, defs. destruct (facts b !! n) as [fs|].
  2: { split; [done|]. intros x p. destruct (decide _); [set_solver|done]. }
  assert (H : ∀ xs acc, tidy acc → let r := foldl (λ acc x, <[x := {[(n, l)]}]> acc) acc xs in
    tidy r ∧ ∀ x p, mem r x p ↔ (if decide (x ∈ xs) then p = (n, l) else mem acc x p)).
  { induction xs as [|y xs IH]; intros acc Hacc; cbn [foldl].
    - split; [done|]. intros x p. by destruct (decide (x ∈ [])) as [?%elem_of_nil|].
    - assert (H1 : tidy (<[y := {[(n, l)]}]> acc)).
      { intros x s. destruct (decide (y = x)) as [->|?]; [rewrite lookup_insert_eq; intros [= <-]; set_solver|].
        rewrite lookup_insert_ne by done. apply Hacc. }
      destruct (IH _ H1) as [H2 H3]. split; [done|]. intros x p. rewrite H3.
      destruct (decide (x ∈ xs)) as [Hx|Hx], (decide (x ∈ y :: xs)) as [Hy|Hy]; [done| | |];
        rewrite elem_of_cons in Hy; rewrite ?mem_insert; try (destruct (decide (y = x)); rewrite ?elem_of_singleton); tauto || intuition congruence. }
  destruct (H (in_order (nf_definitions fs)) D HD) as [H1 H2]. split; [done|]. intros x p. rewrite H2.
  destruct (decide (x ∈ in_order _)) as [Hx|Hx], (decide (x ∈ nf_definitions fs)) as [Hy|Hy]; rewrite elem_of_in_order in Hx; done.
Qed.

(** What the two maps hold is sound, and at [level] complete for paths that short. *)
Record sound (a : Arriving) : Prop := {
  sd_keys : ∀ n, known b n → is_Some (inbound a !! n) ∧ is_Some (outbound a !! n);
  sd_tidy : ∀ n, tidy (ins a n) ∧ tidy (outs a n);
  sd_ins : ∀ n x p, mem (ins a n) x p → p.2 = line p.1 ∧ reaches x p.1 n;
  sd_outs : ∀ n x p, mem (outs a n) x p → p.2 = line p.1 ∧ ∃ k, passes x p.1 k n;
}.

Definition level_out (i : nat) (a : Arriving) (n : str) : Prop :=
  ∀ k x d, k < i → passes x d k n → mem (outs a n) x (d, line d).

Definition level_in (i : nat) (a : Arriving) (n : str) : Prop :=
  ∀ k x d m, S k < i → passes x d k m → control_edge b m n → mem (ins a n) x (d, line d).

Definition level (i : nat) (a : Arriving) : Prop := ∀ n, known b n → level_out i a n ∧ level_in i a n.

(** The new sets of a node. *)
Definition new_in (a : Arriving) (n : str) : Definitions := arriving b a n.
Definition new_out (a : Arriving) (n : str) : Definitions := leaving b n (line n) (arriving b a n).

Lemma new_in_spec a n :
  sound a → known b n → tidy (new_in a n)
  ∧ (∀ x p, mem (new_in a n) x p → p.2 = line p.1 ∧ reaches x p.1 n)
  ∧ (∀ i, (∀ m, known b m → level_out i a m) → ∀ k x d m, k < i → passes x d k m → control_edge b m n →
      mem (new_in a n) x (d, line d)).
Proof.
  intros Hs Hn. destruct (arriving_spec a n Hn (λ u, proj2 (sd_tidy _ Hs u))) as [Ht Hm]. split; [done|]. split.
  - intros x p (u & Hu & Hp)%Hm. destruct (sd_outs _ Hs _ _ _ Hp) as [Hl [k Hk]]. split; [done|]. by exists k, u.
  - intros i Hi k x d m Hk Hp He. apply Hm. exists m. split; [done|]. eapply Hi; [by destruct (edge_known _ _ He)|exact Hk|exact Hp].
Qed.

Lemma new_out_spec a n :
  sound a → known b n → tidy (new_out a n)
  ∧ (∀ x p, mem (new_out a n) x p → p.2 = line p.1 ∧ ∃ k, passes x p.1 k n)
  ∧ (∀ i, (∀ m, known b m → level_out i a m) → ∀ k x d, k < S i → passes x d k n → mem (new_out a n) x (d, line d)).
Proof.
  intros Hs Hn. destruct (new_in_spec a n Hs Hn) as (Ht & Hsound & Hlevel).
  destruct (leaving_spec n (line n) _ Ht) as [Ht' Hm]. split; [done|]. split.
  - intros x p Hp%Hm. destruct (decide (x ∈ defs n)) as [Hx|Hx].
    + subst p. split; [done|]. exists 0. by constructor.
    + destruct (Hsound _ _ Hp) as [? (k & m & Hk & He)]. split; [done|]. exists (S k). by econstructor.
  - intros i Hi k x d Hk Hp. apply Hm. destruct Hp as [Hx Hd|k m n Hp He Hx].
    + by destruct (decide (x ∈ defs d)).
    + destruct (decide (x ∈ defs n)); [done|]. eapply Hlevel; [exact Hi| |exact Hp|exact He]. lia.
Qed.

(** A visit installs them; when they are there already it changes nothing. *)
Lemma visit_spec st n :
  known b n →
  let a := st.1 in let a' := (visit b st n).1 in
  (∀ m, inbound a' !! m = if decide (m = n) then Some (new_in a n) else inbound a !! m)
  ∧ (∀ m, outbound a' !! m = if decide (m = n) then Some (new_out a n) else outbound a !! m)
  ∧ ((visit b st n).2 = st.2 ∧ a' = a ∨ (visit b st n).2 = true
     ∧ ¬ (inbound a !! n = Some (new_in a n) ∧ outbound a !! n = Some (new_out a n))).
Proof.
  intros [c Hc]. destruct st as [a changed]. cbn zeta. unfold visit. rewrite Hc.
  assert (El : leader_line c = line n) by (unfold line; by rewrite Hc). rewrite El. fold (new_in a n).
  change (leaving b n (line n) (new_in a n)) with (new_out a n). cbn [fst snd].
  destruct (decide (inbound a !! n = Some (new_in a n))) as [E1|E1]; [rewrite bool_decide_eq_true_2 by done|rewrite bool_decide_eq_false_2 by done].
  - destruct (decide (outbound a !! n = Some (new_out a n))) as [E2|E2];
      [rewrite bool_decide_eq_true_2 by done|rewrite bool_decide_eq_false_2 by done]; cbn [andb fst snd inbound outbound].
    + split; [intros m; by destruct (decide (m = n)) as [->|]|]. split; [intros m; by destruct (decide (m = n)) as [->|]|]. by left.
    + split; [intros m; destruct (decide (m = n)) as [->|]; [by rewrite lookup_insert_eq|by rewrite lookup_insert_ne]|].
      split; [intros m; destruct (decide (m = n)) as [->|]; [by rewrite lookup_insert_eq|by rewrite lookup_insert_ne]|].
      right. split; [done|]. by intros [_ ?].
  - cbn [andb fst snd inbound outbound].
    split; [intros m; destruct (decide (m = n)) as [->|]; [by rewrite lookup_insert_eq|by rewrite lookup_insert_ne]|].
    split; [intros m; destruct (decide (m = n)) as [->|]; [by rewrite lookup_insert_eq|by rewrite lookup_insert_ne]|].
    right. split; [done|]. by intros [? _].
Qed.

Lemma visit_sound st n : known b n → sound st.1 → sound (visit b st n).1.
Proof.
  intros Hn Hs. destruct (visit_spec st n Hn) as (Hin & Hout & _).
  destruct (new_in_spec _ _ Hs Hn) as (Ti & Si & _), (new_out_spec _ _ Hs Hn) as (To & So & _). split.
  - intros m Hm. rewrite Hin, Hout. destruct (decide (m = n)); [split; by eexists|by apply Hs].
  - intros m. rewrite Hin, Hout. destruct (decide (m = n)); [done|apply Hs].
  - intros m x p. rewrite Hin. destruct (decide (m = n)) as [->|]; [apply Si|apply Hs].
  - intros m x p. rewrite Hout. destruct (decide (m = n)) as [->|]; [apply So|apply Hs].
Qed.

(** ** All of them *)

Lemma pass_level i a : sound a → level i a → sound (pass b a).1 ∧ level (S i) (pass b a).1.
Proof.
  intros Hs Hl. unfold pass.
  assert (H : ∀ l st, (∀ n, n ∈ l → known b n) → sound st.1 → (∀ m, known b m → level_out i st.1 m) →
    let a' := (foldl (visit b) st l).1 in
    sound a' ∧ (∀ m, known b m → level_out i a' m)
    ∧ ∀ m, known b m → (m ∈ l ∨ level_out (S i) st.1 m ∧ level_in (S i) st.1 m) → level_out (S i) a' m ∧ level_in (S i) a' m).
  { induction l as [|n l IH]; intros st Hk Hst Ho; cbn [foldl].
    { split; [done|]. split; [done|]. intros m _ [Hm|?]; [by apply elem_of_nil in Hm|done]. }
    assert (Hn : known b n) by (apply Hk; by left). destruct (visit_spec st n Hn) as (Hin & Hout & _).
    destruct (new_in_spec _ _ Hst Hn) as (_ & _ & Li), (new_out_spec _ _ Hst Hn) as (_ & _ & Lo).
    specialize (Li i Ho). specialize (Lo i Ho).
    assert (Hnew : level_out (S i) (visit b st n).1 n ∧ level_in (S i) (visit b st n).1 n).
    { split.
      - intros k x d Hki Hp. rewrite Hout. destruct (decide (n = n)); [|done]. by apply (Lo k).
      - intros k x d m Hki Hp He. rewrite Hin. destruct (decide (n = n)); [|done]. apply (Li k x d m); [lia|done..]. }
    destruct (IH (visit b st n)) as (H1 & H2 & H3).
    - intros m Hm. apply Hk. by right.
    - by apply visit_sound.
    - intros m Hm. destruct (decide (m = n)) as [->|Hne].
      + intros k x d Hki. apply (proj1 Hnew). lia.
      + intros k x d. rewrite Hout. destruct (decide (m = n)); [done|]. by apply Ho.
    - split; [done|]. split; [done|]. intros m Hm Hcase. apply H3; [done|].
      destruct (decide (m = n)) as [->|Hne]; [by right|]. destruct Hcase as [[->|?]%elem_of_cons|[H4 H5]]; [done|by left|right].
      split.
      + intros k x d. rewrite Hout. destruct (decide (m = n)); [done|]. apply H4.
      + intros k x d u. rewrite Hin. destruct (decide (m = n)); [done|]. apply H5. }
  destruct (H (sorted_keys (nodes b)) (a, false)) as (H1 & _ & H3); [|done|intros m Hm; by apply Hl|].
  - intros n Hn. by apply elem_of_sorted_keys in Hn.
  - split; [done|]. intros n Hn. apply H3; [done|]. left. by apply elem_of_sorted_keys.
Qed.

Definition fixed (a : Arriving) (n : str) : Prop :=
  inbound a !! n = Some (new_in a n) ∧ outbound a !! n = Some (new_out a n).

Lemma pass_unchanged a : (pass b a).2 = false → (pass b a).1 = a ∧ ∀ n, known b n → fixed a n.
Proof.
  unfold pass. assert (H : ∀ l st, (∀ n, n ∈ l → known b n) → (foldl (visit b) st l).2 = false →
    st.2 = false ∧ (foldl (visit b) st l).1 = st.1 ∧ ∀ n, n ∈ l → fixed st.1 n).
  { induction l as [|n l IH]; intros st Hk; cbn [foldl].
    { intros E. split; [done|]. split; [done|]. intros n Hn. by apply elem_of_nil in Hn. }
    intros E. destruct (IH (visit b st n)) as (H1 & H2 & H3); [intros m Hm; apply Hk; by right|done|].
    destruct (visit_spec st n) as (Hin & Hout & Hc); [apply Hk; by left|].
    destruct Hc as [[Hc Ha]|[Hc _]]; [|congruence]. rewrite Ha in *. split; [congruence|]. split; [done|].
    intros m [->|Hm]%elem_of_cons; [|by apply H3]. specialize (Hin n). specialize (Hout n).
    destruct (decide (n = n)); [by split|done]. }
  intros E. destruct (H (sorted_keys (nodes b)) (a, false)) as (_ & H2 & H3); [|done|].
  - intros n Hn. by apply elem_of_sorted_keys in Hn.
  - split; [done|]. intros n Hn. by apply H3, elem_of_sorted_keys.
Qed.

Lemma fixed_level a : sound a → (∀ n, known b n → fixed a n) → ∀ i, level i a.
Proof.
  intros Hs Hf. induction i as [|i IH]; [split; intros ?; intros; lia|]. intros n Hn. destruct (Hf n Hn) as [Ei Eo].
  assert (Ho : ∀ m, known b m → level_out i a m) by (intros m Hm; by apply IH).
  destruct (new_in_spec _ _ Hs Hn) as (_ & _ & Li), (new_out_spec _ _ Hs Hn) as (_ & _ & Lo). split.
  - intros k x d Hk Hp. rewrite Eo. cbn [from_option id]. by eapply Lo.
  - intros k x d m Hk Hp He. rewrite Ei. cbn [from_option id]. eapply (Li i Ho k); [lia|done..].
Qed.

Lemma level_all a : level (S (size (nodes b))) a → ∀ i, level i a.
Proof.
  intros Hl i n Hn. destruct (Hl n Hn) as [Ho Hi]. split.
  - intros k x d _ Hp. destruct (passes_short _ _ _ _ Hp) as (k' & Hk' & Hp'). apply (Ho k'); [lia|done].
  - intros k x d m _ Hp He. destruct (passes_short _ _ _ _ Hp) as (k' & Hk' & Hp'). apply (Hi k' x d m); [lia|done..].
Qed.

Lemma level_fixed a : sound a → (∀ i, level i a) → ∀ n, known b n → fixed a n.
Proof.
  intros Hs Hl n Hn. destruct (sd_keys _ Hs n Hn) as [[di Ei] [do Eo]].
  assert (Ho : ∀ i m, known b m → level_out i a m) by (intros i m Hm; by apply Hl).
  destruct (new_in_spec _ _ Hs Hn) as (Ti & Si & Li), (new_out_spec _ _ Hs Hn) as (To & So & Lo).
  pose proof (sd_tidy _ Hs n) as [Ti' To']. pose proof (sd_ins _ Hs n) as Si'. pose proof (sd_outs _ Hs n) as So'.
  pose proof (λ i, proj1 (Hl i n Hn)) as Lo'. pose proof (λ i, proj2 (Hl i n Hn)) as Li'.
  unfold level_out, level_in in Lo', Li'. unfold fixed. rewrite Ei, Eo in *. cbn [from_option id] in *. split; f_equal.
  - apply tidy_eq; [done..|]. intros x [d l]. split; intros Hp.
    + destruct (Si' _ _ Hp) as [El (k & m & Hk & He)]. cbn in El; subst l. by apply (Li (S k) (Ho (S k)) k x d m); [lia|..].
    + destruct (Si _ _ Hp) as [El (k & m & Hk & He)]. cbn in El; subst l. by apply (Li' (S (S k)) k x d m); [lia|..].
  - apply tidy_eq; [done..|]. intros x [d l]. split; intros Hp.
    + destruct (So' _ _ Hp) as [El [k Hk]]. cbn in El; subst l. by apply (Lo k (Ho k) k x d); [lia|].
    + destruct (So _ _ Hp) as [El [k Hk]]. cbn in El; subst l. by apply (Lo' (S k) k x d); [lia|].
Qed.

Lemma pass_fixed a : (∀ n, known b n → fixed a n) → pass b a = (a, false).
Proof.
  intros Hf. unfold pass. assert (H : ∀ l, (∀ n, n ∈ l → known b n) → foldl (visit b) (a, false) l = (a, false)).
  { induction l as [|n l IH]; intros Hk; cbn [foldl]; [done|]. assert (Hn : known b n) by (apply Hk; by left).
    destruct (visit_spec (a, false) n Hn) as (_ & _ & [[H1 H2]|[_ H]]); [|by destruct (H (Hf n Hn))].
    destruct (visit b (a, false) n) as [a' c]. cbn in H1, H2. subst. apply IH. intros m Hm. apply Hk. by right. }
  apply H. intros n Hn. by apply elem_of_sorted_keys in Hn.
Qed.

(** The passes settle before the ceiling. *)
Lemma settle_ok fuel i a :
  sound a → level i a → size (nodes b) + 2 ≤ fuel + i → 1 ≤ fuel →
  ∃ a', settle b fuel a = Ok a' ∧ sound a' ∧ ∀ j, level j a'.
Proof.
  revert i a. induction fuel as [|f IH]; intros i a Hs Hl Hf H1; [lia|]. cbn [settle].
  destruct (pass b a) as [a' changed] eqn:E. destruct changed.
  - destruct (pass_level i a Hs Hl) as [Hs' Hl']. rewrite E in Hs', Hl'. apply (IH (S i)); [done|done|lia|].
    destruct f; [|lia]. exfalso. assert (Hfix : pass b a = (a, false)).
    { apply pass_fixed, level_fixed; [done|]. apply level_all. intros n Hn.
      destruct (Hl n Hn) as [Ho Hi]. split; [intros k x d Hk; apply (Ho k); lia|intros k x d m Hk; apply (Hi k); lia]. }
    congruence.
  - destruct (pass_unchanged a) as [Ea Hfix]; [by rewrite E|]. rewrite E in Ea. cbn in Ea. subst a'. exists a.
    split; [done|]. split; [done|]. by apply fixed_level.
Qed.

Lemma reaching_definitions_ok :
  ∃ m, reaching_definitions b = Ok m ∧ ∀ n x d, known b n → d ∈ reaching m n x ↔ d.2 = line d.1 ∧ reaches x d.1 n.
Proof.
  unfold reaching_definitions. set (a := {| inbound := _ |}).
  assert (Hnone : ∀ n, default ∅ (((λ _, ∅ : Definitions) <$> nodes b) !! n) = ∅).
  { intros n. rewrite lookup_fmap. by destruct (nodes b !! n). }
  assert (Hs : sound a).
  { split; intros n; subst a; cbn [inbound outbound]; rewrite ?Hnone.
    - intros [c Hc]. rewrite lookup_fmap, Hc. split; by eexists.
    - split; apply tidy_empty.
    - intros x p []%mem_empty.
    - intros x p []%mem_empty. }
  destruct (settle_ok (fixpoint_pass_ceiling b) 0 a) as (a' & -> & Hs' & Hl); [done|split; intros ?; intros; lia|
    unfold fixpoint_pass_ceiling; lia|unfold fixpoint_pass_ceiling; lia|].
  exists (inbound a'). split; [done|]. intros n x [d l] Hn. unfold reaching. rewrite elem_of_elements. split.
  - intros Hp. by apply (sd_ins _ Hs' n x (d, l)).
  - cbn [fst snd]. intros [-> (k & m & Hk & He)]. apply (proj2 (Hl (S (S k)) n Hn) k x d m); [lia|done..].
Qed.

(** ** Taint *)

Definition used (n : str) : gset str := match facts b !! n with Some fs => nf_uses fs | None => ∅ end.
Definition sunk (n : str) : gset str := match facts b !! n with Some fs => nf_sinks fs | None => ∅ end.

(** A parameter is tainted, and so is all that a node defines when it uses a tainted
    definition. *)
Inductive tainted_at : str → str → Prop :=
  | tainted_param x : x ∈ params input → tainted_at (entry input) x
  | tainted_node d u n y : tainted_at d u → reaches u d n → u ∈ used n → y ∈ defs n → tainted_at n y.

Section Spread.
Variable m : gmap str Definitions.
Hypothesis Hm : ∀ n x d, known b n → d ∈ reaching m n x ↔ d.2 = line d.1 ∧ reaches x d.1 n.

Definition all_tainted (t : gset (str * str)) (n : str) : Prop := ∀ y, y ∈ defs n → (n, y) ∈ t.

Definition pending (t : gset (str * str)) : nat :=
  length (List.filter (λ n, negb (bool_decide (set_Forall (λ y, (n, y) ∈ t) (defs n)))) (sorted_keys (facts b))).

Lemma facts_known n fs : facts b !! n = Some fs → known b n.
Proof. intros E. apply (bt_nodes _ _ Hb). assert (H : is_Some (facts b !! n)) by (by eexists). apply (bt_facts _ _ Hb) in H. tauto. Qed.

Lemma consumes_spec t n fs :
  facts b !! n = Some fs →
  consumes_taint m t n fs = true ↔ ∃ u d, u ∈ used n ∧ reaches u d n ∧ (d, u) ∈ t.
Proof.
  intros E. unfold consumes_taint. pose proof (facts_known _ _ E) as Hn. rewrite existsb_true. setoid_rewrite existsb_true.
  unfold used. rewrite E. split.
  - intros (u & Hu%elem_of_elements & [d l] & Hd & Ht). apply Hm in Hd as [_ Hr]; [|done]. apply bool_decide_eq_true_1 in Ht. eauto.
  - intros (u & d & Hu & Hr & Ht). exists u. split; [by apply elem_of_elements|]. exists (d, line d).
    split; [by apply Hm|by apply bool_decide_eq_true_2].
Qed.

(** The inner loop, over the definitions of a node. *)
Lemma taint_defs_spec (n : str) (ys : list str) (st : gset (str * str) * bool) :
  let st' := foldl (taint_definition n) st ys in
  (∀ z, z ∈ st'.1 ↔ z ∈ st.1 ∨ ∃ y, y ∈ ys ∧ z = (n, y))
  ∧ (st'.2 = true ↔ st.2 = true ∨ ∃ y, y ∈ ys ∧ ((n, y) ∉ st.1)).
Proof.
  revert st. induction ys as [|y ys IH]; intros st; cbn [foldl].
  - split; [intros z|]; (split; [by left|]); (intros [?|(y & Hy & _)]; [done|by apply elem_of_nil in Hy]).
  - destruct (IH (taint_definition n st y)) as [H1 H2].
    change ((taint_definition n st y).1) with ({[(n, y)]} ∪ st.1) in H1, H2.
    change ((taint_definition n st y).2) with (st.2 || negb (bool_decide ((n, y) ∈ st.1))) in H2. split.
    + intros z. rewrite H1, elem_of_union, elem_of_singleton. setoid_rewrite elem_of_cons. split.
      * intros [[->|?]|(y' & ? & ->)]; [right; exists y; auto|by left|right; exists y'; auto].
      * intros [?|(y' & [->|?] & ->)]; [by left; right|by left; left|right; eauto].
    + rewrite H2, orb_true_iff, negb_true_iff, bool_decide_eq_false. setoid_rewrite elem_of_cons. setoid_rewrite not_elem_of_union.
      split.
      * intros [[?|?]|(y' & ? & _ & ?)]; [by left|right; exists y; auto|right; exists y'; auto].
      * intros [?|(y' & [->|?] & ?)]; [by left; left|by left; right|].
        destruct (decide (y' = y)) as [->|Hne]; [by left; right|right; exists y'; split; [done|]]. split; [|done]. set_solver.
Qed.

Lemma taint_node_spec st n :
  n ∈ sorted_keys (facts b) →
  let st' := taint_node b m st n in
  let fires := ∃ u d, u ∈ used n ∧ reaches u d n ∧ (d, u) ∈ st.1 in
  (∀ z, z ∈ st'.1 ↔ z ∈ st.1 ∨ fires ∧ ∃ y, y ∈ defs n ∧ z = (n, y))
  ∧ (st'.2 = true ↔ st.2 = true ∨ fires ∧ ¬ all_tainted st.1 n).
Proof.
  intros [fs E]%elem_of_sorted_keys. cbn zeta. unfold taint_node. rewrite E.
  pose proof (consumes_spec st.1 n fs E) as Hc. unfold defs, all_tainted, defs. rewrite E.
  destruct (consumes_taint m st.1 n fs).
  - destruct (taint_defs_spec n (in_order (nf_definitions fs)) st) as [H1 H2]. cbn zeta in *.
    setoid_rewrite elem_of_in_order in H1. setoid_rewrite elem_of_in_order in H2.
    pose proof (proj1 Hc eq_refl) as Hfire. split; [intros z; rewrite H1; tauto|]. rewrite H2. split.
    + intros [?|(y & Hy & Hn)]; [by left|right]. split; [done|]. intros Ha. by apply Hn, Ha.
    + intros [?|[_ Hn]]; [by left|right]. apply not_set_Forall_Exists in Hn as (y & Hy & Hn); [by exists y|apply _].
  - assert (Hno : ¬ ∃ u d, u ∈ used n ∧ reaches u d n ∧ (d, u) ∈ st.1) by (intros H; by apply Hc in H).
    split; [intros z|]; tauto.
Qed.

Definition fires (t : gset (str * str)) (n : str) : Prop := ∃ u d, u ∈ used n ∧ reaches u d n ∧ (d, u) ∈ t.

Definition justified (t : gset (str * str)) : Prop := ∀ n y, (n, y) ∈ t → tainted_at n y.

Lemma taint_nodes_spec l st :
  (∀ n, n ∈ l → n ∈ sorted_keys (facts b)) →
  let st' := foldl (taint_node b m) st l in
  st.1 ⊆ st'.1 ∧ (justified st.1 → justified st'.1)
  ∧ (st'.2 = false → st.2 = false ∧ st'.1 = st.1 ∧ ∀ n, n ∈ l → fires st.1 n → all_tainted st.1 n)
  ∧ (st'.2 = true → st.2 = true ∨ ∃ n, n ∈ l ∧ ¬ all_tainted st.1 n ∧ all_tainted st'.1 n).
Proof.
  revert st. induction l as [|n l IH]; intros st Hl; cbn [foldl].
  { split; [done|]. split; [done|]. split; [|by left]. intros E. split; [done|]. split; [done|].
    intros n Hn. by apply elem_of_nil in Hn. }
  destruct (taint_node_spec st n) as [H1 H2]; [apply Hl; by left|]. change (∃ u d, _) with (fires st.1 n) in H1, H2.
  set (st1 := taint_node b m st n) in *.
  destruct (IH st1) as (K1 & K2 & K3 & K4); [intros x Hx; apply Hl; by right|]. clear IH.
  assert (Hsub : st.1 ⊆ st1.1) by (intros z Hz; apply H1; by left). split; [set_solver|]. split; [|split].
  - intros Hj. apply K2. intros v y [Hz|[(u & d & Hu & Hr & Ht) (y' & Hy & [= -> ->])]]%H1; [by apply Hj|].
    eapply tainted_node; [by apply Hj|exact Hr|done..].
  - intros E. destruct (K3 E) as (E1 & E2 & Hf). assert (Hn : st.2 = false ∧ (fires st.1 n → all_tainted st.1 n)).
    { destruct (st.2) eqn:Es; [exfalso; rewrite (proj2 H2) in E1; [done|by left]|]. split; [done|]. intros Hfire y Hy.
      destruct (decide ((n, y) ∈ st.1)) as [|Hny]; [done|]. exfalso. rewrite (proj2 H2) in E1; [done|]. right.
      split; [done|]. intros Ha. by apply Hny, Ha. }
    destruct Hn as [Es Hn]. assert (Esame : st1.1 = st.1).
    { apply set_eq. intros z. rewrite H1. split; [|by left]. intros [?|[Hfire (y & Hy & ->)]]; [done|by apply Hn]. }
    rewrite E2, Esame in *. split; [done|]. split; [done|]. intros v [->|Hv]%elem_of_cons; [done|by apply Hf].
  - intros E. destruct (K4 E) as [E1|(v & Hv & Hno & Hyes)].
    + apply H2 in E1 as [?|[Hfire Hno]]; [by left|]. right. exists n. split; [by left|]. split; [done|].
      intros y Hy. apply K1, H1. right. split; [done|]. eauto.
    + right. exists v. split; [by right|]. split; [|done]. intros Ha. apply Hno. intros y Hy. by apply Hsub, Ha.
Qed.

Lemma length_filter_lt {A} (p q : A → bool) l x :
  (∀ y, q y = true → p y = true) → x ∈ l → p x = true → q x = false →
  length (List.filter q l) < length (List.filter p l).
Proof.
  intros Hqp Hx Hp Hq. assert (Hle : ∀ k, length (List.filter q k) ≤ length (List.filter p k)).
  { induction k as [|y k IH]; cbn [List.filter]; [done|]. destruct (q y) eqn:E; [rewrite (Hqp _ E); cbn; lia|].
    destruct (p y); cbn; lia. }
  induction l as [|y l IH]; [by apply elem_of_nil in Hx|]. cbn [List.filter].
  apply elem_of_cons in Hx as [<-|Hx].
  - rewrite Hp, Hq. cbn. specialize (Hle l). lia.
  - specialize (IH Hx). destruct (q y) eqn:E; [rewrite (Hqp _ E); cbn; lia|]. destruct (p y); cbn; lia.
Qed.

Lemma taint_pass_pending t t' :
  taint_pass b m t = (t', true) → pending t' < pending t.
Proof.
  intros E. unfold taint_pass in E. destruct (taint_nodes_spec (sorted_keys (facts b)) (t, false)) as (K1 & _ & _ & K4); [done|].
  rewrite E in K1, K4. destruct (K4 eq_refl) as [?|(n & Hn & Hno & Hyes)]; [done|]. cbn [fst] in *.
  unfold pending. apply (length_filter_lt _ _ _ n); [|done| |].
  - intros v. rewrite !negb_true_iff, !bool_decide_eq_false. intros H H'. apply H. intros y Hy. by apply K1, H'.
  - apply negb_true_iff, bool_decide_eq_false. done.
  - apply negb_false_iff, bool_decide_eq_true. done.
Qed.

Lemma spread_ok fuel t :
  justified t → pending t < fuel →
  ∃ t', spread b m fuel t = Ok t' ∧ justified t' ∧ t ⊆ t' ∧ ∀ n fs, facts b !! n = Some fs → fires t' n → all_tainted t' n.
Proof.
  revert t. induction fuel as [|f IH]; intros t Hj Hp; [lia|]. cbn [spread].
  destruct (taint_pass b m t) as [t1 changed] eqn:E. pose proof E as E'. unfold taint_pass in E'.
  destruct (taint_nodes_spec (sorted_keys (facts b)) (t, false)) as (K1 & K2 & K3 & _); [done|].
  rewrite E' in K1, K2, K3. cbn [fst snd] in *. destruct changed.
  - pose proof (taint_pass_pending _ _ E). destruct (IH t1) as (t' & -> & H1 & H2 & H3); [by apply K2|lia|].
    exists t'. split; [done|]. split; [done|]. split; [set_solver|done].
  - destruct (K3 eq_refl) as (_ & -> & Hf). exists t. split; [done|]. split; [done|]. split; [done|].
    intros n fs En. apply Hf. apply elem_of_sorted_keys. by eexists.
Qed.

Lemma facts_fewer : size (facts b) ≤ size (nodes b).
Proof.
  assert (Hsub : map fst (map_to_list (facts b)) ⊆+ map fst (map_to_list (nodes b))).
  { apply NoDup_submseteq; [apply NoDup_fst_map_to_list|]. intros n ([k fs] & -> & Hk%elem_of_map_to_list)%elem_of_map.
    destruct (facts_known _ _ Hk) as [c Hc]. apply elem_of_map. exists (k, c). split; [done|]. by apply elem_of_map_to_list. }
  apply submseteq_length in Hsub. by rewrite !length_map, !length_map_to_list in Hsub.
Qed.

Lemma pending_bound t : pending t ≤ size (facts b).
Proof.
  unfold pending. etrans; [apply filter_length_le|]. unfold sorted_keys, sort_strs.
  by rewrite length_sort_by, length_map, length_map_to_list.
Qed.

(** The taint that is spread is the least. *)
Lemma spread_all :
  ∃ t, spread b m (fixpoint_pass_ceiling b) (list_to_set (map (λ p, (entry input, p)) (params input))) = Ok t
    ∧ ∀ n y, (n, y) ∈ t ↔ tainted_at n y.
Proof.
  destruct (spread_ok (fixpoint_pass_ceiling b) (list_to_set (map (λ p, (entry input, p)) (params input)))) as
    (t & -> & Hj & Hsub & Hclosed).
  - intros n y Hy. apply elem_of_list_to_set in Hy. apply elem_of_map in Hy as (p & [= -> ->] & Hp). by constructor.
  - unfold fixpoint_pass_ceiling. pose proof facts_fewer. match goal with |- pending ?t < _ => pose proof (pending_bound t) end. lia.
  - exists t. split; [done|]. intros n y. split; [apply Hj|]. induction 1 as [x Hx|d u n y _ IH Hr Hu Hy].
    + apply Hsub, elem_of_list_to_set, elem_of_map. eauto.
    + unfold used in Hu. destruct (facts b !! n) as [fs|] eqn:E; [|set_solver]. eapply Hclosed; [exact E| |exact Hy].
      exists u, d. split; [unfold used; by rewrite E|done].
Qed.

End Spread.

End Data.
End PdgData.
