(* ===== verification/PdgProps.v ===== *)
(** * The program dependence graph is right

    Every function that validates gets a graph; its data, parameter and taint edges are
    the reaching definitions and the least taint of its control edges; and every run of
    the function is a path of the graph along which no flow of data lacks its edge. *)

From S2P Require Import Prelude RustStr RustStrFacts Order Pdg PdgFacts PdgPaths PdgData.
Import Pdg PdgFacts PdgPaths.PdgRuns PdgPaths PdgData.

#[local] Open Scope nat_scope.

Module PdgProps.

(** ** The graph is built *)

Lemma add_data_edges_ok input b :
  built input b →
  ∃ all m t, add_data_edges b (entry input) (params input) = Ok all
    ∧ all = edges b ++ flat_map (node_edges b m t (entry input)) (sorted_keys (facts b))
    ∧ (∀ n x d, known b n → d ∈ reaching m n x ↔ d.2 = line b d.1 ∧ reaches b x d.1 n)
    ∧ ∀ n y, (n, y) ∈ t ↔ tainted_at input b n y.
Proof.
  intros Hb. unfold add_data_edges. destruct (reaching_definitions_ok input b Hb) as (m & -> & Hm).
  destruct (spread_all input b Hb m Hm) as (t & -> & Ht). exists (edges b ++ flat_map (node_edges b m t (entry input)) (sorted_keys (facts b))), m, t.
  split; [done|]. split; [done|]. split; [exact Hm|exact Ht].
Qed.

(** C34. A function gets a graph exactly when it validates: no valid tree hits the nesting
    cap again, and neither data-flow iteration reaches its pass ceiling. What fails, fails
    with the refusal of its validation. *)
Theorem valid_functions_get_graphs input :
  match validate input with
  | Ok _ => ∃ pdg, build_function_pdg input = Ok pdg
  | Err e => build_function_pdg input = Err e
  end.
Proof.
  unfold build_function_pdg. destruct (validate input) as [[]|e] eqn:E; [|done].
  destruct (validate_builds_control _ E) as [b Eb]. unfold finish. rewrite Eb.
  destruct (add_data_edges_ok input b) as (all & m & t & -> & _); [by apply control_graph_built|]. eauto.
Qed.

(** ** The edges *)

Lemma elem_of_node_edges b m t start n e :
  e ∈ node_edges b m t start n ↔
    (∃ x d, x ∈ used b n ∧ d ∈ reaching m n x ∧ e = data_edge start n x d)
    ∨ (∃ x d, x ∈ sunk b n ∧ d ∈ reaching m n x ∧ (d.1, x) ∈ t ∧ e = taint_edge n x d).
Proof.
  unfold node_edges, used, sunk. destruct (facts b !! n) as [fs|].
  2: { rewrite elem_of_nil. split; [done|]. intros [(x & d & Hx & _)|(x & d & Hx & _)]; set_solver. }
  rewrite elem_of_app, !elem_of_flat_map. setoid_rewrite elem_of_in_order. setoid_rewrite elem_of_map.
  setoid_rewrite elem_of_filter_bool. setoid_rewrite bool_decide_eq_true. split.
  - intros [(x & Hx & d & -> & Hd)|(x & Hx & d & -> & Hd & Ht)]; [left|right]; eauto 10.
  - intros [(x & d & Hx & Hd & ->)|(x & d & Hx & Hd & Ht & ->)]; [left|right]; eauto 10.
Qed.

Definition data_kind (input : FunctionPdgInput) (s : str) : str :=
  if bool_decide (s = entry input) then lit "param" else lit "data".

Lemma built_edges input pdg :
  build_function_pdg input = Ok pdg →
  ∃ b, control_graph input = Ok b ∧ built input b ∧ pdg_nodes pdg = nodes b
    ∧ (∀ s n k, {| source_node := s; target_node := n; edge_kind := k; variable := None |} ∈ pdg_edges pdg ↔
        {| source_node := s; target_node := n; edge_kind := k; variable := None |} ∈ edges b)
    ∧ ∀ s n k x, {| source_node := s; target_node := n; edge_kind := k; variable := Some x |} ∈ pdg_edges pdg ↔
        reaches b x s n ∧ (k = data_kind input s ∧ x ∈ used b n
                           ∨ k = lit "taint" ∧ x ∈ sunk b n ∧ tainted_at input b s x).
Proof.
  unfold build_function_pdg. destruct (validate input); [|done]. unfold finish.
  destruct (control_graph input) as [b|] eqn:Eb; [|done]. pose proof (control_graph_built _ _ Eb) as Hb.
  destruct (add_data_edges_ok input b Hb) as (all & m & t & -> & -> & Hm & Ht). intros [= <-]. exists b.
  split; [done|]. split; [done|]. split; [done|]. cbn [pdg_edges].
  assert (Hnode : ∀ n, n ∈ sorted_keys (facts b) ↔ is_Some (facts b !! n)) by (intros n; apply elem_of_sorted_keys).
  split; intros s n k.
  - rewrite elem_of_dedup_runs, elem_of_sort_by, elem_of_app. split; [|by left]. intros [?|He]; [done|].
    apply elem_of_flat_map in He as (n' & _ & [(x & d & _ & _ & E)|(x & d & _ & _ & _ & E)]%elem_of_node_edges); done.
  - intros x. rewrite elem_of_dedup_runs, elem_of_sort_by, elem_of_app, elem_of_flat_map. split.
    + intros [He|(n' & Hn' & He)]; [by destruct (bt_edges _ _ Hb _ He) as (? & _)|].
      apply Hnode in Hn' as [fs Hfs]. pose proof (facts_known input b Hb _ _ Hfs) as Hk.
      apply elem_of_node_edges in He as [(y & d & Hy & Hd & [= -> -> -> ->])|(y & d & Hy & Hd & Hdt & [= -> -> -> ->])];
        apply Hm in Hd as [_ Hr]; [|done| |done]; (split; [done|]); [by left|right]. split; [done|]. split; [done|]. by apply Ht.
    + intros [Hr Hcase]. right. exists n.
      assert (Hk : known b n) by (destruct Hr as (c & u & _ & He); by destruct (edge_known input b Hb _ _ He)).
      assert (Hd : (s, line b s) ∈ reaching m n x) by (by apply Hm).
      assert (Hf : is_Some (facts b !! n)).
      { destruct (facts b !! n) as [fs|] eqn:E; [by eexists|]. unfold used, sunk in Hcase. rewrite E in Hcase. set_solver. }
      split; [by apply Hnode|]. apply elem_of_node_edges.
      destruct Hcase as [[-> Hx]|(-> & Hx & Hta)]; [left|right]; exists x, (s, line b s); [done|]. repeat split; [done..|by apply Ht].
Qed.

(** C33. The edges of the graph that carry a variable are exactly these: from a node that
    defines it to one that uses it, where a path of control edges leads from the one to
    the other without defining it again; and a taint edge, where the use is a sink and
    the definition depends on a parameter. *)
Theorem data_edges_are_reaching_definitions input pdg :
  build_function_pdg input = Ok pdg →
  ∃ b, control_graph input = Ok b ∧ pdg_nodes pdg = nodes b
    ∧ ∀ s n k x, {| source_node := s; target_node := n; edge_kind := k; variable := Some x |} ∈ pdg_edges pdg ↔
        reaches b x s n ∧ (k = data_kind input s ∧ x ∈ used b n
                           ∨ k = lit "taint" ∧ x ∈ sunk b n ∧ tainted_at input b s x).
Proof. intros Hp. destruct (built_edges _ _ Hp) as (b & ? & _ & ? & _ & ?). eauto. Qed.

(** ** Runs *)

(** The steps of a run, the entry first. *)
Definition entry_step (input : FunctionPdgInput) : Step :=
  {| step_kind := NodeEntry; step_line := start_line input;
     step_facts := {| nf_definitions := list_to_set (params input); nf_uses := ∅; nf_sinks := ∅ |} |}.

Definition defined (st : Step) : gset str := nf_definitions (step_facts st).

(** The value of [x] at step [j] is the one step [i] gave it. *)
Definition carries (steps : list Step) (i j : nat) (x : str) : Prop :=
  i < j ∧ (∃ a, steps !! i = Some a ∧ x ∈ defined a)
  ∧ ∀ k c, i < k < j → steps !! k = Some c → (x ∉ defined c).

(** The value step [i] gave [x] depends on a parameter. *)
Inductive dirty (ps : list str) (steps : list Step) : nat → str → Prop :=
  | dirty_param x : x ∈ ps → dirty ps steps 0 x
  | dirty_step i j u y c : dirty ps steps i u → carries steps i j u → steps !! j = Some c →
      u ∈ nf_uses (step_facts c) → y ∈ defined c → dirty ps steps j y.

Lemma linked_lookup b u ids k v w :
  linked b u ids → (u :: ids) !! k = Some v → (u :: ids) !! S k = Some w → control_edge b v w.
Proof.
  revert u k. induction ids as [|c ids IH]; intros u k; [done|]. intros [He Hl]. destruct k as [|k].
  - intros [= ->] [= ->]. done.
  - intros Hv Hw. by eapply (IH c k).
Qed.

Section Follow.
Context (input : FunctionPdgInput) (b : PdgBuilder) (ids : list str) (t : list Step).
Hypothesis Hb : built input b.
Hypothesis Hlinked : linked b (entry input) ids.
Hypothesis Hlabels : Forall2 (labelled b) ids t.

Abbreviation steps := (entry_step input :: t).
Abbreviation path := (entry input :: ids).

Lemma step_at i v c : path !! i = Some v → steps !! i = Some c → facts b !! v = Some (step_facts c).
Proof.
  destruct i as [|i]; cbn; [intros [= <-] [= <-]; apply Hb|]. intros Hv Hc.
  by destruct (Forall2_lookup_lr _ _ _ _ _ _ Hlabels Hv Hc).
Qed.

Lemma step_of_node i v : path !! i = Some v → ∃ c, steps !! i = Some c ∧ facts b !! v = Some (step_facts c).
Proof.
  intros Hv. assert (Hlt : i < length steps).
  { apply lookup_lt_Some in Hv. cbn in *. by rewrite <- (Forall2_length _ _ _ Hlabels). }
  destruct (lookup_lt_is_Some_2 _ _ Hlt) as [c Hc]. exists c. split; [done|]. by eapply step_at.
Qed.

Lemma node_known i v : path !! i = Some v → known b v.
Proof. intros (c & _ & Hf)%step_of_node. by eapply facts_known. Qed.

Lemma carries_reaches i j x u v :
  carries steps i j x → path !! i = Some u → path !! j = Some v → reaches b x u v.
Proof.
  intros (Hij & (a & Ha & Hx) & Hno) Hu Hv. destruct j as [|j]; [lia|].
  assert (Hpass : ∀ k w, i + k ≤ j → path !! (i + k) = Some w → ∃ n, passes b x u n w).
  { induction k as [|k IH]; intros w Hk Hw.
    - rewrite Nat.add_0_r in Hw. assert (w = u) as -> by congruence. exists 0. constructor; [|by eapply node_known].
      unfold defs. by rewrite (step_at _ _ _ Hu Ha).
    - assert (Hlt : i + k < length path) by (apply lookup_lt_Some in Hw; lia).
      destruct (lookup_lt_is_Some_2 _ _ Hlt) as [w' Hw']. destruct (IH w' ltac:(lia) Hw') as [n Hn]. exists (S n).
      replace (i + S k) with (S (i + k)) in * by lia. econstructor; [exact Hn|by eapply linked_lookup|].
      destruct (step_of_node _ _ Hw) as (c & Hc & Hf). unfold defs. rewrite Hf. apply (Hno (S (i + k))); [lia|done]. }
  assert (Hlt : j < length path) by (apply lookup_lt_Some in Hv; lia).
  destruct (lookup_lt_is_Some_2 _ _ Hlt) as [w Hw]. destruct (Hpass (j - i) w) as [n Hn]; [lia|by replace (i + (j - i)) with j by lia|].
  exists n, w. split; [done|]. by eapply linked_lookup.
Qed.

Lemma dirty_tainted i x u : dirty (params input) steps i x → path !! i = Some u → tainted_at input b u x.
Proof.
  intros Hd. revert u. induction Hd as [x Hx|i j w y c _ IH Hc Hj Hw Hy]; intros u Hu.
  - injection Hu as <-. by constructor.
  - assert (Hlt : i < length path) by (apply lookup_lt_Some in Hu; destruct Hc; lia).
    destruct (lookup_lt_is_Some_2 _ _ Hlt) as [v Hv]. pose proof (step_at _ _ _ Hu Hj) as Hf.
    eapply tainted_node; [by apply IH|by eapply carries_reaches| |].
    + unfold used. by rewrite Hf.
    + unfold defs. by rewrite Hf.
Qed.

End Follow.

(** C14. Every run of the function whose exceptions the graph has edges for is a path of it,
    from the entry, through nodes of the kinds and lines it passes, and to the exit if it
    leaves; and along that path every use has a data edge from where its value was given,
    and every sink that is handed a value made from a parameter has a taint edge. The runs
    left out are those in which an exception enters a [finally] before the first statement
    of its [try] is done, or out of one of its handlers: [unrouted_run_is_missed] is one. *)
Theorem routed_runs_are_followed input pdg t o :
  build_function_pdg input = Ok pdg → runs (exec Routed) (body input) t o →
  ∃ ids, let path := entry input :: ids in let steps := entry_step input :: t in
    Forall2 (λ id st, ∃ n, pdg_nodes pdg !! id = Some n ∧ cn_kind n = step_kind st ∧ leader_line n = step_line st) ids t
    ∧ (∀ k u v, path !! k = Some u → path !! S k = Some v →
        ∃ kind, {| source_node := u; target_node := v; edge_kind := kind; variable := None |} ∈ pdg_edges pdg)
    ∧ (o ≠ Thrown → ∃ kind, {| source_node := last_from (entry input) ids; target_node := exit input; edge_kind := kind;
                               variable := None |} ∈ pdg_edges pdg)
    ∧ ∀ i j x u v c, carries steps i j x → path !! i = Some u → path !! j = Some v → steps !! j = Some c →
        (x ∈ nf_uses (step_facts c) →
          {| source_node := u; target_node := v; edge_kind := data_kind input u; variable := Some x |} ∈ pdg_edges pdg)
        ∧ (x ∈ nf_sinks (step_facts c) → dirty (params input) steps i x →
          {| source_node := u; target_node := v; edge_kind := lit "taint"; variable := Some x |} ∈ pdg_edges pdg).
Proof.
  intros Hp Hr. destruct (built_edges _ _ Hp) as (b & Eb & Hb & -> & Hctl & Hdata).
  destruct (runs_have_paths input b t o Eb Hr) as (ids & Hlinked & Hlabels & Hexit). exists ids. cbn zeta.
  split; [|split; [|split]].
  - eapply Forall2_impl; [exact Hlabels|]. by intros id st [? _].
  - intros k u v Hu Hv. destruct (linked_lookup _ _ _ _ _ _ Hlinked Hu Hv) as [kind Hk]. exists kind. by apply Hctl.
  - intros Ho. destruct (Hexit Ho) as [kind Hk]. exists kind. by apply Hctl.
  - intros i j x u v c Hc Hu Hv Hj. pose proof (carries_reaches input b ids t Hb Hlinked Hlabels _ _ _ _ _ Hc Hu Hv) as Hreach.
    pose proof (step_at input b ids t Hb Hlabels _ _ _ Hv Hj) as Hf. split.
    + intros Hx. apply Hdata. split; [done|]. left. unfold used. by rewrite Hf.
    + intros Hx Hd. apply Hdata. split; [done|]. right. unfold sunk. rewrite Hf. split; [done|]. split; [done|].
      by eapply (dirty_tainted input b ids t Hb Hlinked Hlabels).
Qed.

(** ** A function with a [try] *)

Definition at_line (line : Z) (defs uses sinks : list str) (kind : PdgStatementKind) : PdgStatement :=
  Statement {| pt_line := line; definitions := defs; uses := uses; taint_sinks := sinks |} kind.

Definition function (params : list str) (body : list PdgStatement) : FunctionPdgInput :=
  {| function_name := lit "f"; generation_id := 1; content_hash := 2; start_line := 1; end_line := 9;
     params := params; body := body |}.

(** [f(p): try: x = p; x = clean() / finally: sink(x)]. *)
Definition first : PdgStatement := at_line 3 [lit "x"] [lit "p"] [] Basic.
Definition second : PdgStatement := at_line 4 [lit "x"] [] [] Basic.
Definition last : PdgStatement := at_line 6 [] [lit "x"] [lit "x"] Basic.
Definition whole : PdgStatement := at_line 2 [] [] [] (Try [first; second] [] [last]).
Definition sample : FunctionPdgInput := function [lit "p"] [whole].

Definition graph_of (input : FunctionPdgInput) : FunctionPdg :=
  match build_function_pdg input with
  | Ok pdg => pdg
  | Err _ => {| pdg_function_name := []; pdg_generation_id := 0; pdg_content_hash := 0; pdg_nodes := ∅; pdg_edges := [] |}
  end.

Lemma sample_builds : build_function_pdg sample = Ok (graph_of sample).
Proof. vm_compute. reflexivity. Qed.

(** The run in which [clean] raises: its dispatch, then the [finally]. *)
Definition sample_run : list Step := [step_of whole; step_of first; dispatch_step whole; step_of last].

Lemma sample_runs : runs (exec Routed) (body sample) sample_run Outward.
Proof.
  apply (runs_stop _ whole [] [step_of first; dispatch_step whole; step_of last]); [|done].
  eapply exec_try; [done|by right|]. change ([step_of first; dispatch_step whole; step_of last]) with
    (([step_of first] ++ [dispatch_step whole]) ++ [step_of last]).
  apply guarded_outward; [done| | |done].
  - apply tried_unhandled; [|done]. apply runs_stop; [constructor|done].
  - apply (runs_next _ last [] [] []); [by apply exec_basic|constructor].
Qed.

Lemma data_edges_are_reaching_definitions_witness :
  build_function_pdg sample = Ok (graph_of sample)
  ∧ ∃ b, control_graph sample = Ok b ∧ reaches b (lit "x") (node_id sample 3 1) (node_id sample 6 4).
Proof.
  split; [exact sample_builds|].
  destruct (data_edges_are_reaching_definitions sample (graph_of sample) sample_builds) as (b & Hb & _ & He).
  exists b. split; [exact Hb|].
  refine (proj1 (proj1 (He (node_id sample 3 1) (node_id sample 6 4) (lit "data") (lit "x")) _)).
  apply list_elem_of_In. vm_compute. tauto.
Defined.

Lemma routed_runs_are_followed_witness :
  runs (exec Routed) (body sample) sample_run Outward
  ∧ ∃ u v, {| source_node := u; target_node := v; edge_kind := lit "taint"; variable := Some (lit "x") |}
           ∈ pdg_edges (graph_of sample).
Proof.
  split; [exact sample_runs|].
  destruct (routed_runs_are_followed sample (graph_of sample) sample_run Outward sample_builds sample_runs)
    as (ids & Hids & _ & _ & Hflow).
  pose proof (Forall2_length _ _ _ Hids) as Hlen. destruct ids as [|n0 [|n1 [|n2 [|n3 [|n4 ids]]]]]; try discriminate Hlen.
  exists n1, n3. refine (proj2 (Hflow 2 4 (lit "x") n1 n3 (step_of last) _ eq_refl eq_refl eq_refl) _ _).
  - split; [lia|]. split; [exists (step_of first); split; [reflexivity|by apply elem_of_list_to_set, list_elem_of_singleton]|].
    intros k c Hk Hc. assert (k = 3) as -> by lia. injection Hc as <-. apply not_elem_of_empty.
  - by apply elem_of_list_to_set, list_elem_of_singleton.
  - apply (dirty_step _ _ 0 2 (lit "p") (lit "x") (step_of first)); [by constructor; apply list_elem_of_singleton| |reflexivity|..].
    + split; [lia|]. split; [exists (entry_step sample); split; [reflexivity|by apply elem_of_list_to_set, list_elem_of_singleton]|].
      intros k c Hk Hc. assert (k = 1) as -> by lia. injection Hc as <-. apply not_elem_of_empty.
    + by apply elem_of_list_to_set, list_elem_of_singleton.
    + by apply elem_of_list_to_set, list_elem_of_singleton.
Defined.

(** An exception of the first statement, before it gives [x] its new value, is not
    followed into the [finally]; it is into a handler. *)
Definition reaches_sink (input : FunctionPdgInput) : bool :=
  existsb (λ e, bool_decide (source_node e = entry input ∧ edge_kind e = lit "taint")) (pdg_edges (graph_of input)).

Example first_exception_misses_the_finally :
  reaches_sink (function [lit "x"] [at_line 2 [] [] [] (Try [second] [] [last])]) = false
  ∧ reaches_sink (function [lit "x"] [at_line 2 [] [] [] (Try [second] [[last]] [])]) = true.
Proof. vm_compute. split; reflexivity. Qed.

(** The run in which the only statement of a [try] raises before it is done: it goes from the
    [try] to the [finally], and the graph has no edge from the one line to the other. *)
Definition lone : PdgStatement := at_line 2 [] [] [] (Try [second] [] [last]).

(** Whether a control edge leads from a node of one step to a node of another. *)
Definition leads (input : FunctionPdgInput) (a b : Step) : bool :=
  let at_ id := (λ n, (cn_kind n, leader_line n)) <$> pdg_nodes (graph_of input) !! id in
  existsb (λ e, bool_decide (variable e = None ∧ at_ (source_node e) = Some (step_kind a, step_line a)
                             ∧ at_ (target_node e) = Some (step_kind b, step_line b)))
    (pdg_edges (graph_of input)).

Example unrouted_run_is_missed :
  runs (exec Any) [lone] [step_of lone; step_of last] Outward
  ∧ leads (function [lit "x"] [lone]) (step_of lone) (step_of last) = false
  ∧ leads (function [lit "x"] [lone]) (step_of second) (step_of last) = true.
Proof.
  split; [|split; by vm_compute]. apply (runs_stop _ lone [] [step_of last]); [|done].
  eapply exec_try; [done|by right|]. apply guarded_early; [done|done| |done].
  apply (runs_next _ last [] [] []); [by apply exec_basic|constructor].
Qed.

End PdgProps.
