(* ===== verification/EvidenceTypes.v ===== *)
(** * Evidence records: [rust/dc-evidence/src/types.rs] and [strict_json.rs]

    [serde_json::Value] and the decoding of bytes belong to [serde_json]; the value type
    is the class [JsonValue], with the operations the verifier calls. *)

From S2P Require Import Prelude RustStr.
From Stdlib Require Import SpecFloat.

#[local] Set Warnings "-register-all".

#[local] Open Scope Z_scope.

Module EvidenceTypes.

(** ** Values *)

(** [serde_json::Value]: [is_null], [as_str], [as_array], [as_f64], equality and the two
    constructors the code uses, with what is documented of them. *)
Class JsonValue := {
  value : Type;
  value_eqb : value → value → bool;
  is_null : value → bool;
  as_string : value → option str;
  as_array : value → option (list value);
  as_f64 : value → option spec_float;
  mk_string : str → value;
  mk_bool : bool → value;
  value_eqb_string : ∀ a b, value_eqb (mk_string a) (mk_string b) = bool_decide (a = b);
  value_eqb_bool : ∀ a b, value_eqb (mk_bool a) (mk_bool b) = Bool.eqb a b;
  string_not_null : ∀ s, is_null (mk_string s) = false;
  as_string_mk : ∀ s, as_string (mk_string s) = Some s;
}.

(** ** Contracts *)

Section Records.
Context `{JsonValue}.

Inductive Predicate : Type :=
  | Exists
  | Equals (v : value)
  | NotEquals (v : value)
  | Contains (v : value)
  | Minimum (v : value).

Record Criterion := {
  cr_id : str;
  cr_fact : str;
  cr_required : bool;
  cr_predicate : Predicate;
}.

Record Contract := {
  ct_schema_version : Z;
  ct_id : str;
  ct_criteria : list Criterion;
}.

(** ** Bundles *)

Inductive OutcomeKind : Type := Success | Business.

Record Outcome := { oc_id : str; oc_kind : OutcomeKind }.

Inductive InterventionStatus : Type := Requested | Returned | Abandoned.

Record Intervention := {
  iv_id : str;
  iv_sequence : Z;
  iv_reason_code : str;
  iv_status : InterventionStatus;
}.

Record HumanAction := {
  ha_id : str;
  ha_sequence : Z;
  ha_kind : str;
  ha_intervention_id : str;
}.

Record RecoveryApplied := { rc_id : str; rc_sequence : Z; rc_step_id : str }.

Record LocatorHit := { lh_target : str; lh_strategy_index : Z; lh_sequence : Z }.

Record EpochTransition := {
  et_sequence : Z;
  et_from_epoch : Z;
  et_to_epoch : Z;
  et_reason : str;
}.

Inductive Disposition : Type :=
  | Succeeded | NotDispatched | Failed_ | Unknown | Cancelled | Denied.

Record Action := { ac_id : str; ac_sequence : Z; ac_disposition : Disposition }.

(** [facts] are the map's entries in key order. *)
Record Observation := {
  ob_sequence : Z;
  ob_run_id : str;
  ob_session_id : str;
  ob_epoch : Z;
  ob_after_action_id : str;
  ob_facts : list (str * value);
  ob_artifact_ids : list str;
}.

Record Artifact := { ar_id : str; ar_path : str; ar_sha256 : str; ar_size_bytes : Z }.

Record Bundle := {
  b_schema_version : Z;
  b_run_id : str;
  b_session_id : str;
  b_epoch : Z;
  b_epoch_transitions : list EpochTransition;
  b_contract_sha256 : str;
  b_capability_sha256 : str;
  b_policy_sha256 : option str;
  b_outcome : option Outcome;
  b_journal_complete : bool;
  b_degraded : list str;
  b_actions : list Action;
  b_observations : list Observation;
  b_artifacts : list Artifact;
  b_interventions : list Intervention;
  b_human_actions : list HumanAction;
  b_recoveries : list RecoveryApplied;
  b_locator_hits : list LocatorHit;
}.

Record ExpectedRun := {
  ex_run_id : str;
  ex_session_id : str;
  ex_epoch : Z;
  ex_contract_sha256 : str;
  ex_capability_sha256 : str;
}.

End Records.

(** ** Reports *)

Inductive Verdict : Type := Passed | Failed | Incomplete.

#[export] Instance Verdict_eq_dec : EqDecision Verdict.
Proof. solve_decision. Defined.

Definition combine (a b : Verdict) : Verdict :=
  match a, b with
  | Failed, _ | _, Failed => Failed
  | Incomplete, _ | _, Incomplete => Incomplete
  | _, _ => Passed
  end.

Record CriterionResult := {
  rs_id : str;
  rs_required : bool;
  rs_verdict : Verdict;
  rs_reason : str;
}.

Record Issue := { is_code : str; is_verdict : Verdict }.

Record Report := {
  rp_ok : bool;
  rp_schema_version : Z;
  rp_verdict : Verdict;
  rp_contract_sha256 : str;
  rp_bundle_sha256 : str;
  rp_run_id : str;
  rp_criteria : list CriterionResult;
  rp_issues : list Issue;
}.

Definition with_verdict (v : Verdict) (issues : list Issue) (r : Report) : Report :=
  {| rp_ok := rp_ok r; rp_schema_version := rp_schema_version r; rp_verdict := v;
     rp_contract_sha256 := rp_contract_sha256 r; rp_bundle_sha256 := rp_bundle_sha256 r;
     rp_run_id := rp_run_id r; rp_criteria := rp_criteria r; rp_issues := issues |}.

(** [Report::issue]: recorded once per code, always combined into the verdict. *)
Definition issue (code : string) (v : Verdict) (r : Report) : Report :=
  let seen := existsb (λ i, bool_decide (is_code i = lit code)) (rp_issues r) in
  with_verdict (combine (rp_verdict r) v)
    (if seen then rp_issues r
     else rp_issues r ++ [{| is_code := lit code; is_verdict := v |}]) r.

(** ** Unique keys *)

(** What the JSON parser hands its visitor: a scalar, the elements of a sequence, or the
    entries of a map in the order they are written. *)
Inductive Tree : Type :=
  | TLeaf
  | TSeq (ts : list Tree)
  | TMap (kvs : list (str * Tree)).

(** [Checked]: no map at any depth repeats a key. *)
Fixpoint unique_keys (t : Tree) : bool :=
  match t with
  | TLeaf => true
  | TSeq ts => forallb unique_keys ts
  | TMap kvs =>
      (fix visit (keys : list str) (kvs : list (str * Tree)) : bool :=
         match kvs with
         | [] => true
         | (k, v) :: kvs' =>
             if bool_decide (k ∈ keys) then false
             else unique_keys v && visit (k :: keys) kvs'
         end) [] kvs
  end.

End EvidenceTypes.
