(* ===== verification/Evidence.v ===== *)
(** * Evidence verification: [rust/dc-evidence/src/lib.rs]

    [verify] judges an immutable bundle against a contract and the admission values its
    caller trusts. SHA-256 and the decoding of JSON into records are parameters: [sha2]
    and [serde_json] provide them. *)

From S2P Require Import Prelude RustStr EvidenceTypes.
From Stdlib Require Import SpecFloat.
Import EvidenceTypes.

#[local] Open Scope Z_scope.

Module Evidence.

Definition SCHEMA_VERSION : Z := 1.
Definition MAX_CONTRACT_BYTES : Z := 1024 * 1024.
Definition MAX_BUNDLE_BYTES : Z := 4 * 1024 * 1024.
Definition MAX_ARTIFACT_BYTES : Z := 16 * 1024 * 1024.
Definition MAX_TOTAL_ARTIFACT_BYTES : Z := 64 * 1024 * 1024.
Definition MAX_ARTIFACTS : Z := 128.
Definition MAX_EVENTS : Z := 4096.
Definition MAX_CRITERIA : Z := 256.

Definition len {A} (l : list A) : Z := Z.of_nat (length l).

(** [Error(String)]: the message, or what [serde_json] said of the input. *)
Inductive Error : Type :=
  | Message (text : str)
  | InputExceeds (limit : Z)
  | InvalidJson
  | InvalidShape.

Definition err {A} (s : string) : result A Error := Err (Message (lit s)).

(** A refusal when the test holds. *)
Definition refuse_if (b : bool) (s : string) : result unit Error := if b then err s else Ok tt.

(** A [for] loop whose body may refuse. *)
Fixpoint each {A} (f : A → result unit Error) (l : list A) : result unit Error :=
  match l with
  | [] => Ok tt
  | x :: l' => let? _ := f x in each f l'
  end.

(** A [for] loop over a state. *)
Fixpoint fold_each {A S} (f : S → A → result S Error) (l : list A) (s : S) : result S Error :=
  match l with
  | [] => Ok s
  | x :: l' => let? s := f s x in fold_each f l' s
  end.

(** ** Shapes of single fields *)

Definition identifier (value : str) : result unit Error :=
  refuse_if (bool_decide (value = []) || (256 <? str_len value) || existsb is_control value)
    "identifier must contain 1..256 bytes without control characters".

Definition is_digest_byte (b : Z) : bool := is_ascii_digit b || in_range 97 102 b.

Definition digest (value : str) : result unit Error :=
  refuse_if (negb (str_len value =? 64) || negb (forallb is_digest_byte (utf8_encode value)))
    "digest must be 64 lowercase hexadecimal characters".

Definition is_reserved_stem (stem : str) : bool :=
  bool_decide (stem ∈ map lit ["CON"; "PRN"; "AUX"; "NUL"]%string)
  || (str_len stem =? 4)
     && (starts_with (lit "COM") stem || starts_with (lit "LPT") stem)
     && match utf8_encode stem !! 3%nat with Some b => is_ascii_digit b | None => false end.

Definition check_component (component : str) : result unit Error :=
  let? _ := refuse_if
    (bool_decide (component = []) || bool_decide (component = lit ".")
     || bool_decide (component = lit "..")
     || ends_with (lit ".") component || ends_with (lit " ") component
     || existsb is_control component)
    "invalid artifact path component" in
  let stem := ascii_uppercase (default [] (head (split_on (Z.eqb (chr ".")) component))) in
  refuse_if (is_reserved_stem stem) "reserved platform artifact path".

Definition is_forbidden_char (c : char) : bool := (c =? 92) || (c =? chr ":") || (c =? 0).

Definition validate_artifact_path (path : str) : result unit Error :=
  let? _ := refuse_if
    (bool_decide (path = []) || (1024 <? str_len path) || existsb is_forbidden_char path)
    "invalid artifact relative path" in
  each check_component (split_on (Z.eqb (chr "/")) path).

(** A sequence number against the one before it. *)
Definition out_of_order (sequence prior : Z) : bool := (sequence =? 0) || (sequence <=? prior).

Section Evidence.
Context `{JsonValue}.

(** ** Reading the inputs *)

Context (sha256 : list Z → str).
(** The parser's view of the bytes, and the typed records they decode to. *)
Context (tree_of : list Z → option Tree).
Context (decode_contract : list Z → option Contract) (decode_bundle : list Z → option Bundle).

Definition parse {A} (decode : list Z → option A) (limit : Z) (bytes : list Z) : result A Error :=
  if limit <? len bytes then Err (InputExceeds limit)
  else
    match tree_of bytes with
    | None => Err InvalidJson
    | Some t =>
        if negb (unique_keys t) then Err InvalidJson
        else ok_or (decode bytes) InvalidShape
    end.

(** [2^53 - 1], the last exact integer of an [f64]. *)
Definition exact_limit : spec_float := S754_finite false 9007199254740991 0.

Definition is_finite (x : spec_float) : bool :=
  match x with S754_infinity _ | S754_nan => false | _ => true end.

Definition safe_number (v : value) : bool :=
  match as_f64 v with
  | Some n => is_finite n && SFleb (SFabs n) exact_limit
  | None => false
  end.

(** The predicate's own value must be of a type the operator can judge. *)
Definition check_predicate (p : Predicate) : result unit Error :=
  match p with
  | Minimum v =>
      refuse_if (negb (safe_number v))
        "minimum requires a finite number within the exact JSON integer range"
  | Contains v =>
      refuse_if (negb (bool_decide (is_Some (as_string v))) && negb (bool_decide (is_Some (as_array v))))
        "contains requires a string or array"
  | _ => Ok tt
  end.

Definition check_criterion (ids : list str) (c : Criterion) : result (list str) Error :=
  let? _ := identifier (cr_id c) in
  let? _ := identifier (cr_fact c) in
  let (fresh, ids) := set_insert (cr_id c) ids in
  let? _ := refuse_if (negb fresh) "duplicate criterion id" in
  let? _ := check_predicate (cr_predicate c) in
  Ok ids.

Definition check_contract (contract : Contract) : result Contract Error :=
  let? _ := refuse_if (negb (ct_schema_version contract =? SCHEMA_VERSION))
              "unsupported contract schema_version" in
  let? _ := identifier (ct_id contract) in
  let? _ := refuse_if (bool_decide (ct_criteria contract = [])
                       || (MAX_CRITERIA <? len (ct_criteria contract)))
              "contract must contain 1..256 criteria" in
  let? _ := refuse_if (negb (existsb cr_required (ct_criteria contract)))
              "contract must contain a required criterion" in
  let? _ := fold_each check_criterion (ct_criteria contract) [] in
  Ok contract.

Definition parse_contract (bytes : list Z) : result Contract Error :=
  let? contract := parse decode_contract MAX_CONTRACT_BYTES bytes in
  check_contract contract.

(** ** The bundle's side records *)

(** The ids seen so far and the sequence last read. *)
Definition check_intervention (st : list str * Z) (i : Intervention) : result (list str * Z) Error :=
  let (ids, prior) := st in
  let? _ := identifier (iv_id i) in
  let? _ := identifier (iv_reason_code i) in
  let? _ := refuse_if (out_of_order (iv_sequence i) prior)
              "intervention sequences must be positive and strictly increasing" in
  let (fresh, ids) := set_insert (iv_id i) ids in
  let? _ := refuse_if (negb fresh) "duplicate intervention id" in
  Ok (ids, iv_sequence i).

Definition check_human_action (interventions : list str) (st : list str * Z) (a : HumanAction) :
    result (list str * Z) Error :=
  let (ids, prior) := st in
  let? _ := identifier (ha_id a) in
  let? _ := identifier (ha_kind a) in
  let? _ := identifier (ha_intervention_id a) in
  let? _ := refuse_if (out_of_order (ha_sequence a) prior)
              "human_action sequences must be positive and strictly increasing" in
  let (fresh, ids) := set_insert (ha_id a) ids in
  let? _ := refuse_if (negb fresh) "duplicate human_action id" in
  let? _ := refuse_if (negb (bool_decide (ha_intervention_id a ∈ interventions)))
              "human_action references unknown intervention_id" in
  Ok (ids, ha_sequence a).

Definition check_recovery (st : list (str * Z) * Z) (r : RecoveryApplied) :
    result (list (str * Z) * Z) Error :=
  let (keys, prior) := st in
  let? _ := identifier (rc_id r) in
  let? _ := identifier (rc_step_id r) in
  let? _ := refuse_if (out_of_order (rc_sequence r) prior)
              "recovery sequences must be positive and strictly increasing" in
  let (fresh, keys) := set_insert (rc_id r, rc_sequence r) keys in
  let? _ := refuse_if (negb fresh) "duplicate recovery id/sequence" in
  Ok (keys, rc_sequence r).

Definition check_locator_hit (prior : Z) (h : LocatorHit) : result Z Error :=
  let? _ := identifier (lh_target h) in
  let? _ := refuse_if (out_of_order (lh_sequence h) prior)
              "locator_hit sequences must be positive and strictly increasing" in
  Ok (lh_sequence h).

Definition validate_side_records (b : Bundle) : result unit Error :=
  let? interventions := fold_each check_intervention (b_interventions b) ([], 0) in
  let? _ := fold_each (check_human_action interventions.1) (b_human_actions b) ([], 0) in
  let? _ := fold_each check_recovery (b_recoveries b) ([], 0) in
  let? _ := fold_each check_locator_hit (b_locator_hits b) 0 in
  Ok tt.

(** ** The bundle *)

(** The ids and paths seen and the bytes declared so far. *)
Definition check_artifact (st : list str * list str * Z) (a : Artifact) :
    result (list str * list str * Z) Error :=
  let '(ids, paths, total) := st in
  let? _ := identifier (ar_id a) in
  let? _ := digest (ar_sha256 a) in
  let? _ := validate_artifact_path (ar_path a) in
  let (fresh_id, ids) := set_insert (ar_id a) ids in
  let (fresh_path, paths) := set_insert (ar_path a) paths in
  let? _ := refuse_if (negb fresh_id || negb fresh_path) "duplicate artifact id or path" in
  let? _ := refuse_if (MAX_ARTIFACT_BYTES <? ar_size_bytes a) "artifact exceeds 16 MiB limit" in
  Ok (ids, paths, total + ar_size_bytes a).

Definition check_option {A} (f : A → result unit Error) (o : option A) : result unit Error :=
  match o with Some a => f a | None => Ok tt end.

Definition check_bundle (b : Bundle) : result Bundle Error :=
  let? _ := refuse_if (negb (b_schema_version b =? SCHEMA_VERSION))
              "unsupported bundle schema_version" in
  let? _ := identifier (b_run_id b) in
  let? _ := identifier (b_session_id b) in
  let? _ := refuse_if (b_epoch b =? 0) "epoch must be positive" in
  let? _ := digest (b_contract_sha256 b) in
  let? _ := digest (b_capability_sha256 b) in
  let? _ := check_option digest (b_policy_sha256 b) in
  let? _ := check_option (λ o, identifier (oc_id o)) (b_outcome b) in
  let? _ := refuse_if (MAX_EVENTS <? len (b_actions b) + len (b_observations b)
                                     + len (b_epoch_transitions b))
              "journal exceeds 4096 event limit" in
  let? _ := refuse_if (MAX_ARTIFACTS <? len (b_artifacts b)) "artifact count exceeds 128" in
  let? _ := refuse_if (MAX_CRITERIA <? len (b_degraded b))
              "degraded diagnostic count exceeds 256" in
  let? _ := refuse_if ((MAX_CRITERIA <? len (b_interventions b))
                       || (MAX_CRITERIA <? len (b_human_actions b))
                       || (MAX_CRITERIA <? len (b_recoveries b))
                       || (MAX_CRITERIA <? len (b_locator_hits b)))
              "interventions, human_actions, recoveries, or locator_hits exceed 256" in
  let? _ := validate_side_records b in
  let? st := fold_each check_artifact (b_artifacts b) ([], [], 0) in
  let? _ := refuse_if (MAX_TOTAL_ARTIFACT_BYTES <? st.2)
              "artifacts exceed 64 MiB aggregate limit" in
  Ok b.

Definition parse_bundle (bytes : list Z) : result Bundle Error :=
  let? bundle := parse decode_bundle MAX_BUNDLE_BYTES bytes in
  check_bundle bundle.

(** ** The journal *)

(** [prior] runs over one list; [sequences] over all three. *)
Record TransitionState := {
  ts_sequences : list Z;
  ts_epochs : list (Z * Z);
  ts_prior : Z;
  ts_active : Z;
}.

Definition check_transition (st : TransitionState) (t : EpochTransition) :
    result TransitionState Error :=
  let? _ := identifier (et_reason t) in
  let (fresh, sequences) := set_insert (et_sequence t) (ts_sequences st) in
  let? _ := refuse_if ((et_sequence t <=? ts_prior st) || negb fresh
                       || negb (et_from_epoch t =? ts_active st)
                       || (et_to_epoch t <=? ts_active st))
              "invalid epoch transition sequence or chain" in
  Ok {| ts_sequences := sequences; ts_epochs := ts_epochs st ++ [(et_sequence t, et_to_epoch t)];
        ts_prior := et_sequence t; ts_active := et_to_epoch t |}.

(** [epoch_at_sequence.range(..sequence).next_back()]: the entry of the greatest key
    below, of entries in increasing order. *)
Fixpoint epoch_before (sequence : Z) (epochs : list (Z * Z)) (found : option Z) : option Z :=
  match epochs with
  | [] => found
  | (k, e) :: epochs' => epoch_before sequence epochs' (if k <? sequence then Some e else found)
  end.

Definition final_epoch_unobserved (b : Bundle) : bool :=
  match last (b_epoch_transitions b) with
  | None => false
  | Some t =>
      match last (b_observations b) with
      | None => true
      | Some o => ob_sequence o <=? et_sequence t
      end
  end.

(** The ids and sequences of the actions read, newest first. *)
Record ActionState := {
  as_actions : list (str * Z);
  as_sequences : list Z;
  as_prior : Z;
  as_report : Report;
}.

Definition judge_disposition (d : Disposition) (r : Report) : Report :=
  match d with
  | Succeeded | NotDispatched => r
  | Failed_ => issue "action_failed" Failed r
  | Unknown | Cancelled | Denied => issue "action_not_completed" Incomplete r
  end.

Definition known_action (id : str) (actions : list (str * Z)) : option Z :=
  snd <$> head (List.filter (λ e, bool_decide (e.1 = id)) actions).

Definition check_action (st : ActionState) (a : Action) : result ActionState Error :=
  let? _ := identifier (ac_id a) in
  let (fresh, sequences) := set_insert (ac_sequence a) (as_sequences st) in
  let? _ := refuse_if (bool_decide (is_Some (known_action (ac_id a) (as_actions st)))
                       || (ac_sequence a <=? as_prior st) || negb fresh)
              "duplicate or unordered action id/sequence" in
  Ok {| as_actions := (ac_id a, ac_sequence a) :: as_actions st; as_sequences := sequences;
        as_prior := ac_sequence a; as_report := judge_disposition (ac_disposition a) (as_report st) |}.

Definition dispatched (a : Action) : bool :=
  match ac_disposition a with NotDispatched => false | _ => true end.

(** An action that came between the one observed and the observation. *)
Definition stale_reference (actions : list Action) (action_sequence sequence : Z) : bool :=
  existsb (λ a, dispatched a && (action_sequence <? ac_sequence a) && (ac_sequence a <? sequence))
    actions.

(** The facts judged of one observation, in the order they are reported. *)
Definition judge_observation (b : Bundle) (action_sequence : Z) (o : Observation) (r : Report) :
    Report :=
  let r := if existsb (λ a, bool_decide (ac_id a = ob_after_action_id o) && negb (dispatched a))
              (b_actions b)
           then issue "observation_claims_undispatched_action" Failed r else r in
  let r := if ob_sequence o <=? action_sequence
           then issue "observation_precedes_action" Failed r else r in
  if stale_reference (b_actions b) action_sequence (ob_sequence o)
  then issue "observation_references_stale_action" Failed r else r.

Definition bound_to_run (b : Bundle) (epochs : list (Z * Z)) (o : Observation) : bool :=
  bool_decide (ob_run_id o = b_run_id b) && bool_decide (ob_session_id o = b_session_id b)
  && bool_decide (epoch_before (ob_sequence o) epochs None = Some (ob_epoch o)).

Definition check_reference (declared : list str) (seen : list str) (id : str) :
    result (list str) Error :=
  let (fresh, seen) := set_insert id seen in
  let? _ := refuse_if (negb (bool_decide (id ∈ declared)) || negb fresh)
              "unknown or duplicate observation artifact reference" in
  Ok seen.

Record ObservationState := {
  os_sequences : list Z;
  os_prior : Z;
  os_observed : list str;
  os_report : Report;
}.

Definition check_observation (b : Bundle) (epochs : list (Z * Z)) (actions : list (str * Z))
    (st : ObservationState) (o : Observation) : result ObservationState Error :=
  let (fresh, sequences) := set_insert (ob_sequence o) (os_sequences st) in
  let? _ := refuse_if ((ob_sequence o <=? os_prior st) || negb fresh)
              "duplicate or unordered observation sequence" in
  let r := if bound_to_run b epochs o then os_report st
           else issue "observation_binding_mismatch" Failed (os_report st) in
  let? action_sequence :=
    ok_or (known_action (ob_after_action_id o) actions)
      (Message (lit "observation references unknown action")) in
  let r := judge_observation b action_sequence o r in
  let? _ := fold_each (check_reference (map ar_id (b_artifacts b))) (ob_artifact_ids o) [] in
  let? _ := refuse_if (MAX_CRITERIA <? len (ob_facts o)) "observation exceeds 256 facts" in
  let? _ := each identifier (map fst (ob_facts o)) in
  Ok {| os_sequences := sequences; os_prior := ob_sequence o;
        os_observed := ob_after_action_id o :: os_observed st; os_report := r |}.

Definition final_action_unobserved (b : Bundle) : bool :=
  match last (b_actions b), last (b_observations b) with
  | Some a, Some o =>
      negb (bool_decide (ob_after_action_id o = ac_id a)) || (ob_sequence o <=? ac_sequence a)
  | _, _ => false
  end.

(** What is judged once the journal is read. *)
Definition judge_end (b : Bundle) (observed : list str) (r : Report) : Report :=
  let r := if existsb (λ a, dispatched a && negb (bool_decide (ac_id a ∈ observed))) (b_actions b)
           then issue "action_has_no_post_observation" Incomplete r else r in
  if final_action_unobserved b then issue "final_action_unobserved" Incomplete r else r.

Definition validate_journal (b : Bundle) (r : Report) : result Report Error :=
  let r := if bool_decide (b_actions b = []) || bool_decide (b_observations b = [])
           then issue "empty_action_or_observation_journal" Incomplete r else r in
  let? ts := fold_each check_transition (b_epoch_transitions b)
               {| ts_sequences := []; ts_epochs := [(0, b_epoch b)]; ts_prior := 0;
                  ts_active := b_epoch b |} in
  let r := if final_epoch_unobserved b then issue "final_epoch_unobserved" Incomplete r else r in
  if bool_decide (b_actions b = []) then Ok r
  else
    let? acts := fold_each check_action (b_actions b)
                   {| as_actions := []; as_sequences := ts_sequences ts; as_prior := 0;
                      as_report := r |} in
    let? obs := fold_each (check_observation b (ts_epochs ts) (as_actions acts)) (b_observations b)
                  {| os_sequences := as_sequences acts; os_prior := 0; os_observed := [];
                     os_report := as_report acts |} in
    Ok (judge_end b (os_observed obs) (os_report obs)).

(** ** Facts and predicates *)

(** The highest sequence among the interventions. *)
Definition latest_sequence (ivs : list Intervention) : option Z :=
  match map iv_sequence ivs with
  | [] => None
  | s :: ss => Some (foldr Z.max s ss)
  end.

Definition is_returned (i : Intervention) : bool :=
  match iv_status i with Returned => true | _ => false end.

Definition human_control_returned (b : Bundle) : bool :=
  match latest_sequence (b_interventions b) with
  | None => false
  | Some latest =>
      forallb is_returned (List.filter (λ i, iv_sequence i =? latest) (b_interventions b))
  end.

Definition outcome_kind (k : OutcomeKind) : str :=
  match k with Success => lit "success" | Business => lit "business" end.

Definition fact_of (facts : list (str * value)) (fact : str) : option value :=
  snd <$> head (List.filter (λ e, bool_decide (e.1 = fact)) facts).

Definition resolve_fact (b : Bundle) (latest : option Observation) (fact : str) : option value :=
  if bool_decide (fact = lit "outcome.id") then (λ o, mk_string (oc_id o)) <$> b_outcome b
  else if bool_decide (fact = lit "outcome.kind") then
    (λ o, mk_string (outcome_kind (oc_kind o))) <$> b_outcome b
  else if bool_decide (fact = lit "human_control_returned") then
    Some (mk_bool (human_control_returned b))
  else let! o := latest in fact_of (ob_facts o) fact.

Definition judged (b : bool) : Verdict * str :=
  if b then (Passed, lit "predicate satisfied") else (Failed, lit "predicate not satisfied").

Definition predicate (p : Predicate) (actual : value) : Verdict * str :=
  match p with
  | Exists => judged (negb (is_null actual))
  | Equals v => judged (value_eqb actual v)
  | NotEquals v => judged (negb (value_eqb actual v))
  | Contains v =>
      match as_string actual, as_string v, as_array actual, as_array v with
      | Some a, Some e, _, _ => judged (str_contains e a)
      | _, _, Some a, Some e => judged (forallb (λ x, existsb (λ y, value_eqb y x) a) e)
      | _, _, _, _ => (Incomplete, lit "contains observation type mismatch")
      end
  | Minimum v =>
      if negb (safe_number actual) then
        (Incomplete, lit "minimum observation is not an exact-range finite number")
      else
        match as_f64 actual, as_f64 v with
        | Some a, Some e => judged (SFleb e a)
        | _, _ => (Incomplete, lit "minimum observation type mismatch")
        end
  end.

(** ** The verdict *)

(** The bytes the host read, or why it could not, by artifact id. *)
Definition ArtifactInputs : Type := list (str * result (list Z) str).

Definition provided (artifacts : ArtifactInputs) (id : str) : option (result (list Z) str) :=
  snd <$> head (List.filter (λ e, bool_decide (e.1 = id)) artifacts).

Definition check_provided (artifacts : ArtifactInputs) (st : Z * Report) (a : Artifact) :
    result (Z * Report) Error :=
  let (total, r) := st in
  match provided artifacts (ar_id a) with
  | Some (Ok bytes) =>
      let? _ := refuse_if (MAX_ARTIFACT_BYTES <? len bytes) "provided artifact exceeds byte limit" in
      let total := total + len bytes in
      let? _ := refuse_if (MAX_TOTAL_ARTIFACT_BYTES <? total)
                  "provided artifacts exceed aggregate byte limit" in
      Ok (total,
          if negb (len bytes =? ar_size_bytes a) || negb (bool_decide (sha256 bytes = ar_sha256 a))
          then issue "artifact_integrity_mismatch" Failed r else r)
  | _ => Ok (total, issue "artifact_unavailable" Incomplete r)
  end.

Definition judge_criterion (b : Bundle) (journal_valid : bool) (c : Criterion) : Verdict * str :=
  if negb journal_valid then (Incomplete, lit "evidence prerequisites not satisfied")
  else
    match resolve_fact b (last (b_observations b)) (cr_fact c) with
    | Some v => predicate (cr_predicate c) v
    | None => (Incomplete, lit "required observation fact is missing")
    end.

Definition add_criterion (b : Bundle) (journal_valid : bool) (r : Report) (c : Criterion) : Report :=
  let (verdict, reason) := judge_criterion b journal_valid c in
  {| rp_ok := rp_ok r; rp_schema_version := rp_schema_version r;
     rp_verdict := if cr_required c then combine (rp_verdict r) verdict else rp_verdict r;
     rp_contract_sha256 := rp_contract_sha256 r; rp_bundle_sha256 := rp_bundle_sha256 r;
     rp_run_id := rp_run_id r;
     rp_criteria := rp_criteria r ++ [{| rs_id := cr_id c; rs_required := cr_required c;
                                        rs_verdict := verdict; rs_reason := reason |}];
     rp_issues := rp_issues r |}.

Definition check_expected (expected : ExpectedRun) : result unit Error :=
  let? _ := identifier (ex_run_id expected) in
  let? _ := identifier (ex_session_id expected) in
  let? _ := digest (ex_contract_sha256 expected) in
  let? _ := digest (ex_capability_sha256 expected) in
  refuse_if (ex_epoch expected =? 0) "expected epoch must be positive".

Definition binds (contract_hash : str) (b : Bundle) (expected : ExpectedRun) : bool :=
  bool_decide (contract_hash = ex_contract_sha256 expected)
  && bool_decide (b_contract_sha256 b = ex_contract_sha256 expected)
  && bool_decide (b_capability_sha256 b = ex_capability_sha256 expected)
  && bool_decide (b_run_id b = ex_run_id expected)
  && bool_decide (b_session_id b = ex_session_id expected)
  && (b_epoch b =? ex_epoch expected).

Definition verify (contract_bytes bundle_bytes : list Z) (expected : ExpectedRun)
    (artifacts : ArtifactInputs) : result Report Error :=
  let? contract := parse_contract contract_bytes in
  let? b := parse_bundle bundle_bytes in
  let? _ := check_expected expected in
  let contract_hash := sha256 contract_bytes in
  let r := {| rp_ok := true; rp_schema_version := SCHEMA_VERSION; rp_verdict := Passed;
              rp_contract_sha256 := contract_hash; rp_bundle_sha256 := sha256 bundle_bytes;
              rp_run_id := ex_run_id expected; rp_criteria := []; rp_issues := [] |} in
  let r := if negb (binds contract_hash b expected) then issue "binding_mismatch" Failed r else r in
  let r := if negb (b_journal_complete b) || negb (bool_decide (b_degraded b = []))
           then issue "journal_incomplete_or_degraded" Incomplete r else r in
  let? r := validate_journal b r in
  let? st := fold_each (check_provided artifacts) (b_artifacts b) (0, r) in
  let r := st.2 in
  let? _ := refuse_if (existsb (λ e, negb (bool_decide (e.1 ∈ map ar_id (b_artifacts b)))) artifacts)
              "provided artifact is not declared in bundle" in
  let journal_valid := bool_decide (rp_issues r = []) in
  Ok (fold_left (add_criterion b journal_valid) (ct_criteria contract) r).

End Evidence.
End Evidence.
