(* ===== verification/EvidenceFacts.v ===== *)
(** * The verifier's loops and its report *)

From S2P Require Import Prelude RustStr RustStrFacts EvidenceTypes Evidence.
Import EvidenceTypes Evidence.

#[local] Open Scope Z_scope.

Module EvidenceFacts.

(** ** Refusals and loops *)

Lemma refuse_ok b s u : refuse_if b s = Ok u → b = false.
Proof. unfold refuse_if, err. by destruct b. Qed.

(** Takes a chain of [let?] that ended well apart. *)
Ltac let_ok H :=
  repeat match type of H with
  | (match ?m with Ok _ => _ | Err _ => _ end) = Ok _ =>
      let E := fresh "E" in destruct m eqn:E; [|discriminate H]
  end.

Ltac refusals :=
  repeat match goal with
  | E : refuse_if _ _ = Ok _ |- _ => apply refuse_ok in E
  end.

Lemma each_ok {A} (f : A → result unit Error) l : each f l = Ok tt ↔ Forall (λ x, f x = Ok tt) l.
Proof.
  induction l as [|x l IH]; cbn; [split; [by constructor|done]|]. rewrite Forall_cons, <- IH.
  destruct (f x) as [[]|]; naive_solver.
Qed.

(** An invariant of the part of the list read and the state it led to. *)
Lemma fold_each_inv {A S} (f : S → A → result S Error) (I : list A → S → Prop) l s0 s :
  I [] s0 → (∀ read st x st', I read st → f st x = Ok st' → I (read ++ [x]) st') →
  fold_each f l s0 = Ok s → I l s.
Proof.
  intros H0 Hstep. assert (∀ read st, I read st → fold_each f l st = Ok s → I (read ++ l) s) as H;
    [|by apply (H [])].
  induction l as [|x l IH]; intros read st Hst Hf; cbn in Hf.
  - simplify_eq. by rewrite app_nil_r.
  - destruct (f st x) as [st'|] eqn:E; [|done]. rewrite (app_assoc read [x] l : read ++ x :: l = _).
    eapply IH; [by eapply Hstep|done].
Qed.

Lemma set_insert_true {A} `{EqDecision A} (x : A) s s' :
  set_insert x s = (true, s') → ¬ x ∈ s ∧ s' = x :: s.
Proof. unfold set_insert. case_bool_decide; intros; by simplify_eq. Qed.

(** ** The report *)

Definition quiet (r : Report) : Prop := rp_issues r = [].

Lemma issue_loud c v r : ¬ quiet (issue c v r).
Proof.
  unfold quiet, issue. cbn. destruct (existsb _ _) eqn:E.
  - intros H. by rewrite H in E.
  - by destruct (rp_issues r).
Qed.

Lemma quiet_if (b : bool) c v r : quiet (if b then issue c v r else r) → b = false ∧ quiet r.
Proof. destruct b; [by intros ?%issue_loud|done]. Qed.

Lemma quiet_if_not (b : bool) c v r : quiet (if b then r else issue c v r) → b = true ∧ quiet r.
Proof. destruct b; [done|by intros ?%issue_loud]. Qed.

(** The worst of many verdicts: failed before incomplete before passed. *)
Definition worst (vs : list Verdict) : Verdict :=
  if bool_decide (Failed ∈ vs) then Failed
  else if bool_decide (Incomplete ∈ vs) then Incomplete
  else Passed.

Lemma worst_cons v vs : worst (v :: vs) = combine v (worst vs).
Proof.
  unfold worst. pose proof (elem_of_cons vs Failed v). pose proof (elem_of_cons vs Incomplete v).
  destruct v; repeat case_bool_decide; naive_solver.
Qed.

Lemma combine_assoc a b c : combine a (combine b c) = combine (combine a b) c.
Proof. by destruct a, b, c. Qed.
Lemma combine_comm a b : combine a b = combine b a.
Proof. by destruct a, b. Qed.
Lemma combine_idem a : combine a a = a.
Proof. by destruct a. Qed.
Lemma combine_passed a b : combine a b = Passed ↔ a = Passed ∧ b = Passed.
Proof. destruct a, b; naive_solver. Qed.

Lemma worst_app a b : worst (a ++ b) = combine (worst a) (worst b).
Proof.
  induction a as [|x a IH]; [by cbn [app]; destruct (worst b)|]. cbn [app].
  by rewrite !worst_cons, IH, combine_assoc.
Qed.

Lemma worst_passed vs : worst vs = Passed ↔ Forall (λ v, v = Passed) vs.
Proof.
  induction vs as [|v vs IH]; [split; [by constructor|done]|].
  by rewrite worst_cons, combine_passed, Forall_cons, IH.
Qed.

Lemma worst_in v vs : v ∈ vs → combine (worst vs) v = worst vs.
Proof.
  induction vs as [|x vs IH]; intros Hv; [by apply not_elem_of_nil in Hv|]. rewrite worst_cons.
  rewrite <- combine_assoc. apply elem_of_cons in Hv as [<-|Hv]; [|by rewrite IH].
  by rewrite (combine_comm (worst vs)), combine_assoc, combine_idem.
Qed.

(** Each code is always reported with one verdict. *)
Definition failing_codes : list str :=
  map lit ["binding_mismatch"; "artifact_integrity_mismatch"; "action_failed";
           "observation_binding_mismatch"; "observation_claims_undispatched_action";
           "observation_precedes_action"; "observation_references_stale_action"]%string.

Definition severity (code : str) : Verdict :=
  if bool_decide (code ∈ failing_codes) then Failed else Incomplete.

Definition required_verdicts (r : Report) : list Verdict :=
  map rs_verdict (List.filter rs_required (rp_criteria r)).

(** The verdict is the worst of the issues and the required criteria. *)
Definition accounted (r : Report) : Prop :=
  rp_verdict r = worst (map is_verdict (rp_issues r) ++ required_verdicts r)
  ∧ Forall (λ i, is_verdict i = severity (is_code i)) (rp_issues r).

Lemma severity_not_passed code : severity code ≠ Passed.
Proof. unfold severity. by case_bool_decide. Qed.

Lemma issue_accounted c v r :
  severity (lit c) = v → rp_criteria r = [] → accounted r →
  accounted (issue c v r) ∧ rp_criteria (issue c v r) = [].
Proof.
  intros Hv Hc [Hw Hs]. split; [|done]. unfold accounted, required_verdicts in *.
  rewrite Hc in *. cbn [List.filter map] in *. rewrite !app_nil_r in *.
  unfold issue. cbn. rewrite Hc. cbn. rewrite !app_nil_r.
  destruct (existsb _ _) eqn:E.
  - split; [|done]. rewrite Hw. symmetry. rewrite worst_in; [done|].
    apply existsb_exists in E as (i & Hi%list_elem_of_In & Hcode%bool_decide_eq_true).
    rewrite Forall_forall in Hs. apply list_elem_of_In, in_map_iff. exists i.
    split; [|by apply list_elem_of_In]. by rewrite Hs, Hcode.
  - split.
    + rewrite Hw, map_app, worst_app. cbn. f_equal. by destruct v.
    + apply Forall_app. split; [done|]. by repeat constructor.
Qed.

(** Before the criteria are judged: the verdict is accounted for. *)
Definition judging (r : Report) : Prop := accounted r ∧ rp_criteria r = [].

Lemma judging_if (b : bool) c v r :
  severity (lit c) = v → judging r → judging (if b then issue c v r else r).
Proof. intros Hv [Ha Hc]. destruct b; [by apply issue_accounted|done]. Qed.

Lemma judging_if_not (b : bool) c v r :
  severity (lit c) = v → judging r → judging (if b then r else issue c v r).
Proof. intros Hv [Ha Hc]. destruct b; [done|by apply issue_accounted]. Qed.

Lemma judging_issue c v r : severity (lit c) = v → judging r → judging (issue c v r).
Proof. intros Hv [Ha Hc]. by apply issue_accounted. Qed.

(** ** The journal *)

Section Journal.
Context `{JsonValue}.

(** What a journal with no issue says of the run. *)
Definition observes (b : Bundle) (o : Observation) (a : Action) : Prop :=
  a ∈ b_actions b ∧ ac_id a = ob_after_action_id o ∧ dispatched a = true
  ∧ ac_sequence a < ob_sequence o
  ∧ ∀ a', a' ∈ b_actions b → dispatched a' = true →
      ¬ (ac_sequence a < ac_sequence a' < ob_sequence o).

(** The epoch that a sequence falls in: of the last transition before it. *)
Definition epoch_in_force (b : Bundle) (sequence : Z) : Z :=
  match last (List.filter (λ t, et_sequence t <? sequence) (b_epoch_transitions b)) with
  | Some t => et_to_epoch t
  | None => b_epoch b
  end.

Record journal_sound (b : Bundle) : Prop := {
  js_actions : b_actions b ≠ [];
  js_observations : b_observations b ≠ [];
  js_completed : ∀ a, a ∈ b_actions b → dispatched a = true → ac_disposition a = Succeeded;
  js_observed : ∀ a, a ∈ b_actions b → dispatched a = true →
      ∃ o, o ∈ b_observations b ∧ ob_after_action_id o = ac_id a;
  js_observations_bound : ∀ o, o ∈ b_observations b →
      ob_run_id o = b_run_id b ∧ ob_session_id o = b_session_id b
      ∧ ob_epoch o = epoch_in_force b (ob_sequence o) ∧ ∃ a, observes b o a;
  js_final : ∀ a o, last (b_actions b) = Some a → last (b_observations b) = Some o →
      ob_after_action_id o = ac_id a ∧ ac_sequence a < ob_sequence o;
  js_final_epoch : final_epoch_unobserved b = false;
}.

(** Sequences in increasing order, none used twice. *)
Definition increasing (ss : list Z) : Prop := StronglySorted Z.lt ss.

Lemma increasing_snoc ss s : increasing ss → Forall (λ x, x < s) ss → increasing (ss ++ [s]).
Proof.
  induction 1 as [|x ss Hss IH Hx]; intros Hs; cbn; [by repeat constructor|].
  apply Forall_cons in Hs as [? Hs]. constructor; [by apply IH|]. apply Forall_app. split; [done|].
  by repeat constructor.
Qed.

(** The state of one of the three loops: what it read is in order and in the set. *)
Definition ordered (ss : list Z) (prior : Z) (before seen : list Z) : Prop :=
  increasing ss ∧ Forall (λ x, 0 < x ≤ prior) ss ∧ 0 ≤ prior
  ∧ seen ≡ₚ ss ++ before ∧ NoDup seen.

Lemma ordered_start before : NoDup before → ordered [] 0 before before.
Proof. intros Hnd. split_and!; [constructor|constructor|lia|done|done]. Qed.

Lemma ordered_step ss prior before seen s seen' :
  ordered ss prior before seen → prior < s → set_insert s seen = (true, seen') →
  ordered (ss ++ [s]) s before seen'.
Proof.
  intros (Hi & Hb & H0 & Hp & Hnd) Hs [Hn ->]%set_insert_true. split_and!.
  - apply increasing_snoc; [done|]. eapply Forall_impl; [exact Hb|]. cbn. lia.
  - apply Forall_app. split; [|by repeat constructor; lia].
    eapply Forall_impl; [exact Hb|]. cbn. lia.
  - lia.
  - rewrite Hp, <- app_assoc. cbn. apply Permutation_middle.
  - by constructor.
Qed.

Lemma transitions_ordered b ts :
  fold_each check_transition (b_epoch_transitions b)
    {| ts_sequences := []; ts_epochs := [(0, b_epoch b)]; ts_prior := 0; ts_active := b_epoch b |}
  = Ok ts →
  ordered (map et_sequence (b_epoch_transitions b)) (ts_prior ts) [] (ts_sequences ts).
Proof.
  apply (fold_each_inv check_transition (λ read st,
    ordered (map et_sequence read) (ts_prior st) [] (ts_sequences st))).
  - apply ordered_start. constructor.
  - intros read st t st' HI Hs. unfold check_transition in Hs.
    destruct (identifier _); [|done]. destruct (set_insert _ _) as [fresh seqs] eqn:Ei.
    destruct (refuse_if _ _) eqn:Er; [|done]. simplify_eq. cbn. refusals. bool_to_prop.
    subst fresh. rewrite map_app. by eapply ordered_step.
Qed.

(** The actions read: in order, known by id, and nothing worse than done. *)
Definition actions_read (read : list Action) (before : list Z) (r0 : Report) (st : ActionState) : Prop :=
  ordered (map ac_sequence read) (as_prior st) before (as_sequences st)
  ∧ as_actions st = rev (map (λ a, (ac_id a, ac_sequence a)) read)
  ∧ NoDup (map ac_id read)
  ∧ (quiet (as_report st) → quiet r0 ∧ ∀ a, a ∈ read → dispatched a = true → ac_disposition a = Succeeded)
  ∧ (judging r0 → judging (as_report st)).

Lemma known_action_none id actions :
  known_action id actions = None ↔ ∀ s, ¬ (id, s) ∈ actions.
Proof.
  unfold known_action. induction actions as [|[i s] l IH]; cbn.
  - split; [|done]. intros _ s Hs. by apply not_elem_of_nil in Hs.
  - case_bool_decide as Hi; cbn.
    + subst. split; [done|]. intros Hn. exfalso. apply (Hn s). by left.
    + rewrite IH. split; intros Hn s'; [intros [?|?]%elem_of_cons; [simplify_eq|by eapply Hn]|].
      intros ?. apply (Hn s'). by right.
Qed.

Lemma known_action_some id s actions : known_action id actions = Some s → (id, s) ∈ actions.
Proof.
  unfold known_action. induction actions as [|[i t] l IH]; cbn; [done|].
  case_bool_decide as Hi; cbn; [intros [= ->]; subst; by left|]. intros. right. by apply IH.
Qed.

Lemma actions_loop b before r0 st :
  NoDup before →
  fold_each check_action (b_actions b)
    {| as_actions := []; as_sequences := before; as_prior := 0; as_report := r0 |} = Ok st →
  actions_read (b_actions b) before r0 st.
Proof.
  intros Hnd. apply (fold_each_inv check_action (λ read st, actions_read read before r0 st)).
  - split_and!; [by apply ordered_start|done|constructor|..]; [|done]. intros Hq. split; [done|].
    intros a Ha. by apply not_elem_of_nil in Ha.
  - intros read st1 a st2 (Ho & Ha & Hn & Hq & Hj) Hs. unfold check_action in Hs.
    destruct (identifier _); [|done]. destruct (set_insert _ _) as [fresh seqs] eqn:Ei.
    destruct (refuse_if _ _) eqn:Er; [|done]. simplify_eq. refusals. bool_to_prop.
    assert (fresh = true) as -> by (by destruct fresh).
    assert (known_action (ac_id a) (as_actions st1) = None) as Hk.
    { destruct (known_action _ _); [|done]. exfalso. naive_solver. }
    unfold actions_read. cbn [as_prior as_sequences as_actions as_report]. split_and!.
    + rewrite map_app. by eapply ordered_step.
    + by rewrite map_app, rev_app_distr, Ha.
    + rewrite map_app. apply NoDup_app. split_and!; [done| |by apply NoDup_singleton].
      intros i (a' & -> & Ha')%elem_of_map Hi. cbn in Hi. apply list_elem_of_singleton in Hi.
      rewrite known_action_none in Hk. apply (Hk (ac_sequence a')). rewrite Ha, elem_of_rev, elem_of_map.
      exists a'. by rewrite Hi.
    + unfold judge_disposition. intros Hl.
      assert (quiet (as_report st1) ∧ (dispatched a = true → ac_disposition a = Succeeded)) as [Hl1 Hd].
      { unfold dispatched. destruct (ac_disposition a); try done; by apply issue_loud in Hl. }
      destruct (Hq Hl1) as [? Hold]. split; [done|].
      intros a' [?|Hx%list_elem_of_singleton]%elem_of_app; [by apply Hold|by subst].
    + intros Hr. apply Hj in Hr. unfold judge_disposition.
      destruct (ac_disposition a); try done; by apply judging_issue.
Qed.

(** The observations read: in order, and each bound to a dispatched action before it. *)
Definition observations_read (b : Bundle) (epochs : list (Z * Z)) (actions : list (str * Z))
    (read : list Observation) (before : list Z) (r0 : Report) (st : ObservationState) : Prop :=
  ordered (map ob_sequence read) (os_prior st) before (os_sequences st)
  ∧ (∀ i, i ∈ os_observed st ↔ i ∈ map ob_after_action_id read)
  ∧ (quiet (os_report st) → quiet r0 ∧ ∀ o, o ∈ read →
       bound_to_run b epochs o = true
       ∧ ∃ s, known_action (ob_after_action_id o) actions = Some s ∧ s < ob_sequence o
          ∧ stale_reference (b_actions b) s (ob_sequence o) = false
          ∧ ∀ a, a ∈ b_actions b → ac_id a = ob_after_action_id o → dispatched a = true)
  ∧ (judging r0 → judging (os_report st)).

Lemma judge_observation_quiet b s o r :
  quiet (judge_observation b s o r) →
  quiet r ∧ s < ob_sequence o ∧ stale_reference (b_actions b) s (ob_sequence o) = false
  ∧ ∀ a, a ∈ b_actions b → ac_id a = ob_after_action_id o → dispatched a = true.
Proof.
  unfold judge_observation. cbv zeta. intros Hq.
  apply quiet_if in Hq as [Hst Hq]. apply quiet_if in Hq as [Hle Hq]. apply quiet_if in Hq as [Hun Hq].
  split_and!; [done|lia|done|]. intros a Ha Hid. apply not_true_iff_false in Hun.
  apply not_false_iff_true. intros Hd. apply Hun. apply existsb_exists. exists a.
  rewrite <- list_elem_of_In. split; [done|]. by rewrite bool_decide_eq_true_2, Hd.
Qed.

Lemma judge_observation_judging b s o r : judging r → judging (judge_observation b s o r).
Proof.
  intros Hr. unfold judge_observation. cbv zeta. by repeat apply judging_if.
Qed.

Lemma observations_loop b epochs actions before r0 st :
  NoDup before →
  fold_each (check_observation b epochs actions) (b_observations b)
    {| os_sequences := before; os_prior := 0; os_observed := []; os_report := r0 |} = Ok st →
  observations_read b epochs actions (b_observations b) before r0 st.
Proof.
  intros Hnd. apply (fold_each_inv (check_observation b epochs actions)
    (λ read st, observations_read b epochs actions read before r0 st)).
  - split_and!; [by apply ordered_start|done|..]; [|done]. intros Hq. split; [done|].
    intros o Ho. by apply not_elem_of_nil in Ho.
  - intros read st1 o st2 (Ho & Hob & Hq & Hj) Hs. unfold check_observation in Hs.
    destruct (set_insert (ob_sequence o) _) as [fresh seqs] eqn:Ei.
    destruct (refuse_if _ _) eqn:Er; [|done]. refusals. cbv zeta in Hs.
    destruct (known_action _ _) as [s|] eqn:Ek; [|done]. cbn [ok_or] in Hs.
    destruct (fold_each _ _ _); [|done]. destruct (refuse_if _ _); [|done].
    destruct (each _ _); [|done]. simplify_eq. bool_to_prop. subst fresh.
    unfold observations_read. cbn [os_prior os_sequences os_observed os_report]. split_and!.
    + rewrite map_app. by eapply ordered_step.
    + intros i. rewrite map_app, elem_of_app, elem_of_cons, Hob. cbn.
      rewrite list_elem_of_singleton. naive_solver.
    + intros Hl. apply judge_observation_quiet in Hl as (Hl & ? & ? & ?).
      apply quiet_if_not in Hl as [Hb Hl]. destruct (Hq Hl) as [? Hold]. split; [done|].
      intros o' [?|Hx%list_elem_of_singleton]%elem_of_app; [by apply Hold|]. subst o'.
      split; [done|]. by exists s.
    + intros Hr. apply Hj in Hr. by apply judge_observation_judging, judging_if_not.
Qed.

Lemma epoch_before_map sequence ts found :
  epoch_before sequence (map (λ t, (et_sequence t, et_to_epoch t)) ts) found
  = match last (List.filter (λ t, et_sequence t <? sequence) ts) with
    | Some t => Some (et_to_epoch t)
    | None => found
    end.
Proof.
  revert found. induction ts as [|t ts IH]; intros found; [done|]. cbn [map epoch_before List.filter].
  rewrite IH. destruct (et_sequence t <? sequence); [|done].
  destruct (List.filter _ ts) as [|x xs]; [done|]. change (last (t :: x :: xs)) with (last (x :: xs)).
  by destruct (last (x :: xs)) eqn:E; [|apply last_None in E].
Qed.

Lemma transitions_epochs b ts :
  fold_each check_transition (b_epoch_transitions b)
    {| ts_sequences := []; ts_epochs := [(0, b_epoch b)]; ts_prior := 0; ts_active := b_epoch b |}
  = Ok ts →
  ts_epochs ts = (0, b_epoch b) :: map (λ t, (et_sequence t, et_to_epoch t)) (b_epoch_transitions b).
Proof.
  apply (fold_each_inv check_transition (λ read st,
    ts_epochs st = (0, b_epoch b) :: map (λ t, (et_sequence t, et_to_epoch t)) read)); [done|].
  intros read st t st' HI Hs. unfold check_transition in Hs.
  destruct (identifier _); [|done]. destruct (set_insert _ _) as [fresh seqs].
  destruct (refuse_if _ _); [|done]. simplify_eq. cbn. by rewrite HI, map_app.
Qed.

Lemma bound_epoch b sequence e :
  0 < sequence →
  epoch_before sequence ((0, b_epoch b) :: map (λ t, (et_sequence t, et_to_epoch t))
    (b_epoch_transitions b)) None = Some e → e = epoch_in_force b sequence.
Proof.
  intros Hs. cbn [epoch_before]. rewrite (proj2 (Z.ltb_lt _ _) Hs), epoch_before_map.
  unfold epoch_in_force. destruct (last _); by intros [= <-].
Qed.

(** All the sequences of a journal, in the order the loops read them. *)
Definition journal_sequences (b : Bundle) : list Z :=
  map et_sequence (b_epoch_transitions b) ++ map ac_sequence (b_actions b)
  ++ map ob_sequence (b_observations b).

Definition journal_ordered (b : Bundle) : Prop :=
  increasing (map et_sequence (b_epoch_transitions b))
  ∧ increasing (map ac_sequence (b_actions b))
  ∧ increasing (map ob_sequence (b_observations b))
  ∧ NoDup (journal_sequences b) ∧ NoDup (map ac_id (b_actions b)).

Lemma observes_of b o s :
  known_action (ob_after_action_id o) (rev (map (λ a, (ac_id a, ac_sequence a)) (b_actions b))) = Some s →
  s < ob_sequence o → stale_reference (b_actions b) s (ob_sequence o) = false →
  (∀ a, a ∈ b_actions b → ac_id a = ob_after_action_id o → dispatched a = true) →
  ∃ a, observes b o a.
Proof.
  intros Hk Hlt Hst Hd. apply known_action_some in Hk. rewrite elem_of_rev, elem_of_map in Hk.
  destruct Hk as (a & [= Hid ->] & Ha). exists a. split_and!; [done|done|by apply Hd|done|].
  intros a' Ha' Hd' [Hlo Hhi]. apply not_true_iff_false in Hst. apply Hst. unfold stale_reference.
  apply existsb_exists. exists a'. rewrite <- list_elem_of_In. split; [done|]. rewrite Hd'. lia.
Qed.

Lemma judge_end_quiet b observed r :
  quiet (judge_end b observed r) →
  quiet r ∧ final_action_unobserved b = false
  ∧ ∀ a, a ∈ b_actions b → dispatched a = true → ac_id a ∈ observed.
Proof.
  unfold judge_end. cbv zeta. intros Hq. apply quiet_if in Hq as [Hf Hq].
  apply quiet_if in Hq as [Hu Hq]. split_and!; [done|done|]. intros a Ha Hd.
  apply not_true_iff_false in Hu. apply dec_stable. intros Hn. apply Hu. apply existsb_exists.
  exists a. rewrite <- list_elem_of_In. split; [done|]. rewrite Hd. by rewrite bool_decide_eq_false_2.
Qed.

Lemma ordered_parts ss prior before seen : ordered ss prior before seen → increasing ss ∧ NoDup (ss ++ before).
Proof. intros (? & _ & _ & Hp & Hn). split; [done|]. by rewrite <- Hp. Qed.

Lemma ordered_bounds ss prior before seen x :
  ordered ss prior before seen → x ∈ ss → 0 < x.
Proof. intros (_ & Hb & _) Hx. rewrite Forall_forall in Hb. specialize (Hb x Hx). lia. Qed.

(** A journal that reads: nothing is lost from the report, and when nothing is reported
    the journal is sound. *)
Lemma journal_read b r0 r :
  validate_journal b r0 = Ok r →
  (quiet r → quiet r0 ∧ journal_sound b) ∧ (judging r0 → judging r)
  ∧ (b_actions b ≠ [] → journal_ordered b).
Proof.
  unfold validate_journal. cbv zeta.
  set (r1 := if bool_decide (b_actions b = []) || _ then _ else r0).
  destruct (fold_each check_transition _ _) as [ts|] eqn:Et; [|done].
  pose proof (transitions_ordered b ts Et) as Hto. pose proof (transitions_epochs b ts Et) as Hte.
  set (r2 := if final_epoch_unobserved b then _ else r1).
  assert (judging r0 → judging r2) as Hj2 by (intros Hr; by repeat apply judging_if).
  assert (quiet r2 → quiet r0 ∧ b_actions b ≠ [] ∧ b_observations b ≠ []
                     ∧ final_epoch_unobserved b = false) as Hq2.
  { intros Hq. apply quiet_if in Hq as [Hf Hq]. apply quiet_if in Hq as [He Hq]. by bool_to_prop. }
  case_bool_decide as Hne.
  { intros [= <-]. split_and!; [|done|done]. intros Hq. by destruct (Hq2 Hq) as (_ & ? & _). }
  destruct (fold_each check_action _ _) as [acts|] eqn:Ea; [|done].
  apply actions_loop in Ea as (Hao & Ham & Hid & Hqa & Hja); [|by destruct Hto as (_ & _ & _ & _ & ?)].
  destruct (fold_each _ (b_observations b) _) as [obs|] eqn:Eo; [|done].
  apply observations_loop in Eo as (Hoo & Hob & Hqo & Hjo);
    [|by destruct Hao as (_ & _ & _ & _ & ?)].
  intros [= <-]. split_and!.
  - intros Hq. apply judge_end_quiet in Hq as (Hq & Hfin & Hobs).
    destruct (Hqo Hq) as [Hqa' Hbound]. destruct (Hqa Hqa') as [Hq2' Hdone].
    destruct (Hq2 Hq2') as (Hq0 & _ & Hone & Hfe). split; [done|]. constructor; try done.
    + intros a Ha Hd. apply (Hobs a Ha), Hob, elem_of_map in Hd as (o & Ho & Hin). by exists o.
    + intros o Ho. destruct (Hbound o Ho) as (Hb & s & Hk & Hlt & Hst & Hd).
      unfold bound_to_run in Hb. bool_to_prop. split_and!; [done|done| |].
      * eapply bound_epoch; [|by rewrite <- Hte]. eapply ordered_bounds; [exact Hoo|].
        apply elem_of_map. by exists o.
      * rewrite Ham in Hk. by eapply observes_of.
    + intros a o Ha Ho. unfold final_action_unobserved in Hfin. rewrite Ha, Ho in Hfin.
      bool_to_prop. split; [done|lia].
  - intros Hr. unfold judge_end. cbv zeta. repeat apply judging_if; try done. auto.
  - intros _. apply ordered_parts in Hto as [Ht _]. apply ordered_parts in Hao as Hao'.
    destruct Hao' as [Ha _]. apply ordered_parts in Hoo as [Ho Hnd]. split_and!; try done.
    unfold journal_sequences. destruct Hao as (_ & _ & _ & Hpa & _).
    pose proof (transitions_ordered b ts Et) as (_ & _ & _ & Hpt & _).
    rewrite app_nil_r in Hpt. rewrite Hpa, Hpt in Hnd.
    rewrite (Permutation_app_comm (map ob_sequence _)) in Hnd.
    rewrite (Permutation_app_comm (map ac_sequence _)) in Hnd. by rewrite <- app_assoc in Hnd.
Qed.

End Journal.
End EvidenceFacts.
