(* ===== verification/EvidenceProps.v ===== *)
(** * Artifact paths, handed-back control and facts *)

From Stdlib Require Import SpecFloat.
From S2P Require Import Prelude RustStr RustStrFacts EvidenceTypes Evidence EvidenceFacts.
Import EvidenceTypes Evidence EvidenceFacts.

#[local] Open Scope Z_scope.

Module EvidenceShape.

(** ** Portable paths *)

Definition device_stem (stem : str) : Prop :=
  stem ∈ map lit ["CON"; "PRN"; "AUX"; "NUL"]%string
  ∨ ∃ family digit, family ∈ map lit ["COM"; "LPT"]%string ∧ 48 ≤ digit ≤ 57 ∧ stem = family ++ [digit].

(** A Windows device, alone or with an extension, in any ASCII case. *)
Definition device_name (component : str) : Prop :=
  ∃ stem tail, component = stem ++ tail ∧ device_stem (ascii_uppercase stem)
    ∧ (tail = [] ∨ ∃ extension, tail = chr "." :: extension).

Definition portable_component (component : str) : Prop :=
  component ≠ [] ∧ component ≠ lit "." ∧ component ≠ lit ".."
  ∧ (∀ c, last component = Some c → c ≠ chr "." ∧ c ≠ chr " ")
  ∧ (∀ c, c ∈ component → is_control c = false ∧ is_forbidden_char c = false ∧ c ≠ chr "/")
  ∧ ¬ device_name component.

Definition portable_path (path : str) : Prop :=
  str_len path ≤ 1024 ∧ ∃ components, components ≠ [] ∧ path = join (lit "/") components
    ∧ Forall portable_component components.

Lemma utf8_tail_width s : str_len s = 1 → ∃ c, s = [c] ∧ utf8_encode s = [c].
Proof.
  destruct s as [|c s]; [done|]. cbn [str_len]. pose proof (utf8_width_pos c).
  pose proof (str_len_nonneg s). intros Hl.
  destruct s as [|d s]; [|cbn [str_len] in *; pose proof (utf8_width_pos d); pose proof (str_len_nonneg s); lia].
  exists c. split; [done|]. cbn [str_len] in Hl. unfold utf8_encode, utf8_width in *. cbn [flat_map].
  unfold utf8_encode_char. destruct (c <? 128); [done|].
  destruct (c <? 2048); [lia|]. destruct (c <? 65536); lia.
Qed.

Lemma device_stem_spec stem : is_reserved_stem stem = true ↔ device_stem stem.
Proof.
  unfold is_reserved_stem, device_stem. rewrite orb_true_iff, bool_decide_eq_true. apply or_iff_compat_l.
  split.
  - intros H. bool_to_prop. destruct (utf8_encode stem !! 3%nat) as [b|] eqn:Eb; [|done].
    match goal with H : _ || _ = true |- _ => apply orb_true_iff in H; rename H into Hf end.
    assert (∃ family r, family ∈ map lit ["COM"; "LPT"]%string ∧ stem = family ++ r) as (f & r & Hin & ->).
    { destruct Hf as [[r ->]%starts_with_spec|[r ->]%starts_with_spec].
      - exists (lit "COM"), r. split; [by left|done].
      - exists (lit "LPT"), r. split; [by right; left|done]. }
    assert (str_len f = 3 ∧ length (utf8_encode f) = 3%nat) as [Hl Hw].
    { cbn [map] in Hin. repeat (apply elem_of_cons in Hin as [->|Hin]; [done|]).
      by apply not_elem_of_nil in Hin. }
    rewrite str_len_app in *. destruct (utf8_tail_width r ltac:(lia)) as (c & -> & Hc).
    exists f, c. split; [done|]. split; [|done]. unfold utf8_encode in *. rewrite flat_map_app in Eb.
    rewrite lookup_app_r, Hw in Eb by lia. rewrite Hc in Eb. cbn in Eb. simplify_eq.
    match goal with H : is_ascii_digit _ = true |- _ => by apply is_ascii_digit_spec in H end.
  - intros (f & d & Hin & Hd & ->). cbn [map] in Hin.
    assert (d ∈ [48; 49; 50; 51; 52; 53; 54; 55; 56; 57]) as Hds by (rewrite !elem_of_cons; lia).
    repeat (apply elem_of_cons in Hin as [->|Hin];
      [repeat (apply elem_of_cons in Hds as [->|Hds]; [by vm_compute|]); by apply not_elem_of_nil in Hds|]).
    by apply not_elem_of_nil in Hin.
Qed.

Lemma upper_not_dot c : to_ascii_uppercase c = chr "." ↔ c = chr ".".
Proof.
  unfold to_ascii_uppercase, is_ascii_lower. change (chr ".") with 46. unfold in_range.
  case_if; bool_to_prop; lia.
Qed.

Lemma device_stem_no_dot stem : device_stem (ascii_uppercase stem) → ¬ chr "." ∈ stem.
Proof.
  intros Hs Hd. assert (chr "." ∈ ascii_uppercase stem) as Hu.
  { unfold ascii_uppercase. rewrite elem_of_map. exists (chr "."). split; [|done]. by vm_compute. }
  destruct Hs as [Hs|(f & d & Hf & Hr & E)].
  - revert Hu Hs. generalize (ascii_uppercase stem) as u. cbn [map]. intros u Hu Hs.
    repeat (apply elem_of_cons in Hs as [->|Hs]; [revert Hu; by apply (bool_decide_unpack _); vm_compute|]).
    by apply not_elem_of_nil in Hs.
  - rewrite E in Hu. apply elem_of_app in Hu as [Hu|Hu%list_elem_of_singleton].
    + cbn [map] in Hf.
      repeat (apply elem_of_cons in Hf as [->|Hf]; [revert Hu; by apply (bool_decide_unpack _); vm_compute|]).
      by apply not_elem_of_nil in Hf.
    + change (chr ".") with 46 in Hu. lia.
Qed.

Lemma device_name_spec c :
  device_name c ↔ device_stem (ascii_uppercase (default [] (head (split_on (Z.eqb (chr ".")) c)))).
Proof.
  split.
  - intros (stem & tail & -> & Hs & Ht). pose proof (device_stem_no_dot stem Hs) as Hn.
    assert (all_chars (λ d, negb (chr "." =? d)) stem = true) as Ha.
    { apply forallb_forall. intros d Hd. apply negb_true_iff, Z.eqb_neq. intros <-.
      by apply Hn, list_elem_of_In. }
    destruct Ht as [->|[ext ->]].
    + by rewrite app_nil_r, split_on_none.
    + by rewrite split_on_app_sep by (try apply Z.eqb_refl; done).
  - destruct (join_split_on (chr ".") c) as [Hj _]. pose proof (split_on_nonempty (Z.eqb (chr ".")) c).
    destruct (split_on (Z.eqb (chr ".")) c) as [|w ws]; [done|]. cbn [head default]. intros Hs.
    exists w. destruct ws as [|v ws].
    + exists []. split_and!; [by rewrite app_nil_r|done|by left].
    + exists (chr "." :: join [chr "."] (v :: ws)). split_and!; [done|done|right; by eexists].
Qed.

Lemma check_component_ok c :
  check_component c = Ok tt ↔
  c ≠ [] ∧ c ≠ lit "." ∧ c ≠ lit ".." ∧ (∀ d, last c = Some d → d ≠ chr "." ∧ d ≠ chr " ")
  ∧ Forall (λ d, is_control d = false) c ∧ ¬ device_name c.
Proof.
  assert (∀ d, ends_with [d] c = true ↔ last c = Some d) as He.
  { intros d. rewrite ends_with_spec. split; [intros [r ->]; apply last_snoc|].
    intros (r & ->)%last_Some. by exists r. }
  assert (existsb is_control c = false ↔ Forall (λ d, is_control d = false) c) as Hc.
  { rewrite existsb_false. rewrite Forall_forall. done. }
  rewrite device_name_spec, <- device_stem_spec. unfold check_component, refuse_if, err. cbv zeta.
  pose proof (He (chr ".")) as Hd. pose proof (He (chr " ")) as Hs.
  change [chr "."] with (lit ".") in Hd. change [chr " "] with (lit " ") in Hs.
  destruct (_ || _) eqn:E.
  - split; [done|]. intros (H1 & H2 & H3 & H4 & H5 & _). exfalso.
    rewrite !orb_true_iff, !bool_decide_eq_true in E.
    destruct E as [[[[[?|?]|?]|E]|E]|E]; try done.
    + apply Hd, H4 in E. by destruct E.
    + apply Hs, H4 in E. by destruct E.
    + apply Hc in H5. by rewrite H5 in E.
  - bool_to_prop. destruct (is_reserved_stem _) eqn:Er; [naive_solver|]. split; [|done]. intros _.
    split_and!; try done; [|by apply Hc]. intros d Hl.
    split; intros ->; [apply Hd in Hl|apply Hs in Hl]; congruence.
Qed.

(** The characters of the pieces are those of the joined text, separators apart. *)
Lemma elem_of_join c d ws : d ≠ c → d ∈ join [c] ws ↔ ∃ w, w ∈ ws ∧ d ∈ w.
Proof.
  intros Hd. induction ws as [|w [|v ws] IH]; cbn [join].
  - split; [by intros ?%not_elem_of_nil|]. by intros (w & ?%not_elem_of_nil & _).
  - setoid_rewrite list_elem_of_singleton. naive_solver.
  - setoid_rewrite elem_of_cons. rewrite !elem_of_app, list_elem_of_singleton, IH. naive_solver.
Qed.

Lemma elem_of_split_on c d s : d ≠ c → d ∈ s ↔ ∃ w, w ∈ split_on (Z.eqb c) s ∧ d ∈ w.
Proof. intros Hd. rewrite <- elem_of_join by exact Hd. by rewrite (proj1 (join_split_on c s)). Qed.

(** An artifact path is accepted exactly when it is portable: at most 1024 bytes of
    components separated by slashes, none of them empty, a dot name, ending in a dot or a
    space, a Windows device with or without an extension, or holding a control character,
    a backslash or a colon. In particular no accepted path is absolute or climbs out of
    its directory. *)
Theorem artifact_path_portable path : validate_artifact_path path = Ok tt ↔ portable_path path.
Proof.
  unfold validate_artifact_path, portable_path. change (lit "/") with [chr "/"].
  destruct (join_split_on (chr "/") path) as [Hj Hs]. unfold refuse_if.
  destruct (_ || _) eqn:E; unfold err; cbv iota.
  - split; [done|]. intros (Hl & ws & Hne & -> & Hws). exfalso. bool_to_prop.
    rewrite !orb_true_iff, bool_decide_eq_true, Z.ltb_lt, existsb_true in E.
    destruct E as [[E|E]|(d & Hd & Hf)]; [|lia|].
    + destruct ws as [|w [|v ws]]; [done| |]; apply Forall_cons in Hws as [(Hw & _) _]; cbn [join] in E.
      * done.
      * by apply app_eq_nil in E as [_ ?].
    + apply elem_of_join in Hd as (w & Hw & Hd); [|by intros ->].
      rewrite Forall_forall in Hws. destruct (Hws w Hw) as (_ & _ & _ & _ & Hc & _).
      destruct (Hc d Hd) as (_ & ? & _). congruence.
  - bool_to_prop. rewrite each_ok. split.
    + intros Hf. split; [lia|]. exists (split_on (Z.eqb (chr "/")) path).
      split_and!; [apply split_on_nonempty|done|]. rewrite Forall_forall in Hf, Hs |- *.
      intros w Hw. destruct (proj1 (check_component_ok w) (Hf w Hw)) as (? & ? & ? & ? & Hc & ?).
      split_and!; try done. intros d Hd. rewrite Forall_forall in Hc.
      assert (d ≠ chr "/") as Hsl by (intros ->; by eapply Hs).
      split_and!; [by apply Hc| |done]. rewrite existsb_false in *.
      match goal with H : ∀ x, x ∈ path → _ |- _ => apply H end.
      apply (elem_of_split_on (chr "/")); [done|by exists w].
    + intros (_ & ws & Hne & -> & Hws). rewrite split_on_join; [|done|].
      * eapply Forall_impl; [exact Hws|]. intros w (? & ? & ? & ? & Hc & ?). apply check_component_ok.
        split_and!; try done. rewrite Forall_forall. intros d Hd. by apply Hc.
      * eapply Forall_impl; [exact Hws|]. intros w (_ & _ & _ & _ & Hc & _) Hw.
        by destruct (Hc _ Hw) as (_ & _ & ?).
Qed.

(** ** Control handed back *)

Section Facts.
Context `{JsonValue}.

(** The last word on who has control: every intervention that no other follows was
    returned, and there is one. *)
Definition handed_back (b : Bundle) : Prop :=
  ∃ i, i ∈ b_interventions b ∧ (∀ j, j ∈ b_interventions b → iv_sequence j ≤ iv_sequence i)
    ∧ ∀ j, j ∈ b_interventions b → iv_sequence j = iv_sequence i → iv_status j = Returned.

Lemma latest_sequence_spec ivs s :
  latest_sequence ivs = Some s ↔
  (∃ i, i ∈ ivs ∧ iv_sequence i = s) ∧ ∀ j, j ∈ ivs → iv_sequence j ≤ s.
Proof.
  assert (∀ l x, (x = foldr Z.max x l ∨ foldr Z.max x l ∈ l) ∧ x ≤ foldr Z.max x l
                 ∧ ∀ y, y ∈ l → y ≤ foldr Z.max x l) as Hm.
  { intros l x. induction l as [|y l (Hin & Hx & Hl)]; cbn [foldr].
    - split_and!; [by left|done|by intros y ?%not_elem_of_nil].
    - split_and!; [|lia|].
      + destruct (Z.max_spec y (foldr Z.max x l)) as [[? ->]|[? ->]]; [|right; by left].
        destruct Hin as [?|?]; [by left|right; by right].
      + intros z [->|Hz%Hl]%elem_of_cons; lia. }
  destruct ivs as [|i ivs]; cbn [latest_sequence map].
  { split; [done|]. by intros [(i & ?%not_elem_of_nil & _) _]. }
  destruct (Hm (map iv_sequence ivs) (iv_sequence i)) as (Hin & Hx & Hl). unfold latest_sequence. cbn [map].
  assert (∀ j, j ∈ i :: ivs → iv_sequence j ≤ foldr Z.max (iv_sequence i) (map iv_sequence ivs)) as Hb.
  { intros j [->|Hj]%elem_of_cons; [done|]. apply Hl, elem_of_map. by exists j. }
  assert (∃ j, j ∈ i :: ivs ∧ iv_sequence j = foldr Z.max (iv_sequence i) (map iv_sequence ivs))
    as (j & Hj & Ej).
  { destruct Hin as [E|Hin]; [exists i; split; [by left|done]|].
    apply elem_of_map in Hin as (j & E & Hj). exists j. split; [by right|done]. }
  split.
  - intros [= <-]. split; [by exists j|done].
  - intros [(k & Hk & <-) Hs]. f_equal. specialize (Hb k Hk). specialize (Hs j Hj). lia.
Qed.

Lemma human_control_returned_iff b : human_control_returned b = true ↔ handed_back b.
Proof.
  unfold human_control_returned, handed_back. destruct (latest_sequence _) as [s|] eqn:E.
  - apply latest_sequence_spec in E as [(i & Hi & Hs) Hb]. rewrite forallb_true.
    setoid_rewrite elem_of_filter_bool. setoid_rewrite Z.eqb_eq. unfold is_returned. split.
    + intros Hr. exists i. rewrite Hs. split_and!; [done|done|]. intros j Hj Ej.
      specialize (Hr j (conj Hj Ej)). by destruct (iv_status j).
    + intros (k & Hk & Hm & Hr) j [Hj Ej]. rewrite Hr; [done..|].
      specialize (Hm i Hi). specialize (Hb k Hk). lia.
  - split; [done|]. intros (i & Hi & Hm & _). exfalso.
    assert (latest_sequence (b_interventions b) = Some (iv_sequence i)) as Hl; [|congruence].
    apply latest_sequence_spec. split; [by exists i|done].
Qed.

Definition bundle_facts : list str := map lit ["outcome.id"; "outcome.kind"; "human_control_returned"]%string.

(** A criterion that control be handed back passes exactly when the last intervention
    was returned, and no observation can say otherwise: the facts of the bundle itself
    (outcome and handed-back control) never come from an observation, while every other
    fact is the latest observation's and no earlier one's. *)
Theorem handed_back_is_the_bundles_word b latest fact :
  (fact ∈ bundle_facts → resolve_fact b latest fact = resolve_fact b None fact)
  ∧ (¬ fact ∈ bundle_facts → resolve_fact b latest fact = (o ← latest; fact_of (ob_facts o) fact))
  ∧ ((judge_criterion b true
        {| cr_id := fact; cr_fact := lit "human_control_returned"; cr_required := true;
           cr_predicate := Equals (mk_bool true) |}).1 = Passed ↔ handed_back b).
Proof.
  split_and!.
  - unfold bundle_facts, resolve_fact. cbn [map]. intros Hf.
    repeat case_bool_decide; try done. repeat (apply elem_of_cons in Hf as [?|Hf]; [done|]).
    by apply not_elem_of_nil in Hf.
  - unfold bundle_facts, resolve_fact. cbn [map]. intros Hf.
    rewrite !not_elem_of_cons in Hf. destruct Hf as (? & ? & ? & _).
    rewrite !bool_decide_eq_false_2 by done. by destruct latest.
  - unfold judge_criterion. cbn [negb cr_fact cr_predicate]. unfold resolve_fact.
    rewrite !bool_decide_eq_false_2, bool_decide_eq_true_2 by (by vm_compute). unfold predicate.
    rewrite value_eqb_bool, <- human_control_returned_iff.
    by destruct (human_control_returned b).
Qed.

End Facts.
End EvidenceShape.

(** * What a verified run guarantees *)

Import EvidenceTypes Evidence EvidenceFacts.

#[local] Set Warnings "-register-all".

#[local] Open Scope Z_scope.

Module EvidenceProps.

(** ** The verdict *)

Section Verify.
Context `{JsonValue} (sha256 : list Z → str) (tree_of : list Z → option Tree).
Context (decode_contract : list Z → option Contract) (decode_bundle : list Z → option Bundle).

#[local] Abbreviation verify := (verify sha256 tree_of decode_contract decode_bundle).
#[local] Abbreviation parse_contract := (parse_contract tree_of decode_contract).
#[local] Abbreviation parse_bundle := (parse_bundle tree_of decode_bundle).

(** The artifact is at hand with the declared size and digest. *)
Definition artifact_intact (artifacts : ArtifactInputs) (a : Artifact) : Prop :=
  ∃ bytes, provided artifacts (ar_id a) = Some (Ok bytes)
    ∧ len bytes = ar_size_bytes a ∧ sha256 bytes = ar_sha256 a.

Lemma artifacts_loop artifacts l r0 st :
  fold_each (check_provided sha256 artifacts) l (0, r0) = Ok st →
  (quiet st.2 → quiet r0 ∧ ∀ a, a ∈ l → artifact_intact artifacts a) ∧ (judging r0 → judging st.2).
Proof.
  apply (fold_each_inv (check_provided sha256 artifacts) (λ read st,
    (quiet st.2 → quiet r0 ∧ ∀ a, a ∈ read → artifact_intact artifacts a)
    ∧ (judging r0 → judging st.2))).
  - split; [|done]. intros Hq. split; [done|]. intros a Ha. by apply not_elem_of_nil in Ha.
  - intros read [total r] a st' [Hq Hj] Hs. unfold check_provided in Hs. cbn [snd] in *.
    destruct (provided artifacts (ar_id a)) as [[bytes|why]|] eqn:Ep.
    2-3: simplify_eq; cbn; split; [by intros ?%issue_loud|intros; apply judging_issue; auto].
    destruct (refuse_if _ _); [|done]. cbv zeta in Hs. destruct (refuse_if _ _); [|done].
    simplify_eq. cbn [snd]. split; [|intros; apply judging_if; auto].
    intros Hl. apply quiet_if in Hl as [Hb Hl]. destruct (Hq Hl) as [? Hold]. bool_to_prop.
    split; [done|]. intros a' [?|Ha%list_elem_of_singleton]%elem_of_app; [by apply Hold|]. subst a'.
    by exists bytes.
Qed.

(** The criteria only add their results, and combine the required ones. *)
Definition criterion_result (b : Bundle) (valid : bool) (c : Criterion) : CriterionResult :=
  {| rs_id := cr_id c; rs_required := cr_required c;
     rs_verdict := (judge_criterion b valid c).1; rs_reason := (judge_criterion b valid c).2 |}.

Lemma add_criterion_fields b valid r c :
  rp_criteria (add_criterion b valid r c) = rp_criteria r ++ [criterion_result b valid c]
  ∧ rp_issues (add_criterion b valid r c) = rp_issues r
  ∧ rp_verdict (add_criterion b valid r c)
    = if cr_required c then combine (rp_verdict r) (rs_verdict (criterion_result b valid c))
      else rp_verdict r.
Proof. unfold add_criterion, criterion_result. by destruct (judge_criterion b valid c). Qed.

Lemma criteria_loop b valid cs r :
  let r' := fold_left (add_criterion b valid) cs r in
  rp_criteria r' = rp_criteria r ++ map (criterion_result b valid) cs
  ∧ rp_issues r' = rp_issues r
  ∧ rp_verdict r' = combine (rp_verdict r)
      (worst (map rs_verdict (List.filter rs_required (map (criterion_result b valid) cs)))).
Proof.
  revert r. induction cs as [|c cs IH]; intros r; cbn [fold_left map List.filter].
  - rewrite app_nil_r. split_and!; [done|done|]. by destruct (rp_verdict r).
  - destruct (IH (add_criterion b valid r c)) as (-> & -> & ->).
    destruct (add_criterion_fields b valid r c) as (-> & -> & ->).
    split_and!; [by rewrite <- app_assoc|done|]. cbn [criterion_result rs_required].
    destruct (cr_required c); [|done]. cbn [map]. by rewrite worst_cons, combine_assoc.
Qed.

(** A report, taken apart. *)
Record verified (contract_bytes bundle_bytes : list Z) (expected : ExpectedRun)
    (artifacts : ArtifactInputs) (r : Report) (contract : Contract) (b : Bundle) (r1 : Report) : Prop := {
  vf_contract : parse_contract contract_bytes = Ok contract;
  vf_bundle : parse_bundle bundle_bytes = Ok b;
  vf_quiet : quiet r1 →
      binds (sha256 contract_bytes) b expected = true ∧ b_journal_complete b = true
      ∧ b_degraded b = [] ∧ journal_sound b
      ∧ ∀ a, a ∈ b_artifacts b → artifact_intact artifacts a;
  vf_judging : judging r1;
  vf_declared : ∀ e, e ∈ artifacts → e.1 ∈ map ar_id (b_artifacts b);
  vf_report : r = fold_left (add_criterion b (bool_decide (quiet r1))) (ct_criteria contract) r1;
}.

Lemma verify_parts contract_bytes bundle_bytes expected artifacts r :
  verify contract_bytes bundle_bytes expected artifacts = Ok r →
  ∃ contract b r1, verified contract_bytes bundle_bytes expected artifacts r contract b r1.
Proof.
  unfold Evidence.verify.
  destruct (parse_contract contract_bytes) as [contract|] eqn:Ec; [|done].
  destruct (parse_bundle bundle_bytes) as [b|] eqn:Eb; [|done].
  destruct (check_expected expected); [|done]. cbv zeta.
  set (r0 := {| rp_ok := true |}).
  set (ra := if negb (binds _ _ _) then _ else r0).
  set (rb := if negb (b_journal_complete b) || _ then _ else ra).
  destruct (validate_journal b rb) as [rj|] eqn:Ej; [|done].
  apply journal_read in Ej as (Hqj & Hjj & _).
  destruct (fold_each _ _ (0, rj)) as [st|] eqn:Ea; [|done].
  apply artifacts_loop in Ea as [Hqa Hja].
  destruct (refuse_if _ _) eqn:Er; [|done]. apply refuse_ok in Er. intros [= <-].
  exists contract, b, st.2. constructor; try done.
  - intros Hq. destruct (Hqa Hq) as [Hq1 Hart]. destruct (Hqj Hq1) as [Hq2 Hjs].
    apply quiet_if in Hq2 as [Hc Hq2]. apply quiet_if in Hq2 as [Hb _]. bool_to_prop. done.
  - apply Hja, Hjj. by repeat apply judging_if.
  - intros e He. apply dec_stable. intros Hn. apply not_true_iff_false in Er. apply Er.
    apply existsb_exists. exists e. rewrite <- list_elem_of_In. split; [done|].
    by rewrite bool_decide_eq_false_2.
Qed.

Lemma judging_passed r1 : judging r1 → rp_verdict r1 = Passed → quiet r1.
Proof.
  intros [[Hacc Hsev] Hcr] Hp. unfold required_verdicts in Hacc. rewrite Hcr in Hacc.
  cbn [List.filter map] in Hacc. rewrite app_nil_r, Hp in Hacc. symmetry in Hacc.
  apply worst_passed in Hacc. unfold quiet. destruct (rp_issues r1) as [|i rest]; [done|].
  cbn in Hacc. apply Forall_cons in Hacc as [Hi _]. apply Forall_cons in Hsev as [Hs _].
  rewrite Hs in Hi. by apply severity_not_passed in Hi.
Qed.

(** C3. A passed verdict means the whole run is evidenced: the contract, capability, run,
    session and epoch are the ones admitted; the journal is complete, each dispatched
    action succeeded and was observed after it, by an observation of this run in the epoch
    in force with no other action between, and the last observation follows the last
    action; every declared artifact is at hand with its size and digest; and every required
    criterion's fact is present and satisfies its predicate. *)
Theorem passed_run_is_evidenced contract_bytes bundle_bytes expected artifacts r :
  verify contract_bytes bundle_bytes expected artifacts = Ok r → rp_verdict r = Passed →
  ∃ contract b,
    parse_contract contract_bytes = Ok contract ∧ parse_bundle bundle_bytes = Ok b
    ∧ binds (sha256 contract_bytes) b expected = true
    ∧ b_journal_complete b = true ∧ b_degraded b = []
    ∧ journal_sound b
    ∧ (∀ a, a ∈ b_artifacts b → artifact_intact artifacts a)
    ∧ (∀ c, c ∈ ct_criteria contract → cr_required c = true →
         ∃ v, resolve_fact b (last (b_observations b)) (cr_fact c) = Some v
              ∧ (predicate (cr_predicate c) v).1 = Passed).
Proof.
  intros Hv Hp. apply verify_parts in Hv as (contract & b & r1 & [Hc Hb Hq Hj _ ->]).
  destruct (criteria_loop b (bool_decide (quiet r1)) (ct_criteria contract) r1) as (_ & _ & Hw).
  rewrite Hp in Hw. symmetry in Hw. apply combine_passed in Hw as [Hw1 Hw2].
  pose proof (judging_passed r1 Hj Hw1) as Hqr.
  destruct (Hq Hqr) as (? & ? & ? & ? & ?). exists contract, b. split_and!; try done.
  intros c Hin Hreq. rewrite bool_decide_eq_true_2 in Hw2 by done.
  apply worst_passed in Hw2. rewrite Forall_forall in Hw2.
  assert ((judge_criterion b true c).1 = Passed) as Hjc.
  { apply Hw2, elem_of_map. exists (criterion_result b true c). split; [done|].
    apply list_elem_of_In, filter_In. split; [|done]. apply in_map_iff. exists c.
    split; [done|]. by apply list_elem_of_In. }
  unfold judge_criterion in Hjc. cbn [negb] in Hjc.
  destruct (resolve_fact _ _ _) as [v|]; [|done]. by exists v.
Qed.

(** The verdict is the worst of what was reported: failed if any issue or required
    criterion failed, else incomplete if any is, else passed. Once any issue is reported no
    criterion is judged at all, so a broken journal can satisfy nothing. *)
Theorem verdict_is_worst contract_bytes bundle_bytes expected artifacts r :
  verify contract_bytes bundle_bytes expected artifacts = Ok r →
  rp_verdict r = worst (map is_verdict (rp_issues r) ++ required_verdicts r)
  ∧ Forall (λ i, is_verdict i = severity (is_code i)) (rp_issues r)
  ∧ (rp_issues r ≠ [] → Forall (λ c, rs_verdict c = Incomplete) (rp_criteria r)).
Proof.
  intros Hv. apply verify_parts in Hv as (contract & b & r1 & [_ _ _ [[Hacc Hsev] Hcr] _ ->]).
  destruct (criteria_loop b (bool_decide (quiet r1)) (ct_criteria contract) r1) as (Hc & Hi & Hw).
  unfold required_verdicts in *. rewrite Hcr in *. cbn [List.filter map app] in *.
  rewrite Hc, Hi, Hw. split_and!; [|done|].
  - rewrite Hacc, app_nil_r. by rewrite worst_app.
  - intros Hne. rewrite bool_decide_eq_false_2 by done. apply Forall_forall.
    intros c (c0 & -> & _)%elem_of_map. done.
Qed.

(** When the verifier reports on a bundle with actions, its journal is in order: each
    of the three lists has strictly increasing sequences, no sequence is used twice across
    them, and no action id repeats. *)
Theorem reported_journal_is_ordered contract_bytes bundle_bytes expected artifacts r b :
  verify contract_bytes bundle_bytes expected artifacts = Ok r →
  parse_bundle bundle_bytes = Ok b → b_actions b ≠ [] → journal_ordered b.
Proof.
  intros Hv Hb Hne. unfold Evidence.verify in Hv. rewrite Hb in Hv.
  destruct (parse_contract contract_bytes) as [contract|]; [|done].
  destruct (check_expected expected); [|done]. cbv zeta in Hv.
  destruct (validate_journal _ _) as [rj|] eqn:Ej; [|done].
  by apply journal_read in Ej as (_ & _ & Ho); apply Ho.
Qed.

(** ** Bounds *)

(** The ids and paths read are distinct, the sizes bounded, the total their sum. *)
Definition artifacts_read (read : list Artifact) (st : list str * list str * Z) : Prop :=
  NoDup (map ar_id read) ∧ NoDup (map ar_path read)
  ∧ st.1.1 = rev (map ar_id read) ∧ st.1.2 = rev (map ar_path read)
  ∧ Forall (λ a, ar_size_bytes a ≤ MAX_ARTIFACT_BYTES ∧ validate_artifact_path (ar_path a) = Ok tt) read
  ∧ st.2 = foldr Z.add 0 (map ar_size_bytes read).

Lemma sum_snoc l x : foldr Z.add 0 (l ++ [x]) = foldr Z.add 0 l + x.
Proof. induction l as [|y l IH]; cbn; lia. Qed.

Lemma nodup_snoc (l : list str) x : NoDup l → ¬ x ∈ rev l → NoDup (l ++ [x]).
Proof.
  intros Hn Hx. apply NoDup_app. split_and!; [done| |by apply NoDup_singleton].
  intros y Hy ->%list_elem_of_singleton. by apply Hx, elem_of_rev.
Qed.

Lemma check_artifacts_loop l st :
  fold_each check_artifact l ([], [], 0) = Ok st → artifacts_read l st.
Proof.
  apply (fold_each_inv check_artifact artifacts_read); [by split_and!; try constructor|].
  intros read [[ids paths] total] a st' (Hi & Hp & Ei & Ep & Hf & Et) Hs.
  cbn [fst snd] in *. subst ids paths total. unfold check_artifact in Hs.
  destruct (identifier _); [|done]. destruct (digest _); [|done].
  destruct (validate_artifact_path _) as [[]|] eqn:Ev; [|done].
  destruct (set_insert (ar_id a) _) as [fi ids] eqn:Ei. destruct (set_insert (ar_path a) _) as [fp paths] eqn:Ep.
  destruct (refuse_if _ _) eqn:E1; [|done]. destruct (refuse_if _ _) eqn:E2 in Hs; [|done].
  simplify_eq. refusals. bool_to_prop. subst fi fp.
  apply set_insert_true in Ei as [Hni ->], Ep as [Hnp ->].
  split_and!; cbn [fst snd]; rewrite ?map_app, ?rev_app_distr, ?sum_snoc; try done.
  - by apply nodup_snoc.
  - by apply nodup_snoc.
  - apply Forall_app. split; [done|]. by repeat constructor; try lia.
  - cbn [map]. by rewrite sum_snoc.
Qed.

Lemma sum_below (l : list Artifact) :
  Forall (λ a, ar_size_bytes a ≤ MAX_ARTIFACT_BYTES ∧ validate_artifact_path (ar_path a) = Ok tt) l →
  foldr Z.add 0 (map ar_size_bytes l) ≤ len l * MAX_ARTIFACT_BYTES.
Proof.
  unfold len. induction 1 as [|a l [Ha _] _ IH]; cbn [map foldr length]; [unfold MAX_ARTIFACT_BYTES; lia|].
  lia.
Qed.

Lemma check_bundle_same b b' : check_bundle b = Ok b' → b = b'.
Proof. intros Hc. unfold check_bundle in Hc. let_ok Hc. by simplify_eq. Qed.

Lemma parse_bundle_checks bytes b :
  parse_bundle bytes = Ok b → decode_bundle bytes = Some b ∧ check_bundle b = Ok b.
Proof.
  unfold Evidence.parse_bundle, parse. destruct (_ <? _); [done|]. destruct (tree_of bytes); [|done].
  destruct (negb _); [done|]. destruct (decode_bundle bytes) as [b'|]; [|done]. cbn. intros Hc.
  by pose proof (check_bundle_same _ _ Hc) as ->.
Qed.

(** A bundle that parses declares at most 128 artifacts, with distinct ids, distinct
    portable paths and at most 16 MiB each, at most 64 MiB together; and the running u64
    total the parser keeps cannot overflow whatever sizes within the cap are declared. *)
Theorem bundle_artifacts_bounded bytes b :
  parse_bundle bytes = Ok b →
  len (b_artifacts b) ≤ MAX_ARTIFACTS
  ∧ NoDup (map ar_id (b_artifacts b)) ∧ NoDup (map ar_path (b_artifacts b))
  ∧ Forall (λ a, ar_size_bytes a ≤ MAX_ARTIFACT_BYTES ∧ validate_artifact_path (ar_path a) = Ok tt)
      (b_artifacts b)
  ∧ foldr Z.add 0 (map ar_size_bytes (b_artifacts b)) ≤ MAX_TOTAL_ARTIFACT_BYTES
  ∧ MAX_ARTIFACTS * MAX_ARTIFACT_BYTES ≤ u64_max
  ∧ ∀ read, read `prefix_of` b_artifacts b → foldr Z.add 0 (map ar_size_bytes read) ≤ u64_max.
Proof.
  intros [_ Hc]%parse_bundle_checks. unfold check_bundle in Hc. let_ok Hc. clear Hc. refusals. bool_to_prop.
  match goal with E : fold_each check_artifact _ _ = Ok ?st |- _ =>
    pose proof (check_artifacts_loop _ _ E) as (Hi & Hp & _ & _ & Hf & Et) end.
  rewrite Et in *. split_and!; try done; try (unfold MAX_ARTIFACTS, MAX_ARTIFACT_BYTES, u64_max; lia).
  intros read [rest Hr]. rewrite Hr in Hf. apply Forall_app in Hf as [Hf _]. apply sum_below in Hf.
  assert (len read ≤ MAX_ARTIFACTS) as Hl.
  { unfold len in *. match goal with E : _ ≤ MAX_ARTIFACTS |- _ => rewrite Hr, length_app in E end. lia. }
  unfold MAX_ARTIFACTS, MAX_ARTIFACT_BYTES, u64_max in *. lia.
Qed.

End Verify.

(** ** A run that passes

    A small [serde_json]: null, booleans, integers, strings and arrays, with the digest of
    bytes taken to be their number. *)

Module Sample.

Inductive json : Type :=
  | JNull
  | JBool (b : bool)
  | JNumber (n : Z)
  | JString (s : str)
  | JArray (js : list json).

Fixpoint json_eqb (a b : json) : bool :=
  match a, b with
  | JNull, JNull => true
  | JBool x, JBool y => Bool.eqb x y
  | JNumber x, JNumber y => x =? y
  | JString x, JString y => bool_decide (x = y)
  | JArray xs, JArray ys =>
      (fix all (xs ys : list json) : bool :=
         match xs, ys with
         | [], [] => true
         | x :: xs, y :: ys => json_eqb x y && all xs ys
         | _, _ => false
         end) xs ys
  | _, _ => false
  end.

#[export] Instance json_value : JsonValue.
Proof.
  refine {| value := json; value_eqb := json_eqb;
            is_null j := match j with JNull => true | _ => false end;
            as_string j := match j with JString s => Some s | _ => None end;
            as_array j := match j with JArray js => Some js | _ => None end;
            as_f64 j := match j with JNumber n => Some (binary_normalize 53 1024 n 0 false) | _ => None end;
            mk_string := JString; mk_bool := JBool |}; done.
Defined.

Definition sha256 (bytes : list Z) : str := pad0 64 (fmt_u (len bytes)).
Definition tree_of (_ : list Z) : option Tree := Some (TMap [(lit "id", TLeaf)]).

Definition contract : Contract :=
  {| ct_schema_version := 1; ct_id := lit "onboarding";
     ct_criteria :=
       [{| cr_id := lit "safe"; cr_fact := lit "human_control_returned"; cr_required := true;
           cr_predicate := Equals (JBool true) |};
        {| cr_id := lit "rows"; cr_fact := lit "rows"; cr_required := true;
           cr_predicate := Minimum (JNumber 3) |};
        {| cr_id := lit "note"; cr_fact := lit "note"; cr_required := false;
           cr_predicate := Exists |}] |}.

Definition observation (sequence epoch : Z) (action : str) (facts : list (str * json)) : Observation :=
  {| ob_sequence := sequence; ob_run_id := lit "run"; ob_session_id := lit "session";
     ob_epoch := epoch; ob_after_action_id := action; ob_facts := facts;
     ob_artifact_ids := [lit "log"] |}.

Definition contract_bytes : list Z := [99].
Definition bundle_bytes : list Z := [98; 98].

(** Two actions with an epoch change between them, each observed. *)
Definition bundle : Bundle :=
  {| b_schema_version := 1; b_run_id := lit "run"; b_session_id := lit "session"; b_epoch := 1;
     b_epoch_transitions :=
       [{| et_sequence := 3; et_from_epoch := 1; et_to_epoch := 2; et_reason := lit "handoff" |}];
     b_contract_sha256 := sha256 contract_bytes; b_capability_sha256 := sha256 [];
     b_policy_sha256 := None; b_outcome := Some {| oc_id := lit "done"; oc_kind := Success |};
     b_journal_complete := true; b_degraded := [];
     b_actions := [{| ac_id := lit "open"; ac_sequence := 1; ac_disposition := Succeeded |};
                   {| ac_id := lit "save"; ac_sequence := 4; ac_disposition := Succeeded |}];
     b_observations := [observation 2 1 (lit "open") [];
                        observation 5 2 (lit "save") [(lit "rows", JNumber 7)]];
     b_artifacts := [{| ar_id := lit "log"; ar_path := lit "out/run.log"; ar_sha256 := sha256 [1; 2; 3];
                        ar_size_bytes := 3 |}];
     b_interventions := [{| iv_id := lit "ask"; iv_sequence := 1; iv_reason_code := lit "captcha";
                            iv_status := Returned |}];
     b_human_actions := []; b_recoveries := []; b_locator_hits := [] |}.

Definition expected : ExpectedRun :=
  {| ex_run_id := lit "run"; ex_session_id := lit "session"; ex_epoch := 1;
     ex_contract_sha256 := sha256 contract_bytes; ex_capability_sha256 := sha256 [] |}.

Definition artifacts : ArtifactInputs := [(lit "log", Ok [1; 2; 3])].

Definition run : result Report Error :=
  verify sha256 tree_of (λ _, Some contract) (λ _, Some bundle) contract_bytes bundle_bytes
    expected artifacts.

Definition report : Report :=
  match run with
  | Ok r => r
  | Err _ => {| rp_ok := false; rp_schema_version := 0; rp_verdict := Incomplete;
                rp_contract_sha256 := []; rp_bundle_sha256 := []; rp_run_id := [];
                rp_criteria := []; rp_issues := [] |}
  end.

Lemma run_reports : run = Ok report ∧ rp_verdict report = Passed.
Proof. by vm_compute. Qed.

Lemma bundle_parses :
  parse_bundle tree_of (λ _, Some bundle) bundle_bytes = Ok bundle.
Proof.
  assert (is_ok (parse_bundle tree_of (λ _, Some bundle) bundle_bytes) = true) as Hok by by vm_compute.
  destruct (parse_bundle _ _ _) as [b|] eqn:E; [|done]. apply parse_bundle_checks in E as [[= <-] _]. done.
Qed.

(** Without the last observation the run is incomplete, and nothing is judged. *)
Example unobserved_run_is_incomplete :
  let cut := {| b_schema_version := 1; b_run_id := lit "run"; b_session_id := lit "session";
                b_epoch := 1; b_epoch_transitions := b_epoch_transitions bundle;
                b_contract_sha256 := sha256 contract_bytes; b_capability_sha256 := sha256 [];
                b_policy_sha256 := None; b_outcome := None; b_journal_complete := true;
                b_degraded := []; b_actions := b_actions bundle;
                b_observations := [observation 2 1 (lit "open") []];
                b_artifacts := b_artifacts bundle; b_interventions := []; b_human_actions := [];
                b_recoveries := []; b_locator_hits := [] |} in
  match verify sha256 tree_of (λ _, Some contract) (λ _, Some cut) contract_bytes bundle_bytes
          expected artifacts with
  | Ok r => rp_verdict r = Incomplete ∧ map is_code (rp_issues r) = map lit
              ["final_epoch_unobserved"; "action_has_no_post_observation"; "final_action_unobserved"]%string
            ∧ Forall (λ c, rs_verdict c = Incomplete) (rp_criteria r)
  | Err _ => False
  end.
Proof. vm_compute. split_and!; [done|done|]. by repeat constructor. Qed.

End Sample.

Lemma passed_run_is_evidenced_witness :
  Sample.run = Ok Sample.report ∧ journal_sound Sample.bundle
  ∧ ∀ a, a ∈ b_artifacts Sample.bundle → artifact_intact Sample.sha256 Sample.artifacts a.
Proof.
  split; [exact (proj1 Sample.run_reports)|].
  destruct (passed_run_is_evidenced _ _ _ _ _ _ _ _ _
    (proj1 Sample.run_reports) (proj2 Sample.run_reports))
    as (c & b & _ & Hb & _ & _ & _ & Hs & Ha & _).
  rewrite Sample.bundle_parses in Hb. injection Hb as <-. done.
Defined.

Lemma verdict_is_worst_witness :
  rp_verdict Sample.report
  = worst (map is_verdict (rp_issues Sample.report) ++ required_verdicts Sample.report).
Proof. by destruct (verdict_is_worst _ _ _ _ _ _ _ _ _ (proj1 Sample.run_reports)). Defined.

Lemma reported_journal_is_ordered_witness : journal_ordered Sample.bundle.
Proof.
  eapply (reported_journal_is_ordered Sample.sha256 Sample.tree_of (λ _, Some Sample.contract)
    (λ _, Some Sample.bundle) Sample.contract_bytes Sample.bundle_bytes Sample.expected
    Sample.artifacts Sample.report Sample.bundle).
  - exact (proj1 Sample.run_reports).
  - exact Sample.bundle_parses.
  - done.
Defined.

Lemma bundle_artifacts_bounded_witness :
  parse_bundle Sample.tree_of (λ _, Some Sample.bundle) Sample.bundle_bytes = Ok Sample.bundle
  ∧ len (b_artifacts Sample.bundle) ≤ MAX_ARTIFACTS.
Proof.
  split; [exact Sample.bundle_parses|].
  by destruct (bundle_artifacts_bounded _ _ _ _ Sample.bundle_parses).
Defined.

End EvidenceProps.
